(* ===== verification/_CoqProject ===== *)
-Q . S2P
Prelude.v
RangeAlloc.v
Disk.v
Sizes.v
External.v
Json.v
StaticHeader.v
MDA.v
BDA.v
Table.v
Actions.v
Shared.v
SimEngine.v
SimInvariant.v
System.v
Names.v
Crypt.v
BlockDev.v
Devices.v
BlockDevMgr.v
Alloc.v
Bindings.v
Setup.v
PoolMetadata.v
Tiers.v
Writing.v
Dm.v
Mdv.v
Backstore.v
BackstoreSpec.v
ThinPool.v
ThinPoolSpec.v
Pool.v
PoolSpec.v
BackstoreGrow.v
FsSpec.v
PoolOps.v
DeviceSet.v
Identify.v
Liminal.v
Engine.v
EngineSpec.v
Keys.v
EngineApi.v
Dbus.v
DbusMethods.v
DbusTree.v
DbusSteps.v
DbusTypes.v
DbusSpec.v
DbusSafety.v
DbusDaemon.v
SimApi.v
DbusSim.v
DbusExample.v
Suffix.v
Rpc.v
RpcClient.v
StratisMin.v
RpcSpec.v
RpcReplies.v
RpcSim.v
RpcClientSpec.v
RpcExample.v
PidLock.v
Utils.v
Generators.v
Dump.v
Programs.v
Clevis.v
Keyfiles.v
Reports.v
Daemon.v
UtilsMain.v
RpcSocket.v
