(* ===== verification/Prelude.v ===== *)
(** * Stratis: a verification development for the stratisd storage daemon

    stratisd keeps pools of block devices.  A pool stacks, from the bottom up: block devices with
    Stratis metadata at their start (optionally encrypted with LUKS2), a data tier and an optional
    cache tier that allocate space from them, a devicemapper device that presents the tiers, a thin pool
    on regions of that device, and filesystems on the thin pool.  The engine keeps the running pools
    in a table and assembles others from the devices udev reports.  Clients reach the engine through the D-Bus API
    of stratisd, or through the JSON RPC server of stratisd-min and its command line; some small programs
    read the metadata or prepare the boot.  All code is in Rust; file names below
    are under [src/src/engine/] unless they start with another directory of [src/src/], and [S/] stands for [strat_engine/].

    ** How the code is modelled

    A function that cannot fail is a Rocq function.  One that can returns [res]: a value, a
    [StratisError], or a panic ([assert!], [expect], [unreachable!], an index out of range, an arithmetic
    overflow where the code would panic).  Code with effects is a function of an explicit state ([st],
    with the notations [let!] and [;;!]): the file of one device for the metadata layer, the
    whole system ([System]) for the layers above, and in addition the object a method mutates ([obj]).
    Errors keep the changes made before them.  [Sectors] and [Bytes] are [Z] with their widths written
    out where they matter, a [BTreeMap] is a sorted list, a [HashMap] is a [gmap] or, where the order of
    iteration shows, an association list.  Error messages are kept as format strings; log messages
    are left out.

    ** Code outside the repository

    It enters as type classes.  Classes without laws leave every answer open, so that theorems
    hold whatever fails: [Cryptsetup] (libcryptsetup, clevis, udev, mounts; calls are the events [cryptE] of
    [System]), [Devicemapper] (devicemapper, programs run by [S/cmd.rs]), [ClevisCodec], [Chrono].
    Classes with laws state documented behaviour: [Crc32c], [UuidFormat] and [UuidDisplay] ([External]),
    [DmNames], [FsSerde], [PoolSerde] and [RpcSerde] (serde_json round trips), [JoseCrates] (texts are no shorter than what they encode), [Clap] (the matches of a
    command line, and the panic on values that are no UTF-8), [DmLaws] and [KeyctlLaws].  Each has a concrete
    instance, which the witnesses use.  Device files ([Disk]) may fail at any read, write, seek or sync,
    and a failed write may be torn.

    The interface between an engine and its clients, the traits of engine.rs, is a class of operations, [Traits], with the laws
    that the clients rely on in classes of their own ([EngineInv], [EngineLaws], [EngineNames], all in [EngineApi]).  The simulated engine is shown to have
    these laws.  The real engine has not: some of its operations fail half-way or panic.  So the theorems on the D-Bus API and the JSON RPC server
    are either free of laws and hold for every engine, or are about the daemons with the simulator; the lemmas they are made of are
    proved for every engine with the laws.

    ** Files

    Foundations: [Prelude] (outcomes, monads, tactics, lists), [Disk] (buffers, integers, files),
    [External], [Json], [System] (files, clock, random UUIDs, events), [Dm].

    On-disk metadata, [S/metadata/]: [Sizes] is sizes.rs, [StaticHeader] static_header.rs, [MDA] mda.rs,
    [BDA] bda.rs; [Writing] is [S/writing.rs].

    Block devices, [S/backstore/]: [RangeAlloc] is range_alloc.rs, [Crypt] the directory crypt/ with the decoding of Clevis bindings in [Clevis], [BlockDev]
    blockdev.rs, [Devices] devices.rs with [S/udev.rs] and [S/device.rs], [BlockDevMgr] blockdevmgr.rs and
    shared.rs, [Tiers] data_tier.rs and cache_tier.rs, [Backstore] backstore.rs.  [Alloc], [Bindings],
    [BackstoreSpec] and [BackstoreGrow] (devices that join) hold proofs about them.

    Thin pool, [S/thinpool/]: [Mdv] is mdv.rs, [ThinPool] thinpool.rs, filesystem.rs and thinids.rs;
    [ThinPoolSpec] and [FsSpec] hold proofs.

    Pools: [Pool] is [S/pool.rs]; [PoolSpec] and [PoolOps] hold proofs.

    Assembling pools, [S/liminal/]: [Setup] is setup.rs, [DeviceSet] device_info.rs, [Identify]
    identify.rs, [Liminal] liminal.rs; [PoolMetadata] proves saving and restoring metadata together.

    Engine: [Engine] is [S/engine.rs] with the search for programs of [S/cmd.rs]; [EngineSpec] holds
    proofs.  [Keys] is [S/keys.rs], whose key files and private tmpfs are in [Keyfiles]; [Names] is [S/names.rs].  [Reports] is the JSON values of the
    engine and of what it keeps.

    Shared by both engines: [Table] is structures.rs, [Actions] types/actions.rs, [Shared] shared.rs, macros.rs
    and parts of types/.  [SimEngine] is sim_engine/, [SimInvariant] its proofs.  [EngineApi] is engine.rs, and [SimApi] makes the
    simulated engine an instance of it.

    D-Bus API, dbus_api/ and stratis/ipc_support/: [Dbus] holds the tree of objects, the interfaces with their methods and properties, the
    actions and the handlers that carry them out; [DbusMethods] the body of each method; [DbusSteps] the daemon as a step
    relation (calls, property reads, udev and devicemapper events, pending actions), for any engine.  Two methods give back the engine's lock before they queue their
    action, so they end in a step of their own.  [DbusTypes] holds proofs for any engine; [DbusTree], [DbusSpec], [DbusSafety] and [DbusDaemon] those for
    an engine with the laws; [DbusSim] the theorems on the daemon with the simulator, [DbusExample] the witnesses.

    JSON RPC, jsonrpc/: [Rpc] is the server, whose requests are tasks that give up the engine's lock between steps and are interleaved; [RpcClient] the
    client, with [Suffix] for the sizes it prints; [RpcSocket] the listener and the descriptors of its connections.  [RpcReplies] and [RpcClientSpec] hold proofs for any engine, [RpcSpec] and [RpcSim] those
    for an engine with the laws and for the simulator, [RpcExample] the witnesses.

    Programs, bin/: [StratisMin] is stratis-min.rs; [PidLock] the locks of stratisd.rs and stratisd-min.rs; [Utils] and [UtilsMain] stratis-utils.rs; [Generators]
    the systemd generators; [Dump] stratis_dumpmetadata.rs.  [Programs] is the rest of [S/cmd.rs].

    Threads, stratis/: [Daemon] is the main task of run.rs with the udev thread (udev_monitor.rs), the D-Bus threads (ipc_support/dbus_support.rs) and the
    devicemapper thread (dm.rs) as step relations; also [S/dm.rs] and systemd/mod.rs.

    ** What the theorems show

    - Metadata.  [device_identifiers_repairs], [device_identifiers_keeps_a_copy], [write_identify_disown]:
      the two copies of a static header are repaired from the newer valid one, and no fault destroys the
      last valid copy.  [mda_register_refinement], [mda_failed_save_keeps_state], [bda_lifecycle]: the four regions of an
      MDA are a register that a failed save does not change.  [pool_metadata_durable]: a pool's metadata written to any
      choice of its devices is what a restart reads; [dump_exact]: it is also what the dump prints, which changes nothing.
    - Allocation.  [insert_spec], [insert_all_spec] and [request_spec] (one device), [alloc_space_spec], [coalesce_spec],
      [map_to_dm_spec] (the devices of a pool), [data_tier_alloc_spec], [backstore_alloc_spec] and
      [backstore_request_spec]: space given out is disjoint, of the requested size and inside
      the devices, and a failed allocation changes nothing.  [flex_devices_invariant] carries this up to the regions of
      the thin pool's devices, and [check_metadata_spec] to the check made at the next start.  [predict_usage_exact]: the space
      predicted for a pool is the space its devices have.
    - Thin pool.  [thin_check_terminates], [calc_lowater_spec], [thin_ids_fresh]; [mdv_refines_map] and
      [mdv_failed_save]: the metadata volume is a map from UUIDs to records.
    - Pools and engine.  [pool_requests_invariant] (any sequence of requests to a pool, those that add devices included as long as the devices are new to the
      pool and no [init_cache] loses the cap device, which [init_cache_loses_cap] shows to happen), [engine_invariant] (any sequence of requests and events,
      whatever fails), [event_transitions] (a state machine per pool), [destroy_rename_spec], [table_insert_spec],
      [device_set_invariant], [discovery_order_irrelevant], [identified_iff_copies_agree]; [engine_report_exact]: the report tells
      every pool and every device, once.
    - Encryption and keys.  [handle_ops_atomic], [mgr_bindings_atomic], [luks2_token_roundtrip],
      [keyring_refines_map], [key_description_roundtrip], [dm_names_distinct]; [clevis_header_exact]: bindings, however nested, are read back as
      they were made, without the options of TPM2 bindings; [key_files_private]: a key given to Clevis is out of the host's reach and leaves no file behind.
    - Simulator.  [sim_engine_invariant], [sim_engine_idempotent], [sim_pool_keeps_unlockable], and [sim_implements_engine]: it has the laws of an engine.
    - D-Bus API.  With the simulator, [dbus_tree_mirrors_engine]: in every reachable state the tree of objects and the pending actions
      together show the pools, filesystems and devices of the engine, but for pools whose destruction is not queued yet; [dbus_eventually_shown]: once the actions are
      processed the tree alone does; [dbus_never_panics], [get_managed_objects_exact].  With any engine, [dbus_replies_typed]: replies have the declared types, but for that of
      [GetManagedObjects], which declares none.
    - JSON RPC.  For any interleaving of the requests: [rpc_server_safe] with the simulator; [rpc_requests_answered] with any engine (a reply, or the engine's panic);
      [rpc_descriptors_closed]; [rpc_client_exact]:
      a command of the client does what the engine's operation does, and says so; [to_suffix_repr_spec], [print_table_spec].
    - Programs.  [stratis_min_safe]: the command line relies on no more than its grammar and arguments in UTF-8 ([other_bytes_conform]); [one_daemon_runs]; [generators_exact]; [programs_found].
    - Threads.  [daemon_shutdown]: events are forwarded, and every thread ends once the main task has; [dm_events_not_missed].

    Some lemmas prove faults of the code: [torn_save_restart], [do_nothing_still_writes], [startup_name_conflict],
    [init_cache_stale], [populate_uninitialized], [long_key_panics], [add_data_reported], [unlock_leaks], [refused_without_daemon],
    [add_cache_unreachable], [description_exposes_key], [udev_thread_starves], [server_exhausted] and others.

    ** Fuel

    [Backstore.request_loop] halves a 64-bit amount in each round: [REQUEST_FUEL] is 64, and
    [BackstoreSpec.request_terminates] shows that more changes nothing.  [ThinPool.check_loop] has [check_fuel],
    computed from the free space of the backstore, since every round but the last takes some;
    [thin_check_terminates] shows that it always suffices.  The two loops on buffers in [Keys] end in their second round,
    whatever the keyring ([populate_loop_run], [describe_loop_run]), so fuel 2 suffices.  [Clevis.pin_dispatch] has [depth], three times the size of the
    header: each level is a quarter smaller than the one around it, and [clevis_header_exact] shows that more changes nothing.  [Generators.resolve] follows at most 40 symbolic links, as
    the kernel does.  All other recursion is structural; the daemons' main loops are step relations.

    ** Not modelled

    D-Bus introspection and the dbus crate's marshalling; the real engine as an instance of [Traits] (what is
    proved of it is in [EngineSpec], [PoolOps] and below); an invariant of the space of the cache tier; events between the
    properties of one [GetProperties] or [GetAllProperties] call, which takes the engine's lock for each and is one step here; log messages; the tokio runtime and the argument parser; devicemapper ioctls and the names of links ([S/devlinks.rs]); the drop of the shared tmpfs in [S/keys.rs]; tests. *)
From stdpp Require Import base list gmap strings countable.
From Stdlib Require Import ZArith Lia.

Declare Scope stratis_scope.
Delimit Scope stratis_scope with stratis.
#[global] Open Scope stratis_scope.
#[global] Open Scope Z_scope.

(** ** Outcomes of Rust functions

    [StratisError] mirrors the constructors of [StratisError] the modelled code
    builds; the text of a message is kept as its format string, without the
    interpolated arguments.  A [res] is the outcome of a call: a value, an
    error value, or a panic ([assert!], [expect], [unreachable!], an index out
    of range). *)
Inductive StratisError : Type :=
| Msg (text : string)
| Chained (text : string) (chained : StratisError)
| BestEffortError (text : string) (errs : list StratisError)
| RollbackError (causal_error rollback_error : StratisError)
| NoActionRollbackError (causal_error rollback_error : StratisError)
| Io (text : string)
| Nix (text : string)
| UuidError (text : string)
| Utf8Error (text : string)
| Crypt (text : string)
| DM (text : string).

Inductive res (A : Type) : Type :=
| Ok (a : A)
| Err (e : StratisError)
| Panic (why : string).
Arguments Ok {A} a.
Arguments Err {A} e.
Arguments Panic {A} why.

Definition rbind {A B} (r : res A) (k : A → res B) : res B :=
  match r with
  | Ok a => k a
  | Err e => Err e
  | Panic s => Panic s
  end.

Definition rmap {A B} (f : A → B) (r : res A) : res B := rbind r (λ a, Ok (f a)).

(** [Result::is_ok] *)
Definition is_ok {A} (r : res A) : bool :=
  match r with Ok _ => true | _ => false end.

(** [Option::expect] *)
Definition expect {A} (o : option A) (why : string) : res A :=
  match o with Some a => Ok a | None => Panic why end.

(** [assert!] followed by the rest of the function *)
Definition rassert {A} (b : bool) (why : string) (k : res A) : res A :=
  if b then k else Panic why.

Notation "'let?' x := r 'in' k" := (rbind r (λ x, k))
  (at level 10, x name, r at level 100, k at level 200) : stratis_scope.
Notation "'let?' ' p := r 'in' k" := (rbind r (λ x, match x with p => k end))
  (at level 10, p pattern, r at level 100, k at level 200) : stratis_scope.

Lemma rbind_Ok {A B} (r : res A) (k : A → res B) b :
  rbind r k = Ok b ↔ ∃ a, r = Ok a ∧ k a = Ok b.
Proof. destruct r; simpl; split; intros; destruct_or?; destruct_and?; naive_solver. Qed.

Lemma rbind_Err {A B} (r : res A) (k : A → res B) e :
  rbind r k = Err e ↔ r = Err e ∨ ∃ a, r = Ok a ∧ k a = Err e.
Proof. destruct r; simpl; split; intros; destruct_or?; destruct_and?; naive_solver. Qed.

(** ** Stateful computations

    [st S A]: a computation that returns a [Result<A, StratisError>] (or panics) and
    changes a state of type [S]; [let!] is [?] on its outcome. *)
Definition st (S A : Type) : Type := S → res A * S.

Definition iret {S A} (a : A) : st S A := λ f, (Ok a, f).
Definition ierr {S A} (e : StratisError) : st S A := λ f, (Err e, f).
Definition ibind {S A B} (m : st S A) (k : A → st S B) : st S B := λ f,
  match m f with
  | (Ok a, f') => k a f'
  | (Err e, f') => (Err e, f')
  | (Panic s, f') => (Panic s, f')
  end.
(** a pure outcome inside [st] *)
Definition ilift {S A} (r : res A) : st S A := λ f, (r, f).
(** [Result::or_else(|_| k)] *)
Definition ior_else {S A} (m k : st S A) : st S A := λ f,
  match m f with (Err _, f') => k f' | r => r end.
(** the [Result] itself, as a value *)
Definition itry {S A} (m : st S A) : st S (StratisError + A) := λ f,
  match m f with
  | (Ok a, f') => (Ok (inr a), f')
  | (Err e, f') => (Ok (inl e), f')
  | (Panic s, f') => (Panic s, f')
  end.

Notation "'let!' x := m 'in' k" := (ibind m (λ x, k))
  (at level 10, x name, m at level 100, k at level 200) : stratis_scope.
Notation "'let!' ' p := m 'in' k" := (ibind m (λ x, match x with p => k end))
  (at level 10, p pattern, m at level 100, k at level 200) : stratis_scope.
Notation "m ;;! k" := (ibind m (λ _, k)) (at level 60, right associativity) : stratis_scope.

(** [safe m]: no run of [m] panics. *)
Definition safe {S A} (m : st S A) : Prop := ∀ s, match (m s).1 with Panic _ => False | _ => True end.

Create HintDb safe.

Section safe.
Context {S : Type}.

Lemma safe_ret {A} (a : A) : safe (S:=S) (iret a).
Proof. by intros s. Qed.
Lemma safe_err {A} e : safe (S:=S) (A:=A) (ierr e).
Proof. by intros s. Qed.
Lemma safe_bind {A B} (m : st S A) (k : A → st S B) : safe m → (∀ a, safe (k a)) → safe (ibind m k).
Proof.
  intros Hm Hk s. unfold ibind. specialize (Hm s). destruct (m s) as [[a|e|w] s']; simpl in *; [|done..].
  apply Hk.
Qed.
Lemma safe_try {A} (m : st S A) : safe m → safe (itry m).
Proof. intros Hm s. specialize (Hm s). unfold itry. by destruct (m s) as [[a|e|w] s']. Qed.
Lemma safe_lift {A} (r : res A) : (∀ w, r ≠ Panic w) → safe (S:=S) (ilift r).
Proof. intros Hr s. simpl. destruct r; naive_solver. Qed.
End safe.
#[export] Hint Resolve safe_ret safe_err safe_lift : safe.

(** Case on every match until [safe] is established by its hints. *)
Ltac safely :=
  repeat first
    [ solve [eauto 2 with safe]
    | match goal with |- ∀ _, _ => intros ? end
    | match goal with |- safe (match ?x with _ => _ end) => destruct x end
    | apply safe_bind | apply safe_try ].

(** ** Rust strings

    A [String], [Name] or [Path] is the list of its Unicode scalar values;
    [str] makes one from a literal. *)
Definition Str : Type := list Z.
Definition str (s : string) : Str := (λ a, Z.of_nat (Ascii.nat_of_ascii a)) <$> String.list_ascii_of_string s.

#[global] Instance Str_eq_dec : EqDecision Str := _.
#[global] Instance Str_countable : Countable Str := _.

(** ** Machine integers

    [Sectors], [DataBlocks], [MetaBlocks] are newtypes of [u64], [Bytes] of
    [u128]; their [+], [-], [*] are the release-mode wrapping operations of the
    underlying integer. *)
Definition u64_max : Z := 2 ^ 64 - 1.
Definition u128_max : Z := 2 ^ 128 - 1.
Definition u64 (z : Z) : Prop := 0 ≤ z ≤ u64_max.
Definition u128 (z : Z) : Prop := 0 ≤ z ≤ u128_max.
Definition wrap64 (z : Z) : Z := z mod 2 ^ 64.
Definition wrap128 (z : Z) : Z := z mod 2 ^ 128.
Notation "a +64 b" := (wrap64 (a + b)) (at level 50, left associativity) : stratis_scope.
Notation "a -64 b" := (wrap64 (a - b)) (at level 50, left associativity) : stratis_scope.

Definition checked_add (a b : Z) : option Z :=
  if a + b <=? u64_max then Some (a + b) else None.

(** [Iterator::sum] over [u64] values *)
Definition sum64 (l : list Z) : Z := foldl (λ acc x, acc +64 x) 0 l.

Definition Zsum (l : list Z) : Z := foldr Z.add 0 l.

#[global] Instance u64_dec z : Decision (u64 z).
Proof. unfold u64. apply _. Defined.

Lemma wrap64_small z : u64 z → wrap64 z = z.
Proof. unfold u64, u64_max, wrap64. intros. apply Z.mod_small. lia. Qed.

Lemma wrap64_u64 z : u64 (wrap64 z).
Proof. unfold u64, u64_max, wrap64. pose proof (Z.mod_pos_bound z (2^64)). lia. Qed.

Lemma wrap64_add_l a b : wrap64 (wrap64 a + b) = wrap64 (a + b).
Proof. unfold wrap64. by rewrite Zplus_mod_idemp_l. Qed.

Lemma sum64_acc l acc : foldl (λ acc x, acc +64 x) (wrap64 acc) l = wrap64 (acc + Zsum l).
Proof.
  revert acc. induction l as [|x l IH]; intros acc; simpl.
  - f_equal; lia.
  - rewrite wrap64_add_l, IH. f_equal; lia.
Qed.

(** A wrapping sum is the exact sum, wrapped once. *)
Lemma sum64_wrap l : sum64 l = wrap64 (Zsum l).
Proof. unfold sum64. apply (sum64_acc l 0). Qed.

Lemma sum64_exact l : u64 (Zsum l) → sum64 l = Zsum l.
Proof. intros. rewrite sum64_wrap. by apply wrap64_small. Qed.

Lemma Zsum_app l1 l2 : Zsum (l1 ++ l2) = Zsum l1 + Zsum l2.
Proof. induction l1; simpl; lia. Qed.

Lemma Zsum_nonneg l : Forall (λ x, 0 ≤ x) l → 0 ≤ Zsum l.
Proof. induction 1; simpl; lia. Qed.

(** ** Automation *)

(** Reflect boolean comparisons on [Z] into propositions, everywhere. *)
Ltac zb :=
  repeat match goal with
  | H : (_ <? _) = true |- _ => apply Z.ltb_lt in H
  | H : (_ <? _) = false |- _ => apply Z.ltb_ge in H
  | H : (_ <=? _) = true |- _ => apply Z.leb_le in H
  | H : (_ <=? _) = false |- _ => apply Z.leb_gt in H
  | H : (_ =? _) = true |- _ => apply Z.eqb_eq in H
  | H : (_ =? _) = false |- _ => apply Z.eqb_neq in H
  | H : (_ && _) = true |- _ => apply andb_true_iff in H; destruct H
  | H : (_ || _) = false |- _ => apply orb_false_iff in H; destruct H
  | H : negb _ = true |- _ => apply negb_true_iff in H
  | H : negb _ = false |- _ => apply negb_false_iff in H
  end.

(** Case on the condition of an [if] in the goal. *)
Ltac zif :=
  match goal with |- context [if ?b then _ else _] => destruct b eqn:?; zb end.

(** Remove wrap-arounds that [lia] can see are not needed. *)
Ltac nowrap :=
  repeat match goal with
  | |- context [wrap64 ?z] => rewrite (wrap64_small z) by (unfold u64, u64_max in *; lia)
  end.
Ltac nowrap_in H :=
  repeat match type of H with
  | context [wrap64 ?z] => rewrite (wrap64_small z) in H by (unfold u64, u64_max in *; lia)
  end.

Create HintDb stratis.
#[export] Hint Resolve wrap64_u64 Zsum_nonneg : stratis.
