(* ===== verification/RangeAlloc.v ===== *)
(** * The per-device sector allocator

    Models [src/engine/strat_engine/backstore/range_alloc.rs]: the
    [PerDevSegments] map of used ranges and the [RangeAllocator] built on it.
    A [BTreeMap<Sectors, Sectors>] is an association list sorted by key, in the
    order its iterator yields. *)
From stdpp Require Import base list sets strings.
From Stdlib Require Import ZArith Lia Sorting.Sorted.
From S2P Require Import Prelude.

(** ** [BTreeMap] operations the allocator uses *)
Module BTree.

Fixpoint get (k : Z) (m : list (Z * Z)) : option Z :=
  match m with
  | [] => None
  | (k', v) :: r => if k =? k' then Some v else get k r
  end.

(** [BTreeMap::insert]: the displaced value and the new map *)
Fixpoint insert (k v : Z) (m : list (Z * Z)) : option Z * list (Z * Z) :=
  match m with
  | [] => (None, [(k, v)])
  | (k', v') :: r =>
      if k <? k' then (None, (k, v) :: m)
      else if k =? k' then (Some v', (k, v) :: r)
      else let '(o, r') := insert k v r in (o, (k', v') :: r')
  end.

Fixpoint remove (k : Z) (m : list (Z * Z)) : list (Z * Z) :=
  match m with
  | [] => []
  | (k', v) :: r => if k =? k' then r else (k', v) :: remove k r
  end.

(** collecting keys into a [BTreeSet<Sectors>] *)
Fixpoint set_insert (k : Z) (s : list Z) : list Z :=
  match s with
  | [] => [k]
  | k' :: r => if k <? k' then k :: s else if k =? k' then s else k' :: set_insert k r
  end.

Definition set_collect (ks : list Z) : list Z := foldl (λ s k, set_insert k s) [] ks.

End BTree.

(** ** [PerDevSegments] *)
Record PerDevSegments : Type := mkPDS { limit : Z; used : list (Z * Z) }.

#[global] Instance PerDevSegments_eq_dec : EqDecision PerDevSegments.
Proof. solve_decision. Defined.

Module PDS.

Definition new (lim : Z) : PerDevSegments := mkPDS lim [].

Definition len (self : PerDevSegments) : nat := length (used self).

Definition sum (self : PerDevSegments) : Z := sum64 (map snd (used self)).

Definition iter (self : PerDevSegments) : list (Z * Z) := used self.

Fixpoint locate_loop (value : Z) (keys : list Z) (prev next : option Z)
    : option Z * option Z :=
  match keys with
  | [] => (prev, next)
  | key :: keys' =>
      let prev := if key <=? value then Some key else prev in
      if value <=? key then (prev, Some key)
      else locate_loop value keys' prev next
  end.

Definition locate_prev_and_next (self : PerDevSegments) (value : Z)
    : option Z * option Z :=
  locate_loop value (map fst (used self)) None None.

(** The left half of [insertion_result]: how the new range meets [prev]. *)
Definition insertion_lhs (self : PerDevSegments) (prev : option Z) (start len : Z)
    : res (option (Z * Z) * (Z * Z)) :=
  match prev with
  | Some prev =>
      let? prev_len := expect (BTree.get prev (used self)) "see precondition" in
      if start <? prev +64 prev_len then
        Err (Msg "range to add overlaps previous range")
      else if prev +64 prev_len =? start then
        Ok (None, (prev, prev_len +64 len))
      else Ok (Some (prev, prev_len), (start, len))
  | None => Ok (None, (start, len))
  end.

(** The right half: how the (possibly merged) range meets [next]. *)
Definition insertion_rhs (self : PerDevSegments) (next : option Z) (new_start new_len : Z)
    : res ((Z * Z) * option (Z * Z)) :=
  match next with
  | Some next =>
      if next <? new_start +64 new_len then
        Err (Msg "range to add overlaps subsequent range")
      else
        let? next_len := expect (BTree.get next (used self)) "see precondition" in
        if new_start +64 new_len =? next then
          Ok ((new_start, new_len +64 next_len), None)
        else Ok ((new_start, new_len), Some (next, next_len))
  | None => Ok ((new_start, new_len), None)
  end.

Definition insertion_result (self : PerDevSegments) (prev next : option Z) (range : Z * Z)
    : res (option (Z * Z) * (Z * Z) * option (Z * Z)) :=
  let '(start, len) := range in
  rassert (negb (len =? 0)) "len != Sectors(0)"
    match checked_add start len with
    | None => Err (Msg "range extends beyond maximum possible size")
    | Some end_ =>
        if limit self <? end_ then Err (Msg "range extends beyond limit")
        else
          let? '(lhs, (new_start, new_len)) := insertion_lhs self prev start len in
          let? '(r, rhs) := insertion_rhs self next new_start new_len in
          Ok (lhs, r, rhs)
    end.

Definition insert (self : PerDevSegments) (range : Z * Z) : res PerDevSegments :=
  let '(start, len) := range in
  if limit self <? start then Err (Msg "value specified for start of range exceeds limit")
  else if len =? 0 then Ok self
  else
    let '(prev, next) := locate_prev_and_next self start in
    let? '(prev_res, (new_start, new_len), next_res) :=
      insertion_result self prev next range in
    let used1 := match prev, prev_res with
                 | Some p, None => BTree.remove p (used self)
                 | _, _ => used self end in
    let used2 := match next, next_res with
                 | Some n, None => BTree.remove n used1
                 | _, _ => used1 end in
    let '(old, used3) := BTree.insert new_start new_len used2 in
    rassert (bool_decide (old = None)) "removed in previous steps if present"
      (Ok (mkPDS (limit self) used3)).

(** The loops of [insert_all] and [union]: insert in order, stop at an error. *)
Fixpoint insert_each (self : PerDevSegments) (ranges : list (Z * Z)) : res PerDevSegments :=
  match ranges with
  | [] => Ok self
  | r :: rs => let? self' := insert self r in insert_each self' rs
  end.

Definition opt_range (k : Z) (o : option Z) : list (Z * Z) :=
  match o with Some v => [(k, v)] | None => [] end.

Definition union (self other : PerDevSegments) : res PerDevSegments :=
  if negb (limit self =? limit other) then
    Err (Msg "limits differ between PerDevSegments structs, can not do a union")
  else
    let keys := BTree.set_collect (map fst (used self) ++ map fst (used other)) in
    insert_each (new (limit self))
      (concat (map (λ k, opt_range k (BTree.get k (used self)) ++
                         opt_range k (BTree.get k (used other))) (rev keys))).

Definition insert_all (self : PerDevSegments) (ranges : list (Z * Z)) : res PerDevSegments :=
  let? temp := insert_each (new (limit self)) ranges in
  let? u := union self temp in
  Ok (mkPDS (limit self) (used u)).

Fixpoint complement_loop (ranges : list (Z * Z)) (prev_end : Z) (free : list (Z * Z))
    : Z * list (Z * Z) :=
  match ranges with
  | [] => (prev_end, free)
  | (start, len) :: rest =>
      let range := start -64 prev_end in
      let free := if negb (range =? 0) then (BTree.insert prev_end range free).2 else free in
      complement_loop rest (start +64 len) free
  end.

Definition complement (self : PerDevSegments) : PerDevSegments :=
  let '(prev_end, free) := complement_loop (used self) 0 [] in
  let free := if prev_end <? limit self
              then (BTree.insert prev_end (limit self -64 prev_end) free).2 else free in
  mkPDS (limit self) free.

End PDS.

(** ** [RangeAllocator] *)
Record RangeAllocator : Type := mkRA { segments : PerDevSegments }.

Module RA.

Definition new (lim : Z) (initial_used : list (Z * Z)) : res RangeAllocator :=
  let? segments := PDS.insert_all (PDS.new lim) initial_used in
  Ok (mkRA segments).

Definition size (self : RangeAllocator) : Z := limit (segments self).
Definition used (self : RangeAllocator) : Z := PDS.sum (segments self).
Definition available (self : RangeAllocator) : Z := limit (segments self) -64 used self.

Definition request_all (self : RangeAllocator) : res (PerDevSegments * RangeAllocator) :=
  let segs := PDS.complement (segments self) in
  match PDS.insert (PDS.new (limit (segments self))) (0, limit (segments self)) with
  | Ok temp => Ok (segs, mkRA temp)
  | _ => Panic "exactly one segment to fill whole range"
  end.

Fixpoint request_loop (free : list (Z * Z)) (needed : Z) (segs : PerDevSegments)
    : res PerDevSegments :=
  match free with
  | [] => Ok segs
  | (start, len) :: rest =>
      if needed =? 0 then Ok segs
      else
        let to_use := Z.min needed len in
        match PDS.insert segs (start, to_use) with
        | Ok segs' => request_loop rest (needed -64 to_use) segs'
        | _ => Panic "wholly disjoint from other elements in segs"
        end
  end.

Definition request (self : RangeAllocator) (amount : Z)
    : res (PerDevSegments * RangeAllocator) :=
  let? segs := request_loop (PDS.iter (PDS.complement (segments self))) amount
                 (PDS.new (limit (segments self))) in
  match PDS.union (segments self) segs with
  | Ok u => Ok (segs, mkRA u)
  | _ => Panic "all segments verified to be in available ranges"
  end.

End RA.

(** ** Invariant and denotation

    [segs_ok lo lim l]: the ranges of [l] are sorted, of positive length, start
    at or after [lo], leave a gap of at least one sector between neighbours
    (contiguous ranges are coalesced) and end at or before [lim]; this is the
    invariant the comment on [PerDevSegments] lists. *)
Fixpoint segs_ok (lo lim : Z) (l : list (Z * Z)) : Prop :=
  match l with
  | [] => True
  | (s, n) :: r => lo ≤ s ∧ 0 < n ∧ s + n ≤ lim ∧ segs_ok (s + n + 1) lim r
  end.

Definition wf (self : PerDevSegments) : Prop :=
  u64 (limit self) ∧ segs_ok 0 (limit self) (used self).

Definition in_range (x : Z) (r : Z * Z) : Prop := r.1 ≤ x < r.1 + r.2.

(** The set of sectors a list of ranges occupies. *)
Definition covers (l : list (Z * Z)) (x : Z) : Prop := Exists (in_range x) l.

#[global] Instance segs_ok_dec lo lim l : Decision (segs_ok lo lim l).
Proof.
  revert lo. induction l as [|[s n] r IH]; intros lo; simpl; [apply _|].
  pose proof (IH (s + n + 1)). apply _.
Defined.

#[global] Instance wf_dec self : Decision (wf self).
Proof. unfold wf. apply _. Defined.

#[global] Instance covers_dec l x : Decision (covers l x).
Proof. unfold covers, in_range. apply _. Defined.

(** Least key the list may be extended with. *)
Fixpoint nxt (lo : Z) (l : list (Z * Z)) : Z :=
  match l with [] => lo | (s, n) :: r => nxt (s + n + 1) r end.

Section segs_lemmas.
Implicit Types (l : list (Z * Z)) (lo lim x k v : Z).

Lemma covers_nil x : covers [] x ↔ False.
Proof. unfold covers. rewrite Exists_nil. done. Qed.

Lemma covers_cons s n l x : covers ((s, n) :: l) x ↔ s ≤ x < s + n ∨ covers l x.
Proof. unfold covers. rewrite Exists_cons. done. Qed.

Lemma covers_app l1 l2 x : covers (l1 ++ l2) x ↔ covers l1 x ∨ covers l2 x.
Proof. unfold covers. apply Exists_app. Qed.

Lemma segs_ok_app lo lim l1 l2 :
  segs_ok lo lim (l1 ++ l2) ↔ segs_ok lo lim l1 ∧ segs_ok (nxt lo l1) lim l2.
Proof. revert lo. induction l1 as [|[s n] r IH]; intros lo; simpl; [tauto|]. rewrite IH. tauto. Qed.

Lemma nxt_snoc lo l s n : nxt lo (l ++ [(s, n)]) = s + n + 1.
Proof. revert lo. induction l as [|[s' n'] r IH]; intros lo; simpl; [done|apply IH]. Qed.

Lemma segs_ok_weaken lo lo' lim l : lo' ≤ lo → segs_ok lo lim l → segs_ok lo' lim l.
Proof. destruct l as [|[s n] r]; simpl; [done|]. intuition lia. Qed.

Lemma covers_bounds lo lim l x : segs_ok lo lim l → covers l x → lo ≤ x < lim.
Proof.
  revert lo. induction l as [|[s n] r IH]; intros lo; simpl; [rewrite covers_nil; done|].
  intros (?&?&?&Hok). rewrite covers_cons. intros [?|Hc]; [lia|].
  specialize (IH _ Hok Hc). lia.
Qed.

Lemma nxt_ge lo lim l : segs_ok lo lim l → lo ≤ nxt lo l.
Proof.
  revert lo. induction l as [|[s n] r IH]; intros lo; simpl; [lia|].
  intros (?&?&?&Hok). specialize (IH _ Hok). lia.
Qed.

Lemma covers_nxt lo lim l x : segs_ok lo lim l → covers l x → x + 1 < nxt lo l.
Proof.
  revert lo. induction l as [|[s n] r IH]; intros lo; simpl; [rewrite covers_nil; done|].
  intros (?&?&?&Hok). rewrite covers_cons. intros [?|Hc]; [|by apply (IH _ Hok)].
  apply nxt_ge in Hok. lia.
Qed.

(** Canonicity: a set of sectors has one well-formed representation. *)
Lemma segs_ok_canonical lo lim l1 l2 :
  segs_ok lo lim l1 → segs_ok lo lim l2 →
  (∀ x, covers l1 x ↔ covers l2 x) → l1 = l2.
Proof.
  revert lo l2. induction l1 as [|[s1 n1] r1 IH]; intros lo [|[s2 n2] r2];
    simpl; intros Hok1 Hok2 Heq; [done| | |].
  - destruct (Heq s2) as [_ H]. rewrite covers_nil, covers_cons in H.
    destruct H; left; lia.
  - destruct (Heq s1) as [H _]. rewrite covers_nil, covers_cons in H.
    destruct H; left; lia.
  - destruct Hok1 as (?&?&?&Hr1), Hok2 as (?&?&?&Hr2).
    setoid_rewrite covers_cons in Heq.
    assert (s1 = s2) as ->.
    { destruct (Heq s1) as [Hs1 _], (Heq s2) as [_ Hs2].
      destruct Hs1 as [|Hc1]; [lia| |]; destruct Hs2 as [|Hc2]; try lia;
        repeat match goal with Hc : covers _ _ |- _ =>
          eapply covers_bounds in Hc; [|eassumption] end; lia. }
    assert (n1 = n2) as ->.
    { destruct (Heq (s2 + n1)) as [_ Hs1], (Heq (s2 + n2)) as [Hs2 _].
      destruct (Z.lt_trichotomy n1 n2) as [?|[?|?]]; [|done|].
      - destruct Hs1 as [|Hc]; [lia..|]. eapply covers_bounds in Hc; [|done]. lia.
      - destruct Hs2 as [|Hc]; [lia..|]. eapply covers_bounds in Hc; [|done]. lia. }
    f_equal. apply (IH (s2 + n2 + 1)); [done..|]. intros x. specialize (Heq x).
    split; intros Hc; [pose proof (covers_bounds _ _ _ _ Hr1 Hc)|
      pose proof (covers_bounds _ _ _ _ Hr2 Hc)]; naive_solver lia.
Qed.

(** *** [BTreeMap] operations on a map split around a key *)

Definition keys_lt (l : list (Z * Z)) k : Prop := Forall (λ r, r.1 < k) l.

Lemma keys_lt_snoc l p n k : keys_lt (l ++ [(p, n)]) k ↔ keys_lt l k ∧ p < k.
Proof. unfold keys_lt. rewrite Forall_app, Forall_singleton. done. Qed.

Lemma segs_ok_keys_lt lo lim l k : segs_ok lo lim l → nxt lo l ≤ k → keys_lt l k.
Proof.
  intros Hok Hk. apply Forall_forall. intros [s n] Hin. simpl.
  assert (covers l s) as Hc.
  { apply Exists_exists. exists (s, n). split; [done|]. unfold in_range; simpl.
    clear Hk. revert lo Hok. induction l as [|[s' n'] r IH]; simpl; [by apply not_elem_of_nil in Hin|].
    intros lo (?&?&?&?). apply elem_of_cons in Hin as [?|?]; [simplify_eq; lia|]. eauto. }
  eapply covers_nxt in Hc; [|done]. lia.
Qed.

Lemma get_mid l1 l2 k v : keys_lt l1 k → BTree.get k (l1 ++ (k, v) :: l2) = Some v.
Proof.
  induction 1 as [|[k' v'] r ? ? IH]; simpl in *; [by rewrite Z.eqb_refl|].
  by destruct (Z.eqb_spec k k'); [lia|].
Qed.

Lemma remove_mid l1 l2 k v : keys_lt l1 k → BTree.remove k (l1 ++ (k, v) :: l2) = l1 ++ l2.
Proof.
  induction 1 as [|[k' v'] r ? ? IH]; simpl in *; [by rewrite Z.eqb_refl|].
  destruct (Z.eqb_spec k k'); [lia|]. by rewrite IH.
Qed.

Lemma insert_mid lo lim l1 l2 k v :
  keys_lt l1 k → segs_ok lo lim l2 → k < lo →
  BTree.insert k v (l1 ++ l2) = (None, l1 ++ (k, v) :: l2).
Proof.
  intros H Hok Hlo. induction H as [|[k' v'] r ? ? IH]; simpl in *.
  - destruct l2 as [|[k' v'] l2]; simpl in *; [done|].
    destruct (Z.ltb_spec k k'); [done|lia].
  - destruct (Z.ltb_spec k k'); [lia|]. destruct (Z.eqb_spec k k'); [lia|]. by rewrite IH.
Qed.

End segs_lemmas.

(** ** [insert] *)
Section insert.
Implicit Types (l : list (Z * Z)) (lo lim x k v : Z).

Fixpoint lastk (p : option Z) l : option Z :=
  match l with [] => p | (k, _) :: r => lastk (Some k) r end.

Lemma lastk_snoc p l k n : lastk p (l ++ [(k, n)]) = Some k.
Proof. revert p. induction l as [|[k' n'] r IH]; intros p; simpl; [done|apply IH]. Qed.

Lemma split_at lo lim l v : segs_ok lo lim l →
  ∃ l1 l2, l = l1 ++ l2 ∧ keys_lt l1 v ∧
    (l2 = [] ∨ ∃ k n r, l2 = (k, n) :: r ∧ v ≤ k).
Proof.
  revert lo. induction l as [|[s n] r IH]; intros lo; simpl.
  { exists [], []. split_and!; [done|constructor|by left]. }
  intros (?&?&?&Hok). destruct (decide (v ≤ s)).
  { exists [], ((s, n) :: r). split_and!; [done|constructor|right; eauto 6]. }
  destruct (IH _ Hok) as (l1&l2&->&Hlt&Hl2). exists ((s, n) :: l1), l2.
  split_and!; [done|constructor; [simpl; lia|done]|done].
Qed.

Lemma locate_loop_app l1 l2 v p : keys_lt l1 v →
  PDS.locate_loop v (map fst (l1 ++ l2)) p None
  = PDS.locate_loop v (map fst l2) (lastk p l1) None.
Proof.
  intros H. revert p. induction H as [|[k n] r ? ? IH]; intros p; simpl in *; [done|].
  destruct (Z.leb_spec k v); [|lia]. destruct (Z.leb_spec v k); [lia|]. apply IH.
Qed.

(** [locate_prev_and_next] on a map split around [v], when no range starts at [v]. *)
Lemma locate_mid l1 l2 lim v lo : keys_lt l1 v → segs_ok lo lim l2 → v < lo →
  PDS.locate_prev_and_next (mkPDS lim (l1 ++ l2)) v
  = (lastk None l1, match l2 with [] => None | (k, _) :: _ => Some k end).
Proof.
  intros Hlt Hok Hv. unfold PDS.locate_prev_and_next; simpl.
  rewrite locate_loop_app by done. destruct l2 as [|[k n] r]; simpl in *; [done|].
  destruct (Z.leb_spec v k); [|lia]. by destruct (Z.leb_spec k v); [lia|].
Qed.

(** The outcome of an accepted insertion, as a pure list function. *)
Definition glue_r (s n : Z) (l2 : list (Z * Z)) : list (Z * Z) :=
  match l2 with
  | (k, m) :: r => if s + n =? k then (s, n + m) :: r else (s, n) :: l2
  | [] => [(s, n)]
  end.

Lemma segs_ok_glue_r lo lim s n l2 :
  lo ≤ s → 0 < n → s + n ≤ lim → segs_ok (s + n) lim l2 →
  segs_ok lo lim (glue_r s n l2).
Proof.
  destruct l2 as [|[k m] r]; simpl; [intuition lia|]. intros ??? (?&?&?&?).
  destruct (Z.eqb_spec (s + n) k); simpl; split_and!; try lia; [|done].
  by replace (s + (n + m) + 1) with (k + m + 1) by lia.
Qed.

Lemma covers_glue_r s n l2 lim x : 0 < n → segs_ok (s + n) lim l2 →
  covers (glue_r s n l2) x ↔ s ≤ x < s + n ∨ covers l2 x.
Proof.
  destruct l2 as [|[k m] r]; simpl; rewrite ?covers_nil; intros ? Hok.
  - rewrite covers_cons, covers_nil. done.
  - destruct Hok as (?&?&?&?).
    destruct (Z.eqb_spec (s + n) k); rewrite !covers_cons; [|done]. intuition lia.
Qed.

Definition total (l : list (Z * Z)) : Z := Zsum (map snd l).

Lemma total_app l1 l2 : total (l1 ++ l2) = total l1 + total l2.
Proof. unfold total. by rewrite map_app, Zsum_app. Qed.

Lemma total_cons s n l : total ((s, n) :: l) = n + total l.
Proof. done. Qed.

Lemma total_glue_r s n l2 : total (glue_r s n l2) = n + total l2.
Proof.
  destruct l2 as [|[k m] r]; simpl; [done|].
  destruct (s + n =? k); rewrite !total_cons; lia.
Qed.

Lemma total_nonneg lo lim l : segs_ok lo lim l → 0 ≤ total l.
Proof.
  revert lo. induction l as [|[s n] r IH]; intros lo; simpl; [done|].
  intros (?&?&?&Hok). rewrite total_cons. specialize (IH _ Hok). lia.
Qed.

Definition head_key (l2 : list (Z * Z)) : option Z :=
  match l2 with [] => None | (k, _) :: _ => Some k end.

Definition rhs_of (s n : Z) (l2 : list (Z * Z)) : (Z * Z) * option (Z * Z) :=
  match l2 with
  | (k, m) :: _ => if s + n =? k then ((s, n + m), None) else ((s, n), Some (k, m))
  | [] => ((s, n), None)
  end.

Lemma insertion_rhs_ok lim l l1 l2 s n :
  l = l1 ++ l2 → keys_lt l1 (s + n) → u64 lim → 0 ≤ s → 0 < n → s + n ≤ lim →
  segs_ok (s + n) lim l2 →
  PDS.insertion_rhs (mkPDS lim l) (head_key l2) s n = Ok (rhs_of s n l2).
Proof.
  intros -> Hlt ? ??? Hok. destruct l2 as [|[k m] r]; simpl in *; [done|].
  destruct Hok as (?&?&?&?). nowrap.
  destruct (Z.ltb_spec k (s + n)); [lia|].
  rewrite get_mid by (eapply Forall_impl; [exact Hlt|simpl; lia]). simpl.
  destruct (Z.eqb_spec (s + n) k); nowrap; done.
Qed.

(** The two removals and the final insertion of [insert], once [prev] is dealt with. *)
Lemma insert_finish lim l1 l2 s n :
  keys_lt l1 s → 0 < n → segs_ok (s + n) lim l2 →
  let '(ns, nl, next_res) := rhs_of s n l2 in
  BTree.insert ns nl
    (match head_key l2, next_res with
     | Some k, None => BTree.remove k (l1 ++ l2)
     | _, _ => l1 ++ l2 end) = (None, l1 ++ glue_r s n l2).
Proof.
  intros Hlt ? Hok. destruct l2 as [|[k m] r]; simpl in *.
  - by rewrite (insert_mid (s + 1) lim) by (done || lia).
  - destruct Hok as (?&?&?&Hok). destruct (Z.eqb_spec (s + n) k).
    + rewrite remove_mid by (eapply Forall_impl; [exact Hlt|simpl; lia]).
      by rewrite (insert_mid (k + m + 1) lim) by (done || lia).
    + by rewrite (insert_mid k lim) by (done || lia || (simpl; split_and!; done || lia)).
Qed.

(** Accepted insertion: the range meets no used range. *)
Lemma insert_accept lim l1 l2 s n :
  u64 lim → segs_ok 0 lim (l1 ++ l2) → keys_lt l1 s → 0 ≤ s → 0 < n → s + n ≤ lim →
  segs_ok (s + n) lim l2 → nxt 0 l1 ≤ s + 1 →
  ∃ l', PDS.insert (mkPDS lim (l1 ++ l2)) (s, n) = Ok (mkPDS lim l') ∧ segs_ok 0 lim l' ∧
    total l' = total (l1 ++ l2) + n ∧
    ∀ x, covers l' x ↔ covers (l1 ++ l2) x ∨ s ≤ x < s + n.
Proof.
  intros Hlim Hok Hlt ??? Hok2 Hnxt. apply segs_ok_app in Hok as [Hok1 _].
  unfold PDS.insert. simpl limit. destruct (Z.ltb_spec lim s); [lia|].
  destruct (Z.eqb_spec n 0); [lia|].
  rewrite (locate_mid _ _ _ _ (s + n)) by (done || lia).
  change (match l2 with [] => None | (k, _) :: _ => Some k end) with (head_key l2).
  unfold PDS.insertion_result, checked_add, rassert. simpl limit.
  destruct (Z.eqb_spec n 0); [lia|]. simpl negb.
  destruct (Z.leb_spec (s + n) u64_max); [|unfold u64 in *; lia].
  destruct (Z.ltb_spec lim (s + n)); [lia|].
  destruct l1 as [|[p pl] l1 _] using rev_ind.
  - simpl. rewrite (insertion_rhs_ok lim l2 [] l2) by (done || constructor). simpl.
    pose proof (insert_finish lim [] l2 s n Hlt ltac:(lia) Hok2) as Hfin.
    destruct (rhs_of s n l2) as [[ns nl] nr]. simpl in *. rewrite Hfin. simpl.
    eexists. split_and!; [done|by apply segs_ok_glue_r|rewrite total_glue_r; lia|].
    intros x. rewrite (covers_glue_r _ _ _ lim) by done. tauto.
  - rewrite lastk_snoc. rewrite nxt_snoc in Hnxt. apply keys_lt_snoc in Hlt as [Hlt ?].
    apply segs_ok_app in Hok1 as [Hok1 Hp]. simpl in Hp. destruct Hp as (?&?&?&_).
    assert (keys_lt l1 p) as Hltp by (by eapply segs_ok_keys_lt).
    assert (0 ≤ p) by (pose proof (nxt_ge _ _ _ Hok1); lia).
    simpl PDS.insertion_lhs. rewrite <- app_assoc. simpl app.
    rewrite get_mid by done. simpl. nowrap.
    destruct (Z.ltb_spec s (p + pl)); [lia|].
    destruct (Z.eqb_spec (p + pl) s) as [<-|].
    + simpl. nowrap.
      assert (segs_ok (p + (pl + n)) lim l2) as Hok2'
        by (by replace (p + (pl + n)) with (p + pl + n) by lia).
      rewrite (insertion_rhs_ok lim (l1 ++ (p, pl) :: l2) (l1 ++ [(p, pl)]) l2);
        rewrite <- ?app_assoc; try done; try lia; [|apply keys_lt_snoc; split;
          [eapply Forall_impl; [exact Hltp|simpl; lia]|lia]].
      simpl. pose proof (insert_finish lim l1 l2 p (pl + n) Hltp ltac:(lia) Hok2') as Hfin.
      rewrite remove_mid by done.
      destruct (rhs_of p (pl + n) l2) as [[ns nl] nr]. simpl in *. rewrite Hfin. simpl.
      eexists. split_and!; [done|apply segs_ok_app; split; [done|by apply segs_ok_glue_r; try lia]|
        rewrite !total_app, total_glue_r, total_cons; lia|].
      intros x. rewrite !covers_app, covers_cons, (covers_glue_r _ _ _ lim) by (done || lia).
      intuition lia.
    + simpl. rewrite (insertion_rhs_ok lim (l1 ++ (p, pl) :: l2) (l1 ++ [(p, pl)]) l2);
        rewrite <- ?app_assoc; try done; try lia; [|apply keys_lt_snoc; split;
          [eapply Forall_impl; [exact Hltp|simpl; lia]|lia]].
      simpl. pose proof (insert_finish lim (l1 ++ [(p, pl)]) l2 s n
        ltac:(by apply keys_lt_snoc) ltac:(lia) Hok2) as Hfin.
      rewrite <- !app_assoc in Hfin. simpl app in Hfin.
      destruct (rhs_of s n l2) as [[ns nl] nr]. simpl in *. rewrite Hfin. simpl.
      eexists. split_and!; [done| |rewrite !total_app, !total_cons, total_glue_r; lia|].
      * apply segs_ok_app. split; [done|]. simpl. split_and!; [lia..|].
        apply segs_ok_glue_r; done || lia.
      * intros x. rewrite !covers_app, !covers_cons, (covers_glue_r _ _ _ lim) by (done || lia).
        tauto.
Qed.

(** Rejection by the left neighbour, and by the right one when the left accepts. *)
Lemma insertion_lhs_cases lim l1 l2 s n :
  u64 lim → segs_ok 0 lim (l1 ++ l2) → keys_lt l1 s → 0 < n → s + n ≤ lim → 0 ≤ s →
  (nxt 0 l1 ≤ s + 1 ∧ ∃ lhs ns nl,
     PDS.insertion_lhs (mkPDS lim (l1 ++ l2)) (lastk None l1) s n = Ok (lhs, (ns, nl)) ∧
     ns + nl = s + n ∧ u64 (s + n)) ∨
  (covers l1 s ∧ ∃ e,
     PDS.insertion_lhs (mkPDS lim (l1 ++ l2)) (lastk None l1) s n = Err e).
Proof.
  intros ? Hok Hlt ???. assert (u64 (s + n)) by (unfold u64 in *; lia).
  apply segs_ok_app in Hok as [Hok1 _].
  destruct l1 as [|[p pl] l1 _] using rev_ind; simpl in *.
  { left. split; [lia|]. eauto 8. }
  rewrite lastk_snoc, nxt_snoc, <- app_assoc. simpl.
  apply keys_lt_snoc in Hlt as [Hlt ?].
  apply segs_ok_app in Hok1 as [Hok1 (?&?&?&_)].
  assert (keys_lt l1 p) as Hltp by (by eapply segs_ok_keys_lt).
  rewrite get_mid by done. simpl.
  assert (0 ≤ p) by (eapply (nxt_ge 0) in Hok1; lia). nowrap.
  destruct (Z.ltb_spec s (p + pl)).
  - right. split; [|eauto]. rewrite covers_app, covers_cons. right; left; lia.
  - left. split; [lia|]. destruct (Z.eqb_spec (p + pl) s); nowrap; [|by eauto 8].
    do 3 eexists. split_and!; [done|lia|done].
Qed.

Lemma insert_reject lim l1 l2 s n x :
  u64 lim → segs_ok 0 lim (l1 ++ l2) → keys_lt l1 s → 0 < n → s + n ≤ lim → 0 ≤ s →
  (l2 = [] ∨ ∃ k n r, l2 = (k, n) :: r ∧ s ≤ k) →
  s ≤ x < s + n → covers (l1 ++ l2) x →
  ∃ e, PDS.insert (mkPDS lim (l1 ++ l2)) (s, n) = Err e.
Proof.
  intros Hlim Hok Hlt ??? Hl2 Hx Hc. pose proof Hok as Hok'. apply segs_ok_app in Hok' as [Hok1 Hok2].
  unfold PDS.insert, PDS.insertion_result, checked_add, rassert. simpl limit.
  destruct (Z.ltb_spec lim s); [lia|]. destruct (Z.eqb_spec n 0); [lia|]. simpl negb.
  destruct (Z.leb_spec (s + n) u64_max); [|unfold u64 in *; lia].
  destruct (Z.ltb_spec lim (s + n)); [lia|].
  unfold PDS.locate_prev_and_next. simpl used. rewrite locate_loop_app by done.
  destruct (insertion_lhs_cases lim l1 l2 s n) as [(Hn&lhs&ns&nl&Hlhs&Hsum&Hu)|(?&e&Hlhs)]; try done.
  - destruct Hl2 as [->|(k&m&r&->&?)].
    { exfalso. rewrite app_nil_r in Hc. eapply covers_nxt in Hc; [|done]. lia. }
    simpl. destruct (Z.leb_spec s k); [|lia]. simpl in Hok2. destruct Hok2 as (?&?&?&?).
    destruct (Z.leb_spec k s).
    + assert (k = s) as -> by lia. unfold PDS.insertion_lhs. simpl used.
      rewrite get_mid by done. simpl. nowrap.
      destruct (Z.ltb_spec s (s + m)); [|lia]. simpl. eauto.
    + rewrite Hlhs. simpl. rewrite Hsum, wrap64_small by done.
      assert (k ≤ x).
      { rewrite covers_app, covers_cons in Hc. destruct Hc as [Hc|[?|Hc]]; [|lia|].
        - eapply covers_nxt in Hc; [|done]. lia.
        - eapply covers_bounds in Hc; [|done]. lia. }
      destruct (Z.ltb_spec k (s + n)); [|lia]. simpl. eauto.
  - destruct Hl2 as [->|(k&m&r&->&?)]; simpl.
    { rewrite Hlhs. simpl. eauto. }
    destruct (Z.leb_spec s k); [|lia]. simpl in Hok2. destruct Hok2 as (?&?&?&?).
    destruct (Z.leb_spec k s); [|rewrite Hlhs; simpl; eauto].
    assert (k = s) as -> by lia. unfold PDS.insertion_lhs. simpl used.
      rewrite get_mid by done. simpl. nowrap.
    destruct (Z.ltb_spec s (s + m)); [|lia]. simpl. eauto.
Qed.

End insert.

#[global] Arguments PDS.insert : simpl never.
#[global] Arguments PDS.union : simpl never.
#[global] Arguments PDS.complement : simpl never.

(** Two sets of sectors share no sector. *)
Definition disjoint_cov (P Q : Z → Prop) : Prop := ∀ x, P x → Q x → False.

(** What [insert] of [(start, len)] promises, outcome by outcome. *)
Definition insert_post (self : PerDevSegments) (start len : Z) (r : res PerDevSegments) : Prop :=
  let new x := start ≤ x < start + len in
  match r with
  | Ok self' =>
      start ≤ limit self ∧ start + len ≤ limit self ∧
      disjoint_cov (covers (used self)) new ∧
      wf self' ∧ limit self' = limit self ∧
      total (used self') = total (used self) + len ∧
      ∀ x, covers (used self') x ↔ covers (used self) x ∨ new x
  | Err _ =>
      limit self < start ∨ limit self < start + len ∨
      ∃ x, covers (used self) x ∧ new x
  | Panic _ => False
  end.

(** Either the split shows a gap wide enough, or some sector is shared. *)
Lemma gap_or_overlap lim l1 l2 s n :
  segs_ok 0 lim (l1 ++ l2) → keys_lt l1 s → 0 ≤ s → 0 < n →
  (l2 = [] ∨ ∃ k n r, l2 = (k, n) :: r ∧ s ≤ k) →
  (segs_ok (s + n) lim l2 ∧ nxt 0 l1 ≤ s + 1) ∨ ∃ x, covers (l1 ++ l2) x ∧ s ≤ x < s + n.
Proof.
  intros Hok Hlt ?? Hl2. setoid_rewrite covers_app.
  apply segs_ok_app in Hok as [Hok1 Hok2].
  destruct (decide (nxt 0 l1 ≤ s + 1)) as [?|Hn].
  - destruct Hl2 as [->|(k&m&r&->&?)]; [left; done|].
    simpl in Hok2. destruct Hok2 as (?&?&?&?).
    destruct (decide (s + n ≤ k)); [left; simpl; split_and!; done || lia|].
    right. exists k. rewrite covers_cons. split; [right; left|]; lia.
  - destruct l1 as [|[p pl] l1 _] using rev_ind; [simpl in *; lia|].
    rewrite nxt_snoc in Hn. apply keys_lt_snoc in Hlt as [_ ?].
    right. exists s. rewrite covers_app, covers_cons. split; [left; right; left|]; lia.
Qed.

Lemma insert_ok self start len : wf self → u64 start → u64 len →
  insert_post self start len (PDS.insert self (start, len)).
Proof.
  destruct self as [lim l]. intros [Hlim Hok] Hs Hn. simpl in Hlim, Hok.
  destruct (decide (lim < start)).
  { unfold PDS.insert. simpl. destruct (Z.ltb_spec lim start); [|lia]. left. done. }
  destruct (decide (len = 0)) as [->|].
  { unfold PDS.insert. simpl. destruct (Z.ltb_spec lim start); [lia|].
    unfold insert_post, disjoint_cov, wf; simpl. intuition lia. }
  destruct (decide (lim < start + len)).
  { unfold PDS.insert, PDS.insertion_result, checked_add, rassert. simpl.
    destruct (Z.ltb_spec lim start); [lia|]. destruct (Z.eqb_spec len 0); [lia|].
    destruct (PDS.locate_prev_and_next _ _) as [p q]. simpl.
    destruct (Z.leb_spec (start + len) u64_max); simpl; [|by right; left].
    destruct (Z.ltb_spec lim (start + len)); [|lia]. simpl. by right; left. }
  destruct (split_at 0 lim l start Hok) as (l1&l2&->&Hlt&Hl2). unfold u64 in Hs, Hn.
  destruct (gap_or_overlap lim l1 l2 start len) as [[??]|(x&Hc&?)]; try done; try lia.
  - destruct (insert_accept lim l1 l2 start len) as (l'&->&Hok'&Htot&Hcov); try done; try lia.
    unfold insert_post, wf; simpl. split_and!; try done; try lia.
    intros x Hx Hr. apply covers_app in Hx. apply segs_ok_app in Hok as [Hok1 _].
    destruct Hx as [Hx|Hx]; [eapply covers_nxt in Hx|eapply covers_bounds in Hx]; try done; lia.
  - destruct (insert_reject lim l1 l2 start len x) as [e ->]; try done; try lia.
    right; right. eauto.
Qed.

(** ** Inserting several ranges *)

(** [compat lim C rs]: each range of [rs] lies below [lim] and meets neither
    [C] nor an earlier range. *)
Fixpoint compat (lim : Z) (C : Z → Prop) (rs : list (Z * Z)) : Prop :=
  match rs with
  | [] => True
  | r :: rest =>
      r.1 ≤ lim ∧ r.1 + r.2 ≤ lim ∧ disjoint_cov C (λ x, in_range x r) ∧
      compat lim (λ x, C x ∨ in_range x r) rest
  end.

Definition u64_range (r : Z * Z) : Prop := u64 r.1 ∧ u64 r.2.

#[global] Instance disjoint_cov_proper :
  Proper (pointwise_relation Z iff ==> pointwise_relation Z iff ==> iff) disjoint_cov.
Proof. intros P P' HP Q Q' HQ. unfold disjoint_cov. by setoid_rewrite HP; setoid_rewrite HQ. Qed.

#[global] Instance compat_proper lim :
  Proper (pointwise_relation Z iff ==> (=) ==> iff) (compat lim).
Proof.
  intros C C' HC rs _ <-. revert C C' HC. induction rs as [|r rs IH]; intros C C' HC; simpl; [done|].
  rewrite HC. rewrite (IH _ (λ x, C' x ∨ in_range x r)); [done|]. intros x. by rewrite (HC x).
Qed.

Lemma compat_perm lim C rs rs' : rs ≡ₚ rs' → compat lim C rs → compat lim C rs'.
Proof.
  intros Hp. revert C. induction Hp as [|r rs rs' _ IH|r1 r2 rs|? ? ? _ IH1 _ IH2]; intros C; simpl;
    [done|naive_solver| |by eauto].
  intros (?&?&Hd1&?&?&Hd2&Hc). split_and!; try done.
  - intros x ??. apply (Hd2 x); tauto.
  - intros x [?|?] ?; [by apply (Hd1 x)|]. apply (Hd2 x); tauto.
  - revert Hc. apply compat_proper; [intros x; tauto|done].
Qed.

Lemma compat_app lim C l1 l2 :
  compat lim C (l1 ++ l2) ↔ compat lim C l1 ∧ compat lim (λ x, C x ∨ covers l1 x) l2.
Proof.
  revert C. induction l1 as [|[s n] r IH]; intros C; simpl.
  - split; [intros H; split; [done|]|intros [_ H]]; revert H; apply compat_proper; try done;
      intros x; rewrite covers_nil; tauto.
  - rewrite IH. rewrite (compat_proper lim (λ x, (C x ∨ in_range x (s, n)) ∨ covers r x)
      (λ x, C x ∨ covers ((s, n) :: r) x) ltac:(intros x; rewrite covers_cons; unfold in_range; simpl; tauto) l2 l2 eq_refl). tauto.
Qed.

(** Split the part of [compat] about the initial set off. *)
Lemma compat_split lim C D rs :
  compat lim (λ x, C x ∨ D x) rs ↔ compat lim D rs ∧ disjoint_cov C (covers rs).
Proof.
  revert D. induction rs as [|[s n] r IH]; intros D; simpl.
  - unfold disjoint_cov. setoid_rewrite covers_nil. naive_solver.
  - rewrite (compat_proper lim (λ x, (C x ∨ D x) ∨ in_range x (s, n))
      (λ x, C x ∨ (D x ∨ in_range x (s, n)))
      ltac:(intros x; tauto) r r eq_refl), IH.
    unfold disjoint_cov. setoid_rewrite covers_cons. unfold in_range; simpl. naive_solver.
Qed.

(** A well-formed map read as a list of ranges is compatible with nothing else. *)
Lemma segs_ok_compat lo lim l : 0 ≤ lo → segs_ok lo lim l → compat lim (λ x, x < lo) l.
Proof.
  revert lo. induction l as [|[s n] r IH]; intros lo; simpl; [done|].
  intros ? (?&?&?&Hok). split_and!; [lia..| |].
  - intros x. unfold in_range; simpl. lia.
  - specialize (IH (s + n + 1) ltac:(lia) Hok). revert IH.
    enough (∀ C C' l, (∀ x, C x → C' x) → compat lim C' l → compat lim C l) as Hmono.
    { apply Hmono. unfold in_range; simpl. lia. }
    clear. intros C C' l. revert C C'. induction l as [|q l IH]; intros C C' HC; simpl; [done|].
    intros (?&?&Hd&Hc). split_and!; try done; [intros x ??; by eapply Hd; eauto|].
    eapply IH; [|done]. naive_solver.
Qed.

Lemma segs_ok_compat_empty lim l : segs_ok 0 lim l → compat lim (λ _, False) l.
Proof.
  intros Hok. apply segs_ok_compat in Hok; [|done].
  revert Hok. rewrite (compat_proper lim (λ x, x < 0) (λ x, x < 0 ∨ False)
    ltac:(intros x; tauto) l l eq_refl), (compat_split lim (λ x, x < 0) (λ _, False)). tauto.
Qed.

Lemma insert_each_ok self rs : wf self → Forall u64_range rs →
  match PDS.insert_each self rs with
  | Ok self' =>
      compat (limit self) (covers (used self)) rs ∧ wf self' ∧ limit self' = limit self ∧
      total (used self') = total (used self) + total rs ∧
      ∀ x, covers (used self') x ↔ covers (used self) x ∨ covers rs x
  | Err _ => ¬ compat (limit self) (covers (used self)) rs
  | Panic _ => False
  end.
Proof.
  intros Hwf Hrs. revert self Hwf.
  induction Hrs as [|[s n] rs [Hs Hn] Hrs IH]; intros self Hwf; simpl.
  { split_and!; try done; [unfold total; simpl; lia|]. intros x. rewrite covers_nil. tauto. }
  pose proof (insert_ok self s n Hwf Hs Hn) as Hins. simpl in Hs, Hn.
  destruct (PDS.insert self (s, n)) as [self1|e|w]; simpl in *; [| |done].
  2:{ intros (?&?&Hd&_). destruct Hins as [?|[?|(x&?&?)]]; [lia|lia|by apply (Hd x)]. }
  destruct Hins as (?&?&Hd&Hwf1&Hlim1&Htot1&Hcov1). specialize (IH self1 Hwf1).
  rewrite Hlim1 in IH. pose proof (compat_proper (limit self) _ _ Hcov1 rs rs eq_refl) as Hp.
  destruct (PDS.insert_each self1 rs) as [self2|e|w]; simpl in *; [|tauto|done].
  destruct IH as (Hc&?&?&?&Hcov2). rewrite total_cons. split_and!; try done; [by apply Hp|lia|].
  intros x. rewrite Hcov2, Hcov1, covers_cons. tauto.
Qed.

(** ** [union] and [insert_all] *)

Lemma set_insert_elem k s x : x ∈ BTree.set_insert k s ↔ x = k ∨ x ∈ s.
Proof.
  induction s as [|k' r IH]; simpl; [set_solver|].
  destruct (Z.ltb_spec k k'); [set_solver|]. destruct (Z.eqb_spec k k'); set_solver.
Qed.

Lemma set_insert_sorted k s : StronglySorted Z.lt s → StronglySorted Z.lt (BTree.set_insert k s).
Proof.
  induction 1 as [|k' r Hs IH Hall]; simpl; [repeat constructor|].
  destruct (Z.ltb_spec k k').
  - constructor; [by constructor|]. constructor; [done|].
    eapply Forall_impl; [exact Hall|simpl; lia].
  - destruct (Z.eqb_spec k k'); constructor; try done.
    apply Forall_forall. intros x [->|?]%set_insert_elem; [lia|].
    by eapply Forall_forall in Hall.
Qed.

Lemma set_collect_spec ks :
  StronglySorted Z.lt (BTree.set_collect ks) ∧ ∀ x, x ∈ BTree.set_collect ks ↔ x ∈ ks.
Proof.
  unfold BTree.set_collect.
  enough (∀ s, StronglySorted Z.lt s → let s' := foldl (λ s k, BTree.set_insert k s) s ks in
    StronglySorted Z.lt s' ∧ ∀ x, x ∈ s' ↔ x ∈ s ∨ x ∈ ks) as H.
  { destruct (H [] ltac:(constructor)) as [??]. split; [done|]. set_solver. }
  induction ks as [|k ks IH]; intros s Hs; simpl; [set_solver|].
  destruct (IH (BTree.set_insert k s)) as [? Hin]; [by apply set_insert_sorted|].
  split; [done|]. intros x. rewrite Hin, set_insert_elem, elem_of_cons. tauto.
Qed.

Lemma Sorted_lt_NoDup s : StronglySorted Z.lt s → NoDup s.
Proof.
  induction 1 as [|k r ? IH Hall]; constructor; [|done].
  intros Hin. eapply Forall_forall in Hall; [|exact Hin]. simpl in Hall. lia.
Qed.

Lemma segs_ok_sorted lo lim l : segs_ok lo lim l → StronglySorted Z.lt (map fst l).
Proof.
  revert lo. induction l as [|[s n] r IH]; intros lo; simpl; [constructor|].
  intros (?&?&?&Hok). constructor; [eauto|]. apply Forall_forall. intros k Hk.
  apply list_elem_of_fmap in Hk as ([k' m]&->&Hin). simpl.
  enough (s + n + 1 ≤ k') by lia. clear IH. revert Hin Hok. generalize (s + n + 1). clear.
  induction r as [|[s n] r IH]; simpl; intros lo; [by intros ?%not_elem_of_nil|].
  intros [?|?]%elem_of_cons (?&?&?&?); [simplify_eq; lia|].
  specialize (IH (s + n + 1)). naive_solver lia.
Qed.

Lemma get_not_key k l : k ∉ map fst l → BTree.get k l = None.
Proof.
  induction l as [|[k' v] r IH]; simpl; [done|]. intros Hn.
  apply not_elem_of_cons in Hn as [? Hn]. destruct (Z.eqb_spec k k'); [done|by apply IH].
Qed.

(** Looking every key of [ks] up gives the map's entries back, in some order. *)
Lemma gets_perm l ks : NoDup (map fst l) → NoDup ks → (∀ k, k ∈ map fst l → k ∈ ks) →
  concat (map (λ k, PDS.opt_range k (BTree.get k l)) ks) ≡ₚ l.
Proof.
  revert ks. induction l as [|[k v] l IH]; intros ks Hl Hks Hsub; simpl in *.
  { clear. induction ks; simpl; [done|]. done. }
  apply NoDup_cons in Hl as [Hk Hl].
  destruct (elem_of_Permutation ks k) as [H _]. destruct H as [ks' Hp]; [set_solver|].
  rewrite Hp in Hks |- *. apply NoDup_cons in Hks as [Hk' Hks]. simpl. rewrite Z.eqb_refl. simpl.
  constructor. etrans; [|apply (IH ks'); [done..|]].
  - rewrite (map_ext_in _ (λ k0, PDS.opt_range k0 (BTree.get k0 l))); [done|].
    intros k0 Hin%list_elem_of_In. destruct (Z.eqb_spec k0 k) as [->|]; [done|done].
  - intros k0 Hin. assert (k0 ∈ ks) as Hk0 by set_solver. rewrite Hp in Hk0.
    apply elem_of_cons in Hk0 as [->|?]; done.
Qed.

Lemma concat_map_app_perm {A B} (f g : A → list B) ks :
  concat (map (λ k, f k ++ g k) ks) ≡ₚ concat (map f ks) ++ concat (map g ks).
Proof. induction ks as [|k ks IH]; simpl; [done|]. rewrite IH. solve_Permutation. Qed.

Lemma union_ranges_perm l1 l2 lim : segs_ok 0 lim l1 → segs_ok 0 lim l2 →
  concat (map (λ k, PDS.opt_range k (BTree.get k l1) ++ PDS.opt_range k (BTree.get k l2))
    (rev (BTree.set_collect (map fst l1 ++ map fst l2)))) ≡ₚ l1 ++ l2.
Proof.
  intros H1 H2. destruct (set_collect_spec (map fst l1 ++ map fst l2)) as [Hs Hin].
  apply Sorted_lt_NoDup in Hs. apply segs_ok_sorted, Sorted_lt_NoDup in H1, H2.
  rewrite concat_map_app_perm, !gets_perm; try done;
    try (by rewrite <- Permutation_rev); intros k Hk; rewrite <- Permutation_rev, Hin; set_solver.
Qed.

Lemma covers_perm l l' x : l ≡ₚ l' → covers l x ↔ covers l' x.
Proof. intros Hp. unfold covers. by rewrite Hp. Qed.

Lemma total_perm l l' : l ≡ₚ l' → total l = total l'.
Proof. induction 1; unfold total in *; simpl; lia. Qed.

Lemma segs_ok_u64 lo lim l : 0 ≤ lo → u64 lim → segs_ok lo lim l → Forall u64_range l.
Proof.
  intros ? Hlim. revert lo H. induction l as [|[s n] r IH]; intros lo Hlo; simpl; [constructor|].
  intros (?&?&?&Hok). unfold u64 in Hlim. constructor; [|by apply (IH (s + n + 1)); [lia|]].
  split; unfold u64; simpl; lia.
Qed.

Lemma wf_new lim : u64 lim → wf (PDS.new lim).
Proof. by split. Qed.

Definition union_post (self other : PerDevSegments) (r : res PerDevSegments) : Prop :=
  match r with
  | Ok u =>
      limit self = limit other ∧ disjoint_cov (covers (used self)) (covers (used other)) ∧
      wf u ∧ limit u = limit self ∧
      total (used u) = total (used self) + total (used other) ∧
      ∀ x, covers (used u) x ↔ covers (used self) x ∨ covers (used other) x
  | Err _ => limit self ≠ limit other ∨
      ¬ disjoint_cov (covers (used self)) (covers (used other))
  | Panic _ => False
  end.

Lemma union_ok self other : wf self → wf other → union_post self other (PDS.union self other).
Proof.
  intros [Hl1 Hok1] [Hl2 Hok2]. unfold PDS.union.
  destruct (Z.eqb_spec (limit self) (limit other)) as [Heq|]; [|by left]. simpl.
  rewrite <- Heq in Hok2.
  pose proof (union_ranges_perm _ _ _ Hok1 Hok2) as Hp. revert Hp.
  generalize (concat (map (λ k, PDS.opt_range k (BTree.get k (used self)) ++
    PDS.opt_range k (BTree.get k (used other))) (rev (BTree.set_collect
    (map fst (used self) ++ map fst (used other)))))). intros rs Hp.
  assert (Forall u64_range rs) as Hu.
  { rewrite Hp. apply Forall_app. split; apply (segs_ok_u64 0 (limit self)); done. }
  assert (compat (limit self) (covers []) rs ↔
    disjoint_cov (covers (used self)) (covers (used other))) as Hcompat.
  { trans (compat (limit self) (λ _, False) (used self ++ used other)).
    - rewrite (compat_proper _ _ (λ _, False) (λ x, covers_nil x) rs rs eq_refl).
      split; apply compat_perm; done.
    - rewrite compat_app.
      rewrite (compat_proper _ (λ x, False ∨ covers (used self) x) (λ x, covers (used self) x ∨ False)
        ltac:(intros x; tauto) _ _ eq_refl), compat_split.
      pose proof (segs_ok_compat_empty _ _ Hok1). pose proof (segs_ok_compat_empty _ _ Hok2). tauto. }
  pose proof (insert_each_ok (PDS.new (limit self)) rs (wf_new _ Hl1) Hu) as Hie.
  simpl in Hie.
  destruct (PDS.insert_each _ _) as [u|e|w]; simpl in *; [|tauto|done].
  destruct Hie as (Hc&?&?&Htot&Hcov). rewrite (total_perm _ _ Hp), total_app in Htot.
  split_and!; try done; [tauto|]. intros x.
  rewrite Hcov, (covers_perm _ _ _ Hp), covers_app, covers_nil. tauto.
Qed.

Definition insert_all_post (self : PerDevSegments) (ranges : list (Z * Z))
    (r : res PerDevSegments) : Prop :=
  match r with
  | Ok self' =>
      compat (limit self) (covers (used self)) ranges ∧ wf self' ∧
      limit self' = limit self ∧ total (used self') = total (used self) + total ranges ∧
      ∀ x, covers (used self') x ↔ covers (used self) x ∨ covers ranges x
  | Err _ => ¬ compat (limit self) (covers (used self)) ranges
  | Panic _ => False
  end.

Lemma insert_all_ok self ranges : wf self → Forall u64_range ranges →
  insert_all_post self ranges (PDS.insert_all self ranges).
Proof.
  intros Hwf Hrs. unfold PDS.insert_all.
  pose proof (insert_each_ok (PDS.new (limit self)) ranges (wf_new _ (proj1 Hwf)) Hrs) as Hie.
  assert (compat (limit self) (covers (used self)) ranges ↔
    compat (limit self) (covers []) ranges ∧ disjoint_cov (covers (used self)) (covers ranges))
    as Hsplit.
  { rewrite <- compat_split. apply compat_proper; [|done]. intros x. rewrite covers_nil. tauto. }
  simpl in Hie. destruct (PDS.insert_each _ _) as [temp|e|w]; simpl in *; [|tauto|done].
  destruct Hie as (Hc&Hwf'&Hlim&Htot&Hcov).
  assert (disjoint_cov (covers (used self)) (covers (used temp)) ↔
    disjoint_cov (covers (used self)) (covers ranges)) as Hd.
  { apply disjoint_cov_proper; [done|]. intros x. rewrite Hcov, covers_nil. tauto. }
  pose proof (union_ok self temp Hwf Hwf') as Hu.
  destruct (PDS.union self temp) as [u|e|w]; simpl in *; [| |done].
  - destruct Hu as (_&Hdisj&[??]&Hlu&Htu&Hcu). rewrite Hlu in *. split_and!; try done.
    + tauto.
    + unfold total in Htot at 2; simpl in Htot. lia.
    + intros x. rewrite Hcu, Hcov, covers_nil. tauto.
  - destruct Hu as [?|?]; [congruence|tauto].
Qed.

(** ** [complement] *)
Section complement.
Implicit Types (l : list (Z * Z)) (lim pe : Z).

Fixpoint compl pe lim l : list (Z * Z) :=
  match l with
  | [] => if pe <? lim then [(pe, lim - pe)] else []
  | (s, n) :: r => (if s =? pe then [] else [(pe, s - pe)]) ++ compl (s + n) lim r
  end.

Lemma insert_last l k v : keys_lt l k → (BTree.insert k v l).2 = l ++ [(k, v)].
Proof.
  intros H. rewrite <- (app_nil_r l) at 1.
  by rewrite (insert_mid (k + 1) 0 l []) by (done || lia).
Qed.

Lemma complement_loop_compl l pe lim fr : u64 lim → 0 ≤ pe ≤ lim → segs_ok pe lim l → keys_lt fr pe →
  (let '(e, free) := PDS.complement_loop l pe fr in
   if e <? lim then (BTree.insert e (lim -64 e) free).2 else free) = fr ++ compl pe lim l.
Proof.
  intros Hlim. revert pe fr. induction l as [|[s n] r IH]; intros pe fr Hpe; simpl.
  - intros _ Hfr. destruct (Z.ltb_spec pe lim); [|by rewrite app_nil_r].
    rewrite insert_last by done. nowrap. done.
  - intros (?&?&?&Hok) Hfr. unfold u64 in Hlim. nowrap.
    destruct (Z.eqb_spec (s - pe) 0), (Z.eqb_spec s pe); try lia; simpl;
      rewrite IH; try done; try lia; try (by eapply segs_ok_weaken; [|done]; lia).
    + eapply Forall_impl; [done|simpl; lia].
    + by rewrite insert_last, <- app_assoc.
    + rewrite insert_last by done. apply keys_lt_snoc.
      split; [eapply Forall_impl; [done|simpl; lia]|lia].
Qed.

Lemma segs_ok_compl l pe lim : 0 ≤ pe ≤ lim → segs_ok pe lim l → segs_ok pe lim (compl pe lim l).
Proof.
  revert pe. induction l as [|[s n] r IH]; intros pe Hpe; simpl.
  - destruct (Z.ltb_spec pe lim); simpl; intuition lia.
  - intros (?&?&?&Hok). specialize (IH (s + n) ltac:(lia) ltac:(by eapply segs_ok_weaken; [|done]; lia)).
    destruct (Z.eqb_spec s pe); simpl; [by eapply segs_ok_weaken; [|done]; lia|].
    split_and!; try lia. eapply segs_ok_weaken; [|done]; lia.
Qed.

Lemma covers_compl l pe lim x : 0 ≤ pe ≤ lim → segs_ok pe lim l →
  covers (compl pe lim l) x ↔ pe ≤ x < lim ∧ ¬ covers l x.
Proof.
  revert pe. induction l as [|[s n] r IH]; intros pe Hpe; simpl.
  - intros _. destruct (Z.ltb_spec pe lim); rewrite ?covers_cons, !covers_nil; intuition lia.
  - intros (?&?&?&Hok). rewrite covers_app, (IH (s + n)), !covers_cons by
      (lia || by eapply segs_ok_weaken; [|done]; lia).
    pose proof (λ Hc, covers_bounds _ _ _ x Hok Hc).
    assert (covers (if s =? pe then [] else [(pe, s - pe)]) x ↔ pe ≤ x < s) as ->.
    { destruct (Z.eqb_spec s pe); rewrite ?covers_cons, ?covers_nil; intuition lia. }
    destruct (decide (covers r x)), (decide (x < s)), (decide (x < s + n)); intuition lia.
Qed.

Lemma total_compl l pe lim : 0 ≤ pe ≤ lim → segs_ok pe lim l →
  total (compl pe lim l) = lim - pe - total l.
Proof.
  revert pe. induction l as [|[s n] r IH]; intros pe Hpe; simpl.
  - intros _. unfold total. destruct (Z.ltb_spec pe lim); simpl; lia.
  - intros (?&?&?&Hok). rewrite total_app, IH, total_cons by
      (lia || by eapply segs_ok_weaken; [|done]; lia).
    destruct (Z.eqb_spec s pe); unfold total; simpl; lia.
Qed.

End complement.

Lemma complement_ok self : wf self →
  let c := PDS.complement self in
  wf c ∧ limit c = limit self ∧ total (used c) = limit self - total (used self) ∧
  ∀ x, covers (used c) x ↔ 0 ≤ x < limit self ∧ ¬ covers (used self) x.
Proof.
  intros [Hlim Hok]. pose proof Hlim as [??].
  pose proof (complement_loop_compl (used self) 0 (limit self) [] Hlim ltac:(lia) Hok
    ltac:(constructor)) as Hc. unfold PDS.complement.
  destruct (PDS.complement_loop _ _ _) as [e fr]. simpl. rewrite Hc. simpl.
  split_and!; try done.
  - split; simpl; [done|]. apply segs_ok_compl; done || lia.
  - rewrite total_compl; done || lia.
  - intros x. apply covers_compl; done || lia.
Qed.

(** ** [RangeAllocator] *)

Lemma total_bounds lo lim l : lo ≤ lim → segs_ok lo lim l → 0 ≤ total l ≤ lim - lo.
Proof.
  revert lo. induction l as [|[s n] r IH]; intros lo Hlo; simpl; [unfold total; simpl; lia|].
  intros (?&?&?&Hok). rewrite total_cons. destruct r as [|[s' n'] r]; [unfold total; simpl; lia|].
  simpl in Hok. specialize (IH (s + n + 1)). simpl in IH. destruct IH; [lia|done|]. lia.
Qed.

Lemma wf_total self : wf self → 0 ≤ total (used self) ≤ limit self.
Proof. intros [[??] Hok]. apply total_bounds in Hok; lia. Qed.

Lemma sum_exact self : wf self → PDS.sum self = total (used self).
Proof.
  intros Hwf. unfold PDS.sum. apply sum64_exact. destruct (wf_total _ Hwf).
  destruct Hwf as [[??] _]. unfold total, u64 in *. lia.
Qed.

Lemma available_exact self : wf (segments self) →
  RA.available self = limit (segments self) - total (used (segments self)).
Proof.
  intros Hwf. unfold RA.available, RA.used. rewrite sum_exact by done.
  pose proof (wf_total _ Hwf). destruct Hwf as [[??] _]. by nowrap.
Qed.

Definition first_fit (free : list (Z * Z)) (taken : PerDevSegments) : Prop :=
  ∀ x y, covers (used taken) x → covers free y → ¬ covers (used taken) y → x < y.

Lemma request_loop_ok free needed segs lo lim :
  0 ≤ lo → segs_ok lo lim free → u64 needed → wf segs → limit segs = lim →
  (∀ x, covers (used segs) x → x < lo) →
  ∃ segs', RA.request_loop free needed segs = Ok segs' ∧ wf segs' ∧ limit segs' = lim ∧
    total (used segs') = total (used segs) + Z.min needed (total free) ∧
    (∀ x, covers (used segs') x → covers (used segs) x ∨ covers free x) ∧
    (∀ x, covers (used segs) x → covers (used segs') x) ∧
    first_fit free segs'.
Proof.
  revert needed segs lo. induction free as [|[s n] r IH]; intros needed segs lo Hlo; simpl.
  { intros _ [??] ? <- ?. exists segs. split_and!; try done; [unfold total at 3; simpl; lia|tauto|].
    intros x y ? Hy%covers_nil. done. }
  intros (?&?&?&Hok) [??] Hwf <- Hlt.
  assert (0 ≤ total r) by (by eapply total_nonneg).
  destruct (Z.eqb_spec needed 0) as [->|].
  { exists segs. rewrite total_cons. split_and!; try done; [lia|tauto|].
    intros x y ?%Hlt Hy _. eapply (covers_bounds lo (limit segs)) in Hy; [lia|simpl; tauto]. }
  pose proof (proj1 Hwf) as [??].
  pose proof (insert_ok segs s (Z.min needed n) Hwf ltac:(split; lia) ltac:(split; lia)) as Hins.
  destruct (PDS.insert segs (s, Z.min needed n)) as [segs1|e|w]; simpl in Hins; [| |done].
  2:{ exfalso. destruct Hins as [?|[?|(x&Hx%Hlt&?)]]; lia. }
  destruct Hins as (_&_&_&Hwf1&Hlim1&Htot1&Hcov1). nowrap.
  destruct (IH (needed - Z.min needed n) segs1 (s + n + 1)) as
    (segs'&Hr&Hwf'&Hlim'&Htot'&Hsub&Hsup&Hff); try done; try lia.
  { split; lia. }
  { intros x [?%Hlt|?]%Hcov1; lia. }
  exists segs'. rewrite total_cons. split_and!; try done; try lia.
  - intros x [[?|?]%Hcov1|?]%Hsub; rewrite covers_cons; [tauto|right; left; lia|tauto].
  - intros x Hx. apply Hsup, Hcov1. by left.
  - intros x y Hx [Hy|Hy]%covers_cons Hny; [|by eapply Hff].
    assert (s + Z.min needed n ≤ y).
    { destruct (decide (y < s + Z.min needed n)); [|lia]. exfalso. apply Hny, Hsup, Hcov1. lia. }
    assert (needed - Z.min needed n = 0) as Hz by lia. rewrite Hz in Hr.
    assert (segs' = segs1) as ->.
    { destruct r as [|[s' n'] r]; simpl in Hr; congruence. }
    apply Hcov1 in Hx as [?%Hlt|?]; lia.
Qed.

Lemma request_ok self amount : wf (segments self) → u64 amount →
  ∃ segs self', RA.request self amount = Ok (segs, self') ∧
    wf segs ∧ wf (segments self') ∧
    limit segs = limit (segments self) ∧ limit (segments self') = limit (segments self) ∧
    total (used segs) = Z.min amount (limit (segments self) - total (used (segments self))) ∧
    total (used (segments self')) = total (used (segments self)) + total (used segs) ∧
    disjoint_cov (covers (used (segments self))) (covers (used segs)) ∧
    (∀ x, covers (used (segments self')) x ↔
          covers (used (segments self)) x ∨ covers (used segs) x) ∧
    first_fit (used (PDS.complement (segments self))) segs.
Proof.
  intros Hwf Ha. destruct (complement_ok _ Hwf) as ([_ Hcok]&Hclim&Hctot&Hccov).
  rewrite Hclim in Hcok. pose proof (proj1 Hwf) as Hlim.
  destruct (request_loop_ok (used (PDS.complement (segments self))) amount
    (PDS.new (limit (segments self))) 0 (limit (segments self)))
    as (segs&Hr&Hwf'&Hlim'&Htot'&Hsub&_&Hff); try done.
  { by intros x ?%covers_nil. }
  unfold RA.request, PDS.iter. rewrite Hr. simpl rbind.
  assert (∀ x, covers (used segs) x → ¬ covers (used (segments self)) x) as Hdis.
  { intros x [?%covers_nil|Hx%Hccov]%Hsub; [done|tauto]. }
  pose proof (union_ok (segments self) segs Hwf Hwf') as Hu.
  destruct (PDS.union _ _) as [u|e|w]; simpl in Hu; [| |done].
  - destruct Hu as (_&Hd&Hwfu&Hlu&Htu&Hcu). exists segs, (mkRA u). simpl.
    rewrite Hctot in Htot'. unfold total at 2 in Htot'. simpl in Htot'.
    split_and!; try done; try lia.
  - exfalso. destruct Hu as [?|Hu]; [congruence|]. apply Hu. intros x ??. by eapply Hdis.
Qed.

(** Extensionality: well-formed maps with one limit and one set of sectors are equal. *)
Lemma wf_ext s1 s2 : wf s1 → wf s2 → limit s1 = limit s2 →
  (∀ x, covers (used s1) x ↔ covers (used s2) x) → s1 = s2.
Proof.
  destruct s1 as [lim l1], s2 as [lim2 l2]. intros [_ H1] [_ H2]; simpl in *. intros <- Hc.
  f_equal. by apply (segs_ok_canonical 0 lim).
Qed.

Lemma total_0_nil lo lim l : segs_ok lo lim l → total l = 0 → l = [].
Proof.
  destruct l as [|[s n] r]; simpl; [done|]. intros (?&?&?&Hok). rewrite total_cons.
  apply total_nonneg in Hok. lia.
Qed.

(** A map whose sum reaches the limit occupies every sector. *)
Lemma wf_full s x : wf s → total (used s) = limit s →
  covers (used s) x ↔ 0 ≤ x < limit s.
Proof.
  intros Hwf Ht. destruct (complement_ok _ Hwf) as ([_ Hcok]&Hl&Hct&Hcc).
  apply total_0_nil in Hcok; [|lia]. specialize (Hcc x). rewrite Hcok, covers_nil in Hcc.
  destruct Hwf as [_ Hok]. pose proof (λ Hc, covers_bounds _ _ _ x Hok Hc).
  destruct (decide (covers (used s) x)); intuition lia.
Qed.

(** *** Properties of the allocator *)

(** C6: [PerDevSegments::insert] on a well-formed map and [u64] arguments never
    panics.  It accepts the range exactly when the range ends at or before the
    limit and shares no sector with a used range; the result is then
    well-formed (sorted, coalesced, no empty range, below the limit), occupies
    exactly the old sectors and the new ones, and its sum grows by the length.
    Otherwise it returns an error. *)
Theorem insert_spec self start len : wf self → u64 start → u64 len →
  (∃ self', PDS.insert self (start, len) = Ok self' ∧ wf self' ∧ limit self' = limit self ∧
     PDS.sum self' = PDS.sum self + len ∧
     (∀ x, covers (used self') x ↔ covers (used self) x ∨ start ≤ x < start + len) ∧
     start + len ≤ limit self ∧ ∀ x, covers (used self) x → ¬ start ≤ x < start + len) ∨
  (∃ e, PDS.insert self (start, len) = Err e ∧
     (limit self < start + len ∨ ∃ x, covers (used self) x ∧ start ≤ x < start + len)).
Proof.
  intros Hwf Hs Hn. pose proof (insert_ok self start len Hwf Hs Hn) as H.
  destruct (PDS.insert self (start, len)) as [self'|e|w]; simpl in H; [left|right|done].
  - destruct H as (?&?&Hd&?&?&?&?). exists self'. rewrite !sum_exact by done.
    split_and!; try done.
  - exists e. split; [done|]. destruct Hn. destruct H as [?|[?|?]]; [left; lia|by left|by right].
Qed.

Definition ex_pds : PerDevSegments := mkPDS 128 [(10, 20); (40, 10)].

Lemma insert_spec_witness :
  wf ex_pds ∧ PDS.insert ex_pds (30, 10) = Ok (mkPDS 128 [(10, 40)]) ∧
  PDS.insert ex_pds (29, 2) = Err (Msg "range to add overlaps previous range") ∧
  ((∃ self', PDS.insert ex_pds (30, 10) = Ok self' ∧ wf self' ∧ limit self' = limit ex_pds ∧
     PDS.sum self' = PDS.sum ex_pds + 10 ∧
     (∀ x, covers (used self') x ↔ covers (used ex_pds) x ∨ 30 ≤ x < 30 + 10) ∧
     30 + 10 ≤ limit ex_pds ∧ ∀ x, covers (used ex_pds) x → ¬ 30 ≤ x < 30 + 10) ∨
  (∃ e, PDS.insert ex_pds (30, 10) = Err e ∧
     (limit ex_pds < 30 + 10 ∨ ∃ x, covers (used ex_pds) x ∧ 30 ≤ x < 30 + 10))).
Proof.
  split_and!; [by apply (bool_decide_unpack _)|vm_compute; reflexivity|vm_compute; reflexivity|].
  apply (insert_spec ex_pds 30 10); by apply (bool_decide_unpack _).
Defined.

(** [insert_all] is all-or-nothing: it succeeds exactly when every range
    ends at or before the limit and meets neither the used ranges nor another
    of the new ranges, whatever their order; the new map then occupies the union.
    On any other input it returns an error (and [self] is not assigned). *)
Theorem insert_all_spec self ranges : wf self → Forall u64_range ranges →
  (compat (limit self) (covers (used self)) ranges ↔
     ∃ self', PDS.insert_all self ranges = Ok self') ∧
  (¬ compat (limit self) (covers (used self)) ranges ↔
     ∃ e, PDS.insert_all self ranges = Err e) ∧
  (∀ self', PDS.insert_all self ranges = Ok self' →
     wf self' ∧ limit self' = limit self ∧
     PDS.sum self' = PDS.sum self + total ranges ∧
     ∀ x, covers (used self') x ↔ covers (used self) x ∨ covers ranges x).
Proof.
  intros Hwf Hr. pose proof (insert_all_ok self ranges Hwf Hr) as H.
  destruct (PDS.insert_all self ranges) as [self'|e|w]; simpl in H; [|naive_solver|done].
  destruct H as (?&?&?&?&?). split_and!; [naive_solver..|].
  intros ? [= <-]. rewrite !sum_exact by done. done.
Qed.

Lemma insert_all_spec_witness :
  PDS.insert_all ex_pds [(60, 10); (30, 5); (50, 10)] = Ok (mkPDS 128 [(10, 25); (40, 30)]) ∧
  PDS.sum (mkPDS 128 [(10, 25); (40, 30)]) = PDS.sum ex_pds + 25.
Proof.
  split; [vm_compute; reflexivity|].
  apply (insert_all_spec ex_pds [(60, 10); (30, 5); (50, 10)]);
    [by apply (bool_decide_unpack _)| |vm_compute; reflexivity].
  repeat constructor; simpl; by apply (bool_decide_unpack _).
Defined.

(** [complement] of a well-formed map is well-formed, occupies exactly the
    sectors below the limit that the map does not, and complementing twice
    gives the original map back. *)
Theorem complement_spec self : wf self →
  wf (PDS.complement self) ∧
  (∀ x, covers (used (PDS.complement self)) x ↔ 0 ≤ x < limit self ∧ ¬ covers (used self) x) ∧
  PDS.complement (PDS.complement self) = self.
Proof.
  intros Hwf. destruct (complement_ok _ Hwf) as (Hwf1&Hl1&_&Hc1).
  destruct (complement_ok _ Hwf1) as (Hwf2&Hl2&_&Hc2). split_and!; [done..|].
  apply wf_ext; [done..|congruence|]. intros x. rewrite Hc2, Hc1, Hl1.
  destruct Hwf as [_ Hok]. pose proof (λ Hc, covers_bounds _ _ _ x Hok Hc).
  destruct (decide (covers (used self) x)); intuition lia.
Qed.

Lemma complement_spec_witness :
  PDS.complement ex_pds = mkPDS 128 [(0, 10); (30, 10); (50, 78)] ∧
  PDS.complement (PDS.complement ex_pds) = ex_pds.
Proof.
  split; [vm_compute; reflexivity|].
  apply (complement_spec ex_pds); by apply (bool_decide_unpack _).
Defined.

(** C7: [RangeAllocator::request] never panics and never over-allocates: it
    grants [min amount available] sectors, all of them free before, lowest
    addresses first; afterwards exactly the old and the granted sectors are used
    and [available] has dropped by the amount granted. *)
Theorem request_spec self amount : wf (segments self) → u64 amount →
  ∃ segs self', RA.request self amount = Ok (segs, self') ∧
    wf segs ∧ wf (segments self') ∧ RA.size self' = RA.size self ∧
    PDS.sum segs = Z.min amount (RA.available self) ∧
    RA.available self' = RA.available self - PDS.sum segs ∧
    (∀ x, covers (used segs) x → 0 ≤ x < RA.size self ∧ ¬ covers (used (segments self)) x) ∧
    (∀ x, covers (used (segments self')) x ↔
          covers (used (segments self)) x ∨ covers (used segs) x) ∧
    (∀ x y, covers (used segs) x → 0 ≤ y < RA.size self →
            ¬ covers (used (segments self')) y → x < y).
Proof.
  intros Hwf Ha. destruct (request_ok self amount Hwf Ha)
    as (segs&self'&Hr&Hwfs&Hwf'&Hls&Hl'&Hts&Ht'&Hd&Hc&Hff). exists segs, self'.
  rewrite !available_exact, !sum_exact by done. unfold RA.size in *.
  destruct (complement_ok _ Hwf) as (_&_&_&Hcc).
  split_and!; try done; try lia.
  - intros x Hx. split; [|intros ?; by eapply Hd].
    destruct Hwfs as [_ Hok]. eapply covers_bounds in Hok; [|exact Hx]. lia.
  - intros x y Hx Hy Hny. apply (Hff x y); [done|apply Hcc|]; rewrite Hc in Hny; tauto.
Qed.

Lemma request_spec_witness :
  RA.request (mkRA ex_pds) 15 = Ok (mkPDS 128 [(0, 10); (30, 5)], mkRA (mkPDS 128 [(0, 35); (40, 10)])) ∧
  ∃ segs self', RA.request (mkRA ex_pds) 15 = Ok (segs, self') ∧
    PDS.sum segs = Z.min 15 (RA.available (mkRA ex_pds)).
Proof.
  split; [vm_compute; reflexivity|].
  destruct (request_spec (mkRA ex_pds) 15) as (segs&self'&?&?&?&?&?&_);
    [by apply (bool_decide_unpack _)..|]. by exists segs, self'.
Defined.

(** [request_all] is [request] of everything that is available: same
    grant, same allocator afterwards, nothing left (the equivalence the test
    invariant of [RangeAllocator] asserts), and it does not panic. *)
Theorem request_all_equiv self : wf (segments self) →
  RA.request_all self = RA.request self (RA.available self) ∧
  ∃ segs self', RA.request_all self = Ok (segs, self') ∧ RA.available self' = 0.
Proof.
  intros Hwf. pose proof (proj1 Hwf) as Hlim. pose proof (wf_total _ Hwf).
  destruct (complement_ok _ Hwf) as ([_ Hcok]&Hclim&Hctot&Hcc).
  assert (u64 (RA.available self)) as Ha by apply wrap64_u64.
  destruct (request_ok self _ Hwf Ha) as (segs&self'&Hr&Hwfs&Hwf'&Hls&Hl'&Hts&Ht'&Hd&Hc&_).
  rewrite available_exact, Z.min_id in Hts by done.
  pose proof (insert_ok (PDS.new (limit (segments self))) 0 (limit (segments self))
    (wf_new _ Hlim) ltac:(by split) Hlim) as Hins. unfold RA.request_all. rewrite Hr.
  destruct (PDS.insert _ _) as [temp|e|w]; simpl in Hins; [| |done].
  2:{ destruct Hlim. destruct Hins as [?|[?|(x&?%covers_nil&?)]]; done || lia. }
  destruct Hins as (_&_&_&Hwft&Hlt&Htt&Hct). unfold total at 2 in Htt. simpl in Htt.
  assert (PDS.complement (segments self) = segs ∧ temp = segments self') as [-> ->].
  { split; apply wf_ext; try done; try congruence.
    - destruct (complement_ok _ Hwf) as (?&_). done.
    - intros x. rewrite Hcc. specialize (Hc x). rewrite wf_full in Hc by (done || lia).
      rewrite Hl' in Hc. pose proof (Hd x). destruct (decide (covers (used segs) x)); tauto.
    - intros x. rewrite !wf_full by (done || lia). by rewrite Hlt, Hl'. }
  destruct self' as [s']. split; [done|]. exists segs, (mkRA s'). split; [done|].
  rewrite available_exact by done. simpl in *. lia.
Qed.

Lemma request_all_equiv_witness :
  RA.request_all (mkRA ex_pds)
    = Ok (mkPDS 128 [(0, 10); (30, 10); (50, 78)], mkRA (mkPDS 128 [(0, 128)])) ∧
  RA.request_all (mkRA ex_pds) = RA.request (mkRA ex_pds) (RA.available (mkRA ex_pds)).
Proof.
  split; [vm_compute; reflexivity|].
  apply (request_all_equiv (mkRA ex_pds)); by apply (bool_decide_unpack _).
Defined.
