(* ===== verification/Disk.v ===== *)
(** * Byte buffers, little-endian integers and files

    The part of [std] the metadata code relies on: slices of fixed-size byte
    buffers, [byteorder]'s little-endian integers, UTF-8 validity, and a file
    (or block device) behind [Read + Seek + SyncAll].  Bytes are integers in
    [[0, 256)]. *)
From stdpp Require Import base list strings list_numbers.
From Stdlib Require Import ZArith Lia.
From S2P Require Import Prelude.

Definition is_byte (b : Z) : Prop := 0 ≤ b < 256.

(** ** Slices of buffers *)

(** [&buf[a..b]] *)
Definition sub (buf : list Z) (a b : nat) : list Z := take (b - a) (drop a buf).

(** [buf[a..a + data.len()].clone_from_slice(data)] *)
Definition splice (buf : list Z) (a : nat) (data : list Z) : list Z :=
  take a buf ++ data ++ drop (a + length data) buf.

Lemma splice_length buf a data :
  (a + length data ≤ length buf)%nat → length (splice buf a data) = length buf.
Proof. intros. unfold splice. rewrite !length_app, length_take, length_drop. lia. Qed.

Lemma sub_length buf a b : (a ≤ b ≤ length buf)%nat → length (sub buf a b) = (b - a)%nat.
Proof. intros. unfold sub. rewrite length_take, length_drop. lia. Qed.

Lemma lookup_splice buf a data i :
  (a + length data ≤ length buf)%nat →
  splice buf a data !! i =
    if decide (a ≤ i < a + length data)%nat then data !! (i - a)%nat else buf !! i.
Proof.
  intros Hle. unfold splice. case_decide.
  - rewrite lookup_app_r by (rewrite length_take; lia).
    rewrite length_take, Nat.min_l by lia. rewrite lookup_app_l by lia. done.
  - destruct (decide (i < a)%nat).
    + rewrite lookup_app_l by (rewrite length_take; lia). by rewrite lookup_take_lt by lia.
    + rewrite lookup_app_r by (rewrite length_take; lia).
      rewrite length_take, Nat.min_l by lia. rewrite lookup_app_r by lia.
      rewrite lookup_drop. f_equal. lia.
Qed.

Lemma lookup_sub buf a b i :
  sub buf a b !! i = if decide (i < b - a)%nat then buf !! (a + i)%nat else None.
Proof.
  unfold sub. case_decide.
  - by rewrite lookup_take_lt, lookup_drop by lia.
  - by rewrite lookup_take_ge by lia.
Qed.

(** Reading back what was just written. *)
Lemma sub_splice_same buf a b data :
  b = (a + length data)%nat → (b ≤ length buf)%nat → sub (splice buf a data) a b = data.
Proof.
  intros -> Hle. apply list_eq. intros i. rewrite lookup_sub, lookup_splice by lia.
  repeat case_decide; try lia.
  - f_equal; lia.
  - symmetry. apply lookup_ge_None. lia.
Qed.

(** Reading beside what was just written. *)
Lemma sub_splice_disj buf a data p q :
  (a + length data ≤ length buf)%nat → (q ≤ a ∨ a + length data ≤ p)%nat →
  sub (splice buf a data) p q = sub buf p q.
Proof.
  intros Hle Hd. apply list_eq. intros i. rewrite !lookup_sub. case_decide; [|done].
  rewrite lookup_splice by lia. case_decide; [lia|done].
Qed.

(** ** Little-endian integers ([byteorder::LittleEndian]) *)

Fixpoint le_bytes (n : nat) (z : Z) : list Z :=
  match n with O => [] | S n' => z mod 256 :: le_bytes n' (z / 256) end.

Fixpoint le_val (bs : list Z) : Z :=
  match bs with [] => 0 | b :: r => b + 256 * le_val r end.

Definition write_u32 (z : Z) : list Z := le_bytes 4 z.
Definition write_u64 (z : Z) : list Z := le_bytes 8 z.

Lemma le_bytes_length n z : length (le_bytes n z) = n.
Proof. revert z. induction n as [|n IH]; intros z; simpl; [done|by rewrite IH]. Qed.

Lemma le_bytes_bytes n z : Forall is_byte (le_bytes n z).
Proof.
  revert z. induction n as [|n IH]; intros z; simpl; constructor; [|done].
  apply Z.mod_pos_bound. lia.
Qed.

Lemma le_val_bytes n z : 0 ≤ z < 256 ^ Z.of_nat n → le_val (le_bytes n z) = z.
Proof.
  revert z. induction n as [|n IH]; intros z Hz; simpl.
  - change (256 ^ Z.of_nat 0) with 1 in Hz. lia.
  - rewrite Nat2Z.inj_succ, Z.pow_succ_r in Hz by lia.
    rewrite IH; [|split; [apply Z.div_pos; lia|apply Z.div_lt_upper_bound; lia]].
    rewrite (Z.div_mod z 256) at 3 by lia. lia.
Qed.

Lemma le_val_u64 z : u64 z → le_val (write_u64 z) = z.
Proof. intros [??]. apply le_val_bytes. change (256 ^ Z.of_nat 8) with (2 ^ 64). unfold u64_max in *. lia. Qed.

Lemma le_val_u32 z : 0 ≤ z < 2 ^ 32 → le_val (write_u32 z) = z.
Proof. intros ?. apply le_val_bytes. by change (256 ^ Z.of_nat 4) with (2 ^ 32). Qed.

Lemma le_val_range bs : Forall is_byte bs → 0 ≤ le_val bs < 256 ^ Z.of_nat (length bs).
Proof.
  induction 1 as [|b r Hb _ IH]; simpl; [lia|]. unfold is_byte in Hb.
  rewrite Nat2Z.inj_succ, Z.pow_succ_r by lia. lia.
Qed.

Lemma le_val_range8 bs : length bs = 8%nat → Forall is_byte bs → u64 (le_val bs).
Proof.
  intros Hl Hb%le_val_range. rewrite Hl in Hb. change (256 ^ Z.of_nat 8) with (2 ^ 64) in Hb.
  unfold u64, u64_max. lia.
Qed.

Lemma sub_bytes buf a b : Forall is_byte buf → Forall is_byte (sub buf a b).
Proof. intros. unfold sub. by apply Forall_take, Forall_drop. Qed.

Lemma splice_bytes buf a d : Forall is_byte buf → Forall is_byte d → Forall is_byte (splice buf a d).
Proof. intros. unfold splice. rewrite !Forall_app. auto using Forall_take, Forall_drop. Qed.

(** ** UTF-8 ([str::from_utf8]) *)

Definition cont (b : Z) : bool := (0x80 <=? b) && (b <=? 0xBF).
Definition within (lo hi b : Z) : bool := (lo <=? b) && (b <=? hi).

Fixpoint valid_utf8 (bs : list Z) : bool :=
  match bs with
  | [] => true
  | b0 :: r0 =>
      if within 0 0x7F b0 then valid_utf8 r0
      else match r0 with
      | [] => false
      | b1 :: r1 =>
          if within 0xC2 0xDF b0 then cont b1 && valid_utf8 r1
          else match r1 with
          | [] => false
          | b2 :: r2 =>
              if (b0 =? 0xE0) then within 0xA0 0xBF b1 && cont b2 && valid_utf8 r2
              else if (b0 =? 0xED) then within 0x80 0x9F b1 && cont b2 && valid_utf8 r2
              else if within 0xE1 0xEF b0 then cont b1 && cont b2 && valid_utf8 r2
              else match r2 with
              | [] => false
              | b3 :: r3 =>
                  if (b0 =? 0xF0) then within 0x90 0xBF b1 && cont b2 && cont b3 && valid_utf8 r3
                  else if within 0xF1 0xF3 b0 then cont b1 && cont b2 && cont b3 && valid_utf8 r3
                  else (b0 =? 0xF4) && within 0x80 0x8F b1 && cont b2 && cont b3 && valid_utf8 r3
              end
          end
      end
  end.

Lemma ascii_utf8 bs : Forall (λ b, 0 ≤ b < 128) bs → valid_utf8 bs = true.
Proof.
  induction 1 as [|b r Hb _ IH]; [done|]. cbn [valid_utf8]. unfold within.
  destruct (Z.leb_spec 0 b), (Z.leb_spec b 127); simpl; done || lia.
Qed.

(** ** Files

    A file is its size, its contents, the cursor, and a fault oracle: the
    [n]-th operation on the file fails when [f_fault n] is [Some k], and a
    failing write has transferred its first [k] bytes (a torn write).  A file
    with [f_fault] constantly [None] never fails.  [f_write] tells whether the file was opened
    for writing ([OpenOptions::write(true)]); a write to one that was not fails. *)
Record File : Type := mkFile {
  f_size : Z; f_data : Z → Z; f_pos : Z; f_ops : nat; f_fault : nat → option nat; f_write : bool }.

(** Computations that use a file. *)
Definition io : Type → Type := st File.

Definition tick (f : File) : File :=
  mkFile (f_size f) (f_data f) (f_pos f) (S (f_ops f)) (f_fault f) (f_write f).
Definition set_pos (p : Z) (f : File) : File :=
  mkFile (f_size f) (f_data f) p (f_ops f) (f_fault f) (f_write f).
Definition set_mode (w : bool) (f : File) : File :=
  mkFile (f_size f) (f_data f) (f_pos f) (f_ops f) (f_fault f) w.

(** the bytes at [[p, p + n)] *)
Definition slice (d : Z → Z) (p n : Z) : list Z := map d (seqZ p n).

Definition put (d : Z → Z) (p : Z) (bs : list Z) : Z → Z := λ i,
  if (p <=? i) && (i <? p + Z.of_nat (length bs)) then bs !!! Z.to_nat (i - p) else d i.

(** [seek(SeekFrom::Start(p))] *)
Definition seek (p : Z) : io unit := λ f,
  match f_fault f (f_ops f) with
  | Some _ => (Err (Io "seek"), tick f)
  | None => (Ok tt, set_pos p (tick f))
  end.

(** [read_exact] of an [n]-byte buffer *)
Definition read_exact (n : Z) : io (list Z) := λ f,
  match f_fault f (f_ops f) with
  | Some _ => (Err (Io "read"), tick f)
  | None =>
      if f_size f <? f_pos f + n then (Err (Io "failed to fill whole buffer"), tick f)
      else (Ok (slice (f_data f) (f_pos f) n), set_pos (f_pos f + n) (tick f))
  end.

(** [write_all]; at most [f_size] bytes exist, a write past the end is cut there *)
Definition write_all (bs : list Z) : io unit := λ f,
  if negb (f_write f) then (Err (Io "Bad file descriptor"), tick f) else
  let room := f_size f - f_pos f in
  let fits := Z.of_nat (length bs) <=? room in
  let most := if fits then length bs else Z.to_nat room in
  let '(k, r) := match f_fault f (f_ops f) with
                 | Some k => (Nat.min k most, Err (Io "write"))
                 | None => (most, if fits then Ok tt else Err (Io "failed to write whole buffer"))
                 end in
  let done_ := take k bs in
  (r, mkFile (f_size f) (put (f_data f) (f_pos f) done_)
        (f_pos f + Z.of_nat (length done_)) (S (f_ops f)) (f_fault f) (f_write f)).

Definition sync_all : io unit := λ f,
  match f_fault f (f_ops f) with
  | Some _ => (Err (Io "sync"), tick f)
  | None => (Ok tt, tick f)
  end.

Definition no_faults (f : File) : Prop := ∀ n, f_fault f n = None.
(** reads and writes succeed *)
Definition writable (f : File) : Prop := no_faults f ∧ f_write f = true.

Lemma writable_reads f : writable f → no_faults f.
Proof. by intros [? _]. Qed.
#[export] Hint Extern 0 (no_faults _) => apply writable_reads; assumption : core.

(** ** Reasoning about files *)

Lemma slice_length d p n : 0 ≤ n → length (slice d p n) = Z.to_nat n.
Proof. intros. unfold slice. by rewrite length_map, length_seqZ. Qed.

Lemma lookup_slice d p n i : (Z.of_nat i < n) → slice d p n !! i = Some (d (p + Z.of_nat i)).
Proof. intros. unfold slice. rewrite list_lookup_fmap, lookup_seqZ_lt by done. done. Qed.

Lemma slice_ext d d' p n : (∀ i, p ≤ i < p + n → d i = d' i) → slice d p n = slice d' p n.
Proof. intros H. apply map_ext_in. intros i Hi%list_elem_of_In%elem_of_seqZ. apply H. lia. Qed.

Lemma put_outside d p bs i :
  ¬ (p ≤ i < p + Z.of_nat (length bs)) → put d p bs i = d i.
Proof. intros. unfold put. zif; [lia|done]. Qed.

Lemma slice_put_same d p bs : slice (put d p bs) p (Z.of_nat (length bs)) = bs.
Proof.
  apply list_eq. intros i. destruct (decide (i < length bs)%nat) as [Hi|Hi].
  - rewrite lookup_slice by lia. unfold put.
    destruct (Z.leb_spec p (p + Z.of_nat i)), (Z.ltb_spec (p + Z.of_nat i) (p + Z.of_nat (length bs)));
      simpl; try lia.
    replace (Z.to_nat _) with i by lia. by rewrite list_lookup_lookup_total_lt.
  - rewrite !lookup_ge_None_2; [done|lia|rewrite slice_length; lia].
Qed.

Lemma slice_put_disj d p bs q n :
  q + n ≤ p ∨ p + Z.of_nat (length bs) ≤ q → slice (put d p bs) q n = slice d q n.
Proof. intros. apply slice_ext. intros. apply put_outside. lia. Qed.

Lemma slice_app d p n m : 0 ≤ n → 0 ≤ m → slice d p (n + m) = slice d p n ++ slice d (p + n) m.
Proof. intros. unfold slice. rewrite seqZ_app by done. apply map_app. Qed.

(** [wrote lo hi f f']: between [f] and [f'] only bytes of [[lo, hi)] changed. *)
Definition wrote (lo hi : Z) (f f' : File) : Prop :=
  f_size f' = f_size f ∧ (f_fault f' = f_fault f ∧ f_write f' = f_write f) ∧
  ∀ i, ¬ (lo ≤ i < hi) → f_data f' i = f_data f i.

Lemma wrote_refl lo hi f : wrote lo hi f f.
Proof. done. Qed.

Lemma wrote_trans lo hi f1 f2 f3 : wrote lo hi f1 f2 → wrote lo hi f2 f3 → wrote lo hi f1 f3.
Proof.
  intros (?&[??]&Hd1) (?&[??]&Hd2). split_and!; [congruence..|]. intros i Hi. by rewrite Hd2, Hd1.
Qed.

Lemma wrote_weaken lo hi lo' hi' f f' :
  wrote lo hi f f' → lo' ≤ lo → hi ≤ hi' → wrote lo' hi' f f'.
Proof. intros (?&[??]&Hd) ??. split_and!; [done..|]. intros i Hi. apply Hd. lia. Qed.

(** An operation that changes no byte fits any range. *)
Lemma wrote_weaken0 p lo hi f f' : wrote p p f f' → wrote lo hi f f'.
Proof. intros (?&[??]&Hd). split_and!; [done..|]. intros i _. apply Hd. lia. Qed.

Lemma wrote_slice lo hi f f' p n :
  wrote lo hi f f' → p + n ≤ lo ∨ hi ≤ p → slice (f_data f') p n = slice (f_data f) p n.
Proof. intros (_&_&H) ?. apply slice_ext. intros. apply H. lia. Qed.

Lemma wrote_no_faults lo hi f f' : wrote lo hi f f' → no_faults f → no_faults f'.
Proof. intros (_&[H _]&_) Hn n. rewrite H. apply Hn. Qed.

Lemma wrote_writable lo hi f f' : wrote lo hi f f' → writable f → writable f'.
Proof. intros W [? Hw]. split; [by eapply wrote_no_faults|]. by destruct W as (_&[_ ->]&_). Qed.

Lemma seek_wrote p f : wrote p p f (seek p f).2 ∧ ((seek p f).1 = Ok tt → f_pos (seek p f).2 = p).
Proof. unfold seek. destruct (f_fault _ _); simpl; done. Qed.

Lemma write_all_wrote bs f :
  wrote (f_pos f) (f_pos f + Z.of_nat (length bs)) f (write_all bs f).2 ∧
  ((write_all bs f).1 = Ok tt →
     f_pos (write_all bs f).2 = f_pos f + Z.of_nat (length bs) ∧
     f_data (write_all bs f).2 = put (f_data f) (f_pos f) bs).
Proof.
  unfold write_all. destruct (f_write f) eqn:Hw; cbn [negb]; [|done].
  destruct (f_fault _ _) as [k|]; [|destruct (Z.leb_spec (Z.of_nat (length bs)) (f_size f - f_pos f))];
    simpl; (split; [split_and!; [done..|]; simpl; intros i Hi; apply put_outside;
      rewrite length_take; lia|]); [done| |done].
  intros _. by rewrite firstn_all.
Qed.

Lemma sync_all_wrote lo hi f : wrote lo hi f (sync_all f).2 ∧ f_pos (sync_all f).2 = f_pos f.
Proof. unfold sync_all. by destruct (f_fault _ _). Qed.

(** Fault-free runs. *)
Lemma seek_ok p f : no_faults f → seek p f = (Ok tt, set_pos p (tick f)).
Proof. intros H. unfold seek. by rewrite H. Qed.

Lemma write_all_ok bs f : writable f → 0 ≤ f_pos f →
  f_pos f + Z.of_nat (length bs) ≤ f_size f →
  write_all bs f = (Ok tt, mkFile (f_size f) (put (f_data f) (f_pos f) bs)
    (f_pos f + Z.of_nat (length bs)) (S (f_ops f)) (f_fault f) (f_write f)).
Proof.
  intros [H Hw] ??. unfold write_all. rewrite Hw at 1. cbn [negb]. rewrite H.
  destruct (Z.leb_spec (Z.of_nat (length bs)) (f_size f - f_pos f)); [|lia].
  by rewrite firstn_all.
Qed.

Lemma sync_all_ok f : no_faults f → sync_all f = (Ok tt, tick f).
Proof. intros H. unfold sync_all. by rewrite H. Qed.

Lemma read_exact_ok n f : no_faults f → f_pos f + n ≤ f_size f →
  read_exact n f = (Ok (slice (f_data f) (f_pos f) n), set_pos (f_pos f + n) (tick f)).
Proof. intros H ?. unfold read_exact. rewrite H. zif; [lia|done]. Qed.

(** Reads never change contents. *)
Lemma read_exact_wrote lo hi n f : wrote lo hi f (read_exact n f).2.
Proof. unfold read_exact. destruct (f_fault _ _); [done|]. by zif. Qed.

Lemma ibind_ok {A B} (m : io A) (k : A → io B) f a f' :
  m f = (Ok a, f') → ibind m k f = k a f'.
Proof. intros E. unfold ibind. by rewrite E. Qed.

Lemma ibind_wrote {A B} lo hi (m : io A) (k : A → io B) f :
  wrote lo hi f (m f).2 → (∀ a, (m f).1 = Ok a → wrote lo hi (m f).2 (k a (m f).2).2) →
  wrote lo hi f (ibind m k f).2.
Proof.
  intros Hm Hk. unfold ibind. destruct (m f) as [[a|e|w] f']; simpl in *; try done.
  eapply wrote_trans; [exact Hm|]. by apply Hk.
Qed.

(** Nothing here panics. *)
Lemma safe_seek p : safe (seek p).
Proof. intros f. unfold seek. by destruct (f_fault _ _). Qed.
Lemma safe_write_all bs : safe (write_all bs).
Proof. intros f. unfold write_all. destruct (negb _); [done|]. destruct (f_fault _ _); [done|]. by zif. Qed.
Lemma safe_sync_all : safe sync_all.
Proof. intros f. unfold sync_all. by destruct (f_fault _ _). Qed.
#[export] Hint Resolve safe_seek safe_write_all safe_sync_all : safe.

Lemma seek_to p f : no_faults f → ∃ f', seek p f = (Ok tt, f') ∧ wrote p p f f' ∧ f_pos f' = p.
Proof. intros Hn. rewrite seek_ok by done. eexists. by split_and!. Qed.

#[global] Arguments sub : simpl never.
#[global] Arguments splice : simpl never.
#[global] Arguments slice : simpl never.
#[global] Arguments le_bytes : simpl never.
#[global] Arguments le_val : simpl never.
#[global] Arguments valid_utf8 : simpl never.
#[global] Arguments write_u32 : simpl never.
#[global] Arguments write_u64 : simpl never.

(** ** Buffers built by a chain of writes *)

#[export] Hint Rewrite le_bytes_length : piece.

(** Lengths of the pieces written into a buffer. *)
Ltac piece_len :=
  unfold write_u64, write_u32; autorewrite with piece; clear; simpl length; lia.

(** Name the intermediate buffers of a chain of splices, innermost first, each
    with its defining equation and its length. *)
Ltac name_bufs :=
  repeat match goal with
  | |- context [replicate ?n ?b] =>
      let B := fresh "buf" in let L := fresh "Hlen" in
      assert (length (replicate n b) = n) as L by apply length_replicate;
      generalize dependent (replicate n b); intros B L
  | L : length ?b = ?n |- context [splice ?b ?a ?d] =>
      let B := fresh "buf" in let E := fresh "Ebuf" in let L' := fresh "Hlen" in
      assert (length (splice b a d) = n) as L'
        by (rewrite splice_length, L; [reflexivity|rewrite L; piece_len]);
      remember (splice b a d) as B eqn:E in *
  end.

Lemma sub_named_same B buf a d n q : B = splice buf a d → length buf = n →
  q = (a + length d)%nat → (q ≤ n)%nat → sub B a q = d.
Proof. intros -> <- ??. by apply sub_splice_same. Qed.

Lemma sub_named_disj B buf a d n p q : B = splice buf a d → length buf = n →
  (a + length d ≤ n)%nat → (q ≤ a ∨ a + length d ≤ p)%nat → sub B p q = sub buf p q.
Proof. intros -> <- ??. by apply sub_splice_disj. Qed.

(** Read a slice of a named buffer: the last write, or what was there before. *)
Ltac sub_step :=
  match goal with
  | E : ?B = splice ?b ?a ?d, L : length ?b = _ |- context [sub ?B ?a ?q] =>
      rewrite (sub_named_same B b a d _ q E L) by piece_len
  | E : ?B = splice ?b ?a ?d, L : length ?b = _ |- context [sub ?B ?p ?q] =>
      rewrite (sub_named_disj B b a d _ p q E L) by piece_len
  end.
Ltac sub_simpl := repeat sub_step.
