(* ===== verification/Sizes.v ===== *)
(** * Sizes of the metadata areas

    Models [src/engine/strat_engine/metadata/sizes.rs]: the constants and the
    conversions between the sizes of the static header, the MDA regions, the
    MDA and the BDA.  [Sectors] values are [u64] and [Bytes] values [u128], with
    wrap-around written out. *)
From stdpp Require Import base numbers.
From Stdlib Require Import ZArith Lia.
From S2P Require Import Prelude.

(** [devicemapper]'s units: a sector is 512 bytes; [Sectors::bytes] is a [u128]
    product, [Bytes::sectors] an integer division. *)
Definition SECTOR_SIZE : Z := 512.
Definition sectors_bytes (s : Z) : Z := wrap128 (s * SECTOR_SIZE).
Definition bytes_sectors (b : Z) : Z := wrap64 (b / SECTOR_SIZE).
Definition IEC_Ki : Z := 1024.
Definition IEC_Mi : Z := 1024 * IEC_Ki.
Definition IEC_Gi : Z := 1024 * IEC_Mi.
Definition IEC_Ti : Z := 1024 * IEC_Gi.

Module static_header_size.
Definition PRE_SIGBLOCK_PADDING_SECTORS : Z := 1.
Definition SIGBLOCK_SECTORS : Z := 1.
Definition POST_SIGBLOCK_PADDING_SECTORS : Z := 6.
Definition SIGBLOCK_REGION_SECTORS : Z :=
  PRE_SIGBLOCK_PADDING_SECTORS + SIGBLOCK_SECTORS + POST_SIGBLOCK_PADDING_SECTORS.
Definition STATIC_HEADER_SECTORS : Z := 2 * SIGBLOCK_REGION_SECTORS.
Definition FIRST_SIGBLOCK_START_SECTORS : Z := PRE_SIGBLOCK_PADDING_SECTORS.
Definition SECOND_SIGBLOCK_START_SECTORS : Z :=
  SIGBLOCK_REGION_SECTORS + PRE_SIGBLOCK_PADDING_SECTORS.
Definition STATIC_HEADER_SIZE : Z := STATIC_HEADER_SECTORS.
End static_header_size.

Module mda_size.
Definition MDA_REGION_HDR_SIZE : Z := 32.
Definition MIN_MDA_DATA_REGION_SIZE : Z := 260064.
Definition NUM_PRIMARY_MDA_REGIONS : Z := 2.
Definition NUM_MDA_REGIONS : Z := 2 * NUM_PRIMARY_MDA_REGIONS.

(** [MDADataSize] (bytes) *)
Definition MDADataSize_default : Z := MIN_MDA_DATA_REGION_SIZE.
Definition MDADataSize_new (value : Z) : Z :=
  if MIN_MDA_DATA_REGION_SIZE <? value then value else MDADataSize_default.
Definition MDADataSize_region_size (self : Z) : Z :=
  let bytes := wrap128 (self + MDA_REGION_HDR_SIZE) in
  let sectors := bytes_sectors bytes in
  if negb (sectors_bytes sectors =? bytes) then sectors +64 1 else sectors.

(** [MDARegionSize] (sectors) *)
Definition MDARegionSize_default : Z := MDADataSize_region_size MDADataSize_default.
Definition MDARegionSize_mda_size (self : Z) : Z := wrap64 (self * NUM_MDA_REGIONS).
Definition MDARegionSize_data_size (self : Z) : Z :=
  wrap128 (sectors_bytes self - MDA_REGION_HDR_SIZE).

(** [MDASize] (sectors) *)
Definition MDASize_default : Z := MDARegionSize_mda_size MDARegionSize_default.
Definition MDASize_region_size (self : Z) : Z := self / NUM_MDA_REGIONS.
Definition MDASize_bda_size (self : Z) : Z :=
  self +64 static_header_size.STATIC_HEADER_SECTORS.
End mda_size.

(** [BlockdevSize::default] *)
Definition BlockdevSize_default : Z := 0.

Import mda_size.

Lemma wrap128_small z : u128 z → wrap128 z = z.
Proof. unfold u128, u128_max, wrap128. intros. apply Z.mod_small. lia. Qed.

Ltac nowrap128 :=
  repeat match goal with
  | |- context [wrap128 ?z] => rewrite (wrap128_small z) by (unfold u128, u128_max in *; lia)
  end.

(** *** Properties *)

(** for every requested metadata size that a device could hold, a
    region of [MDADataSize::region_size] sectors is the least number of sectors
    that holds the header and the data, the whole MDA is four such regions, from
    which the region size is recovered exactly, and the data area of the region is
    at least the size asked for and at least the minimum. *)
Theorem mda_sizes_spec (value : Z) : 0 ≤ value < 2 ^ 64 →
  let d := MDADataSize_new value in
  let r := MDADataSize_region_size d in
  512 * (r - 1) < d + MDA_REGION_HDR_SIZE ≤ 512 * r ∧
  MDARegionSize_mda_size r = 4 * r ∧
  MDASize_region_size (MDARegionSize_mda_size r) = r ∧
  value ≤ d ≤ MDARegionSize_data_size r ∧
  MIN_MDA_DATA_REGION_SIZE ≤ d ∧
  MDASize_bda_size (MDARegionSize_mda_size r) = 4 * r + 16.
Proof.
  intros Hv d r. subst d r.
  unfold MDADataSize_new, MDADataSize_default, MIN_MDA_DATA_REGION_SIZE.
  set (d := if 260064 <? value then value else 260064).
  assert (value ≤ d ∧ 260064 ≤ d < 2 ^ 64) by (subst d; zif; lia). clearbody d.
  unfold MDADataSize_region_size, sectors_bytes, bytes_sectors, MDA_REGION_HDR_SIZE, SECTOR_SIZE.
  nowrap128.
  pose proof (Z.div_mod (d + 32) 512 ltac:(lia)). pose proof (Z.mod_pos_bound (d + 32) 512 ltac:(lia)).
  nowrap. nowrap128.
  set (q := (d + 32) / 512) in *.
  unfold MDARegionSize_mda_size, MDASize_region_size, MDARegionSize_data_size, sectors_bytes,
    MDASize_bda_size, NUM_MDA_REGIONS, NUM_PRIMARY_MDA_REGIONS, SECTOR_SIZE, MDA_REGION_HDR_SIZE.
  change static_header_size.STATIC_HEADER_SECTORS with 16.
  destruct (Z.eqb_spec (q * 512) (d + 32)); simpl negb; cbn match; nowrap; nowrap128;
    rewrite Z.div_mul by lia; lia.
Qed.

Lemma mda_sizes_spec_witness :
  MDADataSize_region_size (MDADataSize_new 0) = 508 ∧ MDASize_bda_size MDASize_default = 2048 ∧
  512 * (MDADataSize_region_size (MDADataSize_new 300000) - 1) < 300032.
Proof.
  split_and!; [vm_compute; reflexivity..|].
  destruct (mda_sizes_spec 300000) as [[? _] _]; [lia|assumption].
Defined.
