(* ===== verification/External.v ===== *)
(** * Interfaces of third-party code the metadata layer calls

    [crc::crc32::checksum_castagnoli] and the textual form of [uuid::Uuid] are
    not part of the repository: they are type classes here, with the documented
    facts the metadata code relies on as laws.  The instances of the section
    [Concrete] (a bit-serial CRC-32C, lower-case hexadecimal digits) show that the
    laws can be met and let examples be evaluated. *)
From stdpp Require Import base list numbers.
From Stdlib Require Import ZArith Lia.
From S2P Require Import Prelude Disk.

Class Crc32c : Type := {
  checksum_castagnoli : list Z → Z;
  checksum_u32 : ∀ bs, 0 ≤ checksum_castagnoli bs < 2 ^ 32
}.

(** A [Uuid] is its 128-bit value. *)
Definition is_uuid (u : Z) : Prop := 0 ≤ u < 2 ^ 128.

Class UuidFormat : Type := {
  (** [uuid.to_simple_ref().to_string().as_bytes()] *)
  uuid_simple : Z → list Z;
  (** [Uuid::parse_str] *)
  uuid_parse_str : list Z → option Z;
  uuid_simple_length : ∀ u, length (uuid_simple u) = 32%nat;
  uuid_simple_ascii : ∀ u, Forall (λ b, 0 ≤ b < 128) (uuid_simple u);
  uuid_parse_simple : ∀ u, is_uuid u → uuid_parse_str (uuid_simple u) = Some u;
  uuid_parse_range : ∀ bs u, uuid_parse_str bs = Some u → is_uuid u
}.

(** [Display] of a [Uuid], [to_string] *)
Class UuidDisplay `{UuidFormat} : Type := {
  uuid_to_string : Z → list Z;
  uuid_parse_to_string : ∀ u, is_uuid u → uuid_parse_str (uuid_to_string u) = Some u
}.

#[export] Hint Rewrite @uuid_simple_length : piece.

Section Concrete.

Definition crc_bit (c : Z) : Z :=
  if Z.odd c then Z.lxor (Z.shiftr c 1) 0x82F63B78 else Z.shiftr c 1.

Definition crc_byte (c b : Z) : Z :=
  crc_bit (crc_bit (crc_bit (crc_bit (crc_bit (crc_bit (crc_bit (crc_bit (Z.lxor c b)))))))).

Definition crc32c (bs : list Z) : Z :=
  Z.land (Z.lxor (foldl crc_byte 0xFFFFFFFF bs) 0xFFFFFFFF) 0xFFFFFFFF.

Lemma crc32c_u32 bs : 0 ≤ crc32c bs < 2 ^ 32.
Proof.
  unfold crc32c. change 0xFFFFFFFF with (Z.ones 32).
  rewrite Z.land_ones by lia. apply Z.mod_pos_bound. lia.
Qed.

(** The published check value of CRC-32C. *)
Example crc32c_check : crc32c [0x31; 0x32; 0x33; 0x34; 0x35; 0x36; 0x37; 0x38; 0x39] = 0xE3069283.
Proof. vm_compute. reflexivity. Qed.

Definition hex_digit (n : Z) : Z := if n <? 10 then 48 + n else 87 + n.
Definition hex_value (b : Z) : option Z :=
  if within 48 57 b then Some (b - 48)
  else if within 97 102 b then Some (b - 87)
  else if within 65 70 b then Some (b - 55) else None.

Fixpoint hex_le (n : nat) (z : Z) : list Z :=
  match n with O => [] | S n' => hex_digit (z mod 16) :: hex_le n' (z / 16) end.
Fixpoint hex_val (bs : list Z) : option Z :=
  match bs with
  | [] => Some 0
  | b :: r => match hex_value b, hex_val r with
              | Some v, Some w => Some (v + 16 * w)
              | _, _ => None end
  end.

Definition hex_simple (u : Z) : list Z := rev (hex_le 32 u).
Definition hex_parse (bs : list Z) : option Z :=
  if (length bs =? 32)%nat then hex_val (rev bs) else None.

Lemma hex_value_digit n : 0 ≤ n < 16 → hex_value (hex_digit n) = Some n.
Proof.
  intros. unfold hex_value, hex_digit, within. destruct (Z.ltb_spec n 10).
  - repeat (zif; [|lia]). f_equal; lia.
  - zif; [lia|]. destruct (Z.leb_spec 97 (87 + n)), (Z.leb_spec (87 + n) 102); try lia.
    simpl. f_equal; lia.
Qed.

Lemma hex_val_le n z : 0 ≤ z < 16 ^ Z.of_nat n → hex_val (hex_le n z) = Some z.
Proof.
  revert z. induction n as [|n IH]; intros z Hz; simpl.
  - change (16 ^ Z.of_nat 0) with 1 in Hz. f_equal; lia.
  - rewrite Nat2Z.inj_succ, Z.pow_succ_r in Hz by lia.
    rewrite hex_value_digit by (apply Z.mod_pos_bound; lia).
    rewrite IH; [|split; [apply Z.div_pos; lia|apply Z.div_lt_upper_bound; lia]].
    f_equal. rewrite (Z.div_mod z 16) at 3 by lia. lia.
Qed.

Lemma hex_val_range bs v : hex_val bs = Some v → 0 ≤ v < 16 ^ Z.of_nat (length bs).
Proof.
  revert v. induction bs as [|b r IH]; intros v; simpl; [intros [= <-]; lia|].
  assert (∀ x, hex_value b = Some x → 0 ≤ x < 16).
  { unfold hex_value, within. intros x. repeat zif; intros [= <-]; lia. }
  destruct (hex_value b) as [x|], (hex_val r) as [w|]; intros [= <-].
  specialize (IH _ eq_refl). specialize (H _ eq_refl).
  rewrite Nat2Z.inj_succ, Z.pow_succ_r by lia. lia.
Qed.

Lemma hex_le_spec n z : length (hex_le n z) = n ∧ Forall (λ b, 0 ≤ b < 128) (hex_le n z).
Proof.
  revert z. induction n as [|n IH]; intros z; simpl; [by split|].
  destruct (IH (z / 16)) as [??]. split; [congruence|]. constructor; [|done].
  pose proof (Z.mod_pos_bound z 16 ltac:(lia)). unfold hex_digit. zif; lia.
Qed.

End Concrete.

Definition crc32c_instance : Crc32c :=
  {| checksum_castagnoli := crc32c; checksum_u32 := crc32c_u32 |}.

Definition hex_instance : UuidFormat.
Proof.
  refine {| uuid_simple := hex_simple; uuid_parse_str := hex_parse |}.
  - intros u. unfold hex_simple. rewrite length_rev. apply hex_le_spec.
  - intros u. unfold hex_simple. apply Forall_rev, hex_le_spec.
  - intros u Hu. unfold hex_simple, hex_parse.
    rewrite length_rev, (proj1 (hex_le_spec 32 u)), rev_involutive. rewrite Nat.eqb_refl.
    apply (hex_val_le 32). exact Hu.
  - intros bs u. unfold hex_parse. destruct (Nat.eqb_spec (length bs) 32) as [Hl|]; [|done].
    intros Hv%hex_val_range. rewrite length_rev, Hl in Hv. exact Hv.
Defined.
