(* ===== verification/Json.v ===== *)
(** * JSON values

    [serde_json::Value] and the methods the engine calls on it.  A
    [serde_json::Map] is a [BTreeMap<String, Value>]: an association list sorted by
    key, so that equality of values is equality of lists. *)
From stdpp Require Import base list strings.
From Stdlib Require Import ZArith Lia.
From S2P Require Import Prelude.

(** [serde_json::Number]; a float by its text *)
Inductive Num : Type := PosInt (n : Z) | NegInt (n : Z) | Float (text : Str).

Inductive Value : Type :=
| Null
| Bool (b : bool)
| Number (n : Num)
| VString (s : Str)
| Array (l : list Value)
| Object (m : list (Str * Value)).

#[global] Instance Num_eq_dec : EqDecision Num.
Proof. solve_decision. Defined.

#[global] Instance Value_eq_dec : EqDecision Value.
Proof.
  unfold EqDecision. fix F 1.
  assert (∀ l l' : list Value, Decision (l = l')) as FL.
  { fix G 1. intros [|a l] [|b l']; [by left|by right..|].
    destruct (F a b) as [->|]; [|right; congruence].
    destruct (G l l') as [->|]; [by left|right; congruence]. }
  assert (∀ m m' : list (Str * Value), Decision (m = m')) as FM.
  { fix G 1. intros [|[k a] m] [|[k' b] m']; [by left|by right..|].
    destruct (decide (k = k')) as [->|]; [|right; congruence].
    destruct (F a b) as [->|]; [|right; congruence].
    destruct (G m m') as [->|]; [by left|right; congruence]. }
  intros [| b | n | s | l | m] [| b' | n' | s' | l' | m']; try by right.
  - by left.
  - destruct (decide (b = b')) as [->|]; [by left|right; congruence].
  - destruct (decide (n = n')) as [->|]; [by left|right; congruence].
  - destruct (decide (s = s')) as [->|]; [by left|right; congruence].
  - destruct (FL l l') as [->|]; [by left|right; congruence].
  - destruct (FM m m') as [->|]; [by left|right; congruence].
Defined.

(** [str]'s order: by bytes, which for UTF-8 is by scalar values *)
Fixpoint str_lt (a b : Str) : bool :=
  match a, b with
  | _, [] => false
  | [], _ :: _ => true
  | x :: a', y :: b' => if x =? y then str_lt a' b' else x <? y
  end.

(** [Map::get] *)
Fixpoint map_get (k : Str) (m : list (Str * Value)) : option Value :=
  match m with
  | [] => None
  | (k', v) :: r => if bool_decide (k = k') then Some v else map_get k r
  end.

(** [Map::insert] *)
Fixpoint map_insert (k : Str) (v : Value) (m : list (Str * Value)) : list (Str * Value) :=
  match m with
  | [] => [(k, v)]
  | (k', v') :: r =>
      if bool_decide (k = k') then (k, v) :: r
      else if str_lt k k' then (k, v) :: m
      else (k', v') :: map_insert k v r
  end.

(** [Map::remove]: the value removed and the map left *)
Definition map_remove (k : Str) (m : list (Str * Value)) : option Value * list (Str * Value) :=
  (map_get k m, filter (λ kv, kv.1 ≠ k) m).

(** [json!] of an object *)
Definition object (fields : list (Str * Value)) : Value :=
  Object (foldl (λ m '(k, v), map_insert k v m) [] fields).

(** [Value::get] of a string *)
Definition Value_get (k : Str) (v : Value) : option Value :=
  match v with Object m => map_get k m | _ => None end.

Definition as_str (v : Value) : option Str := match v with VString s => Some s | _ => None end.
Definition as_bool (v : Value) : option bool := match v with Bool b => Some b | _ => None end.
Definition as_array (v : Value) : option (list Value) := match v with Array l => Some l | _ => None end.

(** [str::parse::<c_uint>]: an optional [+], then decimal digits, below [2 ^ 32] *)
Fixpoint parse_digits (acc : Z) (s : Str) : option Z :=
  match s with
  | [] => Some acc
  | c :: r =>
      if (48 <=? c) && (c <=? 57) then
        let acc := 10 * acc + (c - 48) in
        if acc <? 2 ^ 32 then parse_digits acc r else None
      else None
  end.

Definition parse_c_uint (s : Str) : option Z :=
  match s with
  | [] => None
  | [43] => None
  | c :: r => parse_digits 0 (if c =? 43 then r else s)
  end.

(** Removing a key leaves the other keys. *)
Lemma map_get_filter k k' m :
  map_get k (filter (λ kv, kv.1 ≠ k') m) = if bool_decide (k = k') then None else map_get k m.
Proof.
  induction m as [|[a v] m IH]; [by case_bool_decide|]. rewrite filter_cons. simpl.
  destruct (decide (a ≠ k')) as [Hne|He%dec_stable]; simpl; rewrite IH; repeat case_bool_decide; congruence.
Qed.

Lemma map_remove_absent k m : map_get k m = None → filter (λ kv, kv.1 ≠ k) m = m.
Proof.
  induction m as [|[a v] m IH]; [done|]. simpl. case_bool_decide; [done|]. intros Hm.
  rewrite filter_cons_True by (simpl; congruence). by rewrite IH.
Qed.
