(* ===== verification/StaticHeader.v ===== *)
(** * The static header: signature blocks of a Stratis block device

    Models [src/engine/strat_engine/metadata/static_header.rs].  A device
    carries two copies of a 512-byte signature block, in sectors 1 and 9.  The
    section's class parameters are the CRC and UUID crates. *)
From stdpp Require Import base list numbers strings.
From Stdlib Require Import ZArith Lia.
From S2P Require Import Prelude Disk Sizes External.
Import static_header_size mda_size.

(** [bytes!] *)
Definition bytes_ (sectors : Z) : Z := sectors * SECTOR_SIZE.

Definition RESERVED_SECTORS : Z := 3 * IEC_Mi / SECTOR_SIZE.

(** [b"!Stra0tis\x86\xff\x02^\x41rh"] *)
Definition STRAT_MAGIC : list Z :=
  [0x21; 0x53; 0x74; 0x72; 0x61; 0x30; 0x74; 0x69; 0x73; 0x86; 0xff; 0x02; 0x5e; 0x41; 0x72; 0x68].

Definition STRAT_SIGBLOCK_VERSION : Z := 1.

Inductive MetadataLocation := Both | First | Second.

#[global] Instance MetadataLocation_eq_dec : EqDecision MetadataLocation.
Proof. solve_decision. Defined.

Record StratisIdentifiers : Type := mkIds { pool_uuid : Z; device_uuid : Z }.

#[global] Instance StratisIdentifiers_eq_dec : EqDecision StratisIdentifiers.
Proof. solve_decision. Defined.

Record StaticHeader : Type := mkSH {
  blkdev_size : Z; identifiers : StratisIdentifiers; mda_size : Z;
  reserved_size : Z; flags : Z; initialization_time : Z }.

#[global] Instance StaticHeader_eq_dec : EqDecision StaticHeader.
Proof. solve_decision. Defined.

(** The result of reading and parsing one signature block. *)
Record StaticHeaderResult : Type := mkSHR {
  shr_bytes : res (list Z); shr_header : option (res (option StaticHeader)) }.

Module SH.

Definition new (identifiers : StratisIdentifiers) (mda_data_size blkdev_size initialization_time : Z)
    : StaticHeader :=
  {| blkdev_size := blkdev_size; identifiers := identifiers;
     mda_size := MDARegionSize_mda_size (MDADataSize_region_size mda_data_size);
     reserved_size := RESERVED_SECTORS; flags := 0;
     initialization_time := initialization_time |}.

Definition bda_extended_size (self : StaticHeader) : Z :=
  MDASize_bda_size (mda_size self) +64 reserved_size self.

Section codec.
Context `{Crc32c} `{UuidFormat}.

Definition sigblock_to_buf (self : StaticHeader) : list Z :=
  let buf := replicate 512 0 in
  let buf := splice buf 4 STRAT_MAGIC in
  let buf := splice buf 20 (write_u64 (blkdev_size self)) in
  let buf := splice buf 28 [STRAT_SIGBLOCK_VERSION] in
  let buf := splice buf 32 (uuid_simple (pool_uuid (identifiers self))) in
  let buf := splice buf 64 (uuid_simple (device_uuid (identifiers self))) in
  let buf := splice buf 96 (write_u64 (mda_size self)) in
  let buf := splice buf 104 (write_u64 (reserved_size self)) in
  let buf := splice buf 120 (write_u64 (initialization_time self)) in
  let hdr_crc := checksum_castagnoli (sub buf 4 512) in
  splice buf 0 (write_u32 hdr_crc).

(** [PoolUuid::parse_str(from_utf8(bytes)?)?] *)
Definition parse_uuid (bs : list Z) : res Z :=
  if valid_utf8 bs then
    match uuid_parse_str bs with Some u => Ok u | None => Err (UuidError "parse") end
  else Err (Utf8Error "from_utf8").

Definition sigblock_from_buf (buf : list Z) : res (option StaticHeader) :=
  rassert (length buf =? 512)%nat "buf.len() == bytes!(SIGBLOCK_SECTORS)"
  (if negb (bool_decide (sub buf 4 20 = STRAT_MAGIC)) then Ok None
   else if negb (checksum_castagnoli (sub buf 4 512) =? le_val (sub buf 0 4)) then
     Err (Msg "header CRC invalid")
   else
     let blkdev_size := le_val (sub buf 20 28) in
     if negb (le_val (sub buf 28 29) =? STRAT_SIGBLOCK_VERSION) then
       Err (Msg "Unknown sigblock version")
     else
       let? pool_uuid := parse_uuid (sub buf 32 64) in
       let? dev_uuid := parse_uuid (sub buf 64 96) in
       Ok (Some {| identifiers := mkIds pool_uuid dev_uuid;
                   blkdev_size := blkdev_size;
                   mda_size := le_val (sub buf 96 104);
                   reserved_size := le_val (sub buf 104 112);
                   flags := 0;
                   initialization_time := le_val (sub buf 120 128) |})).

Definition read_sector_at_offset (offset : Z) : io (list Z) :=
  seek offset ;;! read_exact (bytes_ SIGBLOCK_SECTORS).

Definition read (f : File) : (res (list Z) * res (list Z)) * File :=
  let '(r1, f) := read_sector_at_offset (bytes_ FIRST_SIGBLOCK_START_SECTORS) f in
  let '(r2, f) := read_sector_at_offset (bytes_ SECOND_SIGBLOCK_START_SECTORS) f in
  ((r1, r2), f).

Definition to_result (maybe_buf : res (list Z)) : StaticHeaderResult :=
  match maybe_buf with
  | Ok buf => mkSHR (Ok buf) (Some (sigblock_from_buf buf))
  | r => mkSHR r None
  end.

Definition read_sigblocks (f : File)
    : (StaticHeaderResult * StaticHeaderResult) * File :=
  let '((maybe_buf_1, maybe_buf_2), f) := read f in
  ((to_result maybe_buf_1, to_result maybe_buf_2), f).

Definition zeroed (n : Z) : list Z := replicate (Z.to_nat n) 0.

Definition write_region (signature_block : list Z) : io unit :=
  write_all (zeroed (bytes_ PRE_SIGBLOCK_PADDING_SECTORS)) ;;!
  write_all signature_block ;;!
  write_all (zeroed (bytes_ POST_SIGBLOCK_PADDING_SECTORS)) ;;!
  sync_all.

Definition write (self : StaticHeader) (which : MetadataLocation) : io unit :=
  let signature_block := sigblock_to_buf self in
  seek 0 ;;!
  (if bool_decide (which = Both) || bool_decide (which = First)
   then write_region signature_block
   else seek (bytes_ SIGBLOCK_REGION_SECTORS)) ;;!
  (if bool_decide (which = Both) || bool_decide (which = Second)
   then write_region signature_block else iret tt).

Definition write_header (sh : StaticHeader) (repair_location : MetadataLocation)
    : io (option StaticHeader) :=
  write sh repair_location ;;! iret (Some sh).

Definition do_nothing (sh : StaticHeader) (_repair_location : MetadataLocation)
    : io (option StaticHeader) := iret (Some sh).

Section repair.
Variable closure : StaticHeader → MetadataLocation → io (option StaticHeader).

Definition ok_err_static_header_handling (maybe_sh : option StaticHeader)
    (sh_error : StratisError) (repair_location : MetadataLocation) : io (option StaticHeader) :=
  match maybe_sh with
  | Some sh => closure sh repair_location
  | None => ierr sh_error
  end.

Definition compare_headers (sh_1 sh_2 : StaticHeader) : io (option StaticHeader) :=
  if bool_decide (sh_1 = sh_2) then iret (Some sh_1)
  else if initialization_time sh_1 =? initialization_time sh_2 then
    ierr (Msg "Appeared to be a Stratis device, but signature blocks disagree.")
  else if initialization_time sh_2 <? initialization_time sh_1 then closure sh_1 Second
  else closure sh_2 First.

Definition ok_ok_static_header_handling (maybe_sh1 maybe_sh2 : option StaticHeader)
    : io (option StaticHeader) :=
  match maybe_sh1, maybe_sh2 with
  | Some loc_1, Some loc_2 => compare_headers loc_1 loc_2
  | None, None => iret None
  | Some loc_1, None => closure loc_1 Second
  | None, Some loc_2 => closure loc_2 First
  end.

Definition copy_ok_err_handling (maybe_sh : res (option StaticHeader))
    (repair_location : MetadataLocation) : io (option StaticHeader) :=
  match maybe_sh with
  | Ok loc =>
      match loc with
      | Some sh => write sh repair_location ;;! iret loc
      | None => iret loc
      end
  | Err e => ierr e
  | Panic w => ilift (Panic w)
  end.

Definition repair_sigblocks (read_results : StaticHeaderResult * StaticHeaderResult)
    : io (option StaticHeader) :=
  match read_results with
  | (mkSHR (Ok _) (Some maybe_sh_1), mkSHR (Ok _) (Some maybe_sh_2)) =>
      match maybe_sh_1, maybe_sh_2 with
      | Ok loc_1, Ok loc_2 => ok_ok_static_header_handling loc_1 loc_2
      | Ok loc_1, Err loc_2 => ok_err_static_header_handling loc_1 loc_2 Second
      | Err loc_1, Ok loc_2 => ok_err_static_header_handling loc_2 loc_1 First
      | Err _, Err _ =>
          ierr (Msg "Appeared to be a Stratis device, but no valid sigblock found")
      | Panic w, _ | _, Panic w => ilift (Panic w)
      end
  | (mkSHR (Ok _) (Some maybe_sh_1), mkSHR (Err _) None) =>
      copy_ok_err_handling maybe_sh_1 Second
  | (mkSHR (Err _) None, mkSHR (Ok _) (Some maybe_sh_2)) =>
      copy_ok_err_handling maybe_sh_2 First
  | (mkSHR (Err _) None, mkSHR (Err _) None) =>
      ierr (Msg "Unable to read data at sigblock locations.")
  | (_, _) => ilift (Panic "header == None <-> bytes is Err(_)")
  end.

End repair.

Definition wipe : io unit :=
  seek 0 ;;! write_all (zeroed (bytes_ STATIC_HEADER_SECTORS)) ;;! sync_all.

End codec.
End SH.

Section entry_points.
Context `{Crc32c} `{UuidFormat}.

Definition device_identifiers (f : File) : res (option StratisIdentifiers) * File :=
  let '(read_results, f) := SH.read_sigblocks f in
  let '(r, f) := SH.repair_sigblocks SH.write_header read_results f in
  (rmap (option_map identifiers) r, f).

Definition disown_device : io unit := SH.wipe.

End entry_points.

(** ** Encoding and decoding *)

Lemma magic_length : length STRAT_MAGIC = 16%nat.
Proof. done. Qed.
#[local] Hint Rewrite magic_length : piece.

Definition sh_ok (sh : StaticHeader) : Prop :=
  u64 (blkdev_size sh) ∧ is_uuid (pool_uuid (identifiers sh)) ∧
  is_uuid (device_uuid (identifiers sh)) ∧ u64 (mda_size sh) ∧ u64 (reserved_size sh) ∧
  flags sh = 0 ∧ u64 (initialization_time sh).

#[global] Instance sh_ok_dec sh : Decision (sh_ok sh).
Proof. unfold sh_ok, is_uuid. apply _. Defined.

Section codec_lemmas.
Context `{Crc32c} `{UuidFormat}.

Lemma sigblock_length sh : length (SH.sigblock_to_buf sh) = 512%nat.
Proof. unfold SH.sigblock_to_buf. cbv zeta. name_bufs. done. Qed.

Lemma parse_uuid_simple u : is_uuid u → SH.parse_uuid (uuid_simple u) = Ok u.
Proof.
  intros Hu. unfold SH.parse_uuid.
  by rewrite ascii_utf8, uuid_parse_simple by (done || apply uuid_simple_ascii).
Qed.

Lemma sigblock_roundtrip sh : sh_ok sh →
  SH.sigblock_from_buf (SH.sigblock_to_buf sh) = Ok (Some sh).
Proof.
  intros (?&?&?&?&?&Hf&?). unfold SH.sigblock_from_buf.
  rewrite sigblock_length, Nat.eqb_refl. unfold rassert, SH.sigblock_to_buf. cbv zeta.
  name_bufs. sub_simpl.
  rewrite le_val_u32 by apply checksum_u32. rewrite Z.eqb_refl, bool_decide_true by done. simpl.
  rewrite !parse_uuid_simple by done. simpl. rewrite !le_val_u64 by done.
  destruct sh as [? [??] ? ? ? ?]; simpl in *. by subst.
Qed.

(** An all-zero block carries no signature. *)
Lemma sigblock_zero : SH.sigblock_from_buf (replicate 512 0) = Ok None.
Proof. unfold SH.sigblock_from_buf. vm_compute. done. Qed.

End codec_lemmas.

(** ** The two copies on a device *)

(** Contents of the first and the second signature block. *)
Definition block1 (f : File) : list Z := slice (f_data f) 512 512.
Definition block2 (f : File) : list Z := slice (f_data f) 4608 512.

(** A device that holds a static header and does not fail. *)
Definition healthy (f : File) : Prop :=
  writable f ∧ 8192 ≤ f_size f ∧ Forall is_byte (block1 f) ∧ Forall is_byte (block2 f).

Section device_lemmas.
Context `{Crc32c} `{UuidFormat}.

Lemma block_length f : length (block1 f) = 512%nat ∧ length (block2 f) = 512%nat.
Proof. unfold block1, block2. by rewrite !slice_length. Qed.

Lemma write_region_ok f p sb :
  writable f → f_pos f = p → 0 ≤ p → p + 4096 ≤ f_size f → length sb = 512%nat →
  ∃ f', SH.write_region sb f = (Ok tt, f') ∧ wrote p (p + 4096) f f' ∧
    f_pos f' = p + 4096 ∧ slice (f_data f') (p + 512) 512 = sb.
Proof.
  intros Hn Hp ?? Hsb. unfold SH.write_region, SH.zeroed.
  change (Z.to_nat (bytes_ PRE_SIGBLOCK_PADDING_SECTORS)) with 512%nat.
  change (Z.to_nat (bytes_ POST_SIGBLOCK_PADDING_SECTORS)) with (Z.to_nat 3072).
  assert (length (replicate 512 0) = 512%nat) as L1 by apply length_replicate.
  assert (length (replicate (Z.to_nat 3072) 0) = Z.to_nat 3072) as L3 by apply length_replicate.
  generalize dependent (replicate 512 0). intros z1 L1.
  generalize dependent (replicate (Z.to_nat 3072) 0). intros z3 L3.
  erewrite ibind_ok by (apply write_all_ok; [done|lia|lia]).
  erewrite ibind_ok by (apply write_all_ok; simpl; [done|lia|lia]).
  erewrite ibind_ok by (apply write_all_ok; simpl; [done|lia|lia]).
  rewrite sync_all_ok by done. simpl. rewrite Hp, L1, L3, Hsb.
  eexists. split; [done|]. split; [split_and!; try done|split].
  - intros i Hi. simpl. rewrite !put_outside by (rewrite ?L1, ?L3, ?Hsb; lia). done.
  - simpl. lia.
  - simpl. rewrite slice_put_disj by lia.
    pose proof (slice_put_same (put (f_data f) p z1) (p + Z.of_nat 512) sb) as Hsame.
    rewrite Hsb in Hsame. exact Hsame.
Qed.

(** Writing a header replaces the blocks of the location asked for, and no other byte
    after the static header. *)
Lemma write_ok f sh which :
  writable f → 8192 ≤ f_size f →
  ∃ f', SH.write sh which f = (Ok tt, f') ∧ wrote 0 8192 f f' ∧
    block1 f' = (if decide (which = Second) then block1 f else SH.sigblock_to_buf sh) ∧
    block2 f' = (if decide (which = First) then block2 f else SH.sigblock_to_buf sh).
Proof.
  intros Hn Hs. unfold SH.write. cbv zeta. pose proof (sigblock_length sh) as Hl.
  generalize dependent (SH.sigblock_to_buf sh). intros sb Hl. unfold block1, block2.
  destruct (seek_to 0 f ltac:(done)) as (f0 & E0 & W0 & P0).
  erewrite ibind_ok by exact E0. assert (writable f0) as Hn0 by by eapply wrote_writable.
  assert (f_size f0 = f_size f) as S0 by apply W0.
  destruct which; simpl.
  - destruct (write_region_ok f0 0 sb) as (f1 & E1 & W1 & P1 & B1); [done|lia..|].
    erewrite ibind_ok by exact E1. assert (f_size f1 = f_size f0) as S1 by apply W1.
    destruct (write_region_ok f1 4096 sb) as (f2 & E2 & W2 & P2 & B2);
      [by eapply wrote_writable|lia..|].
    exists f2. split; [done|]. split.
    { eapply wrote_trans; [eapply wrote_weaken; [exact W0|lia..]|].
      eapply wrote_trans; eapply wrote_weaken; eauto; lia. }
    split; [|exact B2]. rewrite (wrote_slice _ _ _ _ _ _ W2) by lia. exact B1.
  - destruct (write_region_ok f0 0 sb) as (f1 & E1 & W1 & P1 & B1); [done|lia..|].
    erewrite ibind_ok by exact E1. exists f1. split; [done|]. split.
    { eapply wrote_trans; eapply wrote_weaken; eauto; lia. }
    split; [exact B1|]. rewrite (wrote_slice _ _ _ _ _ _ W1), (wrote_slice _ _ _ _ _ _ W0) by lia. done.
  - change (bytes_ SIGBLOCK_REGION_SECTORS) with 4096.
    destruct (seek_to 4096 f0 ltac:(done)) as (f1 & E1 & W1 & P1).
    erewrite ibind_ok by exact E1. assert (f_size f1 = f_size f0) as S1 by apply W1.
    destruct (write_region_ok f1 4096 sb) as (f2 & E2 & W2 & P2 & B2);
      [by eapply wrote_writable|lia..|].
    exists f2. split; [done|]. split.
    { eapply wrote_trans; [eapply wrote_weaken; [exact W0|lia..]|].
      eapply wrote_trans; eapply wrote_weaken; eauto; lia. }
    split; [|exact B2]. rewrite (wrote_slice _ _ _ _ _ _ W2), (wrote_slice _ _ _ _ _ _ W1),
      (wrote_slice _ _ _ _ _ _ W0) by lia. done.
Qed.

(** Reading both blocks of a device without faults. *)
Lemma read_sigblocks_ok f :
  no_faults f → 8192 ≤ f_size f →
  ∃ f', SH.read_sigblocks f =
      ((mkSHR (Ok (block1 f)) (Some (SH.sigblock_from_buf (block1 f))),
        mkSHR (Ok (block2 f)) (Some (SH.sigblock_from_buf (block2 f)))), f') ∧
    wrote 0 0 f f'.
Proof.
  intros Hn Hs. unfold SH.read_sigblocks, SH.read, SH.read_sector_at_offset.
  change (bytes_ FIRST_SIGBLOCK_START_SECTORS) with 512.
  change (bytes_ SECOND_SIGBLOCK_START_SECTORS) with 4608.
  change (bytes_ SIGBLOCK_SECTORS) with 512.
  erewrite ibind_ok by by apply seek_ok. rewrite read_exact_ok by (done || simpl; lia).
  erewrite ibind_ok by by apply seek_ok. rewrite read_exact_ok by (done || simpl; lia).
  eexists. split; [reflexivity|]. done.
Qed.

(** Headers parsed from bytes can be written again without loss. *)
Lemma sigblock_from_buf_ok buf sh :
  Forall is_byte buf → SH.sigblock_from_buf buf = Ok (Some sh) → sh_ok sh.
Proof.
  intros Hb. unfold SH.sigblock_from_buf, rassert, SH.parse_uuid.
  destruct (Nat.eqb_spec (length buf) 512) as [Hl|]; [|done].
  do 3 (case_match; [done|]). simpl.
  destruct (valid_utf8 (sub buf 32 64)); [|done]. destruct (uuid_parse_str (sub buf 32 64)) eqn:E1; [|done].
  destruct (valid_utf8 (sub buf 64 96)); [|done]. destruct (uuid_parse_str (sub buf 64 96)) eqn:E2; [|done].
  simpl. intros [= <-]. apply uuid_parse_range in E1, E2.
  split_and!; simpl; auto; apply le_val_range8; try (apply sub_length; lia); by apply sub_bytes.
Qed.

Lemma sigblock_from_buf_no_panic buf why :
  length buf = 512%nat → SH.sigblock_from_buf buf ≠ Panic why.
Proof.
  intros Hl. unfold SH.sigblock_from_buf, rassert, SH.parse_uuid. rewrite Hl, Nat.eqb_refl.
  do 3 (case_match; [done|]). simpl.
  do 2 (case_match; [case_match|]; simpl; try done).
Qed.

Lemma block_parsed_ok f sh :
  healthy f → (SH.sigblock_from_buf (block1 f) = Ok (Some sh) ∨
               SH.sigblock_from_buf (block2 f) = Ok (Some sh)) → sh_ok sh.
Proof. intros (_&_&?&?) [E|E]; (eapply sigblock_from_buf_ok; [|exact E]); done. Qed.

Lemma sigblock_bytes sh : Forall is_byte (SH.sigblock_to_buf sh).
Proof.
  assert (∀ u, Forall is_byte (uuid_simple u)) as Hu.
  { intros u. eapply Forall_impl; [apply uuid_simple_ascii|]. unfold is_byte. intros; simpl in *; lia. }
  unfold SH.sigblock_to_buf. cbv zeta.
  repeat (apply splice_bytes; [|apply le_bytes_bytes || apply Hu || by apply (bool_decide_unpack _)]).
  apply Forall_replicate. unfold is_byte. lia.
Qed.

Lemma write_healthy f sh which :
  healthy f → ∃ f', SH.write sh which f = (Ok tt, f') ∧ wrote 0 8192 f f' ∧ healthy f' ∧
    block1 f' = (if decide (which = Second) then block1 f else SH.sigblock_to_buf sh) ∧
    block2 f' = (if decide (which = First) then block2 f else SH.sigblock_to_buf sh).
Proof.
  intros (Hn&Hs&Hb1&Hb2). destruct (write_ok f sh which Hn Hs) as (f' & E & W & B1 & B2).
  exists f'. do 2 (split; [done|]). split; [|done].
  split; [by eapply wrote_writable|]. split; [by destruct W as (-> & _)|].
  rewrite B1, B2. clear B1 B2. pose proof (sigblock_bytes sh). split; by destruct (decide _).
Qed.

(** Under any faults a write stays inside the regions of its location. *)
Lemma write_region_wrote sb f :
  length sb = 512%nat →
  wrote (f_pos f) (f_pos f + 4096) f (SH.write_region sb f).2 ∧
  ((SH.write_region sb f).1 = Ok tt → f_pos (SH.write_region sb f).2 = f_pos f + 4096).
Proof.
  intros Hl. unfold SH.write_region, SH.zeroed.
  change (Z.to_nat (bytes_ PRE_SIGBLOCK_PADDING_SECTORS)) with 512%nat.
  change (Z.to_nat (bytes_ POST_SIGBLOCK_PADDING_SECTORS)) with (Z.to_nat 3072).
  assert (length (replicate 512 0) = 512%nat) as L1 by apply length_replicate.
  assert (length (replicate (Z.to_nat 3072) 0) = Z.to_nat 3072) as L3 by apply length_replicate.
  generalize dependent (replicate 512 0). intros z1 L1.
  generalize dependent (replicate (Z.to_nat 3072) 0). intros z3 L3.
  unfold ibind.
  destruct (write_all_wrote z1 f) as [W1 P1]. destruct (write_all z1 f) as [[[]|?|?] f1]; simpl in *;
    [|split; [eapply wrote_weaken; [exact W1|lia..]|done]..].
  destruct (P1 eq_refl) as [P1' _].
  destruct (write_all_wrote sb f1) as [W2 P2]. destruct (write_all sb f1) as [[[]|?|?] f2]; simpl in *;
    [|split; [eapply wrote_trans; eapply wrote_weaken; eauto; lia|done]..].
  destruct (P2 eq_refl) as [P2' _].
  destruct (write_all_wrote z3 f2) as [W3 P3]. destruct (write_all z3 f2) as [[[]|?|?] f3]; simpl in *;
    [|split; [eapply wrote_trans; [|eapply wrote_trans]; eapply wrote_weaken; eauto; lia|done]..].
  destruct (P3 eq_refl) as [P3' _].
  destruct (sync_all_wrote (f_pos f) (f_pos f + 4096) f3) as [W4 P4].
  split; [|intros; lia]. do 2 (eapply wrote_trans; [eapply wrote_weaken; [eassumption|lia..]|]).
  eapply wrote_trans; [|exact W4]. eapply wrote_weaken; [eassumption|lia..].
Qed.

(** One copy at a time: repairing one location never touches the other. *)
Lemma write_wrote sh which f :
  which ≠ Both →
  wrote (if decide (which = First) then 0 else 4096)
        (if decide (which = First) then 4096 else 8192) f (SH.write sh which f).2.
Proof.
  intros Hb. unfold SH.write. cbv zeta. pose proof (sigblock_length sh) as Hl.
  generalize dependent (SH.sigblock_to_buf sh). intros sb Hl.
  change (bytes_ SIGBLOCK_REGION_SECTORS) with 4096.
  destruct (seek_wrote 0 f) as [W0 P0].
  destruct which; [done|..]; simpl; apply ibind_wrote; try (eapply wrote_weaken0; exact W0);
    intros [] E0; specialize (P0 E0); generalize dependent (seek 0 f).2; intros f0 W0 P0;
    apply ibind_wrote; try (intros; apply wrote_refl).
  - destruct (write_region_wrote sb f0 Hl) as [W _]. by rewrite P0 in W.
  - destruct (seek_wrote 4096 f0) as [W _]. by eapply wrote_weaken0.
  - destruct (seek_wrote 4096 f0) as [_ P]. intros [] E. specialize (P E).
    destruct (write_region_wrote sb (seek 4096 f0).2 Hl) as [W _]. by rewrite P in W.
Qed.
End device_lemmas.

(** ** Correctness of the copies *)

#[local] Opaque SH.sigblock_from_buf SH.sigblock_to_buf.

Section repair_lemmas.
Context `{Crc32c} `{UuidFormat}.

(** What each block parses to. *)
Definition parsed1 (f : File) := SH.sigblock_from_buf (block1 f).
Definition parsed2 (f : File) := SH.sigblock_from_buf (block2 f).

Lemma wrote0_blocks p f f' : wrote p p f f' → block1 f' = block1 f ∧ block2 f' = block2 f.
Proof.
  intros W. apply (wrote_weaken0 _ 0 0) in W. split; (eapply wrote_slice; [exact W|lia]).
Qed.

Lemma wrote0_healthy p f f' : wrote p p f f' → healthy f → healthy f'.
Proof.
  intros W (?&?&?&?). unfold healthy. destruct (wrote0_blocks _ _ _ W) as [-> ->].
  split; [by eapply wrote_writable|]. split; [|done]. by destruct W as (-> & _).
Qed.

(** A repairing write makes both copies parse to the header written. *)
Lemma write_header_ok f sh which :
  healthy f → sh_ok sh →
  (which = Second → parsed1 f = Ok (Some sh)) → (which = First → parsed2 f = Ok (Some sh)) →
  ∃ f', SH.write_header sh which f = (Ok (Some sh), f') ∧ wrote 0 8192 f f' ∧ healthy f' ∧
    parsed1 f' = Ok (Some sh) ∧ parsed2 f' = Ok (Some sh).
Proof.
  intros Hf Hsh H1 H2. destruct (write_healthy f sh which Hf) as (f' & E & W & Hh & B1 & B2).
  exists f'. unfold SH.write_header. erewrite ibind_ok by exact E.
  do 3 (split; [done|]). split.
  - unfold parsed1. rewrite B1. destruct (decide (which = Second)); [by apply H1|by apply sigblock_roundtrip].
  - unfold parsed2. rewrite B2. destruct (decide (which = First)); [by apply H2|by apply sigblock_roundtrip].
Qed.

(** The state [repair_sigblocks] has to leave behind, by its result. *)
Definition repaired (f : File) (r : res (option StaticHeader)) (f' : File) : Prop :=
  healthy f' ∧
  match r with
  | Ok (Some sh) =>
      parsed1 f' = Ok (Some sh) ∧ parsed2 f' = Ok (Some sh) ∧
      (parsed1 f = Ok (Some sh) ∨ parsed2 f = Ok (Some sh)) ∧
      (∀ sh', parsed1 f = Ok (Some sh') ∨ parsed2 f = Ok (Some sh') →
              initialization_time sh' ≤ initialization_time sh) ∧
      wrote 0 8192 f f'
  | Ok None => parsed1 f = Ok None ∧ parsed2 f = Ok None ∧ wrote 0 0 f f'
  | Err _ => wrote 0 0 f f' ∧
      ((∃ e, parsed1 f = Err e ∧ ¬ ∃ sh, parsed2 f = Ok (Some sh)) ∨
       (∃ e, parsed2 f = Err e ∧ ¬ ∃ sh, parsed1 f = Ok (Some sh)) ∨
       ∃ sh1 sh2, parsed1 f = Ok (Some sh1) ∧ parsed2 f = Ok (Some sh2) ∧ sh1 ≠ sh2 ∧
         initialization_time sh1 = initialization_time sh2)
  | Panic _ => False
  end.

Lemma repaired_write f f0 sh which :
  wrote 0 0 f f0 → healthy f → 
  (which = Second → parsed1 f = Ok (Some sh)) → (which = First → parsed2 f = Ok (Some sh)) →
  (which ≠ Both) →
  (∀ sh', parsed1 f = Ok (Some sh') ∨ parsed2 f = Ok (Some sh') →
          initialization_time sh' ≤ initialization_time sh) →
  let '(r, f') := SH.write_header sh which f0 in repaired f r f'.
Proof.
  intros W0 Hf H1 H2 Hw Ht. pose proof (wrote0_healthy _ _ _ W0 Hf) as Hf0.
  destruct (wrote0_blocks _ _ _ W0) as [B1 B2].
  assert (parsed1 f = Ok (Some sh) ∨ parsed2 f = Ok (Some sh)) as Hin by (destruct which; [congruence|right; auto|left; auto]).
  destruct (write_header_ok f0 sh which) as (f' & -> & W & Hh & ? & ?).
  { exact Hf0. }
  { eapply block_parsed_ok; [exact Hf|exact Hin]. }
  { unfold parsed1. by rewrite B1. }
  { unfold parsed2. by rewrite B2. }
  split; [done|]. do 4 (split; [done|]). eapply wrote_trans; [|exact W]. by eapply wrote_weaken0.
Qed.

Lemma repaired_same f f0 sh :
  wrote 0 0 f f0 → healthy f → parsed1 f = Ok (Some sh) → parsed2 f = Ok (Some sh) →
  repaired f (Ok (Some sh)) f0.
Proof.
  intros W0 Hf H1 H2. destruct (wrote0_blocks _ _ _ W0) as [B1 B2].
  split; [by eapply wrote0_healthy|]. unfold parsed1, parsed2 in *. rewrite B1, B2, H1, H2.
  do 2 (split; [done|]). split; [auto|]. split; [|by eapply wrote_weaken0].
  intros sh' [[= ->]|[= ->]]; done.
Qed.

Ltac newest E1 E2 := intros ?; rewrite E1, E2; intros [Hq|Hq]; simplify_eq; zb; lia.

Lemma repair_ok f :
  healthy f →
  let '(rr, f0) := SH.read_sigblocks f in
  let '(r, f') := SH.repair_sigblocks SH.write_header rr f0 in
  repaired f r f'.
Proof.
  intros Hf. destruct (read_sigblocks_ok f) as (f0 & -> & W0); [apply Hf..|].
  pose proof (wrote0_healthy _ _ _ W0 Hf) as Hf0.
  assert (∀ why, parsed1 f ≠ Panic why) as Hp1.
  { intros why. apply sigblock_from_buf_no_panic. exact (proj1 (block_length f)). }
  assert (∀ why, parsed2 f ≠ Panic why) as Hp2.
  { intros why. apply sigblock_from_buf_no_panic. exact (proj2 (block_length f)). }
  simpl. fold (parsed1 f) (parsed2 f).
  destruct (parsed1 f) as [[sh1|]|e1|w1] eqn:E1, (parsed2 f) as [[sh2|]|e2|w2] eqn:E2;
    try (exfalso; exact (Hp1 _ eq_refl)); try (exfalso; exact (Hp2 _ eq_refl)); simpl.
  - unfold SH.compare_headers. case_bool_decide as Heq; [subst|].
    + apply (repaired_same f f0); done.
    + zif; [unfold repaired; rewrite E1, E2; do 2 (split; [done|]); right; right; eauto 8|]. zif.
      * apply (repaired_write f f0); try done.
        newest E1 E2.
      * apply (repaired_write f f0); try done.
        newest E1 E2.
  - apply (repaired_write f f0); try done. newest E1 E2.
  - apply (repaired_write f f0); try done. newest E1 E2.
  - apply (repaired_write f f0); try done. newest E1 E2.
  - split; [done|]. by rewrite E1, E2.
  - split; [done|]. rewrite E1, E2. split; [done|]. right; left. exists e2. naive_solver.
  - apply (repaired_write f f0); try done. newest E1 E2.
  - split; [done|]. rewrite E1, E2. split; [done|]. left. exists e1. naive_solver.
  - split; [done|]. rewrite E1, E2. split; [done|]. left. exists e1. naive_solver.
Qed.

(** *** Runs with faults *)

(** A read that succeeds returned the bytes of the device. *)
Lemma read_sector_any off f r f' :
  SH.read_sector_at_offset off f = (r, f') →
  wrote 0 0 f f' ∧ (∀ b, r = Ok b → b = slice (f_data f) off 512) ∧ (∀ w, r ≠ Panic w).
Proof.
  unfold SH.read_sector_at_offset, seek, ibind, read_exact.
  change (bytes_ SIGBLOCK_SECTORS) with 512.
  destruct (f_fault f (f_ops f)); simpl; [|case_match; [|zif]];
    intros [= <- <-]; (split; [done|split; [|done]]); intros ? [= <-]; done.
Qed.

(** [SHR_of r b]: a read result of a block that holds [b]. *)
Definition shr_of (x : StaticHeaderResult) (b : list Z) : Prop :=
  (∃ e, x = mkSHR (Err e) None) ∨ x = mkSHR (Ok b) (Some (SH.sigblock_from_buf b)).

Lemma read_sigblocks_any f x1 x2 f' :
  SH.read_sigblocks f = ((x1, x2), f') →
  wrote 0 0 f f' ∧ shr_of x1 (block1 f) ∧ shr_of x2 (block2 f).
Proof.
  unfold SH.read_sigblocks, SH.read.
  change (bytes_ FIRST_SIGBLOCK_START_SECTORS) with 512.
  change (bytes_ SECOND_SIGBLOCK_START_SECTORS) with 4608.
  destruct (SH.read_sector_at_offset 512 f) as [r1 f1] eqn:E1.
  destruct (SH.read_sector_at_offset 4608 f1) as [r2 f2] eqn:E2. intros [= <- <- <-].
  apply read_sector_any in E1 as (W1 & B1 & N1), E2 as (W2 & B2 & N2).
  split; [by eapply wrote_trans|].
  assert (slice (f_data f1) 4608 512 = block2 f) as Eb by apply (wrote0_blocks _ _ _ W1).
  rewrite Eb in B2. unfold shr_of, SH.to_result, block1. split.
  - destruct r1 as [b|e|w]; [right; by rewrite (B1 b)|left; eauto|by destruct (N1 w)].
  - destruct r2 as [b|e|w]; [right; by rewrite (B2 b)|left; eauto|by destruct (N2 w)].
Qed.

(** A run that can only have rewritten the copy other than the one it read. *)
Definition one_copy_kept (f f' : File) : Prop :=
  wrote 0 8192 f f' ∧
  ((block1 f' = block1 f ∧ block2 f' = block2 f) ∨
   (block1 f' = block1 f ∧ ∃ sh, parsed1 f = Ok (Some sh)) ∨
   (block2 f' = block2 f ∧ ∃ sh, parsed2 f = Ok (Some sh))).

Lemma one_copy_write f f0 sh which :
  wrote 0 0 f f0 → which ≠ Both →
  (which = Second → parsed1 f = Ok (Some sh)) → (which = First → parsed2 f = Ok (Some sh)) →
  one_copy_kept f (SH.write sh which f0).2.
Proof.
  intros W0 Hw H1 H2. pose proof (write_wrote sh which f0 Hw) as W.
  destruct (wrote0_blocks _ _ _ W0) as [B1 B2].
  split. { eapply wrote_trans; [by eapply wrote_weaken0|]. eapply wrote_weaken; [exact W|..];
    destruct (decide _); lia. }
  right. destruct which; [congruence|right|left]; (split; [|eauto]).
  - rewrite <- B2. eapply wrote_slice; [exact W|]. simpl. lia.
  - rewrite <- B1. eapply wrote_slice; [exact W|]. simpl. lia.
Qed.

Lemma one_copy_refl f f0 : wrote 0 0 f f0 → one_copy_kept f f0.
Proof.
  intros W. split; [by eapply wrote_weaken0|]. left. by eapply wrote0_blocks.
Qed.

Lemma snd_write_header sh which f0 : (SH.write_header sh which f0).2 = (SH.write sh which f0).2.
Proof. unfold SH.write_header, ibind. by destruct (SH.write sh which f0) as [[?|?|?] ?]. Qed.

Lemma repair_any f f0 x1 x2 :
  wrote 0 0 f f0 → shr_of x1 (block1 f) → shr_of x2 (block2 f) →
  one_copy_kept f (SH.repair_sigblocks SH.write_header (x1, x2) f0).2.
Proof.
  intros W0 H1 H2. pose proof (one_copy_refl _ _ W0) as Hr.
  pose proof (λ sh which, one_copy_write f f0 sh which W0) as Hw.
  unfold shr_of in H1, H2. fold (parsed1 f) in H1. fold (parsed2 f) in H2.
  destruct H1 as [[e1 ->]| ->], H2 as [[e2 ->]| ->]; simpl; try done.
  - destruct (parsed2 f) as [[sh2|]|?|?]; simpl; try done.
    change (one_copy_kept f (SH.write_header sh2 First f0).2). rewrite snd_write_header. by apply Hw.
  - destruct (parsed1 f) as [[sh1|]|?|?]; simpl; try done.
    change (one_copy_kept f (SH.write_header sh1 Second f0).2). rewrite snd_write_header. by apply Hw.
  - destruct (parsed1 f) as [[sh1|]|?|?] eqn:E1, (parsed2 f) as [[sh2|]|?|?] eqn:E2; simpl;
      unfold SH.compare_headers; try exact Hr; repeat case_match; try exact Hr;
      rewrite snd_write_header; by apply Hw.
Qed.
End repair_lemmas.

(** ** Properties *)

Section properties.
Context `{Crc32c} `{UuidFormat}.

Lemma device_identifiers_eq f :
  device_identifiers f =
    let '(rr, f0) := SH.read_sigblocks f in
    let '(r, f') := SH.repair_sigblocks SH.write_header rr f0 in
    (rmap (option_map identifiers) r, f').
Proof. done. Qed.

Lemma wipe_ok f : writable f → 8192 ≤ f_size f →
  ∃ f', SH.wipe f = (Ok tt, f') ∧ wrote 0 8192 f f' ∧ writable f' ∧
    block1 f' = replicate 512 0 ∧ block2 f' = replicate 512 0.
Proof.
  intros Hn Hs. unfold SH.wipe, SH.zeroed.
  change (bytes_ STATIC_HEADER_SECTORS) with 8192.
  erewrite ibind_ok by by apply seek_ok.
  assert (Z.of_nat (length (replicate (Z.to_nat 8192) 0)) = 8192) as L by (rewrite length_replicate; lia).
  assert (∀ i, (i < Z.to_nat 8192)%nat → replicate (Z.to_nat 8192) 0 !!! i = 0) as Hz.
  { intros i. apply lookup_total_replicate_2. }
  generalize dependent (replicate (Z.to_nat 8192) 0). intros z L Hz.
  erewrite ibind_ok by (apply write_all_ok; simpl; [done|lia|lia]).
  rewrite sync_all_ok by done. simpl.
  assert (∀ p, 0 ≤ p → p + 512 ≤ 8192 → slice (put (f_data f) 0 z) p 512 = replicate 512 0) as Hsl.
  { intros p ??. unfold slice. apply list_eq_same_length with 512%nat; rewrite ?length_replicate;
      [done|by rewrite length_map, length_seqZ|].
    intros i x y Hi Hx [-> _]%lookup_replicate.
    rewrite list_lookup_fmap, lookup_seqZ_lt in Hx by lia. injection Hx as <-.
    unfold put. zif; [apply Hz; lia|]. rewrite L in *. apply andb_false_iff in Heqb as [?|?]; zb; lia. }
  eexists. split; [done|]. split; [split_and!; try done|split; [done|]].
  - intros i Hi. simpl. apply put_outside. lia.
  - unfold block1, block2. simpl. rewrite !Hsl by lia. done.
Qed.

(** A signature block is 512 bytes long and decodes to the header it was made from,
    for every header whose fields fit the widths they are stored in: size, MDA size,
    reserved size and initialization time are 64-bit, the UUIDs 128-bit. *)
Theorem sigblock_codec_roundtrip sh :
  sh_ok sh →
  length (SH.sigblock_to_buf sh) = 512%nat ∧
  SH.sigblock_from_buf (SH.sigblock_to_buf sh) = Ok (Some sh).
Proof. split; [apply sigblock_length|by apply sigblock_roundtrip]. Qed.

(** C8: Identification of any readable device: the call never panics; when it returns
    identifiers, both copies of the signature block are afterwards the same valid header,
    which was on the device before and has the greatest initialization time of the valid
    copies, and nothing outside the 16 sectors of the static header has changed; when it
    returns [None] neither copy has a signature and the device is unchanged; an error means
    that a damaged copy had no valid sibling or that two different headers have the
    same time, and the device is unchanged. *)
Theorem device_identifiers_repairs f :
  healthy f →
  ∃ r f', device_identifiers f = (rmap (option_map identifiers) r, f') ∧ repaired f r f'.
Proof.
  intros Hf. rewrite device_identifiers_eq. pose proof (repair_ok f Hf) as Hr.
  destruct (SH.read_sigblocks f) as [rr f0].
  destruct (SH.repair_sigblocks SH.write_header rr f0) as [r f']. eauto.
Qed.

(** Identification is idempotent: after one call returned identifiers, a second
    call returns the same identifiers and changes no byte of the device. *)
Theorem device_identifiers_idempotent f ids f' :
  healthy f → device_identifiers f = (Ok (Some ids), f') →
  ∃ f'', device_identifiers f' = (Ok (Some ids), f'') ∧ wrote 0 0 f' f''.
Proof.
  intros Hf E. rewrite device_identifiers_eq in E. pose proof (repair_ok f Hf) as Hr.
  destruct (SH.read_sigblocks f) as [rr f0].
  destruct (SH.repair_sigblocks SH.write_header rr f0) as [[[sh|]|?|?] f1]; simplify_eq/=.
  destruct Hr as (Hf' & P1 & P2 & _). rewrite device_identifiers_eq.
  destruct (read_sigblocks_ok f') as (f2 & -> & W2); [apply Hf'..|].
  unfold parsed1, parsed2 in *. rewrite P1, P2. simpl.
  unfold SH.compare_headers. rewrite bool_decide_true by done. eauto.
Qed.

(** Crash safety of identification: whatever reads, writes and syncs fail,
    and however far a failing write got, the call rewrites at most the copy that is
    not the valid one it keeps, so the device never loses its last valid
    signature block; bytes beyond the static header are never touched. *)
Theorem device_identifiers_keeps_a_copy f r f' :
  device_identifiers f = (r, f') → one_copy_kept f f'.
Proof.
  rewrite device_identifiers_eq. destruct (SH.read_sigblocks f) as [[x1 x2] f0] eqn:E.
  apply read_sigblocks_any in E as (W & H1 & H2).
  pose proof (repair_any f f0 x1 x2 W H1 H2) as Hk.
  destruct (SH.repair_sigblocks SH.write_header (x1, x2) f0) as [r' f1]. simpl in Hk.
  by intros [= _ <-].
Qed.

(** A device initialised with a header is identified by it, and a disowned device
    is no longer a Stratis device; neither changes a byte after the static header. *)
Theorem write_identify_disown f sh :
  healthy f → sh_ok sh →
  ∃ f1 f2 f3, SH.write sh Both f = (Ok tt, f1) ∧ wrote 0 8192 f f1 ∧
    device_identifiers f1 = (Ok (Some (identifiers sh)), f2) ∧
    disown_device f2 = (Ok tt, f3) ∧ wrote 0 8192 f2 f3 ∧
    (device_identifiers f3).1 = Ok None.
Proof.
  intros Hf Hsh. destruct (write_healthy f sh Both Hf) as (f1 & E1 & W1 & Hf1 & B1 & B2).
  simpl in B1, B2. destruct (read_sigblocks_ok f1) as (f2 & R2 & W2); [apply Hf1..|].
  destruct (wrote0_healthy _ _ _ W2 Hf1) as (Hn2 & Hs2 & _).
  destruct (wipe_ok f2 Hn2 Hs2) as (f3 & E3 & W3 & Hn3 & Z1 & Z2).
  exists f1, f2, f3. do 2 (split; [done|]). split.
  { rewrite device_identifiers_eq, R2, B1, B2, sigblock_roundtrip by done. simpl.
    unfold SH.compare_headers. by rewrite bool_decide_true. }
  do 2 (split; [done|]). rewrite device_identifiers_eq.
  destruct (read_sigblocks_ok f3) as (f4 & -> & W4); [done|by destruct W3 as (-> & _)|].
  by rewrite Z1, Z2, sigblock_zero.
Qed.

Lemma safe_sh_write sh which : safe (SH.write sh which).
Proof. unfold SH.write, SH.write_region. cbv zeta. safely. Qed.
#[local] Hint Resolve safe_sh_write : safe.

(** Whatever fails, identification does not panic. *)
Lemma safe_device_identifiers : safe device_identifiers.
Proof.
  intros f. rewrite device_identifiers_eq. destruct (SH.read_sigblocks f) as [[x1 x2] f0] eqn:E.
  apply read_sigblocks_any in E as (_ & Hx1 & Hx2).
  assert (safe (SH.repair_sigblocks SH.write_header (x1, x2))) as Hs;
    [|specialize (Hs f0); by destruct (SH.repair_sigblocks _ _ f0) as [[]]].
  pose proof (λ w, sigblock_from_buf_no_panic _ w (proj1 (block_length f))) as Hp1.
  pose proof (λ w, sigblock_from_buf_no_panic _ w (proj2 (block_length f))) as Hp2.
  destruct Hx1 as [[e1 ->]| ->], Hx2 as [[e2 ->]| ->]; cbn;
    repeat match goal with |- context [SH.sigblock_from_buf ?b] =>
             destruct (SH.sigblock_from_buf b) as [[]|?|?] end;
    try (by destruct (Hp1 _ eq_refl)); try (by destruct (Hp2 _ eq_refl)); cbn;
    unfold SH.compare_headers, SH.write_header; safely.
Qed.

(** *** Devices opened for reading only *)

(** A header cannot be written. *)
Lemma write_header_read_only sh which f :
  f_write f = false →
  ∃ e f', SH.write_header sh which f = (Err e, f') ∧ wrote 0 0 f f'.
Proof.
  intros Hw. unfold SH.write_header, SH.write. cbv zeta.
  generalize (SH.sigblock_to_buf sh). intros sb. change (bytes_ SIGBLOCK_REGION_SECTORS) with 4096.
  unfold ibind, seek, SH.write_region, ibind, write_all.
  destruct which; simpl; (destruct (f_fault f (f_ops f)); simpl; [by eexists _, _|]); rewrite ?Hw; simpl;
    try (by eexists _, _).
  destruct (f_fault f (S (f_ops f))); simpl; [by eexists _, _|]. rewrite Hw. simpl. by eexists _, _.
Qed.

(** So the device is identified exactly when no repair is needed: both copies hold
    the same header. *)
Lemma identifiers_read_only f : no_faults f → f_write f = false → 8192 ≤ f_size f →
  ∃ r f', device_identifiers f = (r, f') ∧ wrote 0 0 f f' ∧ (∀ w, r ≠ Panic w) ∧
    ∀ ids, r = Ok (Some ids) ↔
      ∃ sh, parsed1 f = Ok (Some sh) ∧ parsed2 f = Ok (Some sh) ∧ identifiers sh = ids.
Proof.
  intros Hn Hw Hs. rewrite device_identifiers_eq.
  destruct (read_sigblocks_ok f) as (f0 & -> & W0); [done..|].
  assert (f_write f0 = false) as Hw0 by (by destruct W0 as (_&[_ ->]&_)).
  assert (∀ sh which, ∃ e f', SH.write_header sh which f0 = (Err e, f') ∧ wrote 0 0 f f') as Hf.
  { intros sh which. destruct (write_header_read_only sh which f0 Hw0) as (e & f' & E & W).
    exists e, f'. split; [exact E|]. by eapply wrote_trans. }
  pose proof (λ w, sigblock_from_buf_no_panic _ w (proj1 (block_length f))) as Hp1.
  pose proof (λ w, sigblock_from_buf_no_panic _ w (proj2 (block_length f))) as Hp2.
  fold (parsed1 f) in Hp1 |- *. fold (parsed2 f) in Hp2 |- *.
  destruct (parsed1 f) as [[sh1|]|e1|w1], (parsed2 f) as [[sh2|]|e2|w2];
    try (by destruct (Hp1 _ eq_refl)); try (by destruct (Hp2 _ eq_refl)); simpl; unfold SH.compare_headers;
    [case_bool_decide; [|zif; [|zif]]|..];
    try (match goal with |- context [SH.write_header ?sh ?which f0] =>
           destruct (Hf sh which) as (? & ? & E & W); rewrite E end); simpl; eexists _, _;
    (split; [reflexivity|]); (split; [first [exact W|exact W0]|]); (split; [done|]); naive_solver.
Qed.

(** When one block cannot be read, passing [do_nothing] does not keep the header unchanged:
    the repair is the one done with [write_header]. *)
Lemma do_nothing_still_writes b e loc f :
  SH.repair_sigblocks SH.do_nothing (mkSHR (Ok b) (Some loc), mkSHR (Err e) None) f =
  SH.repair_sigblocks SH.write_header (mkSHR (Ok b) (Some loc), mkSHR (Err e) None) f ∧
  SH.repair_sigblocks SH.do_nothing (mkSHR (Err e) None, mkSHR (Ok b) (Some loc)) f =
  SH.repair_sigblocks SH.write_header (mkSHR (Err e) None, mkSHR (Ok b) (Some loc)) f.
Proof. done. Qed.
End properties.

(** ** Witnesses *)

#[local] Transparent SH.sigblock_from_buf SH.sigblock_to_buf.

(** A blank one-gibibyte device, and a header for it. *)
Definition blank_device : File := mkFile (2 ^ 30) (λ _, 0) 0 0 (λ _, None) true.
Definition example_header : StaticHeader :=
  SH.new (mkIds 0x0123456789abcdef0123456789abcdef 42) (MDADataSize_default) 2097152 1600000000.

Definition newer_header : StaticHeader :=
  SH.new (mkIds 0x0123456789abcdef0123456789abcdef 43) MDADataSize_default 2097152 1600000001.

Section examples.
#[local] Existing Instance crc32c_instance.
#[local] Existing Instance hex_instance.

(** A device whose second copy is older than its first. *)
Definition stale_device : File :=
  (SH.write newer_header First (SH.write example_header Both blank_device).2).2.

(** The same device, when the write that repairs the second copy is cut short after 100 bytes. *)
Definition torn_device : File :=
  let f := stale_device in
  mkFile (f_size f) (f_data f) 0 0 (λ n, if (n =? 7)%nat then Some 100%nat else None) (f_write f).

Lemma blank_healthy : healthy blank_device.
Proof.
  split; [done|]. split; [simpl; lia|].
  split; apply (bool_decide_unpack _); vm_compute; exact I.
Qed.

Lemma stale_healthy : healthy stale_device.
Proof.
  split; [split; [intros n; vm_compute; reflexivity|vm_compute; reflexivity]|]. split; [vm_compute; discriminate|].
  split; apply (bool_decide_unpack _); vm_compute; exact I.
Qed.

Lemma example_ok : sh_ok example_header.
Proof. apply (bool_decide_unpack _). vm_compute. exact I. Qed.

(** The newer header wins. *)
Lemma stale_identified :
  (device_identifiers stale_device).1 = Ok (Some (identifiers newer_header)).
Proof. vm_compute. reflexivity. Qed.

Lemma sigblock_codec_roundtrip_witness :
  length (SH.sigblock_to_buf example_header) = 512%nat ∧
  SH.sigblock_from_buf (SH.sigblock_to_buf example_header) = Ok (Some example_header).
Proof. apply sigblock_codec_roundtrip. apply example_ok. Defined.

Lemma device_identifiers_repairs_witness :
  (device_identifiers stale_device).1 = Ok (Some (identifiers newer_header)) ∧
  ∃ r f', device_identifiers stale_device = (rmap (option_map identifiers) r, f') ∧
    repaired stale_device r f'.
Proof.
  split; [apply stale_identified|]. apply device_identifiers_repairs. apply stale_healthy.
Defined.

Lemma device_identifiers_idempotent_witness :
  ∃ f'', device_identifiers (device_identifiers stale_device).2 =
           (Ok (Some (identifiers newer_header)), f'') ∧
         wrote 0 0 (device_identifiers stale_device).2 f''.
Proof.
  apply (device_identifiers_idempotent stale_device); [apply stale_healthy|].
  rewrite <- stale_identified. apply surjective_pairing.
Defined.

Lemma device_identifiers_keeps_a_copy_witness :
  is_ok (device_identifiers torn_device).1 = false ∧
  one_copy_kept torn_device (device_identifiers torn_device).2.
Proof.
  split; [vm_compute; reflexivity|].
  apply (device_identifiers_keeps_a_copy torn_device (device_identifiers torn_device).1).
  apply surjective_pairing.
Defined.

Lemma write_identify_disown_witness :
  ∃ f1 f2 f3, SH.write example_header Both blank_device = (Ok tt, f1) ∧
    wrote 0 8192 blank_device f1 ∧
    device_identifiers f1 = (Ok (Some (identifiers example_header)), f2) ∧
    disown_device f2 = (Ok tt, f3) ∧ wrote 0 8192 f2 f3 ∧
    (device_identifiers f3).1 = Ok None.
Proof. apply write_identify_disown; [apply blank_healthy|apply example_ok]. Defined.
End examples.
