(* ===== verification/MDA.v ===== *)
(** * The MDA: two generations of variable-length metadata, each stored twice

    Models [src/engine/strat_engine/metadata/mda.rs].  Regions 0 and 1 are the
    primary regions, regions 2 and 3 their copies; a save overwrites the older
    generation.  [chrono] enters through the predicate [timestamp_ok], which
    says for which seconds and nanoseconds [Utc.timestamp] does not panic. *)
From stdpp Require Import base list numbers strings.
From Stdlib Require Import ZArith Lia.
From S2P Require Import Prelude Disk Sizes External.
Import mda_size.

Definition STRAT_REGION_HDR_VERSION : Z := 1.
Definition STRAT_METADATA_VERSION : Z := 1.
Definition i64_max : Z := 2 ^ 63 - 1.

(** [DateTime<Utc>]: seconds since the epoch and nanoseconds, ordered lexicographically. *)
Record DateTime : Type := mkTime { dt_secs : Z; dt_nsecs : Z }.

#[global] Instance DateTime_eq_dec : EqDecision DateTime.
Proof. solve_decision. Defined.

Definition dt_cmp (a b : DateTime) : comparison :=
  match dt_secs a ?= dt_secs b with Eq => dt_nsecs a ?= dt_nsecs b | c => c end.

Definition dt_lt (a b : DateTime) : Prop :=
  dt_secs a < dt_secs b ∨ dt_secs a = dt_secs b ∧ dt_nsecs a < dt_nsecs b.

#[global] Instance dt_lt_dec a b : Decision (dt_lt a b).
Proof. unfold dt_lt. apply _. Defined.

(** [Option<&DateTime> >= Some(time)]: [None] is less than every [Some]. *)
Definition opt_ge (o : option DateTime) (time : DateTime) : bool :=
  match o with
  | None => false
  | Some t => match dt_cmp t time with Lt => false | _ => true end
  end.

(** [convert_int!(_, u128, u64)]; [usize] is 64 bits wide *)
Definition convert_int_u64 (z : Z) : res Z :=
  if z <=? u64_max then Ok z else Err (Msg "Failed to convert integer").

Class Chrono : Type := { timestamp_ok : Z → Z → bool }.

(** A [DateTime] that can be stored: not before the epoch, representable. *)
Definition time_ok `{Chrono} (t : DateTime) : Prop :=
  0 ≤ dt_secs t ≤ i64_max ∧ 0 ≤ dt_nsecs t < 2 ^ 32 ∧ timestamp_ok (dt_secs t) (dt_nsecs t) = true.

Record MDAHeader : Type := mkHdr { last_updated : DateTime; used : Z; data_crc : Z }.

Record MDARegions : Type := mkRegions {
  region_size : Z; mda_headers : option MDAHeader * option MDAHeader }.

Module Hdr.
Section with_crates.
Context `{Crc32c} `{Chrono}.

Definition default : MDAHeader := mkHdr (mkTime 0 0) 0 0.

Definition parse_buf (buf : list Z) : res (option MDAHeader) :=
  match le_val (sub buf 8 16) with
  | 0 => Ok None
  | used =>
      let secs := le_val (sub buf 16 24) in
      rassert (secs <=? i64_max) "secs <= std::i64::MAX as u64"
      (let nsecs := le_val (sub buf 24 28) in
       rassert (timestamp_ok secs nsecs) "No such local time"
       (Ok (Some (mkHdr (mkTime secs nsecs) used (le_val (sub buf 4 8))))))
  end.

Definition from_buf (buf : list Z) : res (option MDAHeader) :=
  if negb (le_val (sub buf 0 4) =? checksum_castagnoli (sub buf 4 32)) then
    Err (Msg "MDA region header CRC")
  else if negb (le_val (sub buf 28 29) =? STRAT_REGION_HDR_VERSION) then
    Err (Msg "Unknown region header version")
  else if negb (le_val (sub buf 29 30) =? STRAT_METADATA_VERSION) then
    Err (Msg "Unknown metadata version")
  else parse_buf buf.

Definition to_buf (self : MDAHeader) : res (list Z) :=
  rassert (0 <=? dt_secs (last_updated self)) "self.last_updated.timestamp() >= 0"
  (let buf := replicate 32 0 in
   let buf := splice buf 4 (write_u32 (data_crc self)) in
   let? used64 := match convert_int_u64 (used self) with
                  | Ok z => Ok z | _ => Panic "Size must fit into metadata" end in
   let buf := splice buf 8 (write_u64 used64) in
   let buf := splice buf 16 (write_u64 (dt_secs (last_updated self))) in
   let buf := splice buf 24 (write_u32 (dt_nsecs (last_updated self))) in
   let buf := splice buf 28 [STRAT_REGION_HDR_VERSION] in
   let buf := splice buf 29 [STRAT_METADATA_VERSION] in
   let buf_crc := checksum_castagnoli (sub buf 4 32) in
   Ok (splice buf 0 (write_u32 buf_crc))).

Definition load_region (self : MDAHeader) : io (list Z) :=
  let! size := ilift (convert_int_u64 (used self)) in
  let! data_buf := read_exact size in
  if negb (data_crc self =? checksum_castagnoli data_buf)
  then ierr (Msg "MDA region data CRC") else iret data_buf.

End with_crates.
End Hdr.

Module MDA.
Section with_crates.
Context `{Crc32c} `{Chrono}.

Definition new (mda_size : Z) : MDARegions :=
  mkRegions (MDASize_region_size mda_size) (None, None).

Definition mda_offset (header_size index per_region_size : Z) : Z :=
  wrap128 (header_size + wrap128 (per_region_size * index)).

Definition max_data_size (self : MDARegions) : Z := MDARegionSize_data_size (region_size self).

(** [f.seek(SeekFrom::Start(convert_int!(offset, u128, u64)?))?] *)
Definition seek_to_offset (offset : Z) : io unit :=
  let! p := ilift (convert_int_u64 offset) in seek p.

(** the loop over [0..NUM_MDA_REGIONS] *)
Fixpoint initialize_loop (header_size region_size_bytes : Z) (hdr_buf : list Z) (regions : list Z)
    : io unit :=
  match regions with
  | [] => iret tt
  | region :: rest =>
      seek_to_offset (mda_offset header_size region region_size_bytes) ;;!
      write_all hdr_buf ;;!
      initialize_loop header_size region_size_bytes hdr_buf rest
  end.

Definition initialize (self : MDARegions) (header_size : Z) : io unit :=
  let! hdr_buf := ilift (Hdr.to_buf Hdr.default) in
  let region_size_bytes := sectors_bytes (region_size self) in
  initialize_loop header_size region_size_bytes hdr_buf (seqZ 0 NUM_MDA_REGIONS) ;;!
  sync_all.

Definition load_a_region (header_size region_size_bytes index : Z) : io (option MDAHeader) :=
  seek_to_offset (mda_offset header_size index region_size_bytes) ;;!
  let! hdr_buf := read_exact MDA_REGION_HDR_SIZE in
  ilift (Hdr.from_buf hdr_buf).

Definition get_mda (header_size region_size_bytes index : Z) : io (option MDAHeader) :=
  ior_else (load_a_region header_size region_size_bytes index)
    (load_a_region header_size region_size_bytes (index + NUM_PRIMARY_MDA_REGIONS)).

Definition load (header_size mda_size : Z) : io MDARegions :=
  let region_size := MDASize_region_size mda_size in
  let region_size_bytes := sectors_bytes region_size in
  let! h0 := get_mda header_size region_size_bytes 0 in
  let! h1 := get_mda header_size region_size_bytes 1 in
  iret (mkRegions region_size (h0, h1)).

Definition older (self : MDARegions) : Z :=
  match mda_headers self with
  | (None, _) => 0
  | (_, None) => 1
  | (Some mda0, Some mda1) =>
      match dt_cmp (last_updated mda0) (last_updated mda1) with Lt => 0 | Eq | Gt => 1 end
  end.

Definition newer (self : MDARegions) : res Z :=
  match older self with 0 => Ok 1 | 1 => Ok 0 | _ => Panic "invalid val from older()" end.

(** [self.mda_headers[index]] *)
Definition header_at (self : MDARegions) (index : Z) : res (option MDAHeader) :=
  match index with
  | 0 => Ok (mda_headers self).1
  | 1 => Ok (mda_headers self).2
  | _ => Panic "index out of bounds"
  end.

Definition set_header (self : MDARegions) (index : Z) (h : option MDAHeader) : MDARegions :=
  if index =? 0 then mkRegions (region_size self) (h, (mda_headers self).2)
  else mkRegions (region_size self) ((mda_headers self).1, h).

Definition last_update_time (self : MDARegions) : res (option DateTime) :=
  let? i := newer self in
  let? h := header_at self i in
  Ok (option_map last_updated h).

Definition save_region (header_size region_size : Z) (hdr_buf data : list Z) (index : Z) : io unit :=
  seek_to_offset (mda_offset header_size index region_size) ;;!
  write_all hdr_buf ;;!
  write_all data ;;!
  sync_all.

(** Returns the outcome, the struct after the call, and the device after it. *)
Definition save_state (self : MDARegions) (header_size : Z) (time : DateTime) (data : list Z)
    (f : File) : res unit * MDARegions * File :=
  match last_update_time self with
  | Err e => (Err e, self, f)
  | Panic w => (Panic w, self, f)
  | Ok lut =>
      if opt_ge lut time then (Err (Msg "Overwriting newer data"), self, f)
      else
        let used := Z.of_nat (length data) in
        let max_available := max_data_size self in
        if max_available <? used then
          (Err (Msg "metadata length exceeds region available"), self, f)
        else
          let header := mkHdr time used (checksum_castagnoli data) in
          let region_size := sectors_bytes (region_size self) in
          let older_region := older self in
          match
            (let! hdr_buf := ilift (Hdr.to_buf header) in
             save_region header_size region_size hdr_buf data older_region ;;!
             save_region header_size region_size hdr_buf data
               (older_region + NUM_PRIMARY_MDA_REGIONS)) f
          with
          | (Ok _, f) => (Ok tt, set_header self older_region (Some header), f)
          | (Err e, f) => (Err e, self, f)
          | (Panic w, f) => (Panic w, self, f)
          end
  end.

Definition load_region_at (mda : MDAHeader) (header_size region_size index : Z) : io (list Z) :=
  let offset := wrap128 (mda_offset header_size index region_size + MDA_REGION_HDR_SIZE) in
  seek_to_offset offset ;;! Hdr.load_region mda.

Definition load_state (self : MDARegions) (header_size : Z) : io (option (list Z)) :=
  let! newer_region := ilift (newer self) in
  let! h := ilift (header_at self newer_region) in
  match h with
  | None => iret None
  | Some mda =>
      let region_size := sectors_bytes (region_size self) in
      let! data :=
        ior_else (load_region_at mda header_size region_size newer_region)
          (load_region_at mda header_size region_size (newer_region + NUM_PRIMARY_MDA_REGIONS)) in
      iret (Some data)
  end.

End with_crates.
End MDA.

(** ** Times *)

Lemma dt_cmp_lt a b : dt_cmp a b = Lt ↔ dt_lt a b.
Proof.
  unfold dt_cmp, dt_lt. destruct (Z.compare_spec (dt_secs a) (dt_secs b)).
  - rewrite Z.compare_lt_iff. lia.
  - split; [lia|done].
  - split; [done|lia].
Qed.

Lemma opt_ge_false o t : opt_ge o t = false ↔ ∀ t', o = Some t' → dt_lt t' t.
Proof.
  unfold opt_ge. destruct o as [t'|]; [|naive_solver].
  pose proof (dt_cmp_lt t' t). destruct (dt_cmp t' t); naive_solver.
Qed.

Lemma dt_lt_irrefl a : ¬ dt_lt a a.
Proof. unfold dt_lt. lia. Qed.

Lemma dt_lt_asym a b : dt_lt a b → ¬ dt_lt b a.
Proof. unfold dt_lt. lia. Qed.

(** ** The header codec *)

Section header_lemmas.
Context `{Crc32c} `{Chrono}.

Definition hdr_ok (h : MDAHeader) : Prop :=
  time_ok (last_updated h) ∧ u64 (used h) ∧ 0 ≤ data_crc h < 2 ^ 32.

Lemma hdr_roundtrip h : hdr_ok h →
  ∃ b, Hdr.to_buf h = Ok b ∧ length b = 32%nat ∧
       Hdr.from_buf b = Ok (if used h =? 0 then None else Some h).
Proof.
  intros ((Hs & Hn & Ht) & Hu & Hc). unfold Hdr.to_buf, rassert, convert_int_u64.
  destruct (Z.leb_spec 0 (dt_secs (last_updated h))); [|lia].
  destruct (Z.leb_spec (used h) u64_max); [|unfold u64 in Hu; lia]. cbn [rbind].
  eexists. split; [reflexivity|].
  unfold Hdr.from_buf, Hdr.parse_buf, rassert. cbv zeta.
  assert (u64 (dt_secs (last_updated h))) as Hs' by (unfold u64, u64_max, i64_max in *; lia).
  name_bufs. split; [done|]. sub_simpl.
  rewrite le_val_u32 by apply checksum_u32. rewrite Z.eqb_refl. simpl.
  rewrite !le_val_u64, !le_val_u32 by done.
  destruct h as [[s n] u c]; simpl in *.
  destruct (Z.eqb_spec u 0) as [->|Hu0]; [done|].
  destruct (Z.leb_spec s i64_max); [|lia]. rewrite Ht. destruct u; done.
Qed.
Lemma to_buf_length h b : Hdr.to_buf h = Ok b → length b = 32%nat.
Proof.
  unfold Hdr.to_buf, rassert, convert_int_u64. destruct (0 <=? _); [|done].
  destruct (used h <=? u64_max); [|done]. cbn [rbind]. intros E. injection E as <-.
  cbv zeta. name_bufs. done.
Qed.

(** [MDAHeader::default] encodes, and decodes to no header. *)
Lemma default_roundtrip : ∃ b, Hdr.to_buf Hdr.default = Ok b ∧ length b = 32%nat ∧
  Hdr.from_buf b = Ok None.
Proof.
  unfold Hdr.to_buf, Hdr.default, rassert, convert_int_u64. simpl (dt_secs _). simpl (used _).
  change (0 <=? 0) with true. change (0 <=? u64_max) with true. cbn match. cbn [rbind].
  eexists. split; [reflexivity|].
  unfold Hdr.from_buf, Hdr.parse_buf. cbv zeta. name_bufs. split; [done|]. sub_simpl.
  rewrite le_val_u32 by apply checksum_u32. rewrite Z.eqb_refl. done.
Qed.
End header_lemmas.

(** ** What is stored *)

(** One generation of metadata: nothing yet, or data with its time stamp. *)
Definition gen : Type := option (DateTime * list Z).

Section stored.
Context `{Crc32c} `{Chrono}.

Definition data_header (td : DateTime * list Z) : MDAHeader :=
  mkHdr td.1 (Z.of_nat (length td.2)) (checksum_castagnoli td.2).
Definition gen_header (g : gen) : option MDAHeader := option_map data_header g.

Definition gen_ok (max : Z) (g : gen) : Prop :=
  match g with
  | None => True
  | Some (t, d) => time_ok t ∧ d ≠ [] ∧ Z.of_nat (length d) ≤ max
  end.

(** [off] is the start of a region with generation [g] on it. *)
Definition region_holds (f : File) (off : Z) (g : gen) : Prop :=
  Hdr.to_buf (default Hdr.default (gen_header g)) = Ok (slice (f_data f) off 32) ∧
  match g with
  | None => True
  | Some (t, d) => slice (f_data f) (off + 32) (Z.of_nat (length d)) = d
  end.

Definition region_bytes (self : MDARegions) : Z := 512 * region_size self.

(** The four regions lie on the device, after [hs] bytes of static header. *)
Definition geometry (self : MDARegions) (hs : Z) (f : File) : Prop :=
  1 ≤ region_size self ∧ 0 ≤ hs ∧ hs + 4 * region_bytes self ≤ f_size f ≤ u64_max.

(** The struct and the device agree: the two generations are [g0] and [g1]. *)
Record holds (self : MDARegions) (hs : Z) (f : File) (g0 g1 : gen) : Prop := {
  h_geo : geometry self hs f;
  h_ok0 : gen_ok (region_bytes self - 32) g0;
  h_ok1 : gen_ok (region_bytes self - 32) g1;
  h_mem : mda_headers self = (gen_header g0, gen_header g1);
  h_r0 : region_holds f hs g0;
  h_r1 : region_holds f (hs + region_bytes self) g1;
  h_r2 : region_holds f (hs + 2 * region_bytes self) g0;
  h_r3 : region_holds f (hs + 3 * region_bytes self) g1 }.

(** The generation [load_state] has to return. *)
Definition latest (g0 g1 : gen) : gen :=
  match g0, g1 with
  | None, _ => g1
  | _, None => g0
  | Some (t0, _), Some (t1, _) => if decide (dt_lt t0 t1) then g1 else g0
  end.

Lemma offset_ok self hs f i : geometry self hs f → 0 ≤ i < 4 →
  MDA.mda_offset hs i (sectors_bytes (region_size self)) = hs + region_bytes self * i.
Proof.
  intros (?&?&?&?) ?. unfold region_bytes in *.
  unfold MDA.mda_offset, sectors_bytes, SECTOR_SIZE. unfold u64_max in *.
  assert (0 ≤ 512 * region_size self * i ≤ 512 * region_size self * 3) by nia.
  rewrite (Z.mul_comm (region_size self)). nowrap128. done.
Qed.

Lemma max_data_ok self hs f : geometry self hs f →
  MDA.max_data_size self = region_bytes self - 32.
Proof.
  intros (?&?&?&?). unfold MDA.max_data_size, MDARegionSize_data_size, sectors_bytes, SECTOR_SIZE,
    MDA_REGION_HDR_SIZE, region_bytes in *. unfold u64_max in *. nowrap128. lia.
Qed.

Lemma seek_to_offset_any p lo hi f : u64 p →
  wrote lo hi f (MDA.seek_to_offset p f).2 ∧
  ((MDA.seek_to_offset p f).1 = Ok tt → f_pos (MDA.seek_to_offset p f).2 = p).
Proof.
  intros [??]. unfold MDA.seek_to_offset, convert_int_u64. destruct (Z.leb_spec p u64_max); [|lia].
  change (ibind _ _ f) with (seek p f). destruct (seek_wrote p f) as [W P].
  split; [by eapply wrote_weaken0|done].
Qed.

Lemma seek_to_offset_ok p f : u64 p → no_faults f →
  MDA.seek_to_offset p f = (Ok tt, set_pos p (tick f)).
Proof.
  intros [??] Hn. unfold MDA.seek_to_offset, convert_int_u64. destruct (Z.leb_spec p u64_max); [|lia].
  by apply seek_ok.
Qed.

(** Writing a region under any faults, and without. *)
Lemma save_region_any hs rs hdr data i p f :
  MDA.mda_offset hs i rs = p → u64 p → length hdr = 32%nat →
  wrote p (p + 32 + Z.of_nat (length data)) f (MDA.save_region hs rs hdr data i f).2.
Proof.
  intros Ho Hp Hl. unfold MDA.save_region. rewrite Ho.
  destruct (seek_to_offset_any p p (p + 32 + Z.of_nat (length data)) f Hp) as [W0 P0].
  apply ibind_wrote; [done|]. intros [] E0. specialize (P0 E0).
  generalize dependent (MDA.seek_to_offset p f).2. intros f0 W0 P0.
  destruct (write_all_wrote hdr f0) as [W1 P1].
  apply ibind_wrote; [eapply wrote_weaken; [exact W1|lia..]|]. intros [] E1. destruct (P1 E1) as [P1' _].
  generalize dependent (write_all hdr f0).2. intros f1 W1 _ P1'.
  destruct (write_all_wrote data f1) as [W2 P2].
  apply ibind_wrote; [eapply wrote_weaken; [exact W2|lia..]|]. intros [] E2. apply sync_all_wrote.
Qed.

Lemma save_region_ok hs rs hdr data i p f :
  MDA.mda_offset hs i rs = p → u64 p → length hdr = 32%nat → writable f →
  p + 32 + Z.of_nat (length data) ≤ f_size f →
  ∃ f', MDA.save_region hs rs hdr data i f = (Ok tt, f') ∧
    wrote p (p + 32 + Z.of_nat (length data)) f f' ∧
    slice (f_data f') p 32 = hdr ∧ slice (f_data f') (p + 32) (Z.of_nat (length data)) = data.
Proof.
  intros Ho Hp Hl Hn Hs. pose proof Hp as [??].
  pose proof (save_region_any hs rs hdr data i p f Ho Hp Hl) as W. revert W.
  unfold MDA.save_region. rewrite Ho.
  erewrite ibind_ok by by apply seek_to_offset_ok.
  erewrite ibind_ok by (apply write_all_ok; simpl; [done|lia|lia]).
  erewrite ibind_ok by (apply write_all_ok; simpl; [done|lia|lia]).
  rewrite sync_all_ok by done. simpl. rewrite Hl. intros W.
  eexists. split; [done|]. split; [exact W|]. simpl. split.
  - rewrite slice_put_disj by lia.
    pose proof (slice_put_same (f_data f) p hdr) as Hq. by rewrite Hl in Hq.
  - apply slice_put_same.
Qed.
End stored.

(** ** Operations on what is stored *)

#[local] Opaque Hdr.to_buf Hdr.from_buf.

(** A device with the same contents and no more faults. *)
Definition unfault (f : File) : File :=
  mkFile (f_size f) (f_data f) (f_pos f) (f_ops f) (λ _, None) (f_write f).

Section operations.
Context `{Crc32c} `{Chrono}.

Lemma data_header_ok max t d :
  max ≤ u64_max → gen_ok max (Some (t, d)) → hdr_ok (data_header (t, d)).
Proof.
  intros Hm (Ht & _ & Hl). split; [done|]. simpl. split; [unfold u64; lia|apply checksum_u32].
Qed.

(** The header a region starts with reads back as the generation's header. *)
Lemma region_header max f off g : max ≤ u64_max → gen_ok max g → region_holds f off g →
  Hdr.from_buf (slice (f_data f) off 32) = Ok (gen_header g).
Proof.
  intros Hm Hg [Hb _]. destruct g as [[t d]|]; simpl in *.
  - destruct (hdr_roundtrip (data_header (t, d))) as (b & Eb & _ & Er); [by eapply data_header_ok|].
    rewrite Eb in Hb. injection Hb as ->. rewrite Er. destruct Hg as (_ & Hd & _).
    simpl. destruct (Z.eqb_spec (Z.of_nat (length d)) 0); [|done]. destruct d; [done|simpl in *; lia].
  - destruct default_roundtrip as (b & Eb & _ & Er). rewrite Eb in Hb. by injection Hb as ->.
Qed.

Lemma region_holds_wrote lo hi f f' off max g :
  wrote lo hi f f' → gen_ok max g → off + 32 + max ≤ lo ∨ hi ≤ off → 0 ≤ max →
  region_holds f off g → region_holds f' off g.
Proof.
  intros W Hg Hd Hm [Hb Hs]. split.
  - rewrite Hb. f_equal. symmetry. eapply wrote_slice; [exact W|lia].
  - destruct g as [[t d]|]; [|done]. destruct Hg as (_&_&?). rewrite <- Hs at 2.
    eapply wrote_slice; [exact W|lia].
Qed.

(** A region that was just written holds what was written. *)
Lemma save_region_holds self hs i hdr t d f :
  geometry self hs f → writable f → 0 ≤ i < 4 →
  gen_ok (region_bytes self - 32) (Some (t, d)) →
  Hdr.to_buf (data_header (t, d)) = Ok hdr → length hdr = 32%nat →
  let off := hs + region_bytes self * i in
  ∃ f', MDA.save_region hs (sectors_bytes (region_size self)) hdr d i f = (Ok tt, f') ∧
    wrote off (off + region_bytes self) f f' ∧ region_holds f' off (Some (t, d)).
Proof.
  intros Hg Hn Hi Hok Hh Hl off. pose proof Hg as (?&?&?&?). destruct Hok as (_ & _ & Hd).
  assert (0 ≤ region_bytes self * i ≤ region_bytes self * 3) by nia.
  assert (0 < region_bytes self) by (unfold region_bytes in *; lia).
  destruct (save_region_ok hs (sectors_bytes (region_size self)) hdr d i off f)
    as (f' & E & W & S1 & S2); [by eapply offset_ok|unfold u64; lia|done|done|lia|].
  exists f'. split; [done|]. split; [eapply wrote_weaken; [exact W|lia..]|].
  split; [|done]. simpl. by rewrite Hh, S1.
Qed.

Lemma newer_older self : MDA.newer self = Ok (1 - MDA.older self) ∧ (MDA.older self = 0 ∨ MDA.older self = 1).
Proof.
  unfold MDA.newer, MDA.older. destruct (mda_headers self) as [[h0|] [h1|]]; simpl; auto.
  destruct (dt_cmp _ _); auto.
Qed.

(** In-memory headers pick the generation [latest] does. *)
Lemma newer_latest self g0 g1 :
  mda_headers self = (gen_header g0, gen_header g1) →
  (MDA.older self = 0 ∧ latest g0 g1 = g1) ∨ (MDA.older self = 1 ∧ latest g0 g1 = g0).
Proof.
  intros Hm. unfold MDA.older. rewrite Hm. destruct g0 as [[t0 d0]|], g1 as [[t1 d1]|]; simpl; auto.
  pose proof (dt_cmp_lt t0 t1). destruct (dt_cmp t0 t1), (decide (dt_lt t0 t1)); naive_solver.
Qed.

Lemma last_update_time_ok self g0 g1 :
  mda_headers self = (gen_header g0, gen_header g1) →
  MDA.last_update_time self = Ok (option_map fst (latest g0 g1)).
Proof.
  intros Hm. unfold MDA.last_update_time. destruct (newer_older self) as [-> _]. simpl.
  destruct (newer_latest _ _ _ Hm) as [[-> ->]|[-> ->]]; simpl; rewrite Hm; simpl.
  - by destruct g1.
  - by destruct g0.
Qed.

(** The generations after a save: the older one is replaced. *)
Definition saved (self : MDARegions) (g0 g1 : gen) (td : DateTime * list Z) : gen * gen :=
  if MDA.older self =? 0 then (Some td, g1) else (g0, Some td).

Lemma latest_saved self g0 g1 t d :
  mda_headers self = (gen_header g0, gen_header g1) →
  (∀ t', option_map fst (latest g0 g1) = Some t' → dt_lt t' t) →
  latest (saved self g0 g1 (t, d)).1 (saved self g0 g1 (t, d)).2 = Some (t, d).
Proof.
  intros Hm. unfold saved. destruct (newer_latest _ _ _ Hm) as [[-> ->]|[-> ->]]; simpl; intros Ht.
  - destruct g1 as [[t1 d1]|]; simpl in *; [|done].
    rewrite decide_False; [done|]. by apply dt_lt_asym, Ht.
  - destruct g0 as [[t0 d0]|]; simpl in *; [|done]. rewrite decide_True; [done|by apply Ht].
Qed.

(** Both copies of a generation are written, one after the other. *)
Lemma save_both_ok self hs i hdr t d f :
  geometry self hs f → writable f → i = 0 ∨ i = 1 →
  gen_ok (region_bytes self - 32) (Some (t, d)) →
  Hdr.to_buf (data_header (t, d)) = Ok hdr → length hdr = 32%nat →
  let R := region_bytes self in
  ∃ f1 f2,
    MDA.save_region hs (sectors_bytes (region_size self)) hdr d i f = (Ok tt, f1) ∧
    MDA.save_region hs (sectors_bytes (region_size self)) hdr d (i + NUM_PRIMARY_MDA_REGIONS) f1
      = (Ok tt, f2) ∧
    wrote (hs + R * i) (hs + R * i + R) f f1 ∧
    wrote (hs + R * (i + 2)) (hs + R * (i + 2) + R) f1 f2 ∧
    region_holds f2 (hs + R * i) (Some (t, d)) ∧
    region_holds f2 (hs + R * (i + 2)) (Some (t, d)) ∧ writable f2.
Proof.
  intros Hg Hn Hi Hok Hh Hl R. change NUM_PRIMARY_MDA_REGIONS with 2. pose proof Hg as (?&?&?).
  assert (32 ≤ R) by (unfold R, region_bytes in *; lia).
  destruct (save_region_holds self hs i hdr t d f) as (f1 & E1 & W1 & HA); [done|done|lia|done..|].
  assert (writable f1) as Hn1 by by eapply wrote_writable.
  assert (geometry self hs f1) as Hg1.
  { destruct Hg as (?&?&?). destruct W1 as (Hs & _). unfold geometry. by rewrite Hs. }
  destruct (save_region_holds self hs (i + 2) hdr t d f1) as (f2 & E2 & W2 & HB); [done|done|lia|done..|].
  fold R in W1, HA, W2, HB.
  exists f1, f2. do 4 (split; [done|]). split; [|split; [done|by eapply wrote_writable]].
  eapply region_holds_wrote; [exact W2|exact Hok| | |exact HA]; nia.
Qed.

Lemma geometry_wrote lo hi self hs f f' : wrote lo hi f f' → geometry self hs f → geometry self hs f'.
Proof. intros (Hs & _) Hg. unfold geometry. by rewrite Hs. Qed.

(** A save on a device without faults. *)
Lemma save_ok self hs f g0 g1 t d :
  holds self hs f g0 g1 → writable f → gen_ok (region_bytes self - 32) (Some (t, d)) →
  (∀ t', option_map fst (latest g0 g1) = Some t' → dt_lt t' t) →
  ∃ self' f', MDA.save_state self hs t d f = (Ok tt, self', f') ∧
    region_size self' = region_size self ∧
    holds self' hs f' (saved self g0 g1 (t, d)).1 (saved self g0 g1 (t, d)).2 ∧
    writable f' ∧ wrote hs (hs + 4 * region_bytes self) f f'.
Proof.
  intros [Hg Ho0 Ho1 Hm R0 R1 R2 R3] Hn Hok Ht. unfold MDA.save_state.
  rewrite (last_update_time_ok _ _ _ Hm). rewrite (proj2 (opt_ge_false _ _) Ht).
  rewrite (max_data_ok _ _ _ Hg). pose proof Hok as (_&_&Hlen).
  destruct (Z.ltb_spec (region_bytes self - 32) (Z.of_nat (length d))); [lia|].
  destruct (hdr_roundtrip (data_header (t, d))) as (hdr & Eh & Lh & _).
  { eapply data_header_ok; [|exact Hok]. pose proof Hg as (?&?&?&?). lia. }
  unfold data_header in Eh; simpl in Eh. rewrite Eh.
  destruct (newer_older self) as [_ Hold].
  destruct (save_both_ok self hs (MDA.older self) hdr t d f)
    as (f1 & f2 & E1 & E2 & W1 & W2 & HA & HB & Hn2); [done..|].
  unfold ilift. unfold ibind at 1. unfold ibind at 1. rewrite E1, E2.
  eexists _, f2. split; [done|]. split; [unfold MDA.set_header; by zif|].
  pose proof Hg as (?&?&?). assert (512 ≤ region_bytes self) by (unfold region_bytes; lia).
  split; [|split; [done|]].
  - unfold saved, MDA.set_header. destruct Hold as [Hold|Hold]; rewrite Hold in *; simpl;
      (split; simpl; [eapply geometry_wrote; [exact W2|]; eapply geometry_wrote; [exact W1|exact Hg]
                     |done..|by rewrite Hm| | | |]); unfold region_bytes in *; simpl in *.
    all: try (replace hs with (hs + 512 * region_size self * 0) by lia; exact HA).
    all: try (replace (2 * (512 * region_size self)) with (512 * region_size self * (0 + 2)) by lia; exact HB).
    all: try (replace (512 * region_size self) with (512 * region_size self * 1) by lia; exact HA).
    all: try (replace (3 * (512 * region_size self)) with (512 * region_size self * (1 + 2)) by lia; exact HB).
    all: eapply region_holds_wrote; [exact W2|eassumption|lia|lia|];
      eapply region_holds_wrote; [exact W1|eassumption|lia|lia|eassumption].
  - eapply wrote_trans; [eapply wrote_weaken; [exact W1|..]|eapply wrote_weaken; [exact W2|..]];
      destruct Hold as [-> | ->]; lia.
Qed.

(** Reading back. *)
Lemma load_a_region_ok self hs f i g :
  geometry self hs f → no_faults f → 0 ≤ i < 4 → gen_ok (region_bytes self - 32) g →
  region_holds f (hs + region_bytes self * i) g →
  ∃ f', MDA.load_a_region hs (sectors_bytes (region_size self)) i f = (Ok (gen_header g), f') ∧
    wrote 0 0 f f'.
Proof.
  intros Hg Hn Hi Hok Hr. unfold MDA.load_a_region. rewrite (offset_ok _ _ _ _ Hg Hi).
  pose proof Hg as (?&?&?&?).
  assert (0 ≤ region_bytes self * i ≤ region_bytes self * 3) by (unfold region_bytes in *; nia).
  assert (512 ≤ region_bytes self) by (unfold region_bytes; lia).
  erewrite ibind_ok by (apply seek_to_offset_ok; [unfold u64; lia|done]).
  change MDA_REGION_HDR_SIZE with 32.
  erewrite ibind_ok by (apply read_exact_ok; simpl; [done|lia]).
  unfold ilift. simpl. rewrite (region_header (region_bytes self - 32) f _ g) by (done || lia).
  eexists. split; [done|]. done.
Qed.

Lemma get_mda_ok self hs f i g :
  geometry self hs f → no_faults f → 0 ≤ i < 2 → gen_ok (region_bytes self - 32) g →
  region_holds f (hs + region_bytes self * i) g →
  ∃ f', MDA.get_mda hs (sectors_bytes (region_size self)) i f = (Ok (gen_header g), f') ∧
    wrote 0 0 f f'.
Proof.
  intros Hg Hn Hi Hok Hr. unfold MDA.get_mda, ior_else.
  destruct (load_a_region_ok self hs f i g) as (f' & -> & W); [done|done|lia|done..|]. eauto.
Qed.

(** Loading the headers of a device gives the struct that wrote it. *)
Lemma load_ok self hs f g0 g1 mda_size :
  holds self hs f g0 g1 → no_faults f → MDASize_region_size mda_size = region_size self →
  ∃ f', MDA.load hs mda_size f = (Ok self, f') ∧ wrote 0 0 f f'.
Proof.
  intros [Hg Ho0 Ho1 Hm R0 R1 R2 R3] Hn Hr. unfold MDA.load. rewrite Hr.
  destruct (get_mda_ok self hs f 0 g0) as (f1 & E1 & W1); [done|done|lia|done| |].
  { by replace (hs + region_bytes self * 0) with hs by lia. }
  erewrite ibind_ok by exact E1.
  pose proof Hg as (?&?&?&?). assert (512 ≤ region_bytes self) by (unfold region_bytes; lia).
  destruct (get_mda_ok self hs f1 1 g1) as (f2 & E2 & W2);
    [by eapply geometry_wrote|by eapply wrote_no_faults|lia|done| |].
  { replace (hs + region_bytes self * 1) with (hs + region_bytes self) by lia.
    eapply region_holds_wrote; [exact W1|exact Ho1|lia|lia|done]. }
  erewrite ibind_ok by exact E2. exists f2. split; [|by eapply wrote_trans].
  destruct self as [rs hh]; simpl in *. by rewrite Hm.
Qed.

Lemma load_region_at_ok self hs f i t d :
  geometry self hs f → no_faults f → 0 ≤ i < 4 → gen_ok (region_bytes self - 32) (Some (t, d)) →
  region_holds f (hs + region_bytes self * i) (Some (t, d)) →
  ∃ f', MDA.load_region_at (data_header (t, d)) hs (sectors_bytes (region_size self)) i f
          = (Ok d, f') ∧ wrote 0 0 f f'.
Proof.
  intros Hg Hn Hi (_&_&Hlen) [_ Hd]. unfold MDA.load_region_at. rewrite (offset_ok _ _ _ _ Hg Hi).
  pose proof Hg as (?&?&?&?).
  assert (0 ≤ region_bytes self * i ≤ region_bytes self * 3) by (unfold region_bytes in *; nia).
  assert (512 ≤ region_bytes self) by (unfold region_bytes; lia).
  change MDA_REGION_HDR_SIZE with 32. rewrite wrap128_small by (unfold u128, u128_max, u64_max in *; lia).
  erewrite ibind_ok by (apply seek_to_offset_ok; [unfold u64; lia|done]).
  unfold Hdr.load_region, convert_int_u64. simpl (used _).
  destruct (Z.leb_spec (Z.of_nat (length d)) u64_max); [|lia].
  erewrite ibind_ok by reflexivity.
  erewrite ibind_ok by (apply read_exact_ok; simpl; [done|lia]).
  simpl. rewrite Hd, Z.eqb_refl. simpl. eexists. split; [reflexivity|]. done.
Qed.

(** Only the regions of the newer generation matter to [load_state]. *)
Lemma load_state_ok self hs f g0 g1 :
  geometry self hs f → no_faults f →
  gen_ok (region_bytes self - 32) (latest g0 g1) →
  mda_headers self = (gen_header g0, gen_header g1) →
  region_holds f (hs + region_bytes self * (1 - MDA.older self)) (latest g0 g1) →
  ∃ f', MDA.load_state self hs f = (Ok (option_map snd (latest g0 g1)), f') ∧ wrote 0 0 f f'.
Proof.
  intros Hg Hn Hok Hm Hr. unfold MDA.load_state. destruct (newer_older self) as [-> Hold].
  erewrite ibind_ok by reflexivity.
  assert (MDA.header_at self (1 - MDA.older self) = Ok (gen_header (latest g0 g1))) as Hh.
  { unfold MDA.header_at. destruct (newer_latest _ _ _ Hm) as [[-> ->]|[-> ->]]; simpl; by rewrite Hm. }
  rewrite Hh. erewrite ibind_ok by reflexivity.
  destruct (latest g0 g1) as [[t d]|]; simpl.
  - destruct (load_region_at_ok self hs f (1 - MDA.older self) t d) as (f' & E & W);
      [done|done|lia|done..|].
    unfold ior_else. unfold ibind. fold (data_header (t, d)). rewrite E. eauto.
  - eexists. split; [done|]. done.
Qed.

Lemma holds_wrote0 p self hs f f' g0 g1 :
  wrote p p f f' → holds self hs f g0 g1 → holds self hs f' g0 g1.
Proof.
  intros W [Hg Ho0 Ho1 Hm R0 R1 R2 R3]. apply (wrote_weaken0 _ 0 0) in W.
  pose proof Hg as (?&?&_). assert (512 ≤ region_bytes self) by (unfold region_bytes; lia).
  split; try done; [by eapply geometry_wrote|..];
    (eapply region_holds_wrote; [exact W|eassumption|lia|lia|assumption]).
Qed.

Lemma holds_newer self hs f g0 g1 :
  holds self hs f g0 g1 →
  gen_ok (region_bytes self - 32) (latest g0 g1) ∧
  region_holds f (hs + region_bytes self * (1 - MDA.older self)) (latest g0 g1).
Proof.
  intros [Hg Ho0 Ho1 Hm R0 R1 R2 R3]. destruct (newer_latest _ _ _ Hm) as [[-> ->]|[-> ->]].
  - split; [done|]. by replace (hs + _ * (1 - 0)) with (hs + region_bytes self) by lia.
  - split; [done|]. by replace (hs + _ * (1 - 1)) with hs by lia.
Qed.

(** Initialisation. *)
Lemma initialize_loop_ok self hs f hdr regions :
  geometry self hs f → writable f → length hdr = 32%nat →
  Hdr.to_buf Hdr.default = Ok hdr → Forall (λ i, 0 ≤ i < 4) regions →
  let R := region_bytes self in
  ∃ f', MDA.initialize_loop hs (sectors_bytes (region_size self)) hdr regions f = (Ok tt, f') ∧
    wrote hs (hs + 4 * R) f f' ∧
    ∀ j, 0 ≤ j < 4 → j ∈ regions ∨ region_holds f (hs + R * j) None → region_holds f' (hs + R * j) None.
Proof.
  intros Hg Hn Hl Hd Hall R. assert (512 ≤ R).
  { pose proof Hg as (?&_). unfold R, region_bytes; lia. }
  revert f Hg Hn. induction Hall as [|i rest Hi _ IH]; intros f Hg Hn.
  { eexists. split; [done|]. split; [done|]. intros j _ [Hj%elem_of_nil|Hj]; done. }
  simpl. rewrite (offset_ok _ _ _ _ Hg Hi). fold R.
  assert (0 ≤ R * i ≤ R * 3) by nia. pose proof Hg as (?&?&HR&?). fold R in HR.
  erewrite ibind_ok by (apply seek_to_offset_ok; [unfold u64; lia|done]).
  erewrite ibind_ok by (apply write_all_ok; simpl; [done|lia|lia]). simpl.
  set (f1 := mkFile _ _ _ _ _ _).
  assert (wrote (hs + R * i) (hs + R * i + 32) f f1) as W1.
  { split_and!; try done. intros k Hk. apply put_outside. lia. }
  assert (region_holds f1 (hs + R * i) None) as Hi1.
  { split; [|done]. simpl. rewrite Hd. f_equal. symmetry.
    pose proof (slice_put_same (f_data f) (hs + R * i) hdr) as Hq. by rewrite Hl in Hq. }
  destruct (IH f1) as (f' & E & W & Hh); [by eapply geometry_wrote|done|].
  exists f'. split; [done|]. split.
  { eapply wrote_trans; [|exact W]. eapply wrote_weaken; [exact W1|lia..]. }
  intros j Hj Hor. apply Hh; [done|]. destruct (decide (j = i)) as [->|Hne]; [by right|].
  destruct Hor as [[->|Hin]%elem_of_cons|Hr]; [done|by left|right].
  eapply (region_holds_wrote _ _ _ _ _ 0); [exact W1|done| |done|exact Hr]. nia.
Qed.

Lemma initialize_ok mda_size hs f :
  geometry (MDA.new mda_size) hs f → writable f →
  ∃ f', MDA.initialize (MDA.new mda_size) hs f = (Ok tt, f') ∧ writable f' ∧
    wrote hs (hs + 4 * region_bytes (MDA.new mda_size)) f f' ∧
    holds (MDA.new mda_size) hs f' None None.
Proof.
  intros Hg Hn. unfold MDA.initialize. destruct default_roundtrip as (hdr & Eh & Lh & _).
  rewrite Eh. erewrite ibind_ok by reflexivity.
  destruct (initialize_loop_ok (MDA.new mda_size) hs f hdr (seqZ 0 NUM_MDA_REGIONS))
    as (f1 & E1 & W1 & Hh); [done..| |].
  { apply Forall_forall. intros i Hi%elem_of_seqZ. unfold NUM_MDA_REGIONS, NUM_PRIMARY_MDA_REGIONS in Hi. lia. }
  erewrite ibind_ok by exact E1.
  assert (writable f1) as Hn1 by by eapply wrote_writable. rewrite sync_all_ok by done.
  eexists. split; [done|]. split; [done|]. split; [done|].
  assert (∀ j, 0 ≤ j < 4 → region_holds f1 (hs + region_bytes (MDA.new mda_size) * j) None) as Hj.
  { intros j Hj. apply Hh; [done|]. left. apply elem_of_seqZ.
    unfold NUM_MDA_REGIONS, NUM_PRIMARY_MDA_REGIONS. lia. }
  split; try done.
  - by eapply geometry_wrote in Hg; [|exact W1].
  - specialize (Hj 0 ltac:(lia)). by rewrite Z.mul_0_r, Z.add_0_r in Hj.
  - specialize (Hj 1 ltac:(lia)). by rewrite Z.mul_1_r in Hj.
  - specialize (Hj 2 ltac:(lia)). by rewrite Z.mul_comm in Hj.
  - specialize (Hj 3 ltac:(lia)). by rewrite Z.mul_comm in Hj.
Qed.

(** A save that does not succeed, at whatever point and with whatever torn write. *)
Lemma save_failed self hs f g0 g1 t d r self' f' :
  holds self hs f g0 g1 → MDA.save_state self hs t d f = (r, self', f') → r ≠ Ok tt →
  self' = self ∧ wrote hs (hs + 4 * region_bytes self) f f' ∧
  region_holds f' (hs + region_bytes self * (1 - MDA.older self)) (latest g0 g1).
Proof.
  intros Hh E Hr. destruct (holds_newer _ _ _ _ _ Hh) as [Hok Hnew].
  destruct Hh as [Hg Ho0 Ho1 Hm R0 R1 R2 R3]. revert E. unfold MDA.save_state.
  rewrite (last_update_time_ok _ _ _ Hm).
  destruct (opt_ge _ _); [by intros [= _ <- <-]|].
  rewrite (max_data_ok _ _ _ Hg).
  destruct (Z.ltb_spec (region_bytes self - 32) (Z.of_nat (length d))); [by intros [= _ <- <-]|].
  destruct (Hdr.to_buf _) as [hdr|e|w] eqn:Eh;
    [|intros [= _ <- <-]; done|intros [= _ <- <-]; done].
  apply to_buf_length in Eh. pose proof Hg as (?&?&?&?).
  assert (512 ≤ region_bytes self) by (unfold region_bytes; lia).
  destruct (newer_older self) as [_ Hold]. change NUM_PRIMARY_MDA_REGIONS with 2.
  set (i := MDA.older self) in *. set (R := region_bytes self) in *.
  assert (∀ j f1, 0 ≤ j < 4 → wrote (hs + R * j) (hs + R * j + R) f1
    (MDA.save_region hs (sectors_bytes (region_size self)) hdr d j f1).2) as Hany.
  { intros j f1 Hj. eapply wrote_weaken; [eapply (save_region_any _ _ _ _ _ (hs + R * j))|..]; try lia.
    - by apply (offset_ok _ _ f).
    - unfold u64. split; nia. }
  pose proof (Hany i f ltac:(lia)) as W1.
  erewrite ibind_ok by reflexivity. unfold ibind.
  destruct (MDA.save_region _ _ hdr d i f) as [[[]|e|w] f1]; simpl in W1.
  2,3: intros [= _ <- <-]; split; [done|]; split;
    [eapply wrote_weaken; [exact W1|destruct Hold as [-> | ->]; lia..]|];
    (eapply region_holds_wrote; [exact W1|exact Hok|destruct Hold as [-> | ->]; lia|lia|exact Hnew]).
  pose proof (Hany (i + 2) f1 ltac:(lia)) as W2.
  destruct (MDA.save_region _ _ hdr d (i + 2) f1) as [[[]|e|w] f2]; simpl in W2; intros [= <- <- <-]; [done|..];
    (split; [done|]; split;
     [eapply wrote_trans; [eapply wrote_weaken; [exact W1|destruct Hold as [-> | ->]; lia..]|];
      eapply wrote_weaken; [exact W2|destruct Hold as [-> | ->]; lia..]|];
     eapply region_holds_wrote; [exact W2|exact Hok|destruct Hold as [-> | ->]; lia|lia|];
     eapply region_holds_wrote; [exact W1|exact Hok|destruct Hold as [-> | ->]; lia|lia|exact Hnew]).
Qed.
End operations.

(** ** Abstract specification

    The MDA is a register that holds the metadata saved last; a save has to be later
    than the previous one and to fit. *)

Definition spec_save (max : Z) (st : gen) (td : DateTime * list Z) : res unit * gen :=
  if opt_ge (option_map fst st) td.1 then (Err (Msg "Overwriting newer data"), st)
  else if max <? Z.of_nat (length td.2) then
    (Err (Msg "metadata length exceeds region available"), st)
  else (Ok tt, Some td).

Fixpoint spec_saves (max : Z) (st : gen) (ops : list (DateTime * list Z)) : list (res unit) * gen :=
  match ops with
  | [] => ([], st)
  | td :: rest =>
      let '(r, st) := spec_save max st td in
      let '(rs, st) := spec_saves max st rest in (r :: rs, st)
  end.

Section refinement.
Context `{Crc32c} `{Chrono}.

(** The same calls on the implementation. *)
Fixpoint run_saves (self : MDARegions) (hs : Z) (ops : list (DateTime * list Z)) (f : File)
    : list (res unit) * MDARegions * File :=
  match ops with
  | [] => ([], self, f)
  | (t, d) :: rest =>
      let '(r, self, f) := MDA.save_state self hs t d f in
      let '(rs, self, f) := run_saves self hs rest f in (r :: rs, self, f)
  end.

Definition op_ok (td : DateTime * list Z) : Prop := time_ok td.1 ∧ td.2 ≠ [].

#[global] Instance op_ok_dec td : Decision (op_ok td).
Proof. unfold op_ok, time_ok. apply _. Defined.

Lemma save_step self hs f g0 g1 td :
  holds self hs f g0 g1 → writable f → op_ok td →
  let '(r, st) := spec_save (region_bytes self - 32) (latest g0 g1) td in
  ∃ self' f' g0' g1', MDA.save_state self hs td.1 td.2 f = (r, self', f') ∧
    region_size self' = region_size self ∧ writable f' ∧
    wrote hs (hs + 4 * region_bytes self) f f' ∧
    holds self' hs f' g0' g1' ∧ latest g0' g1' = st.
Proof.
  intros Hh Hn [Ht Hd]. destruct td as [t d]; simpl in *. unfold spec_save; simpl.
  pose proof (h_mem _ _ _ _ _ Hh) as Hm. pose proof (h_geo _ _ _ _ _ Hh) as Hg.
  destruct (opt_ge _ _) eqn:Ege.
  { exists self, f, g0, g1. unfold MDA.save_state. by rewrite (last_update_time_ok _ _ _ Hm), Ege. }
  destruct (Z.ltb_spec (region_bytes self - 32) (Z.of_nat (length d))) as [Hlt|Hle].
  { exists self, f, g0, g1. unfold MDA.save_state.
    rewrite (last_update_time_ok _ _ _ Hm), Ege, (max_data_ok _ _ _ Hg).
    destruct (Z.ltb_spec (region_bytes self - 32) (Z.of_nat (length d))); [done|lia]. }
  destruct (save_ok self hs f g0 g1 t d) as (self' & f' & E & Hrs & Hh' & Hn' & W); [done..| |].
  { by apply opt_ge_false. }
  eexists self', f', _, _. do 4 (split; [done|]). split; [exact Hh'|].
  apply latest_saved; [done|]. by apply opt_ge_false.
Qed.

Lemma run_saves_ok ops self hs f g0 g1 :
  holds self hs f g0 g1 → writable f → Forall op_ok ops →
  let '(rs, st) := spec_saves (region_bytes self - 32) (latest g0 g1) ops in
  ∃ self' f' g0' g1', run_saves self hs ops f = (rs, self', f') ∧
    region_size self' = region_size self ∧ writable f' ∧
    wrote hs (hs + 4 * region_bytes self) f f' ∧
    holds self' hs f' g0' g1' ∧ latest g0' g1' = st.
Proof.
  intros Hh Hn Hall. revert self f g0 g1 Hh Hn.
  induction Hall as [|td ops Htd _ IH]; intros self f g0 g1 Hh Hn; simpl.
  { by exists self, f, g0, g1. }
  pose proof (save_step self hs f g0 g1 td Hh Hn Htd) as Hstep.
  destruct (spec_save _ _ td) as [r st1].
  destruct Hstep as (self1 & f1 & h0 & h1 & E1 & Hr1 & Hn1 & W1 & Hh1 & <-).
  specialize (IH self1 f1 h0 h1 Hh1 Hn1).
  assert (region_bytes self1 = region_bytes self) as HR by (unfold region_bytes; by rewrite Hr1).
  rewrite HR in IH. destruct (spec_saves _ _ ops) as [rs st].
  destruct IH as (self' & f' & g0' & g1' & E & Hr & Hn' & W & Hh' & Hl).
  exists self', f', g0', g1'. destruct td as [t d]; simpl in E1. rewrite E1, E.
  split; [done|]. split; [congruence|]. split; [done|]. split; [by eapply wrote_trans|done].
Qed.

(** A restart finds the struct and the latest data. *)
Lemma load_state_holds self hs f g0 g1 : holds self hs f g0 g1 → no_faults f →
  ∃ f', MDA.load_state self hs f = (Ok (option_map snd (latest g0 g1)), f') ∧ wrote 0 0 f f'.
Proof.
  intros Hh Hn. destruct (holds_newer _ _ _ _ _ Hh) as [Hok Hnew].
  apply load_state_ok; [apply Hh|done|done|apply Hh|done].
Qed.

Lemma reload_ok self hs f g0 g1 mda_size :
  holds self hs f g0 g1 → no_faults f → MDASize_region_size mda_size = region_size self →
  ∃ f2 f3, MDA.load hs mda_size f = (Ok self, f2) ∧
    MDA.load_state self hs f2 = (Ok (option_map snd (latest g0 g1)), f3) ∧ wrote 0 0 f f3.
Proof.
  intros Hh Hn Hr. destruct (load_ok self hs f g0 g1 mda_size) as (f2 & E2 & W2); [done..|].
  destruct (load_state_holds self hs f2 g0 g1) as (f3 & E3 & W3); [by eapply holds_wrote0|by eapply wrote_no_faults|].
  exists f2, f3. do 2 (split; [done|]). by eapply wrote_trans.
Qed.

(** ** Properties *)

(** Every MDA header with a time stamp that can be represented, a 64-bit size and a
    32-bit checksum encodes to 32 bytes that decode to the same header, or to no header
    when its size is 0. *)
Theorem mda_header_roundtrip h :
  hdr_ok h →
  ∃ b, Hdr.to_buf h = Ok b ∧ length b = 32%nat ∧
       Hdr.from_buf b = Ok (if used h =? 0 then None else Some h).
Proof. apply hdr_roundtrip. Qed.

(** C9: The MDA is a register: after initialisation and any sequence of saves of
    non-empty data on a device that does not fail, each save returned what the
    specification returns (success, "Overwriting newer data" or "metadata length exceeds
    region available"), the headers read back from the device by [load] are those in memory,
    [load_state] returns the data of the last successful save, and
    no byte outside the four regions has changed. *)
Theorem mda_register_refinement mda_size hs f ops :
  geometry (MDA.new mda_size) hs f → writable f → Forall op_ok ops →
  let R := region_bytes (MDA.new mda_size) in
  let '(rs, st) := spec_saves (R - 32) None ops in
  ∃ f0 self f1 f2 f3,
    MDA.initialize (MDA.new mda_size) hs f = (Ok tt, f0) ∧
    run_saves (MDA.new mda_size) hs ops f0 = (rs, self, f1) ∧
    MDA.load hs mda_size f1 = (Ok self, f2) ∧
    MDA.load_state self hs f2 = (Ok (option_map snd st), f3) ∧
    wrote hs (hs + 4 * R) f f3.
Proof.
  intros Hg Hn Hall R.
  destruct (initialize_ok mda_size hs f Hg Hn) as (f0 & E0 & Hn0 & W0 & Hh0).
  pose proof (run_saves_ok ops _ hs f0 None None Hh0 Hn0 Hall) as Hrun. simpl latest in Hrun.
  fold R in Hrun, W0. destruct (spec_saves _ _ ops) as [rs st].
  destruct Hrun as (self & f1 & g0 & g1 & E1 & Hr & Hn1 & W1 & Hh1 & <-).
  destruct (reload_ok self hs f1 g0 g1 mda_size) as (f2 & f3 & E2 & E3 & W3); [done..|].
  exists f0, self, f1, f2, f3. do 4 (split; [done|]).
  eapply wrote_trans; [exact W0|]. eapply wrote_trans; [exact W1|]. by eapply wrote_weaken0.
Qed.

(** A save that does not succeed, for whatever reason and however much of it had
    reached the device, leaves the in-memory headers as they were, touches only the MDA
    regions, and the metadata saved before can still be loaded through them. *)
Theorem mda_failed_save_keeps_state self hs f g0 g1 t d r self' f' :
  holds self hs f g0 g1 → MDA.save_state self hs t d f = (r, self', f') → r ≠ Ok tt →
  self' = self ∧ wrote hs (hs + 4 * region_bytes self) f f' ∧
  (MDA.load_state self' hs (unfault f')).1 = Ok (option_map snd (latest g0 g1)).
Proof.
  intros Hh E Hr. destruct (save_failed _ _ _ _ _ _ _ _ _ _ Hh E Hr) as (-> & W & Hnew).
  split; [done|]. split; [done|]. destruct (holds_newer _ _ _ _ _ Hh) as [Hok _].
  destruct (load_state_ok self hs (unfault f') g0 g1) as (f3 & -> & _); try done; [|apply Hh].
  apply (geometry_wrote hs (hs + 4 * region_bytes self) self hs f f' W). apply Hh.
Qed.
End refinement.

(** ** Witnesses *)

Section examples.
#[local] Existing Instance crc32c_instance.
#[local] Instance any_time : Chrono := {| timestamp_ok := λ s n, (s <? 2 ^ 40) && (n <? 2000000000) |}.

(** 16 sectors of static header, four regions of one sector. *)
Definition small_device : File := mkFile 16384 (λ _, 0) 0 0 (λ _, None) true.

Definition t1 : DateTime := mkTime 1000 0.
Definition t2 : DateTime := mkTime 1000 5.
Definition ex_saves : list (DateTime * list Z) :=
  [(t1, [1; 2; 3]); (t1, [4]); (t2, replicate 500 7); (t2, [4; 5])].

Lemma mda_header_roundtrip_witness :
  ∃ b, Hdr.to_buf (mkHdr t2 77 12345) = Ok b ∧ length b = 32%nat ∧
       Hdr.from_buf b = Ok (Some (mkHdr t2 77 12345)).
Proof.
  apply (mda_header_roundtrip (mkHdr t2 77 12345)).
  repeat split; vm_compute; (reflexivity || discriminate).
Defined.

Lemma mda_register_refinement_witness :
  spec_saves 480 None ex_saves =
    ([Ok tt; Err (Msg "Overwriting newer data");
      Err (Msg "metadata length exceeds region available"); Ok tt], Some (t2, [4; 5])) ∧
  ∃ f0 self f1 f2 f3,
    MDA.initialize (MDA.new 4) 8192 small_device = (Ok tt, f0) ∧
    run_saves (MDA.new 4) 8192 ex_saves f0 = ((spec_saves 480 None ex_saves).1, self, f1) ∧
    MDA.load 8192 4 f1 = (Ok self, f2) ∧
    MDA.load_state self 8192 f2 = (Ok (Some [4; 5]), f3) ∧
    wrote 8192 10240 small_device f3.
Proof.
  split; [vm_compute; reflexivity|].
  apply (mda_register_refinement 4 8192 small_device ex_saves).
  - split_and!; vm_compute; discriminate.
  - done.
  - apply (bool_decide_unpack _). vm_compute. exact I.
Defined.

(** A device with one saved generation whose next save is torn: the header of region 1 is
    written, the data write stops after one byte. *)
Definition one_save : MDARegions * File :=
  let f0 := (MDA.initialize (MDA.new 4) 8192 small_device).2 in
  let '(_, self, f) := MDA.save_state (MDA.new 4) 8192 t1 [1; 2; 3] f0 in
  (self, mkFile (f_size f) (f_data f) 0 0 (λ n, if (n =? 2)%nat then Some 1%nat else None) (f_write f)).

Definition torn_save : res unit * MDARegions * File :=
  MDA.save_state one_save.1 8192 t2 [4; 5] one_save.2.

Lemma one_save_holds : holds one_save.1 8192 one_save.2 (Some (t1, [1; 2; 3])) None.
Proof.
  split.
  - split_and!; vm_compute; discriminate.
  - repeat split; vm_compute; (reflexivity || discriminate).
  - exact I.
  - vm_compute. reflexivity.
  - split; vm_compute; reflexivity.
  - split; [vm_compute; reflexivity|exact I].
  - split; vm_compute; reflexivity.
  - split; [vm_compute; reflexivity|exact I].
Qed.

Lemma mda_failed_save_keeps_state_witness :
  torn_save.1.1 = Err (Io "write") ∧ torn_save.1.2 = one_save.1 ∧
  (MDA.load_state torn_save.1.2 8192 (unfault torn_save.2)).1 = Ok (Some [1; 2; 3]).
Proof.
  assert (torn_save.1.1 = Err (Io "write")) as E by (vm_compute; reflexivity).
  split; [exact E|].
  destruct (mda_failed_save_keeps_state one_save.1 8192 one_save.2 (Some (t1, [1; 2; 3])) None t2 [4; 5]
    torn_save.1.1 torn_save.1.2 torn_save.2) as (E' & _ & H).
  - apply one_save_holds.
  - unfold torn_save. by destruct (MDA.save_state _ _ _ _ _) as [[??]?].
  - rewrite E. discriminate.
  - split; [exact E'|exact H].
Defined.

(** The same torn save, followed by a restart: the headers are read back from the device,
    the unfinished generation is taken for the newer one, and the intact metadata of the
    other generation is not returned. *)
Lemma torn_save_restart :
  let f := unfault torn_save.2 in
  let '(r, f) := MDA.load 8192 4 f in
  match r with
  | Ok self => (MDA.load_state self 8192 f).1 = Err (Msg "MDA region data CRC") ∧
               slice (f_data f) (8192 + 32) 3 = [1; 2; 3]
  | _ => False
  end.
Proof. vm_compute. split; reflexivity. Qed.
End examples.
