(* ===== verification/BDA.v ===== *)
(** * The block device data area: static header and MDA of one device

    Models [src/engine/strat_engine/metadata/bda.rs]. *)
From stdpp Require Import base list numbers strings.
From Stdlib Require Import ZArith Lia.
From S2P Require Import Prelude Disk Sizes External StaticHeader MDA.
Import static_header_size mda_size.

Record BDA : Type := mkBDA { header : StaticHeader; regions : MDARegions }.

(** [STATIC_HEADER_SIZE.sectors().bytes()] *)
Definition static_header_bytes : Z := sectors_bytes STATIC_HEADER_SIZE.

Module Bda.
Definition new (identifiers : StratisIdentifiers) (mda_data_size blkdev_size initialization_time : Z)
    : BDA :=
  let header := SH.new identifiers mda_data_size blkdev_size initialization_time in
  let regions := MDA.new (mda_size header) in
  mkBDA header regions.

(** the nil UUIDs are 0 *)
Definition default : BDA := new (mkIds 0 0) MDADataSize_default BlockdevSize_default 0.

Section with_crates.
Context `{Crc32c} `{UuidFormat} `{Chrono}.

Definition initialize (self : BDA) : io unit :=
  SH.write (header self) Both ;;!
  MDA.initialize (regions self) static_header_bytes.

Definition load (header : StaticHeader) : io (option BDA) :=
  let! regions := MDA.load static_header_bytes (mda_size header) in
  iret (Some (mkBDA header regions)).

Definition save_state (self : BDA) (time : DateTime) (metadata : list Z) (f : File)
    : res unit * BDA * File :=
  let '(r, regions, f) := MDA.save_state (regions self) static_header_bytes time metadata f in
  (r, mkBDA (header self) regions, f).

Definition load_state (self : BDA) : io (option (list Z)) :=
  MDA.load_state (regions self) static_header_bytes.

End with_crates.

Definition last_update_time (self : BDA) : res (option DateTime) :=
  MDA.last_update_time (regions self).
Definition dev_uuid (self : BDA) : Z := device_uuid (identifiers (header self)).
Definition bda_pool_uuid (self : BDA) : Z := pool_uuid (identifiers (header self)).
Definition dev_size (self : BDA) : Z := blkdev_size (header self).
Definition extended_size (self : BDA) : Z := SH.bda_extended_size (header self).
Definition max_data_size (self : BDA) : Z := MDA.max_data_size (regions self).
Definition bda_initialization_time (self : BDA) : Z := initialization_time (header self).
End Bda.

Section properties.
Context `{Crc32c} `{UuidFormat} `{Chrono}.

(** Restart: find the static header, load the BDA, load the metadata. *)
Definition reload : io (option (BDA * option (list Z))) := λ f,
  let '(rr, f) := SH.read_sigblocks f in
  (let! sh := SH.repair_sigblocks SH.write_header rr in
   match sh with
   | None => iret None
   | Some sh =>
       let! bda := Bda.load sh in
       match bda with
       | None => iret None
       | Some bda => let! data := Bda.load_state bda in iret (Some (bda, data))
       end
   end) f.

Fixpoint bda_saves (self : BDA) (ops : list (DateTime * list Z)) (f : File)
    : list (res unit) * BDA * File :=
  match ops with
  | [] => ([], self, f)
  | (t, d) :: rest =>
      let '(r, self, f) := Bda.save_state self t d f in
      let '(rs, self, f) := bda_saves self rest f in (r :: rs, self, f)
  end.

Lemma bda_saves_regions self ops f :
  bda_saves self ops f =
    (let '(rs, r, f') := run_saves (regions self) static_header_bytes ops f in
     (rs, mkBDA (header self) r, f')).
Proof.
  revert self f. induction ops as [|[t d] ops IH]; intros [h r] f; simpl; [done|].
  unfold Bda.save_state. simpl. destruct (MDA.save_state r _ t d f) as [[r1 reg1] f1].
  rewrite IH. simpl. by destruct (run_saves reg1 _ ops f1) as [[??]?].
Qed.

(** The sizes of a new BDA fit a device of [blkdev_size] sectors. *)
Lemma new_geometry ids mds bs itime f :
  0 ≤ mds < 2 ^ 40 →
  512 * Bda.extended_size (Bda.new ids (MDADataSize_new mds) bs itime) ≤ f_size f ≤ u64_max →
  geometry (MDA.new (mda_size (header (Bda.new ids (MDADataSize_new mds) bs itime))))
    static_header_bytes f ∧
  8192 + 4 * region_bytes (regions (Bda.new ids (MDADataSize_new mds) bs itime)) ≤ f_size f ∧
  u64 (mda_size (header (Bda.new ids (MDADataSize_new mds) bs itime))).
Proof.
  intros Hm. simpl. unfold Bda.extended_size, SH.bda_extended_size, SH.new, MDASize_bda_size,
    geometry, region_bytes, MDA.new. simpl.
  set (d := MDADataSize_new mds).
  assert (1 ≤ d < 2 ^ 41) as Hd.
  { subst d. unfold MDADataSize_new, MDADataSize_default, MIN_MDA_DATA_REGION_SIZE. zif; lia. }
  assert (1 ≤ MDADataSize_region_size d < 2 ^ 40) as Hr.
  { unfold MDADataSize_region_size, sectors_bytes, bytes_sectors, MDA_REGION_HDR_SIZE, SECTOR_SIZE.
    nowrap128. pose proof (Z.div_mod (d + 32) 512 ltac:(lia)).
    pose proof (Z.mod_pos_bound (d + 32) 512 ltac:(lia)). nowrap. nowrap128.
    destruct (Z.eqb_spec ((d + 32) / 512 * 512) (d + 32)); simpl negb; cbn match; nowrap; lia. }
  clearbody d. generalize dependent (MDADataSize_region_size d). intros r Hr.
  unfold MDARegionSize_mda_size, MDASize_region_size.
  change NUM_MDA_REGIONS with 4. change static_header_bytes with 8192.
  change STATIC_HEADER_SECTORS with 16. change RESERVED_SECTORS with 6144.
  nowrap. rewrite Z.div_mul by lia. unfold u64, u64_max. intros ?. split_and!; lia.
Qed.

(** The device after a BDA has been initialised on it and metadata saved any number of times *)
Lemma saved_device ids mds bs itime f ops :
  let bda := Bda.new ids (MDADataSize_new mds) bs itime in
  0 ≤ mds < 2 ^ 40 → 512 * Bda.extended_size bda ≤ f_size f ≤ u64_max →
  is_uuid (pool_uuid ids) → is_uuid (device_uuid ids) → u64 bs → u64 itime →
  healthy f → Forall op_ok ops →
  let R := region_bytes (regions bda) in
  let '(rs, st) := spec_saves (R - 32) None ops in
  ∃ f0 self f1 g0 g1,
    Bda.initialize bda f = (Ok tt, f0) ∧ bda_saves bda ops f0 = (rs, mkBDA (header bda) self, f1) ∧
    SH.sigblock_from_buf (block1 f1) = Ok (Some (header bda)) ∧ SH.sigblock_from_buf (block2 f1) = Ok (Some (header bda)) ∧
    writable f1 ∧ 8192 ≤ f_size f1 ∧ holds self static_header_bytes f1 g0 g1 ∧
    MDASize_region_size (mda_size (header bda)) = region_size self ∧ latest g0 g1 = st ∧ wrote 0 (8192 + 4 * R) f f1.
Proof.
  intros bda Hm Hs Hp Hd Hb Hi Hf Hall R.
  destruct (new_geometry ids mds bs itime f Hm Hs) as (Hg & Hend & Hms). fold bda in Hg, Hend, Hms.
  assert (512 ≤ R) as HR.
  { destruct Hg as (?&_). unfold R, region_bytes. change (regions bda) with (MDA.new (mda_size (header bda))). lia. }
  assert (sh_ok (header bda)) as Hsh.
  { split_and!; done. }
  destruct (write_healthy f (header bda) Both Hf) as (fa & Ea & Wa & Hfa & B1 & B2).
  change (block1 fa = SH.sigblock_to_buf (header bda)) in B1.
  change (block2 fa = SH.sigblock_to_buf (header bda)) in B2.
  destruct (initialize_ok (mda_size (header bda)) static_header_bytes fa) as (f0 & E0 & Hn0 & W0 & Hh0);
    [by eapply geometry_wrote|apply Hfa|].
  pose proof (run_saves_ok ops _ static_header_bytes f0 None None Hh0 Hn0 Hall) as Hrun.
  change (MDA.new (mda_size (header bda))) with (regions bda) in *. simpl latest in Hrun.
  fold R in Hrun, W0. destruct (spec_saves _ _ ops) as [rs st].
  destruct Hrun as (self & f1 & g0 & g1 & E1 & Hr & Hn1 & W1 & Hh1 & <-).
  change static_header_bytes with 8192 in W0, W1.
  assert (block1 f1 = SH.sigblock_to_buf (header bda) ∧ block2 f1 = SH.sigblock_to_buf (header bda)) as [C1 C2].
  { unfold block1, block2 in *. fold R in W1.
    split; [rewrite <- B1|rewrite <- B2]; rewrite (wrote_slice _ _ _ _ _ _ W1), (wrote_slice _ _ _ _ _ _ W0) by lia; done. }
  exists f0, self, f1, g0, g1. split_and!; try done.
  - unfold Bda.initialize. by erewrite ibind_ok by exact Ea.
  - rewrite bda_saves_regions, E1. done.
  - rewrite C1. by apply sigblock_roundtrip.
  - rewrite C2. by apply sigblock_roundtrip.
  - destruct W1 as (-> & _), W0 as (-> & _). apply Hfa.
  - eapply wrote_trans; [eapply wrote_weaken; [exact Wa|lia..]|].
    eapply wrote_trans; [eapply wrote_weaken; [exact W0|lia..]|].
    eapply wrote_weaken; [exact W1|unfold R; lia..].
Qed.

(** The life of a device: initialise a BDA on it, save metadata any number of times, and
    restart.  Both phases succeed; each save returns what the register
    specification returns; after the restart the same static header is found, the
    in-memory BDA equals the one before the restart, and the metadata
    of the last successful save is loaded.  Nothing beyond the BDA is ever written. *)
Theorem bda_lifecycle ids mds bs itime f ops :
  let bda := Bda.new ids (MDADataSize_new mds) bs itime in
  0 ≤ mds < 2 ^ 40 → 512 * Bda.extended_size bda ≤ f_size f ≤ u64_max →
  is_uuid (pool_uuid ids) → is_uuid (device_uuid ids) → u64 bs → u64 itime →
  healthy f → Forall op_ok ops →
  let R := region_bytes (regions bda) in
  let '(rs, st) := spec_saves (R - 32) None ops in
  ∃ f0 bda' f1 f2,
    Bda.initialize bda f = (Ok tt, f0) ∧
    bda_saves bda ops f0 = (rs, bda', f1) ∧
    reload f1 = (Ok (Some (bda', option_map snd st)), f2) ∧
    wrote 0 (8192 + 4 * R) f f2.
Proof.
  intros bda Hm Hs Hp Hd Hb Hi Hf Hall R.
  pose proof (saved_device ids mds bs itime f ops Hm Hs Hp Hd Hb Hi Hf Hall) as Hsaved. cbv zeta in Hsaved. fold bda in Hsaved. fold R in Hsaved.
  destruct (spec_saves _ _ ops) as [rs st].
  destruct Hsaved as (f0 & self & f1 & g0 & g1 & E0 & E1 & C1 & C2 & Hn1 & Hs1 & Hh1 & Hr & <- & W).
  destruct (read_sigblocks_ok f1 (writable_reads _ Hn1) Hs1) as (f2 & E2 & W2).
  destruct (reload_ok self static_header_bytes f2 g0 g1 (mda_size (header bda)))
    as (f3 & f4 & E3 & E4 & W4); [by eapply holds_wrote0|apply writable_reads; by eapply wrote_writable|done|].
  exists f0, (mkBDA (header bda) self), f1, f4. do 2 (split; [done|]). split.
  - unfold reload. rewrite E2, C1, C2. simpl.
    unfold SH.compare_headers. rewrite bool_decide_true by done.
    erewrite ibind_ok by reflexivity. unfold Bda.load.
    erewrite ibind_ok by (erewrite ibind_ok by exact E3; reflexivity). simpl.
    unfold Bda.load_state. simpl. by erewrite ibind_ok by exact E4.
  - eapply wrote_trans; [exact W|]. eapply wrote_trans; eapply wrote_weaken0; eassumption.
Qed.
End properties.

Section examples.
#[local] Existing Instance crc32c_instance.
#[local] Existing Instance hex_instance.
#[local] Existing Instance any_time.

Lemma bda_lifecycle_witness :
  let bda := Bda.new (mkIds 7 8) (MDADataSize_new 0) 2097152 1600000000 in
  ∃ f0 bda' f1 f2,
    Bda.initialize bda blank_device = (Ok tt, f0) ∧
    bda_saves bda [(t1, [1; 2; 3]); (t1, [4]); (t2, [4; 5])] f0 =
      ([Ok tt; Err (Msg "Overwriting newer data"); Ok tt], bda', f1) ∧
    reload f1 = (Ok (Some (bda', Some [4; 5])), f2) ∧
    wrote 0 (8192 + 4 * region_bytes (regions bda)) blank_device f2.
Proof.
  apply (bda_lifecycle (mkIds 7 8) 0 2097152 1600000000 blank_device
           [(t1, [1; 2; 3]); (t1, [4]); (t2, [4; 5])]).
  - lia.
  - split; vm_compute; discriminate.
  - by apply (bool_decide_unpack _).
  - by apply (bool_decide_unpack _).
  - by apply (bool_decide_unpack _).
  - by apply (bool_decide_unpack _).
  - apply blank_healthy.
  - apply (bool_decide_unpack _). vm_compute. exact I.
Defined.
End examples.
