(* ===== verification/Table.v ===== *)
(** * [Table]: items found by UUID and by name

    Models [src/engine/structures.rs], [Table].  The two hash maps are
    [gmap]s; the order in which a hash map is iterated is not specified by the
    code, [iter] fixes one. A mutable reference into the table is the item
    together with the function that writes a new item back. *)
From stdpp Require Import base gmap strings list.
From S2P Require Import Prelude.

Record Table (U T : Type) `{Countable U} : Type := mkTable {
  name_to_uuid : gmap Str U;
  items : gmap U (Str * T) }.
Arguments mkTable {U T _ _} _ _.
Arguments name_to_uuid {U T _ _} _.
Arguments items {U T _ _} _.

Module Tbl.
Section ops.
Context {U T : Type} `{Countable U}.
Implicit Types (self : Table U T) (name : Str) (uuid : U) (item : T).

Definition default : Table U T := mkTable ∅ ∅.

Definition is_empty self : bool := bool_decide (items self = ∅).
Definition len self : nat := size (items self).
Definition iter self : list (Str * U * T) :=
  (λ '(uuid, (name, item)), (name, uuid, item)) <$> map_to_list (items self).

Definition contains_name self name : bool := bool_decide (is_Some (name_to_uuid self !! name)).
Definition contains_uuid self uuid : bool := bool_decide (is_Some (items self !! uuid)).

Definition get_by_name self name : option (U * T) :=
  name_to_uuid self !! name ≫= λ uuid, (λ '(_, item), (uuid, item)) <$> items self !! uuid.

Definition get_by_uuid self uuid : option (Str * T) := items self !! uuid.

Definition get_mut_by_name self name : option (U * T * (T → Table U T)) :=
  match name_to_uuid self !! name with
  | None => None
  | Some uuid =>
      (λ '(n, item), (uuid, item,
         λ item', mkTable (name_to_uuid self) (<[uuid := (n, item')]> (items self))))
      <$> items self !! uuid
  end.

Definition get_mut_by_uuid self uuid : option (Str * T * (T → Table U T)) :=
  (λ '(n, item), (n, item,
     λ item', mkTable (name_to_uuid self) (<[uuid := (n, item')]> (items self))))
  <$> items self !! uuid.

Definition remove_by_name self name : option (U * T) * Table U T :=
  match name_to_uuid self !! name with
  | None => (None, self)
  | Some uuid =>
      ((λ '(_, item), (uuid, item)) <$> items self !! uuid,
       mkTable (delete name (name_to_uuid self)) (delete uuid (items self)))
  end.

Definition remove_by_uuid self uuid : option (Str * T) * Table U T :=
  match items self !! uuid with
  | None => (None, self)
  | Some (name, item) =>
      (Some (name, item), mkTable (delete name (name_to_uuid self)) (delete uuid (items self)))
  end.

Definition insert self name uuid item : res (option (list (Str * U * T)) * Table U T) :=
  let old_uuid := name_to_uuid self !! name in
  let n2u := <[name := uuid]> (name_to_uuid self) in
  let old_pair := items self !! uuid in
  let its := <[uuid := (name, item)]> (items self) in
  match old_uuid, old_pair with
  | Some old_uuid, Some (old_name, old_item) =>
      if bool_decide (old_uuid = uuid) then
        rassert (bool_decide (old_name = name)) "assert_eq!(old_name, name)"
        (Ok (Some [(name, uuid, old_item)], mkTable n2u its))
      else
        rassert (bool_decide (old_name ≠ name)) "assert_ne!(old_name, name)"
        (let? other_uuid := expect (n2u !! old_name) "invariant requires existence" in
         let n2u := delete old_name n2u in
         let? '(other_name, other_item) := expect (its !! old_uuid) "invariant requires existence" in
         let its := delete old_uuid its in
         rassert (bool_decide (other_name = name)) "assert_eq!(other_name, name)"
         (rassert (bool_decide (other_uuid = uuid)) "assert_eq!(other_uuid, uuid)"
          (Ok (Some [(name, old_uuid, other_item); (old_name, uuid, old_item)], mkTable n2u its))))
  | Some old_uuid, None =>
      let? '(other_name, other_item) := expect (its !! old_uuid) "invariant requires existence" in
      let its := delete old_uuid its in
      rassert (bool_decide (other_name = name)) "assert_eq!(other_name, name)"
      (Ok (Some [(name, old_uuid, other_item)], mkTable n2u its))
  | None, Some (old_name, old_item) =>
      let? other_uuid := expect (n2u !! old_name) "invariant requires existence" in
      let n2u := delete old_name n2u in
      rassert (bool_decide (other_uuid = uuid)) "assert_eq!(other_uuid, uuid)"
      (Ok (Some [(old_name, uuid, old_item)], mkTable n2u its))
  | None, None => Ok (None, mkTable n2u its)
  end.
End ops.
End Tbl.

(** ** The invariant: the two maps are inverse to each other *)

Section spec.
Context {U T : Type} `{Countable U}.
Implicit Types (self : Table U T) (name : Str) (uuid : U) (item : T).

Definition table_ok self : Prop :=
  ∀ name uuid, name_to_uuid self !! name = Some uuid ↔ ∃ item, items self !! uuid = Some (name, item).

(** The contents of a table, as a set of triples. *)
Definition entry self name uuid item : Prop := items self !! uuid = Some (name, item).

Lemma table_ok_default : table_ok (Tbl.default : Table U T).
Proof. intros name uuid. simpl. rewrite !lookup_empty. naive_solver. Qed.

Lemma ok_name self name uuid item :
  table_ok self → entry self name uuid item → name_to_uuid self !! name = Some uuid.
Proof. intros Hok He. apply Hok. eauto. Qed.

(** Names are unique. *)
Lemma ok_inj self name uuid uuid' item item' :
  table_ok self → entry self name uuid item → entry self name uuid' item' → uuid = uuid' ∧ item = item'.
Proof.
  intros Hok H1 H2. pose proof (ok_name _ _ _ _ Hok H1). pose proof (ok_name _ _ _ _ Hok H2).
  simplify_eq. unfold entry in *. by simplify_eq.
Qed.

Lemma get_by_name_ok self name uuid item :
  table_ok self → Tbl.get_by_name self name = Some (uuid, item) ↔ entry self name uuid item.
Proof.
  intros Hok. unfold Tbl.get_by_name, entry. split.
  - intros (u & Hn & Hi)%bind_Some. apply fmap_Some in Hi as ([n i] & Hi & [= -> ->]).
    apply Hok in Hn as [? Hn]. congruence.
  - intros He. apply bind_Some. exists uuid. split; [by eapply ok_name|]. by rewrite He.
Qed.

Lemma contains_name_ok self name :
  table_ok self → Tbl.contains_name self name = true ↔ ∃ uuid item, entry self name uuid item.
Proof.
  intros Hok. unfold Tbl.contains_name. rewrite bool_decide_eq_true. split.
  - intros [uuid [item ?]%Hok]. by exists uuid, item.
  - intros (uuid & item & He). exists uuid. by eapply ok_name.
Qed.

(** Removing one entry. *)
Lemma remove_ok self name uuid item :
  table_ok self → entry self name uuid item →
  let self' := mkTable (delete name (name_to_uuid self)) (delete uuid (items self)) : Table U T in
  table_ok self' ∧
  ∀ n u i, entry self' n u i ↔ entry self n u i ∧ u ≠ uuid.
Proof.
  intros Hok He self'. split.
  - intros n u. simpl. destruct (decide (n = name)) as [->|Hn].
    + rewrite lookup_delete_eq. split; [done|]. intros [i Hi].
      apply lookup_delete_Some in Hi as [Hne Hi]. destruct Hne. symmetry. by eapply ok_inj.
    + rewrite lookup_delete_ne by done. pose proof (Hok n u) as Hk. rewrite Hk. split; intros [i Hi]; exists i.
      * rewrite lookup_delete_ne; [done|]. intros ->. unfold entry in He. congruence.
      * by apply lookup_delete_Some in Hi as [_ ?].
  - intros n u i. unfold entry. simpl. rewrite lookup_delete_Some. naive_solver.
Qed.

(** The entries an insertion has to eject: those with the name or the UUID. *)
Definition displaced self name uuid : list (Str * U * T) :=
  match Tbl.get_by_name self name with Some (u, i) => [(name, u, i)] | None => [] end ++
  match items self !! uuid with
  | Some (n, i) => if decide (n = name) then [] else [(n, uuid, i)]
  | None => []
  end.

Lemma displaced_ok self name uuid n u i :
  table_ok self →
  (n, u, i) ∈ displaced self name uuid ↔ entry self n u i ∧ (n = name ∨ u = uuid).
Proof.
  intros Hok. unfold displaced. rewrite elem_of_app.
  assert ((n, u, i) ∈ match Tbl.get_by_name self name with Some (u, i) => [(name, u, i)] | None => [] end
          ↔ entry self n u i ∧ n = name) as ->.
  { pose proof (get_by_name_ok self name) as Hg.
    destruct (Tbl.get_by_name self name) as [[u' i']|] eqn:En.
    - assert (entry self name u' i') as Hu' by by apply Hg. rewrite list_elem_of_singleton. split.
      + intros [= -> -> ->]. done.
      + intros [He ->]. by destruct (ok_inj _ _ _ _ _ _ Hok He Hu') as [-> ->].
    - rewrite elem_of_nil. split; [done|]. intros [He ->]. apply Hg in He; [done|done]. }
  unfold entry. destruct (items self !! uuid) as [[n2 i2]|] eqn:Eu; [destruct (decide (n2 = name))|];
    rewrite ?list_elem_of_singleton, ?elem_of_nil; split;
    intros; destruct_or?; destruct_and?; destruct_or?; simplify_eq; auto.
Qed.

(** The maps after an insertion, entry by entry. *)
Definition insert_maps self self' name uuid item : Prop :=
  (∀ n, name_to_uuid self' !! n =
     if decide (n = name) then Some uuid
     else if decide (name_to_uuid self !! n = Some uuid) then None else name_to_uuid self !! n) ∧
  (∀ u, items self' !! u =
     if decide (u = uuid) then Some (name, item)
     else if decide (name_to_uuid self !! name = Some u) then None else items self !! u).

Lemma insert_maps_entry self self' name uuid item n u i :
  table_ok self → insert_maps self self' name uuid item →
  entry self' n u i ↔
    (n, u, i) = (name, uuid, item) ∨ (entry self n u i ∧ n ≠ name ∧ u ≠ uuid).
Proof.
  intros Hok [_ Hi]. unfold entry. rewrite Hi. destruct (decide (u = uuid)) as [->|Hu]; [naive_solver|].
  destruct (decide (name_to_uuid self !! name = Some u)) as [Hn|Hn].
  - apply Hok in Hn as [i' Hi']. rewrite Hi'. naive_solver.
  - split; [|naive_solver]. intros He. right. split_and!; try done. intros ->.
    apply Hn, Hok. eauto.
Qed.

Lemma insert_maps_ok self self' name uuid item :
  table_ok self → insert_maps self self' name uuid item → table_ok self'.
Proof.
  intros Hok Hm n u. destruct (Hm) as [Hn _]. rewrite Hn.
  change (∃ i, items self' !! u = Some (n, i)) with (∃ i, entry self' n u i).
  setoid_rewrite (λ i, insert_maps_entry self self' name uuid item n u i Hok Hm).
  destruct (decide (n = name)) as [->|Hne]; [naive_solver|].
  destruct (decide (name_to_uuid self !! n = Some uuid)) as [Hu|Hu].
  - apply Hok in Hu as [i' Hi']. split; [done|]. intros [i [?|(He & _ & Hne')]]; [naive_solver|].
    destruct Hne'. by destruct (ok_inj self n u uuid i i' Hok He Hi').
  - split.
    + intros Hl. pose proof Hl as [i Hi]%Hok. exists i. right. split_and!; [done..|congruence].
    + intros [i [?|(He & _)]]; [naive_solver|]. by eapply ok_name.
Qed.

(** Lookups in the maps built by [insert]. *)
Ltac map_cases :=
  repeat match goal with
  | |- context [<[?k := _]> _ !! ?j] =>
      destruct (decide (j = k)) as [->|];
      [rewrite lookup_insert_eq|rewrite lookup_insert_ne by done]
  | |- context [delete ?k _ !! ?j] =>
      destruct (decide (j = k)) as [->|];
      [rewrite lookup_delete_eq|rewrite lookup_delete_ne by done]
  end; repeat case_decide; simplify_eq; try congruence; try done.

Lemma tbl_insert_ok self name uuid item :
  table_ok self →
  ∃ self',
    Tbl.insert self name uuid item =
      Ok (match displaced self name uuid with [] => None | l => Some l end, self') ∧
    insert_maps self self' name uuid item.
Proof.
  intros Hok. unfold Tbl.insert, displaced, Tbl.get_by_name.
  destruct (name_to_uuid self !! name) as [old_uuid|] eqn:En; simpl.
  - destruct (proj1 (Hok _ _) En) as [oi Hoi]. rewrite Hoi. simpl.
    assert (∀ n, name_to_uuid self !! n = Some old_uuid → n = name) as Hinj.
    { intros n [i Hi]%Hok. congruence. }
    destruct (items self !! uuid) as [[old_name old_item]|] eqn:Eu.
    + pose proof (ok_name _ _ _ _ Hok Eu) as Hon.
      assert (∀ n, name_to_uuid self !! n = Some uuid → n = old_name) as Hinj2.
      { intros n [i Hi]%Hok. congruence. }
      case_bool_decide as Hu; [subst old_uuid|assert (old_name ≠ name) by congruence].
      * assert (old_name = name) as -> by congruence. rewrite bool_decide_true, decide_True by done.
        rewrite Eu in Hoi. injection Hoi as ->. eexists. split; [done|]. split; intros k; simpl; map_cases; naive_solver.
      * rewrite bool_decide_true, decide_False by done. simpl.
        rewrite lookup_insert_ne, Hon by done. simpl. rewrite lookup_insert_ne, Hoi by done. simpl.
        rewrite !bool_decide_true by done. eexists. split; [done|].
        split; intros k; simpl; map_cases; naive_solver.
    + assert (∀ n, name_to_uuid self !! n ≠ Some uuid) as Hno by (intros n [? ?]%Hok; congruence).
      assert (old_uuid ≠ uuid) as Hne by congruence.
      rewrite lookup_insert_ne, Hoi by done. simpl. rewrite bool_decide_true by done.
      eexists. split; [done|]. split; intros k; simpl; map_cases; naive_solver.
  - destruct (items self !! uuid) as [[old_name old_item]|] eqn:Eu; simpl.
    + pose proof (ok_name _ _ _ _ Hok Eu) as Hon. assert (old_name ≠ name) by congruence.
      assert (∀ n, name_to_uuid self !! n = Some uuid → n = old_name) as Hinj2.
      { intros n [i Hi]%Hok. congruence. }
      rewrite decide_False by done. rewrite lookup_insert_ne, Hon by done. simpl.
      rewrite bool_decide_true by done. eexists. split; [done|].
      split; intros k; simpl; map_cases; naive_solver.
    + assert (∀ n, name_to_uuid self !! n ≠ Some uuid) as Hno by (intros n [? ?]%Hok; congruence).
      eexists. split; [done|]. split; intros k; simpl; map_cases; naive_solver.
Qed.

Lemma displaced_nodup self name uuid : table_ok self → NoDup (displaced self name uuid).
Proof.
  intros Hok. unfold displaced. destruct (Tbl.get_by_name self name) as [[u i]|]; simpl;
    destruct (items self !! uuid) as [[n2 i2]|]; [destruct (decide (n2 = name))|..]; simpl;
    repeat (apply NoDup_cons; split); try apply NoDup_nil_2; rewrite ?elem_of_nil, ?list_elem_of_singleton;
    try naive_solver.
  destruct (decide (n2 = name)); [apply NoDup_nil_2|apply NoDup_singleton].
Qed.

(** Looking up, by name and by UUID, and removing. *)
Lemma remove_by_uuid_ok self uuid :
  table_ok self →
  let '(r, self') := Tbl.remove_by_uuid self uuid in
  table_ok self' ∧ r = Tbl.get_by_uuid self uuid ∧
  ∀ n u i, entry self' n u i ↔ entry self n u i ∧ u ≠ uuid.
Proof.
  intros Hok. unfold Tbl.remove_by_uuid, Tbl.get_by_uuid.
  destruct (items self !! uuid) as [[name item]|] eqn:E.
  - destruct (remove_ok self name uuid item Hok E) as [??]. by split_and!.
  - split_and!; [done|done|]. intros n u i. split; [|naive_solver]. intros He. split; [done|].
    intros ->. unfold entry in He. congruence.
Qed.

Lemma remove_by_name_ok self name :
  table_ok self →
  let '(r, self') := Tbl.remove_by_name self name in
  table_ok self' ∧ r = Tbl.get_by_name self name ∧
  ∀ n u i, entry self' n u i ↔ entry self n u i ∧ n ≠ name.
Proof.
  intros Hok. unfold Tbl.remove_by_name, Tbl.get_by_name.
  destruct (name_to_uuid self !! name) as [uuid|] eqn:E; simpl.
  - destruct (proj1 (Hok _ _) E) as [item Hi]. rewrite Hi. simpl.
    destruct (remove_ok self name uuid item Hok Hi) as [Hok' He]. split_and!; [done..|].
    intros n u i. rewrite He. split; intros [Hn Hne]; split; try done.
    + intros ->. destruct Hne. by destruct (ok_inj self name u uuid i item Hok Hn Hi).
    + intros ->. unfold entry in Hn. congruence.
  - split_and!; [done..|]. intros n u i. split; [|naive_solver]. intros He. split; [done|].
    intros ->. apply (ok_name _ _ _ _ Hok) in He. congruence.
Qed.

(** Writing through a mutable reference changes that item only. *)
Lemma set_item_ok self name uuid item item' :
  table_ok self → entry self name uuid item →
  let self' := mkTable (name_to_uuid self) (<[uuid := (name, item')]> (items self)) : Table U T in
  table_ok self' ∧
  ∀ n u i, entry self' n u i ↔ (n, u, i) = (name, uuid, item') ∨ (entry self n u i ∧ u ≠ uuid).
Proof.
  intros Hok He self'. unfold entry in *. split.
  - intros n u. simpl. rewrite (Hok n u). destruct (decide (u = uuid)) as [->|].
    + rewrite lookup_insert_eq, He. naive_solver.
    + by rewrite lookup_insert_ne.
  - intros n u i. simpl. rewrite lookup_insert_Some. naive_solver.
Qed.
End spec.

(** ** Properties *)

Section properties.
Context {U T : Type} `{Countable U}.
Implicit Types (self : Table U T) (name : Str) (uuid : U) (item : T).

(** Inserting into a table whose two maps are inverse to each other never trips an
    assertion; the maps stay inverse; the new contents are the new entry and all old entries
    with another name and another UUID; the entries returned are exactly the old
    ones with the same name or the same UUID, without repetition, the one displaced by name
    first. *)
Theorem table_insert_spec self name uuid item :
  table_ok self →
  ∃ ejected self',
    Tbl.insert self name uuid item = Ok (ejected, self') ∧ table_ok self' ∧
    (∀ n u i, entry self' n u i ↔
       (n, u, i) = (name, uuid, item) ∨ (entry self n u i ∧ n ≠ name ∧ u ≠ uuid)) ∧
    (∀ n u i, (n, u, i) ∈ default [] ejected ↔ entry self n u i ∧ (n = name ∨ u = uuid)) ∧
    NoDup (default [] ejected) ∧ ejected ≠ Some [] ∧
    (∀ n u i, head (default [] ejected) = Some (n, u, i) → n ≠ name → ¬ Tbl.contains_name self name).
Proof.
  intros Hok. destruct (tbl_insert_ok self name uuid item Hok) as (self' & E & Hm).
  eexists _, self'. split; [exact E|]. split; [by eapply insert_maps_ok|].
  split; [intros n u i; by apply insert_maps_entry|].
  assert (default [] match displaced self name uuid with [] => None | l => Some l end
          = displaced self name uuid) as -> by by destruct (displaced self name uuid).
  split; [intros n u i; by apply displaced_ok|]. split; [by apply displaced_nodup|].
  split; [by destruct (displaced self name uuid)|].
  intros n u i Hh Hne Hc%Is_true_true%contains_name_ok; [|done].
  destruct Hc as (u0 & i0 & He%get_by_name_ok); [|done].
  unfold displaced in Hh. rewrite He in Hh. simpl in Hh. congruence.
Qed.

(** On such a table lookups by name and by UUID agree, and the two removals return what
    the lookup returns, take out exactly that entry and keep the maps inverse. *)
Theorem table_remove_spec self name uuid :
  table_ok self →
  (∀ u i, Tbl.get_by_name self name = Some (u, i) ↔ Tbl.get_by_uuid self u = Some (name, i)) ∧
  (let '(r, self') := Tbl.remove_by_uuid self uuid in
   table_ok self' ∧ r = Tbl.get_by_uuid self uuid ∧
   ∀ n u i, entry self' n u i ↔ entry self n u i ∧ u ≠ uuid) ∧
  (let '(r, self') := Tbl.remove_by_name self name in
   table_ok self' ∧ r = Tbl.get_by_name self name ∧
   ∀ n u i, entry self' n u i ↔ entry self n u i ∧ n ≠ name).
Proof.
  intros Hok. split; [intros u i; by apply get_by_name_ok|].
  split; [by apply remove_by_uuid_ok|by apply remove_by_name_ok].
Qed.
End properties.

(** ** Witnesses *)

Definition ex_table : Table Z nat :=
  mkTable {[str "a" := 1; str "b" := 2]} {[1 := (str "a", 10%nat); 2 := (str "b", 20%nat)]}.

Lemma ex_table_ok : table_ok ex_table.
Proof.
  intros n u. unfold ex_table. simpl. rewrite lookup_insert_Some, lookup_singleton_Some.
  setoid_rewrite lookup_insert_Some. setoid_rewrite lookup_singleton_Some. naive_solver.
Qed.

Lemma table_insert_spec_witness :
  Tbl.insert ex_table (str "a") 2 30%nat =
    Ok (Some [(str "a", 1, 10%nat); (str "b", 2, 20%nat)], mkTable {[str "a" := 2]} {[2 := (str "a", 30%nat)]}) ∧
  ∃ ejected self',
    Tbl.insert ex_table (str "a") 2 30%nat = Ok (ejected, self') ∧ table_ok self'.
Proof.
  split; [vm_compute; reflexivity|].
  destruct (table_insert_spec ex_table (str "a") 2 30%nat ex_table_ok) as (e & t & ? & ? & _). eauto.
Defined.

Lemma table_remove_spec_witness :
  Tbl.remove_by_name ex_table (str "b") = (Some (2, 20%nat), mkTable {[str "a" := 1]} {[1 := (str "a", 10%nat)]}) ∧
  ∀ i, Tbl.get_by_name ex_table (str "b") = Some (2, i) ↔ Tbl.get_by_uuid ex_table 2 = Some (str "b", i).
Proof.
  split; [vm_compute; reflexivity|]. intros i. apply (table_remove_spec ex_table (str "b") 2 ex_table_ok).
Defined.
