(* ===== verification/Actions.v ===== *)
(** * Results of engine actions

    Models [src/engine/types/actions.rs]: the result types of the engine's
    idempotent operations, the trait [EngineAction] as a class whose law ties
    its two methods together, and the texts reported to users.  The textual
    form of a UUID is that of the [uuid] crate, the parameter [show_uuid]. *)
From stdpp Require Import base list strings.
From S2P Require Import Prelude.

Inductive Key := mkKey.
Inductive Clevis := mkClevis.
Inductive RegenAction := mkRegenAction.

Class EngineAction (A Return : Type) : Type := {
  is_changed : A → bool;
  changed : A → option Return;
  changed_law : ∀ a, is_changed a = true ↔ is_Some (changed a)
}.

Inductive CreateAction (T : Type) := CAIdentity | CACreated (t : T).
Arguments CAIdentity {T}.
Arguments CACreated {T} t.

Inductive MappingCreateAction (T : Type) := MCCreated (t : T) | MCIdentity | MCValueChanged (t : T).
Arguments MCCreated {T} t.
Arguments MCIdentity {T}.
Arguments MCValueChanged {T} t.

Inductive MappingDeleteAction (T : Type) := MDDeleted (t : T) | MDIdentity.
Arguments MDDeleted {T} t.
Arguments MDIdentity {T}.

Record SetUnlockAction (T : Type) := mkSetUnlock { unlocked : list T }.
Arguments mkSetUnlock {T} _.
Arguments unlocked {T} _.

Record SetCreateAction (T : Type) := mkSetCreate { sc_changed : list T }.
Arguments mkSetCreate {T} _.
Arguments sc_changed {T} _.

Inductive RenameAction (T : Type) := RAIdentity | RARenamed (t : T) | RANoSource.
Arguments RAIdentity {T}.
Arguments RARenamed {T} t.
Arguments RANoSource {T}.

Inductive DeleteAction (T : Type) := DAIdentity | DADeleted (t : T).
Arguments DAIdentity {T}.
Arguments DADeleted {T} t.

Record SetDeleteAction (T : Type) := mkSetDelete { sd_changed : list T }.
Arguments mkSetDelete {T} _.
Arguments sd_changed {T} _.

(** [Vec::is_empty] of the changed things, and [None] when there are none *)
Definition set_is_changed {T} (l : list T) : bool := match l with [] => false | _ => true end.
Definition set_changed {T} (l : list T) : option (list T) := match l with [] => None | _ => Some l end.

(** The class's law by cases on the action. *)
Ltac action_law := let a := fresh in intros a; destruct a as [| |] || destruct a as [|] || destruct a as [[|]];
  simpl; split; intros Hc; try done; try (by eexists); by destruct Hc.

#[global, refine] Instance CreateAction_action T : EngineAction (CreateAction T) T := {|
  is_changed a := match a with CAIdentity => false | _ => true end;
  changed a := match a with CACreated t => Some t | _ => None end; changed_law := _ |}.
Proof. action_law. Defined.

#[global, refine] Instance MappingCreateAction_action T : EngineAction (MappingCreateAction T) T := {|
  is_changed a := match a with MCCreated _ | MCValueChanged _ => true | _ => false end;
  changed a := match a with MCCreated t | MCValueChanged t => Some t | _ => None end; changed_law := _ |}.
Proof. action_law. Defined.

#[global, refine] Instance MappingDeleteAction_action T : EngineAction (MappingDeleteAction T) T := {|
  is_changed a := match a with MDDeleted _ => true | _ => false end;
  changed a := match a with MDDeleted t => Some t | _ => None end; changed_law := _ |}.
Proof. action_law. Defined.

#[global, refine] Instance SetUnlockAction_action T : EngineAction (SetUnlockAction T) (list T) := {|
  is_changed a := set_is_changed (unlocked a); changed a := set_changed (unlocked a); changed_law := _ |}.
Proof. action_law. Defined.

#[global, refine] Instance SetCreateAction_action T : EngineAction (SetCreateAction T) (list T) := {|
  is_changed a := set_is_changed (sc_changed a); changed a := set_changed (sc_changed a); changed_law := _ |}.
Proof. action_law. Defined.

#[global, refine] Instance RenameAction_action T : EngineAction (RenameAction T) T := {|
  is_changed a := match a with RARenamed _ => true | _ => false end;
  changed a := match a with RARenamed t => Some t | _ => None end; changed_law := _ |}.
Proof. action_law. Defined.

#[global, refine] Instance DeleteAction_action T : EngineAction (DeleteAction T) T := {|
  is_changed a := match a with DADeleted _ => true | _ => false end;
  changed a := match a with DADeleted t => Some t | _ => None end; changed_law := _ |}.
Proof. action_law. Defined.

#[global, refine] Instance SetDeleteAction_action T : EngineAction (SetDeleteAction T) (list T) := {|
  is_changed a := set_is_changed (sd_changed a); changed a := set_changed (sd_changed a); changed_law := _ |}.
Proof. action_law. Defined.

(** ** Texts ([impl Display]) *)

Section display.
Variable show_uuid : Z → string.
Local Open Scope string_scope.

(** [Vec::join] *)
Fixpoint join (sep : string) (l : list string) : string :=
  match l with [] => "" | [s] => s | s :: r => s +:+ sep +:+ join sep r end.

Definition create_pool_display (a : CreateAction Z) : string :=
  match a with
  | CACreated uuid => "Pool with UUID " +:+ show_uuid uuid +:+ " was created successfully"
  | CAIdentity => "The pool requested for creation is already present; no action taken"
  end.

Definition create_clevis_display (a : CreateAction Clevis) : string :=
  match a with
  | CACreated _ => "Pool successfully bound to an unlocking mechanism using clevis"
  | CAIdentity => "The pool requested for clevis binding is already bound; no action taken"
  end.

Definition create_key_display (a : CreateAction Key) : string :=
  match a with
  | CACreated _ => "Pool successfully bound to a passphrase in the kernel keyring"
  | CAIdentity => "The pool requested for keyring binding is already bound; no action taken"
  end.

(** the filesystem is given by its UUID and the text of its device node *)
Definition create_snapshot_display (a : CreateAction (Z * string)) : string :=
  match a with
  | CACreated (uuid, devnode) =>
      "Snapshot with UUID " +:+ show_uuid uuid +:+
      " was created successfully from filesystem with path " +:+ devnode
  | CAIdentity => "The snapshot requested for creation is already present; no action taken"
  end.

Definition mapping_create_display (a : MappingCreateAction Key) : string :=
  match a with
  | MCCreated _ => "Set a new key successfully"
  | MCIdentity => "The requested key already exists; no action was taken"
  | MCValueChanged _ => "An existing key was updated with a new value successfully"
  end.

Definition mapping_delete_display (a : MappingDeleteAction Key) : string :=
  match a with
  | MDDeleted _ => "A key was deleted successfully"
  | MDIdentity => "The key requested for deletion is already absent; no action taken"
  end.

Definition unlock_display (a : SetUnlockAction Z) : string :=
  match unlocked a with
  | [] => "No new devices were able to be unlocked; no action was taken"
  | l => "The devices with UUIDs " +:+ join ", " (show_uuid <$> l) +:+ " were successfully unlocked"
  end.

Definition create_filesystems_display (a : SetCreateAction (string * Z)) : string :=
  match sc_changed a with
  | [] => "The requested filesystems already exist; no action taken"
  | l => "The following filesystems " +:+
         join "; " ((λ '(n, u), "name: " +:+ n +:+ ", UUID: " +:+ show_uuid u) <$> l) +:+
         " were successfully created"
  end.

Definition create_devices_display (a : SetCreateAction Z) : string :=
  match sc_changed a with
  | [] => "The requested filesystems already exist; no action taken"
  | l => "The following devices with UUIDs " +:+ join ", " (show_uuid <$> l) +:+
         " were successfully added to a pool"
  end.

Definition rename_device_display (a : RenameAction Z) : string :=
  match a with
  | RAIdentity => "Device is already named the target name; no action taken"
  | RARenamed uuid => "Device with UUID " +:+ show_uuid uuid +:+ " was successfully renamed"
  | RANoSource => "The device requested to be renamed does not exist"
  end.

Definition rename_filesystem_display (a : RenameAction Z) : string :=
  match a with
  | RAIdentity => "Filesystem is already named the target name; no action taken"
  | RARenamed uuid => "Filesystem with UUID " +:+ show_uuid uuid +:+ " was successfully renamed"
  | RANoSource => "The filesystem requested to be renamed does not exist"
  end.

Definition rename_pool_display (a : RenameAction Z) : string :=
  match a with
  | RAIdentity => "Pool is already named the target name; no action taken"
  | RARenamed uuid => "Pool with UUID " +:+ show_uuid uuid +:+ " was successfully renamed"
  | RANoSource => "The pool requested to be renamed does not exist"
  end.

Definition rename_key_display (a : RenameAction Key) : string :=
  match a with
  | RAIdentity => "Requested passphrase in change passphrase operation was the same as the original"
  | RARenamed _ => "Passphrase was successfully changed"
  | RANoSource => "Could not change the passphrase as no passphrase is currently set"
  end.

Definition rename_clevis_display (a : RenameAction Clevis) : string :=
  match a with
  | RAIdentity => "Clevis bindings regeneration resulted in no changes to the metadata"
  | RARenamed _ => "Clevis bindings were successfully regenerated"
  | RANoSource => "Could not change the Clevis bindings as this pool is not bound to Clevis"
  end.

Definition delete_pool_display (a : DeleteAction Z) : string :=
  match a with
  | DADeleted uuid => "Pool with UUID " +:+ show_uuid uuid +:+ " was deleted successfully"
  | DAIdentity => "The pool requested for deletion is already absent; no action taken"
  end.

Definition delete_clevis_display (a : DeleteAction Clevis) : string :=
  match a with
  | DADeleted _ => "A clevis binding was successfully removed from a pool"
  | DAIdentity => "The clevis binding requested for removal is already absent; no action taken"
  end.

Definition delete_key_display (a : DeleteAction Key) : string :=
  match a with
  | DADeleted _ => "Bindings to a passphrase in the kernel keyring were removed successfully"
  | DAIdentity => "The keyring bindings requested for removal are already absent; no action taken"
  end.

Definition delete_filesystems_display (a : SetDeleteAction Z) : string :=
  match sd_changed a with
  | [] => "The requested filesystems are already absent; no action taken"
  | l => "Filesystems with UUIDs " +:+ join ", " (show_uuid <$> l) +:+ " were successfully deleted"
  end.

Definition regen_display (a : RegenAction) : string :=
  "The Clevis bindings were successfully regenerated using the same configuration that was originally supplied".

(** A text that tells a changed state from an unchanged one. *)
Definition tells {A R} `{EngineAction A R} (display : A → string) : Prop :=
  ∀ a b, display a = display b → is_changed a = is_changed b.

Ltac tells := let a := fresh in let b := fresh in
  intros a b; repeat match goal with
  | x : CreateAction _ |- _ => destruct x as [|[]] || destruct x
  | x : MappingCreateAction _ |- _ => destruct x
  | x : MappingDeleteAction _ |- _ => destruct x
  | x : SetUnlockAction _ |- _ => destruct x as [[|]]
  | x : SetCreateAction _ |- _ => destruct x as [[|]]
  | x : SetDeleteAction _ |- _ => destruct x as [[|]]
  | x : RenameAction _ |- _ => destruct x
  | x : DeleteAction _ |- _ => destruct x
  end; simpl; intros Heq; first [reflexivity | discriminate Heq].

(** Whatever the form of UUIDs and device nodes, the text reported for an action tells
    whether the action changed anything: two results of the same operation
    with the same text agree on it. *)
Theorem display_tells_changes :
  tells create_pool_display ∧ tells create_clevis_display ∧ tells create_key_display ∧
  tells create_snapshot_display ∧ tells mapping_create_display ∧ tells mapping_delete_display ∧
  tells unlock_display ∧ tells create_filesystems_display ∧ tells create_devices_display ∧
  tells rename_device_display ∧ tells rename_filesystem_display ∧ tells rename_pool_display ∧
  tells rename_key_display ∧ tells rename_clevis_display ∧ tells delete_pool_display ∧
  tells delete_clevis_display ∧ tells delete_key_display ∧ tells delete_filesystems_display.
Proof. repeat (split; [tells|]). tells. Qed.
End display.
