(* ===== verification/Shared.v ===== *)
(** * Checks shared by the engines

    Models [src/engine/shared.rs], [src/engine/macros.rs] (the rename
    preconditions, the redundancy code and the error texts) and the types of
    [src/engine/types/keys.rs] and [src/engine/types/mod.rs] they use.  Strings
    and paths are lists of Unicode scalar values. *)
From stdpp Require Import base list gmap sets strings.
From Stdlib Require Import ZArith Lia.
From S2P Require Import Prelude Disk Json Table Actions.

(** ** Types *)

Inductive BlockDevTier := Data | Cache.
#[global] Instance BlockDevTier_eq_dec : EqDecision BlockDevTier.
Proof. solve_decision. Defined.

Inductive Redundancy := NONE.

Inductive UnlockMethod := UMClevis | UMKeyring.

Definition UnlockMethod_try_from (s : Str) : res UnlockMethod :=
  if bool_decide (s = str "keyring") then Ok UMKeyring
  else if bool_decide (s = str "clevis") then Ok UMClevis
  else Err (Msg "is an invalid unlock method").

(** [KeyDescription]; built only by [try_from] *)
Definition KeyDescription : Type := Str.

Definition SEMICOLON : Z := 59.

Definition KeyDescription_try_from (s : Str) : res KeyDescription :=
  if bool_decide (SEMICOLON ∈ s) then Err (Msg "Key description contains a ';'") else Ok s.

Record EncryptionInfo : Type := mkEnc {
  key_description : option KeyDescription;
  clevis_info : option (Str * Value) }.

#[global] Instance EncryptionInfo_eq_dec : EqDecision EncryptionInfo.
Proof. solve_decision. Defined.

Definition is_some {A} (o : option A) : bool := match o with Some _ => true | None => false end.

Definition EncryptionInfo_is_encrypted (self : EncryptionInfo) : bool :=
  is_some (key_description self) || is_some (clevis_info self).

Definition EncryptionInfo_default : EncryptionInfo := mkEnc None None.

(** ** Names *)

(** bytes of a character in UTF-8 *)
Definition len_utf8 (c : Z) : Z :=
  if c <? 0x80 then 1 else if c <? 0x800 then 2 else if c <? 0x10000 then 3 else 4.

(** [str::len] *)
Definition str_len (s : Str) : Z := Zsum (len_utf8 <$> s).

(** [char::is_whitespace]: the Unicode property White_Space *)
Definition is_whitespace (c : Z) : bool :=
  within 0x9 0xd c || (c =? 0x20) || (c =? 0x85) || (c =? 0xa0) || (c =? 0x1680) ||
  within 0x2000 0x200a c || (c =? 0x2028) || (c =? 0x2029) || (c =? 0x202f) || (c =? 0x205f) ||
  (c =? 0x3000).

(** [char::is_control]: the Unicode category Cc *)
Definition is_control (c : Z) : bool := within 0 0x1f c || within 0x7f 0x9f c.

Fixpoint trim_start (s : Str) : Str :=
  match s with
  | [] => []
  | c :: r => if is_whitespace c then trim_start r else s
  end.

(** [str::trim] *)
Definition trim (s : Str) : Str := reverse (trim_start (reverse (trim_start s))).

(** The characters [[[:ascii:]&&[^0-9A-Za-z#+-.:=@_/]]] matches; [+-.] is a range. *)
Definition udev_disallowed (c : Z) : bool :=
  within 0 0x7f c &&
  negb (within 0x30 0x39 c || within 0x41 0x5a c || within 0x61 0x7a c || (c =? 0x23) ||
        within 0x2b 0x2e c || (c =? 0x3a) || (c =? 0x3d) || (c =? 0x40) || (c =? 0x5f) || (c =? 0x2f)).

Definition SLASH : Z := 0x2f.
Definition DOT : Z := 0x2e.

(** [Path::is_absolute] *)
Definition is_absolute (p : Str) : bool :=
  match p with c :: _ => c =? SLASH | [] => false end.

(** the pieces between slashes *)
Fixpoint split_slash (p : Str) : list Str :=
  match p with
  | [] => [[]]
  | c :: r =>
      if c =? SLASH then [] :: split_slash r
      else match split_slash r with
           | piece :: rest => (c :: piece) :: rest
           | [] => [[c]]
           end
  end.

(** pieces that are a component wherever they stand *)
Definition normal_piece (piece : Str) : bool :=
  negb (bool_decide (piece = [])) && negb (bool_decide (piece = [DOT])).

(** [Path::components().count()]: the root, a leading [.], and the other pieces that
    are neither empty nor [.] *)
Definition components_count (p : Str) : nat :=
  if is_absolute p then S (length (filter (λ x, normal_piece x = true) (split_slash p)))
  else match split_slash p with
       | [] => O
       | first :: rest =>
           ((if bool_decide (first = []) then 0 else 1) +
            length (filter (λ x, normal_piece x = true) rest))%nat
       end.

Definition validate_name (name : Str) : res unit :=
  if bool_decide (0 ∈ name) then Err (Msg "Name contains NULL characters")
  else if bool_decide (name = str ".") || bool_decide (name = str "..") then
    Err (Msg "Name is . or ..")
  else if 255 <? str_len name then Err (Msg "Name has more than 255 bytes")
  else if negb (str_len name =? str_len (trim name)) then
    Err (Msg "Name contains leading or trailing space")
  else if existsb is_control name then Err (Msg "Name contains control characters")
  else if existsb udev_disallowed name then
    Err (Msg "Name contains characters not allowed in udev symlinks")
  else if negb (components_count name =? 1)%nat then
    Err (Msg "Name is a path with 0 or more than 1 components")
  else if is_absolute name then Err (Msg "Name is an absolute path")
  else Ok tt.

Definition validate_paths (paths : list Str) : res unit :=
  let non_absolute_paths := filter (λ p, is_absolute p = false) paths in
  match non_absolute_paths with
  | [] => Ok tt
  | _ => Err (Msg "Paths are not absolute")
  end.

(** ** Idempotency *)

(** [existing]: the tier and the device node of each block device of the pool *)
Definition create_pool_idempotent_or_err (existing : list (BlockDevTier * Str)) (pool_name : Str)
    (blockdev_paths : list Str) : res (CreateAction Z) :=
  let input_devices : gset Str := list_to_set blockdev_paths in
  let existing_paths : gset Str :=
    list_to_set (omap (λ '(tier, p), if decide (tier = Data) then Some p else None) existing) in
  if decide (input_devices = existing_paths) then Ok CAIdentity
  else Err (Msg "There was a difference in the blockdevs associated with the existing pool").

Definition init_cache_idempotent_or_err (blockdev_paths existing : list Str)
    : res (SetCreateAction Z) :=
  let input_devices : gset Str := list_to_set blockdev_paths in
  let existing_devices : gset Str := list_to_set existing in
  if decide (input_devices = existing_devices) then Ok (mkSetCreate [])
  else Err (Msg "The input requests initialization of a cache with different block devices").

(** ** Macros *)

(** [calculate_redundancy!] *)
Definition calculate_redundancy (redundancy : option Z) : res Redundancy :=
  match redundancy with
  | None | Some 0 => Ok NONE
  | Some _ => Err (Msg "code does not correspond to any redundancy")
  end.

(** [rename_pre_idem!]: [inl] is an early return, [inr] the old name *)
Definition rename_pre_idem {T} (s : Table Z T) (uuid : Z) (new_name : Str)
    : res (RenameAction Z) + Str :=
  match Tbl.get_by_uuid s uuid with
  | None => inl (Ok RANoSource)
  | Some (old_name, _) =>
      if bool_decide (old_name = new_name) then inl (Ok RAIdentity)
      else if Tbl.contains_name s new_name then inl (Err (Msg "new_name"))
      else inr old_name
  end.

(** ** Reading a key ([set_key_shared])

    [read] is the outcome of reading into a buffer of [MAX_STRATIS_PASS_SIZE] bytes
    (the bytes read), [poll] the outcome of polling for more (the number of events). *)
Definition MAX_STRATIS_PASS_SIZE : Z := 512 / 8.

Definition set_key_shared (read : res (list Z)) (poll : res Z) : res (list Z) :=
  let? memory := read in
  if Z.of_nat (length memory) =? MAX_STRATIS_PASS_SIZE then
    let? num_events := poll in
    if 0 <? num_events then Err (Msg "Provided key exceeded maximum allow length")
    else Ok memory
  else Ok memory.

(** ** Which names are accepted *)

(** [first/piece/piece]... *)
Definition slash_join (first : Str) (rest : list Str) : Str :=
  first ++ foldr (λ piece acc, SLASH :: piece ++ acc) [] rest.

Lemma split_slash_ne p : split_slash p ≠ [].
Proof. destruct p as [|c p]; simpl; [done|]. destruct (c =? SLASH); [done|]. by destruct (split_slash p). Qed.

Lemma split_slash_spec p first rest :
  split_slash p = first :: rest →
  p = slash_join first rest ∧ Forall (λ x, SLASH ∉ x) (first :: rest).
Proof.
  revert first rest. induction p as [|c p IH]; intros first rest; simpl.
  - intros [= <- <-]. split; [done|]. repeat constructor. apply not_elem_of_nil.
  - destruct (split_slash p) as [|f r] eqn:E; [by apply split_slash_ne in E|].
    destruct (IH f r eq_refl) as [-> Hall]. destruct (Z.eqb_spec c SLASH) as [->|Hc].
    + intros [= <- <-]. split; [done|]. constructor; [apply not_elem_of_nil|done].
    + intros [= <- <-]. split; [done|]. apply Forall_cons in Hall as [? ?].
      constructor; [|done]. apply not_elem_of_cons. split; [congruence|done].
Qed.

Lemma split_slash_join first rest :
  Forall (λ x, SLASH ∉ x) (first :: rest) → split_slash (slash_join first rest) = first :: rest.
Proof.
  unfold slash_join. revert first. induction rest as [|x rest IH]; intros first [Hf Hr]%Forall_cons; simpl.
  - rewrite app_nil_r. induction first as [|c first IHf]; [done|]. simpl.
    apply not_elem_of_cons in Hf as [??]. destruct (Z.eqb_spec c SLASH); [congruence|].
    by rewrite IHf.
  - induction first as [|c first IHf]; simpl.
    + by rewrite (IH x Hr).
    + apply not_elem_of_cons in Hf as [??]. destruct (Z.eqb_spec c SLASH); [congruence|].
      by rewrite IHf.
Qed.

(** A relative path has one component exactly if only empty pieces and dots follow it. *)
Definition single_component (n : Str) : Prop :=
  ∃ first rest, n = slash_join first rest ∧ first ≠ [] ∧ SLASH ∉ first ∧
    Forall (λ x, x = [] ∨ x = [DOT]) rest.

Lemma components_one n :
  components_count n = 1%nat ∧ is_absolute n = false ↔ single_component n.
Proof.
  unfold components_count, single_component. split.
  - intros [Hc Ha]. rewrite Ha in Hc. destruct (split_slash n) as [|first rest] eqn:E; [done|].
    apply split_slash_spec in E as [-> [Hf Hr]%Forall_cons].
    assert (first ≠ []) as Hne.
    { intros ->. destruct rest as [|x rest]; [simpl in Hc; lia|]. discriminate Ha. }
    exists first, rest. split_and!; try done. rewrite bool_decide_false in Hc by done. simpl in Hc.
    assert (filter (λ x, normal_piece x = true) rest = []) as Hfil.
    { destruct (filter _ rest); [done|simpl in Hc; lia]. }
    apply Forall_forall. intros x Hx.
    assert (normal_piece x ≠ true) as Hn.
    { intros Hn. assert (x ∈ filter (λ x, normal_piece x = true) rest) as Hin
        by by apply list_elem_of_filter. rewrite Hfil in Hin. by apply elem_of_nil in Hin. }
    unfold normal_piece in Hn. do 2 case_bool_decide; simpl in Hn; auto; done.
  - intros (first & rest & -> & Hne & Hf & Hr).
    assert (is_absolute (slash_join first rest) = false) as Ha.
    { destruct first as [|c first]; [done|]. simpl. apply not_elem_of_cons in Hf as [??].
      apply Z.eqb_neq. congruence. }
    split; [|done]. rewrite Ha, split_slash_join.
    + rewrite bool_decide_false by done.
      assert (filter (λ x, normal_piece x = true) rest = []) as ->; [|done].
      clear -Hr. induction Hr as [|x rest Hx _ IH]; [done|].
      rewrite filter_cons_False; [done|]. by destruct Hx as [-> | ->].
    + constructor; [done|]. eapply Forall_impl; [exact Hr|]. intros x [-> | ->].
      * apply not_elem_of_nil. * intros Hin%list_elem_of_singleton. done.
Qed.

Lemma len_utf8_pos c : 1 ≤ len_utf8 c.
Proof. unfold len_utf8. repeat zif; lia. Qed.

Lemma str_len_app s t : str_len (s ++ t) = str_len s + str_len t.
Proof. unfold str_len. by rewrite fmap_app, Zsum_app. Qed.

Lemma str_len_pos s : s ≠ [] → 1 ≤ str_len s.
Proof.
  intros Hs. destruct s as [|c s]; [done|].
  change (str_len (c :: s)) with (len_utf8 c + str_len s). pose proof (len_utf8_pos c).
  assert (0 ≤ str_len s); [|lia]. apply Zsum_nonneg, Forall_fmap, Forall_true.
  intros x. pose proof (len_utf8_pos x). simpl. lia.
Qed.

Lemma str_len_reverse s : str_len (reverse s) = str_len s.
Proof.
  induction s as [|c s IH]; [done|]. rewrite reverse_cons, str_len_app, IH.
  change (c :: s) with ([c] ++ s). rewrite str_len_app. lia.
Qed.

Lemma trim_start_split s : ∃ w, s = w ++ trim_start s.
Proof.
  induction s as [|c s [w Hw]]; [by exists []|]. simpl. destruct (is_whitespace c); [|by exists []].
  exists (c :: w). simpl. by rewrite <- Hw.
Qed.

Lemma trim_start_fix s : trim_start s = s ↔ ∀ c, head s = Some c → is_whitespace c = false.
Proof.
  destruct s as [|c s]; simpl; [naive_solver|]. destruct (is_whitespace c) eqn:E; [|naive_solver].
  split; [|intros Hc; specialize (Hc c eq_refl); congruence]. intros Heq.
  destruct (trim_start_split s) as [w Hw]. rewrite Heq in Hw.
  apply (f_equal length) in Hw. rewrite length_app in Hw. simpl in Hw. lia.
Qed.

Lemma trim_start_len s :
  str_len (trim_start s) ≤ str_len s ∧ (str_len (trim_start s) = str_len s → trim_start s = s).
Proof.
  destruct (trim_start_split s) as [[|x w] Hw]; [simpl in Hw; rewrite <- Hw; done|].
  pose proof (str_len_pos (x :: w) ltac:(done)) as Hp.
  apply (f_equal str_len) in Hw. rewrite str_len_app in Hw. split; [lia|]. intros; lia.
Qed.

(** [trim] keeps the length exactly if there is nothing to trim at either end. *)
Lemma trim_len s :
  str_len s = str_len (trim s) ↔
  ∀ c, head s = Some c ∨ last s = Some c → is_whitespace c = false.
Proof.
  unfold trim. rewrite str_len_reverse.
  destruct (trim_start_len s) as [H1 I1].
  destruct (trim_start_len (reverse (trim_start s))) as [H2 I2].
  rewrite str_len_reverse in H2, I2. split.
  - intros E. assert (trim_start s = s) as Es by (apply I1; lia). rewrite Es in *.
    assert (trim_start (reverse s) = reverse s) as Er by (apply I2; lia).
    rewrite trim_start_fix in Es, Er. rewrite head_reverse in Er. naive_solver.
  - intros Hc. assert (trim_start s = s) as Es by (apply trim_start_fix; naive_solver).
    rewrite Es. assert (trim_start (reverse s) = reverse s) as ->.
    { apply trim_start_fix. rewrite head_reverse. naive_solver. }
    by rewrite str_len_reverse.
Qed.

Lemma existsb_false {A} (f : A → bool) l : existsb f l = false ↔ Forall (λ x, f x = false) l.
Proof.
  induction l as [|x l IH]; simpl; [done|]. rewrite orb_false_iff, IH, Forall_cons. done.
Qed.

(** A name is accepted as a pool or filesystem name exactly if it has at most 255 bytes,
    does not start or end with white space, holds no NUL, no control character and no
    ASCII character that udev would not allow in a symlink, is not [.] or [..], and is
    a relative path of one component. *)
Theorem validate_name_spec n :
  validate_name n = Ok tt ↔
  single_component n ∧ n ≠ str "." ∧ n ≠ str ".." ∧ str_len n ≤ 255 ∧
  (∀ c, head n = Some c ∨ last n = Some c → is_whitespace c = false) ∧
  Forall (λ c, c ≠ 0 ∧ is_control c = false ∧ udev_disallowed c = false) n.
Proof.
  rewrite <- components_one, <- trim_len. unfold validate_name. rewrite !Forall_and, <- !existsb_false.
  assert (Forall (λ c, c ≠ 0) n ↔ 0 ∉ n) as ->.
  { rewrite Forall_forall. split; [|naive_solver]. intros Hf Hin. by destruct (Hf 0). }
  destruct (bool_decide_reflect (0 ∈ n)), (bool_decide_reflect (n = str ".")),
    (bool_decide_reflect (n = str "..")); simpl; try naive_solver.
  destruct (Z.ltb_spec 255 (str_len n)); [split; [done|lia]|].
  destruct (Z.eqb_spec (str_len n) (str_len (trim n))); simpl; [|naive_solver].
  destruct (existsb is_control n); [naive_solver|].
  destruct (existsb udev_disallowed n); [naive_solver|].
  destruct (Nat.eqb_spec (components_count n) 1); simpl; [|naive_solver].
  destruct (is_absolute n); naive_solver.
Qed.

(** The test for [.] and [..] looks at the whole name, the test for a single component ignores
    trailing slashes: names that denote the current or the parent directory pass both. *)
Lemma validate_name_parent : validate_name (str "../") = Ok tt ∧ validate_name (str "./") = Ok tt ∧
  validate_name (str "pool/") = Ok tt.
Proof. vm_compute. done. Qed.

(** The examples of the test suite. *)
Example validate_name_examples :
  (λ s, is_ok (validate_name (str s))) <$>
    ["./some"; "../../root"; "/"; "./foo/bar.txt"; "."; ".."; "/dev/sdb"; ""; " leading_space";
     "trailing_space "; "exclamat!on"; "dollar$ign"; "*< ? >"; "..."; "ok.name";
     "ok name with spaces"; "\\"; "ok_name"]%string =
  [false; false; false; false; false; false; false; false; false;
   false; false; false; false; true; true; false; false; true].
Proof. vm_compute. reflexivity. Qed.

Lemma validate_paths_ok paths : validate_paths paths = Ok tt ↔ Forall (λ p, is_absolute p = true) paths.
Proof.
  unfold validate_paths. induction paths as [|p paths IH]; [done|].
  rewrite filter_cons, Forall_cons. destruct (decide (is_absolute p = false)) as [Hp|Hp].
  - rewrite Hp. naive_solver.
  - rewrite IH. destruct (is_absolute p); naive_solver.
Qed.

Lemma create_pool_idempotent_ok existing name paths r :
  create_pool_idempotent_or_err existing name paths = r →
  (r = Ok CAIdentity ∧ ∀ p, p ∈ paths ↔ (Data, p) ∈ existing) ∨
  ((∃ e, r = Err e) ∧ ¬ ∀ p, p ∈ paths ↔ (Data, p) ∈ existing).
Proof.
  intros <-. unfold create_pool_idempotent_or_err.
  set (ex := omap _ existing).
  assert (∀ p, p ∈ ex ↔ (Data, p) ∈ existing) as Hex.
  { intros p. unfold ex. rewrite list_elem_of_omap. split.
    - intros ([[] q] & Hin & Hq); simplify_eq/=; done.
    - intros Hin. exists (Data, p). done. }
  destruct (decide _) as [He|Hne]; [left|right].
  - split; [done|]. intros p. rewrite <- Hex. rewrite set_eq in He. specialize (He p).
    by rewrite !elem_of_list_to_set in He.
  - split; [eauto|]. intros Hall. apply Hne, set_eq. intros p. rewrite !elem_of_list_to_set, Hex. apply Hall.
Qed.
