(* ===== verification/SimEngine.v ===== *)
(** * The simulator engine

    Models [src/engine/sim_engine/]: [blockdev.rs] ([SimDev]), [filesystem.rs],
    [keys.rs], [pool.rs] ([SimPool]) and [engine.rs] ([SimEngine]).  The random
    generator and the clock are a [World]: an oracle for the values of
    [Uuid::new_v4], [rand::random] and [Utc::now], consumed in order.  Hash sets and hash
    maps are iterated in a fixed order here; the code relies on none. *)
From stdpp Require Import base list gmap sets strings.
From Stdlib Require Import ZArith Lia.
From S2P Require Import Prelude Json Table Actions Shared.

Record World : Type := mkWorld {
  w_uuid : nat → Z; w_rand : nat → Z; w_now : nat → Z; w_next : nat }.

Definition w_tick (w : World) : World := mkWorld (w_uuid w) (w_rand w) (w_now w) (S (w_next w)).

(** [Uuid::new_v4] *)
Definition new_v4 (w : World) : Z * World := (w_uuid w (w_next w), w_tick w).
(** [Utc::now], [rand::random]: the current values *)
Definition now (w : World) : Z := w_now w (w_next w).
Definition random (w : World) : Z := w_rand w (w_next w).

(** ** Devices and filesystems *)

Record SimDev : Type := mkSimDev {
  devnode : Str; user_info : option Str; hardware_info : option Str;
  initialization_time : Z; encryption_info : EncryptionInfo }.

Record SimFilesystem : Type := mkSimFs { fs_rand : Z; fs_created : Z }.

Module SD.
Definition new (devnode : Str) (encryption_info : EncryptionInfo) (w : World) : (Z * SimDev) * World :=
  let time := now w in
  let '(uuid, w) := new_v4 w in
  ((uuid, mkSimDev devnode None None time encryption_info), w).

(** [set_blockdev_user_info!] *)
Definition set_user_info (self : SimDev) (info : option Str) : bool * SimDev :=
  if bool_decide (user_info self ≠ info) then
    (true, mkSimDev (devnode self) info (hardware_info self) (initialization_time self)
             (encryption_info self))
  else (false, self).

Definition set_encryption_info (self : SimDev) (e : EncryptionInfo) : SimDev :=
  mkSimDev (devnode self) (user_info self) (hardware_info self) (initialization_time self) e.

Definition set_clevis_info (pin : Str) (config : Value) (self : SimDev) : SimDev :=
  set_encryption_info self (mkEnc (key_description (encryption_info self)) (Some (pin, config))).
Definition unset_clevis_info (self : SimDev) : SimDev :=
  set_encryption_info self (mkEnc (key_description (encryption_info self)) None).
Definition set_key_desc (key_desc : KeyDescription) (self : SimDev) : SimDev :=
  set_encryption_info self (mkEnc (Some key_desc) (clevis_info (encryption_info self))).
Definition unset_key_desc (self : SimDev) : SimDev :=
  set_encryption_info self (mkEnc None (clevis_info (encryption_info self))).
End SD.

Definition SimFilesystem_new (w : World) : SimFilesystem := mkSimFs (random w) (now w).

(** ** Keys *)

Module Keys.
Notation SimKeyActions := (gmap KeyDescription (list Z)).

Definition contains_key (self : SimKeyActions) (key_desc : KeyDescription) : bool :=
  bool_decide (is_Some (self !! key_desc)).

(** the copy into newly allocated memory cannot be cut short: a stored key fits *)
Definition read (self : SimKeyActions) (key_desc : KeyDescription) : res (option (list Z)) :=
  match self !! key_desc with
  | Some key => Ok (Some (take (Z.to_nat MAX_STRATIS_PASS_SIZE) key))
  | None => Ok None
  end.

(** the key is read from a file descriptor: see [set_key_shared] *)
Definition set (self : SimKeyActions) (key_desc : KeyDescription) (fd_read : res (list Z))
    (fd_poll : res Z) : res (MappingCreateAction Key) * SimKeyActions :=
  match set_key_shared fd_read fd_poll with
  | Err e => (Err e, self)
  | Panic w => (Panic w, self)
  | Ok memory =>
      match read self key_desc with
      | Ok (Some key_data) =>
          if bool_decide (key_data = memory) then (Ok MCIdentity, self)
          else (Ok (MCValueChanged mkKey), <[key_desc := memory]> self)
      | Ok None => (Ok (MCCreated mkKey), <[key_desc := memory]> self)
      | Err e => (Err e, self)
      | Panic w => (Panic w, self)
      end
  end.

Definition list_ (self : SimKeyActions) : res (list KeyDescription) := Ok (map_to_list self).*1.

Definition unset (self : SimKeyActions) (key_desc : KeyDescription)
    : res (MappingDeleteAction Key) * SimKeyActions :=
  match self !! key_desc with
  | Some _ => (Ok (MDDeleted mkKey), delete key_desc self)
  | None => (Ok MDIdentity, self)
  end.
End Keys.

(** ** Pools *)

Record SimPool : Type := mkSimPool {
  block_devs : gmap Z SimDev; cache_devs : gmap Z SimDev;
  filesystems : Table Z SimFilesystem; redundancy : Redundancy }.

Module SP.
(** [HashMap::extend] *)
Definition extend (m : gmap Z SimDev) (pairs : list (Z * SimDev)) : gmap Z SimDev :=
  foldl (λ m '(uuid, dev), <[uuid := dev]> m) m pairs.

(** [paths.iter().map(|p| SimDev::new(p, enc)).collect()] *)
Fixpoint new_devs (paths : list Str) (enc : EncryptionInfo) (w : World) : list (Z * SimDev) * World :=
  match paths with
  | [] => ([], w)
  | p :: rest =>
      let '(dev, w) := SD.new p enc w in
      let '(pairs, w) := new_devs rest enc w in (dev :: pairs, w)
  end.

Definition new (paths : list Str) (redundancy : Redundancy) (enc_info : EncryptionInfo) (w : World)
    : (Z * SimPool) * World :=
  let devices := remove_dups paths in
  let '(uuid, w) := new_v4 w in
  let '(device_pairs, w) := new_devs devices enc_info w in
  ((uuid, mkSimPool (extend ∅ device_pairs) ∅ Tbl.default redundancy), w).

Definition has_filesystems (self : SimPool) : bool := negb (Tbl.is_empty (filesystems self)).

Definition with_block_devs (self : SimPool) (m : gmap Z SimDev) : SimPool :=
  mkSimPool m (cache_devs self) (filesystems self) (redundancy self).
Definition with_cache_devs (self : SimPool) (m : gmap Z SimDev) : SimPool :=
  mkSimPool (block_devs self) m (filesystems self) (redundancy self).
Definition with_filesystems (self : SimPool) (t : Table Z SimFilesystem) : SimPool :=
  mkSimPool (block_devs self) (cache_devs self) t (redundancy self).

Definition pool_encryption_info (self : SimPool) : res EncryptionInfo :=
  expect ((λ '(_, bd), encryption_info bd) <$> head (map_to_list (block_devs self)))
    "Pool must contain at least one blockdev".

Definition is_encrypted (self : SimPool) : res bool :=
  rmap EncryptionInfo_is_encrypted (pool_encryption_info self).

Definition has_cache (self : SimPool) : bool := negb (bool_decide (cache_devs self = ∅)).

Definition destroy (self : SimPool) : res unit := Ok tt.

Definition add_clevis_info (self : SimPool) (pin : Str) (config : Value) : SimPool :=
  with_block_devs self (SD.set_clevis_info pin config <$> block_devs self).
Definition clear_clevis_info (self : SimPool) : SimPool :=
  with_block_devs self (SD.unset_clevis_info <$> block_devs self).
Definition add_key_desc (self : SimPool) (key_desc : KeyDescription) : SimPool :=
  with_block_devs self (SD.set_key_desc key_desc <$> block_devs self).
Definition clear_key_desc (self : SimPool) : SimPool :=
  with_block_devs self (SD.unset_key_desc <$> block_devs self).

(** Operations return the outcome, the pool and the world after the call.  [bail] leaves both
    as they are, with the error or panic of a computation that was to give a value. *)
Definition outcome (A : Type) : Type := res A * SimPool * World.

Definition ptry {A B} (r : res A) (self : SimPool) (w : World) (k : A → outcome B) : outcome B :=
  match r with
  | Ok a => k a
  | Err e => (Err e, self, w)
  | Panic s => (Panic s, self, w)
  end.

Definition init_cache (self : SimPool) (blockdevs : list Str) (w : World)
    : outcome (SetCreateAction Z) :=
  ptry (validate_paths blockdevs) self w (λ _,
  ptry (is_encrypted self) self w (λ encrypted,
  if encrypted then
    (Err (Msg "Use of a cache is not supported with an encrypted pool"), self, w)
  else if negb (has_cache self) then
    match blockdevs with
    | [] => (Err (Msg "At least one blockdev path is required to initialize a cache."), self, w)
    | _ =>
        let '(blockdev_pairs, w) := new_devs blockdevs EncryptionInfo_default w in
        (Ok (mkSetCreate blockdev_pairs.*1),
         with_cache_devs self (extend (cache_devs self) blockdev_pairs), w)
    end
  else
    (init_cache_idempotent_or_err blockdevs ((λ '(_, bd), devnode bd) <$> map_to_list (cache_devs self)),
     self, w))).

Fixpoint validate_names (names : list Str) : res unit :=
  match names with
  | [] => Ok tt
  | n :: rest => let? _ := validate_name n in validate_names rest
  end.

(** the loop over the requested names *)
Fixpoint create_loop (names : list Str) (fs : Table Z SimFilesystem) (w : World)
    : res (list (Str * Z)) * Table Z SimFilesystem * World :=
  match names with
  | [] => (Ok [], fs, w)
  | name :: rest =>
      if negb (Tbl.contains_name fs name) then
        let '(uuid, w) := new_v4 w in
        let new_filesystem := SimFilesystem_new w in
        match Tbl.insert fs name uuid new_filesystem with
        | Ok (_, fs) =>
            let '(r, fs, w) := create_loop rest fs w in
            (rmap (λ l, (name, uuid) :: l) r, fs, w)
        | Err e => (Err e, fs, w)
        | Panic s => (Panic s, fs, w)
        end
      else create_loop rest fs w
  end.

Definition create_filesystems (self : SimPool) (specs : list (Str * option Z)) (w : World)
    : outcome (SetCreateAction (Str * Z)) :=
  let names := remove_dups specs.*1 in
  ptry (validate_names names) self w (λ _,
  let '(r, fs, w) := create_loop names (filesystems self) w in
  (rmap mkSetCreate r, with_filesystems self fs, w)).

Definition add_blockdevs (self : SimPool) (paths : list Str) (tier : BlockDevTier) (w : World)
    : outcome (SetCreateAction Z) :=
  ptry (validate_paths paths) self w (λ _,
  if bool_decide (tier = Cache) && negb (has_cache self) then
    (Err (Msg "The cache has not been initialized; you must use init_cache first to initialize the cache."),
     self, w)
  else match paths with
  | [] => (Ok (mkSetCreate []), self, w)
  | _ =>
      let devices := remove_dups paths in
      ptry (match tier with Data => pool_encryption_info self | Cache => Ok EncryptionInfo_default end)
        self w (λ enc,
      let '(device_pairs, w) := new_devs devices enc w in
      let the_vec := match tier with Cache => cache_devs self | Data => block_devs self end in
      let filter_ := (λ '(_, d), devnode d) <$> map_to_list the_vec in
      let filtered_device_pairs := filter (λ '(_, sd), devnode sd ∉ filter_) device_pairs in
      let the_vec := extend the_vec filtered_device_pairs in
      (Ok (mkSetCreate filtered_device_pairs.*1),
       match tier with Cache => with_cache_devs self the_vec | Data => with_block_devs self the_vec end,
       w))
  end).

Definition bind_clevis (self : SimPool) (pin : Str) (config : Value) (w : World)
    : outcome (CreateAction Clevis) :=
  ptry (pool_encryption_info self) self w (λ enc,
  ptry (is_encrypted self) self w (λ encrypted,
  if encrypted then
    match clevis_info enc with
    | Some (current_pin, current_info) =>
        if bool_decide ((current_pin, current_info) = (pin, config)) then (Ok CAIdentity, self, w)
        else (Err (Msg "This pool is already bound with clevis pin"), self, w)
    | None => (Ok (CACreated mkClevis), add_clevis_info self pin config, w)
    end
  else (Err (Msg "Requested pool does not appear to be encrypted"), self, w))).

Definition unbind_clevis (self : SimPool) (w : World) : outcome (DeleteAction Clevis) :=
  ptry (pool_encryption_info self) self w (λ enc,
  if negb (is_some (key_description enc)) then
    (Err (Msg "This device is not bound to a keyring passphrase; refusing to remove the only unlocking method"),
     self, w)
  else if EncryptionInfo_is_encrypted enc then
    if is_some (clevis_info enc) then (Ok (DADeleted mkClevis), clear_clevis_info self, w)
    else (Ok DAIdentity, self, w)
  else (Err (Msg "Requested pool does not appear to be encrypted"), self, w)).

Definition bind_keyring (self : SimPool) (key_desc : KeyDescription) (w : World)
    : outcome (CreateAction Key) :=
  ptry (pool_encryption_info self) self w (λ enc,
  if EncryptionInfo_is_encrypted enc then
    match key_description enc with
    | Some kd =>
        if bool_decide (key_desc = kd) then (Ok CAIdentity, self, w)
        else (Err (Msg "This pool is already bound with key description"), self, w)
    | None => (Ok (CACreated mkKey), add_key_desc self key_desc, w)
    end
  else (Err (Msg "Requested pool does not appear to be encrypted"), self, w)).

Definition unbind_keyring (self : SimPool) (w : World) : outcome (DeleteAction Key) :=
  ptry (pool_encryption_info self) self w (λ enc,
  if negb (is_some (clevis_info enc)) then
    (Err (Msg "This device is not bound to Clevis; refusing to remove the only unlocking method"),
     self, w)
  else ptry (is_encrypted self) self w (λ encrypted,
  if encrypted then
    if is_some (key_description enc) then (Ok (DADeleted mkKey), clear_key_desc self, w)
    else (Ok DAIdentity, self, w)
  else (Err (Msg "Requested pool does not appear to be encrypted"), self, w))).

Definition rebind_keyring (self : SimPool) (new_key_desc : KeyDescription) (w : World)
    : outcome (RenameAction Key) :=
  ptry (pool_encryption_info self) self w (λ enc,
  if negb (is_some (key_description enc)) then
    (Err (Msg "This device is not bound to a keyring passphrase; cannot change the passphrase"), self, w)
  else ptry (is_encrypted self) self w (λ encrypted,
  if encrypted then
    if bool_decide (key_description enc ≠ Some new_key_desc) then
      (Ok (RARenamed mkKey), add_key_desc self new_key_desc, w)
    else (Ok RAIdentity, self, w)
  else (Err (Msg "Requested pool does not appear to be encrypted"), self, w))).

Definition rebind_clevis (self : SimPool) (w : World) : outcome RegenAction :=
  ptry (pool_encryption_info self) self w (λ enc,
  if negb (is_some (clevis_info enc)) then
    (Err (Msg "This device is not bound to Clevis; cannot regenerate bindings"), self, w)
  else ptry (is_encrypted self) self w (λ encrypted,
  if encrypted then
    if is_some (clevis_info enc) then (Ok mkRegenAction, self, w)
    else (Err (Msg "Requested pool does not appear to have Clevis bindings"), self, w)
  else (Err (Msg "Requested pool does not appear to be encrypted"), self, w))).

Fixpoint destroy_loop (fs_uuids : list Z) (fs : Table Z SimFilesystem)
    : list Z * Table Z SimFilesystem :=
  match fs_uuids with
  | [] => ([], fs)
  | uuid :: rest =>
      let '(r, fs) := Tbl.remove_by_uuid fs uuid in
      let '(removed, fs) := destroy_loop rest fs in
      (match r with Some _ => uuid :: removed | None => removed end, fs)
  end.

Definition destroy_filesystems (self : SimPool) (fs_uuids : list Z) (w : World)
    : outcome (SetDeleteAction Z) :=
  let '(removed, fs) := destroy_loop fs_uuids (filesystems self) in
  (Ok (mkSetDelete removed), with_filesystems self fs, w).

Definition rename_filesystem (self : SimPool) (uuid : Z) (new_name : Str) (w : World)
    : outcome (RenameAction Z) :=
  ptry (validate_name new_name) self w (λ _,
  match rename_pre_idem (filesystems self) uuid new_name with
  | inl r => (r, self, w)
  | inr _ =>
      let '(removed, fs) := Tbl.remove_by_uuid (filesystems self) uuid in
      match removed with
      | None => (Panic "Must succeed since self.filesystems.get_by_uuid() returned a value", self, w)
      | Some (_, filesystem) =>
          ptry (Tbl.insert fs new_name uuid filesystem) (with_filesystems self fs) w (λ '(_, fs),
          (Ok (RARenamed uuid), with_filesystems self fs, w))
      end
  end).

Definition snapshot_filesystem (self : SimPool) (origin_uuid : Z) (snapshot_name : Str) (w : World)
    : outcome (CreateAction (Z * SimFilesystem)) :=
  ptry (validate_name snapshot_name) self w (λ _,
  if Tbl.contains_name (filesystems self) snapshot_name then (Ok CAIdentity, self, w)
  else
    let '(uuid, w) := new_v4 w in
    match Tbl.get_by_uuid (filesystems self) origin_uuid with
    | None => (Err (Msg "origin_uuid"), self, w)
    | Some _ =>
        let snapshot := SimFilesystem_new w in
        ptry (Tbl.insert (filesystems self) snapshot_name uuid snapshot) self w (λ '(_, fs),
        ptry (expect (Tbl.get_by_uuid fs uuid) "just inserted") (with_filesystems self fs) w
          (λ '(_, s), (Ok (CACreated (uuid, s)), with_filesystems self fs, w)))
    end).

(** [blockdevs()], without the UUIDs *)
Definition blockdevs (self : SimPool) : list (BlockDevTier * Str) :=
  ((λ '(_, d), (Data, devnode d)) <$> map_to_list (block_devs self)) ++
  ((λ '(_, d), (Cache, devnode d)) <$> map_to_list (cache_devs self)).

(** [get_mut_blockdev_internal] and [set_user_info] on the device found *)
Definition set_blockdev_user_info (self : SimPool) (uuid : Z) (info : option Str) (w : World)
    : outcome (RenameAction Z) :=
  let finish changed := (Ok (if changed : bool then RARenamed uuid else RAIdentity)) in
  match block_devs self !! uuid with
  | Some b =>
      let '(changed, b) := SD.set_user_info b info in
      (finish changed, with_block_devs self (<[uuid := b]> (block_devs self)), w)
  | None =>
      match cache_devs self !! uuid with
      | Some b =>
          let '(changed, b) := SD.set_user_info b info in
          (finish changed, with_cache_devs self (<[uuid := b]> (cache_devs self)), w)
      | None => (Ok RANoSource, self, w)
      end
  end.
End SP.

(** ** The engine *)

Record SimEngine : Type := mkEngine { pools : Table Z SimPool; key_handler : Keys.SimKeyActions }.

Module SE.
Definition default : SimEngine := mkEngine Tbl.default ∅.

Definition outcome (A : Type) : Type := res A * SimEngine * World.

Definition etry {A B} (r : res A) (self : SimEngine) (w : World) (k : A → outcome B) : outcome B :=
  match r with
  | Ok a => k a
  | Err e => (Err e, self, w)
  | Panic s => (Panic s, self, w)
  end.

Definition with_pools (self : SimEngine) (t : Table Z SimPool) : SimEngine :=
  mkEngine t (key_handler self).

Definition create_pool (self : SimEngine) (name : Str) (blockdev_paths : list Str)
    (redundancy : option Z) (enc : EncryptionInfo) (w : World) : outcome (CreateAction Z) :=
  etry (calculate_redundancy redundancy) self w (λ redundancy,
  etry (validate_name name) self w (λ _,
  etry (validate_paths blockdev_paths) self w (λ _,
  etry (match key_description enc with
        | Some key_desc =>
            if Keys.contains_key (key_handler self) key_desc then Ok tt
            else Err (Msg "Key was not found in the keyring")
        | None => Ok tt
        end) self w (λ _,
  match Tbl.get_by_name (pools self) name with
  | Some (_, pool) =>
      (create_pool_idempotent_or_err (SP.blockdevs pool) name blockdev_paths, self, w)
  | None =>
      match blockdev_paths with
      | [] => (Err (Msg "At least one blockdev is required to create a pool."), self, w)
      | _ =>
          let devices := remove_dups blockdev_paths in
          let '((pool_uuid, pool), w) := SP.new devices redundancy enc w in
          etry (Tbl.insert (pools self) name pool_uuid pool) self w (λ '(_, t),
          (Ok (CACreated pool_uuid), with_pools self t, w))
      end
  end)))).

Definition destroy_pool (self : SimEngine) (uuid : Z) (w : World) : outcome (DeleteAction Z) :=
  match Tbl.get_by_uuid (pools self) uuid with
  | None => (Ok DAIdentity, self, w)
  | Some (_, pool) =>
      if SP.has_filesystems pool then (Err (Msg "filesystems remaining on pool"), self, w)
      else
        let '(removed, t) := Tbl.remove_by_uuid (pools self) uuid in
        match removed with
        | None => (Panic "Must succeed since self.pool.get_by_uuid() returned a value", self, w)
        | Some (_, pool) =>
            etry (SP.destroy pool) (with_pools self t) w (λ _,
            (Ok (DADeleted uuid), with_pools self t, w))
        end
  end.

Definition rename_pool (self : SimEngine) (uuid : Z) (new_name : Str) (w : World)
    : outcome (RenameAction Z) :=
  match rename_pre_idem (pools self) uuid new_name with
  | inl r => (r, self, w)
  | inr _ =>
      let '(removed, t) := Tbl.remove_by_uuid (pools self) uuid in
      match removed with
      | None => (Panic "Must succeed since self.pools.get_by_uuid() returned a value", self, w)
      | Some (_, pool) =>
          etry (Tbl.insert t new_name uuid pool) (with_pools self t) w (λ '(_, t),
          (Ok (RARenamed uuid), with_pools self t, w))
      end
  end.

(** a pool found by [get_mut_pool], and the call on it *)
Definition on_pool {A} (self : SimEngine) (uuid : Z) (op : SimPool → World → SP.outcome A) (w : World)
    : outcome (option A) :=
  match Tbl.get_mut_by_uuid (pools self) uuid with
  | None => (Ok None, self, w)
  | Some (_, pool, put) =>
      let '(r, pool, w) := op pool w in (rmap Some r, with_pools self (put pool), w)
  end.
End SE.
