(* ===== verification/SimInvariant.v ===== *)
(** * Correctness of the simulator engine

    The invariant of the engine state, that every request keeps it and never
    panics, that failed and identity results leave the state as it was, and
    that every request is idempotent. *)
From stdpp Require Import base list gmap sets strings.
From Stdlib Require Import ZArith Lia.
From S2P Require Import Prelude Json Table Actions Shared SimEngine.

(** ** The world *)

(** UUIDs handed out so far *)
Definition used (w : World) (u : Z) : Prop := ∃ i, (i < w_next w)%nat ∧ w_uuid w i = u.

(** [Uuid::new_v4] never repeats itself *)
Definition supply_ok (w : World) : Prop := ∀ i j, w_uuid w i = w_uuid w j → i = j.

Definition later (w w' : World) : Prop := w_uuid w' = w_uuid w ∧ (w_next w ≤ w_next w')%nat.

#[global] Instance later_preorder : PreOrder later.
Proof. split; [by intros w|]. intros w1 w2 w3 [??] [??]. split; [congruence|lia]. Qed.

Lemma used_later w w' u : later w w' → used w u → used w' u.
Proof. intros [E Hle] (i & Hi & Hu). exists i. rewrite E. split; [lia|done]. Qed.

Lemma supply_later w w' : later w w' → supply_ok w → supply_ok w'.
Proof. intros [E _] Hs i j. rewrite E. apply Hs. Qed.

Lemma new_v4_ok w : supply_ok w →
  let '(u, w') := new_v4 w in later w w' ∧ ¬ used w u ∧ used w' u.
Proof.
  intros Hs. simpl. split; [split; simpl; [done|lia]|]. split.
  - intros (i & Hi & E%Hs). lia.
  - exists (w_next w). simpl. split; [lia|done].
Qed.

(** ** New devices *)

Lemma new_devs_ok paths enc w : supply_ok w →
  let '(pairs, w') := SP.new_devs paths enc w in
  later w w' ∧ (devnode <$> pairs.*2) = paths ∧ NoDup pairs.*1 ∧
  ∀ u d, (u, d) ∈ pairs → ¬ used w u ∧ used w' u ∧ encryption_info d = enc.
Proof.
  revert w. induction paths as [|p paths IH]; intros w Hs; simpl.
  { split; [done|]. split; [done|]. split; [constructor|]. intros u d Hin. by apply elem_of_nil in Hin. }
  destruct (new_v4_ok w Hs) as (L1 & Hf & Hu). unfold SD.new. simpl in *.
  specialize (IH (w_tick w) (supply_later _ _ L1 Hs)).
  destruct (SP.new_devs paths enc (w_tick w)) as [pairs w'].
  destruct IH as (L2 & Hp & Hnd & Hall). simpl. split; [by transitivity (w_tick w)|].
  split; [by rewrite <- Hp|]. split.
  - constructor; [|done]. intros ([u d] & E & Hin)%list_elem_of_fmap. simpl in E. subst.
    destruct (Hall _ _ Hin) as [Hn _]. by apply Hn.
  - intros u d [[= -> ->]|Hin]%elem_of_cons; simpl.
    + split_and!; [done|by eapply used_later|done].
    + destruct (Hall u d Hin) as (Hn & ? & ?). split_and!; try done.
      intros Hused. apply Hn. by eapply used_later.
Qed.

Lemma extend_lookup m pairs u d :
  NoDup pairs.*1 → (∀ u d, (u, d) ∈ pairs → m !! u = None) →
  SP.extend m pairs !! u = Some d ↔ m !! u = Some d ∨ (u, d) ∈ pairs.
Proof.
  revert m. induction pairs as [|[u1 d1] pairs IH]; intros m Hnd Hfree; simpl.
  { rewrite elem_of_nil. naive_solver. }
  simpl in Hnd. apply NoDup_cons in Hnd as [Hu1 Hnd]. unfold SP.extend in *. simpl. rewrite IH.
  - rewrite lookup_insert_Some, elem_of_cons. assert (m !! u1 = None) by (eapply Hfree; by left).
    split; [naive_solver|]. intros [Hm|[[= -> ->]|?]]; [|by left; left|by right].
    left. right. split; [congruence|done].
  - done.
  - intros u2 d2 Hin. rewrite lookup_insert_ne; [eapply Hfree; by right|].
    intros ->. apply Hu1, list_elem_of_fmap. by exists (u2, d2).
Qed.

(** ** Invariants *)

Record pool_ok (w : World) (p : SimPool) : Prop := {
  po_fs : table_ok (filesystems p);
  po_fs_used : ∀ n u i, entry (filesystems p) n u i → used w u ∧ validate_name n = Ok tt;
  po_devs : block_devs p ≠ ∅;
  po_dev_used : ∀ u d, block_devs p !! u = Some d ∨ cache_devs p !! u = Some d →
    used w u ∧ is_absolute (devnode d) = true;
  po_enc : ∀ u u' d d', block_devs p !! u = Some d → block_devs p !! u' = Some d' →
    encryption_info d = encryption_info d';
  po_paths : ∀ u u' d d', block_devs p !! u = Some d → block_devs p !! u' = Some d' →
    devnode d = devnode d' → u = u';
  po_cache : cache_devs p ≠ ∅ → ∀ u d, block_devs p !! u = Some d →
    EncryptionInfo_is_encrypted (encryption_info d) = false }.

Record engine_ok (e : SimEngine) (w : World) : Prop := {
  eo_supply : supply_ok w;
  eo_pools : table_ok (pools e);
  eo_pool : ∀ n u p, entry (pools e) n u p → used w u ∧ pool_ok w p;
  eo_keys : ∀ k v, key_handler e !! k = Some v → Z.of_nat (length v) ≤ MAX_STRATIS_PASS_SIZE }.

Lemma pool_ok_later w w' p : later w w' → pool_ok w p → pool_ok w' p.
Proof.
  intros L [? Hf ? Hd ? ? ?]. split; try done.
  - intros n u i He. destruct (Hf n u i He). split; [by eapply used_later|done].
  - intros u d Hu. destruct (Hd u d Hu). split; [by eapply used_later|done].
Qed.

(** The encryption of a pool is that of each of its data devices. *)
Lemma pool_enc_ok w p : pool_ok w p →
  ∃ enc, SP.pool_encryption_info p = Ok enc ∧
    (∀ u d, block_devs p !! u = Some d → encryption_info d = enc).
Proof.
  intros Hp. unfold SP.pool_encryption_info.
  destruct (map_to_list (block_devs p)) as [|[u d] l] eqn:E.
  { apply map_to_list_empty_iff in E. by destruct (po_devs _ _ Hp). }
  assert (block_devs p !! u = Some d) as Hu.
  { apply elem_of_map_to_list. rewrite E. by left. }
  simpl. eexists. split; [done|]. intros u' d' Hu'. by eapply po_enc.
Qed.

Lemma pool_encrypted_ok w p enc : pool_ok w p → SP.pool_encryption_info p = Ok enc →
  SP.is_encrypted p = Ok (EncryptionInfo_is_encrypted enc) ∧
  (cache_devs p ≠ ∅ → EncryptionInfo_is_encrypted enc = false).
Proof.
  intros Hp E. unfold SP.is_encrypted. rewrite E. split; [done|]. intros Hc.
  destruct (pool_enc_ok w p Hp) as (enc' & E' & Hall). assert (enc' = enc) as -> by congruence.
  destruct (map_choose _ (po_devs _ _ Hp)) as (u & d & Hu).
  rewrite <- (Hall u d Hu). by eapply po_cache.
Qed.

(** Changing the encryption of every data device the same way. *)
Lemma set_enc_ok w p (f : SimDev → SimDev) (g : EncryptionInfo → EncryptionInfo) enc :
  pool_ok w p → SP.pool_encryption_info p = Ok enc →
  (∀ d, devnode (f d) = devnode d ∧ encryption_info (f d) = g (encryption_info d)) →
  EncryptionInfo_is_encrypted enc = true →
  pool_ok w (SP.with_block_devs p (f <$> block_devs p)) ∧
  SP.pool_encryption_info (SP.with_block_devs p (f <$> block_devs p)) = Ok (g enc).
Proof.
  intros Hp E Hf Henc.
  assert (pool_ok w (SP.with_block_devs p (f <$> block_devs p))) as Hp'.
  { destruct (pool_encrypted_ok w p enc Hp E) as [_ Hc].
    destruct Hp as [? Hfs Hd Hdu He Hpa Hca]. split; simpl; try done.
    - intros Hz. by apply fmap_empty_inv in Hz.
    - intros u d [Hu|Hu]; [|by eapply Hdu; right].
      apply lookup_fmap_Some in Hu as (d0 & <- & Hu). destruct (Hf d0) as [-> _]. eapply Hdu. by left.
    - intros u u' d d' (d0 & <- & Hu)%lookup_fmap_Some (d1 & <- & Hu')%lookup_fmap_Some.
      destruct (Hf d0) as [_ ->], (Hf d1) as [_ ->]. f_equal. by eapply He.
    - intros u u' d d' (d0 & <- & Hu)%lookup_fmap_Some (d1 & <- & Hu')%lookup_fmap_Some.
      destruct (Hf d0) as [-> _], (Hf d1) as [-> _]. by eapply Hpa.
    - intros Hne. rewrite Hc in Henc by done. done. }
  split; [done|]. destruct (pool_enc_ok _ _ Hp') as (enc' & -> & Hall). f_equal.
  destruct (pool_enc_ok _ _ Hp) as (enc0 & E0 & Hall0). assert (enc0 = enc) as -> by congruence.
  destruct (map_choose _ (po_devs _ _ Hp)) as (u & d & Hu).
  rewrite <- (Hall u (f d)); [|simpl; by rewrite lookup_fmap, Hu].
  destruct (Hf d) as [_ ->]. by rewrite (Hall0 u d).
Qed.

(** ** Requests *)

Inductive pool_command :=
| InitCache (paths : list Str)
| CreateFilesystems (specs : list (Str * option Z))
| AddBlockdevs (paths : list Str) (tier : BlockDevTier)
| BindClevis (pin : Str) (config : Value)
| UnbindClevis
| BindKeyring (key_desc : KeyDescription)
| UnbindKeyring
| RebindKeyring (key_desc : KeyDescription)
| RebindClevis
| DestroyFilesystems (fs_uuids : list Z)
| RenameFilesystem (uuid : Z) (new_name : Str)
| SnapshotFilesystem (origin : Z) (name : Str)
| SetUserInfo (uuid : Z) (info : option Str).

(** Whether the state changed, as the action says. *)
Definition flag {A R S} `{EngineAction A R} (o : res A * S * World) : res bool * S * World :=
  let '(r, s, w) := o in (rmap is_changed r, s, w).

Definition exec_pool (c : pool_command) (p : SimPool) (w : World) : SP.outcome bool :=
  match c with
  | InitCache paths => flag (SP.init_cache p paths w)
  | CreateFilesystems specs => flag (SP.create_filesystems p specs w)
  | AddBlockdevs paths tier => flag (SP.add_blockdevs p paths tier w)
  | BindClevis pin config => flag (SP.bind_clevis p pin config w)
  | UnbindClevis => flag (SP.unbind_clevis p w)
  | BindKeyring kd => flag (SP.bind_keyring p kd w)
  | UnbindKeyring => flag (SP.unbind_keyring p w)
  | RebindKeyring kd => flag (SP.rebind_keyring p kd w)
  | RebindClevis => let '(r, p, w) := SP.rebind_clevis p w in (rmap (λ _, false) r, p, w)
  | DestroyFilesystems us => flag (SP.destroy_filesystems p us w)
  | RenameFilesystem u n => flag (SP.rename_filesystem p u n w)
  | SnapshotFilesystem u n => flag (SP.snapshot_filesystem p u n w)
  | SetUserInfo u info => flag (SP.set_blockdev_user_info p u info w)
  end.

(** [r] did not change [s]: an error, or an identity. *)
Definition stable {S} (r : res bool) (s s' : S) : Prop :=
  match r with Ok true => True | Ok false | Err _ => s' = s | Panic _ => False end.

(** What a request on a pool has to guarantee: its own promise and that of repeating it. *)
Definition pool_step_ok (c : pool_command) (p : SimPool) (w : World) : Prop :=
  let '(r, p', w') := exec_pool c p w in
  pool_ok w' p' ∧ later w w' ∧ stable r p p' ∧
  (is_ok r = true → ∃ w'', exec_pool c p' w' = (Ok false, p', w'')).

Lemma step_same c p w : pool_ok w p → exec_pool c p w = (Ok false, p, w) → pool_step_ok c p w.
Proof. intros Hp E. unfold pool_step_ok. rewrite E. split_and!; try done. eauto. Qed.

Lemma step_err c p w w' e :
  pool_ok w p → later w w' → exec_pool c p w = (Err e, p, w') → pool_step_ok c p w.
Proof.
  intros Hp L E. unfold pool_step_ok. rewrite E. split_and!; try done. by eapply pool_ok_later.
Qed.

Lemma step_change c p w b p' w' w'' :
  exec_pool c p w = (Ok b, p', w') → pool_ok w' p' → later w w' → (b = false → p' = p) →
  exec_pool c p' w' = (Ok false, p', w'') → pool_step_ok c p w.
Proof. intros E Hp L Hb E'. unfold pool_step_ok. rewrite E. split_and!; try done; [by destruct b; simpl; auto|eauto]. Qed.

(** ** Encryption requests *)

(** Evaluate an encryption request on a pool whose encryption is known. *)
Ltac enc_eval E Ee :=
  simpl; unfold SP.bind_clevis, SP.unbind_clevis, SP.bind_keyring, SP.unbind_keyring,
    SP.rebind_keyring, SP.rebind_clevis; rewrite ?E; simpl; rewrite ?Ee; simpl.

Section encryption.
Context (w : World) (p : SimPool) (Hp : pool_ok w p).

(** A request that changes the encryption of all data devices from [enc] to [g enc]. *)
Lemma set_enc_step c f g enc :
  SP.pool_encryption_info p = Ok enc → EncryptionInfo_is_encrypted enc = true →
  (∀ d, devnode (f d) = devnode d ∧ encryption_info (f d) = g (encryption_info d)) →
  exec_pool c p w = (Ok true, SP.with_block_devs p (f <$> block_devs p), w) →
  (∀ p', SP.pool_encryption_info p' = Ok (g enc) →
         SP.is_encrypted p' = Ok (EncryptionInfo_is_encrypted (g enc)) →
         exec_pool c p' w = (Ok false, p', w)) →
  pool_step_ok c p w.
Proof.
  intros E Henc Hf Ec Hidem. destruct (set_enc_ok w p f g enc Hp E Hf Henc) as [Hp' E'].
  destruct (pool_encrypted_ok w _ _ Hp' E') as [Ee' _].
  eapply step_change; [exact Ec|done|done|done|]. by apply Hidem.
Qed.

Lemma bind_clevis_ok pin config : pool_step_ok (BindClevis pin config) p w.
Proof.
  destruct (pool_enc_ok w p Hp) as (enc & E & _). destruct (pool_encrypted_ok w p enc Hp E) as [Ee _].
  destruct (EncryptionInfo_is_encrypted enc) eqn:Henc;
    [|eapply step_err; [done|reflexivity|by enc_eval E Ee]].
  destruct (clevis_info enc) as [[pin0 info0]|] eqn:Ec.
  - destruct (decide ((pin0, info0) = (pin, config))) as [Heq|Hne].
    + apply step_same; [done|]. enc_eval E Ee. by rewrite Ec, bool_decide_true.
    + eapply step_err; [done|reflexivity|]. enc_eval E Ee. by rewrite Ec, bool_decide_false.
  - eapply (set_enc_step _ (SD.set_clevis_info pin config) (λ e, mkEnc (key_description e) (Some (pin, config))));
      [done|done|done|by enc_eval E Ee; rewrite Ec|].
    intros p' E' Ee'. enc_eval E' Ee'. unfold EncryptionInfo_is_encrypted. simpl.
    by rewrite orb_true_r, bool_decide_true.
Qed.

Lemma unbind_clevis_ok : pool_step_ok UnbindClevis p w.
Proof.
  destruct (pool_enc_ok w p Hp) as (enc & E & _). destruct (pool_encrypted_ok w p enc Hp E) as [Ee _].
  destruct (key_description enc) as [kd|] eqn:Ek;
    [|eapply step_err; [done|reflexivity|by enc_eval E Ee; rewrite Ek]].
  assert (EncryptionInfo_is_encrypted enc = true) as Henc by (unfold EncryptionInfo_is_encrypted; by rewrite Ek).
  destruct (clevis_info enc) as [ci|] eqn:Ec.
  - eapply (set_enc_step _ SD.unset_clevis_info (λ e, mkEnc (key_description e) None));
      [done|done|done|by enc_eval E Ee; rewrite Ek, Henc, Ec|].
    intros p' E' Ee'. enc_eval E' Ee'. by rewrite Ek.
  - apply step_same; [done|]. enc_eval E Ee. by rewrite Ek, Henc, Ec.
Qed.

Lemma bind_keyring_ok kd : pool_step_ok (BindKeyring kd) p w.
Proof.
  destruct (pool_enc_ok w p Hp) as (enc & E & _). destruct (pool_encrypted_ok w p enc Hp E) as [Ee _].
  destruct (EncryptionInfo_is_encrypted enc) eqn:Henc;
    [|eapply step_err; [done|reflexivity|by enc_eval E Ee; rewrite Henc]].
  destruct (key_description enc) as [kd0|] eqn:Ek.
  - destruct (decide (kd = kd0)) as [Heq|Hne].
    + apply step_same; [done|]. enc_eval E Ee. by rewrite Henc, Ek, bool_decide_true.
    + eapply step_err; [done|reflexivity|]. enc_eval E Ee. by rewrite Henc, Ek, bool_decide_false.
  - eapply (set_enc_step _ (SD.set_key_desc kd) (λ e, mkEnc (Some kd) (clevis_info e)));
      [done|done|done|by enc_eval E Ee; rewrite Henc, Ek|].
    intros p' E' Ee'. enc_eval E' Ee'. by rewrite bool_decide_true.
Qed.

Lemma unbind_keyring_ok : pool_step_ok UnbindKeyring p w.
Proof.
  destruct (pool_enc_ok w p Hp) as (enc & E & _). destruct (pool_encrypted_ok w p enc Hp E) as [Ee _].
  destruct (clevis_info enc) as [ci|] eqn:Ec;
    [|eapply step_err; [done|reflexivity|by enc_eval E Ee; rewrite Ec]].
  assert (EncryptionInfo_is_encrypted enc = true) as Henc
    by (unfold EncryptionInfo_is_encrypted; by rewrite Ec, orb_true_r).
  destruct (key_description enc) as [kd|] eqn:Ek.
  - eapply (set_enc_step _ SD.unset_key_desc (λ e, mkEnc None (clevis_info e)));
      [done|done|done|by enc_eval E Ee; rewrite Ec, Henc, Ek|].
    intros p' E' Ee'. enc_eval E' Ee'. unfold EncryptionInfo_is_encrypted. simpl. by rewrite Ec.
  - apply step_same; [done|]. enc_eval E Ee. by rewrite Ec, Henc, Ek.
Qed.

Lemma rebind_keyring_ok kd : pool_step_ok (RebindKeyring kd) p w.
Proof.
  destruct (pool_enc_ok w p Hp) as (enc & E & _). destruct (pool_encrypted_ok w p enc Hp E) as [Ee _].
  destruct (key_description enc) as [kd0|] eqn:Ek;
    [|eapply step_err; [done|reflexivity|by enc_eval E Ee; rewrite Ek]].
  assert (EncryptionInfo_is_encrypted enc = true) as Henc
    by (unfold EncryptionInfo_is_encrypted; by rewrite Ek).
  destruct (decide (kd0 = kd)) as [->|Hne].
  - apply step_same; [done|]. enc_eval E Ee. rewrite Ek, Henc. by rewrite bool_decide_false by naive_solver.
  - eapply (set_enc_step _ (SD.set_key_desc kd) (λ e, mkEnc (Some kd) (clevis_info e))); [done|done|done| |].
    + enc_eval E Ee. rewrite Ek, Henc. by rewrite bool_decide_true by congruence.
    + intros p' E' Ee'. enc_eval E' Ee'. by rewrite bool_decide_false by naive_solver.
Qed.

Lemma rebind_clevis_ok : pool_step_ok RebindClevis p w.
Proof.
  destruct (pool_enc_ok w p Hp) as (enc & E & _). destruct (pool_encrypted_ok w p enc Hp E) as [Ee _].
  destruct (clevis_info enc) as [ci|] eqn:Ec;
    [|eapply step_err; [done|reflexivity|by enc_eval E Ee; rewrite Ec]].
  apply step_same; [done|]. enc_eval E Ee. rewrite Ec.
  unfold EncryptionInfo_is_encrypted. by rewrite Ec, orb_true_r.
Qed.
End encryption.

(** ** Device requests *)

Lemma validate_paths_cases paths :
  (validate_paths paths = Ok tt ∧ Forall (λ p, is_absolute p = true) paths) ∨
  ∃ e, validate_paths paths = Err e.
Proof.
  destruct (validate_paths paths) as [[]|e|s] eqn:E; [left|right; eauto|].
  - split; [done|]. by apply validate_paths_ok.
  - unfold validate_paths in E. by destruct (filter _ paths).
Qed.

Lemma devnodes_lookup (m : gmap Z SimDev) q :
  q ∈ ((λ '(_, d), devnode d) <$> map_to_list m) ↔ ∃ u d, m !! u = Some d ∧ devnode d = q.
Proof.
  rewrite list_elem_of_fmap. split.
  - intros ([u d] & -> & Hin%elem_of_map_to_list). eauto.
  - intros (u & d & Hin & <-). exists (u, d). by rewrite elem_of_map_to_list.
Qed.

Lemma devnodes_pairs (pairs : list (Z * SimDev)) paths q :
  (devnode <$> pairs.*2) = paths → q ∈ paths ↔ ∃ u d, (u, d) ∈ pairs ∧ devnode d = q.
Proof.
  intros <-. rewrite list_elem_of_fmap. setoid_rewrite list_elem_of_fmap. split.
  - intros (d & -> & [u d'] & -> & Hin). simpl. eauto.
  - intros (u & d & Hin & <-). exists d. split; [done|]. by exists (u, d).
Qed.

Lemma has_cache_spec p : SP.has_cache p = true ↔ cache_devs p ≠ ∅.
Proof. unfold SP.has_cache. case_bool_decide; naive_solver. Qed.

Lemma init_cache_idem_cases paths existing :
  (init_cache_idempotent_or_err paths existing = Ok (mkSetCreate []) ∧ ∀ q, q ∈ paths ↔ q ∈ existing) ∨
  (∃ e, init_cache_idempotent_or_err paths existing = Err e) ∧ ¬ ∀ q, q ∈ paths ↔ q ∈ existing.
Proof.
  unfold init_cache_idempotent_or_err. destruct (decide _) as [He|Hne]; [left|right].
  - split; [done|]. intros q. rewrite set_eq in He. specialize (He q). by rewrite !elem_of_list_to_set in He.
  - split; [eauto|]. intros Hall. apply Hne, set_eq. intros q. by rewrite !elem_of_list_to_set.
Qed.

Lemma nodup_map_inj {A B} (f : A → B) l x y :
  NoDup (f <$> l) → x ∈ l → y ∈ l → f x = f y → x = y.
Proof.
  induction l as [|a l IH]; simpl; [intros _ H%elem_of_nil; done|].
  intros [Hni Hnd]%NoDup_cons [->|Hx]%elem_of_cons [->|Hy]%elem_of_cons E; try done.
  - destruct Hni. rewrite E. by apply list_elem_of_fmap_2.
  - destruct Hni. rewrite <- E. by apply list_elem_of_fmap_2.
  - by apply IH.
Qed.

Lemma nodup_filter_fst {A B} (P : A * B → Prop) `{∀ x, Decision (P x)} (l : list (A * B)) :
  NoDup l.*1 → NoDup (filter P l).*1.
Proof.
  induction l as [|x l IH]; simpl; [done|]. intros [Hni Hnd]%NoDup_cons. rewrite filter_cons.
  case_decide; simpl; [|auto]. apply NoDup_cons. split; [|auto].
  intros (y & E & [_ Hy]%list_elem_of_filter)%list_elem_of_fmap. apply Hni.
  rewrite E. by apply list_elem_of_fmap_2.
Qed.

(** The device nodes of a tier, and the new devices whose node is not among them. *)
Definition known (m : gmap Z SimDev) : list Str := (λ '(_, d), devnode d) <$> map_to_list m.
Definition unknown (m : gmap Z SimDev) (pairs : list (Z * SimDev)) : list (Z * SimDev) :=
  filter (λ '(_, sd), devnode sd ∉ known m) pairs.

Lemma unknown_in m pairs u d : (u, d) ∈ unknown m pairs ↔ (u, d) ∈ pairs ∧ devnode d ∉ known m.
Proof. unfold unknown. rewrite list_elem_of_filter. naive_solver. Qed.

Section devices.
Context (w : World) (p : SimPool) (Hs : supply_ok w) (Hp : pool_ok w p).

Lemma init_cache_fresh paths :
  Forall (λ p, is_absolute p = true) paths → paths ≠ [] → SP.has_cache p = false →
  SP.is_encrypted p = Ok false →
  let '(pairs, w') := SP.new_devs paths EncryptionInfo_default w in
  let p' := SP.with_cache_devs p (SP.extend (cache_devs p) pairs) in
  pool_ok w' p' ∧ later w w' ∧ pairs ≠ [] ∧ SP.has_cache p' = true ∧
  ∀ q, q ∈ paths ↔ q ∈ ((λ '(_, d), devnode d) <$> map_to_list (cache_devs p')).
Proof.
  intros Habs Hne Hc Hienc. pose proof (new_devs_ok paths EncryptionInfo_default w Hs) as Hnew.
  destruct (SP.new_devs _ _ _) as [pairs w']. destruct Hnew as (L & Hpaths & Hnd & Hall). simpl.
  assert (cache_devs p = ∅) as Hemp.
  { destruct (decide (cache_devs p = ∅)); [done|]. by rewrite (proj2 (has_cache_spec p)) in Hc. }
  assert (∀ u d, SP.extend (cache_devs p) pairs !! u = Some d ↔ (u, d) ∈ pairs) as Hext.
  { intros u d. rewrite extend_lookup; [|done|by rewrite Hemp]. rewrite Hemp, lookup_empty. naive_solver. }
  assert (∀ q, q ∈ paths ↔ q ∈ ((λ '(_, d), devnode d) <$> map_to_list (SP.extend (cache_devs p) pairs))) as Hq.
  { intros q. rewrite devnodes_lookup, (devnodes_pairs pairs) by done.
    split; intros (u & d & ? & ?); exists u, d; split; try done; by apply Hext. }
  split; [|split; [done|]; split; [|split]].
  - pose proof (pool_ok_later _ _ _ L Hp) as [? ? ? Hdu ? ? ?]. split; simpl; try done.
    + intros u d [Hu|Hu]; [by apply (Hdu u d); left|]. apply Hext in Hu. destruct (Hall _ _ Hu) as (_ & ? & _).
      split; [done|]. rewrite Forall_forall in Habs. apply Habs, (devnodes_pairs pairs); eauto.
    + intros _ u d Hu. destruct (pool_enc_ok w p Hp) as (enc & E & Hd). rewrite (Hd _ _ Hu).
      destruct (pool_encrypted_ok w p enc Hp E). congruence.
  - intros ->. by destruct paths.
  - apply has_cache_spec. simpl. intros He. destruct paths as [|q0 paths]; [done|].
    assert (q0 ∈ q0 :: paths) as (x & _ & Hin)%Hq%list_elem_of_fmap by by left.
    rewrite He, map_to_list_empty in Hin. by apply elem_of_nil in Hin.
  - done.
Qed.

Lemma init_cache_ok paths : pool_step_ok (InitCache paths) p w.
Proof.
  destruct (validate_paths_cases paths) as [[Ev Habs]|[e Ev]];
    [|eapply step_err; [done|reflexivity|simpl; unfold SP.init_cache; by rewrite Ev]].
  destruct (pool_enc_ok w p Hp) as (enc & E & _). destruct (pool_encrypted_ok w p enc Hp E) as [Ee Hcache].
  destruct (EncryptionInfo_is_encrypted enc) eqn:Henc;
    [eapply step_err; [done|reflexivity|simpl; unfold SP.init_cache; by rewrite Ev, Ee]|].
  destruct (SP.has_cache p) eqn:Hc.
  - destruct (init_cache_idem_cases paths ((λ '(_, bd), devnode bd) <$> map_to_list (cache_devs p)))
      as [[Ei _]|[[e Ei] _]].
    + apply step_same; [done|]. simpl. unfold SP.init_cache. rewrite Ev, Ee. simpl. by rewrite Hc, Ei.
    + eapply step_err; [done|reflexivity|]. simpl. unfold SP.init_cache. rewrite Ev, Ee. simpl. by rewrite Hc, Ei.
  - destruct (decide (paths = [])) as [->|Hne];
      [eapply step_err; [done|reflexivity|simpl; unfold SP.init_cache; rewrite Ee; simpl; by rewrite Hc]|].
    pose proof (init_cache_fresh paths Habs Hne Hc Ee) as Hf.
    destruct (SP.new_devs paths EncryptionInfo_default w) as [pairs w'] eqn:En.
    destruct Hf as (Hp' & L & Hnil & Hc' & Hq).
    eapply (step_change _ _ _ true); [|exact Hp'|done|done|].
    + simpl. unfold SP.init_cache. rewrite Ev, Ee. simpl. rewrite Hc, En. simpl.
      destruct paths; [done|]. simpl. by destruct pairs.
    + simpl. unfold SP.init_cache. rewrite Ev. simpl.
      destruct (pool_enc_ok _ _ Hp') as (enc' & E' & _).
      destruct (pool_encrypted_ok _ _ enc' Hp' E') as [-> Hce].
      rewrite Hce by (by apply has_cache_spec). simpl. rewrite Hc'. simpl.
      destruct (init_cache_idem_cases paths ((λ '(_, bd), devnode bd) <$>
        map_to_list (SP.extend (cache_devs p) pairs))) as [[-> _]|[_ Hno]]; [done|]. by destruct Hno.
Qed.

(** Adding devices to a tier. *)
Definition tier_devs (p : SimPool) (tier : BlockDevTier) : gmap Z SimDev :=
  match tier with Cache => cache_devs p | Data => block_devs p end.
Definition with_tier (p : SimPool) (tier : BlockDevTier) (m : gmap Z SimDev) : SimPool :=
  match tier with Cache => SP.with_cache_devs p m | Data => SP.with_block_devs p m end.

Lemma with_tier_same q tier : with_tier q tier (tier_devs q tier) = q.
Proof. by destruct q, tier. Qed.

(** The devices of a tier after new ones were added. *)
Lemma extend_unknown m pairs u d :
  (∀ u d, m !! u = Some d → used w u) → NoDup pairs.*1 → (∀ u d, (u, d) ∈ pairs → ¬ used w u) →
  SP.extend m (unknown m pairs) !! u = Some d ↔
    m !! u = Some d ∨ ((u, d) ∈ pairs ∧ devnode d ∉ known m).
Proof.
  intros Hm Hnd Hall. rewrite extend_lookup; [by rewrite unknown_in|by apply nodup_filter_fst|].
  intros u1 d1 [Hin _]%unknown_in. destruct (m !! u1) eqn:E; [|done].
  by destruct (Hall _ _ Hin); eapply Hm.
Qed.

Lemma add_fresh paths tier enc pairs w' :
  Forall (λ p, is_absolute p = true) paths →
  (tier = Data → SP.pool_encryption_info p = Ok enc) → (tier = Cache → SP.has_cache p = true) →
  SP.new_devs (remove_dups paths) enc w = (pairs, w') →
  let new := unknown (tier_devs p tier) pairs in
  let p' := with_tier p tier (SP.extend (tier_devs p tier) new) in
  pool_ok w' p' ∧ later w w' ∧ (∀ q, q ∈ paths → q ∈ known (tier_devs p' tier)).
Proof.
  intros Habs Henc Hcache En new p'. pose proof (new_devs_ok (remove_dups paths) enc w Hs) as Hnew.
  rewrite En in Hnew. destruct Hnew as (L & Hpaths & Hnd & Hall).
  assert (∀ u d, tier_devs p' tier !! u = Some d ↔
    tier_devs p tier !! u = Some d ∨ ((u, d) ∈ pairs ∧ devnode d ∉ known (tier_devs p tier))) as Hext.
  { intros u d. rewrite <- extend_unknown; [by destruct tier| |done|intros ?? Hi; by destruct (Hall _ _ Hi)].
    intros u0 d0 Hu0. eapply (po_dev_used _ _ Hp). destruct tier; simpl in Hu0; eauto. }
  assert (∀ u d, (u, d) ∈ pairs → is_absolute (devnode d) = true) as Hpabs.
  { intros u d Hin. rewrite Forall_forall in Habs. apply Habs, elem_of_remove_dups.
    rewrite <- Hpaths. apply list_elem_of_fmap_2, list_elem_of_fmap. by exists (u, d). }
  split; [|split; [done|]].
  - destruct (pool_ok_later _ _ _ L Hp) as [? ? Hne Hdu He Hpa Hca]. destruct tier; simpl in *.
    + specialize (Henc eq_refl). destruct (pool_enc_ok w p Hp) as (enc0 & E0 & Hd0).
      assert (enc0 = enc) as -> by congruence.
      assert (∀ u d, SP.extend (block_devs p) new !! u = Some d → encryption_info d = enc) as Hall'.
      { intros u d [Hu|[Hin _]]%Hext; [by eapply Hd0|]. by destruct (Hall _ _ Hin) as (_ & _ & ?). }
      split; simpl; try done.
      * intros Hz. destruct (map_choose _ Hne) as (u & d & Hu).
        assert (SP.extend (block_devs p) new !! u = Some d) as Hu' by (apply Hext; by left).
        by rewrite Hz, lookup_empty in Hu'.
      * intros u d [[Hu|[Hin _]]%Hext|Hu]; [by apply Hdu; left| |by apply Hdu; right].
        destruct (Hall _ _ Hin) as (_ & ? & _). split; [done|]. by eapply Hpabs.
      * intros u u' d d' Hu Hu'. by rewrite (Hall' _ _ Hu), (Hall' _ _ Hu').
      * intros u u' d d' [Hu|[Hin Hk]]%Hext [Hu'|[Hin' Hk']]%Hext E.
        -- by eapply Hpa.
        -- destruct Hk'. apply devnodes_lookup. eauto.
        -- destruct Hk. apply devnodes_lookup. eauto.
        -- enough ((u, d) = (u', d')) by congruence.
           apply (nodup_map_inj (devnode ∘ snd) pairs); try done.
           rewrite list_fmap_compose. rewrite Hpaths. apply NoDup_remove_dups.
      * intros Hc u d Hu. rewrite (Hall' _ _ Hu). destruct (pool_encrypted_ok w p enc Hp Henc). auto.
    + split; simpl; try done.
      * intros u d [Hu|[Hu|[Hin _]]%Hext]; [by apply Hdu; left|by apply Hdu; right|].
        destruct (Hall _ _ Hin) as (_ & ? & _). split; [done|]. by eapply Hpabs.
      * intros _. apply Hca. apply has_cache_spec. by apply Hcache.
  - intros q Hq. apply devnodes_lookup.
    destruct (decide (q ∈ known (tier_devs p tier))) as [(u & d & Hu & Hd)%devnodes_lookup|Hk].
    + exists u, d. split; [|done]. apply Hext. by left.
    + assert (q ∈ remove_dups paths) as Hq' by by apply elem_of_remove_dups.
      apply (devnodes_pairs pairs _ _ Hpaths) in Hq' as (u & d & Hin & <-).
      exists u, d. split; [|done]. apply Hext. by right.
Qed.

(** The whole request, in terms of tiers. *)
Lemma add_blockdevs_eq q paths tier w0 :
  validate_paths paths = Ok tt → (tier = Cache → SP.has_cache q = true) → paths ≠ [] →
  SP.add_blockdevs q paths tier w0 =
    SP.ptry (match tier with Data => SP.pool_encryption_info q | Cache => Ok EncryptionInfo_default end)
      q w0 (λ enc,
      let '(pairs, w1) := SP.new_devs (remove_dups paths) enc w0 in
      let new := unknown (tier_devs q tier) pairs in
      (Ok (mkSetCreate new.*1), with_tier q tier (SP.extend (tier_devs q tier) new), w1)).
Proof.
  intros Hv Hc Hne. unfold SP.add_blockdevs. rewrite Hv. simpl.
  destruct tier; simpl; [|rewrite Hc by done; simpl]; destruct paths; done.
Qed.

Lemma unknown_nil m pairs paths :
  (devnode <$> pairs.*2) = paths → (∀ q, q ∈ paths → q ∈ known m) → unknown m pairs = [].
Proof.
  intros Hpairs Hk. destruct (unknown m pairs) as [|[u d] l] eqn:E; [done|].
  assert ((u, d) ∈ unknown m pairs) as [Hin Hn]%unknown_in by (rewrite E; by left).
  destruct Hn. apply Hk. apply (devnodes_pairs pairs paths); eauto.
Qed.

Lemma add_blockdevs_ok paths tier : pool_step_ok (AddBlockdevs paths tier) p w.
Proof.
  destruct (validate_paths_cases paths) as [[Ev Habs]|[e Ev]];
    [|eapply step_err; [done|reflexivity|simpl; unfold SP.add_blockdevs; by rewrite Ev]].
  destruct (decide (tier = Cache ∧ SP.has_cache p = false)) as [[-> Hc]|Hc].
  { eapply step_err; [done|reflexivity|]. simpl. unfold SP.add_blockdevs. rewrite Ev. simpl. by rewrite Hc. }
  assert (tier = Cache → SP.has_cache p = true) as Hcache.
  { intros ->. destruct (SP.has_cache p); naive_solver. }
  destruct (decide (paths = [])) as [->|Hne].
  { apply step_same; [done|]. simpl. unfold SP.add_blockdevs. simpl.
    destruct tier; simpl; [done|]. by rewrite Hcache. }
  destruct (pool_enc_ok w p Hp) as (enc0 & E0 & _).
  set (enc := match tier with Data => enc0 | Cache => EncryptionInfo_default end).
  destruct (SP.new_devs (remove_dups paths) enc w) as [pairs w'] eqn:En.
  destruct (add_fresh paths tier enc pairs w') as (Hp' & L & Hk); [done|by intros ->|done|done|].
  set (new := unknown (tier_devs p tier) pairs) in *. set (p' := with_tier p tier _) in *.
  destruct (pool_enc_ok w' p' Hp') as (enc1 & E1 & _).
  pose proof (new_devs_ok (remove_dups paths)
    (match tier with Data => enc1 | Cache => EncryptionInfo_default end) w' (supply_later _ _ L Hs)) as Hnew.
  destruct (SP.new_devs (remove_dups paths) (match tier with Data => enc1 | Cache => _ end) w')
    as [pairs2 w2] eqn:En2. destruct Hnew as (_ & Hp2 & _).
  eapply (step_change _ _ _ (set_is_changed new.*1) p' w' w2); [|done|done| |].
  - simpl. rewrite add_blockdevs_eq by done. assert (match tier with
      Data => SP.pool_encryption_info p | Cache => Ok EncryptionInfo_default end = Ok enc) as ->
      by (unfold enc; destruct tier; done). simpl. rewrite En. done.
  - intros Hf. assert (new = []) as Hnil by (by destruct new). unfold p'. rewrite Hnil. apply with_tier_same.
  - simpl. rewrite add_blockdevs_eq; [|done| |done].
    2: { intros ->. apply has_cache_spec. simpl. destruct paths as [|q0 ps]; [done|].
         destruct (proj1 (devnodes_lookup _ _) (Hk q0 ltac:(by left))) as (u & d & Hu & _).
         intros Hz. simpl in Hu. rewrite Hz in Hu. done. }
    rewrite E1. assert (match tier with Data => Ok enc1 | Cache => Ok EncryptionInfo_default end
      = Ok (match tier with Data => enc1 | Cache => EncryptionInfo_default end)) as -> by by destruct tier.
    simpl. rewrite En2. rewrite (unknown_nil _ pairs2 (remove_dups paths)); [|done|].
    + simpl. by rewrite with_tier_same.
    + intros q Hq. apply Hk. revert Hq. apply elem_of_remove_dups.
Qed.

(** Setting the user info of a device: the pool is the same but for it. *)
Lemma user_info_devs tier u d info :
  tier_devs p tier !! u = Some d →
  let p' := with_tier p tier (<[u := (SD.set_user_info d info).2]> (tier_devs p tier)) in
  pool_ok w p' ∧ ((SD.set_user_info d info).1 = false → p' = p).
Proof.
  intros Hd p'. set (d' := (SD.set_user_info d info).2).
  assert (devnode d' = devnode d ∧ encryption_info d' = encryption_info d) as [Hn He].
  { unfold d', SD.set_user_info. by case_bool_decide. }
  assert (∀ u0 d0, <[u := d']> (tier_devs p tier) !! u0 = Some d0 →
    ∃ d1, tier_devs p tier !! u0 = Some d1 ∧ devnode d0 = devnode d1 ∧ encryption_info d0 = encryption_info d1) as Hl.
  { intros u0 d0 [[<- <-]|[_ ?]]%lookup_insert_Some; eauto. }
  split.
  - destruct Hp as [? ? Hne Hdu Hen Hpa Hca]. unfold p'. destruct tier; simpl in *; split; simpl; try done.
    + apply insert_non_empty.
    + intros u0 d0 [(d1 & Hu & -> & _)%Hl|Hu]; apply Hdu; auto.
    + intros u0 u1 d0 d1 (e0 & Hu & _ & ->)%Hl (e1 & Hu' & _ & ->)%Hl. by eapply Hen.
    + intros u0 u1 d0 d1 (e0 & Hu & -> & _)%Hl (e1 & Hu' & -> & _)%Hl. by eapply Hpa.
    + intros Hc u0 d0 (e0 & Hu & _ & ->)%Hl. by eapply Hca.
    + intros u0 d0 [Hu|(d1 & Hu & -> & _)%Hl]; apply Hdu; auto.
    + intros _. apply Hca. intros Hz. by rewrite Hz, lookup_empty in Hd.
  - intros Hf. assert ((SD.set_user_info d info).2 = d) as Hdd.
    { unfold SD.set_user_info in *. by case_bool_decide. }
    unfold p'. rewrite Hdd, insert_id by done. apply with_tier_same.
Qed.

Lemma set_user_info_eq q u info w0 :
  exec_pool (SetUserInfo u info) q w0 =
    match block_devs q !! u, cache_devs q !! u with
    | Some d, _ => (Ok (SD.set_user_info d info).1,
        with_tier q Data (<[u := (SD.set_user_info d info).2]> (tier_devs q Data)), w0)
    | None, Some d => (Ok (SD.set_user_info d info).1,
        with_tier q Cache (<[u := (SD.set_user_info d info).2]> (tier_devs q Cache)), w0)
    | None, None => (Ok false, q, w0)
    end.
Proof.
  simpl. unfold SP.set_blockdev_user_info.
  destruct (block_devs q !! u) as [d|]; [|destruct (cache_devs q !! u) as [d|]; [|done]];
    destruct (SD.set_user_info d info) as [[] ?]; done.
Qed.

Lemma set_user_info_twice d info :
  SD.set_user_info (SD.set_user_info d info).2 info = (false, (SD.set_user_info d info).2).
Proof.
  assert (∀ e, user_info e = info → SD.set_user_info e info = (false, e)) as Hsame.
  { intros e He. unfold SD.set_user_info. case_bool_decide; [done|reflexivity]. }
  apply Hsame. unfold SD.set_user_info. case_bool_decide as Hi; simpl; [done|exact Hi].
Qed.

Lemma set_user_info_ok u info : pool_step_ok (SetUserInfo u info) p w.
Proof.
  pose proof (set_user_info_eq p u info w) as Eq.
  destruct (block_devs p !! u) as [d|] eqn:Ed; [|destruct (cache_devs p !! u) as [d|] eqn:Ec].
  - destruct (user_info_devs Data u d info Ed) as (Hp' & Hsame).
    eapply step_change; [exact Eq|exact Hp'|done|exact Hsame|].
    rewrite set_user_info_eq. simpl. rewrite lookup_insert_eq, set_user_info_twice. simpl.
    rewrite insert_insert_eq. reflexivity.
  - destruct (user_info_devs Cache u d info Ec) as (Hp' & Hsame).
    eapply step_change; [exact Eq|exact Hp'|done|exact Hsame|].
    rewrite set_user_info_eq. simpl. rewrite Ed, lookup_insert_eq, set_user_info_twice. simpl.
    rewrite insert_insert_eq. reflexivity.
  - by apply step_same.
Qed.
End devices.

(** ** Filesystem requests *)

Lemma validate_name_cases n : validate_name n = Ok tt ∨ ∃ e, validate_name n = Err e.
Proof. unfold validate_name. repeat (case_match; eauto). Qed.

Lemma validate_names_cases names :
  (SP.validate_names names = Ok tt ∧ ∀ n, n ∈ names → validate_name n = Ok tt) ∨
  ∃ e, SP.validate_names names = Err e.
Proof.
  induction names as [|n names IH]; simpl.
  { left. split; [done|]. intros n Hn. by apply elem_of_nil in Hn. }
  destruct (validate_name_cases n) as [En|[e ->]]; [rewrite En; simpl|right; eauto].
  destruct IH as [[-> Hall]|[e ->]]; [left|right; eauto]. split; [done|].
  intros m [->|Hm]%elem_of_cons; auto.
Qed.

(** Replacing the filesystems of a pool. *)
Lemma with_fs_ok w w' p fs :
  pool_ok w p → later w w' → table_ok fs →
  (∀ n u i, entry fs n u i → used w' u ∧ validate_name n = Ok tt) →
  pool_ok w' (SP.with_filesystems p fs).
Proof.
  intros Hp L Ht He. destruct (pool_ok_later _ _ _ L Hp). by split.
Qed.

Lemma with_fs_same p : SP.with_filesystems p (filesystems p) = p.
Proof. by destruct p. Qed.

(** Inserting under a fresh UUID and a free name only adds an entry. *)
Lemma insert_fresh {T} (t : Table Z T) n u i :
  table_ok t → Tbl.contains_name t n = false → (∀ n' i', ¬ entry t n' u i') →
  ∃ t', Tbl.insert t n u i = Ok (None, t') ∧ table_ok t' ∧
    ∀ n' u' i', entry t' n' u' i' ↔ (n', u', i') = (n, u, i) ∨ entry t n' u' i'.
Proof.
  intros Ht Hn Hu. destruct (tbl_insert_ok t n u i Ht) as (t' & E & Hm).
  assert (∀ n' u' i', entry t n' u' i' → n' ≠ n ∧ u' ≠ u) as Hne.
  { intros n' u' i' He. split; intros ->; [|by eapply Hu].
    assert (Tbl.contains_name t n = true) by (apply contains_name_ok; eauto). congruence. }
  assert (displaced t n u = []) as Hd.
  { destruct (displaced t n u) as [|[[n' u'] i'] l] eqn:Ed; [done|].
    assert ((n', u', i') ∈ displaced t n u) as Hin by (rewrite Ed; by left).
    apply displaced_ok in Hin as [He Hor]; [|done]. destruct (Hne _ _ _ He). naive_solver. }
  exists t'. rewrite Hd in E. split; [done|]. split; [by eapply insert_maps_ok|].
  intros n' u' i'. rewrite (insert_maps_entry t t' n u i) by done. naive_solver.
Qed.

(** Removing an item and inserting it again under another, free name. *)
Lemma rename_ok {T} (t : Table Z T) old n u i :
  table_ok t → items t !! u = Some (old, i) → Tbl.contains_name t n = false →
  ∃ t1 t', Tbl.remove_by_uuid t u = (Some (old, i), t1) ∧ Tbl.insert t1 n u i = Ok (None, t') ∧
    table_ok t' ∧
    (∀ n' u' i', entry t' n' u' i' ↔ (n', u', i') = (n, u, i) ∨ entry t n' u' i' ∧ u' ≠ u) ∧
    items t' !! u = Some (n, i).
Proof.
  intros Ht Hu Hc. pose proof (remove_by_uuid_ok t u Ht) as Hr.
  assert ((Tbl.remove_by_uuid t u).1 = Some (old, i)) as E1.
  { unfold Tbl.remove_by_uuid. by rewrite Hu. }
  destruct (Tbl.remove_by_uuid t u) as [r t1]. simpl in E1. subst r. destruct Hr as (Ht1 & _ & He1).
  destruct (insert_fresh t1 n u i Ht1) as (t' & Ei & Ht' & He').
  { destruct (Tbl.contains_name t1 n) eqn:E; [|done]. apply contains_name_ok in E as (u' & i' & [He _]%He1); [|done].
    assert (Tbl.contains_name t n = true) by (apply contains_name_ok; eauto). congruence. }
  { intros n' i' [_ ?]%He1. done. }
  exists t1, t'. split_and!; try done.
  - intros n' u' i'. rewrite He', He1. done.
  - apply He'. by left.
Qed.

Lemma create_loop_done names fs w :
  (∀ n, n ∈ names → Tbl.contains_name fs n = true) → SP.create_loop names fs w = (Ok [], fs, w).
Proof.
  induction names as [|n names IH]; simpl; [done|]. intros Hall. rewrite Hall by by left. simpl.
  apply IH. intros m Hm. apply Hall. by right.
Qed.

(** Creating filesystems: the ones missing are added, nothing else changes. *)
Lemma create_loop_ok names fs w :
  supply_ok w → table_ok fs → (∀ n u i, entry fs n u i → used w u ∧ validate_name n = Ok tt) →
  (∀ n, n ∈ names → validate_name n = Ok tt) →
  ∃ l fs' w', SP.create_loop names fs w = (Ok l, fs', w') ∧ later w w' ∧ table_ok fs' ∧
    (∀ n u i, entry fs' n u i → used w' u ∧ validate_name n = Ok tt) ∧
    (∀ n u i, entry fs n u i → entry fs' n u i) ∧
    (∀ n, n ∈ names → Tbl.contains_name fs' n = true) ∧ (l = [] → fs' = fs).
Proof.
  revert fs w. induction names as [|n names IH]; intros fs w Hs Ht Hu Hv; simpl.
  { exists [], fs, w. split_and!; try done. intros m Hm. by apply elem_of_nil in Hm. }
  assert (∀ m, m ∈ names → validate_name m = Ok tt) as Hv' by (intros m Hm; apply Hv; by right).
  destruct (Tbl.contains_name fs n) eqn:Ec; simpl.
  - destruct (IH fs w Hs Ht Hu Hv') as (l & fs' & w' & E & L & Ht' & Hu' & Hk & Hc & Hn).
    exists l, fs', w'. split_and!; try done. intros m [->|Hm]%elem_of_cons; [|auto].
    apply contains_name_ok in Ec as (u & i & He); [|done]. apply contains_name_ok; eauto.
  - destruct (new_v4_ok w Hs) as (L1 & Hf & Hused). simpl in *.
    destruct (insert_fresh fs n (w_uuid w (w_next w)) (SimFilesystem_new (w_tick w)) Ht Ec)
      as (fs1 & -> & Ht1 & He1).
    { intros n' i' He. apply Hf. by destruct (Hu _ _ _ He). }
    destruct (IH fs1 (w_tick w)) as (l & fs' & w' & E & L & Ht' & Hu' & Hk & Hc & Hn);
      [by eapply supply_later|done| |done|].
    { intros n' u' i' [[= -> -> ->]|He]%He1; [split; [done|apply Hv; by left]|].
      destruct (Hu _ _ _ He). split; [by eapply used_later|done]. }
    rewrite E. simpl. eexists _, fs', w'. split; [done|].
    split; [by transitivity (w_tick w)|]. do 2 (split; [done|]). split; [|split; [|done]].
    + intros n' u' i' He. apply Hk, He1. by right.
    + intros m [->|Hm]%elem_of_cons; [|auto]. apply contains_name_ok; [done|].
      eexists _, _. apply Hk, He1. by left.
Qed.

Section filesystems.
Context (w : World) (p : SimPool) (Hs : supply_ok w) (Hp : pool_ok w p).

Lemma create_filesystems_ok specs : pool_step_ok (CreateFilesystems specs) p w.
Proof.
  destruct (validate_names_cases (remove_dups specs.*1)) as [[Ev Hv]|[e Ev]];
    [|eapply step_err; [done|reflexivity|simpl; unfold SP.create_filesystems; by rewrite Ev]].
  destruct (create_loop_ok (remove_dups specs.*1) (filesystems p) w)
    as (l & fs' & w' & E & L & Ht & Hu & _ & Hc & Hn); [done|apply Hp|apply Hp|done|].
  eapply (step_change _ _ _ (set_is_changed l)).
  - simpl. unfold SP.create_filesystems. rewrite Ev. simpl. by rewrite E.
  - by eapply with_fs_ok.
  - done.
  - intros Hl. rewrite Hn by by destruct l. apply with_fs_same.
  - simpl. unfold SP.create_filesystems. rewrite Ev. simpl. rewrite create_loop_done by done. simpl.
    by destruct p.
Qed.

(** Destroying filesystems. *)
Lemma destroy_loop_ok us fs :
  table_ok fs →
  let '(removed, fs') := SP.destroy_loop us fs in
  table_ok fs' ∧ (∀ n u i, entry fs' n u i ↔ entry fs n u i ∧ u ∉ us) ∧ (removed = [] → fs' = fs).
Proof.
  revert fs. induction us as [|u us IH]; intros fs Ht; simpl.
  { split_and!; try done. intros n u i. rewrite elem_of_nil. naive_solver. }
  pose proof (remove_by_uuid_ok fs u Ht) as Hr.
  assert ((Tbl.remove_by_uuid fs u).1 = None → (Tbl.remove_by_uuid fs u).2 = fs) as Hnone.
  { unfold Tbl.remove_by_uuid. by destruct (items fs !! u) as [[??]|]. }
  destruct (Tbl.remove_by_uuid fs u) as [r fs1]. destruct Hr as (Ht1 & _ & He1). simpl in Hnone.
  specialize (IH fs1 Ht1). destruct (SP.destroy_loop us fs1) as [removed fs']. destruct IH as (Ht' & He & Hn).
  split_and!; [done| |].
  - intros n u' i. rewrite He, He1, not_elem_of_cons. naive_solver.
  - destruct r; [done|]. intros Hr. rewrite Hn by done. by apply Hnone.
Qed.

Lemma destroy_loop_done us fs :
  (∀ u, u ∈ us → items fs !! u = None) → SP.destroy_loop us fs = ([], fs).
Proof.
  induction us as [|u us IH]; simpl; [done|]. intros Hall. unfold Tbl.remove_by_uuid.
  rewrite Hall by by left. rewrite IH; [done|]. intros u' Hu'. apply Hall. by right.
Qed.

Lemma destroy_filesystems_ok us : pool_step_ok (DestroyFilesystems us) p w.
Proof.
  pose proof (destroy_loop_ok us (filesystems p) (po_fs _ _ Hp)) as Hd.
  destruct (SP.destroy_loop us (filesystems p)) as [removed fs'] eqn:E. destruct Hd as (Ht & He & Hn).
  eapply (step_change _ _ _ (set_is_changed removed)).
  - simpl. unfold SP.destroy_filesystems. by rewrite E.
  - apply (with_fs_ok w); try done. intros n u i [Hi _]%He. by eapply po_fs_used.
  - done.
  - intros Hr. rewrite Hn by by destruct removed. apply with_fs_same.
  - simpl. unfold SP.destroy_filesystems. simpl. rewrite destroy_loop_done; [by destruct p|].
    intros u Hu. destruct (items fs' !! u) as [[n i]|] eqn:Ei; [|done].
    by apply He in Ei as [_ ?].
Qed.

Lemma rename_filesystem_ok u n : pool_step_ok (RenameFilesystem u n) p w.
Proof.
  destruct (validate_name_cases n) as [Ev|[e Ev]];
    [|eapply step_err; [done|reflexivity|simpl; unfold SP.rename_filesystem; by rewrite Ev]].
  pose proof (po_fs _ _ Hp) as Ht.
  destruct (items (filesystems p) !! u) as [[old i]|] eqn:Eu.
  2: { apply step_same; [done|]. simpl. unfold SP.rename_filesystem, rename_pre_idem, Tbl.get_by_uuid.
       rewrite Ev. simpl. by rewrite Eu. }
  destruct (decide (old = n)) as [->|Hne].
  { apply step_same; [done|]. simpl. unfold SP.rename_filesystem, rename_pre_idem, Tbl.get_by_uuid.
    rewrite Ev. simpl. rewrite Eu. by rewrite bool_decide_true. }
  destruct (Tbl.contains_name (filesystems p) n) eqn:Ec.
  { eapply step_err; [done|reflexivity|]. simpl. unfold SP.rename_filesystem, rename_pre_idem, Tbl.get_by_uuid.
    rewrite Ev. simpl. rewrite Eu. by rewrite bool_decide_false, Ec. }
  destruct (rename_ok (filesystems p) old n u i Ht Eu Ec) as (t1 & fs' & Er & Ei & Ht' & He & Eu').
  eapply (step_change _ _ _ true _ w).
  - simpl. unfold SP.rename_filesystem, rename_pre_idem, Tbl.get_by_uuid. rewrite Ev. simpl.
    rewrite Eu, bool_decide_false, Ec by done. rewrite Er. simpl. rewrite Ei. simpl. done.
  - apply (with_fs_ok w); try done. intros n' u' i' [[= -> -> ->]|[Hi _]]%He.
    + split; [|done]. by eapply po_fs_used in Eu as [? _].
    + by eapply po_fs_used.
  - done.
  - done.
  - simpl. unfold SP.rename_filesystem, rename_pre_idem, Tbl.get_by_uuid. rewrite Ev. simpl.
    rewrite Eu'. by rewrite bool_decide_true.
Qed.

Lemma snapshot_ok u n : pool_step_ok (SnapshotFilesystem u n) p w.
Proof.
  destruct (validate_name_cases n) as [Ev|[e Ev]];
    [|eapply step_err; [done|reflexivity|simpl; unfold SP.snapshot_filesystem; by rewrite Ev]].
  pose proof (po_fs _ _ Hp) as Ht. destruct (new_v4_ok w Hs) as (L & Hf & Hused). simpl in *.
  destruct (Tbl.contains_name (filesystems p) n) eqn:Ec.
  { apply step_same; [done|]. simpl. unfold SP.snapshot_filesystem. rewrite Ev. simpl. by rewrite Ec. }
  destruct (Tbl.get_by_uuid (filesystems p) u) as [origin|] eqn:Eo.
  2: { eapply (step_err _ _ _ (w_tick w)); [done|done|]. simpl. unfold SP.snapshot_filesystem. rewrite Ev.
       simpl. by rewrite Ec, Eo. }
  destruct (insert_fresh (filesystems p) n (w_uuid w (w_next w)) (SimFilesystem_new (w_tick w)) Ht Ec)
    as (fs' & Ei & Ht' & He).
  { intros n' i' Hi. apply Hf. by eapply po_fs_used in Hi as [? _]. }
  assert (entry fs' n (w_uuid w (w_next w)) (SimFilesystem_new (w_tick w))) as Hnew by (apply He; by left).
  eapply (step_change _ _ _ true _ (w_tick w)).
  - simpl. unfold SP.snapshot_filesystem. rewrite Ev. simpl. rewrite Ec, Eo, Ei. simpl.
    unfold Tbl.get_by_uuid. rewrite Hnew. simpl. done.
  - eapply with_fs_ok; try done. intros n' u' i' [[= -> -> ->]|Hi]%He; [done|].
    eapply po_fs_used in Hi as [? ?]; [|done]. split; [by eapply used_later|done].
  - done.
  - done.
  - simpl. unfold SP.snapshot_filesystem. rewrite Ev. simpl.
    assert (Tbl.contains_name fs' n = true) as -> by (apply contains_name_ok; eauto). done.
Qed.
End filesystems.

Lemma exec_pool_ok c p w : supply_ok w → pool_ok w p → pool_step_ok c p w.
Proof.
  intros Hs Hp. destruct c.
  - by apply init_cache_ok.
  - by apply create_filesystems_ok.
  - by apply add_blockdevs_ok.
  - by apply bind_clevis_ok.
  - by apply unbind_clevis_ok.
  - by apply bind_keyring_ok.
  - by apply unbind_keyring_ok.
  - by apply rebind_keyring_ok.
  - by apply rebind_clevis_ok.
  - by apply destroy_filesystems_ok.
  - by apply rename_filesystem_ok.
  - by apply snapshot_ok.
  - by apply set_user_info_ok.
Qed.

(** ** Engine requests *)

Inductive command :=
| CreatePool (name : Str) (paths : list Str) (redundancy : option Z) (enc : EncryptionInfo)
| DestroyPool (uuid : Z)
| RenamePool (uuid : Z) (new_name : Str)
| OnPool (uuid : Z) (c : pool_command)
| SetKey (key_desc : KeyDescription) (fd_read : res (list Z)) (fd_poll : res Z)
| UnsetKey (key_desc : KeyDescription).

(** What the operating system promises: reading and polling do not panic, and no more
    bytes are read than the buffer holds. *)
Definition command_ok (c : command) : Prop :=
  match c with
  | SetKey _ rd poll =>
      match rd with
      | Ok b => Z.of_nat (length b) ≤ MAX_STRATIS_PASS_SIZE
      | Err _ => True
      | Panic _ => False
      end ∧ (∀ s, poll ≠ Panic s)
  | _ => True
  end.

Definition exec (c : command) (e : SimEngine) (w : World) : SE.outcome bool :=
  match c with
  | CreatePool name paths red enc => flag (SE.create_pool e name paths red enc w)
  | DestroyPool u => flag (SE.destroy_pool e u w)
  | RenamePool u n => flag (SE.rename_pool e u n w)
  | OnPool u c =>
      let '(r, e, w) := SE.on_pool e u (exec_pool c) w in
      (rmap (λ o, match o with Some b => b | None => false end) r, e, w)
  | SetKey kd rd poll =>
      let '(r, k) := Keys.set (key_handler e) kd rd poll in
      (rmap is_changed r, mkEngine (pools e) k, w)
  | UnsetKey kd =>
      let '(r, k) := Keys.unset (key_handler e) kd in
      (rmap is_changed r, mkEngine (pools e) k, w)
  end.

Definition step_ok (c : command) (e : SimEngine) (w : World) : Prop :=
  let '(r, e', w') := exec c e w in
  engine_ok e' w' ∧ later w w' ∧ stable r e e' ∧
  (is_ok r = true → ∃ w'', exec c e' w' = (Ok false, e', w'')).

Lemma estep_same c e w : engine_ok e w → exec c e w = (Ok false, e, w) → step_ok c e w.
Proof. intros He E. unfold step_ok. rewrite E. split; [done|]. split; [done|]. split; [done|eauto]. Qed.

Lemma estep_err c e w r : engine_ok e w → exec c e w = (Err r, e, w) → step_ok c e w.
Proof. intros He E. unfold step_ok. by rewrite E. Qed.

Lemma estep_change c e w b e' w' w'' :
  exec c e w = (Ok b, e', w') → engine_ok e' w' → later w w' → (b = false → e' = e) →
  exec c e' w' = (Ok false, e', w'') → step_ok c e w.
Proof.
  intros E He L Hb E'. unfold step_ok. rewrite E. split; [done|]. split; [done|].
  split; [by destruct b; simpl; auto|eauto].
Qed.

Lemma with_pools_ok e w w' t :
  engine_ok e w → later w w' → table_ok t →
  (∀ n u p, entry t n u p → used w' u ∧ pool_ok w' p) → engine_ok (SE.with_pools e t) w'.
Proof.
  intros [? ? ? ?] L Ht Hp. split; try done. by eapply supply_later.
Qed.

Lemma pools_later e w w' n u p : engine_ok e w → later w w' → entry (pools e) n u p →
  used w' u ∧ pool_ok w' p.
Proof.
  intros He L Hn. destruct (eo_pool _ _ He _ _ _ Hn). split; [by eapply used_later|by eapply pool_ok_later].
Qed.

Section engine.
Context (e : SimEngine) (w : World) (He : engine_ok e w).

Lemma on_pool_ok u c : step_ok (OnPool u c) e w.
Proof.
  destruct (items (pools e) !! u) as [[n p]|] eqn:Eu.
  2: { apply estep_same; [done|]. simpl. unfold SE.on_pool, Tbl.get_mut_by_uuid. by rewrite Eu. }
  destruct (eo_pool _ _ He _ _ _ Eu) as [Hu Hp].
  pose proof (exec_pool_ok c p w (eo_supply _ _ He) Hp) as Hstep. unfold pool_step_ok in Hstep.
  destruct (exec_pool c p w) as [[r p'] w'] eqn:Ep. destruct Hstep as (Hp' & L & Hst & Hid).
  destruct (set_item_ok (pools e) n u p p' (eo_pools _ _ He) Eu) as [Ht' He'].
  set (t' := mkTable (name_to_uuid (pools e)) (<[u := (n, p')]> (items (pools e))) : Table Z SimPool) in *.
  assert (exec (OnPool u c) e w = (r, SE.with_pools e t', w')) as Ec.
  { simpl. unfold SE.on_pool, Tbl.get_mut_by_uuid. rewrite Eu. simpl. rewrite Ep. by destruct r. }
  assert (p' = p → SE.with_pools e t' = e) as Hsame.
  { intros ->. unfold t', SE.with_pools. rewrite insert_id by done. by destruct e as [[??]?]. }
  unfold step_ok. rewrite Ec. split; [|split; [done|]; split].
  - eapply with_pools_ok; try done. intros n0 u0 p0 [[= -> -> ->]|[Hn0 _]]%He'.
    + split; [by eapply used_later|done].
    + by eapply pools_later.
  - destruct r as [[]|?|?]; simpl in *; auto.
  - intros Hok. destruct (Hid Hok) as [w'' Ep']. exists w''. simpl. unfold SE.on_pool, Tbl.get_mut_by_uuid.
    simpl. rewrite lookup_insert_eq. simpl. rewrite Ep'. unfold SE.with_pools. simpl.
    by rewrite insert_insert_eq.
Qed.

Lemma destroy_pool_ok u : step_ok (DestroyPool u) e w.
Proof.
  destruct (items (pools e) !! u) as [[n p]|] eqn:Eu.
  2: { apply estep_same; [done|]. simpl. unfold SE.destroy_pool, Tbl.get_by_uuid. by rewrite Eu. }
  destruct (SP.has_filesystems p) eqn:Ef.
  { eapply estep_err; [done|]. simpl. unfold SE.destroy_pool, Tbl.get_by_uuid. by rewrite Eu, Ef. }
  pose proof (remove_by_uuid_ok (pools e) u (eo_pools _ _ He)) as Hr.
  assert ((Tbl.remove_by_uuid (pools e) u).1 = Some (n, p)) as E1.
  { unfold Tbl.remove_by_uuid. by rewrite Eu. }
  destruct (Tbl.remove_by_uuid (pools e) u) as [r t] eqn:Er. simpl in E1. subst r.
  destruct Hr as (Ht & _ & Hen).
  eapply (estep_change _ _ _ true (SE.with_pools e t) w).
  - simpl. unfold SE.destroy_pool, Tbl.get_by_uuid. by rewrite Eu, Ef, Er.
  - eapply with_pools_ok; try done. intros n0 u0 p0 [Hn0 _]%Hen. by eapply eo_pool.
  - done.
  - done.
  - simpl. unfold SE.destroy_pool, Tbl.get_by_uuid. simpl.
    destruct (items t !! u) as [[n0 p0]|] eqn:Eu'; [|done]. by apply Hen in Eu' as [_ ?].
Qed.

Lemma rename_pool_ok u n : step_ok (RenamePool u n) e w.
Proof.
  destruct (items (pools e) !! u) as [[old p]|] eqn:Eu.
  2: { apply estep_same; [done|]. simpl. unfold SE.rename_pool, rename_pre_idem, Tbl.get_by_uuid. by rewrite Eu. }
  destruct (decide (old = n)) as [->|Hne].
  { apply estep_same; [done|]. simpl. unfold SE.rename_pool, rename_pre_idem, Tbl.get_by_uuid.
    rewrite Eu. by rewrite bool_decide_true. }
  destruct (Tbl.contains_name (pools e) n) eqn:Ec.
  { eapply estep_err; [done|]. simpl. unfold SE.rename_pool, rename_pre_idem, Tbl.get_by_uuid.
    rewrite Eu. by rewrite bool_decide_false, Ec. }
  destruct (rename_ok (pools e) old n u p (eo_pools _ _ He) Eu Ec) as (t1 & t' & Er & Ei & Ht' & Hen & Eu').
  eapply (estep_change _ _ _ true (SE.with_pools e t') w).
  - simpl. unfold SE.rename_pool, rename_pre_idem, Tbl.get_by_uuid.
    rewrite Eu, bool_decide_false, Ec by done. rewrite Er. simpl. rewrite Ei. done.
  - eapply with_pools_ok; try done. intros n0 u0 p0 [[= -> -> ->]|[Hn0 _]]%Hen; by eapply eo_pool.
  - done.
  - done.
  - simpl. unfold SE.rename_pool, rename_pre_idem, Tbl.get_by_uuid. simpl. rewrite Eu'.
    by rewrite bool_decide_true.
Qed.

(** The pool made of a non-empty list of absolute paths. *)
Lemma new_pool_ok paths red enc :
  Forall (λ p, is_absolute p = true) paths → paths ≠ [] →
  let '((u, p), w') := SP.new (remove_dups paths) red enc w in
  pool_ok w' p ∧ later w w' ∧ ¬ used w u ∧ used w' u ∧
  ∀ q, q ∈ paths ↔ (Data, q) ∈ SP.blockdevs p.
Proof.
  intros Habs Hne. unfold SP.new. pose proof (new_v4_ok w (eo_supply _ _ He)) as Hv.
  destruct (new_v4 w) as [u w1]. destruct Hv as (L1 & Hf & Hu).
  pose proof (new_devs_ok (remove_dups (remove_dups paths)) enc w1
    (supply_later _ _ L1 (eo_supply _ _ He))) as Hnew.
  destruct (SP.new_devs _ enc w1) as [pairs w2]. destruct Hnew as (L2 & Hpaths & Hnd & Hall).
  assert (∀ u d, SP.extend ∅ pairs !! u = Some d ↔ (u, d) ∈ pairs) as Hext.
  { intros u0 d0. rewrite extend_lookup; [|done|by intros; rewrite lookup_empty].
    rewrite lookup_empty. naive_solver. }
  assert (∀ q, q ∈ paths ↔ ∃ u d, SP.extend ∅ pairs !! u = Some d ∧ devnode d = q) as Hq.
  { intros q. rewrite <- (elem_of_remove_dups paths), <- (elem_of_remove_dups (remove_dups paths)).
    rewrite (devnodes_pairs pairs) by done. by setoid_rewrite Hext. }
  split; [|split; [by transitivity w1|]; split; [done|]; split; [by eapply used_later|]].
  - split; simpl.
    + apply table_ok_default.
    + intros n0 u0 i0 H0. unfold entry in H0. simpl in H0. by rewrite lookup_empty in H0.
    + intros Hz. destruct paths as [|q paths]; [done|].
      destruct (proj1 (Hq q) ltac:(by left)) as (u0 & d0 & H0 & _). by rewrite Hz, lookup_empty in H0.
    + intros u0 d0 [Hd|Hd]; [|by rewrite lookup_empty in Hd]. apply Hext in Hd as Hin.
      destruct (Hall _ _ Hin) as (_ & ? & _). split; [done|]. rewrite Forall_forall in Habs.
      apply Habs, Hq. eauto.
    + intros u0 u1 d0 d1 H0%Hext H1%Hext. destruct (Hall _ _ H0) as (_ & _ & ->).
      by destruct (Hall _ _ H1) as (_ & _ & ->).
    + intros u0 u1 d0 d1 H0%Hext H1%Hext E. enough ((u0, d0) = (u1, d1)) by congruence.
      apply (nodup_map_inj (devnode ∘ snd) pairs); try done.
      rewrite list_fmap_compose, Hpaths. apply NoDup_remove_dups.
    + done.
  - intros q. rewrite Hq. unfold SP.blockdevs. simpl. rewrite map_to_list_empty. simpl.
    rewrite app_nil_r, list_elem_of_fmap. split.
    + intros (u0 & d0 & Hd & <-). exists (u0, d0). split; [done|]. by apply elem_of_map_to_list.
    + intros ([u0 d0] & [= ->] & Hd%elem_of_map_to_list). eauto.
Qed.

Lemma create_pool_ok name paths red enc : step_ok (CreatePool name paths red enc) e w.
Proof.
  assert (∀ e0 w0, calculate_redundancy red = Ok NONE → validate_name name = Ok tt →
    validate_paths paths = Ok tt → key_handler e0 = key_handler e →
    match key_description enc with
    | Some kd => if Keys.contains_key (key_handler e) kd then Ok tt
                 else Err (Msg "Key was not found in the keyring")
    | None => Ok tt end = Ok tt →
    exec (CreatePool name paths red enc) e0 w0 =
    flag match Tbl.get_by_name (pools e0) name with
    | Some (_, pool) => (create_pool_idempotent_or_err (SP.blockdevs pool) name paths, e0, w0)
    | None => match paths with
      | [] => (Err (Msg "At least one blockdev is required to create a pool."), e0, w0)
      | _ => let '((u, pool), w1) := SP.new (remove_dups paths) NONE enc w0 in
             SE.etry (Tbl.insert (pools e0) name u pool) e0 w1 (λ '(_, t),
             (Ok (CACreated u), SE.with_pools e0 t, w1))
      end
    end) as Eq.
  { intros e0 w0 E1 E2 E3 Ek E4. simpl. unfold SE.create_pool. rewrite E1, E2, E3, Ek, E4. simpl. done. }
  destruct (calculate_redundancy red) as [[]|r1|s1] eqn:E1;
    [|eapply estep_err; [done|simpl; unfold SE.create_pool; by rewrite E1]
     |unfold calculate_redundancy in E1; by destruct red as [[]|]].
  destruct (validate_name_cases name) as [E2|[r2 E2]];
    [|eapply estep_err; [done|simpl; unfold SE.create_pool; by rewrite E1, E2]].
  destruct (validate_paths_cases paths) as [[E3 Habs]|[r3 E3]];
    [|eapply estep_err; [done|simpl; unfold SE.create_pool; by rewrite E1, E2, E3]].
  destruct (match key_description enc with
    | Some kd => if Keys.contains_key (key_handler e) kd then Ok tt
                 else Err (Msg "Key was not found in the keyring")
    | None => Ok tt end) as [[]|r4|s4] eqn:E4;
    [|eapply estep_err; [done|simpl; unfold SE.create_pool; by rewrite E1, E2, E3, E4]
     |exfalso; by repeat case_match].
  pose proof (Eq e w eq_refl E2 E3 eq_refl eq_refl) as Ec.
  destruct (Tbl.get_by_name (pools e) name) as [[u p]|] eqn:En.
  { destruct (create_pool_idempotent_ok (SP.blockdevs p) name paths _ eq_refl) as [[Ei _]|[[r Ei] _]];
      rewrite Ei in Ec; [by apply estep_same|by eapply estep_err]. }
  destruct (decide (paths = [])) as [->|Hne]; [by eapply estep_err|].
  assert (∀ A (x y : A), match paths with [] => x | _ => y end = y) as Hm by (by destruct paths).
  rewrite Hm in Ec. pose proof (new_pool_ok paths NONE enc Habs Hne) as Hnew.
  destruct (SP.new (remove_dups paths) NONE enc w) as [[u p] w'] eqn:Ep.
  destruct Hnew as (Hp & L & Hf & Hu & Hq). pose proof (eo_pools _ _ He) as Ht.
  destruct (insert_fresh (pools e) name u p Ht) as (t' & Ei & Ht' & Hen).
  { destruct (Tbl.contains_name (pools e) name) eqn:Ecn; [|done].
    apply contains_name_ok in Ecn as (u0 & i0 & H0%get_by_name_ok); [congruence|done|done]. }
  { intros n0 i0 H0. apply Hf. by eapply eo_pool in H0 as [? _]. }
  rewrite Ei in Ec. simpl in Ec.
  assert (Tbl.get_by_name (pools (SE.with_pools e t')) name = Some (u, p)) as Eg.
  { apply get_by_name_ok; [done|]. apply Hen. by left. }
  eapply (estep_change _ _ _ true _ w' w'); [exact Ec| |done|done|].
  - eapply with_pools_ok; try done. intros n0 u0 p0 [[= -> -> ->]|H0]%Hen; [done|]. by eapply pools_later.
  - rewrite (Eq (SE.with_pools e t') w' eq_refl E2 E3 eq_refl eq_refl), Eg.
    destruct (create_pool_idempotent_ok (SP.blockdevs p) name paths _ eq_refl) as [[-> _]|[_ Hno]]; [done|].
    by destruct Hno.
Qed.

Lemma set_key_ok kd rd poll : command_ok (SetKey kd rd poll) → step_ok (SetKey kd rd poll) e w.
Proof.
  intros [Hrd Hpoll]. simpl in Hrd.
  assert ((∃ r, set_key_shared rd poll = Err r) ∨
    ∃ mem, set_key_shared rd poll = Ok mem ∧ Z.of_nat (length mem) ≤ MAX_STRATIS_PASS_SIZE) as Hkey.
  { unfold set_key_shared. destruct rd as [b|r|s]; simpl; [|left; eauto|done].
    destruct (_ =? _); [|right; eauto]. destruct poll as [z|r|s]; simpl; [|left; eauto|by destruct (Hpoll s)].
    destruct (0 <? z); [left; eauto|right; eauto]. }
  destruct Hkey as [[r Ek]|(mem & Ek & Hlen)].
  { eapply estep_err; [done|]. simpl. unfold Keys.set. rewrite Ek. simpl. by destruct e. }
  assert (∀ (k : Keys.SimKeyActions), k !! kd = Some mem →
    Keys.set k kd rd poll = (Ok MCIdentity, k)) as Hid.
  { intros k Hk. unfold Keys.set, Keys.read. rewrite Ek, Hk, take_ge by lia. by rewrite bool_decide_true. }
  assert (engine_ok (mkEngine (pools e) (<[kd := mem]> (key_handler e))) w) as He'.
  { destruct He as [? ? ? Hks]. split; try done. simpl. intros k v [[<- <-]|[_ Hk]]%lookup_insert_Some; eauto. }
  destruct (key_handler e !! kd) as [v|] eqn:Ev.
  - pose proof (eo_keys _ _ He _ _ Ev) as Hv. destruct (decide (v = mem)) as [->|Hne].
    + apply estep_same; [done|]. simpl. rewrite Hid by done. simpl. by destruct e.
    + eapply (estep_change _ _ _ true _ w w); [|exact He'|done|done|].
      * simpl. unfold Keys.set, Keys.read. rewrite Ek, Ev, take_ge by lia.
        by rewrite bool_decide_false.
      * simpl. by rewrite Hid by apply lookup_insert_eq.
  - eapply (estep_change _ _ _ true _ w w); [|exact He'|done|done|].
    + simpl. unfold Keys.set, Keys.read. by rewrite Ek, Ev.
    + simpl. by rewrite Hid by apply lookup_insert_eq.
Qed.

Lemma unset_key_ok kd : step_ok (UnsetKey kd) e w.
Proof.
  destruct (key_handler e !! kd) as [v|] eqn:Ev.
  - eapply (estep_change _ _ _ true (mkEngine (pools e) (delete kd (key_handler e))) w w).
    + simpl. unfold Keys.unset. by rewrite Ev.
    + destruct He as [? ? ? Hks]. split; try done. simpl. intros k v0 [_ Hk]%lookup_delete_Some; eauto.
    + done.
    + done.
    + cbn [exec key_handler]. unfold Keys.unset.
      assert (delete kd (key_handler e) !! kd = None) as Hnone by apply lookup_delete_eq. by rewrite Hnone.
  - apply estep_same; [done|]. simpl. unfold Keys.unset. rewrite Ev. simpl. by destruct e.
Qed.

Lemma exec_ok c : command_ok c → step_ok c e w.
Proof.
  intros Hc. destruct c.
  - apply create_pool_ok.
  - apply destroy_pool_ok.
  - apply rename_pool_ok.
  - apply on_pool_ok.
  - by apply set_key_ok.
  - apply unset_key_ok.
Qed.
End engine.

(** ** Properties *)

(** The states the engine can get into, from start-up, by requests. *)
Inductive reachable : SimEngine → World → Prop :=
| reach_start w : supply_ok w → reachable SE.default w
| reach_step e w c r e' w' :
    reachable e w → command_ok c → exec c e w = (r, e', w') → reachable e' w'.

Lemma default_ok w : supply_ok w → engine_ok SE.default w.
Proof.
  intros Hs. split; [done|apply table_ok_default|..].
  - intros n u p Hn. unfold entry in Hn. simpl in Hn. by rewrite lookup_empty in Hn.
  - intros k v Hk. simpl in Hk. by apply (lookup_empty_Some (M:=gmap KeyDescription)) in Hk.
Qed.

Lemma reachable_ok e w : reachable e w → engine_ok e w.
Proof.
  induction 1 as [w Hs|e w c r e' w' _ He Hc E]; [by apply default_ok|].
  pose proof (exec_ok e w He c Hc) as Hstep. unfold step_ok in Hstep. rewrite E in Hstep. apply Hstep.
Qed.

(** C31: In every state the simulator engine can reach, names and UUIDs of pools and of each
    pool's filesystems are in one-to-one correspondence, every pool has at least one data device,
    its data devices share one encryption and have different absolute paths, and only
    unencrypted pools have a cache; no request panics; and a request that
    fails or reports that nothing changed leaves the engine exactly as it was. *)
Theorem sim_engine_invariant e w c :
  reachable e w → command_ok c →
  let '(r, e', w') := exec c e w in
  engine_ok e w ∧ engine_ok e' w' ∧
  match r with Panic _ => False | Err _ | Ok false => e' = e | Ok true => True end.
Proof.
  intros He%reachable_ok Hc. pose proof (exec_ok e w He c Hc) as Hstep. unfold step_ok in Hstep.
  destruct (exec c e w) as [[r e'] w']. destruct Hstep as (? & _ & Hst & _). split_and!; try done.
Qed.

(** Requests are idempotent: a request that succeeded succeeds again if repeated,
    reports that nothing changed, and leaves the engine as it is. *)
Theorem sim_engine_idempotent e w c b e' w' :
  reachable e w → command_ok c → exec c e w = (Ok b, e', w') →
  ∃ w'', exec c e' w' = (Ok false, e', w'').
Proof.
  intros He%reachable_ok Hc E. pose proof (exec_ok e w He c Hc) as Hstep. unfold step_ok in Hstep.
  rewrite E in Hstep. destruct Hstep as (_ & _ & _ & Hid). by apply Hid.
Qed.

(** A device that can be unlocked some way. *)
Definition unlockable (d : SimDev) : bool := EncryptionInfo_is_encrypted (encryption_info d).

Definition keeps_unlockable (p p' : SimPool) : Prop :=
  ∀ u d, block_devs p !! u = Some d → unlockable d = true →
    ∃ d', block_devs p' !! u = Some d' ∧ unlockable d' = true.

Lemma keeps_refl p p' : block_devs p' = block_devs p → keeps_unlockable p p'.
Proof. intros E u d Hu Hd. rewrite E. eauto. Qed.

Lemma keeps_fmap p f :
  (∀ u d, block_devs p !! u = Some d → unlockable (f d) = true) →
  keeps_unlockable p (SP.with_block_devs p (f <$> block_devs p)).
Proof. intros Hf u d Hu Hd. exists (f d). simpl. rewrite lookup_fmap, Hu. split; [done|eauto]. Qed.

Lemma keeps_extend w p pairs (P : Z * SimDev → Prop) `{∀ x, Decision (P x)} :
  pool_ok w p → NoDup pairs.*1 → (∀ u d, (u, d) ∈ pairs → ¬ used w u) →
  keeps_unlockable p (SP.with_block_devs p (SP.extend (block_devs p) (filter P pairs))).
Proof.
  intros Hp Hnd Hf u d Hu Hd. exists d. simpl. split; [|done].
  rewrite extend_lookup; [by left|by apply nodup_filter_fst|].
  intros u1 d1 [_ Hin]%list_elem_of_filter. destruct (block_devs p !! u1) as [d2|] eqn:E; [|done].
  destruct (Hf _ _ Hin). eapply (po_dev_used _ _ Hp). eauto.
Qed.

#[local] Arguments SP.new_devs : simpl never.
#[local] Arguments remove_dups : simpl never.

(** Take a request apart into its branches. *)
Ltac branches E := unfold flag, SP.ptry, rmap in E; repeat (case_match; simplify_eq/=); try done.

(** Unlocking survives any request on a pool. *)
Lemma exec_keeps_unlockable c p w r p' w' :
  supply_ok w → pool_ok w p → exec_pool c p w = (r, p', w') → keeps_unlockable p p'.
Proof.
  intros Hs Hp E. destruct (pool_enc_ok w p Hp) as (enc & Eenc & Hall).
  assert (∀ (f : SimDev → SimDev) g, (∀ d, encryption_info (f d) = g (encryption_info d)) →
    EncryptionInfo_is_encrypted (g enc) = true →
    keeps_unlockable p (SP.with_block_devs p (f <$> block_devs p))) as Hset.
  { intros f g Hf Hg. apply keeps_fmap. intros u d Hu. unfold unlockable. by rewrite Hf, (Hall u d Hu). }
  destruct c; simpl in E.
  - unfold SP.init_cache in E. branches E; by apply keeps_refl.
  - unfold SP.create_filesystems in E. branches E; by apply keeps_refl.
  - unfold SP.add_blockdevs in E. branches E; try by apply keeps_refl.
    all: match goal with Hn : SP.new_devs ?l ?en ?w0 = (?ps, ?w1) |- _ =>
      pose proof (new_devs_ok l en w0 Hs) as Hnew; rewrite Hn in Hnew;
      destruct Hnew as (_ & _ & Hnd & Hfresh); apply (keeps_extend w0 p ps); [done|done|]; intros ?? Hin; by destruct (Hfresh _ _ Hin)
    end.
  - unfold SP.bind_clevis in E. rewrite Eenc in E. branches E; try by apply keeps_refl.
    apply (Hset _ (λ e, mkEnc (key_description e) (Some (pin, config)))); [done|].
    unfold EncryptionInfo_is_encrypted. simpl. apply orb_true_r.
  - unfold SP.unbind_clevis in E. rewrite Eenc in E. branches E; try by apply keeps_refl.
    apply (Hset _ (λ e, mkEnc (key_description e) None)); [done|].
    unfold EncryptionInfo_is_encrypted. simpl. by destruct (key_description enc).
  - unfold SP.bind_keyring in E. rewrite Eenc in E. branches E; try by apply keeps_refl.
    by apply (Hset _ (λ e, mkEnc (Some key_desc) (clevis_info e))).
  - unfold SP.unbind_keyring in E. rewrite Eenc in E. branches E; try by apply keeps_refl.
    apply (Hset _ (λ e, mkEnc None (clevis_info e))); [done|].
    unfold EncryptionInfo_is_encrypted. simpl. by destruct (clevis_info enc).
  - unfold SP.rebind_keyring in E. rewrite Eenc in E. branches E; try by apply keeps_refl.
    by apply (Hset _ (λ e, mkEnc (Some key_desc) (clevis_info e))).
  - unfold SP.rebind_clevis in E. branches E; by apply keeps_refl.
  - unfold SP.destroy_filesystems in E. branches E; by apply keeps_refl.
  - unfold SP.rename_filesystem in E. branches E; by apply keeps_refl.
  - unfold SP.snapshot_filesystem in E. branches E; by apply keeps_refl.
  - change (exec_pool (SetUserInfo uuid info) p w = (r, p', w')) in E. rewrite set_user_info_eq in E.
    branches E; try by apply keeps_refl.
    intros u d Hu Hd. simpl. destruct (decide (u = uuid)) as [->|Hne].
    + rewrite lookup_insert_eq. eexists. split; [done|]. simplify_eq.
      unfold SD.set_user_info. by case_bool_decide.
    + rewrite lookup_insert_ne by done. eauto.
Qed.

(** No request takes the last way to unlock a device away: a data device of a pool that
    could be unlocked by a passphrase or by Clevis before a request on the pool is
    still in the pool after it, whatever the outcome, and can still be unlocked. *)
Theorem sim_pool_keeps_unlockable e w n u p c r p' w' :
  reachable e w → entry (pools e) n u p → exec_pool c p w = (r, p', w') →
  ∀ du d, block_devs p !! du = Some d → unlockable d = true →
    ∃ d', block_devs p' !! du = Some d' ∧ unlockable d' = true.
Proof.
  intros He%reachable_ok Hn E. destruct (eo_pool _ _ He _ _ _ Hn) as [_ Hp].
  eapply exec_keeps_unlockable; [apply He|exact Hp|exact E].
Qed.

(** ** Witnesses *)

Definition ex_world : World := mkWorld (λ i, Z.of_nat i) (λ _, 0) (λ _, 1600000000) 0.

Definition ex_enc : EncryptionInfo := mkEnc (Some (str "key")) None.

Definition ex_commands : list command :=
  [SetKey (str "key") (Ok [1; 2; 3]) (Ok 0);
   CreatePool (str "p") [str "/dev/a"; str "/dev/b"; str "/dev/a"] None ex_enc;
   OnPool 0 (CreateFilesystems [(str "f1", None); (str "f2", None)]);
   OnPool 0 (BindClevis (str "tang") (Object []));
   OnPool 0 UnbindKeyring].

Fixpoint run (cs : list command) (e : SimEngine) (w : World) : list (res bool) * SimEngine * World :=
  match cs with
  | [] => ([], e, w)
  | c :: rest =>
      let '(r, e, w) := exec c e w in
      let '(rs, e, w) := run rest e w in (r :: rs, e, w)
  end.

Lemma run_reachable cs e w : reachable e w → Forall command_ok cs →
  reachable (run cs e w).1.2 (run cs e w).2.
Proof.
  intros Hr Hcs. revert e w Hr. induction Hcs as [|c cs Hc _ IH]; intros e w Hr; simpl; [done|].
  destruct (exec c e w) as [[r e'] w'] eqn:E. specialize (IH e' w').
  destruct (run cs e' w') as [[rs e''] w'']. apply IH. by eapply reach_step.
Qed.

Lemma ex_supply : supply_ok ex_world.
Proof. intros i j. simpl. lia. Qed.

Definition ex_state : SimEngine * World :=
  let '(_, e, w) := run ex_commands SE.default ex_world in (e, w).

Lemma ex_reachable : reachable ex_state.1 ex_state.2.
Proof.
  unfold ex_state. pose proof (run_reachable ex_commands SE.default ex_world) as Hr.
  destruct (run ex_commands SE.default ex_world) as [[rs e] w]. apply Hr.
  - constructor. apply ex_supply.
  - repeat constructor; simpl; try done.
Qed.

(** Unbinding the keyring again leaves the pool as it is. *)
Lemma sim_engine_invariant_witness :
  let '(r, e', w') := exec (OnPool 0 UnbindClevis) ex_state.1 ex_state.2 in
  engine_ok ex_state.1 ex_state.2 ∧ engine_ok e' w' ∧
  match r with Panic _ => False | Err _ | Ok false => e' = ex_state.1 | Ok true => True end.
Proof. apply sim_engine_invariant; [apply ex_reachable|exact I]. Defined.

Lemma sim_engine_idempotent_witness :
  (run ex_commands SE.default ex_world).1.1 = [Ok true; Ok true; Ok true; Ok true; Ok true] ∧
  let '(r, e', w') := exec (DestroyPool 7) ex_state.1 ex_state.2 in
  ∃ w'', exec (DestroyPool 7) e' w' = (Ok false, e', w'').
Proof.
  split; [vm_compute; reflexivity|].
  destruct (exec (DestroyPool 7) ex_state.1 ex_state.2) as [[r e'] w'] eqn:E.
  assert (r = Ok false) as ->.
  { change (r = Ok false) with ((r, e', w').1.1 = Ok false). rewrite <- E. vm_compute. reflexivity. }
  apply (sim_engine_idempotent ex_state.1 ex_state.2 (DestroyPool 7) false e' w'
    ex_reachable I E).
Defined.

(** The pool of the example, whose devices are unlocked by Clevis alone. *)
Definition ex_pool : SimPool :=
  match items (pools ex_state.1) !! 0 with Some (_, p) => p | None => mkSimPool ∅ ∅ Tbl.default NONE end.

Lemma sim_pool_keeps_unlockable_witness :
  let p' := (exec_pool UnbindClevis ex_pool ex_state.2).1.2 in
  (exec_pool UnbindClevis ex_pool ex_state.2).1.1 = Err (Msg "This device is not bound to a keyring passphrase; refusing to remove the only unlocking method") ∧
  ∀ du d, block_devs ex_pool !! du = Some d → unlockable d = true →
    ∃ d', block_devs p' !! du = Some d' ∧ unlockable d' = true.
Proof.
  split; [vm_compute; reflexivity|].
  eapply (sim_pool_keeps_unlockable ex_state.1 ex_state.2 (str "p") 0 ex_pool UnbindClevis
    (exec_pool UnbindClevis ex_pool ex_state.2).1.1 _ (exec_pool UnbindClevis ex_pool ex_state.2).2).
  - apply ex_reachable.
  - vm_compute. reflexivity.
  - by destruct (exec_pool UnbindClevis ex_pool ex_state.2) as [[??]?].
Defined.
