(* ===== verification/System.v ===== *)
(** * The system around the engine

    The device files, the clock, the random UUIDs, and the calls to libcryptsetup, the
    [clevis] programs and the kernel keyring.  The latter are events: [cryptE A] lists
    the calls the engine makes with the type of their results, and an
    instance of [Cryptsetup] is a state and the answer to every call.  Nothing is assumed
    about the answers: every call may fail at any time. *)
From stdpp Require Import base list gmap strings.
From Stdlib Require Import ZArith Lia.
From S2P Require Import Prelude Disk Json MDA Shared.

(** [SizedKeyMemory] *)
Definition KeyData : Type := list Z.

Inductive CryptStatusInfo := Invalid | Inactive | Active | Busy.

(** [UdevEngineDevice]; a property value that is no string of the OS's encoding is [None]. *)
Record UdevEngineDevice : Type := mkUdev {
  is_initialized : bool; udev_devnode : option Str; devnum : option Z;
  properties : gmap Str (option Str) }.

(** The calls; a [CryptDevice] is the path it was opened with. *)
Inductive cryptE : Type → Type :=
(* libcryptsetup *)
| CryptInit_init (path : Str) : cryptE unit
| context_load (path : Str) : cryptE unit
| context_format (path : Str) : cryptE unit
| set_metadata_size (path : Str) (metadata keyslots : Z) : cryptE unit
| get_metadata_size (path : Str) : cryptE (Z * Z)
| json_get (path : Str) (token_id : Z) : cryptE Value
| json_set (path : Str) (token_id : Z) (token : option Value) : cryptE unit
| luks2_keyring_get (path : Str) (token_id : Z) : cryptE Str
| luks2_keyring_set (path : Str) (token_id : Z) (key_desc : Str) : cryptE unit
| assign_keyslot (path : Str) (token_id keyslot : Z) : cryptE unit
| add_by_passphrase (path : Str) (pass key : KeyData) : cryptE Z
| change_by_passphrase (path : Str) (pass key : KeyData) : cryptE Z
| add_by_key (path : Str) (key : KeyData) : cryptE Z
| keyslot_destroy (path : Str) (keyslot : Z) : cryptE unit
| activate_by_token (path : Str) (name : option Str) (token_id : Z) : cryptE unit
| activate_by_passphrase (path : Str) (keyslot : Z) (pass : KeyData) : cryptE unit
| crypt_status (name : Str) : cryptE CryptStatusInfo
| crypt_deactivate (path name : Str) : cryptE unit
| crypt_wipe (path : Str) (length : Z) : cryptE unit
| get_active_device_size (path name : Str) : cryptE Z
| header_backup (path file : Str) : cryptE unit
| header_restore (path file : Str) : cryptE unit
(* the clevis programs *)
| clevis_luks_bind (path : Str) (key : KeyData) (token_id : Z) (pin : Str) (json : Value) (yes : bool)
    : cryptE unit
| clevis_luks_unbind (path : Str) (keyslot : Z) : cryptE unit
| clevis_luks_regen (path : Str) (keyslot : Z) : cryptE unit
| clevis_luks_unlock (path name : Str) : cryptE unit
| clevis_decrypt (jwe : Value) : cryptE KeyData
(* the kernel keyring and memory-backed key files *)
| read_key_persistent (system_key_desc : Str) : cryptE (option (Z * KeyData))
| search_key_persistent (system_key_desc : Str) : cryptE (option Z)
| MemoryPrivateFilesystem_new : cryptE unit
| MemoryMappedKeyfile_new (key : KeyData) : cryptE unit
| read_urandom (len : Z) : cryptE KeyData
(* temporary directories, other paths *)
| TempDir_new : cryptE Str
| remove_dir_all (path : Str) : cryptE unit
| path_exists (path : Str) : cryptE bool
| canonicalize (path : Str) : cryptE Str
| stat_rdev (path : Str) : cryptE Z
| path_is_dir (path : Str) : cryptE bool
| stat_dev (path : Str) : cryptE Z
| mkdir_all (path : Str) : cryptE unit
| mount_tmpfs (path : Str) : cryptE unit
| mount_slave (path : Str) : cryptE unit
| umount_path (path : Str) : cryptE unit
(* the udev database: the block devices, in the order of the scan *)
| udev_scan : cryptE (list UdevEngineDevice).

Class Cryptsetup : Type := {
  Luks : Type;
  answer : ∀ {A}, cryptE A → Luks → (StratisError + A) * Luks
}.

(** A directory of files on a mounted filesystem: the contents by name, and a fault oracle as for
    a [File]. *)
Record Vol : Type := mkVol { v_files : gmap Str (list Z); v_ops : nat; v_fault : nat → option nat }.

(** Everything the engine sees of the system: the device files by path, directories, the state behind
    [Cryptsetup], and the values [Uuid::new_v4] and [Utc::now] return, call by call. *)
Record Sys `{Cryptsetup} : Type := mkSys {
  s_files : gmap Str File; s_dirs : gmap Str Vol; s_luks : Luks;
  s_uuid : nat → Z; s_now : nat → DateTime; s_next : nat }.
Arguments mkSys {_} _ _ _ _ _ _.

Section sys.
Context `{Cryptsetup}.

Definition sys : Type → Type := st Sys.

Definition set_files (s : Sys) (fs : gmap Str File) : Sys :=
  mkSys fs (s_dirs s) (s_luks s) (s_uuid s) (s_now s) (s_next s).
Definition set_dirs (s : Sys) (ds : gmap Str Vol) : Sys :=
  mkSys (s_files s) ds (s_luks s) (s_uuid s) (s_now s) (s_next s).
Definition set_luks (s : Sys) (l : Luks) : Sys :=
  mkSys (s_files s) (s_dirs s) l (s_uuid s) (s_now s) (s_next s).
Definition sys_tick (s : Sys) : Sys :=
  mkSys (s_files s) (s_dirs s) (s_luks s) (s_uuid s) (s_now s) (S (s_next s)).

Definition call {A} (e : cryptE A) : sys A := λ s,
  let '(r, l) := answer e (s_luks s) in
  (match r with inr a => Ok a | inl err => Err err end, set_luks s l).

(** [.ok()] of a call *)
Definition call_ok {A} (e : cryptE A) : sys (option A) := λ s,
  let '(r, l) := answer e (s_luks s) in
  (Ok (match r with inr a => Some a | inl _ => None end), set_luks s l).

(** [OpenOptions::new()....open(path)?], for writing or not, and a use of the file *)
Definition open_with {A} (write : bool) (path : Str) (m : io A) : sys A := λ s,
  match s_files s !! path with
  | None => (Err (Io "open"), s)
  | Some f =>
      let '(r, f') := m (set_mode write (set_pos 0 f)) in (r, set_files s (<[path := f']> (s_files s)))
  end.
Definition with_file {A} (path : Str) (m : io A) : sys A := open_with true path m.
(** [OpenOptions::new().read(true).open(path)?] *)
Definition with_file_ro {A} (path : Str) (m : io A) : sys A := open_with false path m.

(** operations on the files of a directory; [Io "NotFound"] when there is no such directory *)
Definition with_dir {A} (path : Str) (m : st Vol A) : sys A := λ s,
  match s_dirs s !! path with
  | None => (Err (Io "NotFound"), s)
  | Some v => let '(r, v') := m v in (r, set_dirs s (<[path := v']> (s_dirs s)))
  end.

(** [Uuid::new_v4()] *)
Definition new_v4 : sys Z := λ s, (Ok (s_uuid s (s_next s)), sys_tick s).
(** [Utc::now()] *)
Definition utc_now : sys DateTime := λ s, (Ok (s_now s (s_next s)), sys_tick s).
End sys.
