(* ===== verification/Names.v ===== *)
(** * Names given to the system: key descriptions and devicemapper names

    Models [src/engine/strat_engine/names.rs].  [DmNameBuf::new] and [DmUuidBuf::new]
    are the devicemapper crate's: they are the class [DmNames], with the documented
    fact that a non-empty ASCII string short enough is accepted. *)
From stdpp Require Import base list strings.
From Stdlib Require Import ZArith Lia.
From S2P Require Import Prelude Disk External Json Shared.

Class DmNames : Type := {
  DmNameBuf_new : Str → option Str;
  DmUuidBuf_new : Str → option Str;
  dm_name_accepts : ∀ s, s ≠ [] → Forall (λ c, 0 ≤ c < 128) s → (length s < 128)%nat →
    DmNameBuf_new s = Some s;
  dm_uuid_accepts : ∀ s, s ≠ [] → Forall (λ c, 0 ≤ c < 128) s → (length s < 129)%nat →
    DmUuidBuf_new s = Some s
}.

(** [FORMAT_VERSION] and its decimal text *)
Definition FORMAT_VERSION : Z := 1.
Definition format_version : Str := [48 + FORMAT_VERSION].

(** ** Key descriptions *)

Definition key_description_prefix : Str := str "stratis-" ++ format_version ++ str "-key-".

Fixpoint starts_with (prefix s : Str) : bool :=
  match prefix, s with
  | [], _ => true
  | p :: ps, c :: cs => (p =? c) && starts_with ps cs
  | _ :: _, [] => false
  end.

Definition from_system_key_desc (raw_key_desc : Str) : option (res KeyDescription) :=
  if starts_with key_description_prefix raw_key_desc then
    let key_desc := drop (length key_description_prefix) raw_key_desc in
    if bool_decide (key_desc = []) then None else Some (KeyDescription_try_from key_desc)
  else None.

Definition to_system_string (self : KeyDescription) : Str := key_description_prefix ++ self.

(** ** Devicemapper names *)

Inductive FlexRole := MetadataVolume | ThinData | ThinMeta | ThinMetaSpare.
Definition FlexRole_fmt (r : FlexRole) : Str :=
  match r with
  | MetadataVolume => str "mdv" | ThinData => str "thindata"
  | ThinMeta => str "thinmeta" | ThinMetaSpare => str "thinmetaspare"
  end.

Inductive ThinPoolRole := Pool.
Definition ThinPoolRole_fmt (r : ThinPoolRole) : Str := match r with Pool => str "pool" end.

Inductive CacheRole := RCache | CacheSub | MetaSub | OriginSub.
Definition CacheRole_fmt (r : CacheRole) : Str :=
  match r with
  | RCache => str "cache" | CacheSub => str "cachesub"
  | MetaSub => str "metasub" | OriginSub => str "originsub"
  end.

Section names.
Context `{UuidFormat} `{DmNames}.

Inductive ThinRole := Filesystem (uuid : Z).
Definition ThinRole_fmt (r : ThinRole) : Str :=
  match r with Filesystem uuid => str "fs-" ++ uuid_simple uuid end.

Definition format_crypt_name (dev_uuid : Z) : Str :=
  str "stratis-" ++ format_version ++ str "-private-" ++ uuid_simple dev_uuid ++ str "-crypt".

Definition dm_ids (value : Str) : res (Str * Str) :=
  let? name := expect (DmNameBuf_new value) "FORMAT_VERSION display length" in
  let? uuid := expect (DmUuidBuf_new value) "FORMAT_VERSION display length" in
  Ok (name, uuid).

Definition format_flex_ids (pool_uuid : Z) (role : FlexRole) : res (Str * Str) :=
  dm_ids (str "stratis-" ++ format_version ++ str "-private-" ++ uuid_simple pool_uuid ++
          str "-flex-" ++ FlexRole_fmt role).

Definition format_thin_ids (pool_uuid : Z) (role : ThinRole) : res (Str * Str) :=
  dm_ids (str "stratis-" ++ format_version ++ str "-" ++ uuid_simple pool_uuid ++
          str "-thin-" ++ ThinRole_fmt role).

Definition format_thinpool_ids (pool_uuid : Z) (role : ThinPoolRole) : res (Str * Str) :=
  dm_ids (str "stratis-" ++ format_version ++ str "-private-" ++ uuid_simple pool_uuid ++
          str "-thinpool-" ++ ThinPoolRole_fmt role).

Definition format_backstore_ids (pool_uuid : Z) (role : CacheRole) : res (Str * Str) :=
  dm_ids (str "stratis-" ++ format_version ++ str "-private-" ++ uuid_simple pool_uuid ++
          str "-physical-" ++ CacheRole_fmt role).

End names.

(** ** Properties *)

Lemma starts_with_app p s : starts_with p (p ++ s) = true.
Proof. induction p as [|c p IH]; [done|]. simpl. by rewrite Z.eqb_refl, IH. Qed.

Lemma starts_with_split p s : starts_with p s = true → s = p ++ drop (length p) s.
Proof.
  revert s. induction p as [|c p IH]; [done|]. intros [|d s]; [done|]. simpl. intros; zb. subst.
  f_equal. by apply IH.
Qed.

Lemma from_to_system kd : kd ≠ [] →
  from_system_key_desc (to_system_string kd) = Some (KeyDescription_try_from kd).
Proof.
  intros Hne. unfold from_system_key_desc, to_system_string.
  rewrite starts_with_app, drop_app_length. by rewrite bool_decide_false.
Qed.

Section distinct.
Context `{UuidFormat} `{DmNames}.

Lemma uuid_simple_inj u v : is_uuid u → is_uuid v → uuid_simple u = uuid_simple v → u = v.
Proof. intros Hu Hv E. apply uuid_parse_simple in Hu, Hv. congruence. Qed.

(** A devicemapper device of the engine. *)
Inductive DmDevice : Type :=
| DFlex (pool : Z) (role : FlexRole)
| DThin (pool fs : Z)
| DThinPool (pool : Z) (role : ThinPoolRole)
| DBackstore (pool : Z) (role : CacheRole)
| DCrypt (dev : Z).

(** Its name, as the engine formats it. *)
Definition dm_device_name (d : DmDevice) : res Str :=
  match d with
  | DFlex p r => rmap fst (format_flex_ids p r)
  | DThin p fs => rmap fst (format_thin_ids p (Filesystem fs))
  | DThinPool p r => rmap fst (format_thinpool_ids p r)
  | DBackstore p r => rmap fst (format_backstore_ids p r)
  | DCrypt u => Ok (format_crypt_name u)
  end.

Definition dm_device_ok (d : DmDevice) : Prop :=
  match d with
  | DFlex p _ | DThinPool p _ | DBackstore p _ => is_uuid p
  | DThin p fs => is_uuid p ∧ is_uuid fs
  | DCrypt u => is_uuid u
  end.

Definition private_prefix : Str := str "stratis-" ++ format_version ++ str "-private-".

(** The part of a private name after the UUID. *)
Definition private_suffix (d : DmDevice) : Str :=
  match d with
  | DFlex _ r => str "-flex-" ++ FlexRole_fmt r
  | DThin _ _ => []
  | DThinPool _ r => str "-thinpool-" ++ ThinPoolRole_fmt r
  | DBackstore _ r => str "-physical-" ++ CacheRole_fmt r
  | DCrypt _ => str "-crypt"
  end.

Definition owner (d : DmDevice) : Z :=
  match d with DFlex p _ | DThin p _ | DThinPool p _ | DBackstore p _ | DCrypt p => p end.

(** The text of the name. *)
Definition name_text (d : DmDevice) : Str :=
  match d with
  | DThin p fs => str "stratis-" ++ format_version ++ str "-" ++ uuid_simple p ++ str "-thin-" ++
                  str "fs-" ++ uuid_simple fs
  | _ => private_prefix ++ uuid_simple (owner d) ++ private_suffix d
  end.

Lemma ascii_dec (s : Str) : forallb (λ c, (0 <=? c) && (c <? 128)) s = true →
  Forall (λ c, 0 ≤ c < 128) s.
Proof.
  intros Hs. apply Forall_forall. intros c Hc%list_elem_of_In.
  rewrite forallb_forall in Hs. apply Hs in Hc. zb. lia.
Qed.

Lemma name_text_ascii d : Forall (λ c, 0 ≤ c < 128) (name_text d).
Proof.
  destruct d as [p r|p fs|p r|p r|p]; unfold name_text; repeat apply Forall_app_2;
    try apply uuid_simple_ascii; try (by apply ascii_dec); destruct r; by apply ascii_dec.
Qed.

Lemma name_text_length d : (length (name_text d) < 128)%nat.
Proof.
  destruct d as [p []|p fs|p []|p []|p]; unfold name_text; rewrite ?length_app, ?uuid_simple_length; vm_compute; lia.
Qed.

Lemma dm_ids_ok s : s ≠ [] → Forall (λ c, 0 ≤ c < 128) s → (length s < 128)%nat →
  dm_ids s = Ok (s, s).
Proof. intros. unfold dm_ids. by rewrite dm_name_accepts, dm_uuid_accepts by (done || lia). Qed.

Lemma dm_device_name_text d : dm_device_name d = Ok (name_text d).
Proof.
  pose proof (name_text_ascii d). pose proof (name_text_length d).
  destruct d as [p r|p fs|p r|p r|p]; simpl; try done;
    unfold format_flex_ids, format_thin_ids, format_thinpool_ids, format_backstore_ids;
    rewrite dm_ids_ok by done; done.
Qed.

(** Devicemapper names: formatting one never panics, whatever the UUIDs and the role; names
    are shorter than devicemapper's limit; and two devices of the engine (of any pools, layers
    and roles) have the same name only if they are the same device. *)
Theorem dm_names_distinct d1 d2 : dm_device_ok d1 → dm_device_ok d2 →
  (∃ n1 n2, dm_device_name d1 = Ok n1 ∧ dm_device_name d2 = Ok n2 ∧
     (length n1 < 128)%nat ∧ (n1 = n2 → d1 = d2)).
Proof.
  intros H1 H2. exists (name_text d1), (name_text d2).
  rewrite !dm_device_name_text. split; [done|]. split; [done|]. split; [apply name_text_length|].
  intros E.
  assert (length (name_text d1) = length (name_text d2)) as EL by congruence.
  destruct d1 as [p r|p fs|p r|p r|p], d2 as [p' r'|p' fs'|p' r'|p' r'|p'];
    try (exfalso; clear -EL H; destruct r' || idtac; destruct r || idtac;
         unfold name_text in EL; rewrite !length_app, !uuid_simple_length in EL; vm_compute in EL; lia).
  all: unfold name_text in E.
  all: try (apply app_inv_head in E; apply app_inj_1 in E as [E1 E2]; [|by rewrite !uuid_simple_length];
    apply uuid_simple_inj in E1; [|done..]; simpl in E1; subst p';
    repeat match goal with r : FlexRole |- _ => destruct r | r : ThinPoolRole |- _ => destruct r
      | r : CacheRole |- _ => destruct r end; vm_compute in E2; done).
  do 3 (apply app_inv_head in E).
  apply app_inj_1 in E as [E1 E2]; [|by rewrite !uuid_simple_length].
  do 2 (apply app_inv_head in E2). destruct H1, H2.
  apply uuid_simple_inj in E1; [|done..]. apply uuid_simple_inj in E2; [|done..]. congruence.
Qed.
End distinct.

(** Key descriptions registered with the system are read back: a non-empty description without
    [;] round-trips through its system form, the system form determines the description, and
    every system string that is recognised is the system form of the result.  Foreign keys, and
    the prefix alone, are not recognised. *)
Theorem key_description_roundtrip kd raw :
  (from_system_key_desc (to_system_string kd) = Some (Ok kd) ↔ kd ≠ [] ∧ SEMICOLON ∉ kd) ∧
  (from_system_key_desc raw = Some (Ok kd) → raw = to_system_string kd) ∧
  (from_system_key_desc raw = None ↔
     starts_with key_description_prefix raw = false ∨ raw = key_description_prefix).
Proof.
  split; [|split].
  - destruct (decide (kd = [])) as [->|Hne]; [split; [done|naive_solver]|].
    rewrite from_to_system by done. unfold KeyDescription_try_from.
    case_bool_decide; naive_solver.
  - unfold from_system_key_desc. destruct (starts_with _ raw) eqn:Hs; [|done].
    apply starts_with_split in Hs. case_bool_decide; [done|].
    unfold KeyDescription_try_from. case_bool_decide; [done|]. intros [= <-]. done.
  - unfold from_system_key_desc. destruct (starts_with _ raw) eqn:Hs.
    + apply starts_with_split in Hs. case_bool_decide as Hd.
      * rewrite Hd, app_nil_r in Hs. naive_solver.
      * split; [done|]. intros [?| ->]; [done|]. by rewrite drop_all in Hd.
    + naive_solver.
Qed.

Section examples.
#[local] Existing Instance hex_instance.

#[local] Instance dm_lengths : DmNames.
Proof.
  refine {| DmNameBuf_new s := if decide (s ≠ [] ∧ (length s < 128)%nat) then Some s else None;
            DmUuidBuf_new s := if decide (s ≠ [] ∧ (length s < 129)%nat) then Some s else None |};
    intros; by rewrite decide_True.
Defined.

Lemma dm_names_distinct_witness :
  ∃ n1 n2, dm_device_name (DFlex 7 MetadataVolume) = Ok n1 ∧ dm_device_name (DThin 7 8) = Ok n2 ∧
    (length n1 < 128)%nat ∧ (n1 = n2 → DFlex 7 MetadataVolume = DThin 7 8).
Proof. apply (dm_names_distinct (DFlex 7 MetadataVolume) (DThin 7 8)); simpl; unfold is_uuid; lia. Defined.

Lemma key_description_roundtrip_witness :
  from_system_key_desc (str "stratis-1-key-mykey") = Some (Ok (str "mykey")) ∧
  str "stratis-1-key-mykey" = to_system_string (str "mykey").
Proof.
  split; [vm_compute; reflexivity|].
  apply (key_description_roundtrip (str "mykey")). vm_compute. reflexivity.
Defined.
End examples.
