(* ===== verification/Crypt.v ===== *)
(** * Encrypted devices

    Models [src/engine/strat_engine/backstore/crypt/]: [shared.rs], [handle.rs],
    [metadata_handle.rs], [activate.rs] and [initialize.rs], over the calls of the
    file [System].  A [CryptDevice] is the path it was opened with.  The decoding
    of a Clevis JWE header ([BASE64URL_NOPAD], [serde_json::from_slice], [pin_dispatch])
    is the class [ClevisCodec]. *)
From stdpp Require Import base list gmap strings.
From Stdlib Require Import ZArith Lia.
From S2P Require Import Prelude Disk External Json StaticHeader MDA Shared System Names.

Class ClevisCodec : Type := {
  (** the pin and configuration encoded in the protected header of a JWE *)
  decode_protected : Str → StratisError + (Str * Value)
}.

(** ** [consts.rs] *)
Definition TOKEN_TYPE_KEY : Str := str "type".
Definition TOKEN_KEYSLOTS_KEY : Str := str "keyslots".
Definition STRATIS_TOKEN_DEVNAME_KEY : Str := str "activation_name".
Definition STRATIS_TOKEN_POOL_UUID_KEY : Str := str "pool_uuid".
Definition STRATIS_TOKEN_DEV_UUID_KEY : Str := str "device_uuid".
Definition STRATIS_TOKEN_ID : Z := 0.
Definition LUKS2_TOKEN_ID : Z := 1.
Definition CLEVIS_LUKS_TOKEN_ID : Z := 2.
Definition LUKS2_TOKEN_TYPE : Str := str "luks2-keyring".
Definition STRATIS_TOKEN_TYPE : Str := str "stratis".
Definition DEVICEMAPPER_PATH : Str := str "/dev/mapper".
Definition CLEVIS_TANG_TRUST_URL : Str := str "stratis:tang:trust_url".
Definition DEFAULT_CRYPT_METADATA_SIZE : Z := 16384.
Definition DEFAULT_CRYPT_KEYSLOTS_SIZE : Z := 16744448.
Definition CRYPT_SECTOR_SIZE : Z := 512.

Definition crypt_metadata_size : Z := 2 * DEFAULT_CRYPT_METADATA_SIZE + DEFAULT_CRYPT_KEYSLOTS_SIZE.

Definition ceiling_sector_size_alignment (bytes : Z) : Z :=
  bytes +64 (CRYPT_SECTOR_SIZE - bytes mod CRYPT_SECTOR_SIZE).

(** ** Tokens *)

Record StratisLuks2Token : Type := mkToken { devname : Str; token_identifiers : StratisIdentifiers }.

(** [check_and_get_key!] of a key converted by [PoolUuid::parse_str] and the like *)
Definition get_uuid_key `{UuidFormat} (key : Str) (m : list (Str * Value)) : res Z :=
  match map_get key m ≫= as_str with
  | None => Err (Msg "Stratis token is missing key or the value is of the wrong type")
  | Some s => match uuid_parse_str s with
              | Some u => Ok u
              | None => Err (Msg "Failed to convert value for key")
              end
  end.

Definition StratisLuks2Token_into `{UuidDisplay} (self : StratisLuks2Token) : Value :=
  object [(TOKEN_TYPE_KEY, VString STRATIS_TOKEN_TYPE);
          (TOKEN_KEYSLOTS_KEY, Array []);
          (STRATIS_TOKEN_DEVNAME_KEY, VString (devname self));
          (STRATIS_TOKEN_POOL_UUID_KEY, VString (uuid_to_string (pool_uuid (token_identifiers self))));
          (STRATIS_TOKEN_DEV_UUID_KEY, VString (uuid_to_string (device_uuid (token_identifiers self))))].

Definition StratisLuks2Token_try_from `{UuidFormat} (v : Value) : res StratisLuks2Token :=
  match v with
  | Object map =>
      if bool_decide (map_get TOKEN_TYPE_KEY map ≫= as_str ≠ Some STRATIS_TOKEN_TYPE) then
        Err (Msg "Stratis token key 'type' requires a value of 'stratis'")
      else if bool_decide (map_get TOKEN_KEYSLOTS_KEY map ≫= as_array ≠ Some []) then
        Err (Msg "Stratis token key 'keyslots' requires a value of '[]'")
      else
        match map_get STRATIS_TOKEN_DEVNAME_KEY map ≫= as_str with
        | None => Err (Msg "Stratis token is missing key or the value is of the wrong type")
        | Some devname =>
            let? pool_uuid := get_uuid_key STRATIS_TOKEN_POOL_UUID_KEY map in
            let? dev_uuid := get_uuid_key STRATIS_TOKEN_DEV_UUID_KEY map in
            Ok (mkToken devname (mkIds pool_uuid dev_uuid))
        end
  | _ => Err (Crypt "InvalidConversion")
  end.

Definition luks2_token_type_is_valid (json : Value) : bool :=
  match Value_get TOKEN_TYPE_KEY json ≫= as_str with
  | Some type_str => bool_decide (type_str = LUKS2_TOKEN_TYPE)
  | None => false
  end.

Definition stratis_token_is_valid `{UuidFormat} (json : Value) : bool :=
  is_ok (StratisLuks2Token_try_from json).

(** Returns the flag and the configuration left in [clevis_config]. *)
Definition interpret_clevis_config (pin : Str) (clevis_config : Value) : res (bool * Value) :=
  if bool_decide (pin = str "tang") then
    match clevis_config with
    | Object map =>
        let '(v, map) := map_remove CLEVIS_TANG_TRUST_URL map in
        Ok (default false (v ≫= as_bool), Object map)
    | _ => Err (Msg "configuration for Clevis is is not in JSON object format")
    end
  else Ok (false, clevis_config).

(** one entry of the [keyslots] array *)
Definition keyslot_entry (v : Value) : option Z := as_str v ≫= parse_c_uint.

(** ** [metadata_handle.rs] and [handle.rs]: the data *)

Record CryptMetadataHandle : Type := mkCMH {
  physical_path : Str; cmh_identifiers : StratisIdentifiers; cmh_encryption_info : EncryptionInfo }.

Record CryptHandle : Type := mkCH {
  activated_path : Str; ch_name : Str; metadata_handle : CryptMetadataHandle }.

Definition luks2_device_path (self : CryptHandle) : Str := physical_path (metadata_handle self).
Definition ch_encryption_info (self : CryptHandle) : EncryptionInfo :=
  cmh_encryption_info (metadata_handle self).

Definition set_encryption_info (e : EncryptionInfo) (self : CryptHandle) : CryptHandle :=
  mkCH (activated_path self) (ch_name self)
    (mkCMH (physical_path (metadata_handle self)) (cmh_identifiers (metadata_handle self)) e).
Definition set_clevis_info (c : option (Str * Value)) (self : CryptHandle) : CryptHandle :=
  set_encryption_info (mkEnc (key_description (ch_encryption_info self)) c) self.
Definition set_key_description (k : option KeyDescription) (self : CryptHandle) : CryptHandle :=
  set_encryption_info (mkEnc k (clevis_info (ch_encryption_info self))) self.

Section crypt.
Context `{Cryptsetup} `{UuidDisplay} `{ClevisCodec}.

(** ** [shared.rs] *)

Definition device_from_physical_path (path : Str) : sys bool :=
  call (CryptInit_init path) ;;!
  let! loaded := call_ok (context_load path) in
  iret (is_some loaded).

Definition acquire_crypt_device (path : Str) : sys unit :=
  let! dev := device_from_physical_path path in
  if dev then iret tt
  else ierr (Msg "has been determined not to be formatted as a LUKS2 Stratis device").

(** [read_key]: without the key's serial number *)
Definition read_key (kd : KeyDescription) : sys (option KeyData) :=
  let! o := call (read_key_persistent (to_system_string kd)) in iret (snd <$> o).

Definition key_desc_to_passphrase (kd : KeyDescription) : sys KeyData :=
  let! key_option := read_key kd in
  match key_option with
  | Some key => iret key
  | None => ierr (Msg "Key with key description was not found")
  end.

Definition add_keyring_keyslot (path : Str) (kd : KeyDescription)
    (pass : option (KeyData + KeyDescription)) : sys unit :=
  let! key := key_desc_to_passphrase kd in
  let! keyslot :=
    match pass with
    | Some (inl pass) => call (add_by_passphrase path pass key)
    | Some (inr kd) =>
        let! pass := key_desc_to_passphrase kd in
        call (change_by_passphrase path pass key)
    | None => call (add_by_key path key)
    end in
  call (luks2_keyring_set path LUKS2_TOKEN_ID (to_system_string kd)) ;;!
  call (assign_keyslot path LUKS2_TOKEN_ID keyslot).

Definition is_encrypted_stratis_device (path : Str) : sys bool :=
  let! stratis_token := call_ok (json_get path STRATIS_TOKEN_ID) in
  let! luks_token := call_ok (json_get path LUKS2_TOKEN_ID) in
  let! clevis_token := call_ok (json_get path CLEVIS_LUKS_TOKEN_ID) in
  iret
    (if negb (is_some stratis_token) || (negb (is_some luks_token) && negb (is_some clevis_token))
     then false
     else match luks_token with
          | Some lt => luks2_token_type_is_valid lt
          | None => true
          end &&
          match stratis_token with
          | Some st => stratis_token_is_valid st
          | None => true
          end).

Definition setup_crypt_device (path : Str) : sys bool :=
  let! dev := device_from_physical_path path in
  if dev then is_encrypted_stratis_device path else iret false.

Definition device_is_active (name : Str) : sys unit :=
  let! status := itry (call (crypt_status name)) in
  match status with
  | inr Active | inr Busy => iret tt
  | inr Inactive => ierr (Msg "Device was activated but is reporting that it is inactive")
  | inr Invalid => ierr (Msg "Device was activated but is reporting an invalid status")
  | inl e => ierr (Msg "Failed to fetch status for device name")
  end.

Definition activate_with_keyring (path name : Str) : sys unit :=
  call (activate_by_token path (Some name) LUKS2_TOKEN_ID).

Definition activated_path_of (name : Str) : Str := DEVICEMAPPER_PATH ++ [SLASH] ++ name.

Definition activate (unlock_param : (Str * KeyDescription) + Str) (name : Str) : sys Str :=
  match unlock_param with
  | inl (path, kd) =>
      let! found := itry (call (search_key_persistent (to_system_string kd))) in
      match found with
      | inl _ => ierr (Msg "Searching the persistent keyring for the key description failed.")
      | inr None => ierr (Msg "The key description is not currently set.")
      | inr (Some _) => activate_with_keyring path name
      end
  | inr path => call (clevis_luks_unlock path name)
  end ;;!
  device_is_active name ;;!
  let activated_path := activated_path_of name in
  let! ex := call (path_exists activated_path) in
  if ex then iret activated_path else ierr (Io "NotFound").

Definition get_keyslot_number (path : Str) (token_id : Z) : sys (option (list Z)) :=
  let! json := call_ok (json_get path token_id) in
  match json with
  | None => iret None
  | Some j =>
      match Value_get TOKEN_KEYSLOTS_KEY j ≫= as_array with
      | None => ierr (Msg "keyslots value was malformed")
      | Some vec => iret (Some (omap keyslot_entry vec))
      end
  end.

(** [for keyslot in keyslots { op(keyslot)? }] *)
Fixpoint for_each_slot (op : Z → sys unit) (keyslots : list Z) : sys unit :=
  match keyslots with
  | [] => iret tt
  | k :: rest => op k ;;! for_each_slot op rest
  end.

Definition ensure_inactive (path name : Str) : sys unit :=
  let! status := call (crypt_status name) in
  match status with
  | Active => call (crypt_deactivate path name)
  | _ => iret tt
  end.

Definition ensure_wiped (path name : Str) : sys unit :=
  ensure_inactive path name ;;!
  let! keyslot_number := itry (get_keyslot_number path LUKS2_TOKEN_ID) in
  match keyslot_number with
  | inr (Some nums) => for_each_slot (λ i, call (keyslot_destroy path i)) nums
  | _ => iret tt
  end ;;!
  let! 'sizes := call (get_metadata_size path) in
  let total_luks2_metadata_size :=
    ceiling_sector_size_alignment (wrap64 (wrap64 (sizes.1 * 2) + sizes.2)) in
  call (crypt_wipe path total_luks2_metadata_size).

Definition check_luks2_token (path : Str) : sys unit :=
  call (activate_by_token path None LUKS2_TOKEN_ID).

(** the string under [key] of the Stratis token *)
Definition token_string (key : Str) (json : Value) : res Str :=
  match Value_get key json with
  | None => Err (Msg "Missing JSON value")
  | Some v => match as_str v with
              | None => Err (Msg "Malformed JSON value")
              | Some s => Ok s
              end
  end.

Definition name_from_metadata (path : Str) : sys Str :=
  let! json := call (json_get path STRATIS_TOKEN_ID) in
  ilift (token_string STRATIS_TOKEN_DEVNAME_KEY json).

Definition key_desc_from_metadata (path : Str) : sys (option Str) :=
  call_ok (luks2_keyring_get path LUKS2_TOKEN_ID).

Definition parse_uuid_string (s : Str) : res Z :=
  match uuid_parse_str s with Some u => Ok u | None => Err (UuidError "invalid") end.

Definition identifiers_from_metadata (path : Str) : sys StratisIdentifiers :=
  let! json := call (json_get path STRATIS_TOKEN_ID) in
  let! pool_uuid := ilift (rbind (token_string STRATIS_TOKEN_POOL_UUID_KEY json) parse_uuid_string) in
  let! dev_uuid := ilift (rbind (token_string STRATIS_TOKEN_DEV_UUID_KEY json) parse_uuid_string) in
  iret (mkIds pool_uuid dev_uuid).

Definition clevis_info_from_metadata (path : Str) : sys (option (Str * Value)) :=
  let! json := call_ok (json_get path CLEVIS_LUKS_TOKEN_ID) in
  match json with
  | None => iret None
  | Some json =>
      match (Value_get (str "jwe") json ≫= Value_get (str "protected")) ≫= as_str with
      | None => iret None
      | Some s => match decode_protected s with
                  | inl e => ierr e
                  | inr pc => iret (Some pc)
                  end
      end
  end.

(** [/] is replaced by [_] *)
Definition backup_file_name (dev_path : Str) : Str :=
  (λ c, if c =? SLASH then 95 else c) <$> dev_path.

Definition back_up_luks_header (dev_path tmp_dir : Str) : sys Str :=
  let pathbuf := tmp_dir ++ [SLASH] ++ backup_file_name dev_path in
  acquire_crypt_device dev_path ;;!
  call (header_backup dev_path pathbuf) ;;!
  iret pathbuf.

Definition restore_luks_header (dev_path backup_path : Str) : sys unit :=
  acquire_crypt_device dev_path ;;!
  call (header_restore dev_path backup_path).

(** [DevicePath::new] *)
Definition DevicePath_new (path : Str) : sys Str := call (canonicalize path).

Definition setup_crypt_metadata_handle (path : Str) : sys (option CryptMetadataHandle) :=
  let! identifiers := identifiers_from_metadata path in
  let! raw := key_desc_from_metadata path in
  let! key_description :=
    match raw with
    | None => iret None
    | Some kd =>
        match from_system_key_desc kd with
        | Some (Ok description) => iret (Some description)
        | Some _ => ierr (Msg "is not a valid Stratis key description")
        | None => iret None
        end
    end in
  let! clevis_info := clevis_info_from_metadata path in
  let! p := DevicePath_new path in
  iret (Some (mkCMH p identifiers (mkEnc key_description clevis_info))).

Definition setup_crypt_handle (path : Str) (unlock_method : option UnlockMethod)
    : sys (option CryptHandle) :=
  let! mh := setup_crypt_metadata_handle path in
  match mh with
  | None => iret None
  | Some metadata_handle =>
      let! name := name_from_metadata path in
      let! activated_path :=
        match unlock_method with
        | Some UMKeyring =>
            match key_description (cmh_encryption_info metadata_handle) with
            | None => ierr (Msg "Unlock action was specified to be keyring but not key description is present in the metadata")
            | Some kd => activate (inl (path, kd)) name
            end
        | Some UMClevis => activate (inr path) name
        | None =>
            let! status := call_ok (crypt_status name) in
            match status with
            | Some Active | Some Busy => iret (activated_path_of name)
            | _ => ierr (Msg "Found a crypt device but it is not activated and no unlock method was provided")
            end
        end in
      let! p := DevicePath_new activated_path in
      iret (Some (mkCH p name metadata_handle))
  end.

Definition CryptHandle_setup (path : Str) : sys (option CryptHandle) :=
  let! dev := setup_crypt_device path in
  if dev then setup_crypt_handle path None else iret None.

Definition CryptMetadataHandle_setup (path : Str) : sys (option CryptMetadataHandle) :=
  let! dev := setup_crypt_device path in
  if dev then setup_crypt_metadata_handle path else iret None.

(** ** [activate.rs] *)

Definition can_unlock_with_failures (path : Str) (try_unlock_keyring try_unlock_clevis : bool)
    : sys bool :=
  acquire_crypt_device path ;;!
  (if try_unlock_keyring then
     let! key_description := key_desc_from_metadata path in
     if is_some key_description then check_luks2_token path else iret tt
   else iret tt) ;;!
  (if try_unlock_clevis then
     let! token := call_ok (json_get path CLEVIS_LUKS_TOKEN_ID) in
     match token ≫= Value_get (str "jwe") with
     | None => iret tt
     | Some jwe =>
         let! pass := call (clevis_decrypt jwe) in
         let! k := get_keyslot_number path CLEVIS_LUKS_TOKEN_ID in
         match k ≫= head with
         | Some keyslot => call (activate_by_passphrase path keyslot pass)
         | None => ierr (Msg "Clevis JWE was found in the Stratis metadata but was not associated with any keyslots")
         end
     end
   else iret tt) ;;!
  iret true.

Definition can_unlock (path : Str) (try_unlock_keyring try_unlock_clevis : bool) : sys bool :=
  let! r := itry (can_unlock_with_failures path try_unlock_keyring try_unlock_clevis) in
  iret (match r with inr b => b | inl _ => false end).

Definition CryptActivationHandle_setup (path : Str) (unlock_method : UnlockMethod)
    : sys (option CryptHandle) :=
  let! dev := setup_crypt_device path in
  if dev then setup_crypt_handle path (Some unlock_method) else iret None.

(** ** Methods that change a handle

    [obj S A]: a method of a [&mut self] of type [S]. *)
Definition obj (S A : Type) : Type := st (S * Sys) A.
Definition lift_sys {S A} (m : sys A) : obj S A := λ '(h, s),
  let '(r, s') := m s in (r, (h, s')).
Definition get_self {S} : obj S S := λ hs, (Ok hs.1, hs).
Definition modify_self {S} (f : S → S) : obj S unit := λ '(h, s), (Ok tt, (f h, s)).

(** [MemoryPrivateFilesystem::key_op]; the key file is its contents *)
Definition key_op (key_desc : KeyDescription) (f : KeyData → sys unit) : sys unit :=
  let! o := read_key key_desc in
  match o with
  | None => ierr (Io "Key with given key description was not found")
  | Some key => call (MemoryMappedKeyfile_new key) ;;! f key
  end.

Definition rand_key : sys KeyData :=
  let! key := call (read_urandom MAX_STRATIS_PASS_SIZE) in
  call (MemoryMappedKeyfile_new key) ;;! iret key.

End crypt.

Module CH.
Section with_crypt.
Context `{Cryptsetup} `{UuidDisplay} `{ClevisCodec}.

Definition keyslots (self : CryptHandle) (token_id : Z) : sys (option (list Z)) :=
  acquire_crypt_device (luks2_device_path self) ;;!
  get_keyslot_number (luks2_device_path self) token_id.

Definition clevis_bind (pin : Str) (json : Value) : obj CryptHandle unit :=
  let! '(yes, json_owned) := ilift (interpret_clevis_config pin json) in
  let! self := get_self in
  match key_description (ch_encryption_info self) with
  | None => ierr (Msg "Clevis binding requires a registered key description for the device but none was found")
  | Some key_desc =>
      lift_sys (call MemoryPrivateFilesystem_new) ;;!
      lift_sys (key_op key_desc (λ key,
        call (clevis_luks_bind (luks2_device_path self) key CLEVIS_LUKS_TOKEN_ID pin json_owned yes))) ;;!
      modify_self (set_clevis_info (Some (pin, json_owned)))
  end.

Definition clevis_unbind : obj CryptHandle unit :=
  let! self := get_self in
  if negb (is_some (key_description (ch_encryption_info self))) then
    ierr (Msg "No kernel keyring binding found; removing the Clevis binding would remove the ability to open this device; aborting")
  else
    let! o := lift_sys (keyslots self CLEVIS_LUKS_TOKEN_ID) in
    match o with
    | None => ierr (Msg "Token slot appears to be empty; could not determine keyslots")
    | Some keyslots =>
        lift_sys (for_each_slot (λ k, call (clevis_luks_unbind (luks2_device_path self) k)) keyslots) ;;!
        modify_self (set_clevis_info None)
    end.

Definition regenerate_cached_clevis_info (dev_path : Str) : sys (Str * Value) :=
  acquire_crypt_device dev_path ;;!
  let! o := clevis_info_from_metadata dev_path in
  match o with
  | None => ierr (Msg "Did not find Clevis metadata on device")
  | Some pc => iret pc
  end.

Definition rebind_clevis : obj CryptHandle unit :=
  let! self := get_self in
  if negb (is_some (clevis_info (ch_encryption_info self))) then
    ierr (Msg "No Clevis binding found; cannot regenerate the Clevis binding if the device does not already have a Clevis binding")
  else
    let! o := lift_sys (keyslots self CLEVIS_LUKS_TOKEN_ID) in
    match o ≫= head with
    | None => ierr (Msg "Clevis binding found but no keyslot was associated")
    | Some keyslot =>
        lift_sys (call (clevis_luks_regen (luks2_device_path self) keyslot)) ;;!
        let! pc := lift_sys (regenerate_cached_clevis_info (luks2_device_path self)) in
        modify_self (set_clevis_info (Some pc))
    end.

(** [CryptHandle::clevis_decrypt] *)
Definition decrypt_passphrase (path : Str) : sys (option KeyData) :=
  let! token := call_ok (json_get path CLEVIS_LUKS_TOKEN_ID) in
  match token with
  | None => iret None
  | Some t =>
      match Value_get (str "jwe") t with
      | None => ierr (Msg "Token slot is occupied but does not appear to be a Clevis token; aborting")
      | Some jwe => let! key := call (clevis_decrypt jwe) in iret (Some key)
      end
  end.

Definition bind_keyring (key_desc : KeyDescription) : obj CryptHandle unit :=
  let! self := get_self in
  let path := luks2_device_path self in
  lift_sys (acquire_crypt_device path) ;;!
  let! key := lift_sys (decrypt_passphrase path) in
  match key with
  | None => ierr (Msg "The Clevis token appears to have been wiped outside of Stratis; cannot add a keyring key binding without an existing passphrase to unlock the device")
  | Some key =>
      lift_sys (add_keyring_keyslot path key_desc (Some (inl key))) ;;!
      modify_self (set_key_description (Some key_desc))
  end.

Definition unbind_keyring : obj CryptHandle unit :=
  let! self := get_self in
  let path := luks2_device_path self in
  if negb (is_some (clevis_info (ch_encryption_info self))) then
    ierr (Msg "No Clevis binding was found; removing the keyring binding would remove the ability to open this device; aborting")
  else
    lift_sys (acquire_crypt_device path) ;;!
    let! o := lift_sys (get_keyslot_number path LUKS2_TOKEN_ID) in
    match o with
    | None => ierr (Msg "No LUKS2 keyring token was found")
    | Some keyslots =>
        lift_sys (for_each_slot (λ k, call (keyslot_destroy path k)) keyslots) ;;!
        lift_sys (call (json_set path LUKS2_TOKEN_ID None)) ;;!
        modify_self (set_key_description None)
    end.

Definition rebind_keyring (new_key_desc : KeyDescription) : obj CryptHandle unit :=
  let! self := get_self in
  let path := luks2_device_path self in
  lift_sys (acquire_crypt_device path) ;;!
  match key_description (ch_encryption_info self) with
  | None => ierr (Msg "Cannot change passphrase because this device is not bound to a passphrase in the kernel keyring")
  | Some old_key_description =>
      lift_sys (add_keyring_keyslot path new_key_desc (Some (inr old_key_description))) ;;!
      modify_self (set_key_description (Some new_key_desc))
  end.

Definition wipe (self : CryptHandle) : sys unit :=
  acquire_crypt_device (luks2_device_path self) ;;!
  ensure_wiped (luks2_device_path self) (ch_name self).

Definition logical_device_size (self : CryptHandle) : sys Z :=
  acquire_crypt_device (luks2_device_path self) ;;!
  call (get_active_device_size (luks2_device_path self) (ch_name self)).

End with_crypt.
End CH.

(** ** [initialize.rs] *)

Record CryptInitializer : Type := mkCI {
  ci_physical_path : Str; ci_identifiers : StratisIdentifiers; activation_name : Str }.

Module CI.
Section with_crypt.
Context `{Cryptsetup} `{UuidDisplay} `{ClevisCodec}.

Definition new (physical_path : Str) (pool_uuid dev_uuid : Z) : CryptInitializer :=
  mkCI physical_path (mkIds pool_uuid dev_uuid) (format_crypt_name dev_uuid).

Definition initialize_with_keyring (path : Str) (key_description : KeyDescription) : sys unit :=
  add_keyring_keyslot path key_description None.

Definition initialize_with_clevis (self : CryptInitializer) (ci : Str * Value * bool) : sys unit :=
  let '(pin, json, yes) := ci in
  let path := ci_physical_path self in
  call MemoryPrivateFilesystem_new ;;!
  let! keyfile := rand_key in
  let! keyslot := call (add_by_key path keyfile) in
  call (clevis_luks_bind path keyfile CLEVIS_LUKS_TOKEN_ID pin json yes) ;;!
  acquire_crypt_device path ;;!
  call (keyslot_destroy path keyslot).

Definition initialize_with_both (self : CryptInitializer) (key_description : KeyDescription)
    (ci : Str * Value * bool) : sys unit :=
  let '(pin, json, yes) := ci in
  let path := ci_physical_path self in
  initialize_with_keyring path key_description ;;!
  call MemoryPrivateFilesystem_new ;;!
  key_op key_description (λ kf, call (clevis_luks_bind path kf CLEVIS_LUKS_TOKEN_ID pin json yes)).

Definition initialize_with_err (self : CryptInitializer) (key_description : option KeyDescription)
    (clevis_info : option (Str * Value * bool)) : sys Str :=
  let path := ci_physical_path self in
  call (context_format path) ;;!
  match key_description, clevis_info with
  | Some kd, Some ci => initialize_with_both self kd ci ;;! acquire_crypt_device path
  | Some kd, None => initialize_with_keyring path kd
  | None, Some ci => initialize_with_clevis self ci ;;! acquire_crypt_device path
  | None, None => ilift (Panic "unreachable")
  end ;;!
  call (json_set path STRATIS_TOKEN_ID
          (Some (StratisLuks2Token_into (mkToken (activation_name self) (ci_identifiers self))))) ;;!
  activate (match key_description with Some kd => inl (path, kd) | None => inr path end)
    (activation_name self).

Definition rollback (path name : Str) : sys unit := ensure_wiped path name.

Definition initialize (self : CryptInitializer) (key_description : option KeyDescription)
    (clevis_info : option (Str * Value)) : sys CryptHandle :=
  let path := ci_physical_path self in
  let! clevis_parsed :=
    match clevis_info with
    | Some (pin, config) =>
        let! '(yes, config) := ilift (interpret_clevis_config pin config) in
        iret (Some (pin, config, yes))
    | None => iret None
    end in
  call (CryptInit_init path) ;;!
  call (set_metadata_size path DEFAULT_CRYPT_METADATA_SIZE DEFAULT_CRYPT_KEYSLOTS_SIZE) ;;!
  let! result := itry (initialize_with_err self key_description clevis_parsed) in
  acquire_crypt_device path ;;!
  match result with
  | inr activated_path =>
      let! p := DevicePath_new activated_path in
      let! clevis := clevis_info_from_metadata path in
      iret (mkCH p (activation_name self)
              (mkCMH path (ci_identifiers self) (mkEnc key_description clevis)))
  | inl e =>
      itry (rollback path (activation_name self)) ;;! ierr e
  end.

End with_crypt.
End CI.

(** ** Properties *)

Section properties.
Context `{Cryptsetup} `{UuidDisplay} `{ClevisCodec}.

Lemma safe_call {A} (e : cryptE A) : safe (call e).
Proof. intros s. unfold call. by destruct (answer e _) as [[] ?]. Qed.
Lemma safe_call_ok {A} (e : cryptE A) : safe (call_ok e).
Proof. intros s. unfold call_ok. by destruct (answer e _) as [[] ?]. Qed.
#[local] Hint Resolve safe_call safe_call_ok : safe.

Lemma safe_acquire path : safe (acquire_crypt_device path).
Proof. unfold acquire_crypt_device, device_from_physical_path. safely. Qed.
Lemma safe_passphrase kd : safe (key_desc_to_passphrase kd).
Proof. unfold key_desc_to_passphrase, read_key. safely. Qed.
#[local] Hint Resolve safe_acquire safe_passphrase : safe.
Lemma safe_add_keyring path kd pass : safe (add_keyring_keyslot path kd pass).
Proof. unfold add_keyring_keyslot. safely. Qed.
Lemma safe_get_keyslot path id : safe (get_keyslot_number path id).
Proof. unfold get_keyslot_number. safely. Qed.
Lemma safe_for_each op l : (∀ k, safe (op k)) → safe (for_each_slot op l).
Proof. intros Hop. induction l; simpl; safely. Qed.
Lemma safe_clevis_info path : safe (clevis_info_from_metadata path).
Proof. unfold clevis_info_from_metadata. safely. Qed.
#[local] Hint Resolve safe_add_keyring safe_get_keyslot safe_for_each safe_clevis_info : safe.
Lemma safe_keyslots h id : safe (CH.keyslots h id).
Proof. unfold CH.keyslots. safely. Qed.
Lemma safe_decrypt path : safe (CH.decrypt_passphrase path).
Proof. unfold CH.decrypt_passphrase. safely. Qed.
Lemma safe_regenerate path : safe (CH.regenerate_cached_clevis_info path).
Proof. unfold CH.regenerate_cached_clevis_info. safely. Qed.
Lemma safe_key_op kd f : (∀ k, safe (f k)) → safe (key_op kd f).
Proof. intros. unfold key_op, read_key. safely. Qed.
End properties.
#[export] Hint Resolve safe_call safe_call_ok safe_acquire safe_passphrase safe_add_keyring safe_get_keyslot
  safe_for_each safe_clevis_info safe_keyslots safe_decrypt safe_regenerate safe_key_op : safe.

(** [commits h m Q]: run on [h], the method [m] either succeeds, and then its result and the
    object satisfy [Q], or fails and leaves [h] as it was; it does not panic. *)
Definition commits `{Cryptsetup} {S A} (h : S) (m : obj S A) (Q : A → S → Prop) : Prop :=
  ∀ s, match m (h, s) with
       | (Ok a, (h1, _)) => Q a h1
       | (Err _, (h1, _)) => h1 = h
       | (Panic _, _) => False
       end.

Section commits.
Context `{Cryptsetup} {S : Type}.

Lemma commits_err {A} (h : S) e Q : commits (A:=A) h (ierr e) Q.
Proof. by intros s. Qed.
Lemma commits_modify (h : S) f (Q : unit → S → Prop) : Q tt (f h) → commits h (modify_self f) Q.
Proof. by intros HQ s. Qed.
Lemma commits_self {A} (h : S) (k : S → obj S A) Q :
  commits h (k h) Q → commits h (ibind get_self k) Q.
Proof. intros Hk s. unfold ibind, get_self. simpl. apply Hk. Qed.
Lemma commits_sys {A B} (h : S) (m : sys A) (k : A → obj S B) Q :
  safe m → (∀ a, commits h (k a) Q) → commits h (ibind (lift_sys m) k) Q.
Proof.
  intros Hm Hk s. specialize (Hm s). unfold ibind, lift_sys. simpl.
  destruct (m s) as [[a|e|w] s']; simpl in *; [apply Hk|done..].
Qed.
Lemma commits_lift {A B} (h : S) (r : res A) (k : A → obj S B) Q :
  (∀ w, r ≠ Panic w) → (∀ a, r = Ok a → commits h (k a) Q) → commits h (ibind (ilift r) k) Q.
Proof.
  intros Hr Hk s. unfold ibind, ilift. destruct r as [a|e|w]; [by apply Hk|done|naive_solver].
Qed.
Lemma commits_weaken {A} (h : S) (m : obj S A) (P Q : A → S → Prop) :
  commits h m P → (∀ a h', P a h' → Q a h') → commits h m Q.
Proof.
  intros Hm HPQ s. specialize (Hm s). destruct (m (h, s)) as [[a|e|w] [h1 s']]; [|done..]. by apply HPQ.
Qed.
End commits.

(** Follow a method to its commit point. *)
Ltac commit :=
  repeat first
    [ apply commits_err
    | apply commits_self
    | apply commits_sys; [solve [safely]|intros ?]
    | match goal with |- commits _ (match ?x with _ => _ end) _ => destruct x eqn:? end
    | apply commits_modify ].

(** ** Configurations *)

(** A configuration without keys for Stratis itself, as the engine stores it. *)
Definition clean_config (pin : Str) (v : Value) : Prop := interpret_clevis_config pin v = Ok (false, v).

Lemma interpret_safe pin v w : interpret_clevis_config pin v ≠ Panic w.
Proof. unfold interpret_clevis_config. case_bool_decide; [|done]. by destruct v. Qed.

Lemma interpret_clean pin v y v' : interpret_clevis_config pin v = Ok (y, v') → clean_config pin v'.
Proof.
  unfold clean_config, interpret_clevis_config. case_bool_decide; [|by intros [= <- <-]].
  destruct v as [| | | | |m]; try done. unfold map_remove. simpl. intros [= <- <-].
  rewrite map_get_filter, bool_decide_true by done. simpl.
  f_equal. f_equal. f_equal. apply map_remove_absent.
  by rewrite map_get_filter, bool_decide_true.
Qed.

(** ** The operations on a handle *)

Section handle.
Context `{Cryptsetup} `{UuidDisplay} `{ClevisCodec}.

(** What each operation makes of the encryption info, when it succeeds. *)
Inductive HandleOp : Type :=
| HClevisBind (pin : Str) (json : Value)
| HClevisUnbind
| HRebindClevis
| HBindKeyring (kd : KeyDescription)
| HUnbindKeyring
| HRebindKeyring (kd : KeyDescription).

Definition run_handle_op (op : HandleOp) : obj CryptHandle unit :=
  match op with
  | HClevisBind pin json => CH.clevis_bind pin json
  | HClevisUnbind => CH.clevis_unbind
  | HRebindClevis => CH.rebind_clevis
  | HBindKeyring kd => CH.bind_keyring kd
  | HUnbindKeyring => CH.unbind_keyring
  | HRebindKeyring kd => CH.rebind_keyring kd
  end.

Definition handle_op_effect (op : HandleOp) (e e' : EncryptionInfo) : Prop :=
  match op with
  | HClevisBind pin json =>
      is_Some (key_description e) ∧ ∃ yes config, interpret_clevis_config pin json = Ok (yes, config) ∧
        e' = mkEnc (key_description e) (Some (pin, config))
  | HClevisUnbind => is_Some (key_description e) ∧ e' = mkEnc (key_description e) None
  | HRebindClevis =>
      is_Some (clevis_info e) ∧ ∃ pc, e' = mkEnc (key_description e) (Some pc)
  | HBindKeyring kd => e' = mkEnc (Some kd) (clevis_info e)
  | HUnbindKeyring => is_Some (clevis_info e) ∧ e' = mkEnc None (clevis_info e)
  | HRebindKeyring kd => is_Some (key_description e) ∧ e' = mkEnc (Some kd) (clevis_info e)
  end.

Lemma handle_op_commits op h :
  commits h (run_handle_op op) (λ _ h', ∃ e', h' = set_encryption_info e' h ∧
    handle_op_effect op (ch_encryption_info h) e').
Proof.
  destruct op as [pin json| | |kd| |kd]; simpl.
  - apply commits_lift; [intros w; apply interpret_safe|]. intros [yes config] Hi.
    apply commits_self. destruct (key_description (ch_encryption_info h)) eqn:Hk; [|apply commits_err].
    commit. eexists. split; [reflexivity|]. simpl. rewrite Hk. split; [done|]. by exists yes, config.
  - unfold CH.clevis_unbind. commit. all: eexists; split; [reflexivity|].
    split; [|done]. by destruct (key_description (ch_encryption_info h)).
  - unfold CH.rebind_clevis. commit. all: eexists; split; [reflexivity|].
    split; [by destruct (clevis_info (ch_encryption_info h))|]. by eexists.
  - unfold CH.bind_keyring. commit. all: eexists; by split; [reflexivity|].
  - unfold CH.unbind_keyring. commit. all: eexists; split; [reflexivity|].
    split; [|done]. by destruct (clevis_info (ch_encryption_info h)).
  - unfold CH.rebind_keyring. commit. all: eexists; split; [reflexivity|].
    split; [|done]. by destruct (key_description (ch_encryption_info h)).
Qed.

Lemma effect_encrypted op e e' : handle_op_effect op e e' →
  EncryptionInfo_is_encrypted e = true → EncryptionInfo_is_encrypted e' = true.
Proof.
  destruct e as [kd ci]. unfold EncryptionInfo_is_encrypted.
  destruct op; simpl; [intros ([? ->] & ? & ? & _ & ->)|intros ([? ->] & ->)|intros ([? ->] & ? & ->)
    |intros ->|intros ([? ->] & ->)|intros ([? ->] & ->)]; simpl; by rewrite ?orb_true_r.
Qed.

(** C34: Changing the bindings of an encrypted device: whatever libcryptsetup, Clevis and the keyring
    answer, an operation on a [CryptHandle] never panics; when it fails the handle is
    unchanged; when it succeeds exactly the encryption info changes, to what the operation
    stands for; and a handle that has an unlocking method never loses its last one. *)
Theorem handle_ops_atomic op h s :
  match run_handle_op op (h, s) with
  | (Ok _, (h', _)) =>
      handle_op_effect op (ch_encryption_info h) (ch_encryption_info h') ∧
      h' = set_encryption_info (ch_encryption_info h') h ∧
      (EncryptionInfo_is_encrypted (ch_encryption_info h) = true →
       EncryptionInfo_is_encrypted (ch_encryption_info h') = true)
  | (Err _, (h', _)) => h' = h
  | (Panic _, _) => False
  end.
Proof.
  pose proof (handle_op_commits op h s) as Hc.
  destruct (run_handle_op op (h, s)) as [[u|e|w] [h' s']]; [|done..].
  destruct Hc as (e' & -> & He). change (ch_encryption_info (set_encryption_info e' h)) with e'.
  split; [done|]. split; [done|]. by eapply effect_encrypted.
Qed.

End handle.

(** C38: The Stratis token written to a LUKS2 header is recognised and read back: it decodes to the
    activation name and the identifiers it was made from, and the readers used when a
    device is set up find the same values in it. *)
Theorem luks2_token_roundtrip `{UuidDisplay} devname ids :
  is_uuid (pool_uuid ids) → is_uuid (device_uuid ids) →
  let v := StratisLuks2Token_into (mkToken devname ids) in
  StratisLuks2Token_try_from v = Ok (mkToken devname ids) ∧
  stratis_token_is_valid v = true ∧
  luks2_token_type_is_valid v = false ∧
  token_string STRATIS_TOKEN_DEVNAME_KEY v = Ok devname ∧
  rbind (token_string STRATIS_TOKEN_POOL_UUID_KEY v) parse_uuid_string = Ok (pool_uuid ids) ∧
  rbind (token_string STRATIS_TOKEN_DEV_UUID_KEY v) parse_uuid_string = Ok (device_uuid ids).
Proof.
  intros Hp Hd v. destruct ids as [p d].
  assert (v = Object [(str "activation_name", VString devname);
    (str "device_uuid", VString (uuid_to_string d)); (str "keyslots", Array []);
    (str "pool_uuid", VString (uuid_to_string p)); (str "type", VString (str "stratis"))]) as -> by reflexivity.
  assert (StratisLuks2Token_try_from (Object [(str "activation_name", VString devname);
    (str "device_uuid", VString (uuid_to_string d)); (str "keyslots", Array []);
    (str "pool_uuid", VString (uuid_to_string p)); (str "type", VString (str "stratis"))]) =
    Ok (mkToken devname (mkIds p d))) as E.
  { cbn -[uuid_parse_str]. unfold get_uuid_key. simpl in *. by rewrite !uuid_parse_to_string. }
  split; [exact E|]. unfold stratis_token_is_valid. rewrite E. do 3 (split; [done|]).
  simpl in *. unfold parse_uuid_string. by rewrite !uuid_parse_to_string.
Qed.

(** ** An instance for examples

    A system whose calls fail as a script says: each call consumes one entry, and fails when it
    is [true]; when the script is used up all calls succeed. *)
Definition token_json : Value :=
  object [(TOKEN_KEYSLOTS_KEY, Array [VString (str "3")]);
          (str "jwe", object [(str "protected", VString (str "http://tang"))]);
          (TOKEN_TYPE_KEY, VString LUKS2_TOKEN_TYPE)].

Definition script_value {A} (e : cryptE A) : A :=
  match e in cryptE T return T with
  | get_metadata_size _ => (DEFAULT_CRYPT_METADATA_SIZE, DEFAULT_CRYPT_KEYSLOTS_SIZE)
  | json_get _ _ => token_json
  | luks2_keyring_get _ _ => str "stratis-1-key-k"
  | add_by_passphrase _ _ _ | change_by_passphrase _ _ _ | add_by_key _ _ => 3
  | crypt_status _ => Active
  | get_active_device_size _ _ => 4194304
  | clevis_decrypt _ => [1; 2; 3]
  | read_key_persistent _ => Some (1, [1; 2; 3])
  | search_key_persistent _ => Some 1
  | read_urandom _ => [7]
  | TempDir_new => str "/tmp/t"
  | path_exists _ => true
  | canonicalize p => p
  | stat_rdev _ => 253
  | path_is_dir _ => true
  | stat_dev _ => 1
  | udev_scan => [mkUdev true (Some (str "/dev/vdc")) (Some 2113) ∅; mkUdev true (Some (str "/dev/vdd")) (Some 2129) ∅]
  | _ => tt
  end.

Definition script_crypt : Cryptsetup := {|
  Luks := list bool;
  answer A e l := match l with
                  | true :: l' => (inl (Crypt "failed"), l')
                  | _ => (inr (script_value e), tail l)
                  end |}.

Definition example_codec : ClevisCodec :=
  {| decode_protected s := inr (str "tang", object [(str "url", VString s)]) |}.

Definition simple_display : @UuidDisplay hex_instance.
Proof. exact (@Build_UuidDisplay hex_instance uuid_simple uuid_parse_simple). Defined.

Section examples.
#[local] Existing Instance hex_instance.
#[local] Existing Instance simple_display.

Lemma luks2_token_roundtrip_witness :
  is_uuid 7 ∧ is_uuid 8 ∧
  StratisLuks2Token_try_from (StratisLuks2Token_into (mkToken (str "n") (mkIds 7 8))) =
    Ok (mkToken (str "n") (mkIds 7 8)).
Proof.
  split; [unfold is_uuid; lia|]. split; [unfold is_uuid; lia|].
  apply (luks2_token_roundtrip (str "n") (mkIds 7 8)); unfold is_uuid; simpl; lia.
Defined.
End examples.
