(* ===== verification/BlockDev.v ===== *)
(** * Block devices of a pool

    Models [src/engine/strat_engine/backstore/blockdev.rs]: the struct
    [StratBlockDev] and its methods, and the records of
    [src/engine/strat_engine/serde_structs.rs] in which devices and segments are saved. *)
From stdpp Require Import base list gmap strings.
From Stdlib Require Import ZArith Lia.
From S2P Require Import Prelude RangeAlloc Disk External Json StaticHeader MDA BDA Shared System Names Crypt.

(** ** Saved forms *)
Record BaseDevSave : Type := mkBaseDevSave { parent : Z; bds_start : Z; bds_length : Z }.
Record BaseBlockDevSave : Type := mkBaseBlockDevSave {
  bbs_uuid : Z; bbs_user_info : option Str; bbs_hardware_info : option Str }.
Record BlockDevSave : Type := mkBlockDevSave {
  allocs : list (list BaseDevSave); devs : list BaseBlockDevSave }.
Record DataTierSave : Type := mkDataTierSave { dts_blockdev : BlockDevSave }.
Record CacheTierSave : Type := mkCacheTierSave { cts_blockdev : BlockDevSave }.

#[global] Instance BaseDevSave_eq_dec : EqDecision BaseDevSave.
Proof. solve_decision. Defined.
#[global] Instance BaseBlockDevSave_eq_dec : EqDecision BaseBlockDevSave.
Proof. solve_decision. Defined.

(** ** The struct *)

Inductive UnderlyingDevice : Type :=
| Encrypted (handle : CryptHandle)
| Unencrypted (path : Str).

(** [Device] is its number. *)
Record StratBlockDev : Type := mkSBD {
  dev : Z; bda : BDA; sbd_used : RangeAllocator;
  user_info : option Str; hardware_info : option Str; underlying_device : UnderlyingDevice }.

Module UD.
Definition physical_path (self : UnderlyingDevice) : Str :=
  match self with Encrypted handle => luks2_device_path handle | Unencrypted path => path end.
Definition metadata_path (self : UnderlyingDevice) : Str :=
  match self with Encrypted handle => activated_path handle | Unencrypted path => path end.
Definition crypt_handle (self : UnderlyingDevice) : option CryptHandle :=
  match self with Encrypted handle => Some handle | Unencrypted _ => None end.
End UD.

Module SBD.

Definition new (dev : Z) (bda : BDA) (other_segments : list (Z * Z)) (user_info hardware_info : option Str)
    (underlying_device : UnderlyingDevice) : res StratBlockDev :=
  let segments := (0, Bda.extended_size bda) :: other_segments in
  let? allocator := RA.new (Bda.dev_size bda) segments in
  Ok (mkSBD dev bda allocator user_info hardware_info underlying_device).

Definition pool_uuid (self : StratBlockDev) : Z := Bda.bda_pool_uuid (bda self).
Definition uuid (self : StratBlockDev) : Z := Bda.dev_uuid (bda self).
Definition physical_path (self : StratBlockDev) : Str := UD.physical_path (underlying_device self).
Definition metadata_path (self : StratBlockDev) : Str := UD.metadata_path (underlying_device self).

Definition set_used (self : StratBlockDev) (u : RangeAllocator) : StratBlockDev :=
  mkSBD (dev self) (bda self) u (user_info self) (hardware_info self) (underlying_device self).
Definition set_bda (self : StratBlockDev) (b : BDA) : StratBlockDev :=
  mkSBD (dev self) b (sbd_used self) (user_info self) (hardware_info self) (underlying_device self).
Definition set_underlying (self : StratBlockDev) (u : UnderlyingDevice) : StratBlockDev :=
  mkSBD (dev self) (bda self) (sbd_used self) (user_info self) (hardware_info self) u.

Definition request_space (self : StratBlockDev) (size : Z) : res (PerDevSegments * StratBlockDev) :=
  let? '(segs, u) := RA.request (sbd_used self) size in
  Ok (segs, set_used self u).

Definition metadata_size (self : StratBlockDev) : Z := Bda.extended_size (bda self).
Definition available (self : StratBlockDev) : Z := RA.available (sbd_used self).
Definition total_size (self : StratBlockDev) : res Z :=
  let size := RA.size (sbd_used self) in
  rassert (Bda.dev_size (bda self) =? size) "assert_eq!(self.bda.dev_size(), size)" (Ok size).
Definition max_metadata_size (self : StratBlockDev) : Z := Bda.max_data_size (bda self).

(** [set_blockdev_user_info!] *)
Definition set_user_info (self : StratBlockDev) (info : option Str) : bool * StratBlockDev :=
  if bool_decide (user_info self ≠ info) then
    (true, mkSBD (dev self) (bda self) (sbd_used self) info (hardware_info self) (underlying_device self))
  else (false, self).

Definition encryption_info (self : StratBlockDev) : EncryptionInfo :=
  match UD.crypt_handle (underlying_device self) with
  | Some ch => ch_encryption_info ch
  | None => EncryptionInfo_default
  end.

Definition is_encrypted (self : StratBlockDev) : bool := EncryptionInfo_is_encrypted (encryption_info self).

Definition record (self : StratBlockDev) : BaseBlockDevSave :=
  mkBaseBlockDevSave (uuid self) (user_info self) (hardware_info self).

Section with_crypt.
Context `{Crc32c} `{Chrono} `{Cryptsetup} `{UuidDisplay} `{ClevisCodec}.

Definition disown (self : StratBlockDev) : sys unit :=
  match UD.crypt_handle (underlying_device self) with
  | Some handle => CH.wipe handle
  | None => with_file (UD.physical_path (underlying_device self)) disown_device
  end.

Definition save_state (time : DateTime) (metadata : list Z) : obj StratBlockDev unit := λ '(self, s),
  match s_files s !! UD.metadata_path (underlying_device self) with
  | None => (Err (Io "open"), (self, s))
  | Some f =>
      let '(r, b, f') := Bda.save_state (bda self) time metadata (set_mode true (set_pos 0 f)) in
      (r, (set_bda self b, set_files s (<[UD.metadata_path (underlying_device self) := f']> (s_files s))))
  end.

(** [self.underlying_device.crypt_handle_mut().ok_or_else(..)?] and a method of the handle *)
Definition with_handle (m : obj CryptHandle unit) : obj StratBlockDev unit := λ '(self, s),
  match underlying_device self with
  | Encrypted handle =>
      let '(r, (handle', s')) := m (handle, s) in (r, (set_underlying self (Encrypted handle'), s'))
  | Unencrypted _ => (Err (Msg "This device does not appear to be encrypted"), (self, s))
  end.

Definition bind_clevis (pin : Str) (clevis_info : Value) : obj StratBlockDev unit :=
  with_handle (CH.clevis_bind pin clevis_info).
Definition unbind_clevis : obj StratBlockDev unit := with_handle CH.clevis_unbind.
Definition bind_keyring (key_desc : KeyDescription) : obj StratBlockDev unit :=
  with_handle (CH.bind_keyring key_desc).
Definition unbind_keyring : obj StratBlockDev unit := with_handle CH.unbind_keyring.
Definition rebind_keyring (key_desc : KeyDescription) : obj StratBlockDev unit :=
  with_handle (CH.rebind_keyring key_desc).
Definition rebind_clevis : obj StratBlockDev unit := with_handle CH.rebind_clevis.
End with_crypt.
End SBD.
