(* ===== verification/Devices.v ===== *)
(** * Choosing and initializing devices

    Models [src/engine/strat_engine/udev.rs] (who owns a device, by its udev
    properties), [device.rs] and [src/engine/strat_engine/backstore/devices.rs]:
    inspecting the devices given for a pool, deciding which of them may be used,
    initializing them, and wiping them. *)
From stdpp Require Import base list gmap strings.
From Stdlib Require Import ZArith Lia.
From S2P Require Import Prelude RangeAlloc Disk Sizes External Json StaticHeader MDA BDA Shared System Names Crypt BlockDev.

(** ** [udev.rs] *)

Inductive UdevOwnership := Luks_ | MultipathMember | Stratis | Theirs | Unowned.
#[global] Instance UdevOwnership_eq_dec : EqDecision UdevOwnership.
Proof. solve_decision. Defined.

(** An [Option<StratisResult<String>>] *)
Definition get_udev_property (device : UdevEngineDevice) (name : Str) : option (res Str) :=
  match properties device !! name with
  | None => None
  | Some (Some v) => Some (Ok v)
  | Some None => Some (Err (Msg "Unable to convert udev property value with key to a string"))
  end.

Definition property_is (device : UdevEngineDevice) (name value : Str) : res bool :=
  match get_udev_property device name with
  | None => Ok false
  | Some r => let? v := r in Ok (bool_decide (v = value))
  end.

Definition is_multipath_member (device : UdevEngineDevice) : res bool :=
  property_is device (str "DM_MULTIPATH_DEVICE_PATH") (str "1").

Definition is_unclaimed (device : UdevEngineDevice) : bool :=
  (negb (is_some (get_udev_property device (str "ID_PART_TABLE_TYPE"))) ||
   is_some (get_udev_property device (str "ID_PART_ENTRY_DISK"))) &&
  negb (is_some (get_udev_property device (str "ID_FS_USAGE"))).

Definition is_stratis (device : UdevEngineDevice) : res bool :=
  property_is device (str "ID_FS_TYPE") (str "stratis").
Definition is_luks (device : UdevEngineDevice) : res bool :=
  property_is device (str "ID_FS_TYPE") (str "crypto_LUKS").

Definition decide_ownership (device : UdevEngineDevice) : res UdevOwnership :=
  match
    (let? multipath := is_multipath_member device in
     if multipath : bool then Ok MultipathMember
     else
       let? stratis := is_stratis device in
       if stratis : bool then Ok Stratis
       else
         let? luks := is_luks device in
         Ok (if luks : bool then Luks_ else if is_unclaimed device then Unowned else Theirs))
  with
  | Err e => Err (Chained "Could not determine ownership of a device from a udev database entry" e)
  | r => r
  end.

(** ** [device.rs] *)

(** the ioctl [BLKGETSIZE64] *)
Definition blkdev_size : io Z := λ f,
  match f_fault f (f_ops f) with
  | Some _ => (Err (Nix "blkgetsize64"), tick f)
  | None => (Ok (f_size f), tick f)
  end.

(** ** [devices.rs] *)

Definition MIN_DEV_SIZE : Z := 2 ^ 30.

Record DeviceInfo : Type := mkInfo {
  devno : Z; info_devnode : Str; id_wwn : option (res Str); info_size : Z }.

Section devices.
Context `{Crc32c} `{Chrono} `{Cryptsetup} `{UuidDisplay} `{ClevisCodec}.

Definition block_device_apply {U} (devnode : Str) (f : UdevEngineDevice → U) : sys (option U) :=
  let! canonical := call (canonicalize devnode) in
  let! devices := call udev_scan in
  iret (f <$> (list_find (λ d, is_initialized d = true ∧ udev_devnode d = Some canonical) devices
                 ≫= λ p, Some p.2)).

Definition udev_info (devnode : Str) : sys (UdevOwnership * Z * option (res Str)) :=
  let! r := itry (block_device_apply devnode (λ d,
    (decide_ownership d, devnum d, get_udev_property d (str "ID_WWN")))) in
  match r with
  | inl _ | inr None => ierr (Msg "Could not obtain udev information for block device")
  | inr (Some (ownership, devnum, id_wwn)) =>
      match devnum with
      | None => ierr (Msg "Insufficient information: no device number found for device using udev")
      | Some devnum =>
          match ownership with
          | Ok ownership => iret (ownership, devnum, id_wwn)
          | Err _ => ierr (Msg "Could not obtain ownership information for device using udev")
          | Panic w => ilift (Panic w)
          end
      end
  end.

Definition dev_info (devnode : Str)
    : sys (option (res Str) * Z * option StratisIdentifiers * Z) :=
  let! '(ownership, devnum, hw_id) := udev_info devnode in
  match ownership with
  | Luks_ | MultipathMember | Theirs => ierr (Msg "udev information indicates that device is a ...")
  | Stratis | Unowned =>
      let! '(dev_size, ids) := with_file devnode
        (let! dev_size := blkdev_size in
         let! ids := itry device_identifiers in
         iret (dev_size, ids)) in
      match ids with
      | inl _ => ierr (Msg "There was an error reading Stratis metadata from device; the device is unsuitable for initialization")
      | inr stratis_identifiers =>
          if bool_decide (ownership = Stratis) && negb (is_some stratis_identifiers) then
            ierr (Msg "udev identified device as a Stratis device but device metadata does not show that it is a Stratis device")
          else iret (hw_id, dev_size, stratis_identifiers, devnum)
      end
  end.

(** [paths.iter().unique().map(dev_info).collect::<StratisResult<Vec<_>>>()] *)
Fixpoint collect_infos (paths : list Str) : sys (list (DeviceInfo * option StratisIdentifiers)) :=
  match paths with
  | [] => iret []
  | devnode :: rest =>
      let! '(id_wwn, size, ids, devno) := dev_info devnode in
      let! infos := collect_infos rest in
      iret ((mkInfo devno devnode id_wwn size, ids) :: infos)
  end.

(** [Itertools::unique]: first occurrences, in order *)
Fixpoint unique_from (seen : list Str) (l : list Str) : list Str :=
  match l with
  | [] => []
  | x :: r => if bool_decide (x ∈ seen) then unique_from seen r else x :: unique_from (x :: seen) r
  end.
Definition unique (l : list Str) : list Str := unique_from [] l.

Definition process_devices (paths : list Str) : sys (list (DeviceInfo * option StratisIdentifiers)) :=
  let! r := itry (collect_infos (unique paths)) in
  match r with
  | inl _ => ierr (Msg "At least one of the devices specified was unsuitable for initialization")
  | inr infos =>
      if bool_decide (NoDup ((λ i, devno i.1) <$> infos)) then iret infos
      else ierr (Msg "At least two of the devices specified have the same device number")
  end.

Definition check_device_ids (pool : Z) (current_uuids : gset Z)
    (devices : list (DeviceInfo * option StratisIdentifiers)) : res (list DeviceInfo) :=
  let stratis_devices := omap (λ d, (λ ids, (d.1, ids)) <$> d.2) devices in
  let non_stratis_devices := omap (λ d, match d.2 with Some _ => None | None => Some d.1 end) devices in
  let this_pool := filter (λ d, pool_uuid d.2 = pool) stratis_devices in
  let other_pools := filter (λ d, pool_uuid d.2 ≠ pool) stratis_devices in
  if negb (bool_decide (other_pools = [])) then
    Err (Msg "Some devices specified appear to be already in use by other Stratis pools")
  else
    let not_included := filter (λ d, device_uuid d.2 ∉ current_uuids) this_pool in
    if negb (bool_decide (not_included = [])) then
      Err (Msg "appear to be already in use by this pool which has UUID; they may be in use by the other tier")
    else Ok non_stratis_devices.

(** [.map(|info| if info.size < MIN_DEV_SIZE { Err } else { Ok(info) }).collect()] *)
Fixpoint check_sizes (infos : list DeviceInfo) : res (list DeviceInfo) :=
  match infos with
  | [] => Ok []
  | info :: rest =>
      if info_size info <? MIN_DEV_SIZE then
        Err (Msg "which is smaller than the minimum required size for a Stratis blockdev")
      else let? rest := check_sizes rest in Ok (info :: rest)
  end.

Definition process_and_verify_devices (pool : Z) (current_uuids : gset Z) (paths : list Str)
    : sys (list DeviceInfo) :=
  let! infos := process_devices paths in
  ilift (rbind (check_device_ids pool current_uuids infos) check_sizes).

Definition map_device_nums (logical_path : Str) : sys Z := call (stat_rdev logical_path).

Definition initialize_encrypted (path : Str) (pool dev_uuid : Z)
    (key_description : option KeyDescription) (enable_clevis : option (Str * Value))
    : sys (CryptHandle * Z * Z) :=
  let! p := DevicePath_new path in
  let! handle := CI.initialize (CI.new p pool dev_uuid) key_description enable_clevis in
  let! size := itry (CH.logical_device_size handle) in
  match size with
  | inr device_size =>
      let! dn := map_device_nums (activated_path handle) in
      iret (handle, dn, device_size)
  | inl error => itry (CH.wipe handle) ;;! ierr error
  end.

Definition hw_id (underlying : UnderlyingDevice) (id_wwn : option (res Str)) : option Str :=
  match UD.crypt_handle underlying, id_wwn with
  | Some _, _ => None
  | None, Some (Ok hw_id) => Some hw_id
  | None, _ => None
  end.

(** The clock is read when the BDA is made, after the file is opened. *)
Definition initialize_stratis_metadata (underlying : UnderlyingDevice) (devno pool dev_uuid : Z)
    (sizes : Z * Z) (id_wwn : option (res Str)) : sys StratBlockDev :=
  let '(mda_data_size, data_size) := sizes in
  with_file (UD.metadata_path underlying) (iret tt) ;;!
  let! now := utc_now in
  let bda := Bda.new (mkIds pool dev_uuid) mda_data_size data_size (wrap64 (dt_secs now)) in
  with_file (UD.metadata_path underlying) (Bda.initialize bda) ;;!
  ilift (SBD.new devno bda [] None (hw_id underlying id_wwn) underlying).

(** [Err(clean_up(.., err))] *)
Definition clean_up {A} (m : sys unit) (msg : string) (causal_error : StratisError) : sys A :=
  let! r := itry m in
  match r with
  | inl e => ierr (Chained msg (NoActionRollbackError causal_error e))
  | inr _ => ierr causal_error
  end.

Definition clean_up_encrypted {A} (handle : CryptHandle) (causal_error : StratisError) : sys A :=
  clean_up (CH.wipe handle)
    "Failed to clean up encrypted device; cleanup was attempted because initialization of the device failed"
    causal_error.

Definition clean_up_unencrypted {A} (path : Str) (causal_error : StratisError) : sys A :=
  clean_up (with_file path disown_device)
    "Failed to clean up unencrypted device; cleanup was attempted because initialization of the device failed"
    causal_error.

Definition initialize_one (info : DeviceInfo) (pool mda_data_size : Z) (enc : EncryptionInfo)
    : sys StratBlockDev :=
  let! dev_uuid := new_v4 in
  let! '(handle, devno, blockdev_size) :=
    (if EncryptionInfo_is_encrypted enc then
       let! '(handle, dn, devsize) :=
         initialize_encrypted (info_devnode info) pool dev_uuid (key_description enc) (clevis_info enc) in
       iret (Some handle, dn, devsize)
     else iret (None, devno info, bytes_sectors (info_size info))) in
  let path := info_devnode info in
  match handle with
  | Some handle =>
      let! blockdev := itry (initialize_stratis_metadata (Encrypted handle) devno pool dev_uuid
                               (mda_data_size, blockdev_size) (id_wwn info)) in
      match blockdev with
      | inl err => clean_up_encrypted handle err
      | inr bd => iret bd
      end
  | None =>
      let! p := DevicePath_new path in
      let! blockdev := itry (initialize_stratis_metadata (Unencrypted p) devno pool dev_uuid
                               (mda_data_size, blockdev_size) (id_wwn info)) in
      match blockdev with
      | inl err => clean_up_unencrypted path err
      | inr bd => iret bd
      end
  end.

(** the errors of the devices that could not be disowned, in order *)
Fixpoint wipe_each (blockdevs : list StratBlockDev) : sys (list StratisError) :=
  match blockdevs with
  | [] => iret []
  | bd :: rest =>
      let! r := itry (SBD.disown bd) in
      let! errs := wipe_each rest in
      iret (match r with
            | inl e => Chained "Failed to wipe block device" e :: errs
            | inr _ => errs
            end)
  end.

Definition wipe_blockdevs (blockdevs : list StratBlockDev) : sys unit :=
  let! errors := wipe_each blockdevs in
  match errors with
  | [] => iret tt
  | _ :: _ => ierr (BestEffortError "Failed to wipe already initialized devnodes" errors)
  end.

Fixpoint initialize_loop (devices : list DeviceInfo) (pool mda_data_size : Z) (enc : EncryptionInfo)
    (initialized_blockdevs : list StratBlockDev) : sys (list StratBlockDev) :=
  match devices with
  | [] => iret initialized_blockdevs
  | dev_info :: rest =>
      let! r := itry (initialize_one dev_info pool mda_data_size enc) in
      match r with
      | inr blockdev => initialize_loop rest pool mda_data_size enc (initialized_blockdevs ++ [blockdev])
      | inl err => itry (wipe_blockdevs initialized_blockdevs) ;;! ierr err
      end
  end.

Definition initialize_devices (devices : list DeviceInfo) (pool mda_data_size : Z) (enc : EncryptionInfo)
    : sys (list StratBlockDev) := initialize_loop devices pool mda_data_size enc [].

End devices.
