(* ===== verification/BlockDevMgr.v ===== *)
(** * The block device manager

    Models [src/engine/strat_engine/backstore/blockdevmgr.rs] and
    [backstore/shared.rs].  The random choice of devices to write metadata to
    ([rand]'s [choose_multiple]) is an argument of [save_state]. *)
From stdpp Require Import base list gmap strings.
From Stdlib Require Import ZArith Lia.
From S2P Require Import Prelude RangeAlloc Disk Sizes External Json StaticHeader MDA BDA Shared System Names Crypt BlockDev Devices.

Definition MAX_NUM_TO_WRITE : nat := 10.

(** [Segment] *)
Record Segment : Type := mkSegment { start : Z; length_ : Z; device : Z }.
Record BlkDevSegment : Type := mkBDS { seg_uuid : Z; segment : Segment }.

#[global] Instance Segment_eq_dec : EqDecision Segment.
Proof. solve_decision. Defined.
#[global] Instance BlkDevSegment_eq_dec : EqDecision BlkDevSegment.
Proof. solve_decision. Defined.

Definition record_segments (self : list BlkDevSegment) : list BaseDevSave :=
  (λ bseg, mkBaseDevSave (seg_uuid bseg) (start (segment bseg)) (length_ (segment bseg))) <$> self.

(** [TargetLine<LinearDevTargetParams>]: logical start, length, device and physical start *)
Record LinearLine : Type := mkLine {
  logical_start : Z; line_length : Z; line_device : Z; physical_start : Z }.

Fixpoint map_to_dm_from (logical_start_offset : Z) (segments : list Segment) : list LinearLine :=
  match segments with
  | [] => []
  | segment :: rest =>
      mkLine logical_start_offset (length_ segment) (device segment) (start segment)
      :: map_to_dm_from (logical_start_offset +64 length_ segment) rest
  end.

Definition map_to_dm (bsegs : list BlkDevSegment) : list LinearLine :=
  map_to_dm_from 0 (segment <$> bsegs).

(** ** [backstore/shared.rs] *)

Definition metadata_to_segment (uuid_to_devno : gmap Z Z) (base_dev_save : BaseDevSave) : res BlkDevSegment :=
  match uuid_to_devno !! parent base_dev_save with
  | None => Err (Msg "No block device corresponding to stratisd UUID found")
  | Some device =>
      Ok (mkBDS (parent base_dev_save)
            (mkSegment (bds_start base_dev_save) (bds_length base_dev_save) device))
  end.

(** [left] split as [front ++ [left_last]] *)
Definition coalesce_blkdevsegs (left right : list BlkDevSegment) : list BlkDevSegment :=
  match last left, right with
  | None, _ => right
  | _, [] => left
  | Some left_last, right_first :: right_rest =>
      if bool_decide (seg_uuid left_last = seg_uuid right_first) &&
         (start (segment left_last) +64 length_ (segment left_last) =? start (segment right_first))
      then removelast left ++
           [mkBDS (seg_uuid left_last)
              (mkSegment (start (segment left_last))
                 (length_ (segment left_last) +64 length_ (segment right_first))
                 (device (segment left_last)))] ++ right_rest
      else left ++ right
  end.

(** ** The manager *)

Record BlockDevMgr : Type := mkMgr {
  block_devs : list StratBlockDev; last_update_time : option DateTime }.

Definition with_devs (self : BlockDevMgr) (l : list StratBlockDev) : BlockDevMgr :=
  mkMgr l (last_update_time self).

(** [Vec::swap_remove] *)
Definition swap_remove {A} (i : nat) (l : list A) : option (A * list A) :=
  match l !! i, last l with
  | Some x, Some y => Some (x, removelast (<[i := y]> l))
  | _, _ => None
  end.

(** [choose_multiple] picks, from [n] candidates and an amount [k], the positions of [min n k] of them. *)
Definition sampler (choose : nat → nat → list nat) : Prop :=
  ∀ n k, NoDup (choose n k) ∧ Forall (λ i, (i < n)%nat) (choose n k) ∧ length (choose n k) = Nat.min n k.

Module BDM.

Definition new (block_devs : list StratBlockDev) (last_update_time : option DateTime) : BlockDevMgr :=
  mkMgr block_devs last_update_time.

Definition uuid_to_devno (self : BlockDevMgr) : gmap Z Z :=
  foldl (λ m bd, <[SBD.uuid bd := dev bd]> m) ∅ (block_devs self).

Definition avail_space (self : BlockDevMgr) : Z := sum64 (SBD.available <$> block_devs self).

Fixpoint total_sizes (l : list StratBlockDev) : res (list Z) :=
  match l with
  | [] => Ok []
  | bd :: r => let? s := SBD.total_size bd in let? rest := total_sizes r in Ok (s :: rest)
  end.
Definition size (self : BlockDevMgr) : res Z :=
  let? l := total_sizes (block_devs self) in Ok (sum64 l).

Definition metadata_size (self : BlockDevMgr) : Z := sum64 (SBD.metadata_size <$> block_devs self).

Definition blockdevs (self : BlockDevMgr) : list (Z * StratBlockDev) :=
  (λ bd, (SBD.uuid bd, bd)) <$> block_devs self.

Definition get_blockdev_by_uuid (self : BlockDevMgr) (uuid : Z) : option StratBlockDev :=
  (list_find (λ bd, SBD.uuid bd = uuid) (block_devs self)) ≫= λ p, Some p.2.

Definition encryption_info (self : BlockDevMgr) : res EncryptionInfo :=
  match block_devs self with
  | bd :: _ => Ok (SBD.encryption_info bd)
  | [] => Panic "At least one blockdev in the given manager"
  end.

Definition is_encrypted (self : BlockDevMgr) : res bool :=
  let? e := encryption_info self in Ok (EncryptionInfo_is_encrypted e).

Definition record (self : BlockDevMgr) : list BaseBlockDevSave := SBD.record <$> block_devs self.

(** *** Allocation *)

Definition blkdev_segs (bd : StratBlockDev) (r_segs : PerDevSegments) : list BlkDevSegment :=
  (λ r, mkBDS (SBD.uuid bd) (mkSegment r.1 r.2 (dev bd))) <$> PDS.iter r_segs.

(** the inner loop: [alloc] sectors found so far; the devices left, as they are after it *)
Fixpoint alloc_inner (needed alloc : Z) (devs : list StratBlockDev) (segs : list BlkDevSegment)
    : res (Z * list BlkDevSegment * list StratBlockDev) :=
  match devs with
  | [] => Ok (alloc, segs, [])
  | bd :: rest =>
      if alloc =? needed then Ok (alloc, segs, devs)
      else
        let? '(r_segs, bd') := SBD.request_space bd (needed -64 alloc) in
        let? '(alloc, segs, rest) :=
          alloc_inner needed (alloc +64 PDS.sum r_segs) rest (segs ++ blkdev_segs bd r_segs) in
        Ok (alloc, segs, bd' :: rest)
  end.

Fixpoint alloc_outer (sizes : list Z) (devs : list StratBlockDev)
    : res (list (list BlkDevSegment) * list StratBlockDev) :=
  match sizes with
  | [] => Ok ([], devs)
  | needed :: rest =>
      let? '(alloc, segs, devs) := alloc_inner needed 0 devs [] in
      rassert (alloc =? needed) "assert_eq!(alloc, needed)"
      (let? '(lists, devs) := alloc_outer rest devs in Ok (segs :: lists, devs))
  end.

Definition alloc_space (self : BlockDevMgr) (sizes : list Z)
    : res (option (list (list BlkDevSegment)) * BlockDevMgr) :=
  let total_needed := sum64 sizes in
  if avail_space self <? total_needed then Ok (None, self)
  else
    let? '(lists, devs) := alloc_outer sizes (block_devs self) in
    Ok (Some lists, with_devs self devs).

(** *** Removal *)

(** the indices [last_index, ..., 1], in this order *)
Fixpoint search_down (uuid : Z) (devs : list StratBlockDev) (index : nat) : option nat :=
  match index with
  | O => None
  | S i => match devs !! index with
           | Some bd => if bool_decide (SBD.uuid bd = uuid) then Some index else search_down uuid devs i
           | None => search_down uuid devs i
           end
  end.

(** the devices removed and those left; an empty list makes [len() - 1] underflow *)
Fixpoint remove_loop (uuids : list Z) (devs removed : list StratBlockDev)
    : res (list StratBlockDev * list StratBlockDev) * list StratBlockDev :=
  match uuids with
  | [] => (Ok (removed, devs), devs)
  | uuid :: rest =>
      match devs with
      | [] => (Panic "attempt to subtract with overflow", devs)
      | _ :: _ =>
          match search_down uuid devs (length devs - 1) ≫= λ i, swap_remove i devs with
          | Some (bd, devs) => remove_loop rest devs (removed ++ [bd])
          | None => (Err (Msg "Blockdev corresponding to UUID not found."), devs)
          end
      end
  end.

Section with_crypt.
Context `{Crc32c} `{Chrono} `{Cryptsetup} `{UuidDisplay} `{ClevisCodec}.

Definition remove_blockdevs (uuids : list Z) : obj BlockDevMgr unit := λ '(self, s),
  match remove_loop uuids (block_devs self) [] with
  | (Ok (removed, devs), _) =>
      let '(r, s') := wipe_blockdevs removed s in (r, (with_devs self devs, s'))
  | (Err e, devs) => (Err e, (with_devs self devs, s))
  | (Panic w, devs) => (Panic w, (with_devs self devs, s))
  end.

Definition initialize (pool : Z) (paths : list Str) (mda_data_size : Z) (enc : EncryptionInfo)
    : sys BlockDevMgr :=
  let! devices := process_and_verify_devices pool ∅ paths in
  let! devs := initialize_devices devices pool mda_data_size enc in
  iret (new devs None).

Definition can_unlock (self : BlockDevMgr) (try_unlock_keyring try_unlock_clevis : bool) : sys bool :=
  match block_devs self with
  | [] => ilift (Panic "Must have at least one blockdev")
  | bd :: _ => Crypt.can_unlock (SBD.physical_path bd) try_unlock_keyring try_unlock_clevis
  end.

Definition add (pool : Z) (paths : list Str) : obj BlockDevMgr (list Z) :=
  let! self := get_self in
  let this_pool_uuid := SBD.pool_uuid <$> head (block_devs self) in
  if is_some this_pool_uuid && negb (bool_decide (this_pool_uuid = Some pool)) then
    ierr (Msg "block devices being managed have pool UUID but new devices are to be added with pool UUID")
  else
    let current_uuids := list_to_set (C:=gset Z) (SBD.uuid <$> block_devs self) in
    let! devices := lift_sys (process_and_verify_devices pool current_uuids paths) in
    let! enc := ilift (encryption_info self) in
    let! unlockable :=
      (if EncryptionInfo_is_encrypted enc
       then lift_sys (can_unlock self (is_some (key_description enc)) (is_some (clevis_info enc)))
       else iret true) in
    if negb unlockable then
      ierr (Msg "Neither the key in the kernel keyring nor Clevis could be used to perform encryption operations on the devices in the pool")
    else
      let! bds := lift_sys (initialize_devices devices pool mda_size.MDADataSize_default enc) in
      modify_self (λ self, with_devs self (block_devs self ++ bds)) ;;!
      iret (SBD.uuid <$> bds).

Definition destroy_all (self : BlockDevMgr) : sys unit := wipe_blockdevs (block_devs self).

(** *** Saving metadata *)

(** [checked_add_signed(Duration::nanoseconds(1))]; leap seconds end at [2 * 10 ^ 9] *)
Definition plus_1ns (t : DateTime) : res DateTime :=
  let n := dt_nsecs t + 1 in
  let t' := if (n =? 10 ^ 9) || (n =? 2 * 10 ^ 9) then mkTime (dt_secs t + 1) 0 else mkTime (dt_secs t) n in
  if timestamp_ok (dt_secs t') (dt_nsecs t') then Ok t'
  else Panic "self.last_update_time << maximum representable DateTime".

Definition stamp_time (current_time : DateTime) (last_update_time : option DateTime) : res DateTime :=
  if opt_ge last_update_time current_time then
    let? t := expect last_update_time "self.last_update_time >= Some(current_time" in plus_1ns t
  else Ok current_time.

(** the devices whose BDA has room for the data, by position *)
Definition has_room (data_size : Z) (o : option StratBlockDev) : bool :=
  match o with Some bd => data_size <=? SBD.max_metadata_size bd | None => false end.
Definition candidates (data_size : Z) (devs : list StratBlockDev) : list nat :=
  filter (λ i, has_room data_size (devs !! i) = true) (seq 0 (length devs)).

(** the fold over the devices chosen *)
Fixpoint save_each (chosen : list nat) (time : DateTime) (metadata : list Z) (saved : bool)
    : obj (list StratBlockDev) bool := λ '(devs, s),
  match chosen with
  | [] => (Ok saved, (devs, s))
  | i :: rest =>
      match devs !! i with
      | None => save_each rest time metadata saved (devs, s)
      | Some bd =>
          match SBD.save_state time metadata (bd, s) with
          | (Panic w, (bd', s')) => (Panic w, (<[i := bd']> devs, s'))
          | (r, (bd', s')) => save_each rest time metadata (saved || is_ok r) (<[i := bd']> devs, s')
          end
      end
  end.

Definition save_state (choose : nat → nat → list nat) (metadata : list Z) : obj BlockDevMgr unit :=
  let! current_time := lift_sys utc_now in
  let! self := get_self in
  let! stamp_time := ilift (stamp_time current_time (last_update_time self)) in
  λ '(self, s),
    let cands := candidates (Z.of_nat (length metadata)) (block_devs self) in
    let chosen := (λ k, cands !!! k) <$> choose (length cands) MAX_NUM_TO_WRITE in
    let '(r, (devs, s')) := save_each chosen stamp_time metadata false (block_devs self, s) in
    match r with
    | Ok true => (Ok tt, (mkMgr devs (Some stamp_time), s'))
    | Ok false => (Err (Msg "Failed to save metadata to even one device in pool"), (with_devs self devs, s'))
    | Err e => (Err e, (with_devs self devs, s'))
    | Panic w => (Panic w, (with_devs self devs, s'))
    end.

(** *** Operations on all devices, with rollback *)

(** the error to return, and the devices of the record as the rollback left them *)
Fixpoint rollback_loop (rollback : nat → obj StratBlockDev unit) (index : nat)
    (rollback_record : list StratBlockDev) (causal_error : StratisError)
    : sys (StratisError * list StratBlockDev) := λ s,
  match rollback_record with
  | [] => (Ok (causal_error, []), s)
  | bd :: rest =>
      match rollback index (bd, s) with
      | (Ok _, (bd', s')) =>
          (let! '(err, rest') := rollback_loop rollback (S index) rest causal_error in
           iret (err, bd' :: rest')) s'
      | (Err e, (bd', s')) => (Ok (RollbackError causal_error e, bd' :: rest), s')
      | (Panic w, (_, s')) => (Panic w, s')
      end
  end.

Fixpoint operation_loop_from (todo : list StratBlockDev) (action : obj StratBlockDev unit)
    (rollback : nat → obj StratBlockDev unit) (rollback_record : list StratBlockDev)
    : sys ((StratisError + unit) * list StratBlockDev) := λ s,
  match todo with
  | [] => (Ok (inr tt, rollback_record), s)
  | bd :: rest =>
      match action (bd, s) with
      | (Ok _, (bd', s')) => operation_loop_from rest action rollback (rollback_record ++ [bd']) s'
      | (Err error, (bd', s')) =>
          (let! '(err, rolled_back) := rollback_loop rollback 0 rollback_record error in
           iret (inl err, rolled_back ++ bd' :: rest)) s'
      | (Panic w, (_, s')) => (Panic w, s')
      end
  end.

(** [operation_loop(self.blockdevs_mut(), action, rollback)] *)
Definition operation_loop (action : obj StratBlockDev unit) (rollback : nat → obj StratBlockDev unit)
    : obj BlockDevMgr unit := λ '(self, s),
  match operation_loop_from (block_devs self) action rollback [] s with
  | (Ok (inr _, devs), s') => (Ok tt, (with_devs self devs, s'))
  | (Ok (inl e, devs), s') => (Err e, (with_devs self devs, s'))
  | (Err e, s') => (Err e, (self, s'))
  | (Panic w, s') => (Panic w, (self, s'))
  end.

(** [if yes { ei.remove("thp") }] *)
Definition config_to_check (yes : bool) (existing_info : Value) : Value :=
  match yes, existing_info with
  | true, Object ei => Object (map_remove (str "thp") ei).2
  | _, _ => existing_info
  end.

Definition not_encrypted {S A} : obj S A := ierr (Msg "Requested pool does not appear to be encrypted").

Definition bind_clevis (pin : Str) (clevis_info_ : Value) : obj BlockDevMgr bool :=
  let! self := get_self in
  let! enc := ilift (encryption_info self) in
  if negb (EncryptionInfo_is_encrypted enc) then not_encrypted
  else
    let! '(yes, parsed_config) := ilift (interpret_clevis_config pin clevis_info_) in
    match clevis_info enc with
    | Some (existing_pin, existing_info) =>
        let! same :=
          (if bool_decide ((existing_pin, config_to_check yes existing_info) = (pin, parsed_config))
           then lift_sys (can_unlock self false true) else iret false) in
        if same : bool then iret false
        else ierr (Msg "Block devices have already been bound with pin and config; requested pin and config can't be applied")
    | None =>
        operation_loop (SBD.bind_clevis pin clevis_info_) (λ _, SBD.unbind_clevis) ;;! iret true
    end.

Definition unbind_clevis : obj BlockDevMgr bool :=
  let! self := get_self in
  let! enc := ilift (encryption_info self) in
  if negb (EncryptionInfo_is_encrypted enc) then not_encrypted
  else
    match clevis_info enc with
    | Some (pin, info) =>
        operation_loop SBD.unbind_clevis (λ _, SBD.bind_clevis pin info) ;;! iret true
    | None => iret false
    end.

Definition bind_keyring (key_desc : KeyDescription) : obj BlockDevMgr bool :=
  let! self := get_self in
  let! enc := ilift (encryption_info self) in
  if negb (EncryptionInfo_is_encrypted enc) then not_encrypted
  else
    match key_description enc with
    | Some kd =>
        if bool_decide (kd = key_desc) then
          let! ok := lift_sys (can_unlock self true false) in
          if ok : bool then iret false
          else ierr (Msg "Key description is registered in the metadata but the associated passphrase can't unlock the device; the associated passphrase may have changed since binding")
        else ierr (Msg "Block devices have already been bound with key description; requested key description can't be applied")
    | None =>
        operation_loop (SBD.bind_keyring key_desc) (λ _, SBD.unbind_keyring) ;;! iret true
    end.

Definition unbind_keyring : obj BlockDevMgr bool :=
  let! self := get_self in
  let! enc := ilift (encryption_info self) in
  if negb (EncryptionInfo_is_encrypted enc) then not_encrypted
  else
    match key_description enc with
    | Some key_desc =>
        operation_loop SBD.unbind_keyring (λ _, SBD.bind_keyring key_desc) ;;! iret true
    | None => iret false
    end.

Definition rebind_keyring (key_desc : KeyDescription) : obj BlockDevMgr (option bool) :=
  let! self := get_self in
  let! enc := ilift (encryption_info self) in
  if negb (EncryptionInfo_is_encrypted enc) then not_encrypted
  else if bool_decide (key_description enc = Some key_desc) then iret (Some false)
  else
    match key_description enc with
    | None => iret None
    | Some old_key_desc =>
        operation_loop (SBD.rebind_keyring key_desc) (λ _, SBD.rebind_keyring old_key_desc) ;;!
        iret (Some true)
    end.

Fixpoint back_up_headers (devs : list StratBlockDev) (tmp_dir : Str) : sys (list Str) :=
  match devs with
  | [] => iret []
  | bd :: rest =>
      let! p := back_up_luks_header (SBD.physical_path bd) tmp_dir in
      let! ps := back_up_headers rest tmp_dir in
      iret (p :: ps)
  end.

(** [restore_luks_header(blockdev.physical_path(), &original_headers[index])] *)
Definition restore_header (original_headers : list Str) (index : nat) : obj StratBlockDev unit :=
  let! bd := get_self in
  match original_headers !! index with
  | None => ilift (Panic "index out of bounds")
  | Some p => lift_sys (restore_luks_header (SBD.physical_path bd) p)
  end.

Definition rebind_clevis_with_tmp_files (tmp_dir : Str) : obj BlockDevMgr unit :=
  let! self := get_self in
  let! original_headers := lift_sys (back_up_headers (block_devs self) tmp_dir) in
  operation_loop SBD.rebind_clevis (restore_header original_headers).

Definition rebind_clevis : obj BlockDevMgr unit :=
  let! self := get_self in
  let! enc := ilift (encryption_info self) in
  if negb (EncryptionInfo_is_encrypted enc) then not_encrypted
  else if negb (is_some (clevis_info enc)) then
    ierr (Msg "Requested pool is not already bound to Clevis")
  else
    let! tmp_dir := lift_sys (call TempDir_new) in
    let! res := itry (rebind_clevis_with_tmp_files tmp_dir) in
    lift_sys (itry (call (remove_dir_all tmp_dir))) ;;!
    match res with inl e => ierr e | inr u => iret u end.
End with_crypt.
End BDM.
