(* ===== verification/Alloc.v ===== *)
(** * Allocating space from a pool's devices

    Correctness of [BlockDevMgr::alloc_space] and of the segment lists built on it
    ([coalesce_blkdevsegs], [map_to_dm]), on top of the allocator of each device. *)
From stdpp Require Import base list gmap strings.
From Stdlib Require Import ZArith Lia.
From S2P Require Import Prelude Disk Sizes External Json StaticHeader MDA BDA Shared System Names Crypt BlockDev Devices BlockDevMgr RangeAlloc.

(** ** Denotations *)

Definition allocator (bd : StratBlockDev) : PerDevSegments := segments (sbd_used bd).
Definition free (bd : StratBlockDev) : Z := limit (allocator bd) - total (used (allocator bd)).

(** sector [x] of a segment, of a list of segments, of the used part of a list of devices *)
Definition in_seg (s : BlkDevSegment) (u x : Z) : Prop :=
  seg_uuid s = u ∧ start (segment s) ≤ x < start (segment s) + length_ (segment s).
Definition seg_cov (l : list BlkDevSegment) (u x : Z) : Prop := Exists (λ s, in_seg s u x) l.
Definition used_cov (devs : list StratBlockDev) (u x : Z) : Prop :=
  Exists (λ bd, SBD.uuid bd = u ∧ covers (used (allocator bd)) x) devs.
Definition seg_total (l : list BlkDevSegment) : Z := Zsum ((λ s, length_ (segment s)) <$> l).
Definition free_total (devs : list StratBlockDev) : Z := Zsum (free <$> devs).

(** no two segments of a list share a sector *)
Definition apart (a b : BlkDevSegment) : Prop := ∀ u x, in_seg a u x → in_seg b u x → False.
Fixpoint segs_disjoint (l : list BlkDevSegment) : Prop :=
  match l with
  | [] => True
  | s :: r => Forall (apart s) r ∧ segs_disjoint r
  end.

(** a segment within one of the devices, not empty *)
Definition seg_on (devs : list StratBlockDev) (s : BlkDevSegment) : Prop :=
  0 < length_ (segment s) ∧ 0 ≤ start (segment s) ∧
  Exists (λ bd, SBD.uuid bd = seg_uuid s ∧ dev bd = device (segment s) ∧
                start (segment s) + length_ (segment s) ≤ limit (allocator bd)) devs.

Definition dev_ok (bd : StratBlockDev) : Prop := wf (allocator bd).

(** all but the allocator's used ranges is the same *)
Definition same_dev (a b : StratBlockDev) : Prop :=
  b = SBD.set_used a (sbd_used b) ∧ limit (allocator b) = limit (allocator a).

(** [segs] was free in [devs] and is what has been taken from it in [devs'] *)
Record grant (devs devs' : list StratBlockDev) (segs : list BlkDevSegment) : Prop := {
  g_same : Forall2 same_dev devs devs';
  g_ok : Forall dev_ok devs';
  g_on : Forall (seg_on devs) segs;
  g_disjoint : segs_disjoint segs;
  g_used : ∀ u x, used_cov devs' u x ↔ used_cov devs u x ∨ seg_cov segs u x;
  g_fresh : ∀ u x, seg_cov segs u x → ¬ used_cov devs u x;
  g_free : free_total devs' = free_total devs - seg_total segs }.

Section lemmas.
Implicit Types (devs : list StratBlockDev) (segs : list BlkDevSegment).

Lemma seg_cov_app l1 l2 u x : seg_cov (l1 ++ l2) u x ↔ seg_cov l1 u x ∨ seg_cov l2 u x.
Proof. apply Exists_app. Qed.

Lemma seg_total_app l1 l2 : seg_total (l1 ++ l2) = seg_total l1 + seg_total l2.
Proof. unfold seg_total. by rewrite fmap_app, Zsum_app. Qed.

Lemma free_total_cons bd devs : free_total (bd :: devs) = free bd + free_total devs.
Proof. done. Qed.

Lemma segs_disjoint_app l1 l2 :
  segs_disjoint l1 → segs_disjoint l2 → (∀ u x, seg_cov l1 u x → seg_cov l2 u x → False) →
  segs_disjoint (l1 ++ l2).
Proof.
  intros H1 H2 H. induction l1 as [|s l1 IH]; [done|]. destruct H1 as [Ha H1]. simpl. split.
  - apply Forall_app. split; [done|]. apply Forall_forall. intros b Hb u x Hs Hx.
    apply (H u x); [by left|]. apply Exists_exists. by exists b.
  - apply IH; [done|]. intros u x ??. apply (H u x); [by right|done].
Qed.

Lemma same_dev_refl d : same_dev d d.
Proof. by destruct d. Qed.
Lemma same_dev_trans a b c : same_dev a b → same_dev b c → same_dev a c.
Proof. unfold same_dev. intros [Eb Lb] [Ec Lc]. split; [rewrite Ec, Eb; by destruct a|congruence]. Qed.

Lemma same_dev_uuid a b : same_dev a b → SBD.uuid b = SBD.uuid a ∧ dev b = dev a.
Proof. intros [-> _]. by destruct a. Qed.

Lemma grant_uuids devs devs' segs : grant devs devs' segs → SBD.uuid <$> devs' = SBD.uuid <$> devs.
Proof.
  intros [Hs _ _ _ _ _ _]. induction Hs as [|a b l l' Hab _ IH]; [done|].
  rewrite !fmap_cons, IH. f_equal. by destruct (same_dev_uuid _ _ Hab).
Qed.

Lemma seg_on_same devs devs' s : Forall2 same_dev devs devs' → seg_on devs' s → seg_on devs s.
Proof.
  intros Hs (Hl & H0 & He). split; [done|]. split; [done|].
  induction Hs as [|a b l l' Hab _ IH]; [by inversion He|].
  apply Exists_cons in He as [(Hu & Hd & Hb)|He]; [left|right; by apply IH].
  destruct (same_dev_uuid _ _ Hab) as [<- <-]. split; [done|]. split; [done|]. by rewrite <- (proj2 Hab).
Qed.

Lemma grant_nil devs : Forall dev_ok devs → grant devs devs [].
Proof.
  intros Hok. split; [|done..| | |].
  - by apply Forall_Forall2_diag, Forall_true, same_dev_refl.
  - intros u x. unfold seg_cov. rewrite Exists_nil. tauto.
  - intros u x ?%Exists_nil. done.
  - unfold seg_total. simpl. lia.
Qed.

Lemma grant_trans d1 d2 d3 s1 s2 : grant d1 d2 s1 → grant d2 d3 s2 → grant d1 d3 (s1 ++ s2).
Proof.
  intros [S1 O1 N1 D1 U1 F1 T1] [S2 O2 N2 D2 U2 F2 T2]. split.
  - clear -S1 S2. revert d3 S2. induction S1 as [|a b l l' Hab _ IH]; intros d3 S2; inversion S2; subst;
      constructor; [by eapply same_dev_trans|by apply IH].
  - done.
  - apply Forall_app. split; [done|]. eapply Forall_impl; [done|]. intros s. by apply seg_on_same.
  - apply segs_disjoint_app; [done..|]. intros u x H1 H2. apply (F2 u x H2), U1. by right.
  - intros u x. rewrite U2, U1, seg_cov_app. tauto.
  - intros u x [?|Hx]%seg_cov_app; [by apply F1|]. intros Hu. apply (F2 u x Hx), U1. by left.
  - rewrite seg_total_app. lia.
Qed.

Lemma used_cov_cons bd devs u x :
  used_cov (bd :: devs) u x ↔ (SBD.uuid bd = u ∧ covers (used (allocator bd)) x) ∨ used_cov devs u x.
Proof. apply Exists_cons. Qed.

Lemma used_cov_uuid devs u x : used_cov devs u x → u ∈ SBD.uuid <$> devs.
Proof. intros (bd & Hbd & <- & _)%Exists_exists. by apply list_elem_of_fmap_2. Qed.

Lemma seg_on_uuid devs s u x : seg_on devs s → in_seg s u x → u ∈ SBD.uuid <$> devs.
Proof. intros (_ & _ & (bd & Hbd & Hu & _)%Exists_exists) [<- _]. rewrite <- Hu. by apply list_elem_of_fmap_2. Qed.

(** A grant from all but the first device. *)
Lemma grant_frame bd devs devs' segs : dev_ok bd → SBD.uuid bd ∉ SBD.uuid <$> devs →
  grant devs devs' segs → grant (bd :: devs) (bd :: devs') segs.
Proof.
  intros Hbd Hu [S O N D U F T]. split.
  - constructor; [apply same_dev_refl|done].
  - by constructor.
  - eapply Forall_impl; [done|]. intros s (?&?&?). split_and!; [done..|by right].
  - done.
  - intros u x. rewrite !used_cov_cons, U. tauto.
  - intros u x Hs. rewrite used_cov_cons. intros [[<- _]|Hx]; [|by eapply F].
    apply Exists_exists in Hs as (s & Hin & Hs). rewrite Forall_forall in N.
    apply Hu. by eapply seg_on_uuid; [apply N|].
  - rewrite !free_total_cons. lia.
Qed.
End lemmas.

(** ** One device *)

Lemma ranges_disjoint bd lo lim l : segs_ok lo lim l →
  segs_disjoint (BDM.blkdev_segs bd (mkPDS lim l)).
Proof.
  revert lo. induction l as [|[s n] l IH]; intros lo; simpl; [done|]. intros (? & ? & ? & Hok).
  split; [|by eapply IH].
  apply Forall_fmap, Forall_forall. intros [s' n'] Hin u x [_ Hx] [_ Hy]. simpl in *.
  assert (covers l x) as Hc by (apply Exists_exists; exists (s', n'); split; [done|exact Hy]).
  eapply covers_bounds in Hc; [|exact Hok]. lia.
Qed.

Lemma blkdev_segs_cov bd r u x :
  seg_cov (BDM.blkdev_segs bd r) u x ↔ SBD.uuid bd = u ∧ covers (used r) x.
Proof.
  unfold seg_cov, BDM.blkdev_segs, PDS.iter, covers. rewrite Exists_fmap, !Exists_exists.
  unfold in_seg, in_range. simpl. naive_solver.
Qed.

Lemma blkdev_segs_total bd r : seg_total (BDM.blkdev_segs bd r) = total (used r).
Proof. unfold seg_total, BDM.blkdev_segs, total, PDS.iter. by rewrite <- list_fmap_compose. Qed.

Lemma segs_ok_each lo lim l : 0 ≤ lo → segs_ok lo lim l →
  Forall (λ r, 0 < r.2 ∧ 0 ≤ r.1 ∧ r.1 + r.2 ≤ lim) l.
Proof.
  revert lo. induction l as [|[s n] l IH]; intros lo Hlo; simpl; [done|]. intros (?&?&?&Hok).
  constructor; [simpl; lia|]. eapply IH; [|exact Hok]. lia.
Qed.

Lemma request_grant bd devs amount : dev_ok bd → Forall dev_ok devs →
  SBD.uuid bd ∉ SBD.uuid <$> devs → u64 amount →
  ∃ r bd', SBD.request_space bd amount = Ok (r, bd') ∧
    PDS.sum r = Z.min amount (free bd) ∧ seg_total (BDM.blkdev_segs bd r) = PDS.sum r ∧
    grant (bd :: devs) (bd' :: devs) (BDM.blkdev_segs bd r).
Proof.
  intros Hbd Hdevs Hu Ha. destruct (request_ok (sbd_used bd) amount Hbd Ha)
    as (r & ra & E & Hwr & Hw' & Hlr & Hl' & Ht & Ht' & Hd & Hc & _).
  exists r, (SBD.set_used bd ra). unfold SBD.request_space. rewrite E. split; [done|].
  rewrite sum_exact by done. split; [exact Ht|]. split; [apply blkdev_segs_total|].
  destruct Hwr as [Hlim Hok]. destruct r as [lim l]. simpl in Hlr, Hok, Ht, Ht', Hd, Hc.
  split.
  - constructor; [by split|]. by apply Forall_Forall2_diag, Forall_true, same_dev_refl.
  - by constructor.
  - apply Forall_fmap. eapply Forall_impl; [by apply (segs_ok_each 0 lim)|].
    intros [s n] (? & ? & ?). split_and!; [done..|]. left. simpl in *. unfold allocator. split_and!; [done..|lia].
  - by eapply ranges_disjoint.
  - intros u x. rewrite !used_cov_cons, blkdev_segs_cov. unfold allocator. simpl.
    rewrite Hc. tauto.
  - intros u x. rewrite blkdev_segs_cov, used_cov_cons. intros [<- Hx] [[_ Hy]|Hy].
    + by eapply Hd.
    + by apply used_cov_uuid in Hy.
  - rewrite !free_total_cons, blkdev_segs_total. unfold free, allocator in *. simpl in *. lia.
Qed.

(** ** The loops *)

Definition devs_ok (devs : list StratBlockDev) : Prop :=
  Forall dev_ok devs ∧ NoDup (SBD.uuid <$> devs) ∧ u64 (Zsum ((λ bd, limit (allocator bd)) <$> devs)).

Lemma free_bounds bd : dev_ok bd → 0 ≤ free bd ≤ limit (allocator bd).
Proof. intros Hw%wf_total. unfold free. lia. Qed.

Lemma free_total_bounds devs : Forall dev_ok devs →
  0 ≤ free_total devs ≤ Zsum ((λ bd, limit (allocator bd)) <$> devs).
Proof.
  induction 1 as [|bd devs Hbd _ IH]; [done|]. rewrite free_total_cons, fmap_cons. simpl.
  apply free_bounds in Hbd. lia.
Qed.

Lemma grant_devs_ok devs devs' segs : devs_ok devs → grant devs devs' segs → devs_ok devs'.
Proof.
  intros (Hok & Hnd & Hlim) G. split; [apply (g_ok _ _ _ G)|]. split; [by rewrite (grant_uuids _ _ _ G)|].
  destruct G as [Hs _ _ _ _ _ _]. revert Hlim.
  replace ((λ bd, limit (allocator bd)) <$> devs') with ((λ bd, limit (allocator bd)) <$> devs); [done|].
  clear -Hs. induction Hs as [|a b l l' [_ Hab] _ IH]; [done|]. by rewrite !fmap_cons, IH, Hab.
Qed.

Lemma alloc_inner_ok needed devs : Forall dev_ok devs → NoDup (SBD.uuid <$> devs) → u64 needed →
  ∀ alloc segs, 0 ≤ alloc ≤ needed →
  ∃ new devs', BDM.alloc_inner needed alloc devs segs =
      Ok (alloc + Z.min (needed - alloc) (free_total devs), segs ++ new, devs') ∧
    grant devs devs' new ∧ seg_total new = Z.min (needed - alloc) (free_total devs).
Proof.
  intros Hok Hnd Hn. induction Hok as [|bd devs Hbd Hok IH]; intros alloc segs Ha.
  { exists [], []. rewrite app_nil_r. change (free_total []) with 0. simpl.
    rewrite Z.min_r, Z.add_0_r by lia. split; [done|]. split; [by apply grant_nil|done]. }
  rewrite fmap_cons in Hnd. apply NoDup_cons in Hnd as [Hu Hnd].
  pose proof (free_bounds _ Hbd). pose proof (free_total_bounds _ Hok).
  rewrite !free_total_cons. simpl. destruct (Z.eqb_spec alloc needed) as [->|Hne].
  { exists [], (bd :: devs). rewrite app_nil_r, Z.sub_diag, Z.min_l, Z.add_0_r by lia. split; [done|].
    split; [by apply grant_nil, Forall_cons|done]. }
  assert (u64 (needed - alloc)) as Hna by (unfold u64 in *; lia).
  rewrite (wrap64_small (needed - alloc)) by done.
  destruct (request_grant bd devs (needed - alloc) Hbd Hok Hu Hna) as (r & bd' & -> & Hsum & Hsr & G).
  cbn [rbind]. rewrite (wrap64_small (alloc + PDS.sum r)) by (unfold u64 in *; lia).
  destruct (IH Hnd (alloc + PDS.sum r) (segs ++ BDM.blkdev_segs bd r)) as (new & devs' & -> & G' & Ht);
    [lia|]. cbn [rbind].
  exists (BDM.blkdev_segs bd r ++ new), (bd' :: devs').
  split; [|split].
  - assert (alloc + PDS.sum r + Z.min (needed - (alloc + PDS.sum r)) (free_total devs) =
      alloc + Z.min (needed - alloc) (free bd + free_total devs)) as -> by lia. by rewrite app_assoc.
  - eapply grant_trans; [exact G|]. pose proof (grant_uuids _ _ _ G) as Huu. simpl in Huu.
    injection Huu as Huu. apply grant_frame; [|by rewrite Huu|done].
    pose proof (g_ok _ _ _ G) as Hg. by inversion Hg.
  - rewrite seg_total_app, Hsr, Ht. lia.
Qed.

Lemma alloc_outer_ok sizes : Forall u64 sizes → ∀ devs, devs_ok devs → Zsum sizes ≤ free_total devs →
  ∃ lists devs', BDM.alloc_outer sizes devs = Ok (lists, devs') ∧
    Forall2 (λ l n, seg_total l = n) lists sizes ∧ grant devs devs' (concat lists).
Proof.
  induction 1 as [|needed sizes Hn Hs IH]; intros devs Hd Hsum.
  { exists [], devs. split; [done|]. split; [constructor|]. by apply grant_nil, Hd. }
  simpl in Hsum. assert (0 ≤ Zsum sizes) as Hpos.
  { apply Zsum_nonneg. eapply Forall_impl; [done|]. intros x Hx. unfold u64 in Hx. lia. }
  destruct Hd as (Hok & Hnd & Hlim).
  destruct (alloc_inner_ok needed devs Hok Hnd Hn 0 []) as (new & devs1 & E & G & Ht);
    [unfold u64 in Hn; lia|].
  rewrite Z.sub_0_r, Z.min_l in Ht, E by lia.
  destruct (IH devs1) as (lists & devs2 & E2 & HF & G2).
  { by eapply grant_devs_ok. }
  { rewrite (g_free _ _ _ G). lia. }
  exists (new :: lists), devs2. simpl. rewrite E. cbn [rbind]. rewrite Z.add_0_l, Z.eqb_refl. simpl rassert.
  rewrite E2. split; [done|]. split; [by constructor|]. by eapply grant_trans.
Qed.

Lemma avail_space_exact self : devs_ok (block_devs self) → BDM.avail_space self = free_total (block_devs self).
Proof.
  intros (Hok & _ & Hlim). unfold BDM.avail_space.
  pose proof (free_total_bounds _ Hok) as Hb.
  assert (SBD.available <$> block_devs self = free <$> block_devs self) as ->.
  { apply list_fmap_ext. intros i bd Hbd. eapply Forall_lookup_1 in Hok; [|done].
    by apply available_exact. }
  apply sum64_exact. unfold u64, free_total in *. lia.
Qed.

Lemma alloc_space_ok self sizes : devs_ok (block_devs self) → Forall u64 sizes → u64 (Zsum sizes) →
  if Zsum sizes <=? free_total (block_devs self) then
    ∃ lists devs', BDM.alloc_space self sizes = Ok (Some lists, with_devs self devs') ∧
      Forall2 (λ l n, seg_total l = n) lists sizes ∧
      grant (block_devs self) devs' (concat lists)
  else BDM.alloc_space self sizes = Ok (None, self).
Proof.
  intros Hd Hs Hu. unfold BDM.alloc_space. rewrite sum64_exact, avail_space_exact by done.
  rewrite Z.ltb_antisym. destruct (Z.leb_spec (Zsum sizes) (free_total (block_devs self))); simpl; [|done].
  destruct (alloc_outer_ok sizes Hs _ Hd) as (lists & devs' & -> & HF & G); [done|].
  by exists lists, devs'.
Qed.

(** C5: [BlockDevMgr::alloc_space] is atomic and exact: it never panics (its assertion cannot fail);
    if the devices have room for the sum of the sizes it returns one list of segments per
    size, each of exactly that size; the segments are non-empty, lie on devices of the
    manager below their size, were free before, and do not overlap each other; afterwards exactly the sectors used
    before and those granted are used, and [avail_space] has dropped by the sum.
    Otherwise it returns [None] and allocates nothing. *)
Theorem alloc_space_spec self sizes : devs_ok (block_devs self) → Forall u64 sizes → u64 (Zsum sizes) →
  (Zsum sizes ≤ BDM.avail_space self ∧
     ∃ lists self', BDM.alloc_space self sizes = Ok (Some lists, self') ∧
       Forall2 (λ l n, seg_total l = n) lists sizes ∧
       Forall (seg_on (block_devs self)) (concat lists) ∧ segs_disjoint (concat lists) ∧
       (∀ u x, seg_cov (concat lists) u x → ¬ used_cov (block_devs self) u x) ∧
       (∀ u x, used_cov (block_devs self') u x ↔
               used_cov (block_devs self) u x ∨ seg_cov (concat lists) u x) ∧
       BDM.avail_space self' = BDM.avail_space self - Zsum sizes ∧
       devs_ok (block_devs self') ∧ Forall2 same_dev (block_devs self) (block_devs self') ∧
       last_update_time self' = last_update_time self) ∨
  (BDM.avail_space self < Zsum sizes ∧ BDM.alloc_space self sizes = Ok (None, self)).
Proof.
  intros Hd Hs Hu. pose proof (alloc_space_ok self sizes Hd Hs Hu) as Ha.
  rewrite avail_space_exact by done.
  destruct (Z.leb_spec (Zsum sizes) (free_total (block_devs self))); [left|by right].
  split; [done|]. destruct Ha as (lists & devs' & E & HF & G).
  exists lists, (with_devs self devs'). split; [done|]. split; [done|].
  assert (devs_ok devs') as Hd' by by eapply grant_devs_ok.
  assert (seg_total (concat lists) = Zsum sizes) as Ht.
  { clear -HF. induction HF as [|l n ls ns H _ IH]; [done|]. simpl. rewrite seg_total_app. lia. }
  rewrite avail_space_exact by done. destruct G. simpl. split_and!; try done. lia.
Qed.

(** ** Segment lists as linear devices

    The sectors of a segment list, in the order in which they appear on the linear
    device built from it: device number and physical sector. *)
Definition seg_sectors (s : BlkDevSegment) : list (Z * Z) :=
  (λ x, (device (segment s), x)) <$> seqZ (start (segment s)) (length_ (segment s)).
Definition sectors (l : list BlkDevSegment) : list (Z * Z) := l ≫= seg_sectors.

(** Devicemapper's reading of a linear table: where a logical sector is stored. *)
Fixpoint dm_lookup (table : list LinearLine) (y : Z) : option (Z * Z) :=
  match table with
  | [] => None
  | line :: rest =>
      if (logical_start line <=? y) && (y <? logical_start line + line_length line)
      then Some (line_device line, physical_start line + (y - logical_start line))
      else dm_lookup rest y
  end.

(** the segments of one device agree on its number *)
Definition coherent (l : list BlkDevSegment) : Prop :=
  ∀ a b, a ∈ l → b ∈ l → seg_uuid a = seg_uuid b → device (segment a) = device (segment b).

Definition seg_ok (s : BlkDevSegment) : Prop :=
  0 ≤ start (segment s) ∧ 0 < length_ (segment s) ∧ start (segment s) + length_ (segment s) ≤ u64_max.

Lemma sectors_app l1 l2 : sectors (l1 ++ l2) = sectors l1 ++ sectors l2.
Proof. apply bind_app. Qed.

Lemma seg_sectors_length s : 0 ≤ length_ (segment s) →
  Z.of_nat (length (seg_sectors s)) = length_ (segment s).
Proof. intros. unfold seg_sectors. rewrite length_fmap, length_seqZ. lia. Qed.

Lemma sectors_length l : Forall seg_ok l → Z.of_nat (length (sectors l)) = seg_total l.
Proof.
  induction 1 as [|s l (?&?&?) _ IH]; [done|].
  change (sectors (s :: l)) with (seg_sectors s ++ sectors l).
  change (seg_total (s :: l)) with (length_ (segment s) + seg_total l).
  rewrite length_app, Nat2Z.inj_add, IH, seg_sectors_length by lia. done.
Qed.

Lemma seg_total_nonneg l : Forall seg_ok l → 0 ≤ seg_total l.
Proof. intros Hl. rewrite <- sectors_length by done. lia. Qed.

Lemma seg_cov_sectors l u x : seg_cov l u x → ∃ d, (d, x) ∈ sectors l.
Proof.
  intros (s & Hs & _ & Hx)%Exists_exists. exists (device (segment s)).
  apply list_elem_of_bind. exists s. split; [|done].
  apply list_elem_of_fmap. exists x. split; [done|]. apply elem_of_seqZ. lia.
Qed.

Lemma map_to_dm_lookup off l y : Forall seg_ok l → 0 ≤ off → off + seg_total l ≤ u64_max → off ≤ y →
  dm_lookup (map_to_dm_from off (segment <$> l)) y = sectors l !! Z.to_nat (y - off).
Proof.
  intros Hl. revert off. induction Hl as [|s l (Hs & Hn & Hb) Hl IH]; intros off Ho Ht Hy; [done|].
  change (sectors (s :: l)) with (seg_sectors s ++ sectors l).
  change (seg_total (s :: l)) with (length_ (segment s) + seg_total l) in Ht.
  pose proof (seg_total_nonneg l Hl). rewrite fmap_cons. cbn [map_to_dm_from dm_lookup].
  cbn [logical_start line_length line_device physical_start].
  rewrite wrap64_small by (unfold u64; lia).
  destruct (Z.leb_spec off y), (Z.ltb_spec y (off + length_ (segment s))); cbn [andb]; try lia.
  - rewrite lookup_app_l by (pose proof (seg_sectors_length s ltac:(lia)); lia).
    unfold seg_sectors. rewrite list_lookup_fmap, lookup_seqZ_lt by lia. simpl. repeat f_equal. lia.
  - rewrite IH by lia. pose proof (seg_sectors_length s ltac:(lia)).
    rewrite lookup_app_r by lia. f_equal. lia.
Qed.

(** ** [coalesce_blkdevsegs] *)

Lemma coalesce_cases left right :
  (coalesce_blkdevsegs left right = left ++ right) ∨
  ∃ front a b rest, left = front ++ [a] ∧ right = b :: rest ∧
    seg_uuid a = seg_uuid b ∧
    start (segment a) +64 length_ (segment a) = start (segment b) ∧
    coalesce_blkdevsegs left right =
      front ++ mkBDS (seg_uuid a) (mkSegment (start (segment a))
        (length_ (segment a) +64 length_ (segment b)) (device (segment a))) :: rest.
Proof.
  unfold coalesce_blkdevsegs. destruct left as [|a front _] using rev_ind; [by left|].
  rewrite last_snoc. destruct right as [|b rest]; [left; by rewrite app_nil_r|].
  case_bool_decide as Hu; simpl; [|by left].
  destruct (Z.eqb_spec (start (segment a) +64 length_ (segment a)) (start (segment b))); simpl; [|by left].
  right. exists front, a, b, rest. split_and!; try done. by rewrite removelast_last.
Qed.

Lemma segs_disjoint_cons s l :
  segs_disjoint (s :: l) ↔ (∀ u x, in_seg s u x → seg_cov l u x → False) ∧ segs_disjoint l.
Proof.
  simpl. unfold seg_cov, apart. split; intros [Ha Hl]; (split; [|done]).
  - intros u x Hs (b & Hb & Hx)%Exists_exists. rewrite Forall_forall in Ha. by eapply Ha.
  - apply Forall_forall. intros b Hb u x Hs Hx. apply (Ha u x Hs). apply Exists_exists. by exists b.
Qed.

Lemma segs_disjoint_app_iff l1 l2 : segs_disjoint (l1 ++ l2) ↔
  segs_disjoint l1 ∧ segs_disjoint l2 ∧ (∀ u x, seg_cov l1 u x → seg_cov l2 u x → False).
Proof.
  split; [|intros (?&?&?); by apply segs_disjoint_app].
  induction l1 as [|s l1 IH]; simpl app; [intros; split_and!; [done..|by intros u x ?%Exists_nil]|].
  rewrite !segs_disjoint_cons. setoid_rewrite seg_cov_app. intros [Ha (?&?&Hc)%IH].
  split_and!; [|done..|].
  - intros u x Hs Hx. apply (Ha u x Hs). by left.
  - intros u x [Hs|Hs]%Exists_cons Hx; [apply (Ha u x Hs); by right|by apply (Hc u x)].
Qed.

Lemma seg_cov_cons s l u x : seg_cov (s :: l) u x ↔ in_seg s u x ∨ seg_cov l u x.
Proof. apply Exists_cons. Qed.

Lemma seg_cov_nil u x : seg_cov [] u x ↔ False.
Proof. apply Exists_nil. Qed.

(** What merging [b] into its left neighbour [a] gives. *)
Section merge.
Context (a b : BlkDevSegment).
Context (Ha : seg_ok a) (Hb : seg_ok b) (Hu : seg_uuid a = seg_uuid b).
Context (Hd : device (segment a) = device (segment b)).
Context (Hab : start (segment a) +64 length_ (segment a) = start (segment b)).

Definition merged : BlkDevSegment :=
  mkBDS (seg_uuid a) (mkSegment (start (segment a))
    (length_ (segment a) +64 length_ (segment b)) (device (segment a))).

Lemma merged_exact : start (segment b) = start (segment a) + length_ (segment a) ∧
  length_ (segment merged) = length_ (segment a) + length_ (segment b).
Proof.
  destruct Ha as (?&?&?), Hb as (?&?&?). rewrite wrap64_small in Hab by (unfold u64; lia).
  split; [done|]. simpl. apply wrap64_small. unfold u64. lia.
Qed.

Lemma merged_ok : seg_ok merged.
Proof.
  destruct merged_exact as [Es El]. destruct Ha as (?&?&?), Hb as (?&?&?). unfold seg_ok. rewrite El. simpl. lia.
Qed.

Lemma merged_in u x : in_seg merged u x ↔ in_seg a u x ∨ in_seg b u x.
Proof.
  destruct merged_exact as [Es El]. destruct Ha as (?&?&?), Hb as (?&?&?).
  unfold in_seg. rewrite El, Es, <- Hu. simpl. split; [intros [? ?]|intros [[? ?]|[? ?]]; split; lia || done].
  destruct (decide (x < start (segment a) + length_ (segment a))); [left|right]; (split; [done|lia]).
Qed.

Lemma merged_sectors : seg_sectors merged = seg_sectors a ++ seg_sectors b.
Proof.
  destruct merged_exact as [Es El]. destruct Ha as (?&?&?), Hb as (?&?&?).
  unfold seg_sectors. rewrite El, Es, <- Hd. simpl. rewrite seqZ_app by lia. by rewrite fmap_app.
Qed.
End merge.

Definition coalesced (left right l : list BlkDevSegment) : Prop :=
  sectors l = sectors left ++ sectors right ∧
  (∀ u x, seg_cov l u x ↔ seg_cov left u x ∨ seg_cov right u x) ∧
  seg_total l = seg_total left + seg_total right ∧ Forall seg_ok l ∧ coherent l ∧
  (segs_disjoint (left ++ right) → segs_disjoint l) ∧
  (length left + length right - 1 ≤ length l ≤ length left + length right)%nat.

Lemma coalesce_ok left right : Forall seg_ok (left ++ right) → coherent (left ++ right) →
  coalesced left right (coalesce_blkdevsegs left right).
Proof.
  intros Hok Hc. destruct (coalesce_cases left right) as [->|(front & a & b & rest & -> & -> & Hu & Hab & ->)].
  { split_and!; try done; [apply sectors_app|intros; apply seg_cov_app|apply seg_total_app|..];
      rewrite length_app; lia. }
  change (mkBDS _ _) with (merged a b).
  rewrite <- app_assoc in Hok, Hc. simpl in Hok, Hc.
  apply Forall_app in Hok as (Hf & [Ha [Hb Hr]%Forall_cons]%Forall_cons).
  assert (device (segment a) = device (segment b)) as Hd.
  { apply Hc; [..|done]; apply elem_of_app; right; [left|right; left]. }
  pose proof (merged_ok a b Ha Hb Hab) as Hm. pose proof (merged_in a b Ha Hb Hu Hab) as Hin.
  destruct (merged_exact a b Ha Hb Hab) as [_ El].
  split_and!.
  - rewrite !sectors_app. change (sectors (merged a b :: rest)) with (seg_sectors (merged a b) ++ sectors rest).
    rewrite (merged_sectors a b Ha Hb Hd Hab). change (sectors [a]) with (seg_sectors a ++ []).
    rewrite app_nil_r, <- !app_assoc. done.
  - intros u x. rewrite !seg_cov_app, !seg_cov_cons, Hin, seg_cov_nil. tauto.
  - rewrite !seg_total_app. change (seg_total (merged a b :: rest)) with (length_ (segment (merged a b)) + seg_total rest).
    rewrite El. change (seg_total [a]) with (length_ (segment a) + 0).
    change (seg_total (b :: rest)) with (length_ (segment b) + seg_total rest). lia.
  - apply Forall_app. split; [done|]. by constructor.
  - assert (∀ c, c ∈ front ++ merged a b :: rest →
      ∃ c', c' ∈ front ++ a :: b :: rest ∧ seg_uuid c' = seg_uuid c ∧ device (segment c') = device (segment c)) as Hrep.
    { intros c [Hc1|[->|Hc1]%elem_of_cons]%elem_of_app; [exists c|exists a|exists c]; (split; [|done]);
        set_solver. }
    intros c d (c' & Hc1 & <- & <-)%Hrep (d' & Hd1 & <- & <-)%Hrep. by apply Hc.
  - rewrite <- app_assoc. simpl app. rewrite !segs_disjoint_app_iff, !segs_disjoint_cons.
    setoid_rewrite seg_cov_cons. setoid_rewrite Hin. intros (Hdf & (H1 & H2 & H3) & H4).
    split_and!; [done| |done|].
    + intros u x [Hx|Hx] Hr'; [apply (H1 u x Hx); by right|by apply (H2 u x)].
    + intros u x Hx Hr'. apply (H4 u x Hx). rewrite !seg_cov_cons. rewrite ?seg_cov_cons, ?Hin in Hr'. tauto.
  - rewrite !length_app. simpl. lia.
  - rewrite !length_app. simpl. lia.
Qed.

(** Coalescing two segment lists changes nothing but the number of segments: the linear device
    has the same sectors in the same order, so growing a tier never moves data; at most one
    segment is merged; no two segments overlap if none did before. *)
Theorem coalesce_spec left right :
  Forall seg_ok (left ++ right) → coherent (left ++ right) →
  let l := coalesce_blkdevsegs left right in
  sectors l = sectors left ++ sectors right ∧
  (∀ u x, seg_cov l u x ↔ seg_cov left u x ∨ seg_cov right u x) ∧
  seg_total l = seg_total left + seg_total right ∧ Forall seg_ok l ∧ coherent l ∧
  (segs_disjoint (left ++ right) → segs_disjoint l) ∧
  (length left + length right - 1 ≤ length l ≤ length left + length right)%nat.
Proof.
  intros Hok Hc. exact (coalesce_ok left right Hok Hc).
Qed.

(** The devicemapper table built from a segment list is the concatenation of its segments: logical
    sector [y] of the device is the [y]-th sector of the list, and there is no logical
    sector beyond the total length of the segments. *)
Theorem map_to_dm_spec l y : Forall seg_ok l → seg_total l ≤ u64_max → 0 ≤ y →
  dm_lookup (map_to_dm l) y = sectors l !! Z.to_nat y ∧
  (is_Some (dm_lookup (map_to_dm l) y) ↔ y < seg_total l).
Proof.
  intros Hl Ht Hy. assert (dm_lookup (map_to_dm l) y = sectors l !! Z.to_nat y) as E.
  { unfold map_to_dm. rewrite map_to_dm_lookup by (done || lia). f_equal. lia. }
  split; [done|]. rewrite E, lookup_lt_is_Some. pose proof (sectors_length l Hl). lia.
Qed.

(** ** Examples *)

Definition ex_dev (u n : Z) : StratBlockDev :=
  mkSBD n (Bda.new (mkIds 1 u) mda_size.MDADataSize_default 2097152 1600000000)
    (mkRA (mkPDS 2097152 [(0, 8192)])) None None (Unencrypted (str "/dev/sda")).
Definition ex_mgr : BlockDevMgr := mkMgr [ex_dev 10 2049; ex_dev 11 2065] None.

#[global] Instance devs_ok_dec devs : Decision (devs_ok devs).
Proof. unfold devs_ok, dev_ok. apply _. Defined.
#[global] Instance seg_ok_dec s : Decision (seg_ok s).
Proof. unfold seg_ok. apply _. Defined.

Definition ex_segs : list BlkDevSegment :=
  [mkBDS 10 (mkSegment 8192 2088960 2049); mkBDS 11 (mkSegment 8192 11040 2065)].

Lemma alloc_space_spec_witness :
  BDM.alloc_space ex_mgr [2100000] = Ok (Some [ex_segs], with_devs ex_mgr
    [SBD.set_used (ex_dev 10 2049) (mkRA (mkPDS 2097152 [(0, 2097152)]));
     SBD.set_used (ex_dev 11 2065) (mkRA (mkPDS 2097152 [(0, 19232)]))]) ∧
  (Zsum [2100000] ≤ BDM.avail_space ex_mgr ∧
    ∃ lists self', BDM.alloc_space ex_mgr [2100000] = Ok (Some lists, self') ∧
      BDM.avail_space self' = BDM.avail_space ex_mgr - Zsum [2100000]).
Proof.
  split; [vm_compute; reflexivity|].
  destruct (alloc_space_spec ex_mgr [2100000]) as [(H & lists & self' & E & _ & _ & _ & _ & _ & Ha & _)|[H _]].
  - apply (bool_decide_unpack _). vm_compute. exact I.
  - apply (bool_decide_unpack _). vm_compute. exact I.
  - apply (bool_decide_unpack _). vm_compute. exact I.
  - split; [exact H|]. exists lists, self'. by split.
  - exfalso. vm_compute in H. discriminate.
Defined.

Definition ex_more : list BlkDevSegment :=
  [mkBDS 11 (mkSegment 19232 100 2065); mkBDS 11 (mkSegment 30000 7 2065)].

Lemma coalesce_spec_witness :
  coalesce_blkdevsegs ex_segs ex_more =
    [mkBDS 10 (mkSegment 8192 2088960 2049); mkBDS 11 (mkSegment 8192 11140 2065);
     mkBDS 11 (mkSegment 30000 7 2065)] ∧
  sectors (coalesce_blkdevsegs ex_segs ex_more) = sectors ex_segs ++ sectors ex_more.
Proof.
  split; [vm_compute; reflexivity|].
  apply (coalesce_spec ex_segs ex_more).
  - apply (bool_decide_unpack _). vm_compute. exact I.
  - intros a b Ha Hb. unfold ex_segs, ex_more in *. simpl in Ha, Hb.
    repeat (apply elem_of_cons in Ha as [->|Ha]); try (by apply not_elem_of_nil in Ha);
      repeat (apply elem_of_cons in Hb as [->|Hb]); try (by apply not_elem_of_nil in Hb); simpl; done.
Defined.

Lemma map_to_dm_spec_witness :
  dm_lookup (map_to_dm ex_segs) 2088962 = Some (2065, 8194) ∧
  (is_Some (dm_lookup (map_to_dm ex_segs) 2088962) ↔ 2088962 < seg_total ex_segs).
Proof.
  split; [vm_compute; reflexivity|]. apply (map_to_dm_spec ex_segs 2088962).
  - apply (bool_decide_unpack _). vm_compute. exact I.
  - vm_compute. discriminate.
  - lia.
Defined.
