(* ===== verification/Bindings.v ===== *)
(** * Changing the encryption bindings of a pool

    [BlockDevMgr]'s [bind_clevis], [unbind_clevis], [bind_keyring], [unbind_keyring] and
    [rebind_keyring] apply an operation to every device and roll back when one fails.
    All devices of a manager carry the same encryption info ([BlockDevMgr::invariant]); these
    operations keep it so, or report that the rollback failed. *)
From stdpp Require Import base list gmap strings.
From Stdlib Require Import ZArith Lia.
From S2P Require Import Prelude Disk Sizes External Json StaticHeader MDA BDA Shared System Names Crypt RangeAlloc BlockDev Devices BlockDevMgr.

(** ** Specifications of methods *)

(** [spec h m Q]: every run of [m] on the object [h] ends with an outcome and an object in [Q]. *)
Definition spec `{Cryptsetup} {S A} (h : S) (m : obj S A) (Q : res A → S → Prop) : Prop :=
  ∀ s, match m (h, s) with (r, (h', _)) => Q r h' end.

Section spec.
Context `{Cryptsetup} {S : Type}.

Lemma spec_ret {A} (h : S) (a : A) Q : Q (Ok a) h → spec h (iret a) Q.
Proof. by intros HQ s. Qed.
Lemma spec_err {A} (h : S) e (Q : res A → S → Prop) : Q (Err e) h → spec h (ierr e) Q.
Proof. by intros HQ s. Qed.
Lemma spec_self {A} (h : S) (k : S → obj S A) Q : spec h (k h) Q → spec h (ibind get_self k) Q.
Proof. intros Hk s. unfold ibind, get_self. simpl. apply Hk. Qed.
Lemma spec_ok {A B} (h : S) (r : res A) a (k : A → obj S B) Q :
  r = Ok a → spec h (k a) Q → spec h (ibind (ilift r) k) Q.
Proof. intros -> Hk s. apply Hk. Qed.
Lemma spec_lift {A B} (h : S) (r : res A) (k : A → obj S B) Q :
  (∀ a, r = Ok a → spec h (k a) Q) → (∀ e, Q (Err e) h) → (∀ w, r ≠ Panic w) →
  spec h (ibind (ilift r) k) Q.
Proof. intros Hk He Hp s. destruct r as [a|e|w]; [by apply Hk|apply He|by destruct (Hp w)]. Qed.
Lemma spec_map {A B} (h : S) (m : obj S A) (f : A → B) Q :
  spec h m (λ r, Q (rmap f r)) → spec h (let! a := m in iret (f a)) Q.
Proof.
  intros Hm s. specialize (Hm s). unfold ibind. by destruct (m (h, s)) as [[a|e|w] [h' s']].
Qed.
Lemma spec_sys {A B} (h : S) (m : sys A) (k : A → obj S B) Q :
  safe m → (∀ a, spec h (k a) Q) → (∀ e, Q (Err e) h) → spec h (ibind (lift_sys m) k) Q.
Proof.
  intros Hm Hk He s. specialize (Hm s). unfold ibind, lift_sys.
  destruct (m s) as [[a|e|w] s']; simpl in *; [apply Hk|apply He|done].
Qed.
Lemma spec_bind {A B} (h : S) (m : obj S A) (k : A → obj S B) P Q :
  spec h m P → (∀ a h', P (Ok a) h' → spec h' (k a) Q) →
  (∀ e h', P (Err e) h' → Q (Err e) h') → (∀ w h', P (Panic w) h' → Q (Panic w) h') →
  spec h (ibind m k) Q.
Proof.
  intros Hm Hk He Hp s. specialize (Hm s). unfold ibind.
  destruct (m (h, s)) as [[a|e|w] [h' s']]; [by apply Hk|by apply He|by apply Hp].
Qed.
End spec.

(** ** Devices and their encryption info *)

Definition set_enc (e : EncryptionInfo) (d : StratBlockDev) : StratBlockDev :=
  match underlying_device d with
  | Encrypted h => SBD.set_underlying d (Encrypted (set_encryption_info e h))
  | Unencrypted _ => d
  end.

Definition has_handle (d : StratBlockDev) : Prop := is_Some (UD.crypt_handle (underlying_device d)).

Lemma set_enc_info e d : has_handle d → SBD.encryption_info (set_enc e d) = e.
Proof. destruct d as [???? ? []]; intros [? ?]; done. Qed.
Lemma set_enc_id d : set_enc (SBD.encryption_info d) d = d.
Proof. by destruct d as [???? ? [[?? [? ? []]]|]]. Qed.
Lemma set_enc_set e1 e2 d : set_enc e1 (set_enc e2 d) = set_enc e1 d.
Proof. by destruct d as [???? ? []]. Qed.
Lemma set_enc_handle e d : has_handle d → has_handle (set_enc e d).
Proof. destruct d as [???? ? []]; intros [? ?]; [by eexists|done]. Qed.
Lemma encrypted_has_handle d : EncryptionInfo_is_encrypted (SBD.encryption_info d) = true → has_handle d.
Proof. destruct d as [???? ? []]; [by eexists|done]. Qed.

Section bindings.
Context `{Crc32c} `{Chrono} `{Cryptsetup} `{UuidDisplay} `{ClevisCodec}.

Lemma with_handle_commits op d : has_handle d →
  commits d (SBD.with_handle (run_handle_op op)) (λ _ d', ∃ e', d' = set_enc e' d ∧
    handle_op_effect op (SBD.encryption_info d) e').
Proof.
  intros [h Hh] s. destruct d as [n b u i w [h'|]]; [|done]. simplify_eq/=.
  pose proof (handle_op_commits op h s) as Hc.
  destruct (run_handle_op op (h, s)) as [[a|e|x] [h' s']]; simpl in *; [|by subst|done].
  destruct Hc as (e' & -> & He). exists e'. done.
Qed.

(** ** Loops with rollback *)

(** [op] turns info [e0] into [e1], whenever it succeeds *)
Definition turns (op : HandleOp) (e0 e1 : EncryptionInfo) : Prop :=
  ∀ e, handle_op_effect op e0 e → e = e1.

Lemma turns_commits op e0 e1 d : has_handle d → SBD.encryption_info d = e0 → turns op e0 e1 →
  commits d (SBD.with_handle (run_handle_op op)) (λ _ d', d' = set_enc e1 d ∧ handle_op_effect op e0 e1).
Proof.
  intros Hh <- Ht. eapply commits_weaken; [by apply with_handle_commits|].
  intros _ d' (e' & -> & He). by rewrite <- (Ht _ He).
Qed.

(** each device as it was, or changed *)
Definition mixture (e1 : EncryptionInfo) : list StratBlockDev → list StratBlockDev → Prop :=
  Forall2 (λ d d', d' = d ∨ d' = set_enc e1 d).

Lemma mixture_id e1 l : mixture e1 l l.
Proof. apply Forall_Forall2_diag, Forall_true. by left. Qed.
Lemma mixture_changed e1 l : mixture e1 l (set_enc e1 <$> l).
Proof. induction l; constructor; [by right|done]. Qed.

Definition devs_with (e : EncryptionInfo) (l : list StratBlockDev) : Prop :=
  Forall (λ d, has_handle d ∧ SBD.encryption_info d = e) l.

Lemma rollback_ok rb e0 e1 ds : turns rb e1 e0 → devs_with e0 ds → ∀ i causal s,
  ∃ err ds' s', BDM.rollback_loop (λ _, SBD.with_handle (run_handle_op rb)) i (set_enc e1 <$> ds) causal s =
      (Ok (err, ds'), s') ∧
    ((err = causal ∧ ds' = ds) ∨ ((∃ e, err = RollbackError causal e) ∧ mixture e1 ds ds')).
Proof.
  intros Ht Hds. induction Hds as [|d ds [Hh He] Hds IH]; intros i causal s.
  { exists causal, [], s. split; [done|]. by left. }
  rewrite fmap_cons. cbn [BDM.rollback_loop].
  pose proof (turns_commits rb e1 e0 (set_enc e1 d) (set_enc_handle _ _ Hh) (set_enc_info _ _ Hh) Ht s) as Hc.
  destruct (SBD.with_handle _ (set_enc e1 d, s)) as [[[]|e|w] [d' s']]; [| |done].
  - destruct (IH (S i) causal s') as (err & ds' & s'' & E & Hr).
    exists err, (d' :: ds'), s''. unfold ibind. rewrite E. split; [done|].
    assert (d' = d) as -> by (rewrite (proj1 Hc), set_enc_set, <- He; apply set_enc_id).
    destruct Hr as [[-> ->]|[He' Hm]]; [by left|]. right. split; [done|]. constructor; [by left|done].
  - exists (RollbackError causal e), (d' :: (set_enc e1 <$> ds)), s'. split; [done|]. right.
    split; [by eexists|]. constructor; [by right|]. apply mixture_changed.
Qed.

Lemma operation_loop_from_ok op rb e0 e1 todo : turns op e0 e1 → turns rb e1 e0 → devs_with e0 todo →
  ∀ ds s, devs_with e0 ds → ∃ r devs' s',
    BDM.operation_loop_from todo (SBD.with_handle (run_handle_op op))
      (λ _, SBD.with_handle (run_handle_op rb)) (set_enc e1 <$> ds) s = (Ok (r, devs'), s') ∧
    match r with
    | inr _ => devs' = set_enc e1 <$> (ds ++ todo) ∧ (todo ≠ [] → handle_op_effect op e0 e1)
    | inl err => devs' = ds ++ todo ∨ ((∃ c e, err = RollbackError c e) ∧ mixture e1 (ds ++ todo) devs')
    end.
Proof.
  intros Ht Hrb Htodo. induction Htodo as [|d todo [Hh He] Htodo IH]; intros ds s Hds.
  { exists (inr tt), (set_enc e1 <$> ds), s. split; [done|]. by rewrite app_nil_r. }
  cbn [BDM.operation_loop_from].
  pose proof (turns_commits op e0 e1 d Hh He Ht s) as Hc.
  destruct (SBD.with_handle _ (d, s)) as [[[]|e|w] [d' s']]; [| |done].
  - destruct Hc as [-> Heff]. destruct (IH (ds ++ [d]) s') as (r & devs' & s'' & E & Hr).
    { apply Forall_app. split; [done|]. by repeat constructor. }
    rewrite fmap_app in E. exists r, devs', s''. split; [exact E|]. rewrite <- app_assoc in Hr.
    destruct r; [done|]. destruct Hr. by split.
  - subst d'. destruct (rollback_ok rb e0 e1 ds Hrb Hds 0 e s') as (err & ds' & s'' & E & Hr).
    exists (inl err), (ds' ++ d :: todo), s''. unfold ibind. rewrite E. split; [done|].
    destruct Hr as [[-> ->]|[[x ->] Hm]]; [by left|]. right. split; [by eexists _, _|].
    apply Forall2_app; [done|]. apply mixture_id.
Qed.

(** All devices changed, or none, or a [RollbackError]. *)
Definition all_or_nothing {A} (op : HandleOp) (self : BlockDevMgr) (e0 e1 : EncryptionInfo) (r : res A) (self' : BlockDevMgr) : Prop :=
  match r with
  | Ok _ => self' = with_devs self (set_enc e1 <$> block_devs self) ∧
      (block_devs self ≠ [] → handle_op_effect op e0 e1)
  | Err err => self' = self ∨
      ((∃ c e, err = RollbackError c e) ∧
       ∃ devs', self' = with_devs self devs' ∧ mixture e1 (block_devs self) devs')
  | Panic _ => False
  end.

Lemma operation_loop_ok op rb e0 e1 self : turns op e0 e1 → turns rb e1 e0 → devs_with e0 (block_devs self) →
  spec self (BDM.operation_loop (SBD.with_handle (run_handle_op op)) (λ _, SBD.with_handle (run_handle_op rb)))
    (all_or_nothing op self e0 e1).
Proof.
  intros Ht Hrb Hd s. destruct (operation_loop_from_ok op rb e0 e1 _ Ht Hrb Hd [] s) as (r & devs' & s' & E & Hr);
    [constructor|]. unfold BDM.operation_loop. simpl in E. rewrite E. simpl in Hr.
  destruct r as [err|]; simpl; [|destruct Hr as [-> Heff]; by split].
  destruct Hr as [->|[He Hm]]; [left; by destruct self|]. right. split; [done|]. by exists devs'.
Qed.
(** ** The operations of the manager *)

Lemma safe_can_unlock path a b : safe (Crypt.can_unlock path a b).
Proof. unfold Crypt.can_unlock, can_unlock_with_failures, key_desc_from_metadata, check_luks2_token. safely. Qed.

Lemma safe_mgr_can_unlock self a b : block_devs self ≠ [] → safe (BDM.can_unlock self a b).
Proof. unfold BDM.can_unlock. destruct (block_devs self); [done|]. intros _. apply safe_can_unlock. Qed.

Inductive MgrOp : Type :=
| MBindClevis (pin : Str) (config : Value)
| MUnbindClevis
| MBindKeyring (kd : KeyDescription)
| MUnbindKeyring
| MRebindKeyring (kd : KeyDescription).

(** [Some b]: the Boolean the operation returns; [None]: [rebind_keyring] without a key *)
Definition run_mgr_op (op : MgrOp) : obj BlockDevMgr (option bool) :=
  match op with
  | MBindClevis pin config => let! b := BDM.bind_clevis pin config in iret (Some b)
  | MUnbindClevis => let! b := BDM.unbind_clevis in iret (Some b)
  | MBindKeyring kd => let! b := BDM.bind_keyring kd in iret (Some b)
  | MUnbindKeyring => let! b := BDM.unbind_keyring in iret (Some b)
  | MRebindKeyring kd => BDM.rebind_keyring kd
  end.

(** The info after a change. *)
Definition mgr_op_target (op : MgrOp) (e : EncryptionInfo) : EncryptionInfo :=
  match op with
  | MBindClevis pin config =>
      match interpret_clevis_config pin config with
      | Ok (_, v) => mkEnc (key_description e) (Some (pin, v))
      | _ => e
      end
  | MUnbindClevis => mkEnc (key_description e) None
  | MBindKeyring kd | MRebindKeyring kd => mkEnc (Some kd) (clevis_info e)
  | MUnbindKeyring => mkEnc None (clevis_info e)
  end.

(** The info all devices share; stored configurations are free of keys for Stratis itself. *)
Definition clean_info (e : EncryptionInfo) : Prop :=
  match clevis_info e with Some (pin, v) => clean_config pin v | None => True end.

Definition uniform (e : EncryptionInfo) (self : BlockDevMgr) : Prop :=
  block_devs self ≠ [] ∧ Forall (λ d, SBD.encryption_info d = e) (block_devs self) ∧ clean_info e.

Definition mgr_op_post (op : MgrOp) (e : EncryptionInfo) (self : BlockDevMgr)
    (r : res (option bool)) (self' : BlockDevMgr) : Prop :=
  match r with
  | Ok (Some true) => self' = with_devs self (set_enc (mgr_op_target op e) <$> block_devs self) ∧
      EncryptionInfo_is_encrypted e = true ∧ EncryptionInfo_is_encrypted (mgr_op_target op e) = true
  | Ok _ => self' = self
  | Err err => self' = self ∨
      ((∃ c x, err = RollbackError c x) ∧
       ∃ devs', self' = with_devs self devs' ∧ mixture (mgr_op_target op e) (block_devs self) devs')
  | Panic _ => False
  end.

Lemma uniform_info e self : uniform e self → BDM.encryption_info self = Ok e.
Proof.
  intros (Hne & Hall & _). unfold BDM.encryption_info. destruct (block_devs self); [done|].
  inversion Hall. by subst.
Qed.

Lemma uniform_devs_with e self : uniform e self → EncryptionInfo_is_encrypted e = true →
  devs_with e (block_devs self).
Proof.
  intros (_ & Hall & _) Henc. eapply Forall_impl; [exact Hall|]. intros d <-.
  split; [by apply encrypted_has_handle|done].
Qed.

(** an operation on all devices, then [Ok(a)] *)
Lemma loop_then {A} op hop hrb e self (a : A) (f : A → option bool) :
  f a = Some true → uniform e self → EncryptionInfo_is_encrypted e = true →
  turns hop e (mgr_op_target op e) → turns hrb (mgr_op_target op e) e →
  spec self (BDM.operation_loop (SBD.with_handle (run_handle_op hop))
      (λ _, SBD.with_handle (run_handle_op hrb)) ;;! iret a)
    (λ r, mgr_op_post op e self (rmap f r)).
Proof.
  intros Hf Hu Henc Ht1 Ht2. eapply spec_bind; [eapply operation_loop_ok; [done..|by apply uniform_devs_with]|..].
  - intros u h' [-> Heff] s. simpl. rewrite Hf. split; [done|]. split; [done|].
    destruct Hu as [Hne _]. by eapply effect_encrypted, Henc; apply Heff.
  - intros err h' Hp. exact Hp.
  - intros w h' Hp. exact Hp.
Qed.

Lemma unchanged_err {A} op e self err (f : A → option bool) :
  mgr_op_post op e self (rmap f (Err err)) self.
Proof. by left. Qed.

(** The common start: the info of the first device, refused when it is not encrypted. *)
Ltac enc_start Hu :=
  apply spec_self; eapply spec_ok; [by apply (uniform_info _ _ Hu)|];
  match goal with |- spec _ (if negb ?b then _ else _) _ => destruct b eqn:Henc; simpl negb; cbn match end;
  [|by apply spec_err, unchanged_err].

Lemma mgr_bind_clevis_ok pin config e self : uniform e self →
  spec self (BDM.bind_clevis pin config) (λ r, mgr_op_post (MBindClevis pin config) e self (rmap Some r)).
Proof.
  intros Hu. unfold BDM.bind_clevis. enc_start Hu.
  apply spec_lift; [|intros; apply unchanged_err|intros w; apply interpret_safe].
  intros [yes parsed] Hi. destruct (clevis_info e) as [[pin0 info0]|] eqn:Hc.
  - destruct Hu as (Hne & _). case_bool_decide.
    + apply spec_sys; [by apply safe_mgr_can_unlock| |intros; apply unchanged_err].
      intros []; [by apply spec_ret|by apply spec_err, unchanged_err].
    + apply spec_err, unchanged_err.
  - apply (loop_then (MBindClevis pin config) (HClevisBind pin config) HClevisUnbind); try done.
    + intros e' (_ & y & v & Hi' & ->). simpl. by rewrite Hi'.
    + intros e' (_ & ->). simpl. rewrite Hi. simpl. destruct e; simpl in *; by subst.
Qed.

Lemma mgr_unbind_clevis_ok e self : uniform e self →
  spec self BDM.unbind_clevis (λ r, mgr_op_post MUnbindClevis e self (rmap Some r)).
Proof.
  intros Hu. unfold BDM.unbind_clevis. enc_start Hu.
  destruct (clevis_info e) as [[pin info]|] eqn:Hc; [|by apply spec_ret].
  apply (loop_then MUnbindClevis HClevisUnbind (HClevisBind pin info)); try done.
  - by intros e' (_ & ->).
  - intros e' (_ & y & v & Hi & ->). destruct Hu as (_ & _ & Hcl). unfold clean_info in Hcl.
    rewrite Hc in Hcl. unfold clean_config in Hcl. rewrite Hcl in Hi. injection Hi as <- <-.
    destruct e; simpl in *; by subst.
Qed.

Lemma mgr_bind_keyring_ok kd e self : uniform e self →
  spec self (BDM.bind_keyring kd) (λ r, mgr_op_post (MBindKeyring kd) e self (rmap Some r)).
Proof.
  intros Hu. unfold BDM.bind_keyring. enc_start Hu.
  destruct (key_description e) as [kd0|] eqn:Hk.
  - destruct Hu as (Hne & _). case_bool_decide; [|apply spec_err, unchanged_err].
    apply spec_sys; [by apply safe_mgr_can_unlock| |intros; apply unchanged_err].
    intros []; [by apply spec_ret|by apply spec_err, unchanged_err].
  - apply (loop_then (MBindKeyring kd) (HBindKeyring kd) HUnbindKeyring); try done.
    + by intros e' ->.
    + intros e' (_ & ->). destruct e; simpl in *; by subst.
Qed.

Lemma mgr_unbind_keyring_ok e self : uniform e self →
  spec self BDM.unbind_keyring (λ r, mgr_op_post MUnbindKeyring e self (rmap Some r)).
Proof.
  intros Hu. unfold BDM.unbind_keyring. enc_start Hu.
  destruct (key_description e) as [kd|] eqn:Hk; [|by apply spec_ret].
  apply (loop_then MUnbindKeyring HUnbindKeyring (HBindKeyring kd)); try done.
  - by intros e' (_ & ->).
  - intros e' ->. destruct e; simpl in *; by subst.
Qed.

Lemma mgr_rebind_keyring_ok kd e self : uniform e self →
  spec self (BDM.rebind_keyring kd) (λ r, mgr_op_post (MRebindKeyring kd) e self (rmap id r)).
Proof.
  intros Hu. unfold BDM.rebind_keyring. enc_start Hu.
  case_bool_decide; [by apply spec_ret|].
  destruct (key_description e) as [kd0|] eqn:Hk; [|by apply spec_ret].
  apply (loop_then (MRebindKeyring kd) (HRebindKeyring kd) (HRebindKeyring kd0)); try done.
  - by intros e' (_ & ->).
  - intros e' (_ & ->). destruct e; simpl in *; by subst.
Qed.

Lemma mgr_op_ok op e self : uniform e self → spec self (run_mgr_op op) (mgr_op_post op e self).
Proof.
  intros Hu. destruct op; simpl run_mgr_op.
  - by apply spec_map, mgr_bind_clevis_ok.
  - by apply spec_map, mgr_unbind_clevis_ok.
  - by apply spec_map, mgr_bind_keyring_ok.
  - by apply spec_map, mgr_unbind_keyring_ok.
  - intros s. pose proof (mgr_rebind_keyring_ok kd e self Hu s) as Hp.
    destruct (BDM.rebind_keyring kd (self, s)) as [[[b|]|err|w] [h' s']]; exact Hp.
Qed.
Lemma target_clean op e : clean_info e → EncryptionInfo_is_encrypted e = true →
  clean_info (mgr_op_target op e).
Proof.
  intros Hc _. destruct op as [pin config| |kd| |kd]; simpl; try done.
  destruct (interpret_clevis_config pin config) as [[y v]|?|?] eqn:Hi; [|done..].
  by eapply interpret_clean.
Qed.

(** C10: Changing the bindings of a pool (binding and unbinding Clevis, binding, unbinding and rebinding a key description; not renewing the
    Clevis bindings, [rebind_clevis]) is all or nothing.  Start with devices that share one
    encryption info.  Whatever libcryptsetup, Clevis and the keyring answer: the operation
    does not panic; [Ok(false)] (and [Ok(None)]) leave the manager as it was; [Ok(true)]
    means that every device has the new info, that they still agree, and that an unlocking
    method is left; and after an error all devices are as they were, unless the error
    is a [RollbackError], and then each device has the old or the new info. *)
Theorem mgr_bindings_atomic op e self s : uniform e self →
  match run_mgr_op op (self, s) with
  | (Ok (Some true), (self', _)) =>
      self' = with_devs self (set_enc (mgr_op_target op e) <$> block_devs self) ∧
      uniform (mgr_op_target op e) self' ∧ EncryptionInfo_is_encrypted (mgr_op_target op e) = true
  | (Ok _, (self', _)) => self' = self
  | (Err err, (self', _)) =>
      self' = self ∨
      (∃ c x, err = RollbackError c x) ∧
      ∃ devs', self' = with_devs self devs' ∧ mixture (mgr_op_target op e) (block_devs self) devs'
  | (Panic _, _) => False
  end.
Proof.
  intros Hu. pose proof (mgr_op_ok op e self Hu s) as Hp.
  destruct (run_mgr_op op (self, s)) as [[[[]|]|err|w] [self' s']]; simpl in Hp; try done.
  destruct Hp as (-> & Henc & Henc'). split; [done|]. split; [|done].
  pose proof (uniform_devs_with _ _ Hu Henc) as Hd. destruct Hu as (Hne & _ & Hcl). simpl. split_and!.
  - by intros ?%fmap_nil_inv.
  - apply Forall_fmap. eapply Forall_impl; [exact Hd|]. intros d [Hh _]. by apply set_enc_info.
  - by apply target_clean.
Qed.
End bindings.

(** ** Examples *)

Section examples.
#[local] Existing Instance crc32c_instance.
#[local] Existing Instance any_time.
#[local] Existing Instance hex_instance.
#[local] Existing Instance simple_display.
#[local] Existing Instance script_crypt.
#[local] Existing Instance example_codec.

Definition ex_enc : EncryptionInfo := mkEnc (Some (str "k")) None.
Definition ex_enc_dev (e : EncryptionInfo) (u : Z) : StratBlockDev :=
  mkSBD u (Bda.new (mkIds 1 u) mda_size.MDADataSize_default 2097152 0) (mkRA (mkPDS 2097152 [(0, 8192)]))
    None None (Encrypted (mkCH (str "/dev/mapper/x") (str "x") (mkCMH (str "/dev/sda") (mkIds 1 u) e))).
Definition ex_enc_mgr (e : EncryptionInfo) : BlockDevMgr := mkMgr [ex_enc_dev e 10; ex_enc_dev e 11] None.
Definition ex_sys (script : list bool) : Sys := mkSys ∅ ∅ script (λ n, Z.of_nat n) (λ n, mkTime (Z.of_nat n) 0) 0.

(** The binding of the second device fails; the first is rolled back. *)
Lemma mgr_bindings_atomic_witness :
  let s := ex_sys (replicate 3 false ++ replicate 3 false ++ [true]) in
  let config := Object [(str "url", VString (str "http://tang"))] in
  uniform ex_enc (ex_enc_mgr ex_enc) ∧
  fst (run_mgr_op (MBindClevis (str "tang") config) (ex_enc_mgr ex_enc, s)) = Err (Crypt "failed") ∧
  match run_mgr_op (MBindClevis (str "tang") config) (ex_enc_mgr ex_enc, s) with
  | (Err err, (self', _)) => self' = ex_enc_mgr ex_enc ∨ ∃ c x, err = RollbackError c x
  | _ => True
  end.
Proof.
  intros s config.
  assert (uniform ex_enc (ex_enc_mgr ex_enc)) as Hu by (split_and!; [done|by repeat constructor|done]).
  split; [exact Hu|]. split; [vm_compute; reflexivity|].
  pose proof (mgr_bindings_atomic (MBindClevis (str "tang") config) ex_enc (ex_enc_mgr ex_enc) s Hu) as Hp.
  destruct (run_mgr_op _ (ex_enc_mgr ex_enc, s)) as [[[[]|]|err|w] [self' s']]; try exact I.
  destruct Hp as [Hp|[Hp _]]; [by left|by right].
Defined.

(** [rebind_clevis] is different: its rollback restores the LUKS2 headers but not the cached
    encryption info.  Here the regeneration fails on the second device, the rollback succeeds,
    and the devices no longer agree on the Clevis configuration. *)
Lemma rebind_clevis_stale_cache :
  let e := mkEnc (Some (str "k")) (Some (str "tang", Object [(str "thp", VString (str "old"));
                                                            (str "url", VString (str "http://tang"))])) in
  let '(r, (self', _)) := BDM.rebind_clevis (ex_enc_mgr e, ex_sys (replicate 17 false ++ [true])) in
  r = Err (Crypt "failed") ∧
  SBD.encryption_info <$> block_devs self' =
    [mkEnc (Some (str "k")) (Some (str "tang", Object [(str "url", VString (str "http://tang"))])); e].
Proof. vm_compute. split; reflexivity. Qed.
End examples.
