(* ===== verification/Setup.v ===== *)
(** * Reading a pool back from its devices

    Models [src/engine/strat_engine/liminal/setup.rs]: finding the BDAs, the most
    recent pool metadata and the block devices of a pool, and the rest of
    [serde_structs.rs].  Hash maps are association lists: the order of iteration is any
    order.  [serde_json::from_slice] into a [PoolSave] is the argument [from_slice]. *)
From stdpp Require Import base list gmap strings.
From Stdlib Require Import ZArith Lia.
From S2P Require Import Prelude RangeAlloc Disk Sizes External Json StaticHeader MDA BDA Shared System Names Crypt BlockDev Devices.

(** ** [serde_structs.rs] *)
Record CapSave : Type := mkCapSave { cap_allocs : list (Z * Z) }.
Record BackstoreSave : Type := mkBackstoreSave {
  data_tier : DataTierSave; cap : CapSave; cache_tier : option CacheTierSave }.
Record FlexDevsSave : Type := mkFlexDevsSave {
  meta_dev : list (Z * Z); thin_meta_dev : list (Z * Z); thin_data_dev : list (Z * Z);
  thin_meta_dev_spare : list (Z * Z) }.
Record ThinPoolDevSave : Type := mkThinPoolDevSave { data_block_size : Z }.
Record PoolSave : Type := mkPoolSave {
  ps_name : Str; ps_backstore : BackstoreSave; flex_devs : FlexDevsSave; thinpool_dev : ThinPoolDevSave }.

(** ** [StratisInfo], [LLuksInfo], [LStratisInfo] *)
Record StratisInfo : Type := mkStratisInfo {
  si_identifiers : StratisIdentifiers; device_number : Z; devnode : Str }.
Record LLuksInfo : Type := mkLLuksInfo { luks_ids : StratisInfo; luks_encryption_info : EncryptionInfo }.
Record LStratisInfo : Type := mkLStratisInfo { ids : StratisInfo; luks : option LLuksInfo }.

Section setup.
Context `{Crc32c} `{Chrono} `{Cryptsetup} `{UuidDisplay} `{ClevisCodec}.

Definition read_bda_from : io BDA := λ f,
  let '(read_results, f) := SH.read_sigblocks f in
  (let! header := SH.repair_sigblocks SH.write_header read_results in
   match header with
   | None => ierr (Msg "Failed to find valid Stratis signature in header from device")
   | Some header =>
       let! o := Bda.load header in
       match o with Some bda => iret bda | None => ierr (Msg "No BDA found") end
   end) f.

Definition read_bda (info : LStratisInfo) : sys BDA :=
  let! r := itry (with_file_ro (devnode (ids info)) read_bda_from) in
  match r with
  | inr bda => iret bda
  | inl _ => ierr (Msg "Failed to read BDA from device")
  end.

Fixpoint get_bdas (infos : list (Z * LStratisInfo)) : sys (list (Z * BDA)) :=
  match infos with
  | [] => iret []
  | (dev_uuid, info) :: rest =>
      let! bda := read_bda info in
      let! bdas := get_bdas rest in
      iret ((dev_uuid, bda) :: bdas)
  end.

(** the maximum of two times *)
Definition dt_max (a b : DateTime) : DateTime := match dt_cmp a b with Gt => a | _ => b end.

(** [.filter_map(|(_, bda)| bda.last_update_time()).max()] *)
Fixpoint max_update_time (bdas : list (Z * BDA)) : res (option DateTime) :=
  match bdas with
  | [] => Ok None
  | (_, bda) :: rest =>
      let? t := Bda.last_update_time bda in
      let? m := max_update_time rest in
      Ok (match t, m with
          | None, _ => m
          | Some t, None => Some t
          | Some t, Some m => Some (dt_max t m)
          end)
  end.

Definition lookup_info (uuid : Z) (infos : list (Z * LStratisInfo)) : option LStratisInfo :=
  (list_to_map infos : gmap Z LStratisInfo) !! uuid.

(** [open(..).ok().and_then(|mut f| bda.load_state(&mut f).unwrap_or(None))] *)
Definition read_state (bda : BDA) (path : Str) : sys (option (list Z)) :=
  let! r := itry (with_file_ro path (Bda.load_state bda)) in
  iret (match r with inr o => o | inl _ => None end).

(** the first device in the order of iteration with the most recent time and readable metadata *)
Fixpoint find_metadata (from_slice : list Z → option PoolSave) (infos : list (Z * LStratisInfo))
    (most_recent_time : DateTime) (bdas : list (Z * BDA)) : sys (option PoolSave) :=
  match bdas with
  | [] => iret None
  | (uuid, bda) :: rest =>
      let! t := ilift (Bda.last_update_time bda) in
      if bool_decide (t = Some most_recent_time) then
        let! info := ilift (expect (lookup_info uuid infos) "equal sets of UUID keys") in
        let! data := read_state bda (devnode (ids info)) in
        match data ≫= from_slice with
        | Some psave => iret (Some psave)
        | None => find_metadata from_slice infos most_recent_time rest
        end
      else find_metadata from_slice infos most_recent_time rest
  end.

Definition get_metadata (from_slice : list Z → option PoolSave) (infos : list (Z * LStratisInfo))
    (bdas : list (Z * BDA)) : sys (option (DateTime * PoolSave)) :=
  let! most_recent := ilift (max_update_time bdas) in
  match most_recent with
  | None => iret None
  | Some most_recent_time =>
      let! o := find_metadata from_slice infos most_recent_time bdas in
      match o with
      | None => ierr (Msg "timestamp indicates data was written, but no data successfully read")
      | Some psave => iret (Some (most_recent_time, psave))
      end
  end.

(** ** [get_blockdevs] *)

(** [HashMap<DevUuid, (usize, &BaseBlockDevSave)>] *)
Definition recorded_map (l : list BaseBlockDevSave) : gmap Z (nat * BaseBlockDevSave) :=
  foldl (λ m p, <[bbs_uuid p.2 := p]> m) ∅ (zip (seq 0 (length l)) l).

(** [segment_table] restricted to one device: the recorded ranges, in order *)
Definition segments_of (l : list BaseDevSave) (uuid : Z) : list (Z * Z) :=
  (λ seg, (bds_start seg, bds_length seg)) <$> filter (λ seg, parent seg = uuid) l.

(** the entries of [segment_table]: the data tier's first list, then all lists of the cache tier *)
Definition table_entries (save : BackstoreSave) : res (list BaseDevSave) :=
  match allocs (dts_blockdev (data_tier save)) with
  | [] => Panic "index out of bounds"
  | l0 :: _ =>
      Ok (l0 ++ match cache_tier save with
                | Some c => concat (allocs (cts_blockdev c))
                | None => []
                end)
  end.

Definition get_blockdev (info : LStratisInfo) (bda : BDA)
    (data_map cache_map : gmap Z (nat * BaseBlockDevSave)) (entries : list BaseDevSave)
    : sys (BlockDevTier * StratBlockDev) :=
  let! actual_size := with_file_ro (devnode (ids info)) blkdev_size in
  if bytes_sectors actual_size <? Bda.dev_size bda then
    ierr (Msg "Stratis device had recorded size, but actual size is less")
  else
    let dev_uuid := Bda.dev_uuid bda in
    match (match data_map !! dev_uuid with
           | Some p => Some (Data, p.2)
           | None => (λ p, (Cache, p.2)) <$> cache_map !! dev_uuid
           end) with
    | None => ierr (Msg "Stratis device had no record in pool metadata")
    | Some (tier, bd_save) =>
        let physical_path := match luks info with
                             | Some luks => devnode (luks_ids luks)
                             | None => devnode (ids info)
                             end in
        let! handle := CryptHandle_setup physical_path in
        let! underlying :=
          match handle with
          | Some handle => iret (Encrypted handle)
          | None => let! p := DevicePath_new physical_path in iret (Unencrypted p)
          end in
        let! bd := ilift (SBD.new (device_number (ids info)) bda (segments_of entries dev_uuid)
                            (bbs_user_info bd_save) (bbs_hardware_info bd_save) underlying) in
        iret (tier, bd)
    end.

(** the loop over [infos], taking each BDA out of [bdas] *)
Fixpoint get_all (infos : list (Z * LStratisInfo)) (bdas : gmap Z BDA)
    (data_map cache_map : gmap Z (nat * BaseBlockDevSave)) (entries : list BaseDevSave)
    : sys (list StratBlockDev * list StratBlockDev) :=
  match infos with
  | [] => iret ([], [])
  | (dev_uuid, info) :: rest =>
      let! bda := ilift (expect (bdas !! dev_uuid) "sets of keys in bdas and infos are identical") in
      let! '(tier, bd) := get_blockdev info bda data_map cache_map entries in
      let! '(datadevs, cachedevs) := get_all rest (delete dev_uuid bdas) data_map cache_map entries in
      iret (match tier with
            | Data => (bd :: datadevs, cachedevs)
            | Cache => (datadevs, bd :: cachedevs)
            end)
  end.

(** insertion into a list sorted by key *)
Fixpoint insert_by (key : StratBlockDev → nat) (d : StratBlockDev) (l : list StratBlockDev) : list StratBlockDev :=
  match l with
  | [] => [d]
  | x :: r => if (key d <=? key x)%nat then d :: l else x :: insert_by key d r
  end.

(** [dev_map[&dev.uuid()].0] *)
Definition position (dev_map : gmap Z (nat * BaseBlockDevSave)) (d : StratBlockDev) : nat :=
  match dev_map !! SBD.uuid d with Some p => p.1 | None => 0 end.

Definition check_and_sort_devs (devs : list StratBlockDev) (dev_map : gmap Z (nat * BaseBlockDevSave))
    : res (list StratBlockDev) :=
  let uuids := SBD.uuid <$> devs in
  if negb (bool_decide (NoDup uuids)) then
    Err (Msg "Stratis UUIDs were each claimed by more than one Stratis device")
  else if negb (bool_decide (list_to_set (C:=gset Z) uuids = dom dev_map)) then
    Err (Msg "UUIDs of devices found did not correspond with UUIDs specified in the metadata for this group of devices")
  else Ok (foldr (insert_by (position dev_map)) [] devs).

Definition get_blockdevs (save : BackstoreSave) (infos : list (Z * LStratisInfo)) (bdas : gmap Z BDA)
    : sys (list StratBlockDev * list StratBlockDev) :=
  let recorded_data_map := recorded_map (devs (dts_blockdev (data_tier save))) in
  let recorded_cache_map := match cache_tier save with
                            | Some c => recorded_map (devs (cts_blockdev c))
                            | None => ∅
                            end in
  let! entries := ilift (table_entries save) in
  let! '(datadevs, cachedevs) := get_all infos bdas recorded_data_map recorded_cache_map entries in
  let! datadevs := match check_and_sort_devs datadevs recorded_data_map with
                   | Err _ => ierr (Msg "Data devices did not appear consistent with metadata")
                   | r => ilift r
                   end in
  let! cachedevs := match check_and_sort_devs cachedevs recorded_cache_map with
                    | Err _ => ierr (Msg "Cache devices did not appear consistent with metadata")
                    | r => ilift r
                    end in
  iret (datadevs, cachedevs).
End setup.
