(* ===== verification/PoolMetadata.v ===== *)
(** * Durability of pool metadata

    [BlockDevMgr::save_state] writes the pool metadata to a random choice of the devices
    that have room for it; on a restart [get_bdas] and [get_metadata] look for the most recent
    copy.  Together they implement a register, whatever devices are chosen and even if
    the clock is set back. *)
From stdpp Require Import base list gmap strings.
From Stdlib Require Import ZArith Lia.
From S2P Require Import Prelude RangeAlloc Disk Sizes External Json StaticHeader MDA BDA Shared System Names Crypt BlockDev Devices BlockDevMgr Setup.
Import static_header_size mda_size.

(** ** Times *)

Lemma dt_cmp_eq a b : dt_cmp a b = Eq ↔ a = b.
Proof.
  destruct a as [s n], b as [s' n']. unfold dt_cmp. simpl.
  destruct (Z.compare_spec s s'); [|split; [done|intros [= ]; lia]..]. subst.
  rewrite Z.compare_eq_iff. split; [by intros ->|by intros [= ->]].
Qed.

Lemma dt_cmp_gt a b : dt_cmp a b = Gt ↔ dt_lt b a.
Proof.
  unfold dt_cmp, dt_lt.
  destruct (Z.compare_spec (dt_secs a) (dt_secs b)); [|split; done || lia|split; [lia|done]].
  rewrite Z.compare_gt_iff. lia.
Qed.

Lemma dt_lt_trans a b c : dt_lt a b → dt_lt b c → dt_lt a c.
Proof. unfold dt_lt. lia. Qed.

Lemma dt_total a b : dt_lt a b ∨ a = b ∨ dt_lt b a.
Proof.
  destruct (dt_cmp a b) eqn:E; [right; left; by apply dt_cmp_eq|left; by apply dt_cmp_lt|].
  right; right. by apply dt_cmp_gt.
Qed.

Section durability.
Context `{Crc32c} `{Chrono} `{Cryptsetup} `{UuidDisplay} `{ClevisCodec}.

(** ** One device *)

(** The BDA [b] is on the device [f], with the latest metadata [g]. *)
Record bda_on (b : BDA) (f : File) (g : gen) : Prop := {
  on_faults : no_faults f;
  on_size : 8192 ≤ f_size f;
  on_b1 : block1 f = SH.sigblock_to_buf (header b);
  on_b2 : block2 f = SH.sigblock_to_buf (header b);
  on_sh : sh_ok (header b);
  on_mda : MDASize_region_size (mda_size (header b)) = region_size (regions b);
  on_holds : ∃ g0 g1, holds (regions b) static_header_bytes f g0 g1 ∧ latest g0 g1 = g }.

Lemma bda_on_wrote0 p b f f' g : wrote p p f f' → bda_on b f g → bda_on b f' g.
Proof.
  intros W [Hf Hs B1 B2 Hsh Hm (g0 & g1 & Hh & Hg)].
  assert (wrote 0 0 f f') as W0 by by eapply wrote_weaken0.
  split; [by eapply wrote_no_faults|by destruct W as [-> _]| | |done|done|].
  - rewrite <- B1. unfold block1. by rewrite (wrote_slice _ _ _ _ _ _ W0) by lia.
  - rewrite <- B2. unfold block2. by rewrite (wrote_slice _ _ _ _ _ _ W0) by lia.
  - exists g0, g1. split; [|done]. by eapply holds_wrote0.
Qed.

(** Opening the device changes nothing on it. *)
Lemma bda_on_open w b f g : bda_on b f g → bda_on b (set_mode w (set_pos 0 f)) g.
Proof.
  intros [Hf Hs B1 B2 Hsh Hm (g0 & g1 & [] & Hg)]. split; try done.
  exists g0, g1. split; [|done]. by split.
Qed.

Lemma bda_on_max b f g : bda_on b f g → Bda.max_data_size b = region_bytes (regions b) - 32.
Proof. intros [_ _ _ _ _ _ (g0 & g1 & Hh & _)]. eapply max_data_ok. apply Hh. Qed.

Lemma bda_on_time b f g : bda_on b f g → Bda.last_update_time b = Ok (fst <$> g).
Proof.
  intros [_ _ _ _ _ _ (g0 & g1 & Hh & <-)]. unfold Bda.last_update_time.
  by rewrite (last_update_time_ok _ _ _ (h_mem _ _ _ _ _ Hh)).
Qed.

Lemma bda_save b f g t d : bda_on b f g → f_write f = true → time_ok t → d ≠ [] →
  Z.of_nat (length d) ≤ Bda.max_data_size b → (∀ t' d', g = Some (t', d') → dt_lt t' t) →
  ∃ b' f', Bda.save_state b t d f = (Ok tt, b', f') ∧ bda_on b' f' (Some (t, d)) ∧
    header b' = header b ∧ region_size (regions b') = region_size (regions b).
Proof.
  intros Hon Hw Ht Hd Hlen Hlt. rewrite (bda_on_max _ _ _ Hon) in Hlen.
  destruct Hon as [Hf Hs B1 B2 Hsh Hm (g0 & g1 & Hh & Hg)].
  destruct (save_ok (regions b) static_header_bytes f g0 g1 t d) as (r' & f' & E & Hr & Hh' & Hf' & W);
    [done|by split|by split_and!| |].
  { rewrite Hg. intros t' Ht'. destruct g as [[t0 d0]|]; [|done]. injection Ht' as <-. by eapply Hlt. }
  exists (mkBDA (header b) r'), f'. unfold Bda.save_state. rewrite E. split; [done|].
  split; [|done]. change static_header_bytes with 8192 in *. pose proof W as (W1 & _).
  split; simpl; [done|by rewrite W1| | |done|by rewrite Hm|].
  - rewrite <- B1. unfold block1. by rewrite (wrote_slice _ _ _ _ _ _ W) by lia.
  - rewrite <- B2. unfold block2. by rewrite (wrote_slice _ _ _ _ _ _ W) by lia.
  - eexists _, _. split; [exact Hh'|].
    apply latest_saved; [apply Hh|]. rewrite Hg. intros t' Ht'. destruct g as [[t0 d0]|]; [|done].
    injection Ht' as <-. by eapply Hlt.
Qed.

Lemma bda_read b f g : bda_on b f g → ∃ f', read_bda_from f = (Ok b, f') ∧ wrote 0 0 f f'.
Proof.
  intros [Hf Hs B1 B2 Hsh Hm (g0 & g1 & Hh & Hg)].
  destruct (read_sigblocks_ok f Hf Hs) as (f1 & E1 & W1).
  destruct (reload_ok (regions b) static_header_bytes f1 g0 g1 (mda_size (header b)))
    as (f2 & f3 & E2 & E3 & W3); [by eapply holds_wrote0|by eapply wrote_no_faults|done|].
  exists f2. unfold read_bda_from. rewrite E1, B1, B2, sigblock_roundtrip by done. simpl.
  unfold SH.compare_headers. rewrite bool_decide_true by done. erewrite ibind_ok by reflexivity.
  unfold Bda.load. erewrite ibind_ok by (erewrite ibind_ok by exact E2; reflexivity).
  split; [by destruct b|].
  destruct (load_ok (regions b) static_header_bytes f1 g0 g1 (mda_size (header b))) as (f2' & E2' & W2);
    [by eapply holds_wrote0|by eapply wrote_no_faults|done|].
  rewrite E2 in E2'. injection E2' as <-. by eapply wrote_trans.
Qed.

Lemma bda_load b f g : bda_on b f g →
  ∃ f', Bda.load_state b f = (Ok (snd <$> g), f') ∧ wrote 0 0 f f'.
Proof.
  intros [Hf Hs B1 B2 Hsh Hm (g0 & g1 & Hh & <-)].
  destruct (holds_newer _ _ _ _ _ Hh) as [Hok Hnew].
  destruct (load_state_ok (regions b) static_header_bytes f g0 g1) as (f3 & E3 & W3); [apply Hh|done|done|apply Hh|done|].
  by exists f3.
Qed.
(** ** All devices of a manager *)

(** Device [i] carries the metadata [G i]. *)
Definition stored_at (devs : list StratBlockDev) (fs : gmap Str File) (G : nat → gen) : Prop :=
  NoDup (SBD.metadata_path <$> devs) ∧
  ∀ i bd, devs !! i = Some bd → ∃ f, fs !! SBD.metadata_path bd = Some f ∧ bda_on (bda bd) f (G i).

(** the same device, with other metadata *)
Definition same_md (a b : StratBlockDev) : Prop :=
  b = SBD.set_bda a (bda b) ∧ header (bda b) = header (bda a) ∧
  region_size (regions (bda b)) = region_size (regions (bda a)).

Lemma same_md_refl a : same_md a a.
Proof. by destruct a. Qed.
Lemma same_md_trans a b c : same_md a b → same_md b c → same_md a c.
Proof. intros (Eb & ? & ?) (Ec & ? & ?). split_and!; [rewrite Ec, Eb; by destruct a|congruence..]. Qed.
Lemma same_md_path a b : same_md a b → SBD.metadata_path b = SBD.metadata_path a ∧
  SBD.max_metadata_size b = SBD.max_metadata_size a ∧ SBD.uuid b = SBD.uuid a.
Proof.
  intros (E & E2 & E3). rewrite E. unfold SBD.max_metadata_size, Bda.max_data_size, MDA.max_data_size, SBD.uuid, Bda.dev_uuid.
  simpl. by rewrite E2, E3.
Qed.

Lemma Forall2_same_insert (l : list StratBlockDev) i a b : l !! i = Some a → same_md a b →
  Forall2 same_md l (<[i := b]> l).
Proof.
  intros Hi Hab. apply Forall2_same_length_lookup. split; [by rewrite length_insert|].
  intros j x y Hx Hy. destruct (decide (j = i)) as [->|Hne].
  - rewrite list_lookup_insert_eq in Hy by (by eapply lookup_lt_Some). by simplify_eq.
  - rewrite list_lookup_insert_ne in Hy by done. simplify_eq. apply same_md_refl.
Qed.

Lemma Forall2_same_trans l1 l2 l3 : Forall2 same_md l1 l2 → Forall2 same_md l2 l3 → Forall2 same_md l1 l3.
Proof.
  intros H12. revert l3. induction H12 as [|a b l1 l2 Hab _ IH]; intros l3 H23; inversion H23; subst;
    constructor; [by eapply same_md_trans|by apply IH].
Qed.

Definition set_gen (i : nat) (g : gen) (G : nat → gen) : nat → gen := λ j, if decide (j = i) then g else G j.

Lemma save_at devs s G i bd t d : stored_at devs (s_files s) G → devs !! i = Some bd →
  time_ok t → d ≠ [] → Z.of_nat (length d) ≤ SBD.max_metadata_size bd →
  (∀ t' d', G i = Some (t', d') → dt_lt t' t) →
  ∃ bd' fs', SBD.save_state t d (bd, s) = (Ok tt, (bd', set_files s fs')) ∧ same_md bd bd' ∧
    stored_at (<[i := bd']> devs) fs' (set_gen i (Some (t, d)) G).
Proof.
  intros [Hnd Hst] Hi Ht Hd Hlen Hlt. destruct (Hst i bd Hi) as (f & Ef & Hon).
  destruct (bda_save (bda bd) (set_mode true (set_pos 0 f)) (G i) t d) as (b' & f' & E & Hon' & Hh & Hr);
    [by apply bda_on_open|done..|].
  exists (SBD.set_bda bd b'), (<[SBD.metadata_path bd := f']> (s_files s)).
  split; [|split].
  - unfold SBD.save_state. unfold SBD.metadata_path in Ef. by rewrite Ef, E.
  - by split_and!.
  - split.
    + rewrite list_fmap_insert. rewrite list_insert_id; [done|]. by rewrite list_lookup_fmap, Hi.
    + intros j bdj Hj. unfold set_gen. simpl. destruct (decide (j = i)) as [->|Hne].
      * rewrite list_lookup_insert_eq in Hj by (by eapply lookup_lt_Some). injection Hj as <-.
        exists f'. split; [by rewrite lookup_insert_eq|done].
      * rewrite list_lookup_insert_ne in Hj by done. rewrite lookup_insert_ne; [by apply Hst|].
        intros Heq. apply Hne. eapply (NoDup_lookup _ _ _ (SBD.metadata_path bd) Hnd);
          rewrite list_lookup_fmap; [by rewrite Hj, Heq|by rewrite Hi].
Qed.

Lemma save_each_ok chosen t d : time_ok t → d ≠ [] → ∀ devs s G saved,
  stored_at devs (s_files s) G → NoDup chosen →
  (∀ i, i ∈ chosen → ∃ bd, devs !! i = Some bd ∧ Z.of_nat (length d) ≤ SBD.max_metadata_size bd) →
  (∀ i t' d', i ∈ chosen → G i = Some (t', d') → dt_lt t' t) →
  ∃ devs' fs', BDM.save_each chosen t d saved (devs, s) =
      (Ok (saved || negb (bool_decide (chosen = []))), (devs', set_files s fs')) ∧ Forall2 same_md devs devs' ∧
    stored_at devs' fs' (λ j, if decide (j ∈ chosen) then Some (t, d) else G j).
Proof.
  intros Ht Hd. induction chosen as [|i chosen IH]; intros devs s G saved Hst Hnd Hroom Hlt.
  { exists devs, (s_files s). split; [simpl; rewrite orb_false_r; by destruct s|]. split; [|done].
    apply Forall_Forall2_diag, Forall_true, same_md_refl. }
  apply NoDup_cons in Hnd as [Hni Hnd]. destruct (Hroom i) as (bd & Hi & Hlen); [by left|].
  destruct (save_at devs s G i bd t d) as (bd' & fs1 & E & Hsame & Hst1); [done..| |].
  { intros t' d'. apply Hlt. by left. }
  destruct (IH (<[i := bd']> devs) (set_files s fs1) (set_gen i (Some (t, d)) G) (saved || true))
    as (devs' & fs' & E' & Hsame' & Hst'); [done..| | |].
  - intros j Hj. destruct (Hroom j) as (bdj & Ej & Hl); [by right|]. exists bdj.
    rewrite list_lookup_insert_ne by (intros ->; done). done.
  - intros j t' d' Hj. unfold set_gen. rewrite decide_False by (intros ->; done). apply Hlt. by right.
  - exists devs', fs'. cbn [BDM.save_each]. rewrite Hi, E. cbn [is_ok]. rewrite E'.
    rewrite (bool_decide_false (i :: chosen = [])) by done. simpl. rewrite !orb_true_r. split; [done|]. split.
    + eapply Forall2_same_trans; [by eapply Forall2_same_insert|done].
    + destruct Hst' as [Hnd' Hst']. split; [done|]. intros j bdj Hj.
      destruct (Hst' j bdj Hj) as (f & Ef & Hon). exists f. split; [done|].
      unfold set_gen in Hon. destruct (decide (j = i)) as [->|Hne].
      * rewrite decide_True by by left. by destruct (decide (i ∈ chosen)).
      * destruct (decide (j ∈ chosen)).
        -- by rewrite decide_True by by right.
        -- rewrite decide_False by (intros [?|?]%elem_of_cons; done). done.
Qed.
(** ** The register *)

(** [g] is the current metadata, or older, or none. *)
Definition gen_le (g cur : gen) : Prop :=
  match g, cur with
  | None, _ => True
  | Some _, None => False
  | Some (t, d), Some (T, D) => dt_lt t T ∨ (t, d) = (T, D)
  end.

(** The manager's devices hold the pool metadata [cur]. *)
Definition stored (self : BlockDevMgr) (fs : gmap Str File) (cur : gen) : Prop :=
  last_update_time self = fst <$> cur ∧
  ∃ G, stored_at (block_devs self) fs G ∧
    (∀ i, is_Some (block_devs self !! i) → gen_le (G i) cur) ∧
    (is_Some cur → ∃ i, is_Some (block_devs self !! i) ∧ G i = cur).

(** one nanosecond later, leap seconds included *)
Definition dt_succ (t : DateTime) : DateTime :=
  let n := dt_nsecs t + 1 in
  if (n =? 10 ^ 9) || (n =? 2 * 10 ^ 9) then mkTime (dt_secs t + 1) 0 else mkTime (dt_secs t) n.

(** the time stamp of the next save *)
Definition next_stamp (now : DateTime) (last : option DateTime) : DateTime :=
  match last with
  | Some t => if opt_ge last now then dt_succ t else now
  | None => now
  end.

Lemma dt_succ_lt t : dt_lt t (dt_succ t).
Proof. unfold dt_succ, dt_lt. destruct (_ || _); simpl; lia. Qed.

Lemma next_stamp_lt now last t : last = Some t → dt_lt t (next_stamp now last).
Proof.
  intros ->. unfold next_stamp. destruct (opt_ge (Some t) now) eqn:E; [apply dt_succ_lt|].
  by apply (proj1 (opt_ge_false _ _) E).
Qed.

Lemma stamp_time_ok now last : time_ok (next_stamp now last) →
  BDM.stamp_time now last = Ok (next_stamp now last).
Proof.
  intros (_ & _ & Hok). unfold BDM.stamp_time, next_stamp in *. destruct last as [t|]; [|done].
  destruct (opt_ge (Some t) now) eqn:E; [|done]. simpl. unfold BDM.plus_1ns. fold (dt_succ t). by rewrite Hok.
Qed.

Definition some_room (d : list Z) (devs : list StratBlockDev) : bool :=
  existsb (λ bd, Z.of_nat (length d) <=? SBD.max_metadata_size bd) devs.

Lemma candidates_elem n devs i : i ∈ BDM.candidates n devs ↔
  ∃ bd, devs !! i = Some bd ∧ n ≤ SBD.max_metadata_size bd.
Proof.
  unfold BDM.candidates. rewrite list_elem_of_filter, elem_of_seq. unfold BDM.has_room. split.
  - intros [Hr _]. destruct (devs !! i) as [bd|]; [|done]. exists bd. split; [done|]. by apply Z.leb_le.
  - intros (bd & Hi & Hle). rewrite Hi. split; [by apply Z.leb_le|]. apply lookup_lt_Some in Hi. lia.
Qed.

Lemma candidates_none d devs : some_room d devs = false ↔ BDM.candidates (Z.of_nat (length d)) devs = [].
Proof.
  unfold some_room. rewrite <- not_true_iff_false, existsb_exists. split.
  - intros Hn. destruct (BDM.candidates _ devs) as [|i l] eqn:E; [done|]. exfalso. apply Hn.
    assert (i ∈ BDM.candidates (Z.of_nat (length d)) devs) as (bd & Hi & Hle)%candidates_elem
      by (rewrite E; by left).
    exists bd. split; [by eapply list_elem_of_In, list_elem_of_lookup_2|by apply Z.leb_le].
  - intros E (bd & Hin%list_elem_of_In & Hle). apply list_elem_of_lookup in Hin as [i Hi].
    assert (i ∈ BDM.candidates (Z.of_nat (length d)) devs) as Hc.
    { apply candidates_elem. exists bd. split; [done|]. by apply Z.leb_le. }
    rewrite E in Hc. by apply not_elem_of_nil in Hc.
Qed.

Lemma chosen_ok choose d devs : sampler choose →
  let cands := BDM.candidates (Z.of_nat (length d)) devs in
  let chosen := (λ k, cands !!! k) <$> choose (length cands) MAX_NUM_TO_WRITE in
  NoDup chosen ∧ (∀ i, i ∈ chosen → ∃ bd, devs !! i = Some bd ∧ Z.of_nat (length d) ≤ SBD.max_metadata_size bd) ∧
  (length chosen ≤ MAX_NUM_TO_WRITE)%nat ∧
  (chosen = [] ↔ some_room d devs = false).
Proof.
  intros Hs cands chosen. destruct (Hs (length cands) MAX_NUM_TO_WRITE) as (Hnd & Hlt & Hlen).
  rewrite Forall_forall in Hlt.
  assert (NoDup cands) as Hc by (apply NoDup_filter, NoDup_seq).
  assert (∀ i, i ∈ chosen → i ∈ cands) as Hin.
  { intros i (k & -> & Hk)%list_elem_of_fmap. apply Hlt in Hk. by apply list_elem_of_lookup_total_2. }
  split; [|split; [|split]].
  - apply NoDup_fmap_2_strong; [|done]. intros k1 k2 Hk1 Hk2 Heq. apply Hlt in Hk1, Hk2.
    eapply (NoDup_lookup cands); [done|by apply list_lookup_lookup_total_lt|].
    rewrite Heq. by apply list_lookup_lookup_total_lt.
  - intros i Hi%Hin. by apply candidates_elem in Hi.
  - unfold chosen. rewrite length_fmap, Hlen. unfold MAX_NUM_TO_WRITE. lia.
  - rewrite candidates_none. fold cands. split.
    + intros Hn. apply (f_equal length) in Hn. unfold chosen in Hn. rewrite length_fmap, Hlen in Hn.
      unfold MAX_NUM_TO_WRITE in Hn. apply nil_length_inv. simpl in Hn. lia.
    + intros Hn. apply nil_length_inv. unfold chosen. rewrite length_fmap, Hlen, Hn. done.
Qed.

(** One save: the new metadata is stored, or no device has room and nothing changes. *)
Lemma mgr_save_step choose self s cur d :
  sampler choose → stored self (s_files s) cur → d ≠ [] →
  let t := next_stamp (s_now s (s_next s)) (fst <$> cur) in
  time_ok t →
  ∃ r self' s', BDM.save_state choose d (self, s) = (r, (self', s')) ∧
    Forall2 same_md (block_devs self) (block_devs self') ∧
    s_now s' = s_now s ∧ s_next s' = S (s_next s) ∧
    if some_room d (block_devs self)
    then r = Ok tt ∧ stored self' (s_files s') (Some (t, d))
    else r = Err (Msg "Failed to save metadata to even one device in pool") ∧ stored self' (s_files s') cur.
Proof.
  intros Hs (Hlast & G & Hst & Hle & Hcur) Hd t Ht. unfold BDM.save_state.
  unfold ibind at 1, lift_sys, utc_now. cbn [fst snd].
  unfold ibind at 1, get_self. cbn [fst snd].
  unfold ibind at 1, ilift. rewrite Hlast, (stamp_time_ok _ _ Ht). fold t.
  destruct (chosen_ok choose d (block_devs self) Hs) as (Hnd & Hroom & _ & Hnil).
  set (chosen := (λ k, BDM.candidates (Z.of_nat (length d)) (block_devs self) !!! k) <$>
    choose (length (BDM.candidates (Z.of_nat (length d)) (block_devs self))) MAX_NUM_TO_WRITE) in *.
  clearbody chosen.
  destruct (save_each_ok chosen t d Ht Hd (block_devs self) (sys_tick s) G false)
    as (devs' & fs' & E & Hsame & Hst'); [done..| |].
  { intros i t' d' Hi HG. destruct (Hroom i Hi) as (bd & Hbd & _).
    specialize (Hle i ltac:(by eexists)). rewrite HG in Hle. destruct cur as [[T D]|]; [|done].
    assert (dt_lt T t) as HTt by by apply next_stamp_lt.
    destruct Hle as [Hlt|[= -> ->]]; [exact (dt_lt_trans _ _ _ Hlt HTt)|done]. }
  cbn [orb] in E. rewrite E. destruct (some_room d (block_devs self)) eqn:Hr.
  - rewrite bool_decide_false by (intros Hn; by apply Hnil in Hn). cbn [negb].
    exists (Ok tt), (mkMgr devs' (Some t)), (set_files (sys_tick s) fs'). do 4 (split; [done|]). split; [done|].
    split; [done|]. exists (λ j, if decide (j ∈ chosen) then Some (t, d) else G j). split; [done|]. split.
    + intros i [bd Hi]. simpl in Hi. destruct (decide (i ∈ chosen)); [by right|].
      assert (gen_le (G i) cur) as Hg.
      { apply Hle. apply lookup_lt_is_Some. rewrite (Forall2_length _ _ _ Hsame). by eapply lookup_lt_Some. }
      destruct (G i) as [[t' d']|]; [|done]. simpl in Hg |- *. left.
      destruct cur as [[T D]|]; [|done]. assert (dt_lt T t) as HTt by by apply next_stamp_lt.
      destruct Hg as [Hlt|[= -> ->]]; [exact (dt_lt_trans _ _ _ Hlt HTt)|done].
    + intros _. destruct chosen as [|i l] eqn:Ech; [pose proof (proj1 Hnil eq_refl); congruence|].
      exists i. rewrite decide_True by by left. split; [|done]. apply lookup_lt_is_Some.
      simpl. rewrite <- (Forall2_length _ _ _ Hsame). destruct (Hroom i) as (bd & Hi & _); [by left|].
      by eapply lookup_lt_Some.
  - rewrite bool_decide_true by (by apply Hnil). cbn [negb].
    exists (Err (Msg "Failed to save metadata to even one device in pool")), (with_devs self devs'),
      (set_files (sys_tick s) fs'). do 4 (split; [done|]). split; [done|].
    assert (chosen = []) as Hn by by apply Hnil. rewrite Hn in Hst'.
    split; [done|]. exists G. split; [|split].
    + destruct Hst' as [Hnd' Hst']. split; [done|]. intros i bd Hi.
      destruct (Hst' i bd Hi) as (f & Ef & Hon). exists f. split; [done|].
      by rewrite decide_False in Hon by apply not_elem_of_nil.
    + intros i [bd Hi]. apply Hle. apply lookup_lt_is_Some. rewrite (Forall2_length _ _ _ Hsame).
      by eapply lookup_lt_Some.
    + intros Hc. destruct (Hcur Hc) as (i & Hi & HG). exists i. split; [|done].
      apply lookup_lt_is_Some. simpl. rewrite <- (Forall2_length _ _ _ Hsame). by apply lookup_lt_is_Some.
Qed.
(** ** Restart *)

(** What udev discovery found: the devices of the manager, in any order. *)
Definition describes (devs : list StratBlockDev) (infos : list (Z * LStratisInfo)) : Prop :=
  ∃ idx, idx ≡ₚ seq 0 (length devs) ∧
    Forall2 (λ i ui, ∃ bd, devs !! i = Some bd ∧ ui.1 = SBD.uuid bd ∧
                           devnode (ids ui.2) = SBD.metadata_path bd) idx infos.

Lemma stored_at_read devs fs G i bd f f' : stored_at devs fs G → devs !! i = Some bd →
  fs !! SBD.metadata_path bd = Some f → bda_on (bda bd) f' (G i) →
  stored_at devs (<[SBD.metadata_path bd := f']> fs) G.
Proof.
  intros [Hnd Hst] Hi Hf W. split; [done|]. intros j bdj Hj. destruct (Hst j bdj Hj) as (fj & Ej & Hon).
  destruct (decide (SBD.metadata_path bdj = SBD.metadata_path bd)) as [Heq|Hne].
  - rewrite Heq, lookup_insert_eq. exists f'. split; [done|]. rewrite Heq, Hf in Ej. injection Ej as <-.
    assert (j = i) as ->; [|by simplify_eq].
    eapply (NoDup_lookup _ _ _ (SBD.metadata_path bd) Hnd); rewrite list_lookup_fmap; [by rewrite Hj, <- Heq|by rewrite Hi].
  - rewrite lookup_insert_ne by done. by exists fj.
Qed.

Lemma read_file {A} devs s G i bd (m : io A) r f1 : stored_at devs (s_files s) G → devs !! i = Some bd →
  (∀ f, bda_on (bda bd) f (G i) → ∃ f', m f = (r, f') ∧ wrote 0 0 f f') → f1 = SBD.metadata_path bd →
  ∃ fs', with_file_ro f1 m s = (r, set_files s fs') ∧ stored_at devs fs' G.
Proof.
  intros Hst Hi Hm ->. pose proof Hst as [_ Hst']. destruct (Hst' i bd Hi) as (f & Ef & Hon).
  assert (bda_on (bda bd) (set_mode false (set_pos 0 f)) (G i)) as Hon' by by apply bda_on_open.
  destruct (Hm _ Hon') as (f' & E & W). unfold with_file_ro, open_with. rewrite Ef, E. eexists. split; [done|].
  eapply stored_at_read; [done..|]. by eapply bda_on_wrote0.
Qed.

Lemma read_bda_ok devs s G i bd info : stored_at devs (s_files s) G → devs !! i = Some bd →
  devnode (ids info) = SBD.metadata_path bd →
  ∃ fs', read_bda info s = (Ok (bda bd), set_files s fs') ∧ stored_at devs fs' G.
Proof.
  intros Hst Hi Hn. destruct (read_file devs s G i bd read_bda_from (Ok (bda bd)) (devnode (ids info)) Hst Hi) as (fs' & E & Hst');
    [intros f Hon; by eapply bda_read|exact Hn|].
  exists fs'. unfold read_bda, ibind, itry. by rewrite E.
Qed.

Definition bda_of (devs : list StratBlockDev) (i : nat) (ub : Z * BDA) : Prop :=
  ∃ bd, devs !! i = Some bd ∧ ub = (SBD.uuid bd, bda bd).

Lemma get_bdas_ok devs G idx infos : 
  Forall2 (λ i ui, ∃ bd, devs !! i = Some bd ∧ ui.1 = SBD.uuid bd ∧
                         devnode (ids ui.2) = SBD.metadata_path bd) idx infos →
  ∀ s, stored_at devs (s_files s) G →
  ∃ bdas fs', get_bdas infos s = (Ok bdas, set_files s fs') ∧ Forall2 (bda_of devs) idx bdas ∧
    stored_at devs fs' G.
Proof.
  induction 1 as [|i [u info] idx infos (bd & Hi & Hu & Hn) _ IH]; intros s Hst.
  { exists [], (s_files s). split; [by destruct s|done]. }
  destruct (read_bda_ok devs s G i bd info Hst Hi Hn) as (fs1 & E1 & Hst1).
  destruct (IH (set_files s fs1) Hst1) as (bdas & fs2 & E2 & HF & Hst2).
  exists ((u, bda bd) :: bdas), fs2. cbn [get_bdas]. unfold ibind at 1. rewrite E1.
  unfold ibind. rewrite E2. split; [done|]. split; [|done]. constructor; [|done].
  exists bd. split; [done|]. by rewrite <- Hu.
Qed.

Lemma max_time_ok devs s G cur idx bdas : stored_at devs (s_files s) G → Forall2 (bda_of devs) idx bdas →
  (∀ i, is_Some (devs !! i) → gen_le (G i) cur) →
  ∃ m, max_update_time bdas = Ok m ∧
    match cur with
    | None => m = None
    | Some (T, _) => (∀ t, m = Some t → t = T ∨ dt_lt t T) ∧ ((∃ i, i ∈ idx ∧ G i = cur) → m = Some T)
    end.
Proof.
  intros Hst HF Hle. induction HF as [|i [u b] idx bdas (bd & Hi & [= -> ->]) _ IH].
  { exists None. split; [done|]. destruct cur as [[T D]|]; [|done]. split; [done|].
    intros (i & Hi & _). by apply not_elem_of_nil in Hi. }
  destruct IH as (m & Em & Hm). destruct Hst as [_ Hst]. destruct (Hst i bd Hi) as (f & _ & Hon).
  cbn [max_update_time]. rewrite (bda_on_time _ _ _ Hon), Em. cbn [rbind].
  specialize (Hle i ltac:(by eexists)). eexists. split; [done|].
  destruct (G i) as [[t d]|] eqn:HG; simpl.
  2:{ destruct cur as [[T D]|]; [|done]. destruct Hm as [Hm1 Hm2]. split; [done|].
      intros (j & [->|Hj]%elem_of_cons & HGj); [congruence|]. apply Hm2. by exists j. }
  destruct cur as [[T D]|]; [|done]. destruct Hm as [Hm1 Hm2]. simpl in Hle.
  assert (t = T ∨ dt_lt t T) as Ht by (destruct Hle as [?|[= -> ->]]; tauto).
  destruct m as [t'|]; simpl.
  - unfold dt_max. destruct (Hm1 t' eq_refl) as [->|Hlt].
    + assert (match dt_cmp t T with Gt => t | _ => T end = T) as ->; [|by split; [intros ? [= <-]; left|]].
      destruct Ht as [->|Ht]; [by destruct (dt_cmp T T)|]. apply dt_cmp_lt in Ht. by rewrite Ht.
    + split.
      * intros x [= <-]. destruct (dt_cmp t t'); tauto.
      * intros (j & [->|Hj]%elem_of_cons & HGj).
        -- rewrite HG in HGj. injection HGj as -> ->. by rewrite (proj2 (dt_cmp_gt _ _) Hlt).
        -- assert (Some t' = Some T) as [= ->] by (apply Hm2; by exists j). by apply dt_lt_irrefl in Hlt.
  - split; [intros x [= <-]; done|]. intros (j & [->|Hj]%elem_of_cons & HGj); [by simplify_eq|].
    assert (None = Some T) by (apply Hm2; by exists j). done.
Qed.

Lemma find_metadata_ok from_slice devs infos G T D ps idx bdas :
  from_slice D = Some ps → (∀ i, is_Some (devs !! i) → gen_le (G i) (Some (T, D))) →
  Forall2 (bda_of devs) idx bdas → (∃ i, i ∈ idx ∧ G i = Some (T, D)) →
  (∀ i bd, i ∈ idx → devs !! i = Some bd →
     ∃ info, lookup_info (SBD.uuid bd) infos = Some info ∧ devnode (ids info) = SBD.metadata_path bd) →
  ∀ s, stored_at devs (s_files s) G →
  ∃ fs', find_metadata from_slice infos T bdas s = (Ok (Some ps), set_files s fs') ∧ stored_at devs fs' G.
Proof.
  intros Hps Hle HF. induction HF as [|i [u b] idx bdas (bd & Hi & [= -> ->]) _ IH]; intros Hex Hinfo s Hst.
  { destruct Hex as (i & Hi & _). by apply not_elem_of_nil in Hi. }
  pose proof Hst as [_ Hst']. destruct (Hst' i bd Hi) as (f & _ & Hon).
  cbn [find_metadata]. unfold ibind at 1, ilift. rewrite (bda_on_time _ _ _ Hon).
  specialize (Hle i ltac:(by eexists)) as Hlei. case_bool_decide as Ht.
  - assert (G i = Some (T, D)) as HGi.
    { destruct (G i) as [[t d]|]; [|done]. injection Ht as ->. simpl in Hlei.
      destruct Hlei as [?%dt_lt_irrefl|[= ->]]; done. }
    destruct (Hinfo i bd ltac:(by left) Hi) as (info & El & En).
    unfold ibind at 1, ilift. rewrite El. cbn [expect].
    destruct (read_file devs s G i bd (Bda.load_state (bda bd)) (Ok (Some D)) (devnode (ids info)) Hst Hi)
      as (fs1 & E1 & Hst1); [|done|].
    { intros f0 Hf0. destruct (bda_load _ _ _ Hf0) as (f' & E & W). rewrite HGi in E. by exists f'. }
    exists fs1. split; [|done]. unfold read_state, ibind, itry. rewrite E1. simpl. by rewrite Hps.
  - apply IH; [|intros j bdj Hj; apply Hinfo; by right|done].
    destruct Hex as (j & [->|Hj]%elem_of_cons & HGj); [|by exists j]. by rewrite HGj in Ht.
Qed.

Definition restart (from_slice : list Z → option PoolSave) (infos : list (Z * LStratisInfo))
    : sys (option (DateTime * PoolSave)) :=
  let! bdas := get_bdas infos in get_metadata from_slice infos bdas.

(** what is expected after a restart *)
Definition loaded (from_slice : list Z → option PoolSave) (cur : gen) : option (option (DateTime * PoolSave)) :=
  match cur with
  | None => Some None
  | Some (T, D) => (λ ps, Some (T, ps)) <$> from_slice D
  end.
Lemma describes_lookup devs infos idx i bd : NoDup (SBD.uuid <$> devs) → NoDup idx →
  Forall2 (λ i ui, ∃ bd, devs !! i = Some bd ∧ ui.1 = SBD.uuid bd ∧
                         devnode (ids ui.2) = SBD.metadata_path bd) idx infos →
  i ∈ idx → devs !! i = Some bd →
  ∃ info, lookup_info (SBD.uuid bd) infos = Some info ∧ devnode (ids info) = SBD.metadata_path bd.
Proof.
  intros Hu Hnd HF Hi Hbd.
  assert (NoDup infos.*1) as Hk.
  { clear -Hu Hnd HF. induction HF as [|i ui idx infos (bd & Hi & E & _) HF IH]; [constructor|].
    apply NoDup_cons in Hnd as [Hni Hnd]. rewrite fmap_cons. apply NoDup_cons. split; [|by apply IH].
    intros (uj & Ej & Huj)%list_elem_of_fmap. apply list_elem_of_lookup in Huj as [k Hk].
    destruct (Forall2_lookup_r _ _ _ _ _ HF Hk) as (j & Hj & bdj & Hbdj & Ebdj & _).
    apply Hni. apply list_elem_of_lookup. exists k. rewrite Hj. f_equal.
    eapply (NoDup_lookup _ _ _ (SBD.uuid bd) Hu); rewrite list_lookup_fmap; [by rewrite Hbdj; simpl; f_equal; congruence|by rewrite Hi]. }
  apply list_elem_of_lookup in Hi as [k Hk']. destruct (Forall2_lookup_l _ _ _ _ _ HF Hk') as ([u info] & Hui & bd' & Hbd' & Eu & En).
  simplify_eq/=. exists info. split; [|done]. unfold lookup_info. apply elem_of_list_to_map_1; [done|].
  by eapply list_elem_of_lookup_2.
Qed.

Lemma restart_ok from_slice self s cur infos r : stored self (s_files s) cur →
  NoDup (SBD.uuid <$> block_devs self) → describes (block_devs self) infos → loaded from_slice cur = Some r →
  ∃ fs', restart from_slice infos s = (Ok r, set_files s fs').
Proof.
  intros (_ & G & Hst & Hle & Hcur) Hu (idx & Hidx & HF) Hr.
  destruct (get_bdas_ok _ G idx infos HF s Hst) as (bdas & fs1 & E1 & HB & Hst1).
  unfold restart, ibind at 1. rewrite E1. unfold get_metadata, ibind at 1, ilift.
  destruct (max_time_ok _ (set_files s fs1) G cur idx bdas Hst1 HB Hle) as (m & -> & Hm).
  destruct cur as [[T D]|]; simpl in Hr.
  2:{ subst m. exists fs1. by injection Hr as <-. }
  destruct (from_slice D) as [ps|] eqn:Hps; [|done]. injection Hr as <-.
  destruct (Hcur ltac:(by eexists)) as (i & Hi & HGi).
  assert (i ∈ idx) as Hin.
  { rewrite Hidx, elem_of_seq. apply lookup_lt_is_Some in Hi. lia. }
  destruct Hm as [_ Hm]. rewrite Hm by (by exists i).
  destruct (find_metadata_ok from_slice (block_devs self) infos G T D ps idx bdas Hps Hle HB)
    with (s := set_files s fs1) as (fs2 & E2 & _); [by exists i| |done|].
  { intros j bd Hj Hbd. eapply describes_lookup; [done| |done..]. rewrite Hidx. apply NoDup_seq. }
  exists fs2. unfold ibind. by rewrite E2.
Qed.

(** ** Sequences of saves *)

Fixpoint mgr_saves (ops : list ((nat → nat → list nat) * list Z)) (self : BlockDevMgr) (s : Sys)
    : list (res unit) * BlockDevMgr * Sys :=
  match ops with
  | [] => ([], self, s)
  | (choose, d) :: rest =>
      let '(r, (self, s)) := BDM.save_state choose d (self, s) in
      let '(rs, self, s) := mgr_saves rest self s in (r :: rs, self, s)
  end.

(** The register: a save stores the data under a new time stamp, if [room] says it fits. *)
Fixpoint register_saves (room : list Z → bool) (clock : nat → DateTime) (n : nat) (cur : gen)
    (datas : list (list Z)) : list (res unit) * gen :=
  match datas with
  | [] => ([], cur)
  | d :: rest =>
      let '(r, cur) :=
        (if room d then (Ok tt, Some (next_stamp (clock n) (fst <$> cur), d))
         else (Err (Msg "Failed to save metadata to even one device in pool"), cur)) in
      let '(rs, cur) := register_saves room clock (S n) cur rest in (r :: rs, cur)
  end.

Lemma register_saves_ext room room' clock n cur datas : (∀ d, room d = room' d) →
  register_saves room clock n cur datas = register_saves room' clock n cur datas.
Proof.
  intros Hr. revert n cur. induction datas as [|d datas IH]; intros n cur; [done|].
  simpl. rewrite Hr. destruct (room' d); by rewrite IH.
Qed.

(** time stamps in a range chrono represents *)
Definition stamp_bound (k : Z) (t : DateTime) : Prop :=
  0 ≤ dt_secs t < 2 ^ 39 + k ∧ 0 ≤ dt_nsecs t < 2 * 10 ^ 9.
Definition gen_bound (k : Z) (g : gen) : Prop := match g with Some (t, _) => stamp_bound k t | None => True end.
Definition chrono_range : Prop :=
  ∀ secs nsecs, 0 ≤ secs < 2 ^ 40 → 0 ≤ nsecs < 2 * 10 ^ 9 → timestamp_ok secs nsecs = true.

Lemma next_stamp_bound k now g : 0 ≤ k → stamp_bound 0 now → gen_bound k g →
  stamp_bound (k + 1) (next_stamp now (fst <$> g)).
Proof.
  intros Hk Hn Hg. unfold next_stamp. destruct g as [[t d]|]; simpl in *; [|unfold stamp_bound in *; lia].
  destruct (match dt_cmp t now with Lt => false | _ => true end); [|unfold stamp_bound in *; lia].
  unfold dt_succ, stamp_bound in *.
  destruct (Z.eqb_spec (dt_nsecs t + 1) (10 ^ 9)), (Z.eqb_spec (dt_nsecs t + 1) (2 * 10 ^ 9)); simpl; lia.
Qed.

Lemma bound_time_ok k t : chrono_range → 0 ≤ k ≤ 2 ^ 39 → stamp_bound k t → time_ok t.
Proof.
  intros Hc Hk [Hs Hn]. unfold time_ok, i64_max. split; [lia|]. split; [lia|]. apply Hc; lia.
Qed.

Lemma some_room_same d l l' : Forall2 same_md l l' → some_room d l' = some_room d l.
Proof.
  unfold some_room. induction 1 as [|a b l l' Hab _ IH]; [done|]. simpl. rewrite IH.
  destruct (same_md_path _ _ Hab) as (_ & -> & _). done.
Qed.

Lemma mgr_saves_ok ops : ∀ self s cur k, chrono_range →
  (∀ n, stamp_bound 0 (s_now s n)) → 0 ≤ k → k + Z.of_nat (length ops) ≤ 2 ^ 39 → gen_bound k cur →
  Forall (λ o, sampler o.1 ∧ o.2 ≠ []) ops → stored self (s_files s) cur →
  let '(rs, cur') := register_saves (λ d, some_room d (block_devs self)) (s_now s) (s_next s) cur (snd <$> ops) in
  ∃ self' s', mgr_saves ops self s = (rs, self', s') ∧ stored self' (s_files s') cur' ∧
    Forall2 same_md (block_devs self) (block_devs self').
Proof.
  induction ops as [|[choose d] ops IH]; intros self s cur k Hc Hclk Hk Hlen Hg Hall Hst.
  { simpl. exists self, s. split; [done|]. split; [done|]. apply Forall_Forall2_diag, Forall_true, same_md_refl. }
  inversion Hall as [|? ? [Hs Hd] Hall']; subst. simpl in Hs, Hd, Hlen.
  pose proof (next_stamp_bound k (s_now s (s_next s)) cur Hk (Hclk _) Hg) as Hb.
  destruct (mgr_save_step choose self s cur d Hs Hst Hd) as (r & self1 & s1 & E & Hsame & Hnow & Hnext & Hr).
  { eapply bound_time_ok; [done| |exact Hb]. lia. }
  cbn [fmap list_fmap register_saves mgr_saves snd]. rewrite E.
  destruct (some_room d (block_devs self)) eqn:Hroom; destruct Hr as [-> Hst1].
  all: pose proof (λ c, IH self1 s1 c (k + 1) Hc ltac:(by rewrite Hnow) ltac:(lia) ltac:(lia)) as Hrec.
  - specialize (Hrec (Some (next_stamp (s_now s (s_next s)) (fst <$> cur), d)) Hb Hall' Hst1).
    rewrite Hnow, Hnext, (register_saves_ext _ (λ d, some_room d (block_devs self))) in Hrec
      by (intros; by apply some_room_same).
    destruct (register_saves _ _ _ _ _) as [rs cur']. destruct Hrec as (self' & s' & -> & Hst' & Hsame').
    exists self', s'. split; [done|]. split; [done|]. by eapply Forall2_same_trans.
  - specialize (Hrec cur ltac:(destruct cur as [[??]|]; [unfold gen_bound, stamp_bound in *; lia|done]) Hall' Hst1).
    rewrite Hnow, Hnext, (register_saves_ext _ (λ d, some_room d (block_devs self))) in Hrec
      by (intros; by apply some_room_same).
    destruct (register_saves _ _ _ _ _) as [rs cur']. destruct Hrec as (self' & s' & -> & Hst' & Hsame').
    exists self', s'. split; [done|]. split; [done|]. by eapply Forall2_same_trans.
Qed.
(** A BDA just initialised. *)
Lemma bda_on_init b mds bs itime idents f :
  b = Bda.new idents (MDADataSize_new mds) bs itime → 0 ≤ mds < 2 ^ 40 →
  512 * Bda.extended_size b ≤ f_size f ≤ u64_max → is_uuid (pool_uuid idents) → is_uuid (device_uuid idents) →
  u64 bs → u64 itime → healthy f →
  ∃ f', Bda.initialize b f = (Ok tt, f') ∧ bda_on b f' None ∧
        wrote 0 (8192 + 4 * region_bytes (regions b)) f f'.
Proof.
  intros -> Hm Hs Hp Hd Hb Hi Hf. set (b := Bda.new _ _ _ _) in *.
  destruct (new_geometry idents mds bs itime f Hm Hs) as (Hg & Hend & Hms). fold b in Hg, Hend, Hms.
  assert (sh_ok (header b)) as Hsh by by split_and!.
  destruct (write_healthy f (header b) Both Hf) as (fa & Ea & Wa & Hfa & B1 & B2).
  change (block1 fa = SH.sigblock_to_buf (header b)) in B1.
  change (block2 fa = SH.sigblock_to_buf (header b)) in B2.
  destruct (initialize_ok (mda_size (header b)) static_header_bytes fa) as (f0 & E0 & Hn0 & W0 & Hh0);
    [by eapply geometry_wrote|apply Hfa|].
  exists f0. split; [unfold Bda.initialize; by erewrite ibind_ok by exact Ea|].
  change (MDA.new (mda_size (header b))) with (regions b) in *. change static_header_bytes with 8192 in *.
  assert (512 ≤ region_bytes (regions b)) as HR by (destruct Hg as (?&_); unfold region_bytes; lia).
  split; [split|].
  - done.
  - destruct W0 as (-> & _). apply Hfa.
  - rewrite <- B1. unfold block1. by rewrite (wrote_slice _ _ _ _ _ _ W0) by lia.
  - rewrite <- B2. unfold block2. by rewrite (wrote_slice _ _ _ _ _ _ W0) by lia.
  - done.
  - done.
  - by exists None, None.
  - eapply wrote_trans; [eapply wrote_weaken; [exact Wa|lia..]|]. eapply wrote_weaken; [exact W0|lia..].
Qed.

(** C1: The metadata of a pool survives restarts.  Start from devices that hold the metadata [cur], and save
    any sequence of metadata, each time to any choice of the devices with room for it, with
    clock values that may go backwards.  Every save returns what the register says:
    success if some device has room, an error that changes nothing otherwise.  Reading all devices back afterwards, in any
    order, finds exactly the last metadata saved, with its time stamp. *)
Theorem pool_metadata_durable from_slice self s cur ops infos :
  chrono_range → (∀ n, stamp_bound 0 (s_now s n)) → Z.of_nat (length ops) ≤ 2 ^ 38 →
  gen_bound (2 ^ 38) cur → Forall (λ o, sampler o.1 ∧ o.2 ≠ []) ops →
  stored self (s_files s) cur → NoDup (SBD.uuid <$> block_devs self) → describes (block_devs self) infos →
  let '(rs, cur') := register_saves (λ d, some_room d (block_devs self)) (s_now s) (s_next s) cur (snd <$> ops) in
  ∃ self' s', mgr_saves ops self s = (rs, self', s') ∧ stored self' (s_files s') cur' ∧
    ∀ r, loaded from_slice cur' = Some r → ∃ s'', restart from_slice infos s' = (Ok r, s'').
Proof.
  intros Hc Hclk Hlen Hg Hall Hst Hu Hdesc.
  pose proof (mgr_saves_ok ops self s cur (2 ^ 38) Hc Hclk ltac:(lia) ltac:(lia) Hg Hall Hst) as Hrun.
  destruct (register_saves _ _ _ _ _) as [rs cur']. destruct Hrun as (self' & s' & E & Hst' & Hsame).
  exists self', s'. split; [done|]. split; [done|]. intros r Hr.
  destruct (restart_ok from_slice self' s' cur' infos r Hst') as (fs' & Er); [| |done|by eexists].
  - replace (SBD.uuid <$> block_devs self') with (SBD.uuid <$> block_devs self); [done|].
    clear -Hsame. induction Hsame as [|a b l l' Hab _ IH]; [done|]. rewrite !fmap_cons, IH.
    by destruct (same_md_path _ _ Hab) as (_ & _ & ->).
  - destruct Hdesc as (idx & Hidx & HF). exists idx. split; [by rewrite <- (Forall2_length _ _ _ Hsame)|].
    eapply Forall2_impl; [exact HF|]. intros i ui (bd & Hi & E1 & E2).
    destruct (Forall2_lookup_l _ _ _ _ _ Hsame Hi) as (bd' & Hi' & Hab).
    exists bd'. destruct (same_md_path _ _ Hab) as (-> & _ & ->). done.
Qed.
End durability.

(** ** Example: two devices, a clock that stands still, devices found in the other order *)

Section examples.
#[local] Existing Instance crc32c_instance.
#[local] Existing Instance any_time.
#[local] Existing Instance hex_instance.
#[local] Existing Instance simple_display.
#[local] Existing Instance script_crypt.
#[local] Existing Instance example_codec.

Definition ex_bda (u : Z) : BDA := Bda.new (mkIds 1 u) (MDADataSize_new 0) 2097152 1600000000.
Definition ex_bd (u : Z) (path : Str) : StratBlockDev :=
  mkSBD u (ex_bda u) (mkRA (mkPDS 2097152 [(0, 8192)])) None None (Unencrypted path).
Definition ex_devs : list StratBlockDev := [ex_bd 10 (str "/dev/a"); ex_bd 11 (str "/dev/b")].
Definition ex_info (u : Z) (path : Str) : Z * LStratisInfo :=
  (u, mkLStratisInfo (mkStratisInfo (mkIds 1 u) u path) None).
Definition ex_infos : list (Z * LStratisInfo) := [ex_info 11 (str "/dev/b"); ex_info 10 (str "/dev/a")].
Definition first_ones (n k : nat) : list nat := seq 0 (Nat.min n k).
Definition ex_ops : list ((nat → nat → list nat) * list Z) := [(first_ones, [1; 2; 3]); (first_ones, [4; 5])].
Definition ex_from_slice (d : list Z) : option PoolSave :=
  Some (mkPoolSave d (mkBackstoreSave (mkDataTierSave (mkBlockDevSave [] [])) (mkCapSave []) None)
          (mkFlexDevsSave [] [] [] []) (mkThinPoolDevSave 2048)).
Definition ex_psave : PoolSave := default (mkPoolSave [] (mkBackstoreSave (mkDataTierSave (mkBlockDevSave [] [])) (mkCapSave []) None)
          (mkFlexDevsSave [] [] [] []) (mkThinPoolDevSave 0)) (ex_from_slice [4; 5]).

Lemma first_ones_sampler : sampler first_ones.
Proof.
  intros n k. unfold first_ones. split; [apply NoDup_seq|]. split; [|by rewrite length_seq].
  apply Forall_forall. intros i Hi%elem_of_seq. lia.
Qed.

Lemma ex_init u : u = 10 ∨ u = 11 → ∃ f, bda_on (ex_bda u) f None.
Proof.
  intros Hu. assert (Bda.extended_size (ex_bda u) = Bda.extended_size (ex_bda 10)) as Hsz by (by destruct Hu; subst).
  destruct (bda_on_init (ex_bda u) 0 2097152 1600000000 (mkIds 1 u) blank_device) as (f & _ & Hon & _).
  - reflexivity.
  - lia.
  - rewrite Hsz. split; vm_compute; discriminate.
  - unfold is_uuid. simpl. lia.
  - unfold is_uuid. simpl. lia.
  - by apply (bool_decide_unpack _).
  - by apply (bool_decide_unpack _).
  - apply blank_healthy.
  - by exists f.
Qed.

Lemma pool_metadata_durable_witness :
  ∃ fs, let s := mkSys fs ∅ [] (λ n, Z.of_nat n) (λ _, mkTime 5 0) 0 in
  ∃ self' s' s'', mgr_saves ex_ops (mkMgr ex_devs None) s = ([Ok tt; Ok tt], self', s') ∧
    restart ex_from_slice ex_infos s' = (Ok (Some (mkTime 5 1, ex_psave)), s'').
Proof.
  destruct (ex_init 10) as (fa & Ha); [by left|]. destruct (ex_init 11) as (fb & Hb); [by right|].
  exists (<[str "/dev/a" := fa]> (<[str "/dev/b" := fb]> ∅)). intros s.
  destruct (pool_metadata_durable ex_from_slice (mkMgr ex_devs None) s None ex_ops ex_infos)
    as (self' & s' & E & _ & Hr).
  - intros secs nsecs ? ?. apply andb_true_iff. split; apply Z.ltb_lt; lia.
  - intros n. unfold stamp_bound. simpl. lia.
  - simpl. lia.
  - done.
  - repeat constructor; try done; apply first_ones_sampler.
  - split; [done|]. exists (λ _, None). split; [|split; [done|by intros [? ?]]].
    split; [apply (bool_decide_unpack _); vm_compute; exact I|].
    intros [|[|i]] bd [= <-]; [exists fa|exists fb]; (split; [|done]).
    + apply lookup_insert_eq.
    + unfold s. simpl. rewrite lookup_insert_ne by (vm_compute; discriminate). apply lookup_insert_eq.
  - apply (bool_decide_unpack _). vm_compute. exact I.
  - exists [1; 0]%nat. split; [apply perm_swap|]. constructor; [by exists (ex_bd 11 (str "/dev/b"))|]. constructor; [by exists (ex_bd 10 (str "/dev/a"))|constructor].
  - exists self', s'. destruct (Hr (Some (mkTime 5 1, ex_psave))) as (s'' & Hs); [vm_compute; reflexivity|].
    exists s''. split; [exact E|exact Hs].
Defined.
End examples.
