(* ===== verification/Tiers.v ===== *)
(** * The data tier and the cache tier

    Models [src/engine/strat_engine/backstore/data_tier.rs] and [cache_tier.rs]. *)
From stdpp Require Import base list gmap strings.
From Stdlib Require Import ZArith Lia.
From S2P Require Import Prelude Disk Sizes External Json StaticHeader MDA BDA Shared System Names Crypt BlockDev Devices BlockDevMgr Setup RangeAlloc Alloc.

Record DataTier : Type := mkDataTier { dt_block_mgr : BlockDevMgr; dt_segments : list BlkDevSegment }.

Record CacheTier : Type := mkCacheTier {
  ct_block_mgr : BlockDevMgr; cache_segments : list BlkDevSegment; meta_segments : list BlkDevSegment }.

(** 32 TiB, in sectors *)
Definition MAX_CACHE_SIZE : Z := 32 * 2 ^ 40 / 512.

(** [.iter().map(mapper).collect::<StratisResult<Vec<_>>>()] *)
Fixpoint map_segments (uuid_to_devno : gmap Z Z) (l : list BaseDevSave) : res (list BlkDevSegment) :=
  match l with
  | [] => Ok []
  | ld :: rest =>
      let? seg := metadata_to_segment uuid_to_devno ld in
      let? segs := map_segments uuid_to_devno rest in
      Ok (seg :: segs)
  end.

(** [allocs[i]] *)
Definition alloc_list (save : BlockDevSave) (i : nat) : res (list BaseDevSave) :=
  expect (allocs save !! i) "index out of bounds".

Module DT.
Definition setup (block_mgr : BlockDevMgr) (data_tier_save : DataTierSave) : res DataTier :=
  let? l := alloc_list (dts_blockdev data_tier_save) 0 in
  let? segments := map_segments (BDM.uuid_to_devno block_mgr) l in
  Ok (mkDataTier block_mgr segments).

Definition new (block_mgr : BlockDevMgr) : DataTier := mkDataTier block_mgr [].

Definition alloc (self : DataTier) (request : Z) : res (bool * DataTier) :=
  let? '(o, mgr) := BDM.alloc_space (dt_block_mgr self) [request] in
  match o with
  | Some segments => Ok (true, mkDataTier mgr (coalesce_blkdevsegs (dt_segments self) (concat segments)))
  | None => Ok (false, mkDataTier mgr (dt_segments self))
  end.

Definition size (self : DataTier) : res Z := BDM.size (dt_block_mgr self).
Definition metadata_size (self : DataTier) : Z := BDM.metadata_size (dt_block_mgr self).
Definition usable_size (self : DataTier) : res Z :=
  let? s := size self in Ok (s -64 metadata_size self).

Definition get_blockdev_by_uuid (self : DataTier) (uuid : Z) : option (BlockDevTier * StratBlockDev) :=
  (λ bd, (Data, bd)) <$> BDM.get_blockdev_by_uuid (dt_block_mgr self) uuid.
Definition blockdevs (self : DataTier) : list (Z * StratBlockDev) := BDM.blockdevs (dt_block_mgr self).

Definition record (self : DataTier) : DataTierSave :=
  mkDataTierSave (mkBlockDevSave [record_segments (dt_segments self)] (BDM.record (dt_block_mgr self))).

Section with_crypt.
Context `{Crc32c} `{Chrono} `{Cryptsetup} `{UuidDisplay} `{ClevisCodec}.

(** a method of [self.block_mgr] *)
Definition on_mgr {A} (m : obj BlockDevMgr A) : obj DataTier A := λ '(self, s),
  let '(r, (mgr, s')) := m (dt_block_mgr self, s) in (r, (mkDataTier mgr (dt_segments self), s')).

Definition add (pool : Z) (paths : list Str) : obj DataTier (list Z) := on_mgr (BDM.add pool paths).
Definition save_state (choose : nat → nat → list nat) (metadata : list Z) : obj DataTier unit :=
  on_mgr (BDM.save_state choose metadata).
Definition destroy (self : DataTier) : sys unit := BDM.destroy_all (dt_block_mgr self).
End with_crypt.
End DT.

Module CT.
Definition setup (block_mgr : BlockDevMgr) (cache_tier_save : CacheTierSave) : res CacheTier :=
  if negb (BDM.avail_space block_mgr =? 0) then
    Err (Msg "unallocated to device; probable metadata corruption")
  else
    let uuid_to_devno := BDM.uuid_to_devno block_mgr in
    let? l1 := alloc_list (cts_blockdev cache_tier_save) 1 in
    let? meta_segments := map_segments uuid_to_devno l1 in
    let? l0 := alloc_list (cts_blockdev cache_tier_save) 0 in
    let? cache_segments := map_segments uuid_to_devno l0 in
    Ok (mkCacheTier block_mgr cache_segments meta_segments).

(** [iter().map(|x| x.segment.length).sum()] *)
Definition segments_length (l : list BlkDevSegment) : Z := sum64 ((λ x, length_ (segment x)) <$> l).

Definition get_blockdev_by_uuid (self : CacheTier) (uuid : Z) : option (BlockDevTier * StratBlockDev) :=
  (λ bd, (Cache, bd)) <$> BDM.get_blockdev_by_uuid (ct_block_mgr self) uuid.
Definition blockdevs (self : CacheTier) : list (Z * StratBlockDev) := BDM.blockdevs (ct_block_mgr self).

Definition record (self : CacheTier) : CacheTierSave :=
  mkCacheTierSave (mkBlockDevSave
    [record_segments (cache_segments self); record_segments (meta_segments self)]
    (BDM.record (ct_block_mgr self))).

(** [Sectors(IEC::Mi)] *)
Definition META_SPACE : Z := 2 ^ 20.

Section with_crypt.
Context `{Crc32c} `{Chrono} `{Cryptsetup} `{UuidDisplay} `{ClevisCodec}.

Definition on_mgr {A} (m : obj BlockDevMgr A) : obj CacheTier A := λ '(self, s),
  let '(r, (mgr, s')) := m (ct_block_mgr self, s) in
  (r, (mkCacheTier mgr (cache_segments self) (meta_segments self), s')).

(** [self.block_mgr.alloc_space(&[avail_space])] and the coalescing of the segments granted *)
Definition extend_cache (self : CacheTier) (avail_space : Z) : res CacheTier :=
  let? '(o, mgr) := BDM.alloc_space (ct_block_mgr self) [avail_space] in
  let? segments := expect o "asked for exactly the space available, must get" in
  Ok (mkCacheTier mgr (coalesce_blkdevsegs (cache_segments self) (concat segments)) (meta_segments self)).

Definition add (pool : Z) (paths : list Str) : obj CacheTier (list Z * (bool * bool)) :=
  let! uuids := on_mgr (BDM.add pool paths) in
  let! self := get_self in
  let avail_space := BDM.avail_space (ct_block_mgr self) in
  if MAX_CACHE_SIZE <? avail_space +64 segments_length (cache_segments self) then
    on_mgr (BDM.remove_blockdevs uuids) ;;!
    ierr (Msg "The size of the cache sub-device may not exceed MAX_CACHE_SIZE")
  else
    let! self' := ilift (extend_cache self avail_space) in
    modify_self (λ _, self') ;;!
    iret (uuids, (true, false)).

Definition new (block_mgr : BlockDevMgr) : sys CacheTier :=
  let avail_space := BDM.avail_space block_mgr in
  if negb (META_SPACE <? avail_space) then ilift (Panic "every block device must be at least one GiB")
  else if MAX_CACHE_SIZE <? avail_space -64 META_SPACE then
    BDM.destroy_all block_mgr ;;!
    ierr (Msg "The size of the cache sub-device may not exceed MAX_CACHE_SIZE")
  else
    let! '(o, mgr) := ilift (BDM.alloc_space block_mgr [META_SPACE; avail_space -64 META_SPACE]) in
    match o with
    | Some [meta_segments; cache_segments] => iret (mkCacheTier mgr cache_segments meta_segments)
    | _ => ilift (Panic "asked for exactly the space available, must get")
    end.

Definition destroy (self : CacheTier) : sys unit := BDM.destroy_all (ct_block_mgr self).
End with_crypt.
End CT.

(** ** The invariant of a tier

    The sectors marked as used are those of the Stratis metadata at the start of each
    device and those of the tier's segments, and no sector is counted twice. *)

Definition ext_size (bd : StratBlockDev) : Z := Bda.extended_size (bda bd).
Definition meta_cov (devs : list StratBlockDev) (u x : Z) : Prop :=
  Exists (λ bd, SBD.uuid bd = u ∧ 0 ≤ x < ext_size bd) devs.

Definition dev_geo (bd : StratBlockDev) : Prop :=
  limit (allocator bd) = Bda.dev_size (bda bd) ∧ 0 ≤ ext_size bd ≤ limit (allocator bd).

Definition meta_total (devs : list StratBlockDev) : Z := Zsum (ext_size <$> devs).
Definition limit_total (devs : list StratBlockDev) : Z := Zsum ((λ bd, limit (allocator bd)) <$> devs).

Record tier_ok (devs : list StratBlockDev) (segs : list BlkDevSegment) : Prop := {
  t_devs : devs_ok devs;
  t_geo : Forall dev_geo devs;
  t_on : Forall (seg_on devs) segs;
  t_disjoint : segs_disjoint segs;
  t_used : ∀ u x, used_cov devs u x ↔ meta_cov devs u x ∨ seg_cov segs u x;
  t_apart : ∀ u x, seg_cov segs u x → ¬ meta_cov devs u x;
  t_total : free_total devs + seg_total segs + meta_total devs = limit_total devs }.

Section tiers.
Implicit Types (devs : list StratBlockDev) (segs : list BlkDevSegment).

Lemma uuid_unique devs a b : NoDup (SBD.uuid <$> devs) → a ∈ devs → b ∈ devs →
  SBD.uuid a = SBD.uuid b → a = b.
Proof.
  intros Hnd (i & Hi)%list_elem_of_lookup (j & Hj)%list_elem_of_lookup Hab.
  assert (i = j) as ->.
  { eapply (NoDup_lookup _ _ _ (SBD.uuid a) Hnd); rewrite list_lookup_fmap; [by rewrite Hi|].
    rewrite Hj. simpl. by rewrite Hab. }
  congruence.
Qed.

(** the device a segment is on *)
Lemma seg_on_dev devs s bd : NoDup (SBD.uuid <$> devs) → seg_on devs s → bd ∈ devs →
  SBD.uuid bd = seg_uuid s →
  dev bd = device (segment s) ∧ start (segment s) + length_ (segment s) ≤ limit (allocator bd).
Proof.
  intros Hnd (_ & _ & (bd' & Hin & Hu & ? & ?)%Exists_exists) Hbd Hs.
  by rewrite (uuid_unique devs bd bd') by (done || congruence).
Qed.

Lemma limit_u64 devs bd : devs_ok devs → bd ∈ devs → 0 ≤ limit (allocator bd) ≤ u64_max.
Proof.
  intros (Hok & _ & [_ Hsum]) Hin. rewrite Forall_forall in Hok. destruct (Hok bd Hin) as [[? ?] _]. done.
Qed.

Lemma seg_on_ok devs s : devs_ok devs → seg_on devs s → seg_ok s.
Proof.
  intros Hd (? & ? & (bd & Hin & _ & _ & ?)%Exists_exists).
  pose proof (limit_u64 devs bd Hd Hin). unfold seg_ok. lia.
Qed.

Lemma seg_on_coherent devs segs : devs_ok devs → Forall (seg_on devs) segs → coherent segs.
Proof.
  intros (_ & Hnd & _) Hon a b Ha Hb Hu. rewrite Forall_forall in Hon.
  destruct (Hon a Ha) as (_ & _ & (bd & Hin & Hua & Hda & _)%Exists_exists).
  destruct (seg_on_dev devs b bd Hnd (Hon b Hb) Hin) as [Hdb _]; congruence.
Qed.

Lemma coalesce_seg_on devs left right : devs_ok devs → Forall (seg_on devs) (left ++ right) →
  Forall (seg_on devs) (coalesce_blkdevsegs left right).
Proof.
  intros Hd Hon. destruct (coalesce_cases left right) as [->|(front & a & b & rest & -> & -> & Hu & Hab & ->)]; [done|].
  rewrite <- app_assoc in Hon. simpl in Hon.
  apply Forall_app in Hon as (Hf & [Ha [Hb Hr]%Forall_cons]%Forall_cons).
  apply Forall_app. split; [done|]. constructor; [|done].
  pose proof (seg_on_ok _ _ Hd Ha) as Hoa. pose proof (seg_on_ok _ _ Hd Hb) as Hob.
  destruct (merged_exact a b Hoa Hob Hab) as [Es El]. destruct Hoa as (?&?&?), Hob as (?&?&?).
  destruct Ha as (_ & _ & (bd & Hin & Hua & Hda & _)%Exists_exists).
  destruct Hd as (_ & Hnd & _). destruct (seg_on_dev devs b bd Hnd Hb Hin) as [_ Hlim]; [congruence|].
  change (mkBDS _ _) with (merged a b). unfold seg_on. rewrite El. simpl. split_and!; [lia..|].
  apply Exists_exists. exists bd. split_and!; [done..|lia].
Qed.

Lemma meta_cov_same devs devs' u x : Forall2 same_dev devs devs' → meta_cov devs' u x ↔ meta_cov devs u x.
Proof.
  unfold meta_cov. induction 1 as [|a b l l' [Hab _] _ IH]; [done|]. rewrite !Exists_cons, IH.
  rewrite Hab. done.
Qed.

Lemma dev_geo_same devs devs' : Forall2 same_dev devs devs' → Forall dev_geo devs → Forall dev_geo devs'.
Proof.
  induction 1 as [|a b l l' [Hab Hl] _ IH]; [done|]. intros [Hg ?]%Forall_cons. constructor; [|by apply IH].
  unfold dev_geo, ext_size in *. rewrite Hl. by rewrite Hab.
Qed.

Lemma totals_same devs devs' : Forall2 same_dev devs devs' →
  meta_total devs' = meta_total devs ∧ limit_total devs' = limit_total devs.
Proof.
  unfold meta_total, limit_total. induction 1 as [|a b l l' [Hab Hl] _ IH]; [done|].
  rewrite !fmap_cons. simpl. destruct IH as [-> ->]. rewrite Hl. split; [|done].
  unfold ext_size. by rewrite Hab.
Qed.

Lemma seg_on_same' devs devs' s : Forall2 same_dev devs devs' → seg_on devs s → seg_on devs' s.
Proof.
  intros Hs (Hl & H0 & He). split; [done|]. split; [done|].
  induction Hs as [|a b l l' Hab _ IH]; [by inversion He|].
  apply Exists_cons in He as [(Hu & Hd & Hb)|He]; [left|right; by apply IH].
  destruct (same_dev_uuid _ _ Hab) as [-> ->]. split; [done|]. split; [done|]. by rewrite (proj2 Hab).
Qed.

(** Granting more space and appending it to the tier's segments keeps the invariant. *)
Lemma grant_tier devs devs' segs new : tier_ok devs segs → grant devs devs' new →
  tier_ok devs' (coalesce_blkdevsegs segs new) ∧
  sectors (coalesce_blkdevsegs segs new) = sectors segs ++ sectors new.
Proof.
  intros [Hd Hg Hon Hdis Hu Ha Htot] G.
  assert (Forall (seg_on devs) (segs ++ new)) as Hon2 by (apply Forall_app; split; [done|apply G]).
  destruct (coalesce_ok segs new) as (Hsec & Hcov & Hst & _ & _ & Hdisj & _).
  { eapply Forall_impl; [exact Hon2|]. intros s. by apply seg_on_ok. }
  { by eapply seg_on_coherent. }
  split; [|done]. split.
  - by eapply grant_devs_ok.
  - eapply dev_geo_same; [apply G|done].
  - eapply Forall_impl; [by apply (coalesce_seg_on devs)|]. intros s. eapply seg_on_same', G.
  - apply Hdisj, segs_disjoint_app; [done|apply G|]. intros u x Hs Hn.
    apply (g_fresh _ _ _ G u x Hn), Hu. by right.
  - intros u x. rewrite (g_used _ _ _ G), (meta_cov_same _ _ _ _ (g_same _ _ _ G)), Hu, Hcov. tauto.
  - intros u x. rewrite (meta_cov_same _ _ _ _ (g_same _ _ _ G)), Hcov. intros [Hs|Hn]; [by apply Ha|].
    intros Hm. apply (g_fresh _ _ _ G u x Hn), Hu. by left.
  - destruct (totals_same _ _ (g_same _ _ _ G)) as [-> ->]. rewrite (g_free _ _ _ G). lia.
Qed.

Lemma tier_bounds devs segs : tier_ok devs segs →
  0 ≤ free_total devs ∧ 0 ≤ seg_total segs ∧ 0 ≤ meta_total devs ∧ limit_total devs ≤ u64_max.
Proof.
  intros Ht. destruct (t_devs _ _ Ht) as (Hok & _ & [_ Hl]).
  pose proof (free_total_bounds _ Hok). split_and!; [lia| | |exact Hl].
  - apply Zsum_nonneg, Forall_fmap. eapply Forall_impl; [apply (t_on _ _ Ht)|]. intros s (Hlen & _). simpl. lia.
  - apply Zsum_nonneg, Forall_fmap. eapply Forall_impl; [apply (t_geo _ _ Ht)|]. intros bd (_ & Hb). simpl. lia.
Qed.

(** what [DataTier::alloc] does to a tier that is well formed *)
Definition alloc_post (self self' : DataTier) (request : Z) (b : bool) : Prop :=
  (b = true ↔ request ≤ free_total (block_devs (dt_block_mgr self))) ∧
  tier_ok (block_devs (dt_block_mgr self')) (dt_segments self') ∧
  (if b then ∃ new, sectors (dt_segments self') = sectors (dt_segments self) ++ new ∧
                    Z.of_nat (length new) = request ∧
                    seg_total (dt_segments self') = seg_total (dt_segments self) + request ∧
                    free_total (block_devs (dt_block_mgr self')) =
                      free_total (block_devs (dt_block_mgr self)) - request ∧
                    Forall2 same_dev (block_devs (dt_block_mgr self)) (block_devs (dt_block_mgr self')) ∧
                    last_update_time (dt_block_mgr self') = last_update_time (dt_block_mgr self)
   else self' = self).

Lemma data_alloc_ok self request :
  tier_ok (block_devs (dt_block_mgr self)) (dt_segments self) → u64 request →
  ∃ b self', DT.alloc self request = Ok (b, self') ∧ alloc_post self self' request b.
Proof.
  intros Ht Hr. pose proof (t_devs _ _ Ht) as Hd. destruct self as [mgr segs]. simpl in *.
  pose proof (alloc_space_ok mgr [request] Hd ltac:(by apply Forall_singleton)) as Ha.
  simpl Zsum in Ha. rewrite Z.add_0_r in Ha. specialize (Ha Hr). unfold DT.alloc, alloc_post. simpl.
  destruct (Z.leb_spec request (free_total (block_devs mgr))).
  - destruct Ha as (lists & devs' & -> & HF & G). cbn [rbind].
    destruct (grant_tier _ _ _ _ Ht G) as [Ht' Hsec].
    eexists true, _. split; [done|]. split; [done|]. simpl. split; [done|].
    exists (sectors (concat lists)). split; [done|].
    assert (seg_total (concat lists) = request) as Htot.
    { inversion HF as [|l n ls ns Hl Hnil]; subst. inversion Hnil; subst. simpl. by rewrite app_nil_r. }
    pose proof (t_total _ _ Ht). pose proof (t_total _ _ Ht'). simpl in *.
    destruct (totals_same _ _ (g_same _ _ _ G)). pose proof (g_free _ _ _ G).
    split_and!; [|lia|lia|apply G|done].
    rewrite sectors_length; [done|]. eapply Forall_impl; [apply G|]. intros s. by apply seg_on_ok.
  - rewrite Ha. cbn [rbind]. eexists false, _. split; [done|]. split; [split; [done|lia]|]. split; [done|done].
Qed.
End tiers.

(** [DataTier::alloc] grows the data tier in place: it returns [true] exactly when the request
    fits in the space available; then the linear device has its old sectors, followed by
    exactly [request] new ones; otherwise nothing changes.  The tier's invariant (used sectors are
    those of the metadata areas and of the segments, none shared) is kept, and there is no panic. *)
Theorem data_tier_alloc_spec self request :
  tier_ok (block_devs (dt_block_mgr self)) (dt_segments self) → u64 request →
  ∃ b self', DT.alloc self request = Ok (b, self') ∧
    (b = true ↔ request ≤ BDM.avail_space (dt_block_mgr self)) ∧
    tier_ok (block_devs (dt_block_mgr self')) (dt_segments self') ∧
    (if b then ∃ new, sectors (dt_segments self') = sectors (dt_segments self) ++ new ∧
                      Z.of_nat (length new) = request ∧
                      BDM.avail_space (dt_block_mgr self') = BDM.avail_space (dt_block_mgr self) - request
     else self' = self).
Proof.
  intros Ht Hr. destruct (data_alloc_ok self request Ht Hr) as (b & self' & E & Hb & Ht' & Hs).
  exists b, self'. rewrite !avail_space_exact by (by eapply t_devs). split; [done|]. split; [done|]. split; [done|].
  destruct b; [|done]. destruct Hs as (new & ? & ? & _ & ? & _). by exists new.
Qed.

(** ** Examples *)

(** Fresh devices, on which nothing but the metadata is in use. *)
Lemma ex_tier_ok : tier_ok (block_devs ex_mgr) [].
Proof.
  split.
  - apply (bool_decide_unpack _). vm_compute. exact I.
  - repeat constructor; vm_compute; congruence.
  - constructor.
  - constructor.
  - intros u x. unfold used_cov, meta_cov, seg_cov, ext_size. rewrite Exists_nil. unfold block_devs, ex_mgr.
    rewrite !Exists_cons, !Exists_nil. change (Bda.extended_size (bda (ex_dev 10 2049))) with 8192.
    change (Bda.extended_size (bda (ex_dev 11 2065))) with 8192.
    unfold allocator, ex_dev, SBD.uuid, Bda.dev_uuid. simpl. rewrite !covers_cons, !covers_nil. tauto.
  - intros u x Hs. by apply Exists_nil in Hs.
  - reflexivity.
Qed.

Lemma data_tier_alloc_spec_witness :
  DT.alloc (DT.new ex_mgr) 2100000 =
    Ok (true, mkDataTier (with_devs ex_mgr
        [SBD.set_used (ex_dev 10 2049) (mkRA (mkPDS 2097152 [(0, 2097152)]));
         SBD.set_used (ex_dev 11 2065) (mkRA (mkPDS 2097152 [(0, 19232)]))]) ex_segs) ∧
  ∃ b self', DT.alloc (DT.new ex_mgr) 2100000 = Ok (b, self') ∧
    tier_ok (block_devs (dt_block_mgr self')) (dt_segments self').
Proof.
  split; [vm_compute; reflexivity|].
  destruct (data_tier_alloc_spec (DT.new ex_mgr) 2100000) as (b & self' & E & _ & Ht & _).
  - apply ex_tier_ok.
  - apply (bool_decide_unpack _). vm_compute. exact I.
  - exists b, self'. by split.
Defined.
