(* ===== verification/Writing.v ===== *)
(** * Wiping sectors

    Models [src/engine/strat_engine/writing.rs].  [BufWriter] is the standard library's: bytes
    collect in a buffer that is written out when the next write would not fit.  (The attempt to
    write the buffer once more that dropping a [BufWriter] makes after a failed write is left
    out.) *)
From stdpp Require Import base list gmap strings.
From Stdlib Require Import ZArith Lia.
From S2P Require Import Prelude Disk Sizes Json MDA Shared System.

(** [BufWriter::flush_buf]: nothing is written when the buffer is empty *)
Definition flush_buf (buf : list Z) : io unit :=
  match buf with [] => iret tt | _ => write_all buf end.

(** [BufWriter::write_all] of a writer with capacity [cap] *)
Definition buf_write_all (cap : Z) (data buf : list Z) : io (list Z) :=
  let! buf := (if cap <? Z.of_nat (length buf + length data) then flush_buf buf ;;! iret [] else iret buf) in
  if cap <=? Z.of_nat (length data) then write_all data ;;! iret buf else iret (buf ++ data).

(** [for _ in 0..*length { f.write_all(buf)?; }] *)
Fixpoint write_sectors_loop (cap : Z) (data : list Z) (n : nat) (buf : list Z) : io (list Z) :=
  match n with
  | O => iret buf
  | S n => let! buf := buf_write_all cap data buf in write_sectors_loop cap data n buf
  end.

Definition convert_u64 (z : Z) : res Z :=
  if z <=? u64_max then Ok z else Err (Msg "Failed to convert integer from u128 to u64").

(** [write_sectors], on the open file *)
Definition write_sectors_to (offset len : Z) (data : list Z) : io unit :=
  let cap := Z.min (2 ^ 20) (sectors_bytes len) in
  let! pos := ilift (convert_u64 (sectors_bytes offset)) in
  seek pos ;;!
  let! buf := write_sectors_loop cap data (Z.to_nat len) [] in
  flush_buf buf ;;! sync_all.

Definition zero_sector : list Z := replicate 512 0.

Definition wipe_sectors `{Cryptsetup} (path : Str) (offset len : Z) : sys unit :=
  with_file path (write_sectors_to offset len zero_sector).

(** ** What is written *)

(** [zeroed lo hi f f']: the bytes of [[lo, hi)] are zero in [f'], all others those of [f]. *)
Definition zeroed (lo hi : Z) (f f' : File) : Prop :=
  f_size f' = f_size f ∧ f_fault f' = f_fault f ∧
  ∀ i, f_data f' i = if (lo <=? i) && (i <? hi) then 0 else f_data f i.

Lemma write_zeros lo n f f0 : writable f → zeroed lo (f_pos f) f0 f → lo ≤ f_pos f →
  f_pos f + Z.of_nat n ≤ f_size f →
  ∃ f', write_all (replicate n 0) f = (Ok tt, f') ∧ writable f' ∧ f_pos f' = f_pos f + Z.of_nat n ∧
        zeroed lo (f_pos f') f0 f'.
Proof.
  intros Hnf (Hs & Hf & Hd) Hlo Hfit. destruct Hnf as [Hnf Hw].
  unfold write_all. rewrite Hw. cbn [negb]. rewrite Hnf, length_replicate.
  destruct (Z.leb_spec (Z.of_nat n) (f_size f - f_pos f)); [|lia].
  rewrite take_ge by (rewrite length_replicate; lia). rewrite length_replicate. eexists. split; [reflexivity|]. simpl.
  split; [done|]. split; [done|]. split; [done|]. split; [done|]. simpl. intros i. unfold put. rewrite length_replicate.
  destruct (Z.leb_spec (f_pos f) i), (Z.ltb_spec i (f_pos f + Z.of_nat n)); simpl.
  - destruct (Z.leb_spec lo i); [|lia]. simpl. rewrite (list_lookup_total_alt (replicate n 0)), lookup_replicate_2 by lia. done.
  - rewrite Hd. destruct (Z.leb_spec lo i), (Z.ltb_spec i (f_pos f)); simpl; try done; lia.
  - rewrite Hd. destruct (Z.leb_spec lo i), (Z.ltb_spec i (f_pos f)); simpl; try done; lia.
  - lia.
Qed.

(** the state of the loop: what is on the file and what is still in the buffer *)
Definition buffered (lo pos : Z) (f0 f : File) (buf : list Z) : Prop :=
  writable f ∧ buf = replicate (length buf) 0 ∧ lo ≤ f_pos f ∧ f_pos f + Z.of_nat (length buf) = pos ∧
  zeroed lo (f_pos f) f0 f.

Lemma flush_zeros lo pos f0 f buf : buffered lo pos f0 f buf → pos ≤ f_size f →
  ∃ f', flush_buf buf f = (Ok tt, f') ∧ buffered lo pos f0 f' [].
Proof.
  intros (Hnf & Hb & Hlo & Hpos & Hz) Hfit.
  destruct buf as [|b buf]; [exists f; split; [done|]; by split_and!|].
  destruct (write_zeros lo (length (b :: buf)) f f0) as (f' & E & ? & Hp & ?); [done|done|done|lia|].
  exists f'. split; [unfold flush_buf; by rewrite Hb|]. split_and!; [done|done|simpl in *; lia|simpl in *; lia|done].
Qed.

Lemma zeroed_size lo hi f0 f : zeroed lo hi f0 f → f_size f = f_size f0.
Proof. by intros (?&_). Qed.

Lemma buf_write_zeros cap n lo pos f0 f buf : buffered lo pos f0 f buf →
  pos + Z.of_nat n ≤ f_size f0 →
  ∃ f' buf', buf_write_all cap (replicate n 0) buf f = (Ok buf', f') ∧
             buffered lo (pos + Z.of_nat n) f0 f' buf'.
Proof.
  intros Hb Hfit.
  assert (∃ f1 buf1, (if cap <? Z.of_nat (length buf + length (replicate n 0)) then flush_buf buf ;;! iret []
      else iret buf) f = (Ok buf1, f1) ∧ buffered lo pos f0 f1 buf1 ∧
      (cap < Z.of_nat (length buf + n) → buf1 = [])) as (f1 & buf1 & E1 & B1 & Hnil).
  { rewrite length_replicate. destruct (Z.ltb_spec cap (Z.of_nat (length buf + n))).
    - destruct (flush_zeros _ _ _ _ _ Hb) as (f1 & E & B).
      { rewrite (zeroed_size _ _ _ _ (proj2 (proj2 (proj2 (proj2 Hb))))). lia. }
      exists f1, []. unfold ibind. rewrite E. by split_and!.
    - exists f, buf. split_and!; [done|done|lia]. }
  unfold buf_write_all, ibind at 1. rewrite E1. rewrite length_replicate.
  destruct B1 as (Hnf & Hbuf & Hlo & Hpos & Hz).
  destruct (Z.leb_spec cap (Z.of_nat n)).
  - assert (buf1 = []) as ->.
    { destruct buf1 as [|b buf1]; [done|]. destruct (decide (cap < Z.of_nat (length buf + n))); [by apply Hnil|].
      destruct buf; [|simpl in *; lia]. destruct (Z.ltb_spec cap (Z.of_nat (length (@nil Z) + length (replicate n 0))));
        [|by inversion E1]. by rewrite length_replicate in *. }
    simpl in Hpos. destruct (write_zeros lo n f1 f0) as (f' & E & ? & Hp & ?); [done|done|done| |].
    { rewrite (zeroed_size _ _ _ _ Hz). lia. }
    exists f', []. unfold ibind. rewrite E. split; [done|]. split_and!; [done|done|lia|simpl; lia|done].
  - exists f1, (buf1 ++ replicate n 0). split; [done|]. split_and!; [done| |done| |done].
    + rewrite length_app, length_replicate, replicate_add. by f_equal.
    + rewrite length_app, length_replicate. lia.
Qed.

Lemma write_loop_zeros cap n m lo pos f0 f buf : buffered lo pos f0 f buf →
  pos + Z.of_nat (m * n) ≤ f_size f0 →
  ∃ f' buf', write_sectors_loop cap (replicate n 0) m buf f = (Ok buf', f') ∧
             buffered lo (pos + Z.of_nat (m * n)) f0 f' buf'.
Proof.
  revert pos f buf. induction m as [|m IH]; intros pos f buf Hb Hfit; simpl.
  - exists f, buf. split; [done|]. by rewrite Z.add_0_r.
  - destruct (buf_write_zeros cap n _ _ _ _ _ Hb) as (f1 & buf1 & E1 & B1); [lia|].
    unfold ibind. rewrite E1. destruct (IH _ _ _ B1) as (f' & buf' & E & B); [lia|].
    exists f', buf'. split; [done|]. by replace (pos + _) with (pos + Z.of_nat n + Z.of_nat (m * n)) by lia.
Qed.

(** Wiping on a device that does not fail zeroes exactly the sectors asked for. *)
Lemma wipe_to_ok offset len f : writable f → 0 ≤ offset → 0 ≤ len → (offset + len) * 512 ≤ f_size f →
  f_size f ≤ u64_max →
  ∃ f', write_sectors_to offset len zero_sector f = (Ok tt, f') ∧
        zeroed (offset * 512) ((offset + len) * 512) f f'.
Proof.
  intros Hnf Ho Hl Hfit Hsz. unfold write_sectors_to, sectors_bytes, convert_u64, SECTOR_SIZE.
  rewrite (wrap128_small (offset * 512)) by (unfold u128, u128_max, u64_max in *; lia).
  destruct (Z.leb_spec (offset * 512) u64_max); [|lia].
  unfold ibind at 1. cbn [ilift]. unfold ibind at 1, seek at 1. rewrite (proj1 Hnf).
  set (f1 := set_pos _ _).
  assert (buffered (offset * 512) (offset * 512) f f1 []) as B1.
  { split_and!; [done|done|done|simpl; lia|]. split_and!; [done|done|]. intros i. simpl.
    destruct (Z.leb_spec (offset * 512) i), (Z.ltb_spec i (offset * 512)); simpl; try done; lia. }
  destruct (write_loop_zeros (Z.min (2 ^ 20) (wrap128 (len * 512))) 512 (Z.to_nat len) _ _ _ _ _ B1)
    as (f2 & buf & E2 & B2); [lia|].
  unfold zero_sector, ibind at 1. rewrite E2.
  destruct (flush_zeros _ _ _ _ _ B2) as (f3 & E3 & (Hnf3 & _ & _ & Hp3 & Hz3)).
  { rewrite (zeroed_size _ _ _ _ (proj2 (proj2 (proj2 (proj2 B2))))). lia. }
  unfold ibind. rewrite E3. unfold sync_all. rewrite (proj1 Hnf3). eexists. split; [reflexivity|].
  simpl in Hp3. replace ((offset + len) * 512) with (f_pos f3) by lia. exact Hz3.
Qed.
