(* ===== verification/Dm.v ===== *)
(** * Devicemapper and the programs the engine runs

    What the backstore and the thin pool use of the [devicemapper] crate, of
    [src/engine/strat_engine/cmd.rs] (which runs programs such as [mkfs.xfs] and [thin_check])
    and of mounts.  The kernel and the programs are not part of the repository: their devices are
    abstract types, their calls are functions of the class [Devicemapper] on the state [Luks] of
    the rest of the system.  [DmLaws] states what the engine relies on. *)
From stdpp Require Import base list gmap strings.
From Stdlib Require Import ZArith Lia.
From S2P Require Import Prelude RangeAlloc Disk Sizes External Json MDA Shared System Names Crypt BlockDev Devices BlockDevMgr.

(** [ThinPoolUsage], [ThinPoolStatusSummary], [ThinPoolStatus], [ThinStatus]; sizes of data in
    data blocks, of metadata in metadata blocks *)
Record ThinPoolUsage : Type := mkUsage { used_meta : Z; total_meta : Z; used_data : Z; total_data : Z }.
Inductive ThinPoolStatusSummary := SGood | SReadOnly | SOutOfSpace.
Inductive ThinPoolStatus : Type :=
| Working (usage : ThinPoolUsage) (summary : ThinPoolStatusSummary)
| PoolError | PoolFail.
Inductive ThinStatus : Type := ThinWorking (nr_mapped_sectors : Z) | ThinError | ThinFail.

(** a call, and a method of a [&mut self] *)
Definition dmM `{Cryptsetup} (A : Type) : Type := Luks → (StratisError + A) * Luks.
Definition mutM `{Cryptsetup} (D A : Type) : Type := D → Luks → (StratisError + A) * (D * Luks).

Class Devicemapper `{Cryptsetup} : Type := {
  LinearDev : Type; CacheDev : Type; ThinPoolDev : Type; ThinDev : Type;
  (* LinearDev *)
  LinearDev_setup (name uuid : Str) (table : list LinearLine) : dmM LinearDev;
  LinearDev_table : LinearDev → list LinearLine;
  LinearDev_size : LinearDev → Z;
  LinearDev_device : LinearDev → Z;
  LinearDev_devnode : LinearDev → Str;
  LinearDev_name : LinearDev → Str;
  LinearDev_set_table (table : list LinearLine) : mutM LinearDev unit;
  LinearDev_set_name (name : Str) : mutM LinearDev unit;
  LinearDev_suspend : mutM LinearDev unit;
  LinearDev_resume : mutM LinearDev unit;
  LinearDev_teardown : mutM LinearDev unit;
  (* CacheDev *)
  CacheDev_setup (name uuid : Str) (meta cache origin : LinearDev) (cache_block_size : Z) : dmM CacheDev;
  CacheDev_size : CacheDev → Z;
  CacheDev_device : CacheDev → Z;
  CacheDev_set_origin_table (table : list LinearLine) : mutM CacheDev unit;
  CacheDev_set_cache_table (table : list LinearLine) : mutM CacheDev unit;
  CacheDev_set_meta_table (table : list LinearLine) : mutM CacheDev unit;
  CacheDev_resume : mutM CacheDev unit;
  CacheDev_teardown : mutM CacheDev unit;
  (* ThinPoolDev *)
  ThinPoolDev_new (name uuid : Str) (meta data : LinearDev) (data_block_size low_water_mark : Z)
    : dmM ThinPoolDev;
  ThinPoolDev_setup (name uuid : Str) (meta data : LinearDev) (data_block_size low_water_mark : Z)
    : dmM ThinPoolDev;
  ThinPoolDev_meta_dev : ThinPoolDev → LinearDev;
  ThinPoolDev_data_dev : ThinPoolDev → LinearDev;
  ThinPoolDev_data_block_size : ThinPoolDev → Z;
  ThinPoolDev_status (self : ThinPoolDev) : dmM ThinPoolStatus;
  ThinPoolDev_set_low_water_mark (low_water : Z) : mutM ThinPoolDev unit;
  ThinPoolDev_set_meta_table (table : list LinearLine) : mutM ThinPoolDev unit;
  ThinPoolDev_set_data_table (table : list LinearLine) : mutM ThinPoolDev unit;
  ThinPoolDev_suspend : mutM ThinPoolDev unit;
  ThinPoolDev_resume : mutM ThinPoolDev unit;
  ThinPoolDev_teardown : mutM ThinPoolDev unit;
  (* ThinDev; its table is a single line, of which only the length is changed *)
  ThinDev_new (name uuid : Str) (length : Z) (thin_pool : ThinPoolDev) (id : Z) : dmM ThinDev;
  ThinDev_setup (name uuid : Str) (length : Z) (thin_pool : ThinPoolDev) (id : Z) : dmM ThinDev;
  ThinDev_snapshot (self : ThinDev) (name uuid : Str) (thin_pool : ThinPoolDev) (id : Z) : dmM ThinDev;
  ThinDev_id : ThinDev → Z;
  ThinDev_size : ThinDev → Z;
  ThinDev_device : ThinDev → Z;
  ThinDev_devnode : ThinDev → Str;
  ThinDev_status (self : ThinDev) : dmM ThinStatus;
  ThinDev_set_table_length (length : Z) : mutM ThinDev unit;
  ThinDev_suspend (flush : bool) : mutM ThinDev unit;
  ThinDev_resume : mutM ThinDev unit;
  ThinDev_teardown : mutM ThinDev unit;
  ThinDev_destroy (thin_pool : ThinPoolDev) : mutM ThinDev unit;
  device_exists (name : Str) : dmM bool;
  (* [list_devices]: names and event numbers *)
  list_devices : dmM (list (Str * option Z));
  (* programs and mounts *)
  create_fs (devnode : Str) (uuid : option Z) (no_sync : bool) : dmM unit;
  set_uuid (devnode : Str) (uuid : Z) : dmM unit;
  xfs_growfs (mount_point : Str) : dmM unit;
  thin_check (devnode : Str) : dmM unit;
  thin_repair (meta_dev new_meta_dev : Str) : dmM unit;
  udev_settle : dmM unit;
  udev_change_event (device : Z) (fs_uuid : Z) (pool_name fs_name : Str) : dmM unit;
  mountinfo : dmM (list (res (Z * Str)));
  statvfs (mount_point : Str) : dmM (Z * Z * Z);
  mount_snapshot (devnode : Str) : dmM unit;
  (* [false] when the directory exists, when the device is busy *)
  create_dir_all (path : Str) : dmM bool;
  mount_xfs (devnode mount_pt : Str) : dmM bool;
  umount (mount_pt : Str) : dmM unit;
  remove_dir (path : Str) : dmM unit;
  (* [ThinDevId::new_u64]: identifiers have 24 bits *)
  ThinDevId_new_u64 (value : Z) : StratisError + Z
}.

Section dm.
Context `{Devicemapper}.

Definition to_res {A} (r : StratisError + A) : res A := match r with inr a => Ok a | inl e => Err e end.

(** a call of the devicemapper library or of a program *)
Definition dm {A} (m : dmM A) : sys A := λ s,
  let '(r, l) := m (s_luks s) in (to_res r, set_luks s l).

(** a method of a device that is a value [d]: the outcome, with the device as it is then *)
Definition dm_on {D A} (m : mutM D A) (d : D) : sys ((StratisError + A) * D) := λ s,
  let '(r, (d', l)) := m d (s_luks s) in (Ok (r, d'), set_luks s l).

(** [?] on an outcome *)
Definition question {S A} (r : StratisError + A) : st S A := ilift (to_res r).

(** a method of a part of [self] *)
Definition focus {S T A} (get : S → T) (set : T → S → S) (m : obj T A) : obj S A := λ '(self, s),
  let '(r, (t, s')) := m (get self, s) in (r, (set t self, s')).

(** a method of a device that is [&mut self], with [?] *)
Definition dm_mut {D A} (m : mutM D A) : obj D A := λ '(d, s),
  let '(r, (d', l)) := m d (s_luks s) in (to_res r, (d', set_luks s l)).
End dm.

(** The sectors of a table: [sum] over the lengths of its lines *)
Definition table_length (table : list LinearLine) : Z := sum64 (line_length <$> table).

(** What the engine relies on: sizes are those of the tables loaded (the library computes them
    from the tables it keeps); a failed reload leaves the old size or the new one. *)
Class DmLaws `{Devicemapper} : Prop := {
  linear_setup_size name uuid table l d :
    (LinearDev_setup name uuid table l).1 = inr d → LinearDev_size d = table_length table;
  linear_set_table_size table d l :
    let '(r, (d', _)) := LinearDev_set_table table d l in
    match r with
    | inr _ => LinearDev_size d' = table_length table
    | inl _ => LinearDev_size d' = LinearDev_size d ∨ LinearDev_size d' = table_length table
    end;
  linear_resume_size d l : LinearDev_size ((LinearDev_resume d l).2.1) = LinearDev_size d;
  cache_setup_size name uuid meta cache origin block l d :
    (CacheDev_setup name uuid meta cache origin block l).1 = inr d → CacheDev_size d = LinearDev_size origin;
  cache_set_origin_size table d l :
    let '(r, (d', _)) := CacheDev_set_origin_table table d l in
    match r with
    | inr _ => CacheDev_size d' = table_length table
    | inl _ => CacheDev_size d' = CacheDev_size d ∨ CacheDev_size d' = table_length table
    end;
  cache_set_cache_size table d l : CacheDev_size ((CacheDev_set_cache_table table d l).2.1) = CacheDev_size d;
  cache_set_meta_size table d l : CacheDev_size ((CacheDev_set_meta_table table d l).2.1) = CacheDev_size d;
  cache_resume_size d l : CacheDev_size ((CacheDev_resume d l).2.1) = CacheDev_size d;
  (* a thin device keeps the identifier it was made with; identifiers have 24 bits *)
  thin_new_id name uuid length pool id l d :
    (ThinDev_new name uuid length pool id l).1 = inr d → ThinDev_id d = id;
  thin_snapshot_id origin name uuid pool id l d :
    (ThinDev_snapshot origin name uuid pool id l).1 = inr d → ThinDev_id d = id;
  thin_set_length_id n d l : ThinDev_id ((ThinDev_set_table_length n d l).2.1) = ThinDev_id d;
  thin_destroy_id pool d l : ThinDev_id ((ThinDev_destroy pool d l).2.1) = ThinDev_id d;
  thin_id_value v id : ThinDevId_new_u64 v = inr id → id = v;
  thin_id_bound v id : ThinDevId_new_u64 v = inr id → v < 2 ^ 24
}.

(** ** An instance for examples

    Devices are their names and tables; a call fails when the next entry of the script says so. *)
Record LinearModel : Type := mkLinear { lm_name : Str; lm_table : list LinearLine }.
Record ThinPoolModel : Type := mkThinPool { tm_meta : LinearModel; tm_data : LinearModel; tm_block : Z }.
Record ThinModel : Type := mkThin { th_name : Str; th_id : Z; th_length : Z }.

#[local] Existing Instance script_crypt.

Definition scripted {A} (a : A) (l : list bool) : (StratisError + A) * list bool :=
  match l with true :: l' => (inl (Msg "devicemapper"), l') | _ => (inr a, tail l) end.
Definition scripted_mut {D} (f : D → D) (d : D) (l : list bool) : (StratisError + unit) * (D * list bool) :=
  match l with true :: l' => (inl (Msg "devicemapper"), (d, l')) | _ => (inr tt, (f d, tail l)) end.

Definition lm_set_table (t : list LinearLine) (d : LinearModel) : LinearModel := mkLinear (lm_name d) t.

Definition script_dm : @Devicemapper script_crypt := {|
  LinearDev := LinearModel; CacheDev := list LinearLine; ThinPoolDev := ThinPoolModel; ThinDev := ThinModel;
  LinearDev_setup name _ table := scripted (mkLinear name table);
  LinearDev_table := lm_table;
  LinearDev_size d := table_length (lm_table d);
  LinearDev_device _ := 64768;
  LinearDev_devnode d := str "/dev/dm/" ++ lm_name d;
  LinearDev_name := lm_name;
  LinearDev_set_table table := scripted_mut (lm_set_table table);
  LinearDev_set_name name := scripted_mut (λ d, mkLinear name (lm_table d));
  LinearDev_suspend := scripted_mut id;
  LinearDev_resume := scripted_mut id;
  LinearDev_teardown := scripted_mut id;
  CacheDev_setup _ _ _ _ origin _ := scripted (lm_table origin);
  CacheDev_size := table_length;
  CacheDev_device _ := 64769;
  CacheDev_set_origin_table table := scripted_mut (λ _, table);
  CacheDev_set_cache_table _ := scripted_mut id;
  CacheDev_set_meta_table _ := scripted_mut id;
  CacheDev_resume := scripted_mut id;
  CacheDev_teardown := scripted_mut id;
  ThinPoolDev_new _ _ meta data block _ := scripted (mkThinPool meta data block);
  ThinPoolDev_setup _ _ meta data block _ := scripted (mkThinPool meta data block);
  ThinPoolDev_meta_dev := tm_meta;
  ThinPoolDev_data_dev := tm_data;
  ThinPoolDev_data_block_size := tm_block;
  ThinPoolDev_status d := scripted (Working (mkUsage 0 (table_length (lm_table (tm_meta d)) / 8) 0
                                               (table_length (lm_table (tm_data d)) / 2048)) SGood);
  ThinPoolDev_set_low_water_mark _ := scripted_mut id;
  ThinPoolDev_set_meta_table t := scripted_mut (λ d, mkThinPool (lm_set_table t (tm_meta d)) (tm_data d) (tm_block d));
  ThinPoolDev_set_data_table t := scripted_mut (λ d, mkThinPool (tm_meta d) (lm_set_table t (tm_data d)) (tm_block d));
  ThinPoolDev_suspend := scripted_mut id;
  ThinPoolDev_resume := scripted_mut id;
  ThinPoolDev_teardown := scripted_mut id;
  ThinDev_new name _ length _ id := scripted (mkThin name id length);
  ThinDev_setup name _ length _ id := scripted (mkThin name id length);
  ThinDev_snapshot d name _ _ id := scripted (mkThin name id (th_length d));
  ThinDev_id := th_id;
  ThinDev_size := th_length;
  ThinDev_device d := th_id d;
  ThinDev_devnode d := str "/dev/dm/" ++ th_name d;
  ThinDev_status _ := scripted (ThinWorking 0);
  ThinDev_set_table_length n := scripted_mut (λ d, mkThin (th_name d) (th_id d) n);
  ThinDev_suspend _ := scripted_mut id;
  ThinDev_resume := scripted_mut id;
  ThinDev_teardown := scripted_mut id;
  ThinDev_destroy _ := scripted_mut id;
  device_exists _ := scripted false;
  list_devices := scripted [];
  create_fs _ _ _ := scripted tt;
  set_uuid _ _ := scripted tt;
  xfs_growfs _ := scripted tt;
  thin_check _ := scripted tt;
  thin_repair _ _ := scripted tt;
  udev_settle := scripted tt;
  udev_change_event _ _ _ _ := scripted tt;
  mountinfo := scripted [];
  statvfs _ := scripted (512, 0, 0);
  mount_snapshot _ := scripted tt;
  create_dir_all _ := scripted true;
  mount_xfs _ _ := scripted true;
  umount _ := scripted tt;
  remove_dir _ := scripted tt;
  ThinDevId_new_u64 v := if v <? 2 ^ 24 then inr v else inl (Msg "thin id") |}.

Lemma script_dm_laws : @DmLaws script_crypt script_dm.
Proof.
  split; cbn; intros; unfold scripted, scripted_mut in *; repeat case_match; simplify_eq/=; try done; try (by left); lia.
Qed.
