(* ===== verification/Mdv.v ===== *)
(** * The metadata volume

    Models [src/engine/strat_engine/thinpool/mdv.rs]: the small filesystem on which a pool keeps
    one JSON file per filesystem, [FilesystemSave] of [serde_structs.rs] and the two functions of
    [thinpool/filesystem.rs] it needs.  [serde_json]'s encoding of a record is a parameter. *)
From stdpp Require Import base list gmap strings sorting.
From Stdlib Require Import ZArith Lia.
From S2P Require Import Prelude Disk Sizes External Json MDA Shared System Names Crypt BlockDev Devices BlockDevMgr Writing Dm.

Record FilesystemSave : Type := mkFsSave {
  fs_name : Str; fs_uuid : Z; thin_id : Z; fs_size : Z; fs_created : Z }.

(** [serde_json::to_string] and [serde_json::from_slice] at [FilesystemSave] *)
Class FsSerde : Type := {
  fs_to_string : FilesystemSave → list Z;
  fs_from_slice : list Z → option FilesystemSave;
  fs_roundtrip : ∀ r, fs_from_slice (fs_to_string r) = Some r
}.

(** ** Files of a directory *)
Module V.
Definition step {A} (m : gmap Str (list Z) → option nat → res A * gmap Str (list Z)) : st Vol A := λ v,
  let '(r, fs) := m (v_files v) (v_fault v (v_ops v)) in
  (r, mkVol fs (S (v_ops v)) (v_fault v)).

(** [OpenOptions::new().write(true).create(true).open(name)]: an existing file is not truncated *)
Definition open_create (name : Str) : st Vol unit := step (λ fs fault,
  match fault with
  | Some _ => (Err (Io "open"), fs)
  | None => (Ok tt, <[name := default [] (fs !! name)]> fs)
  end).

(** [write_all] from the start of the file; a failed write has written a prefix *)
Definition write_all (name : Str) (data : list Z) : st Vol unit := step (λ fs fault,
  let put d := <[name := d ++ drop (length d) (default [] (fs !! name))]> fs in
  match fault with
  | Some k => (Err (Io "write"), put (take k data))
  | None => (Ok tt, put data)
  end).

Definition sync_all : st Vol unit := step (λ fs fault,
  match fault with Some _ => (Err (Io "sync"), fs) | None => (Ok tt, fs) end).

Definition rename (from to : Str) : st Vol unit := step (λ fs fault,
  match fault, fs !! from with
  | None, Some d => (Ok tt, <[to := d]> (delete from fs))
  | None, None => (Err (Io "NotFound"), fs)
  | Some _, _ => (Err (Io "rename"), fs)
  end).

(** [remove_file]; [false] is the error [NotFound] *)
Definition remove_file (name : Str) : st Vol bool := step (λ fs fault,
  match fault, fs !! name with
  | None, Some _ => (Ok true, delete name fs)
  | None, None => (Ok false, fs)
  | Some _, _ => (Err (Io "remove"), fs)
  end).

(** [open] and [read_to_end] *)
Definition read (name : Str) : st Vol (list Z) := step (λ fs fault,
  match fault, fs !! name with
  | None, Some d => (Ok d, fs)
  | None, None => (Err (Io "NotFound"), fs)
  | Some _, _ => (Err (Io "read"), fs)
  end).

(** [read_dir]: the names, in the order of the directory *)
Definition read_dir : st Vol (list Str) := step (λ fs fault,
  match fault with Some _ => (Err (Io "read_dir"), fs) | None => (Ok ((map_to_list fs).*1), fs) end).
End V.

(** [Path::ends_with] compares whole components: of the files of a directory, only one named
    exactly [.temp] ends with [".temp"]. *)
Definition ends_with_temp (name : Str) : bool := bool_decide (name = str ".temp").

Definition RUN_DIR : Str := str "/run/stratisd".
Definition FILESYSTEM_DIR : Str := str "filesystems".

Section mdv.
Context `{Cryptsetup} `{!Devicemapper} `{UuidFormat} `{FsSerde}.

Record MetadataVol : Type := mkMdv { mdv_dev : LinearDev; mount_pt : Str }.

Definition filesystem_path (self : MetadataVol) : Str := mount_pt self ++ [SLASH] ++ FILESYSTEM_DIR.
Definition json_name (uuid : Z) : Str := uuid_simple uuid ++ str ".json".
Definition temp_name (uuid : Z) : Str := uuid_simple uuid ++ str ".temp".

(** [MountedMDV::mount] *)
Definition mount (self : MetadataVol) : sys unit :=
  let! _ := dm (create_dir_all (mount_pt self)) in
  let! _ := dm (mount_xfs (LinearDev_devnode (mdv_dev self)) (mount_pt self)) in
  iret tt.

(** [MountedMDV::drop]: errors are only logged *)
Definition unmount (self : MetadataVol) : sys unit :=
  let! r := itry (dm (umount (mount_pt self))) in
  match r with
  | inl _ => iret tt
  | inr _ => let! _ := itry (dm (remove_dir (mount_pt self))) in iret tt
  end.

(** [let _mount = MountedMDV::mount(self)?;] and the rest of the scope, at whose end the volume
    is unmounted *)
Definition with_mount {A} (self : MetadataVol) (body : sys A) : sys A :=
  mount self ;;!
  let! r := itry body in
  unmount self ;;! question r.

(** [create_dir(&filesystem_path)], where [AlreadyExists] is no error *)
Definition create_fs_dir (path : Str) : sys unit := λ s,
  match s_dirs s !! path with
  | Some _ => (Ok tt, s)
  | None => (Ok tt, set_dirs s (<[path := mkVol ∅ 0 (λ _, None)]> (s_dirs s)))
  end.

(** [remove_temp_files]: how many were found, and which could not be removed *)
Fixpoint remove_each (paths : list Str) : st Vol (Z * list Str) :=
  match paths with
  | [] => iret (0, [])
  | p :: rest =>
      let! r := itry (V.remove_file p) in
      let! '(found, failed) := remove_each rest in
      iret (found + 1, match r with inr true => failed | _ => p :: failed end)
  end.
Definition remove_temp_files : st Vol (Z * list Str) :=
  let! names := V.read_dir in
  remove_each (filter (λ n, ends_with_temp n = true) names).

Definition setup (pool_uuid : Z) (dev : LinearDev) : sys MetadataVol :=
  let filename := str ".mdv-" ++ uuid_simple pool_uuid in
  let mdv := mkMdv dev (RUN_DIR ++ [SLASH] ++ filename) in
  with_mount mdv
    (create_fs_dir (filesystem_path mdv) ;;!
     let! _ := with_dir (filesystem_path mdv) remove_temp_files in
     iret tt) ;;!
  iret mdv.

Definition initialize (pool_uuid : Z) (dev : LinearDev) : sys MetadataVol :=
  dm (create_fs (LinearDev_devnode dev) (Some pool_uuid) true) ;;!
  setup pool_uuid dev.

(** [save_fs], on the record of the filesystem *)
Definition save_files (record : FilesystemSave) : st Vol unit :=
  let data := fs_to_string record in
  V.open_create (temp_name (fs_uuid record)) ;;!
  V.write_all (temp_name (fs_uuid record)) data ;;!
  V.sync_all ;;!
  V.rename (temp_name (fs_uuid record)) (json_name (fs_uuid record)).
Definition save_fs (self : MetadataVol) (record : FilesystemSave) : sys unit :=
  with_mount self (with_dir (filesystem_path self) (save_files record)).

Definition rm_files (uuid : Z) : st Vol unit :=
  let! _ := V.remove_file (json_name uuid) in iret tt.
Definition rm_fs (self : MetadataVol) (uuid : Z) : sys unit :=
  with_mount self (with_dir (filesystem_path self) (rm_files uuid)).

Fixpoint read_each (names : list Str) : st Vol (list FilesystemSave) :=
  match names with
  | [] => iret []
  | n :: rest =>
      if ends_with_temp n then read_each rest
      else
        let! data := V.read n in
        match fs_from_slice data with
        | None => ierr (Msg "serde")
        | Some r => let! l := read_each rest in iret (r :: l)
        end
  end.
Definition read_files : st Vol (list FilesystemSave) :=
  let! names := V.read_dir in read_each names.
Definition filesystems (self : MetadataVol) : sys (list FilesystemSave) :=
  with_mount self (with_dir (filesystem_path self) read_files).

(** [teardown], [suspend], [resume], [set_table] *)
Definition set_dev (d : LinearDev) (self : MetadataVol) : MetadataVol := mkMdv d (mount_pt self).
Definition on_dev {A} (m : mutM LinearDev A) : obj MetadataVol A := focus mdv_dev set_dev (dm_mut m).
Definition mdv_teardown : obj MetadataVol unit := on_dev LinearDev_teardown.
Definition mdv_suspend : obj MetadataVol unit := on_dev LinearDev_suspend.
Definition mdv_resume : obj MetadataVol unit := on_dev LinearDev_resume.
Definition mdv_set_table (table : list LinearLine) : obj MetadataVol unit := on_dev (LinearDev_set_table table).
End mdv.

(** ** The files of the volume as a map from UUIDs to records *)

Section spec.
Context `{UuidFormat} `{FsSerde}.

(** The directory holds exactly the records of [m], each under the name of its UUID. *)
Definition mdv_files (m : gmap Z FilesystemSave) (fs : gmap Str (list Z)) : Prop :=
  ∀ name d, fs !! name = Some d ↔
    ∃ u r, m !! u = Some r ∧ name = json_name u ∧ d = fs_to_string r.

Definition mdv_keys (m : gmap Z FilesystemSave) : Prop :=
  ∀ u r, m !! u = Some r → fs_uuid r = u ∧ is_uuid u.

Definition healthy (v : Vol) : Prop := ∀ n, v_fault v n = None.

Lemma json_name_inj u v : is_uuid u → is_uuid v → json_name u = json_name v → u = v.
Proof. unfold json_name. intros Hu Hv E%app_inv_tail. by apply uuid_simple_inj. Qed.

Lemma json_not_temp u v : json_name u ≠ temp_name v.
Proof.
  unfold json_name, temp_name. intros E.
  apply app_inj_2 in E as [_ E]; [|done]. vm_compute in E. done.
Qed.

Lemma json_kept u : ends_with_temp (json_name u) = false.
Proof.
  unfold ends_with_temp. apply bool_decide_eq_false_2. intros E. apply (f_equal length) in E.
  unfold json_name in E. rewrite length_app, uuid_simple_length in E. vm_compute in E. lia.
Qed.

(** [save_fs] on a healthy volume *)
Lemma save_files_ok m r v : healthy v → mdv_files m (v_files v) → mdv_keys m → is_uuid (fs_uuid r) →
  ∃ v', save_files r v = (Ok tt, v') ∧ v_fault v' = v_fault v ∧
        mdv_files (<[fs_uuid r := r]> m) (v_files v').
Proof.
  intros Hh Hm Hk Hu.
  assert (v_files v !! temp_name (fs_uuid r) = None) as Hnone.
  { destruct (v_files v !! temp_name (fs_uuid r)) as [d|] eqn:E; [|done].
    apply Hm in E as (u & r' & _ & Hn & _). symmetry in Hn. by apply json_not_temp in Hn. }
  eexists. unfold save_files, ibind, V.open_create, V.write_all, V.sync_all, V.rename, V.step. cbn.
  do 4 (rewrite ?Hh; cbn; rewrite ?Hnone; cbn; rewrite ?lookup_insert_eq; cbn). rewrite drop_nil, app_nil_r.
  split; [reflexivity|]. cbn. split; [done|].
  rewrite insert_insert_eq, delete_insert_id by done.
  intros name d. rewrite lookup_insert_Some. split.
  - intros [[<- <-]|[Hne (u & r' & Hm' & -> & ->)%Hm]].
    + exists (fs_uuid r), r. by rewrite lookup_insert_eq.
    + exists u, r'. rewrite lookup_insert_ne by congruence. done.
  - intros (u & r' & Hl & -> & ->). apply lookup_insert_Some in Hl as [[<- <-]|[Hne Hl]]; [by left|].
    right. split; [intros E; apply Hne, json_name_inj; [done|by eapply Hk|done]|]. apply Hm. eauto.
Qed.

Lemma rm_files_ok m u v : healthy v → mdv_files m (v_files v) → mdv_keys m → is_uuid u →
  ∃ v', rm_files u v = (Ok tt, v') ∧ v_fault v' = v_fault v ∧ mdv_files (delete u m) (v_files v').
Proof.
  intros Hh Hm Hk Hu. unfold rm_files, ibind, V.remove_file, V.step. rewrite Hh.
  destruct (v_files v !! json_name u) as [d|] eqn:E; eexists; (split; [reflexivity|]); (split; [done|]); cbn;
    intros name d'.
  - rewrite lookup_delete_Some, (Hm name d'). split.
    + intros [Hne (u' & r & Hl & -> & ->)]. exists u', r. rewrite lookup_delete_ne by congruence. done.
    + intros (u' & r & [Hne Hl]%lookup_delete_Some & -> & ->).
      split; [intros Ej; apply Hne, json_name_inj; [done|by eapply Hk|done]|]. eauto.
  - rewrite (Hm name d'). split.
    + intros (u' & r & Hl & -> & ->). exists u', r. split; [|done]. apply lookup_delete_Some. split; [|done].
      intros ->. assert (v_files v !! json_name u' = Some (fs_to_string r)) by (apply Hm; eauto). congruence.
    + intros (u' & r & [Hne Hl]%lookup_delete_Some & -> & ->). eauto.
Qed.

Lemma read_each_ok m v names : healthy v → mdv_files m (v_files v) →
  (∀ n, n ∈ names → is_Some (v_files v !! n)) →
  ∃ l v', read_each names v = (Ok l, v') ∧ v_files v' = v_files v ∧ v_fault v' = v_fault v ∧
    Forall2 (λ n r, ∃ u, m !! u = Some r ∧ n = json_name u) names l.
Proof.
  intros Hh Hm. revert v Hh Hm. induction names as [|n names IH]; intros v Hh Hm Hin; [by eexists [], v|].
  destruct (Hin n ltac:(left)) as [d Hd]. pose proof Hd as (u & r & Hu & -> & ->)%Hm.
  cbn [read_each]. rewrite json_kept. unfold ibind at 1, V.read, V.step. rewrite Hh, Hd, fs_roundtrip.
  destruct (IH (mkVol (v_files v) (S (v_ops v)) (v_fault v))) as (l & v' & E & Hf & Hft & HF);
    [done|done|intros; apply Hin; by right|].
  exists (r :: l), v'. unfold ibind. rewrite E. split_and!; [done|done|done|].
  constructor; [by exists u|done].
Qed.

(** [filesystems] on a healthy volume returns the records of the map, each once. *)
Lemma read_files_ok m v : healthy v → mdv_files m (v_files v) → mdv_keys m →
  ∃ l v', read_files v = (Ok l, v') ∧ v_files v' = v_files v ∧ v_fault v' = v_fault v ∧
    l ≡ₚ (map_to_list m).*2.
Proof.
  intros Hh Hm Hk. unfold read_files, ibind at 1, V.read_dir, V.step. rewrite Hh.
  set (v1 := mkVol _ _ _).
  destruct (read_each_ok m v1 ((map_to_list (v_files v)).*1)) as (l & v' & E & Hf & Hft & HF); [done|done| |].
  { intros n ([n' d] & -> & Hin)%list_elem_of_fmap. apply elem_of_map_to_list in Hin. by exists d. }
  exists l, v'. split_and!; [done|done|done|].
  apply NoDup_Permutation.
  - apply NoDup_alt. intros i j r Hi Hj.
    destruct (Forall2_lookup_r _ _ _ _ _ HF Hi) as (n1 & Hn1 & u1 & Hu1 & ->).
    destruct (Forall2_lookup_r _ _ _ _ _ HF Hj) as (n2 & Hn2 & u2 & Hu2 & ->).
    assert (u1 = u2) as -> by (destruct (Hk _ _ Hu1) as [<- _], (Hk _ _ Hu2) as [<- _]; done).
    by eapply (NoDup_lookup _ _ _ _ (NoDup_fst_map_to_list (v_files v))).
  - apply NoDup_alt. intros i j r Hi Hj. rewrite list_lookup_fmap in Hi, Hj.
    apply fmap_Some in Hi as ([u1 r1] & Hi & ->), Hj as ([u2 r2] & Hj & Er). cbn in Er. subst r2.
    assert (m !! u1 = Some r1) as Hu1 by (by apply elem_of_map_to_list, list_elem_of_lookup_2 with i).
    assert (m !! u2 = Some r1) as Hu2 by (by apply elem_of_map_to_list, list_elem_of_lookup_2 with j).
    assert (u1 = u2) as -> by (destruct (Hk _ _ Hu1) as [<- _], (Hk _ _ Hu2) as [<- _]; done).
    by eapply (NoDup_lookup _ _ _ _ (NoDup_map_to_list m)).
  - intros r. split.
    + intros (i & Hi)%list_elem_of_lookup. destruct (Forall2_lookup_r _ _ _ _ _ HF Hi) as (n & _ & u & Hu & _).
      apply list_elem_of_fmap. exists (u, r). split; [done|]. by apply elem_of_map_to_list.
    + intros ([u r'] & -> & Hin)%list_elem_of_fmap. apply elem_of_map_to_list in Hin. cbn.
      assert (v_files v !! json_name u = Some (fs_to_string r')) as Hj by (apply Hm; eauto).
      apply elem_of_map_to_list in Hj.
      apply (list_elem_of_fmap_2 fst) in Hj. cbn in Hj. apply list_elem_of_lookup in Hj as (i & Hi).
      destruct (Forall2_lookup_l _ _ _ _ _ HF Hi) as (r2 & Hr2 & u2 & Hu2 & En).
      apply json_name_inj in En; [|by eapply Hk..]. subst u2. assert (r2 = r') as -> by congruence.
      by eapply list_elem_of_lookup_2.
Qed.
End spec.

(** ** The volume as a store *)

Section store.
Context `{Cryptsetup} `{!Devicemapper} `{UuidFormat} `{FsSerde}.
Implicit Types (self : MetadataVol) (s : Sys).

Lemma dm_dirs {A} (m : dmM A) s : s_dirs (dm m s).2 = s_dirs s ∧ ∀ w, (dm m s).1 ≠ Panic w.
Proof. unfold dm. destruct (m (s_luks s)) as [[e|a] l]; done. Qed.

Lemma mount_dirs self s : s_dirs (mount self s).2 = s_dirs s ∧ ∀ w, (mount self s).1 ≠ Panic w.
Proof.
  unfold mount, ibind.
  pose proof (dm_dirs (create_dir_all (mount_pt self)) s) as [H1' H1p].
  destruct (dm (create_dir_all (mount_pt self)) s) as [[a|e|w] s1]; [|done|by destruct (H1p w)].
  pose proof (dm_dirs (mount_xfs (LinearDev_devnode (mdv_dev self)) (mount_pt self)) s1) as [H2' H2p].
  destruct (dm (mount_xfs _ _) s1) as [[a'|e|w] s2]; cbn in *; [|split; [congruence|done]|by destruct (H2p w)].
  split; [congruence|done].
Qed.

Lemma unmount_dirs self s : ∃ s', unmount self s = (Ok tt, s') ∧ s_dirs s' = s_dirs s.
Proof.
  unfold unmount, itry, ibind.
  pose proof (dm_dirs (umount (mount_pt self)) s) as [H1' H1p].
  destruct (dm (umount (mount_pt self)) s) as [[a|e|w] s1]; [|by exists s1|by destruct (H1p w)].
  pose proof (dm_dirs (remove_dir (mount_pt self)) s1) as [H2' H2p].
  destruct (dm (remove_dir (mount_pt self)) s1) as [[a'|e|w] s2]; cbn in *;
    [exists s2; split; [done|congruence]|exists s2; split; [done|congruence]|by destruct (H2p w)].
Qed.

(** Either mounting fails and nothing is done, or the outcome is that of the body. *)
Lemma with_mount_run {A} self (body : sys A) s :
  (∃ e, (mount self s).1 = Err e ∧ (with_mount self body s).1 = Err e ∧
        s_dirs (with_mount self body s).2 = s_dirs s) ∨
  (∃ s1, (mount self s).1 = Ok tt ∧ s_dirs s1 = s_dirs s ∧ (with_mount self body s).1 = (body s1).1 ∧
         s_dirs (with_mount self body s).2 = s_dirs (body s1).2).
Proof.
  unfold with_mount, ibind, itry. destruct (mount_dirs self s) as [Hd Hp].
  destruct (mount self s) as [[[]|e|w] s1]; [right|left; by exists e|by destruct (Hp w)].
  exists s1. split; [done|]. split; [done|].
  destruct (body s1) as [[a|e|w] s2]; [..|done];
    destruct (unmount_dirs self s2) as (s3 & -> & Hd3); cbn; by split.
Qed.

Inductive MdvOp : Type := SaveFs (record : FilesystemSave) | RemoveFs (uuid : Z).
Definition run_mdv_op self (op : MdvOp) : sys unit :=
  match op with SaveFs r => save_fs self r | RemoveFs u => rm_fs self u end.
Definition mdv_op_uuid (op : MdvOp) : Z := match op with SaveFs r => fs_uuid r | RemoveFs u => u end.

(** the specification: a map from UUIDs to records *)
Definition apply_mdv_op (op : MdvOp) (m : gmap Z FilesystemSave) : gmap Z FilesystemSave :=
  match op with SaveFs r => <[fs_uuid r := r]> m | RemoveFs u => delete u m end.

(** operations in sequence, the map following those that succeed *)
Fixpoint mdv_run self (ops : list MdvOp) (m : gmap Z FilesystemSave) (s : Sys) : gmap Z FilesystemSave * Sys :=
  match ops with
  | [] => (m, s)
  | op :: rest =>
      let '(r, s') := run_mdv_op self op s in
      mdv_run self rest (match r with Ok _ => apply_mdv_op op m | _ => m end) s'
  end.

(** the directory of the volume is healthy and holds the records of [m] *)
Definition mdv_holds self (m : gmap Z FilesystemSave) s : Prop :=
  ∃ v, s_dirs s !! filesystem_path self = Some v ∧ healthy v ∧ mdv_files m (v_files v) ∧ mdv_keys m.

Lemma mdv_op_holds self op m s : mdv_holds self m s → is_uuid (mdv_op_uuid op) →
  let '(r, s') := run_mdv_op self op s in
  mdv_holds self (match r with Ok _ => apply_mdv_op op m | _ => m end) s'.
Proof.
  intros (v & Hv & Hh & Hm & Hk) Hu.
  assert (∀ (body : st Vol unit) m', (∃ v', body v = (Ok tt, v') ∧ v_fault v' = v_fault v ∧ mdv_files m' (v_files v')) →
    mdv_keys m' → let '(r, s') := with_mount self (with_dir (filesystem_path self) body) s in
    mdv_holds self (match r with Ok _ => m' | _ => m end) s') as Hgen.
  { intros body m' (v' & E & Hft & Hm') Hk'.
    destruct (with_mount_run self (with_dir (filesystem_path self) body) s) as [(e & _ & Er & Ed)|(s1 & _ & Hs1 & Er & Ed)];
      destruct (with_mount self _ s) as [r s']; cbn in Er, Ed; subst r.
    - exists v. by rewrite Ed.
    - unfold with_dir in *. rewrite Hs1, Hv, E in *. cbn in Ed |- *. exists v'. rewrite Ed, lookup_insert_eq.
      split_and!; [done| |done|done]. intros n. rewrite Hft. apply Hh. }
  destruct op as [r|u]; cbn in Hu |- *.
  - apply Hgen; [by apply save_files_ok|]. intros u' r' [[<- <-]|[_ Hl]]%lookup_insert_Some; [done|by apply Hk].
  - apply Hgen; [by apply rm_files_ok|]. intros u' r' [_ Hl]%lookup_delete_Some. by apply Hk.
Qed.

Lemma mdv_run_holds self ops m s : mdv_holds self m s → Forall (λ op, is_uuid (mdv_op_uuid op)) ops →
  let '(m', s') := mdv_run self ops m s in mdv_holds self m' s'.
Proof.
  intros Hm Hops. revert m s Hm. induction Hops as [|op ops Hop _ IH]; intros m s Hm; [done|].
  cbn. pose proof (mdv_op_holds self op m s Hm Hop) as Hstep. destruct (run_mdv_op self op s) as [r s'].
  by apply IH.
Qed.

(** A failed save, whatever fails and whichever prefix of the data was written, changes no record:
    only the temporary file of the filesystem can be different. *)
Lemma save_files_failed r v e v' : save_files r v = (Err e, v') →
  ∀ name, name ≠ temp_name (fs_uuid r) → v_files v' !! name = v_files v !! name.
Proof.
  unfold save_files, ibind, V.open_create, V.write_all, V.sync_all, V.rename, V.step. intros E name Hne.
  destruct (v_fault v (v_ops v)); cbn in E; [by simplify_eq|].
  destruct (v_fault v (S (v_ops v))); cbn in E; [simplify_eq; cbn; by rewrite !lookup_insert_ne by done|].
  destruct (v_fault v (S (S (v_ops v)))); cbn in E; [simplify_eq; cbn; by rewrite !lookup_insert_ne by done|].
  rewrite lookup_insert_eq in E.
  destruct (v_fault v (S (S (S (v_ops v))))); cbn in E; [simplify_eq; cbn; by rewrite !lookup_insert_ne by done|].
  by rewrite lookup_insert_eq in E.
Qed.
End store.

(** C28: The metadata volume is a durable map from filesystem UUIDs to records: after any sequence of
    [save_fs] and [rm_fs] on a healthy volume, whichever of them failed because the volume could
    not be mounted, [filesystems] returns exactly the records of the operations that succeeded,
    each once, or fails to mount the volume. *)
Theorem mdv_refines_map `{Cryptsetup} `{!Devicemapper} `{UuidFormat} `{FsSerde} self ops m s :
  mdv_holds self m s → Forall (λ op, is_uuid (mdv_op_uuid op)) ops →
  let '(m', s') := mdv_run self ops m s in
  match (filesystems self s').1 with
  | Ok l => l ≡ₚ (map_to_list m').*2
  | Err e => (mount self s').1 = Err e
  | Panic _ => False
  end.
Proof.
  intros Hm Hops. pose proof (mdv_run_holds self ops m s Hm Hops) as Hr.
  destruct (mdv_run self ops m s) as [m' s']. destruct Hr as (v & Hv & Hh & Hmf & Hk).
  unfold filesystems.
  destruct (with_mount_run self (with_dir (filesystem_path self) read_files) s') as [(e & E & -> & _)|(s1 & _ & Hs1 & -> & _)];
    [done|].
  destruct (read_files_ok m' v Hh Hmf Hk) as (l & v' & E & _ & _ & Hl).
  unfold with_dir. rewrite Hs1, Hv, E. done.
Qed.

(** A failed [save_fs] loses nothing: whatever fails, a torn write included, every record that was
    on the volume is still there, unchanged. *)
Theorem mdv_failed_save `{Cryptsetup} `{!Devicemapper} `{UuidFormat} `{FsSerde} self r s e s' v :
  s_dirs s !! filesystem_path self = Some v → save_fs self r s = (Err e, s') →
  ∃ v', s_dirs s' !! filesystem_path self = Some v' ∧
        ∀ name, name ≠ temp_name (fs_uuid r) → v_files v' !! name = v_files v !! name.
Proof.
  intros Hv E. unfold save_fs in E.
  destruct (with_mount_run self (with_dir (filesystem_path self) (save_files r)) s) as [(e' & _ & _ & Ed)|(s1 & _ & Hs1 & Er & Ed)];
    rewrite E in *; cbn in *.
  - exists v. by rewrite Ed.
  - unfold with_dir in *. rewrite Hs1, Hv in *. destruct (save_files r v) as [r' v'] eqn:Es. cbn in *. subst r'.
    exists v'. rewrite Ed, lookup_insert_eq. split; [done|]. by eapply save_files_failed.
Qed.

(** ** Examples *)

Section examples.
#[local] Existing Instance hex_instance.
#[local] Existing Instance script_crypt.
#[local] Existing Instance script_dm.

(** an encoding for examples: the fields one after the other, the name last *)
Definition ex_serde : FsSerde.
Proof.
  refine {| fs_to_string r := [fs_uuid r; thin_id r; fs_size r; fs_created r] ++ fs_name r;
            fs_from_slice d := match d with u :: t :: z :: c :: n => Some (mkFsSave n u t z c) | _ => None end |}.
  by intros [].
Defined.
#[local] Existing Instance ex_serde.

Definition ex_fs (u : Z) : FilesystemSave := mkFsSave (str "fs") u 0 2048 5.
Definition ex_mdv : MetadataVol := mkMdv (mkLinear (str "mdv") []) (str "/run/stratisd/.mdv").
Definition ex_vol (fs : gmap Str (list Z)) (fault : nat → option nat) : Sys :=
  mkSys ∅ {[ filesystem_path ex_mdv := mkVol fs 0 fault ]} [] (λ n, Z.of_nat n) (λ n, mkTime (Z.of_nat n) 0) 0.

Lemma mdv_refines_map_witness :
  let '(m', s') := mdv_run ex_mdv [SaveFs (ex_fs 3); SaveFs (ex_fs 4); RemoveFs 3] ∅ (ex_vol ∅ (λ _, None)) in
  match (filesystems ex_mdv s').1 with
  | Ok l => l ≡ₚ (map_to_list m').*2
  | Err e => (mount ex_mdv s').1 = Err e
  | Panic _ => False
  end.
Proof.
  apply (mdv_refines_map ex_mdv [SaveFs (ex_fs 3); SaveFs (ex_fs 4); RemoveFs 3] ∅ (ex_vol ∅ (λ _, None))).
  - exists (mkVol ∅ 0 (λ _, None)). split; [apply lookup_singleton_eq|]. split; [done|]. split.
    + intros name d. cbn [v_files]. rewrite lookup_empty. split; [done|]. intros (u & r & Hl & _). by rewrite lookup_empty in Hl.
    + intros u r Hl. by rewrite lookup_empty in Hl.
  - repeat constructor; cbn; unfold is_uuid; lia.
Defined.

(** the write of the second record is torn after two bytes *)
Definition torn_sys : Sys := ex_vol ∅ (λ n, if decide (n = 1)%nat then Some 2%nat else None).

Lemma mdv_failed_save_witness :
  ∃ v', s_dirs (save_fs ex_mdv (ex_fs 4) torn_sys).2 !! filesystem_path ex_mdv = Some v' ∧
        ∀ name, name ≠ temp_name (fs_uuid (ex_fs 4)) → v_files v' !! name = (∅ : gmap Str (list Z)) !! name.
Proof.
  apply (mdv_failed_save ex_mdv (ex_fs 4) torn_sys (Io "write") (save_fs ex_mdv (ex_fs 4) torn_sys).2
           (mkVol ∅ 0 (λ n, if decide (n = 1)%nat then Some 2%nat else None))).
  - apply lookup_singleton_eq.
  - vm_compute. reflexivity.
Defined.

(** The temporary file left by an interrupted save is neither removed by the next set-up of the
    volume nor skipped by [filesystems], which fails on its incomplete contents: the test for
    temporary files compares whole path components. *)
Lemma temp_file_blocks_filesystems :
  let s := (save_fs ex_mdv (ex_fs 4) torn_sys).2 in
  (with_dir (filesystem_path ex_mdv) remove_temp_files s).1 = Ok (0, []) ∧
  (filesystems ex_mdv (with_dir (filesystem_path ex_mdv) remove_temp_files s).2).1 = Err (Msg "serde").
Proof. vm_compute. split; reflexivity. Qed.
End examples.
