(* ===== verification/Backstore.v ===== *)
(** * The backstore

    Models [src/engine/strat_engine/backstore/backstore.rs]: the data tier, an optional cache
    tier, and the devicemapper device (linear, or cache over linear) that presents them. *)
From stdpp Require Import base list gmap strings.
From Stdlib Require Import ZArith Lia.
From S2P Require Import Prelude Disk Sizes External Json StaticHeader MDA BDA Shared System Names Crypt BlockDev Devices BlockDevMgr Writing Dm Setup RangeAlloc Alloc Tiers.

Definition CACHE_BLOCK_SIZE : Z := 2048.

Record Backstore `{Devicemapper} : Type := mkBackstore {
  bs_cache : option CacheDev; bs_cache_tier : option CacheTier; bs_data_tier : DataTier;
  bs_linear : option LinearDev; bs_next : Z }.
Arguments mkBackstore {_ _} _ _ _ _ _.

(** [self.block_devs.iter_mut().find(|b| b.uuid() == uuid)] and a change of the device found *)
Fixpoint update_by_uuid {A} (uuid : Z) (f : StratBlockDev → A * StratBlockDev) (l : list StratBlockDev)
    : option A * list StratBlockDev :=
  match l with
  | [] => (None, [])
  | bd :: rest =>
      if SBD.uuid bd =? uuid then let '(a, bd') := f bd in (Some a, bd' :: rest)
      else let '(o, rest') := update_by_uuid uuid f rest in (o, bd :: rest')
  end.

Module BS.
Section with_dm.
Context `{Crc32c} `{Chrono} `{Cryptsetup} `{!Devicemapper} `{UuidDisplay} `{ClevisCodec} `{DmNames}.

Definition set_cache (c : option CacheDev) (self : Backstore) : Backstore :=
  mkBackstore c (bs_cache_tier self) (bs_data_tier self) (bs_linear self) (bs_next self).
Definition set_cache_tier (c : option CacheTier) (self : Backstore) : Backstore :=
  mkBackstore (bs_cache self) c (bs_data_tier self) (bs_linear self) (bs_next self).
Definition set_data_tier (d : DataTier) (self : Backstore) : Backstore :=
  mkBackstore (bs_cache self) (bs_cache_tier self) d (bs_linear self) (bs_next self).
Definition set_linear (d : option LinearDev) (self : Backstore) : Backstore :=
  mkBackstore (bs_cache self) (bs_cache_tier self) (bs_data_tier self) d (bs_next self).
Definition set_next (n : Z) (self : Backstore) : Backstore :=
  mkBackstore (bs_cache self) (bs_cache_tier self) (bs_data_tier self) (bs_linear self) n.

(** a method of the data tier, of its block device manager, of the cap device *)
Definition on_data {A} (m : obj DataTier A) : obj Backstore A := focus bs_data_tier set_data_tier m.
Definition on_data_mgr {A} (m : obj BlockDevMgr A) : obj Backstore A := on_data (DT.on_mgr m).
Definition on_cache {A} (cache : CacheDev) (m : obj CacheDev A) : obj Backstore A :=
  focus (λ _, cache) (λ c, set_cache (Some c)) m.
Definition on_linear {A} (linear : LinearDev) (m : obj LinearDev A) : obj Backstore A :=
  focus (λ _, linear) (λ l, set_linear (Some l)) m.

Definition make_cache (pool_uuid : Z) (cache_tier : CacheTier) (origin : LinearDev) (new : bool) : sys CacheDev :=
  let! '(dm_name, dm_uuid) := ilift (format_backstore_ids pool_uuid MetaSub) in
  let! meta := dm (LinearDev_setup dm_name dm_uuid (map_to_dm (meta_segments cache_tier))) in
  (if new then wipe_sectors (LinearDev_devnode meta) 0 (Z.min 8 (LinearDev_size meta)) else iret tt) ;;!
  let! '(dm_name, dm_uuid) := ilift (format_backstore_ids pool_uuid CacheSub) in
  let! cache := dm (LinearDev_setup dm_name dm_uuid (map_to_dm (cache_segments cache_tier))) in
  let! '(dm_name, dm_uuid) := ilift (format_backstore_ids pool_uuid RCache) in
  dm (CacheDev_setup dm_name dm_uuid meta cache origin CACHE_BLOCK_SIZE).

Definition setup (pool_uuid : Z) (backstore_save : BackstoreSave) (datadevs cachedevs : list StratBlockDev)
    (last_update_time : DateTime) : sys Backstore :=
  let block_mgr := BDM.new datadevs (Some last_update_time) in
  let! dt := ilift (DT.setup block_mgr (data_tier backstore_save)) in
  let! '(dm_name, dm_uuid) := ilift (format_backstore_ids pool_uuid OriginSub) in
  let! origin := dm (LinearDev_setup dm_name dm_uuid (map_to_dm (dt_segments dt))) in
  let! '(ct, cache, origin) :=
    match cachedevs with
    | [] => iret (None, None, Some origin)
    | _ =>
        let block_mgr := BDM.new cachedevs (Some last_update_time) in
        match cache_tier backstore_save with
        | Some cache_tier_save =>
            let! ct := ilift (CT.setup block_mgr cache_tier_save) in
            let! cache_device := make_cache pool_uuid ct origin false in
            iret (Some ct, Some cache_device, None)
        | None => ierr (Msg "Cachedevs exist, but cache metdata does not exist")
        end
    end in
  let! alloc := ilift (expect (cap_allocs (cap backstore_save) !! O) "index out of bounds") in
  iret (mkBackstore cache ct dt origin alloc.2).

Definition initialize (pool_uuid : Z) (paths : list Str) (mda_data_size : Z) (encryption_info : EncryptionInfo)
    : sys Backstore :=
  let! mgr := BDM.initialize pool_uuid paths mda_data_size encryption_info in
  iret (mkBackstore None None (DT.new mgr) None 0).

(** [self.linear.take().expect(..)]: the device leaves [self] before the cache is made *)
Definition take_linear : obj Backstore LinearDev :=
  let! self := get_self in
  modify_self (set_linear None) ;;!
  ilift (expect (bs_linear self) "some space has already been allocated from the backstore => (cache_tier.is_none() <=> self.linear.is_some())").

Definition init_cache (pool_uuid : Z) (paths : list Str) : obj Backstore (list Z) :=
  let! self := get_self in
  match bs_cache_tier self with
  | Some _ => ilift (Panic "self.cache.is_none()")
  | None =>
      match paths with
      | [] => ierr (Msg "Must initialize cache with at least one blockdev.")
      | _ =>
          let! bdm := lift_sys (BDM.initialize pool_uuid paths mda_size.MDADataSize_default EncryptionInfo_default) in
          let! cache_tier := lift_sys (CT.new bdm) in
          let! linear := take_linear in
          let! cache := lift_sys (make_cache pool_uuid cache_tier linear true) in
          modify_self (set_cache (Some cache)) ;;!
          let uuids := fst <$> BDM.blockdevs (ct_block_mgr cache_tier) in
          modify_self (set_cache_tier (Some cache_tier)) ;;!
          iret uuids
      end
  end.

Definition add_cachedevs (pool_uuid : Z) (paths : list Str) : obj Backstore (list Z) :=
  let! self := get_self in
  match bs_cache_tier self with
  | None => ilift (Panic "self.cache.is_some()")
  | Some cache_tier =>
      let! cache_device := ilift (expect (bs_cache self) "cache_tier.is_some() <=> self.cache.is_some()") in
      let! '(uuids, (cache_change, meta_change)) :=
        focus (λ _, cache_tier) (λ c, set_cache_tier (Some c)) (CT.add pool_uuid paths) in
      let! self := get_self in
      let ct := default cache_tier (bs_cache_tier self) in
      (if (cache_change : bool) then
         on_cache cache_device (dm_mut (CacheDev_set_cache_table (map_to_dm (cache_segments ct))) ;;!
                                dm_mut CacheDev_resume)
       else iret tt) ;;!
      let! self := get_self in
      (if (meta_change : bool) then
         on_cache (default cache_device (bs_cache self))
           (dm_mut (CacheDev_set_meta_table (map_to_dm (meta_segments ct))) ;;!
            dm_mut CacheDev_resume)
       else iret tt) ;;!
      iret uuids
  end.

Definition add_datadevs (pool_uuid : Z) (paths : list Str) : obj Backstore (list Z) :=
  on_data (DT.add pool_uuid paths).

Definition extend_cap_device (pool_uuid : Z) : obj Backstore unit :=
  let! self := get_self in
  let table := map_to_dm (dt_segments (bs_data_tier self)) in
  match bs_cache self, bs_linear self with
  | None, None =>
      let! '(dm_name, dm_uuid) := ilift (format_backstore_ids pool_uuid OriginSub) in
      let! origin := lift_sys (dm (LinearDev_setup dm_name dm_uuid table)) in
      modify_self (set_linear (Some origin))
  | Some cache, None =>
      on_cache cache (dm_mut (CacheDev_set_origin_table table) ;;! dm_mut CacheDev_resume)
  | None, Some linear =>
      on_linear linear (dm_mut (LinearDev_set_table table) ;;! dm_mut LinearDev_resume)
  | Some _, Some _ => ilift (Panic "NOT (self.cache().is_some() AND self.linear.is_some())")
  end.

Definition size (self : Backstore) : Z :=
  match bs_linear self with
  | Some d => LinearDev_size d
  | None => match bs_cache self with Some d => CacheDev_size d | None => 0 end
  end.

Definition available_in_cap (self : Backstore) : res Z :=
  let size := size self in
  if bs_next self <=? size then Ok (size -64 bs_next self)
  else Panic "next index is greater than the total size available".

(** [self.data_tier.alloc(..)] *)
Definition data_alloc (request : Z) : obj Backstore bool :=
  let! self := get_self in
  let! '(b, dt) := ilift (DT.alloc (bs_data_tier self) request) in
  modify_self (set_data_tier dt) ;;! iret b.

(** [for size in sizes { chunks.push((self.next, *size)); self.next += *size; }] *)
Fixpoint chunks_from (next : Z) (sizes : list Z) : list (Z * Z) * Z :=
  match sizes with
  | [] => ([], next)
  | size :: rest => let '(l, next') := chunks_from (next +64 size) rest in ((next, size) :: l, next')
  end.

Definition alloc (pool_uuid : Z) (sizes : list Z) : obj Backstore (option (list (Z * Z))) :=
  let! self := get_self in
  let total_required := sum64 sizes in
  let! available := ilift (available_in_cap self) in
  let! room :=
    (if available <? total_required then
       let! b := data_alloc (total_required -64 available) in
       if (b : bool) then extend_cap_device pool_uuid ;;! iret true else iret false
     else iret true) in
  if negb room then iret None
  else
    let! self := get_self in
    let '(chunks, next) := chunks_from (bs_next self) sizes in
    modify_self (set_next next) ;;!
    if bool_decide (sizes = snd <$> chunks) then iret (Some chunks)
    else ilift (Panic "assertion failed: sizes == chunks").

(** the [while] loop of [request]; [None] when [fuel] does not last *)
Fixpoint request_loop (fuel : nat) (available modulus : Z) (allocated : bool) (internal_request : Z)
    (dt : DataTier) : option (res (bool * DataTier)) :=
  if allocated || (internal_request =? 0) then Some (Ok (allocated, dt))
  else
    match fuel with
    | O => None
    | S fuel =>
        match DT.alloc dt (internal_request -64 available) with
        | Ok (b, dt') =>
            let temp := internal_request / 2 in
            request_loop fuel available modulus b (temp / modulus * modulus) dt'
        | Err e => Some (Err e)
        | Panic w => Some (Panic w)
        end
    end.

(** each round halves a 64-bit number *)
Definition REQUEST_FUEL : nat := 64.

Definition request (pool_uuid request modulus : Z) : obj Backstore (option (Z * Z)) :=
  if modulus =? 0 then ilift (Panic "assertion failed: modulus != Sectors(0)")
  else
    let internal_request := request / modulus * modulus in
    if internal_request =? 0 then iret None
    else
      let! self := get_self in
      let! available := ilift (available_in_cap self) in
      if available <? internal_request then
        let! '(allocated, dt) :=
          ilift (default (Panic "the loop does not end")
                   (request_loop REQUEST_FUEL available modulus false internal_request (bs_data_tier self))) in
        modify_self (set_data_tier dt) ;;!
        if (allocated : bool) then
          extend_cap_device pool_uuid ;;!
          let! self := get_self in
          let! available := ilift (available_in_cap self) in
          let return_amt := Z.min request available in
          let return_amt := return_amt / modulus * modulus in
          let next := bs_next self +64 return_amt in
          modify_self (set_next next) ;;!
          iret (Some (next -64 return_amt, return_amt))
        else iret None
      else
        let next := bs_next self +64 internal_request in
        modify_self (set_next next) ;;!
        iret (Some (next -64 internal_request, internal_request)).

Definition datadevs (self : Backstore) : list (Z * StratBlockDev) := DT.blockdevs (bs_data_tier self).
Definition cachedevs (self : Backstore) : list (Z * StratBlockDev) :=
  match bs_cache_tier self with Some cache => CT.blockdevs cache | None => [] end.
Definition blockdevs (self : Backstore) : list (Z * BlockDevTier * StratBlockDev) :=
  ((λ '(uuid, dev), (uuid, Data, dev)) <$> datadevs self) ++
  ((λ '(uuid, dev), (uuid, Cache, dev)) <$> cachedevs self).

Definition datatier_size (self : Backstore) : res Z := DT.size (bs_data_tier self).
Definition datatier_usable_size (self : Backstore) : res Z := DT.usable_size (bs_data_tier self).
Definition datatier_metadata_size (self : Backstore) : Z := DT.metadata_size (bs_data_tier self).
Definition available_in_backstore (self : Backstore) : res Z :=
  let? usable := DT.usable_size (bs_data_tier self) in Ok (usable -64 bs_next self).

Definition destroy : obj Backstore unit :=
  let! self := get_self in
  match bs_cache self with
  | Some cache =>
      on_cache cache (dm_mut CacheDev_teardown) ;;!
      let! cache_tier := ilift (expect (bs_cache_tier self) "if dm_device is cache, cache tier exists") in
      lift_sys (CT.destroy cache_tier)
  | None =>
      match bs_linear self with
      | Some linear => on_linear linear (dm_mut LinearDev_teardown)
      | None => iret tt
      end
  end ;;!
  lift_sys (DT.destroy (bs_data_tier self)).

Definition device (self : Backstore) : option Z :=
  match bs_cache self with
  | Some d => Some (CacheDev_device d)
  | None => LinearDev_device <$> bs_linear self
  end.

Definition get_blockdev_by_uuid (self : Backstore) (uuid : Z) : option (BlockDevTier * StratBlockDev) :=
  match DT.get_blockdev_by_uuid (bs_data_tier self) uuid with
  | Some p => Some p
  | None => bs_cache_tier self ≫= λ c, CT.get_blockdev_by_uuid c uuid
  end.

Definition save_state (choose : nat → nat → list nat) (metadata : list Z) : obj Backstore unit :=
  on_data (DT.save_state choose metadata).

Definition set_blockdev_user_info (self : Backstore) (uuid : Z) (user_info : option Str)
    : res (option Z) * Backstore :=
  let f := λ b, SBD.set_user_info b user_info in
  let report := λ changed : bool, Ok (if changed then Some uuid else None) in
  let dt := bs_data_tier self in
  match update_by_uuid uuid f (block_devs (dt_block_mgr dt)) with
  | (Some changed, l) =>
      (report changed, set_data_tier (mkDataTier (with_devs (dt_block_mgr dt) l) (dt_segments dt)) self)
  | (None, _) =>
      match bs_cache_tier self with
      | Some c =>
          match update_by_uuid uuid f (block_devs (ct_block_mgr c)) with
          | (Some changed, l) =>
              (report changed, set_cache_tier (Some (mkCacheTier (with_devs (ct_block_mgr c) l)
                                                       (cache_segments c) (meta_segments c))) self)
          | (None, _) => (Err (Msg "Blockdev with a UUID was not found"), self)
          end
      | None => (Err (Msg "Blockdev with a UUID was not found"), self)
      end
  end.

Definition data_tier_is_encrypted (self : Backstore) : res bool :=
  BDM.is_encrypted (dt_block_mgr (bs_data_tier self)).
Definition data_tier_encryption_info (self : Backstore) : res EncryptionInfo :=
  BDM.encryption_info (dt_block_mgr (bs_data_tier self)).
Definition has_cache (self : Backstore) : bool := is_some (bs_cache_tier self).

Definition bind_clevis (pin : Str) (clevis_info : Value) : obj Backstore bool :=
  on_data_mgr (BDM.bind_clevis pin clevis_info).
Definition unbind_clevis : obj Backstore bool := on_data_mgr BDM.unbind_clevis.
Definition bind_keyring (key_desc : KeyDescription) : obj Backstore bool :=
  on_data_mgr (BDM.bind_keyring key_desc).
Definition unbind_keyring : obj Backstore bool := on_data_mgr BDM.unbind_keyring.
Definition rebind_keyring (key_desc : KeyDescription) : obj Backstore (option bool) :=
  on_data_mgr (BDM.rebind_keyring key_desc).
Definition rebind_clevis : obj Backstore unit := on_data_mgr BDM.rebind_clevis.

Definition record (self : Backstore) : BackstoreSave :=
  mkBackstoreSave (DT.record (bs_data_tier self)) (mkCapSave [(0, bs_next self)])
    (CT.record <$> bs_cache_tier self).
End with_dm.
End BS.
