(* ===== verification/BackstoreSpec.v ===== *)
(** * What the backstore guarantees

    The invariant of a backstore, and the contracts of [alloc] and [request] of
    [src/engine/strat_engine/backstore/backstore.rs]. *)
From stdpp Require Import base list gmap strings.
From Stdlib Require Import ZArith Lia.
From S2P Require Import Prelude Disk Sizes External Json StaticHeader MDA BDA Shared System Names Crypt BlockDev Devices BlockDevMgr Writing Dm Setup RangeAlloc Alloc Tiers Backstore.

Section backstore.
Context `{Crc32c} `{Chrono} `{Cryptsetup} `{!Devicemapper} `{!DmLaws} `{UuidDisplay} `{ClevisCodec} `{DmNames}.
Implicit Types (self : Backstore) (s : Sys).

Definition bs_devs self : list StratBlockDev := block_devs (dt_block_mgr (bs_data_tier self)).
Definition bs_segs self : list BlkDevSegment := dt_segments (bs_data_tier self).

(** at most one cap device, and a cache device exactly with a cache tier *)
Definition cap_ok self : Prop :=
  match bs_cache self, bs_linear self with
  | Some _, Some _ => False
  | Some _, None => is_Some (bs_cache_tier self)
  | None, _ => bs_cache_tier self = None
  end.

(** [next <= size] is what [available_in_cap] asserts; the cap device never exceeds what the
    data tier has allocated *)
Record bs_ok self : Prop := {
  b_tier : tier_ok (bs_devs self) (bs_segs self);
  b_cap : cap_ok self;
  b_next : 0 ≤ bs_next self ≤ BS.size self;
  b_size : BS.size self ≤ seg_total (bs_segs self) }.

(** sectors of the cap device not given out yet, and what the data tier could add to them *)
Definition in_cap self : Z := BS.size self - bs_next self.
Definition in_reserve self : Z := free_total (bs_devs self).
(** all sectors the data tier can ever give to the cap device *)
Definition usable self : Z := in_reserve self + seg_total (bs_segs self).

(** [bs_le self self']: [self'] is in order and has the same space in total, of which no less has
    been given out *)
Definition bs_le self self' : Prop :=
  bs_ok self' ∧ usable self' = usable self ∧ bs_next self ≤ bs_next self'.

Lemma bs_le_refl self : bs_ok self → bs_le self self.
Proof. intros Hok. split; [done|]. split; [done|lia]. Qed.
Lemma bs_le_trans self1 self2 self3 : bs_le self1 self2 → bs_le self2 self3 → bs_le self1 self3.
Proof. intros (? & ? & ?) (? & ? & ?). split; [done|]. split; [congruence|lia]. Qed.

Lemma map_to_dm_lengths off l :
  line_length <$> map_to_dm_from off l = length_ <$> l.
Proof. revert off. induction l as [|x l IH]; intros off; [done|]. cbn. by rewrite IH. Qed.

Lemma table_length_map segs : 0 ≤ seg_total segs ≤ u64_max → table_length (map_to_dm segs) = seg_total segs.
Proof.
  intros Ht. unfold table_length, map_to_dm. rewrite map_to_dm_lengths.
  assert (length_ <$> (segment <$> segs) = (λ x, length_ (segment x)) <$> segs) as -> by (by rewrite <- list_fmap_compose).
  by apply sum64_exact.
Qed.

Lemma seg_total_u64 self : bs_ok self → 0 ≤ seg_total (bs_segs self) ≤ u64_max.
Proof. intros [Ht _ _ _]. pose proof (t_total _ _ Ht). pose proof (tier_bounds _ _ Ht). lia. Qed.

Lemma backstore_ids pool role : format_backstore_ids pool role = Ok (name_text (DBackstore pool role), name_text (DBackstore pool role)).
Proof.
  unfold format_backstore_ids. rewrite dm_ids_ok; [done|..].
  - done.
  - apply (name_text_ascii (DBackstore pool role)).
  - apply (name_text_length (DBackstore pool role)).
Qed.

(** the new size of a device after a reload and a resume *)
Lemma cache_reload table c s :
  let '(r, (c', _)) := (dm_mut (CacheDev_set_origin_table table) ;;! dm_mut CacheDev_resume) (c, s) in
  match r with
  | Ok _ => CacheDev_size c' = table_length table
  | Err _ => CacheDev_size c' = CacheDev_size c ∨ CacheDev_size c' = table_length table
  | Panic _ => False
  end.
Proof.
  unfold ibind, dm_mut. pose proof (cache_set_origin_size table c (s_luks s)) as Hs.
  destruct (CacheDev_set_origin_table table c (s_luks s)) as [[e|[]] [c1 l1]]; simpl; [done|].
  pose proof (cache_resume_size c1 l1) as Hr.
  destruct (CacheDev_resume c1 l1) as [[e|[]] [c2 l2]]; simpl in *; [right|]; congruence.
Qed.

Lemma linear_reload table d s :
  let '(r, (d', _)) := (dm_mut (LinearDev_set_table table) ;;! dm_mut LinearDev_resume) (d, s) in
  match r with
  | Ok _ => LinearDev_size d' = table_length table
  | Err _ => LinearDev_size d' = LinearDev_size d ∨ LinearDev_size d' = table_length table
  | Panic _ => False
  end.
Proof.
  unfold ibind, dm_mut. pose proof (linear_set_table_size table d (s_luks s)) as Hs.
  destruct (LinearDev_set_table table d (s_luks s)) as [[e|[]] [d1 l1]]; simpl; [done|].
  pose proof (linear_resume_size d1 l1) as Hr.
  destruct (LinearDev_resume d1 l1) as [[e|[]] [d2 l2]]; simpl in *; [right|]; congruence.
Qed.

(** Only the cap device changes. *)
Definition same_but_cap self self' : Prop :=
  bs_data_tier self' = bs_data_tier self ∧ bs_next self' = bs_next self ∧
  bs_cache_tier self' = bs_cache_tier self.

Lemma extend_cap_ok pool self s : bs_ok self →
  let '(r, (self', _)) := BS.extend_cap_device pool (self, s) in
  bs_ok self' ∧ same_but_cap self self' ∧ BS.size self ≤ BS.size self' ∧
  match r with Ok _ => BS.size self' = seg_total (bs_segs self) ∧ is_Some (BS.device self')
             | Err _ => True | Panic _ => False end.
Proof.
  intros Hok. pose proof (seg_total_u64 self Hok) as Hu. pose proof Hok as [Ht Hc Hn Hs].
  pose proof (table_length_map (bs_segs self) Hu) as Hlen.
  unfold BS.extend_cap_device, ibind at 1. cbn [get_self fst]. fold (bs_segs self).
  destruct self as [cache ct dt linear next]. unfold bs_segs in *. cbn in Hc, Hn, Hs, Hlen, Hu |- *.
  destruct cache as [c|], linear as [d|]; [done|..]; cbn in Hn, Hs.
  - unfold BS.on_cache, focus.
    pose proof (cache_reload (map_to_dm (dt_segments dt)) c s) as Hr. 
    destruct ((_ ;;! _) (c, s)) as [r [c' s']]. split_and!; [split| | |]; unfold bs_segs; cbn.
    + exact Ht.
    + exact Hc.
    + destruct r; [|destruct Hr|done]; lia.
    + destruct r; [|destruct Hr|done]; lia.
    + done.
    + destruct r; [|destruct Hr|done]; lia.
    + destruct r; [|done..]. split; [lia|done].
  - unfold BS.on_linear, focus.
    pose proof (linear_reload (map_to_dm (dt_segments dt)) d s) as Hr. 
    destruct ((_ ;;! _) (d, s)) as [r [d' s']]. split_and!; [split| | |]; unfold bs_segs; cbn.
    + exact Ht.
    + exact Hc.
    + destruct r; [|destruct Hr|done]; lia.
    + destruct r; [|destruct Hr|done]; lia.
    + done.
    + destruct r; [|destruct Hr|done]; lia.
    + destruct r; [|done..]. split; [lia|done].
  - rewrite backstore_ids. unfold ibind, ilift, lift_sys, dm. cbn.
    destruct (LinearDev_setup _ _ _ _) as [[e|d] l] eqn:E; cbn; [by split_and!|].
    apply (f_equal fst) in E. apply linear_setup_size in E.
    split; [split; unfold bs_segs; cbn; try done; lia|]. split; [done|]. unfold bs_segs. cbn.
    split; [lia|]. split; [lia|done].
Qed.

Lemma bs_data_ok self dt' req b : bs_ok self → 0 ≤ req → alloc_post (bs_data_tier self) dt' req b →
  bs_le self (BS.set_data_tier dt' self) ∧
  seg_total (dt_segments dt') = seg_total (bs_segs self) + (if b then req else 0).
Proof.
  intros [Ht Hc Hn Hs] Hr (_ & Ht' & Hb).
  assert (seg_total (dt_segments dt') = seg_total (bs_segs self) + (if b then req else 0)) as Hst.
  { destruct b; [destruct Hb as (? & _ & _ & Hst & _); done|]. unfold bs_segs. rewrite Hb. lia. }
  split; [|done]. split; [split; [done|done|done|]|split; [|done]].
  - unfold bs_segs, BS.size in *. cbn in *. rewrite Hst. destruct b; lia.
  - unfold usable, in_reserve, bs_devs, bs_segs in *. cbn. rewrite Hst.
    destruct b; [destruct Hb as (_ & _ & _ & _ & -> & _)|rewrite Hb]; lia.
Qed.

Lemma same_but_cap_usable self self' : same_but_cap self self' → usable self' = usable self.
Proof. intros (Hd & _). unfold usable, in_reserve, bs_devs, bs_segs. by rewrite Hd. Qed.

(** chunks of the given sizes, one after the other *)
Fixpoint consecutive (next : Z) (sizes : list Z) : list (Z * Z) :=
  match sizes with [] => [] | size :: rest => (next, size) :: consecutive (next + size) rest end.

Lemma consecutive_sizes next sizes : snd <$> consecutive next sizes = sizes.
Proof. revert next. induction sizes as [|x l IH]; intros; [done|]. cbn. by rewrite IH. Qed.

Lemma chunks_from_exact sizes next : Forall u64 sizes → 0 ≤ next → next + Zsum sizes ≤ u64_max →
  BS.chunks_from next sizes = (consecutive next sizes, next + Zsum sizes).
Proof.
  intros Hs. revert next. induction Hs as [|x l Hx Hl IH]; intros next Hn Hu; cbn [BS.chunks_from consecutive Zsum foldr] in *.
  { by rewrite Z.add_0_r. }
  assert (0 ≤ Zsum l) by (apply Zsum_nonneg; eapply Forall_impl; [exact Hl|]; intros ? [? _]; done).
  fold (Zsum l) in *. destruct Hx as [Hx0 Hx1].
  rewrite wrap64_small by (split; lia). rewrite IH by lia. f_equal. lia.
Qed.

Lemma available_ok self : bs_ok self → BS.available_in_cap self = Ok (in_cap self).
Proof.
  intros Hok. pose proof (seg_total_u64 self Hok). destruct Hok as [_ _ Hn Hs]. unfold BS.available_in_cap, in_cap.
  destruct (Z.leb_spec (bs_next self) (BS.size self)); [|lia]. f_equal. apply wrap64_small. split; lia.
Qed.

(** What a caller of [alloc] sees. *)
Definition alloc_result (sizes : list Z) self self' (r : res (option (list (Z * Z)))) : Prop :=
  match r with
  | Ok (Some chunks) =>
      chunks = consecutive (bs_next self) sizes ∧ bs_next self' = bs_next self + Zsum sizes
  | Ok None => in_cap self + in_reserve self < Zsum sizes ∧ self' = self
  | Err _ => bs_next self' = bs_next self
  | Panic _ => False
  end.

Lemma finish_alloc sizes self s : bs_ok self → Forall u64 sizes → Zsum sizes ≤ in_cap self →
  ∃ self', (let! self := get_self in
     let '(chunks, next) := BS.chunks_from (bs_next self) sizes in
     modify_self (BS.set_next next) ;;!
     if bool_decide (sizes = snd <$> chunks) then iret (Some chunks)
     else ilift (Panic "assertion failed: sizes == chunks")) (self, s)
    = (Ok (Some (consecutive (bs_next self) sizes)), (self', s)) ∧
    bs_le self self' ∧ bs_next self' = bs_next self + Zsum sizes.
Proof.
  intros Hok Hs Hfit. pose proof (seg_total_u64 self Hok) as Hu. pose proof Hok as [Ht Hc Hn Hsz]. unfold in_cap in Hfit.
  assert (0 ≤ Zsum sizes) by (apply Zsum_nonneg; eapply Forall_impl; [exact Hs|]; intros ? [? _]; done).
  exists (BS.set_next (bs_next self + Zsum sizes) self). unfold ibind at 1. cbn [get_self fst].
  rewrite chunks_from_exact by (done || lia). rewrite consecutive_sizes, bool_decide_eq_true_2 by done.
  split; [done|]. split; [|done]. split; [|split; [done|cbn; lia]]. split; [done|done| |done].
  change (0 ≤ bs_next self + Zsum sizes ≤ BS.size self). lia.
Qed.

Lemma alloc_run pool sizes self s : bs_ok self → Forall u64 sizes → u64 (Zsum sizes) →
  let '(r, (self', _)) := BS.alloc pool sizes (self, s) in bs_le self self' ∧ alloc_result sizes self self' r.
Proof.
  intros Hok Hs Hz. unfold BS.alloc, ibind at 1. cbn [get_self fst]. rewrite sum64_exact by done.
  rewrite (available_ok self Hok). unfold ibind at 1. cbn [ilift].
  pose proof (seg_total_u64 self Hok) as Hu. pose proof Hok as [Ht Hc Hn Hsz].
  destruct (Z.ltb_spec (in_cap self) (Zsum sizes)) as [Hlt|Hge].
  2:{ destruct (finish_alloc sizes self s Hok Hs Hge) as (self' & E & Hok' & Hn').
      unfold ibind at 1. cbn [iret negb]. rewrite E. by split_and!. }
  assert (0 ≤ in_cap self) by (unfold in_cap; lia).
  rewrite (wrap64_small (Zsum sizes - in_cap self)) by (destruct Hz; split; lia).
  destruct (data_alloc_ok (bs_data_tier self) (Zsum sizes - in_cap self) Ht) as (b & dt' & E & Hpost).
  { destruct Hz; split; lia. }
  destruct (bs_data_ok self dt' (Zsum sizes - in_cap self) b Hok ltac:(lia) Hpost) as [Hle1 Hst].
  pose proof (proj1 Hle1) as Hok1.
  unfold ibind at 1. unfold ibind at 1. unfold BS.data_alloc, ibind at 1. cbn [get_self fst]. rewrite E.
  cbn [ilift ibind modify_self iret]. destruct b.
  - pose proof (extend_cap_ok pool _ s Hok1) as Hx. unfold ibind at 1.
    destruct (BS.extend_cap_device pool _) as [r2 [self2 s2]].
    destruct Hx as (Hok2 & Hsame & _ & Hsz2).
    assert (bs_le self self2) as Hle2.
    { eapply bs_le_trans; [exact Hle1|]. split; [done|]. split; [by apply same_but_cap_usable|].
      destruct Hsame as (_ & -> & _). done. }
    destruct Hsame as (Hd2 & Hn2 & _). destruct r2 as [[]|e|w]; [|done|done].
    destruct Hsz2 as [Hsz2 _]. cbn [iret negb].
    assert (Zsum sizes ≤ in_cap self2) as Hfit.
    { unfold in_cap in *. rewrite Hn2, Hsz2. unfold bs_segs in *. cbn in *. lia. }
    destruct (finish_alloc sizes self2 s2 Hok2 Hs Hfit) as (self' & E' & Hok' & Hn').
    rewrite E'. split; [by eapply bs_le_trans|]. cbn in *. rewrite Hn2 in *. by split.
  - cbn. destruct Hpost as (Hb & _ & Hsame). split; [exact Hle1|]. split.
    + unfold in_reserve, bs_devs. destruct (Z.le_gt_cases (Zsum sizes - in_cap self)
        (free_total (block_devs (dt_block_mgr (bs_data_tier self))))) as [Hle|]; [|lia].
      apply Hb in Hle. done.
    + rewrite Hsame. by destruct self.
Qed.
(** *** [request] *)

(** the amounts [request] tries, in order *)
Fixpoint tries (fuel : nat) (modulus internal_request : Z) : list Z :=
  match fuel with
  | O => []
  | S fuel => if internal_request =? 0 then []
              else internal_request :: tries fuel modulus (internal_request / 2 / modulus * modulus)
  end.

(** an amount that is there when the cap device has [available] and the data tier [free] sectors *)
Definition fits (available free r : Z) : Prop := available ≤ r ≤ available + free.

Lemma round_down a m : 0 ≤ a → 0 < m → 0 ≤ a / m * m ≤ a ∧ a / m * m mod m = 0.
Proof.
  intros. split; [|by apply Z.mod_mul; lia].
  pose proof (Z.mul_div_le a m ltac:(lia)). pose proof (Z.div_pos a m ltac:(lia) ltac:(lia)). nia.
Qed.

Lemma round_down_ge a m r : 0 < m → r mod m = 0 → r ≤ a → r ≤ a / m * m.
Proof.
  intros Hm Hr Ha. apply Z.div_exact in Hr; [|lia]. pose proof (Z.div_le_mono r a m Hm Ha). nia.
Qed.

Lemma halved n ir m : 0 < m → 0 ≤ ir < 2 ^ Z.of_nat (S n) → 0 ≤ ir / 2 / m * m < 2 ^ Z.of_nat n.
Proof.
  intros Hm [H0' Hlt]. rewrite Nat2Z.inj_succ, Z.pow_succ_r in Hlt by lia.
  assert (0 ≤ ir / 2 < 2 ^ Z.of_nat n) by (split; [apply Z.div_pos; lia|apply Z.div_lt_upper_bound; lia]).
  destruct (round_down (ir / 2) m); lia.
Qed.

(** The loop ends within the fuel; it stops at the first amount that fits, if there is one. *)
Lemma bs_request_loop_ok n available m ir (dt : DataTier) :
  tier_ok (block_devs (dt_block_mgr dt)) (dt_segments dt) → 0 < m → 0 ≤ ir < 2 ^ Z.of_nat n →
  ir mod m = 0 → ir ≤ u64_max → 0 ≤ available →
  available + free_total (block_devs (dt_block_mgr dt)) ≤ u64_max →
  let free := free_total (block_devs (dt_block_mgr dt)) in
  ∃ b dt', BS.request_loop n available m false ir dt = Some (Ok (b, dt')) ∧
    if b then ∃ r, fits available free r ∧ 0 < r ≤ ir ∧ r mod m = 0 ∧ alloc_post dt dt' (r - available) true
    else dt' = dt ∧ Forall (λ r, ¬ fits available free r) (tries n m ir).
Proof.
  intros Ht Hm. revert ir. induction n as [|n IH]; intros ir Hir Hmod Hu Hav Hfree free.
  { assert (ir = 0) as -> by (cbn in Hir; lia). exists false, dt. done. }
  cbn [BS.request_loop tries orb]. destruct (Z.eqb_spec ir 0) as [->|Hne]; [by exists false, dt|].
  pose proof (tier_bounds _ _ Ht) as (Hf0 & _).
  destruct (data_alloc_ok dt (ir -64 available) Ht (wrap64_u64 _)) as (b & dt' & -> & Hpost).
  assert (b = true → available ≤ ir ∧ ir -64 available = ir - available) as Hle.
  { intros ->. destruct (decide (available ≤ ir)); [split; [done|apply wrap64_small; split; lia]|].
    destruct Hpost as [Hb _]. specialize (proj1 Hb eq_refl). unfold wrap64.
    rewrite <- (Z_mod_plus_full _ 1), Z.mod_small by (unfold u64_max in *; lia). unfold u64_max in *. lia. }
  destruct b.
  - destruct (Hle eq_refl) as [Hl Hw]. rewrite Hw in Hpost.
    exists true, dt'. destruct (Hpost) as [Hb _]. specialize (proj1 Hb eq_refl) as Hfit.
    destruct n; (split; [done|]); exists ir; unfold fits; (split_and!; [lia..|done|done]).
  - destruct Hpost as (Hb & _ & ->).
    destruct (IH (ir / 2 / m * m)) as (b & dt' & E & Hres); [by apply halved| | |done|done|].
    { apply (round_down (ir / 2) m); [apply Z.div_pos; lia|done]. }
    { destruct (round_down (ir / 2) m); [apply Z.div_pos; lia|done|].
      pose proof (Z.div_le_upper_bound ir 2 ir ltac:(lia) ltac:(lia)). lia. }
    exists b, dt'. split; [exact E|]. destruct b.
    + destruct Hres as (r & Hfit & Hr & ? & ?). exists r. split_and!; [apply Hfit..|lia| |done|done].
      destruct (round_down (ir / 2) m); [apply Z.div_pos; lia|done|].
      pose proof (Z.div_le_upper_bound ir 2 ir ltac:(lia) ltac:(lia)). lia.
    + destruct Hres as [-> Hno]. split; [done|]. constructor; [|done]. intros [Hl1 Hl2].
      assert (ir -64 available = ir - available) as Hw by (apply wrap64_small; split; lia).
      rewrite Hw in Hb. assert (false = true) by (apply Hb; unfold free in *; lia). done.
Qed.

(** What a caller of [request] sees. *)
Definition request_result (request modulus : Z) self self' (r : res (option (Z * Z))) : Prop :=
  match r with
  | Ok (Some (start, amount)) =>
      start = bs_next self ∧ amount mod modulus = 0 ∧ 0 < amount ≤ request ∧
      bs_next self' = bs_next self + amount
  | Ok None =>
      self' = self ∧ (in_cap self < request / modulus * modulus ∨ request < modulus) ∧
      Forall (λ r, ¬ fits (in_cap self) (in_reserve self) r)
        (tries BS.REQUEST_FUEL modulus (request / modulus * modulus))
  | Err _ => bs_next self' = bs_next self
  | Panic _ => False
  end.

Lemma set_next_ok self n : bs_ok self → bs_next self ≤ n ≤ BS.size self → bs_le self (BS.set_next n self).
Proof.
  intros [Ht Hc Hn Hs] Hle. split; [|split; [done|cbn; lia]]. split; [done|done| |done].
  change (0 ≤ n ≤ BS.size self). lia.
Qed.

Lemma request_run pool request modulus self s : bs_ok self → u64 request → 0 < modulus →
  let '(r, (self', _)) := BS.request pool request modulus (self, s) in
  bs_le self self' ∧ request_result request modulus self self' r.
Proof.
  intros Hok [Hr0 Hr1] Hm. unfold BS.request. destruct (Z.eqb_spec modulus 0); [lia|].
  destruct (round_down request modulus Hr0 Hm) as [[Hi0 Hi1] Himod].
  pose proof (seg_total_u64 self Hok) as Hu. pose proof Hok as [Ht Hc Hn Hsz].
  pose proof (tier_bounds _ _ Ht) as (Hf & _ & Hmt & Hlt). pose proof (t_total _ _ Ht).
  assert (0 ≤ in_cap self) as Hcap by (unfold in_cap; lia).
  destruct (Z.eqb_spec (request / modulus * modulus) 0) as [Hz|Hnz].
  { split; [by apply bs_le_refl|]. split; [done|]. rewrite Hz. split; [right|done].
    destruct (Z.lt_ge_cases request modulus); [done|].
    pose proof (round_down_ge request modulus modulus Hm (Z_mod_same_full _) ltac:(done)). lia. }
  unfold ibind at 1. cbn [get_self fst]. rewrite (available_ok self Hok). unfold ibind at 1. cbn [ilift].
  destruct (Z.ltb_spec (in_cap self) (request / modulus * modulus)) as [Hlow|Hhigh].
  2:{ assert (bs_next self + request / modulus * modulus ≤ BS.size self) by (unfold in_cap in *; lia).
      cbn. rewrite (wrap64_small (bs_next self + _)) by (split; lia).
      rewrite wrap64_small by (split; lia).
      split; [apply set_next_ok; [done|lia]|]. split_and!; [lia|done|lia|lia|done]. }
  destruct (bs_request_loop_ok BS.REQUEST_FUEL (in_cap self) modulus (request / modulus * modulus) (bs_data_tier self))
    as (b & dt' & E & Hres); [done|done| |done|lia|done| |].
  { split; [lia|]. change (2 ^ Z.of_nat BS.REQUEST_FUEL) with (2 ^ 64). unfold u64_max in *. lia. }
  { fold (bs_devs self). unfold in_cap. lia. }
  rewrite E. unfold ibind at 1. cbn [from_option id ilift]. unfold ibind at 1. cbn [modify_self].
  destruct b.
  2:{ destruct Hres as [-> Hno]. cbn. replace (BS.set_data_tier (bs_data_tier self) self) with self by (by destruct self).
      split; [by apply bs_le_refl|]. split; [done|]. split; [by left|done]. }
  destruct Hres as (r & Hfit & Hr & Hrm & Hpost).
  destruct (bs_data_ok self dt' (r - in_cap self) true Hok) as [Hle1 Hst]; [destruct Hfit; lia|done|].
  pose proof (proj1 Hle1) as Hok1.
  pose proof (extend_cap_ok pool _ s Hok1) as Hx. unfold ibind at 1.
  destruct (BS.extend_cap_device pool _) as [r2 [self2 s2]].
  destruct Hx as (Hok2 & Hsame & _ & Hsz2).
  assert (bs_le self self2) as Hle2.
  { eapply bs_le_trans; [exact Hle1|]. split; [done|]. split; [by apply same_but_cap_usable|].
    destruct Hsame as (_ & -> & _). done. }
  destruct Hsame as (Hd2 & Hn2 & _). destruct r2 as [[]|e|w]; [|done|done].
  destruct Hsz2 as [Hsz2 _]. unfold ibind at 1. cbn [get_self fst].
  rewrite (available_ok self2 Hok2). unfold ibind at 1. cbn [ilift].
  pose proof (seg_total_u64 _ Hok2) as Hu2. pose proof (b_size _ Hok2). pose proof (b_next _ Hok2).
  assert (bs_next self2 = bs_next self) as Hn2' by done.
  assert (r ≤ in_cap self2) as Hr2.
  { unfold in_cap in *. rewrite Hsz2, Hn2'. unfold bs_segs in *. cbn in *. lia. }
  set (amt := Z.min request (in_cap self2) / modulus * modulus).
  assert (r ≤ amt) by (apply round_down_ge; lia).
  destruct (round_down (Z.min request (in_cap self2)) modulus ltac:(lia) Hm) as [[_ Ha] Ham]. fold amt in Ha, Ham.
  assert (bs_next self2 + amt ≤ BS.size self2) by (unfold in_cap in *; lia).
  cbn. rewrite (wrap64_small (bs_next self2 + amt)) by (split; lia). rewrite wrap64_small by (split; lia).
  split; [eapply bs_le_trans; [exact Hle2|apply set_next_ok; [done|lia]]|]. split_and!; [lia|done|lia|lia|lia].
Qed.
End backstore.

(** C26: [Backstore::alloc] gives out the requested sizes as consecutive chunks that start where the
    last allocation ended, or [None] exactly when the cap device and the free space of the data tier
    are too small, in which case nothing changes; a devicemapper error gives out nothing.  It never
    panics, and the backstore's invariant (in particular the index within the cap device) is kept
    on every branch. *)
Theorem backstore_alloc_spec `{Crc32c} `{Chrono} `{Cryptsetup} `{!Devicemapper} `{!DmLaws} `{UuidDisplay}
    `{ClevisCodec} `{DmNames} pool sizes self s :
  bs_ok self → Forall u64 sizes → u64 (Zsum sizes) →
  let '(r, (self', _)) := BS.alloc pool sizes (self, s) in bs_le self self' ∧ alloc_result sizes self self' r.
Proof. apply alloc_run. Qed.

(** The loop of [Backstore::request] always ends: the amount tried is at least halved each time,
    so 64 rounds are enough for any 64-bit request, whatever the modulus and the state. *)
Theorem request_terminates available modulus internal_request dt :
  tier_ok (block_devs (dt_block_mgr dt)) (dt_segments dt) → 0 < modulus → u64 internal_request →
  internal_request mod modulus = 0 → 0 ≤ available →
  available + free_total (block_devs (dt_block_mgr dt)) ≤ u64_max →
  ∃ b dt', BS.request_loop BS.REQUEST_FUEL available modulus false internal_request dt = Some (Ok (b, dt')).
Proof.
  intros Ht Hm [Hi0 Hi1] Hmod Ha Hf.
  destruct (bs_request_loop_ok BS.REQUEST_FUEL available modulus internal_request dt) as (b & dt' & E & _);
    [done|done|split; [lia|unfold u64_max in *; change (2 ^ Z.of_nat BS.REQUEST_FUEL) with (2 ^ 64); lia]|done..|].
  by exists b, dt'.
Qed.

(** [Backstore::request] gives out one chunk at the current index, a multiple of the modulus,
    not empty and at most the request; it returns [None], changing nothing, exactly when the cap
    device is too small for the request rounded down and none of the amounts tried lies between
    what the cap device has and what the data tier can add to it.  It never panics and keeps the
    invariant, also when devicemapper fails. *)
Theorem backstore_request_spec `{Crc32c} `{Chrono} `{Cryptsetup} `{!Devicemapper} `{!DmLaws} `{UuidDisplay}
    `{ClevisCodec} `{DmNames} pool request modulus self s :
  bs_ok self → u64 request → 0 < modulus →
  let '(r, (self', _)) := BS.request pool request modulus (self, s) in
  bs_le self self' ∧ request_result request modulus self self' r.
Proof. apply request_run. Qed.

(** ** Examples *)

Section examples.
#[local] Existing Instance hex_instance.
#[local] Existing Instance simple_display.
#[local] Existing Instance script_crypt.
#[local] Existing Instance script_dm.
#[local] Existing Instance script_dm_laws.
#[local] Existing Instance example_codec.
#[local] Existing Instance dm_lengths.
#[local] Existing Instance any_time.
#[local] Existing Instance crc32c_instance.

(** a backstore just initialised *)
Definition ex_bs : Backstore := mkBackstore None None (DT.new ex_mgr) None 0.
Definition run_sys (script : list bool) : Sys :=
  mkSys ∅ ∅ script (λ n, Z.of_nat n) (λ n, mkTime (Z.of_nat n) 0) 0.

Lemma ex_bs_ok : bs_ok ex_bs.
Proof. split; [apply ex_tier_ok|done|cbn; lia|vm_compute; discriminate]. Qed.

Lemma backstore_alloc_spec_witness :
  (BS.alloc 7 [100; 200] (ex_bs, run_sys [])).1 = Ok (Some [(0, 100); (100, 200)]) ∧
  let '(r, (self', _)) := BS.alloc 7 [100; 200] (ex_bs, run_sys []) in
  bs_le ex_bs self' ∧ alloc_result [100; 200] ex_bs self' r.
Proof.
  split; [vm_compute; reflexivity|].
  apply (backstore_alloc_spec 7 [100; 200] ex_bs (run_sys [])).
  - apply ex_bs_ok.
  - apply (bool_decide_unpack _). vm_compute. exact I.
  - apply (bool_decide_unpack _). vm_compute. exact I.
Defined.

Lemma request_terminates_witness :
  ∃ b dt', BS.request_loop BS.REQUEST_FUEL 0 2048 false 8192000 (DT.new ex_mgr) = Some (Ok (b, dt')).
Proof.
  apply (request_terminates 0 2048 8192000 (DT.new ex_mgr)).
  - apply ex_tier_ok.
  - lia.
  - apply (bool_decide_unpack _). vm_compute. exact I.
  - reflexivity.
  - lia.
  - vm_compute. discriminate.
Defined.

(** more is asked for than there is; half of it is given *)
Lemma backstore_request_spec_witness :
  (BS.request 7 8192000 2048 (ex_bs, run_sys [])).1 = Ok (Some (0, 4096000)) ∧
  let '(r, (self', _)) := BS.request 7 8192000 2048 (ex_bs, run_sys []) in
  bs_le ex_bs self' ∧ request_result 8192000 2048 ex_bs self' r.
Proof.
  split; [vm_compute; reflexivity|].
  apply (backstore_request_spec 7 8192000 2048 ex_bs (run_sys [])).
  - apply ex_bs_ok.
  - apply (bool_decide_unpack _). vm_compute. exact I.
  - lia.
Defined.

(** A request can be refused although the cap device has space: with 4,177,920 sectors in the cap
    device and none in reserve, half of a request for 6,000,000 is below what is available, and
    the difference passed to the data tier wraps around. *)
Lemma request_refused_with_space :
  let '(_, (self, s)) := (BS.alloc 7 [4177920] ;;! modify_self (BS.set_next 0)) (ex_bs, run_sys []) in
  BS.available_in_cap self = Ok 4177920 ∧
  (BS.request 7 6000000 1 (self, s)).1 = Ok None.
Proof. vm_compute. split; reflexivity. Qed.
End examples.
