(* ===== verification/ThinPool.v ===== *)
(** * The thin pool and its filesystems

    Models [src/engine/strat_engine/thinpool/]: [thinids.rs], [filesystem.rs] and [thinpool.rs].
    Log messages, the wait for udev after a failure, and the names in error messages are left out;
    of the tables that [set_device] rewrites only linear targets exist (flakey ones are made by
    tests only). *)
From stdpp Require Import base list gmap strings.
From Stdlib Require Import ZArith Lia.
From S2P Require Import Prelude Disk Sizes External Json StaticHeader MDA BDA Table Shared System Names Crypt BlockDev Devices BlockDevMgr Writing Dm Mdv Setup RangeAlloc Alloc Tiers Backstore.

(** ** [thinids.rs] *)
Module Ids.
Section with_dm.
Context `{Devicemapper}.

(** [ThinDevIdPool] is its [next_id], a [u32]. *)
Definition new_from_ids (ids : list Z) : Z :=
  match ids with [] => 0 | i :: r => (foldr Z.max i r + 1) mod 2 ^ 32 end.

Definition new_id (next_id : Z) : (StratisError + Z) * Z :=
  match ThinDevId_new_u64 next_id with
  | inl e => (inl e, next_id)
  | inr id => (inr id, (next_id + 1) mod 2 ^ 32)
  end.
End with_dm.
End Ids.

(** ** Units and constants *)
Definition DATA_BLOCK_SIZE : Z := 2 * 1024.
Definition DATA_LOWATER : Z := 2048.
Definition INITIAL_META_SIZE : Z := 4 * 1024.
Definition MIN_META_SEGMENT_SIZE : Z := 4 * 1024.
Definition INITIAL_DATA_SIZE : Z := 768.
Definition INITIAL_MDV_SIZE : Z := 32 * 1024.
Definition MAX_META_SIZE : Z := 255 * (2 ^ 14 - 64).
Definition SPACE_CRIT_PCT : Z := 95.
Definition DEFAULT_THIN_DEV_SIZE : Z := 2 * 2 ^ 30.
Definition FILESYSTEM_LOWATER : Z := 4 * (DATA_LOWATER * DATA_BLOCK_SIZE).

(** [MetaBlocks::sectors], [Sectors::metablocks]: a metadata block has 4 KiB *)
Definition metablocks_sectors (b : Z) : Z := wrap64 (b * 8).
Definition sectors_metablocks (s : Z) : Z := s / 8.
Definition sectors_to_datablocks (sectors : Z) : Z := sectors / DATA_BLOCK_SIZE.
Definition datablocks_to_sectors (data_blocks : Z) : Z := wrap64 (data_blocks * DATA_BLOCK_SIZE).

(** ** [filesystem.rs] *)

Section filesystem.
Context `{Crc32c} `{Chrono} `{Cryptsetup} `{!Devicemapper} `{UuidDisplay} `{ClevisCodec} `{DmNames} `{FsSerde}.

Record StratFilesystem : Type := mkStratFs { thin_dev : ThinDev; created : DateTime }.

(** a clean-up whose error is only logged *)
Definition ignoring {D A} (m : mutM D A) (d : D) : sys unit :=
  let! _ := dm_on m d in iret tt.

(** [udev_settle().unwrap_or_else(..)] *)
Definition settle : sys unit := let! _ := itry (dm udev_settle) in iret tt.

Definition fs_initialize (pool_uuid : Z) (thinpool_dev : ThinPoolDev) (size : option Z) (id : Z)
    : sys (Z * StratFilesystem) :=
  let! fs_uuid := new_v4 in
  let! '(dm_name, dm_uuid) := ilift (format_thin_ids pool_uuid (Filesystem fs_uuid)) in
  let! thin_dev := dm (ThinDev_new dm_name dm_uuid (default DEFAULT_THIN_DEV_SIZE size) thinpool_dev id) in
  let! r := itry (dm (create_fs (ThinDev_devnode thin_dev) (Some fs_uuid) false)) in
  match r with
  | inl err => settle ;;! ignoring (ThinDev_destroy thinpool_dev) thin_dev ;;! ierr err
  | inr _ => let! now := utc_now in iret (fs_uuid, mkStratFs thin_dev now)
  end.

(** [Utc.timestamp(created as i64, 0)] *)
Definition utc_timestamp (created : Z) : res DateTime :=
  let secs := if created <? 2 ^ 63 then created else created - 2 ^ 64 in
  if timestamp_ok secs 0 then Ok (mkTime secs 0) else Panic "No such local time".

Definition fs_setup (pool_uuid : Z) (thinpool_dev : ThinPoolDev) (fssave : FilesystemSave) : sys StratFilesystem :=
  let! '(dm_name, dm_uuid) := ilift (format_thin_ids pool_uuid (Filesystem (fs_uuid fssave))) in
  let! thin_dev := dm (ThinDev_setup dm_name dm_uuid (fs_size fssave) thinpool_dev (thin_id fssave)) in
  let! created := ilift (utc_timestamp (fs_created fssave)) in
  iret (mkStratFs thin_dev created).

(** an error is only logged *)
Definition udev_fs_change (self : StratFilesystem) (pool_name : Str) (fs_uuid : Z) (fs_name : Str) : sys unit :=
  let! _ := itry (dm (udev_change_event (ThinDev_device (thin_dev self)) fs_uuid pool_name fs_name)) in iret tt.

(** the entries of [/proc/self/mountinfo] for the device *)
Fixpoint mounts_of (device : Z) (entries : list (res (Z * Str))) : res (list Str) :=
  match entries with
  | [] => Ok []
  | e :: rest =>
      let? '(d, p) := e in
      let? l := mounts_of device rest in
      Ok (if d =? device then p :: l else l)
  end.
Definition mount_points (self : StratFilesystem) : sys (list Str) :=
  let! entries := dm mountinfo in ilift (mounts_of (ThinDev_device (thin_dev self)) entries).

Definition fs_snapshot (self : StratFilesystem) (thin_pool : ThinPoolDev) (dm_name dm_uuid : Str)
    (snapshot_fs_uuid snapshot_thin_id : Z) : sys StratFilesystem :=
  let! r := itry (dm (ThinDev_snapshot (thin_dev self) dm_name dm_uuid thin_pool snapshot_thin_id)) in
  match r with
  | inl e => ierr (Msg "failed to create snapshot")
  | inr thin_dev =>
      let! mps := mount_points self in
      (match mps with [] => iret tt | _ => dm (mount_snapshot (ThinDev_devnode thin_dev)) end) ;;!
      dm (set_uuid (ThinDev_devnode thin_dev) snapshot_fs_uuid) ;;!
      let! now := utc_now in
      iret (mkStratFs thin_dev now)
  end.

(** [fs_usage]: total and used bytes *)
Definition fs_usage (mount_point : Str) : sys (Z * Z) :=
  let! '(block_size, blocks, blocks_free) := dm (statvfs mount_point) in
  iret (wrap64 (block_size * blocks), wrap64 (block_size * (blocks -64 blocks_free))).

Definition extend_size (current_size : Z) : Z := current_size.

Definition set_thin_dev (d : ThinDev) (self : StratFilesystem) : StratFilesystem := mkStratFs d (created self).
Definition on_thin {A} (m : mutM ThinDev A) : obj StratFilesystem A := focus thin_dev set_thin_dev (dm_mut m).

Definition fs_check : obj StratFilesystem bool :=
  let! self := get_self in
  let! status := lift_sys (dm (ThinDev_status (thin_dev self))) in
  match status with
  | ThinWorking _ =>
      let! mps := lift_sys (mount_points self) in
      match mps with
      | [] => iret false
      | mount_point :: _ =>
          let! '(total, used) := lift_sys (fs_usage mount_point) in
          let free_bytes := wrap128 (total - used) in
          if bytes_sectors free_bytes <? FILESYSTEM_LOWATER then
            let size := ThinDev_size (thin_dev self) in
            let! r := itry (on_thin (ThinDev_set_table_length (size +64 extend_size size))) in
            match r with
            | inl _ => iret false
            | inr _ => let! _ := lift_sys (itry (dm (xfs_growfs mount_point))) in iret true
            end
          else iret false
      end
  | ThinError => ierr (Msg "Unable to get status for filesystem thin device")
  | ThinFail => iret false
  end.

Definition fs_teardown : obj StratFilesystem unit := on_thin ThinDev_teardown.
Definition fs_destroy (thin_pool : ThinPoolDev) : obj StratFilesystem unit := on_thin (ThinDev_destroy thin_pool).
Definition fs_suspend (flush : bool) : obj StratFilesystem unit := on_thin (ThinDev_suspend flush).
Definition fs_resume : obj StratFilesystem unit := on_thin ThinDev_resume.

Definition fs_record (self : StratFilesystem) (name : Str) (uuid : Z) : FilesystemSave :=
  mkFsSave name uuid (ThinDev_id (thin_dev self)) (ThinDev_size (thin_dev self)) (dt_secs (created self) mod 2 ^ 64).

Definition fs_used (self : StratFilesystem) : sys Z :=
  let! status := dm (ThinDev_status (thin_dev self)) in
  match status with
  | ThinWorking nr_mapped_sectors => iret (sectors_bytes nr_mapped_sectors)
  | ThinError => ierr (Msg "Unable to get status for filesystem thin device")
  | ThinFail => ierr (Msg "ThinDev is in a failed state")
  end.
End filesystem.

(** ** [thinpool.rs]: segments *)

Fixpoint segs_to_table_from (dev logical_start_offset : Z) (segments : list (Z * Z)) : list LinearLine :=
  match segments with
  | [] => []
  | (start_offset, length) :: rest =>
      mkLine logical_start_offset length dev start_offset
      :: segs_to_table_from dev (logical_start_offset +64 length) rest
  end.
Definition segs_to_table (dev : Z) (segments : list (Z * Z)) : list LinearLine :=
  segs_to_table_from dev 0 segments.

Definition coalesce_segs (left right : list (Z * Z)) : list (Z * Z) :=
  match last left, right with
  | None, _ => right
  | _, [] => left
  | Some left_last, right_first :: right_rest =>
      if left_last.1 +64 left_last.2 =? right_first.1
      then removelast left ++ [(left_last.1, left_last.2 +64 right_first.2)] ++ right_rest
      else left ++ right
  end.

Definition calc_lowater (used data_dev_size available : Z) : res Z :=
  let total := data_dev_size +64 available in
  let crit_percent_total := wrap64 (total * SPACE_CRIT_PCT) / 100 in
  rassert (crit_percent_total <? total) "assert!(crit_percent_total < total)"
  (let low_water_for_crit := total -64 crit_percent_total in
   rassert (DATA_LOWATER <=? u64_max -64 available) "assert!(u64::MAX - available >= DATA_LOWATER)"
   (let? prelim_max :=
      (if low_water_for_crit <? DATA_LOWATER +64 available then Ok DATA_LOWATER
       else rassert (available <=? low_water_for_crit) "assert!(low_water_for_crit >= available)"
              (Ok (low_water_for_crit -64 available))) in
    let fs_event_lowater := Z.max 0 ((data_dev_size -64 used) - DATA_LOWATER) in
    Ok (Z.max prelim_max fs_event_lowater))).

Record Segments : Type := mkSegments {
  tp_meta : list (Z * Z); tp_spare : list (Z * Z); tp_data : list (Z * Z); tp_mdv : list (Z * Z) }.

Inductive ThinPoolStatusDigest := DFail | DError | DGood | DReadOnly | DOutOfSpace.
Definition digest (status : ThinPoolStatus) : ThinPoolStatusDigest :=
  match status with
  | Working _ SGood => DGood
  | Working _ SReadOnly => DReadOnly
  | Working _ SOutOfSpace => DOutOfSpace
  | PoolFail => DFail
  | PoolError => DError
  end.

Record ThinPoolSizeParams : Type := mkSizeParams { meta_size : Z; data_size : Z; mdv_size : Z }.
Definition ThinPoolSizeParams_default : ThinPoolSizeParams :=
  mkSizeParams INITIAL_META_SIZE INITIAL_DATA_SIZE INITIAL_MDV_SIZE.

(** ** [thinpool.rs]: the pool *)

Module TP.
Section with_dm.
Context `{Crc32c} `{Chrono} `{Cryptsetup} `{!Devicemapper} `{UuidDisplay} `{ClevisCodec} `{DmNames} `{FsSerde}.

Record ThinPool : Type := mkTP {
  thin_pool : ThinPoolDev; segments : Segments; id_gen : Z;
  filesystems : Table Z StratFilesystem; mdv : MetadataVol;
  backstore_device : Z; thin_pool_status : option ThinPoolStatus }.

Definition set_thin_pool (d : ThinPoolDev) (self : ThinPool) : ThinPool :=
  mkTP d (segments self) (id_gen self) (filesystems self) (mdv self) (backstore_device self) (thin_pool_status self).
Definition set_segments (x : Segments) (self : ThinPool) : ThinPool :=
  mkTP (thin_pool self) x (id_gen self) (filesystems self) (mdv self) (backstore_device self) (thin_pool_status self).
Definition set_id_gen (x : Z) (self : ThinPool) : ThinPool :=
  mkTP (thin_pool self) (segments self) x (filesystems self) (mdv self) (backstore_device self) (thin_pool_status self).
Definition set_filesystems (x : Table Z StratFilesystem) (self : ThinPool) : ThinPool :=
  mkTP (thin_pool self) (segments self) (id_gen self) x (mdv self) (backstore_device self) (thin_pool_status self).
Definition set_mdv (x : MetadataVol) (self : ThinPool) : ThinPool :=
  mkTP (thin_pool self) (segments self) (id_gen self) (filesystems self) x (backstore_device self) (thin_pool_status self).
Definition set_backstore_device (x : Z) (self : ThinPool) : ThinPool :=
  mkTP (thin_pool self) (segments self) (id_gen self) (filesystems self) (mdv self) x (thin_pool_status self).
Definition set_status (x : option ThinPoolStatus) (self : ThinPool) : ThinPool :=
  mkTP (thin_pool self) (segments self) (id_gen self) (filesystems self) (mdv self) (backstore_device self) x.

(** methods of the thin pool device, of the metadata volume *)
Definition on_pool {A} (m : mutM ThinPoolDev A) : obj ThinPool A := focus thin_pool set_thin_pool (dm_mut m).
Definition on_mdv {A} (m : obj MetadataVol A) : obj ThinPool A := focus mdv set_mdv m.

(** [&mut self] together with [&mut Backstore] *)
Definition on_self {A} (m : obj ThinPool A) : obj (ThinPool * Backstore) A := focus fst (λ t p, (t, p.2)) m.
Definition on_backstore {A} (m : obj Backstore A) : obj (ThinPool * Backstore) A := focus snd (λ b p, (p.1, b)) m.

(** [LinearDev::setup] of a flex device *)
Definition flex_dev (pool_uuid : Z) (role : FlexRole) (table : list LinearLine) : sys LinearDev :=
  let! '(dm_name, dm_uuid) := ilift (format_flex_ids pool_uuid role) in
  dm (LinearDev_setup dm_name dm_uuid table).

Definition new (pool_uuid : Z) (params : ThinPoolSizeParams) (data_block_size : Z) : obj Backstore ThinPool :=
  let! o := BS.alloc pool_uuid [metablocks_sectors (meta_size params); metablocks_sectors (meta_size params);
                                datablocks_to_sectors (data_size params); mdv_size params] in
  match o with
  | None => ierr (Msg "Could not allocate sufficient space for thinpool devices.")
  | Some [meta_segments; spare_segments; data_segments; mdv_segments] =>
      let! backstore := get_self in
      let! backstore_device := ilift (expect (BS.device backstore) "Space has just been allocated from the backstore, so it must have a cap device") in
      let! meta_dev := lift_sys (flex_dev pool_uuid ThinMeta (segs_to_table backstore_device [meta_segments])) in
      lift_sys (wipe_sectors (LinearDev_devnode meta_dev) 0 (Z.min 8 (LinearDev_size meta_dev))) ;;!
      let! data_dev := lift_sys (flex_dev pool_uuid ThinData (segs_to_table backstore_device [data_segments])) in
      let! mdv_dev := lift_sys (flex_dev pool_uuid MetadataVolume (segs_to_table backstore_device [mdv_segments])) in
      let! mdv := lift_sys (Mdv.initialize pool_uuid mdv_dev) in
      let! '(dm_name, dm_uuid) := ilift (format_thinpool_ids pool_uuid Pool) in
      let! available := ilift (BS.available_in_backstore backstore) in
      let! low_water := ilift (calc_lowater 0 (sectors_to_datablocks (LinearDev_size data_dev))
                                 (sectors_to_datablocks available)) in
      let! thinpool_dev := lift_sys (dm (ThinPoolDev_new dm_name dm_uuid meta_dev data_dev data_block_size low_water)) in
      iret (mkTP thinpool_dev (mkSegments [meta_segments] [spare_segments] [data_segments] [mdv_segments])
              (Ids.new_from_ids []) Tbl.default mdv backstore_device None)
  | Some _ => ilift (Panic "len(segments_list) == 4")
  end.

Definition attempt_thin_repair (pool_uuid : Z) (meta_dev : LinearDev) (device : Z)
    (spare_segments : list (Z * Z)) : sys LinearDev :=
  let! new_meta_dev := flex_dev pool_uuid ThinMetaSpare (segs_to_table device spare_segments) in
  dm (thin_repair (LinearDev_devnode meta_dev) (LinearDev_devnode new_meta_dev)) ;;!
  let name := LinearDev_name meta_dev in
  let! '(r, _) := dm_on LinearDev_teardown meta_dev in question r ;;!
  let! '(r, new_meta_dev) := dm_on (LinearDev_set_name name) new_meta_dev in question r ;;!
  iret new_meta_dev.

Definition setup_metadev (pool_uuid : Z) (thinpool_name : Str) (device : Z)
    (meta_segments spare_segments : list (Z * Z)) : sys (LinearDev * list (Z * Z) * list (Z * Z)) :=
  let! meta_dev := flex_dev pool_uuid ThinMeta (segs_to_table device meta_segments) in
  let! there := dm (device_exists thinpool_name) in
  let! bad :=
    (if (there : bool) then iret false
     else let! r := itry (dm (thin_check (LinearDev_devnode meta_dev))) in
          iret (match r with inl _ => true | inr _ => false end)) in
  if (bad : bool) then
    let! meta_dev := attempt_thin_repair pool_uuid meta_dev device spare_segments in
    iret (meta_dev, spare_segments, meta_segments)
  else iret (meta_dev, meta_segments, spare_segments).

(** the filesystems that can be set up *)
Fixpoint setup_filesystems (pool_name : Str) (pool_uuid : Z) (thinpool_dev : ThinPoolDev) (l : list FilesystemSave)
    : sys (list (Str * Z * StratFilesystem)) :=
  match l with
  | [] => iret []
  | fssave :: rest =>
      let! r := itry (fs_setup pool_uuid thinpool_dev fssave) in
      match r with
      | inr fs =>
          udev_fs_change fs pool_name (fs_uuid fssave) (fs_name fssave) ;;!
          let! l := setup_filesystems pool_name pool_uuid thinpool_dev rest in
          iret ((fs_name fssave, fs_uuid fssave, fs) :: l)
      | inl _ => setup_filesystems pool_name pool_uuid thinpool_dev rest
      end
  end.

Fixpoint fill_table (l : list (Str * Z * StratFilesystem)) (t : Table Z StratFilesystem)
    : res (Table Z StratFilesystem) :=
  match l with
  | [] => Ok t
  | (name, uuid, fs) :: rest =>
      let? '(evicted, t) := Tbl.insert t name uuid fs in
      match evicted with
      | Some _ => Err (Msg "filesystems with duplicate UUID or name specified in metadata")
      | None => fill_table rest t
      end
  end.

Definition setup (pool_name : Str) (pool_uuid : Z) (thin_pool_save : ThinPoolDevSave) (flex_devs : FlexDevsSave)
    (backstore : Backstore) : sys ThinPool :=
  let mdv_segments := meta_dev flex_devs in
  let meta_segments := thin_meta_dev flex_devs in
  let data_segments := thin_data_dev flex_devs in
  let spare_segments := thin_meta_dev_spare flex_devs in
  let! backstore_device := ilift (expect (BS.device backstore) "When stratisd was running previously, space was allocated from the backstore, so backstore must have a cap device") in
  let! '(thinpool_name, thinpool_uuid) := ilift (format_thinpool_ids pool_uuid Pool) in
  let! '(meta_dev, meta_segments, spare_segments) :=
    setup_metadev pool_uuid thinpool_name backstore_device meta_segments spare_segments in
  let! data_dev := flex_dev pool_uuid ThinData (segs_to_table backstore_device data_segments) in
  let! available := ilift (BS.available_in_backstore backstore) in
  let! low_water := ilift (calc_lowater 0 (sectors_to_datablocks (LinearDev_size data_dev))
                             (sectors_to_datablocks available)) in
  let! thinpool_dev := dm (ThinPoolDev_setup thinpool_name thinpool_uuid meta_dev data_dev
                             (data_block_size thin_pool_save) low_water) in
  let! mdv_dev := flex_dev pool_uuid MetadataVolume (segs_to_table backstore_device mdv_segments) in
  let! mdv := Mdv.setup pool_uuid mdv_dev in
  let! filesystem_metadatas := Mdv.filesystems mdv in
  let! l := setup_filesystems pool_name pool_uuid thinpool_dev filesystem_metadatas in
  let! fs_table := ilift (fill_table l Tbl.default) in
  iret (mkTP thinpool_dev (mkSegments meta_segments spare_segments data_segments mdv_segments)
          (Ids.new_from_ids (thin_id <$> filesystem_metadatas)) fs_table mdv backstore_device None).

(** [extend_thin_sub_device]; the list of segments is the one of the device extended *)
Definition segs_of (data : bool) (x : Segments) : list (Z * Z) := if data then tp_data x else tp_meta x.
Definition with_segs (data : bool) (l : list (Z * Z)) (x : Segments) : Segments :=
  if data then mkSegments (tp_meta x) (tp_spare x) l (tp_mdv x)
  else mkSegments l (tp_spare x) (tp_data x) (tp_mdv x).

Definition extend_thin_sub_device (pool_uuid extend_size modulus : Z) (data : bool)
    : obj (ThinPool * Backstore) Z :=
  if modulus =? 0 then ilift (Panic "assert!(modulus != Sectors(0))")
  else
    let! o := on_backstore (BS.request pool_uuid extend_size modulus) in
    match o with
    | None => iret 0
    | Some region =>
        let! '(self, backstore) := get_self in
        let! device := ilift (expect (BS.device backstore) "If request succeeded, backstore must have cap device.") in
        let segs := coalesce_segs (segs_of data (segments self)) [region] in
        on_self (on_pool (if data then ThinPoolDev_set_data_table (segs_to_table device segs)
                          else ThinPoolDev_set_meta_table (segs_to_table device segs))) ;;!
        on_self (on_pool ThinPoolDev_resume) ;;!
        on_self (modify_self (λ self, set_segments (with_segs data segs (segments self)) self)) ;;!
        iret region.2
    end.

Definition extend_thin_data_device (pool_uuid extend_size : Z) : obj (ThinPool * Backstore) Z :=
  extend_thin_sub_device pool_uuid extend_size DATA_BLOCK_SIZE true.
Definition extend_thin_meta_device (pool_uuid extend_size : Z) : obj (ThinPool * Backstore) Z :=
  extend_thin_sub_device pool_uuid extend_size (metablocks_sectors MIN_META_SEGMENT_SIZE) false.

(** [match .. { Ok(extend_size) => extend_size, Err(_) => Sectors(0) }] *)
Definition or_zero {S} (m : st S Z) : st S Z :=
  let! r := itry m in iret (match r with inr n => n | inl _ => 0 end).

Definition suspend : obj ThinPool unit :=
  on_pool ThinPoolDev_suspend ;;!
  let! r := itry (on_mdv mdv_suspend) in
  match r with
  | inr _ => iret tt
  | inl err =>
      let! r := itry (on_pool ThinPoolDev_resume) in
      match r with
      | inl e => ierr (Msg "Suspending the MDV failed and MDV suspend clean up action of resuming the thin pool also failed")
      | inr _ => ierr err
      end
  end.

Definition resume : obj ThinPool unit :=
  on_mdv mdv_resume ;;! on_pool ThinPoolDev_resume.

Definition set_state (status : ThinPoolStatus) : obj ThinPool unit := modify_self (set_status (Some status)).

(** [for (name, uuid, fs) in self.filesystems.iter_mut()] of [do_check] *)
Fixpoint check_filesystems (l : list (Str * Z * StratFilesystem)) : obj ThinPool unit :=
  match l with
  | [] => iret tt
  | (name, uuid, fs) :: rest =>
      let! self := get_self in
      let put fs (self : ThinPool) :=
        match Tbl.get_mut_by_uuid (filesystems self) uuid with
        | Some (_, _, back) => set_filesystems (back fs) self
        | None => self
        end in
      let! save_mdv := focus (λ _, fs) put fs_check in
      let! self := get_self in
      (if (save_mdv : bool) then
         let fs := match Tbl.get_by_uuid (filesystems self) uuid with Some (_, fs) => fs | None => fs end in
         let! _ := lift_sys (itry (save_fs (mdv self) (fs_record fs name uuid))) in iret tt
       else iret tt) ;;!
      check_filesystems rest
  end.

(** the part of [do_check] for a working thin pool: extend the meta device, then the data device *)
Definition check_extend (pool_uuid : Z) (usage : ThinPoolUsage) : obj (ThinPool * Backstore) bool :=
  let! '(_, backstore) := get_self in
  let! usable := ilift (BS.datatier_usable_size backstore) in
  let target_meta_size := Z.min (sectors_metablocks (usable / 1000)) MAX_META_SIZE in
  let! save_meta :=
    (if total_meta usage <? target_meta_size then
       let meta_request := target_meta_size -64 total_meta usage in
       if MIN_META_SEGMENT_SIZE <? meta_request then
         let! n := or_zero (extend_thin_meta_device pool_uuid (metablocks_sectors meta_request)) in
         iret (negb (n =? 0))
       else iret false
     else iret false) in
  let! '(_, backstore) := get_self in
  let! free_space := ilift (BS.available_in_backstore backstore) in
  let! amount_allocated :=
    (if free_space <? DATA_BLOCK_SIZE then iret 0
     else or_zero (extend_thin_data_device pool_uuid free_space)) in
  let total_extended := sectors_to_datablocks amount_allocated in
  let should_save := save_meta || negb (amount_allocated =? 0) in
  let current_total := total_data usage +64 total_extended in
  let! '(_, backstore) := get_self in
  let! available := ilift (BS.available_in_backstore backstore) in
  let! lowater := ilift (calc_lowater (used_data usage) current_total (sectors_to_datablocks available)) in
  on_self (on_pool (ThinPoolDev_set_low_water_mark lowater)) ;;!
  on_self resume ;;!
  iret should_save.

Definition do_check (pool_uuid : Z) : obj (ThinPool * Backstore) bool :=
  let! '(self, backstore) := get_self in
  let! device := ilift (expect (BS.device backstore) "thinpool exists and has been allocated to, so backstore must have a cap device") in
  if negb (device =? backstore_device self) then
    ilift (Panic "assert_eq!(backstore.device(), self.backstore_device)")
  else
    let! status := lift_sys (dm (ThinPoolDev_status (thin_pool self))) in
    let! should_save :=
      match status with
      | Working usage _ => check_extend pool_uuid usage
      | _ => iret false
      end in
    on_self (set_state status) ;;!
    let! '(self, _) := get_self in
    on_self (check_filesystems (Tbl.iter (filesystems self))) ;;!
    iret should_save.

(** [while self.do_check(..)? { should_save = true; }]; [None] when [fuel] does not last *)
Fixpoint check_loop (fuel : nat) (pool_uuid : Z) (should_save : bool) : obj (ThinPool * Backstore) (option bool) :=
  match fuel with
  | O => iret None
  | S fuel =>
      let! b := do_check pool_uuid in
      if (b : bool) then check_loop fuel pool_uuid true else iret (Some should_save)
  end.

(** every round that makes a change takes at least one data block from the backstore *)
Definition check_fuel (backstore : Backstore) : nat :=
  match BS.available_in_backstore backstore with
  | Ok available => S (Z.to_nat (available / DATA_BLOCK_SIZE))
  | _ => 1
  end.

Definition check (pool_uuid : Z) : obj (ThinPool * Backstore) bool :=
  let! '(_, backstore) := get_self in
  let! o := check_loop (check_fuel backstore) pool_uuid false in
  ilift (expect o "the loop does not end").

Fixpoint teardown_filesystems (l : list (Str * Z * StratFilesystem)) : obj ThinPool unit :=
  match l with
  | [] => iret tt
  | (name, uuid, fs) :: rest =>
      focus (λ _, fs) (λ fs self, match Tbl.get_mut_by_uuid (filesystems self) uuid with
                                  | Some (_, _, back) => set_filesystems (back fs) self
                                  | None => self
                                  end) fs_teardown ;;!
      teardown_filesystems rest
  end.

Definition teardown : obj ThinPool unit :=
  let! self := get_self in
  teardown_filesystems (Tbl.iter (filesystems self)) ;;!
  on_pool ThinPoolDev_teardown ;;!
  on_mdv mdv_teardown.

Definition lengths_sum (l : list (Z * Z)) : Z := sum64 l.*2.
Definition total_physical_used (self : ThinPool) : res Z :=
  match thin_pool_status self with
  | None => Err (Msg "Unknown status for thin pool device")
  | Some PoolError => Err (Msg "Devicemapper could not obtain status for devicemapper thin pool device")
  | Some PoolFail => Err (Msg "The thinpool device has failed")
  | Some (Working usage _) =>
      Ok (datablocks_to_sectors (used_data usage) +64 lengths_sum (tp_spare (segments self))
          +64 metablocks_sectors (used_meta usage) +64 lengths_sum (tp_mdv (segments self)))
  end.

Definition has_filesystems (self : ThinPool) : bool := negb (Tbl.is_empty (filesystems self)).
Definition get_filesystem_by_uuid (self : ThinPool) (uuid : Z) : option (Str * StratFilesystem) :=
  Tbl.get_by_uuid (filesystems self) uuid.
Definition get_filesystem_by_name (self : ThinPool) (name : Str) : option (Z * StratFilesystem) :=
  Tbl.get_by_name (filesystems self) name.

(** [self.id_gen.new_id()?] *)
Definition next_thin_id : obj ThinPool Z :=
  let! self := get_self in
  let '(r, next) := Ids.new_id (id_gen self) in
  modify_self (set_id_gen next) ;;! question r.

(** [self.filesystems.insert(..)] *)
Definition insert_filesystem (name : Str) (uuid : Z) (fs : StratFilesystem) : obj ThinPool unit :=
  let! self := get_self in
  let! '(_, t) := ilift (Tbl.insert (filesystems self) name uuid fs) in
  modify_self (set_filesystems t).

(** [self.filesystems.get_by_uuid(uuid).expect(..)] and [udev_fs_change] *)
Definition announce (pool_name : Str) (uuid : Z) : obj ThinPool unit :=
  let! self := get_self in
  let! '(name, fs) := ilift (expect (Tbl.get_by_uuid (filesystems self) uuid) "Inserted above") in
  lift_sys (udev_fs_change fs pool_name uuid name).

Definition create_filesystem (pool_name : Str) (pool_uuid : Z) (name : Str) (size : option Z) : obj ThinPool Z :=
  let! id := next_thin_id in
  let! self := get_self in
  let! '(uuid, new_filesystem) := lift_sys (fs_initialize pool_uuid (thin_pool self) size id) in
  let! r := lift_sys (itry (save_fs (mdv self) (fs_record new_filesystem name uuid))) in
  match r with
  | inl err =>
      lift_sys settle ;;!
      lift_sys (ignoring (ThinDev_destroy (thin_pool self)) (thin_dev new_filesystem)) ;;!
      ierr err
  | inr _ =>
      insert_filesystem name uuid new_filesystem ;;!
      announce pool_name uuid ;;!
      iret uuid
  end.

Definition snapshot_filesystem (pool_name : Str) (pool_uuid origin_uuid : Z) (snapshot_name : Str)
    : obj ThinPool (Z * StratFilesystem) :=
  let! snapshot_fs_uuid := lift_sys new_v4 in
  let! '(dm_name, dm_uuid) := ilift (format_thin_ids pool_uuid (Filesystem snapshot_fs_uuid)) in
  let! snapshot_id := next_thin_id in
  let! self := get_self in
  match get_filesystem_by_uuid self origin_uuid with
  | None => ierr (Msg "snapshot_filesystem failed, filesystem not found")
  | Some (_, filesystem) =>
      let! new_filesystem := lift_sys (fs_snapshot filesystem (thin_pool self) dm_name dm_uuid snapshot_fs_uuid snapshot_id) in
      lift_sys (save_fs (mdv self) (fs_record new_filesystem snapshot_name snapshot_fs_uuid)) ;;!
      insert_filesystem snapshot_name snapshot_fs_uuid new_filesystem ;;!
      announce pool_name snapshot_fs_uuid ;;!
      iret (snapshot_fs_uuid, new_filesystem)
  end.

Definition destroy_filesystem (pool_name : Str) (uuid : Z) : obj ThinPool (option Z) :=
  let! self := get_self in
  let '(removed, t) := Tbl.remove_by_uuid (filesystems self) uuid in
  modify_self (set_filesystems t) ;;!
  match removed with
  | None => iret None
  | Some (fs_name, fs) =>
      let! '(r, d) := lift_sys (dm_on (ThinDev_destroy (thin_pool self)) (thin_dev fs)) in
      match r with
      | inr _ => let! _ := lift_sys (itry (rm_fs (mdv self) uuid)) in iret (Some uuid)
      | inl err => insert_filesystem fs_name uuid (set_thin_dev d fs) ;;! ierr err
      end
  end.

Definition rename_filesystem (pool_name : Str) (uuid : Z) (new_name : Str) : obj ThinPool (option bool) :=
  let! self := get_self in
  match Tbl.get_by_uuid (filesystems self) uuid with
  | None => iret None
  | Some (old_name, _) =>
      if bool_decide (old_name = new_name) then iret (Some false)
      else if Tbl.contains_name (filesystems self) new_name then ierr (Msg "name")
      else
        let '(removed, t) := Tbl.remove_by_uuid (filesystems self) uuid in
        modify_self (set_filesystems t) ;;!
        let! '(_, filesystem) := ilift (expect removed "Must succeed since self.filesystems.get_by_uuid() returned a value") in
        let! r := lift_sys (itry (save_fs (mdv self) (fs_record filesystem new_name uuid))) in
        match r with
        | inl err => insert_filesystem old_name uuid filesystem ;;! ierr err
        | inr _ => insert_filesystem new_name uuid filesystem ;;! announce pool_name uuid ;;! iret (Some true)
        end
  end.

Definition get_eventing_dev_names (self : ThinPool) (pool_uuid : Z) : res (list Str) :=
  let? a := format_flex_ids pool_uuid ThinMeta in
  let? b := format_flex_ids pool_uuid ThinData in
  let? c := format_flex_ids pool_uuid MetadataVolume in
  let? d := format_thinpool_ids pool_uuid Pool in
  let? l := foldr (λ '(_, uuid, _) acc,
                     let? l := acc in
                     let? n := format_thin_ids pool_uuid (Filesystem uuid) in Ok (n.1 :: l))
              (Ok []) (Tbl.iter (filesystems self)) in
  Ok ([a.1; b.1; c.1; d.1] ++ l).

(** [xform_target_line] *)
Definition xform_target_line (device : Z) (line : LinearLine) : LinearLine :=
  mkLine (logical_start line) (line_length line) device (physical_start line).

Definition set_device (device : Z) : obj ThinPool bool :=
  let! self := get_self in
  if device =? backstore_device self then iret false
  else
    let xform := fmap (M := list) (xform_target_line device) in
    let meta_table := xform (LinearDev_table (ThinPoolDev_meta_dev (thin_pool self))) in
    let data_table := xform (LinearDev_table (ThinPoolDev_data_dev (thin_pool self))) in
    let mdv_table := xform (LinearDev_table (mdv_dev (mdv self))) in
    on_pool (ThinPoolDev_set_meta_table meta_table) ;;!
    on_pool (ThinPoolDev_set_data_table data_table) ;;!
    on_mdv (mdv_set_table mdv_table) ;;!
    modify_self (set_backstore_device device) ;;!
    iret true.

Definition record (self : ThinPool) : FlexDevsSave :=
  mkFlexDevsSave (tp_mdv (segments self)) (tp_meta (segments self)) (tp_data (segments self)) (tp_spare (segments self)).
Definition record_dev (self : ThinPool) : ThinPoolDevSave :=
  mkThinPoolDevSave (ThinPoolDev_data_block_size (thin_pool self)).
End with_dm.
End TP.
