(* ===== verification/ThinPoolSpec.v ===== *)
(** * What the thin pool guarantees

    Theorems about [src/engine/strat_engine/thinpool/thinpool.rs] and [thinids.rs]: the low water
    mark, the segment lists, thin device identifiers, and the termination of [ThinPool::check]. *)
From stdpp Require Import base list gmap strings.
From Stdlib Require Import ZArith Lia.
From S2P Require Import Prelude Disk Sizes External Json StaticHeader MDA BDA Table Shared System Names Crypt BlockDev Devices BlockDevMgr Bindings Writing Dm Mdv Setup RangeAlloc Alloc Tiers Backstore BackstoreSpec ThinPool.

(** ** The low water mark *)

Lemma calc_lowater_ok used data_dev_size available :
  0 ≤ used ≤ data_dev_size → 0 ≤ available → 0 < data_dev_size + available →
  (data_dev_size + available) * SPACE_CRIT_PCT ≤ u64_max →
  let crit := (data_dev_size + available) - (data_dev_size + available) * SPACE_CRIT_PCT / 100 in
  calc_lowater used data_dev_size available =
    Ok (Z.max (Z.max DATA_LOWATER (crit - available)) (data_dev_size - used - DATA_LOWATER)).
Proof.
  intros Hu Ha Ht Hmax crit. unfold calc_lowater, SPACE_CRIT_PCT, DATA_LOWATER, rassert in *.
  assert (u64_max = 18446744073709551615) as Hm by reflexivity.
  rewrite (wrap64_small (data_dev_size + available)) by (split; lia).
  rewrite (wrap64_small (_ * 95)) by (split; lia).
  pose proof (Z.div_lt_upper_bound ((data_dev_size + available) * 95) 100 (data_dev_size + available)) as Hlt.
  pose proof (Z.div_pos ((data_dev_size + available) * 95) 100).
  destruct (Z.ltb_spec ((data_dev_size + available) * 95 / 100) (data_dev_size + available)); [|lia].
  rewrite (wrap64_small (_ - _ / 100)) by (split; lia). fold crit.
  rewrite (wrap64_small (u64_max - available)) by (split; lia).
  destruct (Z.leb_spec 2048 (u64_max - available)); [|lia].
  rewrite (wrap64_small (2048 + available)) by (split; lia).
  rewrite (wrap64_small (data_dev_size - used)) by (split; lia).
  destruct (Z.ltb_spec crit (2048 + available)); cbn [rbind].
  - f_equal. lia.
  - destruct (Z.leb_spec available crit); [|lia]. rewrite wrap64_small by (unfold crit in *; split; lia).
    cbn [rbind]. f_equal. lia.
Qed.

(** The low water mark never trips an assertion and raises an event in time: it is at least
    [DATA_LOWATER]; the pool's free blocks are above it only while less than 95% of all blocks
    (those of the data device and those it can still get) are in use; and whenever it is crossed
    again at most [DATA_LOWATER] more blocks have been used. *)
Theorem calc_lowater_spec used data_dev_size available :
  0 ≤ used ≤ data_dev_size → 0 ≤ available → 0 < data_dev_size + available →
  (data_dev_size + available) * SPACE_CRIT_PCT ≤ u64_max →
  ∃ lowater, calc_lowater used data_dev_size available = Ok lowater ∧
    DATA_LOWATER ≤ lowater ∧
    (∀ used', used' ≤ data_dev_size → lowater ≤ data_dev_size - used' →
       used' * 100 ≤ (data_dev_size + available) * SPACE_CRIT_PCT) ∧
    (∀ used', used + DATA_LOWATER ≤ used' → data_dev_size - used' ≤ lowater).
Proof.
  intros Hu Ha Ht Hmax. rewrite calc_lowater_ok by done. eexists. split; [done|].
  set (T := (data_dev_size + available) * SPACE_CRIT_PCT) in *.
  pose proof (Z.mul_div_le T 100 ltac:(lia)). split; [lia|]. split; intros; lia.
Qed.

Lemma calc_lowater_spec_witness :
  ∃ lowater, calc_lowater 100 8192 100000 = Ok lowater ∧ DATA_LOWATER ≤ lowater ∧
    (∀ used', used' ≤ 8192 → lowater ≤ 8192 - used' → used' * 100 ≤ (8192 + 100000) * SPACE_CRIT_PCT) ∧
    (∀ used', 100 + DATA_LOWATER ≤ used' → 8192 - used' ≤ lowater).
Proof. apply (calc_lowater_spec 100 8192 100000); try lia. vm_compute. discriminate. Defined.

(** ** Segment lists *)

(** a segment list of one device, as block device segments *)
Definition as_blkdev_segs (uuid dev : Z) (l : list (Z * Z)) : list BlkDevSegment :=
  (λ '(st, len), mkBDS uuid (mkSegment st len dev)) <$> l.

Lemma last_fmap_ {A B} (f : A → B) l : last (f <$> l) = f <$> last l.
Proof. induction l as [|a [|b l] IH]; [done|done|]. exact IH. Qed.
Lemma removelast_fmap {A B} (f : A → B) l : removelast (f <$> l) = f <$> removelast l.
Proof. induction l as [|a [|b l] IH]; [done|done|]. change (f a :: removelast (f <$> (b :: l)) = f a :: (f <$> removelast (b :: l))). by rewrite IH. Qed.

Lemma segs_to_table_from_map dev off l :
  segs_to_table_from dev off l = map_to_dm_from off (segment <$> as_blkdev_segs 0 dev l).
Proof. revert off. induction l as [|[st len] l IH]; intros off; [done|]. cbn. by rewrite IH. Qed.

(** The thin pool's own [coalesce_segs] and [segs_to_table] are [coalesce_blkdevsegs] and
    [map_to_dm] of the backstore on segments of a single device, so what holds of the latter holds
    of the former. *)
Theorem coalesce_segs_equiv uuid dev left right :
  as_blkdev_segs uuid dev (coalesce_segs left right) =
    coalesce_blkdevsegs (as_blkdev_segs uuid dev left) (as_blkdev_segs uuid dev right) ∧
  segs_to_table dev left = map_to_dm (as_blkdev_segs uuid dev left).
Proof.
  split.
  - unfold coalesce_segs, coalesce_blkdevsegs, as_blkdev_segs. rewrite last_fmap_.
    destruct (last left) as [[st len]|]; [|done]. destruct right as [|[st' len'] right]; [done|].
    rewrite fmap_cons. cbn [fmap option_fmap option_map fst snd seg_uuid segment start length_].
    rewrite bool_decide_eq_true_2 by done. cbn [andb].
    destruct (_ =? _); [|by rewrite fmap_app, fmap_cons].
    rewrite removelast_fmap, !fmap_app. done.
  - unfold segs_to_table, map_to_dm. rewrite segs_to_table_from_map. f_equal.
    unfold as_blkdev_segs. rewrite <- !list_fmap_compose. apply list_fmap_ext. by intros ? [] ?.
Qed.

(** ** Identifiers of thin devices *)

Section ids.
Context `{Cryptsetup} `{!Devicemapper} `{!DmLaws}.

(** the identifiers given out by [n] calls *)
Fixpoint take_ids (n : nat) (next_id : Z) : list Z :=
  match n with
  | O => []
  | S n => match Ids.new_id next_id with (inr id, next) => id :: take_ids n next | (inl _, _) => [] end
  end.

Lemma take_ids_from n next_id : 0 ≤ next_id → next_id + Z.of_nat n < 2 ^ 32 →
  ∃ k, (k ≤ n)%nat ∧ take_ids n next_id = seqZ next_id (Z.of_nat k).
Proof.
  revert next_id. induction n as [|n IH]; intros next Hn Hb; [by exists 0%nat|].
  cbn [take_ids]. unfold Ids.new_id. destruct (ThinDevId_new_u64 next) as [e|id] eqn:E; [by exists 0%nat; split; [lia|]|].
  apply thin_id_value in E as ->. rewrite Z.mod_small by lia.
  destruct (IH (next + 1)) as (k & Hk & ->); [lia..|]. exists (S k). split; [lia|].
  rewrite (seqZ_cons next) by lia. f_equal. f_equal; lia.
Qed.

Lemma foldr_max_ge i (l : list Z) x : x ∈ i :: l → x ≤ foldr Z.max i l.
Proof.
  intros Hx. induction l as [|y l IH]; cbn; [apply list_elem_of_singleton in Hx; lia|].
  rewrite !elem_of_cons in *. destruct Hx as [->|[->|Hx]]; [|lia|].
  - specialize (IH ltac:(by left)). lia.
  - specialize (IH ltac:(by right)). lia.
Qed.
Lemma foldr_max_in i (l : list Z) : foldr Z.max i l ∈ i :: l.
Proof.
  induction l as [|y l IH]; cbn; [by left|]. destruct (Z.max_spec y (foldr Z.max i l)) as [[_ ->]|[_ ->]].
  - apply elem_of_cons in IH as [->|IH]; [by left|]. right. by right.
  - right. by left.
Qed.
End ids.

(** Thin device identifiers are never reused: a pool made from the identifiers of existing
    filesystems (each of 24 bits) gives out identifiers that are pairwise different and none of
    them in use. *)
Theorem thin_ids_fresh `{Cryptsetup} `{!Devicemapper} `{!DmLaws} ids n :
  Forall (λ i, 0 ≤ i < 2 ^ 24) ids → Z.of_nat n < 2 ^ 31 →
  NoDup (take_ids n (Ids.new_from_ids ids)) ∧
  (∀ id, id ∈ take_ids n (Ids.new_from_ids ids) → id ∉ ids).
Proof.
  intros Hids Hn.
  assert (0 ≤ Ids.new_from_ids ids ≤ 2 ^ 24 ∧ ∀ i, i ∈ ids → i < Ids.new_from_ids ids) as [Hb Hlt].
  { destruct ids as [|i l]; [split; [cbn; lia|set_solver]|]. cbn [Ids.new_from_ids].
    rewrite Forall_forall in Hids. pose proof (Hids _ (foldr_max_in i l)).
    rewrite Z.mod_small by lia. split; [lia|]. intros x Hx%foldr_max_ge. lia. }
  destruct (take_ids_from n (Ids.new_from_ids ids)) as (k & _ & ->); [lia..|].
  split; [apply NoDup_seqZ|]. intros id [Hid _]%elem_of_seqZ Hin%Hlt. lia.
Qed.

Lemma thin_ids_fresh_witness :
  @take_ids script_crypt script_dm 3 (Ids.new_from_ids [5; 2; 9]) = [10; 11; 12] ∧
  (∀ id, id ∈ @take_ids script_crypt script_dm 3 (Ids.new_from_ids [5; 2; 9]) → id ∉ [5; 2; 9]).
Proof.
  split; [vm_compute; reflexivity|].
  apply (@thin_ids_fresh script_crypt script_dm script_dm_laws [5; 2; 9] 3).
  - repeat constructor; lia.
  - lia.
Defined.

(** ** Termination of [check] *)

Section terminates.
Context `{Crc32c} `{Chrono} `{Cryptsetup} `{!Devicemapper} `{!DmLaws} `{UuidDisplay} `{ClevisCodec} `{DmNames} `{FsSerde}.
Implicit Types (h : TP.ThinPool * Backstore).

Lemma total_sizes_ok devs : Forall dev_geo devs → BDM.total_sizes devs = Ok ((λ bd, limit (allocator bd)) <$> devs).
Proof.
  induction 1 as [|bd devs [Hg _] _ IH]; [done|]. cbn [BDM.total_sizes]. rewrite IH, fmap_cons.
  assert (SBD.total_size bd = Ok (limit (allocator bd))) as ->; [|done].
  unfold SBD.total_size. change (RA.size (sbd_used bd)) with (limit (allocator bd)).
  by rewrite Hg, Z.eqb_refl.
Qed.

Lemma available_in_backstore_ok b : bs_ok b → BS.available_in_backstore b = Ok (usable b - bs_next b).
Proof.
  intros Hok. pose proof (seg_total_u64 b Hok) as Hu. destruct Hok as [Ht _ Hn Hs].
  pose proof (tier_bounds _ _ Ht) as (? & ? & ? & ?). pose proof (t_total _ _ Ht) as Htot.
  unfold BS.available_in_backstore, DT.usable_size, DT.size, BDM.size, DT.metadata_size, BDM.metadata_size.
  fold (bs_devs b). rewrite total_sizes_ok by apply (t_geo _ _ Ht). cbn [rbind].
  change (SBD.metadata_size <$> bs_devs b) with (ext_size <$> bs_devs b).
  rewrite !sum64_exact by (fold (limit_total (bs_devs b)); fold (meta_total (bs_devs b)); split; lia).
  fold (limit_total (bs_devs b)) (meta_total (bs_devs b)). unfold usable, in_reserve.
  rewrite (wrap64_small (limit_total _ - _)) by (split; lia). rewrite wrap64_small by (split; lia).
  f_equal. lia.
Qed.

(** [grows h m Q]: every run of [m] keeps the backstore in order, and its result satisfies [Q] *)
Definition grows {A} h (m : obj (TP.ThinPool * Backstore) A) (Q : A → Backstore → Prop) : Prop :=
  bs_ok h.2 → spec h m (λ r h', bs_le h.2 h'.2 ∧ ∀ a, r = Ok a → Q a h'.2).

Lemma grows_ret {A} h (a : A) (Q : A → Backstore → Prop) : Q a h.2 → grows h (iret a) Q.
Proof. intros HQ Hok s. split; [by apply bs_le_refl|]. by intros ? [= <-]. Qed.
Lemma grows_lift {A} h (r : res A) (Q : A → Backstore → Prop) : (∀ a, r = Ok a → Q a h.2) → grows h (ilift r) Q.
Proof. intros HQ Hok s. split; [by apply bs_le_refl|]. exact HQ. Qed.
Lemma grows_bind {A B} h (m : obj _ A) (k : A → obj _ B) P Q :
  grows h m P → (∀ a h', bs_le h.2 h'.2 → P a h'.2 → grows h' (k a) Q) → grows h (ibind m k) Q.
Proof.
  intros Hm Hk Hok s. specialize (Hm Hok s). unfold ibind.
  destruct (m (h, s)) as [[a|e|w] [h' s']]; destruct Hm as [Hle HP]; [|by split..].
  specialize (Hk a h' Hle (HP a eq_refl) (proj1 Hle) s').
  destruct (k a (h', s')) as [r [h2 s2]]. destruct Hk as [Hle2 HQ]. split; [by eapply bs_le_trans|done].
Qed.
Lemma grows_self {A} h (k : _ → obj _ A) Q : grows h (k h) Q → grows h (ibind get_self k) Q.
Proof. intros Hk Hok s. apply (Hk Hok s). Qed.
Lemma grows_weaken {A} h (m : obj _ A) (P Q : A → Backstore → Prop) :
  grows h m P → (∀ a b, bs_le h.2 b → P a b → Q a b) → grows h m Q.
Proof.
  intros Hm HPQ Hok s. specialize (Hm Hok s). destruct (m (h, s)) as [r [h' s']]. destruct Hm as [Hle HP].
  split; [done|]. intros a ->. apply HPQ; [done|by apply HP].
Qed.
Lemma grows_on_self {A} h (m : obj TP.ThinPool A) : grows h (TP.on_self m) (λ _ b, b = h.2).
Proof.
  intros Hok s. unfold TP.on_self, focus. destruct (m (h.1, s)) as [r [t s']]. split; [by apply bs_le_refl|done].
Qed.
Lemma grows_lift_sys {A} h (m : sys A) : grows h (lift_sys m) (λ _ b, b = h.2).
Proof. intros Hok s. unfold lift_sys. destruct (m s) as [r s']. split; [by apply bs_le_refl|done]. Qed.
(** a failed extension counts as zero *)
Lemma grows_or_zero h (m : obj _ Z) (Q : Z → Backstore → Prop) :
  grows h m Q → (∀ b, bs_le h.2 b → Q 0 b) → grows h (TP.or_zero m) Q.
Proof.
  intros Hm HQ Hok s. specialize (Hm Hok s). unfold TP.or_zero, ibind, itry.
  destruct (m (h, s)) as [[a|e|w] [h' s']]; destruct Hm as [Hle HP]; cbn; (split; [done|]).
  - intros ? [= <-]. by apply HP.
  - intros ? [= <-]. by apply HQ.
  - done.
Qed.

Lemma grows_request h pool req m : u64 req → 0 < m →
  grows h (TP.on_backstore (BS.request pool req m))
    (λ o b, match o with Some (_, n) => bs_next b = bs_next h.2 + n ∧ n mod m = 0 ∧ 0 < n | None => True end).
Proof.
  intros Hr Hm Hok s. unfold TP.on_backstore, focus.
  pose proof (request_run pool req m h.2 s Hok Hr Hm) as Hrun.
  destruct (BS.request pool req m (h.2, s)) as [r [b s']]. cbn in *.
  destruct Hrun as [Hok' Hres]. split.
  - done.
  - intros a ->. destruct a as [[st n]|]; [|done]. cbn in Hres. split_and!; [lia|by apply Hres|lia].
Qed.

(** what an extension takes out of the backstore: nothing, or at least a data block *)
Definition taken h (n : Z) (b : Backstore) : Prop := n ≠ 0 → bs_next h.2 + DATA_BLOCK_SIZE ≤ bs_next b.

Lemma taken_zero h b : taken h 0 b.
Proof. by intros []. Qed.

Lemma grows_extend h pool req m data : u64 req → DATA_BLOCK_SIZE ≤ m →
  grows h (TP.extend_thin_sub_device pool req m data) (taken h).
Proof.
  intros Hr Hm. unfold DATA_BLOCK_SIZE in *. unfold TP.extend_thin_sub_device. destruct (Z.eqb_spec m 0) as [|_]; [lia|].
  eapply grows_bind; [apply grows_request; [done|lia]|].
  intros [[st n]|] h1 Hle1 Hn1; [|apply grows_ret, taken_zero].
  apply grows_self. destruct h1 as [tp b1]. cbn in Hle1, Hn1.
  eapply grows_bind; [by apply grows_lift with (Q := λ _ b, b = b1)|]. intros device h2 ? E2.
  eapply grows_bind; [apply grows_on_self|]. intros ? h3 ? E3.
  eapply grows_bind; [apply grows_on_self|]. intros ? h4 ? E4.
  eapply grows_bind; [apply grows_on_self|]. intros ? h5 ? E5.
  apply grows_ret. unfold taken. rewrite E5, E4, E3, E2. intros _. unfold DATA_BLOCK_SIZE.
  destruct Hn1 as (-> & Hmod & Hpos). apply Z.mod_divide in Hmod as [k ->]; [|lia]. pose proof (Z.mul_pos_cancel_r k m ltac:(lia)). assert (0 < k) by tauto. nia.
Qed.

Lemma grows_meta h pool (usage : ThinPoolUsage) target :
  grows h (if total_meta usage <? target then
             let meta_request := target -64 total_meta usage in
             if MIN_META_SEGMENT_SIZE <? meta_request then
               let! n := TP.or_zero (TP.extend_thin_meta_device pool (metablocks_sectors meta_request)) in
               iret (negb (n =? 0))
             else iret false
           else iret false)
    (λ saved b, saved = true → bs_next h.2 + DATA_BLOCK_SIZE ≤ bs_next b).
Proof.
  destruct (_ <? _); [|by apply grows_ret]. cbn zeta. destruct (_ <? _); [|by apply grows_ret].
  eapply grows_bind.
  { apply grows_or_zero; [apply grows_extend; [apply wrap64_u64|]|intros; apply taken_zero].
    vm_compute. discriminate. }
  intros n h1 ? Hn. apply grows_ret. intros E%negb_true_iff%Z.eqb_neq. by apply Hn.
Qed.

Lemma grows_data h pool free : u64 free →
  grows h (if free <? DATA_BLOCK_SIZE then iret 0 else TP.or_zero (TP.extend_thin_data_device pool free)) (taken h).
Proof.
  intros Hf. destruct (_ <? _); [apply grows_ret, taken_zero|].
  apply grows_or_zero; [by apply grows_extend|intros; apply taken_zero].
Qed.

Lemma grows_check_extend h pool usage :
  grows h (TP.check_extend pool usage) (λ saved b, saved = true → bs_next h.2 + DATA_BLOCK_SIZE ≤ bs_next b).
Proof.
  unfold TP.check_extend. apply grows_self. destruct h as [tp b0].
  eapply grows_bind; [by apply grows_lift with (Q := λ _ b, b = b0)|]. intros us h1 Hle1 E1. cbn zeta.
  eapply grows_bind; [apply grows_meta|]. intros save_meta h2 Hle2 Hmeta.
  apply grows_self. destruct h2 as [tp2 b2]. cbn in Hle2, Hmeta.
  eapply grows_bind; [by apply grows_lift with (Q := λ a b, b = b2 ∧ BS.available_in_backstore b2 = Ok a)|].
  intros free h3 Hle3 [E3 Hfree]. rewrite available_in_backstore_ok in Hfree by apply Hle2. injection Hfree as <-.
  eapply grows_bind.
  { apply grows_data. pose proof (seg_total_u64 b2 (proj1 Hle2)). destruct Hle2 as ([Ht _ Hn Hs] & _ & _).
    pose proof (tier_bounds _ _ Ht) as (? & ? & ? & ?). pose proof (t_total _ _ Ht) as Htot.
    unfold usable, in_reserve. split; lia. }
  intros amount h4 Hle4 Hamount. apply grows_self. destruct h4 as [tp4 b4].
  eapply grows_bind; [by apply grows_lift with (Q := λ _ b, b = b4)|]. intros avail h5 ? E5.
  eapply grows_bind; [apply grows_lift with (Q := λ _ b, b = b4); by intros|]. intros lw h6 ? E6.
  eapply grows_bind; [apply grows_on_self|]. intros ? h7 ? E7.
  eapply grows_bind; [apply grows_on_self|]. intros ? h8 ? E8.
  apply grows_ret. rewrite E8, E7, E6. cbn in *. unfold taken in Hamount. cbn in *. subst.
  destruct Hle1 as (_ & _ & Hm1). destruct Hle2 as (_ & _ & Hm2). destruct Hle4 as (_ & _ & Hm4).
  intros [Hs|Hs%negb_true_iff%Z.eqb_neq]%orb_true_iff; [specialize (Hmeta Hs)|specialize (Hamount Hs)]; lia.
Qed.

Lemma grows_do_check h pool :
  grows h (TP.do_check pool) (λ saved b, saved = true → bs_next h.2 + DATA_BLOCK_SIZE ≤ bs_next b).
Proof.
  unfold TP.do_check. apply grows_self. destruct h as [tp b0].
  eapply grows_bind; [by apply grows_lift with (Q := λ _ b, b = b0)|]. intros device h1 ? E1.
  destruct (negb _); [by apply grows_lift|].
  eapply grows_bind; [apply grows_lift_sys|]. intros status h2 ? E2.
  eapply grows_bind with (P := λ saved b, saved = true → bs_next b0 + DATA_BLOCK_SIZE ≤ bs_next b).
  { destruct status; [|by apply grows_ret..].
    eapply grows_weaken; [apply grows_check_extend|]. rewrite E2, E1. done. }
  intros saved h3 ? Hsaved. eapply grows_bind; [apply grows_on_self|]. intros ? h4 ? E4.
  apply grows_self. destruct h4 as [tp4 b4].
  eapply grows_bind; [apply grows_on_self|]. intros ? h5 ? E5. apply grows_ret. rewrite E5, E4. exact Hsaved.
Qed.

Lemma check_loop_ends fuel pool saved h s : bs_ok h.2 →
  (usable h.2 - bs_next h.2) / DATA_BLOCK_SIZE < Z.of_nat fuel →
  fst (TP.check_loop fuel pool saved (h, s)) ≠ Ok None.
Proof.
  revert saved h s. induction fuel as [|fuel IH]; intros saved h s Hok Hlt.
  { pose proof (seg_total_u64 h.2 Hok). destruct Hok as [Ht _ Hn Hs].
    pose proof (tier_bounds _ _ Ht) as (? & _). unfold usable, in_reserve in Hlt.
    pose proof (Z.div_pos (free_total (bs_devs h.2) + seg_total (bs_segs h.2) - bs_next h.2) DATA_BLOCK_SIZE).
    unfold DATA_BLOCK_SIZE in *. lia. }
  cbn [TP.check_loop]. unfold ibind at 1.
  pose proof (grows_do_check h pool Hok s) as Hc. destruct (TP.do_check pool (h, s)) as [[b|e|w] [h' s']]; [|done..].
  destruct Hc as ((Hok' & Hu & Hn) & HQ). destruct b; [|done]. apply IH; [done|].
  specialize (HQ true eq_refl eq_refl). rewrite Hu. unfold DATA_BLOCK_SIZE in *.
  assert (usable h.2 - bs_next h'.2 ≤ usable h.2 - bs_next h.2 + (-1) * (2 * 1024)) as Hle by lia.
  apply (Z.div_le_mono _ _ (2 * 1024) ltac:(lia)) in Hle. rewrite Z.div_add in Hle by lia. lia.
Qed.

Lemma check_loop_keeps fuel pool saved h s : bs_ok h.2 →
  bs_le h.2 (TP.check_loop fuel pool saved (h, s)).2.1.2.
Proof.
  revert saved h s. induction fuel as [|fuel IH]; intros saved h s Hok; [by apply bs_le_refl|].
  cbn [TP.check_loop]. unfold ibind at 1.
  pose proof (grows_do_check h pool Hok s) as Hc. destruct (TP.do_check pool (h, s)) as [[b|e|w] [h' s']];
    destruct Hc as [Hle _]; [|done..].
  destruct b; [|done]. eapply bs_le_trans; [exact Hle|]. apply IH, Hle.
Qed.

Lemma check_loop_more k fuel pool saved h s :
  fst (TP.check_loop fuel pool saved (h, s)) ≠ Ok None →
  TP.check_loop (fuel + k) pool saved (h, s) = TP.check_loop fuel pool saved (h, s).
Proof.
  revert saved h s. induction fuel as [|fuel IH]; intros saved h s Hne; [done|].
  cbn [Nat.add TP.check_loop] in *. unfold ibind in *.
  destruct (TP.do_check pool (h, s)) as [[[]|e|w] [h' s']]; [by apply IH|done..].
Qed.

Lemma check_fuel_enough pool h s : bs_ok h.2 → fst (TP.check_loop (TP.check_fuel h.2) pool false (h, s)) ≠ Ok None.
Proof.
  intros Hok. apply check_loop_ends; [done|]. unfold TP.check_fuel. rewrite available_in_backstore_ok by done.
  destruct Hok as [Ht _ Hn Hs]. pose proof (tier_bounds _ _ Ht) as (? & _).
  rewrite Nat2Z.inj_succ, Z2Nat.id; [lia|]. apply Z.div_pos; [unfold usable, in_reserve; lia|].
  unfold DATA_BLOCK_SIZE. lia.
Qed.
End terminates.

(** C29: [ThinPool::check] always ends: every round of [while self.do_check(..)?] that asks for another
    one has taken at least a data block from the backstore, so [check_fuel] rounds, one more than
    the data blocks the backstore has left, are enough; any larger bound gives the same run.  The
    backstore is in order afterwards, whatever failed. *)
Theorem thin_check_terminates `{Crc32c} `{Chrono} `{Cryptsetup} `{!Devicemapper} `{!DmLaws} `{UuidDisplay}
    `{ClevisCodec} `{DmNames} `{FsSerde} pool tp b s :
  bs_ok b →
  let run fuel := TP.check_loop fuel pool false ((tp, b), s) in
  (run (TP.check_fuel b)).1 ≠ Ok None ∧
  bs_le b (run (TP.check_fuel b)).2.1.2 ∧
  ∀ fuel, (TP.check_fuel b ≤ fuel)%nat → run fuel = run (TP.check_fuel b).
Proof.
  intros Hok run. pose proof (check_fuel_enough pool (tp, b) s Hok) as Hne. split; [exact Hne|].
  split; [by apply (check_loop_keeps _ pool false (tp, b))|].
  intros fuel Hle. unfold run. replace fuel with (TP.check_fuel b + (fuel - TP.check_fuel b))%nat by lia.
  by apply check_loop_more.
Qed.

Section examples.
#[local] Existing Instance hex_instance.
#[local] Existing Instance simple_display.
#[local] Existing Instance script_crypt.
#[local] Existing Instance script_dm.
#[local] Existing Instance script_dm_laws.
#[local] Existing Instance example_codec.
#[local] Existing Instance dm_lengths.
#[local] Existing Instance any_time.
#[local] Existing Instance crc32c_instance.
#[local] Existing Instance ex_serde.

(** the backstore after [ThinPool::new] has taken its four devices *)
Definition ex_sizes : list Z := [32768; 32768; 1572864; 32768].
Definition ex_bs_new : Backstore := (BS.alloc 7 ex_sizes (ex_bs, run_sys [])).2.1.
Definition meta_node : Str := str "/dev/dm/" ++ name_text (DFlex 7 ThinMeta).
Definition tp_sys (script : list bool) : Sys :=
  mkSys {[meta_node := blank_device]} ∅ script (λ n, Z.of_nat n) (λ n, mkTime (Z.of_nat n) 0) 0.
Definition ex_new := TP.new 7 ThinPoolSizeParams_default DATA_BLOCK_SIZE (ex_bs, tp_sys []).
Definition ex_tp : TP.ThinPool :=
  match ex_new.1 with
  | Ok tp => tp
  | _ => TP.mkTP (mkThinPool (mkLinear [] []) (mkLinear [] []) 0) (mkSegments [] [] [] []) 0 Tbl.default ex_mdv 0 None
  end.

Lemma ex_bs_new_ok : bs_ok ex_bs_new.
Proof.
  pose proof (alloc_run 7 ex_sizes ex_bs (run_sys []) ex_bs_ok) as Hrun. unfold ex_bs_new.
  destruct (BS.alloc _ _ _) as [r [b s]]. apply Hrun; apply (bool_decide_unpack _); vm_compute; exact I.
Qed.

(** The first round gives all remaining data blocks to the pool, the second finds nothing to do. *)
Lemma thin_check_terminates_witness :
  is_ok ex_new.1 = true ∧ bs_next ex_new.2.1 = bs_next ex_bs_new ∧
  (TP.check_loop (TP.check_fuel ex_bs_new) 7 false ((ex_tp, ex_bs_new), tp_sys [])).1 = Ok (Some true) ∧
  (TP.check_loop (TP.check_fuel ex_bs_new) 7 false ((ex_tp, ex_bs_new), tp_sys [])).1 ≠ Ok None.
Proof.
  do 3 (split; [vm_compute; reflexivity|]).
  exact (proj1 (thin_check_terminates 7 ex_tp ex_bs_new (tp_sys []) ex_bs_new_ok)).
Defined.
End examples.
