(* ===== verification/Pool.v ===== *)
(** * Pools

    Models [src/engine/strat_engine/pool.rs]: the checks of a pool's metadata, and [StratPool] with
    its operations on the backstore and the thin pool.  [serde_json] on a [PoolSave] is an
    argument ([PoolSerde]), and so is the random choice of the devices that get the metadata. *)
From stdpp Require Import base list gmap strings.
From Stdlib Require Import ZArith Lia.
From S2P Require Import Prelude Disk Sizes External Json StaticHeader MDA BDA Table Actions Shared System Names Crypt BlockDev Devices BlockDevMgr Setup RangeAlloc Tiers Dm Mdv Backstore ThinPool.

Class PoolSerde : Type := {
  pool_to_string : PoolSave → list Z;
  pool_from_slice : list Z → option PoolSave;
  pool_roundtrip : ∀ p, pool_from_slice (pool_to_string p) = Some p
}.

(** ** Checking the metadata *)

(** [iter().max_by_key(|x| x.0)]: the last of the greatest *)
Definition max_by_start (x : Z * Z) (l : list (Z * Z)) : Z * Z :=
  foldl (λ acc y, if acc.1 <=? y.1 then y else acc) x l.

Definition last_seg (l : list (Z * Z)) : res (Z * Z) :=
  expect (last l) "Setting up rather than initializing a pool, so each flex dev must have been allocated at least some segments.".

Definition next_index (flex_devs : FlexDevsSave) : res Z :=
  let? a := last_seg (meta_dev flex_devs) in
  let? b := last_seg (thin_meta_dev flex_devs) in
  let? c := last_seg (thin_data_dev flex_devs) in
  let? d := last_seg (thin_meta_dev_spare flex_devs) in
  let m := max_by_start a [b; c; d] in
  Ok (m.1 +64 m.2).

Definition flex_segs (f : FlexDevsSave) : list (Z * Z) :=
  meta_dev f ++ thin_meta_dev f ++ thin_data_dev f ++ thin_meta_dev_spare f.

Definition check_metadata (metadata : PoolSave) : res unit :=
  let? next := next_index (flex_devs metadata) in
  match cap_allocs (cap (ps_backstore metadata)) with
  | [] => Panic "index out of bounds"
  | (_, allocated_from_cap) :: _ =>
      if negb (allocated_from_cap =? next) then Err (Msg "used in thinpool, but allocated from backstore cap device")
      else if negb (sum64 (flex_segs (flex_devs metadata)).*2 =? next) then
        Err (Msg "used in thinpool, but given up by cache for pool")
      else
        match allocs (dts_blockdev (data_tier (ps_backstore metadata))) with
        | [] => Panic "index out of bounds"
        | l :: _ =>
            let total_allocated := sum64 (bds_length <$> l) in
            if total_allocated =? 0 then Err (Msg "no segments allocated to the cap device for pool")
            else if total_allocated <? next then Err (Msg "allocated to cap device, but allocated to flex devs")
            else Ok tt
        end
  end.

(** ** [StratPool] *)

Module SPool.
Section with_dm.
Context `{Crc32c} `{Chrono} `{Cryptsetup} `{!Devicemapper} `{UuidDisplay} `{ClevisCodec} `{DmNames} `{FsSerde} `{PoolSerde}.

Record StratPool : Type := mkStratPool {
  backstore : Backstore; redundancy : Redundancy; thin_pool : TP.ThinPool }.

Definition set_backstore (b : Backstore) (self : StratPool) : StratPool := mkStratPool b (redundancy self) (thin_pool self).
Definition set_thin (t : TP.ThinPool) (self : StratPool) : StratPool := mkStratPool (backstore self) (redundancy self) t.

Definition on_backstore {A} (m : obj Backstore A) : obj StratPool A := focus backstore set_backstore m.
Definition on_thin {A} (m : obj TP.ThinPool A) : obj StratPool A := focus thin_pool set_thin m.
(** a method of the thin pool that takes [&mut self.backstore] *)
Definition on_both {A} (m : obj (TP.ThinPool * Backstore) A) : obj StratPool A :=
  focus (λ self, (thin_pool self, backstore self)) (λ p self, mkStratPool p.2 (redundancy self) p.1) m.

Definition record (self : StratPool) (name : Str) : PoolSave :=
  mkPoolSave name (BS.record (backstore self)) (TP.record (thin_pool self)) (TP.record_dev (thin_pool self)).

(** the devices that get the metadata, as for [BlockDevMgr::save_state] *)
Context (choose : nat → nat → list nat).

Definition write_metadata (name : Str) : obj StratPool unit :=
  let! self := get_self in
  on_backstore (BS.save_state choose (pool_to_string (record self name))).

Definition initialize (name : Str) (paths : list Str) (redundancy : Redundancy) (encryption_info : EncryptionInfo)
    : sys (Z * StratPool) :=
  let! pool_uuid := new_v4 in
  let! backstore := BS.initialize pool_uuid paths mda_size.MDADataSize_default encryption_info in
  λ s,
  let '(r, (backstore, s)) := TP.new pool_uuid ThinPoolSizeParams_default DATA_BLOCK_SIZE (backstore, s) in
  match r with
  | Panic w => (Panic w, s)
  | Err err => let '(_, (_, s)) := BS.destroy (backstore, s) in (Err err, s)
  | Ok thinpool =>
      let '(r, (self, s)) :=
        (let! _ := on_both (TP.check pool_uuid) in write_metadata name)
          (mkStratPool backstore redundancy thinpool, s) in
      (rmap (λ _, (pool_uuid, self)) r, s)
  end.

Definition setup (uuid : Z) (datadevs cachedevs : list StratBlockDev) (timestamp : DateTime) (metadata : PoolSave)
    : sys (Str * StratPool) :=
  let! _ := ilift (check_metadata metadata) in
  let! backstore := BS.setup uuid (ps_backstore metadata) datadevs cachedevs timestamp in
  let! thinpool := TP.setup (ps_name metadata) uuid (thinpool_dev metadata) (flex_devs metadata) backstore in
  λ s,
  let '(r, (self, s)) :=
    (let! changed := on_both (TP.check uuid) in
     if (changed : bool) then write_metadata (ps_name metadata) else iret tt)
      (mkStratPool backstore NONE thinpool, s) in
  (rmap (λ _, (ps_name metadata, self)) r, s).

Fixpoint udev_changes (pool_name : Str) (l : list (Str * Z * StratFilesystem)) : sys unit :=
  match l with
  | [] => iret tt
  | (name, uuid, fs) :: rest => udev_fs_change fs pool_name uuid name ;;! udev_changes pool_name rest
  end.
Definition udev_pool_change (self : StratPool) (pool_name : Str) : sys unit :=
  udev_changes pool_name (Tbl.iter (TP.filesystems (thin_pool self))).

Definition has_filesystems (self : StratPool) : bool := TP.has_filesystems (thin_pool self).
Definition get_eventing_dev_names (self : StratPool) (pool_uuid : Z) : res (list Str) :=
  TP.get_eventing_dev_names (thin_pool self) pool_uuid.

Definition event_on (pool_uuid : Z) (pool_name : Str) : obj StratPool unit :=
  let! changed := on_both (TP.check pool_uuid) in
  if (changed : bool) then write_metadata pool_name else iret tt.

Definition is_encrypted (self : StratPool) : res bool := BS.data_tier_is_encrypted (backstore self).
Definition encryption_info (self : StratPool) : res EncryptionInfo := BS.data_tier_encryption_info (backstore self).
Definition has_cache (self : StratPool) : bool := BS.has_cache (backstore self).
Definition get_strat_blockdev (self : StratPool) (uuid : Z) : option (BlockDevTier * StratBlockDev) :=
  BS.get_blockdev_by_uuid (backstore self) uuid.
Definition blockdevs (self : StratPool) : list (Z * BlockDevTier * StratBlockDev) := BS.blockdevs (backstore self).
Definition total_physical_size (self : StratPool) : res Z := BS.datatier_size (backstore self).
Definition total_physical_used (self : StratPool) : res Z :=
  let? v := TP.total_physical_used (thin_pool self) in
  Ok (v +64 BS.datatier_metadata_size (backstore self)).

Definition destroy : obj StratPool unit :=
  on_thin TP.teardown ;;! on_backstore BS.destroy.

(** *** [impl Pool for StratPool] *)

Definition init_cache (pool_uuid : Z) (pool_name : Str) (blockdevs : list Str) : obj StratPool (SetCreateAction Z) :=
  let! _ := ilift (validate_paths blockdevs) in
  let! self := get_self in
  let! encrypted := ilift (is_encrypted self) in
  if (encrypted : bool) then ierr (Msg "Use of a cache is not supported with an encrypted pool")
  else if negb (has_cache self) then
    match blockdevs with
    | [] => ierr (Msg "At least one blockdev path is required to initialize a cache.")
    | _ =>
        on_thin TP.suspend ;;!
        let! devices_result := itry (on_backstore (BS.init_cache pool_uuid blockdevs)) in
        on_thin TP.resume ;;!
        let! devices := question devices_result in
        write_metadata pool_name ;;!
        iret (mkSetCreate devices)
    end
  else
    ilift (init_cache_idempotent_or_err blockdevs
             ((λ '(_, bd), SBD.physical_path bd) <$> BS.cachedevs (backstore self))).

Definition bind_clevis (pin : Str) (clevis_info : Value) : obj StratPool (CreateAction Clevis) :=
  let! changed := on_backstore (BS.bind_clevis pin clevis_info) in
  iret (if (changed : bool) then CACreated mkClevis else CAIdentity).
Definition unbind_clevis : obj StratPool (DeleteAction Clevis) :=
  let! changed := on_backstore BS.unbind_clevis in
  iret (if (changed : bool) then DADeleted mkClevis else DAIdentity).
Definition bind_keyring (key_description : KeyDescription) : obj StratPool (CreateAction Key) :=
  let! changed := on_backstore (BS.bind_keyring key_description) in
  iret (if (changed : bool) then CACreated mkKey else CAIdentity).
Definition unbind_keyring : obj StratPool (DeleteAction Key) :=
  let! changed := on_backstore BS.unbind_keyring in
  iret (if (changed : bool) then DADeleted mkKey else DAIdentity).
Definition rebind_keyring (new_key_desc : KeyDescription) : obj StratPool (RenameAction Key) :=
  let! r := on_backstore (BS.rebind_keyring new_key_desc) in
  iret (match r with Some true => RARenamed mkKey | Some false => RAIdentity | None => RANoSource end).
Definition rebind_clevis : obj StratPool RegenAction :=
  on_backstore BS.rebind_clevis ;;! iret mkRegenAction.

(** [names.iter().fold(Ok(()), |res, (name, _)| res.and_then(|()| validate_name(name)))] *)
Fixpoint validate_names (names : list (Str * option Z)) : res unit :=
  match names with
  | [] => Ok tt
  | (name, _) :: rest => let? _ := validate_name name in validate_names rest
  end.

Fixpoint create_each (pool_name : Str) (pool_uuid : Z) (names : list (Str * option Z)) : obj StratPool (list (Str * Z)) :=
  match names with
  | [] => iret []
  | (name, size) :: rest =>
      let! self := get_self in
      match TP.get_filesystem_by_name (thin_pool self) name with
      | Some _ => create_each pool_name pool_uuid rest
      | None =>
          let! fs_uuid := on_thin (TP.create_filesystem pool_name pool_uuid name size) in
          let! result := create_each pool_name pool_uuid rest in
          iret ((name, fs_uuid) :: result)
      end
  end.

(** [specs] collected into a hash map: the last size given for a name counts *)
Definition spec_map (specs : list (Str * option Z)) : gmap Str (option Z) := list_to_map (reverse specs).

Definition create_filesystems (pool_name : Str) (pool_uuid : Z) (specs : list (Str * option Z))
    : obj StratPool (SetCreateAction (Str * Z)) :=
  let names := map_to_list (spec_map specs) in
  let! _ := ilift (validate_names names) in
  let! result := create_each pool_name pool_uuid names in
  iret (mkSetCreate result).

(** the branch of [add_blockdevs] for the cache tier, with the thin pool suspended *)
Definition add_cachedevs (pool_uuid : Z) (paths : list Str) : obj StratPool (list Z) :=
  let! bdi := on_backstore (BS.add_cachedevs pool_uuid paths) in
  let! self := get_self in
  let! device := ilift (expect (BS.device (backstore self)) "Since thin pool exists, space must have been allocated from the backstore, so backstore must have a cap device") in
  let! _ := on_thin (TP.set_device device) in
  iret bdi.

Definition add_blockdevs (pool_uuid : Z) (pool_name : Str) (paths : list Str) (tier : BlockDevTier)
    : obj StratPool (SetCreateAction Z) :=
  let! _ := ilift (validate_paths paths) in
  let! self := get_self in
  match tier, paths with
  | Cache, _ =>
      if negb (has_cache self) then
        ierr (Msg "No cache has been initialized for pool; it is therefore impossible to add additional devices to the cache")
      else match paths with
      | [] => iret (mkSetCreate [])
      | _ =>
          on_thin TP.suspend ;;!
          let! bdev_info_res := itry (add_cachedevs pool_uuid paths) in
          on_thin TP.resume ;;!
          let! bdev_info := question bdev_info_res in
          write_metadata pool_name ;;!
          iret (mkSetCreate bdev_info)
      end
  | Data, [] => iret (mkSetCreate [])
  | Data, _ =>
      let! bdev_info := on_backstore (BS.add_datadevs pool_uuid paths) in
      let! _ := on_both (TP.check pool_uuid) in
      write_metadata pool_name ;;!
      iret (mkSetCreate bdev_info)
  end.

Fixpoint destroy_each (pool_name : Str) (fs_uuids : list Z) : obj StratPool (list Z) :=
  match fs_uuids with
  | [] => iret []
  | uuid :: rest =>
      let! o := on_thin (TP.destroy_filesystem pool_name uuid) in
      let! removed := destroy_each pool_name rest in
      iret (match o with Some uuid => uuid :: removed | None => removed end)
  end.
Definition destroy_filesystems (pool_name : Str) (fs_uuids : list Z) : obj StratPool (SetDeleteAction Z) :=
  let! removed := destroy_each pool_name fs_uuids in
  iret (mkSetDelete removed).

Definition rename_filesystem (pool_name : Str) (uuid : Z) (new_name : Str) : obj StratPool (RenameAction Z) :=
  let! _ := ilift (validate_name new_name) in
  let! r := on_thin (TP.rename_filesystem pool_name uuid new_name) in
  iret (match r with Some true => RARenamed uuid | Some false => RAIdentity | None => RANoSource end).

Definition snapshot_filesystem (pool_name : Str) (pool_uuid origin_uuid : Z) (snapshot_name : Str)
    : obj StratPool (CreateAction (Z * StratFilesystem)) :=
  let! _ := ilift (validate_name snapshot_name) in
  let! self := get_self in
  match TP.get_filesystem_by_name (thin_pool self) snapshot_name with
  | Some _ => iret CAIdentity
  | None =>
      let! p := on_thin (TP.snapshot_filesystem pool_name pool_uuid origin_uuid snapshot_name) in
      iret (CACreated p)
  end.

Definition set_blockdev_user_info (pool_name : Str) (uuid : Z) (user_info : option Str) : obj StratPool (RenameAction Z) :=
  let! self := get_self in
  let '(result, b) := BS.set_blockdev_user_info (backstore self) uuid user_info in
  modify_self (set_backstore b) ;;!
  match result with
  | Ok (Some uuid) => write_metadata pool_name ;;! iret (RARenamed uuid)
  | Ok None => iret RAIdentity
  | Err _ => iret RANoSource
  | Panic w => ilift (Panic w)
  end.
End with_dm.
End SPool.
