(* ===== verification/PoolSpec.v ===== *)
(** * What a pool guarantees

    The segments of the thin pool's devices never overlap and stay below the index of the backstore;
    the metadata a pool writes passes the check made when the pool is set up again; and what the
    operations of [src/engine/strat_engine/pool.rs] and [thinpool.rs] do to filesystems. *)
From stdpp Require Import base list sorting gmap strings.
From Stdlib Require Import ZArith Lia.
From S2P Require Import Prelude Disk Sizes External Json StaticHeader MDA BDA Table Actions Shared System Names Crypt BlockDev Devices BlockDevMgr Bindings Writing Dm Mdv Setup RangeAlloc Alloc Tiers Backstore BackstoreSpec ThinPool ThinPoolSpec Pool.

(** ** Segments in order *)

Definition seg_end (s : Z * Z) : Z := s.1 + s.2.

(** non-empty segments between [lo] and [hi], each after the one before *)
Fixpoint chain (lo hi : Z) (l : list (Z * Z)) : Prop :=
  match l with
  | [] => lo ≤ hi
  | s :: r => lo ≤ s.1 ∧ 0 < s.2 ∧ chain (seg_end s) hi r
  end.

Lemma chain_total lo hi l : chain lo hi l → lo ≤ hi ∧ 0 ≤ Zsum l.*2 ≤ hi - lo.
Proof.
  revert lo. induction l as [|s l IH]; intros lo; cbn; [lia|]. intros (? & ? & [? ?]%IH).
  fold (Zsum l.*2). unfold seg_end in *. lia.
Qed.

Lemma chain_elem lo hi l s : chain lo hi l → s ∈ l → lo ≤ s.1 ∧ 0 < s.2 ∧ seg_end s ≤ hi.
Proof.
  revert lo. induction l as [|x l IH]; intros lo; cbn; [by intros _ ?%elem_of_nil|].
  intros (? & ? & Hc) [->|Hin]%elem_of_cons.
  - apply chain_total in Hc. unfold seg_end in *. lia.
  - destruct (IH _ Hc Hin) as (? & ? & ?). unfold seg_end in *. lia.
Qed.

Lemma chain_weaken lo hi hi' l : chain lo hi l → hi ≤ hi' → chain lo hi' l.
Proof. revert lo. induction l as [|x l IH]; intros lo; cbn; [lia|]. intros (? & ? & ?) ?. by eauto. Qed.

Lemma chain_snoc lo mid hi l s : chain lo mid l → mid ≤ s.1 → 0 < s.2 → seg_end s ≤ hi → chain lo hi (l ++ [s]).
Proof.
  revert lo. induction l as [|x l IH]; intros lo; cbn; [intros; unfold seg_end in *; lia|].
  intros (? & ? & ?) ? ? ?. split_and!; [done..|]. by apply IH.
Qed.

Lemma chain_snoc_inv lo hi l s : chain lo hi (l ++ [s]) → chain lo s.1 l ∧ 0 < s.2 ∧ seg_end s ≤ hi.
Proof.
  revert lo. induction l as [|x l IH]; intros lo; cbn; [intros (? & ? & ?); unfold seg_end in *; lia|].
  intros (? & ? & (? & ? & ?)%IH). done.
Qed.

(** the segment that ends at the upper bound is the last one *)
Lemma chain_top lo hi l s : chain lo hi l → s ∈ l → seg_end s = hi → ∃ l0, l = l0 ++ [s].
Proof.
  destruct l as [|x l] using rev_ind; [by intros _ ?%elem_of_nil|].
  intros (Hc & ? & ?)%chain_snoc_inv [Hin|Hx%list_elem_of_singleton]%elem_of_app Hs; [|subst s; by exists l].
  destruct (chain_elem _ _ _ _ Hc Hin) as (? & ? & ?). unfold seg_end in *. lia.
Qed.

(** a chain without gaps reaches the upper bound *)
Lemma chain_full lo hi l : chain lo hi l → Zsum l.*2 = hi - lo → l ≠ [] → ∃ s, s ∈ l ∧ seg_end s = hi.
Proof.
  destruct l as [|s l] using rev_ind; [done|]. intros (Hc & ? & ?)%chain_snoc_inv Ht _. exists s.
  split; [set_solver|]. apply chain_total in Hc as [_ ?]. rewrite fmap_app, Zsum_app in Ht. cbn in Ht.
  unfold seg_end in *. lia.
Qed.

Lemma Zsum_perm l l' : l ≡ₚ l' → Zsum l = Zsum l'.
Proof. induction 1; cbn; fold Zsum in *; unfold Zsum in *; cbn; lia. Qed.

(** ** The devices of a thin pool *)

Definition all_segs (x : Segments) : list (Z * Z) := tp_mdv x ++ tp_meta x ++ tp_data x ++ tp_spare x.
Definition flex_total (x : Segments) : Z := Zsum (all_segs x).*2.

Definition ascending : list (Z * Z) → Prop := StronglySorted (λ a b, seg_end a ≤ b.1).
Definition seg_lists (x : Segments) : list (list (Z * Z)) := [tp_mdv x; tp_meta x; tp_data x; tp_spare x].

(** No two segments of the four devices share a sector, all lie below [next], and the segments of
    each device are in ascending order. *)
Record flex_ok (x : Segments) (next : Z) : Prop := {
  f_lists : Forall (λ l, l ≠ [] ∧ ascending l) (seg_lists x);
  f_chain : ∃ c, c ≡ₚ all_segs x ∧ chain 0 next c }.

Lemma flex_ok_weaken x next next' : flex_ok x next → next ≤ next' → flex_ok x next'.
Proof. intros [Hl (c & Hp & Hc)] Hle. split; [done|]. exists c. split; [done|]. by eapply chain_weaken. Qed.

Lemma flex_elem x next s : flex_ok x next → s ∈ all_segs x → 0 ≤ s.1 ∧ 0 < s.2 ∧ seg_end s ≤ next.
Proof. intros [_ (c & Hp & Hc)] Hin. rewrite <- Hp in Hin. by eapply chain_elem. Qed.

Lemma flex_total_bound x next : flex_ok x next → 0 ≤ flex_total x ≤ next.
Proof.
  intros [_ (c & Hp & Hc)]. apply chain_total in Hc as [? ?]. unfold flex_total.
  rewrite <- (Zsum_perm c.*2) by (by rewrite Hp). lia.
Qed.

(** the start of the last segment is the greatest of its list *)
Lemma ascending_last l t s : ascending l → last l = Some t → s ∈ l → 0 < s.2 → s ≠ t → seg_end s ≤ t.1.
Proof.
  intros Ha Ht Hs _ Hne. apply last_Some in Ht as [l' ->].
  apply elem_of_app in Hs as [Hs|Hs%list_elem_of_singleton]; [|done].
  refine (StronglySorted_app_1_elem_of (λ a b, seg_end a ≤ b.1) l' [t] s t Ha Hs _). set_solver.
Qed.

Lemma max_by_start_spec x l : max_by_start x l ∈ x :: l ∧ ∀ y, y ∈ x :: l → y.1 ≤ (max_by_start x l).1.
Proof.
  unfold max_by_start. revert x. induction l as [|y l IH]; intros x; cbn; [set_solver by lia|].
  destruct (Z.leb_spec x.1 y.1) as [Hle|Hlt].
  - destruct (IH y) as [Hin Hmax]. split; [set_solver|]. intros z [->|Hz]%elem_of_cons; [|by apply Hmax].
    specialize (Hmax y ltac:(set_solver)). lia.
  - destruct (IH x) as [Hin Hmax]. split; [set_solver|].
    intros z [->|[->|Hz]%elem_of_cons]%elem_of_cons; [by apply Hmax; set_solver| |by apply Hmax; set_solver].
    specialize (Hmax x ltac:(set_solver)). lia.
Qed.

(** the last segments of the four lists *)
Definition tops (x : Segments) (a b c d : Z * Z) : Prop :=
  last (tp_mdv x) = Some a ∧ last (tp_meta x) = Some b ∧ last (tp_data x) = Some c ∧ last (tp_spare x) = Some d.

Lemma flex_tops x next : flex_ok x next → ∃ a b c d, tops x a b c d ∧ [a; b; c; d] ⊆ all_segs x ∧
  ∀ s, s ∈ all_segs x → ∃ t, t ∈ [a; b; c; d] ∧ (s = t ∨ seg_end s ≤ t.1).
Proof.
  intros Hf. pose proof (λ s, flex_elem x next s Hf) as Hel. destruct Hf as [Hl _]. unfold seg_lists in Hl.
  rewrite !Forall_cons in Hl. destruct Hl as ((Hn1 & Ha1) & (Hn2 & Ha2) & (Hn3 & Ha3) & (Hn4 & Ha4) & _).
  apply last_is_Some in Hn1 as [a Ha], Hn2 as [b Hb], Hn3 as [c Hc], Hn4 as [d Hd].
  exists a, b, c, d. split; [done|]. unfold all_segs in *. split.
  - pose proof (last_Some_elem_of _ _ Ha). pose proof (last_Some_elem_of _ _ Hb).
    pose proof (last_Some_elem_of _ _ Hc). pose proof (last_Some_elem_of _ _ Hd). set_solver.
  - intros s Hs. destruct (Hel s Hs) as (_ & Hpos & _).
    assert (∀ l t, ascending l → last l = Some t → s ∈ l → s = t ∨ seg_end s ≤ t.1) as Htop.
    { intros l t Hl Ht Hin. destruct (decide (s = t)); [by left|right]. by eapply ascending_last. }
    rewrite !elem_of_app in Hs. destruct Hs as [Hs|[Hs|[Hs|Hs]]];
      [exists a|exists b|exists c|exists d]; (split; [set_solver|]).
    + exact (Htop _ _ Ha1 Ha Hs).
    + exact (Htop _ _ Ha2 Hb Hs).
    + exact (Htop _ _ Ha3 Hc Hs).
    + exact (Htop _ _ Ha4 Hd Hs).
Qed.

(** when nothing is lost, the last segment in use ends at [next] *)
Lemma next_index_ok f x next : flex_ok x next → next ≤ u64_max → f = mkFlexDevsSave (tp_mdv x) (tp_meta x) (tp_data x) (tp_spare x) →
  ∃ n, next_index f = Ok n ∧ n ≤ next ∧ (flex_total x = next → n = next).
Proof.
  intros Hf Hu ->. destruct (flex_tops x next Hf) as (a & b & c & d & (Ea & Eb & Ec & Ed) & Hsub & Hmax).
  unfold next_index, last_seg. cbn [meta_dev thin_meta_dev thin_data_dev thin_meta_dev_spare].
  rewrite Ea, Eb, Ec, Ed. cbn [expect rbind].
  destruct (max_by_start_spec a [b; c; d]) as [Hin Hge]. set (m := max_by_start a [b; c; d]) in *.
  destruct (flex_elem x next m Hf (Hsub _ Hin)) as (? & ? & ?). unfold seg_end in *.
  rewrite wrap64_small by (split; lia). exists (m.1 + m.2). split; [done|]. split; [done|]. intros Hfull.
  destruct Hf as [Hl (ch & Hp & Hc)].
  destruct (chain_full 0 next ch Hc) as (s & Hs & Hend).
  { rewrite Z.sub_0_r, <- Hfull. apply Zsum_perm. by rewrite Hp. }
  { intros ->. apply Permutation_nil_l in Hp. rewrite <- Hp in Hsub. set_solver. }
  pose proof (chain_elem _ _ _ _ Hc Hs) as (? & ? & _). rewrite Hp in Hs.
  destruct (Hmax s Hs) as (t & Ht & [<-|Hlt]).
  - specialize (Hge s Ht). unfold seg_end in *.
    pose proof (chain_top 0 next ch s Hc ltac:(by rewrite Hp) Hend) as [l0 ->].
    assert (m ∈ l0 ++ [s]) as Hm by (rewrite Hp; by apply Hsub).
    apply elem_of_app in Hm as [Hm|Em%list_elem_of_singleton]; [|by rewrite Em].
    apply chain_snoc_inv in Hc as (Hc & _). destruct (chain_elem _ _ _ _ Hc Hm) as (? & ? & ?).
    unfold seg_end in *. lia.
  - specialize (Hge t Ht). unfold seg_end in *. lia.
Qed.

(** ** Extending a device *)

Lemma coalesce_segs_cases l next n : Forall (λ s, 0 ≤ s.1 ∧ 0 < s.2 ∧ seg_end s ≤ next) l → 0 < n → next + n ≤ u64_max →
  coalesce_segs l [(next, n)] = l ++ [(next, n)] ∨
  ∃ l0 s, l = l0 ++ [s] ∧ seg_end s = next ∧ coalesce_segs l [(next, n)] = l0 ++ [(s.1, s.2 + n)].
Proof.
  intros Hl Hn Hu. unfold coalesce_segs. destruct l as [|s l _] using rev_ind; [by left|].
  rewrite last_snoc. apply Forall_app in Hl as [_ (? & ? & ?)%Forall_singleton]. unfold seg_end in *.
  rewrite wrap64_small by (split; lia). cbn [fst snd].
  destruct (Z.eqb_spec (s.1 + s.2) next); [right|by left].
  exists l, s. split; [done|]. split; [done|]. rewrite wrap64_small by (split; lia). cbn.
  by rewrite removelast_last.
Qed.

Lemma ascending_snoc l s : ascending l → Forall (λ a, seg_end a ≤ s.1) l → ascending (l ++ [s]).
Proof.
  intros Hl Hs. apply StronglySorted_app. split_and!; [|done|by repeat constructor].
  intros a b Ha Hb%list_elem_of_singleton. subst b. rewrite Forall_forall in Hs. by apply Hs.
Qed.

Lemma ascending_grow l s n : ascending (l ++ [s]) → ascending (l ++ [(s.1, n)]).
Proof.
  intros (Hc & Hl & _)%StronglySorted_app. apply ascending_snoc; [done|]. apply Forall_forall.
  intros a Ha. apply (Hc a s Ha). set_solver.
Qed.

(** one list of the four is extended: the rest is [rest] *)
Lemma extend_flex rest l next n : Forall (λ s, 0 ≤ s.1 ∧ 0 < s.2 ∧ seg_end s ≤ next) l → ascending l → 0 < n →
  next + n ≤ u64_max → (∃ c, c ≡ₚ l ++ rest ∧ chain 0 next c) →
  let l' := coalesce_segs l [(next, n)] in
  l' ≠ [] ∧ ascending l' ∧ (∃ c, c ≡ₚ l' ++ rest ∧ chain 0 (next + n) c) ∧
  Zsum l'.*2 = Zsum l.*2 + n.
Proof.
  intros Hl Ha Hn Hu (c & Hp & Hc). cbn zeta.
  destruct (coalesce_segs_cases l next n Hl Hn Hu) as [->|(l0 & s & -> & Hs & ->)].
  - split; [by destruct l|]. split; [|split].
    + apply ascending_snoc; [done|]. eapply Forall_impl; [exact Hl|]. by intros ? (_ & _ & ?).
    + exists (c ++ [(next, n)]). split; [rewrite Hp; solve_Permutation|].
      eapply chain_snoc; [exact Hc|cbn; lia|cbn; lia|unfold seg_end; cbn; lia].
    + rewrite fmap_app, Zsum_app. cbn. lia.
  - split; [by destruct l0|]. split; [by apply ascending_grow|].
    destruct (chain_top 0 next c s Hc) as [c0 ->]; [rewrite Hp; set_solver|done|].
    apply chain_snoc_inv in Hc as (Hc & Hs2 & _). split.
    + exists (c0 ++ [(s.1, s.2 + n)]). split.
      * assert (c0 ≡ₚ l0 ++ rest) as ->; [|solve_Permutation].
        apply (Permutation_app_inv_r [s]). rewrite Hp. solve_Permutation.
      * eapply chain_snoc; [exact Hc|done|cbn; lia|unfold seg_end in *; cbn; lia].
    + rewrite !fmap_app, !Zsum_app. cbn. lia.
Qed.

Lemma flex_extend (data : bool) x next n : flex_ok x next → 0 < n → next + n ≤ u64_max →
  let x' := TP.with_segs data (coalesce_segs (TP.segs_of data x) [(next, n)]) x in
  flex_ok x' (next + n) ∧ flex_total x' = flex_total x + n.
Proof.
  intros Hf Hn Hu. pose proof (λ s, flex_elem x next s Hf) as Hel. destruct Hf as [Hl (c & Hp & Hc)].
  unfold seg_lists in Hl. rewrite !Forall_cons in Hl.
  destruct Hl as (H1' & (Hne2 & Ha2) & (Hne3 & Ha3) & H4' & _). unfold all_segs in *. cbn zeta.
  destruct data; cbn [TP.segs_of TP.with_segs].
  - destruct (extend_flex (tp_mdv x ++ tp_meta x ++ tp_spare x) (tp_data x) next n) as (? & ? & (c' & Hp' & Hc') & Ht);
      [apply Forall_forall; intros s Hs; apply Hel; set_solver|done..|exists c; split; [rewrite Hp; solve_Permutation|done]|].
    split; [split|].
    + unfold seg_lists. by rewrite !Forall_cons, Forall_nil.
    + exists c'. split; [rewrite Hp'; unfold all_segs; cbn; solve_Permutation|done].
    + unfold flex_total, all_segs. cbn. rewrite !fmap_app, !Zsum_app, Ht. lia.
  - destruct (extend_flex (tp_mdv x ++ tp_data x ++ tp_spare x) (tp_meta x) next n) as (? & ? & (c' & Hp' & Hc') & Ht);
      [apply Forall_forall; intros s Hs; apply Hel; set_solver|done..|exists c; split; [rewrite Hp; solve_Permutation|done]|].
    split; [split|].
    + unfold seg_lists. by rewrite !Forall_cons, Forall_nil.
    + exists c'. split; [rewrite Hp'; unfold all_segs; cbn; solve_Permutation|done].
    + unfold flex_total, all_segs. cbn. rewrite !fmap_app, !Zsum_app, Ht. lia.
Qed.

(** ** Methods that keep a property of the object *)

Definition keep `{Cryptsetup} {S A} (I : S → Prop) (h : S) (m : obj S A) : Prop := I h → spec h m (λ _ h', I h').

Create HintDb keep.

Section keep.
Context `{Cryptsetup} {S : Type} (I : S → Prop).

Lemma keep_ret {A} h (a : A) : keep I h (iret a).
Proof. by intros HI s. Qed.
Lemma keep_err {A} h e : keep I h (ierr (A:=A) e).
Proof. by intros HI s. Qed.
Lemma keep_lift {A} h (r : res A) : keep I h (ilift r).
Proof. by intros HI s. Qed.
Lemma keep_question {A} h (r : StratisError + A) : keep I h (question r).
Proof. apply keep_lift. Qed.
Lemma keep_sys {A} h (m : sys A) : keep I h (lift_sys m).
Proof. intros HI s. unfold lift_sys. by destruct (m s). Qed.
Lemma keep_bind {A B} h (m : obj S A) (k : A → obj S B) :
  keep I h m → (∀ a h', keep I h' (k a)) → keep I h (ibind m k).
Proof.
  intros Hm Hk HI s. specialize (Hm HI s). unfold ibind.
  destruct (m (h, s)) as [[a|e|w] [h' s']]; [by apply (Hk a h')|done..].
Qed.
Lemma keep_lift_bind {A B} h (r : res A) (k : A → obj S B) :
  (∀ a, r = Ok a → keep I h (k a)) → keep I h (ibind (ilift r) k).
Proof. intros Hk HI s. destruct r as [a|e|w]; [by apply Hk|done..]. Qed.
Lemma keep_sys_bind {A B} h (m : sys A) (k : A → obj S B) :
  (∀ a s s', m s = (Ok a, s') → keep I h (k a)) → keep I h (ibind (lift_sys m) k).
Proof.
  intros Hk HI s. unfold ibind, lift_sys. destruct (m s) as [[a|e|w] s'] eqn:E; [by eapply Hk|done..].
Qed.
Lemma keep_self {A} h (k : S → obj S A) : keep I h (k h) → keep I h (ibind get_self k).
Proof. intros Hk HI s. apply (Hk HI s). Qed.
Lemma keep_try {A} h (m : obj S A) : keep I h m → keep I h (itry m).
Proof. intros Hm HI s. specialize (Hm HI s). unfold itry. by destruct (m (h, s)) as [[a|e|w] [h' s']]. Qed.
Lemma keep_modify h f : (I h → I (f h)) → keep I h (modify_self f).
Proof. intros Hf HI s. by apply Hf. Qed.
Lemma keep_focus {T A} (get : S → T) (set : T → S → S) h (m : obj T A) :
  (I h → spec (get h) m (λ _ t, I (set t h))) → keep I h (focus get set m).
Proof. intros Hm HI s. specialize (Hm HI s). unfold focus. by destruct (m (get h, s)) as [r [t s']]. Qed.
End keep.
#[export] Hint Resolve keep_ret keep_err keep_lift keep_question keep_sys keep_modify : keep.

(** Go through a method step by step; what is left are the steps that need an argument. *)
Ltac keeping :=
  repeat first
    [ solve [eauto with keep nocore]
    | match goal with
      | |- keep _ _ (ibind get_self _) => apply keep_self
      | |- keep _ _ (ibind (ilift _) _) => apply keep_lift_bind; intros ? ?
      | |- keep _ _ (ibind (lift_sys _) _) => apply keep_sys_bind; intros ? ? ? ?
      | |- keep _ _ (ibind _ _) => apply keep_bind; [|intros ? ?]
      | |- keep _ _ (itry _) => apply keep_try
      | |- keep _ _ (match ?x with _ => _ end) => destruct x
      end
    | progress cbn beta iota zeta ].

(** ** The pool's record *)

Section pool.
Context `{Crc32c} `{Chrono} `{Cryptsetup} `{!Devicemapper} `{!DmLaws} `{UuidDisplay} `{ClevisCodec} `{DmNames} `{FsSerde} `{PoolSerde}.
Implicit Types (h : TP.ThinPool * Backstore).

Definition pool_ok h : Prop := bs_ok h.2 ∧ flex_ok (TP.segments h.1) (bs_next h.2).

(** sectors given out by the backstore that belong to no device of the thin pool *)
Definition lost h : Z := bs_next h.2 - flex_total (TP.segments h.1).

Lemma lost_nonneg h : pool_ok h → 0 ≤ lost h.
Proof. intros [_ Hf]. pose proof (flex_total_bound _ _ Hf). unfold lost. lia. Qed.

Lemma recorded_total b : bs_ok b → sum64 (bds_length <$> record_segments (bs_segs b)) = seg_total (bs_segs b).
Proof.
  intros Hok. pose proof (seg_total_u64 b Hok) as Hu.
  assert (bds_length <$> record_segments (bs_segs b) = (λ s, length_ (segment s)) <$> bs_segs b) as ->.
  { unfold record_segments. rewrite <- list_fmap_compose. by apply list_fmap_ext. }
  by apply sum64_exact.
Qed.

Lemma check_metadata_run (p : SPool.StratPool) name :
  pool_ok (SPool.thin_pool p, SPool.backstore p) →
  ∃ r, check_metadata (SPool.record p name) = r ∧ (∀ w, r ≠ Panic w) ∧
       (r = Ok tt ↔ lost (SPool.thin_pool p, SPool.backstore p) = 0).
Proof.
  intros [Hb Hf]. cbn [fst snd] in *. destruct p as [b rd tp]. cbn [SPool.thin_pool SPool.backstore] in *.
  pose proof (seg_total_u64 b Hb) as Hu. pose proof (b_next _ Hb). pose proof (b_size _ Hb).
  pose proof (flex_total_bound _ _ Hf) as Ht. unfold lost. cbn [fst snd].
  unfold check_metadata, SPool.record. cbn [SPool.thin_pool SPool.backstore flex_devs ps_backstore].
  destruct (next_index_ok (TP.record tp) (TP.segments tp) (bs_next b) Hf) as (n & -> & Hn & Hfull); [lia|done|].
  unfold rbind, BS.record. cbn [cap cap_allocs]. eexists. split; [done|].
  change (flex_segs (TP.record tp)) with (all_segs (TP.segments tp)).
  rewrite sum64_exact by (fold (flex_total (TP.segments tp)); split; lia). fold (flex_total (TP.segments tp)).
  destruct (Z.eqb_spec (bs_next b) n) as [Hbn|Hbn]; cbn [negb].
  2:{ split; [done|]. split; [done|]. intros. rewrite Hfull in Hbn by lia. done. }
  destruct (Z.eqb_spec (flex_total (TP.segments tp)) n) as [Hfn|Hfn]; cbn [negb].
  2:{ split; [done|]. split; [done|lia]. }
  cbn [data_tier DT.record dts_blockdev allocs]. fold (bs_segs b). rewrite recorded_total by done.
  assert (0 < n) as Hpos.
  { destruct (flex_tops _ _ Hf) as (a & ? & ? & ? & _ & Hsub & _).
    destruct (flex_elem _ _ a Hf (Hsub a ltac:(set_solver))) as (? & ? & ?). unfold seg_end in *. lia. }
  destruct (Z.eqb_spec (seg_total (bs_segs b)) 0); [lia|]. destruct (Z.ltb_spec (seg_total (bs_segs b)) n); [lia|].
  split; [done|]. split; [lia|done].
Qed.

(** *** Methods of the thin pool that leave its segments alone *)

Definition segs_are (x : Segments) (t : TP.ThinPool) : Prop := TP.segments t = x.

Lemma keep_on_pool {A} x t (m : mutM ThinPoolDev A) : keep (segs_are x) t (TP.on_pool m).
Proof. apply keep_focus. intros Hx s. by destruct (dm_mut m _) as [r [d s']]. Qed.
Lemma keep_on_mdv {A} x t (m : obj MetadataVol A) : keep (segs_are x) t (TP.on_mdv m).
Proof. apply keep_focus. intros Hx s. by destruct (m _) as [r [d s']]. Qed.
Hint Resolve keep_on_pool keep_on_mdv : keep.

Lemma keep_resume x t : keep (segs_are x) t TP.resume.
Proof. unfold TP.resume. keeping. Qed.
Lemma keep_suspend x t : keep (segs_are x) t TP.suspend.
Proof. unfold TP.suspend. keeping. Qed.
Lemma keep_check_filesystems x l t : keep (segs_are x) t (TP.check_filesystems l).
Proof.
  revert t. induction l as [|[[name uuid] fs] l IH]; intros t; cbn [TP.check_filesystems]; keeping.
  apply keep_focus. intros Hx s. destruct (fs_check _) as [r [f s']]. by destruct (Tbl.get_mut_by_uuid _ _) as [[[??]?]|].
Qed.

(** *** Operations that take space from the backstore *)

Lemma keep_on_self {A} h (m : obj TP.ThinPool A) :
  keep (segs_are (TP.segments h.1)) h.1 m → keep pool_ok h (TP.on_self m).
Proof.
  intros Hm. apply keep_focus. intros [Hb Hf] s. specialize (Hm eq_refl s).
  destruct (m (h.1, s)) as [r [t s']]. split; [done|]. cbn. by rewrite Hm.
Qed.

(** extending a device of the thin pool loses nothing when it succeeds *)
Definition extend_post h (r : res Z) h' : Prop :=
  pool_ok h' ∧ bs_le h.2 h'.2 ∧
  match r with
  | Ok n => lost h' = lost h ∧ bs_next h'.2 = bs_next h.2 + n
  | _ => lost h ≤ lost h'
  end.

Lemma spec_segs {A} (m : obj TP.ThinPool A) (t : TP.ThinPool) (b : Backstore) :
  keep (segs_are (TP.segments t)) t m →
  spec (t, b) (TP.on_self m) (λ _ h', h'.2 = b ∧ TP.segments h'.1 = TP.segments t).
Proof. intros Hm s. specialize (Hm eq_refl s). unfold TP.on_self, focus. cbn [fst]. by destruct (m (t, s)) as [r [t' s']]. Qed.

Lemma extend_run pool req m data h : pool_ok h → u64 req → 0 < m →
  spec h (TP.extend_thin_sub_device pool req m data) (extend_post h).
Proof.
  intros [Hb Hf] Hr Hm. unfold TP.extend_thin_sub_device. destruct (Z.eqb_spec m 0); [lia|].
  eapply spec_bind with (P := λ r h', h'.1 = h.1 ∧ bs_le h.2 h'.2 ∧ request_result req m h.2 h'.2 r).
  { intros s. unfold TP.on_backstore, focus. pose proof (request_run pool req m h.2 s Hb Hr Hm) as Hq.
    by destruct (BS.request pool req m (h.2, s)) as [r [b s']]. }
  2:{ intros e h' (E & Hle & Hn). cbn in Hn. split; [split; [apply Hle|by rewrite E, Hn]|].
      split; [done|]. cbn. unfold lost. rewrite E, Hn. lia. }
  2:{ by intros w h' (_ & _ & ?). }
  intros [[st n']|] [t b] (E & Hle & Hn); cbn in E, Hle, Hn; subst t.
  2:{ apply spec_ret. destruct Hn as [-> _]. split; [done|]. split; [done|]. by rewrite Z.add_0_r. }
  destruct Hn as (-> & _ & Hpos & Hn). pose proof (seg_total_u64 _ (proj1 Hle)) as Hu.
  destruct (proj1 Hle) as [_ _ Hnx Hsz].
  destruct (flex_extend data (TP.segments h.1) (bs_next h.2) n' Hf) as [Hf' Ht']; [lia|lia|].
  set (x' := TP.with_segs _ _ _) in *.
  assert (∀ r t, TP.segments t = TP.segments h.1 → (∀ n, r ≠ Ok n) → extend_post h r (t, b)) as Hfail.
  { intros r t Et Hne. split; [split; [apply Hle|]|split; [done|]].
    - cbn. rewrite Et. eapply flex_ok_weaken; [exact Hf|lia].
    - destruct r; [by edestruct Hne|..]; unfold lost; cbn; rewrite Et; lia. }
  apply spec_self. destruct (BS.device b) as [device|]; [|by intros s; apply Hfail]. cbn [expect].
  eapply spec_ok; [done|].
  eapply spec_bind; [apply spec_segs; eauto with keep| |by intros e [t ?] [Eb Et]; cbn in *; subst; apply Hfail
                                                        |by intros e [t ?] [Eb Et]; cbn in *; subst; apply Hfail].
  intros _ [t1 b1] [Eb1 Et1]. cbn in Eb1, Et1. subst b1.
  eapply spec_bind; [apply spec_segs; eauto with keep| |by intros e [t ?] [Eb Et]; cbn in *; subst; apply Hfail; [congruence|]
                                                        |by intros e [t ?] [Eb Et]; cbn in *; subst; apply Hfail; [congruence|]].
  intros _ [t2 b2] [Eb2 Et2]. cbn in Eb2, Et2. subst b2. intros s. cbn.
  assert (TP.with_segs data (coalesce_segs (TP.segs_of data (TP.segments h.1)) [(bs_next h.2, n')]) (TP.segments t2) = x') as ->
    by (unfold x'; by rewrite Et2, Et1).
  split; [split; [apply Hle|cbn; by rewrite Hn]|]. split; [done|]. unfold lost. cbn. rewrite Ht'. lia.
Qed.

Lemma keep_extend pool req m data h : u64 req → 0 < m → keep pool_ok h (TP.extend_thin_sub_device pool req m data).
Proof.
  intros Hr Hm Hok s. pose proof (extend_run pool req m data h Hok Hr Hm s) as Hx.
  destruct (TP.extend_thin_sub_device _ _ _ _ _) as [r [h' s']]. apply Hx.
Qed.

Lemma keep_or_zero h (m : obj (TP.ThinPool * Backstore) Z) : keep pool_ok h m → keep pool_ok h (TP.or_zero m).
Proof. intros Hm. unfold TP.or_zero. keeping. Qed.

Lemma keep_check_extend pool usage h : keep pool_ok h (TP.check_extend pool usage).
Proof.
  unfold TP.check_extend. keeping.
  - apply keep_or_zero, keep_extend; [apply wrap64_u64|]. by vm_compute.
  - apply keep_or_zero, keep_extend; [|by vm_compute].
    match goal with E : BS.available_in_backstore _ = Ok ?a |- u64 ?a => revert E end.
    unfold BS.available_in_backstore. destruct (DT.usable_size _) as [v|e|w]; [|done..].
    intros [= <-]. apply wrap64_u64.
  - apply keep_on_self, keep_on_pool.
  - apply keep_on_self, keep_resume.
Qed.

Lemma keep_do_check pool h : keep pool_ok h (TP.do_check pool).
Proof.
  unfold TP.do_check. keeping.
  - apply keep_check_extend.
  - apply keep_on_self. unfold TP.set_state. by apply keep_modify.
  - apply keep_on_self, keep_check_filesystems.
Qed.

Lemma keep_check_loop fuel pool saved h : keep pool_ok h (TP.check_loop fuel pool saved).
Proof.
  revert saved h. induction fuel as [|fuel IH]; intros saved h; cbn [TP.check_loop]; keeping. apply keep_do_check.
Qed.

Lemma keep_check pool h : keep pool_ok h (TP.check pool).
Proof. unfold TP.check. keeping. apply keep_check_loop. Qed.

(** *** A new thin pool *)

Definition new_sizes (params : ThinPoolSizeParams) : list Z :=
  [metablocks_sectors (meta_size params); metablocks_sectors (meta_size params);
   datablocks_to_sectors (data_size params); mdv_size params].

(** [same_ok o m Q]: [m] leaves the object as it is, and its results satisfy [Q] *)
Definition same_ok {S A} (o : S) (m : obj S A) (Q : A → Prop) : Prop :=
  spec o m (λ r o', o' = o ∧ ∀ a, r = Ok a → Q a).

Lemma same_bind {S A B} (o : S) (m : obj S A) (k : A → obj S B) Q :
  same_ok o m (λ _, True) → (∀ a, same_ok o (k a) Q) → same_ok o (ibind m k) Q.
Proof.
  intros Hm Hk s. specialize (Hm s). unfold ibind. destruct (m (o, s)) as [[a|e|w] [o' s']]; destruct Hm as [-> _];
    [apply Hk|done..].
Qed.
Lemma same_self {S A} (o : S) (k : S → obj S A) Q : same_ok o (k o) Q → same_ok o (ibind get_self k) Q.
Proof. intros Hk s. apply (Hk s). Qed.
Lemma same_lift {S A} (o : S) (r : res A) : same_ok o (ilift r) (λ _, True).
Proof. by intros s. Qed.
Lemma same_sys {S A} (o : S) (m : sys A) : same_ok o (lift_sys m) (λ _, True).
Proof. intros s. unfold lift_sys. by destruct (m s). Qed.

Lemma consecutive_flex next a b c d : 0 ≤ next → Forall (λ z, 0 < z) [a; b; c; d] →
  match consecutive next [a; b; c; d] with
  | [meta; spare; data; mdv] =>
      let x := mkSegments [meta] [spare] [data] [mdv] in
      flex_ok x (next + Zsum [a; b; c; d]) ∧ flex_total x = Zsum [a; b; c; d]
  | _ => False
  end.
Proof.
  intros Hn Hp. rewrite !Forall_cons in Hp. destruct Hp as (? & ? & ? & ? & _). cbn. split.
  - split; [unfold seg_lists; rewrite !Forall_cons, Forall_nil; cbn; split_and!; try done; by repeat constructor|].
    exists (consecutive next [a; b; c; d]). split; [unfold all_segs; cbn; solve_Permutation|].
    cbn. unfold seg_end. cbn. lia.
  - unfold flex_total, all_segs. cbn. lia.
Qed.

Lemma new_run pool params block b : bs_ok b → bs_next b = 0 → Forall (λ z, 0 < z) (new_sizes params) →
  Forall u64 (new_sizes params) → u64 (Zsum (new_sizes params)) →
  spec b (TP.new pool params block) (λ r b',
    bs_le b b' ∧ ∀ tp, r = Ok tp → pool_ok (tp, b') ∧ lost (tp, b') = 0).
Proof.
  intros Hb Hn Hpos Hsz Hz. unfold TP.new.
  change [_; _; _; mdv_size params] with (new_sizes params).
  eapply spec_bind with (P := λ r b', bs_le b b' ∧ alloc_result (new_sizes params) b b' r).
  { intros s. by apply alloc_run. }
  2:{ by intros e b' [? _]. } 2:{ by intros e b' [? _]. }
  intros [chunks|] b' [Hle Hres]; [|by apply spec_err].
  destruct Hres as [-> Hn']. pose proof (consecutive_flex (bs_next b) _ _ _ _ ltac:(lia) Hpos) as Hf.
  unfold new_sizes in *. cbn [consecutive] in *. set (x := mkSegments _ _ _ _) in Hf. destruct Hf as [Hf Ht].
  assert (∀ m : obj Backstore TP.ThinPool, same_ok b' m (λ tp, TP.segments tp = x) →
    spec b' m (λ r b', bs_le b b' ∧ ∀ tp, r = Ok tp → pool_ok (tp, b') ∧ lost (tp, b') = 0)) as Hsame.
  { intros m Hm s. specialize (Hm s). destruct (m (b', s)) as [r [b'' s']]. destruct Hm as [-> Hm].
    split; [done|]. intros tp ->. specialize (Hm tp eq_refl). unfold pool_ok, lost. cbn [fst snd].
    rewrite Hm, Ht, Hn'. split; [split; [apply Hle|exact Hf]|]. lia. }
  apply Hsame. apply same_self.
  repeat match goal with
  | |- same_ok _ (ibind (ilift _) _) _ => apply same_bind; [apply same_lift|intros ?]
  | |- same_ok _ (ibind (lift_sys _) _) _ => apply same_bind; [apply same_sys|intros ?]
  | |- same_ok _ (match ?p with _ => _ end) _ => destruct p
  end.
  intros s1. by split; [|intros ? [= <-]].
Qed.
End pool.
