(* ===== verification/BackstoreGrow.v ===== *)
(** * Devices that join a backstore

    What [add_datadevs], [add_cachedevs] and [init_cache] of [src/engine/strat_engine/backstore/backstore.rs] do to the
    backstore's invariant.  A device just initialised has its metadata marked as used and nothing else, so
    the data tier stays in order as long as the new UUIDs are new and the sizes add up; a cache takes the size of the
    linear device below it; and an [init_cache] that fails after it took the linear device leaves no cap device at all. *)
From stdpp Require Import base list gmap strings.
From Stdlib Require Import ZArith Lia.
From S2P Require Import Prelude Disk Sizes External Json StaticHeader MDA BDA Shared System Names Crypt BlockDev Devices BlockDevMgr Bindings Writing Dm Setup RangeAlloc Alloc Tiers Backstore BackstoreSpec Mdv ThinPool Pool PoolSpec.

(** ** What a method yields when it succeeds *)

Definition yields {S A} (m : st S A) (Q : A → Prop) : Prop := ∀ s a s', m s = (Ok a, s') → Q a.

Lemma yields_ret {S A} (a : A) (Q : A → Prop) : Q a → yields (S:=S) (iret a) Q.
Proof. by intros HQ s a' s' [= <- _]. Qed.
Lemma yields_err {S A} e (Q : A → Prop) : yields (S:=S) (ierr e) Q.
Proof. intros s a s'. done. Qed.
Lemma yields_bind {S A B} (P : A → Prop) (m : st S A) (k : A → st S B) (Q : B → Prop) :
  yields m P → (∀ a, P a → yields (k a) Q) → yields (ibind m k) Q.
Proof.
  intros Hm Hk s b s' E. unfold ibind in E. destruct (m s) as [[a|e|w] s1] eqn:Em; [|done..].
  by eapply (Hk a (Hm _ _ _ Em)).
Qed.
Lemma yields_any {S A B} (m : st S A) (k : A → st S B) (Q : B → Prop) : (∀ a, yields (k a) Q) → yields (ibind m k) Q.
Proof. intros Hk. by apply (yields_bind (λ _, True)). Qed.
Lemma yields_try {S A} (m : st S A) (Q : A → Prop) : yields m Q → yields (itry m) (λ r, match r with inr a => Q a | inl _ => True end).
Proof.
  intros Hm s a s' E. unfold itry in E. destruct (m s) as [[x|e|w] s1] eqn:Em; [injection E as <- _; by eapply Hm|by injection E as <- _|done].
Qed.

(** ** New devices *)

(** only the metadata at the start of the device is in use *)
Definition fresh_dev (bd : StratBlockDev) : Prop :=
  limit (allocator bd) = Bda.dev_size (bda bd) ∧ used (allocator bd) = [(0, ext_size bd)] ∧ 0 < ext_size bd ≤ limit (allocator bd).

Lemma fresh_free bd : fresh_dev bd → free bd = limit (allocator bd) - ext_size bd.
Proof. intros (_ & E & _). unfold free. rewrite E. cbn. lia. Qed.

(** The UUIDs are new and the sizes add up to a number of sectors of 64 bits. *)
Definition room_for (devs : list StratBlockDev) : Prop := NoDup (SBD.uuid <$> devs) ∧ limit_total devs ≤ u64_max.

Lemma fresh_joins devs segs bds : tier_ok devs segs → Forall fresh_dev bds → room_for (devs ++ bds) → tier_ok (devs ++ bds) segs.
Proof.
  intros [(Hok & Hnd & [Hl0 Hl]) Hg Hon Hdis Hu Ha Htot] Hf [Hnd' Hl']. unfold limit_total in *.
  rewrite fmap_app, Zsum_app in Hl'.
  assert (Hpos : Forall (λ bd, 0 ≤ limit (allocator bd)) bds) by (eapply Forall_impl; [exact Hf|intros bd (_ & _ & ?); simpl; lia]).
  assert (Hsum : 0 ≤ Zsum ((λ bd, limit (allocator bd)) <$> bds)) by (by apply Zsum_nonneg, Forall_fmap).
  assert (Hm : ∀ u x, used_cov (devs ++ bds) u x ↔ used_cov devs u x ∨ meta_cov bds u x).
  { intros u x. unfold used_cov, meta_cov. rewrite Exists_app. f_equiv. clear -Hf. induction Hf as [|bd l (_ & E & _) _ IH]; [by rewrite !Exists_nil|].
    rewrite !Exists_cons, IH, E. unfold covers. rewrite Exists_cons, Exists_nil. unfold in_range. cbn.
    assert (0 + ext_size bd = ext_size bd) as -> by lia. tauto. }
  split.
  - split; [|split; [done|rewrite fmap_app, Zsum_app; split; lia]]. apply Forall_app. split; [done|].
    assert (Forall (λ bd, limit (allocator bd) ≤ u64_max) bds) as Hle.
    { clear -Hl' Hl0 Hpos. induction Hpos as [|bd l Hb Hp IH]; [done|]. rewrite fmap_cons in Hl'. cbn in Hl'.
      assert (0 ≤ Zsum ((λ bd, limit (allocator bd)) <$> l)) by (by apply Zsum_nonneg, Forall_fmap).
      fold Zsum in *. constructor; [|apply IH]; unfold Zsum in *; lia. }
    apply Forall_forall. intros bd Hin. rewrite Forall_forall in Hf, Hle. destruct (Hf bd Hin) as (_ & E & Hb).
    split; [split; [lia|by apply Hle]|]. rewrite E. cbn. lia.
  - apply Forall_app. split; [done|]. eapply Forall_impl; [exact Hf|]. intros bd (E & _ & Hb). split; [done|lia].
  - eapply Forall_impl; [exact Hon|]. intros s (Hs & H0 & He). split; [done|]. split; [done|]. apply Exists_app. by left.
  - done.
  - intros u x. rewrite Hm, Hu. unfold meta_cov. rewrite Exists_app. tauto.
  - intros u x Hs. unfold meta_cov. rewrite Exists_app. intros [Hx|Hx]; [by eapply Ha|].
    apply Exists_exists in Hx as (bd & Hin & Eu & _). apply Exists_exists in Hs as (s & Hin' & Es & _).
    rewrite Forall_forall in Hon. destruct (Hon s Hin') as (_ & _ & (bd' & Hin2 & Eu' & _)%Exists_exists).
    rewrite fmap_app in Hnd'. apply NoDup_app in Hnd' as (_ & Hd & _).
    apply (Hd (SBD.uuid bd')); [by apply list_elem_of_fmap_2|]. rewrite Eu', Es, <- Eu. by apply list_elem_of_fmap_2.
  - unfold free_total, meta_total, limit_total in *. rewrite !fmap_app, !Zsum_app, <- Htot.
    assert (Zsum (free <$> bds) + Zsum (ext_size <$> bds) = Zsum ((λ bd, limit (allocator bd)) <$> bds)); [|lia].
    clear -Hf. induction Hf as [|bd l Hb _ IH]; [done|]. rewrite !fmap_cons. cbn. fold (Zsum (free <$> l)).
    pose proof (fresh_free bd Hb). unfold Zsum in *. lia.
Qed.

Section grow.
Context `{Crc32c} `{Chrono} `{Cryptsetup} `{!Devicemapper} `{!DmLaws} `{UuidDisplay} `{ClevisCodec} `{DmNames} `{FsSerde} `{PoolSerde}.

Lemma new_ext ids size t : Bda.extended_size (Bda.new ids mda_size.MDADataSize_default size t) = 8192.
Proof. vm_compute. reflexivity. Qed.

(** the first range put into an allocator *)
Lemma insert_first size n p : 0 < n → PDS.insert (PDS.new size) (0, n) = Ok p → p = mkPDS size [(0, n)] ∧ n ≤ size.
Proof.
  intros Hn. unfold PDS.insert. cbn -[Z.ltb]. destruct (Z.ltb_spec size 0) as [|Hs0].
  { done. }
  rewrite (proj2 (Z.eqb_neq n 0)) by lia. cbn -[Z.ltb checked_add]. unfold checked_add.
  rewrite Z.add_0_l. destruct (_ <=? u64_max); [|done]. cbn -[Z.ltb]. destruct (Z.ltb_spec size n) as [|Hs1]; [done|]. cbn. intros [= <-]. done.
Qed.

Lemma SBD_new_fresh dn ids size t ui hw u bd :
  SBD.new dn (Bda.new ids mda_size.MDADataSize_default size t) [] ui hw u = Ok bd → fresh_dev bd.
Proof.
  unfold SBD.new, RA.new, PDS.insert_all. rewrite new_ext. cbn [PDS.insert_each].
  change (Bda.dev_size (Bda.new ids mda_size.MDADataSize_default size t)) with size. change (limit (PDS.new size)) with size.
  destruct (PDS.insert (PDS.new size) (0, 8192)) as [p|e|w] eqn:E; [|done..]. apply insert_first in E as [-> Hle]; [|lia]. cbn [rbind].
  unfold PDS.union. cbn [limit PDS.new used map app fst]. rewrite Z.eqb_refl. cbn [negb].
  change (concat _) with [(0, 8192)]. cbn [PDS.insert_each]. change (mkPDS size []) with (PDS.new size).
  destruct (PDS.insert (PDS.new size) (0, 8192)) as [p|e|w] eqn:E; [|done..]. apply insert_first in E as [-> _]; [|lia].
  intros [= <-]. unfold fresh_dev, ext_size. cbn [allocator sbd_used segments limit used bda]. rewrite new_ext. split_and!; [done|done|lia|done].
Qed.

(** *** Initialization *)

Definition default_sizes (n : Z) : Z * Z := (mda_size.MDADataSize_default, n).

Lemma metadata_fresh u dn pool dev n wwn : yields (initialize_stratis_metadata u dn pool dev (default_sizes n) wwn) fresh_dev.
Proof.
  unfold initialize_stratis_metadata, default_sizes. apply yields_any. intros _. apply yields_any. intros now. cbn zeta. apply yields_any. intros _.
  intros s bd s' E. unfold ilift in E. injection E as E _. by eapply SBD_new_fresh.
Qed.

Lemma clean_up_yields {A} (m : sys unit) msg e (Q : A → Prop) : yields (clean_up m msg e) Q.
Proof. unfold clean_up. apply yields_any. intros [x|x]; apply yields_err. Qed.

Lemma one_fresh info pool enc : yields (initialize_one info pool mda_size.MDADataSize_default enc) fresh_dev.
Proof.
  unfold initialize_one. apply yields_any. intros dev. apply yields_any. intros [[handle dn] n]. destruct handle as [handle|].
  - eapply yields_bind; [apply yields_try, metadata_fresh|]. intros [e|bd] Hb; [apply clean_up_yields|by apply yields_ret].
  - apply yields_any. intros p. eapply yields_bind; [apply yields_try, metadata_fresh|].
    intros [e|bd] Hb; [apply clean_up_yields|by apply yields_ret].
Qed.

Lemma devices_fresh devices pool enc : yields (initialize_devices devices pool mda_size.MDADataSize_default enc) (Forall fresh_dev).
Proof.
  unfold initialize_devices. enough (∀ acc, Forall fresh_dev acc → yields (initialize_loop devices pool mda_size.MDADataSize_default enc acc) (Forall fresh_dev)) as Hl.
  { by apply Hl. }
  induction devices as [|info l IH]; intros acc Ha; cbn [initialize_loop]; [by apply yields_ret|].
  eapply yields_bind; [apply yields_try, one_fresh|]. intros [e|bd] Hb.
  - apply yields_any. intros _. apply yields_err.
  - apply IH, Forall_app. by split; [|constructor].
Qed.

(** What [BlockDevMgr::add] does to the list of devices, whatever it returns *)
Lemma mgr_add pool paths mgr : spec mgr (BDM.add pool paths) (λ _ mgr', mgr' = mgr ∨
  ∃ bds, Forall fresh_dev bds ∧ mgr' = with_devs mgr (block_devs mgr ++ bds)).
Proof.
  unfold BDM.add. intros s. unfold ibind at 1. cbn [get_self fst].
  destruct (_ && _); [by left|]. unfold ibind at 1, lift_sys at 1.
  destruct (process_and_verify_devices _ _ _ s) as [[devices|e|w] s1]; [|by left..].
  unfold ibind at 1, ilift at 1. destruct (BDM.encryption_info mgr) as [enc|e|w]; [|by left..].
  assert (Htail : ∀ s2, let '(_, (mgr', _)) := (let! bds := lift_sys (initialize_devices devices pool mda_size.MDADataSize_default enc) in
      modify_self (λ self, with_devs self (block_devs self ++ bds)) ;;! iret (SBD.uuid <$> bds)) (mgr, s2) in
    mgr' = mgr ∨ ∃ bds, Forall fresh_dev bds ∧ mgr' = with_devs mgr (block_devs mgr ++ bds)).
  { intros s2. unfold ibind at 1, lift_sys at 1. pose proof (devices_fresh devices pool enc s2) as Hf.
    destruct (initialize_devices _ _ _ _ s2) as [[bds|e|w] s3]; [|by left..]. right. exists bds. split; [by eapply Hf|done]. }
  unfold ibind at 1. destruct (EncryptionInfo_is_encrypted enc); [|apply Htail].
  unfold lift_sys at 1. destruct (BDM.can_unlock _ _ _ s1) as [[[]|e|w] s2]; [apply Htail|by left..].
Qed.

(** ** The backstore *)

Definition grown (b0 b : Backstore) : Prop := bs_ok b ∧ bs_next b = bs_next b0.

(** [Backstore::add_datadevs]: a failure changes nothing *)
Lemma add_datadevs_ok pool paths b : bs_ok b → spec b (BS.add_datadevs pool paths) (λ _ b', room_for (bs_devs b') → grown b b').
Proof.
  intros [Ht Hc Hn Hs] s. unfold BS.add_datadevs, BS.on_data, DT.add, DT.on_mgr, focus.
  pose proof (mgr_add pool paths (dt_block_mgr (bs_data_tier b)) s) as Ha.
  destruct (BDM.add pool paths _) as [r [mgr' s']]. intros Hr. split; [|done].
  split; [|exact Hc|exact Hn|exact Hs]. destruct Ha as [->|(bds & Hf & ->)]; [exact Ht|]. exact (fresh_joins _ _ _ Ht Hf Hr).
Qed.

Lemma make_cache_size pool ct origin new : yields (BS.make_cache pool ct origin new) (λ d, CacheDev_size d = LinearDev_size origin).
Proof.
  unfold BS.make_cache. apply yields_any. intros [n1 u1]. apply yields_any. intros meta. apply yields_any. intros _.
  apply yields_any. intros [n2 u2]. apply yields_any. intros cache. apply yields_any. intros [n3 u3].
  intros s d s' E. unfold dm in E. destruct (CacheDev_setup _ _ _ _ _ _ _) as [r l] eqn:Es. injection E as E _.
  apply (f_equal fst) in Es. destruct r as [e|d']; [done|]. injection E as <-. by eapply cache_setup_size.
Qed.

(** [Backstore::init_cache] leaves the backstore in order, unless it is left without a cap device. *)
Lemma init_cache_grown pool paths b : bs_ok b → spec b (BS.init_cache pool paths) (λ _ b', is_Some (BS.device b') → grown b b').
Proof.
  intros Hok s. pose proof Hok as [Ht Hc Hn Hs]. unfold BS.init_cache. unfold ibind at 1. cbn [get_self fst].
  destruct (bs_cache_tier b) as [ct|] eqn:Ect; [by intros _|]. destruct paths as [|path paths]; [by intros _|].
  unfold ibind at 1, lift_sys at 1. destruct (BDM.initialize _ _ _ _ s) as [[bdm|e|w] s1]; [|by intros _..].
  unfold ibind at 1, lift_sys at 1. destruct (CT.new bdm s1) as [[tier|e|w] s2]; [|by intros _..].
  assert (Ecache : bs_cache b = None).
  { unfold cap_ok in Hc. destruct (bs_cache b), (bs_linear b); try done. rewrite Ect in Hc. by destruct Hc. }
  unfold BS.take_linear. unfold ibind at 1 2 3. cbn [get_self fst modify_self ilift].
  assert (Hlost : ¬ is_Some (BS.device (BS.set_linear None b))) by (unfold BS.device; cbn; rewrite Ecache; by intros []).
  destruct (bs_linear b) as [d|] eqn:El; cbn [expect]; [|by intros ?].
  unfold ibind at 1, lift_sys at 1. pose proof (make_cache_size pool tier d true s2) as Hm.
  destruct (BS.make_cache _ _ _ _ s2) as [[c|e|w] s3]; [|by intros ?..]. specialize (Hm _ _ eq_refl).
  cbn. intros _. unfold BS.size in Hn, Hs. rewrite El in Hn, Hs. split; [|done].
  split; unfold BS.size; cbn; rewrite ?Hm; [exact Ht|by eexists|exact Hn|exact Hs].
Qed.

(** The backstore is in order, with the same index and size as at first. *)
Definition caches (b0 b : Backstore) : Prop := grown b0 b ∧ CacheDev_size <$> bs_cache b = CacheDev_size <$> bs_cache b0.

Lemma keep_on_cache {A} b0 b c (m : obj CacheDev A) : CacheDev_size <$> bs_cache b0 = Some (CacheDev_size c) →
  (∀ s, CacheDev_size (m (c, s)).2.1 = CacheDev_size c) → keep (caches b0) b (BS.on_cache c m).
Proof.
  intros Hc Hm. apply keep_focus. intros [[[Ht Hcap Hn Hs] Hnext] Hsz] s. specialize (Hm s). destruct (m (c, s)) as [r [c' s']]. cbn in Hm.
  rewrite Hc in Hsz. destruct (bs_cache b) as [c0|] eqn:E0; [|done]. injection Hsz as Hsz.
  assert (bs_linear b = None ∧ is_Some (bs_cache_tier b)) as [El Hct] by (unfold cap_ok in Hcap; rewrite E0 in Hcap; by destruct (bs_linear b)).
  unfold BS.size in Hn, Hs. rewrite El, E0 in Hn, Hs. split; [split; [split|done]|]; unfold BS.size, cap_ok; cbn; rewrite ?El, ?Hm, ?Hc; try done; try lia.
  change (bs_segs (BS.set_cache (Some c') b)) with (bs_segs b). lia.
Qed.

Lemma cache_reload_size (m : mutM CacheDev unit) c s : (∀ d l, CacheDev_size (m d l).2.1 = CacheDev_size d) →
  CacheDev_size ((dm_mut m ;;! dm_mut CacheDev_resume) (c, s)).2.1 = CacheDev_size c.
Proof.
  intros Hm. unfold ibind, dm_mut. specialize (Hm c (s_luks s)). destruct (m c (s_luks s)) as [[e|[]] [c1 l1]]; cbn in *; [done|].
  pose proof (cache_resume_size c1 l1). destruct (CacheDev_resume c1 l1) as [[e|[]] [c2 l2]]; cbn in *; congruence.
Qed.

(** [Backstore::add_cachedevs] keeps the cap device, whatever fails. *)
Lemma add_cachedevs_ok pool paths b : bs_ok b → spec b (BS.add_cachedevs pool paths) (λ _ b', grown b b').
Proof.
  intros Hok. enough (keep (caches b) b (BS.add_cachedevs pool paths)) as Hk.
  { intros s. specialize (Hk (conj (conj Hok eq_refl) eq_refl) s). by destruct (BS.add_cachedevs _ _ _) as [r [b' s']], Hk. }
  unfold BS.add_cachedevs. apply keep_self. destruct (bs_cache_tier b) as [tier|] eqn:Et; [|apply keep_lift].
  apply keep_lift_bind. intros c Ec. destruct (bs_cache b) as [c0|] eqn:E0; [|done]. injection Ec as ->.
  assert (Hsz : CacheDev_size <$> bs_cache b = Some (CacheDev_size c)) by (by rewrite E0).
  apply keep_bind.
  { apply keep_focus. intros [[[Ht Hcap Hn Hs] Hnext] Hcs] s. destruct (CT.add _ _ _) as [r [t s']]. split; [split; [split|done]|done]; try done.
    unfold cap_ok in *. cbn. rewrite E0 in *. by destruct (bs_linear b). }
  intros [uuids [cc mc]] b1. apply keep_self. apply keep_bind.
  { destruct cc; [|apply keep_ret]. apply keep_on_cache; [done|]. intros s. apply cache_reload_size. intros d l. apply cache_set_cache_size. }
  intros _ b2 Hi. pose proof Hi as [_ Hcs]. revert Hi. apply keep_self. apply keep_bind; [|intros _ b3; apply keep_ret].
  destruct mc; [|apply keep_ret]. apply keep_on_cache.
  - rewrite Hsz in *. by destruct (bs_cache b2).
  - intros s. apply cache_reload_size. intros d l. apply cache_set_meta_size.
Qed.
End grow.
