(* ===== verification/FsSpec.v ===== *)
(** * The filesystems of a thin pool

    Whatever fails, the operations of [src/engine/strat_engine/thinpool/thinpool.rs] keep the table
    of filesystems in order: names and UUIDs stay unique, and no two filesystems ever share a thin
    device identifier. *)
From stdpp Require Import base list gmap strings.
From Stdlib Require Import ZArith Lia.
From S2P Require Import Prelude Disk Sizes External Json StaticHeader MDA BDA Table Actions Shared System Names Crypt BlockDev Devices BlockDevMgr Bindings Dm Mdv Setup Tiers Backstore ThinPool Pool PoolSpec.

Section fs.
Context `{Crc32c} `{Chrono} `{Cryptsetup} `{!Devicemapper} `{!DmLaws} `{UuidDisplay} `{ClevisCodec} `{DmNames} `{FsSerde}.
Implicit Types (t : TP.ThinPool) (f : StratFilesystem).

Definition fid f : Z := ThinDev_id (thin_dev f).
Definition has_fs t (name : Str) (uuid : Z) f : Prop := entry (TP.filesystems t) name uuid f.

Record fs_ok t : Prop := {
  fs_table : table_ok (TP.filesystems t);
  fs_gen : 0 ≤ TP.id_gen t ≤ 2 ^ 24;
  fs_below : ∀ n u f, has_fs t n u f → 0 ≤ fid f < TP.id_gen t;
  fs_distinct : ∀ n u f n' u' f', has_fs t n u f → has_fs t n' u' f' → fid f = fid f' → u = u' }.

(** no filesystem but possibly that with UUID [u] has the identifier of [f] *)
Definition free_for t (u : Z) f : Prop :=
  0 ≤ fid f < TP.id_gen t ∧ ∀ n' u' f', has_fs t n' u' f' → u' ≠ u → fid f' ≠ fid f.

Lemma insert_fs_ok t name u f : fs_ok t → free_for t u f →
  ∃ r tbl, Tbl.insert (TP.filesystems t) name u f = Ok (r, tbl) ∧ fs_ok (TP.set_filesystems tbl t).
Proof.
  intros [Ht Hg Hb Hd] [Hid Hfree]. destruct (tbl_insert_ok (TP.filesystems t) name u f Ht) as (tbl & E & Hm).
  eexists _, tbl. split; [exact E|].
  assert (∀ n' u' f', entry tbl n' u' f' → (u', f') = (u, f) ∨ has_fs t n' u' f' ∧ u' ≠ u) as Hcase.
  { intros n' u' f' [[= -> -> ->]|(? & _ & ?)]%(insert_maps_entry _ _ _ _ _ _ _ _ Ht Hm); [by left|by right]. }
  split; cbn; [by eapply insert_maps_ok|done|..].
  - intros n' u' f' [[= -> ->]|[He _]]%Hcase; [done|by eapply Hb].
  - intros n1 u1 f1 n2 u2 f2 [[= -> ->]|[He1 Hne1]]%Hcase [[= -> ->]|[He2 Hne2]]%Hcase E12.
    + done.
    + by destruct (Hfree n2 u2 f2 He2 Hne2).
    + by destruct (Hfree n1 u1 f1 He1 Hne1).
    + by eapply Hd.
Qed.

Lemma remove_fs_ok t u : fs_ok t →
  let '(r, tbl) := Tbl.remove_by_uuid (TP.filesystems t) u in
  fs_ok (TP.set_filesystems tbl t) ∧ r = Tbl.get_by_uuid (TP.filesystems t) u ∧
  ∀ n' u' f', entry tbl n' u' f' ↔ has_fs t n' u' f' ∧ u' ≠ u.
Proof.
  intros [Ht Hg Hb Hd]. pose proof (remove_by_uuid_ok (TP.filesystems t) u Ht) as Hr.
  destruct (Tbl.remove_by_uuid _ _) as [r tbl]. destruct Hr as (Hok & -> & He). split; [|done].
  split; cbn; [done|done|..].
  - intros n' u' f' [? _]%He. by eapply Hb.
  - intros n1 u1 f1 n2 u2 f2 [? _]%He [? _]%He. by eapply Hd.
Qed.

(** a filesystem changed in place keeps its identifier *)
Lemma update_fs_ok t n u f f' : fs_ok t → has_fs t n u f → fid f' = fid f →
  fs_ok (TP.set_filesystems (mkTable (name_to_uuid (TP.filesystems t)) (<[u := (n, f')]> (items (TP.filesystems t)))) t).
Proof.
  intros [Ht Hg Hb Hd] Hf Hid. destruct (set_item_ok (TP.filesystems t) n u f f' Ht Hf) as [Ht' He].
  assert (∀ n1 u1 f1, entry (mkTable (name_to_uuid (TP.filesystems t)) (<[u := (n, f')]> (items (TP.filesystems t)))) n1 u1 f1 →
    ∃ f2, has_fs t n1 u1 f2 ∧ fid f1 = fid f2) as Hold.
  { intros n1 u1 f1 [[= -> -> ->]|[? _]]%He; [by exists f|by exists f1]. }
  split; cbn; [done|done|..].
  - intros n1 u1 f1 (f2 & ? & ->)%Hold. by eapply Hb.
  - intros n1 u1 f1 n2 u2 f2 (g1 & ? & ->)%Hold (g2 & ? & ->)%Hold. by eapply Hd.
Qed.

(** *** Steps that do not touch the table *)

Lemma keep_fs_pool {A} t (m : mutM ThinPoolDev A) : keep fs_ok t (TP.on_pool m).
Proof. apply keep_focus. intros [? ? ? ?] s. by destruct (dm_mut m _) as [r [d s']]. Qed.
Lemma keep_fs_mdv {A} t (m : obj MetadataVol A) : keep fs_ok t (TP.on_mdv m).
Proof. apply keep_focus. intros [? ? ? ?] s. by destruct (m _) as [r [d s']]. Qed.
Lemma keep_fs_segs t x : keep fs_ok t (modify_self (TP.set_segments x)).
Proof. apply keep_modify. by intros [? ? ? ?]. Qed.
Hint Resolve keep_fs_pool keep_fs_mdv keep_fs_segs : keep.

Lemma keep_announce t pool_name u : keep fs_ok t (TP.announce pool_name u).
Proof. unfold TP.announce. keeping. Qed.
Hint Resolve keep_announce : keep.

Lemma keep_insert_fs t name u f : (fs_ok t → free_for t u f) → keep fs_ok t (TP.insert_filesystem name u f).
Proof.
  intros Hfree Hok s. destruct (insert_fs_ok t name u f Hok (Hfree Hok)) as (r & tbl & E & Hok').
  unfold TP.insert_filesystem, ibind. cbn [get_self fst ilift]. by rewrite E.
Qed.

(** *** New identifiers *)

Definition unused t (id : Z) : Prop := 0 ≤ id < TP.id_gen t ∧ ∀ n u f, has_fs t n u f → fid f ≠ id.

Lemma unused_free t id u f : unused t id → fid f = id → free_for t u f.
Proof. intros [? Hu] <-. split; [done|]. intros n' u' f' ? _. by eapply Hu. Qed.

Lemma next_id_run t : fs_ok t →
  spec t TP.next_thin_id (λ r t', fs_ok t' ∧ TP.filesystems t' = TP.filesystems t ∧ ∀ id, r = Ok id → unused t' id).
Proof.
  intros [Ht Hg Hb Hd] s. unfold TP.next_thin_id, ibind, Ids.new_id. cbn [get_self fst].
  destruct (ThinDevId_new_u64 (TP.id_gen t)) as [e|id] eqn:E; cbn; [done|].
  pose proof (thin_id_value _ _ E) as ->. pose proof (thin_id_bound _ _ E). rewrite Z.mod_small by lia.
  assert (∀ n u f, has_fs t n u f → 0 ≤ fid f < TP.id_gen t + 1) as Hb'.
  { intros n u f Hf. specialize (Hb n u f Hf). lia. }
  split; [split; cbn; [done|lia|exact Hb'|exact Hd]|]. split; [done|].
  intros id [= <-]. split; cbn; [lia|]. intros n u f Hf. specialize (Hb n u f Hf). lia.
Qed.

(** *** The filesystem operations *)

(** [dm] and [itry (dm ..)] return what the call does *)
Lemma dm_inv {A} (m : dmM A) s a s' : dm m s = (Ok a, s') → (m (s_luks s)).1 = inr a.
Proof. unfold dm. destruct (m (s_luks s)) as [[e|a'] l]; cbn; by intros [= <- _]. Qed.
Lemma try_dm_inv {A} (m : dmM A) s a s' : itry (dm m) s = (Ok (inr a), s') → (m (s_luks s)).1 = inr a.
Proof. unfold itry, dm. destruct (m (s_luks s)) as [[e|a'] l]; cbn; by intros [= <- _]. Qed.

(** the steps of a successful run *)
Lemma bind_inv {S A B} (m : st S A) (k : A → st S B) s b s' : ibind m k s = (Ok b, s') →
  ∃ a s1, m s = (Ok a, s1) ∧ k a s1 = (Ok b, s').
Proof. unfold ibind. destruct (m s) as [[a|e|w] s1]; [|done..]. eauto. Qed.

Ltac run_inv E :=
  repeat match type of E with
  | ibind _ _ _ = _ =>
      let a := fresh "a" in let s1 := fresh "s" in let E1 := fresh "E" in
      apply bind_inv in E as (a & s1 & E1 & E); cbn beta iota in E
  | (match ?p with pair _ _ => _ end) _ = _ => destruct p; cbn beta iota in E
  end.

Lemma fs_initialize_id pool tp size id s u f s' : fs_initialize pool tp size id s = (Ok (u, f), s') → fid f = id.
Proof.
  unfold fs_initialize. intros E. run_inv E.
  match goal with x : (StratisError + unit)%type |- _ => destruct x end; run_inv E; [done|].
  injection E as <- <- _. unfold fid. cbn.
  match goal with E : dm (ThinDev_new _ _ _ _ _) _ = _ |- _ => apply dm_inv in E; by eapply thin_new_id end.
Qed.

Lemma fs_snapshot_id f tp nm du u id s f' s' : fs_snapshot f tp nm du u id s = (Ok f', s') → fid f' = id.
Proof.
  unfold fs_snapshot. intros E. run_inv E. destruct a as [e|d]; run_inv E; [done|].
  injection E as <- _. unfold fid. cbn.
  match goal with E : itry (dm (ThinDev_snapshot _ _ _ _ _)) _ = _ |- _ => apply try_dm_inv in E; by eapply thin_snapshot_id end.
Qed.

Lemma keep_create t pool_name pool name size : keep fs_ok t (TP.create_filesystem pool_name pool name size).
Proof.
  intros Hok. unfold TP.create_filesystem. eapply spec_bind; [by apply next_id_run| |by intros e t' [? _]|by intros e t' [? _]].
  intros id t1 (Hok1 & _ & Hun). specialize (Hun id eq_refl). revert Hok1. apply keep_self.
  apply keep_sys_bind. intros [u f] s s' E. keeping.
  apply keep_insert_fs. intros _. eapply unused_free; [done|]. by eapply fs_initialize_id.
Qed.

Lemma keep_snapshot t pool_name pool origin name : keep fs_ok t (TP.snapshot_filesystem pool_name pool origin name).
Proof.
  unfold TP.snapshot_filesystem. apply keep_sys_bind. intros u _ _ _. apply keep_lift_bind. intros [nm du] _.
  intros Hok. eapply spec_bind; [by apply next_id_run| |by intros e t' [? _]|by intros e t' [? _]].
  intros id t1 (Hok1 & _ & Hun). specialize (Hun id eq_refl). revert Hok1. apply keep_self.
  destruct (TP.get_filesystem_by_uuid t1 origin) as [[n f0]|]; [|apply keep_err].
  apply keep_sys_bind. intros f s s' E. keeping.
  apply keep_insert_fs. intros _. eapply unused_free; [done|]. by eapply fs_snapshot_id.
Qed.

(** putting a filesystem that was taken out back, possibly under another name *)
Lemma put_back_ok t u n f f' tbl : fs_ok t → has_fs t n u f → fid f' = fid f →
  (∀ n' u' g, entry tbl n' u' g ↔ has_fs t n' u' g ∧ u' ≠ u) → free_for (TP.set_filesystems tbl t) u f'.
Proof.
  intros [Ht Hg Hb Hd] Hf Hid He. unfold free_for. rewrite Hid. split; [by eapply Hb|].
  intros n' u' g [Hg' Hne]%He _ Heq. by destruct Hne; eapply Hd.
Qed.

Lemma keep_destroy t pool_name u : keep fs_ok t (TP.destroy_filesystem pool_name u).
Proof.
  intros Hok. unfold TP.destroy_filesystem. apply spec_self.
  pose proof (remove_fs_ok t u Hok) as Hr. destruct (Tbl.remove_by_uuid _ _) as [r tbl].
  destruct Hr as (Hok' & -> & He). intros s. unfold ibind at 1. cbn [modify_self]. revert s.
  change (spec (TP.set_filesystems tbl t) (match Tbl.get_by_uuid (TP.filesystems t) u with
    | Some (fs_name, fs) =>
        let! '(r, d) := lift_sys (dm_on (ThinDev_destroy (TP.thin_pool t)) (thin_dev fs)) in
        match r with
        | inr _ => let! _ := lift_sys (itry (rm_fs (TP.mdv t) u)) in iret (Some u)
        | inl err => TP.insert_filesystem fs_name u (set_thin_dev d fs) ;;! ierr err
        end
    | None => iret None end) (λ _ t', fs_ok t')).
  revert Hok'. destruct (Tbl.get_by_uuid (TP.filesystems t) u) as [[n f]|] eqn:Eu; [|apply keep_ret].
  apply keep_sys_bind. intros [r d] s s' E. keeping. apply keep_insert_fs. intros _.
  eapply put_back_ok; [done|exact Eu| |done]. unfold fid. cbn.
  revert E. unfold dm_on. pose proof (thin_destroy_id (TP.thin_pool t) (thin_dev f) (s_luks s)) as Hid.
  destruct (ThinDev_destroy _ _ _) as [r' [d' l]]. intros [= -> <- _]. exact Hid.
Qed.

Lemma keep_rename t pool_name u new_name : keep fs_ok t (TP.rename_filesystem pool_name u new_name).
Proof.
  unfold TP.rename_filesystem. apply keep_self.
  destruct (Tbl.get_by_uuid (TP.filesystems t) u) as [[n f]|] eqn:Eu; [|apply keep_ret].
  case_bool_decide; [apply keep_ret|]. destruct (Tbl.contains_name _ _); [apply keep_err|].
  intros Hok. pose proof (remove_fs_ok t u Hok) as Hr. destruct (Tbl.remove_by_uuid _ _) as [r tbl].
  destruct Hr as (Hok' & -> & He). rewrite Eu. intros s. unfold ibind at 1. cbn [modify_self]. revert s.
  eapply spec_ok; [done|]. revert Hok'.
  assert (∀ name, keep fs_ok (TP.set_filesystems tbl t) (TP.insert_filesystem name u f)) as Hput.
  { intros name. apply keep_insert_fs. intros _. by eapply put_back_ok. }
  apply keep_sys_bind. intros r s s' _. keeping.
Qed.

(** *** Checking filesystems *)

Lemma fs_check_id f : spec f fs_check (λ _ f', fid f' = fid f).
Proof.
  enough (keep (λ g, fid g = fid f) f fs_check) as Hk by (by apply Hk).
  unfold fs_check. keeping. apply keep_focus. intros Hf sy. unfold dm_mut.
  pose proof (thin_set_length_id (ThinDev_size (thin_dev f) +64 extend_size (ThinDev_size (thin_dev f))) (thin_dev f) (s_luks sy)) as Hid.
  destruct (ThinDev_set_table_length _ _ _) as [r [d l]]. exact Hid.
Qed.

(** what [check_filesystems] relies on: the filesystems of the list are those of the table *)
Definition listed (l0 : list (Str * Z * StratFilesystem)) t : Prop :=
  fs_ok t ∧ ∀ n u f n' g, (n, u, f) ∈ l0 → has_fs t n' u g → fid g = fid f.

Lemma keep_check_each l0 l t : l ⊆ l0 → keep (listed l0) t (TP.check_filesystems l).
Proof.
  revert t. induction l as [|[[n u] f] l IH]; intros t Hsub; cbn [TP.check_filesystems]; [apply keep_ret|].
  assert (∀ t', keep (listed l0) t' (TP.check_filesystems l)) as IH' by (intros; apply IH; set_solver).
  apply keep_self. apply keep_bind.
  - apply keep_focus. intros [Hok Hl] s. pose proof (fs_check_id f s) as Hid.
    destruct (fs_check (f, s)) as [r [f' s']]. unfold Tbl.get_mut_by_uuid.
    destruct (items (TP.filesystems t) !! u) as [[n1 g]|] eqn:Eu; cbn; [|done].
    assert (fid f' = fid g) as Hg by (rewrite Hid; symmetry; eapply (Hl n u f n1 g); [set_solver|exact Eu]).
    split; [by eapply update_fs_ok|]. intros n2 u2 f2 n3 g3 Hin. unfold has_fs, entry. cbn.
    destruct (decide (u2 = u)) as [->|]; [rewrite lookup_insert_eq|rewrite lookup_insert_ne by done].
    + intros [= <- <-]. rewrite Hg. by eapply Hl.
    + by eapply Hl.
  - intros save t'. apply keep_self. keeping.
Qed.

Lemma keep_fs_check_filesystems t : keep fs_ok t (TP.check_filesystems (Tbl.iter (TP.filesystems t))).
Proof.
  intros Hok s. pose proof (keep_check_each (Tbl.iter (TP.filesystems t)) _ t (reflexivity _)) as Hk.
  assert (listed (Tbl.iter (TP.filesystems t)) t) as Hl.
  { split; [done|]. intros n u f n' g ([u' [n1 g1]] & [= -> -> ->] & Hin)%list_elem_of_fmap Hg.
    apply elem_of_map_to_list in Hin. unfold has_fs, entry in Hg. by simplify_eq. }
  specialize (Hk Hl s). destruct (TP.check_filesystems _ _) as [r [t' s']]. apply Hk.
Qed.
End fs.
