(* ===== verification/PoolOps.v ===== *)
(** * Operations of a running pool

    Every operation of [StratPool] that changes its state keeps the invariants of its backstore, of
    the thin pool's devices and of the filesystems, whatever the system answers.  A request that adds devices does so if their UUIDs
    are new and the sizes add up, one that makes a cache unless it loses the cap device on the way. *)
From stdpp Require Import base list gmap strings.
From Stdlib Require Import ZArith Lia.
From S2P Require Import Prelude Disk Sizes External Json StaticHeader MDA BDA Table Actions Shared System Names Crypt BlockDev Devices BlockDevMgr Bindings PoolMetadata Dm Mdv Setup RangeAlloc Alloc Tiers Backstore BackstoreSpec ThinPool ThinPoolSpec Pool PoolSpec BackstoreGrow FsSpec.

(** ** What the invariant of a tier depends on *)

(** a device's number, header and allocator *)
Definition geometry (bd : StratBlockDev) : Z * StaticHeader * RangeAllocator := (dev bd, header (bda bd), sbd_used bd).
(** a device with a given geometry *)
Definition of_geometry (g : Z * StaticHeader * RangeAllocator) : StratBlockDev :=
  mkSBD g.1.1 (mkBDA g.1.2 (mkRegions 0 (None, None))) g.2 None None (Unencrypted []).
Definition geo (devs : list StratBlockDev) : list (Z * StaticHeader * RangeAllocator) := geometry <$> devs.

Definition redo : StratBlockDev → StratBlockDev := of_geometry ∘ geometry.

Lemma redo_used devs u x : used_cov (redo <$> devs) u x ↔ used_cov devs u x.
Proof. unfold used_cov. by rewrite Exists_fmap. Qed.
Lemma redo_meta devs u x : meta_cov (redo <$> devs) u x ↔ meta_cov devs u x.
Proof. unfold meta_cov. by rewrite Exists_fmap. Qed.
Lemma redo_on devs s : seg_on (redo <$> devs) s ↔ seg_on devs s.
Proof. unfold seg_on. by rewrite Exists_fmap. Qed.
Lemma redo_fmap {A} (g : StratBlockDev → A) (devs : list StratBlockDev) : (∀ bd, g (redo bd) = g bd) → g <$> (redo <$> devs) = g <$> devs.
Proof. intros Hg. rewrite <- list_fmap_compose. apply list_fmap_ext. intros i bd _. apply Hg. Qed.
Lemma redo_devs_ok devs : devs_ok (redo <$> devs) ↔ devs_ok devs.
Proof. unfold devs_ok. rewrite Forall_fmap, !redo_fmap by done. done. Qed.

Lemma tier_ok_redo devs segs : tier_ok (redo <$> devs) segs ↔ tier_ok devs segs.
Proof.
  assert (free_total (redo <$> devs) = free_total devs) as Hf by (unfold free_total; by rewrite redo_fmap).
  assert (meta_total (redo <$> devs) = meta_total devs) as Hm by (unfold meta_total; by rewrite redo_fmap).
  assert (limit_total (redo <$> devs) = limit_total devs) as Hl by (unfold limit_total; by rewrite redo_fmap).
  split; intros [T1 T2 T3 T4 T5 T6 T7]; (split; [by apply redo_devs_ok| | |done| | |congruence]).
  - rewrite Forall_fmap in T2. exact T2.
  - eapply Forall_impl; [exact T3|]. intros s. apply redo_on.
  - intros u x. specialize (T5 u x). by rewrite redo_used, redo_meta in T5.
  - intros u x. specialize (T6 u x). by rewrite redo_meta in T6.
  - rewrite Forall_fmap. exact T2.
  - eapply Forall_impl; [exact T3|]. intros s. apply redo_on.
  - intros u x. by rewrite redo_used, redo_meta.
  - intros u x. rewrite redo_meta. apply T6.
Qed.

Lemma tier_ok_geo devs devs' segs : geo devs' = geo devs → tier_ok devs segs → tier_ok devs' segs.
Proof.
  intros E Ht. apply tier_ok_redo. apply tier_ok_redo in Ht. unfold redo in *. rewrite list_fmap_compose in *.
  unfold geo in E. by rewrite E.
Qed.

Lemma geo_free devs devs' : geo devs' = geo devs → free_total devs' = free_total devs.
Proof.
  intros E. unfold free_total. rewrite <- (redo_fmap free devs), <- (redo_fmap free devs') by done.
  unfold redo. rewrite !(list_fmap_compose geometry of_geometry). unfold geo in E. by rewrite E.
Qed.

(** ** Methods of devices and of the device manager that keep the geometry *)

Section geometry.
Context `{Crc32c} `{Chrono} `{Cryptsetup} `{!Devicemapper} `{!DmLaws} `{UuidDisplay} `{ClevisCodec} `{DmNames} `{FsSerde} `{PoolSerde}.

Definition dev_like (g : Z * StaticHeader * RangeAllocator) (bd : StratBlockDev) : Prop := geometry bd = g.
Definition mgr_like (g : list (Z * StaticHeader * RangeAllocator)) (mgr : BlockDevMgr) : Prop := geo (block_devs mgr) = g.

(** [gentle m]: [m] never changes the geometry of its device *)
Definition gentle (m : obj StratBlockDev unit) : Prop := ∀ bd, keep (dev_like (geometry bd)) bd m.

Lemma gentle_run m bd s : gentle m → geometry (m (bd, s)).2.1 = geometry bd.
Proof. intros Hm. specialize (Hm bd eq_refl s). by destruct (m (bd, s)) as [r [bd' s']]. Qed.

Lemma gentle_handle m : gentle (SBD.with_handle m).
Proof.
  intros bd _ s. unfold SBD.with_handle. destruct (underlying_device bd); [|done].
  by destruct (m _) as [r [h s']].
Qed.
Lemma gentle_restore headers i : gentle (BDM.restore_header headers i).
Proof. intros bd. unfold BDM.restore_header. keeping. Qed.
Lemma gentle_save time md : gentle (SBD.save_state time md).
Proof.
  intros bd _ s. unfold SBD.save_state. destruct (s_files s !! _) as [f|]; [|done].
  unfold Bda.save_state. by destruct (MDA.save_state _ _ _ _ _) as [[r b] f'].
Qed.

Lemma rollback_geo rollback i l e s : (∀ i, gentle (rollback i)) →
  ∀ r s', BDM.rollback_loop rollback i l e s = (r, s') → match r with Ok (_, l') => geo l' = geo l | _ => True end.
Proof.
  intros Hr. revert i s. induction l as [|bd l IH]; intros i s r s' E; cbn [BDM.rollback_loop] in E; [by injection E as <- _|].
  pose proof (gentle_run (rollback i) bd s (Hr i)) as Hg.
  destruct (rollback i (bd, s)) as [[u|e1|w] [bd' s1]]; cbn in Hg; [|by injection E as <- _; cbn; rewrite Hg|by injection E as <- _].
  unfold ibind in E. specialize (IH (S i) s1). destruct (BDM.rollback_loop rollback (S i) l e s1) as [[[err l']|e1|w] s2];
    specialize (IH _ _ eq_refl); injection E as <- _; [|done..]. unfold geo in *. cbn. by rewrite Hg, IH.
Qed.

Lemma operation_loop_geo action rollback todo done_ s : gentle action → (∀ i, gentle (rollback i)) →
  ∀ r s', BDM.operation_loop_from todo action rollback done_ s = (r, s') →
  match r with Ok (_, l') => geo l' = geo (done_ ++ todo) | _ => True end.
Proof.
  intros Ha Hr. revert done_ s. induction todo as [|bd l IH]; intros done_ s r s' E; cbn [BDM.operation_loop_from] in E.
  { injection E as <- _. by rewrite app_nil_r. }
  pose proof (gentle_run action bd s Ha) as Hg. destruct (action (bd, s)) as [[u|e1|w] [bd' s1]]; cbn in Hg.
  - apply IH in E. destruct r as [[o l']|e1|w]; [|done..]. rewrite E. unfold geo. rewrite !fmap_app. cbn.
    by rewrite Hg, <- app_assoc.
  - unfold ibind in E. destruct (BDM.rollback_loop rollback 0 done_ e1 s1) as [rr s2] eqn:Er.
    apply rollback_geo in Er; [|done]. destruct rr as [[err l']|e2|w]; injection E as <- _; [|done..].
    unfold geo in *. rewrite !fmap_app, Er. cbn. by rewrite Hg.
  - by injection E as <- _.
Qed.

Lemma keep_operation_loop g mgr action rollback : gentle action → (∀ i, gentle (rollback i)) →
  keep (mgr_like g) mgr (BDM.operation_loop action rollback).
Proof.
  intros Ha Hr Hg s. unfold BDM.operation_loop.
  destruct (BDM.operation_loop_from (block_devs mgr) action rollback [] s) as [r s'] eqn:E.
  apply operation_loop_geo in E; [|done..]. unfold mgr_like in *. cbn [app] in E.
  destruct r as [[[e|u] l]|e|w]; [exact (eq_trans E Hg)|exact (eq_trans E Hg)|exact Hg|exact Hg].
Qed.

Ltac device_ops :=
  keeping; try (apply keep_operation_loop; intros; first [apply gentle_handle | apply gentle_restore]).

Lemma keep_mgr_bindings g mgr :
  (∀ pin info, keep (mgr_like g) mgr (BDM.bind_clevis pin info)) ∧ keep (mgr_like g) mgr BDM.unbind_clevis ∧
  (∀ kd, keep (mgr_like g) mgr (BDM.bind_keyring kd)) ∧ keep (mgr_like g) mgr BDM.unbind_keyring ∧
  (∀ kd, keep (mgr_like g) mgr (BDM.rebind_keyring kd)) ∧ keep (mgr_like g) mgr BDM.rebind_clevis.
Proof.
  split_and!; intros.
  - unfold BDM.bind_clevis, BDM.not_encrypted. device_ops.
  - unfold BDM.unbind_clevis, BDM.not_encrypted. device_ops.
  - unfold BDM.bind_keyring, BDM.not_encrypted. device_ops.
  - unfold BDM.unbind_keyring, BDM.not_encrypted. device_ops.
  - unfold BDM.rebind_keyring, BDM.not_encrypted. device_ops.
  - unfold BDM.rebind_clevis, BDM.rebind_clevis_with_tmp_files, BDM.not_encrypted. device_ops.
Qed.

Lemma save_each_geo chosen time md saved devs s :
  geo (BDM.save_each chosen time md saved (devs, s)).2.1 = geo devs.
Proof.
  revert saved devs s. induction chosen as [|i l IH]; intros saved devs s; [done|]. cbn [BDM.save_each].
  destruct (devs !! i) as [bd|] eqn:Ei; [|apply IH].
  pose proof (gentle_run _ bd s (gentle_save time md)) as Hg.
  assert (∀ bd', geometry bd' = geometry bd → geo (<[i := bd']> devs) = geo devs) as Hins.
  { intros bd' Hb. unfold geo. rewrite list_fmap_insert, Hb. apply list_insert_id. by rewrite list_lookup_fmap, Ei. }
  destruct (SBD.save_state time md (bd, s)) as [[u|e|w] [bd' s']]; cbn in Hg; rewrite ?IH; by apply Hins.
Qed.

Lemma keep_mgr_save g mgr choose md : keep (mgr_like g) mgr (BDM.save_state choose md).
Proof.
  unfold BDM.save_state. apply keep_sys_bind. intros now _ _ _. apply keep_self. apply keep_lift_bind. intros stamp _.
  intros Hg s. set (chosen := _ <$> _). pose proof (save_each_geo chosen stamp md false (block_devs mgr) s) as Hs.
  destruct (BDM.save_each _ _ _ _ _) as [[[]|e|w] [devs s']]; exact (eq_trans Hs Hg).
Qed.

(** ** The backstore *)

(** [b] differs from [b0] at most in what its devices say about encryption, saved metadata and
    users *)
Record bs_like (b0 b : Backstore) : Prop := {
  l_geo : geo (bs_devs b) = geo (bs_devs b0);
  l_segs : bs_segs b = bs_segs b0;
  l_cap : bs_cache b = bs_cache b0 ∧ bs_linear b = bs_linear b0;
  l_tier : is_some (bs_cache_tier b) = is_some (bs_cache_tier b0);
  l_next : bs_next b = bs_next b0 }.

Lemma bs_like_refl b : bs_like b b.
Proof. done. Qed.

Lemma bs_like_ok b0 b : bs_like b0 b → bs_ok b0 → bs_ok b.
Proof.
  intros [Hg Hs [Hc Hl] Ht Hn] [Bt Bc Bn Bs].
  assert (BS.size b = BS.size b0) as Hsz by (unfold BS.size; by rewrite Hc, Hl).
  split; rewrite ?Hsz, ?Hn, ?Hs; [by eapply tier_ok_geo| |done|done].
  unfold cap_ok in *. rewrite Hc, Hl. destruct (bs_cache b0), (bs_linear b0), (bs_cache_tier b0), (bs_cache_tier b);
    try done; by apply is_Some_None in Bc.
Qed.

Lemma keep_data_mgr {A} b0 b (m : obj BlockDevMgr A) :
  keep (mgr_like (geo (bs_devs b0))) (dt_block_mgr (bs_data_tier b)) m → keep (bs_like b0) b (BS.on_data_mgr m).
Proof.
  intros Hm [Hg Hs Hc Ht Hn] s. specialize (Hm Hg s). unfold BS.on_data_mgr, BS.on_data, focus, DT.on_mgr.
  destruct (m _) as [r [mgr s']]. by split.
Qed.

Lemma update_by_uuid_geo {A} u (f : StratBlockDev → A * StratBlockDev) l :
  (∀ bd, geometry (f bd).2 = geometry bd) → geo (update_by_uuid u f l).2 = geo l.
Proof.
  intros Hf. induction l as [|bd l IH]; [done|]. cbn [update_by_uuid].
  destruct (_ =? _) eqn:E; [|destruct (update_by_uuid u f l) as [o l']; unfold geo in *; cbn in *; by rewrite IH].
  specialize (Hf bd). destruct (f bd) as [a bd']. unfold geo in *. cbn in *. by rewrite Hf.
Qed.

Lemma user_info_like b u info : bs_like b (BS.set_blockdev_user_info b u info).2.
Proof.
  unfold BS.set_blockdev_user_info.
  assert (∀ bd, geometry (SBD.set_user_info bd info).2 = geometry bd) as Hf.
  { intros bd. unfold SBD.set_user_info. by destruct (bool_decide _). }
  pose proof (update_by_uuid_geo u (λ bd, SBD.set_user_info bd info) (block_devs (dt_block_mgr (bs_data_tier b))) Hf) as Hg.
  destruct (update_by_uuid _ _ (block_devs (dt_block_mgr (bs_data_tier b)))) as [[c|] l]; [by split|].
  destruct (bs_cache_tier b) as [ct|] eqn:Ec; [|apply bs_like_refl].
  destruct (update_by_uuid _ _ (block_devs (ct_block_mgr ct))) as [[c|] l']; [|apply bs_like_refl].
  split; try done. by rewrite Ec.
Qed.

(** ** The pool *)

Definition parts (p : SPool.StratPool) : TP.ThinPool * Backstore := (SPool.thin_pool p, SPool.backstore p).
Definition pool_inv (p : SPool.StratPool) : Prop := pool_ok (parts p) ∧ fs_ok (SPool.thin_pool p).

Lemma keep_pool_backstore {A} p (m : obj Backstore A) :
  keep (bs_like (SPool.backstore p)) (SPool.backstore p) m → keep pool_inv p (SPool.on_backstore m).
Proof.
  intros Hm. apply keep_focus. intros [[Hb Hf] Hfs] s. specialize (Hm (bs_like_refl _) s).
  destruct (m (SPool.backstore p, s)) as [r [b s']]. split; [split|done]; cbn in *.
  - by eapply bs_like_ok.
  - by rewrite (l_next _ _ Hm).
Qed.

Lemma keep_pool_thin {A} p (m : obj TP.ThinPool A) :
  keep (segs_are (TP.segments (SPool.thin_pool p))) (SPool.thin_pool p) m → keep fs_ok (SPool.thin_pool p) m →
  keep pool_inv p (SPool.on_thin m).
Proof.
  intros Hs Hf. apply keep_focus. intros [[Hb Hfl] Hfs] s. specialize (Hs eq_refl s). specialize (Hf Hfs s).
  destruct (m (SPool.thin_pool p, s)) as [r [t s']]. split; [|done]. split; [done|]. cbn. by rewrite Hs.
Qed.

(** the thin pool's check, seen from its filesystems *)
Definition first_ok (h : TP.ThinPool * Backstore) : Prop := fs_ok h.1.

Lemma keep_first_self {A} h (m : obj TP.ThinPool A) : keep fs_ok h.1 m → keep first_ok h (TP.on_self m).
Proof. intros Hm. apply keep_focus. intros Hok s. specialize (Hm Hok s). by destruct (m (h.1, s)) as [r [t s']]. Qed.
Lemma keep_first_backstore {A} h (m : obj Backstore A) : keep first_ok h (TP.on_backstore m).
Proof. apply keep_focus. intros Hok s. by destruct (m (h.2, s)) as [r [b s']]. Qed.

Lemma keep_first_extend h pool req m data : keep first_ok h (TP.extend_thin_sub_device pool req m data).
Proof.
  unfold TP.extend_thin_sub_device. keeping; try apply keep_first_backstore; apply keep_first_self.
  - apply keep_fs_pool.
  - apply keep_fs_pool.
  - apply keep_modify. by intros [? ? ? ?].
Qed.

Lemma keep_first_check h pool : keep first_ok h (TP.check pool).
Proof.
  unfold TP.check. keeping. generalize (TP.check_fuel b) as fuel. intros fuel.
  generalize false as saved. generalize (t, b) as h'. induction fuel as [|fuel IH]; intros h' saved; cbn [TP.check_loop]; keeping.
  unfold TP.do_check. keeping.
  - unfold TP.check_extend, TP.or_zero. keeping; try apply keep_first_extend; apply keep_first_self.
    + apply keep_fs_pool.
    + unfold TP.resume. keeping; [apply keep_fs_mdv|apply keep_fs_pool].
  - apply keep_first_self, keep_modify. by intros [? ? ? ?].
  - apply keep_first_self, keep_fs_check_filesystems.
Qed.

Lemma keep_pool_check p pool : keep pool_inv p (SPool.on_both (TP.check pool)).
Proof.
  apply keep_focus. intros [Hp Hf] s. pose proof (keep_check pool (parts p) Hp s) as H1'.
  pose proof (keep_first_check (parts p) pool Hf s) as H2'. unfold parts in *.
  destruct (TP.check pool _) as [r [[t b] s']]. by split.
Qed.

Lemma keep_write choose name p : keep pool_inv p (SPool.write_metadata choose name).
Proof. unfold SPool.write_metadata. keeping. apply keep_pool_backstore, keep_data_mgr, keep_mgr_save. Qed.

(** *** Filesystem operations do not touch the thin pool's segments *)

Hint Resolve keep_on_pool keep_on_mdv : keep.
Lemma keep_segs_fs x t :
  (∀ pool_name pool name size, keep (segs_are x) t (TP.create_filesystem pool_name pool name size)) ∧
  (∀ pool_name pool origin name, keep (segs_are x) t (TP.snapshot_filesystem pool_name pool origin name)) ∧
  (∀ pool_name u, keep (segs_are x) t (TP.destroy_filesystem pool_name u)) ∧
  (∀ pool_name u name, keep (segs_are x) t (TP.rename_filesystem pool_name u name)).
Proof.
  assert (∀ t, keep (segs_are x) t TP.next_thin_id) as Hid.
  { intros t'. unfold TP.next_thin_id. keeping. }
  assert (∀ t name u f, keep (segs_are x) t (TP.insert_filesystem name u f)) as Hins.
  { intros t' name u f. unfold TP.insert_filesystem. keeping. }
  assert (∀ t pool_name u, keep (segs_are x) t (TP.announce pool_name u)) as Han.
  { intros t' pool_name u. unfold TP.announce. keeping. }
  split_and!; intros.
  - unfold TP.create_filesystem. keeping.
  - unfold TP.snapshot_filesystem. keeping.
  - unfold TP.destroy_filesystem. keeping.
  - unfold TP.rename_filesystem. keeping.
Qed.

(** *** Requests to a running pool *)

Inductive pool_cmd :=
| PEvent
| PBindClevis (pin : Str) (info : Value)
| PUnbindClevis
| PBindKeyring (kd : KeyDescription)
| PUnbindKeyring
| PRebindKeyring (kd : KeyDescription)
| PRebindClevis
| PCreateFs (specs : list (Str * option Z))
| PDestroyFs (uuids : list Z)
| PRenameFs (uuid : Z) (new_name : Str)
| PSnapshotFs (origin : Z) (name : Str)
| PUserInfo (uuid : Z) (info : option Str)
| PAddBlockdevs (paths : list Str) (tier : BlockDevTier)
| PInitCache (paths : list Str).

Definition forget {S A} (m : st S A) : st S unit := m ;;! iret tt.

Definition run_cmd (choose : nat → nat → list nat) (pool_uuid : Z) (pool_name : Str) (c : pool_cmd) : obj SPool.StratPool unit :=
  match c with
  | PEvent => SPool.event_on choose pool_uuid pool_name
  | PBindClevis pin info => forget (SPool.bind_clevis pin info)
  | PUnbindClevis => forget SPool.unbind_clevis
  | PBindKeyring kd => forget (SPool.bind_keyring kd)
  | PUnbindKeyring => forget SPool.unbind_keyring
  | PRebindKeyring kd => forget (SPool.rebind_keyring kd)
  | PRebindClevis => forget SPool.rebind_clevis
  | PCreateFs specs => forget (SPool.create_filesystems pool_name pool_uuid specs)
  | PDestroyFs uuids => forget (SPool.destroy_filesystems pool_name uuids)
  | PRenameFs uuid new_name => forget (SPool.rename_filesystem pool_name uuid new_name)
  | PSnapshotFs origin name => forget (SPool.snapshot_filesystem pool_name pool_uuid origin name)
  | PUserInfo uuid info => forget (SPool.set_blockdev_user_info choose pool_name uuid info)
  | PAddBlockdevs paths tier => forget (SPool.add_blockdevs choose pool_uuid pool_name paths tier)
  | PInitCache paths => forget (SPool.init_cache choose pool_uuid pool_name paths)
  end.

(** What a request relies on: the data devices it adds have new UUIDs, and the sectors of all data devices are still counted in
    64 bits; and [init_cache] does not fail between taking the linear device and making the cache, which leaves no cap device. *)
Definition admissible (choose : nat → nat → list nat) (pool_uuid : Z) (pool_name : Str) (c : pool_cmd) (p : SPool.StratPool) (s : Sys) : Prop :=
  match c with
  | PAddBlockdevs paths Data => room_for (bs_devs (BS.add_datadevs pool_uuid paths (SPool.backstore p, s)).2.1)
  | PInitCache paths => is_Some (BS.device (SPool.backstore (run_cmd choose pool_uuid pool_name c (p, s)).2.1))
  | _ => True
  end.

Lemma keep_create_each pool_name pool names p : keep pool_inv p (SPool.create_each pool_name pool names).
Proof.
  revert p. induction names as [|[name size] l IH]; intros p; cbn [SPool.create_each]; keeping.
  apply keep_pool_thin; [apply keep_segs_fs|apply keep_create].
Qed.
Lemma keep_destroy_each pool_name uuids p : keep pool_inv p (SPool.destroy_each pool_name uuids).
Proof.
  revert p. induction uuids as [|u l IH]; intros p; cbn [SPool.destroy_each]; keeping.
  apply keep_pool_thin; [apply keep_segs_fs|apply keep_destroy].
Qed.

(** A change of the backstore that grows it *)
Lemma grown_pool p b : pool_inv p → grown (SPool.backstore p) b → pool_inv (SPool.set_backstore b p).
Proof. intros [[Hb Hf] Hfs] [Hok Hn]. split; [split; [done|]|done]. cbn. by rewrite Hn. Qed.

Lemma keep_thin_same p {A} (m : obj TP.ThinPool A) (I : Backstore → Prop) :
  keep (λ q, I (SPool.backstore q)) p (SPool.on_thin m).
Proof. apply keep_focus. intros Hi s. by destruct (m _) as [r [t s']]. Qed.

Lemma keep_pool_power p : keep pool_inv p (SPool.on_thin TP.suspend) ∧ keep pool_inv p (SPool.on_thin TP.resume).
Proof.
  split; apply keep_pool_thin; try apply keep_suspend; try apply keep_resume.
  - unfold TP.suspend. keeping; first [apply keep_fs_pool|apply keep_fs_mdv].
  - unfold TP.resume. keeping; first [apply keep_fs_pool|apply keep_fs_mdv].
Qed.

Lemma keep_set_device p d : keep pool_inv p (SPool.on_thin (TP.set_device d)).
Proof.
  apply keep_pool_thin; unfold TP.set_device; keeping; first [apply keep_fs_pool|apply keep_fs_mdv|apply keep_modify; by intros [? ? ? ?]].
Qed.

Lemma keep_add_cachedevs pool paths p : keep pool_inv p (SPool.add_cachedevs pool paths).
Proof.
  unfold SPool.add_cachedevs. keeping; [|apply keep_set_device].
  apply keep_focus. intros Hp s. pose proof (add_cachedevs_ok pool paths (SPool.backstore p) (proj1 (proj1 Hp)) s) as Ha.
  destruct (BS.add_cachedevs _ _ _) as [r [b' s']]. by apply grown_pool.
Qed.

Lemma keep_add_cache choose pool pool_name paths p : keep pool_inv p (SPool.add_blockdevs choose pool pool_name paths Cache).
Proof. unfold SPool.add_blockdevs. keeping; first [apply keep_pool_power|apply keep_write|apply keep_add_cachedevs]. Qed.

Lemma add_data_ok choose pool pool_name paths p s : pool_inv p → room_for (bs_devs (BS.add_datadevs pool paths (SPool.backstore p, s)).2.1) →
  pool_inv (SPool.add_blockdevs choose pool pool_name paths Data (p, s)).2.1.
Proof.
  intros Hp Hr. unfold SPool.add_blockdevs, ibind at 1. cbn [ilift]. destruct (validate_paths paths) as [u|e|w]; [|done..].
  unfold ibind at 1. cbn [get_self fst]. destruct paths as [|path paths]; [done|]. unfold ibind at 1, SPool.on_backstore, focus.
  pose proof (add_datadevs_ok pool (path :: paths) (SPool.backstore p) (proj1 (proj1 Hp)) s) as Ha.
  destruct (BS.add_datadevs pool (path :: paths) (SPool.backstore p, s)) as [r [b s1]]. cbn in Hr. specialize (Ha Hr).
  apply (grown_pool p b Hp) in Ha. destruct r as [uuids|e|w]; [|exact Ha..]. cbn zeta.
  assert (Hk : keep pool_inv (SPool.set_backstore b p) (let! _ := SPool.on_both (TP.check pool) in
    SPool.write_metadata choose pool_name ;;! iret (mkSetCreate uuids))) by (keeping; [apply keep_pool_check|apply keep_write]).
  specialize (Hk Ha s1). by destruct (ibind _ _ _) as [r2 [p2 s2]].
Qed.

(** in order as far as there is a cap device *)
Definition capped_inv (p : SPool.StratPool) : Prop := is_Some (BS.device (SPool.backstore p)) → pool_inv p.

Lemma keep_capped_thin {A} p (m : obj TP.ThinPool A) : keep pool_inv p (SPool.on_thin m) → keep capped_inv p (SPool.on_thin m).
Proof.
  intros Hm Hp x. unfold SPool.on_thin, focus in *. destruct (m (SPool.thin_pool p, x)) as [r [t x']] eqn:E.
  intros Hs. specialize (Hm (Hp Hs) x). unfold spec in Hm. by rewrite E in Hm.
Qed.

Lemma keep_capped_write choose name p : keep capped_inv p (SPool.write_metadata choose name).
Proof.
  unfold SPool.write_metadata. apply keep_self, keep_focus. intros Hp x.
  assert (Hk : keep (bs_like (SPool.backstore p)) (SPool.backstore p) (BS.save_state choose (pool_to_string (SPool.record p name))))
    by apply keep_data_mgr, keep_mgr_save.
  specialize (Hk (bs_like_refl _) x). destruct (BS.save_state _ _ _) as [r [b x']]. intros Hs.
  assert (Hpi : pool_inv p).
  { apply Hp. unfold BS.device in *. cbn in Hs. destruct Hk as [_ _ [Ec El] _ _]. by rewrite <- Ec, <- El. }
  apply grown_pool; [done|]. split; [|apply (l_next _ _ Hk)]. eapply bs_like_ok; [exact Hk|]. apply Hpi.
Qed.

Lemma init_cache_capped choose pool pool_name paths p : pool_inv p → spec p (SPool.init_cache choose pool pool_name paths) (λ _, capped_inv).
Proof.
  intros Hp. assert (Hc : capped_inv p) by (by intros _). unfold SPool.init_cache.
  assert (Hl : ∀ A (r : res A), spec p (ilift (S:=_) r) (λ _, capped_inv)) by (intros A r x; exact Hc).
  intros x. unfold ibind at 1. cbn [ilift]. destruct (validate_paths paths) as [u|e|w]; [|exact Hc..].
  unfold ibind at 1. cbn [get_self fst]. unfold ibind at 1. cbn [ilift]. destruct (SPool.is_encrypted p) as [[]|e|w]; [exact Hc| |exact Hc..].
  destruct (negb (SPool.has_cache p)); [|apply Hl]. destruct paths as [|path paths]; [exact Hc|]. revert x.
  assert (Hweak : ∀ q, pool_inv q → capped_inv q) by (by intros q ? ?).
  eapply spec_bind; [exact (proj1 (keep_pool_power p) Hp)| |intros e q; apply Hweak|intros w q; apply Hweak]. intros a q Hq. cbv beta in Hq.
  eapply (spec_bind _ _ _ (λ _, capped_inv)); [| |done..].
  - intros x. unfold itry, SPool.on_backstore, focus. pose proof (init_cache_grown pool (path :: paths) (SPool.backstore q) (proj1 (proj1 Hq)) x) as Ha.
    destruct (BS.init_cache _ _ _) as [r [b x']]. assert (capped_inv (SPool.set_backstore b q)) as Hb by (intros Hs; by apply grown_pool, Ha).
    by destruct r.
  - intros r q' Hq'. enough (keep capped_inv q' (SPool.on_thin TP.resume ;;! (let! devices := question r in
      SPool.write_metadata choose pool_name ;;! iret (mkSetCreate devices)))) as Hk by exact (Hk Hq').
    keeping; [apply keep_capped_thin, keep_pool_power|apply keep_capped_write].
Qed.

Definition adds_device (c : pool_cmd) : bool := match c with PAddBlockdevs _ _ | PInitCache _ => true | _ => false end.

Lemma keep_cmd choose pool pool_name c p : adds_device c = false → keep pool_inv p (run_cmd choose pool pool_name c).
Proof.
  intros Hadd.
  pose proof (keep_mgr_bindings (geo (bs_devs (SPool.backstore p))) (dt_block_mgr (bs_data_tier (SPool.backstore p))))
    as (Hb1 & Hb2 & Hb3 & Hb4 & Hb5 & Hb6).
  destruct c; try done; unfold run_cmd, forget.
  - unfold SPool.event_on. keeping; [apply keep_pool_check|apply keep_write].
  - unfold SPool.bind_clevis. keeping. by apply keep_pool_backstore, keep_data_mgr.
  - unfold SPool.unbind_clevis. keeping. by apply keep_pool_backstore, keep_data_mgr.
  - unfold SPool.bind_keyring. keeping. by apply keep_pool_backstore, keep_data_mgr.
  - unfold SPool.unbind_keyring. keeping. by apply keep_pool_backstore, keep_data_mgr.
  - unfold SPool.rebind_keyring. keeping. by apply keep_pool_backstore, keep_data_mgr.
  - unfold SPool.rebind_clevis. keeping. by apply keep_pool_backstore, keep_data_mgr.
  - unfold SPool.create_filesystems. keeping. apply keep_create_each.
  - unfold SPool.destroy_filesystems. keeping. apply keep_destroy_each.
  - unfold SPool.rename_filesystem. keeping. apply keep_pool_thin; [apply keep_segs_fs|apply keep_rename].
  - unfold SPool.snapshot_filesystem. keeping. apply keep_pool_thin; [apply keep_segs_fs|apply keep_snapshot].
  - unfold SPool.set_blockdev_user_info. apply keep_bind; [|keeping]. apply keep_self.
    pose proof (user_info_like (SPool.backstore p) uuid info) as Hl.
    destruct (BS.set_blockdev_user_info _ _ _) as [r b]. cbn in Hl. apply keep_bind.
    + apply keep_modify. intros [[Hb Hf] Hfs]. split; [split|done]; cbn; [by eapply bs_like_ok|by rewrite (l_next _ _ Hl)].
    + intros _ p'. keeping. apply keep_write.
Qed.

(** A request keeps the invariant; its conditions matter to those that add devices. *)
Lemma run_cmd_ok choose pool pool_name c p s : pool_inv p → admissible choose pool pool_name c p s → pool_inv (run_cmd choose pool pool_name c (p, s)).2.1.
Proof.
  assert (Hf : ∀ A (m : obj SPool.StratPool A), pool_inv (m (p, s)).2.1 → pool_inv (forget m (p, s)).2.1).
  { intros A m. unfold forget, ibind. by destruct (m (p, s)) as [[a|e|w] [p' s']]. }
  intros Hp Ha. destruct (adds_device c) eqn:Ec.
  - destruct c as [| | | | | | | | | | | |paths []|paths]; try done.
    + by apply Hf, add_data_ok.
    + apply Hf. pose proof (keep_add_cache choose pool pool_name paths p Hp s) as Hk. by destruct (SPool.add_blockdevs _ _ _ _ _ _) as [r [p' s']].
    + pose proof (init_cache_capped choose pool pool_name paths p Hp s) as Hk. cbn [run_cmd admissible] in *. apply Hf.
      unfold forget, ibind in Ha. destruct (SPool.init_cache _ _ _ _ _) as [[a|e|w] [p' s']]; exact (Hk Ha).
  - pose proof (keep_cmd choose pool pool_name c p Ec Hp s) as Hk. by destruct (run_cmd _ _ _ _ _) as [r [p' s']].
Qed.

(** the pool after a sequence of requests; a panic ends the daemon *)
Fixpoint run_cmds (pool_uuid : Z) (pool_name : Str) (cmds : list ((nat → nat → list nat) * pool_cmd))
    (p : SPool.StratPool) (s : Sys) : SPool.StratPool * Sys :=
  match cmds with
  | [] => (p, s)
  | (choose, c) :: rest =>
      match run_cmd choose pool_uuid pool_name c (p, s) with
      | (Panic _, (p, s)) => (p, s)
      | (_, (p, s)) => run_cmds pool_uuid pool_name rest p s
      end
  end.

(** every request finds what it relies on *)
Fixpoint all_admissible (pool_uuid : Z) (pool_name : Str) (cmds : list ((nat → nat → list nat) * pool_cmd))
    (p : SPool.StratPool) (s : Sys) : Prop :=
  match cmds with
  | [] => True
  | (choose, c) :: rest =>
      admissible choose pool_uuid pool_name c p s ∧
      match run_cmd choose pool_uuid pool_name c (p, s) with
      | (Panic _, _) => True
      | (_, (p, s)) => all_admissible pool_uuid pool_name rest p s
      end
  end.

Lemma run_cmds_ok pool pool_name cmds p s : pool_inv p → all_admissible pool pool_name cmds p s → pool_inv (run_cmds pool pool_name cmds p s).1.
Proof.
  revert p s. induction cmds as [|[choose c] l IH]; intros p s Hp; [done|]. cbn [run_cmds all_admissible]. intros [Ha Hrest].
  pose proof (run_cmd_ok choose pool pool_name c p s Hp Ha) as Hc.
  destruct (run_cmd choose pool pool_name c (p, s)) as [[u|e|w] [p' s']]; [by apply IH..|done].
Qed.
End geometry.

(** ** A cache leaves the thin pool on the old device

    [StratPool::init_cache] puts the cache device in the place of the linear device, but does not
    tell the thin pool: the check that follows finds another device number and panics. *)
Section stale.
Context `{Crc32c} `{Chrono} `{Cryptsetup} `{!Devicemapper} `{!DmLaws} `{UuidDisplay} `{ClevisCodec} `{DmNames} `{FsSerde} `{PoolSerde}.

Definition thin_on (d : Z) (p : SPool.StratPool) : Prop := TP.backstore_device (SPool.thin_pool p) = d.

Lemma keep_thin_on {A} d p (m : obj TP.ThinPool A) :
  keep (λ t, TP.backstore_device t = d) (SPool.thin_pool p) m → keep (thin_on d) p (SPool.on_thin m).
Proof. intros Hm. apply keep_focus. intros Hd s. specialize (Hm Hd s). by destruct (m _) as [r [t s']]. Qed.

Lemma keep_device_resume d t : keep (λ t, TP.backstore_device t = d) t TP.resume ∧ keep (λ t, TP.backstore_device t = d) t TP.suspend.
Proof.
  assert (∀ t A (m : mutM ThinPoolDev A), keep (λ t, TP.backstore_device t = d) t (TP.on_pool m)) as Hp.
  { intros t' A m. apply keep_focus. intros Hd s. by destruct (dm_mut m _) as [r [x s']]. }
  assert (∀ t A (m : obj MetadataVol A), keep (λ t, TP.backstore_device t = d) t (TP.on_mdv m)) as Hm.
  { intros t' A m. apply keep_focus. intros Hd s. by destruct (m _) as [r [x s']]. }
  split; [unfold TP.resume|unfold TP.suspend]; keeping.
Qed.

Lemma init_cache_stale choose pool name paths p s sc p' s' :
  SPool.has_cache p = false → paths ≠ [] → SPool.init_cache choose pool name paths (p, s) = (Ok sc, (p', s')) →
  TP.backstore_device (SPool.thin_pool p') = TP.backstore_device (SPool.thin_pool p).
Proof.
  intros Hc Hne E. enough (keep (thin_on (TP.backstore_device (SPool.thin_pool p))) p (SPool.init_cache choose pool name paths)) as Hk.
  { specialize (Hk eq_refl s). by rewrite E in Hk. }
  assert (∀ q A (m : obj Backstore A), keep (thin_on (TP.backstore_device (SPool.thin_pool p))) q (SPool.on_backstore m)) as Hb.
  { intros q A m. apply keep_focus. intros Hd s1. by destruct (m _) as [r [b s2]]. }
  unfold SPool.init_cache, SPool.write_metadata. keeping; apply keep_thin_on, keep_device_resume.
Qed.

Lemma stale_device_panics pool t b s device :
  BS.device b = Some device → device ≠ TP.backstore_device t → ∃ w, (TP.do_check pool ((t, b), s)).1 = Panic w.
Proof.
  intros Hd Hne. unfold TP.do_check, ibind at 1. cbn [get_self fst]. rewrite Hd. cbn [expect]. unfold ibind at 1. cbn [ilift].
  destruct (Z.eqb_spec device (TP.backstore_device t)); [done|]. cbn. by eexists.
Qed.
End stale.

(** ** Theorems *)

(** C27: The devices of a thin pool never overlap.  [ThinPool::new] gives the four devices segments
    that follow each other from the start of the cap device; [extend_thin_sub_device] takes the next
    sectors of the backstore, loses none of them when it succeeds, and otherwise leaves the devices
    as they were; and after any run of [ThinPool::check], whatever devicemapper and the system
    answered, no two segments of the devices share a sector and all lie below the backstore's index. *)
Theorem flex_devices_invariant `{Crc32c} `{Chrono} `{Cryptsetup} `{!Devicemapper} `{!DmLaws} `{UuidDisplay}
    `{ClevisCodec} `{DmNames} `{FsSerde} pool b tp s :
  bs_ok b →
  (bs_next b = 0 →
   let '(r, (b', _)) := TP.new pool ThinPoolSizeParams_default DATA_BLOCK_SIZE (b, s) in
   ∀ tp', r = Ok tp' → pool_ok (tp', b') ∧ lost (tp', b') = 0) ∧
  (flex_ok (TP.segments tp) (bs_next b) →
   (∀ req m data, u64 req → 0 < m →
      let '(r, (h', _)) := TP.extend_thin_sub_device pool req m data ((tp, b), s) in extend_post (tp, b) r h') ∧
   pool_ok (TP.check pool ((tp, b), s)).2.1).
Proof.
  intros Hb. split.
  - intros Hn. pose proof (new_run pool ThinPoolSizeParams_default DATA_BLOCK_SIZE b Hb Hn) as Hnew.
    specialize (Hnew ltac:(apply (bool_decide_unpack _); by vm_compute) ltac:(apply (bool_decide_unpack _); by vm_compute)
                  ltac:(apply (bool_decide_unpack _); by vm_compute) s).
    destruct (TP.new _ _ _ _) as [r [b' s']]. apply Hnew.
  - intros Hf. split.
    + intros req m data Hr Hm. by apply (extend_run pool req m data (tp, b) (conj Hb Hf)).
    + pose proof (keep_check pool (tp, b) (conj Hb Hf) s) as Hc. by destruct (TP.check _ _) as [r [h' s']].
Qed.

(** C30: The metadata a pool writes passes the check made when the pool is set up again, exactly when
    no sector given out by the backstore was lost; the check never panics on it. *)
Theorem check_metadata_spec `{Crc32c} `{Chrono} `{Cryptsetup} `{!Devicemapper} `{!DmLaws} `{UuidDisplay}
    `{ClevisCodec} `{DmNames} `{FsSerde} (p : SPool.StratPool) name :
  pool_ok (parts p) →
  (check_metadata (SPool.record p name) = Ok tt ↔ lost (parts p) = 0) ∧
  ∀ w, check_metadata (SPool.record p name) ≠ Panic w.
Proof. intros Hok. by destruct (check_metadata_run p name Hok) as (r & -> & Hp & Hr). Qed.

(** C4: After any sequence of requests to a pool and devicemapper events, each of which may fail at
    any point, the pool is in order: the invariant of its backstore holds (no sector of a data device is given out twice), the thin pool's devices do
    not overlap, the names and UUIDs of the filesystems are unique, and no two filesystems share a
    thin device identifier.  The requests are those of [Pool] that change the pool, [add_blockdevs] and [init_cache] included, under
    these conditions: data devices that join the pool get UUIDs no other device of the pool has, and all data devices together
    have fewer than 2^64 sectors; and no [init_cache] leaves the pool without a cap device, as one does that fails after it took
    the linear device.  Cache devices have no such conditions, and their own space is not part of the invariant. *)
Theorem pool_requests_invariant `{Crc32c} `{Chrono} `{Cryptsetup} `{!Devicemapper} `{!DmLaws} `{UuidDisplay}
    `{ClevisCodec} `{DmNames} `{FsSerde} `{PoolSerde} pool_uuid pool_name cmds p s :
  pool_inv p → all_admissible pool_uuid pool_name cmds p s → pool_inv (run_cmds pool_uuid pool_name cmds p s).1.
Proof. apply run_cmds_ok. Qed.

(** ** Examples *)

(** an encoding of the metadata for examples *)
Section encoding.
#[local] Instance base_dev_countable : Countable BaseDevSave.
Proof. apply (inj_countable' (λ d, (parent d, bds_start d, bds_length d)) (λ '(a, b, c), mkBaseDevSave a b c)). by intros []. Defined.
#[local] Instance base_block_countable : Countable BaseBlockDevSave.
Proof. apply (inj_countable' (λ d, (bbs_uuid d, bbs_user_info d, bbs_hardware_info d)) (λ '(a, b, c), mkBaseBlockDevSave a b c)). by intros []. Defined.

Definition save_tuple (p : PoolSave) :=
  let tier (b : BlockDevSave) := (allocs b, devs b) in
  let f := flex_devs p in
  (ps_name p, tier (dts_blockdev (data_tier (ps_backstore p))), cap_allocs (cap (ps_backstore p)),
   (λ c, tier (cts_blockdev c)) <$> cache_tier (ps_backstore p),
   (meta_dev f, thin_meta_dev f, thin_data_dev f, thin_meta_dev_spare f), data_block_size (thinpool_dev p)).

Definition example_pool_serde : PoolSerde.
Proof.
  refine {| pool_to_string p := [Z.pos (encode (save_tuple p))];
            pool_from_slice d :=
              match d with
              | [Z.pos n] =>
                  '(nm, (al, dv), cp, ct, (a, b, c, e), z) ← decode n;
                  Some (mkPoolSave nm (mkBackstoreSave (mkDataTierSave (mkBlockDevSave al dv)) (mkCapSave cp)
                                         ((λ '(al, dv), mkCacheTierSave (mkBlockDevSave al dv)) <$> ct))
                          (mkFlexDevsSave a b c e) (mkThinPoolDevSave z))
              | _ => None
              end |}.
  intros [nm [[[]] [] [[[]]|]] [] []]; unfold save_tuple; rewrite decode_encode; done.
Defined.
End encoding.

Section examples.
#[local] Existing Instance hex_instance.
#[local] Existing Instance simple_display.
#[local] Existing Instance script_crypt.
#[local] Existing Instance script_dm.
#[local] Existing Instance script_dm_laws.
#[local] Existing Instance example_codec.
#[local] Existing Instance dm_lengths.
#[local] Existing Instance any_time.
#[local] Existing Instance crc32c_instance.
#[local] Existing Instance ex_serde.
#[local] Existing Instance example_pool_serde.

Lemma ex_tp_flex : flex_ok (TP.segments ex_tp) (bs_next ex_bs_new).
Proof.
  assert (TP.segments ex_tp = mkSegments [(0, 32768)] [(32768, 32768)] [(65536, 1572864)] [(1638400, 32768)]) as ->
    by (vm_compute; reflexivity).
  replace (bs_next ex_bs_new) with (0 + Zsum [32768; 32768; 1572864; 32768]) by (vm_compute; reflexivity).
  apply (consecutive_flex 0 32768 32768 1572864 32768); [lia|]. apply (bool_decide_unpack _). vm_compute. exact I.
Qed.

Lemma flex_devices_invariant_witness :
  (let '(r, (b', _)) := TP.new 7 ThinPoolSizeParams_default DATA_BLOCK_SIZE (ex_bs, tp_sys []) in
   ∀ tp', r = Ok tp' → pool_ok (tp', b') ∧ lost (tp', b') = 0) ∧
  pool_ok (TP.check 7 ((ex_tp, ex_bs_new), tp_sys [])).2.1.
Proof.
  split.
  - destruct (flex_devices_invariant 7 ex_bs ex_tp (tp_sys []) ex_bs_ok) as [Hnew _]. exact (Hnew eq_refl).
  - destruct (flex_devices_invariant 7 ex_bs_new ex_tp (tp_sys []) ex_bs_new_ok) as [_ Hrun].
    exact (proj2 (Hrun ex_tp_flex)).
Defined.

Definition ex_spool : SPool.StratPool := SPool.mkStratPool ex_bs_new NONE ex_tp.

Lemma ex_spool_ok : pool_ok (parts ex_spool).
Proof. split; [exact ex_bs_new_ok|exact ex_tp_flex]. Qed.

Lemma check_metadata_spec_witness :
  check_metadata (SPool.record ex_spool (str "pool")) = Ok tt.
Proof.
  destruct (check_metadata_spec ex_spool (str "pool") ex_spool_ok) as [[_ Hc] _]. apply Hc. vm_compute. reflexivity.
Defined.

Lemma ex_spool_inv : pool_inv ex_spool.
Proof.
  split; [exact ex_spool_ok|].
  assert (items (TP.filesystems ex_tp) = ∅) as Ei by (apply (bool_decide_eq_true_1 _); vm_compute; reflexivity).
  assert (name_to_uuid (TP.filesystems ex_tp) = ∅) as En by (apply (bool_decide_eq_true_1 _); vm_compute; reflexivity).
  assert (TP.id_gen ex_tp = 0) as Eg by (vm_compute; reflexivity).
  change (SPool.thin_pool ex_spool) with ex_tp. split; unfold has_fs, table_ok, entry; rewrite ?Ei, ?En, ?Eg; [|lia|done..].
  intros n u. rewrite !lookup_empty. split; [done|by intros []].
Qed.

(** two filesystems and a snapshot are made and a data device is added; some requests in between are refused; the cache is made last *)
Definition ex_requests : list ((nat → nat → list nat) * pool_cmd) :=
  (first_ones,.) <$>
  [PCreateFs [(str "a", None); (str "b", Some 4096)]; PCreateFs [(str "a/b", None)]; PUnbindClevis;
   PSnapshotFs 2 (str "c"); PRenameFs 2 (str "b"); PAddBlockdevs [str "/dev/vdx"] Data; PAddBlockdevs [str "/dev/vdc"] Data;
   PAddBlockdevs [str "/dev/vdd"] Cache; PInitCache [str "/dev/vdd"]; PAddBlockdevs [str "/dev/vdd"] Cache].
Definition ex_world : Sys :=
  let add path s := set_files s (<[path := blank_device]> (s_files s)) in
  add (str "/dev/vdc") (add (str "/dev/vdd") (add (LinearDev_devnode (mkLinear (name_text (DBackstore 1 MetaSub)) [])) ex_new.2.2)).
Definition ex_after := run_cmds 1 (str "pool") ex_requests ex_spool ex_world.
Definition names_and_ids (p : SPool.StratPool) : list (Str * Z * Z) :=
  (λ '(n, u, f), (n, u, fid f)) <$> Tbl.iter (TP.filesystems (SPool.thin_pool p)).
Definition tiers (p : SPool.StratPool) : list (Z * BlockDevTier) := (λ '(u, t, _), (u, t)) <$> SPool.blockdevs p.

#[local] Instance admissible_dec choose pool name c p s : Decision (admissible choose pool name c p s).
Proof. destruct c as [| | | | | | | | | | | |paths []|paths]; apply _. Defined.
#[local] Instance all_admissible_dec pool name cmds p s : Decision (all_admissible pool name cmds p s).
Proof.
  revert p s. induction cmds as [|[choose c] l IH]; intros p s; cbn [all_admissible]; [apply _|].
  apply and_dec; [apply _|]. destruct (run_cmd choose pool name c (p, s)) as [[u|e|w] [p' s']]; apply _.
Defined.

Lemma pool_requests_invariant_witness :
  names_and_ids ex_after.1 = [(str "c", 4, 2); (str "a", 2, 1); (str "b", 0, 0)] ∧
  tiers ex_after.1 = [(10, Data); (11, Data); (6, Data); (9, Cache)] ∧
  pool_inv (run_cmds 1 (str "pool") ex_requests ex_spool ex_world).1.
Proof.
  split; [vm_compute; reflexivity|]. split; [vm_compute; reflexivity|].
  apply (pool_requests_invariant 1 (str "pool") ex_requests ex_spool ex_world ex_spool_inv).
  apply (bool_decide_unpack _). vm_compute. exact I.
Defined.

(** The last condition is needed: when the devicemapper device for the cache's metadata cannot be wiped, the request fails and the pool has
    no cap device, although it has given out sectors of it. *)
Lemma init_cache_loses_cap :
  let '(r, (p, _)) := run_cmd first_ones 1 (str "pool") (PInitCache [str "/dev/vdd"])
    (ex_spool, set_files ex_new.2.2 (<[str "/dev/vdd" := blank_device]> (s_files ex_new.2.2))) in
  r = Err (Io "open") ∧ BS.device (SPool.backstore p) = None ∧ bs_next (SPool.backstore p) = 1671168.
Proof. vm_compute. done. Qed.
End examples.
