(* ===== verification/DeviceSet.v ===== *)
(** * Sets of devices found for a pool

    Models [src/engine/strat_engine/liminal/device_info.rs] and the types of [identify.rs]: what is
    known about the devices of a pool that is not set up, and how udev events change it.  A
    [HashSet] of infos is a list without duplicates. *)
From stdpp Require Import base list gmap strings.
From Stdlib Require Import ZArith Lia.
From S2P Require Import Prelude Json StaticHeader Shared Setup.

(** ** [identify.rs]: the types *)
Record LuksInfo : Type := mkLuksInfo { li_info : StratisInfo; li_encryption_info : EncryptionInfo }.
Inductive DeviceInfo := DLuks (info : LuksInfo) | DStratis (info : StratisInfo).

#[global] Instance StratisInfo_eq_dec : EqDecision StratisInfo.
Proof. solve_decision. Defined.
#[global] Instance LuksInfo_eq_dec : EqDecision LuksInfo.
Proof. solve_decision. Defined.
#[global] Instance DeviceInfo_eq_dec : EqDecision DeviceInfo.
Proof. solve_decision. Defined.
#[global] Instance LLuksInfo_eq_dec : EqDecision LLuksInfo.
Proof. solve_decision. Defined.
#[global] Instance LStratisInfo_eq_dec : EqDecision LStratisInfo.
Proof. solve_decision. Defined.

Definition info_identifiers (info : DeviceInfo) : StratisIdentifiers :=
  match info with DLuks info => si_identifiers (li_info info) | DStratis info => si_identifiers info end.
Definition info_encryption_info (info : DeviceInfo) : option EncryptionInfo :=
  match info with DLuks info => Some (li_encryption_info info) | DStratis _ => None end.

(** ** [LInfo] *)
Inductive LInfo := LStratis (info : LStratisInfo) | LLuks (info : LLuksInfo).
#[global] Instance LInfo_eq_dec : EqDecision LInfo.
Proof. solve_decision. Defined.

Module LI.
(** the [From] conversions *)
Definition luks_from (info : LuksInfo) : LLuksInfo := mkLLuksInfo (li_info info) (li_encryption_info info).
Definition stratis_from (info : StratisInfo) : LStratisInfo := mkLStratisInfo info None.
Definition from (info : DeviceInfo) : LInfo :=
  match info with DLuks info => LLuks (luks_from info) | DStratis info => LStratis (stratis_from info) end.

Definition stratis_identifiers (self : LInfo) : StratisIdentifiers :=
  match self with LLuks info => si_identifiers (luks_ids info) | LStratis info => si_identifiers (ids info) end.

Definition encryption_info (self : LInfo) : option EncryptionInfo :=
  match self with
  | LLuks info => Some (luks_encryption_info info)
  | LStratis info => luks_encryption_info <$> luks info
  end.
Definition is_encrypted (self : LInfo) : bool := is_some (encryption_info self).
Definition is_closed (self : LInfo) : bool := match self with LLuks _ => true | LStratis _ => false end.

(** what remains of the known information when a device is removed *)
Definition update_on_remove (info_1 : LInfo) (info_2 : DeviceInfo) : option LInfo :=
  match info_1, info_2 with
  | LLuks luks_info, DStratis _ => Some (LLuks luks_info)
  | LStratis strat_info, DLuks _ => Some (LStratis strat_info)
  | LStratis info_1, DStratis info_2 =>
      if bool_decide (device_number (ids info_1) ≠ device_number info_2) then Some (LStratis info_1)
      else LLuks <$> luks info_1
  | LLuks info_1, DLuks info_2 =>
      if bool_decide (device_number (luks_ids info_1) ≠ device_number (li_info info_2)) then Some (LLuks info_1)
      else None
  end.

Definition luks_luks_compatible (info_1 : LLuksInfo) (info_2 : LuksInfo) : res bool :=
  rassert (bool_decide (si_identifiers (luks_ids info_1) = si_identifiers (li_info info_2))) "assert_eq!(info_1.ids.identifiers, info_2.info.identifiers)"
    (Ok (bool_decide (device_number (luks_ids info_1) = device_number (li_info info_2)) &&
         bool_decide (luks_encryption_info info_1 = li_encryption_info info_2))).
Definition stratis_stratis_compatible (info_1 : LStratisInfo) (info_2 : StratisInfo) : res bool :=
  rassert (bool_decide (si_identifiers (ids info_1) = si_identifiers info_2)) "assert_eq!(info_1.ids.identifiers, info_2.identifiers)"
    (Ok (bool_decide (device_number (ids info_1) = device_number info_2))).

(** [None] is [Err(())] *)
Definition update (info_1 : LInfo) (info_2 : DeviceInfo) : res (option LInfo) :=
  match info_1, info_2 with
  | LLuks luks_info, DStratis strat_info => Ok (Some (LStratis (mkLStratisInfo strat_info (Some luks_info))))
  | LStratis strat_info, DLuks luks_info =>
      let? ok := match luks strat_info with
                 | Some luks => luks_luks_compatible luks luks_info
                 | None => Ok true
                 end in
      Ok (if (ok : bool) then Some (LStratis (mkLStratisInfo (ids strat_info) (Some (luks_from luks_info)))) else None)
  | LLuks luks_info_1, DLuks luks_info_2 =>
      let? ok := luks_luks_compatible luks_info_1 luks_info_2 in
      Ok (if (ok : bool) then Some (LLuks (luks_from luks_info_2)) else None)
  | LStratis strat_info_1, DStratis strat_info_2 =>
      let? ok := stratis_stratis_compatible strat_info_1 strat_info_2 in
      Ok (if (ok : bool) then Some (LStratis (mkLStratisInfo strat_info_2 (luks strat_info_1))) else None)
  end.
End LI.

(** ** [DeviceBag] *)
Definition DeviceBag : Type := list LInfo.

Module Bag.
Definition insert (info : LInfo) (self : DeviceBag) : DeviceBag :=
  if bool_decide (info ∈ self) then self else info :: self.
Definition remove (info : LInfo) (self : DeviceBag) : DeviceBag := filter (λ x, x ≠ info) self.
Definition extend (self : DeviceBag) (l : list LInfo) : DeviceBag := foldr insert self l.
End Bag.

(** ** [DeviceSet] *)
Notation DeviceSet := (gmap Z LInfo).

Record LockedPoolDevice : Type := mkLockedDevice { ld_devnode : Str; ld_uuid : Z }.
Record LockedPoolInfo : Type := mkLockedInfo { lp_info : EncryptionInfo; lp_devices : list LockedPoolDevice }.

Module DSet.
Definition new : DeviceSet := ∅.
Definition iter (self : DeviceSet) : list (Z * LInfo) := map_to_list self.

Definition all_unencrypted (self : DeviceSet) : bool := forallb (λ '(_, info), negb (LI.is_encrypted info)) (iter self).
Definition some_closed (self : DeviceSet) : bool := existsb (λ '(_, info), LI.is_closed info) (iter self).

Fixpoint opened (l : list (Z * LInfo)) : res (list (Z * LStratisInfo)) :=
  match l with
  | [] => Ok []
  | (uuid, LStratis info) :: rest => let? r := opened rest in Ok ((uuid, info) :: r)
  | (_, LLuks _) :: _ => Panic "!self.some_closed() is satisfied"
  end.
Definition as_opened_set (self : DeviceSet) : res (option (list (Z * LStratisInfo))) :=
  if some_closed self then Ok None else let? l := opened (iter self) in Ok (Some l).

Definition into_bag (self : DeviceSet) : DeviceBag := Bag.extend [] (snd <$> iter self).

(** the first in the order of iteration *)
Definition encryption_info (self : DeviceSet) : option EncryptionInfo :=
  head (omap (λ '(_, info), LI.encryption_info info) (iter self)).

Definition locked_devnode (l : LInfo) : option Str :=
  match l with
  | LStratis strat_info => (λ l, devnode (luks_ids l)) <$> luks strat_info
  | LLuks luks_info => Some (devnode (luks_ids luks_info))
  end.
(** [None] as soon as one device has no LUKS2 device *)
Fixpoint locked_devices (l : list (Z * LInfo)) : option (list LockedPoolDevice) :=
  match l with
  | [] => Some []
  | (uuid, info) :: rest =>
      devnode ← locked_devnode info; r ← locked_devices rest; Some (mkLockedDevice devnode uuid :: r)
  end.
Definition locked_pool_info (self : DeviceSet) : option LockedPoolInfo :=
  info ← encryption_info self; d ← locked_devices (iter self); Some (mkLockedInfo info d).

Definition process_info_remove (self : DeviceSet) (info : DeviceInfo) : DeviceSet :=
  let u := device_uuid (info_identifiers info) in
  match self !! u ≫= λ removed, LI.update_on_remove removed info with
  | Some new_info => <[u := new_info]> (delete u self)
  | None => delete u self
  end.

(** [inl] is the bag of an error; the set is then empty *)
Definition process_info_add (self : DeviceSet) (info : DeviceInfo) : res (DeviceBag + DeviceSet) :=
  let u := device_uuid (info_identifiers info) in
  let clash :=
    match info_encryption_info info, encryption_info self with
    | Some e, Some ei => bool_decide (ei ≠ e)
    | _, _ => false
    end in
  if clash then Ok (inl (Bag.insert (LI.from info) (into_bag self)))
  else
    match self !! u with
    | None => Ok (inr (<[u := LI.from info]> self))
    | Some removed =>
        let self := delete u self in
        let? r := LI.update removed info in
        match r with
        | None => Ok (inl (Bag.insert (LI.from info) (Bag.insert removed (into_bag self))))
        | Some info => Ok (inr (<[u := info]> self))
        end
    end.
End DSet.

(** ** The invariant of a set of devices *)

Record set_ok (p : Z) (ds : DeviceSet) : Prop := {
  s_ids : ∀ u i, ds !! u = Some i → LI.stratis_identifiers i = mkIds p u;
  s_luks : ∀ u i l, ds !! u = Some (LStratis i) → luks i = Some l → si_identifiers (luks_ids l) = mkIds p u;
  s_enc : ∀ u v i j e e', ds !! u = Some i → ds !! v = Some j →
    LI.encryption_info i = Some e → LI.encryption_info j = Some e' → e = e' }.

Lemma set_ok_empty p : set_ok p DSet.new.
Proof. unfold DSet.new. split; intros *; by rewrite lookup_empty. Qed.

Lemma encryption_info_some ds e : DSet.encryption_info ds = Some e → ∃ u i, ds !! u = Some i ∧ LI.encryption_info i = Some e.
Proof.
  unfold DSet.encryption_info. intros He%head_Some_elem_of. apply list_elem_of_omap in He as ([u i] & Hin & Hi).
  apply elem_of_map_to_list in Hin. eauto.
Qed.
Lemma encryption_info_none ds u i e : DSet.encryption_info ds = None → ds !! u = Some i → LI.encryption_info i ≠ Some e.
Proof.
  unfold DSet.encryption_info. intros Hn Hi He.
  assert (e ∈ omap (λ '(_, info), LI.encryption_info info) (DSet.iter ds)) as Hin.
  { apply list_elem_of_omap. exists (u, i). split; [by apply elem_of_map_to_list|done]. }
  destruct (omap _ _); [by apply elem_of_nil in Hin|done].
Qed.

(** the test [process_info_add] makes first *)
Definition clashes (ds : DeviceSet) (info : DeviceInfo) : bool :=
  match info_encryption_info info, DSet.encryption_info ds with
  | Some e, Some ei => bool_decide (ei ≠ e)
  | _, _ => false
  end.
Definition info_uuid (info : DeviceInfo) : Z := device_uuid (info_identifiers info).

Lemma clashes_false p ds info : set_ok p ds →
  clashes ds info = false ↔
  ∀ u i e e', ds !! u = Some i → LI.encryption_info i = Some e → info_encryption_info info = Some e' → e = e'.
Proof.
  intros Hok. unfold clashes. destruct (info_encryption_info info) as [e|]; [|naive_solver].
  destruct (DSet.encryption_info ds) as [ei|] eqn:E.
  - apply encryption_info_some in E as (u0 & i0 & Hu0 & Hi0). rewrite bool_decide_eq_false. split.
    + intros Hee%dec_stable u i e1 e2 Hu Hi [= <-]. subst ei. by eapply (s_enc _ _ Hok u u0).
    + intros Hall Hne. apply Hne. by eapply Hall.
  - split; [|done]. intros _ u i e1 e2 Hu Hi. by destruct (encryption_info_none ds u i e1 E Hu).
Qed.

(** what is known about a device after an addition, when nothing contradicts it *)
Definition added (o : option LInfo) (info : DeviceInfo) : res (option LInfo) :=
  match o with None => Ok (Some (LI.from info)) | Some old => LI.update old info end.

Lemma process_info_add_eq ds info : clashes ds info = false →
  DSet.process_info_add ds info =
    let? r := added (ds !! info_uuid info) info in
    Ok (match r with
        | Some i => inr (<[info_uuid info := i]> ds)
        | None => inl (Bag.insert (LI.from info)
                        (match ds !! info_uuid info with
                         | Some removed => Bag.insert removed (DSet.into_bag (delete (info_uuid info) ds))
                         | None => []
                         end))
        end).
Proof.
  intros Hc. unfold DSet.process_info_add. fold (clashes ds info). rewrite Hc. fold (info_uuid info).
  unfold added. destruct (ds !! info_uuid info) as [old|]; [|done]. destruct (LI.update old info) as [[i|]|e|w]; cbn; try done.
  by rewrite insert_delete_eq.
Qed.

(** *** Bags *)

Lemma bag_insert_elem x y bag : x ∈ Bag.insert y bag ↔ x = y ∨ x ∈ bag.
Proof. unfold Bag.insert. case_bool_decide; set_solver. Qed.
Lemma bag_extend_elem x l bag : x ∈ Bag.extend bag l ↔ x ∈ l ∨ x ∈ bag.
Proof. unfold Bag.extend. induction l as [|y l IH]; cbn; [set_solver|]. rewrite bag_insert_elem, IH. set_solver. Qed.
Lemma into_bag_elem x ds : x ∈ DSet.into_bag ds ↔ ∃ u, ds !! u = Some x.
Proof.
  unfold DSet.into_bag. rewrite bag_extend_elem, list_elem_of_fmap. split.
  - intros [([u i] & -> & Hin)|?%elem_of_nil]; [|done]. apply elem_of_map_to_list in Hin. by exists u.
  - intros [u Hu]. left. exists (u, x). split; [done|]. by apply elem_of_map_to_list.
Qed.

(** *** Additions keep the invariant *)

(** what an addition may make of the information about a device *)
Lemma added_ok p ds info : set_ok p ds → info_identifiers info = mkIds p (info_uuid info) → clashes ds info = false →
  match added (ds !! info_uuid info) info with
  | Ok (Some i) =>
      LI.stratis_identifiers i = mkIds p (info_uuid info) ∧
      (∀ si l, i = LStratis si → luks si = Some l → si_identifiers (luks_ids l) = mkIds p (info_uuid info)) ∧
      ∀ e, LI.encryption_info i = Some e → info_encryption_info info = Some e ∨
             ∃ j, ds !! info_uuid info = Some j ∧ LI.encryption_info j = Some e
  | Ok None => is_Some (ds !! info_uuid info)
  | _ => False
  end.
Proof.
  intros Hok Hid Hc. pose proof (s_ids _ _ Hok (info_uuid info)) as Hi. pose proof (s_luks _ _ Hok (info_uuid info)) as Hl.
  unfold added. destruct (ds !! info_uuid info) as [old|]; [|destruct info; naive_solver].
  specialize (Hi old eq_refl).
  destruct old as [si|li], info as [lk|st]; cbn in *; unfold LI.luks_luks_compatible, LI.stratis_stratis_compatible.
  - destruct (luks si) as [l|] eqn:El; cbn.
    + rewrite (Hl si l eq_refl El), bool_decide_eq_true_2 by done. cbn.
      destruct (_ && _); cbn; [|done]. split_and!; [done|naive_solver|naive_solver].
    + split_and!; [done|naive_solver|naive_solver].
  - rewrite Hi, bool_decide_eq_true_2 by done. cbn. case_bool_decide; cbn; [|done].
    split_and!; [done|naive_solver|]. intros e He. right. by exists (LStratis si).
  - rewrite Hi, bool_decide_eq_true_2 by done. cbn. destruct (_ && _); cbn; [|done]. naive_solver.
  - split_and!; [done|naive_solver|]. intros e [= <-]. right. by exists (LLuks li).
Qed.

Lemma set_add_ok p ds info : set_ok p ds → info_identifiers info = mkIds p (info_uuid info) →
  match DSet.process_info_add ds info with
  | Ok (inr ds') => set_ok p ds' ∧ clashes ds info = false ∧
      ∃ i, added (ds !! info_uuid info) info = Ok (Some i) ∧ ds' = <[info_uuid info := i]> ds
  | Ok (inl bag) => ∀ x, x ∈ bag ↔ x = LI.from info ∨ ∃ u, ds !! u = Some x
  | _ => False
  end.
Proof.
  intros Hok Hid. destruct (clashes ds info) eqn:Hc.
  { unfold DSet.process_info_add. fold (clashes ds info). rewrite Hc. intros x. rewrite bag_insert_elem, into_bag_elem. done. }
  rewrite process_info_add_eq by done. pose proof (added_ok p ds info Hok Hid Hc) as Ha.
  destruct (added _ info) as [[i|]|e|w]; cbn; [|destruct Ha as [old Hold]; rewrite Hold|done..].
  - destruct Ha as (H1 & H2 & H3). split; [|by eauto]. split.
    + intros u j. rewrite lookup_insert_Some. intros [[<- <-]|[_ Hj]]; [done|by apply (s_ids _ _ Hok)].
    + intros u j l. rewrite lookup_insert_Some. intros [[<- E]|[_ Hj]]; [intros El; by eapply H2|by eapply (s_luks _ _ Hok)].
    + pose proof (proj1 (clashes_false p ds info Hok) Hc) as Hcl. pose proof (s_enc _ _ Hok) as He.
      intros u v j k e e'. rewrite !lookup_insert_Some.
      intros [[<- <-]|[_ Hj]] [[<- <-]|[_ Hk]] Ej Ek; [congruence| | |exact (He _ _ _ _ _ _ Hj Hk Ej Ek)].
      * destruct (H3 e Ej) as [Hx|(j' & Hj' & Ej')]; [symmetry; exact (Hcl _ _ _ _ Hk Ek Hx)|exact (He _ _ _ _ _ _ Hj' Hk Ej' Ek)].
      * destruct (H3 e' Ek) as [Hx|(j' & Hj' & Ej')]; [exact (Hcl _ _ _ _ Hj Ej Hx)|exact (He _ _ _ _ _ _ Hj Hj' Ej Ej')].
  - intros x. rewrite !bag_insert_elem, into_bag_elem. split.
    + intros [->|[->|[u Hu]]]; [by left|by eauto|]. apply lookup_delete_Some in Hu as [_ ?]. eauto.
    + intros [->|[u Hu]]; [by left|]. destruct (decide (u = info_uuid info)) as [->|Hne]; [right; left; congruence|].
      right. right. exists u. by rewrite lookup_delete_ne.
Qed.

(** *** Removals keep the invariant *)

Lemma set_ok_subset p ds ds' : set_ok p ds → (∀ u i, ds' !! u = Some i → ∃ j, ds !! u = Some j ∧
    LI.stratis_identifiers i = mkIds p u ∧
    (∀ si l, i = LStratis si → luks si = Some l → si_identifiers (luks_ids l) = mkIds p u) ∧
    ∀ e, LI.encryption_info i = Some e → LI.encryption_info j = Some e) → set_ok p ds'.
Proof.
  intros Hok Hsub. split.
  - intros u i (j & _ & ? & _)%Hsub. done.
  - intros u i l (j & _ & _ & Hl & _)%Hsub Hi. by eapply Hl.
  - intros u v i k e e' (j & Hj & _ & _ & Ej)%Hsub (j' & Hj' & _ & _ & Ej')%Hsub Hi Hk.
    exact (s_enc _ _ Hok _ _ _ _ _ _ Hj Hj' (Ej _ Hi) (Ej' _ Hk)).
Qed.

Lemma set_remove_ok p ds info : set_ok p ds →
  set_ok p (DSet.process_info_remove ds info) ∧
  ∀ u, u ≠ info_uuid info → DSet.process_info_remove ds info !! u = ds !! u.
Proof.
  intros Hok. unfold DSet.process_info_remove. fold (info_uuid info).
  assert (set_ok p (delete (info_uuid info) ds)) as Hdel.
  { eapply set_ok_subset; [exact Hok|]. intros u i [_ Hi]%lookup_delete_Some. exists i.
    split_and!; [done|by apply (s_ids _ _ Hok)| |done]. intros si l -> Hl. by eapply (s_luks _ _ Hok). }
  destruct (ds !! info_uuid info) as [old|] eqn:Eo; cbn; [destruct (LI.update_on_remove old info) as [i|] eqn:Er|];
    (split; [|by intros u Hu; rewrite ?lookup_insert_ne, lookup_delete_ne by done]); [|exact Hdel..].
  eapply set_ok_subset; [exact Hok|]. intros u j. rewrite lookup_insert_Some.
  intros [[<- <-]|[_ [_ Hj]%lookup_delete_Some]].
  - exists old. split; [done|]. pose proof (s_ids _ _ Hok _ _ Eo) as Hid. pose proof (s_luks _ _ Hok (info_uuid info)) as Hl.
    rewrite Eo in Hl. unfold LI.update_on_remove in Er.
    destruct old as [si|li], info; try (case_bool_decide); destruct_or?; simplify_eq/=; try naive_solver.
    destruct (luks si) as [l|] eqn:El; simplify_eq/=. specialize (Hl si l eq_refl El). naive_solver.
  - exists j. split_and!; [done|by apply (s_ids _ _ Hok)| |done]. intros si l -> Hl. by eapply (s_luks _ _ Hok).
Qed.

(** *** The order of discovery does not matter *)

Definition info_is_luks (info : DeviceInfo) : bool := match info with DLuks _ => true | DStratis _ => false end.
Definition info_key (info : DeviceInfo) : Z * bool := (info_uuid info, info_is_luks info).

Lemma added_own_enc o info i e : added o info = Ok (Some i) → info_encryption_info info = Some e → LI.encryption_info i = Some e.
Proof.
  destruct info as [lk|st]; [|done]. intros Ha [= <-]. destruct o as [[si|li]|]; cbn in Ha.
  - destruct (match luks si with Some l => _ | None => _ end) as [[]|?|?]; by simplify_eq/=.
  - destruct (LI.luks_luks_compatible li lk) as [[]|?|?]; by simplify_eq/=.
  - by simplify_eq/=.
Qed.

Lemma added_keeps_enc j info i e : added (Some j) info = Ok (Some i) → LI.encryption_info j = Some e →
  (∀ e', info_encryption_info info = Some e' → e = e') → LI.encryption_info i = Some e.
Proof.
  intros Ha Hj Hc. destruct info as [lk|st].
  - rewrite (Hc _ eq_refl). by eapply added_own_enc.
  - destruct j as [si|li]; cbn in Ha; [|by simplify_eq/=].
    destruct (LI.stratis_stratis_compatible si st) as [[]|?|?]; by simplify_eq/=.
Qed.

Lemma added_swap o x y i1 i2 : info_is_luks x ≠ info_is_luks y → added o x = Ok (Some i1) → added (Some i1) y = Ok (Some i2) →
  ∃ i1', added o y = Ok (Some i1') ∧ added (Some i1') x = Ok (Some i2).
Proof.
  intros Hk. destruct x as [lk|st], y as [lk'|st']; [done| | |done].
  - destruct o as [[si|li]|]; cbn.
    + assert (∀ x, LI.stratis_stratis_compatible (mkLStratisInfo (ids si) x) st' = LI.stratis_stratis_compatible si st') as Hs by done.
      destruct (luks si) as [l|]; [destruct (LI.luks_luks_compatible l lk) as [[]|?|?] eqn:Ec|]; cbn; intros; simplify_eq/=;
        rewrite Hs in *; destruct (LI.stratis_stratis_compatible si st') as [[]|?|?]; simplify_eq/=;
        (eexists; split; [done|]); cbn; [by rewrite Ec|done].
    + destruct (LI.luks_luks_compatible li lk) as [[]|?|?] eqn:Ec; cbn; intros; simplify_eq/=.
      eexists. split; [done|]. cbn. by rewrite Ec.
    + intros; simplify_eq/=. by eexists.
  - destruct o as [[si|li]|]; cbn.
    + destruct (LI.stratis_stratis_compatible si st) as [[]|?|?] eqn:Es; cbn; intros; simplify_eq/=.
      assert (∀ x, LI.stratis_stratis_compatible (mkLStratisInfo (ids si) x) st = Ok true) as Hs by done.
      destruct (luks si) as [l|]; [destruct (LI.luks_luks_compatible l lk') as [[]|?|?]|]; simplify_eq/=;
        (eexists; split; [done|]); cbn; by rewrite Hs.
    + intros; simplify_eq/=. destruct (LI.luks_luks_compatible li lk') as [[]|?|?] eqn:Ec; simplify_eq/=. by eexists.
    + intros; simplify_eq/=. by eexists.
Qed.

Lemma added_enc_from p ds info i : set_ok p ds → info_identifiers info = mkIds p (info_uuid info) → clashes ds info = false →
  added (ds !! info_uuid info) info = Ok (Some i) → ∀ e, LI.encryption_info i = Some e →
  info_encryption_info info = Some e ∨ ∃ j, ds !! info_uuid info = Some j ∧ LI.encryption_info j = Some e.
Proof. intros Hok Hid Hc Ha. pose proof (added_ok p ds info Hok Hid Hc) as Hx. rewrite Ha in Hx. apply Hx. Qed.

Lemma add_swap p ds x y d1 d2 : set_ok p ds →
  info_identifiers x = mkIds p (info_uuid x) → info_identifiers y = mkIds p (info_uuid y) → info_key x ≠ info_key y →
  DSet.process_info_add ds x = Ok (inr d1) → DSet.process_info_add d1 y = Ok (inr d2) →
  ∃ d1', DSet.process_info_add ds y = Ok (inr d1') ∧ DSet.process_info_add d1' x = Ok (inr d2).
Proof.
  intros Hok Hx Hy Hk E1 E2.
  pose proof (set_add_ok p ds x Hok Hx) as A1. rewrite E1 in A1. destruct A1 as (Hok1 & Hc1 & i1 & Ha1 & ->).
  pose proof (set_add_ok p _ y Hok1 Hy) as A2. rewrite E2 in A2. destruct A2 as (Hok2 & Hc2 & i2 & Ha2 & ->).
  pose proof (proj1 (clashes_false _ _ _ Hok) Hc1) as Hn1. pose proof (proj1 (clashes_false _ _ _ Hok1) Hc2) as Hn2.
  assert (clashes ds y = false) as Hc1'.
  { apply (clashes_false p ds y Hok). intros u i e e' Hu Hi Hey. destruct (decide (u = info_uuid x)) as [->|Hne].
    - eapply (Hn2 (info_uuid x) i1); [apply lookup_insert_eq| |done]. rewrite Hu in Ha1.
      eapply added_keeps_enc; [exact Ha1|exact Hi|]. intros e1 He1. by eapply (Hn1 (info_uuid x) i).
    - eapply (Hn2 u i); [by rewrite lookup_insert_ne|done|done]. }
  assert (∃ i1', added (ds !! info_uuid y) y = Ok (Some i1') ∧
            added (<[info_uuid y := i1']> ds !! info_uuid x) x = Ok (Some (if decide (info_uuid x = info_uuid y) then i2 else i1)) ∧
            (info_uuid x ≠ info_uuid y → i1' = i2)) as (i1' & Hb1 & Hb2 & Hsame).
  { destruct (decide (info_uuid x = info_uuid y)) as [Eu|Hne].
    - rewrite Eu in *. rewrite lookup_insert_eq in Ha2.
      destruct (added_swap (ds !! info_uuid y) x y i1 i2) as (i1' & ? & ?); [|done..|].
      { intros Hl. apply Hk. unfold info_key. by rewrite Eu, Hl. }
      exists i1'. rewrite lookup_insert_eq. by split_and!.
    - rewrite lookup_insert_ne in Ha2 by done. exists i2. by rewrite lookup_insert_ne. }
  exists (<[info_uuid y := i1']> ds). rewrite process_info_add_eq, Hb1 by done. split; [done|].
  pose proof (set_add_ok p ds y Hok Hy) as A3. rewrite process_info_add_eq, Hb1 in A3 by done. destruct A3 as (Hok3 & _).
  rewrite process_info_add_eq.
  - rewrite Hb2. cbn. f_equal. f_equal. case_decide as Eu.
    + rewrite Eu. by rewrite !insert_insert_eq.
    + rewrite (Hsame Eu). by apply insert_insert_ne.
  - apply (clashes_false p _ x Hok3). intros u i e e'. rewrite lookup_insert_Some.
    intros [[<- <-]|[Hne Hi]] Hei Hex; [|by eapply (Hn1 u i)].
    destruct (added_enc_from p ds y i1' Hok Hy Hc1' Hb1 e Hei) as [Hey|(j & Hj & Ej)]; [|by eapply (Hn1 _ j)].
    symmetry. eapply (Hn2 (info_uuid x) i1); [apply lookup_insert_eq|by eapply added_own_enc|done].
Qed.

(** the devices found, one after the other *)
Fixpoint process_all (ds : DeviceSet) (infos : list DeviceInfo) : res (DeviceBag + DeviceSet) :=
  match infos with
  | [] => Ok (inr ds)
  | info :: rest =>
      let? r := DSet.process_info_add ds info in
      match r with inl bag => Ok (inl bag) | inr ds => process_all ds rest end
  end.

Definition of_pool (p : Z) (info : DeviceInfo) : Prop := pool_uuid (info_identifiers info) = p.

Lemma of_pool_ids p info : of_pool p info → info_identifiers info = mkIds p (info_uuid info).
Proof. unfold of_pool, info_uuid. destruct (info_identifiers info). by intros <-. Qed.

Lemma process_all_perm p l l' : l ≡ₚ l' → ∀ ds d, set_ok p ds → Forall (of_pool p) l → NoDup (info_key <$> l) →
  process_all ds l = Ok (inr d) → process_all ds l' = Ok (inr d).
Proof.
  induction 1 as [|x l l' Hp IH|x y l|l1 l2 l3 Hp1 IH1 Hp2 IH2]; intros ds d Hok Hpool Hnd E.
  - done.
  - apply Forall_cons in Hpool as [Hx Hpool]. apply NoDup_cons in Hnd as [_ Hnd]. cbn [process_all] in *.
    pose proof (set_add_ok p ds x Hok (of_pool_ids _ _ Hx)) as Ha.
    destruct (DSet.process_info_add ds x) as [[bag|d1]|e|w]; cbn [rbind] in *; [done| |done..]. by apply IH; [apply Ha|..].
  - rewrite !Forall_cons in Hpool. destruct Hpool as (Hy & Hx & _).
    rewrite !fmap_cons, !NoDup_cons in Hnd. destruct Hnd as (Hne & _ & _). cbn [process_all] in *.
    destruct (DSet.process_info_add ds y) as [[bag|d1]|e|w] eqn:E1; cbn [rbind] in *; [done| |done..].
    destruct (DSet.process_info_add d1 x) as [[bag|d2]|e|w] eqn:E2; cbn [rbind] in *; [done| |done..].
    destruct (add_swap p ds y x d1 d2 Hok) as (d1' & -> & E3); [by apply of_pool_ids..|by intros Ek; apply Hne; rewrite Ek; left|done|done|].
    cbn [rbind]. by rewrite E3.
  - apply IH2; [done|by rewrite <- Hp1|by rewrite <- Hp1|]. by apply IH1.
Qed.

(** What is known about the devices of a pool stays consistent.  A device found is added, or
    the whole set is given up with every piece of information kept; in a set all devices belong to
    the pool under their own UUID, the LUKS2 information stored with a device is about that device,
    and all encryption information agrees; the assertions of [LInfo::update] never fail; and
    removals keep all this and touch only the device removed. *)
Theorem device_set_invariant p ds info :
  set_ok p ds → of_pool p info →
  match DSet.process_info_add ds info with
  | Ok (inr ds') => set_ok p ds' ∧ dom ds' = {[info_uuid info]} ∪ dom ds
  | Ok (inl bag) => ∀ x, x ∈ bag ↔ x = LI.from info ∨ ∃ u, ds !! u = Some x
  | _ => False
  end ∧
  set_ok p (DSet.process_info_remove ds info) ∧
  ∀ u, u ≠ info_uuid info → DSet.process_info_remove ds info !! u = ds !! u.
Proof.
  intros Hok Hp. split; [|by apply set_remove_ok].
  pose proof (set_add_ok p ds info Hok (of_pool_ids _ _ Hp)) as Ha.
  destruct (DSet.process_info_add ds info) as [[bag|ds']|e|w]; try done.
  destruct Ha as (Hok' & _ & i & _ & ->). split; [done|]. by rewrite dom_insert_L.
Qed.

(** C32: The order in which the devices of a pool are found does not matter: when the devices, at most one
    LUKS2 and one Stratis device for each UUID, are put together in one order, they are in
    every order, with the same result. *)
Theorem discovery_order_irrelevant p infos infos' ds :
  infos ≡ₚ infos' → Forall (of_pool p) infos → NoDup (info_key <$> infos) →
  process_all DSet.new infos = Ok (inr ds) → process_all DSet.new infos' = Ok (inr ds).
Proof. intros Hp. apply (process_all_perm p infos infos' Hp). apply set_ok_empty. Qed.

Section examples.
Definition ex_enc1 : EncryptionInfo := mkEnc (Some (str "key")) None.
Definition ex_strat (u n : Z) (path : Str) : DeviceInfo := DStratis (mkStratisInfo (mkIds 1 u) n path).
Definition ex_luks (u n : Z) (path : Str) : DeviceInfo := DLuks (mkLuksInfo (mkStratisInfo (mkIds 1 u) n path) ex_enc1).
Definition ex_found : list DeviceInfo := [ex_luks 5 10 (str "/dev/a"); ex_strat 5 20 (str "/dev/x"); ex_luks 6 11 (str "/dev/b")].
Definition ex_set : DeviceSet :=
  match process_all DSet.new ex_found with Ok (inr ds) => ds | _ => ∅ end.

Lemma device_set_invariant_witness :
  match DSet.process_info_add DSet.new (ex_luks 5 10 (str "/dev/a")) with
  | Ok (inr ds') => set_ok 1 ds' ∧ dom ds' = {[5]} ∪ dom DSet.new
  | Ok (inl bag) => False
  | _ => False
  end.
Proof. exact (proj1 (device_set_invariant 1 DSet.new (ex_luks 5 10 (str "/dev/a")) (set_ok_empty 1) eq_refl)). Defined.

Lemma discovery_order_irrelevant_witness :
  process_all DSet.new (reverse ex_found) = Ok (inr ex_set).
Proof.
  apply (discovery_order_irrelevant 1 ex_found (reverse ex_found) ex_set).
  - symmetry. apply reverse_Permutation.
  - repeat constructor.
  - apply (bool_decide_unpack _). vm_compute. exact I.
  - vm_compute. reflexivity.
Defined.
End examples.
