(* ===== verification/Identify.v ===== *)
(** * Identifying devices

    Models the functions of [src/engine/strat_engine/liminal/identify.rs]: which block devices
    belong to Stratis, found by a scan of the udev database or by a udev event.  Hash maps of lists
    are [gmap]s; log messages are left out. *)
From stdpp Require Import base list gmap strings.
From Stdlib Require Import ZArith Lia.
From S2P Require Import Prelude Disk External Json StaticHeader MDA Shared System Names Crypt Devices Setup PoolMetadata DeviceSet.

(** ** udev events *)
Inductive EventType := EvAdd | EvChange | EvRemove | EvUnknown.
Record UdevEngineEvent : Type := mkEvent { event_type : EventType; event_device : UdevEngineDevice }.

Section identify.
Context `{Crc32c} `{Chrono} `{Cryptsetup} `{UuidDisplay} `{ClevisCodec}.

(** the device number; [Err] when udev has none *)
Definition device_to_devno_wrapper (device : UdevEngineDevice) : res Z :=
  match devnum device with Some n => Ok n | None => Err (Msg "udev entry did not contain a device number") end.

(** [Ok(Ok(..))], [Ok(Err(..))] and [Err(..)] of the source: all errors are treated alike by the caller *)
Definition device_identifiers_wrapper (devnode : Str) : sys (StratisError + option StratisIdentifiers) :=
  itry (with_file_ro devnode device_identifiers).

Definition process_luks_device (dev : UdevEngineDevice) : sys (option LuksInfo) :=
  match udev_devnode dev with
  | None => iret None
  | Some path =>
      match device_to_devno_wrapper dev with
      | Ok device_number =>
          let! r := itry (CryptMetadataHandle_setup path) in
          iret (match r with
                | inr (Some handle) =>
                    Some (mkLuksInfo (mkStratisInfo (cmh_identifiers handle) device_number (physical_path handle)) (cmh_encryption_info handle))
                | _ => None
                end)
      | _ => iret None
      end
  end.

Definition process_stratis_device (dev : UdevEngineDevice) : sys (option StratisInfo) :=
  match udev_devnode dev with
  | None => iret None
  | Some path =>
      let devno := device_to_devno_wrapper dev in
      let! ids := device_identifiers_wrapper path in
      iret (match devno, ids with
            | Ok device_number, inr (Some identifiers) => Some (mkStratisInfo identifiers device_number path)
            | _, _ => None
            end)
  end.

Definition identify_luks_device (dev : UdevEngineDevice) : sys (option LuksInfo) :=
  if negb (is_initialized dev) then iret None
  else match decide_ownership dev with
       | Ok Luks_ => process_luks_device dev
       | Panic w => ilift (Panic w)
       | _ => iret None
       end.

Definition identify_stratis_device (dev : UdevEngineDevice) : sys (option StratisInfo) :=
  if negb (is_initialized dev) then iret None
  else match decide_ownership dev with
       | Ok Stratis => process_stratis_device dev
       | Panic w => ilift (Panic w)
       | _ => iret None
       end.

Definition identify_block_device (event : UdevEngineEvent) : sys (option DeviceInfo) :=
  let dev := event_device event in
  if negb (is_initialized dev) then iret None
  else match decide_ownership dev with
       | Ok Stratis => let! o := process_stratis_device dev in iret (DStratis <$> o)
       | Ok Luks_ => let! o := process_luks_device dev in iret (DLuks <$> o)
       | Panic w => ilift (Panic w)
       | _ => iret None
       end.

(** [enumerator.match_property(FS_TYPE_KEY, value)] *)
Definition matches_fs_type (value : Str) (dev : UdevEngineDevice) : bool :=
  bool_decide (properties dev !! str "ID_FS_TYPE" = Some (Some value)).

(** [acc.entry(pool_uuid).or_insert_with(Vec::new).push(info)] *)
Definition push {A} (pool : Z) (x : A) (m : gmap Z (list A)) : gmap Z (list A) :=
  <[pool := default [] (m !! pool) ++ [x]]> m.

(** identify each device in turn and file it under its pool *)
Fixpoint find_each {A} (identify : UdevEngineDevice → sys (option A)) (pool_of : A → Z)
    (devs : list UdevEngineDevice) (acc : gmap Z (list A)) : sys (gmap Z (list A)) :=
  match devs with
  | [] => iret acc
  | dev :: rest =>
      let! o := identify dev in
      find_each identify pool_of rest (match o with Some info => push (pool_of info) info acc | None => acc end)
  end.

Definition find_all_luks_devices : sys (gmap Z (list LuksInfo)) :=
  let! devs := call udev_scan in
  find_each identify_luks_device (λ info, pool_uuid (si_identifiers (li_info info)))
    (filter (λ d, matches_fs_type (str "crypto_LUKS") d = true) devs) ∅.

Definition find_all_stratis_devices : sys (gmap Z (list StratisInfo)) :=
  let! devs := call udev_scan in
  find_each identify_stratis_device (λ info, pool_uuid (si_identifiers info))
    (filter (λ d, matches_fs_type (str "stratis") d = true) devs) ∅.

Definition find_all : sys (gmap Z (list LuksInfo) * gmap Z (list StratisInfo)) :=
  let! luks := find_all_luks_devices in
  let! stratis := find_all_stratis_devices in
  iret (luks, stratis).

(** ** Identification does not panic *)

Lemma decide_ownership_no_panic d w : decide_ownership d ≠ Panic w.
Proof.
  unfold decide_ownership, is_multipath_member, is_stratis, is_luks, property_is, get_udev_property, rbind.
  repeat (case_match; simplify_eq/=; try done).
Qed.
Lemma token_uuid_no_panic k v w : (let? x := token_string k v in parse_uuid_string x) ≠ Panic w.
Proof. unfold token_string, parse_uuid_string, rbind. repeat (case_match; simplify_eq/=; try done). Qed.
Lemma safe_metadata_handle p : safe (CryptMetadataHandle_setup p).
Proof. unfold CryptMetadataHandle_setup. safely; apply safe_lift; intros w; apply token_uuid_no_panic. Qed.
Lemma safe_open {A} w p (m : io A) : safe m → safe (open_with w p m).
Proof.
  intros Hm s. unfold open_with. destruct (s_files s !! p) as [f|]; [|done].
  specialize (Hm (set_mode w (set_pos 0 f))). by destruct (m _) as [[]].
Qed.
#[local] Hint Resolve safe_metadata_handle : safe.

Lemma safe_identify ev : safe (identify_block_device ev).
Proof.
  assert (∀ p, safe (with_file_ro p device_identifiers)) as Hro by (intros p; apply safe_open, safe_device_identifiers).
  unfold identify_block_device. destruct (negb _); [safely|].
  pose proof (decide_ownership_no_panic (event_device ev)) as Hp.
  destruct (decide_ownership _) as [[]|?|w]; try (by destruct (Hp w));
    unfold process_stratis_device, process_luks_device, device_identifiers_wrapper; safely.
Qed.

(** ** Properties *)

(** C33: Identifying a Stratis device opens it for reading only, so a static header that
    needs a repair cannot be repaired: a readable device is identified, by the header found, exactly
    when both copies of the header are valid and equal; a device with one damaged or outdated
    copy is disregarded.  The call does not fail and does not change the device. *)
Theorem identified_iff_copies_agree dev path n f s :
  udev_devnode dev = Some path → devnum dev = Some n →
  s_files s !! path = Some f → no_faults f → 8192 ≤ f_size f →
  ∃ o f', process_stratis_device dev s = (Ok o, set_files s (<[path := f']> (s_files s))) ∧
    (∀ i, f_data f' i = f_data f i) ∧
    ∀ info, o = Some info ↔
      ∃ sh, parsed1 f = Ok (Some sh) ∧ parsed2 f = Ok (Some sh) ∧
            info = mkStratisInfo (identifiers sh) n path.
Proof.
  intros Ep Ed Ef Hn Hs. unfold process_stratis_device, device_to_devno_wrapper, device_identifiers_wrapper.
  rewrite Ep, Ed. unfold ibind, itry, with_file_ro, open_with. rewrite Ef.
  destruct (identifiers_read_only (set_mode false (set_pos 0 f))) as (r & f' & -> & (_ & _ & W) & Hp & Hr); [done..|].
  change (parsed1 (set_mode false (set_pos 0 f))) with (parsed1 f) in Hr.
  change (parsed2 (set_mode false (set_pos 0 f))) with (parsed2 f) in Hr.
  destruct r as [o|e|w]; [| |by destruct (Hp w)]; eexists _, f'; (split; [reflexivity|]);
    (split; [intros i; apply W; lia|]); intros info.
  - destruct o as [ids|].
    + split; [intros [= <-]; destruct (proj1 (Hr ids) eq_refl) as (sh & ? & ? & <-); eauto|].
      intros (sh & ? & ? & ->). pose proof (proj2 (Hr (identifiers sh)) ltac:(eauto)). by simplify_eq.
    + split; [done|]. intros (sh & ? & ? & _). by pose proof (proj2 (Hr (identifiers sh)) ltac:(eauto)).
  - split; [done|]. intros (sh & ? & ? & _). by pose proof (proj2 (Hr (identifiers sh)) ltac:(eauto)).
Qed.
End identify.

(** ** Witnesses *)

Section examples.
#[local] Existing Instance crc32c_instance.
#[local] Existing Instance any_time.
#[local] Existing Instance hex_instance.
#[local] Existing Instance simple_display.
#[local] Existing Instance script_crypt.
#[local] Existing Instance example_codec.

(** The device with an outdated second copy of its header. *)
Definition stale_udev : UdevEngineDevice :=
  mkUdev true (Some (str "/dev/sda")) (Some 2048) {[str "ID_FS_TYPE" := Some (str "stratis")]}.
Definition stale_sys : Sys :=
  mkSys {[str "/dev/sda" := stale_device]} ∅ [] (λ n, Z.of_nat n) (λ n, mkTime (Z.of_nat n) 0) 0.

Lemma stale_copies : parsed1 stale_device ≠ parsed2 stale_device.
Proof. vm_compute. discriminate. Qed.

(** It would be identified if it were opened for writing; it is disregarded. *)
Lemma identified_iff_copies_agree_witness :
  (device_identifiers stale_device).1 = Ok (Some (identifiers newer_header)) ∧
  ∃ f', process_stratis_device stale_udev stale_sys =
          (Ok None, set_files stale_sys (<[str "/dev/sda" := f']> (s_files stale_sys))).
Proof.
  split; [apply stale_identified|].
  destruct (identified_iff_copies_agree stale_udev (str "/dev/sda") 2048 stale_device stale_sys)
    as (o & f' & E & _ & Ho); [done|done|by apply lookup_singleton_Some|apply stale_healthy|apply stale_healthy|].
  exists f'. destruct o as [info|]; [exfalso|exact E].
  destruct (proj1 (Ho info) eq_refl) as (sh & H1 & H2 & _).
  exact (stale_copies (eq_trans H1 (eq_sym H2))).
Defined.
End examples.
