(* ===== verification/Liminal.v ===== *)
(** * Devices that are not in a pool yet

    Models [src/engine/strat_engine/liminal/liminal.rs]: the sets of devices that may still become a
    pool, those that never will, and what a udev event or the initial scan does to
    them.  Log messages are left out. *)
From stdpp Require Import base list gmap strings.
From Stdlib Require Import ZArith Lia.
From S2P Require Import Prelude Disk Sizes External Json StaticHeader MDA BDA Table Actions Shared System Names Crypt BlockDev Devices BlockDevMgr Setup RangeAlloc Tiers Dm Mdv Backstore ThinPool Pool DeviceSet Identify.

Inductive Destination := Hopeless (why : string) | Errored (why : string).

Record LiminalDevices : Type := mkLiminal {
  errored_pool_devices : gmap Z DeviceSet; hopeless_device_sets : gmap Z DeviceBag }.

Module LD.
Definition LiminalDevices_default : LiminalDevices := mkLiminal ∅ ∅.
Definition on_errored (f : gmap Z DeviceSet → gmap Z DeviceSet) (self : LiminalDevices) : LiminalDevices :=
  mkLiminal (f (errored_pool_devices self)) (hopeless_device_sets self).
Definition on_hopeless (f : gmap Z DeviceBag → gmap Z DeviceBag) (self : LiminalDevices) : LiminalDevices :=
  mkLiminal (errored_pool_devices self) (f (hopeless_device_sets self)).

Section with_dm.
Context `{Crc32c} `{Chrono} `{Cryptsetup} `{!Devicemapper} `{UuidDisplay} `{ClevisCodec} `{DmNames} `{FsSerde} `{PoolSerde}.
Context (choose : nat → nat → list nat).
Notation StratPool := SPool.StratPool.

(** *** Unlocking *)

Definition handle_luks (luks_info : LLuksInfo) (unlock_method : UnlockMethod) : sys unit :=
  let! o := CryptActivationHandle_setup (devnode (luks_ids luks_info)) unlock_method in
  match o with
  | Some _ => iret tt
  | None => ierr (Msg "Block device does not appear to be formatted with the proper Stratis LUKS2 metadata.")
  end.

Fixpoint unlock_each (l : list (Z * LInfo)) (unlock_method : UnlockMethod) : sys (list Z) :=
  match l with
  | [] => iret []
  | (_, LStratis _) :: rest => unlock_each rest unlock_method
  | (dev_uuid, LLuks luks_info) :: rest =>
      handle_luks luks_info unlock_method ;;!
      let! unlocked := unlock_each rest unlock_method in
      iret (dev_uuid :: unlocked)
  end.

Definition unlock_pool (self : LiminalDevices) (pools : Table Z StratPool) (pool_uuid : Z)
    (unlock_method : UnlockMethod) : sys (list Z) :=
  match errored_pool_devices self !! pool_uuid with
  | Some map =>
      if DSet.all_unencrypted map then ierr (Msg "Attempted to unlock set of devices belonging to an unencrypted pool")
      else unlock_each (DSet.iter map) unlock_method
  | None =>
      match Tbl.get_by_uuid pools pool_uuid with
      | Some (_, pool) =>
          let! encrypted := ilift (SPool.is_encrypted pool) in
          if (encrypted : bool) then iret [] else ierr (Msg "Pool is not encrypted and cannot be unlocked.")
      | None => ierr (Msg "No devices with UUID have been registered with stratisd.")
      end
  end.

Definition locked_pools (self : LiminalDevices) : gmap Z LockedPoolInfo :=
  omap DSet.locked_pool_info (errored_pool_devices self).

(** *** Setting up a pool *)

(** [?] of a [Result<_, Destination>] *)
Definition or_dest {A B} (r : StratisError + A) (d : Destination) (k : A → sys (Destination + B)) : sys (Destination + B) :=
  match r with inl _ => iret (inl d) | inr a => k a end.

Definition setup_pool (pools : Table Z StratPool) (uuid : Z) (infos : list (Z * LStratisInfo))
    : sys (Destination + (Str * StratPool)) :=
  let! r := itry (get_bdas infos) in
  or_dest r (Errored "There was an error encountered when reading the BDAs") (λ bdas,
  if existsb (λ '(dev_uuid, bda), negb (dev_uuid =? Bda.dev_uuid bda) || negb (uuid =? Bda.bda_pool_uuid bda)) bdas then
    iret (inl (Hopeless "Mismatch between Stratis identifiers previously read and those found on some BDA"))
  else
    let! r := itry (get_metadata pool_from_slice infos bdas) in
    or_dest r (Errored "There was an error encountered when reading the metadata") (λ o,
    match o with
    | None => iret (inl (Errored "No metadata found on devices associated with pool UUID"))
    | Some (timestamp, metadata) =>
        match Tbl.get_by_name pools (ps_name metadata) with
        | Some _ => iret (inl (Errored "There is a pool name conflict."))
        | None =>
            let! r := itry (get_blockdevs (ps_backstore metadata) infos (list_to_map bdas)) in
            or_dest r (Errored "There was an error encountered when calculating the block devices") (λ '(datadevs, cachedevs),
            match datadevs with
            | [] => iret (inl (Hopeless "There do not appear to be any data devices in the set"))
            | _ =>
                let num_with_luks := length (filter (λ sbd, EncryptionInfo_is_encrypted (SBD.encryption_info sbd) = true) datadevs) in
                if negb (num_with_luks =? 0)%nat && negb (num_with_luks =? length datadevs)%nat then
                  iret (inl (Errored "Some data devices in the set appear to be encrypted devices managed by Stratis, and some do not"))
                else
                  let! r := itry (SPool.setup choose uuid datadevs cachedevs timestamp metadata) in
                  or_dest r (Errored "An attempt to set up pool from the assembled devices failed") (λ p, iret (inr p))
            end)
        end
    end)).

Definition try_setup_pool (pools : Table Z StratPool) (uuid : Z) (infos : DeviceSet)
    : obj LiminalDevices (option (Str * StratPool)) :=
  let! self := get_self in
  let! _ := ilift (rassert (negb (is_some (Tbl.get_by_uuid pools uuid))) "pools.get_by_uuid(pool_uuid).is_none()" (Ok tt)) in
  let! _ := ilift (rassert (negb (is_some (errored_pool_devices self !! uuid))) "self.errored_pool_devices.get(&pool_uuid).is_none()" (Ok tt)) in
  let! _ := ilift (rassert (negb (is_some (hopeless_device_sets self !! uuid))) "self.hopeless_device_sets.get(&pool_uuid).is_none()" (Ok tt)) in
  let! opened := ilift (DSet.as_opened_set infos) in
  match opened with
  | None => modify_self (on_errored (<[uuid := infos]>)) ;;! iret None
  | Some opened =>
      let! result := lift_sys (setup_pool pools uuid opened) in
      match result with
      | inr p => iret (Some p)
      | inl (Hopeless _) => modify_self (on_hopeless (<[uuid := DSet.into_bag infos]>)) ;;! iret None
      | inl (Errored _) => modify_self (on_errored (<[uuid := infos]>)) ;;! iret None
      end
  end.

(** *** The initial scan *)

(** the devices of one pool, the last of the list first, until one contradicts the others *)
Fixpoint add_popped (infos : list DeviceInfo) (info_map : DeviceSet) : res (DeviceBag + DeviceSet) :=
  match infos with
  | [] => Ok (inr info_map)
  | info :: rest =>
      let? r := DSet.process_info_add info_map info in
      match r with
      | inr info_map => add_popped rest info_map
      | inl hopeless => Ok (inl (Bag.extend hopeless (LI.from <$> reverse rest)))
      end
  end.

(** [stratis_infos.chain(luks_infos)] *)
Definition pool_infos (luks : gmap Z (list LuksInfo)) (stratis : gmap Z (list StratisInfo)) (uuid : Z) : list DeviceInfo :=
  (DStratis <$> default [] (stratis !! uuid)) ++ (DLuks <$> default [] (luks !! uuid)).

Definition scan_pool (luks : gmap Z (list LuksInfo)) (stratis : gmap Z (list StratisInfo)) (uuid : Z)
    : obj LiminalDevices (option (Str * StratPool)) :=
  let! self := get_self in
  (* the loop is not entered when the pool is hopeless already *)
  if is_some (hopeless_device_sets self !! uuid) then iret None
  else
    let! r := ilift (add_popped (reverse (pool_infos luks stratis uuid)) DSet.new) in
    match r with
    | inl hopeless => modify_self (on_hopeless (<[uuid := hopeless]>)) ;;! iret None
    | inr info_map => try_setup_pool Tbl.default uuid info_map
    end.

Fixpoint setup_each (luks : gmap Z (list LuksInfo)) (stratis : gmap Z (list StratisInfo)) (pool_uuids : list Z)
    : obj LiminalDevices (list (Str * Z * StratPool)) :=
  match pool_uuids with
  | [] => iret []
  | uuid :: rest =>
      let! o := scan_pool luks stratis uuid in
      let! pools := setup_each luks stratis rest in
      iret (match o with Some (pool_name, pool) => (pool_name, uuid, pool) :: pools | None => pools end)
  end.

Definition setup_pools (luks : gmap Z (list LuksInfo)) (stratis : gmap Z (list StratisInfo))
    : obj LiminalDevices (list (Str * Z * StratPool)) :=
  setup_each luks stratis (elements (dom luks ∪ dom stratis)).

(** *** udev events *)

Definition evaluate_add (pools : Table Z StratPool) (info : DeviceInfo) : obj LiminalDevices (option (Z * Str * StratPool)) :=
  let uuid := pool_uuid (info_identifiers info) in
  let! self := get_self in
  match Tbl.get_by_uuid pools uuid with
  | Some _ => iret None
  | None =>
      match hopeless_device_sets self !! uuid with
      | Some set => modify_self (on_hopeless (<[uuid := Bag.insert (LI.from info) set]>)) ;;! iret None
      | None =>
          let devices := default DSet.new (errored_pool_devices self !! uuid) in
          modify_self (on_errored (delete uuid)) ;;!
          let! r := ilift (DSet.process_info_add devices info) in
          match r with
          | inl hopeless => modify_self (on_hopeless (<[uuid := hopeless]>)) ;;! iret None
          | inr devices =>
              let! o := try_setup_pool pools uuid devices in
              iret ((λ '(name, pool), (uuid, name, pool)) <$> o)
          end
      end
  end.

Definition evaluate_remove (pools : Table Z StratPool) (info : DeviceInfo) : obj LiminalDevices (option (Z * Str * StratPool)) :=
  let uuid := pool_uuid (info_identifiers info) in
  let! self := get_self in
  match Tbl.get_by_uuid pools uuid with
  | Some _ => iret None
  | None =>
      match hopeless_device_sets self !! uuid with
      | Some set => modify_self (on_hopeless (<[uuid := Bag.remove (LI.from info) set]>)) ;;! iret None
      | None =>
          let devices := default DSet.new (errored_pool_devices self !! uuid) in
          modify_self (on_errored (delete uuid)) ;;!
          let! o := try_setup_pool pools uuid (DSet.process_info_remove devices info) in
          iret ((λ '(name, pool), (uuid, name, pool)) <$> o)
      end
  end.

Definition block_evaluate (pools : Table Z StratPool) (event : UdevEngineEvent) : obj LiminalDevices (option (Z * Str * StratPool)) :=
  match event_type event with
  | EvAdd | EvChange =>
      let! o := lift_sys (identify_block_device event) in
      match o with None => iret None | Some info => evaluate_add pools info end
  | EvRemove =>
      let! o := lift_sys (identify_block_device event) in
      match o with None => iret None | Some info => evaluate_remove pools info end
  | EvUnknown => iret None
  end.
End with_dm.
End LD.
