(* ===== verification/Engine.v ===== *)
(** * The engine

    Models [src/engine/strat_engine/engine.rs], with the search for programs of [cmd.rs] and
    [MemoryFilesystem] of [keys.rs] that its initialization calls: the table of pools, the liminal devices, and
    the handlers of the engine's interface.  The key handler has no state. *)
From stdpp Require Import base list gmap strings.
From Stdlib Require Import ZArith Lia.
From S2P Require Import Prelude Disk Sizes External Json StaticHeader MDA BDA Table Actions Shared System Names Crypt BlockDev Devices BlockDevMgr Setup RangeAlloc Tiers Dm Mdv Backstore ThinPool Pool DeviceSet Identify Liminal.

(** ** Programs ([cmd.rs]) *)
Section cmd.
Context `{Cryptsetup}.

Definition BINARIES_PATHS : list Str := [str "/usr/sbin"; str "/sbin"; str "/usr/bin"; str "/bin"].
Definition BINARY_NAMES : list Str :=
  [str "mkfs.xfs"; str "thin_check"; str "thin_repair"; str "udevadm"; str "xfs_db"; str "xfs_growfs"].

(** [path.exists()] *)
Definition exists_ (path : Str) : sys bool :=
  let! o := call_ok (path_exists path) in iret (default false o).

Fixpoint find_path (paths : list Str) : sys (option Str) :=
  match paths with
  | [] => iret None
  | path :: rest => let! b := exists_ path in if (b : bool) then iret (Some path) else find_path rest
  end.
Definition find_binary (name : Str) : sys (option Str) :=
  find_path ((λ pre, pre ++ str "/" ++ name) <$> BINARIES_PATHS).

(** [BINARIES]: every program is searched for *)
Fixpoint find_binaries (names : list Str) : sys (list (Str * option Str)) :=
  match names with
  | [] => iret []
  | name :: rest =>
      let! path := find_binary name in let! r := find_binaries rest in iret ((name, path) :: r)
  end.
Definition verify_binaries : sys unit :=
  let! binaries := find_binaries BINARY_NAMES in
  if existsb (λ '(_, path), negb (is_some path)) binaries then ierr (Msg "Unable to find executable")
  else iret tt.

(** ** [MemoryFilesystem::new] ([keys.rs]) *)
Definition TMPFS_LOCATION : Str := str "/run/stratisd/keyfiles".

Definition MemoryFilesystem_new : sys unit :=
  let! present := exists_ TMPFS_LOCATION in
  (if (present : bool) then
     let! dir := call_ok (path_is_dir TMPFS_LOCATION) in
     if negb (default false dir) then ierr (Io "exists and is not a directory")
     else
       let! stat_info := call (stat_dev TMPFS_LOCATION) in
       let! parent_stat_info := call (stat_dev (TMPFS_LOCATION ++ str "/..")) in
       if negb (stat_info =? parent_stat_info) then let! _ := call_ok (umount_path TMPFS_LOCATION) in iret tt
       else iret tt
   else call (mkdir_all TMPFS_LOCATION)) ;;!
  call (mount_tmpfs TMPFS_LOCATION) ;;!
  call (mount_slave TMPFS_LOCATION).
End cmd.

(** ** [StratEngine] *)

Module SEng.
Section with_dm.
Context `{Crc32c} `{Chrono} `{Cryptsetup} `{!Devicemapper} `{UuidDisplay} `{ClevisCodec} `{DmNames} `{FsSerde} `{PoolSerde}.
Context (choose : nat → nat → list nat).
Notation StratPool := SPool.StratPool.

Record StratEngine : Type := mkStratEngine {
  pools : Table Z StratPool; liminal_devices : LiminalDevices;
  watched_dev_last_event_nrs : gmap Z (gmap Str Z) }.

Definition set_pools (t : Table Z StratPool) (self : StratEngine) : StratEngine :=
  mkStratEngine t (liminal_devices self) (watched_dev_last_event_nrs self).
Definition set_liminal (l : LiminalDevices) (self : StratEngine) : StratEngine :=
  mkStratEngine (pools self) l (watched_dev_last_event_nrs self).
Definition set_watched (w : gmap Z (gmap Str Z)) (self : StratEngine) : StratEngine :=
  mkStratEngine (pools self) (liminal_devices self) w.

(** [self.pools.insert(..)]; the entries it displaces are dropped *)
Definition insert_pool (name : Str) (uuid : Z) (pool : StratPool) : obj StratEngine unit :=
  let! self := get_self in
  let! '(_, t) := ilift (Tbl.insert (pools self) name uuid pool) in
  modify_self (set_pools t).

(** [self.pools.remove_by_uuid(uuid).expect(..)] *)
Definition take_pool (uuid : Z) : obj StratEngine (Str * StratPool) :=
  let! self := get_self in
  let '(o, t) := Tbl.remove_by_uuid (pools self) uuid in
  modify_self (set_pools t) ;;!
  ilift (expect o "Must succeed since self.pools.get_by_uuid() returned a value").

Fixpoint insert_all (l : list (Str * Z * StratPool)) (t : Table Z StratPool) : res (Table Z StratPool) :=
  match l with
  | [] => Ok t
  | (pool_name, pool_uuid, pool) :: rest =>
      let? '(_, t) := Tbl.insert t pool_name pool_uuid pool in insert_all rest t
  end.

Definition initialize : sys StratEngine :=
  verify_binaries ;;!
  let! '(luks, stratis) := find_all in
  λ s,
  let '(r, (liminal_devices, s)) := LD.setup_pools choose luks stratis (LD.LiminalDevices_default, s) in
  (let! l := ilift r in
   let! pools := ilift (insert_all l Tbl.default) in
   MemoryFilesystem_new ;;!
   iret (mkStratEngine pools liminal_devices ∅)) s.

Definition handle_event (event : UdevEngineEvent) : obj StratEngine (option (Str * Z * StratPool)) :=
  let! self := get_self in
  let! o := focus liminal_devices set_liminal (LD.block_evaluate choose (pools self) event) in
  match o with
  | None => iret None
  | Some (pool_uuid, pool_name, pool) =>
      insert_pool pool_name pool_uuid pool ;;!
      let! self := get_self in
      let! '(_, pool) := ilift (expect (Tbl.get_by_uuid (pools self) pool_uuid) "just_inserted") in
      iret (Some (pool_name, pool_uuid, pool))
  end.

Definition create_pool (name : Str) (blockdev_paths : list Str) (redundancy : option Z) (encryption_info : EncryptionInfo)
    : obj StratEngine (CreateAction Z) :=
  let! redundancy := ilift (calculate_redundancy redundancy) in
  let! _ := ilift (validate_name name) in
  let! _ := ilift (validate_paths blockdev_paths) in
  let! self := get_self in
  match Tbl.get_by_name (pools self) name with
  | Some (_, pool) =>
      ilift (create_pool_idempotent_or_err ((λ '(_, tier, bd), (tier, SBD.physical_path bd)) <$> SPool.blockdevs pool)
               name blockdev_paths)
  | None =>
      match blockdev_paths with
      | [] => ierr (Msg "At least one blockdev is required to create a pool.")
      | _ =>
          let! '(uuid, pool) := lift_sys (SPool.initialize choose name blockdev_paths redundancy encryption_info) in
          insert_pool name uuid pool ;;!
          iret (CACreated uuid)
      end
  end.

(** a method of a pool that was taken out of the table *)
Definition on_taken {A} (pool : StratPool) (m : obj StratPool A) : obj StratEngine ((StratisError + A) * StratPool) := λ '(self, s),
  let '(r, (pool, s)) := m (pool, s) in
  (match r with Ok a => Ok (inr a, pool) | Err e => Ok (inl e, pool) | Panic w => Panic w end, (self, s)).

Definition destroy_pool (uuid : Z) : obj StratEngine (DeleteAction Z) :=
  let! self := get_self in
  match Tbl.get_by_uuid (pools self) uuid with
  | None => iret DAIdentity
  | Some (_, pool) =>
      if SPool.has_filesystems pool then ierr (Msg "filesystems remaining on pool")
      else
        let! '(pool_name, pool) := take_pool uuid in
        let! '(r, pool) := on_taken pool SPool.destroy in
        match r with
        | inl err => insert_pool pool_name uuid pool ;;! ierr err
        | inr _ => iret (DADeleted uuid)
        end
  end.

Definition rename_pool (uuid : Z) (new_name : Str) : obj StratEngine (RenameAction Z) :=
  let! _ := ilift (validate_name new_name) in
  let! self := get_self in
  match rename_pre_idem (pools self) uuid new_name with
  | inl r => ilift r
  | inr old_name =>
      let! '(_, pool) := take_pool uuid in
      let! '(r, pool) := on_taken pool (SPool.write_metadata choose new_name) in
      match r with
      | inl err => insert_pool old_name uuid pool ;;! ierr err
      | inr _ =>
          insert_pool new_name uuid pool ;;!
          let! self := get_self in
          let! '(new_name, pool) := ilift (expect (Tbl.get_by_uuid (pools self) uuid) "Inserted above") in
          lift_sys (SPool.udev_pool_change pool new_name) ;;!
          iret (RARenamed uuid)
      end
  end.

Definition unlock_pool (pool_uuid : Z) (unlock_method : UnlockMethod) : obj StratEngine (SetUnlockAction Z) :=
  let! self := get_self in
  let! unlocked := lift_sys (LD.unlock_pool (liminal_devices self) (pools self) pool_uuid unlock_method) in
  iret (mkSetUnlock unlocked).

Definition get_pool (self : StratEngine) (uuid : Z) : option (Str * StratPool) := Tbl.get_by_uuid (pools self) uuid.
Definition locked_pools (self : StratEngine) : gmap Z LockedPoolInfo := LD.locked_pools (liminal_devices self).
Definition pools_list (self : StratEngine) : list (Str * Z * StratPool) := Tbl.iter (pools self).

(** a pool found by [get_mut_pool], and a method called on it *)
Definition on_pool {A} (uuid : Z) (m : Str → obj StratPool A) : obj StratEngine (option A) := λ '(self, s),
  match Tbl.get_mut_by_uuid (pools self) uuid with
  | None => (Ok None, (self, s))
  | Some (name, pool, put) =>
      let '(r, (pool, s)) := m name (pool, s) in (rmap Some r, (set_pools (put pool) self, s))
  end.

(** *** Devicemapper events *)

Fixpoint event_numbers (l : list (Str * option Z)) : res (gmap Str Z) :=
  match l with
  | [] => Ok ∅
  | (dm_name, event_nr) :: rest =>
      let? n := expect event_nr "Supported DM versions always provide a value" in
      let? m := event_numbers rest in
      Ok (if is_some (m !! dm_name) then m else <[dm_name := n]> m)
  end.

(** the pools in the order of iteration *)
Fixpoint event_each (device_list : gmap Str Z) (uuids : list Z) : obj StratEngine unit :=
  match uuids with
  | [] => iret tt
  | pool_uuid :: rest =>
      let! self := get_self in
      match Tbl.get_by_uuid (pools self) pool_uuid with
      | None => event_each device_list rest
      | Some (_, pool) =>
          let! dev_names := ilift (SPool.get_eventing_dev_names pool pool_uuid) in
          let event_nrs := filter (λ p, p.1 ∈ dev_names) device_list in
          (if bool_decide (watched_dev_last_event_nrs self !! pool_uuid ≠ Some event_nrs)
           then let! _ := on_pool pool_uuid (SPool.event_on choose pool_uuid) in iret tt
           else iret tt) ;;!
          modify_self (λ self, set_watched (<[pool_uuid := event_nrs]> (watched_dev_last_event_nrs self)) self) ;;!
          event_each device_list rest
      end
  end.

Definition evented : obj StratEngine unit :=
  let! l := lift_sys (dm list_devices) in
  let! device_list := ilift (event_numbers l) in
  let! self := get_self in
  event_each device_list (map fst (map_to_list (items (pools self)))).
End with_dm.
End SEng.
