(* ===== verification/EngineSpec.v ===== *)
(** * Pools, errored and hopeless device sets

    Properties of [Liminal] and [Engine]: a pool is at any time in one state (unknown, waiting
    for devices, hopeless, running), events and requests move it along the permitted transitions
    only, and the table of pools and the liminal devices stay consistent. *)
From stdpp Require Import base list gmap strings relations.
From Stdlib Require Import ZArith Lia.
From S2P Require Import Prelude Disk Sizes External Json StaticHeader MDA BDA Table Actions Shared System Names Crypt BlockDev Devices BlockDevMgr Bindings Setup RangeAlloc Tiers Dm Mdv Backstore ThinPool Pool PoolSpec FsSpec ThinPoolSpec BackstoreSpec PoolMetadata PoolOps DeviceSet Identify Liminal Engine.

Section spec_more.
Context `{Cryptsetup} {S : Type}.

Lemma spec_sys_any {A B} (h : S) (m : sys A) (k : A → obj S B) Q :
  (∀ a s s', m s = (Ok a, s') → spec h (k a) Q) → (∀ e s s', m s = (Err e, s') → Q (Err e) h) →
  (∀ w s s', m s = (Panic w, s') → Q (Panic w) h) → spec h (ibind (lift_sys m) k) Q.
Proof.
  intros Hk He Hp s. unfold ibind, lift_sys. destruct (m s) as [[a|e|w] s'] eqn:E; [by eapply Hk|by eapply He|by eapply Hp].
Qed.
Lemma spec_modify (h : S) f (Q : res unit → S → Prop) : Q (Ok tt) (f h) → spec h (modify_self f) Q.
Proof. by intros HQ s. Qed.
Lemma spec_modify_bind {A} (h : S) f (k : unit → obj S A) Q : spec (f h) (k tt) Q → spec h (ibind (modify_self f) k) Q.
Proof. intros Hk s. apply Hk. Qed.
Lemma spec_mono {A} (h : S) (m : obj S A) (P Q : res A → S → Prop) :
  spec h m P → (∀ r h', P r h' → Q r h') → spec h m Q.
Proof. intros Hm HPQ s. specialize (Hm s). destruct (m (h, s)) as [r [h' s']]. by apply HPQ. Qed.
(** the result of a run whose value is mapped *)
Lemma spec_run_map {A B} (h : S) (m : obj S A) (f : A → B) Q s r h' s' :
  spec h m Q → (let! a := m in iret (f a)) (h, s) = (r, (h', s')) → ∃ r0, r = rmap f r0 ∧ Q r0 h'.
Proof.
  intros Hm E. specialize (Hm s). unfold ibind, iret in E. destruct (m (h, s)) as [[a|er|w] [h1 s1]]; simplify_eq/=;
    eexists; (split; [|exact Hm]); done.
Qed.
End spec_more.

Section engine.
Context `{Crc32c} `{Chrono} `{Cryptsetup} `{!Devicemapper} `{UuidDisplay} `{ClevisCodec} `{DmNames} `{FsSerde} `{PoolSerde}.
Context (choose : nat → nat → list nat).
Notation StratPool := SPool.StratPool.
Notation Pools := (Table Z SPool.StratPool).

(** ** Setting up a pool *)

(** setting up the pool panics, on some devices in some state of the system *)
Definition setup_panics (t : Pools) (u : Z) (w : string) : Prop :=
  ∃ infos s s', LD.setup_pool choose t u infos s = (Panic w, s').

Lemma setup_name u d c ts md s n p s' : SPool.setup choose u d c ts md s = (Ok (n, p), s') → n = ps_name md.
Proof.
  unfold SPool.setup. intros E. do 3 (apply bind_inv in E as (? & ? & _ & E)).
  match type of E with (match ?X with pair _ _ => _ end) = _ => destruct X as [r [self s3]] end.
  destruct r; by simplify_eq/=.
Qed.

(** It never fails: an error says where the devices go; a pool set up has a name that is not in use. *)
Lemma setup_pool_result t u infos s r s' : LD.setup_pool choose t u infos s = (r, s') →
  match r with
  | Ok (inr (n, _)) => Tbl.get_by_name t n = None
  | Ok (inl _) => True
  | Err _ => False
  | Panic w => setup_panics t u w
  end.
Proof.
  intros E. destruct r as [[d|[n p]]|e|w]; [done| | |by exists infos, s, s'];
    revert E; unfold LD.setup_pool, ibind, itry, LD.or_dest, iret;
    repeat (case_match; simplify_eq/=; try done); intros; simplify_eq/=.
  match goal with E : SPool.setup _ _ _ _ _ _ _ = _ |- _ => apply setup_name in E as -> end. done.
Qed.

Lemma opened_ok l : existsb (λ '(_, info), LI.is_closed info) l = false → ∃ r, DSet.opened l = Ok r.
Proof.
  induction l as [|[u [i|i]] l IH]; cbn; [eauto| |done]. intros Hl. destruct (IH Hl) as [r ->]. cbn. eauto.
Qed.
Lemma as_opened_set_ok ds : ∃ o, DSet.as_opened_set ds = Ok o.
Proof.
  unfold DSet.as_opened_set, DSet.some_closed. destruct (existsb _ _) eqn:E; [eauto|].
  destruct (opened_ok _ E) as [r ->]. cbn. eauto.
Qed.

(** ** Liminal devices *)

(** Every errored set describes devices of its pool, consistently, and no pool is both errored and hopeless. *)
Record liminal_ok (l : LiminalDevices) : Prop := {
  l_sets : ∀ u ds, errored_pool_devices l !! u = Some ds → set_ok u ds;
  l_disj : ∀ u ds, errored_pool_devices l !! u = Some ds → hopeless_device_sets l !! u = None }.

(** no devices of the pool are waiting *)
Definition absent (u : Z) (l : LiminalDevices) : Prop :=
  errored_pool_devices l !! u = None ∧ hopeless_device_sets l !! u = None.

(** nothing changed but for pool [u] *)
Definition same_but (u : Z) (l l' : LiminalDevices) : Prop :=
  ∀ v, v ≠ u → errored_pool_devices l' !! v = errored_pool_devices l !! v ∧
               hopeless_device_sets l' !! v = hopeless_device_sets l !! v.

Lemma errored_ok u ds l : liminal_ok l → set_ok u ds → hopeless_device_sets l !! u = None →
  liminal_ok (LD.on_errored (<[u := ds]>) l).
Proof.
  intros [Hs Hd] Hds Hh. split; intros v dv; cbn; destruct (decide (u = v)) as [<-|Hne];
    rewrite ?lookup_insert_eq, ?lookup_insert_ne by done; [by intros [= <-]|apply Hs|done|apply Hd].
Qed.
Lemma hopeless_ok u b l : liminal_ok l → errored_pool_devices l !! u = None →
  liminal_ok (LD.on_hopeless (<[u := b]>) l).
Proof.
  intros [Hs Hd] He. split; intros v dv; cbn; [apply Hs|]. intros Hv. rewrite lookup_insert_ne; [by eapply Hd|].
  intros <-. by rewrite He in Hv.
Qed.
Lemma delete_ok u l : liminal_ok l → liminal_ok (LD.on_errored (delete u) l).
Proof. intros [Hs Hd]. split; intros v dv; cbn; intros [_ Hv]%lookup_delete_Some; eauto. Qed.

Lemma same_but_refl u l : same_but u l l.
Proof. done. Qed.
Lemma same_but_errored u f l l' : same_but u l l' → (∀ m v, v ≠ u → f m !! v = m !! v) → same_but u l (LD.on_errored f l').
Proof. intros Hs Hf v Hv. cbn. rewrite Hf by done. by apply Hs. Qed.
Lemma same_but_hopeless u f l l' : same_but u l l' → (∀ m v, v ≠ u → f m !! v = m !! v) → same_but u l (LD.on_hopeless f l').
Proof. intros Hs Hf v Hv. cbn. rewrite Hf by done. by apply Hs. Qed.

Ltac same_but_auto :=
  repeat first [apply same_but_refl | apply same_but_errored | apply same_but_hopeless];
  intros; rewrite ?lookup_insert_ne, ?lookup_delete_ne by done; done.

(** The outcome of dealing with pool [u], which is not running. *)
Definition settled (t : Pools) (u : Z) (l : LiminalDevices) (r : res (option (Str * StratPool))) (l' : LiminalDevices) : Prop :=
  match r with
  | Ok None => liminal_ok l' ∧ same_but u l l' ∧ ¬ absent u l'
  | Ok (Some (n, _)) => liminal_ok l' ∧ same_but u l l' ∧ absent u l' ∧ Tbl.get_by_name t n = None
  | Err _ => False
  | Panic w => setup_panics t u w
  end.

Lemma not_absent_errored u ds l : ¬ absent u (LD.on_errored (<[u := ds]>) l).
Proof. intros [He _]. cbn in He. by rewrite lookup_insert_eq in He. Qed.
Lemma not_absent_hopeless u b l : ¬ absent u (LD.on_hopeless (<[u := b]>) l).
Proof. intros [_ He]. cbn in He. by rewrite lookup_insert_eq in He. Qed.

Lemma try_setup_settled t u ds l : Tbl.get_by_uuid t u = None → absent u l → liminal_ok l → set_ok u ds →
  spec l (LD.try_setup_pool choose t u ds) (settled t u l).
Proof.
  intros Ht [He Hh] Hok Hds. unfold LD.try_setup_pool. apply spec_self. rewrite Ht, He, Hh. cbn.
  do 3 (eapply spec_ok; [done|]). destruct (as_opened_set_ok ds) as [o Eo]. eapply spec_ok; [exact Eo|].
  destruct o as [opened|].
  - apply spec_sys_any; [|by intros e s s' ?%setup_pool_result|by intros w s s' ?%setup_pool_result].
    intros [[]|[n p]] s s' E%setup_pool_result.
    + apply spec_modify_bind, spec_ret. split; [by apply hopeless_ok|]. split; [same_but_auto|apply not_absent_hopeless].
    + apply spec_modify_bind, spec_ret. split; [by apply errored_ok|]. split; [same_but_auto|apply not_absent_errored].
    + apply spec_ret. by split_and!.
  - apply spec_modify_bind, spec_ret. split; [by apply errored_ok|]. split; [same_but_auto|apply not_absent_errored].
Qed.

(** ** The states of a pool *)

Inductive status := Unknown | Waiting | Doomed | Running.
Definition status_of (t : Pools) (l : LiminalDevices) (u : Z) : status :=
  if is_some (Tbl.get_by_uuid t u) then Running
  else if is_some (hopeless_device_sets l !! u) then Doomed
  else if is_some (errored_pool_devices l !! u) then Waiting
  else Unknown.

(** what one event may do *)
Inductive moves : status → status → Prop :=
| moves_same x : moves x x
| moves_seen x : moves Unknown x
| moves_doomed : moves Waiting Doomed
| moves_running : moves Waiting Running.

Lemma status_same t l l' u v : same_but u l l' → v ≠ u → status_of t l' v = status_of t l v.
Proof. intros Hs Hv. unfold status_of. destruct (Hs v Hv) as [-> ->]. done. Qed.

(** what an event about pool [u] did *)
Definition evaluated (t : Pools) (u : Z) (l : LiminalDevices) (r : res (option (Z * Str * StratPool))) (l' : LiminalDevices) : Prop :=
  match r with
  | Ok None => liminal_ok l' ∧ same_but u l l' ∧ moves (status_of t l u) (status_of t l' u) ∧
      (is_Some (Tbl.get_by_uuid t u) → l' = l)
  | Ok (Some (v, n, _)) => v = u ∧ liminal_ok l' ∧ same_but u l l' ∧ absent u l' ∧ Tbl.get_by_name t n = None ∧
      moves (status_of t l u) Running ∧ Tbl.get_by_uuid t u = None
  | Err _ => False
  | Panic w => setup_panics t u w
  end.

Lemma settled_evaluated t u l l0 r l' : Tbl.get_by_uuid t u = None → hopeless_device_sets l !! u = None →
  same_but u l l0 → settled t u l0 r l' →
  evaluated t u l (rmap (fmap (λ '(n, p), (u, n, p))) r) l'.
Proof.
  intros Ht Hh Hs Hset.
  assert (same_but u l0 l' → same_but u l l') as Htr.
  { intros Hs' v Hv. destruct (Hs v Hv) as [<- <-]. by apply Hs'. }
  assert (∀ x, x ≠ Unknown → moves (status_of t l u) x) as Hm.
  { intros x Hx. unfold status_of. rewrite Ht, Hh. cbn. destruct (is_some _); destruct x; done || constructor. }
  destruct r as [[[n p]|]|e|w]; cbn in *; [| |done..].
  - destruct Hset as (? & ? & ? & ?). split_and!; auto.
  - destruct Hset as (? & ? & Ha). split_and!; auto; [|by rewrite Ht; intros [? ?]]. apply Hm. unfold status_of, absent in *. rewrite Ht. cbn. destruct (hopeless_device_sets l' !! u), (errored_pool_devices l' !! u); done || (exfalso; apply Ha; done).
Qed.

(** the devices of the pool that are known, taken out *)
Lemma taken_ok l u : liminal_ok l → hopeless_device_sets l !! u = None →
  set_ok u (default DSet.new (errored_pool_devices l !! u)) ∧ liminal_ok (LD.on_errored (delete u) l) ∧
  absent u (LD.on_errored (delete u) l) ∧ same_but u l (LD.on_errored (delete u) l).
Proof.
  intros Hok Hh. split; [|split; [by apply delete_ok|split; [split; [apply lookup_delete_eq|done]|same_but_auto]]].
  destruct (errored_pool_devices l !! u) eqn:E; [by apply (l_sets _ Hok)|apply set_ok_empty].
Qed.

Definition running_absent (t : Pools) (l : LiminalDevices) : Prop := ∀ u, is_Some (Tbl.get_by_uuid t u) → absent u l.

(** the branches of both handlers that do not try to set up the pool *)
Lemma ignored_evaluated t l u : liminal_ok l → evaluated t u l (Ok None) l.
Proof. intros Hok. split_and!; [done|done|constructor|done]. Qed.
Lemma bagged_evaluated t l u b b' : liminal_ok l → hopeless_device_sets l !! u = Some b → Tbl.get_by_uuid t u = None →
  evaluated t u l (Ok None) (LD.on_hopeless (<[u := b']>) l).
Proof.
  intros Hok Hh Ht. split; [|split; [same_but_auto|split; [|by rewrite Ht; intros [? ?]]]].
  - apply hopeless_ok; [done|]. destruct (errored_pool_devices l !! u) as [ds|] eqn:E; [|done].
    pose proof (l_disj _ Hok _ _ E). by rewrite Hh in *.
  - unfold status_of. cbn. rewrite Ht, Hh, lookup_insert_eq. cbn. constructor.
Qed.

Lemma add_evaluated t l info : liminal_ok l → let u := pool_uuid (info_identifiers info) in
  spec l (LD.evaluate_add choose t info) (evaluated t u l).
Proof.
  intros Hok u. unfold LD.evaluate_add. fold u. apply spec_self. destruct (Tbl.get_by_uuid t u) as [[n p]|] eqn:Ht.
  { apply spec_ret. by apply ignored_evaluated. }
  destruct (hopeless_device_sets l !! u) as [b|] eqn:Hh.
  { apply spec_modify_bind, spec_ret. by eapply bagged_evaluated. }
  destruct (taken_ok l u Hok Hh) as (Hds & Hok0 & Ha & Hs). apply spec_modify_bind.
  pose proof (set_add_ok u _ info Hds (of_pool_ids _ _ eq_refl)) as Hadd.
  destruct (DSet.process_info_add _ info) as [[bag|ds']|e|w]; try done; (eapply spec_ok; [done|]).
  - apply spec_modify_bind, spec_ret. eapply (settled_evaluated _ _ _ _ (Ok None)); [done..|].
    split; [by apply hopeless_ok; [|apply Ha]|]. split; [same_but_auto|apply not_absent_hopeless].
  - apply spec_map. eapply spec_mono; [by apply try_setup_settled; [| | |apply Hadd]|].
    intros r l'. by apply settled_evaluated.
Qed.

Lemma remove_evaluated t l info : liminal_ok l → let u := pool_uuid (info_identifiers info) in
  spec l (LD.evaluate_remove choose t info) (evaluated t u l).
Proof.
  intros Hok u. unfold LD.evaluate_remove. fold u. apply spec_self. destruct (Tbl.get_by_uuid t u) as [[n p]|] eqn:Ht.
  { apply spec_ret. by apply ignored_evaluated. }
  destruct (hopeless_device_sets l !! u) as [b|] eqn:Hh.
  { apply spec_modify_bind, spec_ret. by eapply bagged_evaluated. }
  destruct (taken_ok l u Hok Hh) as (Hds & Hok0 & Ha & Hs). apply spec_modify_bind.
  apply spec_map. eapply spec_mono; [by apply try_setup_settled; [| | |apply set_remove_ok]|].
  intros r l'. by apply settled_evaluated.
Qed.

(** An event that is not about a Stratis device changes nothing. *)
Lemma block_evaluated t l ev : liminal_ok l →
  spec l (LD.block_evaluate choose t ev) (λ r l', ∃ u, evaluated t u l r l').
Proof.
  intros Hok. assert (∀ s e s', identify_block_device ev s ≠ (Err e, s')) as Hne.
  { intros s e s' E. revert E. unfold identify_block_device, process_stratis_device, process_luks_device,
      device_identifiers_wrapper, ibind, iret, ilift, itry. repeat (case_match; simplify_eq/=; try done). }
  assert (∀ f : DeviceInfo → obj LiminalDevices (option (Z * Str * StratPool)),
    (∀ info, spec l (f info) (evaluated t (pool_uuid (info_identifiers info)) l)) →
    spec l (let! o := lift_sys (identify_block_device ev) in match o with None => iret None | Some info => f info end)
      (λ r l', ∃ u, evaluated t u l r l')) as Hev.
  { intros f Hf. apply spec_sys_any; [|intros e s s' E; by destruct (Hne s e s')|].
    - intros [info|] s s' E; [eapply spec_mono; [apply Hf|eauto]|]. apply spec_ret. exists 0. by apply ignored_evaluated.
    - intros w s s' E. pose proof (safe_identify ev s) as Hs. by rewrite E in Hs. }
  unfold LD.block_evaluate. destruct (event_type ev); [apply Hev|apply Hev|apply Hev|];
    try (intros info; by apply add_evaluated || by apply remove_evaluated).
  apply spec_ret. exists 0. by apply ignored_evaluated.
Qed.

(** ** The engine *)
Notation StratEngine := SEng.StratEngine.
Implicit Types (e : StratEngine).

Record engine_ok (e : StratEngine) : Prop := {
  e_table : table_ok (SEng.pools e);
  e_liminal : liminal_ok (SEng.liminal_devices e);
  e_running : running_absent (SEng.pools e) (SEng.liminal_devices e) }.

Definition pool_status e (u : Z) : status := status_of (SEng.pools e) (SEng.liminal_devices e) u.

Lemma insert_pool_run n u p e : table_ok (SEng.pools e) →
  spec e (SEng.insert_pool n u p) (λ r e', r = Ok tt ∧ SEng.liminal_devices e' = SEng.liminal_devices e ∧
    table_ok (SEng.pools e') ∧
    ∀ n' u' p', entry (SEng.pools e') n' u' p' ↔
      (n', u', p') = (n, u, p) ∨ (entry (SEng.pools e) n' u' p' ∧ n' ≠ n ∧ u' ≠ u)).
Proof.
  intros Hok. unfold SEng.insert_pool. apply spec_self.
  destruct (tbl_insert_ok (SEng.pools e) n u p Hok) as (t' & E & Hm). eapply spec_ok; [exact E|].
  apply spec_modify. split_and!; [done|done|by eapply insert_maps_ok|]. intros. by eapply insert_maps_entry.
Qed.

Lemma get_by_uuid_entry (t : Pools) u : is_Some (Tbl.get_by_uuid t u) ↔ ∃ n p, entry t n u p.
Proof. unfold entry, Tbl.get_by_uuid. split; [intros [[n p] E]; eauto|intros (n & p & ->); eauto]. Qed.

(** An entry added under a name and a UUID that are not in use displaces none. *)
Lemma fresh_entry (t : Pools) n u : table_ok t → Tbl.get_by_name t n = None → Tbl.get_by_uuid t u = None →
  ∀ n' u' p', entry t n' u' p' → n' ≠ n ∧ u' ≠ u.
Proof.
  intros Hok Hn Hu n' u' p' He. split; intros ->.
  - by rewrite (proj2 (get_by_name_ok _ _ _ _ Hok) He) in Hn.
  - unfold Tbl.get_by_uuid, entry in *. by rewrite He in Hu.
Qed.

Lemma running_status (t : Pools) l u : is_Some (Tbl.get_by_uuid t u) → status_of t l u = Running.
Proof. unfold status_of. by intros [x ->]. Qed.

(** what an event does to the engine *)
Definition transition e e' (o : option (Str * Z * StratPool)) : Prop :=
  engine_ok e' ∧ (∀ u, moves (pool_status e u) (pool_status e' u)) ∧
  (∃ u0, ∀ u, u ≠ u0 → pool_status e' u = pool_status e u) ∧
  (∀ n u p, entry (SEng.pools e') n u p ↔ entry (SEng.pools e) n u p ∨ o = Some (n, u, p)) ∧
  (∀ n u p, o = Some (n, u, p) → pool_status e u = Unknown ∨ pool_status e u = Waiting).

Lemma idle_transition e e' u : engine_ok e → SEng.pools e' = SEng.pools e →
  evaluated (SEng.pools e) u (SEng.liminal_devices e) (Ok None) (SEng.liminal_devices e') → transition e e' None.
Proof.
  intros [Ht Hl Hr] Ep (Hl1 & Hs & Hm & Hrun). unfold transition, pool_status. rewrite Ep. split_and!.
  - split; [by rewrite Ep|done|]. rewrite Ep. intros v Hv. destruct (decide (v = u)) as [->|Hne].
    + rewrite Hrun by done. by apply Hr.
    + destruct (Hs v Hne) as [E1 E2]. unfold absent. rewrite E1, E2. by apply Hr.
  - intros v. destruct (decide (v = u)) as [->|Hne]; [done|]. rewrite (status_same _ _ _ _ _ Hs Hne). constructor.
  - exists u. intros v Hne. by eapply status_same.
  - naive_solver.
  - done.
Qed.

(** a pool added: the statuses *)
Lemma added_status (t t' : Pools) l l' n u p : same_but u l l' →
  (∀ n' u' p', entry t' n' u' p' ↔ entry t n' u' p' ∨ Some (n, u, p) = Some (n', u', p')) →
  status_of t' l' u = Running ∧ ∀ v, v ≠ u → status_of t' l' v = status_of t l v.
Proof.
  intros Hs He. split; [apply running_status, get_by_uuid_entry; exists n, p; apply He; by right|].
  intros v Hv. rewrite <- (status_same t _ _ _ _ Hs Hv). unfold status_of.
  assert (is_some (Tbl.get_by_uuid t' v) = is_some (Tbl.get_by_uuid t v)) as ->; [|done].
  unfold Tbl.get_by_uuid. destruct (items t' !! v) as [[n' p']|] eqn:E2, (items t !! v) as [[n2 p2]|] eqn:E1; try done.
  - destruct (proj1 (He n' v p') E2) as [Hx|?]; simplify_eq. unfold entry in Hx. by rewrite E1 in Hx.
  - pose proof (proj2 (He n2 v p2) (or_introl E1)) as Hx. unfold entry in Hx. by rewrite E2 in Hx.
Qed.

Lemma start_transition e e' n u p : engine_ok e → table_ok (SEng.pools e') →
  evaluated (SEng.pools e) u (SEng.liminal_devices e) (Ok (Some (u, n, p))) (SEng.liminal_devices e') →
  (∀ n' u' p', entry (SEng.pools e') n' u' p' ↔
      (n', u', p') = (n, u, p) ∨ (entry (SEng.pools e) n' u' p' ∧ n' ≠ n ∧ u' ≠ u)) →
  transition e e' (Some (n, u, p)).
Proof.
  intros [Ht Hl Hr] Ht2 (_ & Hl1 & Hs & Ha & Hn & Hm & Hu) He2.
  pose proof (fresh_entry _ n u Ht Hn Hu) as Hfr.
  assert (∀ n' u' p', entry (SEng.pools e') n' u' p' ↔ entry (SEng.pools e) n' u' p' ∨ Some (n, u, p) = Some (n', u', p')) as He
    by (intros n' u' p'; rewrite He2; naive_solver).
  destruct (added_status _ _ _ _ n u p Hs He) as [Hrun Hoth]. split_and!.
  - split; [done|done|]. intros v Hv. apply get_by_uuid_entry in Hv as (n' & p' & [Hv|[= <- <- <-]]%He); [|done].
    destruct (decide (v = u)) as [->|Hne]; [done|]. destruct (Hs v Hne) as [E1 E2]. unfold absent. rewrite E1, E2.
    apply Hr, get_by_uuid_entry. eauto.
  - intros v. unfold pool_status. destruct (decide (v = u)) as [->|Hne]; [by rewrite Hrun|rewrite Hoth by done; constructor].
  - exists u. exact Hoth.
  - done.
  - intros ??? [= <- <- <-]. fold (pool_status e u) in Hm. destruct (pool_status e u) eqn:Ex; auto; [by inversion Hm|].
    unfold pool_status, status_of in Ex. rewrite Hu in Ex. cbn in Ex. by repeat case_match.
Qed.

Lemma handle_event_run e ev : engine_ok e →
  spec e (SEng.handle_event choose ev) (λ r e',
    match r with
    | Ok o => transition e e' o
    | Err _ => False
    | Panic w => ∃ u, setup_panics (SEng.pools e) u w
    end).
Proof.
  intros Hok. unfold SEng.handle_event. apply spec_self.
  eapply (spec_bind _ _ _ (λ r e1, SEng.pools e1 = SEng.pools e ∧
    ∃ u, evaluated (SEng.pools e) u (SEng.liminal_devices e) r (SEng.liminal_devices e1))).
  { intros s. pose proof (block_evaluated (SEng.pools e) _ ev (e_liminal _ Hok) s) as Hb. unfold focus.
    by destruct (LD.block_evaluate _ _ _ _) as [r [l' s']]. }
  2:{ intros er h' (_ & u & Hx). done. }
  2:{ intros w h' (_ & u & Hx). by exists u. }
  intros o e1 (Ep & u & Hx). destruct o as [[[v n] p]|].
  - assert (v = u) as -> by apply Hx.
    eapply spec_bind; [apply insert_pool_run; rewrite Ep; apply Hok| |by intros ? ? [? _]..].
    intros [] e2 (_ & El & Ht2 & He2). apply spec_self.
    eapply spec_ok; [unfold Tbl.get_by_uuid; by rewrite (proj2 (He2 n u p) (or_introl eq_refl))|]. apply spec_ret.
    rewrite Ep in He2. apply start_transition; [done|done|by rewrite El|done].
  - apply spec_ret. by eapply idle_transition.
Qed.

(** C3: A udev event, whatever it says and whatever calls fail, makes at most one pool run: one that was
    unknown or waiting for devices, under a name no pool has; every pool running before runs after, with its name and state;
    hopeless sets of devices stay hopeless; the waiting, hopeless and running
    pools stay disjoint and the waiting sets consistent.  The handler returns no error, and
    panics only where setting up the pool itself does: its own assertions never fail. *)
Theorem event_transitions e ev : engine_ok e →
  spec e (SEng.handle_event choose ev) (λ r e',
    match r with
    | Ok o => engine_ok e' ∧ (∀ u, moves (pool_status e u) (pool_status e' u)) ∧
        (∃ u0, ∀ u, u ≠ u0 → pool_status e' u = pool_status e u) ∧
        (∀ n u p, entry (SEng.pools e') n u p ↔ entry (SEng.pools e) n u p ∨ o = Some (n, u, p)) ∧
        (∀ n u p, o = Some (n, u, p) → pool_status e u = Unknown ∨ pool_status e u = Waiting)
    | Err _ => False
    | Panic w => ∃ u, setup_panics (SEng.pools e) u w
    end).
Proof. apply handle_event_run. Qed.

(** ** Requests that change the table *)

(** the name [n] is listed for the pool [u] *)
Definition listed e (n : Str) (u : Z) : Prop := ∃ p, entry (SEng.pools e) n u p.

Lemma listed_fun e n n' u : listed e n u → listed e n' u → n = n'.
Proof. intros [p Hp] [p' Hp']. unfold entry in *. by simplify_eq. Qed.
Lemma listed_inj e n u u' : table_ok (SEng.pools e) → listed e n u → listed e n u' → u = u'.
Proof. intros Hok [p Hp] [p' Hp']. by apply (ok_inj _ n u u' p p' Hok). Qed.

Lemma take_pool_run e n u p : table_ok (SEng.pools e) → entry (SEng.pools e) n u p →
  spec e (SEng.take_pool u) (λ r e', r = Ok (n, p) ∧ SEng.liminal_devices e' = SEng.liminal_devices e ∧
    table_ok (SEng.pools e') ∧ ∀ m v q, entry (SEng.pools e') m v q ↔ entry (SEng.pools e) m v q ∧ v ≠ u).
Proof.
  intros Hok Hin. unfold SEng.take_pool. apply spec_self.
  pose proof (remove_by_uuid_ok (SEng.pools e) u Hok) as Hrm. destruct (Tbl.remove_by_uuid _ u) as [o t].
  destruct Hrm as (Ht & -> & He). apply spec_modify_bind. unfold Tbl.get_by_uuid. rewrite Hin. intros s. by split_and!.
Qed.

(** An entry taken out and put back under a name that is free: only its name changed. *)
Lemma put_back_run e n u p e1 m q : table_ok (SEng.pools e) → entry (SEng.pools e) n u p →
  table_ok (SEng.pools e1) → SEng.liminal_devices e1 = SEng.liminal_devices e →
  (∀ m v q, entry (SEng.pools e1) m v q ↔ entry (SEng.pools e) m v q ∧ v ≠ u) →
  (∀ v, listed e m v → v = u) →
  spec e1 (SEng.insert_pool m u q) (λ r e', r = Ok tt ∧ SEng.liminal_devices e' = SEng.liminal_devices e ∧
    table_ok (SEng.pools e') ∧ entry (SEng.pools e') m u q ∧
    ∀ n' v, listed e' n' v ↔ (n' = m ∧ v = u) ∨ (listed e n' v ∧ v ≠ u)).
Proof.
  intros Hok Hin Hok1 El He1 Hm. eapply spec_mono; [by apply insert_pool_run|].
  intros r e' (-> & El' & Hok' & He'). split_and!; [done|congruence|done|apply He'; by left|].
  intros n' v. unfold listed. setoid_rewrite He'. setoid_rewrite He1. split.
  - intros (p' & [[= -> -> ->]|((Hx & Hv) & Hn' & _)]); [by left|right; eauto].
  - intros [[-> ->]|[[p' Hp'] Hv]]; [eexists; by left|]. exists p'. right. split_and!; [done..| |done].
    intros ->. apply Hv, Hm. by exists p'.
Qed.

(** the method of a pool panics, on some pool *)
Definition method_panics {A} (m : obj StratPool A) (w : string) : Prop := ∃ p s x, m (p, s) = (Panic w, x).

Lemma on_taken_run {A} e (p : StratPool) (m : obj StratPool A) :
  spec e (SEng.on_taken p m) (λ r e', e' = e ∧ (∀ er, r ≠ Err er) ∧ ∀ w, r = Panic w → method_panics m w).
Proof.
  intros s. unfold SEng.on_taken. destruct (m (p, s)) as [[a|er|w] [p' s']] eqn:E; split_and!; try done.
  intros w' [= <-]. by exists p, s, (p', s').
Qed.

Lemma udev_pool_change_ok (p : StratPool) n s : ∃ s', SPool.udev_pool_change p n s = (Ok tt, s').
Proof.
  unfold SPool.udev_pool_change. generalize (Tbl.iter (TP.filesystems (SPool.thin_pool p))). intros l. revert s.
  induction l as [|[[fn fu] fs] l IH]; intros s; [by exists s|]. cbn. unfold udev_fs_change, ibind, itry, iret.
  destruct (dm _ s) as [[a|er|w] s1] eqn:E; [apply IH|apply IH|].
  exfalso. unfold dm in E. by destruct (udev_change_event _ _ _ _ _) as [[]].
Qed.

(** what a request left of the table *)
Definition same_list e e' : Prop := ∀ n v, listed e' n v ↔ listed e n v.

Definition destroyed e (u : Z) (r : res (DeleteAction Z)) e' : Prop :=
  SEng.liminal_devices e' = SEng.liminal_devices e ∧
  match r with
  | Ok DAIdentity => e' = e ∧ ∀ n, ¬ listed e n u
  | Ok (DADeleted v) => v = u ∧ table_ok (SEng.pools e') ∧ (∃ n, listed e n u) ∧ ∀ n v, listed e' n v ↔ listed e n v ∧ v ≠ u
  | Err _ => table_ok (SEng.pools e') ∧ same_list e e'
  | Panic w => method_panics SPool.destroy w
  end.

Lemma destroy_run e u : table_ok (SEng.pools e) → spec e (SEng.destroy_pool u) (destroyed e u).
Proof.
  intros Hok. unfold SEng.destroy_pool. apply spec_self. destruct (Tbl.get_by_uuid (SEng.pools e) u) as [[n p]|] eqn:Eu.
  2:{ apply spec_ret. split_and!; try done. intros n [p Hp]. unfold Tbl.get_by_uuid, entry in *. by rewrite Hp in Eu. }
  assert (entry (SEng.pools e) n u p) as Hin by done.
  destruct (SPool.has_filesystems p); [by apply spec_err|].
  eapply spec_bind; [by apply take_pool_run| |by intros ?? [? _]|by intros ?? [? _]].
  intros np e1 ([= ->] & El & Hok1 & He1). eapply spec_bind; [apply on_taken_run| |by intros er ? (_ & Hne & _); destruct (Hne er)|].
  2:{ intros w e2 (-> & _ & Hp). split; [done|]. by apply Hp. }
  intros [[er|[]] q] e2 (-> & _ & _); cbn beta iota.
  - eapply spec_bind; [eapply (put_back_run e n u p e1 n q)| |by intros ?? [? _]..]; try done.
    { intros v Hv. apply (listed_inj e n v u Hok Hv). by exists p. }
    intros [] e3 (_ & El3 & Hok3 & _ & Hl). apply spec_err. split_and!; [done|done|]. intros n' v. rewrite Hl.
    split; [intros [[-> ->]|[? _]]; [by exists p|done]|]. intros Hv. destruct (decide (v = u)) as [->|Hne]; [|by right].
    left. split; [|done]. eapply listed_fun; [done|by exists p].
  - apply spec_ret. split_and!; [done|done|done|exists n; by exists p|]. intros n' v. unfold listed. setoid_rewrite He1. naive_solver.
Qed.

Definition renamed e (u : Z) (new_name : Str) (r : res (RenameAction Z)) e' : Prop :=
  SEng.liminal_devices e' = SEng.liminal_devices e ∧
  match r with
  | Ok RAIdentity => e' = e ∧ listed e new_name u
  | Ok RANoSource => e' = e ∧ ∀ n, ¬ listed e n u
  | Ok (RARenamed v) => v = u ∧ table_ok (SEng.pools e') ∧
      (∃ n, listed e n u ∧ n ≠ new_name) ∧ (∀ v, ¬ listed e new_name v) ∧
      ∀ n v, listed e' n v ↔ (n = new_name ∧ v = u) ∨ (listed e n v ∧ v ≠ u)
  | Err _ => table_ok (SEng.pools e') ∧ same_list e e'
  | Panic w => method_panics (SPool.write_metadata choose new_name) w
  end.

Lemma rename_run e u new_name : table_ok (SEng.pools e) → spec e (SEng.rename_pool choose u new_name) (renamed e u new_name).
Proof.
  intros Hok. unfold SEng.rename_pool. apply spec_lift; [|by intros er|by intros w; unfold validate_name; repeat case_match].
  intros _ _. apply spec_self. unfold rename_pre_idem. destruct (Tbl.get_by_uuid (SEng.pools e) u) as [[n p]|] eqn:Eu.
  2:{ intros s. split_and!; try done. intros n [p Hp]. unfold Tbl.get_by_uuid, entry in *. by rewrite Hp in Eu. }
  assert (entry (SEng.pools e) n u p) as Hin by done. assert (listed e n u) as Hl0 by by exists p.
  case_bool_decide as Hn; [subst; by intros s|].
  destruct (Tbl.contains_name (SEng.pools e) new_name) eqn:Ec; [by intros s|].
  assert (∀ v, ¬ listed e new_name v) as Hfree.
  { intros v [q Hq]. apply not_true_iff_false in Ec. apply Ec, contains_name_ok; eauto. }
  eapply spec_bind; [by apply take_pool_run| |by intros ?? [? _]|by intros ?? [? _]].
  intros np e1 ([= ->] & El & Hok1 & He1). eapply spec_bind; [apply on_taken_run| |by intros er ? (_ & Hne & _); destruct (Hne er)|].
  2:{ intros w e2 (-> & _ & Hp). split; [done|]. by apply Hp. }
  intros [[er|[]] q] e2 (-> & _ & _); cbn beta iota.
  - eapply spec_bind; [eapply (put_back_run e n u p e1 n q)| |by intros ?? [? _]..]; try done.
    { intros v Hv. by apply (listed_inj e n v u Hok Hv). }
    intros [] e3 (_ & El3 & Hok3 & _ & Hl). apply spec_err. split_and!; [done|done|]. intros n' v. rewrite Hl.
    split; [by intros [[-> ->]|[? _]]|]. intros Hv. destruct (decide (v = u)) as [->|Hne]; [|by right].
    left. split; [|done]. by eapply listed_fun.
  - eapply spec_bind; [eapply (put_back_run e n u p e1 new_name q)| |by intros ?? [? _]..]; try done.
    { intros v Hv. by destruct (Hfree v). }
    intros [] e3 (_ & El3 & Hok3 & Hin3 & Hl). apply spec_self. eapply spec_ok; [unfold Tbl.get_by_uuid; by rewrite Hin3|].
    cbn beta iota. apply spec_sys_any.
    + intros a s s' _. apply spec_ret. split_and!; try done. by exists n.
    + intros er s s' E. destruct (udev_pool_change_ok q new_name s) as [s1 E1]. by rewrite E in E1.
    + intros w s s' E. destruct (udev_pool_change_ok q new_name s) as [s1 E1]. by rewrite E in E1.
Qed.

(** ** The initial scan *)

(** every info is filed under its pool *)
Definition filed {A} (pool_of : A → Z) (m : gmap Z (list A)) : Prop :=
  ∀ u l x, m !! u = Some l → x ∈ l → pool_of x = u.

Lemma filed_push {A} (pool_of : A → Z) x m : filed pool_of m → filed pool_of (push (pool_of x) x m).
Proof.
  intros Hm u l y. unfold push. destruct (decide (u = pool_of x)) as [->|Hne].
  - rewrite lookup_insert_eq. intros [= <-] [Hy|Hy%list_elem_of_singleton]%elem_of_app; [|by subst].
    destruct (m !! pool_of x) eqn:E; [by eapply Hm|by apply elem_of_nil in Hy].
  - rewrite lookup_insert_ne by done. apply Hm.
Qed.
Lemma find_each_filed {A} (identify : UdevEngineDevice → sys (option A)) pool_of devs acc s r s' :
  filed pool_of acc → find_each identify pool_of devs acc s = (Ok r, s') → filed pool_of r.
Proof.
  revert acc s. induction devs as [|d devs IH]; intros acc s Hf; [by intros [= <- <-]|].
  intros E. apply bind_inv in E as (o & s1 & _ & E). eapply IH; [|exact E]. destruct o; [by apply filed_push|done].
Qed.

Definition luks_pool (i : LuksInfo) : Z := pool_uuid (si_identifiers (li_info i)).
Definition stratis_pool (i : StratisInfo) : Z := pool_uuid (si_identifiers i).

Lemma find_all_filed s luks stratis s' : find_all s = (Ok (luks, stratis), s') → filed luks_pool luks ∧ filed stratis_pool stratis.
Proof.
  unfold find_all, find_all_luks_devices, find_all_stratis_devices. intros E.
  apply bind_inv in E as (l & s1 & E1 & E). apply bind_inv in E as (t & s2 & E2 & E). injection E as -> -> _.
  apply bind_inv in E1 as (? & ? & _ & E1), E2 as (? & ? & _ & E2).
  split; [eapply (find_each_filed _ luks_pool); [|exact E1]|eapply (find_each_filed _ stratis_pool); [|exact E2]];
    intros ???; by rewrite lookup_empty.
Qed.

Lemma pool_infos_of luks stratis u : filed luks_pool luks → filed stratis_pool stratis →
  Forall (of_pool u) (LD.pool_infos luks stratis u).
Proof.
  intros Hl Hs. unfold LD.pool_infos. apply Forall_app. split; apply Forall_fmap, Forall_forall; intros x Hx; unfold of_pool; cbn.
  - destruct (stratis !! u) eqn:E; [by eapply Hs|by apply elem_of_nil in Hx].
  - destruct (luks !! u) eqn:E; [by eapply Hl|by apply elem_of_nil in Hx].
Qed.

Lemma add_popped_ok u infos ds : Forall (of_pool u) infos → set_ok u ds →
  match LD.add_popped infos ds with Ok (inr ds') => set_ok u ds' | Ok (inl _) => True | _ => False end.
Proof.
  intros Hall. revert ds. induction Hall as [|x infos Hx _ IH]; intros ds Hds; [done|]. cbn.
  pose proof (set_add_ok u ds x Hds (of_pool_ids _ _ Hx)) as Ha.
  destruct (DSet.process_info_add ds x) as [[b|ds']|?|?]; try done. apply IH, Ha.
Qed.

Lemma scan_pool_settled luks stratis u l : filed luks_pool luks → filed stratis_pool stratis →
  absent u l → liminal_ok l → spec l (LD.scan_pool choose luks stratis u) (settled Tbl.default u l).
Proof.
  intros Hl Hs Ha Hok. unfold LD.scan_pool. apply spec_self. rewrite (proj2 Ha). cbn [is_some].
  pose proof (add_popped_ok u (reverse (LD.pool_infos luks stratis u)) DSet.new) as Hadd.
  destruct (LD.add_popped _ _) as [[b|ds]|?|?]; try (exfalso; apply Hadd; [by apply Forall_reverse, pool_infos_of|apply set_ok_empty]);
    (eapply spec_ok; [done|]).
  - apply spec_modify_bind, spec_ret. split; [apply hopeless_ok; [done|apply Ha]|]. split; [same_but_auto|apply not_absent_hopeless].
  - apply try_setup_settled; [done..|]. apply Hadd; [by apply Forall_reverse, pool_infos_of|apply set_ok_empty].
Qed.

(** what the scan of the pools [us] gives *)
Definition scanned (us : list Z) (l : LiminalDevices) (r : res (list (Str * Z * StratPool))) (l' : LiminalDevices) : Prop :=
  match r with
  | Ok ps => liminal_ok l' ∧ (∀ u, u ∉ us → absent u l → absent u l') ∧
      ∀ n u p, (n, u, p) ∈ ps → u ∈ us ∧ absent u l'
  | Err _ => False
  | Panic w => ∃ u, setup_panics Tbl.default u w
  end.

Lemma setup_each_run luks stratis us l : filed luks_pool luks → filed stratis_pool stratis → NoDup us →
  (∀ u, u ∈ us → absent u l) → liminal_ok l → spec l (LD.setup_each choose luks stratis us) (scanned us l).
Proof.
  intros Hl Hs Hnd. revert l. induction Hnd as [|u us Hu Hnd IH]; intros l Ha Hok; cbn.
  { apply spec_ret. split_and!; [done|done|]. by intros n u p ?%elem_of_nil. }
  eapply spec_bind; [by apply scan_pool_settled; [| |apply Ha; left|]| |done|by intros w l' ?; exists u].
  intros o l1 Hset. assert (liminal_ok l1 ∧ same_but u l l1) as [Hok1 Hs1] by (destruct o as [[]|]; split; apply Hset).
  assert (∀ v, v ≠ u → absent v l → absent v l1) as Hab1.
  { intros v Hv. unfold absent. by destruct (Hs1 v Hv) as [-> ->]. }
  eapply spec_bind; [apply IH; [|done]| |done|done].
  { intros v Hv. apply Hab1; [by intros ->|apply Ha; by right]. }
  intros ps l2 (Hok2 & Hab2 & Hps). apply spec_ret. split; [done|]. split.
  { intros v [Hv ?]%not_elem_of_cons Hva. apply Hab2; [done|]. by apply Hab1. }
  assert (∀ n v p, (n, v, p) ∈ ps → v ∈ u :: us ∧ absent v l2) as Hps'.
  { intros n v p Hin. destruct (Hps n v p Hin). split; [by right|done]. }
  destruct o as [[n p]|]; [|done]. intros n' v p' [[= -> -> ->]|Hin]%elem_of_cons; [|by eapply Hps'].
  split; [by left|]. apply Hab2; [done|]. apply Hset.
Qed.

Lemma insert_all_run ps (t : Pools) : table_ok t →
  ∃ t', SEng.insert_all ps t = Ok t' ∧ table_ok t' ∧
    ∀ n u p, entry t' n u p → entry t n u p ∨ (n, u, p) ∈ ps.
Proof.
  revert t. induction ps as [|[[n u] p] ps IH]; intros t Hok; cbn; [exists t; auto|].
  destruct (tbl_insert_ok t n u p Hok) as (t1 & -> & Hm). cbn.
  destruct (IH t1) as (t' & -> & Hok' & He); [by eapply insert_maps_ok|]. exists t'. split_and!; [done..|].
  intros n' u' p' [Hin|Hin]%He; [|right; by right]. apply (insert_maps_entry _ _ _ _ _ n' u' p' Hok Hm) in Hin as [[= -> -> ->]|[? _]]; [right; by left|by left].
Qed.

Lemma engine_initialize_ok s e s' : SEng.initialize choose s = (Ok e, s') → engine_ok e.
Proof.
  unfold SEng.initialize. intros E. apply bind_inv in E as (? & s1 & _ & E). apply bind_inv in E as ([luks stratis] & s2 & Ef & E).
  apply find_all_filed in Ef as [Hl Hs]. cbn beta iota in E.
  pose proof (setup_each_run luks stratis (elements (dom luks ∪ dom stratis)) LD.LiminalDevices_default Hl Hs (NoDup_elements _)) as Hrun.
  specialize (Hrun ltac:(done) ltac:(by split) s2). unfold LD.setup_pools in E.
  destruct (LD.setup_each _ _ _ _ _) as [r [l s3]]. destruct r as [ps|?|?]; [|done..]. destruct Hrun as (Hok & _ & Hps).
  destruct (insert_all_run ps Tbl.default table_ok_default) as (t & Et & Ht & He).
  unfold ilift, ibind in E. rewrite Et in E. destruct (MemoryFilesystem_new s3) as [[[]|?|?] s4]; [|done..]. injection E as <- _.
  split; cbn; [done|done|]. intros u (n & p & Hin%He)%get_by_uuid_entry. destruct Hin as [Hin|Hin]; [by unfold entry in Hin|by eapply Hps].
Qed.

(** ** Requests *)

(** methods that keep the table consistent, the liminal devices as they are, and add no pool *)
Definition no_new e0 e : Prop :=
  table_ok (SEng.pools e) ∧ SEng.liminal_devices e = SEng.liminal_devices e0 ∧
  ∀ u, is_Some (Tbl.get_by_uuid (SEng.pools e) u) → is_Some (Tbl.get_by_uuid (SEng.pools e0) u).

Lemma no_new_ok e0 e : engine_ok e0 → no_new e0 e → engine_ok e.
Proof. intros [Ht Hl Hr] (Ht' & El & Hn). split; rewrite ?El; auto. intros u Hu. by apply Hr, Hn. Qed.
Lemma listed_is_some e u : is_Some (Tbl.get_by_uuid (SEng.pools e) u) ↔ ∃ n, listed e n u.
Proof. apply get_by_uuid_entry. Qed.

Lemma on_pool_run {A} e0 e u (m : Str → obj StratPool A) : no_new e0 e → spec e (SEng.on_pool u m) (λ _ e', no_new e0 e').
Proof.
  intros (Ht & El & Hn) s. unfold SEng.on_pool, Tbl.get_mut_by_uuid. destruct (items (SEng.pools e) !! u) as [[n p]|] eqn:E; [|done].
  cbn. destruct (m n (p, s)) as [r [p' s']]. destruct (set_item_ok (SEng.pools e) n u p p' Ht E) as [Ht' He].
  split_and!; [done|done|]. cbn. intros v (n' & q & [[= -> -> ->]|[Hv _]]%He)%get_by_uuid_entry; apply Hn; [by eexists|].
  apply get_by_uuid_entry. eauto.
Qed.

Lemma event_each_run e0 e dl us : keep (no_new e0) e (SEng.event_each choose dl us).
Proof.
  revert e. induction us as [|u us IH]; intros e; cbn; [apply keep_ret|]. apply keep_self.
  destruct (Tbl.get_by_uuid (SEng.pools e) u) as [[n p]|]; [|apply IH]. apply keep_lift_bind. intros names _.
  apply keep_bind; [|intros; apply keep_bind; [|intros; apply IH]].
  - destruct (bool_decide _); [|apply keep_ret]. apply keep_bind; [|intros; apply keep_ret]. intros HI. by apply on_pool_run.
  - apply keep_modify. intros (? & ? & ?). by split_and!.
Qed.

(** A request of the engine's interface. *)
Inductive request :=
| RqEvent (ev : UdevEngineEvent)
| RqCreate (name : Str) (paths : list Str) (redundancy : option Z) (enc : EncryptionInfo)
| RqDestroy (uuid : Z)
| RqRename (uuid : Z) (new_name : Str)
| RqUnlock (uuid : Z) (m : UnlockMethod)
| RqPool (uuid : Z) (op : Str → obj StratPool unit)
| RqEvented.

Definition run_request (r : request) : obj StratEngine (option Z) :=
  match r with
  | RqEvent ev => let! _ := SEng.handle_event choose ev in iret None
  | RqCreate name paths redundancy enc =>
      let! a := SEng.create_pool choose name paths redundancy enc in
      iret (match a with CACreated u => Some u | CAIdentity => None end)
  | RqDestroy uuid => let! _ := SEng.destroy_pool uuid in iret None
  | RqRename uuid new_name => let! _ := SEng.rename_pool choose uuid new_name in iret None
  | RqUnlock uuid m => let! _ := SEng.unlock_pool uuid m in iret None
  | RqPool uuid op => let! _ := SEng.on_pool uuid op in iret None
  | RqEvented => let! _ := SEng.evented choose in iret None
  end.

(** One request was handled without a panic; the UUID of a pool it created (a random one) is
    not that of a pool whose devices are waiting. *)
Inductive served : StratEngine * Sys → StratEngine * Sys → Prop :=
| served_by rq e s r e' s' :
    run_request rq (e, s) = (r, (e', s')) → (∀ w, r ≠ Panic w) →
    (∀ u, r = Ok (Some u) → absent u (SEng.liminal_devices e)) →
    served (e, s) (e', s').

Lemma create_run e name paths redundancy enc : table_ok (SEng.pools e) →
  spec e (SEng.create_pool choose name paths redundancy enc) (λ r e',
    table_ok (SEng.pools e') ∧ SEng.liminal_devices e' = SEng.liminal_devices e ∧
    ∀ u, is_Some (Tbl.get_by_uuid (SEng.pools e') u) →
      is_Some (Tbl.get_by_uuid (SEng.pools e) u) ∨ r = Ok (CACreated u)).
Proof.
  intros Hok. unfold SEng.create_pool.
  assert (∀ r, table_ok (SEng.pools e) ∧ SEng.liminal_devices e = SEng.liminal_devices e ∧
    ∀ u, is_Some (Tbl.get_by_uuid (SEng.pools e) u) → is_Some (Tbl.get_by_uuid (SEng.pools e) u) ∨ r = Ok (CACreated u)) as Hsame.
  { intros r. split_and!; auto. }
  do 3 (apply spec_lift; [intros ? _|intros; apply Hsame|intros w; unfold calculate_redundancy, validate_name, validate_paths; repeat case_match; done]).
  apply spec_self. destruct (Tbl.get_by_name (SEng.pools e) name) as [[? pool]|]; [intros s; apply Hsame|].
  destruct paths as [|p0 paths]; [by apply spec_err|]. apply spec_sys_any; [|intros; apply Hsame|intros; apply Hsame].
  intros [u pool] s s' _. eapply spec_bind; [by apply insert_pool_run| |by intros ?? [? _]|by intros ?? [? _]].
  intros [] e' (_ & El & Ht & He). apply spec_ret. split_and!; [done|done|].
  intros v (n & p & [[= -> -> ->]|[Hv _]]%He)%get_by_uuid_entry; [by right|left]. apply get_by_uuid_entry. eauto.
Qed.

Lemma no_new_listed e e' : table_ok (SEng.pools e') → SEng.liminal_devices e' = SEng.liminal_devices e →
  (∀ n v, listed e' n v → ∃ n', listed e n' v) → no_new e e'.
Proof. intros Ht El Hl. split_and!; [done|done|]. intros v (n & Hn)%listed_is_some. apply listed_is_some. eauto. Qed.
Lemma destroyed_no_new e u r e' : table_ok (SEng.pools e) → destroyed e u r e' → (∀ w, r ≠ Panic w) → no_new e e'.
Proof.
  intros Ht [El HQ] Hp. destruct r as [[|v]|er|w]; [destruct HQ as [-> _]; by split_and!| | |by destruct (Hp w)].
  - destruct HQ as (_ & ? & _ & Hl). apply no_new_listed; [done..|]. intros n x [? _]%Hl. eauto.
  - destruct HQ as [? Hl]. apply no_new_listed; [done..|]. intros n x ?%Hl. eauto.
Qed.
Lemma renamed_no_new e u m r e' : table_ok (SEng.pools e) → renamed e u m r e' → (∀ w, r ≠ Panic w) → no_new e e'.
Proof.
  intros Ht [El HQ] Hp. destruct r as [[|v|]|er|w]; [destruct HQ as [-> _]; by split_and!| |destruct HQ as [-> _]; by split_and!| |by destruct (Hp w)].
  - destruct HQ as (_ & ? & (k & Hk & _) & _ & Hl). apply no_new_listed; [done..|]. intros n x [[-> ->]|[? _]]%Hl; eauto.
  - destruct HQ as [? Hl]. apply no_new_listed; [done..|]. intros n x ?%Hl. eauto.
Qed.
Lemma unlock_run e u m : spec e (SEng.unlock_pool u m) (λ _ e', e' = e).
Proof.
  unfold SEng.unlock_pool. apply spec_self. intros s0. unfold ibind, lift_sys. by destruct (LD.unlock_pool _ _ _ _ s0) as [[] ?].
Qed.
Lemma evented_run e0 e : keep (no_new e0) e (SEng.evented choose).
Proof. unfold SEng.evented. keeping. apply event_each_run. Qed.

Lemma rmap_no_panic {A B} (f : A → B) r : (∀ w, rmap f r ≠ Panic w) → ∀ w, r ≠ Panic w.
Proof. intros Hp w ->. by apply (Hp w). Qed.

Lemma served_ok es es' : served es es' → engine_ok es.1 → engine_ok es'.1.
Proof.
  destruct 1 as [rq e s r e' s' E Hp Hf]. cbn. intros Hok. pose proof Hok as [Ht Hl Hr].
  assert (no_new e e) as Hrefl by by split_and!.
  destruct rq as [ev|n ps rd enc|u|u n|u m|u op|]; cbn [run_request] in E.
  - eapply spec_run_map in E as (r0 & -> & HQ); [|by apply handle_event_run]. destruct r0 as [o|?|w]; [apply HQ|done|by destruct (Hp w)].
  - eapply spec_run_map in E as (r0 & -> & HQ); [|by apply create_run]. destruct HQ as (Ht' & El & Hn). split; [done|by rewrite El|]. rewrite El.
    intros v Hv. destruct (Hn v Hv) as [Hv'| ->]; [by apply Hr|by apply Hf].
  - eapply spec_run_map in E as (r0 & -> & HQ); [|by apply destroy_run]. eapply no_new_ok; [done|].
    eapply destroyed_no_new; [done..|by eapply rmap_no_panic].
  - eapply spec_run_map in E as (r0 & -> & HQ); [|by apply rename_run]. eapply no_new_ok; [done|].
    eapply renamed_no_new; [done..|by eapply rmap_no_panic].
  - eapply spec_run_map in E as (r0 & -> & HQ); [|apply unlock_run]. cbn in HQ. by subst.
  - eapply spec_run_map in E as (r0 & -> & HQ); [|by apply (on_pool_run e)]. by eapply no_new_ok.
  - eapply spec_run_map in E as (r0 & -> & HQ); [|by apply (evented_run e e)]. by eapply no_new_ok.
Qed.

(** C2: The engine's bookkeeping, from the initial scan on through any sequence of events and requests, whatever fails: the
    table of pools is consistent (one name and one UUID per pool), no pool is running and waiting, or waiting and
    hopeless, at the same time, and the devices waiting for a pool carry its UUID and agree on their encryption. *)
Theorem engine_invariant s0 e0 s1 e s : SEng.initialize choose s0 = (Ok e0, s1) → rtc served (e0, s1) (e, s) →
  table_ok (SEng.pools e) ∧
  (∀ u, is_Some (Tbl.get_by_uuid (SEng.pools e) u) →
     errored_pool_devices (SEng.liminal_devices e) !! u = None ∧ hopeless_device_sets (SEng.liminal_devices e) !! u = None) ∧
  (∀ u ds, errored_pool_devices (SEng.liminal_devices e) !! u = Some ds →
     hopeless_device_sets (SEng.liminal_devices e) !! u = None ∧ set_ok u ds).
Proof.
  intros E Hrun. apply engine_initialize_ok in E.
  assert (engine_ok e) as [Ht [Hs Hd] Hr].
  { remember (e0, s1) as a eqn:Ea. remember (e, s) as b eqn:Eb. assert (engine_ok a.1) as Ha by by subst. clear Ea E.
    assert (engine_ok b.1) as Hb; [|by subst]. clear Eb. induction Hrun as [|x y z Hxy _ IH]; [done|]. by eapply IH, served_ok. }
  split_and!; [done|exact Hr|]. intros u ds Hu. split; [by eapply Hd|by apply Hs].
Qed.

(** Destroying and renaming a pool, whatever fails: destroying removes exactly that pool from the list, renaming gives exactly that
    pool the new name, which no other pool has; when the request fails every pool is still listed
    under its old name; the devices that wait for a pool are not touched; a panic is one of the pool's own methods. *)
Theorem destroy_rename_spec e u new_name : table_ok (SEng.pools e) →
  spec e (SEng.destroy_pool u) (destroyed e u) ∧
  spec e (SEng.rename_pool choose u new_name) (renamed e u new_name).
Proof. intros Hok. split; [by apply destroy_run|by apply rename_run]. Qed.
End engine.

(** ** Witnesses *)

Section examples.
#[local] Existing Instance hex_instance.
#[local] Existing Instance simple_display.
#[local] Existing Instance script_crypt.
#[local] Existing Instance script_dm.
#[local] Existing Instance example_codec.
#[local] Existing Instance dm_lengths.
#[local] Existing Instance any_time.
#[local] Existing Instance crc32c_instance.
#[local] Existing Instance ex_serde.
#[local] Existing Instance example_pool_serde.

(** A device with a valid header, of a pool whose metadata was never written. *)
Definition new_device : File := (SH.write example_header Both blank_device).2.
Definition new_udev : UdevEngineDevice :=
  mkUdev true (Some (str "/dev/sda")) (Some 2048)
    {[str "ID_FS_TYPE" := Some (str "stratis"); str "ID_PART_ENTRY_DISK" := None]}.
Definition boot_sys : Sys :=
  mkSys {[str "/dev/sda" := new_device]} ∅ [] (λ n, Z.of_nat n) (λ n, mkTime (Z.of_nat n) 0) 0.
Definition booted := SEng.initialize first_ones boot_sys.
Definition example_uuid : Z := pool_uuid (identifiers example_header).
Definition add_event : UdevEngineEvent := mkEvent EvAdd new_udev.
Definition empty_engine : SEng.StratEngine := SEng.mkStratEngine Tbl.default LD.LiminalDevices_default ∅.

Lemma empty_engine_ok : engine_ok empty_engine.
Proof. split; [apply table_ok_default|by split|by intros u [x ?]]. Qed.

(** The first device of the pool is found: the pool is waiting now. *)
Lemma event_transitions_witness :
  let '(r, (e', _)) := SEng.handle_event first_ones add_event (empty_engine, boot_sys) in
  pool_status e' example_uuid = Waiting ∧
  match r with
  | Ok o => moves (pool_status empty_engine example_uuid) (pool_status e' example_uuid)
  | _ => False
  end.
Proof.
  pose proof (event_transitions first_ones empty_engine add_event empty_engine_ok boot_sys) as Ht.
  assert (is_ok (SEng.handle_event first_ones add_event (empty_engine, boot_sys)).1 = true) as Hr by (vm_compute; reflexivity).
  assert (pool_status (SEng.handle_event first_ones add_event (empty_engine, boot_sys)).2.1 example_uuid = Waiting) as Hw
    by (vm_compute; reflexivity).
  revert Ht Hr Hw. generalize (SEng.handle_event first_ones add_event (empty_engine, boot_sys)).
  intros [[o|er|w] [e' s']] Ht Hr Hw; [|done..]. split; [exact Hw|]. apply Ht.
Defined.

(** The engine starts, and the device is found. *)
Definition started : SEng.StratEngine := match booted.1 with Ok e => e | _ => empty_engine end.
Definition found := run_request first_ones (RqEvent add_event) (started, booted.2).

Lemma started_ok : SEng.initialize first_ones boot_sys = (Ok started, booted.2).
Proof.
  unfold started. change (SEng.initialize first_ones boot_sys) with booted.
  assert (is_ok booted.1 = true) as Hb by (vm_compute; reflexivity).
  revert Hb. generalize booted. by intros [[e|er|w] s] Hb.
Qed.
Lemma found_result : found.1 = Ok None.
Proof. vm_compute. reflexivity. Qed.
Lemma found_served : served first_ones (started, booted.2) (found.2.1, found.2.2).
Proof.
  assert (run_request first_ones (RqEvent add_event) (started, booted.2) = (found.1, (found.2.1, found.2.2))) as E
    by (change (found = (found.1, (found.2.1, found.2.2))); generalize found; by intros [r [e s]]).
  eapply (served_by first_ones (RqEvent add_event) started booted.2 found.1 found.2.1 found.2.2 E); rewrite found_result; done.
Qed.

Lemma engine_invariant_witness :
  pool_status found.2.1 example_uuid = Waiting ∧ table_ok (SEng.pools found.2.1) ∧
  hopeless_device_sets (SEng.liminal_devices found.2.1) !! example_uuid = None.
Proof.
  assert (pool_status found.2.1 example_uuid = Waiting) as Hw by (vm_compute; reflexivity).
  assert (is_some (errored_pool_devices (SEng.liminal_devices found.2.1) !! example_uuid) = true) as He by (vm_compute; reflexivity).
  destruct (engine_invariant first_ones boot_sys started booted.2 found.2.1 found.2.2 started_ok (rtc_once _ _ found_served))
    as (Ht & _ & Hd).
  split; [exact Hw|]. split; [exact Ht|]. specialize (Hd example_uuid). clear Ht Hw. revert He Hd.
  generalize (SEng.liminal_devices found.2.1). intros l He Hd.
  destruct (errored_pool_devices l !! example_uuid) as [ds|]; [|done]. exact (proj1 (Hd ds eq_refl)).
Defined.

(** An engine with one pool, whose devices cannot be written to: neither request succeeds. *)
Definition one_pool : SEng.StratEngine :=
  SEng.mkStratEngine (mkTable {[str "pool" := 7]} {[7 := (str "pool", ex_spool)]}) LD.LiminalDevices_default ∅.
Lemma one_pool_table : table_ok (SEng.pools one_pool).
Proof.
  intros n u. change (({[str "pool" := 7]} : gmap Str Z) !! n = Some u ↔
    ∃ p, ({[7 := (str "pool", ex_spool)]} : gmap Z (Str * SPool.StratPool)) !! u = Some (n, p)).
  rewrite lookup_singleton_Some. setoid_rewrite lookup_singleton_Some. naive_solver.
Qed.

Lemma destroy_rename_spec_witness :
  let '(r, (e', _)) := SEng.rename_pool first_ones 7 (str "new") (one_pool, ex_new.2.2) in
  let '(r', (e'', _)) := SEng.destroy_pool 7 (one_pool, ex_new.2.2) in
  is_ok r = false ∧ same_list one_pool e' ∧ is_ok r' = false ∧ same_list one_pool e''.
Proof.
  destruct (destroy_rename_spec first_ones one_pool 7 (str "new") one_pool_table) as [Hd Hr].
  specialize (Hd ex_new.2.2). specialize (Hr ex_new.2.2).
  assert (match (SEng.rename_pool first_ones 7 (str "new") (one_pool, ex_new.2.2)).1 with Err _ => true | _ => false end = true) as Er
    by (vm_compute; reflexivity).
  assert (match (SEng.destroy_pool 7 (one_pool, ex_new.2.2)).1 with Err _ => true | _ => false end = true) as Ed
    by (vm_compute; reflexivity).
  revert Hd Hr Er Ed. generalize (SEng.rename_pool first_ones 7 (str "new") (one_pool, ex_new.2.2)).
  generalize (SEng.destroy_pool 7 (one_pool, ex_new.2.2)).
  intros [[?|?|?] [? ?]] [[?|?|?] [? ?]] Hd Hr Er Ed; try done. split; [done|]. split; [apply Hr|]. split; [done|apply Hd].
Defined.

(** At the start the names of the pools found are not compared: of two pools with one name the first is dropped from the table. *)
Lemma startup_name_conflict n u v p q : u ≠ v →
  ∃ t, SEng.insert_all [(n, u, p); (n, v, q)] Tbl.default = Ok t ∧ items t = {[v := (n, q)]}.
Proof.
  intros Hne. unfold SEng.insert_all.
  destruct (tbl_insert_ok (Tbl.default : Table Z SPool.StratPool) n u p table_ok_default) as (t1 & -> & Hm1).
  destruct (tbl_insert_ok t1 n v q (insert_maps_ok _ _ _ _ _ table_ok_default Hm1)) as (t2 & E2 & Hm2).
  cbn. rewrite E2. cbn. exists t2. split; [done|]. destruct Hm1 as [Hn1 Hi1], Hm2 as [_ Hi2].
  apply map_eq. intros x. rewrite Hi2, Hn1, Hi1, (decide_True (P:=n = n)) by done. cbn.
  destruct (decide (x = v)) as [->|Hx]; [by rewrite lookup_singleton_eq|]. rewrite (lookup_singleton_ne v x) by congruence.
  destruct (decide (Some u = Some x)) as [|Hu]; [done|]. by rewrite decide_False by congruence.
Qed.
End examples.
