(* ===== verification/Keys.v ===== *)
(** * Keys in the kernel keyring

    Models [src/engine/strat_engine/keys.rs]: the keys of Stratis in the persistent keyring of the root user.
    The kernel is the class [Keyctl]: a state and the system calls on it.
    A [Vec] is its capacity, and the memory behind it, part of which may not be initialised.
    Texts are passed to the kernel as strings; the buffer sizes are in bytes. *)
From stdpp Require Import base list gmap strings.
From Stdlib Require Import ZArith Lia.
From S2P Require Import Prelude Disk Actions Shared Names.

Definition ENOKEY : Z := 126.
Definition u32_max : Z := 2 ^ 32 - 1.

(** A call returns an error number or a value; [KEYCTL_READ] and [KEYCTL_DESCRIBE] return the length of the whole
    payload or description and what was copied to the buffer of the length given. *)
Class Keyctl : Type := {
  Ring : Type;
  KEYCTL_GET_PERSISTENT : Ring → (Z + Z) * Ring;
  KEYCTL_SEARCH (keyring : Z) (description : Str) : Ring → (Z + Z) * Ring;
  KEYCTL_READ (id len : Z) : Ring → (Z + Z * list Z) * Ring;
  KEYCTL_UPDATE (id : Z) (payload : list Z) : Ring → (Z + unit) * Ring;
  KEYCTL_DESCRIBE (id len : Z) : Ring → (Z + Z * option Str) * Ring;
  KEYCTL_UNLINK (id keyring : Z) : Ring → (Z + unit) * Ring;
  add_key (description : Str) (payload : list Z) (keyring : Z) : Ring → (Z + Z) * Ring;
  (* [SafeMemHandle::alloc] of libcryptsetup may fail *)
  mem_alloc (size : Z) : Ring → bool;
  (* bytes of memory that was never written *)
  uninit : nat → Z;
  (* the capacity a [Vec] of some capacity gets when a greater one is required *)
  grow (capacity required : Z) : Z
}.

(** [SizedKeyMemory]: a buffer and the size of the key in it *)
Record SizedKeyMemory : Type := mkSized { mem : list Z; sk_size : Z }.
(** [&self.mem.as_ref()[..self.size]] *)
Definition sized_ref (self : SizedKeyMemory) : res (list Z) :=
  if sk_size self <=? Z.of_nat (length (mem self)) then Ok (take (Z.to_nat (sk_size self)) (mem self))
  else Panic "range end index out of range for slice".

Section keys.
Context `{Keyctl}.
Definition ring : Type → Type := st Ring.

(** a call whose errors are returned: [Err(io::Error::last_os_error().into())] *)
Definition syscall {A} (c : Ring → (Z + A) * Ring) : ring A := λ r,
  let '(x, r') := c r in (match x with inr a => Ok a | inl _ => Err (Io "last_os_error") end, r').

(** [convert_int!(_, c_long, KeySerial)] *)
Definition KeySerial_from (i : Z) : res Z :=
  if i <=? u32_max then Ok i else Err (Msg "Failed to convert integer from c_long to u32").

(** [CString::new(..)] *)
Definition CString_new (s : Str) : res Str :=
  if bool_decide (0 ∈ s) then Err (Msg "Invalid key description provided") else Ok s.

Definition get_persistent_keyring : ring Z :=
  let! i := syscall KEYCTL_GET_PERSISTENT in ilift (KeySerial_from i).

Definition search_key (keyring_id : Z) (key_desc : KeyDescription) : ring (option Z) :=
  let! cstring := ilift (CString_new (to_system_string key_desc)) in
  λ r,
  let '(x, r') := KEYCTL_SEARCH keyring_id cstring r in
  (match x with
   | inl errno => if errno =? ENOKEY then Ok None else Err (Io "last_os_error")
   | inr key_id => rmap Some (KeySerial_from key_id)
   end, r').

(** memory filled with zeros *)
Definition SafeMemHandle_alloc (size : Z) : ring (list Z) := λ r,
  (if mem_alloc size r then Ok (replicate (Z.to_nat size) 0) else Err (Crypt "SafeMemHandle::alloc"), r).

(** what a call copied to the start of a buffer *)
Definition copied (bytes buf : list Z) : list Z := bytes ++ drop (length bytes) buf.

Definition read_key (keyring_id : Z) (key_desc : KeyDescription) : ring (option (Z * SizedKeyMemory)) :=
  let! key_id_option := search_key keyring_id key_desc in
  match key_id_option with
  | None => iret None
  | Some key_id =>
      let! key_buffer := SafeMemHandle_alloc MAX_STRATIS_PASS_SIZE in
      let! '(i, bytes) := syscall (KEYCTL_READ key_id MAX_STRATIS_PASS_SIZE) in
      iret (Some (key_id, mkSized (copied bytes key_buffer) i))
  end.

Definition search_key_persistent (key_desc : KeyDescription) : ring (option Z) :=
  let! keyring_id := get_persistent_keyring in search_key keyring_id key_desc.
Definition read_key_persistent (key_desc : KeyDescription) : ring (option (Z * SizedKeyMemory)) :=
  let! keyring_id := get_persistent_keyring in read_key keyring_id key_desc.

Definition reset_key (key_id : Z) (old_key_data new_key_data : SizedKeyMemory) : ring bool :=
  let! old := ilift (sized_ref old_key_data) in
  let! new := ilift (sized_ref new_key_data) in
  if bool_decide (old = new) then iret false
  else syscall (KEYCTL_UPDATE key_id new) ;;! iret true.

Definition set_key (key_desc : KeyDescription) (key_data : SizedKeyMemory) (keyring_id : Z) : ring unit :=
  let! cstring := ilift (CString_new (to_system_string key_desc)) in
  let! data := ilift (sized_ref key_data) in
  let! _ := syscall (add_key cstring data keyring_id) in
  iret tt.

Definition set_key_idem (key_desc : KeyDescription) (key_data : SizedKeyMemory) : ring (MappingCreateAction Key) :=
  let! keyring_id := get_persistent_keyring in
  let! o := read_key keyring_id key_desc in
  match o with
  | Some (key_id, old_key_data) =>
      let! changed := reset_key key_id old_key_data key_data in
      iret (if (changed : bool) then MCValueChanged mkKey else MCIdentity)
  | None => set_key key_desc key_data keyring_id ;;! iret (MCCreated mkKey)
  end.

(** [key_str.rsplit(';').next()]: what follows the last [;] *)
Fixpoint after_last_semicolon (s : Str) : Str :=
  match s with
  | [] => []
  | c :: r => if bool_decide (SEMICOLON ∈ s) then after_last_semicolon r else s
  end.
Definition parse_keyctl_describe_string (key_str : Str) : res Str := Ok (after_last_semicolon key_str).

(** *** [KeyIdList] *)

(** the length and the capacity, in identifiers, and the memory, in bytes *)
Record KeyIdList : Type := mkKeyIds { ki_len : Z; ki_capacity : Z; ki_mem : list Z }.
Definition size_of_KeySerial : Z := 4.

Definition uninit_bytes (n : Z) : list Z := uninit <$> seq 0 (Z.to_nat n).
Definition KeyIdList_new : KeyIdList := mkKeyIds 0 4096 (uninit_bytes (4096 * size_of_KeySerial)).

(** the identifiers in the first [n] places of the memory *)
Fixpoint ids_of (n : nat) (bytes : list Z) : list Z :=
  match n with O => [] | S n' => le_val (take 4 bytes) :: ids_of n' (drop 4 bytes) end.

(** [Vec::resize(n, 0)] to a greater length *)
Definition resize (n : Z) (self : KeyIdList) : KeyIdList :=
  let capacity := if n <=? ki_capacity self then ki_capacity self else grow (ki_capacity self) n in
  mkKeyIds n capacity
    (take (Z.to_nat (ki_len self * size_of_KeySerial)) (ki_mem self) ++
     replicate (Z.to_nat ((n - ki_len self) * size_of_KeySerial)) 0 ++ uninit_bytes ((capacity - n) * size_of_KeySerial)).

(** the loop; [None] when [fuel] rounds did not suffice *)
Fixpoint populate_loop (fuel : nat) (keyring_id : Z) (self : KeyIdList) : ring (option (list Z)) :=
  match fuel with
  | O => iret None
  | S fuel =>
      let! '(num_bytes_read, bytes) := syscall (KEYCTL_READ keyring_id (ki_capacity self)) in
      let self := mkKeyIds (ki_len self) (ki_capacity self) (copied bytes (ki_mem self)) in
      let num_key_ids := num_bytes_read / size_of_KeySerial in
      if num_key_ids <=? ki_capacity self then iret (Some (ids_of (Z.to_nat num_key_ids) (ki_mem self)))
      else populate_loop fuel keyring_id (resize num_key_ids self)
  end.
Definition populate (fuel : nat) (self : KeyIdList) : ring (option (list Z)) :=
  let! keyring_id := get_persistent_keyring in populate_loop fuel keyring_id self.

(** the text of a key, without its final zero byte *)
Fixpoint describe_loop (fuel : nat) (id capacity : Z) : ring (option (option Str)) :=
  match fuel with
  | O => iret None
  | S fuel =>
      let! '(len, text) := syscall (KEYCTL_DESCRIBE id capacity) in
      if len <=? capacity then
        if len =? 0 then ierr (Msg "Kernel key description appeared to be entirely empty")
        else iret (Some text)
      else describe_loop fuel id (grow capacity len)
  end.

Fixpoint to_key_descs (fuel : nat) (key_ids : list Z) : ring (option (list KeyDescription)) :=
  match key_ids with
  | [] => iret (Some [])
  | id :: rest =>
      let! o := describe_loop fuel id 4096 in
      match o with
      | None => iret None
      | Some None => ierr (Chained "Kernel key description was not valid UTF8" (Utf8Error "from_utf8"))
      | Some (Some keyctl_str) =>
          let! parsed_string := ilift (parse_keyctl_describe_string keyctl_str) in
          let! kd := match from_system_key_desc parsed_string with
                     | None => iret None
                     | Some k => let! k := ilift (match k with Ok k => Ok k | _ => Panic "parse_keyctl_desribe_string() ensures the key description can not have semi-colons in it" end) in
                                 iret (Some k)
                     end in
          let! r := to_key_descs fuel rest in
          iret (match r with None => None | Some l => Some (match kd with Some k => k :: l | None => l end) end)
      end
  end.

Definition unset_key (key_id : Z) : ring unit :=
  let! keyring_id := get_persistent_keyring in syscall (KEYCTL_UNLINK key_id keyring_id).

(** *** [StratKeyActions]; the key given is what [set_key_shared] returns *)
Definition SKA_set (key_desc : KeyDescription) (memory : res SizedKeyMemory) : ring (MappingCreateAction Key) :=
  let! memory := ilift memory in set_key_idem key_desc memory.

Definition SKA_list (fuel : nat) : ring (option (list KeyDescription)) :=
  let! o := populate fuel KeyIdList_new in
  match o with None => iret None | Some key_ids => to_key_descs fuel key_ids end.

Definition SKA_unset (key_desc : KeyDescription) : ring (MappingDeleteAction Key) :=
  let! keyring_id := get_persistent_keyring in
  let! o := search_key keyring_id key_desc in
  match o with
  | Some key_id => unset_key key_id ;;! iret (MDDeleted mkKey)
  | None => iret MDIdentity
  end.
End keys.

(** ** What the kernel promises

    [view]: the keys in the persistent keyring [kid], by identifier, with description and payload.  Every call may fail; a call that
    fails changes nothing. *)

(** what is copied to a buffer: all of a payload that fits; of one that does not, what fits at most *)
Definition read_into (len : Z) (payload bs : list Z) : Prop :=
  (Z.of_nat (length payload) ≤ len → bs = payload) ∧ Z.of_nat (length bs) ≤ Z.max 0 len.
Class KeyctlLaws `{Keyctl} : Type := {
  kid : Z;
  view : Ring → gmap Z (Str * list Z);
  dlen : Str → Z;
  kid_range : 0 ≤ kid ≤ u32_max;
  id_range r id x : view r !! id = Some x → 0 ≤ id ≤ u32_max;
  one_key r i j d p q : view r !! i = Some (d, p) → view r !! j = Some (d, q) → i = j;
  grow_law c n : n ≤ grow c n;
  persistent_law r : let '(x, r') := KEYCTL_GET_PERSISTENT r in
    view r' = view r ∧ ∀ i, x = inr i → i = kid;
  search_law d r : let '(x, r') := KEYCTL_SEARCH kid d r in
    view r' = view r ∧
    match x with
    | inr id => ∃ p, view r !! id = Some (d, p)
    | inl e => e = ENOKEY → ∀ id p, view r !! id ≠ Some (d, p)
    end;
  read_law id len r d p : view r !! id = Some (d, p) →
    let '(x, r') := KEYCTL_READ id len r in
    view r' = view r ∧ ∀ n bs, x = inr (n, bs) → n = Z.of_nat (length p) ∧ read_into len p bs;
  (* reading a keyring gives the identifiers of its keys, 4 bytes each *)
  read_ring_law len r : let '(x, r') := KEYCTL_READ kid len r in
    view r' = view r ∧ ∀ n bs, x = inr (n, bs) →
      ∃ ids, ids ≡ₚ (map_to_list (view r)).*1 ∧ n = 4 * Z.of_nat (length ids) ∧
             read_into len (concat (le_bytes 4 <$> ids)) bs;
  update_law id q r d p : view r !! id = Some (d, p) →
    let '(x, r') := KEYCTL_UPDATE id q r in
    view r' = match x with inr _ => <[id := (d, q)]> (view r) | inl _ => view r end;
  add_key_law d q r : (∀ id p, view r !! id ≠ Some (d, p)) →
    let '(x, r') := add_key d q kid r in
    match x with
    | inr id => view r !! id = None ∧ view r' = <[id := (d, q)]> (view r)
    | inl _ => view r' = view r
    end;
  unlink_law id r : let '(x, r') := KEYCTL_UNLINK id kid r in
    view r' = match x with inr _ => delete id (view r) | inl _ => view r end;
  (* type;uid;gid;permissions;description *)
  describe_law id len r d p : view r !! id = Some (d, p) →
    let '(x, r') := KEYCTL_DESCRIBE id len r in
    view r' = view r ∧ ∀ n t, x = inr (n, t) →
      n = dlen d ∧ (n ≤ len → ∀ text, t = Some text → ∃ fields, text = fields ++ SEMICOLON :: d)
}.

Section spec.
Context `{KeyctlLaws}.
Implicit Types (r : Ring) (kd : KeyDescription).

(** the key with the description [d] is [p] *)
Definition key_is r (d : Str) (p : list Z) : Prop := ∃ id, view r !! id = Some (d, p).

Lemma get_persistent_run r : match get_persistent_keyring r with
  | (Ok i, r') => i = kid ∧ view r' = view r | (Err _, r') => view r' = view r | _ => False end.
Proof.
  unfold get_persistent_keyring, ibind, syscall, ilift. pose proof (persistent_law r) as Hl. pose proof kid_range.
  destruct (KEYCTL_GET_PERSISTENT r) as [[e|i] r']; [apply Hl|]. destruct Hl as [Hv Hi]. rewrite (Hi i eq_refl).
  unfold KeySerial_from. destruct (Z.leb_spec kid u32_max); [done|lia].
Qed.

Lemma search_key_run kd r : match search_key kid kd r with
  | (Ok (Some id), r') => (∃ p, view r !! id = Some (to_system_string kd, p)) ∧ view r' = view r
  | (Ok None, r') => (∀ p, ¬ key_is r (to_system_string kd) p) ∧ view r' = view r
  | (Err _, r') => view r' = view r
  | _ => False
  end.
Proof.
  unfold search_key, ibind, ilift, CString_new. case_bool_decide as Hz; [done|].
  pose proof (search_law (to_system_string kd) r) as Hl. destruct (KEYCTL_SEARCH _ _ r) as [[e|id] r'].
  - destruct Hl as [Hv He]. destruct (Z.eqb_spec e ENOKEY) as [->|]; [|done]. split; [|done]. intros p [id Hid]. by eapply He.
  - destruct Hl as [Hv [p Hp]]. pose proof (id_range _ _ _ Hp). unfold KeySerial_from. destruct (Z.leb_spec id u32_max); [|lia].
    cbn. eauto.
Qed.

(** [SizedKeyMemory] of a key that fits *)
Lemma sized_copied p : Z.of_nat (length p) ≤ MAX_STRATIS_PASS_SIZE →
  sized_ref (mkSized (copied p (replicate (Z.to_nat MAX_STRATIS_PASS_SIZE) 0)) (Z.of_nat (length p))) = Ok p.
Proof.
  intros Hp. change MAX_STRATIS_PASS_SIZE with 64 in *. unfold sized_ref, copied. cbn [mem sk_size].
  rewrite length_app, length_drop, length_replicate. destruct (Z.leb_spec (Z.of_nat (length p)) (Z.of_nat (length p + (Z.to_nat 64 - length p)))); [|lia].
  rewrite Nat2Z.id, take_app_length. done.
Qed.

Lemma read_key_run kd r : match read_key kid kd r with
  | (Ok (Some (id, m)), r') => view r' = view r ∧ ∃ p, view r !! id = Some (to_system_string kd, p) ∧
      (Z.of_nat (length p) ≤ MAX_STRATIS_PASS_SIZE → sized_ref m = Ok p) ∧
      (MAX_STRATIS_PASS_SIZE < Z.of_nat (length p) → ∃ w, sized_ref m = Panic w)
  | (Ok None, r') => (∀ p, ¬ key_is r (to_system_string kd) p) ∧ view r' = view r
  | (Err _, r') => view r' = view r
  | _ => False
  end.
Proof.
  unfold read_key, ibind. pose proof (search_key_run kd r) as Hs. destruct (search_key kid kd r) as [[[id|]|e|w] r1]; [|done..].
  destruct Hs as [[p Hp] Hv]. rewrite <- Hv in Hp. unfold SafeMemHandle_alloc. destruct (mem_alloc _ r1); [|done]. unfold syscall. pose proof (read_law id MAX_STRATIS_PASS_SIZE r1 _ _ Hp) as Hr.
  destruct (KEYCTL_READ _ _ r1) as [[e|[n bs]] r2]; destruct Hr as [Hv2 Hr]; cbn; [congruence|].
  destruct (Hr n bs eq_refl) as [-> [Hfit Hbs]]. split; [congruence|]. rewrite <- Hv. exists p. split; [done|]. split.
  - intros Hp64. rewrite (Hfit Hp64). by apply sized_copied.
  - intros Hlong. change MAX_STRATIS_PASS_SIZE with 64 in *. unfold sized_ref, copied. cbn [mem sk_size]. rewrite length_app, length_drop, length_replicate.
    match goal with |- context [?a <=? ?b] => destruct (Z.leb_spec a b) end; [lia|eauto].
Qed.

(** [d] has the key [q] now, and nothing else changed *)
Definition stored r r' (d : Str) (q : list Z) : Prop :=
  ∀ d' p, key_is r' d' p ↔ (d' = d ∧ p = q) ∨ (d' ≠ d ∧ key_is r d' p).

Lemma stored_update r r' id d p q : view r !! id = Some (d, p) → view r' = <[id := (d, q)]> (view r) → stored r r' d q.
Proof.
  intros Hid Hv d' p'. unfold key_is. rewrite Hv. split.
  - intros [j Hj]. destruct (decide (j = id)) as [->|Hne].
    + rewrite lookup_insert_eq in Hj. simplify_eq. by left.
    + rewrite lookup_insert_ne in Hj by done. right. split; [|eauto]. intros ->. by apply Hne, (one_key r j id d p' p).
  - intros [[-> ->]|[Hne [j Hj]]]; [exists id; apply lookup_insert_eq|]. exists j. rewrite lookup_insert_ne; [done|].
    intros <-. by simplify_eq.
Qed.
Lemma stored_add r r' id d q : (∀ p, ¬ key_is r d p) → view r !! id = None → view r' = <[id := (d, q)]> (view r) → stored r r' d q.
Proof.
  intros Hno Hid Hv d' p'. unfold key_is. rewrite Hv. split.
  - intros [j Hj]. destruct (decide (j = id)) as [->|Hne].
    + rewrite lookup_insert_eq in Hj. simplify_eq. by left.
    + rewrite lookup_insert_ne in Hj by done. right. split; [|eauto]. intros ->. apply (Hno p'). by exists j.
  - intros [[-> ->]|[Hne [j Hj]]]; [exists id; apply lookup_insert_eq|]. exists j. rewrite lookup_insert_ne; [done|].
    intros <-. by rewrite Hid in Hj.
Qed.

(** ** The operations *)

Definition set_post r kd (key : list Z) (x : res (MappingCreateAction Key)) r' : Prop :=
  let d := to_system_string kd in
  match x with
  | Ok (MCCreated _) => (∀ p, ¬ key_is r d p) ∧ stored r r' d key
  | Ok (MCValueChanged _) => (∃ old, key_is r d old ∧ old ≠ key) ∧ stored r r' d key
  | Ok MCIdentity => key_is r d key ∧ view r' = view r
  | Err _ => view r' = view r
  | Panic _ => False
  end.

#[local] Arguments to_system_string : simpl never.
Lemma set_run r kd m key x r' : sized_ref m = Ok key →
  (∀ p, key_is r (to_system_string kd) p → Z.of_nat (length p) ≤ MAX_STRATIS_PASS_SIZE) →
  set_key_idem kd m r = (x, r') → set_post r kd key x r'.
Proof.
  intros Hm Hfit. unfold set_key_idem, ibind at 1. pose proof (get_persistent_run r) as Hg.
  destruct (get_persistent_keyring r) as [[i|e|w] r1]; [destruct Hg as [-> Hv1]|by intros [= <- <-]|done].
  unfold ibind at 1. pose proof (read_key_run kd r1) as Hr.
  destruct (read_key kid kd r1) as [[[[id old]|]|e|w] r2]; [| |intros [= <- <-]; cbn; congruence|done].
  - destruct Hr as (Hv2 & p & Hp & Hold & _). assert (sized_ref old = Ok p) as Eo.
    { apply Hold, Hfit. exists id. congruence. }
    unfold ibind at 1, reset_key, ibind at 1, ilift. rewrite Eo. unfold ibind at 1. rewrite Hm. case_bool_decide as He.
    + intros [= <- <-]. subst. split; [exists id|]; congruence.
    + unfold ibind, syscall. rewrite <- Hv2 in Hp. pose proof (update_law id key r2 _ _ Hp) as Hu.
      destruct (KEYCTL_UPDATE id key r2) as [[e|[]] r3]; intros [= <- <-]; cbn; [congruence|].
      split; [exists p; split; [exists id|]; congruence|]. eapply (stored_update r r3 id _ p); congruence.
  - destruct Hr as [Hno Hv2]. unfold ibind, set_key, ibind, ilift. unfold CString_new. case_bool_decide; [intros [= <- <-]; cbn; congruence|].
    rewrite Hm. unfold syscall. pose proof (add_key_law (to_system_string kd) key r2) as Ha.
    assert (∀ p, ¬ key_is r (to_system_string kd) p) as Hno' by (intros p [j Hj]; apply (Hno p); exists j; congruence).
    specialize (Ha ltac:(intros j p Hj; apply (Hno' p); exists j; congruence)).
    destruct (add_key _ _ _ r2) as [[e|id] r3]; intros [= <- <-]; cbn; [congruence|].
    split; [done|]. destruct Ha as [Hn Hv3]. eapply (stored_add r r3 id); [done|congruence..].
Qed.

Definition unset_post r kd (x : res (MappingDeleteAction Key)) r' : Prop :=
  let d := to_system_string kd in
  match x with
  | Ok (MDDeleted _) => (∃ p, key_is r d p) ∧ ∀ d' p, key_is r' d' p ↔ d' ≠ d ∧ key_is r d' p
  | Ok MDIdentity => (∀ p, ¬ key_is r d p) ∧ view r' = view r
  | Err _ => view r' = view r
  | Panic _ => False
  end.

Lemma unset_run r kd x r' : SKA_unset kd r = (x, r') → unset_post r kd x r'.
Proof.
  unfold SKA_unset, ibind at 1. pose proof (get_persistent_run r) as Hg.
  destruct (get_persistent_keyring r) as [[i|e|w] r1]; [destruct Hg as [-> Hv1]|by intros [= <- <-]|done].
  unfold ibind at 1. pose proof (search_key_run kd r1) as Hs.
  destruct (search_key kid kd r1) as [[[id|]|e|w] r2]; [| |intros [= <- <-]; cbn; congruence|done].
  - destruct Hs as [[p Hp] Hv2]. unfold ibind at 1, unset_key, ibind at 1. pose proof (get_persistent_run r2) as Hg2.
    destruct (get_persistent_keyring r2) as [[i|e|w] r3]; [destruct Hg2 as [-> Hv3]|intros [= <- <-]; cbn; congruence|done].
    unfold syscall. pose proof (unlink_law id r3) as Hu. destruct (KEYCTL_UNLINK id kid r3) as [[e|[]] r4]; intros [= <- <-]; cbn; [congruence|].
    rewrite Hv1 in Hp. split; [exists p; by exists id|]. intros d' p'. unfold key_is. rewrite Hu, Hv3, Hv2, Hv1. setoid_rewrite lookup_delete_Some. split.
    + intros (j & Hne & Hj). split; [|eauto]. intros ->. apply Hne. by apply (one_key r id j (to_system_string kd) p p').
    + intros (Hne & j & Hj). exists j. split; [|done]. intros <-. by simplify_eq.
  - destruct Hs as [Hno Hv2]. intros [= <- <-]. split; [|congruence]. intros p [j Hj]. apply (Hno p). exists j. congruence.
Qed.

(** *** Listing *)

Lemma ids_of_concat ids rest : Forall (λ id, 0 ≤ id ≤ u32_max) ids →
  ids_of (length ids) (concat (le_bytes 4 <$> ids) ++ rest) = ids.
Proof.
  induction 1 as [|id ids Hid _ IH]; [done|]. cbn [fmap list_fmap concat length ids_of]. rewrite <- app_assoc.
  rewrite take_app_length', drop_app_length' by (symmetry; apply le_bytes_length). rewrite IH, le_val_bytes; [done|].
  change (256 ^ Z.of_nat 4) with (2 ^ 32). unfold u32_max in Hid. lia.
Qed.
Lemma concat_length ids : length (concat (le_bytes 4 <$> ids)) = (4 * length ids)%nat.
Proof. induction ids as [|id ids IH]; cbn [fmap list_fmap concat length]; [done|]. rewrite length_app, le_bytes_length, IH. lia. Qed.

Definition key_ids r : list Z := (map_to_list (view r)).*1.
Lemma elem_of_key_ids r id : id ∈ key_ids r ↔ is_Some (view r !! id).
Proof.
  unfold key_ids. rewrite list_elem_of_fmap. split.
  - intros ([i x] & -> & Hin%elem_of_map_to_list). eauto.
  - intros [x Hx]. exists (id, x). split; [done|]. by apply elem_of_map_to_list.
Qed.

(** The loop ends in its second round at the latest; with at most 1024 keys it returns all of them. *)
Lemma populate_loop_run fuel l r : 0 ≤ ki_capacity l →
  match populate_loop (S (S fuel)) kid l r with
  | (Ok (Some ids), r') => view r' = view r ∧
      (4 * Z.of_nat (length (key_ids r)) ≤ ki_capacity l → ids ≡ₚ key_ids r)
  | (Ok None, _) => False
  | (Err _, r') => view r' = view r
  | (Panic _, _) => False
  end.
Proof.
  intros Hc. cbn [populate_loop]. unfold ibind at 1, syscall at 1. pose proof (read_ring_law (ki_capacity l) r) as Hr.
  destruct (KEYCTL_READ kid (ki_capacity l) r) as [[e|[n bs]] r1]; destruct Hr as [Hv1 Hr]; [done|].
  destruct (Hr n bs eq_refl) as (ids & Hp & -> & Hbs & _). fold (key_ids r) in Hp. cbn beta iota zeta. cbn [ki_capacity ki_mem].
  rewrite Z.mul_comm, Z.div_mul by done. destruct (Z.leb_spec (Z.of_nat (length ids)) (ki_capacity l)).
  - split; [done|]. intros Hfit. rewrite <- Hp in Hfit. rewrite Nat2Z.id. unfold copied.
    rewrite Hbs by (rewrite concat_length; lia). rewrite ids_of_concat; [done|].
    apply Forall_forall. intros id Hid. rewrite Hp in Hid. apply elem_of_key_ids in Hid as [x Hx]. by eapply id_range.
  - unfold resize. cbn [ki_capacity ki_mem]. destruct (Z.leb_spec (Z.of_nat (length ids)) (ki_capacity l)); [lia|].
    cbn [ki_capacity ki_mem]. unfold ibind at 1, syscall at 1. pose proof (grow_law (ki_capacity l) (Z.of_nat (length ids))).
    pose proof (read_ring_law (grow (ki_capacity l) (Z.of_nat (length ids))) r1) as Hr2.
    destruct (KEYCTL_READ kid _ r1) as [[e|[n bs2]] r2]; destruct Hr2 as [Hv2 Hr2]; [congruence|].
    destruct (Hr2 n bs2 eq_refl) as (ids2 & Hp2 & -> & _). cbn beta iota zeta. rewrite Z.mul_comm, Z.div_mul by done.
    assert (length ids2 = length ids) as El by (rewrite Hp, Hp2, Hv1; done). rewrite El.
    destruct (Z.leb_spec (Z.of_nat (length ids)) (grow (ki_capacity l) (Z.of_nat (length ids)))); [|lia].
    split; [congruence|]. intros Hfit. rewrite <- Hp in Hfit. lia.
Qed.

Lemma describe_loop_run fuel id capacity r d p : view r !! id = Some (d, p) →
  match describe_loop (S (S fuel)) id capacity r with
  | (Ok (Some t), r') => view r' = view r ∧ ∀ text, t = Some text → ∃ fields, text = fields ++ SEMICOLON :: d
  | (Ok None, _) => False
  | (Err _, r') => view r' = view r
  | (Panic _, _) => False
  end.
Proof.
  intros Hid. cbn [describe_loop]. unfold ibind at 1, syscall at 1. pose proof (describe_law id capacity r d p Hid) as Hd.
  destruct (KEYCTL_DESCRIBE id capacity r) as [[e|[n t]] r1]; destruct Hd as [Hv Hd]; [done|]. destruct (Hd n t eq_refl) as [-> Ht].
  cbn beta iota. destruct (Z.leb_spec (dlen d) capacity); [destruct (dlen d =? 0); cbn; by auto|].
  unfold ibind at 1, syscall at 1. rewrite <- Hv in Hid. pose proof (describe_law id (grow capacity (dlen d)) r1 d p Hid) as Hd2.
  destruct (KEYCTL_DESCRIBE id _ r1) as [[e|[n t2]] r2]; destruct Hd2 as [Hv2 Hd2]; [congruence|]. destruct (Hd2 n t2 eq_refl) as [-> Ht2].
  cbn beta iota. pose proof (grow_law capacity (dlen d)). destruct (Z.leb_spec (dlen d) (grow capacity (dlen d))); [|lia].
  destruct (dlen d =? 0); cbn; [congruence|]. split; [congruence|auto].
Qed.

Lemma after_last_semicolon_app fields d : SEMICOLON ∉ d → after_last_semicolon (fields ++ SEMICOLON :: d) = d.
Proof.
  intros Hd. induction fields as [|c fields IH]; cbn [app after_last_semicolon].
  - rewrite bool_decide_true by set_solver. destruct d as [|c d]; [done|]. cbn. by rewrite bool_decide_false.
  - rewrite bool_decide_true by set_solver. exact IH.
Qed.

(** Stratis' keys among the keys of the system *)
Lemma from_system_known d : SEMICOLON ∉ d →
  match from_system_key_desc d with
  | Some (Ok kd) => d = to_system_string kd ∧ kd ≠ []
  | None => ∀ kd, kd ≠ [] → d ≠ to_system_string kd
  | _ => False
  end.
Proof.
  intros Hd. unfold from_system_key_desc. destruct (starts_with key_description_prefix d) eqn:Hs.
  - apply starts_with_split in Hs. case_bool_decide as Hn.
    + intros kd Hkd ->. unfold to_system_string in *. by rewrite drop_app_length in Hn.
    + unfold KeyDescription_try_from. rewrite bool_decide_false; [done|]. rewrite Hs in Hd. set_solver.
  - intros kd Hkd ->. by rewrite starts_with_app in Hs.
Qed.

(** the keys of Stratis with identifiers in [ids] *)
Definition listed_among r (ids : list Z) (kd : KeyDescription) : Prop :=
  kd ≠ [] ∧ ∃ id p, id ∈ ids ∧ view r !! id = Some (to_system_string kd, p).

Definition no_semicolons r : Prop := ∀ id d p, view r !! id = Some (d, p) → SEMICOLON ∉ d.

Lemma listed_cons r id ids kd d p : view r !! id = Some (d, p) →
  listed_among r (id :: ids) kd ↔ (kd ≠ [] ∧ d = to_system_string kd) ∨ listed_among r ids kd.
Proof.
  intros Hid. unfold listed_among. setoid_rewrite elem_of_cons. split.
  - intros (Hk & j & q & [->|Hj] & Hq); [left; by simplify_eq|right; eauto 6].
  - intros [[Hk ->]|(Hk & j & q & Hj & Hq)]; eauto 8.
Qed.

Lemma to_key_descs_run fuel ids : ∀ r, no_semicolons r → NoDup ids → (∀ id, id ∈ ids → is_Some (view r !! id)) →
  match to_key_descs (S (S fuel)) ids r with
  | (Ok (Some l), r') => view r' = view r ∧ NoDup l ∧ ∀ kd, kd ∈ l ↔ listed_among r ids kd
  | (Ok None, _) => False
  | (Err _, r') => view r' = view r
  | (Panic _, _) => False
  end.
Proof.
  induction ids as [|id ids IH]; intros r Hns Hnd Hin; cbn [to_key_descs].
  { split_and!; [done|constructor|]. intros kd. split; [by intros ?%elem_of_nil|by intros (_ & ? & ? & ?%elem_of_nil & _)]. }
  apply NoDup_cons in Hnd as [Hni Hnd]. destruct (Hin id) as [[d p] Hid]; [by left|].
  unfold ibind at 1. pose proof (describe_loop_run fuel id 4096 r d p Hid) as Hd.
  destruct (describe_loop (S (S fuel)) id 4096 r) as [[[t|]|e|w] r1]; [|done..]. destruct Hd as [Hv1 Ht].
  destruct t as [text|]; [|done]. destruct (Ht text eq_refl) as [fields ->].
  unfold parse_keyctl_describe_string. unfold ibind at 1, ilift at 1.
  rewrite after_last_semicolon_app by (by eapply Hns). pose proof (from_system_known d (Hns _ _ _ Hid)) as Hk.
  specialize (IH r1). unfold no_semicolons, listed_among in IH. rewrite Hv1 in IH. specialize (IH Hns Hnd ltac:(intros j Hj; apply Hin; by right)).
  destruct (from_system_key_desc d) as [[kd|?|?]|]; try done; unfold ibind, iret, ilift;
    destruct (to_key_descs (S (S fuel)) ids r1) as [[[l|]|e|w] r2]; try done; destruct IH as (Hv2 & Hndl & Hl); (split; [done|]).
  - destruct Hk as [-> Hk]. split.
    + apply NoDup_cons. split; [|done]. intros (_ & j & q & Hj & Hq)%Hl. apply Hni. by rewrite (one_key r id j _ p q Hid Hq).
    + intros k. rewrite elem_of_cons, Hl, (listed_cons r id ids k _ p Hid). fold (listed_among r ids k). split.
      * intros [->|?]; [left|right]; done.
      * intros [[? E]|?]; [left|by right]. unfold to_system_string in E. by apply app_inv_head in E.
  - split; [done|]. intros k. rewrite Hl, (listed_cons r id ids k _ p Hid). fold (listed_among r ids k). split; [by right|].
    intros [[? ->]|?]; [|done]. by destruct (Hk k).
Qed.

Definition list_post r (x : res (option (list KeyDescription))) r' : Prop :=
  match x with
  | Ok (Some l) => view r' = view r ∧ NoDup l ∧
      ∀ kd, kd ∈ l ↔ kd ≠ [] ∧ ∃ p, key_is r (to_system_string kd) p
  | Ok None => False
  | Err _ => view r' = view r
  | Panic _ => False
  end.

Lemma list_run fuel r x r' : (length (key_ids r) ≤ 1024)%nat → no_semicolons r →
  SKA_list (S (S fuel)) r = (x, r') → list_post r x r'.
Proof.
  intros Hfit Hns. unfold SKA_list, populate, ibind at 1 2. pose proof (get_persistent_run r) as Hg.
  destruct (get_persistent_keyring r) as [[i|e|w] r1]; [destruct Hg as [-> Hv1]|by intros [= <- <-]|done].
  assert (key_ids r1 = key_ids r) as Ek by (unfold key_ids; by rewrite Hv1).
  pose proof (populate_loop_run fuel KeyIdList_new r1) as Hp. cbn [ki_capacity KeyIdList_new] in Hp. specialize (Hp ltac:(lia)).
  destruct (populate_loop (S (S fuel)) kid KeyIdList_new r1) as [[[ids|]|e|w] r2]; [|done|intros [= <- <-]; cbn; congruence|done].
  destruct Hp as [Hv2 Hids]. rewrite Ek in Hids. specialize (Hids ltac:(lia)).
  assert (view r2 = view r) as Hv by congruence.
  pose proof (to_key_descs_run fuel ids r2) as Hd. unfold no_semicolons, listed_among in Hd. rewrite Hv in Hd.
  specialize (Hd Hns). specialize (Hd ltac:(rewrite Hids; apply NoDup_fst_map_to_list)).
  specialize (Hd ltac:(intros id Hid; rewrite Hids in Hid; by apply elem_of_key_ids)).
  intros E. rewrite E in Hd. destruct x as [[l|]|e|w]; try done. destruct Hd as (Hv' & Hnd & Hl).
  split; [done|]. split; [done|]. intros kd. rewrite Hl. unfold key_is. split.
  - intros (Hk & id & p & _ & Hp). eauto.
  - intros (Hk & p & id & Hp). split; [done|]. exists id, p. split; [|done]. rewrite Hids. apply elem_of_key_ids. eauto.
Qed.

(** *** Where the code goes wrong *)

Lemma ids_of_lookup n b i : (i < n)%nat → ids_of n b !! i = Some (le_val (take 4 (drop (4 * i) b))).
Proof.
  revert b i. induction n as [|n IH]; intros b i Hi; [lia|]. cbn [ids_of]. destruct i as [|i]; [done|]. cbn [lookup list_lookup].
  rewrite IH, drop_drop by lia. do 4 f_equal. lia.
Qed.

(** The length passed is a number of identifiers where the kernel takes bytes: with more than 1024 keys
    the identifiers from the 1025th on are memory that was never written. *)
Lemma populate_uninitialized r l r' : (1024 < length (key_ids r) ≤ 4096)%nat →
  populate_loop 1 kid KeyIdList_new r = (Ok (Some l), r') → l !! 1024%nat = Some (le_val (uninit <$> seq 4096 4)).
Proof.
  intros Hn. cbn [populate_loop]. unfold ibind at 1, syscall at 1. pose proof (read_ring_law (ki_capacity KeyIdList_new) r) as Hr.
  destruct (KEYCTL_READ kid _ r) as [[e|[n bs]] r1]; [done|]. destruct Hr as [Hv Hr]. destruct (Hr n bs eq_refl) as (ids & Hp & -> & _ & Hbs).
  fold (key_ids r) in Hp. rewrite <- Hp in Hn. cbn beta iota zeta. unfold KeyIdList_new. cbn [ki_capacity ki_mem].
  rewrite Z.mul_comm, Z.div_mul by done. destruct (Z.leb_spec (Z.of_nat (length ids)) 4096); [|lia].
  intros [= <- _]. rewrite ids_of_lookup by lia. f_equal. f_equal. unfold copied.
  change (ki_capacity KeyIdList_new) with 4096 in Hbs. rewrite drop_app_ge, drop_drop by lia. unfold uninit_bytes. change (Z.to_nat (4096 * size_of_KeySerial)) with (Z.to_nat 16384).
  rewrite <- fmap_drop, <- fmap_take, drop_seq, take_seq. do 2 f_equal; lia.
Qed.

(** A key longer than [MAX_STRATIS_PASS_SIZE], which another program may have stored, makes setting it panic. *)
Lemma long_key_panics r kd m key p x r' : sized_ref m = Ok key → key_is r (to_system_string kd) p →
  MAX_STRATIS_PASS_SIZE < Z.of_nat (length p) → set_key_idem kd m r = (x, r') → ∀ a, x ≠ Ok a.
Proof.
  intros Hm [id0 Hid] Hlong. unfold set_key_idem, ibind at 1. pose proof (get_persistent_run r) as Hg.
  destruct (get_persistent_keyring r) as [[i|e|w] r1]; [destruct Hg as [-> Hv1]|by intros [= <- <-]|done].
  unfold ibind at 1. pose proof (read_key_run kd r1) as Hr.
  destruct (read_key kid kd r1) as [[[[id old]|]|e|w] r2]; [| |by intros [= <- <-]|done].
  - destruct Hr as (Hv2 & q & Hq & _ & Hp). rewrite Hv1 in Hq. pose proof (one_key _ _ _ _ _ _ Hid Hq) as <-. simplify_eq.
    destruct (Hp Hlong) as [w Ew]. unfold ibind at 1, reset_key, ibind at 1, ilift. rewrite Ew. by intros [= <- <-].
  - destruct Hr as [Hno _]. exfalso. apply (Hno p). exists id0. by rewrite Hv1.
Qed.

(** C35: In a keyring of at most 1024 keys, in which the key already stored under the description has at most 64 bytes and no
    description has a semicolon (it is not so outside these limits: [long_key_panics], [populate_uninitialized]), the keys of Stratis in
    the kernel keyring are a map from key descriptions to keys, whatever calls fail.
    Setting a key makes it the value of its description and changes nothing else; it reports whether the description was new,
    had another value or this one.  Unsetting removes exactly that description.  Listing ends, and returns every
    description in the keyring once.  An error means nothing changed. *)
Theorem keyring_refines_map r kd m key n : sized_ref m = Ok key →
  (∀ p, key_is r (to_system_string kd) p → Z.of_nat (length p) ≤ MAX_STRATIS_PASS_SIZE) →
  (length (key_ids r) ≤ 1024)%nat → no_semicolons r → (2 ≤ n)%nat →
  (let '(x, r') := SKA_set kd (Ok m) r in set_post r kd key x r') ∧
  (let '(x, r') := SKA_unset kd r in unset_post r kd x r') ∧
  (let '(x, r') := SKA_list n r in list_post r x r').
Proof.
  intros Hm Hfit Hn Hns Hfuel. split_and!.
  - unfold SKA_set, ibind, ilift. destruct (set_key_idem kd m r) as [x r'] eqn:E. by eapply set_run.
  - destruct (SKA_unset kd r) as [x r'] eqn:E. by apply unset_run.
  - destruct n as [|[|n]]; [lia..|]. destruct (SKA_list _ r) as [x r'] eqn:E. by eapply list_run.
Qed.
End spec.

(** ** A keyring for examples: every call that makes sense succeeds *)

Definition ring_ok (m : gmap Z (Str * list Z)) : Prop :=
  Forall (λ id, 2 ≤ id ≤ u32_max) (map_to_list m).*1 ∧ NoDup (map_to_list m).*2.*1.
Definition ExRing : Type := { m : gmap Z (Str * list Z) | bool_decide (ring_ok m) }.

(** the keyring, or an error when it is none *)
Definition ex_put {A} (m : gmap Z (Str * list Z)) (a : A) (r : ExRing) : (Z + A) * ExRing :=
  match decide (ring_ok m) with
  | left Hok => (inr a, m ↾ bool_decide_pack _ Hok)
  | right _ => (inl 22, r)
  end.
Definition ex_ids (r : ExRing) : list Z := (map_to_list (`r)).*1.
Definition ex_find (d : Str) (r : ExRing) : option Z :=
  fst <$> head (filter (λ x, x.2.1 = d) (map_to_list (`r))).

Definition ex_describe (id : Z) (r : ExRing) : Z + Z * option Str :=
  match `r !! id with
  | Some (d, _) => inr (Z.of_nat (length d) + 19, Some (str "user;0;0;3f010000" ++ SEMICOLON :: d))
  | None => inl ENOKEY
  end.

Definition ex_keyctl : Keyctl := {|
  Ring := ExRing;
  KEYCTL_GET_PERSISTENT r := (inr 1, r);
  KEYCTL_SEARCH _ d r := (match ex_find d r with Some id => inr id | None => inl ENOKEY end, r);
  KEYCTL_READ id len r :=
    (match `r !! id with
     | Some (_, p) => inr (Z.of_nat (length p), take (Z.to_nat len) p)
     | None => inr (4 * Z.of_nat (length (ex_ids r)), take (Z.to_nat len) (concat (le_bytes 4 <$> ex_ids r)))
     end, r);
  KEYCTL_UPDATE id q r := match `r !! id with Some (d, _) => ex_put (<[id := (d, q)]> (`r)) tt r | None => (inl 22, r) end;
  KEYCTL_DESCRIBE id len r := (ex_describe id r, r);
  KEYCTL_UNLINK id _ r := ex_put (delete id (`r)) tt r;
  add_key d q _ r :=
    let id := 100 + Z.of_nat (size (`r)) in
    match `r !! id with None => ex_put (<[id := (d, q)]> (`r)) id r | Some _ => (inl 12, r) end;
  mem_alloc _ _ := true;
  uninit _ := 255;
  grow c n := Z.max (2 * c) n |}.

Lemma ex_ring_ok (r : ExRing) : ring_ok (`r).
Proof. exact (bool_decide_unpack _ (proj2_sig r)). Qed.

Lemma ex_put_spec {A} m (a : A) r : match ex_put m a r with (inr b, r') => b = a ∧ `r' = m | (inl _, r') => r' = r end.
Proof. unfold ex_put. by destruct (decide (ring_ok m)). Qed.

Lemma ex_one_key (r : ExRing) i j d p q : `r !! i = Some (d, p) → `r !! j = Some (d, q) → i = j.
Proof.
  intros Hi%elem_of_map_to_list Hj%elem_of_map_to_list. destruct (ex_ring_ok r) as [_ Hnd].
  apply list_elem_of_lookup in Hi as [a Ha], Hj as [b Hb].
  assert (a = b) as ->; [|congruence]. eapply NoDup_lookup; [exact Hnd| |]; rewrite !list_lookup_fmap; [by rewrite Ha|by rewrite Hb].
Qed.

Lemma ex_range (r : ExRing) id x : `r !! id = Some x → 2 ≤ id ≤ u32_max.
Proof.
  intros Hid%elem_of_map_to_list. destruct (ex_ring_ok r) as [Hall _]. rewrite Forall_forall in Hall. apply Hall.
  apply list_elem_of_fmap. by exists (id, x).
Qed.
Lemma ex_find_spec d (r : ExRing) : match ex_find d r with
  | Some id => ∃ p, `r !! id = Some (d, p) | None => ∀ id p, `r !! id ≠ Some (d, p) end.
Proof.
  unfold ex_find. destruct (filter _ _) as [|[id [d' p]] l] eqn:E; cbn.
  - intros id p Hid%elem_of_map_to_list. assert ((id, (d, p)) ∈ filter (λ x, x.2.1 = d) (map_to_list (`r))) as Hin
      by by apply list_elem_of_filter. rewrite E in Hin. by apply elem_of_nil in Hin.
  - assert ((id, (d', p)) ∈ filter (λ x, x.2.1 = d) (map_to_list (`r))) as Hin by (rewrite E; by left).
    apply list_elem_of_filter in Hin as [Hd Hin%elem_of_map_to_list]. cbn in Hd. subst. eauto.
Qed.

Lemma ex_describe_spec id (r : ExRing) d p : `r !! id = Some (d, p) → ∀ n t, ex_describe id r = inr (n, t) →
  n = Z.of_nat (length d) + 19 ∧ t = Some (str "user;0;0;3f010000" ++ SEMICOLON :: d).
Proof. unfold ex_describe. intros Hid n t. rewrite Hid. by intros [= <- <-]. Qed.

Lemma ex_read_into len p : read_into len p (take (Z.to_nat len) p).
Proof. split; [intros Hfit; by rewrite take_ge by lia|]. rewrite length_take. lia. Qed.

Definition ex_laws : @KeyctlLaws ex_keyctl.
Proof.
  refine (@Build_KeyctlLaws ex_keyctl 1 (λ r : ExRing, `r) (λ d, Z.of_nat (length d) + 19) _ _ _ _ _ _ _ _ _ _ _ _).
  - unfold u32_max. lia.
  - intros r id x Hid%ex_range. lia.
  - apply ex_one_key.
  - intros c n. cbn. lia.
  - intros r. split; [done|]. by intros i [= <-].
  - intros d r. cbn. split; [done|]. pose proof (ex_find_spec d r) as Hf. by destruct (ex_find d r).
  - intros id len r d p Hid. cbn in Hid |- *. rewrite Hid. split; [done|]. intros n bs [= <- <-]. split; [done|apply ex_read_into].
  - intros len r. cbn. destruct (`r !! 1) eqn:E1; [apply ex_range in E1; lia|]. split; [done|]. intros n bs [= <- <-]. exists (ex_ids r).
    split_and!; [done..|apply ex_read_into].
  - intros id q r d p Hid. cbn in Hid |- *. rewrite Hid. pose proof (ex_put_spec (<[id := (d, q)]> (`r)) tt r) as Hp. destruct (ex_put _ _ _) as [[|] r']; [by subst|apply Hp].
  - intros d q r Hno. cbn in Hno |- *. destruct (`r !! _) eqn:E1; [done|].
    pose proof (ex_put_spec (<[100 + Z.of_nat (size (`r)) := (d, q)]> (`r)) (100 + Z.of_nat (size (`r))) r) as Hp.
    destruct (ex_put _ _ _) as [[|] r']; [by subst|]. by destruct Hp as [-> ->].
  - intros id r. cbn. pose proof (ex_put_spec (delete id (`r)) tt r) as Hp. destruct (ex_put _ _ _) as [[|] r']; [by subst|apply Hp].
  - intros id len r d p Hid. split; [done|]. intros n t. cbn in Hid.
    intros Hx. destruct (ex_describe_spec id r d p Hid n t Hx) as [-> ->]. split; [done|]. intros _ text [= <-]. by exists (str "user;0;0;3f010000").
Defined.

Section examples.
#[local] Existing Instance ex_keyctl.
#[local] Existing Instance ex_laws.

Definition ex_map : gmap Z (Str * list Z) := {[7 := (str "other", [9]); 8 := (str "stratis-1-key-a", [1; 2; 3])]}.
Lemma ex_map_ok : bool_decide (ring_ok ex_map).
Proof. vm_compute. exact I. Defined.
Definition ex_ring : ExRing := ex_map ↾ ex_map_ok.

(** a new key, another key, the same key; then the two keys of Stratis are listed *)
Definition ex_set (d : string) (key : list Z) := SKA_set (str d) (Ok (mkSized (key ++ [0; 0]) (Z.of_nat (length key)))).
Example keys_example :
  (ex_set "b" [5] ex_ring).1 = Ok (MCCreated mkKey) ∧
  (ex_set "a" [5] ex_ring).1 = Ok (MCValueChanged mkKey) ∧
  (ex_set "a" [1; 2; 3] ex_ring).1 = Ok MCIdentity ∧
  (SKA_list 2 (ex_set "b" [5] ex_ring).2).1 = Ok (Some [str "b"; str "a"]).
Proof. vm_compute. done. Qed.

Lemma keyring_refines_map_witness :
  let '(x, r') := SKA_set (str "b") (Ok (mkSized [5; 0; 0] 1)) ex_ring in
  x = Ok (MCCreated mkKey) ∧ key_is r' (to_system_string (str "b")) [5].
Proof.
  assert (map_Forall (λ _ x, (length x.2 ≤ 64)%nat ∧ SEMICOLON ∉ x.1) ex_map) as Hall by (apply (bool_decide_unpack _); vm_compute; exact I).
  destruct (keyring_refines_map (H0 := ex_laws) ex_ring (str "b") (mkSized [5; 0; 0] 1) [5] 2) as [Hs _].
  - reflexivity.
  - intros p [id Hid]. apply Hall in Hid as [Hl _]. change MAX_STRATIS_PASS_SIZE with 64. cbn in Hl. lia.
  - apply (bool_decide_unpack _). vm_compute. exact I.
  - intros id d p Hid. by apply Hall in Hid as [_ ?].
  - lia.
  - assert ((SKA_set (str "b") (Ok (mkSized [5; 0; 0] 1)) ex_ring).1 = Ok (MCCreated mkKey)) as Hx by (vm_compute; reflexivity).
    revert Hs Hx. generalize (SKA_set (str "b") (Ok (mkSized [5; 0; 0] 1)) ex_ring). intros [x r'] Hs Hx. cbn in Hx. subst x.
    split; [reflexivity|]. destruct Hs as [_ Hs]. apply Hs. by left.
Defined.
End examples.
