(* ===== verification/EngineApi.v ===== *)
(** * The interface of an engine

    Models the traits of [src/engine/engine.rs] ([KeyActions], [Filesystem], [BlockDev], [Pool], [Engine]) as the
    class [Traits]: an engine is a type with its methods, over the state [World_] of the rest of the system.  The
    D-Bus API and the JSON RPC server are written against it; [EngineLaws] is what the theorems about the tree of D-Bus objects and about panics rely on.  [SimApi] shows
    that the simulator engine satisfies it.

    The real engine does not.  A call that fails is to have changed nothing, and no call is to panic; but [destroy_filesystems] of [S/pool.rs] (lines 512 to 517) stops at
    the first filesystem it cannot destroy and leaves those before it destroyed, [init_cache] (lines 351 to 354) and [add_blockdevs] can fail after devices
    have joined the pool, and the next devicemapper event after an [init_cache] panics ([PoolOps.init_cache_stale], [PoolOps.stale_device_panics]).  So
    what is proved from [EngineLaws] is stated for the daemons with the simulator ([DbusSim], [RpcSim]); [DbusTypes] and [RpcReplies] need no laws.

    A [&mut self] method is a computation on the object and the world; a reference into the engine is the
    object and the function that writes a new one back.  A [RawFd] is its number.  The methods of [Report], which every engine has, are part of the class. *)
From stdpp Require Import base list gmap strings.
From Stdlib Require Import ZArith Lia.
From S2P Require Import Prelude Json Actions Shared DeviceSet Identify.

Inductive StratisUuid := UDev (u : Z) | UFs (u : Z) | UPool (u : Z).
#[global] Instance StratisUuid_eq_dec : EqDecision StratisUuid.
Proof. solve_decision. Defined.

(** [Deref for StratisUuid] *)
Definition raw_uuid (s : StratisUuid) : Z := match s with UDev u | UFs u | UPool u => u end.

(** [ReportType] *)
Inductive ReportType := ErroredPoolDevices.
Definition ReportType_try_from (name : Str) : res ReportType :=
  if bool_decide (name = str "errored_pool_report") then Ok ErroredPoolDevices
  else Err (Msg "Report name {} not understood").

Class Traits : Type := {
  World_ : Type; Engine_ : Type; Pool_ : Type; Filesystem_ : Type; BlockDev_ : Type;
  (* [Filesystem]; the creation time is in the format of RFC 3339 *)
  fs_devnode : Filesystem_ → Str;
  fs_created : Filesystem_ → Str;
  fs_path_to_mount : Filesystem_ → Str → Str → Str;
  fs_used : Filesystem_ → st World_ Z;
  (* [BlockDev] *)
  bd_devnode : BlockDev_ → Str;
  bd_metadata_path : BlockDev_ → Str;
  bd_user_info : BlockDev_ → option Str;
  bd_hardware_info : BlockDev_ → option Str;
  bd_initialization_time : BlockDev_ → Z;
  bd_size : BlockDev_ → Z;
  bd_is_encrypted : BlockDev_ → bool;
  (* [Pool] *)
  p_init_cache (pool_uuid : Z) (pool_name : Str) (blockdevs : list Str) : st (Pool_ * World_) (SetCreateAction Z);
  p_create_filesystems (pool_name : Str) (pool_uuid : Z) (specs : list (Str * option Z))
    : st (Pool_ * World_) (SetCreateAction (Str * Z));
  p_add_blockdevs (pool_uuid : Z) (pool_name : Str) (paths : list Str) (tier : BlockDevTier)
    : st (Pool_ * World_) (SetCreateAction Z);
  p_bind_clevis (pin : Str) (clevis_info : Value) : st (Pool_ * World_) (CreateAction Clevis);
  p_unbind_clevis : st (Pool_ * World_) (DeleteAction Clevis);
  p_bind_keyring (key_desc : KeyDescription) : st (Pool_ * World_) (CreateAction Key);
  p_unbind_keyring : st (Pool_ * World_) (DeleteAction Key);
  p_rebind_keyring (new_key_desc : KeyDescription) : st (Pool_ * World_) (RenameAction Key);
  p_rebind_clevis : st (Pool_ * World_) RegenAction;
  p_destroy_filesystems (pool_name : Str) (fs_uuids : list Z) : st (Pool_ * World_) (SetDeleteAction Z);
  p_rename_filesystem (pool_name : Str) (uuid : Z) (new_name : Str) : st (Pool_ * World_) (RenameAction Z);
  p_snapshot_filesystem (pool_name : Str) (pool_uuid origin_uuid : Z) (snapshot_name : Str)
    : st (Pool_ * World_) (CreateAction (Z * Filesystem_));
  p_total_physical_size : Pool_ → Z;
  p_total_physical_used : Pool_ → st World_ Z;
  p_filesystems : Pool_ → list (Str * Z * Filesystem_);
  p_get_filesystem : Pool_ → Z → option (Str * Filesystem_);
  p_get_filesystem_by_name : Pool_ → Str → option (Z * Filesystem_);
  p_blockdevs : Pool_ → list (Z * BlockDevTier * BlockDev_);
  p_get_blockdev : Pool_ → Z → option (BlockDevTier * BlockDev_);
  p_set_blockdev_user_info (pool_name : Str) (uuid : Z) (user_info : option Str) : st (Pool_ * World_) (RenameAction Z);
  p_has_cache : Pool_ → bool;
  p_is_encrypted : Pool_ → res bool;
  p_encryption_info : Pool_ → res EncryptionInfo;
  (* [Engine] *)
  e_create_pool (name : Str) (blockdev_paths : list Str) (redundancy : option Z) (encryption_info : EncryptionInfo)
    : st (Engine_ * World_) (CreateAction Z);
  e_handle_event (event : UdevEngineEvent) : st (Engine_ * World_) (option (Str * Z * Pool_));
  e_destroy_pool (uuid : Z) : st (Engine_ * World_) (DeleteAction Z);
  e_rename_pool (uuid : Z) (new_name : Str) : st (Engine_ * World_) (RenameAction Z);
  e_unlock_pool (uuid : Z) (unlock_method : UnlockMethod) : st (Engine_ * World_) (SetUnlockAction Z);
  e_get_pool : Engine_ → Z → option (Str * Pool_);
  e_get_mut_pool : Engine_ → Z → option (Str * Pool_ * (Pool_ → Engine_));
  e_locked_pools : Engine_ → gmap Z LockedPoolInfo;
  e_pools : Engine_ → list (Str * Z * Pool_);
  e_pools_mut : Engine_ → list (Str * Z * Pool_ * (Pool_ → Engine_));
  e_evented : st (Engine_ * World_) unit;
  (* [Report] *)
  e_engine_state_report : Engine_ → Value;
  e_get_report : Engine_ → ReportType → Value;
  (* [KeyActions] of [get_key_handler_mut()] and [get_key_handler()] *)
  k_set (key_desc : KeyDescription) (key_fd : Z) : st (Engine_ * World_) (MappingCreateAction Key);
  k_list : st (Engine_ * World_) (list KeyDescription);
  k_unset (key_desc : KeyDescription) : st (Engine_ * World_) (MappingDeleteAction Key)
}.

(** ** What is relied on *)

Section laws.
Context `{Traits}.

(** the filesystems and block devices of a pool *)
Definition pent (p : Pool_) (s : StratisUuid) : Prop :=
  match s with
  | UFs u => is_Some (p_get_filesystem p u)
  | UDev u => is_Some (p_get_blockdev p u)
  | UPool _ => False
  end.

(** everything an engine has: a pool, or something that belongs to the pool with the UUID given *)
Definition ent (e : Engine_) (parent : option Z) (s : StratisUuid) : Prop :=
  match parent with
  | None => ∃ u, s = UPool u ∧ is_Some (e_get_pool e u)
  | Some u => ∃ n p, e_get_pool e u = Some (n, p) ∧ pent p s
  end.

(** two engines with the same pools, up to their names *)
Definition same_pools (e e' : Engine_) : Prop := ∀ u, snd <$> e_get_pool e' u = snd <$> e_get_pool e u.
(** [u] is new in [e'] *)
Definition pool_added (e e' : Engine_) (u : Z) (p : Pool_) : Prop :=
  e_get_pool e u = None ∧ snd <$> e_get_pool e' u = Some p ∧
  ∀ v, v ≠ u → snd <$> e_get_pool e' v = snd <$> e_get_pool e v.
Definition pool_removed (e e' : Engine_) (u : Z) : Prop :=
  is_Some (e_get_pool e u) ∧ e_get_pool e' u = None ∧
  ∀ v, v ≠ u → snd <$> e_get_pool e' v = snd <$> e_get_pool e v.
End laws.

(** [seen]: the UUIDs in use so far; new things get others.  [engine_inv] and [pool_inv] are the invariants of the
    engine. *)
Class EngineInv `{Traits} : Type := {
  seen : World_ → Z → Prop;
  pool_inv : World_ → Pool_ → Prop;
  engine_inv : World_ → Engine_ → Prop
}.

Section calls.
Context `{EngineInv}.

Definition later (w w' : World_) : Prop := ∀ u, seen w u → seen w' u.

(** A method of a pool, and what it adds and removes.  A call that fails changes neither, as is true of the simulator. *)
Definition pool_call {A} (m : st (Pool_ * World_) A) (added removed : A → list StratisUuid) : Prop :=
  ∀ p w, pool_inv w p → match m (p, w) with
    | (Ok a, (p', w')) =>
        pool_inv w' p' ∧ later w w' ∧ NoDup (added a) ∧
        (∀ s, s ∈ added a → ¬ seen w (raw_uuid s)) ∧ (∀ s, s ∈ removed a → pent p s) ∧
        ∀ s, pent p' s ↔ (pent p s ∧ s ∉ removed a) ∨ s ∈ added a
    | (Err _, (p', w')) => pool_inv w' p' ∧ later w w' ∧ ∀ s, pent p' s ↔ pent p s
    | (Panic _, _) => False
    end.

(** A method of the engine; a call that fails leaves the pools. *)
Definition engine_call {A} (m : st (Engine_ * World_) A) (post : Engine_ → World_ → A → Engine_ → Prop) : Prop :=
  ∀ e w, engine_inv w e → match m (e, w) with
    | (Ok a, (e', w')) => engine_inv w' e' ∧ later w w' ∧ post e w a e'
    | (Err _, (e', w')) => engine_inv w' e' ∧ later w w' ∧ same_pools e e'
    | (Panic _, _) => False
    end.

(** A query of the rest of the system. *)
Definition reads {A} (m : st World_ A) (w : World_) (e : Engine_) : Prop :=
  match m w with (Panic _, _) => False | (_, w') => engine_inv w' e ∧ later w w' end.
End calls.

(** The contract that the simulator keeps, and that the D-Bus code expects of every engine *)
Class EngineLaws `{EngineInv} : Prop := {
  pool_inv_later w w' p : later w w' → pool_inv w p → pool_inv w' p;
  engine_pool_inv w e u n p : engine_inv w e → e_get_pool e u = Some (n, p) → pool_inv w p ∧ seen w u;
  pool_seen w p s : pool_inv w p → pent p s → seen w (raw_uuid s);
  filesystems_law p u : (∃ n f, (n, u, f) ∈ p_filesystems p) ↔ is_Some (p_get_filesystem p u);
  filesystems_nodup w p : pool_inv w p → NoDup ((λ x, x.1.2) <$> p_filesystems p);
  blockdevs_law w p u : pool_inv w p → (∃ t b, (u, t, b) ∈ p_blockdevs p) ↔ is_Some (p_get_blockdev p u);
  blockdevs_nodup w p : pool_inv w p → NoDup ((λ x, x.1.1) <$> p_blockdevs p);
  encryption_law w p : pool_inv w p → (∃ i, p_encryption_info p = Ok i) ∧ ∃ b, p_is_encrypted p = Ok b;
  total_used_law w e p : engine_inv w e → reads (p_total_physical_used p) w e;
  fs_used_law w e f : engine_inv w e → reads (fs_used f) w e;
  pools_law w e n u p : engine_inv w e → (n, u, p) ∈ e_pools e ↔ e_get_pool e u = Some (n, p);
  pools_nodup w e : engine_inv w e → NoDup ((λ x, x.1.2) <$> e_pools e);
  (* references to a pool *)
  get_mut_law e u : match e_get_mut_pool e u with
    | Some (n, p, put) => e_get_pool e u = Some (n, p) ∧
        ∀ p', e_get_pool (put p') u = Some (n, p') ∧ ∀ v, v ≠ u → e_get_pool (put p') v = e_get_pool e v
    | None => e_get_pool e u = None
    end;
  get_mut_inv w w' e u n p put p' : e_get_mut_pool e u = Some (n, p, put) → engine_inv w e →
    later w w' → pool_inv w' p' → engine_inv w' (put p');
  (* methods of a pool: what they add and remove *)
  init_cache_law u n l : pool_call (p_init_cache u n l) (λ a, UDev <$> sc_changed a) (λ _, []);
  create_filesystems_law n u l : pool_call (p_create_filesystems n u l) (λ a, UFs <$> (sc_changed a).*2) (λ _, []);
  add_blockdevs_law u n l t : pool_call (p_add_blockdevs u n l t) (λ a, UDev <$> sc_changed a) (λ _, []);
  bind_clevis_law pin c : pool_call (p_bind_clevis pin c) (λ _, []) (λ _, []);
  unbind_clevis_law : pool_call p_unbind_clevis (λ _, []) (λ _, []);
  bind_keyring_law k : pool_call (p_bind_keyring k) (λ _, []) (λ _, []);
  unbind_keyring_law : pool_call p_unbind_keyring (λ _, []) (λ _, []);
  rebind_keyring_law k : pool_call (p_rebind_keyring k) (λ _, []) (λ _, []);
  rebind_clevis_law : pool_call p_rebind_clevis (λ _, []) (λ _, []);
  destroy_filesystems_law n l : pool_call (p_destroy_filesystems n l) (λ _, []) (λ a, UFs <$> sd_changed a);
  rename_filesystem_law n u m : pool_call (p_rename_filesystem n u m) (λ _, []) (λ _, []);
  snapshot_law n u o m : pool_call (p_snapshot_filesystem n u o m)
    (λ a, match a with CACreated (u, _) => [UFs u] | CAIdentity => [] end) (λ _, []);
  user_info_law n u i : pool_call (p_set_blockdev_user_info n u i) (λ _, []) (λ _, []);
  destroyed_asked n l p w a p' w' : p_destroy_filesystems n l (p, w) = (Ok a, (p', w')) → NoDup l →
    NoDup (sd_changed a) ∧ ∀ u, u ∈ sd_changed a → u ∈ l;
  (* methods of the engine *)
  create_pool_law n l r i : engine_call (e_create_pool n l r i) (λ e w a e',
    match a with
    | CACreated u => ¬ seen w u ∧ ∃ p, pool_added e e' u p ∧
        ∀ s, pent p s → ¬ seen w (raw_uuid s) ∧ ∃ d, s = UDev d
    | CAIdentity => same_pools e e'
    end);
  handle_event_law v : engine_call (e_handle_event v) (λ e w o e',
    match o with
    | Some (_, u, p) => ¬ seen w u ∧ pool_added e e' u p ∧ ∀ s, pent p s → ¬ seen w (raw_uuid s)
    | None => same_pools e e'
    end);
  destroy_pool_law u : engine_call (e_destroy_pool u) (λ e _ a e',
    match a with DADeleted v => v = u ∧ pool_removed e e' u | DAIdentity => same_pools e e' end);
  rename_pool_law u n : engine_call (e_rename_pool u n) (λ e _ _ e', same_pools e e');
  unlock_pool_law u m : engine_call (e_unlock_pool u m) (λ e _ _ e', same_pools e e');
  evented_law : engine_call e_evented (λ e _ _ e', same_pools e e');
  key_set_law k fd : engine_call (k_set k fd) (λ e _ _ e', same_pools e e');
  key_unset_law k : engine_call (k_unset k) (λ e _ _ e', same_pools e e');
  key_list_law : engine_call k_list (λ e _ _ e', same_pools e e')
}.

(** A reference to a pool of the engine, as [pools_mut] gives it *)
Definition lent `{EngineInv} (e : Engine_) (u : Z) (n : Str) (p : Pool_) (put : Pool_ → Engine_) : Prop :=
  e_get_pool e u = Some (n, p) ∧
  ∀ p' w w', engine_inv w e → later w w' → pool_inv w' p' → engine_inv w' (put p').

(** What is relied on where pools are looked up by name *)
Class EngineNames `{EngineInv} : Prop := {
  pools_mut_lent w e n u p put : engine_inv w e → (n, u, p, put) ∈ e_pools_mut e → lent e u n p put;
  pools_mut_names w e : engine_inv w e → NoDup ((λ x, x.1.1.1) <$> e_pools_mut e);
  rename_known e w u n s' : engine_inv w e → is_Some (e_get_pool e u) → e_rename_pool u n (e, w) ≠ (Ok RANoSource, s')
}.
