(* ===== verification/Dbus.v ===== *)
(** * Objects on the D-Bus

    Models [src/dbus_api/consts.rs], [types.rs], [util.rs], [api/mod.rs], the functions of [pool/mod.rs], [filesystem/mod.rs]
    and [blockdev/mod.rs] that make objects, and the two handlers that run beside the one for method calls: [DbusUdevHandler]
    of [udev.rs] and [DbusTreeHandler] of [connection.rs].

    The tree of objects is a map from object paths; an object has its methods and properties, each with the interface and
    the name it is found by (what the [dbus_tree] crate keeps), and its context.  Requests that change the tree are queued and
    processed by the tree handler.  A signal is a value; that sending one can fail has no effect but a log message. *)
From stdpp Require Import base list gmap strings pretty.
From Stdlib Require Import ZArith Lia.
From S2P Require Import Prelude External Json Actions Shared Identify EngineApi.

(** ** Constants *)
Definition STRATIS_BASE_PATH : Str := str "/org/storage/stratis3".
Definition MANAGER_INTERFACE_NAME_3_0 : string := "org.storage.stratis3.Manager.r0".
Definition REPORT_INTERFACE_NAME_3_0 : string := "org.storage.stratis3.Report.r0".
Definition PROPERTY_FETCH_INTERFACE_NAME_3_0 : string := "org.storage.stratis3.FetchProperties.r0".
Definition KEY_LIST_PROP : string := "KeyList".
Definition LOCKED_POOL_UUIDS : string := "LockedPoolUuids".
Definition LOCKED_POOLS : string := "LockedPools".
Definition LOCKED_POOL_DEVS : string := "LockedPoolsWithDevs".
Definition POOL_INTERFACE_NAME_3_0 : string := "org.storage.stratis3.pool.r0".
Definition POOL_NAME_PROP : string := "Name".
Definition POOL_UUID_PROP : string := "Uuid".
Definition POOL_HAS_CACHE_PROP : string := "HasCache".
Definition POOL_ENCRYPTED_PROP : string := "Encrypted".
Definition POOL_ENCRYPTION_KEY_DESC : string := "KeyDescription".
Definition POOL_TOTAL_SIZE_PROP : string := "TotalPhysicalSize".
Definition POOL_TOTAL_USED_PROP : string := "TotalPhysicalUsed".
Definition POOL_CLEVIS_INFO : string := "ClevisInfo".
Definition FILESYSTEM_INTERFACE_NAME_3_0 : string := "org.storage.stratis3.filesystem.r0".
Definition FILESYSTEM_NAME_PROP : string := "Name".
Definition FILESYSTEM_UUID_PROP : string := "Uuid".
Definition FILESYSTEM_USED_PROP : string := "Used".
Definition FILESYSTEM_DEVNODE_PROP : string := "Devnode".
Definition FILESYSTEM_POOL_PROP : string := "Pool".
Definition FILESYSTEM_CREATED_PROP : string := "Created".
Definition BLOCKDEV_INTERFACE_NAME_3_0 : string := "org.storage.stratis3.blockdev.r0".
Definition BLOCKDEV_DEVNODE_PROP : string := "Devnode".
Definition BLOCKDEV_HARDWARE_INFO_PROP : string := "HardwareInfo".
Definition BLOCKDEV_USER_INFO_PROP : string := "UserInfo".
Definition BLOCKDEV_INIT_TIME_PROP : string := "InitializationTime".
Definition BLOCKDEV_POOL_PROP : string := "Pool".
Definition BLOCKDEV_UUID_PROP : string := "Uuid".
Definition BLOCKDEV_TIER_PROP : string := "Tier".
Definition BLOCKDEV_PHYSICAL_PATH_PROP : string := "PhysicalPath".
Definition BLOCKDEV_TOTAL_SIZE_PROP : string := "TotalPhysicalSize".

Definition fetch_properties_interfaces : list string := [PROPERTY_FETCH_INTERFACE_NAME_3_0].
Definition standard_pool_interfaces : list string := [POOL_INTERFACE_NAME_3_0].
Definition standard_filesystem_interfaces : list string := [FILESYSTEM_INTERFACE_NAME_3_0].
Definition standard_blockdev_interfaces : list string := [BLOCKDEV_INTERFACE_NAME_3_0].
Definition pool_interface_list : list string := standard_pool_interfaces ++ fetch_properties_interfaces.
Definition filesystem_interface_list : list string := standard_filesystem_interfaces ++ fetch_properties_interfaces.
Definition blockdev_interface_list : list string := standard_blockdev_interfaces ++ fetch_properties_interfaces.

(** ** Values *)

Definition Path : Type := Str.

(** the text of a reply: [OK_STRING], the text of an error of the engine, or another one *)
Inductive RText : Type := OK_STRING | EngineErr (e : StratisError) | Text (s : string).

(** what messages carry; [DText] is a string that is the text of an error *)
Inductive DVal : Type :=
| DBool (b : bool)
| DText (t : RText)
| DU16 (n : Z)
| DU64 (n : Z)
| DStr (s : Str)
| DPath (p : Path)
| DFd (fd : Z)
| DArray (l : list DVal)
| DStruct (l : list DVal)
| DDict (l : list (DVal * DVal))
| DVariant (v : DVal).

(** types of values, by the letters of their signatures; [Tr] is a structure, [Te] a dictionary *)
Inductive Ty : Type := Tb | Tq | Tt | Ts | To | Th | Tv | Ta (t : Ty) | Tr (ts : list Ty) | Te (k v : Ty).

Fixpoint has_type (v : DVal) (t : Ty) {struct v} : bool :=
  match v, t with
  | DBool _, Tb | DU16 _, Tq | DU64 _, Tt | DStr _, Ts | DText _, Ts | DPath _, To | DFd _, Th | DVariant _, Tv => true
  | DArray l, Ta t => forallb (λ x, has_type x t) l
  | DStruct l, Tr ts =>
      (fix go (l : list DVal) (ts : list Ty) : bool :=
         match l, ts with
         | [], [] => true
         | x :: l, t :: ts => has_type x t && go l ts
         | _, _ => false
         end) l ts
  | DDict l, Te k v => forallb (λ x, has_type x.1 k && has_type x.2 v) l
  | _, _ => false
  end.

Inductive DbusErrorEnum := OK | ERROR.

(** [return_message.append3(..)], or [append1] for replies without a code *)
Inductive Reply : Type :=
| append3 (v : DVal) (rc : DbusErrorEnum) (rs : RText)
| append1 (v : DVal).

Inductive MethodErr : Type := no_arg | invalid_arg (loc : Z) | failed (e : RText) | no_such_method.

(** ** Objects *)

Record OPContext : Type := mkOP { op_parent : Path; op_uuid : StratisUuid }.
#[global] Instance OPContext_eq_dec : EqDecision OPContext.
Proof. solve_decision. Defined.

(** the functions methods and properties are bound to *)
Inductive Handler : Type :=
| Hget_managed_objects
| Hcreate_pool | Hset_key | Hunset_key | Hunlock_pool | Hdestroy_pool | Hengine_state_report | Hget_report
| Hcreate_filesystems | Hdestroy_filesystems | Hsnapshot_filesystem | Hadd_datadevs | Hbind_clevis | Hunbind_clevis
| Hinit_cache | Hadd_cachedevs | Hbind_keyring | Hunbind_keyring | Hrebind_keyring | Hrebind_clevis | Hrename_pool
| Hrename_filesystem | Hset_user_info
| Hapi_get_all_properties | Hapi_get_properties | Hpool_get_all_properties | Hpool_get_properties
| Hfs_get_all_properties | Hfs_get_properties | Hbd_get_all_properties | Hbd_get_properties.

Inductive Getter : Type :=
| Gversion | Guuid | Gparent | Gpool_name | Gpool_encrypted
| Gfs_devnode | Gfs_name | Gfs_created
| Gbd_devnode | Gbd_hardware_info | Gbd_user_info | Gbd_initialization_time | Gbd_tier | Gbd_physical_path.

(** [f.method(..).in_arg(..).out_arg(..)] and [f.property::<..>(..).on_get(..)] *)
Record Method : Type := mkMethod {
  m_name : string; m_handler : Handler; in_args : list (string * Ty); out_args : list (string * Ty) }.
Record Property : Type := mkProperty { pr_name : string; pr_type : Ty; on_get : Getter }.

Record ObjectPath : Type := mkObj {
  o_name : Path; o_data : option OPContext;
  o_methods : list (string * Method); o_properties : list (string * Property) }.

Notation Tree := (gmap Path ObjectPath).

(** [InterfacesAddedThreadSafe] *)
Notation InterfacesAdded := (list (string * list (string * DVal))).
Notation InterfacesRemoved := (list string).

Inductive DbusAction : Type :=
| Add (object_path : ObjectPath) (interfaces : InterfacesAdded)
| Remove (path : Path) (interfaces : InterfacesRemoved)
| FsNameChange (path : Path) (new_name : Str)
| PoolNameChange (path : Path) (new_name : Str).

Inductive Signal : Type :=
| InterfacesAddedSignal (object : Path) (interfaces : InterfacesAdded)
| InterfacesRemovedSignal (object : Path) (interfaces : InterfacesRemoved)
| PropertiesChanged (object : Path) (interface : string) (changed : list (string * DVal)) (invalidated : list string).

(** *** The base of the tree *)

Definition with_methods (interface : string) (l : list Method) : list (string * Method) := pair interface <$> l.
Definition with_properties (interface : string) (l : list Property) : list (string * Property) := pair interface <$> l.

(** the arguments most methods return: a result, a code and a text *)
Definition returns (name : string) (t : Ty) : list (string * Ty) := [(name, t); ("return_code", Tq); ("return_string", Ts)].

Definition get_managed_objects_method : Method :=
  mkMethod "GetManagedObjects" Hget_managed_objects [] [].
Definition destroy_pool_method : Method :=
  mkMethod "DestroyPool" Hdestroy_pool [("pool", To)] (returns "result" (Tr [Tb; Ts])).
Definition version_property : Property := mkProperty "Version" Ts Gversion.
Definition unset_key_method : Method :=
  mkMethod "UnsetKey" Hunset_key [("key_desc", Ts)] (returns "result" Tb).
Definition set_key_method : Method :=
  mkMethod "SetKey" Hset_key [("key_desc", Ts); ("key_fd", Th); ("interactive", Tb)] (returns "result" (Tr [Tb; Tb])).
Definition unlock_pool_method : Method :=
  mkMethod "UnlockPool" Hunlock_pool [("pool_uuid", Ts); ("unlock_method", Ts)] (returns "result" (Tr [Tb; Ta Ts])).
Definition create_pool_method : Method :=
  mkMethod "CreatePool" Hcreate_pool
    [("name", Ts); ("redundancy", Tr [Tb; Tq]); ("devices", Ta Ts); ("key_desc", Tr [Tb; Ts]);
     ("clevis_info", Tr [Tb; Tr [Ts; Ts]])]
    (returns "result" (Tr [Tb; Tr [To; Ta To]])).
Definition engine_state_report_method : Method := mkMethod "EngineStateReport" Hengine_state_report [] (returns "result" Ts).
Definition get_report_method : Method := mkMethod "GetReport" Hget_report [("name", Ts)] (returns "result" Ts).
Definition get_all_properties_method (h : Handler) : Method :=
  mkMethod "GetAllProperties" h [] [("results", Te Ts (Tr [Tb; Tv]))].
Definition get_properties_method (h : Handler) : Method :=
  mkMethod "GetProperties" h [("properties", Ta Ts)] [("results", Te Ts (Tr [Tb; Tv]))].

Definition manager_object : ObjectPath := mkObj STRATIS_BASE_PATH None
  (with_methods "org.freedesktop.DBus.ObjectManager" [get_managed_objects_method] ++
   with_methods MANAGER_INTERFACE_NAME_3_0
     [create_pool_method; set_key_method; unset_key_method; unlock_pool_method; destroy_pool_method; engine_state_report_method] ++
   with_methods PROPERTY_FETCH_INTERFACE_NAME_3_0
     [get_all_properties_method Hapi_get_all_properties; get_properties_method Hapi_get_properties] ++
   with_methods REPORT_INTERFACE_NAME_3_0 [get_report_method])
  (with_properties MANAGER_INTERFACE_NAME_3_0 [version_property]).

(** *** Pools *)
Definition create_filesystems_method : Method :=
  mkMethod "CreateFilesystems" Hcreate_filesystems [("specs", Ta Ts)] (returns "results" (Tr [Tb; Ta (Tr [To; Ts])])).
Definition destroy_filesystems_method : Method :=
  mkMethod "DestroyFilesystems" Hdestroy_filesystems [("filesystems", Ta To)] (returns "results" (Tr [Tb; Ta Ts])).
Definition snapshot_filesystem_method : Method :=
  mkMethod "SnapshotFilesystem" Hsnapshot_filesystem [("origin", To); ("snapshot_name", Ts)] (returns "result" (Tr [Tb; To])).
Definition add_blockdevs_method : Method :=
  mkMethod "AddDataDevs" Hadd_datadevs [("devices", Ta Ts)] (returns "results" (Tr [Tb; Ta To])).
Definition pool_rename_method : Method :=
  mkMethod "SetName" Hrename_pool [("name", Ts)] (returns "result" (Tr [Tb; Ts])).
Definition pool_name_property : Property := mkProperty POOL_NAME_PROP Ts Gpool_name.
Definition uuid_property : Property := mkProperty POOL_UUID_PROP Ts Guuid.
Definition init_cache_method : Method :=
  mkMethod "InitCache" Hinit_cache [("devices", Ta Ts)] (returns "results" (Tr [Tb; Ta To])).
Definition add_cachedevs_method : Method :=
  mkMethod "AddCacheDevs" Hadd_cachedevs [("devices", Ta Ts)] (returns "results" (Tr [Tb; Ta To])).
Definition encrypted_property : Property := mkProperty POOL_ENCRYPTED_PROP Tb Gpool_encrypted.
Definition bind_clevis_method : Method :=
  mkMethod "Bind" Hbind_clevis [("pin", Ts); ("json", Ts)] (returns "results" Tb).
Definition unbind_clevis_method : Method := mkMethod "Unbind" Hunbind_clevis [] (returns "results" Tb).
Definition bind_keyring_method : Method := mkMethod "BindKeyring" Hbind_keyring [("key_desc", Ts)] (returns "results" Tb).
Definition unbind_keyring_method : Method := mkMethod "UnbindKeyring" Hunbind_keyring [] (returns "results" Tb).
Definition rebind_keyring_method : Method := mkMethod "RebindKeyring" Hrebind_keyring [("key_desc", Ts)] (returns "results" Tb).
Definition rebind_clevis_method : Method := mkMethod "RebindClevis" Hrebind_clevis [] (returns "results" Tb).

(** *** Filesystems and block devices *)
Definition fs_rename_method : Method :=
  mkMethod "SetName" Hrename_filesystem [("name", Ts)] (returns "result" (Tr [Tb; Ts])).
Definition fs_devnode_property : Property := mkProperty FILESYSTEM_DEVNODE_PROP Ts Gfs_devnode.
Definition fs_name_property : Property := mkProperty FILESYSTEM_NAME_PROP Ts Gfs_name.
Definition fs_pool_property : Property := mkProperty FILESYSTEM_POOL_PROP To Gparent.
Definition fs_uuid_property : Property := mkProperty FILESYSTEM_UUID_PROP Ts Guuid.
Definition fs_created_property : Property := mkProperty "Created" Ts Gfs_created.
Definition set_userid_method : Method :=
  mkMethod "SetUserInfo" Hset_user_info [("id", Tr [Tb; Ts])] (returns "changed" (Tr [Tb; Ts])).
Definition bd_devnode_property : Property := mkProperty BLOCKDEV_DEVNODE_PROP Ts Gbd_devnode.
Definition bd_hardware_info_property : Property := mkProperty BLOCKDEV_HARDWARE_INFO_PROP (Tr [Tb; Ts]) Gbd_hardware_info.
Definition bd_user_info_property : Property := mkProperty BLOCKDEV_USER_INFO_PROP (Tr [Tb; Ts]) Gbd_user_info.
Definition bd_initialization_time_property : Property := mkProperty BLOCKDEV_INIT_TIME_PROP Tt Gbd_initialization_time.
Definition bd_pool_property : Property := mkProperty BLOCKDEV_POOL_PROP To Gparent.
Definition bd_uuid_property : Property := mkProperty BLOCKDEV_UUID_PROP Ts Guuid.
Definition bd_tier_property : Property := mkProperty BLOCKDEV_TIER_PROP Tq Gbd_tier.
Definition bd_physical_path_property : Property := mkProperty BLOCKDEV_PHYSICAL_PATH_PROP Ts Gbd_physical_path.

(** [get_base_tree] *)
Definition get_base_tree : Tree * Path :=
  (<[STRATIS_BASE_PATH := manager_object]>
    (<[str "/org/storage" := mkObj (str "/org/storage") None [] []]>
      (<[str "/org" := mkObj (str "/org") None [] []]>
        {[str "/" := mkObj (str "/") None [] []]})),
   STRATIS_BASE_PATH).

(** ** Method calls

    [Early]: the function returns a reply at once; [MErr]: it returns an error; [Crash]: it panics.  [Unlocked a r]: the
    function has given back the lock of the engine, which it held only for one call; it has still to queue [a] and to return [r]. *)
Section meth.
Context `{Traits}.

(** [DbusContext], with the engine it locks and the queue it sends to *)
Record Ctx : Type := mkCtx {
  c_engine : Engine_; c_world : World_; c_queue : list DbusAction; next_index : Z }.

Inductive ret (A : Type) : Type :=
| Val (a : A)
| Early (r : Reply)
| Unlocked (a : DbusAction) (r : Reply)
| MErr (e : MethodErr)
| Crash (why : string).
End meth.
Arguments Val {A} a.
Arguments Early {A} r.
Arguments Unlocked {A} a r.
Arguments MErr {A} e.
Arguments Crash {A} why.

Section context.
Context `{Traits}.

Definition meth (A : Type) : Type := Ctx → ret A * Ctx.
#[global] Instance meth_ret : MRet meth := λ A a c, (Val a, c).
#[global] Instance meth_bind : MBind meth := λ A B k m c,
  match m c with
  | (Val a, c) => k a c
  | (Early r, c) => (Early r, c)
  | (Unlocked a r, c) => (Unlocked a r, c)
  | (MErr e, c) => (MErr e, c)
  | (Crash w, c) => (Crash w, c)
  end.

Definition early {A} (r : Reply) : meth A := λ c, (Early r, c).
Definition unlocked {A} (a : DbusAction) (r : Reply) : meth A := λ c, (Unlocked a r, c).
Definition merr {A} (e : MethodErr) : meth A := λ c, (MErr e, c).
(** a value that may panic *)
Definition checked {A} (r : res A) : meth A := λ c,
  (match r with Ok a => Val a | Err _ => Crash "unwrap" | Panic w => Crash w end, c).

(** a method of the locked engine, and its [Result] *)
Definition on_engine {A} (m : st (Engine_ * World_) A) : meth (StratisError + A) := λ c,
  let '(r, (e, w)) := m (c_engine c, c_world c) in
  (match r with Ok a => Val (inr a) | Err e => Val (inl e) | Panic w => Crash w end,
   mkCtx e w (c_queue c) (next_index c)).
(** a method of a pool found by [get_mut_pool] *)
Definition on_mut_pool {A} (pool : Pool_) (put : Pool_ → Engine_) (m : st (Pool_ * World_) A)
    : meth ((StratisError + A) * Pool_) := λ c,
  let '(r, (p, w)) := m (pool, c_world c) in
  (match r with Ok a => Val (inr a, p) | Err e => Val (inl e, p) | Panic w => Crash w end,
   mkCtx (put p) w (c_queue c) (next_index c)).
(** a computation that only looks at the world *)
Definition on_world {A} (m : st World_ A) : meth (StratisError + A) := λ c,
  let '(r, w) := m (c_world c) in
  (match r with Ok a => Val (inr a) | Err e => Val (inl e) | Panic w => Crash w end,
   mkCtx (c_engine c) w (c_queue c) (next_index c)).
Definition the_engine : meth Engine_ := λ c, (Val (c_engine c), c).

(** *** [DbusContext] *)

(** [fetch_add] wraps around *)
Definition get_next_id : meth Z := λ c,
  (Val (next_index c), mkCtx (c_engine c) (c_world c) (c_queue c) (next_index c +64 1)).

Definition send (a : DbusAction) : meth unit := λ c,
  (Val tt, mkCtx (c_engine c) (c_world c) (c_queue c ++ [a]) (next_index c)).
Definition push_add (object_path : ObjectPath) (interfaces : InterfacesAdded) : meth unit := send (Add object_path interfaces).
Definition push_remove (item : Path) (interfaces : InterfacesRemoved) : meth unit := send (Remove item interfaces).
Definition push_filesystem_name_change (item : Path) (new_name : Str) : meth unit := send (FsNameChange item new_name).
(** what [push_remove] and [push_pool_name_change] queue when the lock of the engine has been given back before *)
Definition remove_action (item : Path) (interfaces : InterfacesRemoved) : DbusAction := Remove item interfaces.
Definition pool_name_change_action (item : Path) (new_name : Str) : DbusAction := FsNameChange item new_name.

Definition object_path_of (id : Z) : Path := STRATIS_BASE_PATH ++ str "/" ++ str (pretty id).
Definition make_object_path : meth Path := id ← get_next_id; mret (object_path_of id).

(** *** Conversions *)

Definition tuple_to_option {A} (value : bool * A) : option A := if value.1 then Some value.2 else None.
Definition option_to_tuple {A} (value : option A) (default : A) : bool * A :=
  match value with Some v => (true, v) | None => (false, default) end.
Definition result_to_tuple (result : RText + DVal) : DVal :=
  match result with
  | inr value => DStruct [DBool true; DVariant value]
  | inl e => DStruct [DBool false; DVariant (DText e)]
  end.
Definition engine_to_dbus_err_tuple (err : StratisError) : DbusErrorEnum * RText := (ERROR, EngineErr err).

(** *** Objects *)

Context `{UuidFormat}.
Definition uuid_str (u : Z) : DVal := DStr (uuid_simple u).
Definition fetch_methods (all get : Handler) : list (string * Method) :=
  with_methods PROPERTY_FETCH_INTERFACE_NAME_3_0 [get_all_properties_method all; get_properties_method get].

(** [initial_properties!] *)
Definition initial_properties (interface : string) (l : list (string * DVal)) : InterfacesAdded :=
  (interface, l) :: ((λ i, (i, [])) <$> fetch_properties_interfaces).

Definition pool_name_prop (name : Str) : DVal := DStr name.
Definition pool_enc_prop (pool : Pool_) : res DVal := rmap DBool (p_is_encrypted pool).
Definition get_pool_properties (pool_name : Str) (pool_uuid : Z) (pool : Pool_) : res InterfacesAdded :=
  let? enc := pool_enc_prop pool in
  Ok (initial_properties POOL_INTERFACE_NAME_3_0
       [(POOL_NAME_PROP, pool_name_prop pool_name); (POOL_UUID_PROP, uuid_str pool_uuid); (POOL_ENCRYPTED_PROP, enc)]).

Definition pool_object (object_name parent : Path) (uuid : Z) : ObjectPath :=
  mkObj object_name (Some (mkOP parent (UPool uuid)))
    (with_methods POOL_INTERFACE_NAME_3_0
      [create_filesystems_method; destroy_filesystems_method; snapshot_filesystem_method; add_blockdevs_method;
       bind_clevis_method; unbind_clevis_method; init_cache_method; add_cachedevs_method; bind_keyring_method;
       unbind_keyring_method; rebind_keyring_method; rebind_clevis_method; pool_rename_method] ++
     fetch_methods Hpool_get_all_properties Hpool_get_properties)
    (with_properties POOL_INTERFACE_NAME_3_0 [pool_name_property; uuid_property; encrypted_property]).
Definition create_dbus_pool (parent : Path) (name : Str) (uuid : Z) (pool : Pool_) : meth Path :=
  object_name ← make_object_path;
  let object_path := pool_object object_name parent uuid in
  interfaces ← checked (get_pool_properties name uuid pool);
  push_add object_path interfaces;;
  mret object_name.

Definition fs_name_prop (name : Str) : DVal := DStr name.
Definition fs_devnode_prop (fs : Filesystem_) (pool_name fs_name : Str) : DVal := DStr (fs_path_to_mount fs pool_name fs_name).
Definition fs_created_prop (fs : Filesystem_) : DVal := DStr (fs_created fs).
Definition get_fs_properties (parent : Path) (pool_name fs_name : Str) (fs_uuid : Z) (fs : Filesystem_) : InterfacesAdded :=
  initial_properties FILESYSTEM_INTERFACE_NAME_3_0
    [(FILESYSTEM_NAME_PROP, fs_name_prop fs_name); (FILESYSTEM_UUID_PROP, uuid_str fs_uuid);
     (FILESYSTEM_DEVNODE_PROP, fs_devnode_prop fs pool_name fs_name); (FILESYSTEM_POOL_PROP, DPath parent);
     (FILESYSTEM_CREATED_PROP, fs_created_prop fs)].

Definition filesystem_object (object_name parent : Path) (uuid : Z) : ObjectPath :=
  mkObj object_name (Some (mkOP parent (UFs uuid)))
    (with_methods FILESYSTEM_INTERFACE_NAME_3_0 [fs_rename_method] ++
     fetch_methods Hfs_get_all_properties Hfs_get_properties)
    (with_properties FILESYSTEM_INTERFACE_NAME_3_0
      [fs_devnode_property; fs_name_property; fs_pool_property; fs_uuid_property; fs_created_property]).
Definition create_dbus_filesystem (parent : Path) (pool_name name : Str) (uuid : Z) (filesystem : Filesystem_) : meth Path :=
  object_name ← make_object_path;
  let object_path := filesystem_object object_name parent uuid in
  push_add object_path (get_fs_properties parent pool_name name uuid filesystem);;
  mret object_name.

Definition blockdev_devnode_prop (dev : BlockDev_) : DVal := DStr (bd_metadata_path dev).
Definition opt_str (o : option Str) : DVal :=
  match o with None => DStruct [DBool false; DStr []] | Some val => DStruct [DBool true; DStr val] end.
Definition blockdev_hardware_info_prop (dev : BlockDev_) : DVal := opt_str (bd_hardware_info dev).
Definition blockdev_user_info_prop (dev : BlockDev_) : DVal := opt_str (bd_user_info dev).
Definition blockdev_init_time_prop (dev : BlockDev_) : DVal := DU64 (wrap64 (bd_initialization_time dev)).
Definition blockdev_tier_prop (tier : BlockDevTier) : DVal := DU16 (match tier with Data => 0 | Cache => 1 end).
Definition blockdev_physical_path_prop (dev : BlockDev_) : DVal := DStr (bd_devnode dev).
Definition get_blockdev_properties (parent : Path) (dev_uuid : Z) (tier : BlockDevTier) (dev : BlockDev_) : InterfacesAdded :=
  initial_properties BLOCKDEV_INTERFACE_NAME_3_0
    [(BLOCKDEV_DEVNODE_PROP, blockdev_devnode_prop dev); (BLOCKDEV_HARDWARE_INFO_PROP, blockdev_hardware_info_prop dev);
     (BLOCKDEV_USER_INFO_PROP, blockdev_user_info_prop dev); (BLOCKDEV_INIT_TIME_PROP, blockdev_init_time_prop dev);
     (BLOCKDEV_POOL_PROP, DPath parent); (BLOCKDEV_UUID_PROP, uuid_str dev_uuid);
     (BLOCKDEV_TIER_PROP, blockdev_tier_prop tier); (BLOCKDEV_PHYSICAL_PATH_PROP, blockdev_physical_path_prop dev)].

Definition blockdev_object (object_name parent : Path) (uuid : Z) : ObjectPath :=
  mkObj object_name (Some (mkOP parent (UDev uuid)))
    (with_methods BLOCKDEV_INTERFACE_NAME_3_0 [set_userid_method] ++
     fetch_methods Hbd_get_all_properties Hbd_get_properties)
    (with_properties BLOCKDEV_INTERFACE_NAME_3_0
      [bd_devnode_property; bd_hardware_info_property; bd_initialization_time_property; bd_pool_property; bd_tier_property;
       bd_user_info_property; bd_uuid_property; bd_physical_path_property]).
Definition create_dbus_blockdev (parent : Path) (uuid : Z) (tier : BlockDevTier) (blockdev : BlockDev_) : meth Path :=
  object_name ← make_object_path;
  let object_path := blockdev_object object_name parent uuid in
  push_add object_path (get_blockdev_properties parent uuid tier blockdev);;
  mret object_name.

(** objects for the filesystems and block devices of a pool, in order *)
Fixpoint create_filesystem_objects (parent : Path) (pool_name : Str) (l : list (Str * Z * Filesystem_)) : meth (list Path) :=
  match l with
  | [] => mret []
  | (fs_name, fs_uuid, fs) :: rest =>
      path ← create_dbus_filesystem parent pool_name fs_name fs_uuid fs;
      paths ← create_filesystem_objects parent pool_name rest;
      mret (path :: paths)
  end.
Fixpoint create_blockdev_objects (parent : Path) (l : list (Z * BlockDevTier * BlockDev_)) : meth (list Path) :=
  match l with
  | [] => mret []
  | (uuid, tier, bd) :: rest =>
      path ← create_dbus_blockdev parent uuid tier bd;
      paths ← create_blockdev_objects parent rest;
      mret (path :: paths)
  end.

(** ** [DbusUdevHandler] *)

Definition register_pool (path : Path) (pool_name : Str) (pool_uuid : Z) (pool : Pool_) : meth unit :=
  pool_path ← create_dbus_pool path pool_name pool_uuid pool;
  _ ← create_filesystem_objects pool_path pool_name (p_filesystems pool);
  _ ← create_blockdev_objects pool_path (p_blockdevs pool);
  mret tt.

(** [setup] of [ipc_support/dbus_support.rs]: the pools the engine has when the daemon starts *)
Fixpoint register_pools (path : Path) (l : list (Str * Z * Pool_)) : meth unit :=
  match l with
  | [] => mret tt
  | (pool_name, pool_uuid, pool) :: rest => register_pool path pool_name pool_uuid pool;; register_pools path rest
  end.
Definition setup (path : Path) : meth unit := e ← the_engine; register_pools path (e_pools e).

(** an event received from the udev thread *)
Definition handle_udev_event (path : Path) (udev_event : UdevEngineEvent) : meth unit :=
  r ← on_engine (e_handle_event udev_event);
  match r with
  | inr (Some (pool_name, pool_uuid, pool)) => register_pool path pool_name pool_uuid pool
  | _ => mret tt
  end.
End context.

(** ** [DbusTreeHandler] *)

Definition has_parent (path : Path) (o : ObjectPath) : bool :=
  match o_data o with Some op_cxt => bool_decide (op_parent op_cxt = path) | None => false end.

Definition interface_list (u : StratisUuid) : list string :=
  match u with UPool _ => pool_interface_list | UFs _ => filesystem_interface_list | UDev _ => blockdev_interface_list end.

(** the objects below [path], with their interfaces *)
Definition children (path : Path) (tree : Tree) : list (Path * list string) :=
  omap (λ x : Path * ObjectPath, match o_data x.2 with
                | Some op_cxt => if bool_decide (op_parent op_cxt = path) then Some (o_name x.2, interface_list (op_uuid op_cxt)) else None
                | None => None
                end) (map_to_list tree).

Fixpoint remove_objects (paths : list (Path * list string)) (tree : Tree) : Tree * list Signal :=
  match paths with
  | [] => (tree, [])
  | (path, interfaces) :: rest =>
      let '(tree, sigs) := remove_objects rest (delete path tree) in
      (tree, InterfacesRemovedSignal path interfaces :: sigs)
  end.

Definition property_changed_invalidated_signal (object : Path) (changed : list (string * DVal)) (invalidated : list string)
    (interfaces : list string) : list Signal :=
  (λ interface, PropertiesChanged object interface changed invalidated) <$> interfaces.

Definition is_fs (o : ObjectPath) : bool :=
  match o_data o with Some (mkOP _ (UFs _)) => true | _ => false end.

Definition handle_dbus_action (action : DbusAction) (tree : Tree) : Tree * list Signal :=
  match action with
  | Add path interfaces => (<[o_name path := path]> tree, [InterfacesAddedSignal (o_name path) interfaces])
  | Remove path interfaces =>
      let '(tree, sigs) := remove_objects (children path tree) tree in
      (delete path tree, sigs ++ [InterfacesRemovedSignal path interfaces])
  | FsNameChange item new_name =>
      (tree, property_changed_invalidated_signal item [(FILESYSTEM_NAME_PROP, DStr new_name)] [FILESYSTEM_DEVNODE_PROP]
               standard_filesystem_interfaces)
  | PoolNameChange item new_name =>
      (tree, property_changed_invalidated_signal item [(POOL_NAME_PROP, DStr new_name)] [] standard_pool_interfaces ++
             (filter (λ x : Path * ObjectPath, has_parent item x.2 = true ∧ is_fs x.2 = true) (map_to_list tree) ≫=
                λ x, property_changed_invalidated_signal (o_name x.2) [] [FILESYSTEM_DEVNODE_PROP] standard_filesystem_interfaces))
  end.

(** what the handler wakes up for: an action, the end of the channel, a request to exit (before or after it has
    an action and waits for the lock of the tree), or the loss of that channel *)
Inductive Wake : Type := Received (action : DbusAction) | Closed | Exit | ExitClosed.

(** [process_dbus_actions]: one round of the loop; [Some r] ends it with the result [r] *)
Definition process_dbus_action (wake : Wake) (tree : Tree) : option (res unit) * Tree * list Signal :=
  match wake with
  | Received action => let '(tree, sigs) := handle_dbus_action action tree in (None, tree, sigs)
  | Closed => (Some (Err (Msg "The channel from the D-Bus request handler to the D-Bus object handler was closed")), tree, [])
  | Exit => (Some (Ok tt), tree, [])
  | ExitClosed => (Some (Err (Msg "D-Bus tree handler can no longer be notified to exit; shutting down...")), tree, [])
  end.
