(* ===== verification/DbusMethods.v ===== *)
(** * Methods and properties on the D-Bus

    Models the method and property functions of [src/dbus_api/]: [api/manager_3_0/], [api/fetch_properties_3_0/], [api/shared.rs],
    [pool/], [filesystem/], [blockdev/] and the macros of [macros.rs].  A function gets the tree, which it holds locked for reading,
    the path of the object it is called on and the arguments of the message; [Ctx] is what it changes.
    A method locks the engine once and holds the lock until it has queued what it changed, so it is one step of the daemon.
    [destroy_pool] and [rename_pool] are the exceptions: [log_action!] drops the lock right after the call, before the change is
    queued, and the model splits them there ([unlocked]).  Getters of several properties lock the engine for each; they change nothing
    of it and are one step. *)
From stdpp Require Import base list gmap strings pretty.
From Stdlib Require Import ZArith Lia.
From S2P Require Import Prelude External Json Actions Shared DeviceSet EngineApi Dbus.

(** [serde_json::from_str], [to_string] *)
Class JsonText : Type := { json_from_str : Str → option Value; json_to_string : Value → Str }.

Section methods.
Context `{Traits} `{UuidFormat} `{JsonText}.
Context (tree : Tree) (object_path : Path) (args : list DVal).

(** ** Arguments *)

Definition get_next_arg {A} (read : DVal → option A) (loc : nat) : meth A :=
  match args !! loc with
  | None => merr no_arg
  | Some v => match read v with Some a => mret a | None => merr (invalid_arg (Z.of_nat loc)) end
  end.

Definition as_bool (v : DVal) : option bool := match v with DBool b => Some b | _ => None end.
Definition as_u16 (v : DVal) : option Z := match v with DU16 n => Some n | _ => None end.
Definition as_str (v : DVal) : option Str := match v with DStr s => Some s | _ => None end.
Definition as_path (v : DVal) : option Path := match v with DPath p => Some p | _ => None end.
Definition as_fd (v : DVal) : option Z := match v with DFd fd => Some fd | _ => None end.
Definition as_array {A} (read : DVal → option A) (v : DVal) : option (list A) :=
  match v with DArray l => mapM read l | _ => None end.
Definition as_pair {A B} (ra : DVal → option A) (rb : DVal → option B) (v : DVal) : option (A * B) :=
  match v with DStruct [a; b] => a ← ra a; b ← rb b; Some (a, b) | _ => None end.

(** ** Early returns *)

Definition reply_ok (v : DVal) : Reply := append3 v OK OK_STRING.
Definition reply_err (v : DVal) (e : RText) : Reply := append3 v ERROR e.
Definition engine_err (v : DVal) (e : StratisError) : Reply :=
  let '(rc, rs) := engine_to_dbus_err_tuple e in append3 v rc rs.

(** [m.tree.get(object_path).expect("implicit argument must be in tree")] *)
Definition implicit_argument : meth ObjectPath :=
  checked (expect (tree !! object_path) "implicit argument must be in tree").
(** [get_data!] *)
Definition get_data (path : ObjectPath) (default : DVal) : meth OPContext :=
  match o_data path with
  | Some data => mret data
  | None => early (reply_err default (Text "no data for object path"))
  end.
(** [get_parent!] *)
Definition get_parent_path (data : OPContext) (default : DVal) : meth ObjectPath :=
  match tree !! op_parent data with
  | Some parent => mret parent
  | None => early (reply_err default (Text "no path for object path"))
  end.
(** [typed_uuid!] *)
Definition typed_pool (u : StratisUuid) (default : DVal) : meth Z :=
  match u with UPool uuid => mret uuid | _ => early (reply_err default (Text "expected Pool UUID but found UUID with type")) end.
Definition typed_fs (u : StratisUuid) (default : DVal) : meth Z :=
  match u with UFs uuid => mret uuid | _ => early (reply_err default (Text "expected Fs UUID but found UUID with type")) end.
Definition typed_dev (u : StratisUuid) (default : DVal) : meth Z :=
  match u with UDev uuid => mret uuid | _ => early (reply_err default (Text "expected Dev UUID but found UUID with type")) end.
(** [get_pool!] and [get_mut_pool!] *)
Definition get_pool (uuid : Z) (default : DVal) : meth (Str * Pool_) :=
  e ← the_engine;
  match e_get_pool e uuid with
  | Some p => mret p
  | None => early (reply_err default (Text "engine does not know about pool with uuid"))
  end.
Definition get_mut_pool (uuid : Z) (default : DVal) : meth (Str * Pool_ * (Pool_ → Engine_)) :=
  e ← the_engine;
  match e_get_mut_pool e uuid with
  | Some p => mret p
  | None => early (reply_err default (Text "engine does not know about pool with uuid"))
  end.

(** the UUID of the pool a method is called on *)
Definition implicit_pool_uuid (default : DVal) : meth Z :=
  pool_path ← implicit_argument;
  data ← get_data pool_path default;
  typed_pool (op_uuid data) default.

(** the UUID of the pool that the object a method is called on belongs to, and the data of the object *)
Definition implicit_parent_uuid (default : DVal) : meth (OPContext * Z) :=
  path ← implicit_argument;
  data ← get_data path default;
  pool_path ← get_parent_path data default;
  pool_data ← get_data pool_path default;
  pool_uuid ← typed_pool (op_uuid pool_data) default;
  mret (data, pool_uuid).

Definition nil_uuid : DVal := uuid_str 0.
Definition DPair (a b : DVal) : DVal := DStruct [a; b].

(** ** The manager *)

Definition destroy_pool : meth Reply :=
  pool_path ← get_next_arg as_path 0;
  let default_return := DPair (DBool false) nil_uuid in
  match tree !! pool_path ≫= o_data with
  | None => early (reply_ok default_return)
  | Some d =>
      pool_uuid ← typed_pool (op_uuid d) default_return;
      r ← on_engine (e_destroy_pool pool_uuid);
      match r with
      | inr (DADeleted uuid) =>
          unlocked (remove_action pool_path pool_interface_list) (reply_ok (DPair (DBool true) (uuid_str uuid)))
      | inr DAIdentity => mret (reply_ok default_return)
      | inl err => mret (engine_err default_return err)
      end
  end.

(** [KeyDescription::try_from], with the early return of its error *)
Definition key_description_arg (s : Str) (default : DVal) : meth KeyDescription :=
  match KeyDescription_try_from s with
  | Ok kd => mret kd
  | Err e => early (engine_err default e)
  | Panic w => checked (Panic w)
  end.

Definition unset_key : meth Reply :=
  key_desc_str ← get_next_arg as_str 0;
  let default_return := DBool false in
  kd ← key_description_arg key_desc_str default_return;
  r ← on_engine (k_unset kd);
  match r with
  | inr idem_resp => mret (reply_ok (DBool (match idem_resp with MDDeleted _ => true | MDIdentity => false end)))
  | inl e => mret (engine_err default_return e)
  end.

Definition set_key : meth Reply :=
  key_desc_str ← get_next_arg as_str 0;
  key_fd ← get_next_arg as_fd 1;
  let default_return := DPair (DBool false) (DBool false) in
  kd ← key_description_arg key_desc_str default_return;
  r ← on_engine (k_set kd key_fd);
  match r with
  | inr idem_resp =>
      mret (reply_ok (match idem_resp with
                      | MCCreated _ => DPair (DBool true) (DBool false)
                      | MCValueChanged _ => DPair (DBool true) (DBool true)
                      | MCIdentity => default_return
                      end))
  | inl e => mret (engine_err default_return e)
  end.

(** [serde_json::to_string] does not fail on a [Value] *)
Definition engine_state_report : meth Reply :=
  e ← the_engine; mret (reply_ok (DStr (json_to_string (e_engine_state_report e)))).

Definition get_report : meth Reply :=
  report_name ← get_next_arg as_str 0;
  let default_return := DStr [] in
  match ReportType_try_from report_name with
  | Ok report_type => e ← the_engine; mret (reply_ok (DStr (json_to_string (e_get_report e report_type))))
  | Err e => early (engine_err default_return e)
  | Panic w => checked (Panic w)
  end.

Definition unlock_pool : meth Reply :=
  let default_return := DPair (DBool false) (DArray []) in
  pool_uuid_str ← get_next_arg as_str 0;
  match uuid_parse_str pool_uuid_str with
  | None => early (engine_err default_return (Chained "Malformed UUID passed to UnlockPool" (UuidError "parse_str")))
  | Some pool_uuid =>
      unlock_method_str ← get_next_arg as_str 1;
      match UnlockMethod_try_from unlock_method_str with
      | Err e => early (engine_err default_return e)
      | Panic w => checked (Panic w)
      | Ok unlock_method =>
          r ← on_engine (e_unlock_pool pool_uuid unlock_method);
          match r with
          | inr unlock_action =>
              mret (reply_ok (match changed unlock_action with
                              | Some vec => DPair (DBool true) (DArray (uuid_str <$> vec))
                              | None => default_return
                              end))
          | inl e => mret (engine_err default_return e)
          end
      end
  end.

Definition create_pool : meth Reply :=
  name ← get_next_arg as_str 0;
  redundancy_tuple ← get_next_arg (as_pair as_bool as_u16) 1;
  devs ← get_next_arg (as_array as_str) 2;
  key_desc_tuple ← get_next_arg (as_pair as_bool as_str) 3;
  clevis_tuple ← get_next_arg (as_pair as_bool (as_pair as_str as_str)) 4;
  let default_return := DPair (DBool false) (DPair (DPath (str "/")) (DArray [])) in
  key_desc ← (match tuple_to_option key_desc_tuple with
              | Some kds => kd ← key_description_arg kds default_return; mret (Some kd)
              | None => mret None
              end : meth (option KeyDescription));
  clevis_info ← (match tuple_to_option clevis_tuple with
                 | Some (pin, json_string) =>
                     match json_from_str json_string with
                     | Some j => mret (Some (pin, j))
                     | None => early (engine_err default_return (Msg "Serde"))
                     end
                 | None => mret None
                 end : meth (option (Str * Value)));
  r ← on_engine (e_create_pool name devs (tuple_to_option redundancy_tuple) (mkEnc key_desc clevis_info));
  match r with
  | inr (CACreated uuid) =>
      '(_, pool) ← get_pool uuid default_return;
      pool_object_path ← create_dbus_pool object_path name uuid pool;
      bd_paths ← create_blockdev_objects pool_object_path (p_blockdevs pool);
      mret (reply_ok (DPair (DBool true) (DPair (DPath pool_object_path) (DArray (DPath <$> bd_paths)))))
  | inr CAIdentity => mret (reply_ok default_return)
  | inl x => mret (engine_err default_return x)
  end.

(** ** Pools *)

(** an object for each filesystem that was created *)
Fixpoint created_objects (pool_name : Str) (pool : Pool_) (l : list (Str * Z)) : meth (list DVal) :=
  match l with
  | [] => mret []
  | (name, uuid) :: rest =>
      '(_, filesystem) ← checked (expect (p_get_filesystem pool uuid) "just inserted by create_filesystems");
      path ← create_dbus_filesystem object_path pool_name name uuid filesystem;
      v ← created_objects pool_name pool rest;
      mret (DPair (DPath path) (DStr name) :: v)
  end.

Definition create_filesystems : meth Reply :=
  filesystems ← get_next_arg (as_array as_str) 0;
  let default_return := DPair (DBool false) (DArray []) in
  if (1 <? Z.of_nat (length filesystems)) then
    early (reply_err default_return (Text "only 1 filesystem per request allowed"))
  else
    pool_uuid ← implicit_pool_uuid default_return;
    '(pool_name, pool, put) ← get_mut_pool pool_uuid default_return;
    '(r, pool) ← on_mut_pool pool put (p_create_filesystems pool_name pool_uuid ((λ x, (x, None)) <$> filesystems));
    match r with
    | inl err => early (engine_err default_return err)
    | inr created_set =>
        match changed created_set with
        | Some newly_created_filesystems =>
            v ← created_objects pool_name pool newly_created_filesystems;
            mret (reply_ok (DPair (DBool true) (DArray v)))
        | None => mret (reply_ok default_return)
        end
    end.

(** the paths given, by the UUID of their filesystem *)
Fixpoint filesystem_map_of (paths : list Path) (default : DVal) (m : gmap Z Path) : meth (gmap Z Path) :=
  match paths with
  | [] => mret m
  | path :: rest =>
      match op ← tree !! path; d ← o_data op; Some (op_uuid d, o_name op) with
      | Some (u, path) =>
          uuid ← typed_fs u default;
          filesystem_map_of rest default (<[uuid := path]> m)
      | None => filesystem_map_of rest default m
      end
  end.

Fixpoint push_removes (filesystem_map : gmap Z Path) (uuids : list Z) : meth unit :=
  match uuids with
  | [] => mret tt
  | uuid :: rest =>
      op ← checked (expect (filesystem_map !! uuid) "'uuids' is a subset of filesystem_map.keys()");
      push_remove op filesystem_interface_list;;
      push_removes filesystem_map rest
  end.

Definition destroy_filesystems : meth Reply :=
  filesystems ← get_next_arg (as_array as_path) 0;
  let default_return := DPair (DBool false) (DArray []) in
  pool_uuid ← implicit_pool_uuid default_return;
  '(pool_name, pool, put) ← get_mut_pool pool_uuid default_return;
  filesystem_map ← filesystem_map_of filesystems default_return ∅;
  '(r, pool) ← on_mut_pool pool put (p_destroy_filesystems pool_name (map_to_list filesystem_map).*1);
  match r with
  | inr uuids =>
      match changed uuids with
      | Some changed_uuids =>
          push_removes filesystem_map changed_uuids;;
          mret (reply_ok (DPair (DBool true) (DArray (uuid_str <$> changed_uuids))))
      | None => mret (reply_ok (DPair (DBool true) (DArray [])))
      end
  | inl err => mret (engine_err default_return err)
  end.

Definition snapshot_filesystem : meth Reply :=
  filesystem ← get_next_arg as_path 0;
  snapshot_name ← get_next_arg as_str 1;
  let default_return := DPair (DBool false) (DPath (str "/")) in
  pool_uuid ← implicit_pool_uuid default_return;
  match tree !! filesystem with
  | None => early (reply_err default_return (Text "no data for object path"))
  | Some op =>
      data ← get_data op default_return;
      fs_uuid ← typed_fs (op_uuid data) default_return;
      '(pool_name, pool, put) ← get_mut_pool pool_uuid default_return;
      '(r, pool) ← on_mut_pool pool put (p_snapshot_filesystem pool_name pool_uuid fs_uuid snapshot_name);
      match r with
      | inr (CACreated (uuid, fs)) =>
          fs_object_path ← create_dbus_filesystem object_path pool_name snapshot_name uuid fs;
          mret (reply_ok (DPair (DBool true) (DPath fs_object_path)))
      | inr CAIdentity => mret (reply_ok default_return)
      | inl err => mret (engine_err default_return err)
      end
  end.

Inductive BlockDevOp := InitCache | AddCache | AddData.

Fixpoint added_objects (op : BlockDevOp) (pool : Pool_) (uuids : list Z) : meth (list Path) :=
  match uuids with
  | [] => mret []
  | uuid :: rest =>
      '(_, bd) ← checked (expect (p_get_blockdev pool uuid) "just inserted by add_blockdevs");
      path ← create_dbus_blockdev object_path uuid (match op with AddData => Data | _ => Cache end) bd;
      paths ← added_objects op pool rest;
      mret (path :: paths)
  end.

Definition add_blockdevs (op : BlockDevOp) : meth Reply :=
  devs ← get_next_arg (as_array as_str) 0;
  let default_return := DPair (DBool false) (DArray []) in
  pool_uuid ← implicit_pool_uuid default_return;
  '(pool_name, pool, put) ← get_mut_pool pool_uuid default_return;
  '(r, pool) ← on_mut_pool pool put
    (match op with
     | InitCache => p_init_cache pool_uuid pool_name devs
     | AddCache => p_add_blockdevs pool_uuid pool_name devs Cache
     | AddData => p_add_blockdevs pool_uuid pool_name devs Data
     end);
  match r with
  | inr bds =>
      match changed bds with
      | Some uuids =>
          return_value ← added_objects op pool uuids;
          mret (reply_ok (DPair (DBool true) (DArray (DPath <$> return_value))))
      | None => mret (reply_ok default_return)
      end
  | inl err => mret (engine_err default_return err)
  end.

Definition rename_pool : meth Reply :=
  new_name ← get_next_arg as_str 0;
  let default_return := DPair (DBool false) nil_uuid in
  pool_uuid ← implicit_pool_uuid default_return;
  r ← on_engine (e_rename_pool pool_uuid new_name);
  match r with
  | inr RANoSource => mret (reply_err default_return (Text "engine doesn't know about pool"))
  | inr RAIdentity => mret (reply_ok default_return)
  | inr (RARenamed uuid) =>
      unlocked (pool_name_change_action object_path new_name) (reply_ok (DPair (DBool true) (uuid_str uuid)))
  | inl err => mret (engine_err default_return err)
  end.

Definition bind_clevis : meth Reply :=
  pin ← get_next_arg as_str 0;
  json_string ← get_next_arg as_str 1;
  let default_return := DBool false in
  pool_uuid ← implicit_pool_uuid default_return;
  '(_, pool, put) ← get_mut_pool pool_uuid default_return;
  match json_from_str json_string with
  | None => early (engine_err default_return (Msg "Serde"))
  | Some json =>
      '(r, _) ← on_mut_pool pool put (p_bind_clevis pin json);
      mret (match r with
            | inr CAIdentity => reply_ok (DBool false)
            | inr (CACreated _) => reply_ok (DBool true)
            | inl e => engine_err default_return e
            end)
  end.

Definition unbind_clevis : meth Reply :=
  let default_return := DBool false in
  pool_uuid ← implicit_pool_uuid default_return;
  '(_, pool, put) ← get_mut_pool pool_uuid default_return;
  '(r, _) ← on_mut_pool pool put p_unbind_clevis;
  mret (match r with
        | inr DAIdentity => reply_ok (DBool false)
        | inr (DADeleted _) => reply_ok (DBool true)
        | inl e => engine_err default_return e
        end).

Definition bind_keyring : meth Reply :=
  key_desc_str ← get_next_arg as_str 0;
  let default_return := DBool false in
  key_desc ← key_description_arg key_desc_str default_return;
  pool_uuid ← implicit_pool_uuid default_return;
  '(_, pool, put) ← get_mut_pool pool_uuid default_return;
  '(r, _) ← on_mut_pool pool put (p_bind_keyring key_desc);
  mret (match r with
        | inr CAIdentity => reply_ok (DBool false)
        | inr (CACreated _) => reply_ok (DBool true)
        | inl e => engine_err default_return e
        end).

Definition unbind_keyring : meth Reply :=
  let default_return := DBool false in
  pool_uuid ← implicit_pool_uuid default_return;
  '(_, pool, put) ← get_mut_pool pool_uuid default_return;
  '(r, _) ← on_mut_pool pool put p_unbind_keyring;
  mret (match r with
        | inr DAIdentity => reply_ok (DBool false)
        | inr (DADeleted _) => reply_ok (DBool true)
        | inl e => engine_err default_return e
        end).

Definition rebind_keyring : meth Reply :=
  key_desc_str ← get_next_arg as_str 0;
  let default_return := DBool false in
  key_desc ← key_description_arg key_desc_str default_return;
  pool_uuid ← implicit_pool_uuid default_return;
  '(_, pool, put) ← get_mut_pool pool_uuid default_return;
  '(r, _) ← on_mut_pool pool put (p_rebind_keyring key_desc);
  mret (match r with
        | inr RAIdentity => reply_ok (DBool false)
        | inr (RARenamed _) => reply_ok (DBool true)
        | inr RANoSource => reply_err default_return (Text "pool is not currently bound to a keyring passphrase")
        | inl e => engine_err default_return e
        end).

Definition rebind_clevis : meth Reply :=
  let default_return := DBool false in
  pool_uuid ← implicit_pool_uuid default_return;
  '(_, pool, put) ← get_mut_pool pool_uuid default_return;
  '(r, _) ← on_mut_pool pool put p_rebind_clevis;
  mret (match r with inr _ => reply_ok (DBool true) | inl e => engine_err default_return e end).

(** ** Filesystems and block devices *)

Definition rename_filesystem : meth Reply :=
  new_name ← get_next_arg as_str 0;
  let default_return := DPair (DBool false) nil_uuid in
  '(filesystem_data, pool_uuid) ← implicit_parent_uuid default_return;
  '(pool_name, pool, put) ← get_mut_pool pool_uuid default_return;
  uuid ← typed_fs (op_uuid filesystem_data) default_return;
  '(r, _) ← on_mut_pool pool put (p_rename_filesystem pool_name uuid new_name);
  match r with
  | inr RANoSource => mret (reply_err default_return (Text "pool doesn't know about filesystem"))
  | inr RAIdentity => mret (reply_ok default_return)
  | inr (RARenamed uuid) =>
      push_filesystem_name_change object_path new_name;;
      mret (reply_ok (DPair (DBool true) (uuid_str uuid)))
  | inl err => mret (engine_err default_return err)
  end.

Definition set_user_info : meth Reply :=
  new_id_spec ← get_next_arg (as_pair as_bool as_str) 0;
  let default_return := DPair (DBool false) nil_uuid in
  '(blockdev_data, pool_uuid) ← implicit_parent_uuid default_return;
  '(pool_name, pool, put) ← get_mut_pool pool_uuid default_return;
  blockdev_uuid ← typed_dev (op_uuid blockdev_data) default_return;
  '(r, _) ← on_mut_pool pool put (p_set_blockdev_user_info pool_name blockdev_uuid (tuple_to_option new_id_spec));
  mret (match r with
        | inr RANoSource => reply_err default_return (Text "pool doesn't know about block device")
        | inr (RARenamed uuid) => reply_ok (DPair (DBool true) (uuid_str uuid))
        | inr RAIdentity => reply_ok default_return
        | inl err => engine_err default_return err
        end).

(** ** Properties of an object *)

Definition ok_or_else {A} (o : option A) (e : string) : RText + A := match o with Some a => inr a | None => inl (Text e) end.

(** the pool an object is, or belongs to, as [pool_operation] and the others find it; [inl] is returned as an error *)
Definition pool_of (o : ObjectPath) : RText + Z :=
  match o_data o with
  | None => inl (Text "no data for object path")
  | Some d => match op_uuid d with UPool uuid => inr uuid | _ => inl (Text "expected Pool UUID but found UUID with type") end
  end.

(** a closure that may return an error, after a lookup that may *)
Definition try_with {A} (r : RText + A) (k : A → meth (RText + DVal)) : meth (RText + DVal) :=
  match r with inr a => k a | inl e => mret (inl e) end.

Definition pool_operation (closure : Str → Z → Pool_ → meth (RText + DVal)) : meth (RText + DVal) :=
  pool_path ← implicit_argument;
  try_with (pool_of pool_path) (λ pool_uuid,
  e ← the_engine;
  try_with (ok_or_else (e_get_pool e pool_uuid) "no pool corresponding to uuid") (λ '(pool_name, pool),
  closure pool_name pool_uuid pool)).

Definition filesystem_operation (closure : Str → Str → Filesystem_ → meth (RText + DVal)) : meth (RText + DVal) :=
  filesystem_path ← checked (expect (tree !! object_path) "tree must contain implicit argument");
  try_with (ok_or_else (o_data filesystem_path) "no data for object path") (λ filesystem_data,
  try_with (ok_or_else (tree !! op_parent filesystem_data) "no path for parent object path") (λ pool_path,
  try_with (pool_of pool_path) (λ pool_uuid,
  e ← the_engine;
  try_with (ok_or_else (e_get_pool e pool_uuid) "no pool corresponding to uuid") (λ '(pool_name, pool),
  try_with (match op_uuid filesystem_data with
            | UFs u => inr u | _ => inl (Text "expected Fs UUID but found UUID with type") end) (λ filesystem_uuid,
  try_with (ok_or_else (p_get_filesystem pool filesystem_uuid) "no name for filesystem with uuid") (λ '(fs_name, fs),
  closure pool_name fs_name fs)))))).

Definition blockdev_operation (closure : BlockDevTier → BlockDev_ → meth (RText + DVal)) : meth (RText + DVal) :=
  blockdev_path ← checked (expect (tree !! object_path) "tree must contain implicit argument");
  try_with (ok_or_else (o_data blockdev_path) "no data for object path") (λ blockdev_data,
  try_with (match op_uuid blockdev_data with
            | UDev u => inr u | _ => inl (Text "expected Dev UUID but found UUID with type") end) (λ blockdev_uuid,
  try_with (ok_or_else (tree !! op_parent blockdev_data) "no path for parent object path") (λ pool_path,
  try_with (pool_of pool_path) (λ pool_uuid,
  e ← the_engine;
  try_with (ok_or_else (e_get_pool e pool_uuid) "no pool corresponding to uuid") (λ '(_, pool),
  try_with (ok_or_else (p_get_blockdev pool blockdev_uuid) "no blockdev with uuid") (λ '(tier, blockdev),
  closure tier blockdev)))))).

(** [map_err(|e| MethodErr::failed(e))] *)
Definition append_property (m : meth (RText + DVal)) : meth DVal :=
  r ← m; match r with inr v => mret v | inl e => merr (failed e) end.

(** [get_uuid] and [get_parent] *)
Definition get_uuid : meth DVal :=
  path ← implicit_argument;
  match o_data path with Some data => mret (uuid_str (raw_uuid (op_uuid data))) | None => merr (failed (Text "no data for object path")) end.
Definition get_parent : meth DVal :=
  path ← implicit_argument;
  match o_data path with Some data => mret (DPath (op_parent data)) | None => merr (failed (Text "no data for object path")) end.

Definition get_pool_property (getter : Str → Z → Pool_ → meth (RText + DVal)) : meth DVal :=
  append_property (pool_operation getter).
Definition get_pool_name : meth DVal := get_pool_property (λ name _ _, mret (inr (pool_name_prop name))).
Definition get_pool_encrypted : meth DVal := get_pool_property (λ _ _ pool, v ← checked (pool_enc_prop pool); mret (inr v)).

Definition get_filesystem_property (getter : Str → Str → Filesystem_ → meth (RText + DVal)) : meth DVal :=
  append_property (filesystem_operation getter).
Definition get_filesystem_devnode : meth DVal :=
  get_filesystem_property (λ pool_name fs_name fs, mret (inr (fs_devnode_prop fs pool_name fs_name))).
Definition get_filesystem_name : meth DVal := get_filesystem_property (λ _ fs_name _, mret (inr (fs_name_prop fs_name))).
Definition get_filesystem_created : meth DVal := get_filesystem_property (λ _ _ fs, mret (inr (fs_created_prop fs))).

Definition get_blockdev_property (getter : BlockDevTier → BlockDev_ → meth (RText + DVal)) : meth DVal :=
  append_property (blockdev_operation getter).
Definition get_blockdev_devnode : meth DVal := get_blockdev_property (λ _ p, mret (inr (blockdev_devnode_prop p))).
Definition get_blockdev_hardware_info : meth DVal := get_blockdev_property (λ _ p, mret (inr (blockdev_hardware_info_prop p))).
Definition get_blockdev_user_info : meth DVal := get_blockdev_property (λ _ p, mret (inr (blockdev_user_info_prop p))).
Definition get_blockdev_initialization_time : meth DVal := get_blockdev_property (λ _ p, mret (inr (blockdev_init_time_prop p))).
Definition get_blockdev_tier : meth DVal := get_blockdev_property (λ t _, mret (inr (blockdev_tier_prop t))).
Definition get_blockdev_physical_path : meth DVal := get_blockdev_property (λ _ p, mret (inr (blockdev_physical_path_prop p))).

(** [VERSION] is that of the package *)
Definition get_version : meth DVal := mret (DStr (str "3.0.0")).

Definition getter_fn (g : Getter) : meth DVal :=
  match g with
  | Gversion => get_version | Guuid => get_uuid | Gparent => get_parent
  | Gpool_name => get_pool_name | Gpool_encrypted => get_pool_encrypted
  | Gfs_devnode => get_filesystem_devnode | Gfs_name => get_filesystem_name | Gfs_created => get_filesystem_created
  | Gbd_devnode => get_blockdev_devnode | Gbd_hardware_info => get_blockdev_hardware_info
  | Gbd_user_info => get_blockdev_user_info | Gbd_initialization_time => get_blockdev_initialization_time
  | Gbd_tier => get_blockdev_tier | Gbd_physical_path => get_blockdev_physical_path
  end.

(** ** [FetchProperties] *)

(** [sectors.bytes().to_string()] *)
Definition bytes_text (sectors : Z) : DVal := DStr (str (pretty (sectors * 512))).

Definition get_pool_encryption_key_desc : meth (RText + DVal) :=
  pool_operation (λ _ _ pool,
    i ← checked (p_encryption_info pool);
    let t := option_to_tuple (key_description i) [] in
    mret (inr (DPair (DBool t.1) (DStr t.2)))).
Definition get_pool_has_cache : meth (RText + DVal) := pool_operation (λ _ _ pool, mret (inr (DBool (p_has_cache pool)))).
Definition get_pool_total_size : meth (RText + DVal) :=
  pool_operation (λ _ _ pool, mret (inr (bytes_text (p_total_physical_size pool)))).
Definition get_pool_total_used : meth (RText + DVal) :=
  pool_operation (λ _ _ pool,
    r ← on_world (p_total_physical_used pool);
    mret (match r with inr size => inr (bytes_text size) | inl e => inl (EngineErr e) end)).
Definition get_pool_clevis_info : meth (RText + DVal) :=
  pool_operation (λ _ _ pool,
    i ← checked (p_encryption_info pool);
    let t := option_to_tuple ((λ c : Str * Value, (c.1, json_to_string c.2)) <$> clevis_info i) ([], []) in
    mret (inr (DPair (DBool t.1) (DPair (DStr t.2.1) (DStr t.2.2))))).

Definition list_keys : meth (RText + DVal) :=
  r ← on_engine k_list;
  mret (match r with inr v => inr (DArray (DStr <$> v)) | inl e => inl (EngineErr e) end).
Definition locked_pool_uuids : meth (RText + DVal) :=
  e ← the_engine;
  mret (inr (DArray ((λ x : Z * LockedPoolInfo, uuid_str x.1) <$> map_to_list (e_locked_pools e)))).
Definition locked_pools : meth (RText + DVal) :=
  e ← the_engine;
  mret (inr (DDict ((λ x : Z * LockedPoolInfo, (uuid_str x.1, DStr (default [] (key_description (lp_info x.2))))) <$>
                    map_to_list (e_locked_pools e)))).
Definition locked_pools_with_devs : meth (RText + DVal) :=
  e ← the_engine;
  mret (inr (DDict ((λ x : Z * LockedPoolInfo,
    let k := option_to_tuple (key_description (lp_info x.2)) [] in
    let c := option_to_tuple ((λ c : Str * Value, (c.1, json_to_string c.2)) <$> clevis_info (lp_info x.2)) ([], str "{}") in
    (uuid_str x.1,
     DDict [(DStr (str "key_description"), DVariant (DPair (DBool k.1) (DStr k.2)));
            (DStr (str "clevis_info"), DVariant (DPair (DBool c.1) (DPair (DStr c.2.1) (DStr c.2.2))));
            (DStr (str "devs"), DVariant (DArray ((λ d, DDict [(DStr (str "devnode"), DStr (ld_devnode d));
                                                              (DStr (str "uuid"), uuid_str (ld_uuid d))]) <$> lp_devices x.2)))]))
    <$> map_to_list (e_locked_pools e)))).

Definition fs_used_property : meth (RText + DVal) :=
  filesystem_operation (λ _ _ fs,
    r ← on_world (fs_used fs);
    mret (match r with inr u => inr (DStr (str (pretty u))) | inl e => inl (EngineErr e) end)).
Definition bd_total_size_property : meth (RText + DVal) :=
  blockdev_operation (λ _ bd, mret (inr (bytes_text (bd_size bd)))).

(** the properties by name; unknown names are left out *)
Fixpoint get_properties_shared (table : list (string * meth (RText + DVal))) (properties : list Str) : meth (list (DVal * DVal)) :=
  match properties with
  | [] => mret []
  | prop :: rest =>
      match list_find (λ x, str x.1 = prop) table with
      | Some (_, (_, getter)) =>
          r ← getter;
          l ← get_properties_shared table rest;
          mret ((DStr prop, result_to_tuple r) :: l)
      | None => get_properties_shared table rest
      end
  end.

Definition api_properties : list (string * meth (RText + DVal)) :=
  [(KEY_LIST_PROP, list_keys); (LOCKED_POOLS, locked_pools); (LOCKED_POOL_UUIDS, locked_pool_uuids);
   (LOCKED_POOL_DEVS, locked_pools_with_devs)].
Definition pool_properties : list (string * meth (RText + DVal)) :=
  [(POOL_ENCRYPTION_KEY_DESC, get_pool_encryption_key_desc); (POOL_HAS_CACHE_PROP, get_pool_has_cache);
   (POOL_TOTAL_SIZE_PROP, get_pool_total_size); (POOL_TOTAL_USED_PROP, get_pool_total_used);
   (POOL_CLEVIS_INFO, get_pool_clevis_info)].
Definition fs_properties : list (string * meth (RText + DVal)) := [(FILESYSTEM_USED_PROP, fs_used_property)].
Definition bd_properties : list (string * meth (RText + DVal)) := [(BLOCKDEV_TOTAL_SIZE_PROP, bd_total_size_property)].

(** [properties_footer!] *)
Definition get_all_properties (table : list (string * meth (RText + DVal))) : meth Reply :=
  l ← get_properties_shared table (str ∘ fst <$> table); mret (append1 (DDict l)).
Definition get_properties (table : list (string * meth (RText + DVal))) : meth Reply :=
  properties ← get_next_arg (as_array as_str) 0;
  l ← get_properties_shared table (remove_dups properties);
  mret (append1 (DDict l)).

(** ** [GetManagedObjects] *)

Definition parent_pool_uuid (op : option ObjectPath) : option Z :=
  o ← op; data ← o_data o; match op_uuid data with UPool p => Some p | _ => None end.

(** the properties of one object; [None] when the engine does not know it *)
Definition managed_object (e : Engine_) (op : ObjectPath) : res (option InterfacesAdded) :=
  match o_data op with
  | None => Ok None
  | Some data =>
      match op_uuid data with
      | UPool uuid =>
          match e_get_pool e uuid with
          | Some (n, p) => rmap Some (get_pool_properties n uuid p)
          | None => Ok None
          end
      | UFs uuid =>
          let? pool_uuid := expect (parent_pool_uuid (tree !! op_parent data)) "Parent must be present and be pool" in
          Ok ('(p_n, p) ← e_get_pool e pool_uuid; '(fs_n, f) ← p_get_filesystem p uuid;
              Some (get_fs_properties (op_parent data) p_n fs_n uuid f))
      | UDev uuid =>
          let? pool_uuid := expect (parent_pool_uuid (tree !! op_parent data)) "Parent must be present and be pool" in
          Ok ('(_, p) ← e_get_pool e pool_uuid; '(bd_tier, bd) ← p_get_blockdev p uuid;
              Some (get_blockdev_properties (op_parent data) uuid bd_tier bd))
      end
  end.

Definition interfaces_val (l : InterfacesAdded) : DVal :=
  DDict ((λ x : string * list (string * DVal), (DStr (str x.1), DDict ((λ y : string * DVal, (DStr (str y.1), DVariant y.2)) <$> x.2))) <$> l).

Fixpoint managed_objects (e : Engine_) (ops : list ObjectPath) : res (list (DVal * DVal)) :=
  match ops with
  | [] => Ok []
  | op :: rest =>
      let? o := managed_object e op in
      let? l := managed_objects e rest in
      Ok (match o with Some ia => (DPath (o_name op), interfaces_val ia) :: l | None => l end)
  end.

Definition get_managed_objects : meth Reply :=
  e ← the_engine;
  l ← checked (managed_objects e (map_to_list tree).*2);
  mret (append1 (DDict l)).

(** ** Calls *)

Definition handler_fn (h : Handler) : meth Reply :=
  match h with
  | Hget_managed_objects => get_managed_objects
  | Hcreate_pool => create_pool | Hset_key => set_key | Hunset_key => unset_key | Hunlock_pool => unlock_pool
  | Hdestroy_pool => destroy_pool | Hengine_state_report => engine_state_report | Hget_report => get_report
  | Hcreate_filesystems => create_filesystems | Hdestroy_filesystems => destroy_filesystems
  | Hsnapshot_filesystem => snapshot_filesystem
  | Hadd_datadevs => add_blockdevs AddData | Hinit_cache => add_blockdevs InitCache | Hadd_cachedevs => add_blockdevs AddCache
  | Hbind_clevis => bind_clevis | Hunbind_clevis => unbind_clevis
  | Hbind_keyring => bind_keyring | Hunbind_keyring => unbind_keyring | Hrebind_keyring => rebind_keyring
  | Hrebind_clevis => rebind_clevis | Hrename_pool => rename_pool
  | Hrename_filesystem => rename_filesystem | Hset_user_info => set_user_info
  | Hapi_get_all_properties => get_all_properties api_properties | Hapi_get_properties => get_properties api_properties
  | Hpool_get_all_properties => get_all_properties pool_properties | Hpool_get_properties => get_properties pool_properties
  | Hfs_get_all_properties => get_all_properties fs_properties | Hfs_get_properties => get_properties fs_properties
  | Hbd_get_all_properties => get_all_properties bd_properties | Hbd_get_properties => get_properties bd_properties
  end.
End methods.

(** ** Dispatch

    A method call as it is received: [tree.handle(&msg)] of [dbus_tree] finds the method by the object path, interface and
    name of the message.  What a property is read by is [org.freedesktop.DBus.Properties.Get]. *)
Section dispatch.
Context `{Traits} `{UuidFormat} `{JsonText}.

Record Message : Type := mkMessage { msg_path : Path; msg_interface : string; msg_member : string; msg_args : list DVal }.

Definition find_method (tree : Tree) (msg : Message) : option Method :=
  o ← tree !! msg_path msg;
  '(_, (_, m)) ← list_find (λ x, x.1 = msg_interface msg ∧ m_name x.2 = msg_member msg) (o_methods o);
  Some m.

(** the reply, or the error that is sent as reply *)
Definition handle (tree : Tree) (msg : Message) : meth Reply :=
  match find_method tree msg with
  | Some m => handler_fn tree (msg_path msg) (msg_args msg) (m_handler m)
  | None => merr no_such_method
  end.

Definition find_property (tree : Tree) (path : Path) (interface name : string) : option Property :=
  o ← tree !! path;
  '(_, (_, p)) ← list_find (λ x, x.1 = interface ∧ pr_name x.2 = name) (o_properties o);
  Some p.
Definition get_property (tree : Tree) (path : Path) (interface name : string) : meth DVal :=
  match find_property tree path interface name with
  | Some p => getter_fn tree path (on_get p)
  | None => merr no_such_method
  end.
End dispatch.
