(* ===== verification/DbusTree.v ===== *)
(** * The tree of D-Bus objects

    When the tree mirrors the pools, filesystems and block devices of an engine, and how the actions of
    [src/dbus_api/connection.rs] change a tree that does. *)
From stdpp Require Import base list gmap strings pretty.
From Stdlib Require Import ZArith Lia.
From S2P Require Import Prelude EngineApi Dbus.

Implicit Types (T : Tree) (path par : Path) (s : StratisUuid) (a : DbusAction).

(** ** Object paths *)

Lemma str_inj (t1 t2 : string) : str t1 = str t2 → t1 = t2.
Proof.
  unfold str. intros Heq. rewrite <- (String.string_of_list_ascii_of_string t1), <- (String.string_of_list_ascii_of_string t2).
  f_equal. revert Heq. generalize (String.list_ascii_of_string t2). induction (String.list_ascii_of_string t1) as [|x l IH];
    intros [|y l']; cbn; intros [=]; [done|]. f_equal; [|by apply IH].
  rewrite <- (Ascii.ascii_nat_embedding x), <- (Ascii.ascii_nat_embedding y). f_equal. lia.
Qed.
Lemma object_path_of_inj i j : object_path_of i = object_path_of j → i = j.
Proof. unfold object_path_of. rewrite !app_assoc. intros Heq%app_inv_head%str_inj. by apply (inj pretty). Qed.

Definition base_paths : list Path := [STRATIS_BASE_PATH; str "/org/storage"; str "/org"; str "/"].
Lemma object_path_not_base i : object_path_of i ∉ base_paths.
Proof.
  unfold object_path_of. intros Hin. assert (∃ q, q ∈ base_paths ∧ (length q > 21)%nat) as (q & Hq & Hl).
  { eexists. split; [exact Hin|]. rewrite !length_app. change (length STRATIS_BASE_PATH) with 21%nat. change (length (str "/")) with 1%nat. lia. }
  revert Hl. unfold base_paths in Hq. repeat (apply elem_of_cons in Hq as [->|Hq]; [cbn; lia|]). by apply elem_of_nil in Hq.
Qed.

(** ** Objects of a tree *)

Definition object_for (name par : Path) s : ObjectPath :=
  match s with
  | UPool u => pool_object name par u
  | UFs u => filesystem_object name par u
  | UDev u => blockdev_object name par u
  end.
Definition empty_object (name : Path) : ObjectPath := mkObj name None [] [].
(** an object of the base of the tree, or one made for something of the engine *)
Definition object_ok (o : ObjectPath) : Prop :=
  match o_data o with
  | None => o = manager_object ∨ ∃ name, o = empty_object name
  | Some d => o = object_for (o_name o) (op_parent d) (op_uuid d)
  end.
Lemma object_for_data name par s : o_data (object_for name par s) = Some (mkOP par s).
Proof. by destruct s. Qed.
Lemma object_for_name name par s : o_name (object_for name par s) = name.
Proof. by destruct s. Qed.
Lemma object_for_ok name par s : object_ok (object_for name par s).
Proof. unfold object_ok. rewrite object_for_data. cbn. by rewrite object_for_name. Qed.

Definition obj T path par s : Prop := ∃ o, T !! path = Some o ∧ o_data o = Some (mkOP par s).
Definition pool_at T (u : Z) path : Prop := obj T path STRATIS_BASE_PATH (UPool u).

Lemma obj_fun T path par par' s s' : obj T path par s → obj T path par' s' → par = par' ∧ s = s'.
Proof. intros (o & Ho & Hd) (o' & Ho' & Hd'). by simplify_eq. Qed.

(** a tree whose objects were made with the first [n] identifiers *)
Record tree_wf (n : Z) (known : Z → Prop) T : Prop := {
  wf_name path o : T !! path = Some o → o_name o = path;
  wf_object path o : T !! path = Some o → object_ok o;
  wf_base : T !! STRATIS_BASE_PATH = Some manager_object;
  wf_none path o : T !! path = Some o → o_data o = None → path ∈ base_paths;
  wf_path path par s : obj T path par s → ∃ i, 0 ≤ i < n ∧ path = object_path_of i;
  wf_known path par s : obj T path par s → known (raw_uuid s);
  wf_parent path par s : obj T path par s →
    match s with UPool _ => par = STRATIS_BASE_PATH | _ => ∃ u, pool_at T u par end
}.

(** [E parent s]: what there is to be shown, with the pool it belongs to *)
Record mirror (E : option Z → StratisUuid → Prop) T : Prop := {
  m_sound path par s : obj T path par s →
    match s with UPool _ => E None s | _ => ∃ u, pool_at T u par ∧ E (Some u) s end;
  m_pool s : E None s → ∃ u path, s = UPool u ∧ pool_at T u path;
  m_child u s : E (Some u) s → (∀ v, s ≠ UPool v) ∧ ∃ P path, pool_at T u P ∧ obj T path P s;
  m_unique path path' par par' s : obj T path par s → obj T path' par' s → path = path'
}.

Definition apply_action a T : Tree := (handle_dbus_action a T).1.
Definition apply_actions (l : list DbusAction) T : Tree := foldl (λ T a, apply_action a T) T l.

(** [P] holds of the tree and remains so while the actions are processed *)
Fixpoint all_trees (P : Tree → Prop) T (l : list DbusAction) : Prop :=
  P T ∧ match l with [] => True | a :: l => all_trees P (apply_action a T) l end.

Lemma all_trees_head P T l : all_trees P T l → P T.
Proof. by destruct l as [|a l]; intros []. Qed.
Lemma all_trees_last P T l : all_trees P T l → P (apply_actions l T).
Proof. revert T. induction l as [|a l IH]; intros T [? ?]; [done|]. by apply IH. Qed.
Lemma all_trees_app P T l l' : all_trees P T l → all_trees P (apply_actions l T) l' → all_trees P T (l ++ l').
Proof. revert T. induction l as [|a l IH]; intros T Hl Hl'; [done|]. destruct Hl as [? ?]. split; [done|]. by apply IH. Qed.
Lemma all_trees_prefix P T l l' : all_trees P T (l ++ l') → all_trees P T l.
Proof. revert T. induction l as [|a l IH]; intros T Hl; [split; [by eapply all_trees_head|done]|]. destruct Hl as [? ?]. split; [done|]. by apply IH. Qed.
Lemma all_trees_impl (P P' : Tree → Prop) T l : (∀ T', P T' → P' T') → all_trees P T l → all_trees P' T l.
Proof. intros Himp. revert T. induction l as [|a l IH]; intros T [? ?]; (split; [auto|]); [done|]. by apply IH. Qed.
Lemma all_trees_and P P' T l : all_trees P T l → all_trees P' T l → all_trees (λ T', P T' ∧ P' T') T l.
Proof. revert T. induction l as [|a l IH]; intros T [? ?] [? ?]; (split; [done|]); [done|]. by apply IH. Qed.
Lemma apply_actions_app l l' T : apply_actions (l ++ l') T = apply_actions l' (apply_actions l T).
Proof. apply foldl_app. Qed.

(** ** Additions *)

Lemma obj_insert T o path par s : T !! o_name o = None →
  obj (<[o_name o := o]> T) path par s ↔ obj T path par s ∨ (path = o_name o ∧ o_data o = Some (mkOP par s)).
Proof.
  intros Hno. unfold obj. split.
  - intros (o' & Ho' & Hd). destruct (decide (path = o_name o)) as [->|Hne].
    + rewrite lookup_insert_eq in Ho'. simplify_eq. by right.
    + rewrite lookup_insert_ne in Ho' by done. left. eauto.
  - intros [(o' & Ho' & Hd)|[-> Hd]].
    + exists o'. rewrite lookup_insert_ne; [done|]. intros <-. congruence.
    + exists o. by rewrite lookup_insert_eq.
Qed.

Section add.
Context (n : Z) (known : Z → Prop) T (o : ObjectPath) par s.
Hypothesis Hwf : tree_wf n known T.
Hypothesis Hname : o_name o = object_path_of n.
Hypothesis Hdata : o_data o = Some (mkOP par s).
Hypothesis Hn : 0 ≤ n.
Hypothesis Hok : object_ok o.
Hypothesis Hparent : match s with UPool _ => par = STRATIS_BASE_PATH | _ => ∃ u, pool_at T u par end.

Lemma add_fresh_path : T !! o_name o = None.
Proof.
  destruct (T !! o_name o) as [o'|] eqn:Ho'; [|done]. exfalso. destruct (o_data o') as [[par' s']|] eqn:Hd.
  - destruct (wf_path _ _ _ Hwf (o_name o) par' s') as (i & Hi & Heq); [by exists o'|]. rewrite Hname in Heq.
    apply object_path_of_inj in Heq. lia.
  - apply (wf_none _ _ _ Hwf) in Ho'; [|done]. rewrite Hname in Ho'. by apply object_path_not_base in Ho'.
Qed.

Lemma add_wf (known' : Z → Prop) : (∀ u, known u → known' u) → known' (raw_uuid s) → tree_wf (n + 1) known' (<[o_name o := o]> T).
Proof.
  intros Hk Hs. pose proof add_fresh_path as Hf. split.
  - intros path o'. destruct (decide (path = o_name o)) as [->|Hne]; [rewrite lookup_insert_eq; by intros [= <-]|].
    rewrite lookup_insert_ne by done. apply (wf_name _ _ _ Hwf).
  - intros path o'. destruct (decide (path = o_name o)) as [->|Hne]; [rewrite lookup_insert_eq; by intros [= <-]|].
    rewrite lookup_insert_ne by done. apply (wf_object _ _ _ Hwf).
  - rewrite lookup_insert_ne; [apply (wf_base _ _ _ Hwf)|]. rewrite Hname. intros Heq. apply (object_path_not_base n). rewrite Heq. by left.
  - intros path o'. destruct (decide (path = o_name o)) as [->|Hne]; [rewrite lookup_insert_eq; intros [= <-]; congruence|].
    rewrite lookup_insert_ne by done. apply (wf_none _ _ _ Hwf).
  - intros path par' s' [Ho|[-> _]]%obj_insert; [|exists n; split; [lia|done]|done].
    destruct (wf_path _ _ _ Hwf _ _ _ Ho) as (i & ? & ->). exists i. split; [lia|done].
  - intros path par' s' [Ho|[_ Hd]]%obj_insert; [|by rewrite Hdata in Hd; simplify_eq|done].
    by apply Hk, (wf_known _ _ _ Hwf path par').
  - intros path par' s' Ho'. assert (match s' with UPool _ => par' = STRATIS_BASE_PATH | _ => ∃ u, pool_at T u par' end) as Hp.
    { apply obj_insert in Ho' as [Ho|[_ Hd]]; [by apply (wf_parent _ _ _ Hwf path)| |done]. rewrite Hdata in Hd. by simplify_eq. }
    destruct s'; [| |done]; destruct Hp as [pu Hu]; exists pu; apply obj_insert; auto.
Qed.

Lemma add_mirror (E : option Z → StratisUuid → Prop) q :
  mirror E T → (∀ r, ¬ E r s) → match q with None => par = STRATIS_BASE_PATH ∧ ∃ u, s = UPool u | Some u => pool_at T u par ∧ ∀ v, s ≠ UPool v end →
  mirror (λ r s', E r s' ∨ (r = q ∧ s' = s)) (<[o_name o := o]> T).
Proof.
  intros Hm Hnew Hq. pose proof add_fresh_path as Hf. pose proof (obj_insert T o) as Hi.
  assert (∀ u P, pool_at T u P → pool_at (<[o_name o := o]> T) u P) as Hpool by (intros; apply Hi; auto).
  assert (obj (<[o_name o := o]> T) (o_name o) par s) as Hself by (apply Hi; auto).
  assert (∀ path par', obj T path par' s → False) as Hno.
  { intros path par' Ho. pose proof (m_sound _ _ Hm _ _ _ Ho) as Hs. destruct s; [| |by eapply Hnew]; destruct Hs as (pu & _ & ?); by eapply Hnew. }
  split.
  - intros path par' s' [Ho|[-> Hd]]%Hi; [| |done].
    + pose proof (m_sound _ _ Hm _ _ _ Ho) as Hs. destruct s'; [| |by left]; destruct Hs as (pu & ? & ?); exists pu; auto.
    + rewrite Hdata in Hd. simplify_eq. destruct q as [u|]; [destruct Hq as [Hq Hs]|destruct Hq as [-> [u ->]]; by right].
      destruct s'; [exists u; auto..|by edestruct Hs].
  - intros s' [Hs|[<- ->]]; [destruct (m_pool _ _ Hm _ Hs) as (u & path & -> & ?); eauto|]. destruct Hq as [-> [u ->]]. eauto.
  - intros u s' [Hs|[<- ->]].
    + destruct (m_child _ _ Hm _ _ Hs) as (? & P & path & ? & ?). split; [done|]. exists P, path. split; [auto|]. apply Hi; auto.
    + destruct Hq as [Hq Hs]. split; [done|]. exists par, (o_name o). auto.
  - intros path path' par1 par2 s' [H1|[-> H1]]%Hi [H2|[-> H2]]%Hi; try done.
    + by apply (m_unique _ _ Hm path path' par1 par2 s').
    + rewrite Hdata in H2. simplify_eq. by destruct (Hno _ _ H1).
    + rewrite Hdata in H1. simplify_eq. by destruct (Hno _ _ H2).
Qed.
End add.

Lemma tree_wf_mono n n' (known known' : Z → Prop) T : n ≤ n' → (∀ u, known u → known' u) → tree_wf n known T → tree_wf n' known' T.
Proof.
  intros Hn Hk []. split; try done.
  - intros path par s Ho. destruct (wf_path0 _ _ _ Ho) as (i & ? & ->). exists i. split; [lia|done].
  - intros path par s Ho. by eapply Hk, wf_known0.
Qed.
Lemma mirror_iff (E E' : option Z → StratisUuid → Prop) T : (∀ r s, E r s ↔ E' r s) → mirror E T → mirror E' T.
Proof.
  intros Heq []. split; [|intros s Hs; by apply m_pool0, Heq|intros u s Hs; by apply m_child0, Heq|done].
  intros path par s Ho. specialize (m_sound0 _ _ _ Ho). destruct s; [| |by apply Heq]; destruct m_sound0 as (pu & ? & ?%Heq); eauto.
Qed.
(** a thing belongs to one pool *)
Lemma mirror_parent E T u v s : mirror E T → E (Some u) s → E (Some v) s → u = v.
Proof.
  intros Hm Hu Hv. destruct (m_child _ _ Hm _ _ Hu) as (_ & P & path & Hp & Ho), (m_child _ _ Hm _ _ Hv) as (_ & P' & path' & Hp' & Ho').
  pose proof (m_unique _ _ Hm _ _ _ _ _ Ho Ho') as ->. destruct (obj_fun _ _ _ _ _ _ Ho Ho') as [-> _].
  destruct (obj_fun _ _ _ _ _ _ Hp Hp') as [_ [= ->]]. done.
Qed.

(** the actions add objects with the identifiers from [n] on, for the things of the list *)
Fixpoint adds (n : Z) (l : list (Path * StratisUuid)) (acts : list DbusAction) : Prop :=
  match l, acts with
  | [], [] => True
  | (par, s) :: l, Add o _ :: acts =>
      o = object_for (object_path_of n) par s ∧ adds (n + 1) l acts
  | _, _ => False
  end.

Lemma adds_app n l l' acts acts' : adds n l acts → adds (n + Z.of_nat (length l)) l' acts' → adds n (l ++ l') (acts ++ acts').
Proof.
  revert n acts. induction l as [|[par s] l IH]; intros n [|[o i| | |] acts]; cbn; try done.
  - by rewrite Z.add_0_r.
  - intros (? & ?) Hl'. split; [done|]. apply IH; [done|]. by replace (n + 1 + Z.of_nat (length l)) with (n + Z.of_nat (S (length l))) by lia.
Qed.

(** no object is lost *)
Definition kept T' T : Prop := ∀ path par s, obj T path par s → obj T' path par s.

Lemma add_kept T o : T !! o_name o = None → kept (<[o_name o := o]> T) T.
Proof. intros Hno path par s Ho. apply obj_insert; auto. Qed.

Lemma adds_children (known known' : Z → Prop) u P L : ∀ n E T acts, tree_wf n known T → mirror E T → pool_at T u P → 0 ≤ n →
  adds n (pair P <$> L) acts → NoDup L → (∀ v, known v → known' v) →
  (∀ s, s ∈ L → (∀ v, s ≠ UPool v) ∧ (∀ r, ¬ E r s) ∧ known' (raw_uuid s)) →
  let T' := apply_actions acts T in
  mirror (λ r s, E r s ∨ (r = Some u ∧ s ∈ L)) T' ∧
  all_trees (λ Ti, tree_wf (n + Z.of_nat (length L)) known' Ti ∧ kept T' Ti) T acts.
Proof.
  induction L as [|s L IH] in known |- *; intros n E T acts Hwf Hm HP Hn Ha Hnd Hk HL; destruct acts as [|[o i| | |] acts]; try done.
  - split; [|by split; [split; [eapply tree_wf_mono; [|exact Hk|exact Hwf]; cbn; lia|intros ???]|]].
    eapply mirror_iff; [|exact Hm]. intros r s'. rewrite elem_of_nil. tauto.
  - destruct Ha as (Hobj & Ha).
    assert (o_name o = object_path_of n) as Hname by (by rewrite Hobj, object_for_name).
    pose proof (object_for_data (object_path_of n) P s) as Hdata. pose proof (object_for_ok (object_path_of n) P s) as Hok. rewrite <- Hobj in Hdata, Hok. apply NoDup_cons in Hnd as [Hs Hnd]. destruct (HL s ltac:(by left)) as (Hpool & Hnew & Hks).
    assert (match s with UPool _ => P = STRATIS_BASE_PATH | _ => ∃ u, pool_at T u P end) as Hpar by (destruct s; [by exists u..|by edestruct Hpool]).
    pose proof (add_fresh_path n known T o Hwf Hname) as Hf.
    pose proof (add_wf n known T o P s Hwf Hname Hdata Hn Hok Hpar known' Hk Hks) as Hwf1.
    pose proof (add_mirror n known T o P s Hwf Hname Hdata Hpar E (Some u) Hm Hnew (conj HP Hpool)) as Hm1.
    pose proof (add_kept T o Hf) as Hkept.
    destruct (IH known' (n + 1) _ (<[o_name o := o]> T) acts Hwf1 Hm1) as [Hm2 Ht2]; try done; [by apply Hkept|lia| |].
    { intros s' Hs'. destruct (HL s' ltac:(by right)) as (? & Hn' & ?). split_and!; [done| |done].
      intros r [Hr|[_ ->]]; [by eapply Hn'|done]. }
    cbn [apply_actions foldl]. unfold apply_action at 2. cbn [handle_dbus_action fst].
    split; [eapply mirror_iff; [|exact Hm2]; intros r s'; cbn; rewrite elem_of_cons; naive_solver|].
    cbn [all_trees]. unfold apply_action at 4. cbn [handle_dbus_action fst].
    replace (n + Z.of_nat (length (s :: L))) with (n + 1 + Z.of_nat (length L)) by (cbn; lia).
    split; [|exact Ht2]. split; [eapply tree_wf_mono; [|exact Hk|exact Hwf]; cbn; lia|].
    apply all_trees_head in Ht2 as [_ Hk2]. intros path par s' Ho. by apply Hk2, Hkept.
Qed.

(** a pool and what it contains *)
Lemma adds_pool (known known' : Z → Prop) n E T u L acts : tree_wf n known T → mirror E T → 0 ≤ n →
  adds n ((STRATIS_BASE_PATH, UPool u) :: (pair (object_path_of n) <$> L)) acts → NoDup L → (∀ v, known v → known' v) →
  (∀ r, ¬ E r (UPool u)) → known' u →
  (∀ s, s ∈ L → (∀ v, s ≠ UPool v) ∧ (∀ r, ¬ E r s) ∧ known' (raw_uuid s)) →
  let T' := apply_actions acts T in
  mirror (λ r s, E r s ∨ (r = None ∧ s = UPool u) ∨ (r = Some u ∧ s ∈ L)) T' ∧
  all_trees (λ Ti, tree_wf (n + 1 + Z.of_nat (length L)) known' Ti ∧ kept T' Ti) T acts.
Proof.
  intros Hwf Hm Hn Ha Hnd Hk Hnew Hu HL. destruct acts as [|[o i| | |] acts]; try done. destruct Ha as (Hobj & Ha).
  assert (o_name o = object_path_of n) as Hname by (by rewrite Hobj, object_for_name).
  pose proof (object_for_data (object_path_of n) STRATIS_BASE_PATH (UPool u)) as Hdata. pose proof (object_for_ok (object_path_of n) STRATIS_BASE_PATH (UPool u)) as Hok.
  rewrite <- Hobj in Hdata, Hok.
  pose proof (add_fresh_path n known T o Hwf Hname) as Hf.
  pose proof (add_wf n known T o _ (UPool u) Hwf Hname Hdata Hn Hok eq_refl known' Hk Hu) as Hwf1.
  pose proof (add_mirror n known T o _ (UPool u) Hwf Hname Hdata eq_refl E None Hm Hnew (conj eq_refl (ex_intro _ u eq_refl))) as Hm1.
  pose proof (add_kept T o Hf) as Hkept.
  destruct (adds_children known' known' u (object_path_of n) L (n + 1) _ _ acts Hwf1 Hm1) as [Hm2 Ht2]; try done; [|lia| |].
  { apply obj_insert; [done|]. right. by rewrite Hname. }
  { intros s Hs. destruct (HL s Hs) as (Hp & Hn' & ?). split_and!; [done| |done]. intros r [Hr|[_ ->]]; [by eapply Hn'|by eapply Hp]. }
  cbn [apply_actions foldl]. unfold apply_action at 2. cbn [handle_dbus_action fst].
  split; [eapply mirror_iff; [|exact Hm2]; intros r s'; cbn; naive_solver|].
  cbn [all_trees]. unfold apply_action at 4. cbn [handle_dbus_action fst]. split; [|exact Ht2].
  split; [eapply tree_wf_mono; [|exact Hk|exact Hwf]; cbn; lia|].
  apply all_trees_head in Ht2 as [_ Hk2]. intros path par s' Ho. by apply Hk2, Hkept.
Qed.

(** ** Removals *)

Lemma remove_objects_lookup l T q : (remove_objects l T).1 !! q = if bool_decide (q ∈ l.*1) then None else T !! q.
Proof.
  revert T. induction l as [|[p i] l IH]; intros T; [done|]. cbn [remove_objects]. destruct (remove_objects l (delete p T)) as [T' sigs] eqn:E.
  specialize (IH (delete p T)). rewrite E in IH. cbn [fst] in IH |- *. rewrite IH. cbn [fmap list_fmap fst].
  destruct (decide (q = p)) as [->|Hne].
  - rewrite lookup_delete_eq, (bool_decide_true (p ∈ p :: _)) by (by left). by case_bool_decide.
  - rewrite lookup_delete_ne by done. apply bool_decide_ext_eq || idtac. repeat case_bool_decide; try done; set_solver.
Qed.

Lemma children_elem path T q : (∀ p o, T !! p = Some o → o_name o = p) →
  q ∈ (children path T).*1 ↔ ∃ o s, T !! q = Some o ∧ o_data o = Some (mkOP path s).
Proof.
  intros Hname. unfold children. rewrite list_elem_of_fmap. split.
  - intros ([q' i] & -> & Hin). apply list_elem_of_omap in Hin as ([p o] & Hin%elem_of_map_to_list & Heq). cbn in Heq.
    destruct (o_data o) as [[par s]|] eqn:Hd; [|done]. cbn in Heq. case_bool_decide; [|done]. simplify_eq. exists o, s. cbn.
    by rewrite (Hname _ _ Hin).
  - intros (o & s & Ho & Hd). exists (q, interface_list s). split; [done|]. apply list_elem_of_omap. exists (q, o).
    split; [by apply elem_of_map_to_list|]. cbn. rewrite Hd. cbn. rewrite bool_decide_true by done. by rewrite (Hname _ _ Ho).
Qed.

Section remove.
Context (n : Z) (known : Z → Prop) T path (i : list string).
Hypothesis Hwf : tree_wf n known T.
Notation T' := (apply_action (Remove path i) T).

Lemma remove_lookup q : T' !! q = None ∧ (q = path ∨ ∃ s, obj T q path s) ∨ T' !! q = T !! q ∧ q ≠ path ∧ ∀ s, ¬ obj T q path s.
Proof.
  unfold apply_action. cbn [handle_dbus_action]. destruct (remove_objects (children path T) T) as [T1 sigs] eqn:E. cbn [fst].
  pose proof (remove_objects_lookup (children path T) T q) as Hl. rewrite E in Hl. cbn [fst] in Hl.
  pose proof (children_elem path T q (wf_name _ _ _ Hwf)) as Hc.
  destruct (decide (q = path)) as [->|Hne]; [left; rewrite lookup_delete_eq; auto|]. rewrite lookup_delete_ne, Hl by done.
  case_bool_decide as Hin; [left|right]; (split; [done|]).
  - right. apply Hc in Hin as (o & s & ? & ?). exists s. by exists o.
  - split; [done|]. intros s (o & ? & ?). apply Hin, Hc. eauto.
Qed.

Lemma obj_remove q par s : obj T' q par s ↔ obj T q par s ∧ q ≠ path ∧ par ≠ path.
Proof.
  split.
  - intros (o & Ho & Hd). destruct (remove_lookup q) as [[Hnone _]|(Hsame & Hq & Hs)]; [congruence|]. rewrite Hsame in Ho.
    split_and!; [by exists o|done|]. intros ->. apply (Hs s). by exists o.
  - intros ((o & Ho & Hd) & Hq & Hpar). destruct (remove_lookup q) as [(_ & [?|[s' (o' & Ho' & Hd')]])|(Hsame & _)]; [done| |].
    + rewrite Ho in Ho'. simplify_eq.
    + exists o. by rewrite Hsame.
Qed.

Hypothesis Hpath : ∃ par s, obj T path par s.

Lemma remove_wf : tree_wf n known T'.
Proof.
  assert (∀ q, q ∈ base_paths → T' !! q = T !! q) as Hbase.
  { assert (∀ q par s, q ∈ base_paths → ¬ obj T q par s) as Hno.
    { intros q par s Hq Ho. destruct (wf_path _ _ _ Hwf _ _ _ Ho) as (j & _ & ->). by apply object_path_not_base in Hq. }
    intros q Hq. destruct (remove_lookup q) as [(_ & [->|[s Hs]])|[? _]]; [|by destruct (Hno q path s)|done].
    destruct Hpath as (par & s & Ho). by destruct (Hno path par s). }
  split.
  - intros q o Ho. apply (wf_name _ _ _ Hwf). destruct (remove_lookup q) as [[? _]|[<- _]]; [congruence|done].
  - intros q o Ho. apply (wf_object _ _ _ Hwf q). destruct (remove_lookup q) as [[? _]|[<- _]]; [congruence|done].
  - rewrite Hbase by (by left). apply (wf_base _ _ _ Hwf).
  - intros q o Ho. apply (wf_none _ _ _ Hwf). destruct (remove_lookup q) as [[? _]|[<- _]]; [congruence|done].
  - intros q par s [Ho _]%obj_remove. by apply (wf_path _ _ _ Hwf q par s).
  - intros q par s [Ho _]%obj_remove. by apply (wf_known _ _ _ Hwf q par s).
  - intros q par s (Ho & Hq & Hpar)%obj_remove. pose proof (wf_parent _ _ _ Hwf _ _ _ Ho) as Hp.
    assert (∀ u, pool_at T u par → pool_at T' u par) as Hkeep.
    { intros u Hu. apply obj_remove. split_and!; [done..|]. intros Heq. destruct Hpath as (par' & s' & Ho').
      destruct (wf_path _ _ _ Hwf _ _ _ Ho') as (j & _ & Hj). apply (object_path_not_base j). rewrite <- Hj, <- Heq. by left. }
    destruct s; [| |done]; destruct Hp as [pu Hu]; exists pu; auto.
Qed.

(** a pool with all it contains *)
Lemma remove_pool_mirror E u : mirror E T → pool_at T u path →
  mirror (λ r s, E r s ∧ r ≠ Some u ∧ s ≠ UPool u) T'.
Proof.
  intros Hm Hu. assert (∀ v P, pool_at T v P → v ≠ u → pool_at T' v P) as Hkeep.
  { intros v P Hv Hne. apply obj_remove. split_and!; [done| |].
    - intros ->. destruct (obj_fun _ _ _ _ _ _ Hu Hv). congruence.
    - intros Heq. destruct (wf_path _ _ _ Hwf _ _ _ Hu) as (j & _ & Hj). apply (object_path_not_base j). rewrite <- Hj, <- Heq. by left. }
  assert (∀ v P, pool_at T v P → P ≠ path → v ≠ u) as Hother.
  { intros v P Hv Hne ->. apply Hne. by apply (m_unique _ _ Hm _ _ _ _ _ Hv Hu). }
  split.
  - intros q par s (Ho & Hq & Hpar)%obj_remove. pose proof (m_sound _ _ Hm _ _ _ Ho) as Hs.
    destruct s as [d|f|v]; [destruct Hs as (v & Hv & HE)..|].
    + pose proof (Hother _ _ Hv Hpar). exists v. split; [auto|]. split_and!; [done|congruence|done].
    + pose proof (Hother _ _ Hv Hpar). exists v. split; [auto|]. split_and!; [done|congruence|done].
    + split_and!; [done..|]. intros [= ->]. apply Hq. by apply (m_unique _ _ Hm _ _ _ _ _ Ho Hu).
  - intros s (HE & _ & Hs). destruct (m_pool _ _ Hm _ HE) as (v & P & -> & Hv). exists v, P. split; [done|]. apply Hkeep; congruence.
  - intros v s (HE & Hv & _). destruct (m_child _ _ Hm _ _ HE) as (Hns & P & q & HP & Ho). split; [done|]. exists P, q.
    assert (v ≠ u) as Hvu by congruence. assert (P ≠ path) as HPp.
    { intros ->. destruct (obj_fun _ _ _ _ _ _ HP Hu). congruence. }
    split; [auto|]. apply obj_remove. split_and!; [done| |done]. intros ->. destruct (obj_fun _ _ _ _ _ _ Ho Hu). by edestruct Hns.
  - intros q q' par par' s (Ho & _)%obj_remove (Ho' & _)%obj_remove. by apply (m_unique _ _ Hm q q' par par' s).
Qed.

(** one thing of a pool *)
Lemma remove_child_mirror E par s : mirror E T → obj T path par s → (∀ v, s ≠ UPool v) → mirror (λ r s', E r s' ∧ s' ≠ s) T'.
Proof.
  intros Hm Ho Hns. assert (∀ v P, pool_at T v P → P ≠ path) as Hpool.
  { intros v P HP ->. destruct (obj_fun _ _ _ _ _ _ HP Ho) as [_ <-]. by edestruct Hns. }
  assert (∀ q par' s', obj T q par' s' → par' ≠ path) as Hpar.
  { intros q par' s' Ho' ->. pose proof (wf_parent _ _ _ Hwf _ _ _ Ho') as Hp. destruct s' as [d|f|v]; [destruct Hp as [v Hv]; by eapply Hpool..|].
    destruct (wf_path _ _ _ Hwf _ _ _ Ho) as (j & _ & Hj). apply (object_path_not_base j). rewrite <- Hj, Hp. by left. }
  assert (∀ v P, pool_at T v P → pool_at T' v P) as Hkeep.
  { intros v P HP. apply obj_remove. split_and!; [done|by eapply Hpool|by eapply Hpar]. }
  split.
  - intros q par' s' (Ho' & Hq & _)%obj_remove. assert (s' ≠ s) as Hne by (intros ->; by apply Hq, (m_unique _ _ Hm _ _ _ _ _ Ho' Ho)).
    pose proof (m_sound _ _ Hm _ _ _ Ho') as Hs. destruct s' as [d|f|v]; [destruct Hs as (v & Hv & HE); exists v; auto..|done].
  - intros s' (HE & _). destruct (m_pool _ _ Hm _ HE) as (v & P & -> & Hv). eauto.
  - intros v s' (HE & Hne). destruct (m_child _ _ Hm _ _ HE) as (? & P & q & HP & Ho'). split; [done|]. exists P, q. split; [auto|].
    apply obj_remove. split_and!; [done| |by eapply Hpar]. intros ->. by destruct (obj_fun _ _ _ _ _ _ Ho Ho').
  - intros q q' par1 par2 s' (H1 & _)%obj_remove (H2 & _)%obj_remove. by apply (m_unique _ _ Hm q q' par1 par2 s').
Qed.
End remove.

Fixpoint removes (l : list (Path * StratisUuid)) (acts : list DbusAction) : Prop :=
  match l, acts with
  | [], [] => True
  | (path, _) :: l, Remove path' _ :: acts => path' = path ∧ removes l acts
  | _, _ => False
  end.

Lemma removes_children (known : Z → Prop) n l : ∀ E T acts, tree_wf n known T → mirror E T → removes l acts → NoDup l.*2 →
  (∀ path s, (path, s) ∈ l → (∃ par, obj T path par s) ∧ ∀ v, s ≠ UPool v) →
  let T' := apply_actions acts T in
  mirror (λ r s, E r s ∧ s ∉ l.*2) T' ∧
  all_trees (λ Ti, tree_wf n known Ti ∧ ∀ q par s, obj Ti q par s → obj T' q par s ∨ s ∈ l.*2) T acts.
Proof.
  induction l as [|[path s] l IH]; intros E T acts Hwf Hm Hr Hnd Hl; destruct acts as [|[|path' i| |] acts]; try done.
  - split; [|split; [split; [done|by left]|done]]. eapply mirror_iff; [|exact Hm]. intros r s. cbn. set_solver.
  - destruct Hr as [-> Hr]. apply NoDup_cons in Hnd as [Hs Hnd]. destruct (Hl path s ltac:(by left)) as [[par Ho] Hns].
    pose proof (remove_wf n known T path i Hwf ltac:(eauto)) as Hwf1.
    pose proof (remove_child_mirror n known T path i Hwf E par s Hm Ho Hns) as Hm1.
    pose proof (obj_remove n known T path i Hwf) as Hobj.
    assert (∀ q par' s', obj T q par' s' → par' ≠ path) as Hpar.
    { intros q par' s' Ho' ->. pose proof (wf_parent _ _ _ Hwf _ _ _ Ho') as Hp.
      destruct s' as [d|f|v]; [destruct Hp as [v Hv]; destruct (obj_fun _ _ _ _ _ _ Ho Hv) as [_ ->]; by edestruct Hns..|].
      destruct (wf_path _ _ _ Hwf _ _ _ Ho) as (j & _ & Hj). apply (object_path_not_base j). rewrite <- Hj, Hp. by left. }
    destruct (IH _ _ acts Hwf1 Hm1 Hr Hnd) as [Hm2 Ht2].
    { intros q s' Hin. destruct (Hl q s' ltac:(by right)) as [[par' Ho'] ?]. split; [|done]. exists par'. apply Hobj.
      split_and!; [done| |by eapply Hpar]. intros ->. destruct (obj_fun _ _ _ _ _ _ Ho Ho') as [_ ->]. apply Hs, list_elem_of_fmap. by exists (path, s'). }
    cbn [apply_actions foldl]. cbn [fmap list_fmap snd]. split.
    + eapply mirror_iff; [|exact Hm2]. intros r s'. cbn. rewrite not_elem_of_cons. naive_solver.
    + split; [|eapply all_trees_impl; [|exact Ht2]; intros Ti [? Hi]; split; [done|]; intros q par' s' Ho'; destruct (Hi _ _ _ Ho'); [by left|right; by right]].
      split; [done|]. intros q par' s' Ho'. destruct (decide (q = path)) as [->|Hne].
      * destruct (obj_fun _ _ _ _ _ _ Ho Ho') as [_ ->]. right. by left.
      * apply all_trees_head in Ht2 as [_ Hi]. destruct (Hi q par' s') as [?|?]; [apply Hobj; split_and!; [done..|by eapply Hpar]|by left|right; by right].
Qed.
