(* ===== verification/DbusSteps.v ===== *)
(** * The daemon on the D-Bus, step by step

    The threads of [src/stratis/ipc_support/dbus_support.rs] as one transition system: the handler of method calls (a thread for
    each call), the one of udev events, the devicemapper events, and the tree handler, which processes the queue of actions.  Each holds the
    locks it needs while it runs, so they interleave step by step, in any order.

    Two methods give back the lock of the engine before they queue what they did; the rest of such a call is a step of its own ([Finish]),
    and everything but the tree handler, which needs the tree for writing, can run in between.  Here an engine is any instance of [Traits]. *)
From stdpp Require Import base list gmap strings pretty.
From Stdlib Require Import ZArith Lia.
From S2P Require Import Prelude External Json Actions Shared DeviceSet Identify EngineApi Dbus DbusMethods DbusTree.

Section steps.
Context `{Traits} `{UuidFormat} `{JsonText}.
Implicit Types (T : Tree) (c : Ctx).

(** the daemon: what the handlers share, the tree, and the calls that have given back the lock of the engine, with
    what each has still to queue and to reply *)
Record Daemon : Type := mkDaemon { d_ctx : Ctx; d_tree : Tree; d_late : list (DbusAction * Reply) }.
Implicit Types d : Daemon.

(** the tree once every queued action is processed *)
Definition drained (d : Daemon) : Tree := apply_actions (c_queue (d_ctx d)) (d_tree d).

Inductive Event : Type :=
| Call (msg : Message)
| Finish (k : nat)
| Get (path : Path) (interface name : string)
| Udev (v : UdevEngineEvent)
| Evented
| Process.

(** [OReply (Unlocked a r)]: the reply [r] follows when the call finishes *)
Inductive Output : Type :=
| OReply (r : ret Reply)
| OValue (r : ret DVal)
| ODone (r : ret unit)
| OSignals (l : list Signal)
| OIdle.

Definition late_call {A} (r : ret A) : list (DbusAction * Reply) := match r with Unlocked a rep => [(a, rep)] | _ => [] end.
Definition late_action {A} (r : ret A) : option DbusAction := fst <$> head (late_call r).
Definition run_meth {A} (m : meth A) (out : ret A → Output) d : Output * Daemon :=
  let '(r, c) := m (d_ctx d) in (out r, mkDaemon c (d_tree d) (d_late d ++ late_call r)).

(** [dm_event_thread]: an error of [evented] is logged *)
Definition process_dm_event : meth unit := _ ← on_engine e_evented; mret tt.

(** the tree handler waits while a call holds the tree for reading *)
Definition step (ev : Event) d : Output * Daemon :=
  match ev with
  | Call msg => run_meth (handle (d_tree d) msg) OReply d
  | Finish k =>
      match d_late d !! k with
      | Some (a, r) => (OReply (Val r), mkDaemon (send a (d_ctx d)).2 (d_tree d) (delete k (d_late d)))
      | None => (OIdle, d)
      end
  | Get path interface name => run_meth (get_property (d_tree d) path interface name) OValue d
  | Udev v => run_meth (handle_udev_event STRATIS_BASE_PATH v) ODone d
  | Evented => run_meth process_dm_event ODone d
  | Process =>
      match d_late d, c_queue (d_ctx d) with
      | [], a :: rest =>
          let '(_, tree, sigs) := process_dbus_action (Received a) (d_tree d) in
          (OSignals sigs, mkDaemon (mkCtx (c_engine (d_ctx d)) (c_world (d_ctx d)) rest (next_index (d_ctx d))) tree [])
      | _, _ => (OIdle, d)
      end
  end.

Definition crashed {A} (r : ret A) : bool := match r with Crash _ => true | _ => false end.
Definition panicked (o : Output) : bool :=
  match o with OReply r => crashed r | OValue r => crashed r | ODone r => crashed r | _ => false end.

(** the daemon once it has started, with the engine it found *)
Definition start (e : Engine_) (w : World_) : ret unit * Daemon :=
  let '(r, c) := setup STRATIS_BASE_PATH (mkCtx e w [] 0) in (r, mkDaemon c get_base_tree.1 []).

(** the states of the daemon with any engine *)
Inductive runs : Daemon → Prop :=
| runs_start e w : runs (start e w).2
| runs_step d ev : runs d → runs (step ev d).2.

Lemma process_eq d a q : d_late d = [] → c_queue (d_ctx d) = a :: q →
  (step Process d).2 = mkDaemon (mkCtx (c_engine (d_ctx d)) (c_world (d_ctx d)) q (next_index (d_ctx d))) (apply_action a (d_tree d)) [].
Proof. intros Hl Hq. cbn. rewrite Hl, Hq. unfold apply_action, process_dbus_action. by destruct (handle_dbus_action a (d_tree d)). Qed.

(** ** The queue grows at its end

    Whatever the engine does, a handler only appends to the queue, and the objects it asks to add are the ones made by the functions of [Dbus]. *)

Definition action_ok (a : DbusAction) : Prop := match a with Add o _ => object_ok o | _ => True end.
Definition late_ok (r : option DbusAction) : Prop := match r with Some (Add _ _) => False | _ => True end.
Definition grows {A} (m : meth A) : Prop := ∀ c, late_ok (late_action (m c).1) ∧
  ∃ acts, c_queue (m c).2 = c_queue c ++ acts ∧ Forall action_ok acts.

Lemma grows_same {A} (m : meth A) : (∀ c, late_action (m c).1 = None ∧ c_queue (m c).2 = c_queue c) → grows m.
Proof. intros Hm c. destruct (Hm c) as [-> ->]. split; [done|]. exists []. by rewrite app_nil_r. Qed.
Lemma outs_grow_bind {A B} (m : meth A) (k : A → meth B) : grows m → (∀ a, grows (k a)) → grows (m ≫= k).
Proof.
  intros Hm Hk c. specialize (Hm c). unfold mbind, meth_bind. destruct (m c) as [[a|r|b r|x|y] c']; cbn in *; try done.
  destruct Hm as (_ & acts & Hq & Ha), (Hk a c') as (Hl & acts' & Hq' & Ha'). split; [done|].
  exists (acts ++ acts'). rewrite Hq', Hq, app_assoc. split; [done|by apply Forall_app].
Qed.
Lemma outs_grow_ret {A} (a : A) : grows (mret a).
Proof. by apply grows_same. Qed.
Lemma grows_early {A} r : grows (early (A:=A) r).
Proof. by apply grows_same. Qed.
Lemma grows_merr {A} e : grows (merr (A:=A) e).
Proof. by apply grows_same. Qed.
Lemma grows_checked {A} (r : res A) : grows (checked r).
Proof. apply grows_same. by intros c; destruct r. Qed.
Lemma grows_the_engine : grows the_engine.
Proof. by apply grows_same. Qed.
Lemma grows_next_id : grows get_next_id.
Proof. by apply grows_same. Qed.
Lemma grows_engine {A} (m : st (Engine_ * World_) A) : grows (on_engine m).
Proof. apply grows_same. intros c. unfold on_engine. by destruct (m _) as [[] [e w]]. Qed.
Lemma grows_mut_pool {A} p put (m : st (Pool_ * World_) A) : grows (on_mut_pool p put m).
Proof. apply grows_same. intros c. unfold on_mut_pool. by destruct (m _) as [[] [e w]]. Qed.
Lemma grows_world {A} (m : st World_ A) : grows (on_world m).
Proof. apply grows_same. intros c. unfold on_world. by destruct (m _) as [[] w]. Qed.
Lemma grows_send a : action_ok a → grows (send a).
Proof. intros Ha c. split; [done|]. exists [a]. split; [done|by apply Forall_singleton]. Qed.
Lemma grows_add o i : object_ok o → grows (push_add o i).
Proof. intros Ho. by apply grows_send. Qed.
Lemma grows_remove p i : grows (push_remove p i).
Proof. by apply grows_send. Qed.
Lemma grows_fs_name p n : grows (push_filesystem_name_change p n).
Proof. by apply grows_send. Qed.
Lemma grows_unlocked {A} a r : late_ok (Some a) → grows (unlocked (A:=A) a r).
Proof. intros Ha c. split; [done|]. exists []. by rewrite app_nil_r. Qed.
Lemma grows_next_arg {A} args (read : DVal → option A) loc : grows (get_next_arg args read loc).
Proof. unfold get_next_arg. destruct (args !! loc) as [v|]; [destruct (read v)|]; by apply grows_same. Qed.
Create HintDb grows.
Hint Resolve outs_grow_ret grows_early grows_merr grows_checked grows_the_engine grows_next_id grows_engine grows_mut_pool grows_world
  grows_remove grows_fs_name grows_next_arg : grows.
Ltac grow := repeat first
  [ progress intros
  | solve [auto with grows]
  | apply outs_grow_bind
  | apply grows_unlocked; done
  | case_match ].

Lemma grows_dbus_pool par n u p : grows (create_dbus_pool par n u p).
Proof. unfold create_dbus_pool, make_object_path. grow. apply grows_add, (object_for_ok _ par (UPool u)). Qed.
Lemma grows_dbus_fs par n m u f : grows (create_dbus_filesystem par n m u f).
Proof. unfold create_dbus_filesystem, make_object_path. grow. apply grows_add, (object_for_ok _ par (UFs u)). Qed.
Lemma grows_dbus_dev par u t b : grows (create_dbus_blockdev par u t b).
Proof. unfold create_dbus_blockdev, make_object_path. grow. apply grows_add, (object_for_ok _ par (UDev u)). Qed.
Hint Resolve grows_dbus_pool grows_dbus_fs grows_dbus_dev : grows.
Lemma grows_fs_objects par n l : grows (create_filesystem_objects par n l).
Proof. induction l as [|[[m u] f] l IH]; cbn [create_filesystem_objects]; grow. Qed.
Lemma grows_dev_objects par l : grows (create_blockdev_objects par l).
Proof. induction l as [|[[u t] b] l IH]; cbn [create_blockdev_objects]; grow. Qed.
Lemma grows_created par n p l : grows (created_objects par n p l).
Proof. induction l as [|[m u] l IH]; cbn [created_objects]; grow. Qed.
Lemma grows_added par op p l : grows (added_objects par op p l).
Proof. induction l as [|u l IH]; cbn [added_objects]; grow. Qed.
Lemma grows_fs_map T l dv m : grows (filesystem_map_of T l dv m).
Proof. revert m. induction l as [|q l IH]; intros m; cbn [filesystem_map_of]; unfold typed_fs; grow. Qed.
Lemma grows_push_removes m l : grows (push_removes m l).
Proof. induction l as [|u l IH]; cbn [push_removes]; grow. Qed.
Lemma grows_implicit_pool T path dv : grows (implicit_pool_uuid T path dv).
Proof. unfold implicit_pool_uuid, implicit_argument, get_data, typed_pool. grow. Qed.
Lemma grows_implicit_parent T path dv : grows (implicit_parent_uuid T path dv).
Proof. unfold implicit_parent_uuid, implicit_argument, get_data, get_parent_path, typed_pool. grow. Qed.
Lemma grows_get_pool u dv : grows (get_pool u dv).
Proof. unfold get_pool. grow. Qed.
Lemma grows_get_mut_pool u dv : grows (get_mut_pool u dv).
Proof. unfold get_mut_pool. grow. Qed.
Lemma grows_key_desc k dv : grows (key_description_arg k dv).
Proof. unfold key_description_arg. grow. Qed.
Hint Resolve grows_fs_objects grows_dev_objects grows_created grows_added grows_fs_map grows_push_removes grows_implicit_pool
  grows_implicit_parent grows_get_pool grows_get_mut_pool grows_key_desc : grows.

Lemma grows_pool_operation T path f : (∀ n u p, grows (f n u p)) → grows (pool_operation T path f).
Proof. intros Hf. unfold pool_operation, implicit_argument, try_with. grow. Qed.
Lemma grows_fs_operation T path f : (∀ n m x, grows (f n m x)) → grows (filesystem_operation T path f).
Proof. intros Hf. unfold filesystem_operation, try_with. grow. Qed.
Lemma grows_dev_operation T path f : (∀ t b, grows (f t b)) → grows (blockdev_operation T path f).
Proof. intros Hf. unfold blockdev_operation, try_with. grow. Qed.

Lemma grows_append m : grows m → grows (append_property m).
Proof. intros Hm. unfold append_property. grow. Qed.
Lemma grows_getter T path g : grows (getter_fn T path g).
Proof.
  destruct g; cbn [getter_fn];
    try (apply grows_append; first [apply grows_pool_operation|apply grows_fs_operation|apply grows_dev_operation]; grow).
  - unfold get_version. grow.
  - unfold get_uuid, implicit_argument. grow.
  - unfold get_parent, implicit_argument. grow.
Qed.
Lemma grows_shared table l : Forall (λ x, grows x.2) table → grows (get_properties_shared table l).
Proof.
  intros Ht. induction l as [|q l IH]; cbn [get_properties_shared]; [grow|]. destruct (list_find _ table) as [[i [k g]]|] eqn:Hf; [|done].
  apply list_find_Some in Hf as (Hin & _ & _). pose proof (Forall_lookup_1 _ _ _ _ Ht Hin) as Hg. cbn in Hg. grow.
Qed.
Lemma grows_all table : Forall (λ x, grows x.2) table → grows (get_all_properties table).
Proof. intros Ht. unfold get_all_properties. apply outs_grow_bind; [by apply grows_shared|grow]. Qed.
Lemma grows_some args table : Forall (λ x, grows x.2) table → grows (get_properties args table).
Proof. intros Ht. unfold get_properties. apply outs_grow_bind; [grow|]. intros l. apply outs_grow_bind; [by apply grows_shared|grow]. Qed.
Lemma grows_tables T path : Forall (λ x, grows x.2) api_properties ∧ Forall (λ x, grows x.2) (pool_properties T path) ∧
  Forall (λ x, grows x.2) (fs_properties T path) ∧ Forall (λ x, grows x.2) (bd_properties T path).
Proof.
  split_and!; unfold api_properties, pool_properties, fs_properties, bd_properties; rewrite ?Forall_cons, ?Forall_nil; split_and!; try done;
    cbn [snd]; first [apply grows_pool_operation|apply grows_fs_operation|apply grows_dev_operation|idtac];
    unfold list_keys, locked_pools, locked_pool_uuids, locked_pools_with_devs; grow.
Qed.

Lemma grows_handler T path args h : grows (handler_fn T path args h).
Proof.
  destruct (grows_tables T path) as (Ha & Hp & Hf & Hd).
  destruct h; cbn [handler_fn]; try (by apply grows_all); try (by apply grows_some);
    unfold get_managed_objects, create_pool, set_key, unset_key, unlock_pool, destroy_pool, engine_state_report, get_report, create_filesystems, destroy_filesystems,
      snapshot_filesystem, add_blockdevs, bind_clevis, unbind_clevis, bind_keyring, unbind_keyring, rebind_keyring, rebind_clevis, rename_pool,
      rename_filesystem, set_user_info, typed_pool, typed_fs, typed_dev, get_data;
    grow.
Qed.
Lemma grows_udev path v : grows (handle_udev_event path v).
Proof. unfold handle_udev_event, register_pool. grow. Qed.

Lemma run_grows {A} (m : meth A) out d : grows m → d_tree (run_meth m out d).2 = d_tree d ∧
  (∃ acts, c_queue (d_ctx (run_meth m out d).2) = c_queue (d_ctx d) ++ acts ∧ Forall action_ok acts) ∧
  ∃ l, d_late (run_meth m out d).2 = d_late d ++ l ∧ Forall (λ x, late_ok (Some x.1)) l.
Proof.
  intros Hm. destruct (Hm (d_ctx d)) as [Hl Ha]. unfold run_meth. destruct (m (d_ctx d)) as [r c]. cbn in *. split; [done|]. split; [done|].
  exists (late_call r). split; [done|]. destruct r; cbn in *; repeat constructor. done.
Qed.
Lemma grows_handle T msg : grows (handle T msg).
Proof. unfold handle. destruct (find_method _ _); [apply grows_handler|grow]. Qed.
Lemma grows_get_property T path i n : grows (get_property T path i n).
Proof. unfold get_property. destruct (find_property _ _ _ _); [apply grows_getter|grow]. Qed.
Lemma grows_dm_event : grows process_dm_event.
Proof. unfold process_dm_event. grow. Qed.
Lemma grows_register_pools path l : grows (register_pools path l).
Proof. induction l as [|[[n u] p] l IH]; cbn [register_pools]; unfold register_pool; grow. Qed.

(** only the tree handler changes the tree; the others only append to the queue *)
Lemma step_grows ev d : ev ≠ Process → d_tree (step ev d).2 = d_tree d ∧ c_queue (d_ctx d) `prefix_of` c_queue (d_ctx (step ev d).2).
Proof.
  intros Hev. assert (∀ A (m : meth A) out, grows m →
    d_tree (run_meth m out d).2 = d_tree d ∧ c_queue (d_ctx d) `prefix_of` c_queue (d_ctx (run_meth m out d).2)) as Hrun.
  { intros A m out Hm. destruct (run_grows m out d Hm) as (? & (acts & -> & _) & _). split; [done|apply prefix_app_r]; done. }
  destruct ev as [msg|k|path i n|v| |]; cbn [step]; [by apply Hrun, grows_handle| |by apply Hrun, grows_get_property|by apply Hrun, grows_udev
    |by apply Hrun, grows_dm_event|done].
  destruct (d_late d !! k) as [[a r]|]; (split; [done|]); [by eexists|done].
Qed.

(** ** Objects are always the ones made for them *)

Definition objects_ok d : Prop := (∀ path o, d_tree d !! path = Some o → object_ok o) ∧ Forall action_ok (c_queue (d_ctx d)) ∧
  Forall (λ x, late_ok (Some x.1)) (d_late d).

Lemma base_lookup path o : get_base_tree.1 !! path = Some o → object_ok o ∧ o_name o = path ∧ o_data o = None ∧ path ∈ base_paths.
Proof.
  cbn. intros [[<- <-]|[_ [[<- <-]|[_ [[<- <-]|[_ [<- <-]%lookup_singleton_Some]]%lookup_insert_Some]]%lookup_insert_Some]]%lookup_insert_Some;
    (split; [cbn; eauto|]); (split; [done|]); (split; [done|]); unfold base_paths; set_solver.
Qed.
Lemma removed_objects paths T path o : (remove_objects paths T).1 !! path = Some o → T !! path = Some o.
Proof.
  revert T. induction paths as [|[p i] l IH]; intros T; [done|]. cbn. specialize (IH (delete p T)). destruct (remove_objects l (delete p T)).
  cbn in *. intros [_ ?]%IH%lookup_delete_Some. done.
Qed.
Lemma action_objects a T path o : action_ok a → (∀ path o, T !! path = Some o → object_ok o) → apply_action a T !! path = Some o → object_ok o.
Proof.
  intros Ha HT. destruct a as [x i|p i|p n|p n]; [|..|by apply HT|by apply HT]; unfold apply_action; cbn.
  - intros [[_ <-]|[_ ?]]%lookup_insert_Some; [done|by eapply HT].
  - pose proof (removed_objects (children p T) T) as Hr. destruct (remove_objects (children p T) T) as [T' l]. cbn.
    intros [_ ?]%lookup_delete_Some. by eapply HT, Hr.
Qed.
Lemma runs_objects d : runs d → objects_ok d.
Proof.
  induction 1 as [e w|d ev _ (Ht & Hq & Hl)].
  - unfold start. destruct (grows_register_pools STRATIS_BASE_PATH (e_pools e) (mkCtx e w [] 0)) as (_ & acts & Hq & Ha).
    change (setup STRATIS_BASE_PATH (mkCtx e w [] 0)) with (register_pools STRATIS_BASE_PATH (e_pools e) (mkCtx e w [] 0)).
    revert Hq. destruct (register_pools _ _ _) as [r c]. cbn. intros Hq. unfold objects_ok. cbn. rewrite Hq. split; [|by split]. intros path o Ho. by apply base_lookup in Ho as (? & _).
  - assert (∀ A (m : meth A) out, grows m → objects_ok (run_meth m out d).2) as Hrun.
    { intros A m out Hm. destruct (run_grows m out d Hm) as (Ht' & (acts & Hq' & Ha) & l & Hl' & Hla). unfold objects_ok.
      rewrite Ht', Hq', Hl'. split; [done|]. split; by apply Forall_app. }
    destruct ev as [msg|k|path i n|v| |]; cbn [step]; [by apply Hrun, grows_handle| |by apply Hrun, grows_get_property|by apply Hrun, grows_udev
      |by apply Hrun, grows_dm_event|].
    + destruct (d_late d !! k) as [[a r]|] eqn:Hk; [|done]. pose proof (Forall_lookup_1 _ _ _ _ Hl Hk) as Ha. split; [done|].
      split; [apply Forall_app; split; [done|]; by destruct a; repeat constructor|by apply Forall_delete].
    + assert (objects_ok d) as Hok by done. pose proof (process_eq d) as Hp. cbn [step] in Hp. destruct (d_late d) eqn:Hd; [|done].
      destruct (c_queue (d_ctx d)) as [|a q] eqn:Hqe; [done|]. rewrite (Hp a q) by done.
      apply Forall_cons in Hq as [Ha Hq]. split; [|by split]. intros path o. by apply action_objects.
Qed.
End steps.
