(* ===== verification/DbusTypes.v ===== *)
(** * The types of replies

    Every method of the D-Bus is declared with the types of what it returns ([src/dbus_api/*/api.rs]); clients unmarshal by them.
    The functions the methods are bound to build their replies themselves, on many paths: here, on all of them, the reply has the type
    declared. *)
From stdpp Require Import base list gmap strings pretty.
From Stdlib Require Import ZArith Lia.
From S2P Require Import Prelude External Json Actions Shared DeviceSet Identify EngineApi Dbus DbusMethods DbusTree DbusSteps.

(** the reply has the types of [outs] *)
Definition replies (outs : list (string * Ty)) (r : Reply) : bool :=
  match r, outs.*2 with
  | append3 v _ _, [t; Tq; Ts] => has_type v t
  | append1 v, [t] => has_type v t
  | _, _ => false
  end.

Lemma has_array {A} (f : A → DVal) t l : (∀ a, has_type (f a) t = true) → has_type (DArray (f <$> l)) (Ta t) = true.
Proof. intros Hf. cbn. induction l as [|a l IH]; [done|]. cbn. by rewrite Hf. Qed.
Lemma has_array_forall t l : Forall (λ v, has_type v t = true) l → has_type (DArray l) (Ta t) = true.
Proof. cbn. induction 1 as [|v l Hv _ IH]; [done|]. cbn. by rewrite Hv. Qed.
Lemma has_pair a b ta tb : has_type a ta = true → has_type b tb = true → has_type (DPair a b) (Tr [ta; tb]) = true.
Proof. cbn. by intros -> ->. Qed.

Lemma replies_ok n t v : has_type v t = true → replies (returns n t) (reply_ok v) = true.
Proof. done. Qed.

Section types.
Context `{Traits} `{UuidFormat} `{JsonText}.

(** [m] ends with a value for which [Q] holds, or returns a reply of the types [outs], or fails *)
Definition typed {A} outs (m : meth A) (Q : A → Prop) : Prop := ∀ c,
  match (m c).1 with Val a => Q a | Early r | Unlocked _ r => replies outs r = true | _ => True end.

Section outs.
Context (outs : list (string * Ty)).
Lemma typed_bind {A B} (m : meth A) (k : A → meth B) R Q : typed outs m R → (∀ a, R a → typed outs (k a) Q) → typed outs (m ≫= k) Q.
Proof.
  intros Hm Hk c. specialize (Hm c). unfold mbind, meth_bind. destruct (m c) as [[a|r|b r|x|y] c']; cbn in *; try done. by apply Hk.
Qed.
Lemma typed_ret {A} (a : A) (Q : A → Prop) : Q a → typed outs (mret a) Q.
Proof. by intros ? c. Qed.
Lemma typed_early {A} r (Q : A → Prop) : replies outs r = true → typed outs (early r) Q.
Proof. by intros ? c. Qed.
Lemma typed_unlocked {A} a r (Q : A → Prop) : replies outs r = true → typed outs (unlocked a r) Q.
Proof. by intros ? c. Qed.
Lemma typed_merr {A} e (Q : A → Prop) : typed outs (merr e) Q.
Proof. by intros c. Qed.
Lemma typed_checked {A} (r : res A) : typed outs (checked r) (λ _, True).
Proof. by intros c; destruct r. Qed.
Lemma typed_the_engine : typed outs the_engine (λ _, True).
Proof. by intros c. Qed.
Lemma typed_engine {A} (m : st (Engine_ * World_) A) : typed outs (on_engine m) (λ _, True).
Proof. intros c. unfold on_engine. by destruct (m _) as [[] [e w]]. Qed.
Lemma typed_mut_pool {A} p put (m : st (Pool_ * World_) A) : typed outs (on_mut_pool p put m) (λ _, True).
Proof. intros c. unfold on_mut_pool. by destruct (m _) as [[] [e w]]. Qed.
Lemma typed_world {A} (m : st World_ A) : typed outs (on_world m) (λ _, True).
Proof. intros c. unfold on_world. by destruct (m _) as [[] w]. Qed.
Lemma typed_send a : typed outs (send a) (λ _, True).
Proof. by intros c. Qed.
Lemma typed_next_id : typed outs get_next_id (λ _, True).
Proof. by intros c. Qed.
Lemma typed_next_arg {A} args (read : DVal → option A) loc : typed outs (get_next_arg args read loc) (λ _, True).
Proof. unfold get_next_arg. destruct (args !! loc) as [v|]; [destruct (read v)|]; by intros c. Qed.
End outs.

Create HintDb typed.
Hint Resolve typed_merr typed_checked typed_the_engine typed_engine typed_mut_pool typed_world typed_send typed_next_id typed_next_arg : typed.
Hint Resolve has_array has_pair has_array_forall replies_ok : typed.

Ltac type_step :=
  lazymatch goal with
  | |- typed _ (mbind _ _) _ => first [eapply typed_bind; [solve [eauto with typed]|intros ? ?] | apply (typed_bind _ _ _ (λ _, True)); [|intros ? _]]
  | |- typed _ (mret _) _ => apply typed_ret
  | |- typed _ (early _) _ => apply typed_early
  | |- typed _ (unlocked _ _) _ => apply typed_unlocked
  | |- typed _ (match ?x with _ => _ end) _ => destruct x eqn:?
  | |- context [match ?x with _ => _ end] => destruct x eqn:?
  | |- True => done
  end.
Ltac types := repeat type_step; eauto with typed.

Lemma typed_make_path outs : typed outs make_object_path (λ _, True).
Proof. unfold make_object_path. types. Qed.
Hint Resolve typed_make_path : typed.
Lemma typed_dbus_pool outs par n u p : typed outs (create_dbus_pool par n u p) (λ _, True).
Proof. unfold create_dbus_pool, push_add. types. Qed.
Lemma typed_dbus_fs outs par n m u f : typed outs (create_dbus_filesystem par n m u f) (λ _, True).
Proof. unfold create_dbus_filesystem, push_add. types. Qed.
Lemma typed_dbus_dev outs par u t b : typed outs (create_dbus_blockdev par u t b) (λ _, True).
Proof. unfold create_dbus_blockdev, push_add. types. Qed.
Hint Resolve typed_dbus_pool typed_dbus_fs typed_dbus_dev : typed.
Lemma typed_dev_objects outs par l : typed outs (create_blockdev_objects par l) (λ _, True).
Proof. induction l as [|[[u t] b] l IH]; cbn [create_blockdev_objects]; types. Qed.
Lemma typed_created outs par n p l : typed outs (created_objects par n p l) (Forall (λ v, has_type v (Tr [To; Ts]) = true)).
Proof. induction l as [|[m u] l IH]; cbn [created_objects]; types; by constructor. Qed.
Lemma typed_added outs par op p l : typed outs (added_objects par op p l) (λ _, True).
Proof. induction l as [|u l IH]; cbn [added_objects]; types. Qed.
Lemma typed_push_removes outs m l : typed outs (push_removes m l) (λ _, True).
Proof. induction l as [|u l IH]; cbn [push_removes]; unfold push_remove; types. Qed.
Hint Resolve typed_dev_objects typed_created typed_added typed_push_removes : typed.

(** the early returns, with the value they are given *)
Section defaults.
Context (name : string) (t : Ty) (dv : DVal) (Hdv : has_type dv t = true).
Notation outs := (returns name t).
Lemma typed_get_data o : typed outs (get_data o dv) (λ _, True).
Proof. unfold get_data. types. Qed.
Lemma typed_as_pool u : typed outs (typed_pool u dv) (λ _, True).
Proof. destruct u; cbn [typed_pool typed_fs typed_dev]; types. Qed.
Lemma typed_as_fs u : typed outs (typed_fs u dv) (λ _, True).
Proof. destruct u; cbn [typed_pool typed_fs typed_dev]; types. Qed.
Lemma typed_as_dev u : typed outs (typed_dev u dv) (λ _, True).
Proof. destruct u; cbn [typed_pool typed_fs typed_dev]; types. Qed.
Lemma typed_parent_path T d : typed outs (get_parent_path T d dv) (λ _, True).
Proof. unfold get_parent_path. types. Qed.
Hint Resolve typed_get_data typed_as_pool typed_as_fs typed_as_dev typed_parent_path : typed.
Lemma typed_implicit_pool T path : typed outs (implicit_pool_uuid T path dv) (λ _, True).
Proof. unfold implicit_pool_uuid, implicit_argument. types. Qed.
Lemma typed_implicit_parent T path : typed outs (implicit_parent_uuid T path dv) (λ _, True).
Proof. unfold implicit_parent_uuid, implicit_argument. types. Qed.
Lemma typed_get_pool u : typed outs (get_pool u dv) (λ _, True).
Proof. unfold get_pool. types. Qed.
Lemma typed_get_mut_pool u : typed outs (get_mut_pool u dv) (λ _, True).
Proof. unfold get_mut_pool. types. Qed.
Lemma typed_key_desc k : typed outs (key_description_arg k dv) (λ _, True).
Proof. unfold key_description_arg. types. Qed.
Lemma typed_fs_map T l m : typed outs (filesystem_map_of T l dv m) (λ _, True).
Proof.
  revert m. induction l as [|q l IH]; intros m; cbn [filesystem_map_of]; [types|]. case_match; [|done]. case_match.
  eapply typed_bind; [apply typed_as_fs|]. intros u _. apply IH.
Qed.
End defaults.
Hint Resolve typed_get_data typed_as_pool typed_as_fs typed_as_dev typed_parent_path typed_implicit_pool typed_implicit_parent
  typed_get_pool typed_get_mut_pool typed_key_desc typed_fs_map : typed.

(** ** Methods *)

Notation TYPED d m := (typed (out_args d) m (λ r, replies (out_args d) r = true)).

Lemma set_key_typed args : TYPED set_key_method (set_key args).
Proof. unfold set_key, set_key_method. cbn [out_args]. types. Qed.
Lemma engine_state_report_typed : TYPED engine_state_report_method engine_state_report.
Proof. unfold engine_state_report, engine_state_report_method. cbn [out_args]. types. Qed.
Lemma get_report_typed args : TYPED get_report_method (get_report args).
Proof. unfold get_report, get_report_method, ReportType_try_from. cbn [out_args]. types. by case_bool_decide. Qed.
Lemma unset_key_typed args : TYPED unset_key_method (unset_key args).
Proof. unfold unset_key, unset_key_method. cbn [out_args]. types. Qed.
Lemma create_filesystems_typed T path args : TYPED create_filesystems_method (create_filesystems T path args).
Proof. unfold create_filesystems, create_filesystems_method. cbn [out_args]. types. Qed.
Lemma destroy_filesystems_typed T path args : TYPED destroy_filesystems_method (destroy_filesystems T path args).
Proof. unfold destroy_filesystems, destroy_filesystems_method. cbn [out_args]. types. Qed.
Lemma snapshot_filesystem_typed T path args : TYPED snapshot_filesystem_method (snapshot_filesystem T path args).
Proof. unfold snapshot_filesystem, snapshot_filesystem_method. cbn [out_args]. types. Qed.
Lemma bind_clevis_typed T path args : TYPED bind_clevis_method (bind_clevis T path args).
Proof. unfold bind_clevis, bind_clevis_method. cbn [out_args]. types. Qed.
Lemma unbind_clevis_typed T path : TYPED unbind_clevis_method (unbind_clevis T path).
Proof. unfold unbind_clevis, unbind_clevis_method. cbn [out_args]. types. Qed.
Lemma bind_keyring_typed T path args : TYPED bind_keyring_method (bind_keyring T path args).
Proof. unfold bind_keyring, bind_keyring_method. cbn [out_args]. types. Qed.
Lemma unbind_keyring_typed T path : TYPED unbind_keyring_method (unbind_keyring T path).
Proof. unfold unbind_keyring, unbind_keyring_method. cbn [out_args]. types. Qed.
Lemma rebind_keyring_typed T path args : TYPED rebind_keyring_method (rebind_keyring T path args).
Proof. unfold rebind_keyring, rebind_keyring_method. cbn [out_args]. types. Qed.
Lemma rebind_clevis_typed T path : TYPED rebind_clevis_method (rebind_clevis T path).
Proof. unfold rebind_clevis, rebind_clevis_method. cbn [out_args]. types. Qed.
Lemma rename_pool_typed T path args : TYPED pool_rename_method (rename_pool T path args).
Proof. unfold rename_pool, pool_rename_method. cbn [out_args]. types. Qed.
Lemma rename_filesystem_typed T path args : TYPED fs_rename_method (rename_filesystem T path args).
Proof. unfold rename_filesystem, fs_rename_method. cbn [out_args]. types. Qed.
Lemma set_user_info_typed T path args : TYPED set_userid_method (set_user_info T path args).
Proof. unfold set_user_info, set_userid_method. cbn [out_args]. types. Qed.
Lemma destroy_pool_typed T args : TYPED destroy_pool_method (destroy_pool T args).
Proof. unfold destroy_pool, destroy_pool_method. cbn [out_args]. types. Qed.
Lemma create_pool_typed path args : TYPED create_pool_method (create_pool path args).
Proof. unfold create_pool, create_pool_method. cbn [out_args]. types. Qed.
Lemma unlock_pool_typed args : TYPED unlock_pool_method (unlock_pool args).
Proof. unfold unlock_pool, unlock_pool_method. cbn [out_args]. types. by intros c. Qed.
Lemma add_datadevs_typed T path args : TYPED add_blockdevs_method (add_blockdevs T path args AddData).
Proof. unfold add_blockdevs, add_blockdevs_method. cbn [out_args]. types. Qed.
Lemma init_cache_typed T path args : TYPED init_cache_method (add_blockdevs T path args InitCache).
Proof. unfold add_blockdevs, init_cache_method. cbn [out_args]. types. Qed.
Lemma add_cachedevs_typed T path args : TYPED add_cachedevs_method (add_blockdevs T path args AddCache).
Proof. unfold add_blockdevs, add_cachedevs_method. cbn [out_args]. types. Qed.

(** ** [FetchProperties] *)

Lemma result_to_tuple_type r : has_type (result_to_tuple r) (Tr [Tb; Tv]) = true.
Proof. by destruct r. Qed.
Lemma has_dict l : Forall (λ x : DVal * DVal, has_type x.1 Ts = true ∧ has_type x.2 (Tr [Tb; Tv]) = true) l →
  has_type (DDict l) (Te Ts (Tr [Tb; Tv])) = true.
Proof. induction 1 as [|[k v] l [Hk Hv] _ IH]; [done|]. cbn in *. by rewrite Hk, Hv. Qed.

(** getters do not return early *)
Definition plain (m : meth (RText + DVal)) : Prop := ∀ outs, typed outs m (λ _, True).
Lemma plain_pool_operation T path f : (∀ n u p, plain (f n u p)) → plain (pool_operation T path f).
Proof. intros Hf outs. unfold pool_operation, implicit_argument, try_with. repeat type_step; apply Hf. Qed.
Lemma plain_fs_operation T path f : (∀ n m x, plain (f n m x)) → plain (filesystem_operation T path f).
Proof. intros Hf outs. unfold filesystem_operation, try_with. repeat type_step; apply Hf. Qed.
Lemma plain_dev_operation T path f : (∀ t b, plain (f t b)) → plain (blockdev_operation T path f).
Proof. intros Hf outs. unfold blockdev_operation, try_with. repeat type_step; apply Hf. Qed.
Lemma plain_tables T path : Forall (λ x, plain x.2) api_properties ∧ Forall (λ x, plain x.2) (pool_properties T path) ∧
  Forall (λ x, plain x.2) (fs_properties T path) ∧ Forall (λ x, plain x.2) (bd_properties T path).
Proof.
  split_and!; unfold api_properties, pool_properties, fs_properties, bd_properties; rewrite ?Forall_cons, ?Forall_nil; split_and!; try done;
    cbn [snd]; first [apply plain_pool_operation; intros ? ? ?|apply plain_fs_operation; intros ? ? ?|apply plain_dev_operation; intros ? ?|idtac];
    intros outs; unfold list_keys, locked_pools, locked_pool_uuids, locked_pools_with_devs; types.
Qed.

Lemma shared_typed outs table l : Forall (λ x, plain x.2) table →
  typed outs (get_properties_shared table l) (Forall (λ x, has_type x.1 Ts = true ∧ has_type x.2 (Tr [Tb; Tv]) = true)).
Proof.
  intros Ht. induction l as [|q l IH]; cbn [get_properties_shared]; [by types|]. destruct (list_find _ table) as [[i [k g]]|] eqn:Hf; [|done].
  apply list_find_Some in Hf as (Hin & _ & _). pose proof (Forall_lookup_1 _ _ _ _ Ht Hin outs) as Hg. cbn in Hg.
  eapply typed_bind; [exact Hg|]. intros r _. eapply typed_bind; [exact IH|]. intros l' Hl'. apply typed_ret. constructor; [|done].
  split; [done|apply result_to_tuple_type].
Qed.
Lemma get_all_properties_typed h table : Forall (λ x, plain x.2) table → TYPED (get_all_properties_method h) (get_all_properties table).
Proof. intros Ht. eapply typed_bind; [by apply shared_typed|]. intros l Hl. apply typed_ret. by apply has_dict. Qed.
Lemma get_properties_typed h table args : Forall (λ x, plain x.2) table → TYPED (get_properties_method h) (get_properties args table).
Proof.
  intros Ht. eapply typed_bind; [apply typed_next_arg|]. intros ps _. eapply typed_bind; [by apply shared_typed|]. intros l Hl.
  apply typed_ret. by apply has_dict.
Qed.
End types.

Section replies.
Context `{Traits} `{UuidFormat} `{JsonText}.

(** the method an object has for a handler is the one the handler was written for *)
Definition method_ok T path args (m : Method) : Prop :=
  m = get_managed_objects_method ∨ m_handler m ≠ Hget_managed_objects ∧
  typed (out_args m) (handler_fn T path args (m_handler m)) (λ r, replies (out_args m) r = true).
Lemma methods_ok T path args o : object_ok o → Forall (λ x, method_ok T path args x.2) (o_methods o).
Proof.
  destruct (plain_tables T path) as (Ha & Hp & Hf & Hd). unfold object_ok. destruct (o_data o) as [[par s]|].
  - intros ->. destruct s as [b|f|u]; cbn [op_parent op_uuid object_for blockdev_object filesystem_object pool_object o_methods app].
    + unfold with_methods, fetch_methods. cbn. rewrite !Forall_cons, Forall_nil. split_and!; [..|done]; right; (split; [done|]).
      * apply set_user_info_typed.
      * by apply get_all_properties_typed.
      * by apply get_properties_typed.
    + unfold with_methods, fetch_methods. cbn. rewrite !Forall_cons, Forall_nil. split_and!; [..|done]; right; (split; [done|]).
      * apply rename_filesystem_typed.
      * by apply get_all_properties_typed.
      * by apply get_properties_typed.
    + unfold with_methods, fetch_methods. cbn. rewrite !Forall_cons, Forall_nil. split_and!; [..|done]; right; (split; [done|]).
      * apply create_filesystems_typed.
      * apply destroy_filesystems_typed.
      * apply snapshot_filesystem_typed.
      * apply add_datadevs_typed.
      * apply bind_clevis_typed.
      * apply unbind_clevis_typed.
      * apply init_cache_typed.
      * apply add_cachedevs_typed.
      * apply bind_keyring_typed.
      * apply unbind_keyring_typed.
      * apply rebind_keyring_typed.
      * apply rebind_clevis_typed.
      * apply rename_pool_typed.
      * by apply get_all_properties_typed.
      * by apply get_properties_typed.
  - intros [-> |[name ->]]; [|done]. cbn. rewrite !Forall_cons, Forall_nil. split_and!; [by left|..|done]; right; (split; [done|]).
    + apply create_pool_typed.
    + apply set_key_typed.
    + apply unset_key_typed.
    + apply unlock_pool_typed.
    + apply destroy_pool_typed.
    + apply engine_state_report_typed.
    + by apply get_all_properties_typed.
    + by apply get_properties_typed.
    + apply get_report_typed.
Qed.

(** C16: whatever the engine does and whatever state its calls leave, when a method call is answered with a reply, on success and in every
    error path, the values of the reply have the types the method is declared with, for every method but [GetManagedObjects]: that one is declared to
    return nothing and always replies with a dictionary. *)
Theorem dbus_replies_typed d msg m r c : runs d → find_method (d_tree d) msg = Some m →
  (handle (d_tree d) msg (d_ctx d) = (Val r, c) ∨ handle (d_tree d) msg (d_ctx d) = (Early r, c) ∨
    ∃ a, handle (d_tree d) msg (d_ctx d) = (Unlocked a r, c)) →
  (m_handler m ≠ Hget_managed_objects → replies (out_args m) r = true) ∧
  (m_handler m = Hget_managed_objects → out_args m = [] ∧ ∃ l, r = append1 (DDict l)).
Proof.
  intros Hd Hm Hr. destruct (runs_objects d Hd) as (Hok & _).
  unfold handle in Hr. rewrite Hm in Hr. unfold find_method in Hm. apply bind_Some in Hm as (o & Ho & Hm).
  apply bind_Some in Hm as ([k [i m']] & Hf & [= ->]). apply list_find_Some in Hf as (Hin & _ & _).
  destruct (Forall_lookup_1 _ _ _ _ (methods_ok (d_tree d) (msg_path msg) (msg_args msg) o (Hok _ _ Ho)) Hin) as [Hgm|[Hne Ht]]; cbn [snd] in *.
  - subst m. split; [done|]. intros _. split; [done|]. cbn [m_handler get_managed_objects_method handler_fn] in Hr.
    unfold get_managed_objects, mbind, meth_bind, mret, meth_ret, the_engine, checked in Hr.
    destruct (managed_objects (d_tree d) (c_engine (d_ctx d)) (map_to_list (d_tree d)).*2) as [l| |]; cbn in Hr; destruct Hr as [Hr|[Hr|[a Hr]]]; simplify_eq; eauto.
  - split; [|done]. intros _. specialize (Ht (d_ctx d)). by destruct Hr as [Hr|[Hr|[a Hr]]]; rewrite Hr in Ht.
Qed.
End replies.
