(* ===== verification/DbusSpec.v ===== *)
(** * The invariant of the D-Bus

    What relates the tree of objects, the actions queued for it and the engine while handlers run: the tree with the queued actions applied
    has one object for each pool, filesystem and block device of the engine, up to the pools whose removal a call has still to queue.
    The changes an engine makes keep it, and [wp] is the rule by which [DbusSafety] shows that every handler does. *)
From stdpp Require Import base list gmap strings pretty.
From Stdlib Require Import ZArith Lia.
From S2P Require Import Prelude External Json Actions Shared DeviceSet Identify EngineApi Dbus DbusMethods DbusTree.

Section spec.
Context `{EngineLaws} `{UuidFormat} `{JsonText}.
Implicit Types (T : Tree) (c : Ctx) (e : Engine_) (w : World_).

(** ** What engines have *)

Lemma ent_same e e' r s : same_pools e e' → ent e' r s ↔ ent e r s.
Proof.
  intros Hs. destruct r as [u|]; cbn.
  - specialize (Hs u). destruct (e_get_pool e u) as [[n p]|], (e_get_pool e' u) as [[n' p']|]; cbn in Hs; naive_solver.
  - split; intros (u & -> & Hu); exists u; (split; [done|]); specialize (Hs u);
      destruct (e_get_pool e u), (e_get_pool e' u); cbn in Hs; destruct Hu; naive_solver.
Qed.
Lemma ent_added e e' u p r s : pool_added e e' u p →
  ent e' r s ↔ ent e r s ∨ (r = None ∧ s = UPool u) ∨ (r = Some u ∧ pent p s).
Proof.
  intros (Hno & Hu & Hv). destruct r as [v|]; cbn.
  - destruct (decide (v = u)) as [->|Hne].
    + rewrite Hno. destruct (e_get_pool e' u) as [[n q]|]; cbn in Hu; naive_solver.
    + specialize (Hv v Hne). destruct (e_get_pool e v) as [[n q]|], (e_get_pool e' v) as [[n' q']|]; cbn in Hv; naive_solver.
  - assert (∀ v, is_Some (e_get_pool e' v) ↔ is_Some (e_get_pool e v) ∨ v = u) as Hi.
    { intros v. destruct (decide (v = u)) as [->|Hne].
      - destruct (e_get_pool e' u); cbn in Hu; [|done]. naive_solver.
      - specialize (Hv v Hne). destruct (e_get_pool e v), (e_get_pool e' v); cbn in Hv; unfold is_Some; naive_solver. }
    setoid_rewrite Hi. naive_solver.
Qed.
Lemma ent_removed e e' u r s : pool_removed e e' u → ent e' r s ↔ ent e r s ∧ r ≠ Some u ∧ s ≠ UPool u.
Proof.
  intros (Hsome & Hno & Hv). destruct r as [v|]; cbn.
  - destruct (decide (v = u)) as [->|Hne]; [rewrite Hno; naive_solver|]. specialize (Hv v Hne).
    destruct (e_get_pool e v) as [[n q]|], (e_get_pool e' v) as [[n' q']|]; cbn in Hv; simplify_eq; split; try naive_solver.
  - assert (∀ v, is_Some (e_get_pool e' v) ↔ is_Some (e_get_pool e v) ∧ v ≠ u) as Hi.
    { intros v. destruct (decide (v = u)) as [->|Hne]; [rewrite Hno; split; [by intros []|naive_solver]|].
      specialize (Hv v Hne). destruct (e_get_pool e v), (e_get_pool e' v); cbn in Hv; unfold is_Some; naive_solver. }
    setoid_rewrite Hi. naive_solver.
Qed.
Lemma ent_put e u n p put p' r s : e_get_mut_pool e u = Some (n, p, put) →
  ent (put p') r s ↔ (r ≠ Some u ∧ ent e r s) ∨ (r = Some u ∧ pent p' s).
Proof.
  intros Hm. pose proof (get_mut_law e u) as Hl. rewrite Hm in Hl. destruct Hl as [Hu Hput]. destruct (Hput p') as [Hpu Hpv].
  destruct r as [v|]; cbn.
  - destruct (decide (v = u)) as [->|Hne]; [rewrite Hpu; naive_solver|]. rewrite (Hpv v Hne). naive_solver.
  - assert (∀ v, is_Some (e_get_pool (put p') v) ↔ is_Some (e_get_pool e v)) as Hi.
    { intros v. destruct (decide (v = u)) as [->|Hne]; [rewrite Hpu, Hu; unfold is_Some; naive_solver|by rewrite (Hpv v Hne)]. }
    setoid_rewrite Hi. naive_solver.
Qed.
Lemma ent_seen w e r s : engine_inv w e → ent e r s → seen w (raw_uuid s).
Proof.
  intros He. destruct r as [u|]; cbn.
  - intros (n & p & Hu & Hp). destruct (engine_pool_inv _ _ _ _ _ He Hu) as [Hpi _]. by eapply pool_seen.
  - intros (u & -> & [[n p] Hu]). by destruct (engine_pool_inv _ _ _ _ _ He Hu).
Qed.

(** ** The daemon

    Between the destruction of a pool and the request to remove its objects the pool is gone, and still to be shown: [G] is what
    such requests owe. *)
Definition shows (G : option Z → StratisUuid → Prop) e r s : Prop := ent e r s ∨ G r s.

Record inv (G : option Z → StratisUuid → Prop) (c : Ctx) T : Prop := {
  i_next : 0 ≤ next_index c;
  i_engine : engine_inv (c_world c) (c_engine c);
  i_gone r s : G r s → ∀ r', ¬ ent (c_engine c) r' s;
  i_mirror : mirror (shows G (c_engine c)) (apply_actions (c_queue c) T);
  i_trees : all_trees (λ Ti, tree_wf (next_index c) (seen (c_world c)) Ti ∧
    ∀ path par s, obj Ti path par s → obj (apply_actions (c_queue c) T) path par s ∨ ∀ r, ¬ shows G (c_engine c) r s) T (c_queue c)
}.

Lemma drained_wf G c T : inv G c T → tree_wf (next_index c) (seen (c_world c)) (apply_actions (c_queue c) T).
Proof. intros Hinv. apply (all_trees_last _ _ _ (i_trees _ _ _ Hinv)). Qed.
Lemma gone_seen G c T r s : inv G c T → G r s → seen (c_world c) (raw_uuid s).
Proof.
  intros Hinv Hr. pose proof (drained_wf _ _ _ Hinv) as Hwf. pose proof (i_mirror _ _ _ Hinv) as Hm. destruct r as [u|].
  - destruct (m_child _ _ Hm u s) as (_ & P & path & _ & Ho); [by right|]. by eapply (wf_known _ _ _ Hwf).
  - destruct (m_pool _ _ Hm s) as (u & path & -> & Ho); [by right|]. by eapply (wf_known _ _ _ Hwf).
Qed.
Lemma shows_seen G c T r s : inv G c T → shows G (c_engine c) r s → seen (c_world c) (raw_uuid s).
Proof. intros Hinv [Hr|Hr]; [|by eapply gone_seen]. by eapply ent_seen; [apply (i_engine _ _ _ Hinv)|]. Qed.

(** a change of the engine and the actions queued for it *)
Lemma inv_change_owed G G' c T e' w' acts n' : inv G c T → engine_inv w' e' → later (c_world c) w' → next_index c ≤ n' →
  (∀ r s, G' r s → ∀ r', ¬ ent e' r' s) →
  (∀ r s, shows G' e' r s → seen (c_world c) (raw_uuid s) → ∃ r', shows G (c_engine c) r' s) →
  (let T1 := apply_actions (c_queue c) T in let T2 := apply_actions acts T1 in
   mirror (shows G' e') T2 ∧
   all_trees (λ Ti, tree_wf n' (seen w') Ti ∧ ∀ path par s, obj Ti path par s → obj T2 path par s ∨ ∀ r, ¬ shows G' e' r s) T1 acts) →
  inv G' (mkCtx e' w' (c_queue c ++ acts) n') T.
Proof.
  intros [Hn He _ Hm Ht] He' Hlater Hn' Hg Hold [Hm2 Ht2].
  split; cbn [next_index c_engine c_world c_queue]; [lia|done|done|by rewrite apply_actions_app|].
  rewrite apply_actions_app. apply all_trees_app; [|exact Ht2].
  pose proof (all_trees_head _ _ _ Ht2) as [_ Hstep]. eapply all_trees_impl; [|exact Ht]. intros Ti [Hwf Hi]. split; [by eapply tree_wf_mono|].
  intros path par s Ho. destruct (Hi _ _ _ Ho) as [Ho1|Hdead]; [by apply Hstep|]. right. intros r Hr.
  destruct (Hold r s Hr) as [r' Hr']; [|by eapply Hdead]. by eapply (wf_known _ _ _ Hwf).
Qed.
Lemma inv_change G c T e' w' acts n' : inv G c T → engine_inv w' e' → later (c_world c) w' → next_index c ≤ n' →
  (∀ r s, ent e' r s → seen (c_world c) (raw_uuid s) → ∃ r', ent (c_engine c) r' s) →
  (let T1 := apply_actions (c_queue c) T in let T2 := apply_actions acts T1 in
   mirror (shows G e') T2 ∧
   all_trees (λ Ti, tree_wf n' (seen w') Ti ∧ ∀ path par s, obj Ti path par s → obj T2 path par s ∨ ∀ r, ¬ shows G e' r s) T1 acts) →
  inv G (mkCtx e' w' (c_queue c ++ acts) n') T.
Proof.
  intros Hinv He' Hlater Hn' Hold Ht. eapply inv_change_owed; try done.
  - intros r s Hr r' Hr'. destruct (Hold r' s Hr' (gone_seen _ _ _ _ _ Hinv Hr)) as [r1 Hr1]. by eapply (i_gone _ _ _ Hinv).
  - intros r s [Hr|Hr] Hs; [destruct (Hold r s Hr Hs) as [r' ?]; exists r'; by left|exists r; by right].
Qed.

Definition quiet (a : DbusAction) : Prop := match a with FsNameChange _ _ | PoolNameChange _ _ => True | _ => False end.
Lemma quiet_actions acts T : Forall quiet acts → apply_actions acts T = T.
Proof. intros Hq. revert T. induction Hq as [|[| | |] l Ha _ IH]; intros T; try done; apply IH. Qed.
Lemma quiet_trees (P : Tree → Prop) acts T : Forall quiet acts → P T → all_trees P T acts.
Proof. intros Hq HP. induction Hq as [|[| | |] l Ha _ IH]; try done. Qed.

(** the actions that add an object *)
Definition n_adds (l : list DbusAction) : Z := Zsum ((λ a, match a with Add _ _ => 1 | _ => 0 end) <$> l).
Lemma n_adds_app l l' : n_adds (l ++ l') = n_adds l + n_adds l'.
Proof. unfold n_adds. by rewrite fmap_app, Zsum_app. Qed.

(** what is below a pool in the tree belongs to that pool *)
Lemma below_pool n known E T u P path r s : tree_wf n known T → mirror E T → pool_at T u P → obj T path P s → E r s →
  r ≠ Some u → s ≠ UPool u → False.
Proof.
  intros Hwf Hm HP Ho Hr Hru Hsu. pose proof (m_sound _ _ Hm _ _ _ Ho) as Hs.
  assert (∀ v, (∀ v, s ≠ UPool v) → pool_at T v P → E (Some v) s → r = Some u) as Hpar.
  { intros v Hns Hv Hvs. destruct (obj_fun _ _ _ _ _ _ Hv HP) as [_ [= ->]].
    destruct r as [r|]; [f_equal; by eapply mirror_parent|]. destruct (m_pool _ _ Hm _ Hr) as (v' & _ & -> & _). by edestruct Hns. }
  destruct s as [d|f|v]; [destruct Hs as (v & Hv & Hvs); by apply Hru, (Hpar v)..|].
  pose proof (wf_parent _ _ _ Hwf _ _ _ Ho) as Hb. cbn in Hb. destruct (wf_path _ _ _ Hwf _ _ _ HP) as (j & _ & Hj).
  apply (object_path_not_base j). rewrite <- Hj, Hb. by left.
Qed.

(** *** Changes of the engine that keep the invariant *)
Section changes.
Context (G : option Z → StratisUuid → Prop) c T (Hinv : inv G c T) (e' : Engine_) (w' : World_).
Notation e := (c_engine c).
Notation w := (c_world c).
Notation T1 := (apply_actions (c_queue c) T).
Hypothesis He' : engine_inv w' e'.
Hypothesis Hlater : later w w'.

Lemma inv_same acts : (∀ r s, ent e' r s ↔ ent e r s) → Forall quiet acts → inv G (mkCtx e' w' (c_queue c ++ acts) (next_index c)) T.
Proof.
  intros Hent Hq. apply inv_change; [done..| |]; [intros r s Hr _; exists r; by apply Hent|]. cbn zeta. rewrite quiet_actions by done. split.
  - eapply mirror_iff; [|exact (i_mirror _ _ _ Hinv)]. intros r s. unfold shows. by rewrite Hent.
  - apply quiet_trees; [done|]. split; [by eapply tree_wf_mono; [| |by eapply drained_wf]|by left].
Qed.

Lemma inv_pool_added u p L acts : pool_added e e' u p → ¬ seen w u → (∀ s, s ∈ L ↔ pent p s) → NoDup L →
  (∀ s, s ∈ L → ¬ seen w (raw_uuid s)) →
  adds (next_index c) ((STRATIS_BASE_PATH, UPool u) :: (pair (object_path_of (next_index c)) <$> L)) acts →
  inv G (mkCtx e' w' (c_queue c ++ acts) (next_index c + 1 + Z.of_nat (length L))) T.
Proof.
  intros Hadd Hu HL Hnd Hnew Ha. pose proof (ent_added e e' u p) as Hent.
  pose proof (λ r s, shows_seen G c T r s Hinv) as Hseen.
  assert (∀ r s, ent e' r s → seen w' (raw_uuid s)) as Hseen' by (intros; by eapply ent_seen).
  apply inv_change; [done..|lia| |].
  { intros r s Hr Hs. apply Hent in Hr as [?|[[_ ->]|[_ Hp]]]; [eauto|done| |done]. by apply HL, Hnew in Hp. }
  destruct (adds_pool (seen w) (seen w') (next_index c) (shows G e) T1 u L acts (drained_wf _ _ _ Hinv) (i_mirror _ _ _ Hinv) (i_next _ _ _ Hinv))
    as [Hm2 Ht2]; try done.
  - intros r Hr. by apply Hu, (Hseen _ _ Hr).
  - apply (Hseen' None (UPool u)), Hent; auto.
  - intros s Hs. split_and!; [intros v ->; by apply HL in Hs|intros r Hr; by eapply Hnew, Hseen|].
    apply (Hseen' (Some u)), Hent; [done|]. right. right. split; [done|by apply HL].
  - split; [eapply mirror_iff; [|exact Hm2]; intros r s; cbn beta; unfold shows; rewrite (Hent r s Hadd), HL; tauto|].
    eapply all_trees_impl; [|exact Ht2]. intros Ti [Hwf Hk]. split; [done|]. left. by apply Hk.
Qed.

(** a pool that is gone, whose removal from the tree is still to be queued *)
Definition pool_owed u r s : Prop := G r s ∨ (r = None ∧ s = UPool u) ∨ (r = Some u ∧ ent e r s).
Lemma inv_pool_removed u : pool_removed e e' u → inv (pool_owed u) (mkCtx e' w' (c_queue c) (next_index c)) T.
Proof.
  intros Hrem. pose proof (ent_removed e e' u) as Hent. pose proof (i_mirror _ _ _ Hinv) as Hm.
  assert (ent e None (UPool u)) as Hu by (exists u; split; [done|apply Hrem]).
  assert (∀ r s, shows (pool_owed u) e' r s ↔ shows G e r s) as Hs.
  { intros r s. unfold shows, pool_owed. rewrite (Hent r s Hrem). split.
    - intros [?|[?|[[-> ->]|[-> ?]]]]; [tauto..|by left|by left].
    - intros [Hr|?]; [|tauto]. destruct (decide (r = Some u)) as [->|Hne]; [right; right; right; done|].
      destruct (decide (s = UPool u)) as [->|Hns]; [|tauto]. destruct r as [v|]; [by destruct Hr as (? & ? & _ & [])|tauto]. }
  rewrite <- (app_nil_r (c_queue c)). eapply inv_change_owed; try done.
  - intros r s [Hr|[[-> ->]|[-> Hr]]] r' Hr'; apply Hent in Hr' as (Hr' & Hne & Hns); try done.
    + exact (i_gone _ _ _ Hinv _ _ Hr _ Hr').
    + destruct r' as [v|]; [|destruct Hr' as (v & -> & _); by destruct Hr as (? & ? & _ & [])]. apply Hne. f_equal.
      eapply mirror_parent; [exact Hm|by left|by left].
  - intros r s Hr _. exists r. by apply Hs.
  - cbn. split; [eapply mirror_iff; [|exact Hm]; intros r s; by rewrite Hs|]. split; [|done]. split; [by eapply tree_wf_mono; [| |by eapply drained_wf]|by left].
Qed.
End changes.

(** the removal of a pool that is gone *)
Lemma inv_removal_queued G c T u P i : inv G c T → pool_at (apply_actions (c_queue c) T) u P → G None (UPool u) →
  inv (λ r s, G r s ∧ r ≠ Some u ∧ s ≠ UPool u) (mkCtx (c_engine c) (c_world c) (c_queue c ++ [Remove P i]) (next_index c)) T.
Proof.
  intros Hinv HP Hgone. set (T1 := apply_actions (c_queue c) T) in *. pose proof (drained_wf _ _ _ Hinv) as Hwf. fold T1 in Hwf.
  pose proof (i_mirror _ _ _ Hinv) as Hm. fold T1 in Hm.
  pose proof (remove_pool_mirror _ _ T1 P i Hwf (shows G (c_engine c)) u Hm HP) as Hm2.
  pose proof (remove_wf _ _ T1 P i Hwf ltac:(unfold pool_at in HP; eauto)) as Hwf2.
  assert (∀ r s, ent (c_engine c) r s → r ≠ Some u ∧ s ≠ UPool u) as Hent.
  { intros r s Hr. split; [intros ->|intros ->; by eapply (i_gone _ _ _ Hinv)]. destruct Hr as (n & p & Hu & _).
    eapply (i_gone _ _ _ Hinv _ _ Hgone None). exists u. rewrite Hu. eauto. }
  assert (∀ r s, shows (λ r s, G r s ∧ r ≠ Some u ∧ s ≠ UPool u) (c_engine c) r s ↔ shows G (c_engine c) r s ∧ r ≠ Some u ∧ s ≠ UPool u) as Hs.
  { intros r s. unfold shows. specialize (Hent r s). tauto. }
  eapply inv_change_owed; [done|apply (i_engine _ _ _ Hinv)|by intros ?|done| | |].
  - intros r s [Hr _]. by eapply (i_gone _ _ _ Hinv).
  - intros r s Hr _. exists r. by apply Hs in Hr as [? _].
  - fold T1. split; [by eapply mirror_iff; [|exact Hm2]|]. split; [split; [done|]|split; [|done]; split; [done|by left]].
    intros path par s Ho. destruct (decide (path = P ∨ par = P)) as [Hor|Hnor].
    + right. intros r Hr. apply Hs in Hr as (Hr & Hru & Hsu). destruct Hor as [-> | ->].
      * destruct (obj_fun _ _ _ _ _ _ Ho HP) as [_ ->]. done.
      * exact (below_pool _ _ _ _ u P path r s Hwf Hm HP Ho Hr Hru Hsu).
    + left. apply (obj_remove _ _ T1 P i Hwf). split_and!; [done|tauto|tauto].
Qed.

Section pool_changes.
Context (G : option Z → StratisUuid → Prop) c T (Hinv : inv G c T) (w' : World_) (u : Z) (name : Str) (p p' : Pool_) (put : Pool_ → Engine_).
Notation e := (c_engine c).
Notation w := (c_world c).
Notation T1 := (apply_actions (c_queue c) T).
Hypothesis Hget : e_get_mut_pool e u = Some (name, p, put).
Hypothesis He' : engine_inv w' (put p').
Hypothesis Hlater : later w w'.

Lemma get_pool_of_mut : e_get_pool e u = Some (name, p).
Proof. pose proof (get_mut_law e u) as Hl. rewrite Hget in Hl. apply Hl. Qed.

Lemma ent_put_change (L R : list StratisUuid) r s : (∀ s, pent p' s ↔ (pent p s ∧ s ∉ R) ∨ s ∈ L) →
  ent (put p') r s ↔ (ent e r s ∧ (r = Some u → s ∉ R)) ∨ (r = Some u ∧ s ∈ L).
Proof.
  intros Hp. rewrite (ent_put e u name p put p' r s Hget). destruct (decide (r = Some u)) as [->|Hne]; [|naive_solver].
  rewrite Hp. cbn. rewrite get_pool_of_mut. naive_solver.
Qed.

Lemma inv_pool_same acts : (∀ s, pent p' s ↔ pent p s) → Forall quiet acts → inv G (mkCtx (put p') w' (c_queue c ++ acts) (next_index c)) T.
Proof.
  intros Hp. apply inv_same; [done..|]. intros r s. rewrite (ent_put_change [] []); [set_solver|]. intros s'. rewrite Hp. set_solver.
Qed.

Lemma inv_children_added P L acts : (∀ s, pent p' s ↔ pent p s ∨ s ∈ L) → NoDup L → (∀ s, s ∈ L → ¬ seen w (raw_uuid s)) →
  (∀ s v, s ∈ L → s ≠ UPool v) → pool_at T1 u P → adds (next_index c) (pair P <$> L) acts →
  inv G (mkCtx (put p') w' (c_queue c ++ acts) (next_index c + Z.of_nat (length L))) T.
Proof.
  intros Hp Hnd Hnew Hns HP Ha. assert (∀ r s, ent (put p') r s ↔ ent e r s ∨ (r = Some u ∧ s ∈ L)) as Hent.
  { intros r s. rewrite (ent_put_change L []); [set_solver|]. intros s'. rewrite Hp. set_solver. }
  pose proof (λ r s, shows_seen G c T r s Hinv) as Hseen.
  apply inv_change; [done..|lia| |].
  { intros r s Hr Hs. apply Hent in Hr as [?|[_ Hp']]; [eauto|]. by apply Hnew in Hp'. }
  destruct (adds_children (seen w) (seen w') u P L (next_index c) (shows G e) T1 acts (drained_wf _ _ _ Hinv) (i_mirror _ _ _ Hinv)) as [Hm2 Ht2]; try done.
  - apply (i_next _ _ _ Hinv).
  - intros s Hs. split_and!; [by intros v; apply Hns|intros r Hr; by eapply Hnew, Hseen|].
    eapply (ent_seen w' (put p') (Some u)); [done|]. apply Hent. auto.
  - split; [eapply mirror_iff; [|exact Hm2]; intros r s; cbn beta; unfold shows; rewrite Hent; tauto|].
    eapply all_trees_impl; [|exact Ht2]. intros Ti [Hwf Hk]. split; [done|]. left. by apply Hk.
Qed.

Lemma inv_children_removed l acts : (∀ s, pent p' s ↔ pent p s ∧ s ∉ l.*2) → removes l acts → NoDup l.*2 →
  (∀ path s, (path, s) ∈ l → (∃ par, obj T1 path par s) ∧ pent p s) →
  inv G (mkCtx (put p') w' (c_queue c ++ acts) (next_index c)) T.
Proof.
  intros Hp Hr Hnd Hl. pose proof (i_mirror _ _ _ Hinv) as Hm.
  assert (∀ s, s ∈ l.*2 → ent e (Some u) s) as Hpl.
  { intros s ([path s'] & -> & Hin)%list_elem_of_fmap. apply Hl in Hin as [_ ?]. cbn. rewrite get_pool_of_mut. eauto. }
  assert (∀ r s, s ∈ l.*2 → shows G e r s → r = Some u) as Howner.
  { intros r s Hin Hrs. pose proof (Hpl s Hin) as Hu. destruct r as [v|]; [f_equal; eapply mirror_parent; [done..|by left]|].
    destruct Hrs as [(v & -> & _)|Hg]; [by destruct Hu as (? & ? & _ & [])|]. by edestruct (i_gone _ _ _ Hinv _ _ Hg). }
  assert (∀ r s, ent (put p') r s ↔ ent e r s ∧ s ∉ l.*2) as Hent.
  { intros r s. rewrite (ent_put_change [] l.*2); [|intros s'; rewrite Hp; set_solver]. split; [|set_solver].
    intros [[He Hu]|[_ ?%elem_of_nil]]; [|done]. split; [done|]. intros Hin. apply Hu; [|done]. apply (Howner r s); [done|by left]. }
  assert (∀ r s, shows G (put p') r s ↔ shows G e r s ∧ s ∉ l.*2) as Hs.
  { intros r s. unfold shows. rewrite Hent. split; [|tauto]. intros [?|Hg]; [tauto|]. split; [by right|]. intros Hin.
    by eapply (i_gone _ _ _ Hinv _ _ Hg), Hpl. }
  apply inv_change; [done..| |]; [intros r s Hr' _; exists r; by apply Hent in Hr' as [? _]|].
  destruct (removes_children (seen w) (next_index c) l (shows G e) T1 acts (drained_wf _ _ _ Hinv) Hm Hr Hnd) as [Hm2 Ht2].
  { intros path s Hin. destruct (Hl path s Hin) as [? Hps]. split; [done|]. by intros v ->. }
  split; [eapply mirror_iff; [|exact Hm2]; intros r s; by rewrite Hs|].
  eapply all_trees_impl; [|exact Ht2]. intros Ti [Hwf Hk]. split; [by eapply tree_wf_mono|].
  intros path par s Ho. destruct (Hk _ _ _ Ho) as [?|Hin]; [by left|]. right. intros r [_ ?]%Hs. done.
Qed.
End pool_changes.

(** ** Method calls

    [wp m Q]: started in [c], [m] does not panic; it ends with a value and a context for which [Q] holds, or returns early
    with one for which [fin] holds, or gives back the lock with one for which [owes] holds of the action it has still to queue. *)
Section wp.
Context (G : option Z → StratisUuid → Prop) (c0 : Ctx) (T0 : Tree).

(** the counter of object paths did not overflow *)
Definition fits c : Prop := next_index c0 + n_adds (c_queue c) - n_adds (c_queue c0) < 2 ^ 64.
Definition fin c : Prop := fits c → inv G c T0.
(** the action still to be queued removes a pool that is gone since then, or only announces something *)
Definition owes (a : DbusAction) c : Prop :=
  match a with
  | Remove P _ => c_queue c = c_queue c0 ∧ ∃ u, pool_at (apply_actions (c_queue c) T0) u P ∧ ent (c_engine c0) None (UPool u) ∧
      inv (pool_owed G c0 u) c T0
  | _ => quiet a ∧ fin c
  end.

Definition wp {A} (m : meth A) (Q : A → Ctx → Prop) c : Prop :=
  match m c with (Val a, c') => Q a c' | (Crash _, _) => False | (Unlocked a _, c') => owes a c' | (_, c') => fin c' end.

Lemma wp_ret {A} (a : A) Q c : Q a c → wp (mret a) Q c.
Proof. done. Qed.
Lemma wp_bind {A B} (m : meth A) (k : A → meth B) Q c : wp m (λ a c', wp (k a) Q c') c → wp (m ≫= k) Q c.
Proof. unfold wp, mbind, meth_bind. by destruct (m c) as [[]]. Qed.
Lemma wp_mono {A} (m : meth A) (Q Q' : A → Ctx → Prop) c : (∀ a c', Q a c' → Q' a c') → wp m Q c → wp m Q' c.
Proof. intros Hi. unfold wp. destruct (m c) as [[]]; auto. Qed.
Lemma wp_early {A} r (Q : A → Ctx → Prop) c : fin c → wp (early r) Q c.
Proof. done. Qed.
Lemma wp_unlocked {A} a r (Q : A → Ctx → Prop) c : owes a c → wp (unlocked a r) Q c.
Proof. done. Qed.
Lemma wp_checked {A} (r : res A) a (Q : A → Ctx → Prop) c : r = Ok a → Q a c → wp (checked r) Q c.
Proof. by intros ->. Qed.
Lemma wp_engine {A} (m : st (Engine_ * World_) A) post Q c : engine_call m post → engine_inv (c_world c) (c_engine c) →
  (∀ r e' w', engine_inv w' e' → later (c_world c) w' →
     match r with inr a => post (c_engine c) (c_world c) a e' | inl _ => same_pools (c_engine c) e' end →
     Q r (mkCtx e' w' (c_queue c) (next_index c))) → wp (on_engine m) Q c.
Proof.
  intros Hm Hi HQ. unfold wp, on_engine. specialize (Hm _ _ Hi). destruct (m _) as [[a|e|y] [e' w']]; [| |done].
  - apply (HQ (inr a)); apply Hm.
  - apply (HQ (inl e)); apply Hm.
Qed.
Lemma wp_mut_pool {A} (m : st (Pool_ * World_) A) added removed u n p put Q c : pool_call m added removed →
  e_get_mut_pool (c_engine c) u = Some (n, p, put) → engine_inv (c_world c) (c_engine c) →
  (∀ r p' w', engine_inv w' (put p') → pool_inv w' p' → later (c_world c) w' →
     match r with
     | inr a => NoDup (added a) ∧ (∀ s, s ∈ added a → ¬ seen (c_world c) (raw_uuid s)) ∧ (∀ s, s ∈ removed a → pent p s) ∧
                (∀ s, pent p' s ↔ (pent p s ∧ s ∉ removed a) ∨ s ∈ added a) ∧ m (p, c_world c) = (Ok a, (p', w'))
     | inl _ => ∀ s, pent p' s ↔ pent p s
     end → Q (r, p') (mkCtx (put p') w' (c_queue c) (next_index c))) → wp (on_mut_pool p put m) Q c.
Proof.
  intros Hm Hg Hi HQ. pose proof (get_mut_law (c_engine c) u) as Hl. rewrite Hg in Hl. destruct Hl as [Hu _].
  destruct (engine_pool_inv _ _ _ _ _ Hi Hu) as [Hp _]. unfold wp, on_mut_pool. specialize (Hm _ _ Hp).
  destruct (m _) as [[a|e|y] [p' w']] eqn:E; [| |done].
  - destruct Hm as (? & ? & ? & ? & ? & ?). apply (HQ (inr a)); [by eapply get_mut_inv|done..].
  - destruct Hm as (? & ? & ?). apply (HQ (inl e)); [by eapply get_mut_inv|done..].
Qed.
End wp.
End spec.
