(* ===== verification/DbusSafety.v ===== *)
(** * Every handler of the D-Bus keeps the tree and the engine together

    One lemma for each method, property and event: started where the tree mirrors the engine ([inv] of [DbusSpec]), it does
    not panic and leaves a state where the tree, with the actions queued, does. *)
From stdpp Require Import base list gmap strings pretty.
From Stdlib Require Import ZArith Lia.
From S2P Require Import Prelude External Json Actions Shared DeviceSet Identify EngineApi Dbus DbusMethods DbusTree DbusSpec.

#[local] Instance UFs_inj : Inj (=) (=) UFs.
Proof. by intros ? ? [=]. Qed.
#[local] Instance UDev_inj : Inj (=) (=) UDev.
Proof. by intros ? ? [=]. Qed.

Section made.
Context `{EngineLaws} `{UuidFormat} `{JsonText}.
Implicit Types (T : Tree) (c : Ctx).

(** ** Objects made by a handler *)

(** [c'] is [c] with the requests to add objects for [l] *)
Definition made c c' (l : list (Path * StratisUuid)) : Prop := ∃ acts n',
  c' = mkCtx (c_engine c) (c_world c) (c_queue c ++ acts) n' ∧ n_adds acts = Z.of_nat (length l) ∧
  (0 ≤ next_index c → next_index c + Z.of_nat (length l) < 2 ^ 64 →
     adds (next_index c) l acts ∧ n' = next_index c + Z.of_nat (length l)).

Lemma made_nil c : made c c [].
Proof. exists [], (next_index c). rewrite app_nil_r, Z.add_0_r. by destruct c. Qed.
Lemma made_app c c' c'' l l' : made c c' l → made c' c'' l' → made c c'' (l ++ l').
Proof.
  intros (acts & n' & -> & Hn & Hl) (acts' & n'' & -> & Hn' & Hl'). cbn in *. exists (acts ++ acts'), n''.
  rewrite app_assoc, n_adds_app, length_app, Nat2Z.inj_add. split; [done|]. split; [lia|]. intros H0' Hmax.
  destruct Hl as [Ha ->]; [lia..|]. destruct Hl' as [Ha' ->]; [lia..|]. split; [by apply adds_app|lia].
Qed.
Lemma made_one c i par s :
  made c (mkCtx (c_engine c) (c_world c) (c_queue c ++ [Add (object_for (object_path_of (next_index c)) par s) i]) (next_index c +64 1)) [(par, s)].
Proof.
  eexists [_], (next_index c +64 1). split; [done|]. split; [done|]. cbn. intros Hn Hmax. split; [done|].
  unfold wrap64. rewrite Z.mod_small; lia.
Qed.

Section wp_made.
Context (G : option Z → StratisUuid → Prop) (c0 : Ctx) (T0 : Tree).
Notation WP := (wp G c0 T0).

Lemma wp_create_pool par name u pool b (Q : Path → Ctx → Prop) c : p_is_encrypted pool = Ok b →
  (∀ c', made c c' [(par, UPool u)] → Q (object_path_of (next_index c)) c') → WP (create_dbus_pool par name u pool) Q c.
Proof.
  intros Henc HQ. unfold create_dbus_pool, make_object_path, get_pool_properties, pool_enc_prop. rewrite Henc.
  apply HQ. exact (made_one c _ par (UPool u)).
Qed.
Lemma wp_create_filesystem par pn name u f (Q : Path → Ctx → Prop) c :
  (∀ c', made c c' [(par, UFs u)] → Q (object_path_of (next_index c)) c') → WP (create_dbus_filesystem par pn name u f) Q c.
Proof. intros HQ. apply HQ. exact (made_one c _ par (UFs u)). Qed.
Lemma wp_create_blockdev par u t b (Q : Path → Ctx → Prop) c :
  (∀ c', made c c' [(par, UDev u)] → Q (object_path_of (next_index c)) c') → WP (create_dbus_blockdev par u t b) Q c.
Proof. intros HQ. apply HQ. exact (made_one c _ par (UDev u)). Qed.

Lemma wp_filesystem_objects par pn l : ∀ (Q : list Path → Ctx → Prop) c,
  (∀ ps c', made c c' (pair par <$> ((λ x : Str * Z * Filesystem_, UFs x.1.2) <$> l)) → Q ps c') → WP (create_filesystem_objects par pn l) Q c.
Proof.
  induction l as [|[[fn fu] f] l IH]; intros Q c HQ; cbn; [apply (HQ []), made_nil|].
  apply wp_bind, wp_create_filesystem. intros c1 Hc1. apply wp_bind, IH. intros ps c2 Hc2. apply wp_ret, HQ.
  apply (made_app _ _ _ [_] _ Hc1 Hc2).
Qed.
Lemma wp_blockdev_objects par l : ∀ (Q : list Path → Ctx → Prop) c,
  (∀ ps c', made c c' (pair par <$> ((λ x : Z * BlockDevTier * BlockDev_, UDev x.1.1) <$> l)) → Q ps c') → WP (create_blockdev_objects par l) Q c.
Proof.
  induction l as [|[[u t] b] l IH]; intros Q c HQ; cbn; [apply (HQ []), made_nil|].
  apply wp_bind, wp_create_blockdev. intros c1 Hc1. apply wp_bind, IH. intros ps c2 Hc2. apply wp_ret, HQ.
  apply (made_app _ _ _ [_] _ Hc1 Hc2).
Qed.
Lemma wp_created_objects par pn pool l : ∀ (Q : list DVal → Ctx → Prop) c,
  (∀ u, u ∈ l.*2 → is_Some (p_get_filesystem pool u)) →
  (∀ v c', made c c' (pair par <$> (UFs <$> l.*2)) → Q v c') → WP (created_objects par pn pool l) Q c.
Proof.
  induction l as [|[fn fu] l IH]; intros Q c Hl HQ; cbn; [apply (HQ []), made_nil|].
  destruct (Hl fu ltac:(by left)) as [[n f] Hf]. rewrite Hf. apply wp_bind. eapply wp_checked; [done|].
  apply wp_bind, wp_create_filesystem. intros c1 Hc1. apply wp_bind, IH; [intros u Hu; apply Hl; by right|].
  intros ps c2 Hc2. apply wp_ret, HQ. apply (made_app _ _ _ [_] _ Hc1 Hc2).
Qed.
Lemma wp_added_objects par op pool l : ∀ (Q : list Path → Ctx → Prop) c,
  (∀ u, u ∈ l → is_Some (p_get_blockdev pool u)) →
  (∀ v c', made c c' (pair par <$> (UDev <$> l)) → Q v c') → WP (added_objects par op pool l) Q c.
Proof.
  induction l as [|u l IH]; intros Q c Hl HQ; cbn; [apply (HQ []), made_nil|].
  destruct (Hl u ltac:(by left)) as [[n f] Hf]. rewrite Hf. apply wp_bind. eapply wp_checked; [done|].
  apply wp_bind, wp_create_blockdev. intros c1 Hc1. apply wp_bind, IH; [intros v Hv; apply Hl; by right|].
  intros ps c2 Hc2. apply wp_ret, HQ. apply (made_app _ _ _ [_] _ Hc1 Hc2).
Qed.
End wp_made.
End made.

Section handlers.
Context `{EngineLaws} `{UuidFormat} `{JsonText}.
Context (G : option Z → StratisUuid → Prop) (c0 : Ctx) (T0 : Tree).
Hypothesis Hinv0 : inv G c0 T0.
Implicit Types c : Ctx.
Notation WP := (wp G c0 T0).
Notation FIN := (fin G c0 T0).
Notation drained_tree c := (apply_actions (c_queue c) T0).

Lemma fin_inv c : inv G c T0 → FIN c.
Proof. by intros ? _. Qed.

(** ** Steps of the engine that add and remove nothing *)

Lemma inv_engine c e' w' : inv G c T0 → engine_inv w' e' → later (c_world c) w' → same_pools (c_engine c) e' →
  inv G (mkCtx e' w' (c_queue c) (next_index c)) T0.
Proof.
  intros Hi He Hl Hs. rewrite <- (app_nil_r (c_queue c)). apply inv_same; [done..| |done]. intros r s. by apply ent_same.
Qed.
Lemma inv_quiet c a : inv G c T0 → quiet a → inv G (mkCtx (c_engine c) (c_world c) (c_queue c ++ [a]) (next_index c)) T0.
Proof. intros Hi Ha. apply inv_same; [done|apply (i_engine _ _ _ Hi)|by intros ?|done|by apply Forall_singleton]. Qed.
Lemma inv_pool c u n p put p' w' : inv G c T0 → e_get_mut_pool (c_engine c) u = Some (n, p, put) → engine_inv w' (put p') →
  later (c_world c) w' → (∀ s, pent p' s ↔ pent p s) → inv G (mkCtx (put p') w' (c_queue c) (next_index c)) T0.
Proof. intros Hi Hg He Hl Hp. rewrite <- (app_nil_r (c_queue c)). by eapply inv_pool_same. Qed.

(** an object that is looked at and whose thing still exists is in the drained tree *)
Lemma obj_live c path par s r : inv G c T0 → obj T0 path par s → ent (c_engine c) r s → obj (drained_tree c) path par s.
Proof. intros Hi Ho Hr. destruct (all_trees_head _ _ _ (i_trees _ _ _ Hi)) as [_ Hh]. destruct (Hh _ _ _ Ho) as [?|Hd]; [done|]. by edestruct Hd; left. Qed.
Lemma pool_live c path par u n p : inv G c T0 → obj T0 path par (UPool u) → e_get_pool (c_engine c) u = Some (n, p) →
  pool_at (drained_tree c) u path.
Proof.
  intros Hi Ho Hu. assert (obj (drained_tree c) path par (UPool u)) as Ho' by (apply (obj_live c path par _ None); [done..|]; exists u; eauto).
  pose proof (wf_parent _ _ _ (drained_wf _ _ _ Hi) _ _ _ Ho') as ->. done.
Qed.

(** ** Rules for the parts of a method *)

Lemma wp_arg {A} args (read : DVal → option A) loc (Q : A → Ctx → Prop) c : inv G c T0 → (∀ a, Q a c) → WP (get_next_arg args read loc) Q c.
Proof. intros Hi HQ. unfold get_next_arg. destruct (args !! loc) as [v|]; [|by apply fin_inv]. destruct (read v); [by apply HQ|by apply fin_inv]. Qed.

Lemma wp_data o d (Q : OPContext → Ctx → Prop) c : inv G c T0 → (∀ x, o_data o = Some x → Q x c) → WP (get_data o d) Q c.
Proof. intros Hi HQ. unfold get_data. destruct (o_data o); [by apply HQ|by apply fin_inv]. Qed.
Lemma wp_typed_pool s d (Q : Z → Ctx → Prop) c : inv G c T0 → (∀ u, s = UPool u → Q u c) → WP (typed_pool s d) Q c.
Proof. intros Hi HQ. destruct s; [by apply fin_inv..|by apply HQ]. Qed.
Lemma wp_typed_fs s d (Q : Z → Ctx → Prop) c : inv G c T0 → (∀ u, s = UFs u → Q u c) → WP (typed_fs s d) Q c.
Proof. intros Hi HQ. destruct s; [by apply fin_inv|by apply HQ|by apply fin_inv]. Qed.
Lemma wp_typed_dev s d (Q : Z → Ctx → Prop) c : inv G c T0 → (∀ u, s = UDev u → Q u c) → WP (typed_dev s d) Q c.
Proof. intros Hi HQ. destruct s; [by apply HQ|by apply fin_inv..]. Qed.
Lemma wp_key_desc s d (Q : KeyDescription → Ctx → Prop) c : inv G c T0 → (∀ k, Q k c) → WP (key_description_arg s d) Q c.
Proof. intros Hi HQ. unfold key_description_arg, KeyDescription_try_from. case_bool_decide; [by apply fin_inv|by apply HQ]. Qed.

Lemma wp_the_engine (Q : Engine_ → Ctx → Prop) c : Q (c_engine c) c → WP the_engine Q c.
Proof. done. Qed.
Lemma wp_get_mut_pool u d (Q : Str * Pool_ * (Pool_ → Engine_) → Ctx → Prop) c : inv G c T0 →
  (∀ n p put, e_get_mut_pool (c_engine c) u = Some (n, p, put) → Q (n, p, put) c) → WP (get_mut_pool u d) Q c.
Proof.
  intros Hi HQ. unfold get_mut_pool. apply wp_bind, wp_the_engine.
  destruct (e_get_mut_pool (c_engine c) u) as [[[n p] put]|]; [by apply HQ|by apply fin_inv].
Qed.

Section implicit.
Context (path : Path).
Hypothesis Hpath : is_Some (T0 !! path).

Lemma wp_implicit (Q : ObjectPath → Ctx → Prop) c : (∀ o, T0 !! path = Some o → Q o c) → WP (implicit_argument T0 path) Q c.
Proof. intros HQ. destruct Hpath as [o Ho]. unfold implicit_argument. rewrite Ho. by apply HQ. Qed.
Lemma wp_implicit_pool d (Q : Z → Ctx → Prop) c : inv G c T0 → (∀ u par, obj T0 path par (UPool u) → Q u c) →
  WP (implicit_pool_uuid T0 path d) Q c.
Proof.
  intros Hi HQ. unfold implicit_pool_uuid. apply wp_bind, wp_implicit. intros o Ho. apply wp_bind, wp_data; [done|]. intros [par s] Hd.
  apply wp_typed_pool; [done|]. cbn. intros u ->. apply (HQ u par). by exists o.
Qed.
Lemma wp_implicit_parent d (Q : OPContext * Z → Ctx → Prop) c : inv G c T0 → (∀ x u, Q (x, u) c) →
  WP (implicit_parent_uuid T0 path d) Q c.
Proof.
  intros Hi HQ. unfold implicit_parent_uuid. apply wp_bind, wp_implicit. intros o Ho. apply wp_bind, wp_data; [done|]. intros x Hx.
  apply wp_bind. unfold get_parent_path. destruct (T0 !! op_parent x); [|by apply fin_inv]. apply wp_ret.
  apply wp_bind, wp_data; [done|]. intros y Hy. apply wp_bind, wp_typed_pool; [done|]. intros u Hu. apply HQ.
Qed.
End implicit.

(** the result of a call that adds and removes nothing *)
Lemma wp_pool_call {A} (m : st (Pool_ * World_) A) u n p put (Q : (StratisError + A) * Pool_ → Ctx → Prop) c :
  pool_call m (λ _, []) (λ _, []) → inv G c T0 → e_get_mut_pool (c_engine c) u = Some (n, p, put) →
  (∀ r c', inv G c' T0 → Q r c') → WP (on_mut_pool p put m) Q c.
Proof.
  intros Hm Hi Hg HQ. eapply wp_mut_pool; [done|done|apply (i_engine _ _ _ Hi)|]. intros r p' w' He Hp Hl Hr. apply HQ.
  eapply inv_pool; [done..|]. destruct r as [|a]; [done|]. destruct Hr as (_ & _ & _ & Hs & _). intros s. rewrite Hs. set_solver.
Qed.
Lemma wp_engine_call {A} (m : st (Engine_ * World_) A) (Q : StratisError + A → Ctx → Prop) c :
  engine_call m (λ e _ _ e', same_pools e e') → inv G c T0 → (∀ r c', inv G c' T0 → Q r c') → WP (on_engine m) Q c.
Proof.
  intros Hm Hi HQ. eapply wp_engine; [done|apply (i_engine _ _ _ Hi)|]. intros r e' w' He Hl Hr. apply HQ.
  apply inv_engine; [done..|]. by destruct r.
Qed.

(** ** Methods *)

Ltac wp_step :=
  lazymatch goal with
  | |- wp _ _ _ (mbind _ _) _ _ => apply wp_bind
  | |- wp _ _ _ (mret _) _ _ => apply wp_ret
  | |- wp _ _ _ (early _) _ _ => apply wp_early, fin_inv; assumption
  | |- wp _ _ _ the_engine _ _ => apply wp_the_engine
  | |- wp _ _ _ (get_next_arg _ _ _) _ _ => apply wp_arg; [assumption|intros ?]
  | |- wp _ _ _ (key_description_arg _ _) _ _ => apply wp_key_desc; [assumption|intros ?]
  | |- wp _ _ _ (implicit_pool_uuid _ _ _) _ _ => apply wp_implicit_pool; [assumption..|intros ?u ?par ?Hu]
  | |- wp _ _ _ (implicit_parent_uuid _ _ _) _ _ => apply wp_implicit_parent; [assumption..|intros ?x ?u]
  | |- wp _ _ _ (get_data _ _) _ _ => apply wp_data; [assumption|intros ?x ?Hx]
  | |- wp _ _ _ (typed_pool _ _) _ _ => apply wp_typed_pool; [assumption|intros ?u ?Hu]
  | |- wp _ _ _ (typed_fs _ _) _ _ => apply wp_typed_fs; [assumption|intros ?u ?Hu]
  | |- wp _ _ _ (typed_dev _ _) _ _ => apply wp_typed_dev; [assumption|intros ?u ?Hu]
  | |- wp _ _ _ (get_mut_pool _ _) _ _ => apply wp_get_mut_pool; [assumption|intros ?n ?p ?put ?Hget]
  | |- wp _ _ _ (match ?x with _ => _ end) _ _ => destruct x eqn:?
  | |- fin _ _ _ _ => apply fin_inv; assumption
  | |- context [match ?x with _ => _ end] => destruct x eqn:?
  end.
Ltac wp_steps := repeat wp_step.
(** a call that adds and removes nothing, by its law *)
Ltac wp_pool law := eapply wp_pool_call; [apply law|eassumption..|]; intros [? ?] ? ?.
Ltac wp_eng law := eapply wp_engine_call; [apply law|assumption|]; intros ? ? ?.

Section methods.
Context (path : Path) (args : list DVal).
Hypothesis Hpath : is_Some (T0 !! path).
Notation SAFE m := (WP m (λ _, FIN) c0).

Lemma unset_key_safe : SAFE (unset_key args).
Proof. unfold unset_key. wp_steps. wp_eng key_unset_law. wp_steps. Qed.
Lemma engine_state_report_safe : SAFE engine_state_report.
Proof. unfold engine_state_report. wp_steps. Qed.
Lemma get_report_safe : SAFE (get_report args).
Proof. unfold get_report, ReportType_try_from. wp_steps. by case_bool_decide. Qed.
Lemma set_key_safe : SAFE (set_key args).
Proof. unfold set_key. wp_steps. wp_eng key_set_law. wp_steps. Qed.
Lemma unlock_pool_safe : SAFE (unlock_pool args).
Proof.
  unfold unlock_pool. wp_steps.
  - wp_eng unlock_pool_law. wp_steps.
  - unfold UnlockMethod_try_from in *. by repeat case_bool_decide.
Qed.

Lemma bind_clevis_safe : SAFE (bind_clevis T0 path args).
Proof. unfold bind_clevis. wp_steps. wp_pool bind_clevis_law. wp_steps. Qed.
Lemma unbind_clevis_safe : SAFE (unbind_clevis T0 path).
Proof. unfold unbind_clevis. wp_steps. wp_pool unbind_clevis_law. wp_steps. Qed.
Lemma bind_keyring_safe : SAFE (bind_keyring T0 path args).
Proof. unfold bind_keyring. wp_steps. wp_pool bind_keyring_law. wp_steps. Qed.
Lemma unbind_keyring_safe : SAFE (unbind_keyring T0 path).
Proof. unfold unbind_keyring. wp_steps. wp_pool unbind_keyring_law. wp_steps. Qed.
Lemma rebind_keyring_safe : SAFE (rebind_keyring T0 path args).
Proof. unfold rebind_keyring. wp_steps. wp_pool rebind_keyring_law. wp_steps. Qed.
Lemma rebind_clevis_safe : SAFE (rebind_clevis T0 path).
Proof. unfold rebind_clevis. wp_steps. wp_pool rebind_clevis_law. wp_steps. Qed.
Lemma set_user_info_safe : SAFE (set_user_info T0 path args).
Proof. unfold set_user_info. wp_steps. wp_pool user_info_law. wp_steps. Qed.

Lemma wp_send a (Q : unit → Ctx → Prop) c : inv G c T0 → quiet a → (∀ c', inv G c' T0 → Q tt c') → WP (send a) Q c.
Proof. intros Hi Ha HQ. apply HQ. by apply inv_quiet. Qed.
Lemma rename_pool_safe : SAFE (rename_pool T0 path args).
Proof. unfold rename_pool. wp_steps. wp_eng rename_pool_law. wp_steps. apply wp_unlocked. split; [done|by apply fin_inv]. Qed.
Lemma rename_filesystem_safe : SAFE (rename_filesystem T0 path args).
Proof.
  unfold rename_filesystem. wp_steps. wp_pool rename_filesystem_law. wp_steps. eapply wp_send; [done..|]. intros ? ?. wp_steps.
Qed.

(** *** Methods that add or remove objects *)

Lemma fin_children par u n p put p' w' L c' : obj T0 path par (UPool u) → e_get_mut_pool (c_engine c0) u = Some (n, p, put) →
  engine_inv w' (put p') → later (c_world c0) w' → (∀ s, pent p' s ↔ pent p s ∨ s ∈ L) → NoDup L →
  (∀ s, s ∈ L → ¬ seen (c_world c0) (raw_uuid s)) → (∀ s v, s ∈ L → s ≠ UPool v) →
  made (mkCtx (put p') w' (c_queue c0) (next_index c0)) c' (pair path <$> L) → FIN c'.
Proof.
  intros Ho Hg He Hl Hp Hnd Hnew Hns (acts & n' & -> & Hn & Ha) Hmax. unfold fits in Hmax. cbn [c_queue next_index c_engine c_world] in *. rewrite n_adds_app in Hmax. rewrite length_fmap in *.
  destruct Ha as [Ha ->]; [apply (i_next _ _ _ Hinv0)|lia|]. pose proof (get_pool_of_mut c0 u n p put Hg) as Hu.
  eapply inv_children_added; try done. by eapply pool_live.
Qed.

Lemma set_changed_cases {A} (l : list A) : set_changed l = Some l ∨ (l = [] ∧ set_changed l = None).
Proof. destruct l; auto. Qed.

Lemma create_filesystems_safe : SAFE (create_filesystems T0 path args).
Proof.
  unfold create_filesystems. wp_steps. eapply wp_mut_pool; [apply create_filesystems_law|eassumption|apply (i_engine _ _ _ Hinv0)|].
  intros r p' w' He Hp Hl Hr. cbn [fst snd]. destruct r as [err|act]; [apply wp_early, fin_inv; by eapply inv_pool|].
  destruct Hr as (Hnd & Hnew & _ & Hs & _). assert (∀ s, pent p' s ↔ pent p s ∨ s ∈ UFs <$> (sc_changed act).*2) as Hs' by (intros s; rewrite Hs; set_solver).
  change (changed act) with (set_changed (sc_changed act)). destruct (set_changed_cases (sc_changed act)) as [-> | [Hnil ->]].
  - apply wp_bind, wp_created_objects.
    + intros v Hv. assert (pent p' (UFs v)) as Hpv; [|exact Hpv]. apply Hs'. right. by apply (list_elem_of_fmap_2 UFs) in Hv.
    + intros v c' Hmade. apply wp_ret. by eapply fin_children; [..|exact Hmade]; [..|intros s v' (? & -> & _)%list_elem_of_fmap].
  - apply wp_ret, fin_inv. eapply inv_pool; [done..|]. intros s. rewrite Hs', Hnil. set_solver.
Qed.

Lemma snapshot_filesystem_safe : SAFE (snapshot_filesystem T0 path args).
Proof.
  unfold snapshot_filesystem. wp_steps. eapply wp_mut_pool; [apply snapshot_law|eassumption|apply (i_engine _ _ _ Hinv0)|].
  intros r p' w' He Hp Hl Hr. cbn [fst snd]. destruct r as [err|act]; [apply wp_ret, fin_inv; by eapply inv_pool|].
  destruct Hr as (Hnd & Hnew & _ & Hs & _). destruct act as [|[fu f]].
  - apply wp_ret, fin_inv. eapply inv_pool; [done..|]. intros s. rewrite Hs. set_solver.
  - apply wp_bind, wp_create_filesystem. intros c' Hmade. apply wp_ret.
    eapply (fin_children _ _ _ _ _ _ _ [UFs fu]); [done..| | | | |exact Hmade]; [intros s; rewrite Hs; set_solver|done|done|].
    by intros s v ->%list_elem_of_singleton.
Qed.

Lemma add_blockdevs_law' op u n devs : pool_call (match op with
     | InitCache => p_init_cache u n devs | AddCache => p_add_blockdevs u n devs Cache
     | AddData => p_add_blockdevs u n devs Data end) (λ a, UDev <$> sc_changed a) (λ _, []).
Proof. destruct op; [apply init_cache_law|apply add_blockdevs_law..]. Qed.

Lemma add_blockdevs_safe op : SAFE (add_blockdevs T0 path args op).
Proof.
  unfold add_blockdevs. do 7 wp_step. eapply wp_mut_pool; [apply add_blockdevs_law'|eassumption|apply (i_engine _ _ _ Hinv0)|].
  intros r p' w' He Hp Hl Hr. cbn [fst snd]. destruct r as [err|act]; [apply wp_ret, fin_inv; by eapply inv_pool|].
  destruct Hr as (Hnd & Hnew & _ & Hs & _). assert (∀ s, pent p' s ↔ pent p s ∨ s ∈ UDev <$> (sc_changed act)) as Hs' by (intros s; rewrite Hs; set_solver).
  change (changed act) with (set_changed (sc_changed act)). destruct (set_changed_cases (sc_changed act)) as [-> | [Hnil ->]].
  - apply wp_bind, wp_added_objects.
    + intros v Hv. assert (pent p' (UDev v)) as Hpv; [|exact Hpv]. apply Hs'. right. by apply (list_elem_of_fmap_2 UDev) in Hv.
    + intros v c' Hmade. apply wp_ret. by eapply fin_children; [..|exact Hmade]; [..|intros s v' (? & -> & _)%list_elem_of_fmap].
  - apply wp_ret, fin_inv. eapply inv_pool; [done..|]. intros s. rewrite Hs', Hnil. set_solver.
Qed.

Lemma destroy_pool_safe : SAFE (destroy_pool T0 args).
Proof.
  unfold destroy_pool. do 2 wp_step. destruct (T0 !! a ≫= o_data) as [[par s]|] eqn:Hd; [|by wp_step]. do 3 wp_step. cbn in Hu; subst s.
  eapply wp_engine; [apply destroy_pool_law|apply (i_engine _ _ _ Hinv0)|]. intros r e' w' He Hl Hr.
  destruct r as [err|[|v]]; [apply wp_ret, fin_inv; by apply inv_engine..|]. destruct Hr as [-> Hrem]. apply wp_unlocked.
  pose proof Hrem as ([[n p] Hp] & _). apply bind_Some in Hd as (o & Ho & Hd). split; [done|]. exists u. split; [|split].
  - cbn [c_queue]. eapply pool_live; [exact Hinv0| |done]. by exists o.
  - exists u. eauto.
  - by apply inv_pool_removed.
Qed.

(** the map of the filesystems to destroy has objects of the tree *)
Lemma wp_filesystem_map l d : ∀ m (Q : gmap Z Path → Ctx → Prop) c, inv G c T0 →
  (∀ u q, m !! u = Some q → ∃ par, obj T0 q par (UFs u)) →
  (∀ m', (∀ u q, m' !! u = Some q → ∃ par, obj T0 q par (UFs u)) → Q m' c) → WP (filesystem_map_of T0 l d m) Q c.
Proof.
  induction l as [|q l IH]; intros m Q c Hi Hm HQ; cbn; [by apply HQ|]. destruct (T0 !! q) as [o|] eqn:Ho; cbn; [|by apply IH].
  destruct (o_data o) as [[par s]|] eqn:Hd; cbn; [|by apply IH]. apply wp_bind, wp_typed_fs; [done|]. intros u ->. apply IH; [done| |done].
  intros v q' Hv. destruct (decide (v = u)) as [->|Hne]; [|rewrite lookup_insert_ne in Hv by done; eauto].
  rewrite lookup_insert_eq in Hv. injection Hv as <-. exists par. exists o. split; [|done].
  by rewrite (wf_name _ _ _ (proj1 (all_trees_head _ _ _ (i_trees _ _ _ Hinv0))) _ _ Ho).
Qed.

Lemma wp_push_removes m us : ∀ (Q : unit → Ctx → Prop) c, (∀ u, u ∈ us → is_Some (m !! u)) →
  (∀ acts l, l.*2 = UFs <$> us → (∀ q s, (q, s) ∈ l → ∃ u, s = UFs u ∧ u ∈ us ∧ m !! u = Some q) → removes l acts → n_adds acts = 0 →
     Q tt (mkCtx (c_engine c) (c_world c) (c_queue c ++ acts) (next_index c))) → WP (push_removes m us) Q c.
Proof.
  induction us as [|u us IH]; intros Q c Hus HQ; cbn.
  - specialize (HQ [] []). rewrite app_nil_r in HQ. assert (mkCtx (c_engine c) (c_world c) (c_queue c) (next_index c) = c) as Hc by (by destruct c).
    rewrite Hc in HQ. change (Q tt c). apply HQ; try done. by intros q s ?%elem_of_nil.
  - destruct (Hus u ltac:(by left)) as [q Hq]. rewrite Hq. apply wp_bind. eapply wp_checked; [done|]. apply wp_bind. apply IH; cbn.
    + intros v Hv. apply Hus. by right.
    + intros acts l Hl Hin Hr Hn. rewrite <- app_assoc. apply (HQ (Remove q filesystem_interface_list :: acts) ((q, UFs u) :: l)); [by rewrite fmap_cons, Hl| |done|done].
      intros q' s [[= -> ->]|Hin']%elem_of_cons; [exists u; split_and!; [done|by left|done]|]. apply Hin in Hin' as (v & -> & ? & ?). exists v. split_and!; [done|by right|done].
Qed.

Lemma destroy_filesystems_safe : SAFE (destroy_filesystems T0 path args).
Proof.
  unfold destroy_filesystems. do 7 wp_step. eapply wp_filesystem_map; [done|by intros ? ? ?%lookup_empty_Some|]. intros m Hm. wp_step.
  eapply wp_mut_pool; [apply destroy_filesystems_law|eassumption|apply (i_engine _ _ _ Hinv0)|].
  intros r p' w' He Hp Hl Hr. cbn [fst snd]. destruct r as [err|act]; [apply wp_ret, fin_inv; by eapply inv_pool|].
  destruct Hr as (_ & _ & Hold & Hs & Hcall). assert (∀ s, pent p' s ↔ pent p s ∧ s ∉ UFs <$> sd_changed act) as Hs' by (intros s; rewrite Hs; set_solver).
  destruct (destroyed_asked _ _ _ _ _ _ _ Hcall (NoDup_fst_map_to_list m)) as [Hnd Hasked].
  change (changed act) with (set_changed (sd_changed act)). destruct (set_changed_cases (sd_changed act)) as [-> | [Hnil ->]].
  - apply wp_bind, wp_push_removes.
    + intros v Hv. apply Hasked in Hv. apply list_elem_of_fmap in Hv as ([v' q] & -> & Hq%elem_of_map_to_list). by exists q.
    + intros acts l Hl2 Hin Hrem Hn. apply wp_ret, fin_inv. cbn [c_engine c_world c_queue next_index].
      eapply (inv_children_removed G c0 T0 Hinv0 w' u n p p' put Hget He Hl l); [by rewrite Hl2|done|rewrite Hl2; by apply (NoDup_fmap_2 UFs)|].
      intros q s Hq. apply Hin in Hq as (v & -> & Hv & Hq). assert (pent p (UFs v)) as Hpv by (apply Hold, list_elem_of_fmap; eauto).
      split; [|done]. destruct (Hm _ _ Hq) as [qpar Ho]. exists qpar. apply (obj_live _ _ _ _ (Some u)); [done..|].
      exists n, p. split; [|done]. by eapply get_pool_of_mut.
  - apply wp_ret, fin_inv. eapply inv_pool; [done..|]. intros s. rewrite Hs', Hnil. set_solver.
Qed.

(** *** New pools *)

Definition fs_list (p : Pool_) : list StratisUuid := (λ x : Str * Z * Filesystem_, UFs x.1.2) <$> p_filesystems p.
Definition dev_list (p : Pool_) : list StratisUuid := (λ x : Z * BlockDevTier * BlockDev_, UDev x.1.1) <$> p_blockdevs p.
Lemma elem_of_fs_list p s : s ∈ fs_list p ↔ ∃ u, s = UFs u ∧ pent p s.
Proof.
  unfold fs_list. rewrite list_elem_of_fmap. split.
  - intros ([[n u] f] & -> & Hin). exists u. split; [done|]. apply filesystems_law. eauto.
  - intros (u & -> & Hp). apply filesystems_law in Hp as (n & f & Hin). by exists (n, u, f).
Qed.
Lemma elem_of_dev_list w p s : pool_inv w p → s ∈ dev_list p ↔ ∃ u, s = UDev u ∧ pent p s.
Proof.
  intros Hp. unfold dev_list. rewrite list_elem_of_fmap. split.
  - intros ([[u t] b] & -> & Hin). exists u. split; [done|]. apply (blockdevs_law w); eauto.
  - intros (u & -> & Hu). apply (blockdevs_law w) in Hu as (t & b & Hin); [|done]. by exists (u, t, b).
Qed.
Lemma nodup_fs_list w p : pool_inv w p → NoDup (fs_list p).
Proof.
  intros Hp. pose proof (filesystems_nodup w p Hp) as Hnd. apply (NoDup_fmap_2 UFs) in Hnd.
  by rewrite <- list_fmap_compose in Hnd.
Qed.
Lemma nodup_dev_list w p : pool_inv w p → NoDup (dev_list p).
Proof.
  intros Hp. pose proof (blockdevs_nodup w p Hp) as Hnd. apply (NoDup_fmap_2 UDev) in Hnd.
  by rewrite <- list_fmap_compose in Hnd.
Qed.

Lemma fin_pool_added u p L e' w' c' : engine_inv w' e' → later (c_world c0) w' → pool_added (c_engine c0) e' u p → ¬ seen (c_world c0) u →
  (∀ s, s ∈ L ↔ pent p s) → NoDup L → (∀ s, s ∈ L → ¬ seen (c_world c0) (raw_uuid s)) →
  made (mkCtx e' w' (c_queue c0) (next_index c0)) c' ((STRATIS_BASE_PATH, UPool u) :: (pair (object_path_of (next_index c0)) <$> L)) → FIN c'.
Proof.
  intros He Hl Hadd Hu HL Hnd Hnew (acts & n' & -> & Hn & Ha) Hmax. unfold fits in Hmax. cbn [c_queue next_index c_engine c_world length] in *. rewrite n_adds_app in Hmax.
  rewrite length_fmap in *. destruct Ha as [Ha ->]; [apply (i_next _ _ _ Hinv0)|lia|].
  replace (next_index c0 + Z.of_nat (S (length L))) with (next_index c0 + 1 + Z.of_nat (length L)) by lia.
  by eapply inv_pool_added.
Qed.

Lemma pool_added_inv w' e' u p : engine_inv w' e' → pool_added (c_engine c0) e' u p →
  pool_inv w' p ∧ ∃ n, e_get_pool e' u = Some (n, p).
Proof.
  intros He (_ & Hu & _). destruct (e_get_pool e' u) as [[n q]|] eqn:Hq; [|done]. cbn in Hu. simplify_eq.
  split; [by destruct (engine_pool_inv _ _ _ _ _ He Hq)|eauto].
Qed.

Lemma create_pool_safe : path = STRATIS_BASE_PATH → SAFE (create_pool path args).
Proof.
  intros ->. unfold create_pool. do 10 wp_step. wp_step. apply (wp_mono _ _ _ _ (λ _ c, c = c0)); [|wp_steps; done].
  intros kd c ->. wp_step. apply (wp_mono _ _ _ _ (λ _ c, c = c0)); [|wp_steps; done]. intros ci c ->. wp_step.
  eapply wp_engine; [apply create_pool_law|apply (i_engine _ _ _ Hinv0)|]. intros r e' w' He Hl Hr.
  destruct r as [err|[|u]]; [apply wp_ret, fin_inv; by apply inv_engine..|]. destruct Hr as (Hu & p & Hadd & Hnew).
  destruct (pool_added_inv _ _ _ _ He Hadd) as [Hp [n Hget]]. destruct (encryption_law w' p Hp) as [_ [b Henc]].
  unfold get_pool. do 3 wp_step. cbn [c_engine]. rewrite Hget. wp_step. wp_step. eapply wp_create_pool; [done|]. intros c1 Hc1.
  wp_step. apply wp_blockdev_objects. intros ps c2 Hc2. wp_step. pose proof (made_app _ _ _ _ _ Hc1 Hc2) as Hmade.
  assert (∀ s, s ∈ dev_list p ↔ pent p s) as HL.
  { intros s. rewrite (elem_of_dev_list w') by done. split; [by intros (? & _ & ?)|]. intros Hs. destruct (Hnew s Hs) as [_ [d ->]]. eauto. }
  eapply (fin_pool_added u p (dev_list p)); [done..| | |exact Hmade]; [by eapply nodup_dev_list|intros s Hs; by apply Hnew, HL].
Qed.

Lemma wp_register_pool name u p e' w' c : c = mkCtx e' w' (c_queue c0) (next_index c0) → engine_inv w' e' → later (c_world c0) w' →
  pool_added (c_engine c0) e' u p → ¬ seen (c_world c0) u → (∀ s, pent p s → ¬ seen (c_world c0) (raw_uuid s)) →
  WP (register_pool STRATIS_BASE_PATH name u p) (λ _, FIN) c.
Proof.
  intros -> He Hl Hadd Hu Hnew. destruct (pool_added_inv _ _ _ _ He Hadd) as [Hp [n Hget]]. destruct (encryption_law w' p Hp) as [_ [b Henc]].
  unfold register_pool. wp_step. eapply wp_create_pool; [done|]. intros c1 Hc1. wp_step. apply wp_filesystem_objects. intros ps c2 Hc2.
  wp_step. apply wp_blockdev_objects. intros ps' c3 Hc3. wp_step. pose proof (made_app _ _ _ _ _ Hc1 (made_app _ _ _ _ _ Hc2 Hc3)) as Hmade.
  rewrite <- fmap_app in Hmade. assert (∀ s, s ∈ fs_list p ++ dev_list p ↔ pent p s) as HL.
  { intros s. rewrite elem_of_app, elem_of_fs_list, (elem_of_dev_list w') by done. destruct s; naive_solver. }
  eapply (fin_pool_added u p (fs_list p ++ dev_list p)); [done..| | |exact Hmade]; [|intros s Hs; by apply Hnew, HL].
  apply NoDup_app. split_and!; [by eapply nodup_fs_list| |by eapply nodup_dev_list].
  intros s (? & -> & _)%elem_of_fs_list (? & ? & _)%(elem_of_dev_list w'); done.
Qed.

Lemma handle_udev_event_safe v : SAFE (handle_udev_event STRATIS_BASE_PATH v).
Proof.
  unfold handle_udev_event. wp_step. eapply wp_engine; [apply handle_event_law|apply (i_engine _ _ _ Hinv0)|]. intros r e' w' He Hl Hr.
  destruct r as [err|[[[n u] p]|]]; [apply wp_ret, fin_inv; by apply inv_engine| |apply wp_ret, fin_inv; by apply inv_engine].
  destruct Hr as (Hu & Hadd & Hnew). by eapply wp_register_pool.
Qed.

Lemma evented_safe : SAFE (on_engine e_evented).
Proof. wp_eng evented_law. wp_steps. Qed.

(** ** Properties *)

Notation READ m := (∀ c, inv G c T0 → WP m (λ _ c', inv G c' T0) c).

Lemma wp_try {A} (r : RText + A) k (Q : RText + DVal → Ctx → Prop) c : (∀ e, Q (inl e) c) → (∀ a, r = inr a → WP (k a) Q c) → WP (try_with r k) Q c.
Proof. intros Hl Hr. destruct r; [apply wp_ret, Hl|by apply Hr]. Qed.
Lemma ok_or_else_inr {A} (o : option A) e a : ok_or_else o e = inr a → o = Some a.
Proof. by destruct o; intros [=]; subst. Qed.

Lemma pool_operation_read f : (∀ n u p c, inv G c T0 → e_get_pool (c_engine c) u = Some (n, p) → WP (f n u p) (λ _ c', inv G c' T0) c) →
  READ (pool_operation T0 path f).
Proof.
  intros Hf c Hi. unfold pool_operation. apply wp_bind, wp_implicit; [done|]. intros o Ho. apply wp_try; [done|]. intros u Hu. wp_step. wp_step.
  apply wp_try; [done|]. intros [n p] Hp%ok_or_else_inr. by apply Hf.
Qed.
Lemma filesystem_operation_read f : (∀ n m x c, inv G c T0 → WP (f n m x) (λ _ c', inv G c' T0) c) → READ (filesystem_operation T0 path f).
Proof.
  intros Hf c Hi. unfold filesystem_operation. destruct Hpath as [o ->]. wp_step. eapply wp_checked; [done|]. do 3 (apply wp_try; [done|]; intros ? _).
  wp_step. wp_step. apply wp_try; [done|]. intros [n p] _. apply wp_try; [done|]. intros ? _. apply wp_try; [done|]. intros [? ?] _. by apply Hf.
Qed.
Lemma blockdev_operation_read f : (∀ t b c, inv G c T0 → WP (f t b) (λ _ c', inv G c' T0) c) → READ (blockdev_operation T0 path f).
Proof.
  intros Hf c Hi. unfold blockdev_operation. destruct Hpath as [o ->]. wp_step. eapply wp_checked; [done|]. do 4 (apply wp_try; [done|]; intros ? _).
  wp_step. wp_step. apply wp_try; [done|]. intros [n p] _. apply wp_try; [done|]. intros [t b] _. by apply Hf.
Qed.
Lemma append_property_read m : READ m → READ (append_property m).
Proof.
  intros Hm c Hi. unfold append_property. wp_step. eapply wp_mono; [|by apply Hm]. cbn. intros [e|v] c' Hi'; [by apply fin_inv|by apply wp_ret].
Qed.
Lemma wp_on_world {A} (m : st World_ A) (Q : StratisError + A → Ctx → Prop) c : reads m (c_world c) (c_engine c) → inv G c T0 →
  (∀ r c', inv G c' T0 → Q r c') → WP (on_world m) Q c.
Proof.
  intros Hr Hi HQ. unfold wp, on_world, reads in *. destruct (m (c_world c)) as [[a|e|y] w']; [| |done]; destruct Hr; apply HQ; by apply inv_engine.
Qed.

Lemma getter_read g : READ (getter_fn T0 path g).
Proof.
  assert (READ (get_uuid T0 path)) as Hu.
  { intros c Hi. unfold get_uuid. apply wp_bind, wp_implicit; [done|]. intros o Ho. destruct (o_data o); [by apply wp_ret|by apply fin_inv]. }
  assert (READ (get_parent T0 path)) as Hp.
  { intros c Hi. unfold get_parent. apply wp_bind, wp_implicit; [done|]. intros o Ho. destruct (o_data o); [by apply wp_ret|by apply fin_inv]. }
  destruct g; try done; try (apply append_property_read, blockdev_operation_read; by intros; apply wp_ret);
    try (apply append_property_read, filesystem_operation_read; by intros; apply wp_ret); apply append_property_read, pool_operation_read;
    [by intros; apply wp_ret|]. intros n u p c Hi Hget. wp_step.
  destruct (engine_pool_inv _ _ _ _ _ (i_engine _ _ _ Hi) Hget) as [Hpi _]. destruct (encryption_law _ _ Hpi) as [_ [b Hb]].
  unfold pool_enc_prop. rewrite Hb. eapply wp_checked; [done|]. by apply wp_ret.
Qed.

Lemma api_read : Forall (λ x, READ x.2) api_properties.
Proof.
  unfold api_properties. rewrite !Forall_cons. cbn [snd]. split_and!; [..|by apply Forall_nil]; intros c Hi; apply wp_bind; [|by apply wp_the_engine, wp_ret..].
  wp_eng key_list_law. by wp_step.
Qed.
Lemma pool_read : Forall (λ x, READ x.2) (pool_properties T0 path).
Proof.
  unfold pool_properties. rewrite !Forall_cons. cbn [snd]. split_and!; [..|by apply Forall_nil]; apply pool_operation_read; intros n u p c Hi Hget; try by apply wp_ret.
  - destruct (engine_pool_inv _ _ _ _ _ (i_engine _ _ _ Hi) Hget) as [Hpi _]. destruct (encryption_law _ _ Hpi) as [[i Hb] _].
    wp_step. eapply wp_checked; [done|]. by apply wp_ret.
  - wp_step. apply wp_on_world; [apply total_used_law, (i_engine _ _ _ Hi)|done|]. intros r c' Hi'. by wp_step.
  - destruct (engine_pool_inv _ _ _ _ _ (i_engine _ _ _ Hi) Hget) as [Hpi _]. destruct (encryption_law _ _ Hpi) as [[i Hb] _].
    wp_step. eapply wp_checked; [done|]. by apply wp_ret.
Qed.
Lemma fs_read : Forall (λ x, READ x.2) (fs_properties T0 path).
Proof.
  apply Forall_singleton. apply filesystem_operation_read. intros n m f c Hi. wp_step.
  apply wp_on_world; [apply fs_used_law, (i_engine _ _ _ Hi)|done|]. intros r c' Hi'. by wp_step.
Qed.
Lemma bd_read : Forall (λ x, READ x.2) (bd_properties T0 path).
Proof. apply Forall_singleton. apply blockdev_operation_read. intros t b c Hi. by wp_step. Qed.

Lemma get_properties_shared_read table l : Forall (λ x, READ x.2) table → READ (get_properties_shared table l).
Proof.
  intros Ht. induction l as [|q l IH]; intros c Hi; cbn [get_properties_shared]; [by wp_step|].
  destruct (list_find _ table) as [[i [k g]]|] eqn:Hf; [|by apply IH]. apply list_find_Some in Hf as (Hin & _ & _).
  wp_step. eapply wp_mono; [|by apply (Forall_lookup_1 _ _ _ _ Ht Hin)]. cbn. intros r c1 Hi1. wp_step. eapply wp_mono; [|by apply IH].
  cbn. by intros r' c2 Hi2.
Qed.
Lemma get_all_properties_safe table : Forall (λ x, READ x.2) table → SAFE (get_all_properties table).
Proof.
  intros Ht. unfold get_all_properties. wp_step. eapply wp_mono; [|by apply get_properties_shared_read]. cbn. intros r c Hi. by apply fin_inv.
Qed.
Lemma get_properties_safe table : Forall (λ x, READ x.2) table → SAFE (get_properties args table).
Proof.
  intros Ht. unfold get_properties. do 3 wp_step. eapply wp_mono; [|by apply get_properties_shared_read]. cbn. intros r c Hi. by apply fin_inv.
Qed.

(** *** All objects *)

Lemma managed_object_ok q o : T0 !! q = Some o → ∃ r, managed_object T0 (c_engine c0) o = Ok r.
Proof.
  intros Ho. pose proof (proj1 (all_trees_head _ _ _ (i_trees _ _ _ Hinv0))) as Hwf. unfold managed_object.
  destruct (o_data o) as [[par s]|] eqn:Hd; [|eauto]. pose proof (wf_parent _ _ _ Hwf q par s) as Hp. cbn.
  destruct s as [u|u|u]; [destruct Hp as (v & o' & -> & Hd'); [by exists o|]; cbn; rewrite Hd'; cbn; eauto..|].
  destruct (e_get_pool (c_engine c0) u) as [[n p]|] eqn:Hget; [|eauto]. destruct (engine_pool_inv _ _ _ _ _ (i_engine _ _ _ Hinv0) Hget) as [Hpi _].
  destruct (encryption_law _ _ Hpi) as [_ [b Hb]]. unfold get_pool_properties, pool_enc_prop. rewrite Hb. cbn. eauto.
Qed.
Lemma managed_objects_ok : ∃ l, managed_objects T0 (c_engine c0) (map_to_list T0).*2 = Ok l.
Proof.
  assert (∀ o, o ∈ (map_to_list T0).*2 → ∃ r, managed_object T0 (c_engine c0) o = Ok r) as Hall.
  { intros o ([q o'] & -> & Hin%elem_of_map_to_list)%list_elem_of_fmap. by eapply managed_object_ok. }
  induction (map_to_list T0).*2 as [|o l IH]; [by eexists|]. cbn. destruct (Hall o ltac:(by left)) as [r ->]. cbn.
  destruct IH as [l' ->]; [intros; apply Hall; by right|]. by eexists.
Qed.
Lemma get_managed_objects_safe : SAFE (get_managed_objects T0).
Proof.
  unfold get_managed_objects. do 3 wp_step. destruct managed_objects_ok as [l Hl]. eapply wp_checked; [exact Hl|]. wp_steps.
Qed.
End methods.
End handlers.
