(* ===== verification/DbusDaemon.v ===== *)
(** * What the daemon keeps, for an engine that keeps its laws

    The tree and the engine stay together over all steps of [DbusSteps], no handler panics, and what is queued is shown in the end.
    All of it for engines that satisfy [EngineLaws]; [DbusSim] states it of the daemon with the simulator. *)
From stdpp Require Import base list gmap strings pretty.
From Stdlib Require Import ZArith Lia.
From S2P Require Import Prelude External Json Actions Shared DeviceSet Identify EngineApi Dbus DbusMethods DbusTree DbusSteps DbusSpec DbusSafety.

Section daemon.
Context `{EngineLaws} `{UuidFormat} `{JsonText}.
Implicit Types (T : Tree) (c : Ctx) (d : Daemon).

(** ** Calls *)

Lemma create_pool_manager T n known path o i m : tree_wf n known T → T !! path = Some o → (i, m) ∈ o_methods o →
  m_handler m = Hcreate_pool → path = STRATIS_BASE_PATH.
Proof.
  intros Hwf Ho Hin Hm. rewrite <- (wf_name _ _ _ Hwf _ _ Ho). pose proof (wf_object _ _ _ Hwf _ _ Ho) as Hok. unfold object_ok in Hok.
  assert (∀ l, Forall (λ x : string * Method, m_handler x.2 ≠ Hcreate_pool) l → (i, m) ∈ l → False) as Hno.
  { intros l Hl Hl'. rewrite Forall_forall in Hl. by apply Hl in Hl'. }
  destruct (o_data o) as [[par s]|].
  - rewrite Hok in Hin. destruct s; exfalso; eapply Hno; try exact Hin; cbn; repeat constructor; cbn; done.
  - destruct Hok as [-> |[name ->]]; [done|]. by apply elem_of_nil in Hin.
Qed.

Lemma handle_safe G c T msg : inv G c T → wp G c T (handle T msg) (λ _, fin G c T) c.
Proof.
  intros Hi. unfold handle, find_method. destruct (T !! msg_path msg) as [o|] eqn:Ho; cbn; [|by apply fin_inv].
  destruct (list_find _ (o_methods o)) as [[k [i m]]|] eqn:Hf; cbn; [|by apply fin_inv].
  apply list_find_Some in Hf as (Hin & _ & _). apply list_elem_of_lookup_2 in Hin.
  pose proof (proj1 (all_trees_head _ _ _ (i_trees _ _ _ Hi))) as Hwf.
  assert (is_Some (T !! msg_path msg)) as Hp by eauto. destruct (m_handler m) eqn:Hm; cbn [handler_fn].
  - by apply get_managed_objects_safe.
  - apply create_pool_safe; [done..|]. by eapply create_pool_manager.
  - by apply set_key_safe.
  - by apply unset_key_safe.
  - by apply unlock_pool_safe.
  - by apply destroy_pool_safe.
  - by apply engine_state_report_safe.
  - by apply get_report_safe.
  - by apply create_filesystems_safe.
  - by apply destroy_filesystems_safe.
  - by apply snapshot_filesystem_safe.
  - by apply add_blockdevs_safe.
  - by apply bind_clevis_safe.
  - by apply unbind_clevis_safe.
  - by apply add_blockdevs_safe.
  - by apply add_blockdevs_safe.
  - by apply bind_keyring_safe.
  - by apply unbind_keyring_safe.
  - by apply rebind_keyring_safe.
  - by apply rebind_clevis_safe.
  - by apply rename_pool_safe.
  - by apply rename_filesystem_safe.
  - by apply set_user_info_safe.
  - apply get_all_properties_safe; [done|apply api_read].
  - apply get_properties_safe; [done|apply api_read].
  - by apply get_all_properties_safe, pool_read.
  - by apply get_properties_safe, pool_read.
  - by apply get_all_properties_safe, fs_read.
  - by apply get_properties_safe, fs_read.
  - by apply get_all_properties_safe, bd_read.
  - by apply get_properties_safe, bd_read.
Qed.

Lemma get_property_safe G c T path i name : inv G c T → wp G c T (get_property T path i name) (λ _, fin G c T) c.
Proof.
  intros Hi. unfold get_property, find_property. destruct (T !! path) as [o|] eqn:Ho; cbn; [|by apply fin_inv].
  destruct (list_find _ (o_properties o)) as [[k [j m]]|] eqn:Hf; cbn; [|by apply fin_inv].
  eapply wp_mono; [|by eapply getter_read]. cbn. intros _ c' Hi'. by apply fin_inv.
Qed.

(** ** Start

    [setup] registers the pools the engine has; until then nothing of the tree is in use. *)
Section start.
Context (w : World_) (e : Engine_) (T0 : Tree).
Hypothesis He : engine_inv w e.
(** no filesystem or block device belongs to two pools *)
Hypothesis Hdistinct : ∀ u v s, ent e (Some u) s → ent e (Some v) s → u = v.

(** the pools registered so far *)
Definition ent_of (l : list (Str * Z * Pool_)) (r : option Z) (s : StratisUuid) : Prop :=
  ∃ n u p, (n, u, p) ∈ l ∧ (r = None ∧ s = UPool u ∨ r = Some u ∧ pent p s).

Definition started c (E : option Z → StratisUuid → Prop) : Prop :=
  c_engine c = e ∧ c_world c = w ∧ (n_adds (c_queue c) < 2 ^ 64 → next_index c = n_adds (c_queue c) ∧
    let T1 := apply_actions (c_queue c) T0 in
    mirror E T1 ∧ all_trees (λ Ti, tree_wf (next_index c) (seen w) Ti ∧ kept T1 Ti) T0 (c_queue c)).

Lemma n_adds_nonneg l : 0 ≤ n_adds l.
Proof. apply Zsum_nonneg, Forall_fmap, Forall_true. by intros [| | |]. Qed.

Lemma register_started G cb c E n u p (Q : unit → Ctx → Prop) : started c E → e_get_pool e u = Some (n, p) → (∀ r, ¬ E r (UPool u)) →
  (∀ s, pent p s → ∀ r, ¬ E r s) →
  (∀ c', started c' (λ r s, E r s ∨ (r = None ∧ s = UPool u) ∨ (r = Some u ∧ pent p s)) → Q tt c') →
  wp G cb T0 (register_pool STRATIS_BASE_PATH n u p) Q c.
Proof.
  intros (Hce & Hcw & Hst) Hget Hnew Hnew' HQ. destruct (engine_pool_inv _ _ _ _ _ He Hget) as [Hp Hu].
  destruct (encryption_law w p Hp) as [_ [b Henc]]. unfold register_pool. apply wp_bind. eapply wp_create_pool; [done|]. intros c1 Hc1.
  apply wp_bind, wp_filesystem_objects. intros ps c2 Hc2. apply wp_bind, wp_blockdev_objects. intros ps' c3 Hc3. apply wp_ret, HQ.
  pose proof (made_app _ _ _ _ _ Hc1 (made_app _ _ _ _ _ Hc2 Hc3)) as (acts & n' & -> & Hn & Ha). clear Hc1 Hc2 Hc3. rewrite <- fmap_app in *.
  fold (fs_list p) (dev_list p) in *. set (L := fs_list p ++ dev_list p) in *. split_and!; [done..|]. cbn [c_queue next_index].
  rewrite length_app, length_fmap in *. cbn [length] in *. rewrite n_adds_app. intros Hmax. pose proof (n_adds_nonneg (c_queue c)).
  destruct Hst as (Hnx & Hm & Ht); [lia|]. destruct Ha as [Ha ->]; [lia..|]. split; [lia|]. rewrite apply_actions_app.
  pose proof (all_trees_last _ _ _ Ht) as [Hwf _]. assert (∀ s, s ∈ L ↔ pent p s) as HL.
  { intros s. unfold L. rewrite elem_of_app, elem_of_fs_list, (elem_of_dev_list w) by done. destruct s; naive_solver. }
  destruct (adds_pool (seen w) (seen w) (next_index c) E (apply_actions (c_queue c) T0) u L acts Hwf Hm) as [Hm2 Ht2]; try done; [lia| | |].
  { apply NoDup_app. split_and!; [by eapply nodup_fs_list| |by eapply nodup_dev_list].
    intros s (? & -> & _)%elem_of_fs_list (? & ? & _)%(elem_of_dev_list w); done. }
  { intros s Hs%HL. split_and!; [by intros v ->|by apply Hnew'|by eapply pool_seen]. }
  replace (next_index c + Z.of_nat (1 + length L)) with (next_index c + 1 + Z.of_nat (length L)) by lia.
  split; [eapply mirror_iff; [|exact Hm2]; intros r s; specialize (HL s); cbn beta; tauto|]. pose proof (all_trees_head _ _ _ Ht2) as [_ Hk].
  apply all_trees_app; [|done]. eapply all_trees_impl; [|exact Ht]. intros Ti [Hwfi Hki]. split; [eapply tree_wf_mono; [|done|exact Hwfi]; lia|].
  intros path par s Ho. by apply Hk, Hki.
Qed.

Lemma started_iff c E E' : (∀ r s, E r s ↔ E' r s) → started c E → started c E'.
Proof.
  intros Heq (? & ? & Hst). split_and!; [done..|]. intros Hmax. destruct (Hst Hmax) as (? & Hm & ?). split; [done|]. split; [by eapply mirror_iff|done].
Qed.

Lemma register_pools_started G cb l : ∀ l0 c (Q : unit → Ctx → Prop), started c (ent_of l0) → NoDup ((λ x, x.1.2) <$> l0 ++ l) →
  (∀ n u p, (n, u, p) ∈ l0 ++ l → e_get_pool e u = Some (n, p)) →
  (∀ c', started c' (ent_of (l0 ++ l)) → Q tt c') → wp G cb T0 (register_pools STRATIS_BASE_PATH l) Q c.
Proof.
  induction l as [|[[n u] p] l IH]; intros l0 c Q Hst Hnd Hl HQ; cbn [register_pools]; [apply wp_ret, HQ; by rewrite app_nil_r|].
  assert (e_get_pool e u = Some (n, p)) as Hget by (apply Hl; set_solver).
  assert (∀ n' u' p', (n', u', p') ∈ l0 → u' ≠ u) as Hne.
  { intros n' u' p' Hin ->. rewrite fmap_app in Hnd. apply NoDup_app in Hnd as (_ & Hd & _). apply (Hd u); [|by left].
    apply list_elem_of_fmap. by exists (n', u, p'). }
  apply wp_bind. eapply register_started; [done..| | |].
  - intros r (n' & u' & p' & Hin & [[_ [= <-]]|[_ []]]). by eapply Hne.
  - intros s Hs r (n' & u' & p' & Hin & [[_ ->]|[_ Hs']]); [done|]. apply (Hne _ _ _ Hin). apply (Hdistinct u' u s).
    + exists n', p'. split; [apply Hl; set_solver|done].
    + by exists n, p.
  - intros c' Hst'. eapply (IH (l0 ++ [(n, u, p)])); rewrite <- ?app_assoc; cbn [app]; [|done..]. eapply started_iff; [|exact Hst'].
    intros r s. split.
    + intros [(n' & u' & p' & Hin & Hor)|Hor]; [exists n', u', p'|exists n, u, p]; (split; [set_solver|done]).
    + intros (n' & u' & p' & [Hin|[= -> -> ->]%list_elem_of_singleton]%elem_of_app & Hor); [left; by exists n', u', p'|by right].
Qed.

Lemma setup_started G cb (Q : unit → Ctx → Prop) : tree_wf 0 (seen w) T0 → mirror (λ _ _, False) T0 →
  (∀ c, started c (ent e) → Q tt c) → wp G cb T0 (setup STRATIS_BASE_PATH) Q (mkCtx e w [] 0).
Proof.
  intros Hwf Hm HQ. unfold setup. apply wp_bind, wp_the_engine. cbn [c_engine]. apply (register_pools_started G cb (e_pools e) []).
  - split_and!; [done..|]. intros _. cbn [c_queue next_index]. split; [done|]. cbn zeta. split; [|split; [split; [done|by intros ???]|done]]. eapply mirror_iff; [|exact Hm].
    intros r s. split; [done|]. by intros (? & ? & ? & ?%elem_of_nil & _).
  - by eapply pools_nodup.
  - intros n u p Hin. by eapply pools_law.
  - intros c Hc. apply HQ. eapply started_iff; [|exact Hc]. intros r s. cbn [app]. split.
    + intros (n & u & p & Hin%(pools_law w) & Hor); [|done]. destruct Hor as [[-> ->]|[-> Hp]]; [exists u; eauto|by exists n, p].
    + destruct r as [v|]; [intros (n & p & Hget & Hp); exists n, v, p|intros (u & -> & [[n p] Hget]); exists n, u, p];
        (split; [by apply (pools_law w)|auto]).
Qed.

Lemma started_inv c : started c (ent e) → n_adds (c_queue c) < 2 ^ 64 → inv (λ _ _, False) c T0.
Proof.
  intros (<- & <- & Hst) Hmax. destruct (Hst Hmax) as (Hn & Hm & Ht). split; [rewrite Hn; apply n_adds_nonneg|done|done| |].
  { eapply mirror_iff; [|exact Hm]. unfold shows. tauto. }
  eapply all_trees_impl; [|exact Ht]. intros Ti [? Hk]. split; [done|]. intros path par s Ho. left. by apply Hk.
Qed.
End start.

Lemma base_obj path par s : ¬ obj get_base_tree.1 path par s.
Proof. intros (o & (_ & _ & ? & _)%base_lookup & ?). congruence. Qed.
Lemma base_wf known : tree_wf 0 known get_base_tree.1.
Proof.
  split.
  - intros path o Ho. by apply base_lookup in Ho as (_ & ? & _).
  - intros path o Ho. by apply base_lookup in Ho as (? & _).
  - cbn. by rewrite lookup_insert_eq.
  - intros path o Ho _. by apply base_lookup in Ho as (_ & _ & _ & ?).
  - intros path par s Ho. by apply base_obj in Ho.
  - intros path par s Ho. by apply base_obj in Ho.
  - intros path par s Ho. by apply base_obj in Ho.
Qed.
Lemma base_mirror : mirror (λ _ _, False) get_base_tree.1.
Proof. split; try done. intros path par s Ho. by apply base_obj in Ho. intros path path' par par' s Ho. by apply base_obj in Ho. Qed.

(** ** Calls that have given back the lock

    What they owe: each of them only announces something, or has still to queue the removal of a pool that is gone, and the
    things that are shown although they are gone belong to these pools. *)

Definition removed_path (x : DbusAction * Reply) : option Path := match x.1 with Remove P _ => Some P | _ => None end.
Record late_inv (G : option Z → StratisUuid → Prop) T (l : list (DbusAction * Reply)) : Prop := {
  l_pending a r : (a, r) ∈ l → quiet a ∨ ∃ P i u, a = Remove P i ∧ pool_at T u P ∧ G None (UPool u);
  l_owed r s : G r s → ∃ P i rep u, (Remove P i, rep) ∈ l ∧ pool_at T u P ∧ (r = None ∧ s = UPool u ∨ r = Some u);
  l_nodup : NoDup (omap removed_path l)
}.

Lemma late_inv_perm G T l l' : l ≡ₚ l' → late_inv G T l → late_inv G T l'.
Proof.
  intros Hl [Hp Ho Hn]. split.
  - intros a r. rewrite <- Hl. apply Hp.
  - intros r s Hr. destruct (Ho r s Hr) as (P & i & rep & u & ? & ?). exists P, i, rep, u. by rewrite <- Hl.
  - by rewrite <- Hl.
Qed.
Lemma late_inv_mono G T T' l : (∀ u P, G None (UPool u) → pool_at T u P → pool_at T' u P) → late_inv G T l → late_inv G T' l.
Proof.
  intros Hk [Hp Ho Hn]. split; [| |done].
  - intros a r Hin. destruct (Hp a r Hin) as [?|(P & i & u & -> & ? & ?)]; [by left|]. right. exists P, i, u. auto.
  - intros r s Hr. destruct (Ho r s Hr) as (P & i & rep & u & Hin & HP & Hor). exists P, i, rep, u. split_and!; [done| |done].
    destruct (Hp _ _ Hin) as [[]|(P' & i' & u' & [= <- <-] & HP' & Hg)]. destruct (obj_fun _ _ _ _ _ _ HP HP') as [_ [= ->]]. auto.
Qed.
Lemma late_inv_quiet G T a r l : quiet a → late_inv G T l ↔ late_inv G T ((a, r) :: l).
Proof.
  intros Ha. assert (removed_path (a, r) = None) as Hno by (by destruct a). split; intros [Hp Ho Hn]; split.
  - intros a' r' [[= -> ->]|Hin]%elem_of_cons; [by left|by eapply Hp].
  - intros r' s Hr. destruct (Ho r' s Hr) as (P & i & rep & u & ? & ?). exists P, i, rep, u. by rewrite elem_of_cons; auto.
  - csimpl. by rewrite Hno.
  - intros a' r' Hin. apply (Hp a' r'). by right.
  - intros r' s Hr. destruct (Ho r' s Hr) as (P & i & rep & u & [[= <- _]|?]%elem_of_cons & ?); [done|]. by exists P, i, rep, u.
  - revert Hn. csimpl. by rewrite Hno.
Qed.
Lemma late_inv_add G c T l P i rep u : pool_at T u P → ¬ G None (UPool u) → late_inv G T l →
  late_inv (pool_owed G c u) T ((Remove P i, rep) :: l).
Proof.
  intros HP Hu [Hp Ho Hn]. split.
  - intros a r [[= -> ->]|Hin]%elem_of_cons; [right; exists P, i, u; split_and!; [done..|by right; left]|].
    destruct (Hp a r Hin) as [?|(P' & i' & u' & -> & ? & ?)]; [by left|]. right. exists P', i', u'. by split_and!; [..|left].
  - intros r s Hr. assert (G r s ∨ r = None ∧ s = UPool u ∨ r = Some u) as [Hg|Hor] by (destruct Hr as [?|[?|[? _]]]; auto).
    + destruct (Ho r s Hg) as (P' & i' & rep' & u' & ? & ?). exists P', i', rep', u'. by rewrite elem_of_cons; auto.
    + exists P, i, rep, u. split_and!; [by left|done|done].
  - csimpl. apply NoDup_cons. split; [|done]. intros ([a r] & Hin & Hr)%list_elem_of_omap. destruct a as [|P' i'| |]; try done. injection Hr as ->.
    destruct (Hp _ _ Hin) as [[]|(P' & j & u' & [= <- <-] & HP' & Hg)]. destruct (obj_fun _ _ _ _ _ _ HP HP') as [_ [= ->]]. done.
Qed.
Lemma late_inv_removed G E n known T l P i rep u : tree_wf n known T → mirror E T → pool_at T u P → late_inv G T ((Remove P i, rep) :: l) →
  late_inv (λ r s, G r s ∧ r ≠ Some u ∧ s ≠ UPool u) (apply_action (Remove P i) T) l.
Proof.
  intros Hwf Hm HP [Hp Ho Hn]. csimpl in Hn. apply NoDup_cons in Hn as [HnP Hn].
  assert (∀ P' i' r', (Remove P' i', r') ∈ l → P' ≠ P) as Hne.
  { intros P' i' r' Hin ->. apply HnP, list_elem_of_omap. by exists (Remove P i', r'). }
  assert (∀ P' u', P' ≠ P → pool_at T u' P' → u' ≠ u ∧ pool_at (apply_action (Remove P i) T) u' P') as Hk.
  { intros P' u' Hne' HP'. split.
    - intros ->. apply Hne'. by eapply (m_unique _ _ Hm).
    - apply (obj_remove _ _ T P i Hwf). split_and!; [done..|]. intros Hb. destruct (wf_path _ _ _ Hwf _ _ _ HP) as (j & _ & Hj).
      apply (object_path_not_base j). rewrite <- Hj, <- Hb. by left. }
  split; [| |done].
  - intros a r Hin. destruct (Hp a r) as [?|(P' & i' & u' & -> & HP' & Hg)]; [by right|by left|]. right. exists P', i', u'.
    destruct (Hk P' u') as [? ?]; [by eapply Hne|done|]. split_and!; [done..|]. by intros [=].
  - intros r s (Hg & Hr & Hs). destruct (Ho r s Hg) as (P' & i' & rep' & u' & Hin & HP' & Hor).
    apply elem_of_cons in Hin as [[= -> -> ->]|Hin].
    + destruct (obj_fun _ _ _ _ _ _ HP HP') as [_ [= ->]]. by destruct Hor as [[_ ?]|?].
    + exists P', i', rep', u'. split_and!; [done| |done]. apply Hk; [by eapply Hne|done].
Qed.

(** what the calls of [d] owe: the objects of pools that are gone *)
Definition owed d (r : option Z) (s : StratisUuid) : Prop := ∃ P i rep u, (Remove P i, rep) ∈ d_late d ∧ pool_at (drained d) u P ∧
  (r = None ∧ s = UPool u ∨ r = Some u ∧ ∃ path, obj (drained d) path P s).

(** ** Steps *)

(** the identifiers of the objects that a step adds do not overflow *)
Definition room d d' : Prop :=
  next_index (d_ctx d) + n_adds (c_queue (d_ctx d')) - n_adds (c_queue (d_ctx d)) < 2 ^ 64.

Definition startable (e : Engine_) (w : World_) : Prop :=
  engine_inv w e ∧ (∀ u v s, ent e (Some u) s → ent e (Some v) s → u = v) ∧ n_adds (c_queue (d_ctx (start e w).2)) < 2 ^ 64.

Inductive reachable : Daemon → Prop :=
| reach_start e w : startable e w → reachable (start e w).2
| reach_step d ev o d' : reachable d → step ev d = (o, d') → room d d' → reachable d'.

Definition daemon_inv d : Prop := ∃ G, inv G (d_ctx d) (d_tree d) ∧ late_inv G (drained d) (d_late d).

Lemma start_ok e w : startable e w → crashed (start e w).1 = false ∧ daemon_inv (start e w).2.
Proof.
  intros (He & Hd & Hmax). assert (∀ c, inv (λ _ _, False) c get_base_tree.1 → daemon_inv (mkDaemon c get_base_tree.1 [])) as Hinv.
  { intros c Hc. exists (λ _ _, False). split; [done|]. split; [by intros ? ? ?%elem_of_nil|done|constructor]. }
  unfold start in *. pose proof (setup_started w e get_base_tree.1 He Hd (λ _ _, False) (mkCtx e w [] 0)
    (λ _ c, n_adds (c_queue c) < 2 ^ 64 → inv (λ _ _, False) c get_base_tree.1) (base_wf _) base_mirror) as Hs.
  pose proof base_obj as Hbase.
  assert (∀ c, started w e get_base_tree.1 c (ent e) → n_adds (c_queue c) < 2 ^ 64 → inv (λ _ _, False) c get_base_tree.1) as Hst
    by (intros c Hc Hmax'; by eapply started_inv).
  specialize (Hs Hst). unfold wp, fin, fits in Hs. clear Hst. revert Hs Hmax Hinv Hbase. generalize get_base_tree.1 as T0. intros T0.
  destruct (setup _ _) as [[[]|r|[| | |] r|m|y] c]; cbn; intros Hs Hmax Hinv Hbase; try done;
    [..|by destruct Hs|by destruct Hs as (Hq & u & HP & _); rewrite Hq in HP; apply Hbase in HP| | |]; (split; [done|]); apply Hinv;
    first [apply Hs; lia|destruct Hs as [_ Hs]; apply Hs; unfold fits; cbn; lia].
Qed.

(** what is queued by others does not touch the pools that are gone *)
Lemma owed_kept G c T acts u P : inv G c T → c_queue c = acts → ∀ q q', acts = q ++ q' → G None (UPool u) →
  pool_at (apply_actions q T) u P → pool_at (apply_actions acts T) u P.
Proof.
  intros Hi <- q q' Hq Hu HP. pose proof (i_trees _ _ _ Hi) as Ht. rewrite Hq in Ht.
  apply all_trees_prefix, all_trees_last in Ht as [_ Ht]. destruct (Ht _ _ _ HP) as [Ho|Hno]; [by rewrite Hq|]. by destruct (Hno None); right.
Qed.

Lemma run_meth_ok {A} (m : meth A) out d : (∀ r, panicked (out r) = crashed r) → grows m →
  (∀ G, inv G (d_ctx d) (d_tree d) → wp G (d_ctx d) (d_tree d) m (λ _, fin G (d_ctx d) (d_tree d)) (d_ctx d)) → daemon_inv d →
  panicked (run_meth m out d).1 = false ∧ (room d (run_meth m out d).2 → daemon_inv (run_meth m out d).2).
Proof.
  intros Hout Hg Hm (G & Hi & Hl). specialize (Hm G Hi). destruct (Hg (d_ctx d)) as (_ & acts & Hq & _). unfold run_meth, wp in *.
  destruct (m (d_ctx d)) as [r c]. unfold room. cbn [fst snd d_ctx d_tree] in *. rewrite Hout.
  assert (∀ G', inv G' c (d_tree d) → (∀ r s, G r s → G' r s) → ∀ l, late_inv G (drained d) l → late_inv G (apply_actions (c_queue c) (d_tree d)) l) as Hkeep.
  { intros G' Hi' HG l. apply late_inv_mono. intros u P Hu HP. eapply (owed_kept G' c (d_tree d) _ u P Hi' eq_refl (c_queue (d_ctx d)) acts Hq); [by apply HG|done]. }
  assert (fin G (d_ctx d) (d_tree d) c → ∀ l, Forall (λ x, quiet x.1) l →
    next_index (d_ctx d) + n_adds (c_queue c) - n_adds (c_queue (d_ctx d)) < 2 ^ 64 → daemon_inv (mkDaemon c (d_tree d) (d_late d ++ l))) as Hfin.
  { intros Hf l Hql Hmax. specialize (Hf Hmax). exists G. split; [done|]. cbn [d_late]. eapply late_inv_perm; [apply Permutation_app_comm|].
    pose proof (Hkeep G Hf ltac:(done) _ Hl) as Hl'. induction Hql as [|[a r'] l' Ha _ IH]; [done|]. by apply late_inv_quiet. }
  destruct r as [a|rep|a rep|me|why]; cbn [crashed late_call] in *; [| | | |done]; (split; [done|]); [by apply Hfin..| |by apply Hfin].
  destruct a as [|P i| |]; cbn [owes] in Hm; [by destruct Hm| |by apply Hfin; [apply Hm|by apply Forall_singleton]..].
  destruct Hm as (Hqc & u & HP & Hu & Hi'). intros _. exists (pool_owed G (d_ctx d) u). split; [done|]. unfold drained. cbn [d_ctx d_tree d_late].
  eapply late_inv_perm; [apply Permutation_app_comm|]. apply late_inv_add; [done| |by apply (Hkeep _ Hi' ltac:(by left))].
  intros Hg'. by eapply (i_gone _ _ _ Hi _ _ Hg').
Qed.

Lemma inv_process G c T a q : inv G c T → c_queue c = a :: q → inv G (mkCtx (c_engine c) (c_world c) q (next_index c)) (apply_action a T).
Proof. intros [Hn He Hg Hm Ht] Hq. rewrite Hq in *. destruct Ht as [_ Ht]. by split. Qed.

Lemma finish_ok k d : daemon_inv d → daemon_inv (step (Finish k) d).2.
Proof.
  intros (G & Hi & Hl). cbn. destruct (d_late d !! k) as [[a r]|] eqn:Hk; [|by exists G]. cbn [snd].
  pose proof (late_inv_perm _ _ _ _ (delete_Permutation _ _ _ Hk) Hl) as Hl'. destruct (l_pending _ _ _ Hl' a r ltac:(by left)) as [Ha|(P & i & u & -> & HP & Hu)].
  - exists G. split.
    + apply inv_same; [done|apply (i_engine _ _ _ Hi)|by intros ?|done|by apply Forall_singleton].
    + apply late_inv_quiet in Hl'; [|done]. unfold drained, send. cbn [d_ctx d_tree d_late c_queue snd].
      rewrite apply_actions_app, quiet_actions by (by apply Forall_singleton). done.
  - eexists. split; [by apply (inv_removal_queued G (d_ctx d) (d_tree d) u)|]. unfold drained, send. cbn [d_ctx d_tree d_late c_queue snd].
    rewrite apply_actions_app. by eapply late_inv_removed; [by eapply drained_wf|by eapply i_mirror|..].
Qed.

Lemma step_ok ev d : daemon_inv d → panicked (step ev d).1 = false ∧ (room d (step ev d).2 → daemon_inv (step ev d).2).
Proof.
  intros Hi. destruct ev as [msg|k|path i n|v| |].
  - apply run_meth_ok; [done|apply grows_handle| |done]. intros G HG. by apply handle_safe.
  - split; [cbn; by destruct (d_late d !! k) as [[]|]|]. intros _. by apply finish_ok.
  - apply run_meth_ok; [done|apply grows_get_property| |done]. intros G HG. by apply get_property_safe.
  - apply run_meth_ok; [done|apply grows_udev| |done]. intros G HG. by apply handle_udev_event_safe.
  - apply run_meth_ok; [done|apply grows_dm_event| |done]. intros G HG. apply wp_bind. eapply wp_mono; [|by apply evented_safe]. done.
  - destruct (d_late d) eqn:Hl; [|by cbn; rewrite Hl]. destruct (c_queue (d_ctx d)) as [|a q] eqn:Hq; [by cbn; rewrite Hl, Hq|].
    rewrite (process_eq _ _ _ Hl Hq). split; [cbn; rewrite Hl, Hq; by destruct (handle_dbus_action a (d_tree d))|].
    intros _. destruct Hi as (G & Hi & Hli). exists G. split; [by apply inv_process|]. rewrite Hl in Hli. unfold drained in *.
    by rewrite Hq in Hli.
Qed.

Lemma reachable_inv d : reachable d → daemon_inv d.
Proof.
  induction 1 as [e w Hs|d ev o d' _ IH Hstep Hroom]; [by apply start_ok|]. pose proof (step_ok ev d IH) as [_ Hd]. rewrite Hstep in Hd. auto.
Qed.

(** the invariant without its witness: what is shown is what the engine has and what the calls owe *)
Lemma owed_iff G d r s : inv G (d_ctx d) (d_tree d) → late_inv G (drained d) (d_late d) → G r s ↔ owed d r s.
Proof.
  intros Hi Hl. pose proof (i_mirror _ _ _ Hi) as Hm. split.
  - intros Hg. destruct (l_owed _ _ _ Hl r s Hg) as (P & i & rep & u & Hin & HP & Hor). exists P, i, rep, u. split_and!; [done..|].
    destruct Hor as [?| ->]; [by left|]. right. split; [done|].
    destruct (m_child _ _ Hm u s) as (_ & P' & path & HP' & Ho); [by right|]. exists path.
    assert (P' = P) as <- by (by eapply (m_unique _ _ Hm)). done.
  - intros (P & i & rep & u & Hin & HP & Hor). destruct (l_pending _ _ _ Hl _ _ Hin) as [[]|(P' & i' & u' & [= <- <-] & HP' & Hg)].
    destruct (obj_fun _ _ _ _ _ _ HP HP') as [_ [= <-]]. destruct Hor as [[-> ->]|[-> [path Ho]]]; [done|].
    pose proof (m_sound _ _ Hm path P s Ho) as Hs. assert (∀ v, pool_at (drained d) v P → shows G (c_engine (d_ctx d)) (Some v) s → G (Some u) s) as Hv.
    { intros v HPv Hs'. destruct (obj_fun _ _ _ _ _ _ HP HPv) as [_ [= <-]]. destruct Hs' as [(n & p & Hu & _)|?]; [|done].
      exfalso. apply (i_gone _ _ _ Hi _ _ Hg None). exists u. rewrite Hu. eauto. }
    destruct s as [b|f|v]; [destruct Hs as (v & ? & ?); by apply (Hv v)..|]. exfalso. pose proof (drained_wf _ _ _ Hi) as Hwf.
    pose proof (wf_parent _ _ _ Hwf _ _ _ Ho) as Hb. destruct (wf_path _ _ _ Hwf _ _ _ HP) as (j & _ & Hj).
    apply (object_path_not_base j). rewrite <- Hj, Hb. by left.
Qed.

Lemma reachable_shows d : reachable d → ∃ G, inv G (d_ctx d) (d_tree d) ∧ ∀ r s, G r s ↔ owed d r s.
Proof. intros Hd. destruct (reachable_inv d Hd) as (G & Hi & Hl). exists G. split; [done|]. intros r s. by apply owed_iff. Qed.

(** when the calls are finished, the tree mirrors the engine *)
Lemma finished_mirror d : daemon_inv d → mirror (ent (c_engine (d_ctx d))) (apply_actions (d_late d).*1 (drained d)).
Proof.
  remember (d_late d) as l eqn:Hl. revert d Hl. induction l as [|[a r] l IH]; intros d Hl Hi.
  - destruct Hi as (G & Hi & Hli). eapply mirror_iff; [|apply (i_mirror _ _ _ Hi)]. intros r s. unfold shows. rewrite (owed_iff G) by done.
    split; [|by left]. intros [?|(P & i & rep & u & Hin & _)]; [done|]. rewrite <- Hl in Hin. by apply elem_of_nil in Hin.
  - pose proof (finish_ok 0 d Hi) as Hi'. cbn in Hi'. rewrite <- Hl in Hi'.
    change (daemon_inv (mkDaemon (send a (d_ctx d)).2 (d_tree d) l)) in Hi'. specialize (IH (mkDaemon _ _ l) eq_refl Hi'). unfold drained in IH.
    cbn [snd d_ctx d_tree d_late c_engine c_queue send] in IH. by rewrite apply_actions_app in IH.
Qed.
(** ** Executions *)

Definition execution (σ : nat → Daemon) (ev : nat → Event) : Prop := ∀ i, σ (S i) = (step (ev i) (σ i)).2.
(** the tree handler gets the tree for writing again and again *)
Definition handles (σ : nat → Daemon) (ev : nat → Event) (j : nat) : Prop := ev j = Process ∧ d_late (σ j) = [].
Definition fair (σ : nat → Daemon) (ev : nat → Event) : Prop := ∀ i, ∃ j, (i ≤ j)%nat ∧ handles σ ev j.

Section execution.
Context (σ : nat → Daemon) (ev : nat → Event).
Hypothesis Hσ : execution σ ev.
Hypothesis Hfair : fair σ ev.
Notation queue i := (c_queue (d_ctx (σ i))).

Lemma wait_process n : ∀ i, handles σ ev (i + n)%nat →
  ∃ j, (i ≤ j)%nat ∧ handles σ ev j ∧ d_tree (σ j) = d_tree (σ i) ∧ queue i `prefix_of` queue j.
Proof.
  induction n as [|n IH]; intros i Hev; [exists i; rewrite Nat.add_0_r in Hev; by split_and!|].
  assert (handles σ ev i ∨ d_tree (σ (S i)) = d_tree (σ i) ∧ queue i `prefix_of` queue (S i)) as [Hp|[Ht Hq]]; [|by exists i; split_and!|].
  { rewrite Hσ. unfold handles. assert (ev i = Process ∨ ev i ≠ Process) as [->|Hp] by (destruct (ev i); auto); [|right; by apply step_grows].
    destruct (d_late (σ i)) eqn:Hl; [by left|]. right. cbn. by rewrite Hl. }
  destruct (IH (S i)) as (j & Hj & Hev' & Ht' & Hq'); [by replace (S i + n)%nat with (i + S n)%nat by lia|].
  exists j. split_and!; [lia|done|congruence|by etrans].
Qed.

Lemma drain_prefix q : ∀ i, q `prefix_of` queue i → ∃ j, (i ≤ j)%nat ∧ d_tree (σ j) = apply_actions q (d_tree (σ i)).
Proof.
  induction q as [|a q IH]; intros i Hq; [by exists i|]. destruct (Hfair i) as (j0 & Hj0 & Hev).
  destruct (wait_process (j0 - i) i) as (j & Hj & [Hp Hl] & Ht & Hq'); [by replace (i + (j0 - i))%nat with j0 by lia|].
  destruct (transitivity Hq Hq') as [rest Hrest]. pose proof (process_eq (σ j) a (q ++ rest) Hl Hrest) as Hstep.
  assert (σ (S j) = (step Process (σ j)).2) as Heq by (by rewrite <- Hp). rewrite Hstep in Heq.
  destruct (IH (S j)) as (k & Hk & Htk); [rewrite Heq; by exists rest|]. exists k. split; [lia|]. rewrite Htk, Heq. cbn [d_tree]. by rewrite Ht.
Qed.

Lemma execution_reachable n : reachable (σ 0%nat) → (∀ i, (i < n)%nat → room (σ i) (σ (S i))) → reachable (σ n).
Proof.
  intros Hstart Hroom. induction n as [|n IH]; [done|]. eapply (reach_step (σ n) (ev n) _ (σ (S n))); [|by rewrite Hσ, <- surjective_pairing|by apply Hroom; lia].
  apply IH. intros i Hi. apply Hroom. lia.
Qed.
End execution.

(** ** [GetManagedObjects] *)

(** what is shown at [path] for [s], of the pool [r] *)
Definition shown (e : Engine_) T (path : Path) (r : option Z) (s : StratisUuid) (ia : InterfacesAdded) : Prop :=
  match r, s with
  | None, UPool u => ∃ n p, e_get_pool e u = Some (n, p) ∧ pool_at T u path ∧ get_pool_properties n u p = Ok ia
  | Some u, UFs f => ∃ n p fn x P, e_get_pool e u = Some (n, p) ∧ p_get_filesystem p f = Some (fn, x) ∧ pool_at T u P ∧ obj T path P s ∧
      ia = get_fs_properties P n fn f x
  | Some u, UDev b => ∃ n p t x P, e_get_pool e u = Some (n, p) ∧ p_get_blockdev p b = Some (t, x) ∧ pool_at T u P ∧ obj T path P s ∧
      ia = get_blockdev_properties P b t x
  | _, _ => False
  end.

Lemma managed_objects_elem T e ops l k v : managed_objects T e ops = Ok l →
  (k, v) ∈ l ↔ ∃ op ia, op ∈ ops ∧ managed_object T e op = Ok (Some ia) ∧ k = DPath (o_name op) ∧ v = interfaces_val ia.
Proof.
  revert l. induction ops as [|op ops IH]; cbn [managed_objects]; intros l.
  - intros [= <-]. rewrite elem_of_nil. split; [done|]. by intros (? & ? & ?%elem_of_nil & _).
  - destruct (managed_object T e op) as [o| |] eqn:Ho; try done. cbn [rbind]. destruct (managed_objects T e ops) as [l'| |]; try done. cbn [rbind].
    specialize (IH l' eq_refl). intros [= <-]. destruct o as [ia|].
    + rewrite elem_of_cons, IH. split.
      * intros [[= -> ->]|(op' & ia' & ? & ?)]; [exists op, ia; split; [by left|done]|exists op', ia'; split; [by right|done]].
      * intros (op' & ia' & [->|Hin]%elem_of_cons & Hop' & -> & ->); [left; congruence|right; eauto 6].
    + rewrite IH. split.
      * intros (op' & ia' & ? & ?). exists op', ia'. split; [by right|done].
      * intros (op' & ia' & [->|Hin]%elem_of_cons & Hop' & -> & ->); [congruence|eauto 6].
Qed.

Lemma managed_objects_nodup T e ops l : managed_objects T e ops = Ok l → NoDup (o_name <$> ops) → NoDup l.*1.
Proof.
  revert l. induction ops as [|op ops IH]; intros l Hl Hnd; [injection Hl as <-; constructor|].
  cbn [managed_objects] in Hl. destruct (managed_object T e op) as [o| |]; try done. cbn [rbind] in Hl.
  destruct (managed_objects T e ops) as [l'| |] eqn:El; try done. cbn [rbind] in Hl. injection Hl as <-. apply NoDup_cons in Hnd as [Hno Hnd].
  destruct o as [ia|]; [|by apply IH]. cbn. apply NoDup_cons. split; [|by apply IH].
  intros ([k v] & Hk & Hin)%list_elem_of_fmap. apply (managed_objects_elem _ _ _ _ _ _ El) in Hin as (op' & ia' & Hin & _ & -> & _).
  cbn in Hk. injection Hk as Hk. apply Hno. rewrite Hk. apply list_elem_of_fmap. eauto.
Qed.

Lemma managed_object_shown G c T path o ia : inv G c T → c_queue c = [] → T !! path = Some o →
  managed_object T (c_engine c) o = Ok (Some ia) ↔ ∃ r s, shown (c_engine c) T path r s ia.
Proof.
  intros Hi Hq Ho. pose proof (drained_wf _ _ _ Hi) as Hwf. rewrite Hq in Hwf. cbn [apply_actions foldl] in Hwf.
  unfold managed_object. split.
  - destruct (o_data o) as [[par s]|] eqn:Hd; [|done]. assert (obj T path par s) as Hobj by (by exists o).
    cbn [op_uuid op_parent]. pose proof (wf_parent _ _ _ Hwf _ _ _ Hobj) as Hp.
    destruct s as [b|f|u].
    + destruct Hp as [u Hp]. pose proof Hp as (o' & -> & Hd'). cbn. rewrite Hd'. cbn. intros [= Hia].
      apply bind_Some in Hia as ([n p] & Hget & Hia). apply bind_Some in Hia as ([t x] & Hx & [= <-]).
      exists (Some u), (UDev b), n, p, t, x, par. done.
    + destruct Hp as [u Hp]. pose proof Hp as (o' & -> & Hd'). cbn. rewrite Hd'. cbn. intros [= Hia].
      apply bind_Some in Hia as ([n p] & Hget & Hia). apply bind_Some in Hia as ([t x] & Hx & [= <-]).
      exists (Some u), (UFs f), n, p, t, x, par. done.
    + destruct (e_get_pool (c_engine c) u) as [[n p]|] eqn:Hget; [|done]. intros Hia. exists None, (UPool u), n, p. subst par.
      split_and!; [done..|]. destruct (get_pool_properties n u p); cbn in Hia; simplify_eq. done.
  - intros (r & s & Hs). destruct r as [u|], s as [b|f|v]; try done.
    + destruct Hs as (n & p & t & x & P & Hget & Hx & (o' & HP & Hd') & (o1 & Ho1 & Hd) & ->). rewrite Ho in Ho1. injection Ho1 as <-.
      rewrite Hd. cbn. rewrite HP. cbn. rewrite Hd'. cbn. rewrite Hget. cbn. by rewrite Hx.
    + destruct Hs as (n & p & t & x & P & Hget & Hx & (o' & HP & Hd') & (o1 & Ho1 & Hd) & ->). rewrite Ho in Ho1. injection Ho1 as <-.
      rewrite Hd. cbn. rewrite HP. cbn. rewrite Hd'. cbn. rewrite Hget. cbn. by rewrite Hx.
    + destruct Hs as (n & p & Hget & (o1 & Ho1 & Hd) & Hia). rewrite Ho in Ho1. injection Ho1 as <-. rewrite Hd. cbn. rewrite Hget. by rewrite Hia.
Qed.

(** everything the engine has is shown at one place *)
Lemma shown_unique G c T r s : inv G c T → c_queue c = [] → ent (c_engine c) r s → ∃ path ia, shown (c_engine c) T path r s ia ∧
  ∀ path' ia', shown (c_engine c) T path' r s ia' → path' = path ∧ ia' = ia.
Proof.
  intros Hi Hq Hent. pose proof (i_mirror _ _ _ Hi) as Hm. rewrite Hq in Hm. cbn [apply_actions foldl] in Hm. destruct r as [u|].
  - destruct (m_child _ _ Hm _ _ (or_introl Hent)) as (Hns & P & path & HP & Hobj). destruct Hent as (n & p & Hget & Hp).
    destruct s as [b|f|v]; [| |done]; destruct Hp as [[m x] Hx]; eexists path, _.
    + split; [by exists n, p, m, x, P|]. intros path' ia' (n' & p' & m' & x' & P' & Hget' & Hx' & HP' & Hobj' & ->).
      pose proof (m_unique _ _ Hm _ _ _ _ _ Hobj Hobj') as <-. destruct (obj_fun _ _ _ _ _ _ Hobj Hobj') as [<- _]. by simplify_eq.
    + split; [by exists n, p, m, x, P|]. intros path' ia' (n' & p' & m' & x' & P' & Hget' & Hx' & HP' & Hobj' & ->).
      pose proof (m_unique _ _ Hm _ _ _ _ _ Hobj Hobj') as <-. destruct (obj_fun _ _ _ _ _ _ Hobj Hobj') as [<- _]. by simplify_eq.
  - destruct (m_pool _ _ Hm _ (or_introl Hent)) as (u & path & -> & HP). destruct Hent as (u' & [= <-] & [[n p] Hget]).
    destruct (engine_pool_inv _ _ _ _ _ (i_engine _ _ _ Hi) Hget) as [Hpi _]. destruct (encryption_law _ _ Hpi) as [_ [b Hb]].
    assert (∃ ia, get_pool_properties n u p = Ok ia) as [ia Hia] by (unfold get_pool_properties, pool_enc_prop; rewrite Hb; cbn; eauto).
    exists path, ia. split; [by exists n, p|]. intros path' ia' (n' & p' & Hget' & HP' & Hia').
    pose proof (m_unique _ _ Hm _ _ _ _ _ HP HP') as <-. split; congruence.
Qed.
Lemma shown_at e T path r s ia : shown e T path r s ia → is_Some (T !! path).
Proof.
  destruct r as [u|], s as [b|f|v]; try done; [intros (? & ? & ? & ? & ? & _ & _ & _ & (o & ? & _) & _)..|intros (? & ? & _ & (o & ? & _) & _)]; eauto.
Qed.
Lemma find_managed_objects T n known : tree_wf n known T →
  find_method T (mkMessage STRATIS_BASE_PATH "org.freedesktop.DBus.ObjectManager" "GetManagedObjects" []) = Some get_managed_objects_method.
Proof.
  intros Hwf. unfold find_method. match goal with |- (T !! msg_path ?m) ≫= _ = _ => assert (T !! msg_path m = Some manager_object) as -> end.
  { apply (wf_base _ _ _ Hwf). }
  by vm_compute.
Qed.

(** ** What the daemon guarantees *)

Lemma tree_mirrors_engine d : reachable d →
  mirror (λ r s, ent (c_engine (d_ctx d)) r s ∨ owed d r s) (drained d) ∧
  mirror (ent (c_engine (d_ctx d))) (apply_actions (d_late d).*1 (drained d)).
Proof.
  intros Hd. split; [|by apply finished_mirror, reachable_inv]. destruct (reachable_shows d Hd) as (G & Hi & Hg).
  eapply mirror_iff; [|apply (i_mirror _ _ _ Hi)]. intros r s. unfold shows. by rewrite Hg.
Qed.

Lemma never_panics : (∀ e w, startable e w → crashed (start e w).1 = false) ∧ ∀ d ev, reachable d → panicked (step ev d).1 = false.
Proof. split; [intros e w Hs; by apply start_ok|]. intros d ev Hd. by apply step_ok, reachable_inv. Qed.

Lemma eventually_shown σ ev i : reachable (σ 0%nat) → execution σ ev → fair σ ev → (∀ k, (k < i)%nat → room (σ k) (σ (S k))) →
  ∃ j, (i ≤ j)%nat ∧ mirror (λ r s, ent (c_engine (d_ctx (σ i))) r s ∨ owed (σ i) r s) (d_tree (σ j)).
Proof.
  intros Hstart Hσ Hfair Hroom. destruct (drain_prefix σ ev Hσ Hfair (c_queue (d_ctx (σ i))) i) as (j & Hj & Ht); [done|].
  exists j. split; [done|]. rewrite Ht. apply (tree_mirrors_engine (σ i)), (execution_reachable σ ev Hσ i Hstart Hroom).
Qed.

Lemma managed_objects_exact d : reachable d → c_queue (d_ctx d) = [] → ∃ l,
  handle (d_tree d) (mkMessage STRATIS_BASE_PATH "org.freedesktop.DBus.ObjectManager" "GetManagedObjects" []) (d_ctx d)
    = (Val (append1 (DDict l)), d_ctx d) ∧
  NoDup l.*1 ∧
  (∀ k v, (k, v) ∈ l ↔ ∃ path r s ia, shown (c_engine (d_ctx d)) (d_tree d) path r s ia ∧ k = DPath path ∧ v = interfaces_val ia) ∧
  (∀ r s, ent (c_engine (d_ctx d)) r s → ∃ path ia, shown (c_engine (d_ctx d)) (d_tree d) path r s ia ∧
     ∀ path' ia', shown (c_engine (d_ctx d)) (d_tree d) path' r s ia' → path' = path ∧ ia' = ia).
Proof.
  intros Hd Hq. destruct (reachable_shows d Hd) as (G & Hi & _). pose proof (proj1 (all_trees_head _ _ _ (i_trees _ _ _ Hi))) as Hwf.
  unfold handle. rewrite (find_managed_objects _ _ _ Hwf). cbn [m_handler get_managed_objects_method handler_fn].
  destruct (managed_objects_ok _ _ _ Hi) as [l El].
  exists l. split; [by unfold get_managed_objects, mbind, meth_bind, the_engine, checked; rewrite El|].
  split; [|split; [|intros r s; by eapply shown_unique]].
  - eapply managed_objects_nodup; [done|]. rewrite <- list_fmap_compose. replace ((o_name ∘ snd) <$> map_to_list (d_tree d)) with (map_to_list (d_tree d)).*1;
      [apply NoDup_fst_map_to_list|]. apply list_fmap_ext. intros i [path o] Hin%list_elem_of_lookup_2%elem_of_map_to_list. cbn. by rewrite (wf_name _ _ _ Hwf _ _ Hin).
  - intros k v. rewrite (managed_objects_elem _ _ _ _ _ _ El). split.
    + intros (o & ia & ([path o'] & -> & Hin%elem_of_map_to_list)%list_elem_of_fmap & Ho & -> & ->). cbn [snd] in *.
      apply (managed_object_shown _ _ _ _ _ _ Hi Hq Hin) in Ho as (r & s & Hs). exists path, r, s, ia.
      split; [done|]. by rewrite (wf_name _ _ _ Hwf _ _ Hin).
    + intros (path & r & s & ia & Hs & -> & ->). destruct (shown_at _ _ _ _ _ _ Hs) as [o Ho]. exists o, ia.
      rewrite (wf_name _ _ _ Hwf _ _ Ho). split_and!; [|apply (managed_object_shown _ _ _ _ _ _ Hi Hq Ho); eauto|done..].
      apply list_elem_of_fmap. exists (path, o). split; [done|]. by apply elem_of_map_to_list.
Qed.
End daemon.
