(* ===== verification/SimApi.v ===== *)
(** * The simulator behind the D-Bus

    [SimEngine] implements the traits of [src/engine/engine.rs]: the methods of [sim_engine/] as an instance of [Traits], and the
    proof that they keep what the D-Bus relies on ([EngineLaws]).  What the methods of the traits read from the simulator besides
    its operations ([sim_engine/pool.rs], [blockdev.rs], [filesystem.rs], [engine.rs]) is defined here. *)
From stdpp Require Import base list gmap sets strings pretty.
From Stdlib Require Import ZArith Lia.
From S2P Require Import Prelude External Json Table Actions Shared Sizes DeviceSet Identify SimEngine SimInvariant EngineApi.

(** ** Reading the simulator *)

(** [PathBuf::push]: an absolute path replaces what is there *)
Definition path_push (p q : Str) : Str := if is_absolute q then q else p ++ str "/" ++ q.

Definition sim_devnode (self : SimFilesystem) : Str := path_push (str "/stratis") (str "random-" ++ str (pretty (fs_rand self))).
Definition sim_path_to_mount (self : SimFilesystem) (pool_name fs_name : Str) : Str :=
  path_push (path_push (str "/somepath") pool_name) fs_name.
Definition sim_used (self : SimFilesystem) : res Z := Ok 12345678.
(** [Bytes::from(IEC::Gi).sectors()] *)
Definition sim_dev_size (self : SimDev) : Z := IEC_Gi / SECTOR_SIZE.
(** [Sectors(IEC::Ei)] *)
Definition sim_total_physical_size (self : SimPool) : Z := 1024 * 1024 * IEC_Ti.
Definition sim_total_physical_used (self : SimPool) : res Z := Ok 0.

Definition sim_blockdevs (self : SimPool) : list (Z * BlockDevTier * SimDev) :=
  ((λ x : Z * SimDev, (x.1, Data, x.2)) <$> map_to_list (block_devs self)) ++
  ((λ x : Z * SimDev, (x.1, Cache, x.2)) <$> map_to_list (cache_devs self)).
Definition sim_get_blockdev (self : SimPool) (uuid : Z) : option (BlockDevTier * SimDev) :=
  match block_devs self !! uuid with
  | Some bd => Some (Data, bd)
  | None => pair Cache <$> cache_devs self !! uuid
  end.

Definition sim_get_mut_pool (self : SimEngine) (uuid : Z) : option (Str * SimPool * (SimPool → SimEngine)) :=
  (λ '(n, pool, put), (n, pool, λ p, SE.with_pools self (put p))) <$> Tbl.get_mut_by_uuid (pools self) uuid.
Definition sim_pools_mut (self : SimEngine) : list (Str * Z * SimPool * (SimPool → SimEngine)) :=
  (λ x : Str * Z * SimPool, (x, λ p, SE.with_pools self (mkTable (name_to_uuid (pools self)) (<[x.1.2 := (x.1.1, p)]> (items (pools self))))))
    <$> Tbl.iter (pools self).

(** ** Reports

    [uuid_text] is [Display] of a [Uuid].  [Map::extend] inserts the entries of another map. *)
Section report.
Context (uuid_text : Z → Str).

Definition text_field (key : string) (value : Str) : Str * Value := (str key, VString value).
Definition SimDev_fields (self : SimDev) : list (Str * Value) :=
  [text_field "path" (devnode self)] ++
  match key_description (encryption_info self) with Some kd => [text_field "key_description" kd] | None => [] end ++
  match clevis_info (encryption_info self) with
  | Some (pin, config) => [text_field "clevis_pin" pin; (str "clevis_config", config)]
  | None => []
  end.
Definition dev_value (x : Z * SimDev) : Value := object (text_field "uuid" (uuid_text x.1) :: SimDev_fields x.2).
Definition SimPool_fields (self : SimPool) : list (Str * Value) :=
  [(str "filesystems",
    Array ((λ '(name, uuid, _), object [text_field "name" name; text_field "uuid" (uuid_text uuid)]) <$> Tbl.iter (filesystems self)));
   (str "blockdevs",
    object [(str "datadevs", Array (dev_value <$> map_to_list (block_devs self)));
            (str "cachedevs", Array (dev_value <$> map_to_list (cache_devs self)))])].
Definition no_errors : list (Str * Value) := [(str "errored_pools", Array []); (str "hopeless_devices", Array [])].
Definition sim_engine_state_report (self : SimEngine) : Value :=
  object ((str "pools",
    Array ((λ '(name, uuid, pool), object ([text_field "pool_uuid" (uuid_text uuid); text_field "name" name] ++ SimPool_fields pool))
      <$> Tbl.iter (pools self))) :: no_errors).
Definition sim_get_report (self : SimEngine) (report_type : ReportType) : Value :=
  match report_type with ErroredPoolDevices => object no_errors end.

(** The report tells the UUIDs and names of all pools, and of the filesystems of each. *)
Lemma sim_report_pools e : ∃ l, Value_get (str "pools") (sim_engine_state_report e) = Some (Array l) ∧
  (λ v, (Value_get (str "pool_uuid") v, Value_get (str "name") v)) <$> l =
    (λ x, (Some (VString (uuid_text x.1.2)), Some (VString x.1.1))) <$> Tbl.iter (pools e) ∧
  Forall2 (λ v x, ∃ fss, Value_get (str "filesystems") v = Some (Array fss) ∧
    Value_get (str "name") <$> fss = (λ y, Some (VString y.1.1)) <$> Tbl.iter (filesystems x.2)) l (Tbl.iter (pools e)).
Proof.
  eexists. split; [reflexivity|]. split.
  - rewrite <- list_fmap_compose. apply list_fmap_ext. by intros i [[n u] p] _.
  - apply Forall2_fmap_l, Forall_Forall2_diag, Forall_true. intros [[n u] p]. eexists. split; [reflexivity|].
    rewrite <- list_fmap_compose. apply list_fmap_ext. by intros i [[m v] f] _.
Qed.
End report.

(** ** The instance

    The random generator, the clock and the file descriptors are given; the state of the rest of the system is how many values were used. *)
Section sim.
Context (uuids rands nows : nat → Z) (fds : Z → res (list Z) * res Z) (rfc3339 uuid_text : Z → Str).

Definition W (n : nat) : World := mkWorld uuids rands nows n.
Definition on_sim {S A} (op : S → World → res A * S * World) : st (S * nat) A := λ '(s, n),
  let '(r, s', w) := op s (W n) in (r, (s', w_next w)).

#[local] Instance SimTraits : Traits := {|
  World_ := nat; Engine_ := SimEngine; Pool_ := SimPool; Filesystem_ := SimFilesystem; BlockDev_ := SimDev;
  fs_devnode := sim_devnode;
  fs_created f := rfc3339 (SimEngine.fs_created f);
  fs_path_to_mount := sim_path_to_mount;
  fs_used f := λ n, (sim_used f, n);
  bd_devnode := devnode;
  bd_metadata_path := devnode;
  bd_user_info := user_info;
  bd_hardware_info := hardware_info;
  bd_initialization_time := initialization_time;
  bd_size := sim_dev_size;
  bd_is_encrypted d := EncryptionInfo_is_encrypted (encryption_info d);
  p_init_cache _ _ blockdevs := on_sim (λ p, SP.init_cache p blockdevs);
  p_create_filesystems _ _ specs := on_sim (λ p, SP.create_filesystems p specs);
  p_add_blockdevs _ _ paths tier := on_sim (λ p, SP.add_blockdevs p paths tier);
  p_bind_clevis pin info := on_sim (λ p, SP.bind_clevis p pin info);
  p_unbind_clevis := on_sim SP.unbind_clevis;
  p_bind_keyring kd := on_sim (λ p, SP.bind_keyring p kd);
  p_unbind_keyring := on_sim SP.unbind_keyring;
  p_rebind_keyring kd := on_sim (λ p, SP.rebind_keyring p kd);
  p_rebind_clevis := on_sim SP.rebind_clevis;
  p_destroy_filesystems _ us := on_sim (λ p, SP.destroy_filesystems p us);
  p_rename_filesystem _ u n := on_sim (λ p, SP.rename_filesystem p u n);
  p_snapshot_filesystem _ _ o n := on_sim (λ p, SP.snapshot_filesystem p o n);
  p_total_physical_size := sim_total_physical_size;
  p_total_physical_used p := λ n, (sim_total_physical_used p, n);
  p_filesystems p := Tbl.iter (filesystems p);
  p_get_filesystem p u := Tbl.get_by_uuid (filesystems p) u;
  p_get_filesystem_by_name p n := Tbl.get_by_name (filesystems p) n;
  p_blockdevs := sim_blockdevs;
  p_get_blockdev := sim_get_blockdev;
  p_set_blockdev_user_info _ u i := on_sim (λ p, SP.set_blockdev_user_info p u i);
  p_has_cache := SP.has_cache;
  p_is_encrypted := SP.is_encrypted;
  p_encryption_info := SP.pool_encryption_info;
  e_create_pool n l r i := on_sim (λ e, SE.create_pool e n l r i);
  e_handle_event _ := λ s, (Ok None, s);
  e_destroy_pool u := on_sim (λ e, SE.destroy_pool e u);
  e_rename_pool u n := on_sim (λ e, SE.rename_pool e u n);
  e_unlock_pool _ _ := λ s, (Ok (mkSetUnlock []), s);
  e_get_pool e u := Tbl.get_by_uuid (pools e) u;
  e_get_mut_pool := sim_get_mut_pool;
  e_locked_pools _ := ∅;
  e_pools e := Tbl.iter (pools e);
  e_pools_mut := sim_pools_mut;
  e_evented := λ s, (Ok tt, s);
  e_engine_state_report := sim_engine_state_report uuid_text;
  e_get_report := sim_get_report;
  k_set kd fd := λ '(e, n), let '(r, k) := Keys.set (key_handler e) kd (fds fd).1 (fds fd).2 in (r, (mkEngine (pools e) k, n));
  k_list := λ '(e, n), (Keys.list_ (key_handler e), (e, n));
  k_unset kd := λ '(e, n), let '(r, k) := Keys.unset (key_handler e) kd in (r, (mkEngine (pools e) k, n))
|}.

#[local] Instance SimInv : EngineInv := {|
  seen n u := used (W n) u;
  pool_inv n p := pool_ok (W n) p ∧ block_devs p ##ₘ cache_devs p;
  engine_inv n e := engine_ok e (W n) ∧ ∀ u m p, entry (pools e) m u p → block_devs p ##ₘ cache_devs p
|}.

(** ** What the D-Bus relies on *)

Hypothesis uuids_inj : ∀ i j, uuids i = uuids j → i = j.
(** reading and polling do not panic, and no more is read than the buffer holds *)
Hypothesis fds_ok : ∀ fd, command_ok (SetKey [] (fds fd).1 (fds fd).2).

Lemma W_supply n : supply_ok (W n).
Proof. intros i j. apply uuids_inj. Qed.
Lemma pool_ok_mono w w' p : (∀ u, used w u → used w' u) → pool_ok w p → pool_ok w' p.
Proof.
  intros Hm [? Hf ? Hd ? ? ?]. split; try done.
  - intros n u i He. destruct (Hf n u i He). auto.
  - intros u d Hu. destruct (Hd u d Hu). auto.
Qed.
Lemma used_W n w' u : SimInvariant.later (W n) w' → used w' u ↔ used (W (w_next w')) u.
Proof. intros [Hw _]. unfold used. by rewrite Hw. Qed.
Lemma pool_ok_W n w' p : SimInvariant.later (W n) w' → pool_ok w' p → pool_ok (W (w_next w')) p.
Proof. intros Hl. apply pool_ok_mono. intros u. by apply used_W with n. Qed.
Lemma later_W n w' : SimInvariant.later (W n) w' → later n (w_next w').
Proof. intros Hl u Hu. apply (used_W _ _ _ Hl). by eapply used_later. Qed.

Lemma sim_get_blockdev_some p u : is_Some (sim_get_blockdev p u) ↔ is_Some (block_devs p !! u) ∨ is_Some (cache_devs p !! u).
Proof. unfold sim_get_blockdev. destruct (block_devs p !! u) as [d|]; [by naive_solver|]. rewrite fmap_is_Some. naive_solver. Qed.

(** *** Methods of a pool *)

(** what a call that succeeds does to the things of the pool *)
Definition effect {A} (w : World) (p : SimPool) (a : A) (p' : SimPool) (added removed : A → list StratisUuid) : Prop :=
  block_devs p' ##ₘ cache_devs p' ∧ NoDup (added a) ∧ (∀ s, s ∈ added a → ¬ used w (raw_uuid s)) ∧ (∀ s, s ∈ removed a → pent p s) ∧
  ∀ s, pent p' s ↔ (pent p s ∧ s ∉ removed a) ∨ s ∈ added a.

Lemma sim_pool_call {A} cmd (op : SimPool → World → SP.outcome A) (f : A → bool) added removed :
  (∀ p w, exec_pool cmd p w = let '(r, p', w') := op p w in (rmap f r, p', w')) →
  (∀ p w a p' w', supply_ok w → pool_ok w p → block_devs p ##ₘ cache_devs p → op p w = (Ok a, p', w') → effect w p a p' added removed) →
  pool_call (on_sim op) added removed.
Proof.
  intros Hcmd Heff p n [Hp Hd]. pose proof (exec_pool_ok cmd p (W n) (W_supply n) Hp) as Hstep. unfold pool_step_ok in Hstep. rewrite Hcmd in Hstep.
  unfold on_sim. destruct (op p (W n)) as [[[a|e|y] p'] w'] eqn:E; cbn in Hstep; destruct Hstep as (Hp' & Hl & Hst & _).
  - destruct (Heff p (W n) a p' w' (W_supply n) Hp Hd E) as (Hd' & Hnd & Hnew & Hold & Hs). split_and!; try done; [split; [by eapply pool_ok_W|done]|by apply later_W].
  - subst p'. split_and!; try done; [split; [by eapply pool_ok_W|done]|by apply later_W].
  - done.
Qed.

(** the same filesystems and devices, up to what is kept of them *)
Definition same_ents (p p' : SimPool) : Prop :=
  (∀ u, is_Some (items (filesystems p') !! u) ↔ is_Some (items (filesystems p) !! u)) ∧
  (∀ u, is_Some (block_devs p' !! u) ↔ is_Some (block_devs p !! u)) ∧ (∀ u, is_Some (cache_devs p' !! u) ↔ is_Some (cache_devs p !! u)).
Lemma same_ents_effect {A} w p (a : A) p' : block_devs p ##ₘ cache_devs p → same_ents p p' → effect w p a p' (λ _, []) (λ _, []).
Proof.
  intros Hd (Hf & Hb & Hc). split_and!; [|constructor|by intros s ?%elem_of_nil..|].
  - apply map_disjoint_spec. intros u d d' Hu Hu'. assert (is_Some (block_devs p !! u)) as [? ?] by (apply Hb; eauto).
    assert (is_Some (cache_devs p !! u)) as [? ?] by (apply Hc; eauto). by eapply map_disjoint_spec.
  - intros s. assert (pent p' s ↔ pent p s) as ->; [|set_solver]. destruct s as [b|f|u]; cbn; [|apply Hf|done].
    rewrite !sim_get_blockdev_some. by rewrite Hb, Hc.
Qed.
Lemma same_ents_refl p : same_ents p p.
Proof. done. Qed.
Lemma same_ents_fmap p f : same_ents p (SP.with_block_devs p (f <$> block_devs p)).
Proof. split_and!; [done| |done]. intros u. cbn. by rewrite lookup_fmap, fmap_is_Some. Qed.

Ltac enc_shape := unfold SP.ptry in *; repeat (case_match; try done); simplify_eq; first [apply same_ents_refl|apply same_ents_fmap].
Lemma bind_clevis_shape p pin c w a p' w' : SP.bind_clevis p pin c w = (Ok a, p', w') → same_ents p p'.
Proof. unfold SP.bind_clevis. intros. enc_shape. Qed.
Lemma unbind_clevis_shape p w a p' w' : SP.unbind_clevis p w = (Ok a, p', w') → same_ents p p'.
Proof. unfold SP.unbind_clevis. intros. enc_shape. Qed.
Lemma bind_keyring_shape p k w a p' w' : SP.bind_keyring p k w = (Ok a, p', w') → same_ents p p'.
Proof. unfold SP.bind_keyring. intros. enc_shape. Qed.
Lemma unbind_keyring_shape p w a p' w' : SP.unbind_keyring p w = (Ok a, p', w') → same_ents p p'.
Proof. unfold SP.unbind_keyring. intros. enc_shape. Qed.
Lemma rebind_keyring_shape p k w a p' w' : SP.rebind_keyring p k w = (Ok a, p', w') → same_ents p p'.
Proof. unfold SP.rebind_keyring. intros. enc_shape. Qed.
Lemma rebind_clevis_shape p w a p' w' : SP.rebind_clevis p w = (Ok a, p', w') → same_ents p p'.
Proof. unfold SP.rebind_clevis. intros. enc_shape. Qed.
Lemma insert_is_some {A} (m : gmap Z A) u x y v : m !! u = Some x → is_Some (<[u := y]> m !! v) ↔ is_Some (m !! v).
Proof.
  intros Hu. destruct (decide (v = u)) as [->|Hne]; [rewrite lookup_insert_eq, Hu; split; eauto|]. by rewrite lookup_insert_ne.
Qed.
Lemma user_info_shape p u i w a p' w' : SP.set_blockdev_user_info p u i w = (Ok a, p', w') → same_ents p p'.
Proof.
  unfold SP.set_blockdev_user_info. destruct (block_devs p !! u) as [d|] eqn:Eb; [|destruct (cache_devs p !! u) as [d|] eqn:Ec].
  - destruct (SD.set_user_info d i) as [b d']. intros [= <- <- <-]. split_and!; [done| |done]. intros v. by eapply insert_is_some.
  - destruct (SD.set_user_info d i) as [b d']. intros [= <- <- <-]. split_and!; [done..|]. intros v. by eapply insert_is_some.
  - intros [= <- <- <-]. apply same_ents_refl.
Qed.
Lemma rename_filesystem_shape p u n w a p' w' : pool_ok w p → SP.rename_filesystem p u n w = (Ok a, p', w') → same_ents p p'.
Proof.
  intros Hp. unfold SP.rename_filesystem, rename_pre_idem, Tbl.get_by_uuid. destruct (validate_name n); cbn [SP.ptry]; try done.
  destruct (items (filesystems p) !! u) as [[old i]|] eqn:Eu; [|intros [= <- <- <-]; apply same_ents_refl].
  case_bool_decide; [intros [= <- <- <-]; apply same_ents_refl|]. destruct (Tbl.contains_name (filesystems p) n) eqn:Ec; [done|].
  destruct (rename_ok (filesystems p) old n u i (po_fs _ _ Hp) Eu Ec) as (t1 & t' & -> & Ei & _ & He & Eu'). rewrite Ei. cbn [SP.ptry].
  intros [= <- <- <-]. split_and!; [|done..]. intros v. cbn. destruct (decide (v = u)) as [->|Hne]; [rewrite Eu, Eu'; split; eauto|].
  split; intros [[m x] Hv].
  - apply He in Hv as [?|[? _]]; [naive_solver|eauto].
  - exists (m, x). apply He. by right.
Qed.

(** *** Filesystems *)

Lemma fs_effect {A} w p (a : A) t added removed : block_devs p ##ₘ cache_devs p → NoDup (added a) → (∀ u, u ∈ added a → ¬ used w u) →
  (∀ u, u ∈ removed a → is_Some (items (filesystems p) !! u)) →
  (∀ u, is_Some (items t !! u) ↔ (is_Some (items (filesystems p) !! u) ∧ u ∉ removed a) ∨ u ∈ added a) →
  effect w p a (SP.with_filesystems p t) (λ a, UFs <$> added a) (λ a, UFs <$> removed a).
Proof.
  intros Hd Hnd Hnew Hold Ht. split_and!; [done|apply NoDup_fmap_2; [by intros ? ? [=]|done]| | |].
  - intros s (u & -> & Hu)%list_elem_of_fmap. by apply Hnew.
  - intros s (u & -> & Hu)%list_elem_of_fmap. by apply Hold.
  - intros s. rewrite !list_elem_of_fmap. destruct s as [b|f|u]; cbn; unfold Tbl.get_by_uuid; cbn; [|rewrite Ht; naive_solver|naive_solver].
    rewrite !sim_get_blockdev_some. cbn. naive_solver.
Qed.

Lemma create_loop_effect names : ∀ fs w l fs' w', supply_ok w → table_ok fs → (∀ n u i, entry fs n u i → used w u) →
  SP.create_loop names fs w = (Ok l, fs', w') → NoDup l.*2 ∧ (∀ u, u ∈ l.*2 → ¬ used w u) ∧
  ∀ u, is_Some (items fs' !! u) ↔ is_Some (items fs !! u) ∨ u ∈ l.*2.
Proof.
  induction names as [|n names IH]; intros fs w l fs' w' Hs Ht Hu; cbn [SP.create_loop].
  - intros [= <- <- <-]. split_and!; [constructor|by intros u ?%elem_of_nil|]. intros u. rewrite elem_of_nil. tauto.
  - destruct (Tbl.contains_name fs n) eqn:Ec; cbn [negb]; [by apply IH|]. destruct (new_v4_ok w Hs) as (L1 & Hf & Hused). cbn in *.
    destruct (insert_fresh fs n (w_uuid w (w_next w)) (SimFilesystem_new (w_tick w)) Ht Ec) as (fs1 & -> & Ht1 & He1).
    { intros n' i' He. by apply Hf, (Hu _ _ _ He). }
    destruct (SP.create_loop names fs1 (w_tick w)) as [[[l1|e|y] fs2] w2] eqn:E; cbn; intros [=]; subst.
    destruct (IH fs1 (w_tick w) l1 fs' w') as (Hnd & Hnew & Hiff); [by eapply supply_later|done| |done|].
    { intros n' u' i' [[= -> -> ->]|He]%He1; [done|]. by eapply used_later, Hu. }
    set (v := w_uuid w (w_next w)) in *. assert (∀ u, is_Some (items fs1 !! u) ↔ u = v ∨ is_Some (items fs !! u)) as Hfs1.
    { intros u. split; [intros [[m x] [[= -> -> ->]|?]%He1]; eauto|]. intros [-> |[[m x] ?]]; eexists (_, _); apply He1; eauto. }
    split_and!.
    + cbn. apply NoDup_cons. split; [|done]. intros Hv. by eapply Hnew.
    + cbn. intros u [->|Hin]%elem_of_cons; [done|]. intros Hw. apply (Hnew u Hin). by eapply used_later.
    + intros u. rewrite Hiff, Hfs1. cbn. rewrite elem_of_cons. tauto.
Qed.

Lemma destroy_loop_effect us : ∀ fs, table_ok fs → let '(removed, fs') := SP.destroy_loop us fs in
  NoDup removed ∧ (∀ u, u ∈ removed → u ∈ us ∧ is_Some (items fs !! u)) ∧
  ∀ u, is_Some (items fs' !! u) ↔ is_Some (items fs !! u) ∧ u ∉ removed.
Proof.
  induction us as [|u us IH]; intros fs Ht; cbn [SP.destroy_loop].
  - split_and!; [constructor|by intros u ?%elem_of_nil|]. intros u. rewrite elem_of_nil. tauto.
  - pose proof (remove_by_uuid_ok fs u Ht) as Hr. destruct (Tbl.remove_by_uuid fs u) as [r fs1]. destruct Hr as (Ht1 & -> & He1).
    specialize (IH fs1 Ht1). destruct (SP.destroy_loop us fs1) as [removed fs']. destruct IH as (Hnd & Hold & Hiff).
    assert (∀ v, is_Some (items fs1 !! v) ↔ is_Some (items fs !! v) ∧ v ≠ u) as Hfs1.
    { intros v. split; [intros [[m x] [? ?]%He1]; eauto|]. intros [[[m x] ?] ?]. exists (m, x). by apply He1. }
    unfold Tbl.get_by_uuid. destruct (items fs !! u) as [y|] eqn:Eu.
    + split_and!.
      * apply NoDup_cons. split; [|done]. intros Hv. apply Hold in Hv as [_ Hv]. by apply Hfs1 in Hv as [_ ?].
      * intros v [->|Hv]%elem_of_cons; [split; [by left|by eexists]|]. apply Hold in Hv as [? [? _]%Hfs1]. split; [by right|done].
      * intros v. rewrite Hiff, Hfs1, not_elem_of_cons. tauto.
    + split_and!; [done| |].
      * intros v Hv. apply Hold in Hv as [? [? _]%Hfs1]. split; [by right|done].
      * intros v. rewrite Hiff, Hfs1. split; [tauto|]. intros [Hs Hv]. split; [|done]. split; [done|]. intros ->. rewrite Eu in Hs. by destruct Hs.
Qed.

Lemma create_filesystems_effect specs p w a p' w' : supply_ok w → pool_ok w p → block_devs p ##ₘ cache_devs p →
  SP.create_filesystems p specs w = (Ok a, p', w') → effect w p a p' (λ a, UFs <$> (sc_changed a).*2) (λ _, []).
Proof.
  intros Hs Hp Hd. unfold SP.create_filesystems. destruct (SP.validate_names _); cbn [SP.ptry]; try done.
  destruct (SP.create_loop _ _ _) as [[[l|e|y] fs'] w1] eqn:E; cbn; intros [=]; subst.
  destruct (create_loop_effect _ _ _ _ _ _ Hs (po_fs _ _ Hp) (λ n u i He, proj1 (po_fs_used _ _ Hp n u i He)) E) as (Hnd & Hnew & Hiff).
  apply (fs_effect w p (mkSetCreate l) fs' (λ a, (sc_changed a).*2) (λ _, [])); [done..| |]; [by intros u ?%elem_of_nil|].
  intros u. rewrite Hiff, elem_of_nil. tauto.
Qed.
Lemma destroy_filesystems_effect us p w a p' w' : supply_ok w → pool_ok w p → block_devs p ##ₘ cache_devs p →
  SP.destroy_filesystems p us w = (Ok a, p', w') → effect w p a p' (λ _, []) (λ a, UFs <$> sd_changed a).
Proof.
  intros Hs Hp Hd. unfold SP.destroy_filesystems. pose proof (destroy_loop_effect us (filesystems p) (po_fs _ _ Hp)) as He.
  destruct (SP.destroy_loop us (filesystems p)) as [removed fs']. destruct He as (Hnd & Hold & Hiff). intros [= <- <- <-].
  apply (fs_effect w p (mkSetDelete removed) fs' (λ _, []) sd_changed); [done|constructor|by intros u ?%elem_of_nil|intros u Hu; by apply Hold|].
  intros u. rewrite Hiff, elem_of_nil. tauto.
Qed.
Lemma snapshot_effect o n p w a p' w' : supply_ok w → pool_ok w p → block_devs p ##ₘ cache_devs p →
  SP.snapshot_filesystem p o n w = (Ok a, p', w') →
  effect w p a p' (λ a, match a with CACreated (u, _) => [UFs u] | CAIdentity => [] end) (λ _, []).
Proof.
  intros Hs Hp Hd. unfold SP.snapshot_filesystem. destruct (validate_name n); cbn [SP.ptry]; try done.
  destruct (Tbl.contains_name (filesystems p) n) eqn:Ec; [intros [= <- <- <-]; by apply same_ents_effect|]. destruct (new_v4_ok w Hs) as (L1 & Hf & Hused). cbn in *.
  destruct (Tbl.get_by_uuid (filesystems p) o); [|done]. set (v := w_uuid w (w_next w)) in *.
  destruct (insert_fresh (filesystems p) n v (SimFilesystem_new (w_tick w)) (po_fs _ _ Hp) Ec) as (fs1 & -> & Ht1 & He1).
  { intros n' i' He. apply Hf. by apply (po_fs_used _ _ Hp n' v i'). }
  assert (entry fs1 n v (SimFilesystem_new (w_tick w))) as Hv by (apply He1; by left). cbn. unfold Tbl.get_by_uuid. unfold entry in Hv. rewrite Hv.
  cbn. intros [= <- <- <-].
  apply (fs_effect w p (CACreated (v, SimFilesystem_new (w_tick w))) fs1 (λ _, [v]) (λ _, []) Hd); [apply NoDup_singleton|by intros u ->%list_elem_of_singleton|by intros u ?%elem_of_nil|].
  intros u. rewrite list_elem_of_singleton, elem_of_nil. split; [intros [[m x] [[= -> -> ->]|?]%He1]; eauto|].
  intros [[[[m x] ?] _]| ->]; eexists (_, _); apply He1; eauto.
Qed.

(** *** Block devices *)

Lemma dev_effect w p tier pairs : pool_ok w p → block_devs p ##ₘ cache_devs p → NoDup pairs.*1 → (∀ u d, (u, d) ∈ pairs → ¬ used w u) →
  effect w p (mkSetCreate pairs.*1) (with_tier p tier (SP.extend (tier_devs p tier) pairs)) (λ a, UDev <$> sc_changed a) (λ _, []).
Proof.
  intros Hp Hd Hnd Hnew. assert (∀ u, used w u → ∀ d, (u, d) ∉ pairs) as Hno by (intros u Hu d Hin; by apply (Hnew u d)).
  assert (∀ u d, block_devs p !! u = Some d ∨ cache_devs p !! u = Some d → used w u) as Huse by (intros u d Hu; by apply (po_dev_used _ _ Hp u d)).
  assert (∀ u d, SP.extend (tier_devs p tier) pairs !! u = Some d ↔ tier_devs p tier !! u = Some d ∨ (u, d) ∈ pairs) as Hext.
  { intros u d. apply extend_lookup; [done|]. intros v d' Hin. destruct (tier_devs p tier !! v) as [x|] eqn:Ex; [|done]. exfalso.
    apply (Hnew v d' Hin). apply (Huse v x). destruct tier; cbn in Ex; auto. }
  assert (∀ u, is_Some (SP.extend (tier_devs p tier) pairs !! u) ↔ is_Some (tier_devs p tier !! u) ∨ u ∈ pairs.*1) as Hsome.
  { intros u. rewrite list_elem_of_fmap. split.
    - intros [d [Hu|Hin]%Hext]; [left; eauto|right; by exists (u, d)].
    - intros [[d Hu]|([v d] & -> & Hin)]; exists d; apply Hext; auto. }
  split_and!; [|apply NoDup_fmap_2; [by intros ? ? [=]|done]| |by intros s ?%elem_of_nil|].
  - apply map_disjoint_spec. intros u d d' H1 H2. destruct tier; cbn in *.
    + apply Hext in H1 as [H1|H1]; [by eapply map_disjoint_spec|]. by eapply Hno, H1; eauto.
    + apply Hext in H2 as [H2|H2]; [by eapply map_disjoint_spec|]. by eapply Hno, H2; eauto.
  - intros s (u & -> & ([v d] & -> & Hin)%list_elem_of_fmap)%list_elem_of_fmap. by eapply Hnew.
  - intros s. assert (∀ l, s ∈ UDev <$> l ↔ match s with UDev b => b ∈ l | _ => False end) as ->.
    { intros l. rewrite list_elem_of_fmap. destruct s as [b|f|u]; [|by split; [intros (? & ? & _)|]..].
      split; [by intros (? & [= ->] & ?)|]. intros Hb. by exists b. }
    rewrite elem_of_nil. destruct s as [b|f|u]; cbn [pent p_get_blockdev p_get_filesystem SimTraits sc_changed]; [|destruct tier; cbn; tauto|tauto].
    rewrite !sim_get_blockdev_some. destruct tier; cbn in *; rewrite Hsome; tauto.
Qed.

Lemma init_cache_effect l p w a p' w' : supply_ok w → pool_ok w p → block_devs p ##ₘ cache_devs p →
  SP.init_cache p l w = (Ok a, p', w') → effect w p a p' (λ a, UDev <$> sc_changed a) (λ _, []).
Proof.
  intros Hs Hp Hd. unfold SP.init_cache. destruct (validate_paths l); cbn [SP.ptry]; try done. destruct (SP.is_encrypted p) as [[]| |]; cbn [SP.ptry]; try done.
  destruct (SP.has_cache p); cbn [negb].
  - destruct (init_cache_idem_cases l ((λ '(_, bd), devnode bd) <$> map_to_list (cache_devs p))) as [[-> _]|[[e ->] _]]; [|done].
    intros [= <- <- <-]. by apply (same_ents_effect w p (mkSetCreate ([] : list Z)) p).
  - destruct l as [|x l]; [done|]. pose proof (new_devs_ok (x :: l) EncryptionInfo_default w Hs) as Hn.
    destruct (SP.new_devs (x :: l) EncryptionInfo_default w) as [pairs w1]. destruct Hn as (_ & _ & Hnd & Hnew). intros [= <- <- <-].
    apply (dev_effect w p Cache pairs); [done..|]. intros u d Hin. by apply (Hnew u d).
Qed.

Lemma add_blockdevs_effect l t p w a p' w' : supply_ok w → pool_ok w p → block_devs p ##ₘ cache_devs p →
  SP.add_blockdevs p l t w = (Ok a, p', w') → effect w p a p' (λ a, UDev <$> sc_changed a) (λ _, []).
Proof.
  intros Hs Hp Hd Hadd. destruct (validate_paths l) as [[]| |] eqn:Ev; [|by unfold SP.add_blockdevs in Hadd; rewrite Ev in Hadd..].
  assert (t = Cache → SP.has_cache p = true) as Hc.
  { intros ->. destruct (SP.has_cache p) eqn:Ec; [done|]. unfold SP.add_blockdevs in Hadd. rewrite Ev in Hadd. cbn [SP.ptry] in Hadd. by rewrite Ec in Hadd. }
  destruct (decide (l = [])) as [->|Hne].
  - unfold SP.add_blockdevs in Hadd. rewrite Ev in Hadd. cbn [SP.ptry] in Hadd. destruct (_ && _); [done|]. injection Hadd as <- <- <-.
    by apply (same_ents_effect w p (mkSetCreate ([] : list Z)) p).
  - rewrite add_blockdevs_eq in Hadd by done. destruct (match t with Data => _ | Cache => _ end) as [enc| |]; cbn [SP.ptry] in Hadd; try done.
    pose proof (new_devs_ok (remove_dups l) enc w Hs) as Hn. destruct (SP.new_devs (remove_dups l) enc w) as [pairs w1].
    destruct Hn as (_ & _ & Hnd & Hnew). injection Hadd as <- <- <-. apply dev_effect; [done..|by apply nodup_filter_fst|].
    intros u d [Hin _]%unknown_in. by apply (Hnew u d).
Qed.

(** *** Methods of the engine *)

Definition all_disjoint (e : SimEngine) : Prop := ∀ u m p, entry (pools e) m u p → block_devs p ##ₘ cache_devs p.

Lemma sim_engine_call {A} cmd (op : SimEngine → World → SE.outcome A) (f : A → bool) post : command_ok cmd →
  (∀ e w, exec cmd e w = let '(r, e', w') := op e w in (rmap f r, e', w')) →
  (∀ e n a e' w', engine_ok e (W n) → all_disjoint e → op e (W n) = (Ok a, e', w') → all_disjoint e' ∧ post e n a e') →
  engine_call (on_sim op) post.
Proof.
  intros Hok Hcmd Heff e n [He Hd]. pose proof (exec_ok e (W n) He cmd Hok) as Hstep. unfold step_ok in Hstep. rewrite Hcmd in Hstep.
  assert (∀ e' w', engine_ok e' w' → SimInvariant.later (W n) w' → engine_ok e' (W (w_next w'))) as HW.
  { intros e' w' [? ? Hpool ?] Hl. split; [apply W_supply|done| |done]. intros m u p Hp. destruct (Hpool m u p Hp) as [Hu Hpo]. split; [exact (proj1 (used_W n w' u Hl) Hu)|exact (pool_ok_W n w' p Hl Hpo)]. }
  unfold on_sim. destruct (op e (W n)) as [[[a|x|y] e'] w'] eqn:E; cbn in Hstep; destruct Hstep as (He' & Hl & Hst & _).
  - destruct (Heff e n a e' w' He Hd E) as [Hd' Hpost]. split_and!; [split; [by apply HW|done]|by apply later_W|done].
  - subst e'. split_and!; [split; [by apply HW|done]|by apply later_W|by intros u].
  - done.
Qed.

Lemma get_pool_items e u : e_get_pool e u = items (pools e) !! u.
Proof. done. Qed.

Lemma create_pool_effect name l r i e n a e' w' : engine_ok e (W n) → all_disjoint e → SE.create_pool e name l r i (W n) = (Ok a, e', w') →
  all_disjoint e' ∧ match a with
    | CACreated u => ¬ seen n u ∧ ∃ p, pool_added e e' u p ∧ ∀ s, pent p s → ¬ seen n (raw_uuid s) ∧ ∃ d, s = UDev d
    | CAIdentity => same_pools e e'
    end.
Proof.
  intros He Hd. unfold SE.create_pool. destruct (calculate_redundancy r) as [red| |]; cbn [SE.etry]; try done.
  destruct (validate_name name) as [[]| |]; cbn [SE.etry]; try done. destruct (validate_paths l) as [[]| |]; cbn [SE.etry]; try done.
  destruct (match key_description i with Some _ => _ | None => _ end) as [[]| |]; cbn [SE.etry]; try done.
  destruct (Tbl.get_by_name (pools e) name) as [[u p]|] eqn:En.
  { destruct (create_pool_idempotent_ok (SP.blockdevs p) name l _ eq_refl) as [[-> _]|[[x ->] _]]; [|done]. intros [= <- <- <-]. split; [done|by intros v]. }
  destruct l as [|x l]; [done|]. unfold SP.new. pose proof (new_v4_ok (W n) (W_supply n)) as Hv4. destruct (new_v4 (W n)) as [u w1]. destruct Hv4 as (L1 & Hf & Hu).
  pose proof (new_devs_ok (remove_dups (remove_dups (x :: l))) i w1 (supply_later _ _ L1 (W_supply n))) as Hn.
  destruct (SP.new_devs _ i w1) as [pairs w2]. destruct Hn as (L2 & _ & Hnd & Hnew). cbv iota beta. set (p := mkSimPool _ _ _ _).
  destruct (insert_fresh (pools e) name u p (eo_pools _ _ He)) as (t & -> & Ht & Hen).
  { destruct (Tbl.contains_name (pools e) name) eqn:Ec; [|done]. apply contains_name_ok in Ec as (v & j & Hj%get_by_name_ok); [congruence|apply (eo_pools _ _ He)..]. }
  { intros m q Hq. apply Hf. by apply (eo_pool _ _ He m u q). }
  cbn [SE.etry]. intros [= <- <- <-]. split.
  { intros v m q [[= -> -> ->]|Hq]%Hen; [apply map_disjoint_empty_r|by eapply Hd]. }
  assert (∀ v, items t !! v = if decide (v = u) then Some (name, p) else items (pools e) !! v) as Hit.
  { intros v. destruct (decide (v = u)) as [->|Hne]; [apply Hen; by left|]. apply option_eq. intros [m q]. rewrite (Hen m v q). naive_solver. }
  split; [exact Hf|]. exists p. split; [split_and!|].
  - rewrite get_pool_items. destruct (items (pools e) !! u) as [[m q]|] eqn:E; [|done]. destruct Hf. by apply (eo_pool _ _ He m u q).
  - rewrite get_pool_items. cbn. rewrite Hit. by rewrite decide_True.
  - intros v Hv. rewrite !get_pool_items. cbn. rewrite Hit. by rewrite decide_False.
  - intros s Hs. destruct s as [b|f|v]; [|cbn in Hs; unfold Tbl.get_by_uuid in Hs; cbn in Hs; rewrite lookup_empty in Hs; by destruct Hs|done].
    split; [|by exists b]. cbn in Hs. rewrite sim_get_blockdev_some in Hs. cbn in Hs. rewrite lookup_empty in Hs. destruct Hs as [[d Hb]|[? ?]]; [|done].
    apply extend_lookup in Hb as [Hb|Hb]; [by rewrite lookup_empty in Hb| |done|by intros; rewrite lookup_empty]. destruct (Hnew _ _ Hb) as (Hno & _).
    intros Hw. apply Hno. by eapply used_later.
Qed.

Lemma destroy_pool_effect u e n a e' w' : engine_ok e (W n) → all_disjoint e → SE.destroy_pool e u (W n) = (Ok a, e', w') →
  all_disjoint e' ∧ match a with DADeleted v => v = u ∧ pool_removed e e' u | DAIdentity => same_pools e e' end.
Proof.
  intros He Hd. unfold SE.destroy_pool, Tbl.get_by_uuid. destruct (items (pools e) !! u) as [[m p]|] eqn:Eu; [|intros [= <- <- <-]; split; [done|by intros v]].
  destruct (SP.has_filesystems p); [done|]. pose proof (remove_by_uuid_ok (pools e) u (eo_pools _ _ He)) as Hr.
  destruct (Tbl.remove_by_uuid (pools e) u) as [r t]. destruct Hr as (Ht & -> & Hen). unfold Tbl.get_by_uuid. rewrite Eu. cbn. intros [= <- <- <-].
  split; [intros v m' q [Hq _]%Hen; by eapply Hd|]. split; [done|].
  assert (∀ v, items t !! v = if decide (v = u) then None else items (pools e) !! v) as Hit.
  { intros v. apply option_eq. intros [m' q]. rewrite (Hen m' v q). unfold entry. destruct (decide (v = u)); naive_solver. }
  unfold pool_removed. setoid_rewrite get_pool_items. cbn. rewrite Eu. split_and!; [eauto|rewrite Hit; by rewrite decide_True|].
  intros v Hv. rewrite Hit. by rewrite decide_False.
Qed.

Lemma rename_pool_effect u m e n a e' w' : engine_ok e (W n) → all_disjoint e → SE.rename_pool e u m (W n) = (Ok a, e', w') →
  all_disjoint e' ∧ same_pools e e'.
Proof.
  intros He Hd. unfold SE.rename_pool, rename_pre_idem, Tbl.get_by_uuid.
  destruct (items (pools e) !! u) as [[old p]|] eqn:Eu; [|intros [= <- <- <-]; split; [done|by intros v]].
  case_bool_decide; [intros [= <- <- <-]; split; [done|by intros v]|]. destruct (Tbl.contains_name (pools e) m) eqn:Ec; [done|].
  destruct (rename_ok (pools e) old m u p (eo_pools _ _ He) Eu Ec) as (t1 & t & -> & -> & Ht & Hen & Eu'). cbn [SE.etry]. intros [= <- <- <-].
  split; [intros v m' q [[= -> -> ->]|[Hq _]]%Hen; by eapply Hd|]. intros v. rewrite !get_pool_items. cbn.
  destruct (decide (v = u)) as [->|Hne]; [by rewrite Eu, Eu'|]. f_equal. apply option_eq. intros [m' q]. rewrite (Hen m' v q). unfold entry. naive_solver.
Qed.

Lemma iter_elem {T} (t : Table Z T) n u i : (n, u, i) ∈ Tbl.iter t ↔ items t !! u = Some (n, i).
Proof.
  unfold Tbl.iter. rewrite list_elem_of_fmap. split.
  - intros ([v [m j]] & [= -> -> ->] & Hin). by apply elem_of_map_to_list in Hin.
  - intros Hu. exists (u, (n, i)). split; [done|]. by apply elem_of_map_to_list.
Qed.
Lemma iter_nodup {T} (t : Table Z T) : NoDup ((λ x, x.1.2) <$> Tbl.iter t).
Proof.
  unfold Tbl.iter. rewrite <- list_fmap_compose. replace ((λ x, x.1.2) ∘ _ <$> map_to_list (items t)) with (map_to_list (items t)).*1; [apply NoDup_fst_map_to_list|].
  apply list_fmap_ext. by intros i [v [m j]] _.
Qed.
Lemma sim_blockdevs_elem p u t b : block_devs p ##ₘ cache_devs p → (u, t, b) ∈ sim_blockdevs p ↔ sim_get_blockdev p u = Some (t, b).
Proof.
  intros Hd. unfold sim_blockdevs, sim_get_blockdev. rewrite elem_of_app, !list_elem_of_fmap. split.
  - intros [([v d] & [= -> -> ->] & Hin%elem_of_map_to_list)|([v d] & [= -> -> ->] & Hin%elem_of_map_to_list)]; cbn in *; [by rewrite Hin|].
    destruct (block_devs p !! v) as [x|] eqn:Ex; [exfalso; by eapply map_disjoint_spec|]. by rewrite Hin.
  - destruct (block_devs p !! u) as [x|] eqn:Ex.
    + intros [= <- <-]. left. exists (u, x). split; [done|]. by apply elem_of_map_to_list.
    + destruct (cache_devs p !! u) as [x|] eqn:Ey; [|done]. intros [= <- <-]. right. exists (u, x). split; [done|]. by apply elem_of_map_to_list.
Qed.
Lemma sim_blockdevs_nodup p : block_devs p ##ₘ cache_devs p → NoDup ((λ x, x.1.1) <$> sim_blockdevs p).
Proof.
  intros Hd. unfold sim_blockdevs. rewrite fmap_app, <- !list_fmap_compose. unfold compose. cbn. apply NoDup_app. split_and!; [apply NoDup_fst_map_to_list| |apply NoDup_fst_map_to_list].
  intros u ([v d] & -> & H1%elem_of_map_to_list)%list_elem_of_fmap ([v' d'] & Hv & H2%elem_of_map_to_list)%list_elem_of_fmap. cbn in *. subst v'.
  by eapply map_disjoint_spec.
Qed.

(** The laws that are about more than one method, each for the simulator. *)
Lemma sim_pool_seen w p s : pool_inv w p → pent p s → seen w (raw_uuid s).
Proof.
  intros [Hp _]. destruct s as [b|f|u]; cbn; [|intros [[m x] Hf]; by apply (po_fs_used _ _ Hp m f x)|done].
  rewrite sim_get_blockdev_some. intros [[d Hb]|[d Hb]]; apply (po_dev_used _ _ Hp b d); auto.
Qed.
Lemma sim_get_mut_law e u : match e_get_mut_pool e u with
    | Some (n, p, put) => e_get_pool e u = Some (n, p) ∧
        ∀ p', e_get_pool (put p') u = Some (n, p') ∧ ∀ v, v ≠ u → e_get_pool (put p') v = e_get_pool e v
    | None => e_get_pool e u = None
    end.
Proof.
  cbn. unfold sim_get_mut_pool, Tbl.get_mut_by_uuid, Tbl.get_by_uuid. destruct (items (pools e) !! u) as [[n p]|]; cbn; [|done].
  split; [done|]. intros p'. rewrite lookup_insert_eq. split; [done|]. intros v Hv. by rewrite lookup_insert_ne.
Qed.
Lemma sim_get_mut_inv w w' e u n p put p' : e_get_mut_pool e u = Some (n, p, put) → engine_inv w e → later w w' → pool_inv w' p' → engine_inv w' (put p').
Proof.
  cbn. unfold sim_get_mut_pool, Tbl.get_mut_by_uuid. destruct (items (pools e) !! u) as [[m q]|] eqn:Eu; cbn; [|done]. intros [= <- <- <-] [He Hd] Hl [Hp' Hd'].
  destruct (set_item_ok (pools e) m u q p' (eo_pools _ _ He) Eu) as [Ht Hen]. split.
  - split; [apply W_supply|exact Ht| |apply (eo_keys _ _ He)]. intros m' v x [[= -> -> ->]|[Hx _]]%Hen.
    + split; [|done]. apply Hl. by apply (eo_pool _ _ He m u q).
    + destruct (eo_pool _ _ He _ _ _ Hx) as [Hu Hpo]. split; [exact (Hl _ Hu)|exact (pool_ok_mono _ _ _ Hl Hpo)].
  - intros v m' x [[= -> -> ->]|[Hx _]]%Hen; [done|by eapply Hd].
Qed.
Lemma sim_keys_call {A} (op : SimEngine → res A * Keys.SimKeyActions) cmd (f : A → bool) : command_ok cmd →
  (∀ e w, exec cmd e w = let '(r, k) := op e in (rmap f r, mkEngine (pools e) k, w)) →
  engine_call (λ '(e, n), let '(r, k) := op e in (r, (mkEngine (pools e) k, n))) (λ e _ _ e', same_pools e e').
Proof.
  intros Hok Hcmd e n [He Hd]. pose proof (exec_ok e (W n) He cmd Hok) as Hstep. unfold step_ok in Hstep. rewrite Hcmd in Hstep.
  destruct (op e) as [[a|x|y] k]; cbn in Hstep; destruct Hstep as (He' & Hl & Hst & _); [| |done]; (split; [split; [exact He'|exact Hd]|]; split; by intros u).
Qed.

Lemma destroy_loop_sublist us : ∀ fs, (SP.destroy_loop us fs).1 `sublist_of` us.
Proof.
  induction us as [|u us IH]; intros fs; cbn [SP.destroy_loop]; [constructor|]. destruct (Tbl.remove_by_uuid fs u) as [r fs1]. specialize (IH fs1).
  destruct (SP.destroy_loop us fs1) as [removed fs']. destruct r; by constructor.
Qed.
Lemma sim_destroyed_asked (n : Str) (l : list Z) (p : SimPool) w a p' w' : p_destroy_filesystems n l (p, w) = (Ok a, (p', w')) → NoDup l →
  NoDup (sd_changed a) ∧ ∀ u, u ∈ sd_changed a → u ∈ l.
Proof.
  cbn. unfold SP.destroy_filesystems. pose proof (destroy_loop_sublist l (filesystems p)) as Hsub.
  destruct (SP.destroy_loop l (filesystems p)) as [removed fs']. intros [= <- _ _] Hnd. cbn in *.
  split; [by eapply sublist_NoDup|]. intros u Hu. by eapply elem_of_submseteq; [|apply sublist_submseteq].
Qed.

#[local] Instance SimLaws : EngineLaws.
Proof.
  constructor.
  - intros w w' p Hl [Hp Hd]. split; [exact (pool_ok_mono _ _ _ Hl Hp)|done].
  - intros w e u n p [He Hd] Hu. destruct (eo_pool _ _ He n u p Hu). split; [split; [done|exact (Hd u n p Hu)]|done].
  - apply sim_pool_seen.
  - intros p u. cbn. unfold Tbl.get_by_uuid. setoid_rewrite iter_elem. split; [intros (n & f & ->); eauto|intros [[n f] ->]; eauto].
  - intros w p _. apply iter_nodup.
  - intros w p u [_ Hd]. cbn. split; [intros (t & b & Hin%sim_blockdevs_elem); eauto|]. intros [[t b] Hu]. exists t, b. by apply sim_blockdevs_elem.
  - intros w p [_ Hd]. by apply sim_blockdevs_nodup.
  - intros w p [Hp _]. destruct (pool_enc_ok _ _ Hp) as (enc & Henc & _). split; [by exists enc|]. destruct (pool_encrypted_ok _ _ _ Hp Henc) as [He _]. by eexists.
  - intros w e p He. split; [done|by intros u].
  - intros w e f He. split; [done|by intros u].
  - intros w e n u p _. apply iter_elem.
  - intros w e _. apply iter_nodup.
  - apply sim_get_mut_law.
  - apply sim_get_mut_inv.
  - intros u n l. apply (sim_pool_call (InitCache l) _ is_changed); [done|]. intros. by eapply init_cache_effect.
  - intros n u l. apply (sim_pool_call (CreateFilesystems l) _ is_changed); [done|]. intros. by eapply create_filesystems_effect.
  - intros u n l t. apply (sim_pool_call (AddBlockdevs l t) _ is_changed); [done|]. intros. by eapply add_blockdevs_effect.
  - intros pin c. apply (sim_pool_call (BindClevis pin c) _ is_changed); [done|]. intros. by eapply same_ents_effect, bind_clevis_shape.
  - apply (sim_pool_call UnbindClevis _ is_changed); [done|]. intros. by eapply same_ents_effect, unbind_clevis_shape.
  - intros k. apply (sim_pool_call (BindKeyring k) _ is_changed); [done|]. intros. by eapply same_ents_effect, bind_keyring_shape.
  - apply (sim_pool_call UnbindKeyring _ is_changed); [done|]. intros. by eapply same_ents_effect, unbind_keyring_shape.
  - intros k. apply (sim_pool_call (RebindKeyring k) _ is_changed); [done|]. intros. by eapply same_ents_effect, rebind_keyring_shape.
  - apply (sim_pool_call RebindClevis _ (λ _, false)); [done|]. intros. by eapply same_ents_effect, rebind_clevis_shape.
  - intros n l. apply (sim_pool_call (DestroyFilesystems l) _ is_changed); [done|]. intros. by eapply destroy_filesystems_effect.
  - intros n u m. apply (sim_pool_call (RenameFilesystem u m) _ is_changed); [done|]. intros. by eapply same_ents_effect, rename_filesystem_shape.
  - intros n u o m. apply (sim_pool_call (SnapshotFilesystem o m) _ is_changed); [done|]. intros. by eapply snapshot_effect.
  - intros n u i. apply (sim_pool_call (SetUserInfo u i) _ is_changed); [done|]. intros. by eapply same_ents_effect, user_info_shape.
  - apply sim_destroyed_asked.
  - intros n l r i. apply (sim_engine_call (CreatePool n l r i) _ is_changed); [done..|]. intros. by eapply create_pool_effect.
  - intros v e w He. split; [done|]; split; by intros u'.
  - intros u. apply (sim_engine_call (DestroyPool u) _ is_changed); [done..|]. intros. by eapply destroy_pool_effect.
  - intros u n. apply (sim_engine_call (RenamePool u n) _ is_changed); [done..|]. intros. by eapply rename_pool_effect.
  - intros u m e w He. split; [done|]; split; by intros u'.
  - intros e w He. split; [done|]; split; by intros u'.
  - intros k fd. apply (sim_keys_call (λ e, Keys.set (key_handler e) k (fds fd).1 (fds fd).2) (SetKey k (fds fd).1 (fds fd).2) is_changed); [apply (fds_ok fd)|done].
  - intros k. apply (sim_keys_call (λ e, Keys.unset (key_handler e) k) (UnsetKey k) is_changed); done.
  - intros e w He. split; [done|]; split; by intros u'.
Qed.

Lemma sim_names_nodup w (e : Engine_) : engine_inv w e → NoDup ((λ x, x.1.1.1) <$> e_pools_mut e).
Proof.
  intros [He _]. cbn. unfold sim_pools_mut. rewrite <- list_fmap_compose. unfold compose. cbn.
  apply NoDup_fmap_2_strong; [|eapply NoDup_fmap_1, iter_nodup].
  intros [[n u] p] [[n' u'] p'] Hx%iter_elem Hy%iter_elem E. cbn in E. subst n'.
  destruct (ok_inj (pools e) n u u' p p' (eo_pools _ _ He) Hx Hy). congruence.
Qed.

#[local] Instance SimNames : EngineNames.
Proof.
  constructor.
  - intros w e n u p put He Hin. cbn in Hin. unfold sim_pools_mut in Hin.
    apply list_elem_of_fmap in Hin as ([[n' u'] p'] & [= -> -> -> ->] & Hin%iter_elem). cbn. split; [exact Hin|].
    intros p1 w1 w2 Hi Hl Hp. apply (sim_get_mut_inv w1 w2 e u' n' p'
      (λ p, SE.with_pools e (mkTable (name_to_uuid (pools e)) (<[u' := (n', p)]> (items (pools e))))) p1); [|done..].
    cbn. unfold sim_get_mut_pool, Tbl.get_mut_by_uuid. by rewrite Hin.
  - apply sim_names_nodup.
  - intros e w u n s' He [[m p] Hu]. cbn in *. unfold on_sim, SE.rename_pool, rename_pre_idem. rewrite Hu.
    destruct (bool_decide _); [by intros [=]|]. destruct (Tbl.contains_name _ _); [by intros [=]|].
    destruct (Tbl.remove_by_uuid _ _) as [[[? pool]|] t]; [|by intros [=]]. unfold SE.etry.
    by destruct (Tbl.insert _ _ _ _) as [[? ?]|?|?].
Qed.

(** C14: the simulator engine implements the traits of the engine as their users rely on it: its methods never panic while its invariant
    holds, each keeps the invariant, adds exactly the filesystems and block devices it reports, under UUIDs that were never in use, removes exactly
    the ones it reports, and leaves everything as it was when it fails; a pool is reached by its reference, or by its name, which no two pools
    share, and no other is changed. *)
Theorem sim_implements_engine : EngineLaws ∧ EngineNames.
Proof. exact (conj SimLaws SimNames). Qed.
End sim.
