(* ===== verification/DbusSim.v ===== *)
(** * The daemon with the simulator

    What is promised of the D-Bus by [stratisd --sim]: the steps of [DbusSteps] with the engine of [src/engine/sim_engine/], which satisfies
    the laws the D-Bus relies on ([SimApi]).  The real engine does not satisfy all of them: a call that fails half-way may leave a part of its
    work done, which the D-Bus is not told.

    The random generator, the clock and what reading a file descriptor gives are given; the generator never repeats itself. *)
From stdpp Require Import base list gmap strings pretty.
From Stdlib Require Import ZArith Lia.
From S2P Require Import Prelude External Json Table Actions Shared SimEngine SimInvariant EngineApi Dbus DbusMethods DbusTree DbusSteps DbusSpec DbusDaemon SimApi.

Section sim.
Context `{UuidFormat} `{JsonText}.
Context (uuids rands nows : nat → Z) (fds : Z → res (list Z) * res Z) (rfc3339 uuid_text : Z → Str).
Hypothesis uuids_inj : ∀ i j, uuids i = uuids j → i = j.
(** reading and polling a file descriptor do not panic, and no more is read than the buffer holds *)
Hypothesis fds_ok : ∀ fd, command_ok (SetKey [] (fds fd).1 (fds fd).2).
#[local] Instance Sim : Traits := SimTraits uuids rands nows fds rfc3339 uuid_text.
#[local] Instance SimI : EngineInv := SimInv uuids rands nows fds rfc3339 uuid_text.
#[local] Instance SimL : EngineLaws := SimLaws uuids rands nows fds rfc3339 uuid_text uuids_inj fds_ok.

(** the daemon with the engine [SimEngine::default()], after [n] random values were drawn *)
Definition sim_start (n : nat) : ret unit * Daemon := start (SE.default : Engine_) n.

(** the states of the daemon with the simulator, as long as fewer than 2^64 object paths were made *)
Inductive sim_reachable : Daemon → Prop :=
| sim_started n : sim_reachable (sim_start n).2
| sim_stepped d ev : sim_reachable d → room d (step ev d).2 → sim_reachable (step ev d).2.

Lemma sim_startable n : startable (SE.default : Engine_) n.
Proof.
  assert (∀ u, e_get_pool (SE.default : Engine_) u = None) as Hno by (intros u; apply lookup_empty). split_and!.
  - split; [apply default_ok; intros i j; apply uuids_inj|]. intros u m p Hp. exfalso.
    assert (Some (m, p) = None) as [=]. etrans; [symmetry; exact Hp|apply (Hno u)].
  - intros u v s (m & p & Hu & _). by rewrite Hno in Hu.
  - done.
Qed.
Lemma sim_reachable_reachable d : sim_reachable d → DbusDaemon.reachable d.
Proof.
  induction 1 as [n|d ev _ IH Hroom]; [apply DbusDaemon.reach_start, sim_startable|].
  by eapply (DbusDaemon.reach_step d ev); [done|apply surjective_pairing|].
Qed.

(** C11: with the simulator engine, in every reachable state, whatever method calls, property reads, udev events and rounds of the tree handler came
    before and in which order: the tree of D-Bus objects with the queued actions applied has exactly one object for each pool of the engine, below
    the manager, exactly one for each filesystem and block device, below the object of its pool, and no other than those of the pools whose
    destruction has yet to queue its removal; with these removals applied too there is no other at all.  Here and below a state is reachable if the random
    UUIDs of the simulator never repeat, reading a key's descriptor does not panic, and fewer than 2^64 object paths were made. *)
Theorem dbus_tree_mirrors_engine d : sim_reachable d →
  mirror (λ r s, ent (c_engine (d_ctx d)) r s ∨ owed d r s) (drained d) ∧
  mirror (ent (c_engine (d_ctx d))) (apply_actions (d_late d).*1 (drained d)).
Proof. intros Hd. by apply tree_mirrors_engine, sim_reachable_reachable. Qed.

(** C12: with the simulator engine no handler panics in a reachable state: not the methods and properties of an object while it is still in the
    tree although its pool is gone, not [GetManagedObjects], which expects the parent of every object to be a pool in the tree, not the
    ones that make objects for what the engine has just created, no method of the engine called by them, and neither does the start of the daemon.  The
    conditions are those of C11. *)
Theorem dbus_never_panics : (∀ n, crashed (sim_start n).1 = false) ∧ ∀ d ev, sim_reachable d → panicked (step ev d).1 = false.
Proof. split; [intros n; apply never_panics, sim_startable|]. intros d ev Hd. by apply never_panics, sim_reachable_reachable. Qed.

(** C13: with the simulator engine, in an execution in which the tree handler gets the tree again and again, every state of the engine is shown on the D-Bus in
    the end: for each moment there is a later one at which the tree mirrors the engine of that moment and the pools whose destruction has
    then yet to queue its removal, however the threads interleave.  The conditions are those of C11. *)
Theorem dbus_eventually_shown σ ev i : sim_reachable (σ 0%nat) → execution σ ev → fair σ ev → (∀ k, (k < i)%nat → room (σ k) (σ (S k))) →
  ∃ j, (i ≤ j)%nat ∧ mirror (λ r s, ent (c_engine (d_ctx (σ i))) r s ∨ owed (σ i) r s) (d_tree (σ j)).
Proof. intros Hd. by apply eventually_shown, sim_reachable_reachable. Qed.

(** C15: with the simulator engine, once the queue is empty, a call of [GetManagedObjects] changes nothing and lists each pool, filesystem and block
    device of the engine once and nothing else, at the path of its object and with the properties it has now, the path of its pool among them.  The conditions are
    those of C11. *)
Theorem get_managed_objects_exact d : sim_reachable d → c_queue (d_ctx d) = [] → ∃ l,
  handle (d_tree d) (mkMessage STRATIS_BASE_PATH "org.freedesktop.DBus.ObjectManager" "GetManagedObjects" []) (d_ctx d)
    = (Val (append1 (DDict l)), d_ctx d) ∧
  NoDup l.*1 ∧
  (∀ k v, (k, v) ∈ l ↔ ∃ path r s ia, shown (c_engine (d_ctx d)) (d_tree d) path r s ia ∧ k = DPath path ∧ v = interfaces_val ia) ∧
  (∀ r s, ent (c_engine (d_ctx d)) r s → ∃ path ia, shown (c_engine (d_ctx d)) (d_tree d) path r s ia ∧
     ∀ path' ia', shown (c_engine (d_ctx d)) (d_tree d) path' r s ia' → path' = path ∧ ia' = ia).
Proof. intros Hd. by apply managed_objects_exact, sim_reachable_reachable. Qed.
End sim.
