(* ===== verification/DbusExample.v ===== *)
(** * The daemon with the simulator

    The daemon run with the simulator engine ([stratisd --sim]) on concrete calls: the states reached are instances of what is proved of
    the D-Bus in [DbusSim] and [DbusTypes]. *)
From stdpp Require Import base list gmap sets strings pretty.
From Stdlib Require Import ZArith Lia.
From S2P Require Import Prelude External Json Table Actions Shared SimEngine SimInvariant EngineApi Dbus DbusMethods DbusTree DbusSteps DbusTypes DbusSpec DbusDaemon SimApi DbusSim.

Definition ex_uuids (i : nat) : Z := Z.of_nat i + 1.
Definition ex_fds (fd : Z) : res (list Z) * res Z := (Ok [97; 98], Ok 0).
Lemma ex_uuids_inj i j : ex_uuids i = ex_uuids j → i = j.
Proof. unfold ex_uuids. lia. Qed.
Lemma ex_fds_ok fd : command_ok (SetKey [] (ex_fds fd).1 (ex_fds fd).2).
Proof. split; [vm_compute; discriminate|discriminate]. Qed.

#[local] Instance ExUuid : UuidFormat := hex_instance.
#[local] Instance ExTraits : Traits := SimTraits ex_uuids (λ _, 7) (λ _, 1600000000) ex_fds (λ _, str "2020-09-13T12:26:40Z") uuid_simple.
#[local] Instance ExInv : EngineInv := SimInv ex_uuids (λ _, 7) (λ _, 1600000000) ex_fds (λ _, str "2020-09-13T12:26:40Z") uuid_simple.
#[local] Instance ExLaws : EngineLaws := SimLaws ex_uuids (λ _, 7) (λ _, 1600000000) ex_fds (λ _, str "2020-09-13T12:26:40Z") uuid_simple ex_uuids_inj ex_fds_ok.
#[local] Instance ExJson : JsonText := {| json_from_str _ := None; json_to_string _ := [] |}.

Lemma sim_implements_engine_witness : (∀ i j, ex_uuids i = ex_uuids j → i = j) ∧ EngineLaws ∧ EngineNames.
Proof.
  split; [exact ex_uuids_inj|].
  exact (sim_implements_engine ex_uuids (λ _, 7) (λ _, 1600000000) ex_fds (λ _, str "2020-09-13T12:26:40Z") uuid_simple ex_uuids_inj ex_fds_ok).
Defined.

#[local] Notation sim_start := (DbusSim.sim_start ex_uuids (λ _, 7) (λ _, 1600000000) ex_fds (λ _, str "2020-09-13T12:26:40Z") uuid_simple).
#[local] Notation sim_reachable := (DbusSim.sim_reachable ex_uuids (λ _, 7) (λ _, 1600000000) ex_fds (λ _, str "2020-09-13T12:26:40Z") uuid_simple).

(** the steps of a list of events *)
Fixpoint run (evs : list Event) (d : Daemon) : Daemon := match evs with [] => d | ev :: evs => run evs (step ev d).2 end.
Definition roomb (d d' : Daemon) : bool := next_index (d_ctx d) + n_adds (c_queue (d_ctx d')) - n_adds (c_queue (d_ctx d)) <? 2 ^ 64.
Fixpoint rooms (evs : list Event) (d : Daemon) : bool := match evs with [] => true | ev :: evs => roomb d (step ev d).2 && rooms evs (step ev d).2 end.
Lemma events_reachable evs : ∀ d, sim_reachable d → rooms evs d = true → sim_reachable (run evs d).
Proof.
  induction evs as [|ev evs IH]; intros d Hd Hr; [done|]. cbn in Hr. apply andb_true_iff in Hr as [Hroom Hr]. apply IH; [|done].
  apply sim_stepped; [done|]. by apply Z.ltb_lt.
Qed.
Lemma events_run evs : ∀ d, runs d → runs (run evs d).
Proof. induction evs as [|ev evs IH]; intros d Hd; [done|]. by apply IH, runs_step. Qed.

Definition ex_no_str : DVal := DStruct [DBool false; DStr []].
Definition ex_create_pool : Message := mkMessage STRATIS_BASE_PATH MANAGER_INTERFACE_NAME_3_0 "CreatePool"
  [DStr (str "pool"); DStruct [DBool false; DU16 0]; DArray [DStr (str "/dev/a"); DStr (str "/dev/b")]; ex_no_str;
   DStruct [DBool false; DStruct [DStr []; DStr []]]].
Definition ex_create_fs : Message :=
  mkMessage (object_path_of 0) POOL_INTERFACE_NAME_3_0 "CreateFilesystems" [DArray [DStr (str "fs")]].
Definition ex_destroy_fs : Message :=
  mkMessage (object_path_of 0) POOL_INTERFACE_NAME_3_0 "DestroyFilesystems" [DArray [DPath (object_path_of 3)]].
Definition ex_destroy_pool : Message :=
  mkMessage STRATIS_BASE_PATH MANAGER_INTERFACE_NAME_3_0 "DestroyPool" [DPath (object_path_of 0)].

Definition ex_start : Daemon := (sim_start 0).2.
(** a pool with two devices and a filesystem; the request for the filesystem is still queued *)
Definition ex_events : list Event := [Call ex_create_pool; Process; Process; Process; Call ex_create_fs].
Definition ex_daemon : Daemon := run ex_events ex_start.
Lemma example_reachable : sim_reachable ex_daemon.
Proof. apply events_reachable; [apply sim_started|vm_compute; done]. Qed.

(** the filesystem appears, and goes together with its pool *)
Example ex_objects : length (c_queue (d_ctx ex_daemon)) = 1%nat ∧ size (d_tree ex_daemon) = 7%nat ∧ size (drained ex_daemon) = 8%nat ∧
  size (drained (run [Process; Call ex_destroy_fs; Process; Call ex_destroy_pool; Finish 0] ex_daemon)) = 4%nat.
Proof. vm_compute. done. Qed.

(** the pool is gone and its removal not queued yet: the tree still has it, and the tree handler waits *)
Definition ex_destroyed : Daemon := run [Process; Call ex_destroy_fs; Process; Call ex_destroy_pool] ex_daemon.
Lemma ex_destroyed_reachable : sim_reachable ex_destroyed.
Proof. apply events_reachable; [exact example_reachable|vm_compute; done]. Qed.
Example ex_between : size (drained ex_destroyed) = 7%nat ∧ (e_pools (c_engine (d_ctx ex_destroyed)) = [] ∧ length (d_late ex_destroyed) = 1%nat) ∧
  (step Process ex_destroyed).1 = OIdle ∧
  size (apply_actions (d_late ex_destroyed).*1 (drained ex_destroyed)) = 4%nat.
Proof. vm_compute. done. Qed.

Lemma dbus_tree_mirrors_engine_witness : sim_reachable ex_destroyed ∧
  mirror (ent (c_engine (d_ctx ex_destroyed))) (apply_actions (d_late ex_destroyed).*1 (drained ex_destroyed)).
Proof.
  split; [exact ex_destroyed_reachable|]. exact (proj2 (dbus_tree_mirrors_engine _ _ _ _ _ _ ex_uuids_inj ex_fds_ok ex_destroyed ex_destroyed_reachable)).
Defined.

Lemma dbus_never_panics_witness : sim_reachable ex_destroyed ∧ crashed (sim_start 0).1 = false ∧
  panicked (step (Call ex_destroy_pool) ex_destroyed).1 = false.
Proof.
  split; [exact ex_destroyed_reachable|].
  split; [exact (proj1 (dbus_never_panics _ _ _ _ _ _ ex_uuids_inj ex_fds_ok) 0%nat)|].
  exact (proj2 (dbus_never_panics _ _ _ _ _ _ ex_uuids_inj ex_fds_ok) ex_destroyed (Call ex_destroy_pool) ex_destroyed_reachable).
Defined.

(** an infinite execution: the filesystem is created and the tree handler runs on *)
Definition ex_ev (i : nat) : Event := match i with 1%nat => Call ex_create_fs | _ => Process end.
Fixpoint ex_sigma (i : nat) : Daemon :=
  match i with O => run [Call ex_create_pool; Process; Process] ex_start | S i => (step (ex_ev i) (ex_sigma i)).2 end.

Lemma ex_no_late i : d_late (ex_sigma (2 + i)) = [].
Proof.
  induction i as [|i IH]; [vm_compute; done|]. cbn [Nat.add ex_sigma] in *. change (ex_ev (S (S i))) with Process. cbn [step]. rewrite IH.
  destruct (c_queue _) as [|a q]; [done|]. by destruct (process_dbus_action _ _) as [[r t] l].
Qed.
Lemma dbus_eventually_shown_witness : execution ex_sigma ex_ev ∧ fair ex_sigma ex_ev ∧
  ∃ j, (2 ≤ j)%nat ∧ mirror (λ r s, ent (c_engine (d_ctx (ex_sigma 2))) r s ∨ owed (ex_sigma 2) r s) (d_tree (ex_sigma j)).
Proof.
  assert (execution ex_sigma ex_ev) as Hσ by done.
  assert (fair ex_sigma ex_ev) as Hf by (intros i; exists (2 + i)%nat; split; [lia|split; [done|apply ex_no_late]]).
  split; [exact Hσ|]. split; [exact Hf|]. apply (dbus_eventually_shown _ _ _ _ _ _ ex_uuids_inj ex_fds_ok ex_sigma ex_ev 2); [|exact Hσ|exact Hf|].
  - apply events_reachable; [apply sim_started|vm_compute; done].
  - intros k Hk. apply Z.ltb_lt. destruct k as [|[|k]]; [vm_compute; done|vm_compute; done|lia].
Defined.

Definition ex_idle : Daemon := run [Process] ex_daemon.
Lemma ex_idle_reachable : sim_reachable ex_idle.
Proof. apply events_reachable; [exact example_reachable|vm_compute; done]. Qed.

Lemma get_managed_objects_exact_witness : sim_reachable ex_idle ∧ c_queue (d_ctx ex_idle) = [] ∧ ∃ l : list (DVal * DVal),
  handle (d_tree ex_idle) (mkMessage STRATIS_BASE_PATH "org.freedesktop.DBus.ObjectManager" "GetManagedObjects" []) (d_ctx ex_idle)
    = (Val (append1 (DDict l)), d_ctx ex_idle) ∧ NoDup l.*1.
Proof.
  assert (c_queue (d_ctx ex_idle) = []) as Hq by (vm_compute; reflexivity).
  split; [exact ex_idle_reachable|]. split; [exact Hq|].
  destruct (get_managed_objects_exact _ _ _ _ _ _ ex_uuids_inj ex_fds_ok ex_idle ex_idle_reachable Hq) as (l & Hl & Hnd & _). exists l. split; [exact Hl|exact Hnd].
Defined.

Definition ex_reply : Reply := append3 (DStruct [DBool true; DArray [uuid_str 4]]) OK OK_STRING.
Lemma ex_handled : (handle (d_tree ex_idle) ex_destroy_fs (d_ctx ex_idle)).1 = Val ex_reply.
Proof. vm_compute. reflexivity. Qed.
Lemma ex_idle_runs : runs ex_idle.
Proof. apply events_run, events_run, runs_start. Qed.
Lemma dbus_replies_typed_witness : find_method (d_tree ex_idle) ex_destroy_fs = Some destroy_filesystems_method ∧
  replies (out_args destroy_filesystems_method) ex_reply = true.
Proof.
  assert (find_method (d_tree ex_idle) ex_destroy_fs = Some destroy_filesystems_method) as Hm by (vm_compute; reflexivity). split; [exact Hm|].
  apply (dbus_replies_typed ex_idle ex_destroy_fs destroy_filesystems_method ex_reply (handle (d_tree ex_idle) ex_destroy_fs (d_ctx ex_idle)).2 ex_idle_runs Hm);
    [|discriminate]. left. rewrite <- ex_handled. apply surjective_pairing.
Defined.

(** renaming a pool is announced as if it were a filesystem: the property changed is one of the interface of filesystems *)
Definition ex_rename_pool : Message := mkMessage (object_path_of 0) POOL_INTERFACE_NAME_3_0 "SetName" [DStr (str "new")].
Lemma pool_rename_signal : (step Process (run [Call ex_rename_pool; Finish 0] ex_idle)).1 =
  OSignals [PropertiesChanged (object_path_of 0) FILESYSTEM_INTERFACE_NAME_3_0 [(FILESYSTEM_NAME_PROP, DStr (str "new"))] [FILESYSTEM_DEVNODE_PROP]].
Proof. vm_compute. reflexivity. Qed.
