(* ===== verification/Suffix.v ===== *)
(** * Sizes for people

    Models [to_suffix_repr] of [src/jsonrpc/client/utils.rs].  [f64] is the binary64 format of the Standard Library's
    specification of floating-point numbers. *)
From stdpp Require Import base list strings pretty.
From Stdlib Require Import ZArith Lia SpecFloat.
From S2P Require Import Prelude.

(** ** Operations of [f64] *)

Definition prec : Z := 53.
Definition emax : Z := 1024.

(** [as f64], [f64::from] *)
Definition to_f64 (n : Z) : spec_float := binary_normalize prec emax n 0 false.
Definition f64_div : spec_float → spec_float → spec_float := SFdiv prec emax.
Definition f64_mul : spec_float → spec_float → spec_float := SFmul prec emax.
Definition f64_add : spec_float → spec_float → spec_float := SFadd prec emax.

(** [m * 2 ^ e], rounded down *)
Definition floor_scaled (m e : Z) : Z := if 0 <=? e then m * 2 ^ e else m / 2 ^ (- e).
(** [as u8]: truncated, and cut off at the ends of the range *)
Definition as_u8 (x : spec_float) : Z :=
  match x with
  | S754_finite false m e => Z.min 255 (floor_scaled (Zpos m) e)
  | S754_infinity false => 255
  | _ => 0
  end.

Definition two_digits (n : Z) : Str := str (pretty (n / 10)) ++ str (pretty (n mod 10)).
Definition hundredths_text (n : Z) : Str := str (pretty (n / 100)) ++ str "." ++ two_digits (n mod 100).
Definition hundredths (x : spec_float) : Z :=
  match x with
  | S754_finite _ m e => (floor_scaled (Zpos m * 200) e + 1) / 2
  | _ => 0
  end.
(** [format!("{:.2}", x)] of a number that is not negative: the nearest multiple of 1/100 *)
Definition fmt_2 (x : spec_float) : Str := hundredths_text (hundredths x).

(** ** [to_suffix_repr] *)

Definition SUFFIXES : list (Z * Str) :=
  [(60, str "EiB"); (50, str "PiB"); (40, str "TiB"); (30, str "GiB"); (20, str "MiB"); (10, str "KiB"); (0, str "B")].

Definition two_decimal_places (size div_shifted : Z) : Z :=
  as_u8 (f64_mul (f64_div (to_f64 (size mod div_shifted)) (to_f64 div_shifted)) (to_f64 100)).
Definition decimal_value (places : Z) : spec_float := f64_div (to_f64 places) (to_f64 100).

Definition to_suffix_repr (size : Z) : Str :=
  foldl (λ acc '(div, suffix),
    let div_shifted := Z.shiftl 1 div in
    if bool_decide (acc = []) && (size =? 0) then str "0.00 B"
    else if bool_decide (acc = []) && (1 <=? size / div_shifted) then
      fmt_2 (f64_add (to_f64 (size / div_shifted)) (decimal_value (two_decimal_places size div_shifted))) ++ str " " ++ suffix
    else acc) [] SUFFIXES.

(** The examples of the unit tests *)
Example suffix_tests :
  to_suffix_repr 0 = str "0.00 B" ∧ to_suffix_repr 5 = str "5.00 B" ∧ to_suffix_repr 1035 = str "1.01 KiB" ∧
  to_suffix_repr 1048576 = str "1.00 MiB" ∧ to_suffix_repr 1935000 = str "1.84 MiB" ∧
  to_suffix_repr 1048575 = str "1023.99 KiB".
Proof. vm_compute. done. Qed.

(** Sizes are rounded down to avoid 1.00 of a unit for less than one, but near the next multiple of an exbibyte the
    remainder is rounded up to it when it becomes an [f64]. *)
Lemma exbibytes_rounded_up : to_suffix_repr (2 ^ 61 - 1) = str "2.00 EiB".
Proof. vm_compute. done. Qed.

(** ** Exact operations

    Below a pebibyte all intermediate results fit into the 53 bits of an [f64]. *)

Lemma digits_bound p : 2 ^ (Zpos (digits2_pos p) - 1) ≤ Zpos p < 2 ^ Zpos (digits2_pos p).
Proof.
  induction p as [p IH|p IH|]; simpl digits2_pos; [| |simpl; lia].
  all: set (d := Zpos (digits2_pos p)) in *; assert (E : 2 ^ d = 2 * 2 ^ (d - 1))
      by (rewrite <-Z.pow_succ_r by lia; f_equal; lia);
    rewrite Pos2Z.inj_succ; fold d; unfold Z.succ; rewrite Z.add_simpl_r, Z.pow_add_r by lia; lia.
Qed.

Lemma digits_unique p d : 0 < d → 2 ^ (d - 1) ≤ Zpos p < 2 ^ d → Zpos (digits2_pos p) = d.
Proof.
  intros Hd [H1 H2]. pose proof (digits_bound p) as [H3 H4].
  assert (¬ Zpos (digits2_pos p) < d).
  { intros ?. pose proof (Z.pow_le_mono_r 2 (Zpos (digits2_pos p)) (d - 1)). lia. }
  assert (¬ d < Zpos (digits2_pos p)).
  { intros ?. pose proof (Z.pow_le_mono_r 2 d (Zpos (digits2_pos p) - 1)). lia. }
  lia.
Qed.

(** a mantissa of full width *)
Definition full (m : Z) : Prop := 2 ^ 52 ≤ m < 2 ^ 53.

Lemma full_digits p : full (Zpos p) → Zpos (digits2_pos p) = 53.
Proof. intros Hp. apply digits_unique; [lia|exact Hp]. Qed.

(** [n] as a mantissa of full width *)
Lemma full_scaled p : Zpos p < 2 ^ 53 → ∃ j, 0 ≤ j ≤ 52 ∧ Zpos (digits2_pos p) = 53 - j ∧ full (Zpos p * 2 ^ j).
Proof.
  intros Hp. pose proof (digits_bound p) as [H1 H2]. set (d := Zpos (digits2_pos p)) in *.
  assert (0 < d) by lia. assert (d ≤ 53).
  { destruct (Z.le_gt_cases d 53); [done|]. pose proof (Z.pow_le_mono_r 2 53 (d - 1)). lia. }
  exists (53 - d). split; [lia|]. split; [lia|]. unfold full.
  assert (2 ^ 52 = 2 ^ (d - 1) * 2 ^ (53 - d)) as -> by (rewrite <-Z.pow_add_r by lia; f_equal; lia).
  assert (2 ^ 53 = 2 ^ d * 2 ^ (53 - d)) as -> by (rewrite <-Z.pow_add_r by lia; f_equal; lia).
  pose proof (Z.pow_pos_nonneg 2 (53 - d)). nia.
Qed.

Lemma iter_shr_1 j m : iter_pos shr_1 j {| shr_m := Zpos m * 2 ^ Zpos j; shr_r := false; shr_s := false |} =
  {| shr_m := Zpos m; shr_r := false; shr_s := false |}.
Proof.
  assert (Hi : ∀ (f : shr_record → shr_record) n x, iter_pos f n x = Pos.iter f x n).
  { intros f n. induction n as [n IH|n IH|]; intros x; simpl; [|by rewrite !IH|done].
    rewrite !IH, <-Pos.iter_swap. f_equal. by rewrite <-Pos.iter_swap. }
  rewrite Hi. clear Hi. induction j as [|j IH] using Pos.peano_ind.
  - simpl. rewrite Pos.mul_comm. done.
  - rewrite Pos.iter_succ_r.
    replace (shr_1 _) with {| shr_m := Zpos m * 2 ^ Zpos j; shr_r := false; shr_s := false |}; [exact IH|].
    rewrite Pos2Z.inj_succ, Z.pow_succ_r by lia.
    destruct (Zpos m * 2 ^ Zpos j) as [|q|q] eqn:E; [lia| |lia].
    replace (Zpos m * (2 * 2 ^ Zpos j)) with (Zpos q~0) by lia. done.
Qed.

Lemma round_exact m j e : full (Zpos m) → 0 ≤ j → -1074 ≤ e + j → e + j ≤ 971 →
  binary_round_aux prec emax false (Zpos m * 2 ^ j) e loc_Exact = S754_finite false m (e + j).
Proof.
  intros Hm Hj H1 H2. unfold binary_round_aux.
  assert (Hf : ∀ d, 53 ≤ d + (e + j) + 53 + 1074 → fexp prec emax (53 + (e + j)) = e + j).
  { intros _ _. unfold fexp, emin, prec, emax. lia. }
  assert (E1 : shr_fexp prec emax (Zpos m * 2 ^ j) e loc_Exact = ({| shr_m := Zpos m; shr_r := false; shr_s := false |}, e + j)).
  { unfold shr_fexp, shr_record_of_loc.
    assert (Zdigits2 (Zpos m * 2 ^ j) = 53 + j) as ->.
    { destruct (Zpos m * 2 ^ j) as [|q|q] eqn:E; [lia| |lia]. simpl. apply digits_unique; [lia|].
      rewrite <-E. unfold full in Hm. replace (53 + j - 1) with (52 + j) by lia. rewrite !Z.pow_add_r by lia.
      pose proof (Z.pow_pos_nonneg 2 j). nia. }
    replace (53 + j + e) with (53 + (e + j)) by lia. rewrite (Hf 0) by lia.
    replace (e + j - e) with j by lia. destruct j as [|j|j]; [|by simpl; rewrite iter_shr_1|lia].
    simpl. do 2 f_equal; lia. }
  rewrite E1. simpl shr_m. simpl loc_of_shr_record. simpl round_nearest_even.
  assert (E2 : shr_fexp prec emax (Zpos m) (e + j) loc_Exact = ({| shr_m := Zpos m; shr_r := false; shr_s := false |}, e + j)).
  { unfold shr_fexp, shr_record_of_loc. simpl Zdigits2. rewrite (full_digits _ Hm), (Hf 0) by lia. by rewrite Z.sub_diag. }
  rewrite E2. simpl. unfold emax, prec. by rewrite (proj2 (Z.leb_le _ _)) by lia.
Qed.

Lemma iter_xO p d : Zpos (Pos.iter xO p d) = Zpos p * 2 ^ Zpos d.
Proof.
  induction d as [|d IH] using Pos.peano_ind; [simpl; lia|].
  rewrite Pos.iter_succ, Pos2Z.inj_succ, Z.pow_succ_r by lia. rewrite Pos2Z.inj_xO, IH. lia.
Qed.

Lemma to_f64_exact p : Zpos p < 2 ^ 53 →
  ∃ m j, to_f64 (Zpos p) = S754_finite false m (- j) ∧ full (Zpos m) ∧ Zpos m = Zpos p * 2 ^ j ∧ 0 ≤ j ≤ 52.
Proof.
  intros Hp. destruct (full_scaled p Hp) as (j & Hj & Hd & Hf).
  assert (∃ m, shl_align p 0 (fexp prec emax (Zpos (digits2_pos p) + 0)) = (m, - j) ∧ Zpos m = Zpos p * 2 ^ j) as (m & E & Em).
  { rewrite Hd. assert (fexp prec emax (53 - j + 0) = - j) as -> by (unfold fexp, emin, prec, emax; lia).
    unfold shl_align. rewrite Z.sub_0_r. destruct j as [|j|j]; [|exists (Pos.iter xO p j); split; [done|apply iter_xO]|lia].
    exists p. simpl. split; [done|lia]. }
  exists m, j. rewrite <-Em in Hf. split_and!; [|done|done|lia|lia]. unfold to_f64, binary_normalize, binary_round.
  rewrite E. replace (Zpos m) with (Zpos m * 2 ^ 0) by lia. rewrite round_exact by (done || lia). f_equal; lia.
Qed.

Lemma f64_div_pow2 m1 m2 e1 e2 : full (Zpos m1) → Zpos m2 = 2 ^ 52 → -200 ≤ e1 ≤ 200 → -200 ≤ e2 ≤ 200 →
  f64_div (S754_finite false m1 e1) (S754_finite false m2 e2) = S754_finite false m1 (e1 - e2 - 52).
Proof.
  intros Hm1 Hm2 H1 H2. unfold f64_div, SFdiv, SFdiv_core_binary. simpl Zdigits2.
  rewrite (full_digits m1 Hm1), (full_digits m2) by (unfold full; rewrite Hm2; lia).
  assert (fexp prec emax (53 + e1 - (53 + e2)) = e1 - e2 - 53) as -> by (unfold fexp, emin, prec, emax; lia).
  rewrite Z.min_l by lia. replace (e1 - e2 - (e1 - e2 - 53)) with 53 by lia. rewrite Z.shiftl_mul_pow2 by lia.
  rewrite Hm2. assert (Z.div_eucl (Zpos m1 * 2 ^ 53) (2 ^ 52) = (Zpos m1 * 2, 0)) as ->.
  { pose proof (Z.div_eucl_eq (Zpos m1 * 2 ^ 53) (2 ^ 52)). pose proof (Z.mod_pos_bound (Zpos m1 * 2 ^ 53) (2 ^ 52)).
    unfold Z.modulo in *. destruct (Z.div_eucl _ _) as [q r]. f_equal; lia. }
  change (new_location (2 ^ 52) 0) with loc_Exact. change (xorb false false) with false.
  change (Zpos m1 * 2) with (Zpos m1 * 2 ^ 1). rewrite round_exact by (done || lia). f_equal; lia.
Qed.

(** The product is exact when it has at most 53 significant bits. *)
Lemma f64_mul_exact m1 m2 e1 e2 p t : full (Zpos m1) → full (Zpos m2) → -200 ≤ e1 ≤ 200 → -200 ≤ e2 ≤ 200 →
  Zpos p < 2 ^ 53 → 0 ≤ t ≤ 106 → Zpos m1 * Zpos m2 = Zpos p * 2 ^ t →
  ∃ m j, f64_mul (S754_finite false m1 e1) (S754_finite false m2 e2) = S754_finite false m (e1 + e2 + t - j) ∧
    Zpos m = Zpos p * 2 ^ j ∧ full (Zpos m) ∧ 0 ≤ j ≤ 52.
Proof.
  intros Hm1 Hm2 H1 H2 Hp Ht E. destruct (full_scaled p Hp) as (j & Hj & _ & Hf). unfold full in *.
  destruct (Zpos p * 2 ^ j) as [|m|m] eqn:Em; [lia| |lia]. exists m, j. split_and!; [|done|lia..].
  assert (j ≤ t).
  { destruct (Z.le_gt_cases j t) as [|Hlt]; [done|].
    assert (Zpos p * 2 ^ t ≤ Zpos m).
    { rewrite <-Em. apply Z.mul_le_mono_nonneg_l; [lia|]. apply Z.pow_le_mono_r; lia. }
    nia. }
  unfold f64_mul, SFmul. change (xorb false false) with false. rewrite Pos2Z.inj_mul, E.
  replace (Zpos p * 2 ^ t) with (Zpos m * 2 ^ (t - j))
    by (rewrite <-Em, <-Z.mul_assoc, <-Z.pow_add_r by lia; do 2 f_equal; lia).
  rewrite round_exact by (unfold full; lia). f_equal; lia.
Qed.

Lemma two_decimal_places_exact size k : 0 ≤ size → 0 ≤ k ≤ 40 →
  two_decimal_places size (2 ^ k) = (size mod 2 ^ k) * 100 / 2 ^ k.
Proof.
  intros Hs Hk. unfold two_decimal_places. pose proof (Z.mod_pos_bound size (2 ^ k)) as Hn.
  assert (Hk0 : 0 < 2 ^ k) by (apply Z.pow_pos_nonneg; lia). specialize (Hn Hk0).
  assert (Hk40 : 2 ^ k ≤ 2 ^ 40) by (apply Z.pow_le_mono_r; lia).
  destruct (size mod 2 ^ k) as [|n|n]; [|clear Hs|lia].
  - destruct (2 ^ k) as [|q|q] eqn:Eq; [lia| |lia]. destruct (to_f64_exact q) as (m & j & -> & _); [lia|]. done.
  - destruct (2 ^ k) as [|q|q] eqn:Eq; [lia| |lia].
    destruct (to_f64_exact n) as (m1 & j1 & -> & Hf1 & E1 & Hj1); [lia|].
    destruct (to_f64_exact q) as (m2 & j2 & -> & Hf2 & E2 & Hj2); [lia|].
    assert (k + j2 = 52) as Hkj.
    { rewrite <-Eq, <-Z.pow_add_r in E2 by lia. unfold full in Hf2. rewrite E2 in Hf2. destruct Hf2 as [A1 A2].
      apply Z.pow_le_mono_r_iff in A1; [|lia..]. apply Z.pow_lt_mono_r_iff in A2; lia. }
    assert (Zpos m2 = 2 ^ 52) as Hm2 by (rewrite E2, <-Eq, <-Z.pow_add_r by lia; f_equal; lia).
    rewrite f64_div_pow2 by (done || lia).
    destruct (to_f64_exact 100) as (m3 & j3 & -> & Hf3 & E3 & Hj3); [lia|].
    destruct (f64_mul_exact m1 m3 (- j1 - - j2 - 52) (- j3) (n * 100) (j1 + j3)) as (m & j & -> & Em & Hf & Hj); [done|done|lia..| | ].
    { rewrite E1, E3, Pos2Z.inj_mul, Z.pow_add_r by lia. lia. }
    unfold as_u8, floor_scaled. replace (- j1 - - j2 - 52 + - j3 + (j1 + j3) - j) with (- (k + j)) by lia.
    rewrite Z.opp_involutive, Em, Pos2Z.inj_mul, Z.pow_add_r, Eq by lia.
    rewrite Z.div_mul_cancel_r by lia.
    assert (Zpos n * 100 / Zpos q < 100) by (apply Z.div_lt_upper_bound; lia).
    assert (0 ≤ Zpos n * 100 / Zpos q) by (apply Z.div_pos; lia).
    destruct (Z.leb_spec 0 (- (k + j))) as [Hneg|Hneg]; [|lia].
    assert (k = 0 ∧ j = 0) as [-> ->] by lia. simpl in Eq. injection Eq as <-. lia.
Qed.

(** *** Rounding *)

Lemma div_pow2 M a b : 0 ≤ a → 0 ≤ b → M / 2 ^ a / 2 ^ b = M / 2 ^ (a + b).
Proof. intros. rewrite Z.div_div, Z.pow_add_r; [done|lia|lia| |]; [apply Z.pow_nonzero; lia|apply Z.pow_pos_nonneg; lia]. Qed.

Lemma iter_shr_1_div j : ∀ M r s, 0 ≤ M → shr_m (iter_pos shr_1 j {| shr_m := M; shr_r := r; shr_s := s |}) = M / 2 ^ Zpos j.
Proof.
  assert (H1 : ∀ M r s, 0 ≤ M → ∃ r' s', shr_1 {| shr_m := M; shr_r := r; shr_s := s |} = {| shr_m := M / 2; shr_r := r'; shr_s := s' |}).
  { intros [|[p|p|]|p] r s HM; [| | | |lia]; do 2 eexists.
    - simpl. rewrite Z.div_0_l by lia. done.
    - replace (Zpos p~1 / 2) with (Zpos p) by (apply (Z.div_unique_pos _ 2 _ 1); lia). done.
    - replace (Zpos p~0 / 2) with (Zpos p) by (apply (Z.div_unique_pos _ 2 _ 0); lia). done.
    - done. }
  enough (Hj : ∀ j M r s, 0 ≤ M → ∃ r' s', iter_pos shr_1 j {| shr_m := M; shr_r := r; shr_s := s |} =
    {| shr_m := M / 2 ^ Zpos j; shr_r := r'; shr_s := s' |}).
  { intros M r s HM. by destruct (Hj j M r s HM) as (? & ? & ->). }
  clear j. induction j as [j IH|j IH|]; intros M r s HM; [| |by apply H1].
  - change (iter_pos shr_1 j~1 ?x) with (iter_pos shr_1 j (iter_pos shr_1 j (shr_1 x))). destruct (H1 M r s HM) as (r1 & s1 & ->). assert (0 ≤ M / 2) by (apply Z.div_pos; lia).
    destruct (IH (M / 2) r1 s1) as (r2 & s2 & ->); [done|].
    assert (0 ≤ M / 2 / 2 ^ Zpos j) by (apply Z.div_pos; [done|apply Z.pow_pos_nonneg; lia]).
    destruct (IH (M / 2 / 2 ^ Zpos j) r2 s2) as (r3 & s3 & ->); [done|]. do 2 eexists. f_equal.
    change (M / 2) with (M / 2 ^ 1). rewrite !div_pow2 by lia. do 2 f_equal. lia.
  - change (iter_pos shr_1 j~0 ?x) with (iter_pos shr_1 j (iter_pos shr_1 j x)). destruct (IH M r s) as (r2 & s2 & ->); [done|].
    assert (0 ≤ M / 2 ^ Zpos j) by (apply Z.div_pos; [done|apply Z.pow_pos_nonneg; lia]).
    destruct (IH (M / 2 ^ Zpos j) r2 s2) as (r3 & s3 & ->); [done|]. do 2 eexists. f_equal.
    rewrite !div_pow2 by lia. do 2 f_equal. lia.
Qed.

(** Rounding gives one of the two neighbours. *)
Lemma round_near M e j : 2 ^ (52 + j) ≤ M < 2 ^ (53 + j) → 0 ≤ j → -1074 ≤ e + j → e + j < 971 →
  ∃ m i, binary_round_aux prec emax false M e loc_Exact = S754_finite false m (e + j + i) ∧ 0 ≤ i ≤ 1 ∧
    M / 2 ^ j ≤ Zpos m * 2 ^ i ≤ M / 2 ^ j + 1.
Proof.
  intros HM Hj H1 H2. unfold binary_round_aux. assert (H52 : 0 < 2 ^ (52 + j)) by (apply Z.pow_pos_nonneg; lia).
  assert (Hq : full (M / 2 ^ j)).
  { assert (0 < 2 ^ j) by (apply Z.pow_pos_nonneg; lia). rewrite !Z.pow_add_r in HM by lia. unfold full.
    split; [apply Z.div_le_lower_bound; lia|apply Z.div_lt_upper_bound; lia]. }
  assert (E1 : ∃ r s, shr_fexp prec emax M e loc_Exact = ({| shr_m := M / 2 ^ j; shr_r := r; shr_s := s |}, e + j)).
  { unfold shr_fexp, shr_record_of_loc.
    assert (Zdigits2 M = 53 + j) as ->.
    { destruct M as [|q|q]; [lia| |lia]. simpl. apply digits_unique; [lia|]. by replace (53 + j - 1) with (52 + j) by lia. }
    assert (fexp prec emax (53 + j + e) - e = j) as -> by (unfold fexp, emin, prec, emax; lia).
    destruct j as [|j|j]; [|simpl shr|lia].
    - exists false, false. simpl. rewrite Z.div_1_r. do 2 f_equal; lia.
    - pose proof (iter_shr_1_div j M false false ltac:(lia)) as E. destruct (iter_pos _ _ _) as [m r s]. simpl in E. subst m. eauto. }
  destruct E1 as (r & s & ->). simpl shr_m. set (q := M / 2 ^ j) in *.
  assert (Hr : ∃ q', round_nearest_even q (loc_of_shr_record {| shr_m := q; shr_r := r; shr_s := s |}) = q' ∧ q ≤ q' ≤ q + 1).
  { eexists. split; [done|]. destruct r, s; simpl; try destruct (Z.even q); lia. }
  destruct Hr as (q' & -> & Hq'). unfold full in Hq.
  destruct (decide (q' = 2 ^ 53)) as [->|Hne].
  - exists (2 ^ 52)%positive, 1. split; [|split; [lia|]]; [|change (Zpos (2 ^ 52)) with (2 ^ 52); lia].
    pose proof (round_exact (2 ^ 52) 1 (e + j)) as E. unfold binary_round_aux in E.
    change (Zpos (2 ^ 52) * 2 ^ 1) with (2 ^ 53) in E.
    assert (Hs : shr_fexp prec emax (2 ^ 53) (e + j) loc_Exact = ({| shr_m := 2 ^ 52; shr_r := false; shr_s := false |}, e + j + 1)).
    { unfold shr_fexp. assert (fexp prec emax (Zdigits2 (2 ^ 53) + (e + j)) - (e + j) = 1) as ->.
      { change (Zdigits2 (2 ^ 53)) with 54. unfold fexp, emin, prec, emax. lia. }
      done. }
    rewrite Hs. simpl shr_m. cbv beta iota. unfold emax, prec. change (2 ^ 52) with (Zpos (2 ^ 52)).
    by rewrite (proj2 (Z.leb_le _ _)) by lia.
  - destruct q' as [|m|m]; [lia| |lia]. exists m, 0. split; [|split; lia]. rewrite Z.add_0_r.
    assert (Hs : shr_fexp prec emax (Zpos m) (e + j) loc_Exact = ({| shr_m := Zpos m; shr_r := false; shr_s := false |}, e + j)).
    { unfold shr_fexp, shr_record_of_loc. simpl Zdigits2. rewrite full_digits by (unfold full; lia).
      assert (fexp prec emax (53 + (e + j)) - (e + j) = 0) as -> by (unfold fexp, emin, prec, emax; lia). done. }
    rewrite Hs. simpl. unfold emax, prec. by rewrite (proj2 (Z.leb_le _ _)) by lia.
Qed.


Definition near (t : Z) (x : spec_float) : bool :=
  match x with
  | S754_finite false m e =>
      (-59 <=? e) && (e <=? -53) && (2 ^ 52 <=? Zpos m) && (Zpos m <? 2 ^ 53) && (Z.abs (100 * Zpos m - t * 2 ^ (- e)) <=? 100)
  | _ => false
  end.
Lemma decimal_value_near t : 1 ≤ t < 100 → ∃ m N, decimal_value t = S754_finite false m (- N) ∧ 53 ≤ N ≤ 59 ∧
  full (Zpos m) ∧ -100 ≤ 100 * Zpos m - t * 2 ^ N ≤ 100.
Proof.
  assert (forallb (λ t, near (Z.of_nat t) (decimal_value (Z.of_nat t))) (seq 1 99) = true) as Hall by (vm_compute; reflexivity).
  rewrite forallb_forall in Hall. intros Ht. specialize (Hall (Z.to_nat t)).
  rewrite <-list_elem_of_In, elem_of_seq, Z2Nat.id in Hall by lia. specialize (Hall ltac:(lia)).
  unfold near in Hall. destruct (decimal_value t) as [| | |[] m e]; try done. zb.
  exists m, (- e). rewrite Z.opp_involutive. unfold full. split; [done|lia].
Qed.

(** A whole number is printed as such. *)
Lemma whole_hundredths m1 j1 i : 0 ≤ j1 → Zpos m1 = i * 2 ^ j1 → hundredths (S754_finite false m1 (- j1)) = i * 100.
Proof.
  intros Hj E1. unfold hundredths, floor_scaled. rewrite Z.opp_involutive.
  assert ((if 0 <=? - j1 then Zpos m1 * 200 * 2 ^ (- j1) else Zpos m1 * 200 / 2 ^ j1) = i * 200) as ->.
  { destruct (Z.leb_spec 0 (- j1)) as [Hneg|Hneg].
    - assert (j1 = 0) as -> by lia. simpl in *. lia.
    - rewrite E1. replace (i * 2 ^ j1 * 200) with (i * 200 * 2 ^ j1) by lia. apply Z.div_mul, Z.pow_nonzero; lia. }
  symmetry. apply (Z.div_unique_pos _ 2 _ 1); lia.
Qed.

(** [m * P] is near [x / 100] of [P * Q], which is much larger than the error [J]. *)
Lemma near_hundredths x m P Q J : 0 < P → 0 < Q → 0 ≤ J → 200 * J + 200 < Q * P →
  x * (Q * P) - 100 * J - 100 ≤ 100 * (m * P) ≤ x * (Q * P) + 100 * J + 100 → (m * 200 / Q + 1) / 2 = x.
Proof.
  intros HP HQ HJ HPQ Hm.
  assert (Hlo : 2 * x - 1 ≤ m * 200 / Q).
  { apply Z.div_le_lower_bound; [done|]. apply (Z.mul_le_mono_pos_r _ _ P); [done|].
    replace (Q * (2 * x - 1) * P) with (2 * (x * (Q * P)) - Q * P) by ring. lia. }
  assert (Hhi : m * 200 / Q < 2 * x + 1).
  { apply Z.div_lt_upper_bound; [done|]. apply (Z.mul_lt_mono_pos_r P); [done|].
    replace (Q * (2 * x + 1) * P) with (2 * (x * (Q * P)) + Q * P) by ring. lia. }
  pose proof (Z.div_mod (m * 200 / Q + 1) 2). pose proof (Z.mod_pos_bound (m * 200 / Q + 1) 2). lia.
Qed.

(** The sum of aligned mantissas, rounded *)
Lemma sum_rounded (S : positive) N : 53 ≤ N ≤ 59 → 2 ^ N ≤ Zpos S < 2 ^ (N + 11) →
  ∃ m r, binary_normalize prec emax (Zpos S) (- N) false = S754_finite false m (r - N) ∧ 0 ≤ r ≤ N - 41 ∧
    Zpos S - 2 ^ (N - 42) ≤ Zpos m * 2 ^ r ≤ Zpos S + 2 ^ (N - 42).
Proof.
  intros HN HSN. pose proof (digits_bound S) as HS. set (d := Zpos (digits2_pos S)) in *.
  assert (Hd : 53 < d ≤ N + 11).
  { split.
    - apply (Z.pow_lt_mono_r_iff 2); [lia..|]. pose proof (Z.pow_le_mono_r 2 53 N). lia.
    - destruct (Z.le_gt_cases d (N + 11)) as [|Hc]; [done|]. pose proof (Z.pow_le_mono_r 2 (N + 11) (d - 1)). lia. }
  unfold binary_normalize, binary_round. fold d.
  assert (shl_align S (- N) (fexp prec emax (d + - N)) = (S, - N)) as ->.
  { assert (fexp prec emax (d + - N) - - N = d - 53) as Efx by (unfold fexp, emin, prec, emax; lia).
    unfold shl_align. rewrite Efx. destruct (d - 53) eqn:?; [done|done|lia]. }
  destruct (round_near (Zpos S) (- N) (d - 53)) as (m & k & -> & Hk & Hm); [|lia..|].
  { replace (52 + (d - 53)) with (d - 1) by lia. by replace (53 + (d - 53)) with d by lia. }
  set (j := d - 53) in *. exists m, (j + k). split; [f_equal; lia|]. split; [lia|].
  assert (HJ : 0 < 2 ^ j ≤ 2 ^ (N - 42)) by (split; [apply Z.pow_pos_nonneg|apply Z.pow_le_mono_r]; lia).
  pose proof (Z.div_mod (Zpos S) (2 ^ j)). pose proof (Z.mod_pos_bound (Zpos S) (2 ^ j)).
  rewrite (Z.add_comm j), Z.pow_add_r, Z.mul_assoc by lia. nia.
Qed.

(** The sum of a whole number below 1024 and a number of hundredths is close enough to be printed as such. *)
Lemma sum_hundredths i t : 1 ≤ i < 1024 → 0 ≤ t < 100 →
  hundredths (f64_add (to_f64 i) (decimal_value t)) = i * 100 + t.
Proof.
  intros Hi Ht. destruct i as [|i|i]; [lia| |lia].
  destruct (to_f64_exact i) as (m1 & j1 & -> & Hf1 & E1 & Hj1); [lia|].
  destruct (decide (t = 0)) as [->|].
  { change (decimal_value 0) with (S754_zero false). unfold f64_add, SFadd. rewrite (whole_hundredths m1 j1 (Zpos i)); lia. }
  destruct (decimal_value_near t) as (m2 & N & -> & HN & Hf2 & Hm2); [lia|].
  unfold f64_add, SFadd. rewrite Z.min_r by lia.
  assert (∃ a, fst (shl_align m1 (- j1) (- N)) = a ∧ Zpos a = Zpos i * 2 ^ N) as (a & -> & Ea).
  { eexists. split; [done|]. unfold shl_align. destruct (- N - - j1) as [|d|d] eqn:Ed; [lia|lia|].
    simpl fst. rewrite iter_xO, E1, <-Z.mul_assoc, <-Z.pow_add_r by lia. do 2 f_equal. lia. }
  assert (fst (shl_align m2 (- N) (- N)) = m2) as -> by (unfold shl_align; by rewrite Z.sub_diag).
  simpl cond_Zopp. unfold full in *. change (Zpos a + Zpos m2) with (Zpos (a + m2)).
  assert (HB : 2 ^ 53 ≤ 2 ^ N ≤ 2 ^ 59) by (split; apply Z.pow_le_mono_r; lia).
  destruct (sum_rounded (a + m2) N) as (m & r & -> & Hr & Hm); [done|rewrite Z.pow_add_r by lia; nia|].
  unfold hundredths, floor_scaled. destruct (Z.leb_spec 0 (r - N)) as [|_]; [lia|]. replace (- (r - N)) with (N - r) by lia.
  assert (HNr : 2 ^ (N - r) * 2 ^ r = 2 ^ N) by (rewrite <-Z.pow_add_r by lia; f_equal; lia).
  assert (H42 : 2 ^ (N - 42) * 2 ^ 42 = 2 ^ N) by (rewrite <-Z.pow_add_r by lia; f_equal; lia).
  apply (near_hundredths _ _ (2 ^ r) _ (2 ^ (N - 42))); rewrite ?HNr;
    [apply Z.pow_pos_nonneg; lia|apply Z.pow_pos_nonneg; lia|apply Z.pow_nonneg; lia|lia|].
  rewrite Pos2Z.inj_add, Ea in Hm. lia.
Qed.

Lemma suffix_text size k : 0 ≤ k ≤ 40 → 2 ^ k ≤ size < 2 ^ (k + 10) →
  fmt_2 (f64_add (to_f64 (size / Z.shiftl 1 k)) (decimal_value (two_decimal_places size (Z.shiftl 1 k)))) =
  hundredths_text (size * 100 / 2 ^ k).
Proof.
  intros Hk [H1 H2]. rewrite Z.shiftl_1_l. assert (Hk0 : 0 < 2 ^ k) by (apply Z.pow_pos_nonneg; lia).
  rewrite two_decimal_places_exact by lia. unfold fmt_2. f_equal.
  rewrite Z.pow_add_r in H2 by lia. pose proof (Z.div_mod size (2 ^ k)) as E. pose proof (Z.mod_pos_bound size (2 ^ k)).
  rewrite sum_hundredths.
  - rewrite (E ltac:(lia)) at 3. rewrite Z.mul_add_distr_r, <-Z.mul_assoc, (Z.mul_comm (2 ^ k)), Z.div_add_l by lia. lia.
  - split; [apply Z.div_le_lower_bound; lia|apply Z.div_lt_upper_bound; lia].
  - split; [apply Z.div_pos; lia|apply Z.div_lt_upper_bound; lia].
Qed.

(** One step of the fold *)
Definition suffix_step (size : Z) (acc : Str) (u : Z * Str) : Str :=
  let '(div, suffix) := u in
  let div_shifted := Z.shiftl 1 div in
  if bool_decide (acc = []) && (size =? 0) then str "0.00 B"
  else if bool_decide (acc = []) && (1 <=? size / div_shifted) then
    fmt_2 (f64_add (to_f64 (size / div_shifted)) (decimal_value (two_decimal_places size div_shifted))) ++ str " " ++ suffix
  else acc.

Lemma suffix_skip size l : 0 < size → Forall (λ u, 0 ≤ u.1 ∧ size < 2 ^ u.1) l → foldl (suffix_step size) [] l = [].
Proof.
  intros Hs. induction 1 as [|[k s] l [Hk Hlt] _ IH]; [done|]. simpl in *.
  rewrite (proj2 (Z.eqb_neq size 0)), Z.shiftl_1_l, (Z.div_small size) by lia. exact IH.
Qed.
Lemma suffix_done size acc l : acc ≠ [] → foldl (suffix_step size) acc l = acc.
Proof.
  intros Ha. induction l as [|[k s] l IH]; [done|]. simpl. rewrite bool_decide_eq_false_2 by done. exact IH.
Qed.
Lemma hundredths_text_nonempty n s : hundredths_text n ++ s ≠ [].
Proof. unfold hundredths_text. intros E%(f_equal length). rewrite !length_app in E. simpl in E. lia. Qed.

Lemma suffix_unit size l1 k s l2 : 0 < size → 0 ≤ k ≤ 40 → SUFFIXES = l1 ++ (k, s) :: l2 →
  Forall (λ u, 0 ≤ u.1 ∧ size < 2 ^ u.1) l1 → 2 ^ k ≤ size < 2 ^ (k + 10) →
  to_suffix_repr size = hundredths_text (size * 100 / 2 ^ k) ++ str " " ++ s.
Proof.
  intros Hs Hk E Hl Hu. change (to_suffix_repr size) with (foldl (suffix_step size) [] SUFFIXES).
  rewrite E, foldl_app, suffix_skip by done. simpl foldl. rewrite (proj2 (Z.eqb_neq size 0)) by lia.
  assert (1 ≤ size / Z.shiftl 1 k) as ->%Z.leb_le.
  { rewrite Z.shiftl_1_l. apply Z.div_le_lower_bound; [apply Z.pow_pos_nonneg; lia|lia]. }
  rewrite suffix_text by done.
  apply suffix_done, hundredths_text_nonempty.
Qed.

(** C37: [to_suffix_repr] shows a size below a pebibyte in the largest unit it reaches, with two decimal places, rounded
    down, in spite of the roundings of the floating-point operations it uses. *)
Theorem to_suffix_repr_spec size : 0 < size < 2 ^ 50 →
  ∃ k suffix, (k, suffix) ∈ SUFFIXES ∧ 2 ^ k ≤ size < 2 ^ (k + 10) ∧
    to_suffix_repr size = hundredths_text (size * 100 / 2 ^ k) ++ str " " ++ suffix.
Proof.
  intros [H0 H50].
  assert (∃ l1 k s l2, SUFFIXES = l1 ++ (k, s) :: l2 ∧ 0 ≤ k ≤ 40 ∧ Forall (λ u, 0 ≤ u.1 ∧ size < 2 ^ u.1) l1 ∧ 2 ^ k ≤ size < 2 ^ (k + 10))
    as (l1 & k & s & l2 & E & Hk & Hl & Hu).
  { destruct (Z.lt_ge_cases size (2 ^ 10)); [exists (take 6 SUFFIXES), 0|
      destruct (Z.lt_ge_cases size (2 ^ 20)); [exists (take 5 SUFFIXES), 10|
      destruct (Z.lt_ge_cases size (2 ^ 30)); [exists (take 4 SUFFIXES), 20|
      destruct (Z.lt_ge_cases size (2 ^ 40)); [exists (take 3 SUFFIXES), 30|exists (take 2 SUFFIXES), 40]]]].
    all: do 2 eexists; split; [reflexivity|]; split; [lia|]; split; [repeat constructor; simpl; lia|simpl; lia]. }
  exists k, s. split; [rewrite E; apply elem_of_app; right; apply elem_of_cons; by left|]. split; [done|]. by eapply suffix_unit.
Qed.

Lemma to_suffix_repr_spec_witness : to_suffix_repr 1935000 = str "1.84 MiB" ∧
  ∃ k suffix, (k, suffix) ∈ SUFFIXES ∧ 2 ^ k ≤ 1935000 < 2 ^ (k + 10) ∧
    to_suffix_repr 1935000 = hundredths_text (1935000 * 100 / 2 ^ k) ++ str " " ++ suffix.
Proof. split; [vm_compute; reflexivity|]. apply to_suffix_repr_spec. lia. Defined.
