(* ===== verification/Rpc.v ===== *)
(** * The JSON RPC server and its client

    Models [src/jsonrpc/]: [interface.rs], [server/] and [client/], the texts of [src/stratis/errors.rs] and
    the handling of udev events of [src/stratis/ipc_support/jsonrpc_support.rs].

    A request is processed by a task of its own, which gives way to others whenever it waits for the lock of the engine.
    A task is a value of [async]: its result, or the next piece of work done without interruption and what follows.
    The state all tasks share, [Srv], is the engine, the rest of the system, and the file descriptors received from
    clients that are still open. *)
From stdpp Require Import base list gmap sets strings pretty.
From Stdlib Require Import ZArith Lia.
From S2P Require Import Prelude External Json Actions Shared DeviceSet Identify EngineApi.

(** ** Texts of errors *)

(** [Display for StratisError]; an error of a library by its own text *)
Fixpoint error_to_string (e : StratisError) : string :=
  match e with
  | Msg s => s
  | Chained s chained => s +:+ "; " +:+ error_to_string chained
  | BestEffortError s errs =>
      match errs with
      | [] => s
      | _ => s +:+ "; " +:+ String.concat "; " (error_to_string <$> errs)
      end
  | RollbackError causal_error rollback_error =>
      "Rollback failed; causal_error: " +:+ error_to_string causal_error +:+ ", rollback error: " +:+ error_to_string rollback_error
  | NoActionRollbackError causal_error rollback_error =>
      "Rollback failed; causal_error: " +:+ error_to_string causal_error +:+ ", rollback error: " +:+ error_to_string rollback_error
  | Io err => "IO error: " +:+ err
  | Nix err => "Nix error: " +:+ err
  | UuidError err => "Uuid error: " +:+ err
  | Utf8Error err => "Utf8 error: " +:+ err
  | Crypt err => "Cryptsetup error: " +:+ err
  | DM err => "DM error: " +:+ err
  end.

(** ** Requests and replies *)

Definition PoolListType : Type := list Str * list (Z * option Z) * list (bool * bool) * list Z.
Definition FsListType : Type := list Str * list Str * list (option Z) * list Str * list Str * list Z.

Module Param.
Inductive StratisParamType : Type :=
| KeySet (key_desc : KeyDescription)
| KeyUnset (key_desc : KeyDescription)
| KeyList
| PoolCreate (name : Str) (paths : list Str) (encryption_info : EncryptionInfo)
| PoolRename (name new_name : Str)
| PoolAddData (name : Str) (paths : list Str)
| PoolInitCache (name : Str) (paths : list Str)
| PoolAddCache (name : Str) (paths : list Str)
| PoolDestroy (name : Str)
| PoolUnlock (unlock_method : UnlockMethod) (uuid : option Z)
| PoolList
| PoolIsEncrypted (uuid : Z)
| PoolIsLocked (uuid : Z)
| PoolIsBound (uuid : Z)
| PoolHasPassphrase (uuid : Z)
| PoolClevisPin (uuid : Z)
| FsCreate (pool_name fs_name : Str)
| FsDestroy (pool_name fs_name : Str)
| FsRename (pool_name fs_name new_fs_name : Str)
| FsList
| Report.
End Param.

Record StratisParams : Type := mkParams { type_ : Param.StratisParamType; fd_opt : option Z }.

Module Ret.
Inductive StratisRet : Type :=
| KeySet (r : option bool * Z * string)
| KeyUnset (r : bool * Z * string)
| KeyList (r : list KeyDescription * Z * string)
| PoolCreate (r : bool * Z * string)
| PoolRename (r : bool * Z * string)
| PoolAddData (r : bool * Z * string)
| PoolInitCache (r : bool * Z * string)
| PoolAddCache (r : bool * Z * string)
| PoolDestroy (r : bool * Z * string)
| PoolUnlock (r : bool * Z * string)
| PoolList (r : PoolListType)
| PoolIsEncrypted (r : bool * Z * string)
| PoolIsLocked (r : bool * Z * string)
| PoolIsBound (r : bool * Z * string)
| PoolHasPassphrase (r : bool * Z * string)
| PoolClevisPin (r : option Str * Z * string)
| FsCreate (r : bool * Z * string)
| FsList (r : FsListType)
| FsDestroy (r : bool * Z * string)
| FsRename (r : bool * Z * string)
| Report (r : Value).
End Ret.
Notation StratisParamType := Param.StratisParamType.
Notation StratisRet := Ret.StratisRet.

Definition OP_OK : Z := 0.
Definition OP_ERR : Z := 1.
Definition OP_OK_STR : string := "OK".

(** [serde_json] at the types of requests and replies; a request or reply is one JSON object or string, so no
    proper beginning of its text is a value *)
Class RpcSerde : Type := {
  param_to_vec : StratisParamType → list Z;
  param_from_slice : list Z → option StratisParamType;
  ret_to_vec : StratisRet → list Z;
  ret_from_slice : list Z → option StratisRet;
  param_roundtrip p : param_from_slice (param_to_vec p) = Some p;
  ret_roundtrip r : ret_from_slice (ret_to_vec r) = Some r;
  param_prefix p n : (n < length (param_to_vec p))%nat → param_from_slice (take n (param_to_vec p)) = None;
  ret_prefix r n : (n < length (ret_to_vec r))%nat → ret_from_slice (take n (ret_to_vec r)) = None
}.

(** [stratis_result_to_return] *)
Definition stratis_result_to_return {T} (result : StratisError + T) (default_value : T) : T * Z * string :=
  match result with
  | inr r => (r, OP_OK, OP_OK_STR)
  | inl e => (default_value, OP_ERR, error_to_string e)
  end.

(** ** Tasks *)

Section rpc.
Context `{Traits}.

Record Srv : Type := mkSrv { s_engine : Engine_; s_world : World_; s_open : gset Z }.

Inductive async (A : Type) : Type :=
| Ready (a : A)
| Dead (why : string)
| Step (work : Srv → async A * Srv).
End rpc.
Arguments Ready {_ A} a.
Arguments Dead {_ A} why.
Arguments Step {_ A} work.

Section server.
Context `{Traits} `{UuidFormat}.

#[global] Instance async_ret : MRet async := λ A a, Ready a.
Fixpoint abind {A B} (m : async A) (f : A → async B) : async B :=
  match m with
  | Ready a => f a
  | Dead why => Dead why
  | Step work => Step (λ s, let '(m', s') := work s in (abind m' f, s'))
  end.
#[global] Instance async_bind : MBind async := λ A B f m, abind m f.

(** [lock = engine.lock().await], what is done with it, and its release *)
Definition locked {A} (m : st (Engine_ * World_) A) : async (StratisError + A) :=
  Step (λ s, let '(r, (e, w)) := m (s_engine s, s_world s) in
             (match r with Ok a => Ready (inr a) | Err e => Ready (inl e) | Panic why => Dead why end,
              mkSrv e w (s_open s))).
(** the same for code that has no error to return *)
Definition locked_ {A} (m : st (Engine_ * World_) A) : async A :=
  r ← locked m; match r with inr a => mret a | inl _ => Dead "error" end.
(** [close]; its error is only logged, and the descriptor is gone in any case *)
Definition close (fd : Z) : async unit :=
  Step (λ s, (Ready tt, mkSrv (s_engine s) (s_world s) (s_open s ∖ {[fd]}))).

(** *** Access to the locked engine *)

Definition engine_ : st (Engine_ * World_) Engine_ := λ s, (Ok s.1, s).
(** a call of a pool the engine lent *)
Definition on_pool {A} (pool : Pool_) (put : Pool_ → Engine_) (m : st (Pool_ * World_) A) : st (Engine_ * World_) A :=
  λ s, let '(r, (p, w)) := m (pool, s.2) in (r, (put p, w)).
(** a query; [ok()] of its result *)
Definition ok_of {A} (m : st World_ A) : st (Engine_ * World_) (option A) := λ s,
  match m s.2 with
  | (Ok a, w) => (Ok (Some a), (s.1, w))
  | (Err _, w) => (Ok None, (s.1, w))
  | (Panic why, w) => (Panic why, (s.1, w))
  end.

Definition name_to_uuid_and_pool (engine : Engine_) (name : Str) : res (option (Z * Pool_ * (Pool_ → Engine_))) :=
  let uuids_pools_for_name :=
    omap (λ '(n, u, p, put), if bool_decide (n = name) then Some (u, p, put) else None) (e_pools_mut engine) in
  rassert (length uuids_pools_for_name <=? 1)%nat "assertion failed: uuids_pools_for_name.len() <= 1"
    (Ok (last uuids_pools_for_name)).
(** ... with the error for an unknown name *)
Definition named (name : Str) (error : string) : st (Engine_ * World_) (Z * Pool_ * (Pool_ → Engine_)) :=
  let! engine := engine_ in
  let! r := ilift (name_to_uuid_and_pool engine name) in
  match r with Some x => iret x | None => ierr (Msg error) end.

(** ** Handlers *)

(** *** Keys *)

(** the descriptor is closed by the [File] that [set_key_shared] makes of it *)
Definition key_set (key_desc : KeyDescription) (key_fd : Z) : async (StratisError + option bool) :=
  Step (λ s, let '(r, (e, w)) := k_set key_desc key_fd (s_engine s, s_world s) in
             (match r with
              | Ok (MCCreated _) => Ready (inr (Some false))
              | Ok (MCValueChanged _) => Ready (inr (Some true))
              | Ok MCIdentity => Ready (inr None)
              | Err e => Ready (inl e)
              | Panic why => Dead why
              end, mkSrv e w (s_open s ∖ {[key_fd]}))).
Definition key_unset (key_desc : KeyDescription) : async (StratisError + bool) :=
  locked (let! r := k_unset key_desc in
          iret (match r with MDDeleted _ => true | MDIdentity => false end)).
Definition key_list : async (StratisError + list KeyDescription) := locked k_list.
Definition key_get_desc (pool_uuid : Z) : async (option KeyDescription) :=
  locked_ (let! e := engine_ in
           iret (info ← e_locked_pools e !! pool_uuid; key_description (lp_info info))).

(** *** Pools *)

(** the loop over all locked pools; an error is only noted *)
Fixpoint unlock_all (unlock_method : UnlockMethod) (uuids : list Z) (acc : bool) : st (Engine_ * World_) bool :=
  match uuids with
  | [] => iret acc
  | uuid :: rest =>
      let! res := itry (e_unlock_pool uuid unlock_method) in
      unlock_all unlock_method rest (match res with inr ok => acc || is_changed ok | inl _ => acc end)
  end.
Definition pool_unlock (unlock_method : UnlockMethod) (pool_uuid : option Z) (prompt : option Z)
    : async (StratisError + bool) :=
  r ← match pool_uuid, prompt with
      | Some uuid, Some fd =>
          kd ← key_get_desc uuid;
          match kd with
          | Some kd => r ← key_set kd fd; mret (match r with inr _ => inr tt | inl e => inl e end)
          | None => mret (inr tt)
          end
      | Some uuid, None => _ ← key_get_desc uuid; mret (inr tt)
      | None, _ => mret (inr tt)
      end;
  match r with
  | inl e => mret (inl e)
  | inr _ =>
      match pool_uuid with
      | Some u => locked (let! a := e_unlock_pool u unlock_method in iret (is_some (changed a)))
      | None => locked (let! e := engine_ in unlock_all unlock_method (map_to_list (e_locked_pools e)).*1 false)
      end
  end.
Definition pool_create (name : Str) (blockdev_paths : list Str) (enc_info : EncryptionInfo)
    : async (StratisError + bool) :=
  locked (let! r := e_create_pool name blockdev_paths None enc_info in
          iret (match r with CACreated _ => true | CAIdentity => false end)).
Definition pool_destroy (name : Str) : async (StratisError + bool) :=
  locked (let! '(uuid, _, _) := named name "No pool found with name {}" in
          let! r := e_destroy_pool uuid in
          iret (match r with DADeleted _ => true | DAIdentity => false end)).
Definition pool_init_cache (name : Str) (paths : list Str) : async (StratisError + bool) :=
  locked (let! '(uuid, pool, put) := named name "No pool found with name {}" in
          let! r := on_pool pool put (p_init_cache uuid name paths) in iret (is_changed r)).
Definition pool_rename (current_name new_name : Str) : async (StratisError + bool) :=
  locked (let! '(uuid, _, _) := named current_name "No pool found with name {}" in
          let! r := e_rename_pool uuid new_name in
          match r with
          | RAIdentity => iret false
          | RARenamed _ => iret true
          | RANoSource => ilift (Panic "internal error: entered unreachable code")
          end).
Definition add_blockdevs (name : Str) (blockdevs : list Str) (tier : BlockDevTier) : async (StratisError + bool) :=
  locked (let! '(uuid, pool, put) := named name "No pool found with name {}" in
          let! r := on_pool pool put (p_add_blockdevs uuid name blockdevs tier) in iret (is_changed r)).
Definition pool_add_data (name : Str) (blockdevs : list Str) : async (StratisError + bool) := add_blockdevs name blockdevs Data.
Definition pool_add_cache (name : Str) (blockdevs : list Str) : async (StratisError + bool) := add_blockdevs name blockdevs Cache.

(** a [Sectors] as [Bytes] *)
Definition sector_bytes (sectors : Z) : Z := sectors * 512.
Fixpoint pool_list_rows (pools : list (Str * Z * Pool_)) : st (Engine_ * World_) PoolListType :=
  match pools with
  | [] => iret ([], [], [], [])
  | (n, u, p) :: rest =>
      let! used := ok_of (p_total_physical_used p) in
      let! encrypted := ilift (p_is_encrypted p) in
      let! '(name_vec, size_vec, pool_props_vec, uuid_vec) := pool_list_rows rest in
      iret (n :: name_vec, (sector_bytes (p_total_physical_size p), sector_bytes <$> used) :: size_vec,
            (p_has_cache p, encrypted) :: pool_props_vec, u :: uuid_vec)
  end.
Definition pool_list : async PoolListType := locked_ (let! e := engine_ in pool_list_rows (e_pools e)).

(** What is known of a pool, set up or locked *)
Definition pool_query {A} (uuid : Z) (running : Pool_ → res A) (is_locked : LockedPoolInfo → A) : async (StratisError + A) :=
  locked (let! e := engine_ in
          match e_get_pool e uuid with
          | Some (_, pool) => ilift (running pool)
          | None =>
              match e_locked_pools e !! uuid with
              | Some info => iret (is_locked info)
              | None => ierr (Msg "Pool with UUID {} not found")
              end
          end).
Definition pool_is_encrypted (uuid : Z) : async (StratisError + bool) := pool_query uuid p_is_encrypted (λ _, true).
Definition pool_is_locked (uuid : Z) : async (StratisError + bool) := pool_query uuid (λ _, Ok false) (λ _, true).
Definition pool_is_bound (uuid : Z) : async (StratisError + bool) :=
  pool_query uuid (λ p, rmap (λ i, is_some (clevis_info i)) (p_encryption_info p))
    (λ info, is_some (clevis_info (lp_info info))).
Definition pool_has_passphrase (uuid : Z) : async (StratisError + bool) :=
  pool_query uuid (λ p, rmap (λ i, is_some (key_description i)) (p_encryption_info p))
    (λ info, is_some (key_description (lp_info info))).
Definition pool_clevis_pin (uuid : Z) : async (StratisError + option Str) :=
  pool_query uuid (λ p, rmap (λ i, fst <$> clevis_info i) (p_encryption_info p)) (λ info, fst <$> clevis_info (lp_info info)).

(** *** Filesystems *)

Definition filesystem_create (pool_name name : Str) : async (StratisError + bool) :=
  locked (let! '(pool_uuid, pool, put) := named pool_name "No pool named {} found" in
          let! r := on_pool pool put (p_create_filesystems pool_name pool_uuid [(name, None)]) in iret (is_changed r)).

Fixpoint fs_rows (name : Str) (filesystems : list (Str * Z * Filesystem_)) (acc : FsListType)
    : st (Engine_ * World_) FsListType :=
  match filesystems with
  | [] => iret acc
  | (fs_name, uuid, fs) :: rest =>
      let! used := ok_of (fs_used fs) in
      let '(a0, a1, a2, a3, a4, a5) := acc in
      fs_rows name rest (a0 ++ [name], a1 ++ [fs_name], a2 ++ [used], a3 ++ [fs_created fs], a4 ++ [fs_devnode fs], a5 ++ [uuid])
  end.
Fixpoint fs_list_rows (pools : list (Str * Z * Pool_)) (acc : FsListType) : st (Engine_ * World_) FsListType :=
  match pools with
  | [] => iret acc
  | (name, _, pool) :: rest => let! acc := fs_rows name (p_filesystems pool) acc in fs_list_rows rest acc
  end.
Definition filesystem_list : async FsListType :=
  locked_ (let! e := engine_ in fs_list_rows (e_pools e) ([], [], [], [], [], [])).

(** [get_filesystem_by_name] with the error for an unknown name *)
Definition fs_named (pool : Pool_) (fs_name : Str) : st (Engine_ * World_) Z :=
  match p_get_filesystem_by_name pool fs_name with
  | Some (uuid, _) => iret uuid
  | None => ierr (Msg "No filesystem named {} found")
  end.
Definition filesystem_destroy (pool_name fs_name : Str) : async (StratisError + bool) :=
  locked (let! '(_, pool, put) := named pool_name "No pool named {} found" in
          let! uuid := fs_named pool fs_name in
          let! r := on_pool pool put (p_destroy_filesystems pool_name [uuid]) in iret (is_changed r)).
Definition filesystem_rename (pool_name fs_name new_fs_name : Str) : async (StratisError + bool) :=
  locked (let! '(_, pool, put) := named pool_name "No pool named {} found" in
          let! uuid := fs_named pool fs_name in
          let! r := on_pool pool put (p_rename_filesystem pool_name uuid new_fs_name) in iret (is_changed r)).

Definition report : async Value := locked_ (let! e := engine_ in iret (e_engine_state_report e)).

(** ** Processing a request *)

(** [expects_fd!(.., true)] *)
Definition expects_fd {T} (fd_opt : option Z) (ret : T * Z * string → StratisRet) (default : T) (k : Z → async StratisRet)
    : async StratisRet :=
  match fd_opt with
  | Some fd => k fd
  | None => mret (ret (stratis_result_to_return (inl (Msg "Method expected a file descriptor and did not receive one")) default))
  end.
(** [expects_fd!(.., false)] *)
Definition expects_no_fd {T} (fd_opt : option Z) (ret : T * Z * string → StratisRet) (default : T) (k : async StratisRet)
    : async StratisRet :=
  match fd_opt with
  | Some fd =>
      close fd;;
      mret (ret (stratis_result_to_return
        (inl (Msg "Method did not expect a file descriptor and received one anyway; file descriptor has been closed")) default))
  | None => k
  end.
Definition close_opt (fd_opt : option Z) : async unit := match fd_opt with Some fd => close fd | None => mret tt end.
(** the reply for a handler's result *)
Definition returns {T} (ret : T * Z * string → StratisRet) (m : async (StratisError + T)) (default : T) : async StratisRet :=
  r ← m; mret (ret (stratis_result_to_return r default)).

Definition process (self : StratisParams) : async StratisRet :=
  match type_ self with
  | Param.KeySet key_desc =>
      expects_fd (fd_opt self) Ret.KeySet None (λ fd, returns Ret.KeySet (key_set key_desc fd) None)
  | Param.KeyUnset key_desc =>
      expects_no_fd (fd_opt self) Ret.KeyUnset false (returns Ret.KeyUnset (key_unset key_desc) false)
  | Param.KeyList =>
      expects_no_fd (fd_opt self) Ret.KeyUnset false (returns Ret.KeyList key_list [])
  | Param.PoolCreate name paths encryption_info =>
      expects_no_fd (fd_opt self) Ret.PoolCreate false
        (returns Ret.PoolCreate (pool_create name paths encryption_info) false)
  | Param.PoolRename name new_name =>
      expects_no_fd (fd_opt self) Ret.PoolRename false (returns Ret.PoolRename (pool_rename name new_name) false)
  | Param.PoolAddData name paths =>
      expects_no_fd (fd_opt self) Ret.PoolAddData false (returns Ret.PoolInitCache (pool_add_data name paths) false)
  | Param.PoolInitCache name paths =>
      expects_no_fd (fd_opt self) Ret.PoolInitCache false (returns Ret.PoolInitCache (pool_init_cache name paths) false)
  | Param.PoolAddCache name paths =>
      expects_no_fd (fd_opt self) Ret.PoolAddCache false (returns Ret.PoolAddCache (pool_add_cache name paths) false)
  | Param.PoolDestroy name =>
      expects_no_fd (fd_opt self) Ret.PoolDestroy false (returns Ret.PoolDestroy (pool_destroy name) false)
  | Param.PoolUnlock unlock_method uuid =>
      returns Ret.PoolUnlock (pool_unlock unlock_method uuid (fd_opt self)) false
  | Param.PoolList => close_opt (fd_opt self);; l ← pool_list; mret (Ret.PoolList l)
  | Param.PoolIsEncrypted uuid =>
      expects_no_fd (fd_opt self) Ret.PoolIsEncrypted false (returns Ret.PoolIsEncrypted (pool_is_encrypted uuid) false)
  | Param.PoolIsLocked uuid =>
      expects_no_fd (fd_opt self) Ret.PoolIsLocked false (returns Ret.PoolIsLocked (pool_is_locked uuid) false)
  | Param.PoolIsBound uuid =>
      expects_no_fd (fd_opt self) Ret.PoolIsBound false (returns Ret.PoolIsBound (pool_is_bound uuid) false)
  | Param.PoolHasPassphrase uuid =>
      expects_no_fd (fd_opt self) Ret.PoolHasPassphrase false (returns Ret.PoolHasPassphrase (pool_has_passphrase uuid) false)
  | Param.PoolClevisPin uuid =>
      expects_no_fd (fd_opt self) Ret.PoolClevisPin None (returns Ret.PoolClevisPin (pool_clevis_pin uuid) None)
  | Param.FsCreate pool_name fs_name =>
      expects_no_fd (fd_opt self) Ret.FsCreate false (returns Ret.FsCreate (filesystem_create pool_name fs_name) false)
  | Param.FsList => close_opt (fd_opt self);; l ← filesystem_list; mret (Ret.FsList l)
  | Param.FsDestroy pool_name fs_name =>
      expects_no_fd (fd_opt self) Ret.FsDestroy false (returns Ret.FsDestroy (filesystem_destroy pool_name fs_name) false)
  | Param.FsRename pool_name fs_name new_fs_name =>
      expects_no_fd (fd_opt self) Ret.FsRename false
        (returns Ret.FsRename (filesystem_rename pool_name fs_name new_fs_name) false)
  | Param.Report => close_opt (fd_opt self);; v ← report; mret (Ret.Report v)
  end.
End server.

(** ** Messages on the socket *)

(** [ControlMessageOwned] *)
Inductive ControlMessage : Type := ScmRights (fds : list Z) | OtherControl.

(** The descriptor a request came with, and those that were closed *)
Definition handle_cmsgs (cmsgs : list ControlMessage) : (StratisError + option Z) * list Z :=
  match cmsgs with
  | _ :: _ :: _ =>
      (inl (Msg "Unix packet contained more than one ancillary data message"),
       concat (omap (λ m, match m with ScmRights vec => Some vec | OtherControl => None end) cmsgs))
  | [ScmRights vec] =>
      if (1 <? length vec)%nat then (inl (Msg "Received more than one file descriptor"), vec)
      else (inr (last vec), [])
  | _ => (inr None, [])
  end.

Definition BUFFER_SIZE : nat := Z.to_nat 65536.

Section messages.
Context `{RpcSerde}.

(** [recvmsg] gave an error, or the bytes and control messages that had arrived, as much as fits *)
Definition try_recvmsg (rmsg : StratisError + (list Z * list ControlMessage)) : (StratisError + StratisParams) * list Z :=
  match rmsg with
  | inl e => (inl e, [])
  | inr (data, cmsgs) =>
      match handle_cmsgs cmsgs with
      | (inl e, closed) => (inl e, closed)
      | (inr fd, closed) =>
          (match param_from_slice (take BUFFER_SIZE data) with
           | Some p => inr (mkParams p fd)
           | None => inl (Msg "serde")
           end, closed)
      end
  end.
End messages.

(** ** The server *)

Section system.
Context `{Traits} `{RpcSerde}.

(** A request being processed: what was asked for, and what is left to do *)
Record Task : Type := mkTask { t_params : StratisParams; t_rest : async StratisRet }.
Record Server : Type := mkServer { v_srv : Srv; v_tasks : gmap nat Task }.

Inductive Event : Type :=
| Receive (conn : nat) (rmsg : StratisError + (list Z * list ControlMessage))
| Progress (conn : nat)
| Udev (event : UdevEngineEvent)
| Evented.

(** [Dropped]: no reply is sent; the connection stays open (RpcSocket.v) *)
Inductive Output : Type :=
| Replied (conn : nat) (reply : list Z)
| Dropped (conn : nat) (e : StratisError)
| Panicked (why : string).

(** the descriptors that come with a message *)
Definition received_fds (rmsg : StratisError + (list Z * list ControlMessage)) : list Z :=
  match rmsg with
  | inl _ => []
  | inr (_, cmsgs) => concat (omap (λ m, match m with ScmRights vec => Some vec | OtherControl => None end) cmsgs)
  end.

(** the engine's own part of a step; an error is only logged *)
Definition background {A} (m : st (Engine_ * World_) A) (v : Server) : Server * list Output :=
  let s := v_srv v in
  let '(r, (e, w)) := m (s_engine s, s_world s) in
  (mkServer (mkSrv e w (s_open s)) (v_tasks v), match r with Panic why => [Panicked why] | _ => [] end).

(** The tasks started by [handle_request], and the handlers of udev and devicemapper events *)
Definition server_step (event : Event) (v : Server) : Server * list Output :=
  let s := v_srv v in
  match event with
  | Receive conn rmsg =>
      let '(r, closed) := try_recvmsg rmsg in
      let s' := mkSrv (s_engine s) (s_world s) ((s_open s ∪ list_to_set (received_fds rmsg)) ∖ list_to_set closed) in
      match r with
      | inr params => (mkServer s' (<[conn := mkTask params (process params)]> (v_tasks v)), [])
      | inl e => (mkServer s' (v_tasks v), [Dropped conn e])
      end
  | Progress conn =>
      match v_tasks v !! conn with
      | None => (v, [])
      | Some (mkTask params (Ready ret)) => (mkServer s (delete conn (v_tasks v)), [Replied conn (ret_to_vec ret)])
      | Some (mkTask params (Dead why)) => (mkServer s (delete conn (v_tasks v)), [Panicked why])
      | Some (mkTask params (Step work)) =>
          let '(rest, s') := work s in (mkServer s' (<[conn := mkTask params rest]> (v_tasks v)), [])
      end
  | Udev event => background (e_handle_event event) v
  | Evented => background e_evented v
  end.

(** The kernel gives a received descriptor a number that is not in use. *)
Definition possible (event : Event) (v : Server) : Prop :=
  match event with
  | Receive conn rmsg =>
      v_tasks v !! conn = None ∧ NoDup (received_fds rmsg) ∧ ∀ fd, fd ∈ received_fds rmsg → fd ∉ s_open (v_srv v)
  | _ => True
  end.
End system.

(** ** A client alone with the server *)

Section alone.
Context `{Traits} `{RpcSerde}.

(** All of a task, without interruption *)
Fixpoint run_task {A} (m : async A) (s : Srv) : res A * Srv :=
  match m with
  | Ready a => (Ok a, s)
  | Dead why => (Panic why, s)
  | Step work => let '(m', s') := work s in run_task m' s'
  end.

(** What a client that sends [data] and a descriptor reads as reply; where none is sent it waits for ever, since the connection is not closed
    either, which counts as a panic here *)
Definition serve (data : list Z) (fd : option Z) : st Srv (list Z) := λ s,
  let rmsg := inr (data, match fd with Some f => [ScmRights [f]] | None => [] end) in
  let '(r, closed) := try_recvmsg rmsg in
  let s1 := mkSrv (s_engine s) (s_world s) ((s_open s ∪ list_to_set (received_fds rmsg)) ∖ list_to_set closed) in
  match r with
  | inl _ => (Panic "no reply", s1)
  | inr params =>
      match run_task (process params) s1 with
      | (Ok ret, s2) => (Ok (ret_to_vec ret), s2)
      | (_, s2) => (Panic "no reply", s2)
      end
  end.
End alone.
