(* ===== verification/RpcClient.v ===== *)
(** * The client of the JSON RPC server

    Models [src/jsonrpc/client/].  A function sends its request over a new connection and reads one reply; [exchange] is
    what happens in between, over a state of any type.  What it prints are the lines it returns.  Opening the key
    file, asking for the passphrase and the pipe it is written to are arguments. *)
From stdpp Require Import base list gmap sets strings pretty.
From Stdlib Require Import ZArith Lia.
From S2P Require Import Prelude External Json Actions Shared DeviceSet EngineApi Rpc Suffix.

(** ** Tables *)

Inductive Align := Left | Right.

Definition spaces (n : Z) : Str := replicate (Z.to_nat n) 32.
(** [align!]; the lengths are in bytes *)
Definition align (string : Str) (max_length : Z) (a : Align) : Str :=
  match a with
  | Right => spaces (max_length - str_len string + 3) ++ string
  | Left => string ++ spaces (max_length - str_len string + 3)
  end.

Record Column : Type := mkColumn { heading : Str; values : list Str; col_align : Align }.

Definition max_length (c : Column) : Z := foldl (λ acc val, if acc <? str_len val then str_len val else acc) (str_len (heading c)) (values c).
(** the cells of a column, its heading first *)
Definition segments (c : Column) : list Str := (λ s, align s (max_length c) (col_align c)) <$> heading c :: values c.
(** [get_mut(index)] and [push_str] *)
Fixpoint push_rows (output segs : list Str) : list Str :=
  match output, segs with
  | string :: output, seg :: segs => (string ++ seg) :: push_rows output segs
  | _, _ => output
  end.

(** whether the columns have the same number of values, and the number of the first *)
Definition same_lengths (acc : bool * option nat) (lengths : list nat) : bool * option nat :=
  foldl (λ '(is_same, len_opt) len,
    match len_opt with
    | None => (true, Some len)
    | Some l => (is_same && bool_decide (l = len), len_opt)
    end) acc lengths.
(** [print_table!]: the lines printed *)
Definition print_table (columns : list Column) : res (list Str) :=
  let '(lengths_same, lengths) := same_lengths (true, None) ((λ c, length (values c)) <$> columns) in
  if negb lengths_same then Err (Msg "All values parameters must be the same length")
  else Ok (foldl (λ output c, push_rows output (segments c)) (replicate (default 0%nat lengths + 1) []) columns).

Definition FAILURE : Str := str "FAILURE".
Definition size_string (sizes : list (Z * option Z)) : list Str :=
  (λ '(size, used),
     let free := (λ u, wrap128 (size - u)) <$> used in
     to_suffix_repr size ++ str " / " ++ match used with Some u => to_suffix_repr u | None => FAILURE end ++
     str " / " ++ match free with Some f => to_suffix_repr f | None => FAILURE end) <$> sizes.
Definition properties_string (properties : list (bool * bool)) : list Str :=
  (λ '(has_cache, is_encrypted),
     (if has_cache : bool then str " Ca" else str "~Ca") ++ str "," ++ (if is_encrypted : bool then str " Cr" else str "~Cr")) <$> properties.

(** ** Requests *)

Section client.
Context `{RpcSerde} `{UuidDisplay}.
Context {X : Type} (exchange : list Z → option Z → st X (list Z)).
Context (open_file : Str → res Z) (prompt_password : res Str) (password_pipe : Str → res Z).

(** [StratisClient::request] *)
Definition request (params : StratisParams) : st X StratisRet :=
  let! reply := exchange (param_to_vec (type_ params)) (fd_opt params) in
  match ret_from_slice (take BUFFER_SIZE reply) with
  | Some ret => iret ret
  | None => ierr (Msg "serde")
  end.

(** [do_request!]; [matches] is the pattern for the reply *)
Definition do_request {T} (type_ : StratisParamType) (fd : option Z) (matches : StratisRet → option T) : st X T :=
  let! ret := request (mkParams type_ fd) in
  match matches ret with
  | Some ret => iret ret
  | None => ierr (Msg "Request and response types did not match")
  end.

(** [do_request_standard!] *)
Definition do_request_standard (type_ : StratisParamType) (fd : option Z) (matches : StratisRet → option (bool * Z * string)) : st X unit :=
  let! '(changed, rc, rs) := do_request type_ fd matches in
  if negb (rc =? 0) then ierr (Msg rs)
  else if negb changed then ierr (Msg "The requested action had no effect")
  else iret tt.

(** a query whose reply has a code *)
Definition do_query {T} (type_ : StratisParamType) (matches : StratisRet → option (T * Z * string)) : st X T :=
  let! '(value, rc, rs) := do_request type_ None matches in
  if negb (rc =? 0) then ierr (Msg rs) else iret value.

(** *** Keys *)

Definition key_set_reply (r : StratisRet) : option (option bool * Z * string) := match r with Ret.KeySet r => Some r | _ => None end.
Definition key_set_outcome (r : option bool * Z * string) : st X unit :=
  let '(changed, rc, rs) := r in
  if negb (rc =? 0) then ierr (Msg rs)
  else match changed with None => ierr (Msg "The requested action had no effect") | Some _ => iret tt end.
Definition key_set (key_desc : KeyDescription) (keyfile_path : option Str) : st X unit :=
  match keyfile_path with
  | Some kp =>
      let! fd := ilift (open_file kp) in
      let! r := do_request (Param.KeySet key_desc) (Some fd) key_set_reply in key_set_outcome r
  | None =>
      let! password := ilift prompt_password in
      match password with
      | [] => iret tt
      | _ =>
          let! read_end := ilift (password_pipe password) in
          let! r := do_request (Param.KeySet key_desc) (Some read_end) key_set_reply in key_set_outcome r
      end
  end.
Definition key_unset (key_desc : KeyDescription) : st X unit :=
  do_request_standard (Param.KeyUnset key_desc) None (λ r, match r with Ret.KeyUnset r => Some r | _ => None end).
Definition key_list : st X (list Str) :=
  let! info := do_query Param.KeyList (λ r, match r with Ret.KeyList r => Some r | _ => None end) in
  ilift (print_table [mkColumn (str "Key Description") info Left]).

(** *** Pools *)

Definition pool_create (name : Str) (blockdevs : list Str) (enc_info : EncryptionInfo) : st X unit :=
  do_request_standard (Param.PoolCreate name blockdevs enc_info) None (λ r, match r with Ret.PoolCreate r => Some r | _ => None end).
Definition pool_unlock_reply (r : StratisRet) : option (bool * Z * string) := match r with Ret.PoolUnlock r => Some r | _ => None end.
Definition pool_unlock (unlock_method : UnlockMethod) (uuid : option Z) (prompt : bool) : st X unit :=
  if prompt then
    let! password := ilift prompt_password in
    match password with
    | [] => iret tt
    | _ =>
        let! read_end := ilift (password_pipe password) in
        do_request_standard (Param.PoolUnlock unlock_method uuid) (Some read_end) pool_unlock_reply
    end
  else do_request_standard (Param.PoolUnlock unlock_method uuid) None pool_unlock_reply.
Definition pool_init_cache (name : Str) (paths : list Str) : st X unit :=
  do_request_standard (Param.PoolInitCache name paths) None (λ r, match r with Ret.PoolInitCache r => Some r | _ => None end).
Definition pool_rename (name new_name : Str) : st X unit :=
  do_request_standard (Param.PoolRename name new_name) None (λ r, match r with Ret.PoolRename r => Some r | _ => None end).
Definition pool_add_data (name : Str) (paths : list Str) : st X unit :=
  do_request_standard (Param.PoolAddData name paths) None (λ r, match r with Ret.PoolAddData r => Some r | _ => None end).
Definition pool_add_cache (name : Str) (paths : list Str) : st X unit :=
  do_request_standard (Param.PoolAddCache name paths) None (λ r, match r with Ret.PoolAddCache r => Some r | _ => None end).
Definition pool_destroy (name : Str) : st X unit :=
  do_request_standard (Param.PoolDestroy name) None (λ r, match r with Ret.PoolDestroy r => Some r | _ => None end).
Definition pool_list : st X (list Str) :=
  let! '(names, sizes, properties, uuids) :=
    do_request Param.PoolList None (λ r, match r with Ret.PoolList r => Some r | _ => None end) in
  ilift (print_table
    [mkColumn (str "Name") names Left; mkColumn (str "Total Physical") (size_string sizes) Right;
     mkColumn (str "Properties") (properties_string properties) Right; mkColumn (str "UUID") (uuid_to_string <$> uuids) Right]).
Definition pool_is_encrypted (uuid : Z) : st X bool :=
  do_query (Param.PoolIsEncrypted uuid) (λ r, match r with Ret.PoolIsEncrypted r => Some r | _ => None end).
Definition pool_is_locked (uuid : Z) : st X bool :=
  do_query (Param.PoolIsLocked uuid) (λ r, match r with Ret.PoolIsLocked r => Some r | _ => None end).
Definition pool_is_bound (uuid : Z) : st X bool :=
  do_query (Param.PoolIsBound uuid) (λ r, match r with Ret.PoolIsBound r => Some r | _ => None end).
Definition pool_has_passphrase (uuid : Z) : st X bool :=
  do_query (Param.PoolHasPassphrase uuid) (λ r, match r with Ret.PoolHasPassphrase r => Some r | _ => None end).
Definition pool_clevis_pin (uuid : Z) : st X Str :=
  let! clevis_pin := do_query (Param.PoolClevisPin uuid) (λ r, match r with Ret.PoolClevisPin r => Some r | _ => None end) in
  iret (default (str "None") clevis_pin).

(** *** Filesystems *)

Definition filesystem_create (pool_name filesystem_name : Str) : st X unit :=
  do_request_standard (Param.FsCreate pool_name filesystem_name) None (λ r, match r with Ret.FsCreate r => Some r | _ => None end).
Definition filesystem_list : st X (list Str) :=
  let! '(pool_names, fs_names, used, created, paths, uuids) :=
    do_request Param.FsList None (λ r, match r with Ret.FsList r => Some r | _ => None end) in
  ilift (print_table
    [mkColumn (str "Pool Name") pool_names Left; mkColumn (str "Name") fs_names Left;
     mkColumn (str "Used") ((λ u_opt, from_option to_suffix_repr FAILURE u_opt) <$> used) Left;
     mkColumn (str "Created") created Left; mkColumn (str "Device") paths Left;
     mkColumn (str "UUID") (uuid_simple <$> uuids) Left]).
Definition filesystem_destroy (pool_name filesystem_name : Str) : st X unit :=
  do_request_standard (Param.FsDestroy pool_name filesystem_name) None (λ r, match r with Ret.FsDestroy r => Some r | _ => None end).
Definition filesystem_rename (pool_name filesystem_name new_filesystem_name : Str) : st X unit :=
  do_request_standard (Param.FsRename pool_name filesystem_name new_filesystem_name) None
    (λ r, match r with Ret.FsRename r => Some r | _ => None end).

Definition report : st X Value := do_request Param.Report None (λ r, match r with Ret.Report r => Some r | _ => None end).
End client.
