(* ===== verification/StratisMin.v ===== *)
(** * The command line of stratis-min

    Models [src/bin/stratis-min/stratis-min.rs]: the grammar given to the argument parser, and the program that reads the
    parsed arguments and calls the client of the JSON RPC server.  The parser itself (clap 2) is a parameter, known by what its documentation promises:
    of the arguments it records for a grammar, [conforms], and of the methods that read them, [Clap].  An argument is bytes; the methods that
    give its text panic when it is not UTF-8. *)
From stdpp Require Import base list strings.
From Stdlib Require Import ZArith Lia.
From S2P Require Import Prelude Disk External Json Shared DeviceSet EngineApi Rpc Crypt RpcClient.

(** ** Grammars and arguments *)

(** [clap::Arg]; [a_takes] is [takes_value], true for a positional argument *)
Record ArgSpec : Type := mkArg {
  a_name : string; a_long : option string; a_takes : bool; a_multiple : bool; a_required : bool;
  a_possible : option (list string); a_requires : list string;
  a_requires_if : list (string * string); a_required_if : list (string * string) }.

(** [clap::ArgGroup] *)
Record ArgGroup : Type := mkGroup { g_name : string; g_args : list string; g_required : bool }.

Inductive App : Type := mkApp (args : list ArgSpec) (groups : list ArgGroup) (subs : list (string * App)).
Definition app_args (a : App) : list ArgSpec := match a with mkApp args _ _ => args end.
Definition app_groups (a : App) : list ArgGroup := match a with mkApp _ groups _ => groups end.
Definition app_subs (a : App) : list (string * App) := match a with mkApp _ _ subs => subs end.

(** [Arg::with_name(name).required(required)] *)
Definition positional (name : string) (required : bool) : ArgSpec := mkArg name None true false required None [] [] [].
(** [Arg::with_name("blockdevs").multiple(true).required(true)] *)
Definition blockdevs : ArgSpec := mkArg "blockdevs" None true true true None [] [] [].
(** [.long(long).takes_value(takes)] *)
Definition long (name long : string) (takes : bool) : ArgSpec := mkArg name (Some long) takes false false None [] [] [].

Open Scope string_scope.
Definition parse_args : App := mkApp [long "debug" "--debug" false] []
  [("key", mkApp [] []
     [("set", mkApp [long "capture_key" "--capture-key" false; long "keyfile_path" "--keyfile-path" true; positional "key_desc" true]
        [mkGroup "key_method" ["capture_key"; "keyfile_path"] true] []);
      ("list", mkApp [] [] []);
      ("unset", mkApp [positional "key_desc" true] [] [])]);
   ("pool", mkApp [] []
     [("unlock", mkApp [positional "unlock_method" true; positional "pool_uuid" false;
          mkArg "prompt" (Some "--prompt") false false false None ["pool_uuid"] [] []] [] []);
      ("create", mkApp [positional "name" true; blockdevs; long "key_desc" "--key-desc" true;
          mkArg "clevis" (Some "--clevis") true false false (Some ["nbde"; "tang"; "tpm2"]) []
            [("nbde", "tang_args"); ("tang", "tang_args")] [];
          mkArg "tang_url" (Some "--tang-url") true false false None [] [] [("clevis", "nbde"); ("clevis", "tang")];
          long "thumbprint" "--thumbprint" true; long "trust_url" "--trust-url" false]
        [mkGroup "tang_args" ["thumbprint"; "trust_url"] false] []);
      ("init-cache", mkApp [positional "name" true; blockdevs] [] []);
      ("rename", mkApp [positional "current_name" true; positional "new_name" true] [] []);
      ("add-data", mkApp [positional "name" true; blockdevs] [] []);
      ("destroy", mkApp [positional "name" true] [] []);
      ("is-encrypted", mkApp [positional "pool_uuid" true] [] []);
      ("is-locked", mkApp [positional "pool_uuid" true] [] []);
      ("is-bound", mkApp [positional "pool_uuid" true] [] []);
      ("has-passphrase", mkApp [positional "pool_uuid" true] [] []);
      ("clevis-pin", mkApp [positional "pool_uuid" true] [] [])]);
   ("filesystem", mkApp [] []
     [("create", mkApp [positional "pool_name" true; positional "fs_name" true] [] []);
      ("destroy", mkApp [positional "pool_name" true; positional "fs_name" true] [] []);
      ("rename", mkApp [positional "pool_name" true; positional "fs_name" true; positional "new_fs_name" true] [] [])]);
   ("report", mkApp [] [] [])].
Close Scope string_scope.

(** [String::from_utf8], of bytes that are valid: their characters *)
Definition low (b : Z) : Z := Z.land b 0x3F.
Fixpoint chars (bs : list Z) : Str :=
  match bs with
  | [] => []
  | b0 :: r0 =>
      if b0 <? 0x80 then b0 :: chars r0
      else match r0 with
      | [] => []
      | b1 :: r1 =>
          if b0 <? 0xE0 then Z.shiftl (Z.land b0 0x1F) 6 + low b1 :: chars r1
          else match r1 with
          | [] => []
          | b2 :: r2 =>
              if b0 <? 0xF0 then Z.shiftl (Z.land b0 0x0F) 12 + Z.shiftl (low b1) 6 + low b2 :: chars r2
              else match r2 with
              | [] => []
              | b3 :: r3 => Z.shiftl (Z.land b0 0x07) 18 + Z.shiftl (low b1) 12 + Z.shiftl (low b2) 6 + low b3 :: chars r3
              end
          end
      end
  end.
Example chars_euro : chars [0x61; 0xE2; 0x82; 0xAC; 0xC3; 0xA9; 0xF0; 0x9F; 0x92; 0xA9] = [0x61; 0x20AC; 0xE9; 0x1F4A9].
Proof. reflexivity. Qed.

(** [clap::ArgMatches]: the arguments present with their values, which are bytes, and the subcommand *)
Inductive ArgMatches : Type := mkMatches (vals : list (string * list (list Z))) (sub : option (string * ArgMatches)).

Fixpoint assoc {A} (k : string) (l : list (string * A)) : option A :=
  match l with [] => None | (k', v) :: l => if bool_decide (k = k') then Some v else assoc k l end.

(** what was recorded of an argument *)
Definition recorded (m : ArgMatches) (name : string) : option (list (list Z)) := match m with mkMatches vals _ => assoc name vals end.
Definition present (m : ArgMatches) (name : string) : bool := bool_decide (is_Some (recorded m name)).

(** The methods of [ArgMatches], by their documentation: [value_of] and [values_of] panic when a value they give is not UTF-8. *)
Class Clap : Type := {
  values_of : ArgMatches → string → res (option (list Str));
  value_of : ArgMatches → string → res (option Str);
  is_present : ArgMatches → string → bool;
  subcommand_matches : ArgMatches → string → option ArgMatches;
  subcommand_name : ArgMatches → option string;
  values_of_law m name : match recorded m name with
    | None => values_of m name = Ok None
    | Some vs => if forallb valid_utf8 vs then values_of m name = Ok (Some (chars <$> vs)) else ∃ why, values_of m name = Panic why
    end;
  value_of_law m name : match recorded m name ≫= head with
    | None => value_of m name = Ok None
    | Some v => if valid_utf8 v then value_of m name = Ok (Some (chars v)) else ∃ why, value_of m name = Panic why
    end;
  is_present_law m name : is_present m name = present m name;
  subcommand_matches_law vals sub name : subcommand_matches (mkMatches vals sub) name =
    match sub with Some (name', m) => if bool_decide (name = name') then Some m else None | None => None end;
  subcommand_name_law vals sub : subcommand_name (mkMatches vals sub) = fst <$> sub
}.

(** all values are UTF-8 *)
Fixpoint texts (m : ArgMatches) : bool :=
  match m with mkMatches vals sub => forallb (λ kv, forallb valid_utf8 kv.2) vals && match sub with Some (_, m') => texts m' | None => true end end.

(** *** What the parser promises of an argument, of a group and of the whole *)

(** an argument or a group *)
Definition given (app : App) (m : ArgMatches) (name : string) : bool :=
  match List.find (λ g, bool_decide (g_name g = name)) (app_groups app) with
  | Some g => existsb (present m) (g_args g)
  | None => present m name
  end.

Definition arg_ok (app : App) (m : ArgMatches) (a : ArgSpec) : bool :=
  match recorded m (a_name a) with
  | None => negb (a_required a) && forallb (λ '(other, v), negb (bool_decide (recorded m other ≫= head = Some (str v)))) (a_required_if a)
  | Some vs =>
      (if a_takes a then match vs with [] => false | [_] => true | _ => a_multiple a end else bool_decide (vs = [])) &&
      match a_possible a with Some ps => forallb (λ v, existsb (λ p, bool_decide (v = str p)) ps) vs | None => true end &&
      forallb (given app m) (a_requires a) &&
      forallb (λ '(v, other), negb (bool_decide (head vs = Some (str v))) || given app m other) (a_requires_if a)
  end.

(** members of a group exclude each other *)
Definition group_ok (m : ArgMatches) (g : ArgGroup) : bool :=
  let n := length (base.filter (λ a, present m a) (g_args g)) in
  bool_decide (n ≤ 1)%nat && (negb (g_required g) || bool_decide (1 ≤ n)%nat).

Fixpoint conforms (app : App) (m : ArgMatches) : bool :=
  match m with
  | mkMatches vals sub =>
      forallb (arg_ok app m) (app_args app) && forallb (group_ok m) (app_groups app) &&
      forallb (λ kv, existsb (λ a, bool_decide (a_name a = kv.1)) (app_args app)) vals &&
      match sub with
      | None => true
      | Some (name, m') => match assoc name (app_subs app) with Some app' => conforms app' m' | None => false end
      end
  end.

(** ** The program *)

Section main.
Context `{RpcSerde} `{UuidDisplay} `{Clap}.
Context {X : Type} (exchange : list Z → option Z → st X (list Z)).
Context (open_file : Str → res Z) (prompt_password : res Str) (password_pipe : Str → res Z).
(** [serde_json::to_string_pretty], and [get_long_help] *)
Context (to_string_pretty : Value → res Str) (long_help : res Str).

(** [args.value_of(name).expect("required")] *)
Definition required {T} (args : ArgMatches) (name : string) (k : Str → st X T) : st X T :=
  let! v := ilift (let? o := value_of args name in expect o "required") in k v.

(** [get_paths_from_args] *)
Definition get_paths_from_args {T} (args : ArgMatches) (k : list Str → st X T) : st X T :=
  let! vs := ilift (let? o := values_of args "blockdevs" in expect o "required") in k vs.

Definition parse_uuid (s : Str) : res Z := match uuid_parse_str s with Some u => Ok u | None => Err (UuidError "parse") end.

(** [let uuid = ...; println!(...)] of the queries *)
Definition with_uuid (args : ArgMatches) (query : Z → st X Str) : st X (list Str) :=
  required args "pool_uuid" (λ uuid_str, let! uuid := ilift (parse_uuid uuid_str) in let! answer := query uuid in iret [answer]).
Definition bool_str (b : bool) : Str := if b then str "true" else str "false".
Definition imap {A B} (f : A → B) (m : st X A) : st X B := let! a := m in iret (f a).
Definition silent (m : st X unit) : st X (list Str) := m ;;! iret [].

Definition main_key (subcommand : ArgMatches) : st X (list Str) :=
  match subcommand_matches subcommand "set" with
  | Some args => required args "key_desc" (λ key_desc,
      let! key_desc := ilift (KeyDescription_try_from key_desc) in
      let! keyfile_path := ilift (value_of args "keyfile_path") in
      silent (key_set exchange open_file prompt_password password_pipe key_desc keyfile_path))
  | None =>
      match subcommand_matches subcommand "unset" with
      | Some args => required args "key_desc" (λ key_desc,
          let! key_desc := ilift (KeyDescription_try_from key_desc) in silent (key_unset exchange key_desc))
      | None => key_list exchange
      end
  end.

Definition main_unlock (args : ArgMatches) : st X (list Str) :=
  required args "unlock_method" (λ unlock_method,
    let! unlock_method := ilift (UnlockMethod_try_from unlock_method) in
    let! uuid := ilift (let? o := value_of args "pool_uuid" in match o with Some u => rmap Some (parse_uuid u) | None => Ok None end) in
    let prompt := is_present args "prompt" in
    if prompt && match unlock_method with UMClevis => true | _ => false end then
      ierr (Msg "--prompt and an unlock_method of clevis are mutally exclusive")
    else silent (pool_unlock exchange prompt_password password_pipe unlock_method uuid prompt)).

(** [clevis_info] of [pool create] *)
Definition clevis_info_of (args : ArgMatches) : res (option (Str * Value)) :=
  let? pin := value_of args "clevis" in
  match pin with
  | None => Ok None
  | Some p =>
      if bool_decide (p = str "nbde") || bool_decide (p = str "tang") then
        let? tang_url := let? o := value_of args "tang_url" in expect o "Required" in
        let json := map_insert (str "url") (VString tang_url) [] in
        let? json :=
          if is_present args "trust_url" then Ok (map_insert CLEVIS_TANG_TRUST_URL (Bool true) json)
          else let? o := value_of args "thumbprint" in
               Ok (match o with Some thp => map_insert (str "thp") (VString thp) json | None => json end) in
        Ok (Some (p, Object json))
      else if bool_decide (p = str "tpm2") then Ok (Some (str "tpm2", Object []))
      else Panic "Validated by parser"
  end.

Definition main_create (args : ArgMatches) : st X (list Str) :=
  get_paths_from_args args (λ paths,
    let! key_description := ilift (let? o := value_of args "key_desc" in match o with Some s => rmap Some (KeyDescription_try_from s) | None => Ok None end) in
    let! clevis_info := ilift (clevis_info_of args) in
    required args "name" (λ name, silent (pool_create exchange name paths (mkEnc key_description clevis_info)))).

Definition main_pool (subcommand : ArgMatches) : st X (list Str) :=
  let on name (k : ArgMatches → st X (list Str)) (otherwise : st X (list Str)) :=
    match subcommand_matches subcommand name with Some args => k args | None => otherwise end in
  on "unlock" main_unlock (on "create" main_create (
  on "destroy" (λ args, required args "name" (λ name, silent (pool_destroy exchange name))) (
  on "init-cache" (λ args, get_paths_from_args args (λ paths, required args "name" (λ name, silent (pool_init_cache exchange name paths)))) (
  on "rename" (λ args, required args "current_name" (λ current_name, required args "new_name" (λ new_name,
    silent (pool_rename exchange current_name new_name)))) (
  on "add-data" (λ args, get_paths_from_args args (λ paths, required args "name" (λ name, silent (pool_add_data exchange name paths)))) (
  on "add-cache" (λ args, get_paths_from_args args (λ paths, required args "name" (λ name, silent (pool_add_cache exchange name paths)))) (
  on "is-encrypted" (λ args, with_uuid args (λ uuid, imap bool_str (pool_is_encrypted exchange uuid))) (
  on "is-locked" (λ args, with_uuid args (λ uuid, imap bool_str (pool_is_locked exchange uuid))) (
  on "is-bound" (λ args, with_uuid args (λ uuid, imap bool_str (pool_is_bound exchange uuid))) (
  on "has-passphrase" (λ args, with_uuid args (λ uuid, imap bool_str (pool_has_passphrase exchange uuid))) (
  on "clevis-pin" (λ args, with_uuid args (pool_clevis_pin exchange))
  (pool_list exchange)))))))))))).

Definition main_filesystem (subcommand : ArgMatches) : st X (list Str) :=
  match subcommand_matches subcommand "create" with
  | Some args => required args "pool_name" (λ pool_name, required args "fs_name" (λ fs_name,
      silent (filesystem_create exchange pool_name fs_name)))
  | None =>
      match subcommand_matches subcommand "destroy" with
      | Some args => required args "pool_name" (λ pool_name, required args "fs_name" (λ fs_name,
          silent (filesystem_destroy exchange pool_name fs_name)))
      | None =>
          match subcommand_matches subcommand "rename" with
          | Some args => required args "pool_name" (λ pool_name, required args "fs_name" (λ fs_name, required args "new_fs_name" (λ new_fs_name,
              silent (filesystem_rename exchange pool_name fs_name new_fs_name))))
          | None => filesystem_list exchange
          end
      end
  end.

(** [main] once the arguments are parsed: the lines printed *)
Definition main (args : ArgMatches) : st X (list Str) :=
  let! long_help := ilift long_help in
  match subcommand_matches args "key" with
  | Some subcommand => main_key subcommand
  | None =>
      match subcommand_matches args "pool" with
      | Some subcommand => main_pool subcommand
      | None =>
          match subcommand_matches args "filesystem" with
          | Some subcommand => main_filesystem subcommand
          | None =>
              if bool_decide (subcommand_name args = Some "report"%string) then
                let! j := report exchange in let! text := ilift (to_string_pretty j) in iret [text]
              else iret [long_help]
          end
      end
  end.
End main.

(** ** What the grammar gives *)

Section given.
Context `{Clap}.

(** accepted by the parser, and all of it UTF-8 *)
Definition accepted (app : App) (m : ArgMatches) : Prop := conforms app m = true ∧ texts m = true.

Lemma accepted_sub app m name m' : accepted app m → subcommand_matches m name = Some m' →
  ∃ app', assoc name (app_subs app) = Some app' ∧ accepted app' m'.
Proof.
  destruct m as [vals sub]. rewrite subcommand_matches_law. destruct sub as [[n mm]|]; [|done]. intros [Hc Ht]. simpl in Hc, Ht.
  case_bool_decide; [|done]. intros [= ->]. subst n.
  apply andb_prop in Hc as [_ Hc], Ht as [_ Ht]. destruct (assoc name (app_subs app)) as [app'|]; [by exists app'|done].
Qed.

Lemma conforms_arg app m a : conforms app m = true → a ∈ app_args app → arg_ok app m a = true.
Proof.
  destruct m as [vals sub]. simpl. rewrite !andb_true_iff. intros [[[Ha _] _] _] Hin. rewrite forallb_forall in Ha.
  apply Ha. by apply list_elem_of_In.
Qed.

Lemma texts_recorded m name vs : texts m = true → recorded m name = Some vs → forallb valid_utf8 vs = true.
Proof.
  destruct m as [vals sub]. simpl. intros [Hv _]%andb_prop. induction vals as [|[k v] l IH]; [done|]. simpl in *.
  apply andb_prop in Hv as [Hv Hl]. case_bool_decide; [by intros [= <-]|auto].
Qed.
Lemma value_text m name : texts m = true → value_of m name = Ok (chars <$> (recorded m name ≫= head)).
Proof.
  intros Ht. pose proof (value_of_law m name) as Hl. destruct (recorded m name) as [[|v vs]|] eqn:E; simpl in *; [done| |done].
  apply (texts_recorded _ _ _ Ht) in E. simpl in E. apply andb_prop in E as [E _]. by rewrite E in Hl.
Qed.
Lemma values_text m name : texts m = true → values_of m name = Ok (fmap (M:=option) (fmap (M:=list) chars) (recorded m name)).
Proof.
  intros Ht. pose proof (values_of_law m name) as Hl. destruct (recorded m name) as [vs|] eqn:E; [|done].
  apply (texts_recorded _ _ _ Ht) in E. by rewrite E in Hl.
Qed.

(** a required argument has a value *)
Definition demands (app : App) (name : string) : bool :=
  existsb (λ a, bool_decide (a_name a = name) && a_required a && a_takes a) (app_args app).

Lemma demanded app m name : conforms app m = true → demands app name = true → ∃ v vs, recorded m name = Some (v :: vs).
Proof.
  intros Hc Hd. apply existsb_exists in Hd as (a & Hin & Ha). rewrite !andb_true_iff in Ha. destruct Ha as [[Hn Hr] Ht].
  apply bool_decide_eq_true_1 in Hn. pose proof (conforms_arg app m a Hc) as Hok. apply list_elem_of_In in Hin. specialize (Hok Hin).
  unfold arg_ok in Hok. rewrite Hn, Hr, Ht in Hok. destruct (recorded m name) as [[|v vs]|]; [done|by exists v, vs|done].
Qed.
Lemma demanded_value app m name : accepted app m → demands app name = true → ∃ v, value_of m name = Ok (Some v).
Proof. intros [Hc Ht] Hd. destruct (demanded app m name Hc Hd) as (v & vs & E). exists (chars v). by rewrite value_text, E. Qed.
Lemma demanded_values app m name : accepted app m → demands app name = true → ∃ vs, values_of m name = Ok (Some vs).
Proof. intros [Hc Ht] Hd. destruct (demanded app m name Hc Hd) as (v & vs & E). exists (chars <$> v :: vs). by rewrite values_text, E. Qed.

(** A value that is not UTF-8 conforms to the grammar, and the program panics on it. *)
Lemma other_bytes_panic m name v vs : recorded m name = Some (v :: vs) → valid_utf8 v = false → ∃ why, value_of m name = Panic why.
Proof. intros E Hv. pose proof (value_of_law m name) as Hl. rewrite E in Hl. simpl in Hl. by rewrite Hv in Hl. Qed.

(** No declared subcommand of [pool] reaches [pool_add_cache]. *)
Lemma add_cache_unreachable m p : accepted parse_args m → subcommand_matches m "pool" = Some p → subcommand_matches p "add-cache" = None.
Proof.
  intros Hc Hp. destruct (accepted_sub _ _ _ _ Hc Hp) as (app & Ea & Hp'). injection Ea as <-.
  destruct (subcommand_matches p "add-cache") as [m'|] eqn:E; [|done]. by destruct (accepted_sub _ _ _ _ Hp' E) as (app & Ea & _).
Qed.

Definition create_app : App := from_option id (mkApp [] [] []) (assoc "create" (app_subs (from_option id (mkApp [] [] []) (assoc "pool" (app_subs parse_args))))).

Lemma create_arg m n a : accepted create_app m → app_args create_app !! n = Some a → arg_ok create_app m a = true.
Proof. intros [Hc _] Hn. apply (conforms_arg create_app); [done|]. by apply list_elem_of_lookup_2 in Hn. Qed.

(** the values of [--clevis] *)
Lemma clevis_pins m p : accepted create_app m → value_of m "clevis" = Ok (Some p) →
  recorded m "clevis" ≫= head = Some p ∧ (p = str "nbde" ∨ p = str "tang" ∨ p = str "tpm2").
Proof.
  intros Ha. pose proof (create_arg m 3 _ Ha eq_refl) as Hok. unfold arg_ok in Hok. cbn [a_name a_takes a_multiple a_possible] in Hok.
  rewrite value_text by apply Ha. destruct (recorded m "clevis") as [[|v l]|]; try done. intros [= <-]. cbn [mbind option_bind head].
  rewrite !andb_true_iff in Hok. destruct Hok as [[[_ Hok] _] _]. cbn [forallb existsb] in Hok. rewrite andb_true_iff, !orb_true_iff in Hok.
  destruct Hok as [[Hv|[Hv|[Hv|Hv]]] _]; try done; apply bool_decide_eq_true_1 in Hv as ->; (split; [done|]); vm_compute; auto.
Qed.

Lemma tang_args_given m p : accepted create_app m → value_of m "clevis" = Ok (Some p) → p = str "nbde" ∨ p = str "tang" →
  (∃ url, value_of m "tang_url" = Ok (Some url)) ∧ (is_present m "trust_url" = true ∨ ∃ thp, value_of m "thumbprint" = Ok (Some thp)).
Proof.
  intros Ha Hv Hp. destruct (clevis_pins m p Ha Hv) as [Hr _]. clear Hv. destruct (recorded m "clevis") as [vs|] eqn:Ec; [|done]. simpl in Hr.
  pose proof (create_arg m 3 _ Ha eq_refl) as Hclevis. pose proof (create_arg m 4 _ Ha eq_refl) as Hurl. pose proof (create_arg m 5 _ Ha eq_refl) as Hthp.
  unfold arg_ok, long in *. cbn [a_name a_required a_required_if a_requires_if a_takes a_multiple a_possible a_requires] in *.
  rewrite !value_text, is_present_law by apply Ha. split.
  - destruct (recorded m "tang_url") as [[|url l]|]; [done|by eexists|].
    simpl in Hurl. rewrite Ec in Hurl. simpl in Hurl. rewrite Hr in Hurl. destruct Hp as [-> | ->]; vm_compute in Hurl; done.
  - assert (Hg : given create_app m "tang_args" = true).
    { rewrite Ec, Hr in Hclevis. rewrite !andb_true_iff in Hclevis. destruct Hclevis as [_ Hc2].
      destruct Hp as [-> | ->]; cbn [forallb] in Hc2; rewrite ?andb_true_iff in Hc2.
      - destruct Hc2 as [Hc2 _]. by rewrite bool_decide_eq_true_2 in Hc2.
      - destruct Hc2 as [_ [Hc2 _]]. by rewrite bool_decide_eq_true_2 in Hc2. }
    unfold given in Hg. simpl in Hg. rewrite !orb_true_iff in Hg. destruct Hg as [Ht|[Ht|Ht]]; [|by left|done]. right.
    unfold present in Ht. apply bool_decide_eq_true_1 in Ht as [vs' Ev]. rewrite Ev in *. destruct vs' as [|thp vs']; [done|by eexists].
Qed.
End given.

(** ** The program does not panic *)

Section safety.
Context `{RpcSerde} `{UuidDisplay} `{Clap}.
Context {X : Type} (exchange : list Z → option Z → st X (list Z)).
Context (open_file : Str → res Z) (prompt_password : res Str) (password_pipe : Str → res Z).
Context (to_string_pretty : Value → res Str) (long_help : res Str).

(** The surroundings do not panic: they return values or errors. *)
Definition surroundings : Prop :=
  (∀ bytes fd, safe (exchange bytes fd)) ∧ (∀ p w, open_file p ≠ Panic w) ∧ (∀ w, prompt_password ≠ Panic w) ∧
  (∀ p w, password_pipe p ≠ Panic w) ∧ (∀ v w, to_string_pretty v ≠ Panic w) ∧ (∀ w, long_help ≠ Panic w).

Context (Hs : surroundings).

Lemma safe_exchange bytes fd : safe (exchange bytes fd).
Proof. apply Hs. Qed.
#[local] Hint Resolve safe_exchange : safe.

Lemma safe_lifts {S T} (r : res T) : match r with Panic _ => False | _ => True end → safe (S:=S) (ilift r).
Proof. intros Hr. apply safe_lift. intros w ->. done. Qed.

Lemma safe_open_key p : safe (S:=X) (ilift (open_file p)).
Proof. apply safe_lift, Hs. Qed.
Lemma safe_prompt : safe (S:=X) (ilift prompt_password).
Proof. apply safe_lift, Hs. Qed.
Lemma safe_pipe p : safe (S:=X) (ilift (password_pipe p)).
Proof. apply safe_lift, Hs. Qed.
Lemma safe_pretty v : safe (S:=X) (ilift (to_string_pretty v)).
Proof. apply safe_lift, Hs. Qed.
Lemma safe_help : safe (S:=X) (ilift long_help).
Proof. apply safe_lift, Hs. Qed.
Lemma safe_key_desc s : safe (S:=X) (ilift (KeyDescription_try_from s)).
Proof. apply safe_lifts. unfold KeyDescription_try_from. by case_bool_decide. Qed.
Lemma safe_table cols : safe (S:=X) (ilift (print_table cols)).
Proof. apply safe_lifts. unfold print_table. destruct (same_lengths _ _) as [b n]. by destruct b. Qed.
Lemma safe_parse_uuid s : safe (S:=X) (ilift (parse_uuid s)).
Proof. apply safe_lifts. unfold parse_uuid. by destruct (uuid_parse_str s). Qed.
#[local] Hint Resolve safe_open_key safe_prompt safe_pipe safe_pretty safe_help safe_key_desc safe_table safe_parse_uuid : safe.

Lemma safe_request {T} type_ fd (matches : StratisRet → option T) : safe (do_request exchange type_ fd matches).
Proof. unfold do_request, request. safely. Qed.
#[local] Hint Resolve @safe_request : safe.
Lemma safe_standard type_ fd matches : safe (do_request_standard exchange type_ fd matches).
Proof. unfold do_request_standard. safely. Qed.
Lemma safe_query {T} type_ (matches : StratisRet → option (T * Z * string)) : safe (do_query exchange type_ matches).
Proof. unfold do_query. safely. Qed.
#[local] Hint Resolve safe_standard @safe_query : safe.

Lemma safe_value app m name : accepted app m → demands app name = true →
  safe (S:=X) (ilift (let? o := value_of m name in expect o "required")).
Proof. intros Hc Hd. destruct (demanded_value app m name Hc Hd) as (v & ->). by apply safe_lifts. Qed.
Lemma safe_values app m name : accepted app m → demands app name = true →
  safe (S:=X) (ilift (let? o := values_of m name in expect o "required")).
Proof. intros Hc Hd. destruct (demanded_values app m name Hc Hd) as (v & ->). by apply safe_lifts. Qed.
Lemma safe_opt_value app m name : accepted app m → safe (S:=X) (ilift (value_of m name)).
Proof. intros [_ Ht]. rewrite value_text by done. by apply safe_lifts. Qed.

Lemma safe_key_set kd path : safe (key_set exchange open_file prompt_password password_pipe kd path).
Proof. unfold key_set, key_set_outcome. safely. Qed.
Lemma safe_pool_unlock um u p : safe (pool_unlock exchange prompt_password password_pipe um u p).
Proof. unfold pool_unlock. safely. Qed.
#[local] Hint Resolve safe_key_set safe_pool_unlock : safe.

Lemma clevis_info_safe m : accepted create_app m → ∀ w, clevis_info_of m ≠ Panic w.
Proof.
  intros Ha w. unfold clevis_info_of. destruct (value_of m "clevis") as [[p|]|e|w'] eqn:Ep; [|done|done|by rewrite value_text in Ep by apply Ha].
  destruct (clevis_pins m p Ha Ep) as [_ Hp]. simpl rbind.
  destruct (bool_decide (p = str "nbde") || bool_decide (p = str "tang")) eqn:Et.
  - assert (Ht : p = str "nbde" ∨ p = str "tang") by (apply orb_true_iff in Et as [Et|Et]; apply bool_decide_eq_true_1 in Et; auto).
    destruct (tang_args_given m p Ha Ep Ht) as [(url & ->) _]. simpl. destruct (is_present m "trust_url"); [done|]. by rewrite value_text by apply Ha.
  - apply orb_false_iff in Et as [E1 E2]. apply bool_decide_eq_false_1 in E1, E2. destruct Hp as [?|[?| ->]]; done.
Qed.

Lemma safe_method s : safe (S:=X) (ilift (UnlockMethod_try_from s)).
Proof. apply safe_lifts. unfold UnlockMethod_try_from. by repeat case_bool_decide. Qed.
Lemma safe_opt_uuid app m name : accepted app m →
  safe (S:=X) (ilift (let? o := value_of m name in match o with Some u => rmap Some (parse_uuid u) | None => Ok None end)).
Proof. intros [_ Ht]. apply safe_lifts. rewrite value_text by done. simpl. destruct (chars <$> _) as [u|]; [|done]. unfold parse_uuid. by destruct (uuid_parse_str u). Qed.
Lemma safe_opt_key app m name : accepted app m →
  safe (S:=X) (ilift (let? o := value_of m name in match o with Some s => rmap Some (KeyDescription_try_from s) | None => Ok None end)).
Proof. intros [_ Ht]. apply safe_lifts. rewrite value_text by done. simpl. destruct (chars <$> _) as [u|]; [|done]. unfold KeyDescription_try_from. by case_bool_decide. Qed.
Lemma safe_clevis_args m : accepted create_app m → safe (S:=X) (ilift (clevis_info_of m)).
Proof. intros Hc. by apply safe_lift, clevis_info_safe. Qed.
#[local] Hint Resolve safe_method safe_clevis_args : safe.

(** the command, then the values the grammar demands *)
Ltac conforming :=
  safely;
  match goal with H : accepted _ _ |- _ =>
    first [apply (safe_value _ _ _ H); reflexivity|apply (safe_values _ _ _ H); reflexivity
          |apply (safe_opt_uuid _ _ _ H)|apply (safe_opt_key _ _ _ H)|apply (safe_opt_value _ _ _ H)]
  end.
(** one more subcommand told apart *)
Ltac command :=
  match goal with
  | H : accepted ?app ?m |- context [subcommand_matches ?m ?name] =>
      let E := fresh "E" in destruct (subcommand_matches m name) as [?|] eqn:E;
      [ let a := fresh "app" in let Ea := fresh "Ea" in let Hc := fresh "Hc" in
        destruct (accepted_sub _ _ _ _ H E) as (a & Ea & Hc); clear H; first [discriminate Ea | injection Ea as <-] | ]
  end.

Lemma safe_main_pool app m : assoc "pool" (app_subs parse_args) = Some app → accepted app m →
  safe (main_pool exchange prompt_password password_pipe m).
Proof.
  intros Ea Hc. injection Ea as <-. unfold main_pool, silent, imap. cbv zeta.
  unfold main_create, main_unlock, pool_clevis_pin, pool_list, silent. repeat command; conforming.
Qed.

Lemma safe_main_key app m : assoc "key" (app_subs parse_args) = Some app → accepted app m →
  safe (main_key exchange open_file prompt_password password_pipe m).
Proof. intros Ea Hc. injection Ea as <-. unfold main_key, silent, key_list. repeat command; conforming. Qed.

Lemma safe_main_filesystem app m : assoc "filesystem" (app_subs parse_args) = Some app → accepted app m →
  safe (main_filesystem exchange m).
Proof. intros Ea Hc. injection Ea as <-. unfold main_filesystem, silent, filesystem_list. repeat command; conforming. Qed.

Lemma safe_main m : accepted parse_args m →
  safe (main exchange open_file prompt_password password_pipe to_string_pretty long_help m).
Proof.
  intros Hc. unfold main. apply safe_bind; [apply safe_help|]. intros help.
  destruct (subcommand_matches m "key") as [a|] eqn:E1; [destruct (accepted_sub _ _ _ _ Hc E1) as (? & ? & ?); by eapply safe_main_key|].
  destruct (subcommand_matches m "pool") as [a|] eqn:E2; [destruct (accepted_sub _ _ _ _ Hc E2) as (? & ? & ?); by eapply safe_main_pool|].
  destruct (subcommand_matches m "filesystem") as [a|] eqn:E3; [destruct (accepted_sub _ _ _ _ Hc E3) as (? & ? & ?); by eapply safe_main_filesystem|].
  unfold report. safely.
Qed.
End safety.

(** C36: The program relies on no more than its grammar promises: with arguments that the parser accepted for [parse_args] and that are all UTF-8 (it
    panics on others: [other_bytes_panic]) it never panics, whatever the
    server answers (no [expect("required")] fails and [unreachable!("Validated by parser")] is not reached); and when a pool is to be bound to a
    Tang server, the configuration sent has the server's address and a way to trust it. *)
Theorem stratis_min_safe `{RpcSerde} `{UuidDisplay} `{Clap} {X} (exchange : list Z → option Z → st X (list Z)) open_file prompt_password password_pipe
    to_string_pretty long_help m :
  surroundings exchange open_file prompt_password password_pipe to_string_pretty long_help → conforms parse_args m = true → texts m = true →
  safe (main exchange open_file prompt_password password_pipe to_string_pretty long_help m) ∧
  ∀ p c pin, subcommand_matches m "pool" = Some p → subcommand_matches p "create" = Some c →
    value_of c "clevis" = Ok (Some pin) → pin ≠ str "tpm2" →
    ∃ url json, clevis_info_of c = Ok (Some (pin, Object json)) ∧ map_get (str "url") json = Some (VString url) ∧
      (map_get CLEVIS_TANG_TRUST_URL json = Some (Bool true) ∨ ∃ thp, map_get (str "thp") json = Some (VString thp)).
Proof.
  intros Hs Hc Htx. assert (accepted parse_args m) as Ha by done. split; [by apply safe_main|]. intros p c pin Ep Ec Ev Hpin.
  destruct (accepted_sub _ _ _ _ Ha Ep) as (app & Ea & Hp). injection Ea as <-.
  destruct (accepted_sub _ _ _ _ Hp Ec) as (app & Ea & Hcc). injection Ea as <-.
  destruct (clevis_pins c pin Hcc Ev) as [_ Hpins]. assert (Ht : pin = str "nbde" ∨ pin = str "tang") by tauto.
  unfold clevis_info_of. rewrite Ev. simpl rbind. destruct (tang_args_given c pin Hcc Ev Ht) as [(url & ->) Hthp]. simpl rbind. exists url.
  assert (bool_decide (pin = str "nbde") || bool_decide (pin = str "tang") = true) as ->.
  { apply orb_true_iff. destruct Ht as [-> | ->]; [left|right]; by apply bool_decide_eq_true_2. }
  destruct (is_present c "trust_url"); [|destruct Hthp as [?|[thp ->]]; [done|]]; simpl rbind; eexists; (split; [reflexivity|]); split; try by vm_compute.
  - by left.
  - right. exists thp. by vm_compute.
Qed.
