(* ===== verification/RpcSpec.v ===== *)
(** * The JSON RPC server keeps the engine and the descriptors

    What the server relies on is [EngineLaws] and [EngineNames], which the simulator satisfies ([RpcSim]).  [awp] says of a task that it keeps the invariant of the
    engine, whatever other tasks do in between, and what becomes of the descriptor it was given. *)
From stdpp Require Import base list gmap sets strings pretty.
From Stdlib Require Import ZArith Lia.
From S2P Require Import Prelude External Json Actions Shared DeviceSet Identify EngineApi Rpc.

Section spec.
Context `{EngineLaws} `{!EngineNames}.

(** ** The locked engine *)

(** [m] keeps the invariant and does not panic; [Q] holds of its result *)
Definition ewp {A} (m : st (Engine_ * World_) A) (s : Engine_ * World_) (Q : A → Engine_ * World_ → Prop) : Prop :=
  match m s with
  | (Ok a, s') => engine_inv s'.2 s'.1 ∧ Q a s'
  | (Err _, s') => engine_inv s'.2 s'.1
  | (Panic _, _) => False
  end.

Lemma ewp_bind {A B} (m : st (Engine_ * World_) A) (k : A → st (Engine_ * World_) B) s Q :
  ewp m s (λ a s', ewp (k a) s' Q) → ewp (ibind m k) s Q.
Proof. unfold ewp, ibind. destruct (m s) as [[a|e|w] s']; naive_solver. Qed.
Lemma ewp_ret {A} (a : A) s (Q : A → Engine_ * World_ → Prop) : engine_inv s.2 s.1 → Q a s → ewp (iret a) s Q.
Proof. done. Qed.
Lemma ewp_err {A} e s (Q : A → Engine_ * World_ → Prop) : engine_inv s.2 s.1 → ewp (ierr e) s Q.
Proof. done. Qed.
Lemma ewp_mono {A} (m : st (Engine_ * World_) A) s (Q Q' : A → Engine_ * World_ → Prop) :
  ewp m s Q → (∀ a s', Q a s' → Q' a s') → ewp m s Q'.
Proof. unfold ewp. destruct (m s) as [[a|e|w] s']; naive_solver. Qed.
Lemma ewp_engine s (Q : Engine_ → Engine_ * World_ → Prop) : engine_inv s.2 s.1 → Q s.1 s → ewp engine_ s Q.
Proof. done. Qed.
Lemma ewp_lift {A} (r : res A) s (Q : A → Engine_ * World_ → Prop) : engine_inv s.2 s.1 → (∃ a, r = Ok a ∧ Q a s) → ewp (ilift r) s Q.
Proof. intros ? (a & -> & ?). done. Qed.
Lemma ewp_try {A} (m : st (Engine_ * World_) A) s (Q : StratisError + A → Engine_ * World_ → Prop) :
  ewp m s (λ _ _, True) → (∀ r s', engine_inv s'.2 s'.1 → Q r s') → ewp (itry m) s Q.
Proof. unfold ewp, itry. destruct (m s) as [[a|e|w] s']; naive_solver. Qed.

(** a method of the engine *)
Lemma ewp_call {A} (m : st (Engine_ * World_) A) post s (Q : A → Engine_ * World_ → Prop) :
  engine_call m post → engine_inv s.2 s.1 → (∀ a s', m s = (Ok a, s') → engine_inv s'.2 s'.1 → Q a s') → ewp m s Q.
Proof.
  destruct s as [e w]. intros Hm Hi HQ. specialize (Hm e w Hi). unfold ewp.
  destruct (m (e, w)) as [[a|err|why] [e' w']] eqn:E; simpl in *; [|tauto|done].
  destruct Hm as (? & _ & _). split; [done|]. by apply HQ.
Qed.

(** a method of a pool that was lent *)
Lemma ewp_on_pool {A} (m : st (Pool_ * World_) A) added removed e w u n p put (Q : A → Engine_ * World_ → Prop) :
  pool_call m added removed → engine_inv w e → lent e u n p put → (∀ a s', engine_inv s'.2 s'.1 → Q a s') →
  ewp (on_pool p put m) (e, w) Q.
Proof.
  intros Hm Hi [Hg Hput] HQ. pose proof (engine_pool_inv w e u n p Hi Hg) as [Hp _]. specialize (Hm p w Hp).
  unfold ewp, on_pool. simpl. destruct (m (p, w)) as [[a|err|why] [p' w']]; simpl; [| |done].
  - destruct Hm as (Hp' & Hl & _). assert (engine_inv w' (put p')) by eauto. split; [done|]. by apply HQ.
  - destruct Hm as (Hp' & Hl & _). eauto.
Qed.

(** a query of the rest of the system *)
Lemma ewp_ok_of {A} (m : st World_ A) e w (Q : option A → Engine_ * World_ → Prop) :
  reads m w e → (∀ a w', engine_inv w' e → Q a (e, w')) → ewp (ok_of m) (e, w) Q.
Proof. unfold reads, ewp, ok_of. simpl. destruct (m w) as [[a|err|why] w']; simpl; naive_solver. Qed.

(** ** Names *)

Lemma name_lookup w e name : engine_inv w e →
  (∃ u p put, name_to_uuid_and_pool e name = Ok (Some (u, p, put)) ∧ lent e u name p put) ∨
  (name_to_uuid_and_pool e name = Ok None ∧ ∀ u p, e_get_pool e u = Some (name, p) → ∀ put, (name, u, p, put) ∉ e_pools_mut e).
Proof.
  intros Hi. unfold name_to_uuid_and_pool. pose proof (pools_mut_names w e Hi) as Hnd.
  pose proof (λ n u p put, pools_mut_lent w e n u p put Hi) as Hl.
  set (f := λ '(n, u, p, put), if bool_decide (n = name) then Some (u, p, put) else None : option (Z * Pool_ * (Pool_ → Engine_))).
  assert (Hf : omap f (e_pools_mut e) = [] ∨ ∃ u p put, omap f (e_pools_mut e) = [(u, p, put)] ∧ (name, u, p, put) ∈ e_pools_mut e).
  { clear Hl. induction (e_pools_mut e) as [|[[[n u] p] put] l IH]; [by left|]. csimpl in *.
    apply NoDup_cons in Hnd as [Hn Hnd]. case_bool_decide as E.
    - subst n. right. exists u, p, put. split; [|by left]. destruct (IH Hnd) as [->|(u' & p' & put' & _ & Hin)]; [done|].
      destruct Hn. apply list_elem_of_fmap. by exists (name, u', p', put').
    - destruct (IH Hnd) as [->|(u' & p' & put' & -> & Hin)]; [by left|]. right. exists u', p', put'. split; [done|by right]. }
  destruct Hf as [E|(u & p & put & E & Hin)]; rewrite E; simpl.
  - right. split; [done|]. intros u p _ put Hin.
    assert ((u, p, put) ∈ omap f (e_pools_mut e)); [|by rewrite E in *; set_solver].
    apply list_elem_of_omap. exists (name, u, p, put). split; [done|]. simpl. by rewrite bool_decide_eq_true_2.
  - left. exists u, p, put. split; [done|]. by apply Hl.
Qed.

Lemma ewp_named name err e w Q : engine_inv w e →
  (∀ u p put, lent e u name p put → Q (u, p, put) (e, w)) → ewp (named name err) (e, w) Q.
Proof.
  intros Hi HQ. unfold named. apply ewp_bind, ewp_engine; [done|]. simpl.
  destruct (name_lookup w e name Hi) as [(u & p & put & -> & Hl)|(-> & _)]; apply ewp_bind, ewp_lift; try done; eexists; split; [done| |done|].
  - apply ewp_ret; [done|]. by apply HQ.
  - by apply ewp_err.
Qed.

(** ** Tasks *)

Definition srv_ok (s : Srv) : Prop := engine_inv (s_world s) (s_engine s).

(** [m] holds the descriptor [fd] and may close it.  Each of its pieces of work keeps the invariant of the engine and the other
    descriptors, whatever state it finds; [Q] holds of its result and the descriptor it still holds then. *)
Fixpoint awp {A} (m : async A) (fd : option Z) (Q : A → option Z → Prop) : Prop :=
  match m with
  | Ready a => Q a fd
  | Dead _ => False
  | Step work => ∀ s, srv_ok s → (∀ f, fd = Some f → f ∈ s_open s) →
      let '(m', s') := work s in srv_ok s' ∧
        ((s_open s' = s_open s ∧ awp m' fd Q) ∨
         (∃ f, fd = Some f ∧ s_open s' = s_open s ∖ {[f]} ∧ awp m' None Q))
  end.

Fixpoint awp_bind {A B} (m : async A) (k : A → async B) fd Q {struct m} :
  awp m fd (λ a fd', awp (k a) fd' Q) → awp (abind m k) fd Q.
Proof.
  destruct m as [a|why|work]; simpl; [done|done|]. intros Hm s Hs Hfd. specialize (Hm s Hs Hfd).
  pose proof (λ fd, awp_bind A B (work s).1 k fd Q) as IH. destruct (work s) as [m' s']. simpl in *. naive_solver.
Qed.
Fixpoint awp_mono {A} (m : async A) fd (Q Q' : A → option Z → Prop) {struct m} :
  (∀ a fd', Q a fd' → Q' a fd') → awp m fd Q → awp m fd Q'.
Proof.
  destruct m as [a|why|work]; simpl; [by eauto|done|]. intros HQ Hm s Hs Hfd. specialize (Hm s Hs Hfd).
  pose proof (λ fd, awp_mono A (work s).1 fd Q Q' HQ) as IH. destruct (work s) as [m' s']. simpl in *. naive_solver.
Qed.

Lemma awp_locked {A} (m : st (Engine_ * World_) A) fd (Q : StratisError + A → option Z → Prop) :
  (∀ e w, engine_inv w e → ewp m (e, w) (λ _ _, True)) → (∀ r, Q r fd) → awp (locked m) fd Q.
Proof.
  intros Hm HQ s Hs _. specialize (Hm (s_engine s) (s_world s) Hs). unfold ewp in Hm.
  destruct (m (s_engine s, s_world s)) as [[a|e|why] [e' w']]; simpl in *; [| |done]; naive_solver.
Qed.
Lemma awp_locked_ {A} (m : st (Engine_ * World_) A) fd (Q : A → option Z → Prop) :
  (∀ e w, engine_inv w e → ∃ a w', m (e, w) = (Ok a, (e, w')) ∧ engine_inv w' e) → (∀ a, Q a fd) → awp (locked_ m) fd Q.
Proof.
  intros Hm HQ s Hs _. destruct (Hm (s_engine s) (s_world s) Hs) as (a & w' & E & Hi). simpl.
  rewrite E. simpl. split; [done|]. left. split; [done|]. apply HQ.
Qed.
Lemma awp_close f (Q : unit → option Z → Prop) : Q tt None → awp (close f) (Some f) Q.
Proof. intros HQ s Hs Hf. simpl. split; [done|]. right. eauto. Qed.
Lemma awp_key_set kd f (Q : StratisError + option bool → option Z → Prop) : (∀ r, Q r None) → awp (key_set kd f) (Some f) Q.
Proof.
  intros HQ s Hs Hf. pose proof (key_set_law kd f (s_engine s) (s_world s) Hs) as Hl. simpl.
  destruct (k_set kd f (s_engine s, s_world s)) as [[[]|e|why] [e' w']]; simpl in *; [..|done];
    (split; [apply Hl|]); right; eauto.
Qed.

(** ** The handlers *)

Ltac handler := intros; apply awp_locked; [intros e w Hi|done].

Lemma rpc_add_blockdevs_ok name paths tier fd Q : (∀ r, Q r fd) → awp (add_blockdevs name paths tier) fd Q.
Proof.
  handler. apply ewp_bind, ewp_named; [done|]. intros u p put Hl. apply ewp_bind.
  eapply ewp_on_pool; [apply add_blockdevs_law|done..|]. intros a s' ?. by apply ewp_ret.
Qed.
Lemma rpc_init_cache_ok name paths fd Q : (∀ r, Q r fd) → awp (pool_init_cache name paths) fd Q.
Proof.
  handler. apply ewp_bind, ewp_named; [done|]. intros u p put Hl. apply ewp_bind.
  eapply ewp_on_pool; [apply init_cache_law|done..|]. intros a s' ?. by apply ewp_ret.
Qed.
Lemma pool_create_ok name paths enc fd Q : (∀ r, Q r fd) → awp (pool_create name paths enc) fd Q.
Proof. handler. apply ewp_bind. eapply ewp_call; [apply create_pool_law|done|]. intros a s' _ ?. by apply ewp_ret. Qed.
Lemma pool_destroy_ok name fd Q : (∀ r, Q r fd) → awp (pool_destroy name) fd Q.
Proof.
  handler. apply ewp_bind, ewp_named; [done|]. intros u p put Hl. apply ewp_bind.
  eapply ewp_call; [apply destroy_pool_law|done|]. intros a s' _ ?. by apply ewp_ret.
Qed.
Lemma pool_rename_ok name new_name fd Q : (∀ r, Q r fd) → awp (pool_rename name new_name) fd Q.
Proof.
  handler. apply ewp_bind, ewp_named; [done|]. intros u p put [Hg _]. apply ewp_bind.
  eapply ewp_call; [apply rename_pool_law|done|]. intros [|x|] s' Hr Hi'; [by apply ewp_ret..|].
  destruct (rename_known e w u new_name s' Hi); [|done]. by rewrite Hg.
Qed.
Lemma key_unset_ok kd fd Q : (∀ r, Q r fd) → awp (key_unset kd) fd Q.
Proof. handler. apply ewp_bind. eapply ewp_call; [apply key_unset_law|done|]. intros a s' _ ?. by apply ewp_ret. Qed.
Lemma key_list_ok fd Q : (∀ r, Q r fd) → awp key_list fd Q.
Proof. handler. eapply ewp_call; [apply key_list_law|done|done]. Qed.
Lemma filesystem_create_ok pool_name name fd Q : (∀ r, Q r fd) → awp (filesystem_create pool_name name) fd Q.
Proof.
  handler. apply ewp_bind, ewp_named; [done|]. intros u p put Hl. apply ewp_bind.
  eapply ewp_on_pool; [apply create_filesystems_law|done..|]. intros a s' ?. by apply ewp_ret.
Qed.
Lemma ewp_fs_named pool fs_name e w (Q : Z → Engine_ * World_ → Prop) :
  engine_inv w e → (∀ u, Q u (e, w)) → ewp (fs_named pool fs_name) (e, w) Q.
Proof. intros Hi HQ. unfold fs_named. destruct (p_get_filesystem_by_name pool fs_name) as [[u ?]|]; [by apply ewp_ret|by apply ewp_err]. Qed.
Lemma filesystem_destroy_ok pool_name name fd Q : (∀ r, Q r fd) → awp (filesystem_destroy pool_name name) fd Q.
Proof.
  handler. apply ewp_bind, ewp_named; [done|]. intros u p put Hl. apply ewp_bind, ewp_fs_named; [done|]. intros v. apply ewp_bind.
  eapply ewp_on_pool; [apply destroy_filesystems_law|done..|]. intros a s' ?. by apply ewp_ret.
Qed.
Lemma filesystem_rename_ok pool_name name new_name fd Q : (∀ r, Q r fd) → awp (filesystem_rename pool_name name new_name) fd Q.
Proof.
  handler. apply ewp_bind, ewp_named; [done|]. intros u p put Hl. apply ewp_bind, ewp_fs_named; [done|]. intros v. apply ewp_bind.
  eapply ewp_on_pool; [apply rename_filesystem_law|done..|]. intros a s' ?. by apply ewp_ret.
Qed.

Lemma pool_query_ok {A} uuid (running : Pool_ → res A) is_locked fd Q :
  (∀ w p, pool_inv w p → ∃ a, running p = Ok a) → (∀ r, Q r fd) → awp (pool_query uuid running is_locked) fd Q.
Proof.
  intros Hr HQ. apply awp_locked; [|done]. intros e w Hi. apply ewp_bind, ewp_engine; [done|]. simpl.
  destruct (e_get_pool e uuid) as [[n p]|] eqn:E.
  - destruct (Hr w p) as [a Ea]; [by eapply engine_pool_inv|]. apply ewp_lift; [done|]. by exists a.
  - destruct (e_locked_pools e !! uuid); [by apply ewp_ret|by apply ewp_err].
Qed.
Lemma encryption_query_ok {A} (f : EncryptionInfo → A) w p : pool_inv w p → ∃ a, rmap f (p_encryption_info p) = Ok a.
Proof. intros Hp. destruct (encryption_law w p Hp) as [[i ->] _]. by exists (f i). Qed.

(** *** Lists *)

Lemma ok_of_reads {A} (m : st World_ A) e w : reads m w e →
  ∃ a w', ok_of m (e, w) = (Ok a, (e, w')) ∧ engine_inv w' e.
Proof. unfold reads, ok_of. simpl. destruct (m w) as [[a|err|why] w']; naive_solver. Qed.

Lemma pool_list_looks e l : ∀ w, engine_inv w e → (∀ x, x ∈ l → x ∈ e_pools e) →
  ∃ a w', pool_list_rows l (e, w) = (Ok a, (e, w')) ∧ engine_inv w' e.
Proof.
  induction l as [|[[n u] p] l IH]; intros w Hi Hl; [by do 2 eexists|]. simpl. unfold ibind at 1.
  destruct (ok_of_reads (p_total_physical_used p) e w) as (used & w1 & -> & Hi1); [by apply total_used_law|].
  assert (e_get_pool e u = Some (n, p)) as Hg by (apply (pools_law w1 e n u p Hi1), Hl; by left).
  destruct (encryption_law w1 p) as [_ [b Hb]]; [by eapply engine_pool_inv|].
  unfold ibind at 1, ilift. rewrite Hb. unfold ibind at 1.
  destruct (IH w1 Hi1) as ([[[a1 a2] a3] a4] & w2 & -> & Hi2); [intros x Hx; apply Hl; by right|]. by do 2 eexists.
Qed.
Lemma fs_rows_looks name fss e : ∀ w acc, engine_inv w e →
  ∃ a w', fs_rows name fss acc (e, w) = (Ok a, (e, w')) ∧ engine_inv w' e.
Proof.
  induction fss as [|[[n u] f] l IH]; intros w acc Hi; [by do 2 eexists|]. simpl. unfold ibind at 1.
  destruct (ok_of_reads (fs_used f) e w) as (used & w1 & -> & Hi1); [by apply fs_used_law|].
  destruct acc as [[[[[a0 a1] a2] a3] a4] a5]. by apply IH.
Qed.
Lemma fs_list_looks l e : ∀ w acc, engine_inv w e →
  ∃ a w', fs_list_rows l acc (e, w) = (Ok a, (e, w')) ∧ engine_inv w' e.
Proof.
  induction l as [|[[n u] p] l IH]; intros w acc Hi; [by do 2 eexists|]. simpl. unfold ibind at 1.
  destruct (fs_rows_looks n (p_filesystems p) e w acc Hi) as (acc' & w1 & -> & Hi1). by apply IH.
Qed.
Lemma pool_list_ok fd (Q : PoolListType → option Z → Prop) : (∀ r, Q r fd) → awp pool_list fd Q.
Proof. intros HQ. apply awp_locked_; [|done]. intros e w Hi. by apply (pool_list_looks e (e_pools e) w Hi). Qed.
Lemma filesystem_list_ok fd (Q : FsListType → option Z → Prop) : (∀ r, Q r fd) → awp filesystem_list fd Q.
Proof. intros HQ. apply awp_locked_; [|done]. intros e w Hi. by apply fs_list_looks. Qed.

(** *** Unlocking *)

Lemma unlock_all_ok um us : ∀ acc s, engine_inv s.2 s.1 → ewp (unlock_all um us acc) s (λ _ _, True).
Proof.
  induction us as [|u us IH]; intros acc s Hi; [by apply ewp_ret|]. simpl. apply ewp_bind, ewp_try.
  - eapply ewp_call; [apply unlock_pool_law|done..].
  - intros r s' Hi'. by apply IH.
Qed.

Lemma unlock_last_ok um uuid fd (Q : StratisError + bool → option Z → Prop) : (∀ r, Q r fd) →
  awp (match uuid with
       | Some u => locked (let! a := e_unlock_pool u um in iret (is_some (changed a)))
       | None => locked (let! e := engine_ in unlock_all um (map_to_list (e_locked_pools e)).*1 false)
       end) fd Q.
Proof.
  intros HQ. destruct uuid as [u|]; apply awp_locked; [|done| |done]; intros e w Hi; apply ewp_bind.
  - eapply ewp_call; [apply unlock_pool_law|done|]. intros a s' _ ?. by apply ewp_ret.
  - apply ewp_engine; [done|]. by apply unlock_all_ok.
Qed.

(** The descriptor of an unlock request is closed when it is used to set a key, and only then. *)
Lemma pool_unlock_ok um uuid fd (Q : StratisError + bool → option Z → Prop) :
  (∀ r, Q r fd) → (∀ r, Q r None) → awp (pool_unlock um uuid fd) fd Q.
Proof.
  intros HQ HN. unfold pool_unlock. apply awp_bind.
  assert (Hk : ∀ u (Q' : option KeyDescription → option Z → Prop), (∀ r, Q' r fd) → awp (key_get_desc u) fd Q').
  { intros u Q' HQ'. apply awp_locked_; [|done]. intros e w Hi. by do 2 eexists. }
  destruct uuid as [u|]; [destruct fd as [f|]|].
  - apply awp_bind, Hk. intros [kd|]; [|by apply (unlock_last_ok um (Some u))].
    apply awp_bind, awp_key_set. intros [e|b]; [apply HN|by apply (unlock_last_ok um (Some u))].
  - apply awp_bind, Hk. intros ?. by apply (unlock_last_ok um (Some u)).
  - by apply (unlock_last_ok um None).
Qed.

(** ** A request *)

Definition is_unlock (t : StratisParamType) : Prop := match t with Param.PoolUnlock _ _ => True | _ => False end.

Lemma returns_ok {T} ret (m : async (StratisError + T)) d fd (Q : StratisRet → option Z → Prop) :
  awp m fd (λ r fd', Q (ret (stratis_result_to_return r d)) fd') → awp (returns ret m d) fd Q.
Proof. intros Hm. by apply awp_bind. Qed.
Lemma expects_no_fd_ok {T} fd ret (d : T) k (Q : StratisRet → option Z → Prop) :
  (∀ r, Q r None) → (fd = None → awp k None Q) → awp (expects_no_fd fd ret d k) fd Q.
Proof. intros HQ Hk. destruct fd as [f|]; [|by apply Hk]. apply awp_bind, awp_close, HQ. Qed.
Lemma close_opt_ok {A} fd (k : async A) (Q : A → option Z → Prop) : awp k None Q → awp (abind (close_opt fd) (λ _, k)) fd Q.
Proof. intros Hk. destruct fd as [f|]; [by apply awp_bind, awp_close|done]. Qed.

(** Processing a request keeps the invariant, does not panic, and closes the descriptor it came with, unless it is an unlock request. *)
Lemma process_ok params : awp (process params) (fd_opt params) (λ _ fd, fd = None ∨ is_unlock (type_ params)).
Proof.
  destruct params as [t fd]. unfold process. simpl type_. simpl fd_opt.
  destruct t; try (apply expects_no_fd_ok; [by left|intros ->; apply returns_ok]).
  - destruct fd as [f|]; [|by left]. apply returns_ok, awp_key_set. by left.
  - apply key_unset_ok. by left.
  - apply key_list_ok. by left.
  - apply pool_create_ok. by left.
  - apply pool_rename_ok. by left.
  - apply rpc_add_blockdevs_ok. by left.
  - apply rpc_init_cache_ok. by left.
  - apply rpc_add_blockdevs_ok. by left.
  - apply pool_destroy_ok. by left.
  - apply returns_ok, pool_unlock_ok; by right.
  - apply close_opt_ok, awp_bind, pool_list_ok. by left.
  - apply pool_query_ok; [|by left]. intros w p Hp. apply (encryption_law w p Hp).
  - apply pool_query_ok; [by eauto|by left].
  - apply pool_query_ok; [apply encryption_query_ok|by left].
  - apply pool_query_ok; [apply encryption_query_ok|by left].
  - apply pool_query_ok; [apply encryption_query_ok|by left].
  - apply filesystem_create_ok. by left.
  - apply filesystem_destroy_ok. by left.
  - apply filesystem_rename_ok. by left.
  - apply close_opt_ok, awp_bind, filesystem_list_ok. by left.
  - apply close_opt_ok, awp_bind, awp_locked_; [|by left]. intros e w Hi. by do 2 eexists.
Qed.

(** ** The server *)

Context `{RpcSerde}.

Inductive reachable (allowed : Event → Prop) : Server → Prop :=
| reach_start s : srv_ok s → s_open s = ∅ → reachable allowed (mkServer s ∅)
| reach_step v event : reachable allowed v → allowed event → possible event v → reachable allowed (server_step event v).1.

(** A descriptor comes with a request other than to unlock a pool, or is closed at once. *)
Definition orderly (event : Event) : Prop :=
  match event with
  | Receive _ rmsg => ∀ f, f ∈ received_fds rmsg →
      match try_recvmsg rmsg with
      | (inr params, _) => ¬ is_unlock (type_ params)
      | (inl _, closed) => f ∈ closed
      end
  | _ => True
  end.

Lemma received_request rmsg params closed : try_recvmsg rmsg = (inr params, closed) →
  closed = [] ∧ received_fds rmsg = option_list (fd_opt params).
Proof.
  destruct rmsg as [e|[data cmsgs]]; [done|]. unfold try_recvmsg.
  destruct cmsgs as [|[vec|] [|m' l]]; simpl; try done.
  - destruct (param_from_slice _); intros [= <- <-]. done.
  - destruct vec as [|f [|f' vec]]; simpl; [destruct (param_from_slice _); intros [= <- <-]; done..|done].
  - destruct (param_from_slice _); intros [= <- <-]. done.
Qed.

Lemma closed_received rmsg f : f ∈ (try_recvmsg rmsg).2 → f ∈ received_fds rmsg.
Proof.
  destruct rmsg as [e|[data cmsgs]]; simpl; [set_solver|].
  assert (Hc : f ∈ (handle_cmsgs cmsgs).2 → f ∈ concat (omap (λ m, match m with ScmRights vec => Some vec | OtherControl => None end) cmsgs)).
  { destruct cmsgs as [|[vec|] [|m' l]]; simpl; try done; try set_solver. destruct (1 <? length vec)%nat; simpl; set_solver. }
  destruct (handle_cmsgs cmsgs) as [[e|fd] closed]; simpl in *; done.
Qed.

(** [held conn] is the descriptor the task of [conn] has to close *)
Record server_inv (strict : Prop) (v : Server) (held : nat → option Z) : Prop := {
  inv_srv : srv_ok (v_srv v);
  inv_task c t : v_tasks v !! c = Some t →
    awp (t_rest t) (held c) (λ _ fd, fd = None ∨ is_unlock (type_ (t_params t)));
  inv_held c t f : v_tasks v !! c = Some t → held c = Some f → f ∈ s_open (v_srv v) ∧ fd_opt (t_params t) = Some f;
  inv_apart c c' f : is_Some (v_tasks v !! c) → is_Some (v_tasks v !! c') → held c = Some f → held c' = Some f → c = c';
  inv_open f : strict → f ∈ s_open (v_srv v) → ∃ c, is_Some (v_tasks v !! c) ∧ held c = Some f;
  inv_unlock c t : strict → v_tasks v !! c = Some t → is_unlock (type_ (t_params t)) → fd_opt (t_params t) = None
}.

Lemma background_inv {A} (m : st (Engine_ * World_) A) post strict v held :
  engine_call m post → server_inv strict v held →
  server_inv strict (background m v).1 held ∧ ∀ why, Panicked why ∉ (background m v).2.
Proof.
  intros Hm Hv. pose proof (inv_srv _ _ _ Hv) as Hs. specialize (Hm _ _ Hs). unfold background.
  destruct (m _) as [[a|e|why] [e' w']]; [| |done]; (split; [|set_solver]); destruct Hv; split; simpl in *; try done; apply Hm.
Qed.

Lemma receive_inv strict v held conn rmsg : possible (Receive conn rmsg) v → (strict → orderly (Receive conn rmsg)) →
  server_inv strict v held → ∃ held', server_inv strict (server_step (Receive conn rmsg) v).1 held'.
Proof.
  intros (Hnew & Hnd & Hfresh) Hord Hv. simpl in *. destruct (try_recvmsg rmsg) as [[e|params] closed] eqn:E; simpl.
  - exists held. destruct Hv as [Hs Ht Hh Ha Ho Hu]. split; simpl in *; [done|done| |done| |done].
    + intros c t f Hc Hf. destruct (Hh c t f Hc Hf) as [Hin ?]. split; [|done]. apply elem_of_difference.
      split; [set_solver|]. intros Hcl%elem_of_list_to_set. apply (Hfresh f); [|done]. apply closed_received. by rewrite E.
    + intros f Hst Hf. specialize (Hord Hst f). set_solver.
  - destruct (received_request _ _ _ E) as [-> Er]. exists (λ c, if decide (c = conn) then fd_opt params else held c).
    destruct Hv as [Hs Ht Hh Ha Ho Hu]. split; simpl in *; [done| | | | | ].
    + intros c t [[<- <-]|[Hne Hc]]%lookup_insert_Some; simpl.
      * rewrite decide_True by done. apply process_ok.
      * rewrite decide_False by done. by apply Ht.
    + intros c t f [[<- <-]|[Hne Hc]]%lookup_insert_Some; simpl.
      * rewrite decide_True by done. intros Hf. split; [|done]. rewrite Er, Hf. set_solver.
      * rewrite decide_False by done. intros Hf. destruct (Hh c t f Hc Hf). set_solver.
    + assert (Hoff : ∀ c f, c ≠ conn → is_Some (<[conn:=mkTask params (process params)]> (v_tasks v) !! c) →
        held c = Some f → fd_opt params ≠ Some f).
      { intros c f Hne [t Hc] Hf Hp. rewrite lookup_insert_ne in Hc by done. destruct (Hh c t f Hc Hf) as [Hin _].
        apply (Hfresh f); [|done]. rewrite Er, Hp. by left. }
      intros c c' f Hc Hc'. destruct (decide (c = conn)) as [->|Hne], (decide (c' = conn)) as [->|Hne']; [done|..].
      * intros Hf Hf'. by destruct (Hoff c' f).
      * intros Hf Hf'. by destruct (Hoff c f).
      * rewrite lookup_insert_ne in Hc, Hc' by done. by apply Ha.
    + intros f Hst [[Hf|Hf]%elem_of_union _]%elem_of_difference.
      * destruct (Ho f Hst Hf) as (c & [t Hc] & Hcf). exists c. rewrite lookup_insert_ne, decide_False by naive_solver. eauto.
      * rewrite Er, elem_of_list_to_set in Hf. exists conn. rewrite lookup_insert_eq, decide_True by done. split; [eauto|].
        destruct (fd_opt params); set_solver.
    + intros c t Hst [[<- <-]|[Hne Hc]]%lookup_insert_Some; simpl; [|by eapply Hu].
      intros Hul. destruct (fd_opt params) as [f|] eqn:Ef; [|done]. exfalso. apply (Hord Hst f); [rewrite Er; by left|done].
Qed.

(** a task that goes on, with the descriptors it may have closed *)
Lemma work_inv strict v held conn params work : server_inv strict v held →
  v_tasks v !! conn = Some (mkTask params (Step work)) →
  let '(rest, s') := work (v_srv v) in ∃ held', server_inv strict (mkServer s' (<[conn := mkTask params rest]> (v_tasks v))) held'.
Proof.
  intros Hv Hc. pose proof (inv_task _ _ _ Hv conn _ Hc) as Hw. simpl in Hw.
  specialize (Hw (v_srv v) (inv_srv _ _ _ Hv)). destruct (work (v_srv v)) as [rest s'].
  destruct Hw as [Hs' Hw]; [intros f Hf; by apply (inv_held _ _ _ Hv conn _ f Hc)|].
  assert (Hin : ∀ c, is_Some (<[conn:=mkTask params rest]> (v_tasks v) !! c) ↔ is_Some (v_tasks v !! c)).
  { intros c. destruct (decide (c = conn)) as [->|]; [rewrite lookup_insert_eq, Hc; naive_solver|by rewrite lookup_insert_ne]. }
  assert (Hpar : ∀ c t, <[conn:=mkTask params rest]> (v_tasks v) !! c = Some t →
    ∃ t', v_tasks v !! c = Some t' ∧ t_params t' = t_params t ∧ (c = conn ∨ t' = t)).
  { intros c t [[<- <-]|[Hne Ht]]%lookup_insert_Some; eauto. }
  destruct Hw as [[Ho Hw]|(f & Hf & Ho & Hw)].
  - exists held. destruct Hv as [Hs Ht Hh Ha Hop Hu]. split; simpl in *; rewrite ?Ho; [done| | | | |].
    + intros c t [[<- <-]|[Hne Hct]]%lookup_insert_Some; [done|by apply Ht].
    + intros c t f (t' & Hct & <- & _)%Hpar. by apply Hh.
    + intros c c' f. rewrite !Hin. apply Ha.
    + intros f Hst Hf. destruct (Hop f Hst Hf) as (c & ? & ?). exists c. by rewrite Hin.
    + intros c t Hst (t' & Hct & <- & _)%Hpar. by eapply Hu.
  - exists (λ c, if decide (c = conn) then None else held c). destruct Hv as [Hs Ht Hh Ha Hop Hu].
    split; simpl in *; rewrite ?Ho; [done| | | | |].
    + intros c t [[<- <-]|[Hne Hct]]%lookup_insert_Some; [by rewrite decide_True|rewrite decide_False by done; by apply Ht].
    + intros c t g Hct Hg. destruct (decide (c = conn)) as [->|Hne]; [done|]. rewrite lookup_insert_ne in Hct by done.
      destruct (Hh c t g Hct Hg) as [Hgo ?]. split; [|done]. apply elem_of_difference. split; [done|].
      intros ->%elem_of_singleton. apply Hne, (Ha c conn f); eauto.
    + intros c c' g. rewrite !Hin. destruct (decide (c = conn)), (decide (c' = conn)); try done. apply Ha.
    + intros g Hst [Hg Hgf]%elem_of_difference. destruct (Hop g Hst Hg) as (c & ? & Hcg). exists c. rewrite Hin. split; [done|].
      rewrite decide_False; [done|]. intros ->. rewrite Hf in Hcg. set_solver.
    + intros c t Hst (t' & Hct & <- & _)%Hpar. by eapply Hu.
Qed.

(** a task that is done *)
Lemma done_inv strict v held conn params ret : server_inv strict v held →
  v_tasks v !! conn = Some (mkTask params (Ready ret)) → server_inv strict (mkServer (v_srv v) (delete conn (v_tasks v))) held.
Proof.
  intros [Hs Ht Hh Ha Hop Hu] Hc. pose proof (Ht conn _ Hc) as Hend. simpl in Hend.
  assert (Hd : ∀ c t, delete conn (v_tasks v) !! c = Some t → v_tasks v !! c = Some t) by (by intros c t [_ ?]%lookup_delete_Some).
  split; simpl; [done|naive_solver|naive_solver| | |naive_solver].
  - intros c c' f [t ?%Hd] [t' ?%Hd]. eauto.
  - intros f Hst Hf. destruct (Hop f Hst Hf) as (c & [t Hct] & Hcf). exists c. split; [|done]. rewrite lookup_delete_ne; [eauto|].
    intros ->. destruct Hend as [?|Hul]; [congruence|]. destruct (Hh c _ f Hc Hcf) as [_ Hp]. specialize (Hu c _ Hst Hc Hul). simpl in *. congruence.
Qed.

Lemma progress_inv strict v held conn : server_inv strict v held →
  (∃ held', server_inv strict (server_step (Progress conn) v).1 held') ∧ ∀ why, Panicked why ∉ (server_step (Progress conn) v).2.
Proof.
  intros Hv. simpl. destruct (v_tasks v !! conn) as [[params [ret|why|work]]|] eqn:Hc.
  - split; [|set_solver]. exists held. by eapply done_inv.
  - by pose proof (inv_task _ _ _ Hv conn _ Hc).
  - pose proof (work_inv strict v held conn params work Hv Hc). destruct (work (v_srv v)) as [rest s']. split; [done|set_solver].
  - split; [by exists held|set_solver].
Qed.

Lemma server_step_inv (strict : Prop) event v held : possible event v → (strict → orderly event) → server_inv strict v held →
  (∃ held', server_inv strict (server_step event v).1 held') ∧ ∀ why, Panicked why ∉ (server_step event v).2.
Proof.
  intros Hp Hord Hv. destruct event as [conn rmsg|conn|event|].
  - split; [by eapply receive_inv|]. simpl. destruct (try_recvmsg rmsg) as [[e|params] closed]; set_solver.
  - by eapply progress_inv.
  - destruct (background_inv (e_handle_event event) _ strict v held (handle_event_law event) Hv). eauto.
  - destruct (background_inv e_evented _ strict v held evented_law Hv). eauto.
Qed.

Lemma server_reachable_inv (strict : Prop) allowed v : (∀ event, strict → allowed event → orderly event) → reachable allowed v →
  ∃ held, server_inv strict v held.
Proof.
  intros Hall. induction 1 as [s Hs Ho|v event _ [held IH] Hal Hp].
  - exists (λ _, None). split; simpl; try done. intros f _. rewrite Ho. set_solver.
  - destruct (server_step_inv strict event v held Hp) as [Hn _]; [|done|done]. intros Hst. by apply Hall.
Qed.

(** whatever requests, events and messages arrive and however the tasks that process them are interleaved *)
Lemma server_safe v event : reachable (λ _, True) v → possible event v →
  srv_ok (v_srv v) ∧ ∀ why, Panicked why ∉ (server_step event v).2.
Proof.
  intros Hr Hp. destruct (server_reachable_inv False (λ _, True) v) as [held Hv]; [done|done|].
  split; [apply Hv|]. by apply (server_step_inv False event v held Hp).
Qed.

(** What a task closes is its own. *)
Lemma step_closes strict v held c f : server_inv strict v held → f ∈ s_open (v_srv v) → f ∉ s_open (v_srv (server_step (Progress c) v).1) →
  ∃ t, v_tasks v !! c = Some t ∧ fd_opt (t_params t) = Some f.
Proof.
  intros Hv Hf Hn. simpl in Hn. destruct (v_tasks v !! c) as [[params [ret|why|work]]|] eqn:Hc; [done|done| |done].
  exists (mkTask params (Step work)). split; [done|]. pose proof (inv_task _ _ _ Hv c _ Hc) as Hw. simpl in Hw.
  specialize (Hw (v_srv v) (inv_srv _ _ _ Hv)). destruct (work (v_srv v)) as [rest s'].
  destruct Hw as [_ [[Ho _]|(g & Hg & Ho & _)]]; [intros g Hg; by apply (inv_held _ _ _ Hv c _ g Hc)| |]; simpl in Hn; rewrite Ho in Hn; [done|].
  destruct (decide (f = g)) as [->|Hne]; [by apply (inv_held _ _ _ Hv c _ g Hc)|]. destruct Hn. apply elem_of_difference. split; [done|].
  by rewrite elem_of_singleton.
Qed.

(** C18: As long as descriptors come only with requests that use or refuse them, and not with requests to unlock a pool, every descriptor
    received from a client that the server has open came with a request that is still in progress, so that none of them is leaked; and a request closes only the
    descriptor it came with. *)
Theorem rpc_descriptors_closed v : reachable orderly v →
  (∀ f, f ∈ s_open (v_srv v) → ∃ c t, v_tasks v !! c = Some t ∧ fd_opt (t_params t) = Some f) ∧
  (∀ c f, f ∈ s_open (v_srv v) → f ∉ s_open (v_srv (server_step (Progress c) v).1) →
    ∃ t, v_tasks v !! c = Some t ∧ fd_opt (t_params t) = Some f).
Proof.
  intros Hr. destruct (server_reachable_inv True orderly v) as [held Hv]; [done|done|]. split.
  - intros f Hf. destruct (inv_open _ _ _ Hv f I Hf) as (c & [t Hc] & Hcf). exists c, t. split; [done|]. by apply (inv_held _ _ _ Hv c t f).
  - intros c f. by eapply step_closes.
Qed.
End spec.
