(* ===== verification/RpcReplies.v ===== *)
(** * The JSON RPC server answers

    The tasks that process requests are short, for any engine: each is a bounded number of pieces of work between which it waits for
    its turn.  So a request comes to its end; that it ends with a reply and not with a panic is up to the engine ([RpcSim]). *)
From stdpp Require Import base list gmap sets strings pretty.
From Stdlib Require Import ZArith Lia.
From S2P Require Import Prelude External Json Actions Shared DeviceSet Identify EngineApi Rpc.

Section replies.
Context `{Traits} `{RpcSerde}.

(** [m] has at most [n] pieces of work left, whatever they find *)
Fixpoint bounded {A} (n : nat) (m : async A) {struct m} : Prop :=
  match m with
  | Ready _ | Dead _ => True
  | Step work => match n with O => False | S n => ∀ s, let '(m', _) := work s in bounded n m' end
  end.

Fixpoint bounded_bind {A B} (m : async A) (k : A → async B) a b {struct m} :
  bounded a m → (∀ x n, (b ≤ n)%nat → bounded n (k x)) → bounded (a + b) (abind m k).
Proof.
  destruct m as [x|why|work]; simpl; [|done|].
  - intros _ Hk. apply Hk. lia.
  - destruct a as [|a]; [done|]. intros Hm Hk s. specialize (Hm s). simpl. pose proof (bounded_bind A B (work s).1 k a b) as IH.
    destruct (work s) as [m' s']. by apply IH.
Qed.
Fixpoint bounded_mono {A} (m : async A) n n' {struct m} : (n ≤ n')%nat → bounded n m → bounded n' m.
Proof.
  destruct m as [x|why|work]; simpl; [done|done|]. destruct n as [|n], n' as [|n']; [done|done|lia|].
  intros Hle Hm s. specialize (Hm s). pose proof (bounded_mono A (work s).1 n n') as IH. destruct (work s) as [m' s']. apply IH; [lia|done].
Qed.
Lemma bounded_ready {A} (a : A) n : bounded n (Ready a).
Proof. done. Qed.
Lemma bounded_locked {A} (m : st (Engine_ * World_) A) : bounded 1 (locked m).
Proof. intros s. destruct (m _) as [[a|e|why] [e' w']]; done. Qed.
Lemma bounded_locked_ {A} (m : st (Engine_ * World_) A) : bounded 1 (locked_ m).
Proof. intros s. destruct (m _) as [[a|e|why] [e' w']]; done. Qed.
Lemma bounded_close f : bounded 1 (close f).
Proof. by intros s. Qed.
Lemma bounded_key_set kd f : bounded 1 (key_set kd f).
Proof. intros s. destruct (k_set _ _ _) as [[[]|e|why] [e' w']]; done. Qed.
Lemma bounded_then {A B} (m : async A) (k : A → B) n : bounded n m → bounded n (abind m (λ x, Ready (k x))).
Proof. intros Hm. replace n with (n + 0)%nat by lia. by apply bounded_bind. Qed.
Lemma bounded_returns {T} ret (m : async (StratisError + T)) d n : bounded n m → bounded n (returns ret m d).
Proof. apply bounded_then. Qed.
Lemma bounded_no_fd {T} fd ret (d : T) k : bounded 1 k → bounded 1 (expects_no_fd fd ret d k).
Proof. destruct fd; [|done]. intros _. apply bounded_then, bounded_close. Qed.
Lemma bounded_close_opt {A} fd (k : async A) : bounded 1 k → bounded 2 (abind (close_opt fd) (λ _, k)).
Proof.
  intros Hk. destruct fd as [f|]; simpl; [|by eapply bounded_mono; [|exact Hk]; lia].
  apply (bounded_bind (close f) (λ _, k) 1 1); [apply bounded_close|]. intros _ n Hn. by eapply bounded_mono.
Qed.
Lemma bounded_unlock um uuid fd : bounded 3 (pool_unlock um uuid fd).
Proof.
  apply (bounded_bind _ _ 2 1).
  - destruct uuid as [u|]; [destruct fd as [f|]|done].
    + apply (bounded_bind _ _ 1 1); [apply bounded_locked_|]. intros [kd|] n Hn; [|done].
      apply (bounded_mono _ 1); [done|]. apply bounded_then, bounded_key_set.
    + apply (bounded_mono _ 1); [lia|]. apply bounded_then, bounded_locked_.
  - intros [e|[]] n Hn; [done|]. apply (bounded_mono _ 1); [done|]. destruct uuid; apply bounded_locked.
Qed.

Lemma process_bounded params : bounded 3 (process params).
Proof.
  destruct params as [t fd]. unfold process. simpl type_. simpl fd_opt.
  destruct t; try (apply (bounded_mono _ 1); [lia|]; apply bounded_no_fd, bounded_returns, bounded_locked).
  - apply (bounded_mono _ 1); [lia|]. destruct fd; [|done]. apply bounded_returns, bounded_key_set.
  - apply bounded_returns, bounded_unlock.
  - apply (bounded_mono _ 2); [lia|]. apply bounded_close_opt, bounded_then, bounded_locked_.
  - apply (bounded_mono _ 2); [lia|]. apply bounded_close_opt, bounded_then, bounded_locked_.
  - apply (bounded_mono _ 2); [lia|]. apply bounded_close_opt, bounded_then, bounded_locked_.
Qed.

(** An execution: states and the events between them *)
Definition execution (states : nat → Server) (events : nat → Event) : Prop :=
  ∀ i, possible (events i) (states i) ∧ states (S i) = (server_step (events i) (states i)).1.
(** The task of a connection is given a turn again and again. *)
Definition fair (events : nat → Event) (conn : nat) : Prop := ∀ i, ∃ j, (i ≤ j)%nat ∧ events j = Progress conn.

(** Other events leave the task of a connection as it is. *)
Lemma task_waits event v conn t : possible event v → v_tasks v !! conn = Some t → event ≠ Progress conn →
  v_tasks (server_step event v).1 !! conn = Some t.
Proof.
  intros Hp Ht Hne. destruct event as [c rmsg|c|event|]; simpl in *.
  - destruct Hp as [Hc _]. destruct (try_recvmsg rmsg) as [[e|params] closed]; [done|]. simpl. rewrite lookup_insert_ne by congruence. done.
  - assert (c ≠ conn) by congruence. destruct (v_tasks v !! c) as [[params [ret|why|work]]|]; simpl; try by rewrite lookup_delete_ne.
    + destruct (work (v_srv v)) as [rest s']. simpl. by rewrite lookup_insert_ne.
    + done.
  - unfold background. by destruct (e_handle_event event _) as [r [e w]].
  - unfold background. by destruct (e_evented _) as [r [e w]].
Qed.
Lemma task_next states events conn t i : execution states events → fair events conn → v_tasks (states i) !! conn = Some t →
  ∃ j, (i ≤ j)%nat ∧ events j = Progress conn ∧ v_tasks (states j) !! conn = Some t.
Proof.
  intros Hs Hf Ht. destruct (Hf i) as (j & Hij & Hj). remember (j - i)%nat as n eqn:En. revert i t Hij En Ht.
  induction n as [|n IH]; intros i t Hij En Ht.
  - assert (i = j) as -> by lia. by exists j.
  - destruct (Hs i) as [Hp Hn]. assert (Hdec : events i = Progress conn ∨ events i ≠ Progress conn).
    { destruct (events i) as [|c| |]; try by right. destruct (decide (c = conn)); [left|right]; congruence. }
    destruct Hdec as [He|Hne]; [by exists i|].
    destruct (IH (S i) t) as (k & ? & ? & ?); [lia|lia|rewrite Hn; by apply task_waits|]. exists k. split; [lia|done].
Qed.

(** how the task of a connection can end: with a reply, or with a panic *)
Definition ended (event : Event) (v : Server) (conn : nat) (params : StratisParams) : Prop := event = Progress conn ∧
  ((∃ ret, v_tasks v !! conn = Some (mkTask params (Ready ret)) ∧ (server_step event v).2 = [Replied conn (ret_to_vec ret)]) ∨
   ∃ why, v_tasks v !! conn = Some (mkTask params (Dead why)) ∧ (server_step event v).2 = [Panicked why]).

(** A task with little left to do comes to its end. *)
Lemma task_ends states events conn n : execution states events → fair events conn → ∀ i t,
  v_tasks (states i) !! conn = Some t → bounded n (t_rest t) →
  ∃ j, (i ≤ j)%nat ∧ ended (events j) (states j) conn (t_params t).
Proof.
  intros Hex Hf. induction n as [n IH] using lt_wf_ind; intros i t Ht Hb.
  destruct (task_next states events conn t i Hex Hf Ht) as (j & Hij & Hj & Htj). destruct t as [params [ret|why|work]].
  - exists j. split; [done|]. split; [done|]. left. exists ret. split; [done|]. rewrite Hj. simpl. by rewrite Htj.
  - exists j. split; [done|]. split; [done|]. right. exists why. split; [done|]. rewrite Hj. simpl. by rewrite Htj.
  - destruct n as [|n]; [done|]. destruct (Hex j) as [_ Hn]. rewrite Hj in Hn. simpl in Hn. rewrite Htj in Hn.
    simpl in Hb. specialize (Hb (v_srv (states j))). destruct (work (v_srv (states j))) as [rest s'].
    destruct (IH n ltac:(lia) (S j) (mkTask params rest)) as (k & Hk & ?); [by rewrite Hn; simpl; rewrite lookup_insert_eq|done|].
    exists k. split; [lia|done].
Qed.

End replies.
