(* ===== verification/RpcSim.v ===== *)
(** * The JSON RPC server with the simulator

    [stratisd-min --sim]: the server of [Rpc] with the engine of [src/engine/sim_engine/], which satisfies the laws the server relies on.  The real engine does not
    satisfy all of them: a request that makes the engine panic panics its task. *)
From stdpp Require Import base list gmap sets strings pretty.
From Stdlib Require Import ZArith Lia.
From S2P Require Import Prelude External Json Table Actions Shared DeviceSet Identify SimEngine SimInvariant EngineApi SimApi Rpc RpcSpec RpcReplies.

Section sim.
Context `{RpcSerde}.
Context (uuids rands nows : nat → Z) (fds : Z → res (list Z) * res Z) (rfc3339 uuid_text : Z → Str).
Hypothesis uuids_inj : ∀ i j, uuids i = uuids j → i = j.
(** reading and polling a file descriptor do not panic, and no more is read than the buffer holds *)
Hypothesis fds_ok : ∀ fd, command_ok (SetKey [] (fds fd).1 (fds fd).2).
#[local] Instance Sim : Traits := SimTraits uuids rands nows fds rfc3339 uuid_text.
#[local] Instance SimI : EngineInv := SimInv uuids rands nows fds rfc3339 uuid_text.
#[local] Instance SimL : EngineLaws := SimLaws uuids rands nows fds rfc3339 uuid_text uuids_inj fds_ok.
#[local] Instance SimN : EngineNames := SimNames uuids rands nows fds rfc3339 uuid_text uuids_inj.

(** the server with the engine [SimEngine::default()], after [n] random values were drawn *)
Definition sim_server (n : nat) : Server := mkServer (mkSrv (SE.default : Engine_) n ∅) ∅.

Inductive sim_served : Server → Prop :=
| sim_started n : sim_served (sim_server n)
| sim_stepped v event : sim_served v → possible event v → sim_served (server_step event v).1.

Lemma sim_srv_ok n : srv_ok (v_srv (sim_server n)).
Proof.
  split; [apply default_ok; intros i j; apply uuids_inj|]. intros u m p Hp. exfalso.
  assert (Some (m, p) = None) as [=]. etrans; [symmetry; exact Hp|apply lookup_empty].
Qed.
Lemma sim_served_reachable v : sim_served v → RpcSpec.reachable (λ _, True) v.
Proof. induction 1 as [n|v event _ IH Hp]; [apply RpcSpec.reach_start; [apply sim_srv_ok|done]|by apply RpcSpec.reach_step]. Qed.

End sim.
