(* ===== verification/RpcClientSpec.v ===== *)
(** * Client and server together

    A command of the client, run against a server that has nothing else to do, is the operation of the engine it stands for. *)
From stdpp Require Import base list gmap sets strings pretty.
From Stdlib Require Import ZArith Lia.
From S2P Require Import Prelude External Json Actions Shared DeviceSet Identify EngineApi Rpc Suffix RpcClient.

(** ** Tables *)

Lemma str_len_spaces n : 0 ≤ n → str_len (spaces n) = n.
Proof.
  intros Hn. unfold spaces. rewrite <-(Z2Nat.id n) at 2 by done. induction (Z.to_nat n) as [|k IH]; [done|].
  change (str_len (replicate (S k) 32)) with (1 + str_len (replicate k 32)). lia.
Qed.
Lemma str_len_nonneg s : 0 ≤ str_len s.
Proof. apply Zsum_nonneg, Forall_fmap, Forall_true. intros c. unfold compose, len_utf8. repeat case_match; lia. Qed.

Lemma align_length s n a : str_len s ≤ n → str_len (align s n a) = n + 3.
Proof. intros Hn. destruct a; simpl; rewrite str_len_app, str_len_spaces; lia. Qed.

Lemma max_length_bound c : str_len (heading c) ≤ max_length c ∧ Forall (λ v, str_len v ≤ max_length c) (values c).
Proof.
  unfold max_length. generalize (str_len (heading c)). induction (values c) as [|v l IH]; intros n; simpl; [done|].
  destruct (IH (if n <? str_len v then str_len v else n)) as [H1 H2]. destruct (Z.ltb_spec n (str_len v)); (split; [lia|]); constructor; [lia|done|lia|done].
Qed.
Lemma segments_length c : Forall (λ s, str_len s = max_length c + 3) (segments c).
Proof.
  destruct (max_length_bound c) as [Hh Hv]. apply Forall_fmap. constructor; [by apply align_length|].
  eapply Forall_impl; [done|]. intros v ?. by apply align_length.
Qed.

Lemma push_rows_length output segs n k : length output = length segs → Forall (λ s, str_len s = n) output →
  Forall (λ s, str_len s = k) segs → length (push_rows output segs) = length output ∧ Forall (λ s, str_len s = n + k) (push_rows output segs).
Proof.
  revert segs. induction output as [|o output IH]; intros [|s segs] Hl Ho Hs; simpl in *; try done.
  inversion Ho; inversion Hs; subst. destruct (IH segs) as [IH1 IH2]; [lia|done|done|].
  split; [lia|]. constructor; [by rewrite str_len_app|done].
Qed.

(** rows as long as a column *)
Lemma rows_length n columns : Forall (λ c, length (values c) = n) columns → ∀ output k, length output = S n →
  Forall (λ s, str_len s = k) output →
  let lines := foldl (λ output c, push_rows output (segments c)) output columns in
  length lines = S n ∧ Forall (λ s, str_len s = k + Zsum ((λ c, max_length c + 3) <$> columns)) lines.
Proof.
  induction 1 as [|c l Hc _ IH]; intros output k Hl Ho; csimpl.
  - split; [done|]. by rewrite Z.add_0_r.
  - destruct (push_rows_length output (segments c) k (max_length c + 3)) as [H1 H2]; [|done|apply segments_length|].
    { unfold segments. rewrite length_fmap. simpl. lia. }
    destruct (IH _ _ (eq_trans H1 Hl) H2) as [H3 H4]. split; [done|]. eapply Forall_impl; [done|]. intros s ->. lia.
Qed.

Lemma same_lengths_some b n ls : same_lengths (b, Some n) ls = (b && forallb (λ l, bool_decide (n = l)) ls, Some n).
Proof.
  revert b. induction ls as [|l ls IH]; intros b; simpl; [by rewrite andb_true_r|]. rewrite IH. by rewrite andb_assoc.
Qed.

(** [print_table!] prints a table, its heading first, exactly when the columns have the same number of values, else it returns an
    error; every row then has the same length in bytes: the longest cell of each column and three spaces. *)
Theorem print_table_spec columns :
  match print_table columns with
  | Ok lines => ∃ n, (columns = [] → n = O) ∧ Forall (λ c, length (values c) = n) columns ∧ length lines = S n ∧
      Forall (λ line, str_len line = Zsum ((λ c, max_length c + 3) <$> columns)) lines
  | Err _ => ∃ c c', c ∈ columns ∧ c' ∈ columns ∧ length (values c) ≠ length (values c')
  | Panic _ => False
  end.
Proof.
  unfold print_table. destruct columns as [|c0 columns].
  { simpl. exists O. split_and!; [done|done|done|]. repeat constructor. }
  assert (same_lengths (true, None) ((λ c, length (values c)) <$> c0 :: columns) =
    (forallb (λ l, bool_decide (length (values c0) = l)) ((λ c, length (values c)) <$> columns), Some (length (values c0)))) as ->
    by apply (same_lengths_some true).
  destruct (forallb _ _) eqn:E; simpl negb; cbv iota.
  - exists (length (values c0)). assert (Hall : Forall (λ c, length (values c) = length (values c0)) (c0 :: columns)).
    { constructor; [done|]. rewrite forallb_forall in E. apply Forall_forall. intros c Hc. symmetry. eapply bool_decide_eq_true_1, E.
      apply list_elem_of_In, list_elem_of_fmap. eauto. }
    split_and!; [done|done| |]; rewrite Nat.add_1_r;
      apply (rows_length (length (values c0)) (c0 :: columns) Hall _ 0); try by rewrite length_replicate. 
    all: apply Forall_replicate; done.
  - apply not_true_iff_false in E. rewrite forallb_forall in E.
    assert (∃ c, c ∈ columns ∧ length (values c0) ≠ length (values c)) as (c & Hc & Hne).
    { destruct (decide (Exists (λ c, length (values c0) ≠ length (values c)) columns)) as [Hex|Hn].
      - apply Exists_exists in Hex. done.
      - destruct E. intros x Hx%list_elem_of_In. apply list_elem_of_fmap in Hx as (c & -> & Hc). apply bool_decide_eq_true.
        destruct (decide (length (values c0) = length (values c))); [done|]. destruct Hn. apply Exists_exists. eauto. }
    exists c0, c. split_and!; [by left|by right|done].
Qed.

(** ** Commands *)

Module Cmd.
Inductive Command : Type :=
| KeyUnset (key_desc : KeyDescription)
| PoolCreate (name : Str) (blockdevs : list Str) (enc_info : EncryptionInfo)
| PoolUnlock (unlock_method : UnlockMethod) (uuid : option Z)
| PoolInitCache (name : Str) (paths : list Str)
| PoolRename (name new_name : Str)
| PoolAddData (name : Str) (paths : list Str)
| PoolAddCache (name : Str) (paths : list Str)
| PoolDestroy (name : Str)
| FsCreate (pool_name filesystem_name : Str)
| FsDestroy (pool_name filesystem_name : Str)
| FsRename (pool_name filesystem_name new_filesystem_name : Str).
End Cmd.

Section commands.
Context `{Traits} `{RpcSerde}.

(** What the client does *)
Definition client (c : Cmd.Command) : st Srv unit :=
  match c with
  | Cmd.KeyUnset kd => RpcClient.key_unset serve kd
  | Cmd.PoolCreate name blockdevs enc => RpcClient.pool_create serve name blockdevs enc
  | Cmd.PoolUnlock um uuid => RpcClient.pool_unlock serve (Err (Msg "no terminal")) (λ _, Err (Msg "no terminal")) um uuid false
  | Cmd.PoolInitCache name paths => RpcClient.pool_init_cache serve name paths
  | Cmd.PoolRename name new_name => RpcClient.pool_rename serve name new_name
  | Cmd.PoolAddData name paths => RpcClient.pool_add_data serve name paths
  | Cmd.PoolAddCache name paths => RpcClient.pool_add_cache serve name paths
  | Cmd.PoolDestroy name => RpcClient.pool_destroy serve name
  | Cmd.FsCreate pool_name name => RpcClient.filesystem_create serve pool_name name
  | Cmd.FsDestroy pool_name name => RpcClient.filesystem_destroy serve pool_name name
  | Cmd.FsRename pool_name name new_name => RpcClient.filesystem_rename serve pool_name name new_name
  end.

(** What it stands for: an operation of the engine, and whether it changed anything *)
Definition direct (c : Cmd.Command) : st (Engine_ * World_) bool :=
  match c with
  | Cmd.KeyUnset kd => let! r := k_unset kd in iret (is_changed r)
  | Cmd.PoolCreate name blockdevs enc => let! r := e_create_pool name blockdevs None enc in iret (is_changed r)
  | Cmd.PoolUnlock um (Some u) => let! r := e_unlock_pool u um in iret (is_changed r)
  | Cmd.PoolUnlock um None => let! e := engine_ in unlock_all um (map_to_list (e_locked_pools e)).*1 false
  | Cmd.PoolInitCache name paths =>
      let! '(u, pool, put) := named name "No pool found with name {}" in
      let! r := on_pool pool put (p_init_cache u name paths) in iret (is_changed r)
  | Cmd.PoolRename name new_name =>
      let! '(u, _, _) := named name "No pool found with name {}" in
      let! r := e_rename_pool u new_name in
      match r with RANoSource => ilift (Panic "internal error: entered unreachable code") | r => iret (is_changed r) end
  | Cmd.PoolAddData name paths =>
      let! '(u, pool, put) := named name "No pool found with name {}" in
      let! r := on_pool pool put (p_add_blockdevs u name paths Data) in iret (is_changed r)
  | Cmd.PoolAddCache name paths =>
      let! '(u, pool, put) := named name "No pool found with name {}" in
      let! r := on_pool pool put (p_add_blockdevs u name paths Cache) in iret (is_changed r)
  | Cmd.PoolDestroy name =>
      let! '(u, _, _) := named name "No pool found with name {}" in
      let! r := e_destroy_pool u in iret (is_changed r)
  | Cmd.FsCreate pool_name name =>
      let! '(u, pool, put) := named pool_name "No pool named {} found" in
      let! r := on_pool pool put (p_create_filesystems pool_name u [(name, None)]) in iret (is_changed r)
  | Cmd.FsDestroy pool_name name =>
      let! '(_, pool, put) := named pool_name "No pool named {} found" in
      let! u := fs_named pool name in
      let! r := on_pool pool put (p_destroy_filesystems pool_name [u]) in iret (is_changed r)
  | Cmd.FsRename pool_name name new_name =>
      let! '(_, pool, put) := named pool_name "No pool named {} found" in
      let! u := fs_named pool name in
      let! r := on_pool pool put (p_rename_filesystem pool_name u new_name) in iret (is_changed r)
  end.

Definition request_of (c : Cmd.Command) : StratisParamType :=
  match c with
  | Cmd.KeyUnset kd => Param.KeyUnset kd
  | Cmd.PoolCreate name blockdevs enc => Param.PoolCreate name blockdevs enc
  | Cmd.PoolUnlock um uuid => Param.PoolUnlock um uuid
  | Cmd.PoolInitCache name paths => Param.PoolInitCache name paths
  | Cmd.PoolRename name new_name => Param.PoolRename name new_name
  | Cmd.PoolAddData name paths => Param.PoolAddData name paths
  | Cmd.PoolAddCache name paths => Param.PoolAddCache name paths
  | Cmd.PoolDestroy name => Param.PoolDestroy name
  | Cmd.FsCreate pool_name name => Param.FsCreate pool_name name
  | Cmd.FsDestroy pool_name name => Param.FsDestroy pool_name name
  | Cmd.FsRename pool_name name new_name => Param.FsRename pool_name name new_name
  end.
(** the reply of the server; to [PoolAddData] that of another request *)
Definition reply_of (c : Cmd.Command) : bool * Z * string → StratisRet :=
  match c with
  | Cmd.KeyUnset _ => Ret.KeyUnset
  | Cmd.PoolCreate _ _ _ => Ret.PoolCreate
  | Cmd.PoolUnlock _ _ => Ret.PoolUnlock
  | Cmd.PoolInitCache _ _ => Ret.PoolInitCache
  | Cmd.PoolRename _ _ => Ret.PoolRename
  | Cmd.PoolAddData _ _ => Ret.PoolInitCache
  | Cmd.PoolAddCache _ _ => Ret.PoolAddCache
  | Cmd.PoolDestroy _ => Ret.PoolDestroy
  | Cmd.FsCreate _ _ => Ret.FsCreate
  | Cmd.FsDestroy _ _ => Ret.FsDestroy
  | Cmd.FsRename _ _ _ => Ret.FsRename
  end.

(** Whether a message fits into the buffer it is read into *)
Definition fits (message : list Z) : bool := (length message <=? BUFFER_SIZE)%nat.

(** What the user sees *)
Definition outcome (c : Cmd.Command) (r : res bool) : res unit :=
  match r with
  | Panic _ => Panic "no reply"
  | Ok _ | Err _ =>
      let result := match r with Err e => inl e | Ok b => inr b | Panic _ => inr false end in
      if negb (fits (ret_to_vec (reply_of c (stratis_result_to_return result false)))) then Err (Msg "serde")
      else match c, result with
           | Cmd.PoolAddData _ _, _ => Err (Msg "Request and response types did not match")
           | _, inr true => Ok tt
           | _, inr false => Err (Msg "The requested action had no effect")
           | _, inl e => Err (Msg (error_to_string e))
           end
  end.

(** *** Running a task alone *)

Fixpoint run_task_bind {A B} (m : async A) (k : A → async B) s {struct m} :
  run_task (abind m k) s = match run_task m s with
    | (Ok a, s') => run_task (k a) s' | (Err e, s') => (Err e, s') | (Panic why, s') => (Panic why, s') end.
Proof.
  destruct m as [a|why|work]; simpl; [done|done|]. pose proof (run_task_bind A B (work s).1 k) as IH.
  destruct (work s) as [m' s']. apply IH.
Qed.
Lemma run_task_locked {A} (m : st (Engine_ * World_) A) s :
  run_task (locked m) s = let '(r, (e, w)) := m (s_engine s, s_world s) in
    (match r with Ok a => Ok (inr a) | Err e => Ok (inl e) | Panic why => Panic why end, mkSrv e w (s_open s)).
Proof. simpl. by destruct (m _) as [[a|err|why] [e w]]. Qed.

(** The work of a command on the server is its operation on the engine. *)
Definition alone (m : async (StratisError + bool)) (d : st (Engine_ * World_) bool) : Prop :=
  ∀ s, run_task m s = let '(r, (e, w)) := d (s_engine s, s_world s) in
    (match r with Ok a => Ok (inr a) | Err e => Ok (inl e) | Panic why => Panic why end, mkSrv e w (s_open s)).
Lemma alone_locked (m d : st (Engine_ * World_) bool) : (∀ s, m s = d s) → alone (locked m) d.
Proof. intros E s. by rewrite run_task_locked, E. Qed.
Lemma ibind_ext {S A B} (m : st S A) (k k' : A → st S B) s : (∀ a s', k a s' = k' a s') → ibind m k s = ibind m k' s.
Proof. intros E. unfold ibind. destruct (m s) as [[a|e|w] s']; naive_solver. Qed.
Lemma served_command c : ∃ h, process (mkParams (request_of c) None) = returns (reply_of c) h false ∧ alone h (direct c).
Proof.
  destruct c as [kd|n l i|um [u|]|n l|n n'|n l|n l|n|pn n|pn n|pn n n']; eexists; (split; [reflexivity|]).
  - apply alone_locked. intros s. apply ibind_ext. by intros [] ?.
  - apply alone_locked. intros s. apply ibind_ext. by intros [] ?.
  - intros s. simpl. unfold ibind. by destruct (e_unlock_pool u um _) as [[[[]]|e|why] [e' w']].
  - intros s. apply run_task_locked.
  - by apply alone_locked.
  - apply alone_locked. intros s. apply ibind_ext. intros [[u p] put] s'. apply ibind_ext. by intros [] ?.
  - by apply alone_locked.
  - by apply alone_locked.
  - apply alone_locked. intros s. apply ibind_ext. intros [[u p] put] s'. apply ibind_ext. by intros [] ?.
  - by apply alone_locked.
  - by apply alone_locked.
  - by apply alone_locked.
Qed.

(** *** Messages *)

Lemma param_decoded p : param_from_slice (take BUFFER_SIZE (param_to_vec p)) = if fits (param_to_vec p) then Some p else None.
Proof.
  unfold fits. destruct (Nat.leb_spec (length (param_to_vec p)) BUFFER_SIZE).
  - rewrite firstn_all2 by done. apply param_roundtrip.
  - by apply param_prefix.
Qed.
Lemma ret_decoded r : ret_from_slice (take BUFFER_SIZE (ret_to_vec r)) = if fits (ret_to_vec r) then Some r else None.
Proof.
  unfold fits. destruct (Nat.leb_spec (length (ret_to_vec r)) BUFFER_SIZE).
  - rewrite firstn_all2 by done. apply ret_roundtrip.
  - by apply ret_prefix.
Qed.
(** A request without descriptor, and the reply *)
Lemma request_alone ty ret h d s : process (mkParams ty None) = returns ret h false → alone h d →
  RpcClient.request serve (mkParams ty None) s =
  if fits (param_to_vec ty) then
    let '(r, (e, w)) := d (s_engine s, s_world s) in
    (match r with
     | Ok b => let reply := ret (stratis_result_to_return (inr b) false) in if fits (ret_to_vec reply) then Ok reply else Err (Msg "serde")
     | Err e => let reply := ret (stratis_result_to_return (inl e) false) in if fits (ret_to_vec reply) then Ok reply else Err (Msg "serde")
     | Panic _ => Panic "no reply"
     end, mkSrv e w (s_open s))
  else (Panic "no reply", s).
Proof.
  intros Hp Hh. assert (Es : mkSrv (s_engine s) (s_world s) ((s_open s ∪ list_to_set []) ∖ list_to_set []) = s).
  { destruct s as [e w o]. simpl. f_equal. set_solver. }
  assert (E : serve (param_to_vec ty) None s = if fits (param_to_vec ty) then
      match run_task (process (mkParams ty None)) s with (Ok ret, s2) => (Ok (ret_to_vec ret), s2) | (_, s2) => (Panic "no reply", s2) end
    else (Panic "no reply", s)).
  { unfold serve. cbn [try_recvmsg handle_cmsgs received_fds omap list_omap concat]. rewrite param_decoded.
    destruct (fits (param_to_vec ty)); cbv beta iota zeta; rewrite Es; done. }
  unfold RpcClient.request, ibind. cbn [type_ fd_opt]. rewrite E. clear E Es. destruct (fits (param_to_vec ty)).
  - rewrite Hp. unfold returns. change (mbind ?k ?m) with (abind m k). rewrite run_task_bind, Hh.
    destruct (d _) as [[b|e0|why] [e w]]; cbn [run_task mret async_ret]; rewrite ?ret_decoded.
    + by destruct (fits _).
    + by destruct (fits _).
    + done.
  - done.
Qed.

(** C20: A command of the client that goes through [do_request_standard] (not the setting of a key, unlocking with a prompt, the lists and the
    queries), run against the server, has exactly the effect of the operation of the engine it stands for, and tells the
    user whether it changed something, had no effect, or failed and why, with these exceptions: replies that do
    not fit into the buffer are errors, adding data devices is always reported as an error, and a request that does not fit, or makes the engine
    panic, has no reply: the client waits for ever. *)
Theorem rpc_client_exact c s :
  client c s =
  if fits (param_to_vec (request_of c)) then
    let '(r, (e, w)) := direct c (s_engine s, s_world s) in (outcome c r, mkSrv e w (s_open s))
  else (Panic "no reply", s).
Proof.
  destruct (served_command c) as (h & Hp & Hh). pose proof (request_alone _ _ _ _ s Hp Hh) as Hr.
  assert (Hc : ∃ matches, client c = RpcClient.do_request_standard serve (request_of c) None matches ∧
    ∀ r, matches (reply_of c r) = match c with Cmd.PoolAddData _ _ => None | _ => Some r end).
  { destruct c; eexists; (split; [reflexivity|]); by intros []. }
  destruct Hc as (matches & -> & Hm). unfold RpcClient.do_request_standard, RpcClient.do_request, ibind. rewrite Hr.
  destruct (fits (param_to_vec _)); [|done]. destruct (direct c _) as [[b|e0|why] [e w]]; simpl; [| |done].
  - destruct (fits _); simpl; [|done]. rewrite Hm. by destruct c, b.
  - destruct (fits _); simpl; [|done]. rewrite Hm. by destruct c.
Qed.
(** ** Faults *)

(** Adding data devices is reported as an error, even when the engine added them. *)
Lemma add_data_reported name paths s : (RpcClient.pool_add_data serve name paths s).1 ≠ Ok tt.
Proof.
  destruct (served_command (Cmd.PoolAddData name paths)) as (h & Hp & Hh). pose proof (request_alone _ _ _ _ s Hp Hh) as Hr.
  unfold RpcClient.pool_add_data, RpcClient.do_request_standard, RpcClient.do_request, ibind. simpl request_of in Hr. rewrite Hr.
  destruct (fits _); [|done]. destruct (direct _ _) as [[b|e0|why] [e w]]; simpl; try destruct (fits _); done.
Qed.

(** The descriptor of a request to unlock all pools is not closed, *)
Lemma unlock_leaks um f s : s_open (run_task (process (mkParams (Param.PoolUnlock um None) (Some f))) s).2 = s_open s.
Proof.
  simpl. unfold ibind. simpl. by destruct (unlock_all _ _ _ _) as [[b|e|why] [e' w']].
Qed.
(** nor is the descriptor of a message that is not a request. *)
Lemma undecoded_leaks conn data f v : param_from_slice (take BUFFER_SIZE data) = None →
  f ∈ s_open (v_srv (server_step (Receive conn (inr (data, [ScmRights [f]]))) v).1).
Proof. intros E. simpl. rewrite E. set_solver. Qed.
End commands.
