(* ===== verification/RpcExample.v ===== *)
(** * The JSON RPC server with the simulator

    A concrete serialisation of requests and replies, and the server run with the simulator engine: instances of what is proved
    in [RpcSpec], [RpcReplies], [RpcSim] and [RpcClientSpec], and the descriptors that are leaked. *)
From stdpp Require Import base list gmap sets strings pretty countable.
From Stdlib Require Import ZArith Lia.
From S2P Require Import Prelude Disk External Json Table Actions Shared DeviceSet Identify SimEngine SimInvariant EngineApi SimApi DbusExample StratisMin Rpc Suffix RpcClient RpcSpec RpcReplies RpcSim RpcClientSpec.

(** ** A serialisation *)

Notation Tm := (gen_tree (list Z)).
Class Codec (A : Type) : Type := { enc : A → Tm; dec : Tm → option A; dec_enc a : dec (enc a) = Some a }.

#[local] Instance codec_str : Codec (list Z) | 0.
Proof. refine {| enc := GenLeaf; dec t := match t with GenLeaf l => Some l | _ => None end |}. done. Defined.
#[local] Instance codec_Z : Codec Z.
Proof. refine {| enc z := GenLeaf [z]; dec t := match t with GenLeaf [z] => Some z | _ => None end |}. done. Defined.
#[local] Instance codec_bool : Codec bool.
Proof.
  refine {| enc b := GenLeaf (if b : bool then [1] else []); dec t := match t with GenLeaf [] => Some false | GenLeaf _ => Some true | _ => None end |}.
  by intros [].
Defined.
#[local] Instance codec_string : Codec string.
Proof.
  refine {| enc s := GenLeaf [Zpos (encode s)]; dec t := match t with GenLeaf [Zpos p] => decode p | _ => None end |}.
  intros s. apply decode_encode.
Defined.
#[local] Instance codec_prod {A B} `{Codec A} `{Codec B} : Codec (A * B).
Proof.
  refine {| enc x := GenNode 0 [enc x.1; enc x.2];
            dec t := match t with GenNode _ [a; b] => a ← dec a; b ← dec b; Some (a, b) | _ => None end |}.
  intros [a b]. simpl. by rewrite !dec_enc.
Defined.
#[local] Instance codec_option {A} `{Codec A} : Codec (option A).
Proof.
  refine {| enc x := GenNode 0 (match x with Some a => [enc a] | None => [] end);
            dec t := match t with GenNode _ [a] => Some <$> dec a | GenNode _ [] => Some None | _ => None end |}.
  intros [a|]; simpl; [by rewrite dec_enc|done].
Defined.
#[local] Instance codec_list {A} `{Codec A} : Codec (list A) | 10.
Proof.
  refine {| enc x := GenNode 0 (enc <$> x); dec t := match t with GenNode _ l => mapM dec l | _ => None end |}.
  intros l. simpl. apply mapM_Some. rewrite Forall2_fmap_l. apply Forall_Forall2_diag, Forall_true. intros a. apply dec_enc.
Defined.

Definition enc_num (n : Num) : Tm := match n with PosInt z => GenNode 0 [enc z] | NegInt z => GenNode 1 [enc z] | Float s => GenNode 2 [GenLeaf s] end.
Fixpoint enc_value (v : Value) : Tm :=
  match v with
  | Null => GenNode 0 []
  | Bool b => GenNode 1 [enc b]
  | Number n => GenNode 2 [enc_num n]
  | VString s => GenNode 3 [GenLeaf s]
  | Array l => GenNode 4 (enc_value <$> l)
  | Object m => GenNode 5 ((λ x, GenNode 0 [GenLeaf x.1; enc_value x.2]) <$> m)
  end.
Fixpoint dec_value (t : Tm) : option Value :=
  match t with
  | GenNode 0 [] => Some Null
  | GenNode 1 [b] => Bool <$> dec b
  | GenNode 2 [GenNode 0 [z]] => (λ z, Number (PosInt z)) <$> dec z
  | GenNode 2 [GenNode 1 [z]] => (λ z, Number (NegInt z)) <$> dec z
  | GenNode 2 [GenNode _ [GenLeaf s]] => Some (Number (Float s))
  | GenNode 3 [GenLeaf s] => Some (VString s)
  | GenNode 4 l => Array <$> mapM dec_value l
  | GenNode 5 l => Object <$> mapM (λ x, match x with GenNode _ [GenLeaf s; v] => pair s <$> dec_value v | _ => None end) l
  | _ => None
  end.
Lemma dec_enc_value v : dec_value (enc_value v) = Some v.
Proof.
  revert v. fix F 1. intros [|b|[z|z|s]|s|l|m]; simpl; try done.
  - by destruct b.
  - assert (mapM dec_value (enc_value <$> l) = Some l) as ->; [|done].
    apply mapM_Some, Forall2_fmap_l. induction l as [|v l IH]; constructor; [apply F|apply IH].
  - assert (mapM (λ x, match x with GenNode _ [GenLeaf s; v] => pair s <$> dec_value v | _ => None end)
      ((λ x, GenNode 0 [GenLeaf x.1; enc_value x.2]) <$> m) = Some m) as ->; [|done].
    apply mapM_Some, Forall2_fmap_l. induction m as [|[k v] m IH]; constructor; [simpl; by rewrite F|apply IH].
Qed.
#[local] Instance codec_value : Codec Value := {| enc := enc_value; dec := dec_value; dec_enc := dec_enc_value |}.
#[local] Instance codec_enc_info : Codec EncryptionInfo.
Proof.
  refine {| enc i := enc (key_description i, clevis_info i); dec t := (λ x, mkEnc x.1 x.2) <$> dec t |}.
  intros []. by rewrite dec_enc.
Defined.
#[local] Instance codec_unlock : Codec UnlockMethod.
Proof.
  refine {| enc u := enc (match u with UMClevis => true | UMKeyring => false end); dec t := (λ b : bool, if b then UMClevis else UMKeyring) <$> dec t |}.
  by intros [].
Defined.

(** a request or reply: which one, and its contents *)
Definition enc_param (p : StratisParamType) : Tm :=
  match p with
  | Param.KeySet a => GenNode 0 [enc a] | Param.KeyUnset a => GenNode 1 [enc a] | Param.KeyList => GenNode 2 []
  | Param.PoolCreate a b c => GenNode 3 [enc (a, b, c)] | Param.PoolRename a b => GenNode 4 [enc (a, b)]
  | Param.PoolAddData a b => GenNode 5 [enc (a, b)] | Param.PoolInitCache a b => GenNode 6 [enc (a, b)]
  | Param.PoolAddCache a b => GenNode 7 [enc (a, b)] | Param.PoolDestroy a => GenNode 8 [enc a]
  | Param.PoolUnlock a b => GenNode 9 [enc (a, b)] | Param.PoolList => GenNode 10 [] | Param.PoolIsEncrypted a => GenNode 11 [enc a]
  | Param.PoolIsLocked a => GenNode 12 [enc a] | Param.PoolIsBound a => GenNode 13 [enc a]
  | Param.PoolHasPassphrase a => GenNode 14 [enc a] | Param.PoolClevisPin a => GenNode 15 [enc a]
  | Param.FsCreate a b => GenNode 16 [enc (a, b)] | Param.FsDestroy a b => GenNode 17 [enc (a, b)]
  | Param.FsRename a b c => GenNode 18 [enc (a, b, c)] | Param.FsList => GenNode 19 [] | Param.Report => GenNode 20 []
  end.
Definition dec_param (t : Tm) : option StratisParamType :=
  match t with
  | GenNode 0 [x] => Param.KeySet <$> dec x | GenNode 1 [x] => Param.KeyUnset <$> dec x | GenNode 2 [] => Some Param.KeyList
  | GenNode 3 [x] => (λ '(a, b, c), Param.PoolCreate a b c) <$> dec x | GenNode 4 [x] => (λ '(a, b), Param.PoolRename a b) <$> dec x
  | GenNode 5 [x] => (λ '(a, b), Param.PoolAddData a b) <$> dec x | GenNode 6 [x] => (λ '(a, b), Param.PoolInitCache a b) <$> dec x
  | GenNode 7 [x] => (λ '(a, b), Param.PoolAddCache a b) <$> dec x | GenNode 8 [x] => Param.PoolDestroy <$> dec x
  | GenNode 9 [x] => (λ '(a, b), Param.PoolUnlock a b) <$> dec x | GenNode 10 [] => Some Param.PoolList
  | GenNode 11 [x] => Param.PoolIsEncrypted <$> dec x
  | GenNode 12 [x] => Param.PoolIsLocked <$> dec x | GenNode 13 [x] => Param.PoolIsBound <$> dec x
  | GenNode 14 [x] => Param.PoolHasPassphrase <$> dec x | GenNode 15 [x] => Param.PoolClevisPin <$> dec x
  | GenNode 16 [x] => (λ '(a, b), Param.FsCreate a b) <$> dec x | GenNode 17 [x] => (λ '(a, b), Param.FsDestroy a b) <$> dec x
  | GenNode 18 [x] => (λ '(a, b, c), Param.FsRename a b c) <$> dec x | GenNode 19 [] => Some Param.FsList
  | GenNode 20 [] => Some Param.Report
  | _ => None
  end.
#[local] Instance codec_param : Codec StratisParamType.
Proof. refine {| enc := enc_param; dec := dec_param |}. intros []; unfold enc_param, dec_param; by rewrite ?dec_enc. Defined.

Definition enc_ret (r : StratisRet) : Tm :=
  match r with
  | Ret.KeySet r => GenNode 0 [enc r] | Ret.KeyUnset r => GenNode 1 [enc r] | Ret.KeyList r => GenNode 2 [enc r]
  | Ret.PoolCreate r => GenNode 3 [enc r] | Ret.PoolRename r => GenNode 4 [enc r] | Ret.PoolAddData r => GenNode 5 [enc r]
  | Ret.PoolInitCache r => GenNode 6 [enc r] | Ret.PoolAddCache r => GenNode 7 [enc r] | Ret.PoolDestroy r => GenNode 8 [enc r]
  | Ret.PoolUnlock r => GenNode 9 [enc r] | Ret.PoolList r => GenNode 10 [enc r] | Ret.PoolIsEncrypted r => GenNode 11 [enc r]
  | Ret.PoolIsLocked r => GenNode 12 [enc r] | Ret.PoolIsBound r => GenNode 13 [enc r] | Ret.PoolHasPassphrase r => GenNode 14 [enc r]
  | Ret.PoolClevisPin r => GenNode 15 [enc r] | Ret.FsCreate r => GenNode 16 [enc r] | Ret.FsList r => GenNode 17 [enc r]
  | Ret.FsDestroy r => GenNode 18 [enc r] | Ret.FsRename r => GenNode 19 [enc r] | Ret.Report r => GenNode 20 [enc r]
  end.
Definition dec_ret (t : Tm) : option StratisRet :=
  match t with
  | GenNode 0 [x] => Ret.KeySet <$> dec x | GenNode 1 [x] => Ret.KeyUnset <$> dec x | GenNode 2 [x] => Ret.KeyList <$> dec x
  | GenNode 3 [x] => Ret.PoolCreate <$> dec x | GenNode 4 [x] => Ret.PoolRename <$> dec x | GenNode 5 [x] => Ret.PoolAddData <$> dec x
  | GenNode 6 [x] => Ret.PoolInitCache <$> dec x | GenNode 7 [x] => Ret.PoolAddCache <$> dec x | GenNode 8 [x] => Ret.PoolDestroy <$> dec x
  | GenNode 9 [x] => Ret.PoolUnlock <$> dec x | GenNode 10 [x] => Ret.PoolList <$> dec x | GenNode 11 [x] => Ret.PoolIsEncrypted <$> dec x
  | GenNode 12 [x] => Ret.PoolIsLocked <$> dec x | GenNode 13 [x] => Ret.PoolIsBound <$> dec x
  | GenNode 14 [x] => Ret.PoolHasPassphrase <$> dec x | GenNode 15 [x] => Ret.PoolClevisPin <$> dec x
  | GenNode 16 [x] => Ret.FsCreate <$> dec x | GenNode 17 [x] => Ret.FsList <$> dec x
  | GenNode 18 [x] => Ret.FsDestroy <$> dec x | GenNode 19 [x] => Ret.FsRename <$> dec x | GenNode 20 [x] => Ret.Report <$> dec x
  | _ => None
  end.
#[local] Instance codec_ret : Codec StratisRet.
Proof. refine {| enc := enc_ret; dec := dec_ret |}. intros []; unfold enc_ret, dec_ret; by rewrite ?dec_enc. Defined.

(** a tree as two numbers, the second of which ends the message *)
Definition to_message {A} `{Codec A} (a : A) : list Z := [Zpos (encode (enc a)); 0].
Definition of_message {A} `{Codec A} (l : list Z) : option A := match l with [Zpos p; 0] => decode p ≫= dec | _ => None end.
Lemma message_roundtrip {A} `{Codec A} (a : A) : of_message (to_message a) = Some a.
Proof. unfold of_message, to_message. rewrite decode_encode. simpl. apply dec_enc. Qed.
Lemma message_prefix {A} `{Codec A} (a : A) n : (n < length (to_message a))%nat → of_message (A:=A) (take n (to_message a)) = None.
Proof. unfold to_message. simpl. intros Hn. destruct n as [|[|n]]; [done|done|lia]. Qed.

#[local] Instance ExSerde : RpcSerde := {|
  param_to_vec := to_message; param_from_slice := of_message; ret_to_vec := to_message; ret_from_slice := of_message;
  param_roundtrip := message_roundtrip; ret_roundtrip := message_roundtrip;
  param_prefix := message_prefix; ret_prefix := message_prefix |}.

(** ** The server with the simulator *)

#[local] Existing Instances ExUuid ExTraits ExInv ExLaws.
#[local] Instance ExNames : EngineNames :=
  SimNames ex_uuids (λ _, 7) (λ _, 1600000000) ex_fds (λ _, str "2020-09-13T12:26:40Z") uuid_simple ex_uuids_inj.

Definition ex_server : Server := mkServer (mkSrv (SE.default : Engine_) (0%nat : World_) ∅) ∅.
Lemma ex_server_reachable allowed : RpcSpec.reachable allowed ex_server.
Proof. apply RpcSpec.reach_start; [|done]. apply (sim_srv_ok ex_uuids (λ _, 7) (λ _, 1600000000) ex_fds (λ _, str "2020-09-13T12:26:40Z") uuid_simple ex_uuids_inj 0). Qed.

(** a request, as it is received *)
Definition ex_message (p : StratisParamType) (fd : option Z) : StratisError + (list Z * list ControlMessage) :=
  inr (param_to_vec p, match fd with Some f => [ScmRights [f]] | None => [] end).
Lemma ex_received p fd : try_recvmsg (ex_message p fd) = (inr (mkParams p fd), []).
Proof.
  unfold try_recvmsg, ex_message. assert (param_from_slice (take BUFFER_SIZE (param_to_vec p)) = Some p) as E.
  { rewrite firstn_all2; [apply param_roundtrip|]. simpl. unfold BUFFER_SIZE. lia. }
  destruct fd; simpl handle_cmsgs; cbv iota; by rewrite E.
Qed.

Definition ex_create : StratisParamType := Param.PoolCreate (str "pool") [str "/dev/a"] EncryptionInfo_default.
Definition ex_received_create : Server := (server_step (Receive 0 (ex_message ex_create None)) ex_server).1.

#[local] Notation sim_served := (RpcSim.sim_served ex_uuids (λ _, 7) (λ _, 1600000000) ex_fds (λ _, str "2020-09-13T12:26:40Z") uuid_simple).

Definition ex_key : StratisParamType := Param.KeySet (str "key").
Definition ex_received_key : Server := (server_step (Receive 0 (ex_message ex_key (Some 5))) ex_server).1.
Lemma ex_received_key_open : 5 ∈ s_open (v_srv ex_received_key).
Proof. unfold ex_received_key, server_step. rewrite ex_received. set_solver. Qed.

Lemma rpc_descriptors_closed_witness :
  RpcSpec.reachable orderly ex_received_key ∧ 5 ∈ s_open (v_srv ex_received_key) ∧
  ∃ c t, v_tasks ex_received_key !! c = Some t ∧ fd_opt (t_params t) = Some 5.
Proof.
  assert (Hr : RpcSpec.reachable orderly ex_received_key).
  { apply RpcSpec.reach_step; [apply ex_server_reachable| |].
    - intros f _. rewrite ex_received. intros [].
    - split; [done|]. split; [apply NoDup_singleton|]. intros fd _. apply not_elem_of_empty. }
  split; [exact Hr|]. split; [exact ex_received_key_open|]. exact (proj1 (rpc_descriptors_closed ex_received_key Hr) 5 ex_received_key_open).
Defined.

Definition ex_rpc_events (i : nat) : Event := match i with O => Receive 0 (ex_message ex_create None) | S _ => Progress 0 end.
Fixpoint ex_rpc_states (i : nat) : Server := match i with O => ex_server | S i => (server_step (ex_rpc_events i) (ex_rpc_states i)).1 end.


(** The command line creates a pool, and then adds a device to it: the second command is reported as an error, but the device is added. *)
Definition ex_srv1 : Srv := (client (Cmd.PoolCreate (str "pool") [str "/dev/a"] EncryptionInfo_default) (v_srv ex_server)).2.
Definition ex_srv2 : Srv := (client (Cmd.PoolAddData (str "pool") [str "/dev/b"]) ex_srv1).2.
Definition n_devices (s : Srv) : list nat := (λ x : Str * Z * Pool_, length (p_blockdevs x.2)) <$> e_pools (s_engine s).
Example client_adds_device :
  (client (Cmd.PoolCreate (str "pool") [str "/dev/a"] EncryptionInfo_default) (v_srv ex_server)).1 = Ok tt ∧ n_devices ex_srv1 = [1%nat] ∧
  (client (Cmd.PoolAddData (str "pool") [str "/dev/b"]) ex_srv1).1 = Err (Msg "Request and response types did not match") ∧ n_devices ex_srv2 = [2%nat].
Proof. vm_compute. done. Qed.

(** ** The command line *)

(** the methods of [clap::ArgMatches] *)
Definition ex_value (v : list Z) : res Str := if valid_utf8 v then Ok (chars v) else Panic "unexpected invalid UTF-8 code point".
Fixpoint ex_values (vs : list (list Z)) : res (list Str) :=
  match vs with [] => Ok [] | v :: vs => let? x := ex_value v in let? xs := ex_values vs in Ok (x :: xs) end.
Lemma ex_values_ok vs : if forallb valid_utf8 vs then ex_values vs = Ok (chars <$> vs) else ∃ why, ex_values vs = Panic why.
Proof.
  induction vs as [|v vs IH]; [done|]. cbn [forallb ex_values]. unfold ex_value at 1 2. destruct (valid_utf8 v); [|by eexists].
  destruct (forallb valid_utf8 vs); [by rewrite IH|]. destruct IH as [why ->]. by eexists.
Qed.
#[local] Instance ExClap : Clap.
Proof.
  refine {|
    values_of m name := match recorded m name with Some vs => rmap Some (ex_values vs) | None => Ok None end;
    value_of m name := match recorded m name ≫= head with Some v => rmap Some (ex_value v) | None => Ok None end;
    is_present := present;
    subcommand_matches m name := match m with mkMatches _ (Some (name', m')) => if bool_decide (name = name') then Some m' else None | _ => None end;
    subcommand_name m := match m with mkMatches _ sub => fst <$> sub end |}; try done.
  - intros m name. destruct (recorded m name) as [vs|]; [|done]. pose proof (ex_values_ok vs) as Hv.
    destruct (forallb valid_utf8 vs); [by rewrite Hv|]. destruct Hv as [why ->]. by eexists.
  - intros m name. destruct (recorded m name ≫= head) as [v|]; [|done]. unfold ex_value. destruct (valid_utf8 v); [done|by eexists].
Defined.

(** [stratis-min pool create --clevis tang --tang-url tang.local --thumbprint t pool /dev/a] *)
Definition create_tang : ArgMatches :=
  mkMatches [("clevis", [str "tang"]); ("tang_url", [str "tang.local"]); ("thumbprint", [str "t"]);
             ("name", [str "pool"]); ("blockdevs", [str "/dev/a"])]%string None.
Definition pool_create_tang : ArgMatches := mkMatches [] (Some ("create"%string, create_tang)).
Definition min_create_tang : ArgMatches := mkMatches [] (Some ("pool"%string, pool_create_tang)).

Notation ex_main := (main (λ _ _, ierr (Msg "no server")) (λ _, Err (Msg "no file")) (Ok []) (λ _, Ok 3) (λ _, Ok []) (Ok [])).
Lemma stratis_min_safe_witness : let display := @Build_UuidDisplay ExUuid uuid_simple uuid_parse_simple in
  conforms parse_args min_create_tang = true ∧ texts min_create_tang = true ∧
  safe (ex_main min_create_tang : st unit _) ∧
  ∃ url json, clevis_info_of create_tang = Ok (Some (str "tang", Object json)) ∧ map_get (str "url") json = Some (VString url) ∧
    (map_get Crypt.CLEVIS_TANG_TRUST_URL json = Some (Bool true) ∨ ∃ thp, map_get (str "thp") json = Some (VString thp)).
Proof.
  intros display. assert (Hc : conforms parse_args min_create_tang = true) by (vm_compute; reflexivity).
  assert (Ht : texts min_create_tang = true) by (vm_compute; reflexivity). split; [exact Hc|]. split; [exact Ht|].
  destruct (stratis_min_safe (λ _ _, ierr (Msg "no server") : st unit _) (λ _, Err (Msg "no file")) (Ok []) (λ _, Ok 3) (λ _, Ok []) (Ok [])
    min_create_tang) as [H1 H2]; [split_and!; done|exact Hc|exact Ht|].
  split; [exact H1|]. apply (H2 pool_create_tang create_tang); by vm_compute.
Defined.

(** [stratis-min pool destroy $'\xff'] conforms to the grammar, and panics *)
Definition destroy_other : ArgMatches := mkMatches [] (Some ("pool"%string, mkMatches [] (Some ("destroy"%string, mkMatches [("name"%string, [[255]])] None)))).
Lemma other_bytes_conform : conforms parse_args destroy_other = true ∧
  match (@main _ _ (@Build_UuidDisplay ExUuid uuid_simple uuid_parse_simple) _ unit (λ _ _, ierr (Msg "no server")) (λ _, Err (Msg "no file")) (Ok [])
    (λ _, Ok 3) (λ _, Ok []) (Ok []) destroy_other tt).1 with Panic _ => true | _ => false end = true.
Proof. split; vm_compute; reflexivity. Qed.
