(* ===== verification/PidLock.v ===== *)
(** * One daemon at a time

    Models [trylock_pid_file] of [src/bin/stratisd.rs] and [src/bin/stratis-min/stratisd-min.rs]: the two daemons keep
    each other, and further copies of themselves, from running by locks on two PID files.  A process is the place it has reached in the code;
    the locks it has are those of the files it holds, which the kernel releases when it exits or is killed. *)
From stdpp Require Import base list gmap.
From Stdlib Require Import ZArith Lia.
From S2P Require Import Prelude.

(** [STRATISD_PID_PATH], [STRATISD_MIN_PID_PATH] *)
Inductive PidFile := StratisdPid | StratisdMinPid.

(** What a process is about to do.  [locked] is whether [stratisd_file] is [Ok]. *)
Inductive Place : Type :=
(* [trylock_pid_file] of stratisd *)
| DOpen | DFlock | DWrite
| DOpenMin (locked : bool) | DWaitMin (locked : bool) | DDropMin (locked : bool)
| DRun
(* [trylock_pid_file] of stratisd-min *)
| MOpen | MFlock | MWrite
| MOpenStratisd | MFlockStratisd | MDropStratisd
| MRun
| Exited.

(** [main]: [true] for stratisd, [false] for stratisd-min *)
Definition start_of (stratisd : bool) : Place := if stratisd then DOpen else MOpen.

(** the files the process has locked *)
Definition holds (p : Place) (f : PidFile) : bool :=
  match p, f with
  | DWrite, StratisdPid | DOpenMin true, StratisdPid | DWaitMin true, StratisdPid | DDropMin true, StratisdPid | DRun, StratisdPid => true
  | DDropMin _, StratisdMinPid => true
  | MWrite, StratisdMinPid | MOpenStratisd, StratisdMinPid | MFlockStratisd, StratisdMinPid | MDropStratisd, StratisdMinPid
  | MRun, StratisdMinPid => true
  | MDropStratisd, StratisdPid => true
  | _, _ => false
  end.

(** the lock the process asks for: at once, or waiting for it ([DWaitMin]) *)
Definition asks (p : Place) : option PidFile :=
  match p with
  | DFlock => Some StratisdPid
  | DWaitMin _ => Some StratisdMinPid
  | MFlock => Some StratisdMinPid
  | MFlockStratisd => Some StratisdPid
  | _ => None
  end.

(** Where it goes when the call succeeded or failed.  A stratisd that does not get its lock still waits for stratisd-min before it exits. *)
Definition next (p : Place) (ok : bool) : Place :=
  match p with
  | DOpen => if ok then DFlock else Exited
  | DFlock => if ok then DWrite else DOpenMin false
  | DWrite => if ok then DOpenMin true else Exited
  | DOpenMin locked => if ok then DWaitMin locked else Exited
  | DWaitMin locked => if ok then DDropMin locked else Exited
  | DDropMin locked => if locked then DRun else Exited
  | DRun => Exited
  | MOpen => if ok then MFlock else Exited
  | MFlock => if ok then MWrite else Exited
  | MWrite => if ok then MOpenStratisd else Exited
  | MOpenStratisd => if ok then MFlockStratisd else Exited
  | MFlockStratisd => if ok then MDropStratisd else Exited
  | MDropStratisd => MRun
  | MRun => Exited
  | Exited => Exited
  end.

Definition runs (p : Place) : bool := match p with DRun | MRun => true | _ => false end.

(** ** Processes *)

Notation Procs := (gmap nat Place).

(** no other process has the file locked *)
Definition free (s : Procs) (i : nat) (f : PidFile) : bool :=
  forallb (λ '(j, p), (i =? j)%nat || negb (holds p f)) (map_to_list s).

Inductive lock_step (s : Procs) : Procs → Prop :=
| Start i stratisd : s !! i = None → lock_step s (<[i := start_of stratisd]> s)
| Go i p ok : s !! i = Some p → (∀ f, asks p = Some f → ok = true → free s i f = true) → lock_step s (<[i := next p ok]> s)
| Kill i p : s !! i = Some p → lock_step s (<[i := Exited]> s).

Inductive lock_reachable : Procs → Prop :=
| no_processes : lock_reachable ∅
| lock_steps s s' : lock_reachable s → lock_step s s' → lock_reachable s'.

(** ** Exclusion *)

Lemma free_spec s i f : free s i f = true ↔ ∀ j p, s !! j = Some p → j ≠ i → holds p f = false.
Proof.
  unfold free. rewrite forallb_forall. split.
  - intros Hall j p Hj Hne. assert (In (j, p) (map_to_list s)) as Hin by (by apply list_elem_of_In, elem_of_map_to_list).
    apply Hall in Hin. apply orb_true_iff in Hin as [E%Nat.eqb_eq|E]; [by subst|]. by apply negb_true_iff.
  - intros Hall [j p] Hin%list_elem_of_In%elem_of_map_to_list. destruct (Nat.eqb_spec i j) as [|Hne]; [done|].
    simpl. apply negb_true_iff. by eapply Hall.
Qed.

(** What a process has locked after a step, it had before or asked for. *)
Lemma next_holds p ok f : holds (next p ok) f = true → holds p f = true ∨ (ok = true ∧ asks p = Some f).
Proof. destruct p as [| | |[]|[]|[]| | | | | | | | |], ok, f; simpl; auto. Qed.
(** A process that starts to run has, until then, both files locked. *)
Lemma next_runs p ok f : runs (next p ok) = true → holds p f = true.
Proof. destruct p as [| | |[]|[]|[]| | | | | | | | |], ok, f; simpl; done. Qed.

Record locks_ok (s : Procs) : Prop := {
  one_holder i j p q f : s !! i = Some p → s !! j = Some q → holds p f = true → holds q f = true → i = j;
  one_runner i j p q : s !! i = Some p → s !! j = Some q → runs p = true → runs q = true → i = j
}.

(** A process that changes place, with no more locks than it had, or one that was free *)
Lemma place_ok s i p : locks_ok s →
  (∀ f, holds p f = true → (∃ p0, s !! i = Some p0 ∧ holds p0 f = true) ∨ ∀ j q, s !! j = Some q → j ≠ i → holds q f = false) →
  (runs p = true → ∀ j q, s !! j = Some q → j ≠ i → runs q = false) → locks_ok (<[i := p]> s).
Proof.
  intros [Hh Hr] Hf Hrun.
  assert (H1 : ∀ j q f, s !! j = Some q → i ≠ j → holds p f = true → holds q f = true → False).
  { intros j q f Hj Hne Hp Hq. destruct (Hf f Hp) as [(p0 & Hi & Hp0)|Hfree]; [by apply Hne, (Hh i j p0 q f)|].
    by rewrite (Hfree j q Hj (not_eq_sym Hne)) in Hq. }
  assert (H2 : ∀ j q, s !! j = Some q → i ≠ j → runs p = true → runs q = true → False).
  { intros j q Hj Hne Hp Hq. by rewrite (Hrun Hp j q Hj (not_eq_sym Hne)) in Hq. }
  split.
  - intros a b x y f [[<- <-]|[Hna Ha]]%lookup_insert_Some [[<- <-]|[Hnb Hb]]%lookup_insert_Some Hx Hy; [done|..|by eapply Hh].
    + by destruct (H1 b y f).
    + by destruct (H1 a x f).
  - intros a b x y [[<- <-]|[Hna Ha]]%lookup_insert_Some [[<- <-]|[Hnb Hb]]%lookup_insert_Some Hx Hy; [done|..|by eapply Hr].
    + by destruct (H2 b y).
    + by destruct (H2 a x).
Qed.

(** A running process has a file locked. *)
Lemma runs_holds p : runs p = true → ∃ f, holds p f = true.
Proof. destruct p as [| | |[]|[]|[]| | | | | | | | |]; try done; [by exists StratisdPid|by exists StratisdMinPid]. Qed.

Lemma lock_step_ok s s' : locks_ok s → lock_step s s' → locks_ok s'.
Proof.
  intros Hs. destruct 1 as [i [] Hi|i p ok Hi Hask|i p Hi].
  - by apply place_ok.
  - by apply place_ok.
  - apply place_ok; [done| |].
    + intros f [Hp|[-> Ha]]%next_holds; [by left; exists p|]. right. apply free_spec. by apply Hask.
    + intros Hr j q Hj Hne. destruct (runs q) eqn:Hq; [|done]. destruct (runs_holds q Hq) as [f Hqf]. exfalso.
      apply Hne. symmetry. by apply (one_holder s Hs i j p q f Hi Hj (next_runs p ok f Hr)).
  - by apply place_ok.
Qed.
Lemma lock_reachable_ok s : lock_reachable s → locks_ok s.
Proof. induction 1 as [|s s' _ IH Hst]; [by split|by eapply lock_step_ok]. Qed.

(** C21: However many stratisd and stratisd-min processes are started, at whatever moments, and whichever calls fail or processes are
    killed, at most one of all of them is past its locks and runs the engine. *)
Theorem one_daemon_runs s i j p q : lock_reachable s → s !! i = Some p → s !! j = Some q → runs p = true → runs q = true → i = j.
Proof. intros Hs%lock_reachable_ok. by apply (one_runner s Hs). Qed.

(** *** Runs *)

Inductive Action := AStart (i : nat) (stratisd : bool) | AGo (i : nat) (ok : bool) | AKill (i : nat).
Definition act (a : Action) (s : Procs) : option Procs :=
  match a with
  | AStart i stratisd => match s !! i with None => Some (<[i := start_of stratisd]> s) | Some _ => None end
  | AGo i ok =>
      p ← s !! i;
      if match asks p with Some f => negb ok || free s i f | None => true end then Some (<[i := next p ok]> s) else None
  | AKill i => _ ← s !! i; Some (<[i := Exited]> s)
  end.
Lemma act_step a s s' : act a s = Some s' → lock_step s s'.
Proof.
  destruct a as [i b|i ok|i]; simpl.
  - destruct (s !! i) eqn:E; [done|]. intros [= <-]. by constructor.
  - destruct (s !! i) as [p|] eqn:E; [|done]. simpl. destruct (asks p) as [f|] eqn:Ha.
    + destruct (negb ok || free s i f) eqn:Hf; [|done]. intros [= <-]. eapply Go; [done|]. rewrite Ha. intros f' [= <-] ->. done.
    + intros [= <-]. eapply Go; [done|]. by rewrite Ha.
  - destruct (s !! i) as [p|] eqn:E; [|done]. intros [= <-]. by eapply Kill.
Qed.
Fixpoint acts (l : list Action) (s : Procs) : option Procs := match l with [] => Some s | a :: l => act a s ≫= acts l end.
Lemma acts_reachable l : ∀ s s', lock_reachable s → acts l s = Some s' → lock_reachable s'.
Proof.
  induction l as [|a l IH]; intros s s' Hs; simpl; [by intros [= <-]|]. destruct (act a s) as [s1|] eqn:E; [|done].
  simpl. apply IH. eapply lock_steps; [done|]. by apply act_step in E.
Qed.

Definition after (l : list Action) : Procs := default ∅ (acts l ∅).
Lemma after_reachable l : lock_reachable (after l).
Proof.
  unfold after. destruct (acts l ∅) as [s|] eqn:E; simpl; [|apply no_processes]. by apply (acts_reachable l ∅ s no_processes).
Qed.

(** stratisd-min runs, stratisd waits for it, it exits, and stratisd runs. *)
Definition handover : list Action :=
  [AStart 1 false; AGo 1 true; AGo 1 true; AGo 1 true; AGo 1 true; AGo 1 true; AGo 1 true;
   AStart 2 true; AGo 2 true; AGo 2 true; AGo 2 true; AGo 2 true; AGo 1 true; AGo 2 true; AGo 2 true].
Lemma one_daemon_runs_witness : after handover !! 2%nat = Some DRun ∧
  ∀ i p, after handover !! i = Some p → runs p = true → i = 2%nat.
Proof.
  split; [vm_compute; reflexivity|]. intros i p Hi Hp.
  refine (one_daemon_runs (after handover) i 2 p DRun (after_reachable handover) Hi _ Hp eq_refl). vm_compute. reflexivity.
Defined.

(** stratisd-min locks the PID file of stratisd for a moment to see whether it runs.  A stratisd that starts at that moment is refused with the
    message that a daemon is already running, though none is and, should the other fail, none will be. *)
Definition meeting : list Action :=
  [AStart 1 false; AGo 1 true; AGo 1 true; AGo 1 true; AGo 1 true; AGo 1 true; AStart 2 true; AGo 2 true; AGo 2 false].
Lemma refused_without_daemon : lock_reachable (after meeting) ∧ after meeting !! 2%nat = Some (DOpenMin false) ∧
  free (after meeting) 2 StratisdPid = false ∧ map_Forall (λ _ p, runs p = false) (after meeting).
Proof.
  split; [apply after_reachable|]. split; [vm_compute; reflexivity|]. split; [vm_compute; reflexivity|].
  apply (bool_decide_unpack (map_Forall (λ _ p, runs p = false) (after meeting))). vm_compute. exact I.
Qed.
