(* ===== verification/Utils.v ===== *)
(** * The utilities

    Models [src/bin/stratis-utils.rs]: the prediction of a pool's space and the comparison of strings.
    Opening a device and asking for its size is an argument.  The generators, reached from the same executable, are in Generators.v. *)
From stdpp Require Import base list gmap strings pretty.
From Stdlib Require Import ZArith Lia.
From S2P Require Import Prelude Disk External Json Shared Sizes RangeAlloc StaticHeader BDA Crypt BlockDev BlockDevMgr.
Import mda_size.

(** ** stratis-utils *)

(** [string_compare]: what is printed *)
Definition string_compare (arg1 arg2 : Str) : Str := if bool_decide (arg1 = arg2) then str "0" else str "1".

(** [collect::<StratisResult<Vec<_>>>] *)
Fixpoint collect {A} (l : list (res A)) : res (list A) :=
  match l with [] => Ok [] | r :: l => let? a := r in let? rest := collect l in Ok (a :: rest) end.

Definition bytes_string (sectors : Z) : Value := VString (str (pretty (sectors_bytes sectors))).

(** the numbers of [predict_usage]: total, used and available sectors *)
Definition predicted (crypt_metadata_size_sectors : Z) (sizes : list Z) : Z * Z * Z :=
  let stratis_metadata_size_sectors := Bda.extended_size Bda.default in
  let total_size := sum64 sizes in
  let stratis_device_sizes := (λ s, s -64 crypt_metadata_size_sectors) <$> sizes in
  let stratis_avail_sizes := (λ s, s -64 stratis_metadata_size_sectors) <$> stratis_device_sizes in
  let avail_size := sum64 stratis_avail_sizes in
  (total_size, total_size -64 avail_size, avail_size).

(** [blkdev_sizes]: the results of opening the devices and asking for their sizes in bytes *)
Definition predict_usage (encrypted : bool) (blkdev_sizes : list (res Z)) : res Value :=
  let crypt_metadata_size := if encrypted then crypt_metadata_size else 0 in
  let crypt_metadata_size_sectors := bytes_sectors crypt_metadata_size in
  rassert (sectors_bytes crypt_metadata_size_sectors =? crypt_metadata_size) "assertion failed: `(left == right)`"
  (let? sizes := collect (rmap bytes_sectors <$> blkdev_sizes) in
   let '(total_size, used_size, avail_size) := predicted crypt_metadata_size_sectors sizes in
   Ok (object [(str "total", bytes_string total_size); (str "used", bytes_string used_size); (str "free", bytes_string avail_size)])).

(** *** The prediction and the pool *)

(** the sectors encryption takes from a device *)
Definition crypt_sectors (encrypted : bool) : Z := if encrypted then bytes_sectors crypt_metadata_size else 0.

Lemma extended_size_default : Bda.extended_size Bda.default = 8192.
Proof. vm_compute. done. Qed.

(** A block device that has just been made part of a pool *)
Definition fresh (device_size : Z) (bd : StratBlockDev) : Prop :=
  ∃ dev ids time user hw underlying,
    SBD.new dev (Bda.new ids MDADataSize_default device_size time) [] user hw underlying = Ok bd.

Lemma fresh_available size bd : u64 size → fresh size bd → SBD.available bd = size - Bda.extended_size Bda.default.
Proof.
  intros Hs (dev & ids & time & user & hw & underlying & E). unfold SBD.new, RA.new in E.
  change (Bda.extended_size (Bda.new ids MDADataSize_default size time)) with (Bda.extended_size Bda.default) in E.
  change (Bda.dev_size (Bda.new ids MDADataSize_default size time)) with size in E. rewrite extended_size_default in *.
  pose proof (insert_all_ok (PDS.new size) [(0, 8192)] (wf_new size Hs)) as Hi.
  destruct (PDS.insert_all _ _) as [segs|e|w]; [|done..]. simpl in E. injection E as <-.
  unfold SBD.available. simpl. destruct Hi as (_ & Hwf & Hlim & Htot & _); [by repeat constructor|].
  rewrite available_exact by done. simpl in *. rewrite Hlim. unfold total in *. simpl in Htot. lia.
Qed.

(** what is left of the devices *)
Definition left_over (encrypted : bool) (sizes : list Z) : list Z := (λ s, s - crypt_sectors encrypted - Bda.extended_size Bda.default) <$> sizes.

Lemma predicted_exact encrypted sizes : Forall (λ s, crypt_sectors encrypted + Bda.extended_size Bda.default ≤ s) sizes → u64 (Zsum sizes) →
  predicted (crypt_sectors encrypted) sizes =
    (Zsum sizes, Zsum sizes - Zsum (left_over encrypted sizes), Zsum (left_over encrypted sizes)) ∧
  0 ≤ Zsum (left_over encrypted sizes) ≤ Zsum sizes ∧ Forall u64 sizes.
Proof.
  intros Hs Hu. unfold predicted, left_over in *. rewrite extended_size_default in *.
  assert (Hc : 0 ≤ crypt_sectors encrypted) by (destruct encrypted; vm_compute; discriminate).
  set (c := crypt_sectors encrypted) in *.
  assert (Hb : Forall u64 sizes ∧ 0 ≤ Zsum ((λ s, s - c - 8192) <$> sizes) ≤ Zsum sizes ∧ 0 ≤ Zsum sizes).
  { clear Hc. assert (Hle : ∀ M, Zsum sizes ≤ M → Forall (λ s, 0 ≤ s ≤ M) sizes ∧ 0 ≤ Zsum ((λ s, s - c - 8192) <$> sizes) ≤ Zsum sizes ∧ 0 ≤ Zsum sizes); [|by apply Hle; destruct Hu].
    assert (0 ≤ c) by (unfold c; destruct encrypted; vm_compute; discriminate). clear Hu.
    induction Hs as [|s l Hsl _ IH]; intros M HM; csimpl in *; [split; [constructor|simpl; lia]|].
    destruct (IH (Zsum l)) as (_ & ? & ?); [lia|]. destruct (IH (M - s)) as (Hl & _ & _); [lia|].
    split; [|lia]. constructor; [lia|]. eapply Forall_impl; [exact Hl|]. simpl. intros x ?. lia. }
  destruct Hb as (Hall & Hle & Hpos).
  assert (E : (λ s, s -64 8192) <$> ((λ s, s -64 c) <$> sizes) = (λ s, s - c - 8192) <$> sizes).
  { rewrite <- list_fmap_compose. apply list_fmap_ext. intros i s Hi. unfold compose.
    pose proof (Forall_lookup_1 _ _ _ _ Hs Hi). pose proof (Forall_lookup_1 _ _ _ _ Hall Hi) as Hsu. simpl in *. unfold u64, u64_max in Hsu. by nowrap. }
  rewrite E. unfold u64, u64_max in Hu. rewrite !sum64_exact by (unfold u64, u64_max; lia). nowrap. done.
Qed.

Lemma collect_ok {A} (l : list A) : collect (Ok <$> l) = Ok l.
Proof. induction l as [|a l IH]; [done|]. csimpl. by rewrite IH. Qed.

(** [predict_usage] tells the space of the pool that would be created: for devices that can take the metadata, it does not panic, the numbers
    add up, and the free space it prints is what the block device manager of a pool made of these devices, encrypted or not, has available. *)
Theorem predict_usage_exact encrypted sizes mgr : Forall (λ s, crypt_sectors encrypted + Bda.extended_size Bda.default ≤ s) sizes →
  u64 (Zsum sizes) → Forall2 fresh ((λ s, s - crypt_sectors encrypted) <$> sizes) (block_devs mgr) →
  ∃ used, used + BDM.avail_space mgr = Zsum sizes ∧ 0 ≤ used ∧
    predict_usage encrypted ((λ s, Ok (sectors_bytes s)) <$> sizes) = Ok (object
      [(str "total", bytes_string (Zsum sizes)); (str "used", bytes_string used); (str "free", bytes_string (BDM.avail_space mgr))]).
Proof.
  intros Hs Hu Hm. destruct (predicted_exact encrypted sizes Hs Hu) as (Hp & Hle & Hall).
  assert (Ea : BDM.avail_space mgr = Zsum (left_over encrypted sizes)).
  { unfold BDM.avail_space. assert (SBD.available <$> block_devs mgr = left_over encrypted sizes) as ->.
    - unfold left_over. rewrite Forall2_fmap_l in Hm. clear Hp Hle Hu. revert Hs Hall. induction Hm as [|s bd l l' Hf _ IH]; intros Hs Hall; csimpl; [done|].
      inversion Hs; inversion Hall; subst. f_equal; [|by apply IH]. apply fresh_available; [|done].
      rewrite extended_size_default in *. assert (0 ≤ crypt_sectors encrypted) by (destruct encrypted; vm_compute; discriminate). unfold u64 in *. lia.
    - apply sum64_exact. unfold u64 in *. lia. }
  exists (Zsum sizes - Zsum (left_over encrypted sizes)). rewrite Ea. split; [lia|]. split; [lia|]. unfold predict_usage.
  assert (sectors_bytes (bytes_sectors (if encrypted then crypt_metadata_size else 0)) =? (if encrypted then crypt_metadata_size else 0) = true) as ->
    by (destruct encrypted; vm_compute; done).
  assert (rmap bytes_sectors <$> ((λ s, Ok (sectors_bytes s)) <$> sizes) = Ok <$> sizes) as ->.
  { rewrite <- list_fmap_compose. apply list_fmap_ext. intros i s Hi. pose proof (Forall_lookup_1 _ _ _ _ Hall Hi) as Hsu. unfold compose. simpl. f_equal.
    unfold bytes_sectors, sectors_bytes, wrap128, SECTOR_SIZE. unfold u64, u64_max in Hsu. rewrite Z.mod_small, Z.div_mul by lia. by apply wrap64_small. }
  rewrite collect_ok. unfold rassert, rbind. assert (bytes_sectors (if encrypted then crypt_metadata_size else 0) = crypt_sectors encrypted) as -> by by destruct encrypted.
  by rewrite Hp.
Qed.

(** a device of 4 GiB, of which encryption takes 16 MiB *)
Definition small_device : StratBlockDev :=
  match SBD.new 5 (Bda.new (mkIds 1 2) MDADataSize_default (8388608 - crypt_sectors true) 0) [] None None (Unencrypted (str "/dev/sda")) with
  | Ok bd => bd
  | _ => mkSBD 0 Bda.default (mkRA (PDS.new 0)) None None (Unencrypted [])
  end.

Lemma predict_usage_exact_witness : let mgr := mkMgr [small_device; small_device] None in
  ∃ used, used + BDM.avail_space mgr = Zsum [8388608; 8388608] ∧ 0 ≤ used ∧
    predict_usage true ((λ s, Ok (sectors_bytes s)) <$> [8388608; 8388608]) = Ok (object
      [(str "total", bytes_string (Zsum [8388608; 8388608])); (str "used", bytes_string used); (str "free", bytes_string (BDM.avail_space mgr))]).
Proof.
  apply (predict_usage_exact true [8388608; 8388608]).
  - by apply (bool_decide_unpack _); vm_compute.
  - split; vm_compute; discriminate.
  - assert (fresh (8388608 - crypt_sectors true) small_device) by (exists 5, (mkIds 1 2), 0, None, None, (Unencrypted (str "/dev/sda")); reflexivity).
    by repeat constructor.
Defined.
