(* ===== verification/Generators.v ===== *)
(** * The systemd generators

    Models [src/bin/generators/]: at boot they read the kernel command line and, when it names the pool of the root filesystem, write the units
    that set the pool up.  The files of [/run] are a map from paths to entries; every system call may be refused by the environment. *)
From stdpp Require Import base list gmap strings.
From Stdlib Require Import ZArith Lia.
From S2P Require Import Prelude Disk External Shared Crypt.

(** ** The kernel command line *)

(** [str::split_whitespace]; [word] is the word being read, backwards *)
Fixpoint split_words (word : Str) (s : Str) : list Str :=
  match s with
  | [] => match word with [] => [] | _ => [reverse word] end
  | c :: s =>
      if is_whitespace c then match word with [] => split_words [] s | _ => reverse word :: split_words [] s end
      else split_words (c :: word) s
  end.
Definition split_whitespace (s : Str) : list Str := split_words [] s.

(** [pair.splitn(2, '=')]: the first piece, and the second if there is one *)
Fixpoint splitn_eq (s : Str) : Str * option Str :=
  match s with
  | [] => ([], None)
  | c :: s => if c =? 61 then ([], Some s) else let '(name, value) := splitn_eq s in (c :: name, value)
  end.

Definition Cmdline : Type := gmap Str (option (list Str)).

(** the body of the loop of [get_kernel_cmdline] *)
Definition add_pair (cmdline_map : Cmdline) (pair : Str) : Cmdline :=
  let '(name, value) := splitn_eq pair in
  match cmdline_map !! name with
  | Some (Some vec) => match value with Some v => <[name := Some (vec ++ [v])]> cmdline_map | None => cmdline_map end
  | Some None => match value with Some v => <[name := Some [v]]> cmdline_map | None => cmdline_map end
  | None => <[name := (λ v, [v]) <$> value]> cmdline_map
  end.

(** [cmdline_contents]: what opening and reading [/proc/cmdline] gave *)
Definition get_kernel_cmdline (cmdline_contents : res Str) : res Cmdline :=
  let? contents := cmdline_contents in Ok (foldl add_pair ∅ (split_whitespace contents)).

(** the lookup of both generators *)
Definition first_value (key : Str) (kernel_cmdline : Cmdline) : option Str :=
  match kernel_cmdline !! key with Some (Some (v :: _)) => Some v | _ => None end.

(** *** What the map holds *)

(** the values of a parameter, in the order of the command line *)
Definition values_of (name : Str) (pairs : list (Str * option Str)) : list Str :=
  omap (λ p, if bool_decide (p.1 = name) then p.2 else None) pairs.

Definition recorded (name : Str) (pairs : list (Str * option Str)) : option (option (list Str)) :=
  if bool_decide (name ∈ pairs.*1) then Some (match values_of name pairs with [] => None | vs => Some vs end) else None.

Lemma values_absent name pairs : name ∉ pairs.*1 → values_of name pairs = [].
Proof.
  induction pairs as [|[n v] l IH]; csimpl; [done|]. rewrite not_elem_of_cons. intros [Hn Hl]. unfold values_of. csimpl.
  rewrite bool_decide_eq_false_2 by done. by apply IH.
Qed.

Lemma add_pair_recorded m pairs pair : (∀ name, m !! name = recorded name pairs) →
  ∀ name, add_pair m pair !! name = recorded name (pairs ++ [splitn_eq pair]).
Proof.
  intros Hm name. unfold add_pair. destruct (splitn_eq pair) as [n v] eqn:Ep.
  assert (Hv : values_of name (pairs ++ [(n, v)]) = values_of name pairs ++ (if bool_decide (n = name) then option_list v else [])).
  { unfold values_of. rewrite omap_app. csimpl. by destruct (bool_decide _), v. }
  assert (He : bool_decide (name ∈ (pairs ++ [(n, v)]).*1) = bool_decide (name ∈ pairs.*1) || bool_decide (n = name)).
  { rewrite fmap_app. csimpl. apply eq_bool_prop_intro. rewrite orb_True, !bool_decide_spec, elem_of_app, list_elem_of_singleton. naive_solver. }
  unfold recorded. rewrite Hv, He. destruct (decide (n = name)) as [->|Hn].
  - rewrite (bool_decide_eq_true_2 (name = name)) by done. rewrite orb_true_r, Hm. unfold recorded.
    clear Hv He. case_bool_decide as Hin.
    + assert (Hn : m !! name = Some (match values_of name pairs with [] => None | vs => Some vs end)).
      { rewrite Hm. unfold recorded. by rewrite bool_decide_eq_true_2. }
      destruct (values_of name pairs) as [|x l]; destruct v as [v|]; csimpl; rewrite ?app_nil_r, ?Hn; done || apply lookup_insert_eq.
    + rewrite (values_absent _ _ Hin). etrans; [apply lookup_insert_eq|by destruct v].
  - rewrite (bool_decide_eq_false_2 (n = name)) by done. rewrite orb_false_r, app_nil_r.
    enough (∀ x, <[n := x]> m !! name = m !! name) as Hi.
    { destruct (m !! n) as [[?|]|], v; rewrite ?Hi; by rewrite Hm. }
    intros x. by apply lookup_insert_ne.
Qed.

(** The map holds each parameter named on the command line, with its values in order. *)
Lemma cmdline_exact contents name :
  foldl add_pair ∅ (split_whitespace contents) !! name = recorded name (splitn_eq <$> split_whitespace contents).
Proof.
  set (words := split_whitespace contents). clearbody words. revert name. induction words as [|w l IH] using rev_ind; intros name; [done|].
  rewrite foldl_snoc, fmap_app. apply add_pair_recorded. exact IH.
Qed.

Lemma first_value_exact contents key :
  first_value key (foldl add_pair ∅ (split_whitespace contents)) = head (values_of key (splitn_eq <$> split_whitespace contents)).
Proof.
  unfold first_value. rewrite cmdline_exact. unfold recorded. case_bool_decide as Hin; [by destruct (values_of _ _)|].
  by rewrite values_absent.
Qed.

(** ** The files *)

Inductive Entry : Type := Directory | Regular (contents : list Z) | Symlink (target : Str).

(** [refused n]: whether the [n]th system call fails, and how many bytes a write had stored by then; the conditions the entries do not show
    (permissions, a directory missing higher up, a full disk) are among its reasons. *)
Record Fs : Type := mkFs { entries : gmap Str Entry; calls : nat; refused : nat → option nat }.

Definition set_entries (es : gmap Str Entry) (s : Fs) : Fs := mkFs es (S (calls s)) (refused s).

(** the file a path names: symbolic links are followed, at most 40 of them *)
Fixpoint resolve (es : gmap Str Entry) (fuel : nat) (path : Str) : option Str :=
  match es !! path with
  | Some (Symlink target) => match fuel with O => None | S fuel => resolve es fuel target end
  | _ => Some path
  end.
Definition max_links : nat := 40.

(** [OpenOptions::new().write(true).create(true).open(dest)]: the file opened, at its start and with its contents kept *)
Definition open_create (dest : Str) : st Fs Str := λ s,
  match refused s (calls s), resolve (entries s) max_links dest with
  | Some _, _ | _, None => (Err (Io "open"), set_entries (entries s) s)
  | None, Some p =>
      match entries s !! p with
      | Some Directory => (Err (Io "open"), set_entries (entries s) s)
      | Some (Regular _) => (Ok p, set_entries (entries s) s)
      | _ => (Ok p, set_entries (<[p := Regular []]> (entries s)) s)
      end
  end.

Definition overwrite (old data : list Z) : list Z := data ++ drop (length data) old.

Definition file_write_all (p : Str) (data : list Z) : st Fs unit := λ s,
  let old := match entries s !! p with Some (Regular old) => old | _ => [] end in
  match refused s (calls s) with
  | Some n => (Err (Io "write"), set_entries (<[p := Regular (overwrite old (take n data))]> (entries s)) s)
  | None => (Ok tt, set_entries (<[p := Regular (overwrite old data)]> (entries s)) s)
  end.

(** [Path::exists] *)
Definition path_exists (path : Str) : st Fs bool := λ s,
  (Ok (match refused s (calls s), resolve (entries s) max_links path with
       | None, Some p => bool_decide (is_Some (entries s !! p))
       | _, _ => false
       end), set_entries (entries s) s).

(** [create_dir_all]; the directories above [path] are not recorded *)
Definition create_dir_all (path : Str) : st Fs unit := λ s,
  match refused s (calls s), entries s !! path with
  | None, None => (Ok tt, set_entries (<[path := Directory]> (entries s)) s)
  | None, Some Directory => (Ok tt, set_entries (entries s) s)
  | _, _ => (Err (Io "mkdir"), set_entries (entries s) s)
  end.

Definition symlink (original link : Str) : st Fs unit := λ s,
  match refused s (calls s), entries s !! link with
  | None, None => (Ok tt, set_entries (<[link := Symlink original]> (entries s)) s)
  | _, _ => (Err (Io "symlink"), set_entries (entries s) s)
  end.

(** [PathBuf::push] of a relative component *)
Definition path_push (path component : Str) : Str :=
  match last path with
  | None => component
  | Some c => if c =? 47 then path ++ component else path ++ 47 :: component
  end.

(** ** The generators *)

(** The contents are text in the ASCII range, whose bytes are its characters. *)
Definition write_unit_file (dest : Str) (file_contents : Str) : st Fs unit :=
  let! file := open_create dest in file_write_all file file_contents.

Definition WANTED_BY_INITRD_PATH : Str := str "/run/systemd/system/initrd.target.wants".

(** [file_name] is the last component of [unit_path] *)
Definition make_wanted_by_initrd (unit_path file_name : Str) : st Fs unit :=
  let! there := path_exists WANTED_BY_INITRD_PATH in
  (if there then iret tt else create_dir_all WANTED_BY_INITRD_PATH) ;;!
  symlink unit_path (path_push WANTED_BY_INITRD_PATH file_name).

Definition pool_uuid_key : Str := str "stratis.rootfs.pool_uuid".

Section templates.
Context `{UuidDisplay}.

Definition clevis_unit_template (pool_uuid : Z) : Str :=
  str "[Unit]
Description=setup for Stratis root filesystem using Clevis
DefaultDependencies=no
Conflicts=shutdown.target
OnFailure=emergency.target
OnFailureJobMode=isolate
Wants=stratisd-min.service network-online.target
After=stratisd-min.service network-online.target
Before=stratis-setup.service

[Service]
Type=oneshot
Environment='STRATIS_ROOTFS_UUID=" ++ uuid_to_string pool_uuid ++ str "'
ExecStart=/usr/lib/systemd/stratis-clevis-rootfs-setup
RemainAfterExit=yes
".

Definition setup_unit_template (pool_uuid : Z) : Str :=
  str "[Unit]
Description=setup for Stratis root filesystem
DefaultDependencies=no
Conflicts=shutdown.target
OnFailure=emergency.target
OnFailureJobMode=isolate
Wants=stratisd-min.service plymouth-start.service stratis-clevis-setup.service
After=paths.target plymouth-start.service stratisd-min.service
Before=initrd.target

[Service]
Type=oneshot
Environment='STRATIS_ROOTFS_UUID=" ++ uuid_to_string pool_uuid ++ str "'
ExecStart=/usr/lib/systemd/stratis-rootfs-setup
RemainAfterExit=yes
".

Definition clevis_unit : Str := str "stratis-clevis-setup.service".
Definition setup_unit : Str := str "stratis-setup.service".

(** [generator_with_err] of [stratis_clevis_setup_generator.rs] *)
Definition clevis_generator_with_err (proc_cmdline : res Str) (early_dir : Str) : st Fs unit :=
  let! kernel_cmdline := ilift (get_kernel_cmdline proc_cmdline) in
  match first_value pool_uuid_key kernel_cmdline with
  | None => iret tt
  | Some pool_uuid =>
      match uuid_parse_str pool_uuid with
      | None => ierr (UuidError "parse")
      | Some parsed_pool_uuid => write_unit_file (path_push early_dir clevis_unit) (clevis_unit_template parsed_pool_uuid)
      end
  end.

(** [generator_with_err] of [stratis_setup_generator.rs] *)
Definition setup_generator_with_err (proc_cmdline : res Str) (early_dir : Str) : st Fs unit :=
  let! kernel_cmdline := ilift (get_kernel_cmdline proc_cmdline) in
  match first_value pool_uuid_key kernel_cmdline with
  | None => iret tt
  | Some pool_uuid =>
      match uuid_parse_str pool_uuid with
      | None => ierr (UuidError "parse")
      | Some parsed_pool_uuid =>
          let path := path_push early_dir setup_unit in
          write_unit_file path (setup_unit_template parsed_pool_uuid) ;;!
          make_wanted_by_initrd path setup_unit
      end
  end.
End templates.

(** *** What they write *)

(** A directory of units as systemd hands it to a generator *)
Definition ready (early_dir : Str) (s : Fs) : Prop :=
  (∀ n, refused s n = None) ∧ entries s !! path_push early_dir clevis_unit = None ∧ entries s !! path_push early_dir setup_unit = None ∧
  path_push early_dir setup_unit ≠ WANTED_BY_INITRD_PATH ∧
  path_push early_dir setup_unit ≠ path_push WANTED_BY_INITRD_PATH setup_unit ∧
  entries s !! path_push WANTED_BY_INITRD_PATH setup_unit = None ∧
  entries s !! WANTED_BY_INITRD_PATH ∈ [None; Some Directory].

Lemma resolve_plain es fuel p : (∀ t, es !! p ≠ Some (Symlink t)) → resolve es fuel p = Some p.
Proof. intros Hp. destruct fuel; simpl; destruct (es !! p) as [[| |t]|] eqn:E; try done; by destruct (Hp t). Qed.

Lemma write_new dest data s : (∀ n, refused s n = None) → entries s !! dest = None →
  ∃ s', write_unit_file dest data s = (Ok tt, s') ∧ entries s' = <[dest := Regular data]> (entries s) ∧ refused s' = refused s.
Proof.
  intros Hr Hd. unfold write_unit_file, ibind, open_create. rewrite Hr, resolve_plain by (intros t E; congruence). rewrite Hd.
  unfold file_write_all. simpl. rewrite Hr. eexists. split; [reflexivity|]. simpl. split; [|done].
  rewrite lookup_insert_eq, insert_insert_eq. unfold overwrite. by rewrite drop_nil, app_nil_r.
Qed.

Lemma wanted_new dest s : (∀ n, refused s n = None) → entries s !! path_push WANTED_BY_INITRD_PATH setup_unit = None →
  entries s !! WANTED_BY_INITRD_PATH ∈ [None; Some Directory] →
  ∃ s', make_wanted_by_initrd dest setup_unit s = (Ok tt, s') ∧
    entries s' = <[path_push WANTED_BY_INITRD_PATH setup_unit := Symlink dest]> (<[WANTED_BY_INITRD_PATH := Directory]> (entries s)).
Proof.
  intros Hr Hl Hw. unfold make_wanted_by_initrd, ibind, path_exists. rewrite Hr.
  rewrite resolve_plain by (intros t E; rewrite E in Hw; set_solver).
  assert (Hne : path_push WANTED_BY_INITRD_PATH setup_unit ≠ WANTED_BY_INITRD_PATH) by (intros E; vm_compute in E; discriminate).
  rewrite !elem_of_cons in Hw. destruct Hw as [E|[E|[]%elem_of_nil]]; rewrite E; simpl.
  - unfold create_dir_all. simpl. rewrite Hr, E. unfold symlink. simpl. rewrite Hr, lookup_insert_ne, Hl by done. eexists. by split.
  - unfold symlink. simpl. rewrite Hr, Hl. eexists. split; [reflexivity|]. simpl. by rewrite (insert_id _ _ _ E).
Qed.

Section generator_properties.
Context `{UuidDisplay}.

(** what the command line says of the root pool *)
Definition root_pools (contents : Str) : list Str := values_of pool_uuid_key (splitn_eq <$> split_whitespace contents).

(** The generators follow the kernel command line.  With no value for [stratis.rootfs.pool_uuid] they succeed and change nothing; with a first
    value that is no UUID they fail and change nothing; with a UUID, later values being ignored, they write the two units, whose
    text names that pool, and make the setup unit wanted by the initrd target. *)
Theorem generators_exact contents early_dir s : ready early_dir s →
  match root_pools contents with
  | [] => setup_generator_with_err (Ok contents) early_dir s = (Ok tt, s) ∧ clevis_generator_with_err (Ok contents) early_dir s = (Ok tt, s)
  | value :: _ =>
      match uuid_parse_str value with
      | None => setup_generator_with_err (Ok contents) early_dir s = (Err (UuidError "parse"), s) ∧
                clevis_generator_with_err (Ok contents) early_dir s = (Err (UuidError "parse"), s)
      | Some u => ∃ s1 s2, setup_generator_with_err (Ok contents) early_dir s = (Ok tt, s1) ∧
          entries s1 = <[path_push WANTED_BY_INITRD_PATH setup_unit := Symlink (path_push early_dir setup_unit)]>
            (<[WANTED_BY_INITRD_PATH := Directory]> (<[path_push early_dir setup_unit := Regular (setup_unit_template u)]> (entries s))) ∧
          clevis_generator_with_err (Ok contents) early_dir s = (Ok tt, s2) ∧
          entries s2 = <[path_push early_dir clevis_unit := Regular (clevis_unit_template u)]> (entries s)
      end
  end.
Proof.
  intros (Hr & Hc & Hu & Hw & Hl & Hln & Hwd). unfold setup_generator_with_err, clevis_generator_with_err, get_kernel_cmdline, ibind, ilift, root_pools.
  unfold rbind. rewrite first_value_exact. destruct (values_of _ _) as [|v vs]; simpl; [done|]. destruct (uuid_parse_str v) as [u|]; [|done].
  destruct (write_new (path_push early_dir setup_unit) (setup_unit_template u) s Hr Hu) as (sa & Ea & Esa & Ra). rewrite Ea.
  destruct (write_new (path_push early_dir clevis_unit) (clevis_unit_template u) s Hr Hc) as (s2 & E2 & Es2 & _).
  destruct (wanted_new (path_push early_dir setup_unit) sa) as (s1 & E1 & Es1);
    [by rewrite Ra|by rewrite Esa, lookup_insert_ne|by rewrite Esa, lookup_insert_ne|].
  exists s1, s2. by rewrite Es1, Esa.
Qed.

(** The unit file is written over what is there: a longer file keeps its end. *)
Lemma unit_file_not_truncated dest old data s : (∀ n, refused s n = None) → entries s !! dest = Some (Regular old) →
  ∃ s', write_unit_file dest data s = (Ok tt, s') ∧ entries s' !! dest = Some (Regular (data ++ drop (length data) old)).
Proof.
  intros Hr Hd. unfold write_unit_file, ibind, open_create. rewrite Hr, resolve_plain by (intros t E; congruence). rewrite Hd.
  unfold file_write_all. simpl. rewrite Hr, Hd. eexists. split; [reflexivity|]. simpl. by rewrite lookup_insert_eq.
Qed.
End generator_properties.

Section examples.
#[local] Existing Instance hex_instance.
#[local] Existing Instance simple_display.

Definition early : Str := str "/run/systemd/generator.early".
Definition boot : Str := str "BOOT_IMAGE=/vmlinuz ro stratis.rootfs.pool_uuid=0000000000000000000000000000002a quiet stratis.rootfs.pool_uuid=x".

Lemma generators_exact_witness : ∃ s1 s2, setup_generator_with_err (Ok boot) early (mkFs ∅ 0 (λ _, None)) = (Ok tt, s1) ∧
  entries s1 = <[path_push WANTED_BY_INITRD_PATH setup_unit := Symlink (path_push early setup_unit)]>
    (<[WANTED_BY_INITRD_PATH := Directory]> (<[path_push early setup_unit := Regular (setup_unit_template 42)]> ∅)) ∧
  clevis_generator_with_err (Ok boot) early (mkFs ∅ 0 (λ _, None)) = (Ok tt, s2) ∧
  entries s2 = <[path_push early clevis_unit := Regular (clevis_unit_template 42)]> ∅.
Proof.
  assert (Hr : ready early (mkFs ∅ 0 (λ _, None))).
  { split_and!; try done; try (intros E; vm_compute in E; discriminate). simpl. rewrite lookup_empty. by left. }
  pose proof (generators_exact boot early (mkFs ∅ 0 (λ _, None)) Hr) as H.
  assert (root_pools boot = [str "0000000000000000000000000000002a"; str "x"]) as E by (vm_compute; reflexivity). rewrite E in H.
  assert (uuid_parse_str (str "0000000000000000000000000000002a") = Some 42) as Eu by (vm_compute; reflexivity). rewrite Eu in H. exact H.
Defined.
End examples.
