(* ===== verification/Dump.v ===== *)
(** * The program that prints a device's metadata

    Models [src/bin/stratis_dumpmetadata.rs].  What is printed is a list of texts; the [Debug] formats, the dump of bytes and
    [serde_json] are operations of [DumpText]. *)
From stdpp Require Import base list strings.
From Stdlib Require Import ZArith Lia.
From S2P Require Import Prelude Disk External Json Sizes StaticHeader MDA BDA.
Import mda_size.

Class DumpText : Type := {
  dump_header : StaticHeader → Str;
  dump_bda : BDA → Str;
  dump_error : StratisError → Str;
  pretty_hex : list Z → Str;
  (** [serde_json::from_slice] and [serde_json::to_string_pretty] *)
  value_from_slice : list Z → option Value;
  value_to_string_pretty : Value → option Str }.

(** [impl PartialEq for StaticHeaderResult] *)
Definition StaticHeaderResult_eq (self other : StaticHeaderResult) : bool :=
  match shr_header self, shr_header other with
  | Some (Ok (Some sh0)), Some (Ok (Some sh1)) => bool_decide (sh0 = sh1)
  | _, _ => false
  end.

Definition nl : Str := [10].

Section dump.
Context `{Crc32c} `{UuidFormat} `{Chrono} `{DumpText}.

Definition fmt_metadata (shr : StaticHeaderResult) (print_bytes : bool) : Str :=
  nl ++ str "Header:" ++ nl ++
  (match shr_header shr with
   | None => str "Unreadable" ++ nl
   | Some (Ok None) => str "No signature buffer" ++ nl
   | Some (Ok (Some sh)) => dump_header sh ++ nl
   | Some (Err e) => str "Error: " ++ dump_error e ++ nl
   | Some (Panic _) => []
   end) ++
  (if print_bytes then
     nl ++ nl ++ str "Bytes:" ++ nl ++ nl ++
     match shr_bytes shr with Ok boxed => pretty_hex boxed | Err e => dump_error e | Panic _ => [] end
   else []).

(** The signature blocks: one text when they agree *)
Definition print_sigblocks (read_results : StaticHeaderResult * StaticHeaderResult) (print_bytes : bool) : list Str :=
  if StaticHeaderResult_eq read_results.1 read_results.2 then
    [str "Signature block: " ++ nl ++ fmt_metadata read_results.1 print_bytes]
  else
    [str "Signature block 1: " ++ nl ++ fmt_metadata read_results.1 print_bytes;
     str "Signature block 2: " ++ nl ++ fmt_metadata read_results.2 print_bytes].

(** [map_err] *)
Definition imap_err {A} (text : string) (m : io A) : io A := λ f,
  match m f with (Err e, f) => (Err (Chained text e), f) | r => r end.
Definition ok_or_else {A} (text : string) (o : option A) : io A :=
  match o with Some a => iret a | None => ierr (Msg text) end.

(** the first half of [run]: the header and the BDA *)
Definition find_bda (read_results : StaticHeaderResult * StaticHeaderResult) : io BDA :=
  let! header := imap_err "No valid StaticHeader found" (SH.repair_sigblocks SH.do_nothing read_results) in
  let! header := ok_or_else "No valid Stratis signature found" header in
  let! bda := imap_err "BDA detected but error found" (Bda.load header) in
  ok_or_else "No Stratis BDA metadata found" bda.

(** the second half: the pool metadata *)
Definition find_state (bda : BDA) : io (option (list Z)) :=
  imap_err "Error during seek" (seek 0) ;;! imap_err "Error during load state" (Bda.load_state bda).

Definition print_state (loaded_state : option (list Z)) : res (list Str) :=
  match loaded_state with
  | None => Ok [str "None found"]
  | Some loaded_state =>
      match value_from_slice loaded_state with
      | None => Err (Msg "Error during state JSON extract")
      | Some state_json =>
          match value_to_string_pretty state_json with
          | None => Err (Msg "Error during state JSON parse")
          | Some state_json_pretty => Ok [state_json_pretty]
          end
      end
  end.

(** the texts printed before a step that may fail, and after it *)
Definition printing {A} (out : list Str) (r : res A) (k : A → list Str * res unit) : list Str * res unit :=
  match r with Ok a => let '(more, end_) := k a in (out ++ more, end_) | Err e => (out, Err e) | Panic w => (out, Panic w) end.

(** [run], after the device has been opened: the texts printed, and how it ended *)
Definition run (print_bytes : bool) (devfile : File) : (list Str * res unit) * File :=
  let '(read_results, f) := SH.read_sigblocks devfile in
  let out := print_sigblocks read_results print_bytes in
  let '(r, f) := find_bda read_results f in
  match r with
  | Ok bda =>
      let out := out ++ [nl ++ dump_bda bda] in
      let '(r, f) := find_state bda f in
      (printing out r (λ loaded_state,
         printing [nl ++ str "Pool metadata:"] (print_state loaded_state) (λ texts, (texts, Ok tt))), f)
  | Err e => ((out, Err e), f)
  | Panic w => ((out, Panic w), f)
  end.
End dump.

(** ** Reading only *)

(** [m] changes no byte of a file that was opened for reading *)
Definition reads_only {A} (m : io A) : Prop := ∀ f, f_write f = false → wrote 0 0 f (m f).2.

Create HintDb reads.

Lemma reads_bind {A B} (m : io A) (k : A → io B) : reads_only m → (∀ a, reads_only (k a)) → reads_only (ibind m k).
Proof.
  intros Hm Hk f Hf. specialize (Hm f Hf). unfold ibind. destruct (m f) as [[a|e|w] f'] eqn:E; simpl in *; try done.
  eapply wrote_trans; [exact Hm|]. apply Hk. destruct Hm as (_ & [_ ->] & _). done.
Qed.

Lemma reads_or {A} (m k : io A) : reads_only m → reads_only k → reads_only (ior_else m k).
Proof.
  intros Hm Hk f Hf. specialize (Hm f Hf). unfold ior_else. destruct (m f) as [[a|e|w] f'] eqn:E; simpl in *; try done.
  eapply wrote_trans; [exact Hm|]. apply Hk. destruct Hm as (_ & [_ ->] & _). done.
Qed.

Lemma reads_map_err {A} text (m : io A) : reads_only m → reads_only (imap_err text m).
Proof. intros Hm f Hf. specialize (Hm f Hf). unfold imap_err. by destruct (m f) as [[a|e|w] f']. Qed.

Lemma reads_ret {A} (a : A) : reads_only (iret a).
Proof. done. Qed.
Lemma reads_err {A} e : reads_only (ierr e : io A).
Proof. done. Qed.
Lemma reads_lift {A} (r : res A) : reads_only (ilift r).
Proof. done. Qed.
Lemma reads_seek p : reads_only (seek p).
Proof. intros f Hf. unfold seek. by destruct (f_fault _ _). Qed.
Lemma reads_read n : reads_only (read_exact n).
Proof. intros f Hf. unfold read_exact. destruct (f_fault _ _); [done|]. by destruct (_ <? _). Qed.
Lemma reads_sync : reads_only sync_all.
Proof. intros f Hf. unfold sync_all. by destruct (f_fault _ _). Qed.
Lemma reads_write bs : reads_only (write_all bs).
Proof. intros f Hf. unfold write_all. by rewrite Hf. Qed.

#[export] Hint Resolve reads_ret reads_err reads_lift reads_seek reads_read reads_sync reads_write : reads.

Ltac reads :=
  repeat first
    [ solve [eauto 2 with reads]
    | match goal with |- ∀ _, _ => intros ? end
    | match goal with |- reads_only (match ?x with _ => _ end) => destruct x end
    | apply reads_bind | apply reads_or | apply reads_map_err ].

Section reading.
Context `{Crc32c} `{UuidFormat} `{Chrono} `{DumpText}.

Lemma reads_sh_write sh which : reads_only (SH.write sh which).
Proof. unfold SH.write, SH.write_region. reads. Qed.
#[local] Hint Resolve reads_sh_write : reads.

Lemma reads_repair rr : reads_only (SH.repair_sigblocks SH.do_nothing rr).
Proof.
  unfold SH.repair_sigblocks, SH.ok_ok_static_header_handling, SH.ok_err_static_header_handling, SH.copy_ok_err_handling,
    SH.compare_headers, SH.do_nothing. reads.
Qed.

Lemma reads_bda_load sh : reads_only (Bda.load sh).
Proof. unfold Bda.load, MDA.load, MDA.get_mda, MDA.load_a_region, MDA.seek_to_offset. reads. Qed.

Lemma reads_load_state bda : reads_only (Bda.load_state bda).
Proof. unfold Bda.load_state, MDA.load_state, MDA.load_region_at, MDA.seek_to_offset, Hdr.load_region. reads. Qed.
#[local] Hint Resolve reads_repair reads_bda_load reads_load_state : reads.

Lemma run_reads_only print_bytes f : f_write f = false → wrote 0 0 f (run print_bytes f).2.
Proof.
  intros Hf. unfold run. destruct (SH.read_sigblocks f) as [[x1 x2] f1] eqn:E1.
  destruct (read_sigblocks_any f x1 x2 f1 E1) as (W1 & _).
  assert (reads_only (find_bda (x1, x2))) as Hb by (unfold find_bda, ok_or_else; reads).
  assert (Hf1 : f_write f1 = false) by (destruct W1 as (_ & [_ ->] & _); done).
  specialize (Hb f1 Hf1). destruct (find_bda _ f1) as [[bda|e|w] f2]; simpl in *; [|by eapply wrote_trans..].
  assert (reads_only (find_state bda)) as Hs by (unfold find_state; reads).
  assert (Hf2 : f_write f2 = false) by (destruct Hb as (_ & [_ ->] & _); done).
  specialize (Hs f2 Hf2). destruct (find_state bda f2) as [r f3]. simpl in *. eapply wrote_trans; [exact W1|]. by eapply wrote_trans.
Qed.
End reading.

(** ** The dump of a device in use *)

(** the device opened anew, for reading *)
Definition reopened (f : File) : File := mkFile (f_size f) (f_data f) 0 0 (λ _, None) false.

Lemma holds_reopened `{Crc32c} `{Chrono} self hs f g0 g1 : holds self hs f g0 g1 → holds self hs (reopened f) g0 g1.
Proof. intros [? ? ? ? ? ? ? ?]. split; assumption. Qed.

Section dumped.
Context `{Crc32c} `{UuidFormat} `{Chrono} `{DumpText}.

(** the texts of a device with header [sh], BDA [bda] and metadata [state], and how the program ends *)
Definition dump_of (print_bytes : bool) (block : list Z) (bda : BDA) (state : option (list Z)) : list Str * res unit :=
  let sigblock := str "Signature block: " ++ nl ++ fmt_metadata (mkSHR (Ok block) (Some (Ok (Some (header bda))))) print_bytes in
  let out := [sigblock; nl ++ dump_bda bda; nl ++ str "Pool metadata:"] in
  match print_state state with Ok texts => (out ++ texts, Ok tt) | Err e => (out, Err e) | Panic w => (out, Panic w) end.

(** C25: The dump tells what is on the device, and leaves it as it is.  On any device, opened for reading and failing in any way, no byte is changed,
    though the program calls the repair of the signature blocks; and on one that was initialised and then given
    metadata any number of times, it prints the header once, the BDA as the daemon last had it in memory, and the metadata of the last save that succeeded. *)
Theorem dump_exact ids mds bs itime f ops print_bytes :
  let bda := Bda.new ids (MDADataSize_new mds) bs itime in
  0 ≤ mds < 2 ^ 40 → 512 * Bda.extended_size bda ≤ f_size f ≤ u64_max →
  is_uuid (pool_uuid ids) → is_uuid (device_uuid ids) → u64 bs → u64 itime →
  healthy f → Forall op_ok ops →
  let '(rs, st) := spec_saves (region_bytes (regions bda) - 32) None ops in
  (∃ f0 bda' f1, Bda.initialize bda f = (Ok tt, f0) ∧ bda_saves bda ops f0 = (rs, bda', f1) ∧
     (run print_bytes (reopened f1)).1 = dump_of print_bytes (block1 f1) bda' (option_map snd st)) ∧
  ∀ g, f_write g = false → wrote 0 0 g (run print_bytes g).2.
Proof.
  intros bda Hm Hs Hp Hd Hb Hi Hf Hall.
  pose proof (saved_device ids mds bs itime f ops Hm Hs Hp Hd Hb Hi Hf Hall) as Hsaved. cbv zeta in Hsaved. fold bda in Hsaved.
  destruct (spec_saves _ _ ops) as [rs st]. split; [|exact (run_reads_only print_bytes)].
  destruct Hsaved as (f0 & self & f1 & g0 & g1 & E0 & E1 & C1 & C2 & _ & Hs1 & Hh & Hr & <- & _).
  exists f0, (mkBDA (header bda) self), f1. do 2 (split; [done|]).
  apply holds_reopened in Hh.
  destruct (read_sigblocks_ok (reopened f1)) as (f2 & E2 & W2); [done|done|].
  assert (Hn2 : no_faults f2) by (by eapply wrote_no_faults). apply (holds_wrote0 _ _ _ _ _ _ _ W2) in Hh.
  destruct (load_ok self static_header_bytes f2 g0 g1 (mda_size (header bda)) Hh Hn2 Hr) as (f3 & E3 & W3).
  assert (Hn3 : no_faults f3) by (by eapply wrote_no_faults). apply (holds_wrote0 _ _ _ _ _ _ _ W3) in Hh.
  destruct (seek_wrote 0 f3) as [W4 _]. rewrite (seek_ok 0 f3 Hn3) in W4. simpl in W4.
  destruct (load_state_holds self static_header_bytes (set_pos 0 (tick f3)) g0 g1) as (f5 & E5 & _); [by eapply holds_wrote0|by eapply wrote_no_faults|].
  unfold run. rewrite E2. change (block1 (reopened f1)) with (block1 f1). change (block2 (reopened f1)) with (block2 f1). rewrite C1, C2.
  assert (find_bda (mkSHR (Ok (block1 f1)) (Some (Ok (Some (header bda)))), mkSHR (Ok (block2 f1)) (Some (Ok (Some (header bda))))) f2 =
    (Ok (mkBDA (header bda) self), f3)) as ->.
  { unfold find_bda, imap_err, ibind. simpl. unfold SH.compare_headers. rewrite bool_decide_true by done. simpl.
    unfold Bda.load. by erewrite ibind_ok by exact E3. }
  assert (find_state (mkBDA (header bda) self) f3 = (Ok (option_map snd (latest g0 g1)), f5)) as ->.
  { unfold find_state, imap_err, ibind. rewrite seek_ok by done. unfold Bda.load_state. simpl. by rewrite E5. }
  unfold print_sigblocks, StaticHeaderResult_eq. simpl. rewrite bool_decide_true by done. unfold dump_of, printing.
  by destruct (print_state _).
Qed.
End dumped.

Section examples.
#[local] Existing Instance crc32c_instance.
#[local] Existing Instance hex_instance.
#[local] Existing Instance any_time.

(** a metadata text is a string *)
Definition plain_text : DumpText :=
  {| dump_header _ := str "header"; dump_bda _ := str "bda"; dump_error _ := str "error"; pretty_hex b := b;
     value_from_slice b := Some (VString b); value_to_string_pretty v := as_str v |}.
#[local] Existing Instance plain_text.

Lemma dump_exact_witness : let bda := Bda.new (mkIds 7 8) (MDADataSize_new 0) 2097152 1600000000 in
  (∃ f0 bda' f1, Bda.initialize bda blank_device = (Ok tt, f0) ∧
     bda_saves bda [(t1, [1; 2; 3]); (t1, [4]); (t2, [4; 5])] f0 = ([Ok tt; Err (Msg "Overwriting newer data"); Ok tt], bda', f1) ∧
     (run false (reopened f1)).1 = dump_of false (block1 f1) bda' (Some [4; 5])) ∧
  ∀ g, f_write g = false → wrote 0 0 g (run false g).2.
Proof.
  apply (dump_exact (mkIds 7 8) 0 2097152 1600000000 blank_device [(t1, [1; 2; 3]); (t1, [4]); (t2, [4; 5])] false).
  - lia.
  - split; vm_compute; discriminate.
  - by apply (bool_decide_unpack _).
  - by apply (bool_decide_unpack _).
  - by apply (bool_decide_unpack _).
  - by apply (bool_decide_unpack _).
  - apply blank_healthy.
  - apply (bool_decide_unpack _). vm_compute. exact I.
Defined.
End examples.
