(* ===== verification/Programs.v ===== *)
(** * The programs the daemon runs

    Models the rest of [src/engine/strat_engine/cmd.rs]: the paths of the programs, found once, and the command lines built for them.
    [output] and the operations of [Processes] are what the system does with a command. *)
From stdpp Require Import base list strings pretty.
From Stdlib Require Import ZArith Lia.
From S2P Require Import Prelude External Json Shared System Crypt Engine.

Record Command : Type := mkCommand { program : Str; cmd_args : list Str }.

(** What [Command::output] gave: it could not be run, or it ended, with a code unless a signal ended it *)
Inductive Ending : Type := NotRun | Ended (code : option Z).

Definition CLEVIS_EXEC_NAMES : list Str :=
  str <$> ["clevis"; "clevis-luks-bind"; "clevis-luks-unbind"; "clevis-luks-unlock"; "clevis-luks-common-functions"; "clevis-decrypt";
    "clevis-decrypt-tang"; "clevis-decrypt-tpm2"; "clevis-encrypt-tang"; "clevis-encrypt-tpm2"; "clevis-luks-regen"; "jose"; "jq"; "cryptsetup";
    "curl"; "tpm2_createprimary"; "tpm2_unseal"; "tpm2_load"; "mktemp"]%string.

Fixpoint lookup_name {A} (name : Str) (l : list (Str * A)) : option A :=
  match l with [] => None | (n, a) :: l => if bool_decide (name = n) then Some a else lookup_name name l end.

(** [CLEVIS_BINARIES]: the paths of clevis and jose, if every program was found; the fold goes on searching after one was missed *)
Definition clevis_binaries `{Cryptsetup} : sys (option (Str * Str)) :=
  let! found := find_binaries CLEVIS_EXEC_NAMES in
  iret (if forallb (λ x, bool_decide (is_Some x.2)) found then
          match lookup_name (str "clevis") found, lookup_name (str "jose") found with
          | Some (Some c), Some (Some j) => Some (c, j)
          | _, _ => None
          end
        else None).

(** The children of [clevis_decrypt]; a child is a number *)
Class Processes (X : Type) : Type := {
  spawn : Command → st X Z;
  stdin_write : Z → Str → st X unit;
  stdin_close : Z → X → X;
  wait : Z → st X unit;
  stdout_read_to_string : Z → st X Str;
  (** [read] of a buffer of this many bytes *)
  stdout_read : Z → Z → st X (list Z) }.

Section commands.
(** the two statics, once computed *)
Context (BINARIES : list (Str * option Str)) (CLEVIS_BINARIES : option (Str * Str)).
Context `{UuidDisplay} (json_to_string : Value → Str).
Context {X : Type} (output : Command → X → Ending * X) `{Processes X}.

Definition execute_cmd (cmd : Command) : st X unit := λ x,
  match output cmd x with
  | (NotRun, x) => (Err (Msg "Failed to execute command"), x)
  | (Ended (Some 0), x) => (Ok tt, x)
  | (Ended _, x) => (Err (Msg "Command failed"), x)
  end.

Definition get_executable (name : Str) : res Str :=
  let? path := expect (lookup_name name BINARIES) "name arguments are all constants defined with BINARIES, lookup can not fail" in
  expect path "verify_binaries() was previously called and returned no error".

Definition get_clevis_executable : res Str :=
  match CLEVIS_BINARIES with Some (c, _) => Ok c | None => Err (Msg "Clevis has been disabled") end.
Definition get_jose_executable : res Str :=
  match CLEVIS_BINARIES with Some (_, j) => Ok j | None => Err (Msg "Clevis has been disabled") end.

Definition execute_named (name : Str) (args : list Str) : st X unit :=
  let! exe := ilift (get_executable name) in execute_cmd (mkCommand exe args).
Definition execute_clevis (args : list Str) : st X unit :=
  let! exe := ilift get_clevis_executable in execute_cmd (mkCommand exe args).

Definition create_fs (devnode : Str) (uuid : option Z) (noalign : bool) : st X unit :=
  execute_named (str "mkfs.xfs")
    ([str "-f"; str "-q"; devnode] ++
     match uuid with Some uuid => [str "-m"; str "uuid=" ++ uuid_to_string uuid] | None => [] end ++
     if noalign then [str "-d"; str "noalign"] else []).
Definition xfs_growfs (mount_point : Str) : st X unit := execute_named (str "xfs_growfs") [mount_point; str "-d"].
Definition set_uuid (devnode : Str) (uuid : Z) : st X unit :=
  execute_named (str "xfs_db") [str "-x"; str "-c uuid " ++ uuid_to_string uuid; devnode].
Definition thin_check (devnode : Str) : st X unit := execute_named (str "thin_check") [str "-q"; devnode].
Definition thin_repair (meta_dev new_meta_dev : Str) : st X unit :=
  execute_named (str "thin_repair") [str "-i"; meta_dev; str "-o"; new_meta_dev].
Definition udev_settle : st X unit := execute_named (str "udevadm") [str "settle"].

Definition clevis_luks_bind (dev_path keyfile_path : Str) (slot : Z) (pin : Str) (json : Value) (yes : bool) : st X unit :=
  execute_clevis ([str "luks"; str "bind"] ++ (if yes then [str "-y"] else []) ++
    [str "-d"; dev_path; str "-k"; keyfile_path; str "-t"; str (pretty slot); pin; json_to_string json]).
Definition clevis_luks_unbind (dev_path : Str) (keyslot : Z) : st X unit :=
  execute_clevis [str "luks"; str "unbind"; str "-d"; dev_path; str "-s"; str (pretty keyslot); str "-f"].
Definition clevis_luks_unlock (dev_path dm_name : Str) : st X unit :=
  execute_clevis [str "luks"; str "unlock"; str "-d"; dev_path; str "-n"; dm_name].
Definition clevis_luks_regen (dev_path : Str) (keyslot : Z) : st X unit :=
  execute_clevis [str "luks"; str "regen"; str "-d"; dev_path; str "-s"; str (pretty keyslot); str "-q"].

(** the handle of a child's input is dropped when [m] is over *)
Definition dropping {T} (child : Z) (m : st X T) : st X T := λ x, let '(r, x) := m x in (r, stdin_close child x).

Definition clevis_decrypt (jwe : Value) : st X (list Z) :=
  let! jose := ilift get_jose_executable in
  let! jose_child := spawn (mkCommand jose [str "jwe"; str "fmt"; str "-i-"; str "-c"]) in
  dropping jose_child (
    stdin_write jose_child (json_to_string jwe) ;;!
    wait jose_child ;;!
    let! jose_output := stdout_read_to_string jose_child in
    let! clevis := ilift get_clevis_executable in
    let! clevis_child := spawn (mkCommand clevis [str "decrypt"]) in
    dropping clevis_child (stdin_write clevis_child jose_output) ;;!
    wait clevis_child ;;!
    stdout_read clevis_child MAX_STRATIS_PASS_SIZE).
End commands.

(** ** What is run *)

(** a program in one of the directories searched *)
Definition located (name path : Str) : Prop := ∃ dir, dir ∈ BINARIES_PATHS ∧ path = dir ++ str "/" ++ name.

Section found.
Context `{Cryptsetup}.

Lemma find_path_ok paths s : ∃ o s', find_path paths s = (Ok o, s') ∧ ∀ p, o = Some p → p ∈ paths.
Proof.
  revert s. induction paths as [|p paths IH]; intros s; simpl; [by exists None, s|].
  unfold ibind at 1. assert (∃ b s', exists_ p s = (Ok b, s')) as (b & s1 & ->).
  { unfold exists_, call_ok, ibind. destruct (answer _ _) as [r l]. simpl. eauto. }
  destruct b; [exists (Some p), s1; split; [done|]; intros ? [= <-]; by left|].
  destruct (IH s1) as (o & s2 & -> & Ho). exists o, s2. split; [done|]. intros q Hq. right. auto.
Qed.

(** what the search for some programs found *)
Definition searched (found : list (Str * option Str)) (names : list Str) : Prop :=
  Forall2 (λ x name, x.1 = name ∧ ∀ path, x.2 = Some path → located name path) found names.

Lemma find_binaries_ok names s : ∃ l s', find_binaries names s = (Ok l, s') ∧ searched l names.
Proof.
  revert s. induction names as [|name names IH]; intros s; simpl; [exists [], s; by split; [|constructor]|].
  unfold ibind at 1, find_binary. destruct (find_path_ok ((λ pre, pre ++ str "/" ++ name) <$> BINARIES_PATHS) s) as (o & s1 & -> & Ho).
  unfold ibind. destruct (IH s1) as (l & s2 & -> & Hl). exists ((name, o) :: l), s2. split; [done|]. constructor; [|done].
  split; [done|]. simpl. intros path ->. specialize (Ho path eq_refl). apply list_elem_of_fmap in Ho as (dir & -> & Hd). by exists dir.
Qed.

Lemma lookup_found l names name : searched l names → (∀ x, x ∈ l → is_Some x.2) → name ∈ names →
  ∃ path, lookup_name name l = Some (Some path) ∧ located name path.
Proof.
  intros Hl Hs Hn. induction Hl as [|[n o] n' l names [Hx Hp] Hl IH]; [by apply elem_of_nil in Hn|]. simpl in *. subst n'.
  case_bool_decide as E.
  - subst n. destruct (Hs (name, o)) as [path Ho]; [by left|]. simpl in Ho. subst o. exists path. split; [done|by apply Hp].
  - apply elem_of_cons in Hn as [->|Hn]; [done|]. apply IH; [|done]. intros x Hx. apply Hs. by right.
Qed.

Lemma verified s s' : verify_binaries s = (Ok tt, s') → ∃ l, find_binaries BINARY_NAMES s = (Ok l, s') ∧ searched l BINARY_NAMES ∧
  ∀ x, x ∈ l → is_Some x.2.
Proof.
  unfold verify_binaries, ibind. destruct (find_binaries_ok BINARY_NAMES s) as (l & s1 & -> & Hl). destruct (existsb _ l) eqn:E; [done|].
  intros [= <-]. exists l. do 2 (split; [done|]). intros x Hx. destruct x as [n [p|]]; [by eexists|].
  assert (existsb (λ '(_, path), negb (is_some path)) l = true) as E'; [|congruence]. apply existsb_exists. exists (n, None).
  split; [by apply list_elem_of_In|done].
Qed.
End found.

Section programs.
Context `{Cryptsetup} `{UuidDisplay} (json_to_string : Value → Str).
Context {X : Type} (output : Command → X → Ending * X).

Lemma execute_safe cmd : safe (execute_cmd output cmd).
Proof. intros x. unfold execute_cmd. destruct (output cmd x) as [[|[[]|]] x']; done. Qed.

(** Once the programs have been verified, none of the functions that run them panics for want of one: each runs the program of its name, at a path of the
    directories searched; a program that is missing, or any of those Clevis needs, is told before anything is run. *)
Theorem programs_found s s' : verify_binaries s = (Ok tt, s') →
  ∃ BINARIES, find_binaries BINARY_NAMES s = (Ok BINARIES, s') ∧
  (∀ name args, name ∈ BINARY_NAMES → ∃ path, located name path ∧
     ∀ x, execute_named BINARIES output name args x = execute_cmd output (mkCommand path args) x) ∧
  (∀ devnode uuid noalign, safe (create_fs BINARIES output devnode uuid noalign)) ∧ (∀ mount_point, safe (xfs_growfs BINARIES output mount_point)) ∧
  (∀ devnode uuid, safe (set_uuid BINARIES output devnode uuid)) ∧ (∀ devnode, safe (thin_check BINARIES output devnode)) ∧
  (∀ old new, safe (thin_repair BINARIES output old new)) ∧ safe (udev_settle BINARIES output) ∧
  ∃ CLEVIS_BINARIES s'', clevis_binaries s' = (Ok CLEVIS_BINARIES, s'') ∧
    match CLEVIS_BINARIES with
    | Some (c, j) => located (str "clevis") c ∧ located (str "jose") j
    | None => ∀ args x, execute_clevis None output args x = (Err (Msg "Clevis has been disabled"), x)
    end.
Proof.
  intros Hv. destruct (verified _ _ Hv) as (l & El & Hl & Hs). exists l. split; [done|].
  assert (Hex : ∀ name args, name ∈ BINARY_NAMES → ∃ path, located name path ∧
    ∀ x, execute_named l output name args x = execute_cmd output (mkCommand path args) x).
  { intros name args Hn. destruct (lookup_found l BINARY_NAMES name Hl Hs Hn) as (path & E & Hp). exists path. split; [done|]. intros x.
    unfold execute_named, get_executable. rewrite E. done. }
  assert (Hsafe : ∀ name args, name ∈ BINARY_NAMES → safe (execute_named l output name args)).
  { intros name args Hn x. destruct (Hex name args Hn) as (path & _ & ->). apply execute_safe. }
  split; [exact Hex|]. do 6 (split; [intros; apply Hsafe; by apply (bool_decide_unpack _); vm_compute|]).
  unfold clevis_binaries, ibind. destruct (find_binaries_ok CLEVIS_EXEC_NAMES s') as (cl & s2 & -> & Hc). eexists _, s2. split; [reflexivity|].
  destruct (forallb _ cl) eqn:Ef; [|done]. assert (Hall : ∀ x, x ∈ cl → is_Some x.2).
  { intros x Hx. rewrite forallb_forall in Ef. specialize (Ef x). apply list_elem_of_In, Ef in Hx. by apply bool_decide_eq_true_1 in Hx. }
  destruct (lookup_found cl CLEVIS_EXEC_NAMES (str "clevis") Hc Hall) as (c & -> & Hlc); [by apply (bool_decide_unpack _); vm_compute|].
  destruct (lookup_found cl CLEVIS_EXEC_NAMES (str "jose") Hc Hall) as (j & -> & Hlj); [by apply (bool_decide_unpack _); vm_compute|]. done.
Qed.
End programs.

Section examples.
#[local] Existing Instance hex_instance.
#[local] Existing Instance simple_display.
#[local] Existing Instance script_crypt.

(** mkfs.xfs is not in the first directory *)
Definition a_system : Sys := mkSys ∅ ∅ [true] (λ n, Z.of_nat n) (λ n, MDA.mkTime (Z.of_nat n) 0) 0.
Definition succeed (_ : Command) (n : nat) : Ending * nat := (Ended (Some 0), S n).

Lemma programs_found_witness : ∃ BINARIES, find_binaries BINARY_NAMES a_system = (Ok BINARIES, (verify_binaries a_system).2) ∧
  lookup_name (str "mkfs.xfs") BINARIES = Some (Some (str "/sbin/mkfs.xfs")) ∧ safe (thin_check BINARIES succeed (str "/dev/dm-3")).
Proof.
  destruct (programs_found succeed a_system (verify_binaries a_system).2) as (l & El & Hp & _ & _ & _ & Hc & _); [vm_compute; reflexivity|].
  exists l. split; [exact El|]. split; [|apply Hc]. vm_compute in El. injection El as <-. vm_compute. reflexivity.
Defined.

(** The calls of [clevis_decrypt], in order *)
Inductive Happened := Spawned (program : Str) | Wrote (child : Z) | Closed (child : Z) | Waited (child : Z) | Read (child : Z).
Definition log (e : Happened) {A} (a : A) : st (list Happened) A := λ x, (Ok a, x ++ [e]).
Definition logging : Processes (list Happened) := {|
  spawn c x := (Ok (Z.of_nat (length x)), x ++ [Spawned (program c)]);
  stdin_write child _ := log (Wrote child) tt;
  stdin_close child x := x ++ [Closed child];
  wait child := log (Waited child) tt;
  stdout_read_to_string child := log (Read child) [];
  stdout_read child _ := log (Read child) [] |}.
#[local] Existing Instance logging.

(** The input of jose is still open while its end is awaited; that of clevis is closed before. *)
Lemma decrypt_calls :
  (clevis_decrypt (Some (str "clevis", str "jose")) (λ _, []) Null []).2 =
  [Spawned (str "jose"); Wrote 0; Waited 0; Read 0; Spawned (str "clevis"); Wrote 4; Closed 4; Waited 4; Read 4; Closed 0].
Proof. vm_compute. reflexivity. Qed.
End examples.
