(* ===== verification/Clevis.v ===== *)
(** * Reading back a Clevis configuration

    Models the part of [src/engine/strat_engine/backstore/crypt/shared.rs] that recovers the configuration of a Clevis binding from the header of
    its JWE: [clevis_info_from_metadata] after the token is read, [pin_dispatch], [tang_dispatch] and [sss_dispatch].  A configuration of the pin sss
    holds further headers, encoded as text, and is read recursively. *)
From stdpp Require Import base list strings.
From Stdlib Require Import ZArith Lia.
From S2P Require Import Prelude External Json Shared System Crypt.

(** the characters of the text of a value, and at most that many *)
Fixpoint weight (v : Value) : Z :=
  match v with
  | Null | Bool _ | Number _ => 1
  | VString s => 2 + Z.of_nat (length s)
  | Array l => 2 + (fix go l := match l with [] => 0 | v :: l => weight v + go l end) l
  | Object m => 2 + (fix go m := match m with [] => 0 | (k, v) :: m => Z.of_nat (length k) + 3 + weight v + go m end) m
  end.

(** data_encoding, serde_json and sha2 *)
Class JoseCrates : Type := {
  (** [BASE64URL_NOPAD]: four symbols for three bytes *)
  base64url_decode : Str → option (list Z);
  base64url_encode : list Z → Str;
  (** [serde_json::from_slice] and [Value::to_string], as bytes *)
  value_from_slice : list Z → option Value;
  value_to_bytes : Value → list Z;
  sha256 : list Z → list Z;
  base64url_shrinks : ∀ s b, base64url_decode s = Some b → 4 * Z.of_nat (length b) ≤ 3 * Z.of_nat (length s);
  value_within : ∀ b v, value_from_slice b = Some v → weight v ≤ Z.of_nat (length b)
}.

(** [s.splitn(2, '.').next()] *)
Fixpoint before_dot (s : Str) : Str := match s with [] => [] | c :: s => if c =? 46 then [] else c :: before_dot s end.

Definition as_object (v : Value) : option (list (Str * Value)) := match v with Object m => Some m | _ => None end.
Definition as_u64 (v : Value) : option Z := match v with Number (PosInt n) => Some n | _ => None end.
Definition ok_or {A} (o : option A) (text : string) : res A := match o with Some a => Ok a | None => Err (Msg text) end.

(** [.get("clevis").and_then(|map| map.get(name))] *)
Definition clevis_member (json : Value) (name : Str) : option Value := Value_get (str "clevis") json ≫= Value_get name.

Definition verifies (obj : Value) : bool := bool_decide (Value_get (str "key_ops") obj = Some (Array [VString (str "verify")])).

Section dispatch.
Context `{JoseCrates}.

Definition thumbprint (key : Value) : Str := base64url_encode (sha256 (value_to_bytes key)).

Definition tang_dispatch (json : Value) : res Value :=
  let? object_ := ok_or (clevis_member json (str "tang") ≫= as_object) "Expected an object for value of clevis.tang" in
  let? url := ok_or (map_get (str "url") object_ ≫= as_str) "Expected a string for value of clevis.tang.url" in
  let? keys := ok_or ((map_get (str "adv") object_ ≫= Value_get (str "keys")) ≫= as_array) "Expected an array for value of clevis.tang.adv.keys" in
  let? key := ok_or (List.find verifies keys) "Verification key not found in clevis metadata" in
  let? map := ok_or (as_object key) "Key value is not in JSON object format" in
  let map := (map_remove (str "alg") (map_remove (str "key_ops") map).2).2 in
  let thp := thumbprint (Object map) in
  Ok (object [(str "url", VString url); (str "thp", VString thp)]).

(** [pin_map.get_mut(&pin)] *)
Definition add_pin (pin_map : list (Str * Value)) (pin : Str) (value : Value) : res (list (Str * Value)) :=
  match map_get pin pin_map with
  | Some (Array vec) => Ok (map_insert pin (Array (vec ++ [value])) pin_map)
  | None => Ok (map_insert pin (Array [value]) pin_map)
  | Some _ => Err (Msg "There appears to be a data type that is not an array")
  end.

(** The header encoded in an entry of [jwes] *)
Definition open_jwe (jwe : Value) : res Value :=
  match jwe with
  | VString s =>
      let? json_bytes := match base64url_decode (before_dot s) with Some b => Ok b | None => Err (Msg "base64") end in
      match value_from_slice json_bytes with Some v => Ok v | None => Err (Msg "serde") end
  | _ => Err (Msg "Expected a string for each value in the array at clevis.sss.jwe")
  end.

(** [dispatch] is the recursive call; [None] is for one that does not return *)
Fixpoint jwe_loop (dispatch : Value → option (res (Str * Value))) (pin_map : list (Str * Value)) (jwes : list Value)
    : option (res (list (Str * Value))) :=
  match jwes with
  | [] => Some (Ok pin_map)
  | jwe :: jwes =>
      match open_jwe jwe with
      | Ok value =>
          match dispatch value with
          | None => None
          | Some r =>
              match (let? '(pin, value) := r in add_pin pin_map pin value) with
              | Ok pin_map => jwe_loop dispatch pin_map jwes
              | Err e => Some (Err e)
              | Panic w => Some (Panic w)
              end
          end
      | Err e => Some (Err e)
      | Panic w => Some (Panic w)
      end
  end.

Definition sss_dispatch (dispatch : Value → option (res (Str * Value))) (json : Value) : option (res Value) :=
  match (let? object_ := ok_or (clevis_member json (str "sss") ≫= as_object) "Expected an object for value of clevis.sss" in
         let? threshold := ok_or (map_get (str "t") object_ ≫= as_u64) "Expected an int for value of clevis.sss.t" in
         let? jwes := ok_or (map_get (str "jwe") object_ ≫= as_array) "Expected an array for value of clevis.sss.jwe" in
         Ok (threshold, jwes)) with
  | Ok (threshold, jwes) =>
      let sss_map := map_insert (str "t") (Number (PosInt threshold)) [] in
      rmap (λ pin_map, Object (map_insert (str "pins") (Object pin_map) sss_map)) <$> jwe_loop dispatch [] jwes
  | Err e => Some (Err e)
  | Panic w => Some (Panic w)
  end.

Fixpoint pin_dispatch (fuel : nat) (decoded_jwe : Value) : option (res (Str * Value)) :=
  match fuel with
  | O => None
  | S fuel =>
      match clevis_member decoded_jwe (str "pin") with
      | None => Some (Err (Msg "Key .clevis.pin not found in clevis JSON token"))
      | Some pin_value =>
          match as_str pin_value with
          | Some pin =>
              if bool_decide (pin = str "tang") then Some (rmap (λ val, (str "tang", val)) (tang_dispatch decoded_jwe))
              else if bool_decide (pin = str "sss") then rmap (λ val, (str "sss", val)) <$> sss_dispatch (pin_dispatch fuel) decoded_jwe
              else if bool_decide (pin = str "tpm2") then Some (Ok (str "tpm2", Object []))
              else Some (Err (Msg "Unsupported clevis pin"))
          | None => Some (Err (Msg "Unsupported clevis pin"))
          end
      end
  end.

(** enough for every value, see below *)
Definition depth (v : Value) : nat := 3 * Z.to_nat (weight v).

(** the end of [clevis_info_from_metadata] *)
Definition decode_header (json_b64 : Str) : StratisError + (Str * Value) :=
  match base64url_decode json_b64 with
  | None => inl (Msg "base64")
  | Some json_bytes =>
      match value_from_slice json_bytes with
      | None => inl (Msg "serde")
      | Some subjson =>
          match pin_dispatch (depth subjson) subjson with
          | Some (Ok info) => inr info
          | Some (Err e) => inl e
          | Some (Panic _) | None => inl (Msg "stack overflow")
          end
      end
  end.

(** What the rest of the encryption layer is proved for, whatever the decoding *)
Definition clevis_codec : ClevisCodec := {| decode_protected := decode_header |}.
End dispatch.

(** ** Configurations *)

(** A binding: with a Tang server and the members of the key that verifies its signatures, with a TPM and the options of the
    request ([hash], [key], [pcr_ids], ...), or with a number of shares *)
Inductive Pin : Type := Tang (url : Str) (key : list (Str * Value)) | Tpm2 (options : list (Str * Value)) | Sss (t : Z) (shares : list Pin).

Definition pin_name (p : Pin) : Str := match p with Tang _ _ => str "tang" | Tpm2 _ => str "tpm2" | Sss _ _ => str "sss" end.

(** the binding without the options of its TPMs *)
Fixpoint forget (p : Pin) : Pin :=
  match p with Tang url key => Tang url key | Tpm2 _ => Tpm2 [] | Sss t shares => Sss t (List.map forget shares) end.
(** no TPM of the binding has options *)
Fixpoint plain (p : Pin) : bool :=
  match p with Tang _ _ => true | Tpm2 options => bool_decide (options = []) | Sss _ shares => forallb plain shares end.

(** the configurations of a pin *)
Definition of_pin (n : Str) (cs : list (Str * Value)) : list Value := snd <$> base.filter (λ c, c.1 = n) cs.
(** they are listed by pin, in order *)
Definition by_pin (cs : list (Str * Value)) : list (Str * Value) :=
  omap (λ n, match of_pin n cs with [] => None | l => Some (n, Array l) end) [str "sss"; str "tang"; str "tpm2"].

Section config.
Context `{JoseCrates}.

Definition without (k : Str) (m : list (Str * Value)) : list (Str * Value) := base.filter (λ kv, kv.1 ≠ k) m.

(** the configuration that is passed to Clevis to make a binding *)
Fixpoint config_of (p : Pin) : Value :=
  match p with
  | Tang url key => Object [(str "thp", VString (thumbprint (Object (without (str "alg") (without (str "key_ops") key))))); (str "url", VString url)]
  | Tpm2 options => Object options
  | Sss t shares => Object [(str "pins", Object (by_pin (List.map (λ p, (pin_name p, config_of p)) shares))); (str "t", Number (PosInt t))]
  end.
(** what can be read back of it *)
Definition pin_config (p : Pin) : Str * Value := (pin_name p, config_of (forget p)).

(** [v] is the header of a binding [p]; it may have other members.  Clevis writes the options of a TPM to the member [tpm2]. *)
Inductive header_for : Pin → Value → Prop :=
| tpm2_header v options :
    clevis_member v (str "pin") = Some (VString (str "tpm2")) →
    (∀ k x, map_get k options = Some x → (clevis_member v (str "tpm2") ≫= Value_get k) = Some x) → header_for (Tpm2 options) v
| tang_header v m url keys key :
    clevis_member v (str "pin") = Some (VString (str "tang")) → clevis_member v (str "tang") = Some (Object m) →
    map_get (str "url") m = Some (VString url) → (map_get (str "adv") m ≫= Value_get (str "keys")) = Some (Array keys) →
    List.find verifies keys = Some (Object key) → header_for (Tang url key) v
| sss_header v m t jwes shares :
    clevis_member v (str "pin") = Some (VString (str "sss")) → clevis_member v (str "sss") = Some (Object m) →
    map_get (str "t") m = Some (Number (PosInt t)) → map_get (str "jwe") m = Some (Array jwes) →
    Forall2 (λ p jwe, ∃ v', open_jwe jwe = Ok v' ∧ header_for p v') shares jwes → header_for (Sss t shares) v.
End config.

(** *** The map of pins *)

Lemma of_pin_snoc n cs m c : of_pin n (cs ++ [(m, c)]) = of_pin n cs ++ (if bool_decide (m = n) then [c] else []).
Proof.
  unfold of_pin. rewrite filter_app, fmap_app. f_equal. rewrite filter_cons. simpl. case_bool_decide; [by rewrite decide_True|by rewrite decide_False].
Qed.

Lemma add_pin_ok cs p c : add_pin (by_pin cs) (pin_name p) c = Ok (by_pin (cs ++ [(pin_name p, c)])).
Proof.
  assert (Hd : ∀ a b : Str, a ≠ b → bool_decide (a = b) = false) by (intros; by apply bool_decide_eq_false_2).
  unfold by_pin. csimpl. rewrite !of_pin_snoc.
  destruct p; simpl pin_name; rewrite ?(bool_decide_eq_true_2 (_ = _)) by done; rewrite ?Hd by (intros E; vm_compute in E; discriminate); rewrite ?app_nil_r;
    destruct (of_pin (str "sss") cs), (of_pin (str "tang") cs), (of_pin (str "tpm2") cs); vm_compute; reflexivity.
Qed.

(** *** Weights *)

Lemma weight_pos v : 1 ≤ weight v.
Proof.
  revert v. fix F 1. intros [| | |s|l|m]; simpl; try lia.
  - assert (0 ≤ (fix go l := match l with [] => 0 | v :: l => weight v + go l end) l); [|lia].
    induction l as [|v l IH]; [done|]. specialize (F v). lia.
  - assert (0 ≤ (fix go m := match m with [] => 0 | (k, v) :: m => Z.of_nat (length k) + 3 + weight v + go m end) m); [|lia].
    induction m as [|[k v] m IH]; [done|]. specialize (F v). lia.
Qed.

Lemma weight_get k v w : Value_get k v = Some w → weight w ≤ weight v.
Proof.
  destruct v as [| | | | |m]; try done. simpl. induction m as [|[k' v] m IH]; [done|]. simpl. pose proof (weight_pos v).
  case_bool_decide; [intros [= ->]|intros E; specialize (IH E)].
  - assert (0 ≤ (fix go m := match m with [] => 0 | (k, v) :: m => Z.of_nat (length k) + 3 + weight v + go m end) m); [|lia].
    clear. induction m as [|[k v] m IH]; [done|]. pose proof (weight_pos v). lia.
  - lia.
Qed.

Lemma weight_elem l v : v ∈ l → weight v ≤ weight (Array l).
Proof.
  induction l as [|w l IH]; [by intros ?%elem_of_nil|]. intros [->|Hv]%elem_of_cons; simpl.
  - assert (0 ≤ (fix go l := match l with [] => 0 | v :: l => weight v + go l end) l); [|lia].
    clear. induction l as [|v l IH]; [done|]. pose proof (weight_pos v). lia.
  - specialize (IH Hv). simpl in IH. pose proof (weight_pos w). lia.
Qed.

(** *** What is forgotten *)

Lemma by_pin_inj cs cs' n : by_pin cs = by_pin cs' → n ∈ [str "sss"; str "tang"; str "tpm2"] → of_pin n cs = of_pin n cs'.
Proof.
  unfold by_pin. csimpl. intros E Hn.
  destruct (of_pin (str "sss") cs) eqn:E1, (of_pin (str "sss") cs') eqn:E2, (of_pin (str "tang") cs) eqn:E3, (of_pin (str "tang") cs') eqn:E4,
    (of_pin (str "tpm2") cs) eqn:E5, (of_pin (str "tpm2") cs') eqn:E6; simplify_eq/=;
    repeat (apply elem_of_cons in Hn as [->|Hn]; [congruence|]); by apply elem_of_nil in Hn.
Qed.

Lemma of_pin_inj cs cs' : cs.*1 = cs'.*1 → (∀ n, n ∈ cs.*1 → of_pin n cs = of_pin n cs') → cs = cs'.
Proof.
  assert (Hc : ∀ n m c (cs : list (Str * Value)), of_pin n ((m, c) :: cs) = (if bool_decide (m = n) then [c] else []) ++ of_pin n cs).
  { intros n m c l. unfold of_pin. rewrite filter_cons. simpl. case_bool_decide; [by rewrite decide_True|by rewrite decide_False]. }
  revert cs'. induction cs as [|[n c] cs IH]; intros [|[n' c'] cs'] E; try done. intros Hof. csimpl in E. injection E as <- E.
  pose proof (Hof n ltac:(by left)) as E1. rewrite !Hc, bool_decide_eq_true_2 in E1 by done. injection E1 as <- E1.
  f_equal. apply IH; [done|]. intros m Hm. pose proof (Hof m ltac:(by right)) as E2. rewrite !Hc in E2. by apply app_inv_head in E2.
Qed.

Lemma pin_known p : pin_name p ∈ [str "sss"; str "tang"; str "tpm2"].
Proof. destruct p; [right; left|right; right; left|left]. Qed.

Lemma forget_name p : pin_name (forget p) = pin_name p.
Proof. by destruct p. Qed.

Section reading.
Context `{JoseCrates}.

Lemma plain_forget p : plain p = true → forget p = p.
Proof.
  revert p. fix F 1. intros [| |t l]; simpl; [done|intros E; apply bool_decide_eq_true in E; by subst|].
  intros E. f_equal. revert E. induction l as [|p l IH]; simpl; [done|]. intros [E1 E2]%andb_prop. f_equal; [by apply F|by apply IH].
Qed.

(** The options are all that is lost. *)
Lemma forget_config p : config_of (forget p) = config_of p ↔ plain p = true.
Proof.
  split; [|intros E; by rewrite plain_forget]. revert p. fix F 1. intros [|options|t l]; simpl; [done| |].
  - intros [= <-]. done.
  - intros [= E]. rewrite map_map in E.
    assert (E' : List.map (λ p, (pin_name (forget p), config_of (forget p))) l = List.map (λ p, (pin_name p, config_of p)) l).
    { apply of_pin_inj.
      - clear. induction l as [|p l IH]; csimpl; [done|]. by rewrite forget_name, IH.
      - intros n Hn. apply by_pin_inj; [done|]. clear -Hn. induction l as [|p l IH]; csimpl in Hn; [by apply elem_of_nil in Hn|].
        apply elem_of_cons in Hn as [->|Hn]; [rewrite forget_name; apply pin_known|by apply IH]. }
    clear E. induction l as [|p l IH]; [done|]. simpl in *. injection E' as _ Ec E'. rewrite (F p Ec). by apply IH.
Qed.

Lemma before_dot_length s : Z.of_nat (length (before_dot s)) ≤ Z.of_nat (length s).
Proof. induction s as [|c s IH]; [done|]. simpl. destruct (c =? 46); simpl; lia. Qed.

Lemma sss_config t shares : pin_config (Sss t shares) =
  (str "sss", Object [(str "pins", Object (by_pin (List.map pin_config shares))); (str "t", Number (PosInt t))]).
Proof.
  unfold pin_config. simpl. rewrite map_map. do 6 f_equal. apply map_ext. intros q. by rewrite forget_name.
Qed.

(** The value encoded in a text is smaller than the text, by a quarter. *)
Lemma open_weight jwe v : open_jwe jwe = Ok v → 4 * weight v ≤ 3 * weight jwe.
Proof.
  unfold open_jwe. destruct jwe as [| | |s| |]; try done. destruct (base64url_decode (before_dot s)) as [b|] eqn:Eb; [|done]. simpl.
  destruct (value_from_slice b) as [v'|] eqn:Ev; [|done]. intros [= <-]. apply base64url_shrinks in Eb. apply value_within in Ev.
  pose proof (before_dot_length s). lia.
Qed.

(** [o] is what reading [v] gives: it returns, with the configuration of the binding whose header [v] is, or with an error if it is none *)
Definition reads (v : Value) (o : option (res (Str * Value))) : Prop :=
  ∃ r, o = Some r ∧ (∀ w, r ≠ Panic w) ∧ ∀ n c, r = Ok (n, c) ↔ ∃ p, header_for p v ∧ (n, c) = pin_config p.

Lemma loop_reads dispatch jwes cs : (∀ jwe v, jwe ∈ jwes → open_jwe jwe = Ok v → reads v (dispatch v)) →
  ∃ r, jwe_loop dispatch (by_pin cs) jwes = Some r ∧ (∀ w, r ≠ Panic w) ∧
    ∀ m, r = Ok m ↔ ∃ shares, Forall2 (λ p jwe, ∃ v, open_jwe jwe = Ok v ∧ header_for p v) shares jwes ∧ m = by_pin (cs ++ List.map pin_config shares).
Proof.
  revert cs. induction jwes as [|jwe jwes IH]; intros cs Hd; simpl.
  { exists (Ok (by_pin cs)). split; [done|]. split; [done|]. intros m. split.
    - intros [= <-]. exists []. split; [constructor|]. simpl. by rewrite app_nil_r.
    - intros (shares & Hs & ->). inversion Hs; subst. simpl. by rewrite app_nil_r. }
  assert (Hn : ∀ e, open_jwe jwe = Err e → ∀ m, (Err e : res (list (Str * Value))) = Ok m ↔ ∃ shares,
    Forall2 (λ p jwe, ∃ v, open_jwe jwe = Ok v ∧ header_for p v) shares (jwe :: jwes) ∧ m = by_pin (cs ++ List.map pin_config shares)).
  { intros e He m. split; [done|]. intros (shares & Hs & _). inversion Hs as [|? ? ? ? (v & Ev & _)]; subst. congruence. }
  destruct (open_jwe jwe) as [v|e|w] eqn:Ev; [|exists (Err e); split; [done|]; split; [done|]; by apply Hn|].
  2: { exfalso. unfold open_jwe in Ev. destruct jwe as [| | |s| |]; try done. destruct (base64url_decode _); [|done]. simpl in Ev. by destruct (value_from_slice _). }
  destruct (Hd jwe v) as (r & -> & Hp & Hr); [by left|done|]. destruct r as [[n c]|e|w]; [|exists (Err e)|by destruct (Hp w)].
  - destruct (proj1 (Hr n c) eq_refl) as (p & Hhp & Ep). injection Ep as -> ->. simpl. rewrite add_pin_ok.
    destruct (IH (cs ++ [pin_config p])) as (r & Er & Hpan & Hm); [intros; eapply Hd; [by right|done]|].
    exists r. split; [exact Er|]. split; [done|]. intros m. rewrite Hm. split.
    + intros (shares & Hs & ->). exists (p :: shares). split; [constructor; [by exists v|done]|]. by rewrite <-app_assoc.
    + intros (shares & Hs & ->). inversion Hs as [|p' ? shares' ? (v' & Ev' & Hp') Hs']; subst. exists shares'. split; [done|].
      assert (v' = v) as -> by congruence.
      pose proof (proj2 (Hr (pin_name p') (config_of (forget p'))) (ex_intro _ p' (conj Hp' eq_refl))) as Eok.
      assert (pin_config p' = pin_config p) as Ec by (unfold pin_config; congruence).
      simpl. rewrite Ec. by rewrite <-app_assoc.
  - split; [done|]. split; [done|]. intros m. split; [done|]. intros (shares & Hs & _).
    inversion Hs as [|p' ? shares' ? (v' & Ev' & Hp') Hs']; subst. assert (v' = v) as -> by congruence.
    by pose proof (proj2 (Hr (pin_name p') (config_of (forget p'))) (ex_intro _ p' (conj Hp' eq_refl))).
Qed.

(** *** One header *)

Lemma refused_reads v e : (∀ p, ¬ header_for p v) → reads v (Some (Err e)).
Proof. intros Hno. exists (Err e). split; [done|]. split; [done|]. intros n c. split; [done|]. intros (p & Hp & _). by destruct (Hno p). Qed.

Lemma tang_reads v : clevis_member v (str "pin") = Some (VString (str "tang")) → reads v (Some (rmap (λ val, (str "tang", val)) (tang_dispatch v))).
Proof.
  intros Hpin. unfold tang_dispatch.
  assert (Hinv : ∀ p, header_for p v → ∃ m url keys key, p = Tang url key ∧ clevis_member v (str "tang") = Some (Object m) ∧
    map_get (str "url") m = Some (VString url) ∧ (map_get (str "adv") m ≫= Value_get (str "keys")) = Some (Array keys) ∧
    List.find verifies keys = Some (Object key)).
  { intros p Hp. inversion Hp; subst; rewrite Hpin in *; try (match goal with E : Some (VString _) = Some (VString _) |- _ => vm_compute in E; discriminate E end).
    repeat eexists; eassumption. }
  destruct (clevis_member v (str "tang")) as [[| | | | |m]|] eqn:Em; simpl; try (apply refused_reads; intros p Hp; apply Hinv in Hp; naive_solver).
  destruct (map_get (str "url") m) as [[| | |url| |]|] eqn:Eu; simpl; try (apply refused_reads; intros p Hp; apply Hinv in Hp; naive_solver).
  destruct (map_get (str "adv") m ≫= Value_get (str "keys")) as [[| | | |keys|]|] eqn:Ek; simpl; try (apply refused_reads; intros p Hp; apply Hinv in Hp; naive_solver).
  destruct (List.find verifies keys) as [[| | | | |key]|] eqn:Ev; simpl; try (apply refused_reads; intros p Hp; apply Hinv in Hp; naive_solver).
  eexists. split; [reflexivity|]. split; [done|]. intros n c. split.
  - intros [= <- <-]. exists (Tang url key). split; [by eapply tang_header|]. done.
  - intros (p & Hp & Ep). apply Hinv in Hp as (m' & url' & keys' & key' & -> & E1 & E2 & E3 & E4). simplify_eq/=. injection Ep as -> ->. done.
Qed.

Lemma sss_reads dispatch v : clevis_member v (str "pin") = Some (VString (str "sss")) → (∀ w, 4 * weight w ≤ 3 * weight v → reads w (dispatch w)) →
  reads v (rmap (λ val, (str "sss", val)) <$> sss_dispatch dispatch v).
Proof.
  intros Hpin Hd. unfold sss_dispatch.
  assert (Hinv : ∀ p, header_for p v → ∃ m t jwes shares, p = Sss t shares ∧ clevis_member v (str "sss") = Some (Object m) ∧
    map_get (str "t") m = Some (Number (PosInt t)) ∧ map_get (str "jwe") m = Some (Array jwes) ∧
    Forall2 (λ p jwe, ∃ v', open_jwe jwe = Ok v' ∧ header_for p v') shares jwes).
  { intros p Hp. inversion Hp; subst; rewrite Hpin in *; try (match goal with E : Some (VString _) = Some (VString _) |- _ => vm_compute in E; discriminate E end).
    repeat eexists; eassumption. }
  destruct (clevis_member v (str "sss")) as [[| | | | |m]|] eqn:Em; simpl; try (apply refused_reads; intros p Hp; apply Hinv in Hp; naive_solver).
  destruct (map_get (str "t") m) as [[| |[t| |]| | |]|] eqn:Et; simpl; try (apply refused_reads; intros p Hp; apply Hinv in Hp; naive_solver).
  destruct (map_get (str "jwe") m) as [[| | | |jwes|]|] eqn:Ej; simpl; try (apply refused_reads; intros p Hp; apply Hinv in Hp; naive_solver).
  assert (Hw : weight (Array jwes) ≤ weight v).
  { unfold clevis_member in Em. destruct (Value_get (str "clevis") v) as [cv|] eqn:Ec; [|done]. simpl in Em. apply weight_get in Ec, Em.
    assert (weight (Array jwes) ≤ weight (Object m)) by (by apply (weight_get (str "jwe"))). lia. }
  destruct (loop_reads dispatch jwes []) as (r & Er & Hpan & Hr).
  { intros jwe w Hin Ho. apply Hd. apply open_weight in Ho. apply weight_elem in Hin. lia. }
  change (by_pin []) with (@nil (Str * Value)) in Er. rewrite Er. simpl. destruct r as [pins|e|w]; simpl; [| |by destruct (Hpan w)].
  - destruct (proj1 (Hr pins) eq_refl) as (shares & Hs & Epins). eexists. split; [reflexivity|]. split; [done|]. intros n c. split.
    + intros [= <- <-]. exists (Sss t shares). split; [by eapply sss_header|]. by rewrite sss_config, Epins.
    + clear Hs Epins. intros (p & Hp & Ep). apply Hinv in Hp as (m' & t' & jwes' & shares' & -> & E1 & E2 & E3 & E4). simplify_eq. rewrite sss_config in Ep. injection Ep as -> ->.
      assert (Ok pins = Ok (by_pin ([] ++ List.map pin_config shares'))) as [= E]; [apply Hr; by exists shares'|]. by rewrite E.
  - apply refused_reads. intros p Hp. apply Hinv in Hp as (m' & t' & jwes' & shares' & -> & E1 & E2 & E3 & E4). simplify_eq/=.
    assert (Err e = Ok (by_pin ([] ++ List.map pin_config shares'))); [apply Hr; by exists shares'|done].
Qed.

Lemma dispatch_reads fuel v : weight v * 3 ^ Z.of_nat fuel < 4 ^ Z.of_nat fuel → reads v (pin_dispatch fuel v).
Proof.
  revert v. induction fuel as [|fuel IH]; intros v Hw; [pose proof (weight_pos v); simpl in Hw; lia|].
  rewrite !Nat2Z.inj_succ, !Z.pow_succ_r in Hw by lia. simpl.
  destruct (clevis_member v (str "pin")) as [pv|] eqn:Ep; [|apply refused_reads; intros p Hp; inversion Hp; congruence].
  destruct pv as [| | |pin| |]; simpl; try (apply refused_reads; intros p Hp; inversion Hp; congruence).
  case_bool_decide as Et; [subst; by apply tang_reads|]. case_bool_decide as Es; [subst; apply sss_reads; [done|]|].
  - intros w Hle. apply IH. assert (0 < 3 ^ Z.of_nat fuel) by lia. nia.
  - case_bool_decide as E2; [|apply refused_reads; intros p Hp; inversion Hp; congruence]. subst.
    eexists. split; [reflexivity|]. split; [done|]. intros n c. split; [intros [= <- <-]; exists (Tpm2 []); split; [by constructor|done]|].
    intros (p & Hp & [= -> ->]). inversion Hp; subst; try done; rewrite Ep in *; match goal with E : Some (VString _) = Some (VString _) |- _ => vm_compute in E; discriminate E end.
Qed.

Lemma depth_enough v : weight v * 3 ^ Z.of_nat (depth v) < 4 ^ Z.of_nat (depth v).
Proof.
  unfold depth. pose proof (weight_pos v). rewrite <-(Z2Nat.id (weight v)) at 1 by lia. generalize (Z.to_nat (weight v)) as n. intros n.
  rewrite Nat2Z.inj_mul. change (Z.of_nat 3) with 3. rewrite !Z.pow_mul_r by lia. change (3 ^ 3) with 27. change (4 ^ 3) with 64.
  induction n as [|n IH]; [done|]. rewrite Nat2Z.inj_succ, !Z.pow_succ_r by lia.
  assert (0 < 27 ^ Z.of_nat n) by lia. assert (27 ^ Z.of_nat n ≤ 64 ^ Z.of_nat n) by (apply Z.pow_le_mono_l; lia). nia.
Qed.

(** *** More fuel changes nothing *)

Lemma loop_mono (d d' : Value → option (res (Str * Value))) pin_map jwes r : (∀ v r, d v = Some r → d' v = Some r) →
  jwe_loop d pin_map jwes = Some r → jwe_loop d' pin_map jwes = Some r.
Proof.
  intros Hd. revert pin_map. induction jwes as [|jwe jwes IH]; intros pin_map; simpl; [done|]. destruct (open_jwe jwe); [|done..].
  destruct (d a) as [x|] eqn:E; [|done]. rewrite (Hd _ _ E). destruct (let? '(pin, value) := x in add_pin pin_map pin value); [apply IH|done..].
Qed.

Lemma dispatch_mono fuel fuel' v r : (fuel ≤ fuel')%nat → pin_dispatch fuel v = Some r → pin_dispatch fuel' v = Some r.
Proof.
  revert fuel' v r. induction fuel as [|fuel IH]; intros [|fuel'] v r Hle; try done; [lia|]. simpl.
  destruct (clevis_member v (str "pin")) as [pv|]; [|done]. destruct (as_str pv) as [pin|]; [|done]. case_bool_decide; [done|]. case_bool_decide; [|done].
  unfold sss_dispatch. destruct (rbind _ _) as [[t jwes]|e|w]; [|done..]. destruct (jwe_loop (pin_dispatch fuel) [] jwes) as [l|] eqn:Hl; [|done].
  by rewrite (loop_mono _ (pin_dispatch fuel') _ _ _ (λ v r, IH fuel' v r ltac:(lia)) Hl).
Qed.

(** The options of a TPM2 binding ([hash], [key], [pcr_ids], ...) are not read back: all bindings to a TPM2 read as the same configuration, so the
    configuration of the request differs from the one found later when it has options. *)
Lemma tpm2_options_forgotten fuel v : clevis_member v (str "pin") = Some (VString (str "tpm2")) →
  pin_dispatch (S fuel) v = Some (Ok (str "tpm2", Object [])).
Proof. intros E. simpl. rewrite E. reflexivity. Qed.

End reading.

(** ** An instance for examples *)

Definition b64_symbol (n : Z) : Z :=
  if n <? 26 then 65 + n else if n <? 52 then 71 + n else if n <? 62 then n - 4 else if n =? 62 then 45 else 95.
Definition b64_value (c : Z) : option Z :=
  if (65 <=? c) && (c <=? 90) then Some (c - 65) else if (97 <=? c) && (c <=? 122) then Some (c - 71)
  else if (48 <=? c) && (c <=? 57) then Some (c + 4) else if c =? 45 then Some 62 else if c =? 95 then Some 63 else None.

Fixpoint b64_encode (b : list Z) : Str :=
  match b with
  | x :: y :: z :: b => b64_symbol (x / 4) :: b64_symbol (x mod 4 * 16 + y / 16) :: b64_symbol (y mod 16 * 4 + z / 64) :: b64_symbol (z mod 64) :: b64_encode b
  | [x; y] => [b64_symbol (x / 4); b64_symbol (x mod 4 * 16 + y / 16); b64_symbol (y mod 16 * 4)]
  | [x] => [b64_symbol (x / 4); b64_symbol (x mod 4 * 16)]
  | [] => []
  end.
Fixpoint b64_decode (s : Str) : option (list Z) :=
  match s with
  | a :: b :: c :: d :: s =>
      a ← b64_value a; b ← b64_value b; c ← b64_value c; d ← b64_value d; rest ← b64_decode s;
      Some (a * 4 + b / 16 :: b mod 16 * 16 + c / 4 :: c mod 4 * 64 + d :: rest)
  | [a; b; c] => a ← b64_value a; b ← b64_value b; c ← b64_value c; if c mod 4 =? 0 then Some [a * 4 + b / 16; b mod 16 * 16 + c / 4] else None
  | [a; b] => a ← b64_value a; b ← b64_value b; if b mod 16 =? 0 then Some [a * 4 + b / 16] else None
  | [_] => None
  | [] => Some []
  end.

Lemma b64_shrinks s b : b64_decode s = Some b → 4 * Z.of_nat (length b) ≤ 3 * Z.of_nat (length s).
Proof.
  revert s b. fix F 1. intros [|a1 [|a2 [|a3 [|a4 s]]]] b; simpl.
  - intros [= <-]. done.
  - done.
  - destruct (b64_value a1), (b64_value a2); simpl; try done. destruct (_ =? 0); [|done]. intros [= <-]. simpl. lia.
  - destruct (b64_value a1), (b64_value a2), (b64_value a3); simpl; try done. destruct (_ =? 0); [|done]. intros [= <-]. simpl. lia.
  - destruct (b64_value a1), (b64_value a2), (b64_value a3), (b64_value a4); simpl; try done.
    destruct (b64_decode s) as [rest|] eqn:E; [|done]. simpl. intros [= <-]. apply F in E. simpl length. lia.
Qed.

(** parts separated by commas *)
Definition commas (l : list (list Z)) : list Z := match l with [] => [] | x :: l => x ++ mjoin ((λ y, 44 :: y) <$> l) end.
(** the text of values with one-digit numbers and without characters that are escaped *)
Definition quoted (s : Str) : list Z := 34 :: s ++ [34].
Fixpoint json_text (v : Value) : list Z :=
  match v with
  | Null => str "null"
  | Bool b => if b then str "true" else str "false"
  | Number (PosInt n) => [48 + n]
  | Number _ => [48]
  | VString s => quoted s
  | Array l => 91 :: commas (List.map json_text l) ++ [93]
  | Object m => 123 :: commas (List.map (λ kv, quoted kv.1 ++ 58 :: json_text kv.2) m) ++ [125]
  end.

Definition ex_key : list (Str * Value) := [(str "alg", VString (str "ES512")); (str "crv", VString (str "P-521")); (str "key_ops", Array [VString (str "verify")])].
Definition ex_tang : Value := object [(str "clevis", object [(str "pin", VString (str "tang"));
  (str "tang", object [(str "url", VString (str "tang.local")); (str "adv", object [(str "keys", Array [Null; Object ex_key])])])])].
Definition ex_tpm2 : Value := object [(str "clevis", object [(str "pin", VString (str "tpm2"))]); (str "enc", VString (str "A256GCM"))].
Definition ex_jwe (v : Value) : Value := VString (b64_encode (json_text v) ++ str ".e.k.t").
Definition ex_sss : Value := object [(str "clevis", object [(str "pin", VString (str "sss"));
  (str "sss", object [(str "t", Number (PosInt 2)); (str "jwe", Array [ex_jwe ex_tpm2; ex_jwe ex_tang; ex_jwe ex_tpm2])])])].

(** reads the texts of the values above; the digest of a text is its first bytes *)
Definition ex_jose : JoseCrates.
Proof.
  refine {| base64url_decode := b64_decode; base64url_encode := b64_encode; value_to_bytes := json_text; sha256 := take 6;
            value_from_slice b := List.find (λ v, bool_decide (json_text v = b) && (weight v <=? Z.of_nat (length b))) [ex_tang; ex_tpm2; ex_sss];
            base64url_shrinks := b64_shrinks |}.
  intros b v Hf. apply find_some in Hf as [_ Hf]. apply andb_prop in Hf as [_ Hf]. by apply Z.leb_le.
Defined.

Section examples.
#[local] Existing Instance ex_jose.

Definition ex_pin : Pin := Sss 2 [Tpm2 []; Tang (str "tang.local") ex_key; Tpm2 []].
Definition ex_pin_pcr : Pin := Sss 2 [Tpm2 [(str "pcr_ids", VString (str "7"))]; Tang (str "tang.local") ex_key].

End examples.
