(* ===== verification/Keyfiles.v ===== *)
(** * Key files that only Clevis sees

    Models [MemoryPrivateFilesystem] and [MemoryMappedKeyfile] of [src/engine/strat_engine/keys.rs]: to hand a key to Clevis the daemon writes it to a
    file on a tmpfs mounted in a mount namespace of its own.  The model of the kernel has the namespaces with their mounts, the filesystems with their files, and a record of
    what the host could see after every call; any call may be refused. *)
From stdpp Require Import base list gmap strings.
From Stdlib Require Import ZArith Lia.
From S2P Require Import Prelude Shared.

(** ** The kernel *)

(** an absolute path, as the names on the way to it *)
Definition Path : Type := list Str.

(** Filesystem 0 is the one on disk, namespace 0 that of process 1. *)
Record Kernel : Type := mkKernel {
  ns : nat;                                (* the namespace of the thread *)
  next_ns : nat;
  mounts : gmap nat (list (Path * nat));   (* mount points and filesystems, the latest first *)
  shared : gmap nat bool;                  (* whether mounts below [TMPFS_LOCATION] reach the other namespaces where it is shared *)
  next_fs : nat;
  dirs : gset (nat * Path);
  files : gmap (nat * Path) (list Z);
  calls : nat;
  refused : nat → bool;
  history : list (list (list Z)) }.        (* the contents of files within reach of the host, after each call *)

Definition mounts_of (k : Kernel) (n : nat) : list (Path * nat) := default [] (mounts k !! n).

Fixpoint is_prefix (p q : Path) : bool :=
  match p, q with
  | [], _ => true
  | a :: p, b :: q => bool_decide (a = b) && is_prefix p q
  | _ :: _, [] => false
  end.

(** the filesystem a path leads to in a namespace *)
Definition fs_at (k : Kernel) (n : nat) (path : Path) : nat :=
  match List.find (λ m, is_prefix m.1 path) (mounts_of k n) with Some (_, fs) => fs | None => 0%nat end.

Definition host_view (k : Kernel) : list (list Z) :=
  omap (λ x, if bool_decide (fs_at k 0 x.1.2 = x.1.1) then Some x.2 else None) (map_to_list (files k)).

(** the state after a call, with what the host sees of it *)
Definition note (k : Kernel) : Kernel :=
  mkKernel (ns k) (next_ns k) (mounts k) (shared k) (next_fs k) (dirs k) (files k) (S (calls k)) (refused k) (history k ++ [host_view k]).

Definition set_files (fs : gmap (nat * Path) (list Z)) (k : Kernel) : Kernel :=
  mkKernel (ns k) (next_ns k) (mounts k) (shared k) (next_fs k) (dirs k) fs (calls k) (refused k) (history k).
Definition set_dirs (ds : gset (nat * Path)) (k : Kernel) : Kernel :=
  mkKernel (ns k) (next_ns k) (mounts k) (shared k) (next_fs k) ds (files k) (calls k) (refused k) (history k).
Definition set_shared (b : bool) (k : Kernel) : Kernel :=
  mkKernel (ns k) (next_ns k) (mounts k) (<[ns k := b]> (shared k)) (next_fs k) (dirs k) (files k) (calls k) (refused k) (history k).

(** a call that changes the state, unless it is refused *)
Definition syscall {A} (f : Kernel → res A * Kernel) : st Kernel A := λ k,
  if refused k (calls k) then (Err (Nix "refused"), note k) else let '(r, k) := f k in (r, note k).
Definition succeeds (f : Kernel → Kernel) : Kernel → res unit * Kernel := λ k, (Ok tt, f k).
Definition asks {A} (f : Kernel → A) : Kernel → res A * Kernel := λ k, (Ok (f k), k).

Definition here (k : Kernel) (path : Path) : nat * Path := (fs_at k (ns k) path, path).
Definition is_mount (k : Kernel) (path : Path) : bool := existsb (λ m, bool_decide (m.1 = path)) (mounts_of k (ns k)).
Definition is_dir (k : Kernel) (path : Path) : bool := is_mount k path || bool_decide (here k path ∈ dirs k) || bool_decide (path = []).
Definition exists_ (k : Kernel) (path : Path) : bool := is_dir k path || bool_decide (is_Some (files k !! here k path)).
Definition parent (path : Path) : Path := removelast path.

(** [Path::exists] is false when it fails *)
Definition path_exists (path : Path) : st Kernel bool := λ k,
  (Ok (negb (refused k (calls k)) && exists_ k path), note k).
Definition path_is_dir (path : Path) : st Kernel bool := λ k,
  (Ok (negb (refused k (calls k)) && is_dir k path), note k).
(** [stat(path)?.st_dev] *)
Definition stat_dev (path : Path) : st Kernel nat := syscall (asks (λ k, fs_at k (ns k) path)).
Definition create_dir_all (path : Path) : st Kernel unit := syscall (succeeds (λ k, set_dirs ({[here k path]} ∪ dirs k) k)).

(** [open] with [create]: the file is made unless it exists *)
Definition open_create (path : Path) : st Kernel unit := syscall (λ k,
  if negb (is_dir k (parent path)) || is_dir k path then (Err (Io "open"), k)
  else (Ok tt, if bool_decide (is_Some (files k !! here k path)) then k else set_files (<[here k path := []]> (files k)) k)).
(** [chown], [set_permissions], [munmap]: calls that may be refused and change nothing modelled *)
Definition harmless : st Kernel unit := syscall (succeeds id).
(** [set_len] *)
Definition set_len (path : Path) (n : nat) : st Kernel unit := syscall (succeeds (λ k,
  set_files (<[here k path := take n (default [] (files k !! here k path) ++ replicate n 0)]> (files k)) k)).
(** [mmap] of the whole file: no mapping has length 0 *)
Definition mmap (n : nat) : st Kernel unit := syscall (λ k, (match n with O => Err (Nix "mmap") | _ => Ok tt end, k)).
(** a write to the shared mapping, which is no call *)
Definition store (path : Path) (data : list Z) : st Kernel unit := λ k, (Ok tt, note (set_files (<[here k path := data]> (files k)) k)).
Definition remove_file (path : Path) : st Kernel unit := syscall (succeeds (λ k, set_files (delete (here k path) (files k)) k)).

Definition unshare (k : Kernel) : Kernel :=
  mkKernel (next_ns k) (S (next_ns k)) (<[next_ns k := mounts_of k (ns k)]> (mounts k)) (<[next_ns k := default false (shared k !! ns k)]> (shared k))
    (next_fs k) (dirs k) (files k) (calls k) (refused k) (history k).
(** the namespaces a mount of the thread reaches *)
Definition reached (k : Kernel) (n : nat) : bool :=
  bool_decide (n = ns k) || (default false (shared k !! ns k) && default false (shared k !! n)).
Definition mount_tmpfs (path : Path) (k : Kernel) : Kernel :=
  mkKernel (ns k) (next_ns k) (map_imap (λ n l, Some (if reached k n then (path, next_fs k) :: l else l)) (mounts k)) (shared k)
    (S (next_fs k)) (dirs k) (files k) (calls k) (refused k) (history k).
(** the topmost mount at [path] goes *)
Fixpoint remove_mount (path : Path) (l : list (Path * nat)) : list (Path * nat) :=
  match l with [] => [] | m :: l => if bool_decide (m.1 = path) then l else m :: remove_mount path l end.
Definition umount (path : Path) : st Kernel unit := syscall (λ k,
  if is_mount k path then
    (Ok tt, mkKernel (ns k) (next_ns k) (map_imap (λ n l, Some (if reached k n then remove_mount path l else l)) (mounts k)) (shared k)
              (next_fs k) (dirs k) (files k) (calls k) (refused k) (history k))
  else (Err (Nix "umount"), k)).

(** ** Paths *)

Fixpoint split_slash (name : Str) (s : Str) : list Str :=
  match s with
  | [] => [reverse name]
  | c :: s => if c =? 47 then reverse name :: split_slash [] s else split_slash (c :: name) s
  end.
(** the names of a relative path; empty names and [.] do not count *)
Definition names (s : Str) : list Str := base.filter (λ n, n ≠ [] ∧ n ≠ [46]) (split_slash [] s).
(** [..] leads one up *)
Definition walk (path : Path) (ns : list Str) : Path :=
  foldl (λ p n, if bool_decide (n = [46; 46]) then removelast p else p ++ [n]) path ns.
(** [PathBuf::push] and the way to the result: an absolute path replaces the first *)
Definition push (path : Path) (s : Str) : Path :=
  match s with
  | c :: _ => if c =? 47 then walk [] (names s) else walk path (names s)
  | [] => path
  end.

(** ** The private filesystem *)

Definition TMPFS_LOCATION : Path := [str "run"; str "stratisd"; str "keyfiles"].

Definition is_in_root_namespace : st Kernel bool :=
  let! pid_one_stat := syscall (asks (λ _, 0%nat)) in
  let! self_stat := syscall (asks ns) in
  iret (bool_decide (pid_one_stat = self_stat)).

(** [MemoryPrivateFilesystem::new]; [random_string] is what was drawn *)
Definition MemoryPrivateFilesystem_new (random_string : Str) : st Kernel Path :=
  let! there := path_exists TMPFS_LOCATION in
  (if there then
     let! dir := path_is_dir TMPFS_LOCATION in
     if negb dir then ierr (Io "exists and is not a directory")
     else
       let! stat_info := stat_dev TMPFS_LOCATION in
       let! parent_stat_info := stat_dev (parent TMPFS_LOCATION) in
       if bool_decide (stat_info = parent_stat_info) then ierr (Io "No mount found which is required to proceed") else iret tt
   else ierr (Io "Path does not exist")) ;;!
  let private_fs_path := push TMPFS_LOCATION random_string in
  create_dir_all private_fs_path ;;!
  let! root := is_in_root_namespace in
  (if root then syscall (succeeds unshare) else iret tt) ;;!
  let! root := is_in_root_namespace in
  if root then ierr (Msg "It was detected that the in-memory key files would have ended up visible on the host system")
  else
    syscall (succeeds (set_shared false)) ;;!
    syscall (succeeds (mount_tmpfs private_fs_path)) ;;!
    iret private_fs_path.

(** [Drop for MemoryPrivateFilesystem]: a failure is only logged *)
Definition MemoryPrivateFilesystem_drop (self : Path) (k : Kernel) : Kernel := (umount self k).2.

(** [MemoryMappedKeyfile::new]; [root] is whether the daemon runs as root *)
Definition MemoryMappedKeyfile_new (root : bool) (file_path : Path) (key_data : list Z) : st Kernel unit :=
  let! there := path_exists file_path in
  if there then ierr (Io "Keyfile is already present")
  else
    open_create file_path ;;!
    if negb root then ilift (Panic "assertion failed: Uid::current().is_root()")
    else
      harmless ;;! harmless ;;!
      set_len file_path (length key_data) ;;!
      mmap (length key_data) ;;!
      store file_path key_data.

(** [Drop for MemoryMappedKeyfile]: the mapping is overwritten, then the file removed *)
Definition MemoryMappedKeyfile_drop (file_path : Path) (key_data : list Z) (k : Kernel) : Kernel :=
  let k := (store file_path (replicate (length key_data) 0) k).2 in
  let k := (harmless k).2 in
  (remove_file file_path k).2.

(** [m], then a drop, whatever came of [m] *)
Definition finally {A} (m : st Kernel A) (drop : Kernel → Kernel) : st Kernel A := λ k, let '(r, k) := m k in (r, drop k).

(** [key_op]; [key] is what reading the key gave, [f] the outcome of the operation *)
Definition key_op (root : bool) (self : Path) (key_desc : KeyDescription) (key : res (option (list Z))) (f : Path → res unit) : st Kernel unit :=
  let! key_data := ilift key in
  match key_data with
  | None => ierr (Io "Key with given key description was not found")
  | Some key_data =>
      let mem_file_path := push self key_desc in
      MemoryMappedKeyfile_new root mem_file_path key_data ;;!
      finally (ilift (f mem_file_path)) (MemoryMappedKeyfile_drop mem_file_path key_data)
  end.

(** [rand_key] and the operation done with the file ([initialize.rs]); [name] and [key_data] are what was drawn *)
Definition rand_key_op (root : bool) (self : Path) (name : Str) (key_data : res (list Z)) (f : Path → res unit) : st Kernel unit :=
  let! key_data := ilift key_data in
  let mem_file_path := push self name in
  MemoryMappedKeyfile_new root mem_file_path key_data ;;!
  finally (ilift (f mem_file_path)) (MemoryMappedKeyfile_drop mem_file_path key_data).

(** [let fs = MemoryPrivateFilesystem::new()?], its use and its drop *)
Definition with_private_fs (random_string : Str) (use : Path → st Kernel unit) : st Kernel unit :=
  let! fs := MemoryPrivateFilesystem_new random_string in
  finally (use fs) (MemoryPrivateFilesystem_drop fs).

(** ** What the host sees *)

(** no file within reach of the host holds the key *)
Definition hidden (key : list Z) (k : Kernel) : Prop := ∀ f p, files k !! (f, p) = Some key → fs_at k 0 p ≠ f.

(** The state of the kernel before and between the operations: namespaces and filesystems have numbers below the next one *)
Record kernel_ok (key : list Z) (k : Kernel) : Prop := {
  ok_fs n p f : (p, f) ∈ mounts_of k n → (f < next_fs k)%nat;
  ok_files f p c : files k !! (f, p) = Some c → (f < next_fs k)%nat;
  ok_disk : (0 < next_fs k)%nat;
  ok_ns n l : mounts k !! n = Some l → (n < next_ns k)%nat;
  ok_init : (0 < next_ns k)%nat;
  ok_thread : is_Some (mounts k !! ns k);
  ok_hidden : hidden key k;
  ok_history : Forall (λ view, key ∉ view) (history k) }.

(** no file holds the key *)
Definition absent (key : list Z) (k : Kernel) : Prop := ∀ x, files k !! x ≠ Some key.

Lemma view_hidden key k : hidden key k → key ∉ host_view k.
Proof.
  intros Hh Hin. apply list_elem_of_omap in Hin as ([[f p] c] & Hx & E). simpl in E. case_bool_decide as Ef; [|done]. injection E as ->.
  apply elem_of_map_to_list in Hx. by apply (Hh f p).
Qed.

Section keeping.
Context (key : list Z).

(** a call that is noted *)
Lemma note_ok k : kernel_ok key k → kernel_ok key (note k).
Proof. intros [? ? ? ? ? ? Hh Hy]. split; try done. simpl. apply Forall_app. split; [done|]. constructor; [by apply view_hidden|done]. Qed.

(** [m] keeps the kernel in order and satisfies [Q] when it returns a value, [E] otherwise *)
Definition keeps {A} (P : Kernel → Prop) (m : st Kernel A) (Q : A → Kernel → Prop) (E : Kernel → Prop) : Prop := ∀ k, kernel_ok key k → P k →
  kernel_ok key (m k).2 ∧ match (m k).1 with Ok a => Q a (m k).2 | _ => E (m k).2 end.

Lemma keeps_bind {A B} P (m : st Kernel A) (c : A → st Kernel B) Q R E : keeps P m Q E → (∀ a, keeps (Q a) (c a) R E) → keeps P (ibind m c) R E.
Proof.
  intros Hm Hc k Hk HP. specialize (Hm k Hk HP). unfold ibind. destruct (m k) as [[a|e|w] k']; simpl in *; [|done..].
  destruct Hm as [Hk' HQ]. by apply Hc.
Qed.

Lemma keeps_ret {A} (P : Kernel → Prop) (a : A) (Q : A → Kernel → Prop) E : (∀ k, P k → Q a k) → keeps P (iret a) Q E.
Proof. intros HQ k Hk HP. split; [done|]. by apply HQ. Qed.
Lemma keeps_err {A} (P : Kernel → Prop) e (Q : A → Kernel → Prop) (E : Kernel → Prop) : (∀ k, P k → E k) → keeps P (ierr e) Q E.
Proof. intros HE k Hk HP. split; [done|]. by apply HE. Qed.
Lemma keeps_lift {A} (P E : Kernel → Prop) (r : res A) : (∀ k, P k → E k) → keeps P (ilift r) (λ _, P) E.
Proof. intros HE k Hk HP. split; [done|]. simpl. destruct r; auto. Qed.

Lemma keeps_weaken {A} (P P' : Kernel → Prop) (m : st Kernel A) (Q Q' : A → Kernel → Prop) (E E' : Kernel → Prop) : keeps P m Q E →
  (∀ k, P' k → P k) → (∀ a k, Q a k → Q' a k) → (∀ k, E k → E' k) → keeps P' m Q' E'.
Proof. intros Hm HP HQ HE k Hk Hp. destruct (Hm k Hk (HP _ Hp)) as [H1 H2]. split; [done|]. destruct (m k).1; auto. Qed.

Lemma keeps_syscall {A} P (f : Kernel → res A * Kernel) (Q : A → Kernel → Prop) (E : Kernel → Prop) :
  (∀ k, kernel_ok key k → P k → kernel_ok key (f k).2 ∧ match (f k).1 with Ok a => Q a (note (f k).2) | _ => E (note (f k).2) end) →
  (∀ k, P k → E (note k)) → keeps P (syscall f) Q E.
Proof.
  intros Hf HE k Hk HP. unfold syscall. destruct (refused k (calls k)); [simpl; split; [by apply note_ok|by apply HE]|].
  destruct (Hf k Hk HP) as [H1 H2]. destruct (f k) as [r k']. simpl in *. split; [by apply note_ok|done].
Qed.

(** *** The key file *)

(** The thread is alone in a namespace where [path] leads elsewhere than for the host; the file there satisfies [C], no other holds the key. *)
Record apart (path : Path) (C : option (list Z) → Prop) (k : Kernel) : Prop := {
  ap_ns : ns k ≠ 0%nat;
  ap_alone : default false (shared k !! ns k) = false;
  ap_fs : fs_at k 0 path ≠ fs_at k (ns k) path;
  ap_file : C (files k !! here k path);
  ap_others x : x ≠ here k path → files k !! x ≠ Some key }.

Lemma apart_weaken path (C C' : option (list Z) → Prop) k : (∀ c, C c → C' c) → apart path C k → apart path C' k.
Proof. intros HC [? ? ? ? ?]. split; auto. Qed.
Lemma apart_note path C k : apart path C k → apart path C (note k).
Proof. intros [? ? ? ? ?]. by split. Qed.
Lemma apart_absent path k : apart path (λ c, c ≠ Some key) k → absent key k.
Proof. intros [_ _ _ Hf Ho] x. destruct (decide (x = here k path)) as [->|Hne]; [done|by apply Ho]. Qed.

Lemma fs_at_below k n p : kernel_ok key k → (fs_at k n p < next_fs k)%nat.
Proof.
  intros Hk. unfold fs_at. destruct (List.find _ _) as [[q f]|] eqn:E; [|apply Hk]. apply find_some in E as [Hin _]. apply list_elem_of_In in Hin. by eapply ok_fs.
Qed.

(** a change of the file changes nothing for the host *)
Lemma file_changed path C k fs : kernel_ok key k → apart path C k → (∀ x, x ≠ here k path → fs !! x = files k !! x) →
  kernel_ok key (set_files fs k) ∧ apart path (λ c, c = fs !! here k path) (set_files fs k).
Proof.
  intros Hk Hap Hfs. destruct Hap as [Hn Ha Hf _ Ho]. split; [|split; try done; intros x Hx; simpl in *; rewrite Hfs by done; by apply Ho].
  pose proof (fs_at_below k (ns k) path Hk) as Hlt. destruct Hk as [K1 K2 K3 K4 K5 K6 K7 K8]. split; try done.
  - intros f p c Hc. simpl in Hc. destruct (decide ((f, p) = here k path)) as [E|Hne]; [by injection E as -> ->|]. rewrite Hfs in Hc by done. by eapply K2.
  - intros f p Hc. simpl in Hc. destruct (decide ((f, p) = here k path)) as [E|Hne]; [by injection E as -> ->|]. rewrite Hfs in Hc by done. by apply (K7 f p).
Qed.

Lemma file_inserted path C k c : kernel_ok key k → apart path C k →
  kernel_ok key (set_files (<[here k path := c]> (files k)) k) ∧ apart path (λ o, o = Some c) (set_files (<[here k path := c]> (files k)) k).
Proof.
  intros Hk Hap. destruct (file_changed path C k (<[here k path := c]> (files k)) Hk Hap) as [H1 H2]; [intros x Hx; by apply lookup_insert_ne|].
  split; [done|]. by rewrite lookup_insert_eq in H2.
Qed.

Context (Hkey : key ≠ replicate (length key) 0).

Lemma key_nonempty : key ≠ [].
Proof. intros E. apply Hkey. by rewrite E. Qed.

(** the file is not, or not yet, the key *)
Definition blank (c : option (list Z)) : Prop := c ≠ Some key.

Lemma keeps_open path : keeps (apart path (λ c, c = None)) (open_create path) (λ _, apart path (λ c, c = Some [])) (apart path blank).
Proof.
  pose proof key_nonempty. apply keeps_syscall.
  - intros k Hk Hap. destruct (negb _ || _); simpl.
    + split; [done|]. apply apart_note. eapply apart_weaken; [|exact Hap]. by intros c ->.
    + assert (files k !! here k path = None) as E by apply Hap. rewrite E, bool_decide_eq_false_2 by (by intros [? ?]). 
      destruct (file_inserted path _ k [] Hk Hap) as [H1 H2]. split; [done|by apply apart_note].
  - intros k Hap. apply apart_note. eapply apart_weaken; [|exact Hap]. by intros c ->.
Qed.

Lemma keeps_quiet {A} path C (f : Kernel → res A) : (∀ c, C c → blank c) →
  keeps (apart path C) (syscall (λ k, (f k, k))) (λ _, apart path C) (apart path blank).
Proof.
  intros HC. apply keeps_syscall; [|intros k Hap; apply apart_note; by eapply apart_weaken].
  intros k Hk Hap. simpl. split; [done|]. destruct (f k); [by apply apart_note|..]; apply apart_note; by eapply apart_weaken.
Qed.

Lemma keeps_set_len path : keeps (apart path (λ c, c = Some [])) (set_len path (length key))
  (λ _, apart path (λ c, c = Some (replicate (length key) 0))) (apart path blank).
Proof.
  pose proof key_nonempty. apply keeps_syscall; [|intros k Hap; apply apart_note; eapply apart_weaken; [|exact Hap]; intros c ->; congruence].
  intros k Hk Hap. simpl. assert (files k !! here k path = Some []) as -> by apply Hap. simpl. rewrite take_ge by (by rewrite length_replicate).
  destruct (file_inserted path _ k (replicate (length key) 0) Hk Hap) as [H1 H2]. split; [done|by apply apart_note].
Qed.

Lemma keeps_store path C data E : keeps (apart path C) (store path data) (λ _, apart path (λ c, c = Some data)) E.
Proof. intros k Hk Hap. destruct (file_inserted path _ k data Hk Hap) as [H1 H2]. simpl. split; [by apply note_ok|by apply apart_note]. Qed.

Lemma keeps_remove path : keeps (apart path blank) (remove_file path) (λ _, apart path blank) (apart path blank).
Proof.
  apply keeps_syscall; [|intros k Hap; by apply apart_note]. intros k Hk Hap. simpl.
  destruct (file_changed path _ k (delete (here k path) (files k)) Hk Hap) as [H1 H2]; [intros x Hx; by apply lookup_delete_ne|].
  split; [done|]. apply apart_note. rewrite lookup_delete_eq in H2. eapply apart_weaken; [|exact H2]. by intros c ->.
Qed.

Lemma keeps_exists path C : keeps (apart path C) (path_exists path) (λ _, apart path C) (apart path blank).
Proof. intros k Hk Hap. simpl. split; [by apply note_ok|by apply apart_note]. Qed.

Lemma keeps_keyfile root path : keeps (apart path (λ c, c = None)) (MemoryMappedKeyfile_new root path key)
  (λ _, apart path (λ c, c = Some key)) (apart path blank).
Proof.
  unfold MemoryMappedKeyfile_new. pose proof key_nonempty.
  assert (Hz : ∀ c, c = Some (replicate (length key) 0) → blank c) by (intros c ->; unfold blank; congruence).
  assert (He : ∀ c, c = Some [] → blank c) by (intros c ->; unfold blank; congruence).
  eapply keeps_bind; [apply keeps_exists|]. intros []; cbv beta.
  { apply keeps_err. intros k. apply apart_weaken. by intros c ->. }
  eapply keeps_bind; [apply keeps_open|]. intros ?; cbv beta. destruct root; simpl.
  - do 2 (eapply keeps_bind; [by apply (keeps_quiet path _ (λ _, Ok tt))|]; intros ?; cbv beta).
    eapply keeps_bind; [apply keeps_set_len|]. intros ?; cbv beta.
    eapply keeps_bind; [by apply (keeps_quiet path _ (λ _, match length key with O => Err (Nix "mmap") | _ => Ok tt end))|]. intros ?; cbv beta. apply keeps_store.
  - intros k Hk Hap. simpl. split; [done|]. exact (apart_weaken _ _ _ _ He Hap).
Qed.

Lemma drop_keyfile path k : kernel_ok key k → apart path (λ c, c = Some key) k →
  kernel_ok key (MemoryMappedKeyfile_drop path key k) ∧ apart path blank (MemoryMappedKeyfile_drop path key k).
Proof.
  intros Hk Hap. unfold MemoryMappedKeyfile_drop.
  destruct (keeps_store path _ (replicate (length key) 0) (λ _, False) k Hk Hap) as [K1 A1]. destruct (store _ _ k) as [r1 k1] eqn:E1.
  assert (r1 = Ok tt) as -> by (unfold store in E1; congruence). clear E1. simpl in K1, A1. simpl.
  assert (Hz : ∀ c, c = Some (replicate (length key) 0) → blank c) by (intros c ->; unfold blank; congruence).
  destruct (keeps_quiet path _ (λ _, Ok tt) Hz _ K1 A1) as [K2 A2]. change (syscall (λ k, (Ok tt, k))) with harmless in K2, A2.
  assert (A2' : apart path blank (harmless k1).2) by (destruct (harmless k1).1; [exact (apart_weaken _ _ _ _ Hz A2)|done..]).
  destruct (keeps_remove path _ K2 A2') as [K3 A3]. split; [done|]. by destruct (remove_file _ _).1.
Qed.

(** *** The namespace and the mount *)

Lemma same_reach k k' : files k' = files k → mounts_of k' 0 = mounts_of k 0 → hidden key k → hidden key k'.
Proof. intros Ef Em Hh f p. unfold fs_at. rewrite Ef, Em. apply Hh. Qed.

Lemma dirs_ok ds k : kernel_ok key k → kernel_ok key (set_dirs ds k).
Proof. intros [? ? ? ? ? ? ? ?]. by split. Qed.
Lemma shared_ok b k : kernel_ok key k → kernel_ok key (set_shared b k).
Proof. intros [? ? ? ? ? ? ? ?]. by split. Qed.

Lemma mounts_unshared k n : mounts_of (unshare k) n = if bool_decide (n = next_ns k) then mounts_of k (ns k) else mounts_of k n.
Proof.
  unfold mounts_of. simpl. case_bool_decide as E; [subst; by rewrite lookup_insert_eq|]. by rewrite lookup_insert_ne by done.
Qed.

Lemma unshare_ok k : kernel_ok key k → kernel_ok key (unshare k).
Proof.
  intros [K1 K2 K3 K4 K5 K6 K7 K8]. split; try done.
  - intros n p f. rewrite mounts_unshared. case_bool_decide; apply K1.
  - intros n l. simpl. intros [[<- _]|[_ Hn]]%lookup_insert_Some; [lia|]. apply K4 in Hn. lia.
  - simpl. lia.
  - simpl. rewrite lookup_insert_eq. by eexists.
  - apply (same_reach k); [done| |done]. rewrite mounts_unshared. rewrite bool_decide_eq_false_2 by lia. done.
Qed.

Lemma mounts_changed k (f : nat → list (Path * nat) → list (Path * nat)) n : default [] (map_imap (λ n l, Some (f n l)) (mounts k) !! n) =
  match mounts k !! n with Some l => f n l | None => [] end.
Proof. rewrite map_lookup_imap. by destruct (mounts k !! n). Qed.

(** A mount of a thread alone in its namespace does not reach the host. *)
Lemma unreached k : ns k ≠ 0%nat → default false (shared k !! ns k) = false → reached k 0 = false.
Proof. intros Hn Ha. unfold reached. rewrite Ha, bool_decide_eq_false_2 by done. done. Qed.

Lemma mount_ok path k : kernel_ok key k → ns k ≠ 0%nat → default false (shared k !! ns k) = false → kernel_ok key (mount_tmpfs path k).
Proof.
  intros [K1 K2 K3 K4 K5 K6 K7 K8] Hn Ha. split; try done.
  - intros n p f Hin. unfold mounts_of in Hin. simpl in *. rewrite mounts_changed in Hin. specialize (K1 n p f). unfold mounts_of in K1.
    destruct (mounts k !! n) as [l|]; [|by apply elem_of_nil in Hin]. simpl in K1. destruct (reached k n).
    + apply elem_of_cons in Hin as [[= -> ->]|Hin]; [lia|]. apply K1 in Hin. lia.
    + apply K1 in Hin. lia.
  - intros f p c Hc. simpl in *. apply K2 in Hc. lia.
  - simpl. lia.
  - intros n l. simpl. rewrite map_lookup_imap. destruct (mounts k !! n) eqn:E; [|done]. intros _. by eapply K4.
  - simpl. rewrite map_lookup_imap. destruct K6 as [l ->]. simpl. by eexists.
  - apply (same_reach k); [done| |done]. unfold mounts_of. simpl. rewrite mounts_changed, unreached by done. by destruct (mounts k !! 0%nat).
Qed.

Lemma umounted_ok path k : kernel_ok key k → absent key k → kernel_ok key (umount path k).2 ∧ absent key (umount path k).2.
Proof.
  intros Hk Ha. unfold umount, syscall. destruct (refused k (calls k)); [split; [by apply note_ok|done]|].
  destruct (is_mount k path); simpl; [|split; [by apply note_ok|done]]. split; [|done]. apply note_ok. destruct Hk as [K1 K2 K3 K4 K5 K6 K7 K8]. split; try done.
  - intros n p f Hin. unfold mounts_of in Hin. simpl in *. rewrite mounts_changed in Hin. specialize (K1 n p f). unfold mounts_of in K1.
    destruct (mounts k !! n) as [l|]; [|by apply elem_of_nil in Hin]. simpl in K1. apply K1. destruct (reached k n); [|done]. clear K1.
    induction l as [|m l IH]; [done|]. simpl in Hin. case_bool_decide; [by right|]. apply elem_of_cons in Hin as [->|Hin]; [by left|right; auto].
  - intros n l. simpl. rewrite map_lookup_imap. destruct (mounts k !! n) eqn:E; [|done]. intros _. by eapply K4.
  - simpl. rewrite map_lookup_imap. destruct K6 as [l ->]. simpl. by eexists.
  - intros f p Hc. by destruct (Ha (f, p)).
Qed.

(** What [MemoryPrivateFilesystem::new] has made: an empty filesystem at [path], in a namespace of the thread alone *)
Record private (path : Path) (k : Kernel) : Prop := {
  pr_absent : absent key k;
  pr_ns : ns k ≠ 0%nat;
  pr_alone : default false (shared k !! ns k) = false;
  pr_fs : ∃ F l, mounts_of k (ns k) = (path, F) :: l ∧ F ≠ 0%nat ∧ (∀ p, (p, F) ∉ mounts_of k 0) ∧ ∀ p, files k !! (F, p) = None }.

Lemma mounted path k : kernel_ok key k → absent key k → ns k ≠ 0%nat → default false (shared k !! ns k) = false → private path (mount_tmpfs path k).
Proof.
  intros Hk Ha Hn Hal. pose proof (unreached k Hn Hal) as Hr. split; try done. exists (next_fs k), (mounts_of k (ns k)). split_and!.
  - unfold mounts_of. simpl. rewrite mounts_changed. destruct (ok_thread _ _ Hk) as [l ->]. unfold reached. by rewrite bool_decide_eq_true_2.
  - pose proof (ok_disk _ _ Hk). lia.
  - intros p Hin. unfold mounts_of in Hin. simpl in Hin. rewrite mounts_changed in Hin. pose proof (ok_fs _ _ Hk 0 p (next_fs k)) as Hlt.
    unfold mounts_of in Hlt. rewrite Hr in Hin. destruct (mounts k !! 0%nat); [|by apply elem_of_nil in Hin]. apply Hlt in Hin. lia.
  - intros p. simpl. destruct (files k !! (next_fs k, p)) as [c|] eqn:E; [|done]. apply (ok_files _ _ Hk) in E. lia.
Qed.

Lemma keeps_root (P : Kernel → Prop) : (∀ k, P k → P (note k)) →
  keeps P is_in_root_namespace (λ root k, P k ∧ root = bool_decide (0%nat = ns k)) P.
Proof.
  intros HP. unfold is_in_root_namespace. eapply (keeps_bind _ _ _ (λ z k, P k ∧ z = 0%nat)).
  { apply keeps_syscall; [|done]. intros k Hk Hp. simpl. auto. }
  intros z. eapply (keeps_bind _ _ _ (λ n k, (P k ∧ z = 0%nat) ∧ n = ns k)).
  { apply keeps_syscall; [|naive_solver]. intros k Hk [Hp ->]. simpl. auto. }
  intros n. apply keeps_ret. intros k [[Hp ->] ->]. done.
Qed.

(** a call that [f] describes and that keeps the key out *)
Lemma keeps_succeeds (f : Kernel → Kernel) (P : Kernel → Prop) (Q : Kernel → Prop) :
  (∀ k, kernel_ok key k → P k → kernel_ok key (f k) ∧ Q (note (f k))) → (∀ k, P k → absent key k) →
  keeps P (syscall (succeeds f)) (λ _, Q) (absent key).
Proof. intros Hf HP. apply keeps_syscall; [|intros k Hp; exact (HP k Hp)]. intros k Hk Hp. simpl. by apply Hf. Qed.

Lemma keeps_new random : keeps (absent key) (MemoryPrivateFilesystem_new random) private (absent key).
Proof.
  unfold MemoryPrivateFilesystem_new. assert (Hn : ∀ k, absent key k → absent key (note k)) by done.
  assert (Hq : ∀ {A} (f : Kernel → A), keeps (absent key) (syscall (asks f)) (λ _, absent key) (absent key)).
  { intros A f. apply keeps_syscall; [|done]. intros k Hk Ha. by simpl. }
  eapply (keeps_bind _ _ _ (λ _, absent key)); [intros k Hk Ha; simpl; split; [by apply note_ok|done]|]. intros there.
  eapply (keeps_bind _ _ _ (λ _, absent key)).
  { destruct there; [|by apply keeps_err].
    eapply (keeps_bind _ _ _ (λ _, absent key)); [intros k Hk Ha; simpl; split; [by apply note_ok|done]|]. intros dir.
    destruct dir; simpl; [|by apply keeps_err]. eapply keeps_bind; [apply Hq|]. intros d1. cbv beta. eapply keeps_bind; [apply Hq|]. intros d2. cbv beta.
    case_bool_decide; [by apply keeps_err|by apply keeps_ret]. }
  intros ?. cbv beta zeta. eapply keeps_bind; [apply (keeps_succeeds _ _ (absent key)); [|done]; intros k Hk Ha; split; [by apply dirs_ok|done]|]. intros ?. cbv beta.
  eapply keeps_bind; [by apply keeps_root|]. intros root. cbv beta. eapply (keeps_bind _ _ _ (λ _, absent key)).
  { destruct root; [|apply keeps_ret; naive_solver]. apply keeps_succeeds; [|naive_solver]. intros k Hk [Ha _]. split; [by apply unshare_ok|done]. }
  intros ?. cbv beta. eapply keeps_bind; [by apply keeps_root|]. intros root'. cbv beta. destruct root'; [apply keeps_err; naive_solver|].
  eapply (keeps_bind _ _ _ (λ _ k, absent key k ∧ ns k ≠ 0%nat ∧ default false (shared k !! ns k) = false)).
  { apply keeps_succeeds; [|naive_solver]. intros k Hk [Ha E]. split; [by apply shared_ok|]. simpl. rewrite lookup_insert_eq. split_and!; [done| |done].
    intros E0. rewrite bool_decide_eq_true_2 in E; done. }
  intros ?. cbv beta. eapply (keeps_bind _ _ _ (λ _, private (push TMPFS_LOCATION random))); [|intros ?; by apply keeps_ret].
  apply keeps_succeeds; [|naive_solver]. intros k Hk (Ha & Hns & Hal). split; [by apply mount_ok|]. by destruct (mounted (push TMPFS_LOCATION random) k).
Qed.

(** *** The operations *)

Lemma prefix_refl p q : is_prefix p (p ++ q) = true.
Proof. induction p as [|a p IH]; [done|]. simpl. by rewrite bool_decide_eq_true_2, IH. Qed.

(** a path below the private filesystem leads to a file that does not exist yet *)
Lemma private_apart self path k : private self k → is_prefix self path = true → apart path (λ c, c = None) k.
Proof.
  intros [Ha Hn Hal (F & l & Em & H0 & Hhost & Hnone)] Hp.
  assert (EF : fs_at k (ns k) path = F) by (unfold fs_at; rewrite Em; simpl; by rewrite Hp).
  split; try done.
  - rewrite EF. unfold fs_at. destruct (List.find _ _) as [[q f]|] eqn:E; [|done]. apply find_some in E as [Hin _]. apply list_elem_of_In in Hin.
    intros ->. by apply (Hhost q).
  - unfold here. by rewrite EF.
Qed.

Lemma keyfile_used root self path (r : res unit) k : kernel_ok key k → private self k → is_prefix self path = true →
  let m := (MemoryMappedKeyfile_new root path key ;;! finally (ilift r) (MemoryMappedKeyfile_drop path key)) in
  kernel_ok key (m k).2 ∧ absent key (m k).2.
Proof.
  intros Hk Hp Hpre. destruct (keeps_keyfile root path k Hk (private_apart _ _ _ Hp Hpre)) as [K1 A1]. unfold ibind, finally, ilift.
  destruct (MemoryMappedKeyfile_new root path key k) as [[[]|e|w] k1]; simpl in *.
  - destruct (drop_keyfile path k1 K1 A1) as [K2 A2]. split; [done|by eapply apart_absent].
  - split; [done|by eapply apart_absent].
  - split; [done|by eapply apart_absent].
Qed.

Lemma used_privately random use k : kernel_ok key k → absent key k →
  (∀ self k, kernel_ok key k → private self k → kernel_ok key (use self k).2 ∧ absent key (use self k).2) →
  kernel_ok key (with_private_fs random use k).2 ∧ absent key (with_private_fs random use k).2.
Proof.
  intros Hk Ha Huse. unfold with_private_fs, ibind, finally. destruct (keeps_new random k Hk Ha) as [K1 A1].
  destruct (MemoryPrivateFilesystem_new random k) as [[self|e|w] k1]; simpl in *; [|done..].
  destruct (Huse self k1 K1 A1) as [K2 A2]. destruct (use self k1) as [r k2]. by apply umounted_ok.
Qed.
End keeping.

(** a name without a slash, other than [..], stays below *)
Lemma push_below path s : 47 ∉ s → s ≠ [46; 46] → is_prefix path (push path s) = true.
Proof.
  intros Hs Hd. assert (Hsp : ∀ name, split_slash name s = [reverse name ++ s]).
  { clear Hd. induction s as [|c s IH]; intros name; simpl; [by rewrite app_nil_r|]. apply not_elem_of_cons in Hs as [Hc Hs].
    destruct (Z.eqb_spec c 47); [by subst|]. rewrite IH by done. by rewrite reverse_cons, <-app_assoc. }
  assert (Hw : is_prefix path (walk path (names s)) = true).
  { unfold names. rewrite Hsp. change (reverse [] ++ s) with s. rewrite filter_cons. destruct (decide _) as [_|_]; simpl.
    - rewrite bool_decide_eq_false_2 by done. apply prefix_refl.
    - rewrite <-(app_nil_r path) at 2. apply prefix_refl. }
  unfold push. destruct s as [|c s]; [rewrite <-(app_nil_r path) at 2; apply prefix_refl|].
  apply not_elem_of_cons in Hs as [Hc _]. destruct (Z.eqb_spec c 47); [by subst|done].
Qed.

(** C23: For a key description without a slash and other than [..] (the description names the file, and with others the claim is false:
    [description_exposes_key]) and a key that is not all zeros (a wiped file holds zeros), on a host where no file holds the key before: a key handed to Clevis
    is never within reach of the host and does not stay behind.  Whatever calls fail, and
    whatever comes of the operation, after each call no file that the host can reach holds the key, and in the end no file holds it, be it
    that of a key description or a random one. *)
Theorem key_files_private root random key_desc key_data f k :
  kernel_ok key_data k → absent key_data k → key_data ≠ replicate (length key_data) 0 → 47 ∉ key_desc → key_desc ≠ [46; 46] →
  (let k' := (with_private_fs random (λ fs, key_op root fs key_desc (Ok (Some key_data)) f) k).2 in
   Forall (λ view, key_data ∉ view) (history k') ∧ absent key_data k') ∧
  (let k' := (with_private_fs random (λ fs, rand_key_op root fs key_desc (Ok key_data) f) k).2 in
   Forall (λ view, key_data ∉ view) (history k') ∧ absent key_data k').
Proof.
  intros Hk Ha Hz Hs Hd.
  assert (Huse : ∀ self k, kernel_ok key_data k → private key_data self k →
    kernel_ok key_data (rand_key_op root self key_desc (Ok key_data) f k).2 ∧ absent key_data (rand_key_op root self key_desc (Ok key_data) f k).2).
  { intros self k0 Hk0 Hp. apply (keyfile_used key_data Hz root self); [done|done|by apply push_below]. }
  split.
  - destruct (used_privately key_data random (λ fs, key_op root fs key_desc (Ok (Some key_data)) f) k Hk Ha Huse) as [K A]. split; [apply K|done].
  - destruct (used_privately key_data random (λ fs, rand_key_op root fs key_desc (Ok key_data) f) k Hk Ha Huse) as [K A]. split; [apply K|done].
Qed.

(** ** Examples *)

(** A host where the daemon has mounted the shared tmpfs *)
Definition a_host : Kernel :=
  mkKernel 0 1 {[0%nat := [(TMPFS_LOCATION, 1%nat)]]} {[0%nat := true]} 2 {[(0%nat, [str "etc"])]} ∅ 0 (λ _, false) [].
Definition a_key : list Z := [1; 2; 3].
Definition use_key (key_desc : Str) : res unit * Kernel :=
  with_private_fs (str "x") (λ fs, key_op true fs key_desc (Ok (Some a_key)) (λ _, Ok tt)) a_host.

Lemma a_host_ok : kernel_ok a_key a_host ∧ absent a_key a_host.
Proof.
  split; [|done]. split; try done; try (simpl; lia).
  - intros [|n] p f Hin.
    + change (mounts_of a_host 0) with [(TMPFS_LOCATION, 1%nat)] in Hin. apply list_elem_of_singleton in Hin as [= -> ->]. simpl. lia.
    + assert (mounts_of a_host (S n) = []) as E by (unfold mounts_of, a_host; cbn [mounts]; by rewrite lookup_singleton_ne). rewrite E in Hin. by apply elem_of_nil in Hin.
  - intros n l Hn. unfold a_host in Hn. cbn [mounts] in Hn. apply lookup_singleton_Some in Hn as [<- _]. simpl. lia.
Qed.

Lemma key_files_private_witness :
  (use_key (str "key")).1 = Ok tt ∧
  (let k' := (use_key (str "key")).2 in Forall (λ view, a_key ∉ view) (history k') ∧ absent a_key k').
Proof.
  split; [vm_compute; reflexivity|]. destruct a_host_ok as [Hk Ha].
  refine (proj1 (key_files_private true (str "x") (str "key") a_key (λ _, Ok tt) a_host Hk Ha _ _ _)).
  - vm_compute. discriminate.
  - apply (bool_decide_unpack _). vm_compute. exact I.
  - vm_compute. discriminate.
Defined.

(** The description of a key may be an absolute path, or lead out of the private filesystem: the key is then written where the host sees it. *)
Lemma description_exposes_key :
  (use_key (str "/etc/k")).1 = Ok tt ∧ (∃ view, view ∈ history (use_key (str "/etc/k")).2 ∧ a_key ∈ view) ∧
  (use_key (str "../k")).1 = Ok tt ∧ (∃ view, view ∈ history (use_key (str "../k")).2 ∧ a_key ∈ view).
Proof.
  split; [vm_compute; reflexivity|]. split; [exists [a_key]; split; apply (bool_decide_unpack _); vm_compute; exact I|].
  split; [vm_compute; reflexivity|]. exists [a_key]; split; apply (bool_decide_unpack _); vm_compute; exact I.
Qed.

(** The directory the private filesystem was mounted on is left behind on the tmpfs of the daemon. *)
Lemma directory_left : (1%nat, push TMPFS_LOCATION (str "x")) ∈ dirs (use_key (str "key")).2.
Proof. apply (bool_decide_unpack _). vm_compute. exact I. Qed.
