(* ===== verification/Reports.v ===== *)
(** * The reports of the engine

    Models the conversions to JSON ([Into<Value>]) of the engine and of what it keeps: pools, thin pools, backstores, block devices, and the
    devices that wait for others.  [uuid_text] is [Display] of a [Uuid], [major] and [minor] the parts of a device number (crate devicemapper). *)
From stdpp Require Import base list gmap strings.
From Stdlib Require Import ZArith Lia.
From S2P Require Import Prelude Disk Sizes External Json Table Actions Shared StaticHeader MDA BDA System Names Crypt BlockDev Devices BlockDevMgr Bindings Setup RangeAlloc Tiers Dm Mdv Backstore ThinPool Pool PoolSpec FsSpec ThinPoolSpec BackstoreSpec PoolMetadata PoolOps DeviceSet Identify Liminal Engine EngineSpec EngineApi.

Section values.
Context (uuid_text : Z → Str) (major minor : Z → Z).

Definition text (key : string) (value : Str) : Str * Value := (str key, VString value).

(** [Map::extend] *)
Definition extended (m : list (Str * Value)) (more : list (Str * Value)) : list (Str * Value) := foldl (λ m '(k, v), map_insert k v m) m more.

(** [Into<Value> for &EncryptionInfo]: the entries of the object *)
Definition EncryptionInfo_map (self : EncryptionInfo) : list (Str * Value) :=
  let json := match key_description self with Some kd => map_insert (str "key_description") (VString kd) [] | None => [] end in
  match clevis_info self with
  | Some (pin, config) => map_insert (str "clevis_config") config (map_insert (str "clevis_pin") (VString pin) json)
  | None => json
  end.

Definition StratisIdentifiers_map (self : StratisIdentifiers) : list (Str * Value) :=
  extended [] [text "pool_uuid" (uuid_text (StaticHeader.pool_uuid self)); text "device_uuid" (uuid_text (device_uuid self))].
Definition StratisInfo_map (self : StratisInfo) : list (Str * Value) :=
  extended (extended [] [(str "major", Number (PosInt (major (device_number self)))); (str "minor", Number (PosInt (minor (device_number self))));
                         text "devnode" (Setup.devnode self)])
    (StratisIdentifiers_map (si_identifiers self)).
Definition LLuksInfo_map (self : LLuksInfo) : list (Str * Value) := extended (StratisInfo_map (luks_ids self)) (EncryptionInfo_map (luks_encryption_info self)).
Definition LStratisInfo_map (self : LStratisInfo) : list (Str * Value) :=
  extended (match luks self with Some l => [(str "luks", Object (LLuksInfo_map l))] | None => [] end) (StratisInfo_map (ids self)).
Definition LInfo_value (self : LInfo) : Value :=
  match self with LStratis info => Object (LStratisInfo_map info) | LLuks info => Object (LLuksInfo_map info) end.
Definition DeviceSet_value (self : DeviceSet) : Value := Array ((λ x, LInfo_value x.2) <$> DSet.iter self).
Definition DeviceBag_value (self : DeviceBag) : Value := Array (LInfo_value <$> self).
Definition LiminalDevices_map (self : LiminalDevices) : list (Str * Value) :=
  extended []
    [(str "errored_pools", Array ((λ '(uuid, map), object [text "pool_uuid" (uuid_text uuid); (str "devices", DeviceSet_value map)])
        <$> map_to_list (errored_pool_devices self)));
     (str "hopeless_devices", Array ((λ '(uuid, set), object [text "pool_uuid" (uuid_text uuid); (str "devices", DeviceBag_value set)])
        <$> map_to_list (hopeless_device_sets self)))].

Definition StratBlockDev_value (self : StratBlockDev) : Value :=
  Object (extended (extended [] [text "path" (UD.physical_path (underlying_device self)); text "uuid" (uuid_text (Bda.dev_uuid (bda self)))])
    (match UD.crypt_handle (underlying_device self) with Some ch => EncryptionInfo_map (ch_encryption_info ch) | None => [] end)).
End values.

Section engine_values.
Context `{Crc32c} `{Chrono} `{Cryptsetup} `{!Devicemapper} `{UuidDisplay} `{ClevisCodec} `{DmNames} `{FsSerde} `{PoolSerde}.
Context (major minor : Z → Z).
Notation uuid_text := uuid_to_string.

Definition ThinPool_map (self : TP.ThinPool) : list (Str * Value) :=
  extended [] [(str "filesystems", Array ((λ '(name, uuid, _), object [text "name" name; text "uuid" (uuid_text uuid)]) <$> Tbl.iter (TP.filesystems self)))].
Definition Backstore_map (self : Backstore) : list (Str * Value) :=
  extended [] [(str "blockdevs", object
    [(str "datadevs", Array ((λ x, StratBlockDev_value uuid_text x.2) <$> BS.datadevs self));
     (str "cachedevs", Array ((λ x, StratBlockDev_value uuid_text x.2) <$> BS.cachedevs self))])].
Definition StratPool_map (self : SPool.StratPool) : list (Str * Value) :=
  extended (extended [] (ThinPool_map (SPool.thin_pool self))) (Backstore_map (SPool.backstore self)).

Definition engine_state_report (self : SEng.StratEngine) : Value :=
  Object (extended
    (extended [] [(str "pools", Array ((λ '(name, uuid, pool),
       Object (extended (extended [] [text "uuid" (uuid_text uuid); text "name" name]) (StratPool_map pool))) <$> Tbl.iter (SEng.pools self)))])
    (LiminalDevices_map uuid_text major minor (SEng.liminal_devices self))).
Definition get_report (self : SEng.StratEngine) (report_type : ReportType) : Value :=
  match report_type with ErroredPoolDevices => Object (LiminalDevices_map uuid_text major minor (SEng.liminal_devices self)) end.

(** ** What the report tells *)

(** [v] tells which device [info] is *)
Definition tells_device (v : Value) (info : LInfo) : Prop :=
  let ids := LI.stratis_identifiers info in
  let devnode := match info with LStratis i => Setup.devnode (Setup.ids i) | LLuks i => Setup.devnode (luks_ids i) end in
  Value_get (str "pool_uuid") v = Some (VString (uuid_text (StaticHeader.pool_uuid ids))) ∧
  Value_get (str "device_uuid") v = Some (VString (uuid_text (device_uuid ids))) ∧
  Value_get (str "devnode") v = Some (VString devnode) ∧
  Value_get (str "key_description") (match info with LStratis i => default v (Value_get (str "luks") v) | LLuks _ => v end) =
    VString <$> (LI.encryption_info info ≫= key_description).

(** [v] tells a pool, its filesystems, and which devices it has *)
Definition tells_pool (v : Value) (x : Str * Z * SPool.StratPool) : Prop :=
  let '(name, uuid, pool) := x in
  Value_get (str "uuid") v = Some (VString (uuid_text uuid)) ∧ Value_get (str "name") v = Some (VString name) ∧
  (∃ fss, Value_get (str "filesystems") v = Some (Array fss) ∧
     (λ f, (Value_get (str "name") f, Value_get (str "uuid") f)) <$> fss =
     (λ y, (Some (VString y.1.1), Some (VString (uuid_text y.1.2)))) <$> Tbl.iter (TP.filesystems (SPool.thin_pool pool))) ∧
  ∃ data cache, (Value_get (str "blockdevs") v ≫= Value_get (str "datadevs")) = Some (Array data) ∧
    (Value_get (str "blockdevs") v ≫= Value_get (str "cachedevs")) = Some (Array cache) ∧
    (λ d, (Value_get (str "path") d, Value_get (str "uuid") d)) <$> data ++ cache =
    (λ y, (Some (VString (SBD.physical_path y.2)), Some (VString (uuid_text (SBD.uuid y.2))))) <$>
      BS.datadevs (SPool.backstore pool) ++ BS.cachedevs (SPool.backstore pool).

Lemma LInfo_told info : tells_device (LInfo_value uuid_text major minor info) info.
Proof.
  destruct info as [[i [[li [[kd|] [[pin c]|]]]|]]|[li [[kd|] [[pin c]|]]]]; split_and!; vm_compute; reflexivity.
Qed.

Lemma blockdev_told d : Value_get (str "path") (StratBlockDev_value uuid_text d) = Some (VString (SBD.physical_path d)) ∧
  Value_get (str "uuid") (StratBlockDev_value uuid_text d) = Some (VString (uuid_text (SBD.uuid d))).
Proof.
  unfold StratBlockDev_value, SBD.physical_path, SBD.uuid. destruct (UD.crypt_handle _) as [ch|]; [|by split].
  destruct (ch_encryption_info ch) as [[kd|] [[pin c]|]]; by split.
Qed.

Lemma pool_told x : tells_pool ((λ '(name, uuid, pool),
  Object (extended (extended [] [text "uuid" (uuid_text uuid); text "name" name]) (StratPool_map pool))) x) x.
Proof.
  destruct x as [[name uuid] pool]. split; [reflexivity|]. split; [reflexivity|]. split.
  - eexists. split; [reflexivity|]. rewrite <- list_fmap_compose. apply list_fmap_ext. by intros i [[m u] f] _.
  - eexists _, _. split; [reflexivity|]. split; [reflexivity|]. rewrite <-fmap_app, <- list_fmap_compose. apply list_fmap_ext. intros i [u d] _.
    unfold compose. cbn [snd]. destruct (blockdev_told d) as [E1 E2]. f_equal; [exact E1|exact E2].
Qed.

(** the pools with devices that wait, or that cannot be used *)
Definition tells_devices (v : Value) (uuid : Z) (infos : list LInfo) : Prop :=
  Value_get (str "pool_uuid") v = Some (VString (uuid_text uuid)) ∧
  ∃ ds, Value_get (str "devices") v = Some (Array ds) ∧ Forall2 tells_device ds infos.

Lemma told {A} (f : A → Value) (P : Value → A → Prop) l : (∀ x, P (f x) x) → Forall2 P (f <$> l) l.
Proof. intros Hf. apply Forall2_fmap_l, Forall_Forall2_diag, Forall_true. exact Hf. Qed.

(** C40: The report of the engine is complete and unambiguous: it tells every running pool with its name, filesystems and devices, every pool
    with devices that wait for others or that cannot be used with each of these devices, and no pool twice; merging the entries of the parts into one object
    hides none. *)
Theorem engine_report_exact e : engine_ok e →
  ∃ ps es hs,
    Value_get (str "pools") (engine_state_report e) = Some (Array ps) ∧
    Value_get (str "errored_pools") (engine_state_report e) = Some (Array es) ∧
    Value_get (str "hopeless_devices") (engine_state_report e) = Some (Array hs) ∧
    Value_get (str "errored_pools") (get_report e ErroredPoolDevices) = Some (Array es) ∧
    Forall2 tells_pool ps (Tbl.iter (SEng.pools e)) ∧
    Forall2 (λ v x, tells_devices v x.1 (DSet.iter x.2).*2) es (map_to_list (errored_pool_devices (SEng.liminal_devices e))) ∧
    Forall2 (λ v x, tells_devices v x.1 x.2) hs (map_to_list (hopeless_device_sets (SEng.liminal_devices e))) ∧
    NoDup ((Tbl.iter (SEng.pools e)).*1.*2 ++ (map_to_list (errored_pool_devices (SEng.liminal_devices e))).*1 ++
           (map_to_list (hopeless_device_sets (SEng.liminal_devices e))).*1).
Proof.
  intros [_ [_ Hd] Hr]. do 3 eexists. do 4 (split; [reflexivity|]). split; [apply told, pool_told|]. split; [|split].
  - apply told. intros [u ds]. split; [reflexivity|]. eexists. split; [reflexivity|]. apply Forall2_fmap_r, told. intros [d info]. apply LInfo_told.
  - apply told. intros [u infos]. split; [reflexivity|]. eexists. split; [reflexivity|]. apply told. apply LInfo_told.
  - assert (Hp : ∀ u, u ∈ (Tbl.iter (SEng.pools e)).*1.*2 → is_Some (Tbl.get_by_uuid (SEng.pools e) u)).
    { intros u (y & -> & Hy)%list_elem_of_fmap. apply list_elem_of_fmap in Hy as ([[n v] p] & -> & Hx). apply list_elem_of_fmap in Hx as ([v' [n' p']] & [= -> -> ->] & Hx).
      apply elem_of_map_to_list in Hx. by eexists. }
    assert (Hk : ∀ {A} (m : gmap Z A) u, u ∈ (map_to_list m).*1 → is_Some (m !! u)).
    { intros A m u (y & -> & Hy)%list_elem_of_fmap. destruct y as [v a]. apply elem_of_map_to_list in Hy. by eexists. }
    assert (Hn : (Tbl.iter (SEng.pools e)).*1.*2 = (map_to_list (items (SEng.pools e))).*1).
    { unfold Tbl.iter. rewrite <-!list_fmap_compose. apply list_fmap_ext. by intros i [u [n p]] _. }
    apply NoDup_app. split; [rewrite Hn; apply NoDup_fst_map_to_list|]. split.
    + intros u Hu [He|Hh]%elem_of_app; apply Hp, Hr in Hu as [E1 E2]; [apply Hk in He as [? ?]|apply Hk in Hh as [? ?]]; congruence.
    + apply NoDup_app. split; [apply NoDup_fst_map_to_list|]. split; [|apply NoDup_fst_map_to_list].
      intros u [ds He]%Hk [b Hh]%Hk. rewrite (Hd u ds He) in Hh. done.
Qed.
End engine_values.

(** ** Witness: an engine with one pool *)

Section examples.
#[local] Existing Instance hex_instance.
#[local] Existing Instance simple_display.
#[local] Existing Instance script_crypt.
#[local] Existing Instance script_dm.
#[local] Existing Instance example_codec.
#[local] Existing Instance dm_lengths.
#[local] Existing Instance any_time.
#[local] Existing Instance crc32c_instance.
#[local] Existing Instance ex_serde.
#[local] Existing Instance example_pool_serde.

Lemma one_pool_ok : engine_ok one_pool.
Proof. split; [apply one_pool_table|by split|by intros u [x Hx]]. Qed.

Lemma engine_report_exact_witness :
  ∃ v, Value_get (str "pools") (engine_state_report id id one_pool) = Some (Array [v]) ∧ Value_get (str "name") v = Some (VString (str "pool")).
Proof.
  destruct (engine_report_exact id id one_pool one_pool_ok) as (ps & es & hs & Hp & _ & _ & _ & Hps & _).
  assert (Tbl.iter (SEng.pools one_pool) = [(str "pool", 7, ex_spool)]) as E by reflexivity.
  rewrite E in Hps. apply Forall2_cons_inv_r in Hps as (v & l & Hv & Hl & ->). apply Forall2_nil_inv_r in Hl as ->.
  exists v. split; [exact Hp|]. apply Hv.
Defined.
End examples.
