(* ===== verification/Daemon.v ===== *)
(** * The threads of the daemon

    Models the main task ([stratis/run.rs]) with the threads it starts: the udev thread ([stratis/udev_monitor.rs]), the D-Bus threads
    ([stratis/ipc_support/dbus_support.rs] and the loops of [dbus_api/connection.rs]) and the devicemapper thread ([stratis/dm.rs]);
    the devicemapper handle ([engine/strat_engine/dm.rs]) and the notification of systemd ([systemd/mod.rs]).  The threads run
    interleaved, as a step relation.  Known of tokio are the channels, the order in which a runtime is shut down, and that it waits
    for its blocking threads. *)
From stdpp Require Import base list relations functions strings.
From Stdlib Require Import ZArith Lia.
From S2P Require Import Prelude External Shared.
Local Open Scope nat_scope.

(** ** Devicemapper events

    The kernel counts the events; the file of the handle is readable while the count differs from the one at the last [arm_poll].  [ready] is
    tokio's flag, set by an event that makes the file readable and cleared by [clear_ready]. *)

Inductive Pc : Type :=
  | Waiting                (**r [fd.readable().await] *)
  | Woken                  (**r holds the guard *)
  | Cleared                (**r after [guard.clear_ready()] *)
  | Armed                  (**r [engine.lock().await] *)
  | Looking (count : nat). (**r in [evented], called when [count] events had happened *)

Record DmThread : Type := mkDmThread {
  events : nat;      (* happened so far *)
  armed_at : nat;
  ready : bool;
  pc : Pc;
  looked_at : nat;   (* events when [evented] was last called and succeeded *)
  failed : bool      (* the last run of [process_dm_event] gave an error, which was logged *)
}.

(** [AsyncFd::new] after the engine has started: the handle was opened at [opened] events *)
Definition dm_started (opened count : nat) : DmThread := mkDmThread count opened (negb (bool_decide (count = opened))) Waiting opened false.

(** the steps of [process_dm_event] in the loop of [dm_event_thread], and the events *)
Inductive dm_step : DmThread → DmThread → Prop :=
  | dm_event t : dm_step t (mkDmThread (S (events t)) (armed_at t) (ready t || negb (bool_decide (S (events t) = armed_at t))) (pc t) (looked_at t) (failed t))
  | dm_readable t : pc t = Waiting → ready t = true → dm_step t (mkDmThread (events t) (armed_at t) (ready t) Woken (looked_at t) (failed t))
  | dm_unreadable t : pc t = Waiting → dm_step t (mkDmThread (events t) (armed_at t) (ready t) Waiting (looked_at t) true)
  | dm_clear t : pc t = Woken → dm_step t (mkDmThread (events t) (armed_at t) false Cleared (looked_at t) (failed t))
  | dm_arm t : pc t = Cleared → dm_step t (mkDmThread (events t) (events t) (ready t) Armed (looked_at t) (failed t))
  | dm_arm_fails t : pc t = Cleared → dm_step t (mkDmThread (events t) (armed_at t) (ready t) Waiting (looked_at t) true)
  | dm_lock t : pc t = Armed → dm_step t (mkDmThread (events t) (armed_at t) (ready t) (Looking (events t)) (looked_at t) (failed t))
  | dm_evented t n : pc t = Looking n → dm_step t (mkDmThread (events t) (armed_at t) (ready t) Waiting n false)
  | dm_evented_fails t n : pc t = Looking n → dm_step t (mkDmThread (events t) (armed_at t) (ready t) Waiting (looked_at t) true).

(** what holds of the thread at each point *)
Record dm_ok (t : DmThread) : Prop := {
  dm_behind : armed_at t ≤ events t ∧ looked_at t ≤ events t;
  dm_covered : match pc t with
               | Waiting => failed t = true ∨ ready t = true ∨ looked_at t = events t
               | Looking n => ready t = true ∨ n = events t
               | _ => True
               end
}.

Lemma dm_step_ok t t' : dm_step t t' → (∀ n, pc t = Looking n → n ≤ events t) → dm_ok t → dm_ok t' ∧ (∀ n, pc t' = Looking n → n ≤ events t').
Proof.
  intros Hs Hn [[H1 H2] Hc]. destruct Hs as [t|t E Er|t E|t E|t E|t E|t E|t n E|t n E]; try rewrite E in Hc; simpl in *.
  1: { rewrite bool_decide_false by lia. rewrite orb_true_r. split; [split; simpl; [lia|]|].
       - destruct (pc t); auto.
       - intros n E. specialize (Hn n E). lia. }
  all: split; [split; simpl; [|try done; auto]|try done; intros m [= <-]; lia].
  all: try lia. specialize (Hn n E). lia.
Qed.

(** C24: No devicemapper event is missed: whenever the devicemapper thread waits and nothing will wake it, and its last look did not fail, the engine
    was called, successfully, after the last event happened, however events come while the thread wakes, re-arms the poll, waits for the engine's lock or
    is in the engine. *)
Theorem dm_events_not_missed opened count t : (opened ≤ count)%nat → rtc dm_step (dm_started opened count) t →
  pc t = Waiting → ready t = false → failed t = false → looked_at t = events t.
Proof.
  intros Ho Hrun Hp Hr Hf. assert (dm_ok t ∧ (∀ n, pc t = Looking n → n ≤ events t)) as [[_ Hc] _].
  - assert (dm_ok (dm_started opened count) ∧ (∀ n, pc (dm_started opened count) = Looking n → n ≤ events (dm_started opened count))) as H0.
    { split; [|done]. split; simpl; [lia|]. case_bool_decide; simpl; auto. }
    clear Hp Hr Hf. induction Hrun as [|a b c Hab _ IH]; [done|]. apply IH. destruct H0. by eapply dm_step_ok.
  - rewrite Hp, Hr, Hf in Hc. naive_solver.
Qed.

(** An event comes, the thread wakes and re-arms; a second event comes before the engine is called, which sees both. *)
Definition two_events : DmThread := mkDmThread 2 1 true Waiting 2 false.
Lemma two_events_run : rtc dm_step (dm_started 0 0) two_events.
Proof.
  eapply rtc_l; [apply dm_event|]. eapply rtc_l; [by apply dm_readable|]. eapply rtc_l; [by apply dm_clear|]. eapply rtc_l; [by apply dm_arm|].
  eapply rtc_l; [apply dm_event|]. eapply rtc_l; [by apply dm_lock|]. eapply rtc_l; [by apply dm_evented|]. simpl. done.
Qed.
(** It is woken once more, for the second event. *)
Lemma dm_events_not_missed_witness : ∃ t, rtc dm_step two_events t ∧ looked_at t = events t ∧ ready t = false.
Proof.
  set (t := mkDmThread 2 2 false Waiting 2 false).
  assert (rtc dm_step two_events t) as Ht.
  { eapply rtc_l; [by apply dm_readable|]. eapply rtc_l; [by apply dm_clear|]. eapply rtc_l; [by apply dm_arm|].
    eapply rtc_l; [by apply dm_lock|]. eapply rtc_l; [by apply dm_evented|]. done. }
  exists t. split; [exact Ht|]. split; [|reflexivity].
  exact (dm_events_not_missed 0 0 t (le_n 0) (PreOrder_Transitive _ _ _ two_events_run Ht) eq_refl eq_refl eq_refl).
Defined.

(** When re-arming fails the event that woke the thread is forgotten: the thread waits, and only another event wakes it. *)
Lemma failed_arm_forgets : ∃ t, rtc dm_step (dm_started 0 0) t ∧ pc t = Waiting ∧ ready t = false ∧ looked_at t < events t.
Proof.
  eexists. split; [|split; [|split]].
  - eapply rtc_l; [apply dm_event|]. eapply rtc_l; [by apply dm_readable|]. eapply rtc_l; [by apply dm_clear|]. eapply rtc_l; [by apply dm_arm_fails|]. done.
  - done.
  - done.
  - simpl. lia.
Qed.

(** ** The main task and its threads *)

(** [broadcast::channel(1)]: what a receiver with [pending] messages is told *)
Inductive TryRecv : Type := Received | Empty | Closed | Lagged.
Definition try_recv (senders : bool) (pending : nat) : TryRecv * nat :=
  match pending with
  | O => (if senders then Empty else Closed, O)
  | 1 => (Received, O)
  | _ => (Lagged, 1)
  end.

(** the threads that wait to be told to exit *)
Inductive Kind : Type := Udev | Conn | Tree.
#[export] Instance Kind_eq_dec : EqDecision Kind.
Proof. solve_decision. Defined.
Inductive TState : Type :=
  | Absent
  | Registered (pending : nat)   (**r has its receiver, not started *)
  | Running (pending : nat)
  | Ended (r : res unit).

(** A thread looks at [should_exit]: [udev_thread], [process_dbus_requests] and, once its [recv] has a value, [process_dbus_actions] *)
Definition looks (senders : bool) (pending : nat) : TState :=
  match try_recv senders pending with
  | (Received, _) => Ended (Ok tt)
  | (Closed, _) | (Lagged, _) => Ended (Err (Msg "thread can no longer be notified to exit; shutting down..."))
  | (Empty, pending) => Running pending
  end.

Section daemon.
Context {E : Type}. (* [UdevEngineEvent] *)

Record Daemon : Type := mkDaemon {
  sim : bool;
  main : option (res unit);    (* the result of [run]'s task, once it has one *)
  creating : bool;             (* [create_dbus_handlers] holds a clone of the trigger *)
  threads : Kind → TState;
  taken : list E;              (* events the udev thread got from udev *)
  forwarded : list E;          (* events it sent to the D-Bus layer *)
  receiver : bool;             (* the other end of that channel *)
  ipc : option (res unit);     (* the result of [setup] *)
  dm : option (res unit);      (* the result of [dm_event_thread] *)
  signalled : bool             (* [signal_thread] has ended *)
}.

Definition set_main m d := mkDaemon (sim d) m (creating d) (threads d) (taken d) (forwarded d) (receiver d) (ipc d) (dm d) (signalled d).
Definition set_creating c d := mkDaemon (sim d) (main d) c (threads d) (taken d) (forwarded d) (receiver d) (ipc d) (dm d) (signalled d).
Definition set_threads f d := mkDaemon (sim d) (main d) (creating d) f (taken d) (forwarded d) (receiver d) (ipc d) (dm d) (signalled d).
Definition set_thread (k : Kind) (t : TState) d := set_threads (<[k:=t]> (threads d)) d.
Definition set_receiver r d := mkDaemon (sim d) (main d) (creating d) (threads d) (taken d) (forwarded d) r (ipc d) (dm d) (signalled d).
Definition set_ipc r d := mkDaemon (sim d) (main d) (creating d) (threads d) (taken d) (forwarded d) (receiver d) (Some r) (dm d) (signalled d).
Definition set_dm r d := mkDaemon (sim d) (main d) (creating d) (threads d) (taken d) (forwarded d) (receiver d) (ipc d) (Some r) (signalled d).
Definition set_signalled d := mkDaemon (sim d) (main d) (creating d) (threads d) (taken d) (forwarded d) (receiver d) (ipc d) (dm d) true.

(** [run] once the engine has started: the channels made and the threads spawned *)
Definition start (sim : bool) : Daemon :=
  mkDaemon sim None true (λ k, match k with Udev => Running 0 | _ => Absent end) [] [] true None None false.

(** a sender of the trigger is left: that of the main task or its clone *)
Definition senders (d : Daemon) : bool := match main d with None => true | Some _ => creating d end.

(** [trigger.send(())] *)
Definition send (f : Kind → TState) : Kind → TState := λ k,
  match f k with Registered n => Registered (S n) | Running n => Running (S n) | t => t end.

(** The branches of [select!] for the udev and the IPC thread: a [JoinError] and [Ok(Ok(()))] are treated alike *)
Definition joined (r : res unit) (d : Daemon) : Daemon :=
  match r with Err e => set_main (Some (Err e)) d | _ => set_threads (send (threads d)) (set_main (Some (Ok tt)) d) end.

(** A turn of [udev_thread] in which [poll] found an event *)
Definition udev_turn (e : E) (d : Daemon) : Daemon :=
  mkDaemon (sim d) (main d) (creating d) (threads d) (taken d ++ [e]) (if receiver d then forwarded d ++ [e] else forwarded d)
    (receiver d) (ipc d) (dm d) (signalled d).

(** [setup]'s [select!]: what the end of the tree thread, whose error was logged, and of the connection thread give *)
Definition tree_result (r : res unit) : res unit := match r with Panic w => Err (Msg "task panicked") | _ => Ok tt end.
Definition conn_result (r : res unit) : res unit := match r with Panic w => Err (Msg "task panicked") | r => r end.

(** the handlers made by [create_dbus_handlers] are dropped *)
Definition dropped (d : Daemon) : Daemon :=
  set_threads (λ k, match threads d k with Registered _ => Absent | t => t end) (set_creating false (set_receiver false d)).

Inductive step : Daemon → Daemon → Prop :=
  | s_udev_event d n e : threads d Udev = Running n → step d (udev_turn e d)
  | s_udev_idle d n : threads d Udev = Running n → step d (set_thread Udev (looks (senders d) n) d)
  | s_udev_fails d n e : threads d Udev = Running n → step d (set_thread Udev (Ended (Err e)) d)
  | s_conn d n : threads d Conn = Running n → step d (set_thread Conn (looks (senders d) n) d)
  | s_tree d n : threads d Tree = Running n → step d (set_thread Tree (looks (senders d) n) d)
  | s_tree_closed d n e : threads d Tree = Running n → step d (set_thread Tree (Ended (Err e)) d)
  | s_panics d k n w : threads d k = Running n → step d (set_thread k (Ended (Panic w)) d)
  | s_subscribes d k : creating d = true → threads d k = Absent → step d (set_thread k (Registered 0) d)
  | s_created d n m : creating d = true → threads d Conn = Registered n → threads d Tree = Registered m →
      step d (set_creating false (set_thread Tree (Running m) (set_thread Conn (Running n) d)))
  | s_create_fails d e : creating d = true → ipc d = None → step d (set_ipc (Err e) (dropped d))
  | s_cancelled d r : main d = Some r → creating d = true → step d (dropped d)
  | s_handler_ends d : step d (set_receiver false d)
  | s_ipc_handler d (r : res unit) : receiver d = false → creating d = false → ipc d = None → step d (set_ipc (tree_result r) d)
  | s_ipc_tree d r : threads d Tree = Ended r → ipc d = None → step d (set_ipc (tree_result r) d)
  | s_ipc_conn d r : threads d Conn = Ended r → ipc d = None → step d (set_ipc (conn_result r) d)
  | s_dm_sim d : sim d = true → dm d = None → step d (set_dm (Ok tt) d)
  | s_dm_fails d e : sim d = false → dm d = None → step d (set_dm (Err e) d)
  | s_signal d : step d (set_signalled d)
  | s_main_udev d r : main d = None → threads d Udev = Ended r → step d (joined r d)
  | s_main_ipc d r : main d = None → ipc d = Some r → step d (joined r d)
  | s_main_dm d e : main d = None → dm d = Some (Err e) → step d (set_main (Some (Err e)) d)
  | s_main_signal d : main d = None → signalled d = true → step d (joined (Ok tt) d).

(** ** Shutting down *)

Definition quiet (t : TState) : Prop :=
  match t with Absent => True | Registered n | Running n => n = 0 | Ended r => r ≠ Ok tt end.

Record daemon_ok (d : Daemon) : Prop := {
  (* until the main task has ended nobody is told to exit *)
  before_end : main d = None → ∀ k, quiet (threads d k);
  (* what was taken from udev was forwarded *)
  nothing_lost : receiver d = true → forwarded d = taken d;
  (* the udev thread has one message when the main task ended well *)
  udev_told : main d = Some (Ok tt) → ∀ n, threads d Udev = Running n → n = 1;
  (* why the main task ended *)
  reason : match main d with
           | None => True
           | Some (Ok _) => signalled d = true ∨ is_Some (ipc d) ∨ ∃ w, threads d Udev = Ended (Panic w)
           | Some (Err e) => threads d Udev = Ended (Err e) ∨ ipc d = Some (Err e) ∨ dm d = Some (Err e)
           | Some (Panic _) => False
           end
}.

(** [f'] differs from [f] in threads that were not ended, which now are quiet as long as the main task runs *)
Lemma threads_ok d f : daemon_ok d →
  (∀ r, threads d Udev = Ended r → f Udev = Ended r) → (main d = None → ∀ k, quiet (f k)) →
  (main d = Some (Ok tt) → ∀ n, f Udev = Running n → threads d Udev = Running n) → daemon_ok (set_threads f d).
Proof.
  intros [Hb Hl Ht Hr] He Hq Hn. split; simpl; [done|done| |].
  - intros Hm n Hf. by apply Ht, Hn.
  - destruct (main d) as [[[]|e|w]|]; [|naive_solver..]. destruct Hr as [Hs|[Hi|[w Hw]]]; [by left|by right; left|]. right; right. exists w. by apply He.
Qed.

Lemma thread_ok d k t : daemon_ok d → (∀ r, threads d k ≠ Ended r) → (main d = None → quiet t) →
  (main d = Some (Ok tt) → k = Udev → ∀ n, t = Running n → threads d Udev = Running n) → daemon_ok (set_thread k t d).
Proof.
  intros Hd Hk Hq Hn. apply threads_ok; [done|..].
  - intros r E'. rewrite fn_lookup_insert_ne; [done|]. intros ->. by destruct (Hk r).
  - intros Hm j. destruct (decide (k = j)) as [->|Hj]; [rewrite fn_lookup_insert; auto|rewrite fn_lookup_insert_ne by done]. by apply Hd.
  - intros Hm n. destruct (decide (k = Udev)) as [->|Hj]; [rewrite fn_lookup_insert; by apply Hn|by rewrite fn_lookup_insert_ne].
Qed.

Lemma look_ok d k n : daemon_ok d → threads d k = Running n → daemon_ok (set_thread k (looks (senders d) n) d).
Proof.
  intros Hd Hk. apply thread_ok; [done|congruence| |].
  - intros Hm. pose proof (before_end d Hd Hm k) as Hq. rewrite Hk in Hq. simpl in Hq. subst n. unfold senders. by rewrite Hm.
  - intros _ -> m. rewrite Hk. destruct n as [|[|n]]; simpl; [|done..]. unfold looks. simpl. destruct (senders d); [by intros [= <-]|done].
Qed.

Lemma ended_ok d k n r : daemon_ok d → threads d k = Running n → r ≠ Ok tt → daemon_ok (set_thread k (Ended r) d).
Proof. intros Hd Hk Hr. apply thread_ok; [done|congruence|done|done]. Qed.

(** fields that the invariant only mentions through [main], [ipc], [dm] and [receiver] *)
Lemma creating_ok d c : daemon_ok d → daemon_ok (set_creating c d).
Proof. by intros [Hb Hl Ht Hr]. Qed.
Lemma receiver_ok d : daemon_ok d → daemon_ok (set_receiver false d).
Proof. by intros [Hb Hl Ht Hr]. Qed.
Lemma ipc_ok d r : daemon_ok d → ipc d = None → daemon_ok (set_ipc r d).
Proof.
  intros [Hb Hl Ht Hr] Hi. split; simpl; [done..|]. destruct (main d) as [[?|e|w]|]; [|naive_solver..].
  destruct Hr as [?|[?|?]]; [by left|by right; left|by right; right].
Qed.
Lemma dm_ok' d r : daemon_ok d → dm d = None → daemon_ok (set_dm r d).
Proof. intros [Hb Hl Ht Hr] Hi. split; simpl; [done..|]. destruct (main d) as [[?|e|w]|]; naive_solver. Qed.
Lemma signalled_ok d : daemon_ok d → daemon_ok (set_signalled d).
Proof. intros [Hb Hl Ht Hr]. split; simpl; [done..|]. destruct (main d) as [[?|e|w]|]; naive_solver. Qed.
Lemma dropped_ok d : daemon_ok d → daemon_ok (dropped d).
Proof.
  intros Hd. apply threads_ok; simpl.
  - by apply creating_ok, receiver_ok.
  - by intros r ->.
  - intros Hm k. pose proof (before_end d Hd Hm k) as Hq. by destruct (threads d k).
  - intros _ n. by destruct (threads d Udev).
Qed.

Lemma joined_ok d r : daemon_ok d → main d = None →
  (r ≠ Ok tt ∧ threads d Udev = Ended r) ∨ ipc d = Some r ∨ (r = Ok tt ∧ signalled d = true) → daemon_ok (joined r d).
Proof.
  intros [Hb Hl Ht Hr] Hm Hw. specialize (Hb Hm). assert (Hu : ∀ n, send (threads d) Udev = Running n → n = 1).
  { intros n. specialize (Hb Udev). unfold send. destruct (threads d Udev); simpl in *; try done. intros [= <-]. congruence. }
  assert (He : ∀ r, threads d Udev = Ended r → send (threads d) Udev = Ended r) by (unfold send; by intros ? ->).
  destruct r as [[]|e|w]; split; simpl; try done; try naive_solver.
Qed.

Lemma daemon_step_ok d d' : step d d' → daemon_ok d → daemon_ok d'.
Proof.
  intros Hs Hd. destruct Hs as [d n e Hk|d n Hk|d n e Hk|d n Hk|d n Hk|d n e Hk|d k n w Hk|d k Hc Hk|d n m Hc Hn Hm|d e Hc Hi|d r Hm Hc|d|d r _ _ Hi|d r _ Hi|d r _ Hi|d _ Hi|d e _ Hi|d|d r Hm Hu|d r Hm Hi|d e Hm Hi|d Hm Hi].
  - destruct Hd as [Hb Hl Ht Hr]. split; simpl; [done| |done|done]. intros Hrec. rewrite Hrec, Hl; done.
  - by apply look_ok.
  - by eapply ended_ok.
  - by apply look_ok.
  - by apply look_ok.
  - by eapply ended_ok.
  - by eapply ended_ok.
  - apply thread_ok; [done|congruence|done|done].
  - assert (Hq : main d = None → n = 0 ∧ m = 0).
    { intros E'. pose proof (before_end d Hd E' Conn) as H1. pose proof (before_end d Hd E' Tree) as H2. by rewrite Hn in H1; rewrite Hm in H2. }
    apply creating_ok, thread_ok; [apply thread_ok; [done|congruence|naive_solver|done]| |naive_solver|done].
    intros r. simpl. rewrite fn_lookup_insert_ne by done. congruence.
  - by apply ipc_ok; [apply dropped_ok|].
  - by apply dropped_ok.
  - by apply receiver_ok.
  - by apply ipc_ok.
  - by apply ipc_ok.
  - by apply ipc_ok.
  - by apply dm_ok'.
  - by apply dm_ok'.
  - by apply signalled_ok.
  - apply joined_ok; [done|done|]. left. split; [|done]. pose proof (before_end d Hd Hm Udev) as Hq. by rewrite Hu in Hq.
  - apply joined_ok; auto.
  - destruct Hd as [Hb Hl Ht Hr]. split; simpl; naive_solver.
  - apply joined_ok; auto.
Qed.

Lemma daemon_start_ok s : daemon_ok (start s).
Proof. split; simpl; [|done..]. by intros _ []. Qed.

(** C22: The daemon runs until it has a reason to stop, and then all its threads stop.  However its threads are interleaved and whatever
    fails: while the main task runs no thread exits for being told to, and the events of udev reach the D-Bus layer complete and in order as long as that takes
    them; the main task ends with the error of the thread that failed, and well only on a signal, the end of the D-Bus
    layer, or a panic of the udev thread; from then on every thread that looks whether to exit ends, be it told to or finding
    the channel closed, and the udev thread without an error when the main task ended well. *)
Theorem daemon_shutdown s d : rtc step (start s) d →
  (receiver d = true → forwarded d = taken d) ∧
  match main d with
  | None => ∀ k, quiet (threads d k)
  | Some r =>
      (creating d = false → ∀ k n, threads d k = Running n → ∃ r', looks (senders d) n = Ended r') ∧
      match r with
      | Ok _ => (signalled d = true ∨ is_Some (ipc d) ∨ ∃ w, threads d Udev = Ended (Panic w)) ∧
                ∀ n, threads d Udev = Running n → looks (senders d) n = Ended (Ok tt)
      | Err e => threads d Udev = Ended (Err e) ∨ ipc d = Some (Err e) ∨ dm d = Some (Err e)
      | Panic _ => False
      end
  end.
Proof.
  intros Hrun. assert (daemon_ok d) as [Hb Hl Ht Hr].
  { remember (start s) as d0 eqn:E0. assert (daemon_ok d0) as H0 by (subst; apply daemon_start_ok). clear E0.
    induction Hrun as [|a b c Hab _ IH]; [done|]. by eapply IH, daemon_step_ok. }
  split; [done|]. destruct (main d) as [r|] eqn:Em; [|by apply Hb]. split.
  - intros Hc k n _. unfold senders. rewrite Em, Hc. destruct n as [|[|n]]; by eexists.
  - destruct r as [[]|e|w]; [|done|done]. split; [done|]. intros n Hn. by rewrite (Ht eq_refl n Hn).
Qed.

(** The udev thread looks whether to exit only when no event waits: while events keep coming it runs on, told to exit or not. *)
Lemma udev_thread_starves s n (e : E) : ∃ d, rtc step (start s) d ∧ main d = Some (Ok tt) ∧ threads d Udev = Running 1 ∧ length (taken d) = n.
Proof.
  assert (∃ d, rtc step (start s) d ∧ main d = Some (Ok tt) ∧ threads d Udev = Running 1 ∧ taken d = []) as (d0 & H0 & Hm & Hu & Ht).
  { eexists. split; [eapply rtc_l; [apply s_signal|]; eapply rtc_l; [by apply s_main_signal|]; done|]. done. }
  induction n as [|n (d & Hd & Hm' & Hu' & Hn)]; [exists d0; by rewrite Ht|].
  exists (udev_turn e d). split; [eapply rtc_r; [exact Hd|by eapply s_udev_event]|]. split; [done|]. split; [done|]. simpl. rewrite length_app. simpl. lia.
Qed.
End daemon.

(** An event, then SIGINT: the event was forwarded, and the udev thread ends when it next finds no event. *)
Lemma daemon_shutdown_witness :
  let d := joined (Ok tt) (set_signalled (udev_turn 7 (start (E:=nat) false))) in
  rtc step (start false) d ∧ forwarded d = [7] ∧ looks (senders d) 1 = Ended (Ok tt).
Proof.
  intros d. assert (rtc step (start false) d) as Hd.
  { eapply rtc_l; [by eapply (s_udev_event (start false) 0 7)|]. eapply rtc_l; [apply s_signal|]. eapply rtc_l; [by apply s_main_signal|]. done. }
  destruct (daemon_shutdown false d Hd) as (Hf & _ & _ & Hu). split; [exact Hd|]. split; [exact (Hf eq_refl)|exact (Hu 1 eq_refl)].
Defined.

(** ** The devicemapper handle *)

Section handle.
Context {DM : Type} (DM_new : res DM).

(** [INIT] and [DM_CONTEXT]: the handle is made once *)
Definition get_dm_init (context : option (res DM)) : res DM * option (res DM) :=
  let context := match context with None => DM_new | Some c => c end in
  (match context with
   | Ok dm => Ok dm
   | Err e => Err (Chained "Failed to initialize DM context" e)
   | Panic w => Panic w
   end, Some context).
Definition get_dm (context : option (res DM)) : res DM * option (res DM) :=
  match get_dm_init context with
  | (Err _, c) => (Panic "the engine has already called get_dm_init() and exited if get_dm_init() returned an error", c)
  | r => r
  end.

(** Once [get_dm_init] has succeeded, [get_dm] gives the same handle, ever after. *)
Lemma get_dm_same context dm c : get_dm_init context = (Ok dm, c) → get_dm c = (Ok dm, c).
Proof. unfold get_dm, get_dm_init. by destruct context as [[?|?|?]|], DM_new; intros [= -> <-] || intros [= <- <-]. Qed.

Definition REQUIRED_DM_MINOR_VERSION : Z := 37.
Definition O_NONBLOCK : Z := 2048.

(** [setup_dm]: [version] is what [dm.version()] gives, [getfl] the flags of the file, [async_fd] the outcome of [AsyncFd::new]; gives the flags set *)
Definition setup_dm (context : option (res DM)) (version : res (Z * Z * Z)) (getfl : res Z) (setfl : Z → res unit) (async_fd : res unit) : res Z :=
  let? _ := (get_dm_init context).1 in
  let? v := version in
  let minor_dm_version := v.1.2 in
  if (minor_dm_version <? REQUIRED_DM_MINOR_VERSION)%Z then Err (Msg "Requires a newer DM minor version")
  else
    let? _ := (get_dm context).1 in
    let? old := getfl in
    let flags := Z.land old (Z.lnot O_NONBLOCK) in
    let? _ := setfl flags in
    let? _ := async_fd in
    Ok flags.

Lemma nonblock_cleared flags : Z.testbit (Z.land flags (Z.lnot O_NONBLOCK)) 11 = false.
Proof. rewrite Z.land_spec, Z.lnot_spec by lia. apply andb_false_r. Qed.

(** The file is made blocking, where the comment says that it is made nonblocking; [setup_dm] does not panic. *)
Lemma setup_dm_blocking context version getfl setfl async_fd : (∀ w, DM_new ≠ Panic w) → (∀ c w, context = Some c → c ≠ Panic w) →
  (∀ w, version ≠ Panic w) → (∀ w, getfl ≠ Panic w) → (∀ fl w, setfl fl ≠ Panic w) → (∀ w, async_fd ≠ Panic w) →
  match setup_dm context version getfl setfl async_fd with
  | Ok flags => Z.testbit flags 11 = false ∧ ∃ v, version = Ok v ∧ (REQUIRED_DM_MINOR_VERSION ≤ v.1.2)%Z
  | Err _ => True
  | Panic _ => False
  end.
Proof.
  intros Hn Hc Hv Hg Hs Ha. unfold setup_dm. destruct (get_dm_init context) as [i c] eqn:Ei.
  assert (∀ w, i ≠ Panic w) as Hi.
  { intros w ->. unfold get_dm_init in Ei. destruct context as [[?|?|w']|]; simplify_eq; [by eapply Hc|]. destruct DM_new eqn:E; simplify_eq. by eapply Hn. }
  destruct i as [dm|e|w]; simpl; [|done|by eapply Hi]. destruct version as [v|e|w]; simpl; [|done|by eapply Hv].
  destruct (Z.ltb_spec v.1.2 REQUIRED_DM_MINOR_VERSION); [done|]. unfold get_dm. rewrite Ei. simpl.
  destruct getfl as [old|e|w]; simpl; [|done|by eapply Hg]. destruct (setfl _) as [u|e|w] eqn:Es; simpl; [|done|by eapply Hs].
  destruct async_fd as [a|e|w]; simpl; [|done|by eapply Ha]. split; [exact (nonblock_cleared old)|by exists v].
Qed.
End handle.

(** ** Notifying systemd *)

(** [serialize_pairs]: the pairs in the order of the map *)
Definition serialize_pairs (pairs : list (Str * Str)) : Str :=
  foldl (λ string '(key, value), string ++ (key ++ str "=" ++ value) ++ [10%Z]) [] pairs.

(** [notify]; [sd_notify] is libsystemd's, which takes the bytes before a null byte *)
Definition notify (sd_notify : bool → Str → Z) (unset_variable : bool) (key_value_pairs : list (Str * Str)) : res unit :=
  let serialized_pairs := serialize_pairs key_value_pairs in
  if existsb (λ c, c =? 0)%Z serialized_pairs then Err (Msg "nul byte found in provided data")
  else if (sd_notify unset_variable serialized_pairs <? 0)%Z then Err (Io "sd_notify") else Ok tt.

Fixpoint lines (line s : Str) : list Str :=
  match s with
  | [] => []
  | c :: s => if (c =? 10)%Z then line :: lines [] s else lines (line ++ [c]) s
  end.

Lemma lines_app line l s : 10%Z ∉ l → lines line (l ++ 10%Z :: s) = (line ++ l) :: lines [] s.
Proof.
  revert line. induction l as [|c l IH]; intros line Hl; simpl; [by rewrite app_nil_r|].
  apply not_elem_of_cons in Hl as [Hc Hl]. destruct (Z.eqb_spec c 10); [congruence|]. rewrite IH by done. by rewrite <-app_assoc.
Qed.

Lemma serialize_pairs_acc pairs acc : foldl (λ string '(key, value), string ++ (key ++ str "=" ++ value) ++ [10%Z]) acc pairs = acc ++ serialize_pairs pairs.
Proof.
  unfold serialize_pairs. revert acc. induction pairs as [|[k v] pairs IH]; intros acc; [by rewrite app_nil_r|]. simpl. rewrite IH, (IH (_ ++ _)). by rewrite !app_assoc.
Qed.

(** Every pair is one line, [key=value], as long as no text holds an end of line. *)
Lemma serialize_pairs_lines pairs : Forall (λ '(k, v), 10%Z ∉ k ∧ 10%Z ∉ v) pairs → lines [] (serialize_pairs pairs) = (λ '(k, v), k ++ str "=" ++ v) <$> pairs.
Proof.
  induction 1 as [|[k v] pairs [Hk Hv] _ IH]; [done|]. unfold serialize_pairs. simpl. rewrite serialize_pairs_acc.
  rewrite <-app_assoc. simpl. rewrite lines_app, IH; [done|]. apply not_elem_of_app. split; [done|]. apply not_elem_of_cons. split; [done|done].
Qed.
