(* ===== verification/UtilsMain.v ===== *)
(** * The executable of the utilities

    Models the rest of [src/bin/stratis-utils.rs]: the decoding of base32 text and the choice of the utility by the name under
    which the executable was called.  The parser of arguments is known by [conforms] and [Clap] (StratisMin.v), base32 is a parameter. *)
From stdpp Require Import base list gmap strings pretty.
From Stdlib Require Import ZArith Lia.
From S2P Require Import Prelude Disk External Json Shared Utils Generators StratisMin.

(** [argv1.ends_with(name)] *)
Definition ends_with (s name : Str) : bool :=
  bool_decide (length name ≤ length s)%nat && bool_decide (drop (length s - length name) s = name).

(** *** The grammars *)

Open Scope string_scope.
Definition str_cmp_app : App := mkApp [positional "left" true; positional "right" true] [] [].
Definition base32_app : App := mkApp [positional "key" true; positional "value" true] [] [].
Definition predict_app : App := mkApp [long "encrypted" "--encrypted" false; mkArg "blockdevs" None true true false None [] [] []] [] [].
Definition generator_app : App :=
  mkApp [positional "normal_priority_dir" true; positional "early_priority_dir" true; positional "late_priority_dir" true] [] [].
Close Scope string_scope.

Section utils.
Context `{UuidDisplay} `{Clap}.
(** [BASE32_NOPAD.decode], the size of the device at a path, the kernel's command line, [setup_logger] and [Display] of a JSON value *)
Context (base32 : Str → res (list Z)) (blkdev_size : Str → res Z) (proc_cmdline : res Str) (setup_logger : res unit) (json_string : Value → Str).
(** [get_matches_from]: [None] when it prints an error and exits *)
Context (get_matches : App → list Str → option ArgMatches).

(** [base32_decode]: the line printed *)
Definition base32_decode (var_name base32_str : Str) : res Str :=
  let? bytes := base32 base32_str in
  if valid_utf8 bytes then Ok (var_name ++ str "=" ++ chars bytes) else Err (Utf8Error "from_utf8").

(** [generator] of both generators *)
Definition generator (with_err : st Fs unit) : st Fs unit := ilift setup_logger ;;! with_err.

(** the utility of one name, with its grammar: what it prints *)
Definition utility (app : App) (args : list Str) (run : ArgMatches → st Fs (list Str)) : st Fs (list Str) :=
  match get_matches app args with
  | Some matches => run matches
  | None => ierr (Msg "exit")
  end.
Definition arg {T} (matches : ArgMatches) (name : string) (k : Str → st Fs T) : st Fs T :=
  let! v := ilift (let? o := value_of matches name in expect o "required argument") in k v.

Definition str_cmp (matches : ArgMatches) : st Fs (list Str) :=
  arg matches "left" (λ l, arg matches "right" (λ r, iret [string_compare l r])).
Definition base32_print (matches : ArgMatches) : st Fs (list Str) :=
  arg matches "key" (λ k, arg matches "value" (λ v, let! line := ilift (base32_decode k v) in iret [line])).
Definition predict (matches : ArgMatches) : st Fs (list Str) :=
  let! blockdevs := ilift (values_of matches "blockdevs") in
  let! json := ilift (predict_usage (is_present matches "encrypted") (blkdev_size <$> default [] blockdevs)) in
  iret [json_string json].
Definition generate (with_err : Str → st Fs unit) (matches : ArgMatches) : st Fs (list Str) :=
  arg matches "early_priority_dir" (λ d, generator (with_err d) ;;! iret []).

(** [parse_args], which is all [main] does, in a build with systemd support *)
Definition utils_main (args : list Str) : st Fs (list Str) :=
  match args with
  | [] => ilift (Panic "index out of bounds")
  | argv1 :: _ =>
      if ends_with argv1 (str "stratis-str-cmp") then utility str_cmp_app args str_cmp
      else if ends_with argv1 (str "stratis-base32-decode") then utility base32_app args base32_print
      else if ends_with argv1 (str "stratis-predict-usage") then utility predict_app args predict
      else if ends_with argv1 (str "stratis-clevis-setup-generator") || ends_with argv1 (str "stratis-setup-generator") then
        if ends_with argv1 (str "stratis-clevis-setup-generator") then utility generator_app args (generate (clevis_generator_with_err proc_cmdline))
        else utility generator_app args (generate (setup_generator_with_err proc_cmdline))
      else ierr (Msg "not a recognized executable name")
  end.

(** *** The right utility runs *)

Lemma ends_with_app p name : ends_with (p ++ name) name = true.
Proof.
  unfold ends_with. rewrite length_app, !bool_decide_true; [done| |lia].
  replace (length p + length name - length name)%nat with (length p) by lia. by rewrite drop_app_length.
Qed.

(** both are ends of the same text *)
Lemma ends_with_both s n m : ends_with s n = true → ends_with s m = true → (length n ≤ length m)%nat → ends_with m n = true.
Proof.
  unfold ends_with. intros [Hn Hs]%andb_prop [Hm Hs']%andb_prop Hl.
  apply bool_decide_eq_true in Hn, Hs, Hm, Hs'. rewrite !bool_decide_true; [done| |done]. rewrite <-Hs' at 2. rewrite drop_drop. rewrite <-Hs at 2. f_equal. lia.
Qed.

(** no name ends with another *)
Definition util_names : list Str :=
  [str "stratis-str-cmp"; str "stratis-base32-decode"; str "stratis-predict-usage"; str "stratis-clevis-setup-generator"; str "stratis-setup-generator"].
Lemma names_apart p n m : n ∈ util_names → m ∈ util_names → n ≠ m → ends_with (p ++ n) m = false.
Proof.
  intros Hn Hm Hne. destruct (ends_with (p ++ n) m) eqn:Em; [|done]. exfalso.
  assert (forallb (λ a, forallb (λ b, bool_decide (a = b) || negb (ends_with a b)) util_names) util_names = true) as Hall by (vm_compute; reflexivity).
  assert (Hap : ∀ a b, a ∈ util_names → b ∈ util_names → a ≠ b → ends_with a b = false).
  { intros a b Ha%list_elem_of_In Hb%list_elem_of_In Hab. rewrite forallb_forall in Hall. specialize (Hall a Ha). rewrite forallb_forall in Hall. specialize (Hall b Hb).
    rewrite bool_decide_false in Hall by done. by destruct (ends_with a b). }
  pose proof (ends_with_app p n) as En. destruct (decide (length n ≤ length m)%nat).
  - pose proof (ends_with_both _ _ _ En Em ltac:(lia)) as E. rewrite Hap in E; [done|done|done|]. by intros ->.
  - pose proof (ends_with_both _ _ _ Em En ltac:(lia)) as E. by rewrite Hap in E.
Qed.

(** Called by any path that ends with the name of a utility, the executable runs this utility with its grammar. *)
Lemma utils_dispatch p n args : n ∈ util_names →
  utils_main ((p ++ n) :: args) =
    (if bool_decide (n = str "stratis-str-cmp") then utility str_cmp_app ((p ++ n) :: args) str_cmp
     else if bool_decide (n = str "stratis-base32-decode") then utility base32_app ((p ++ n) :: args) base32_print
     else if bool_decide (n = str "stratis-predict-usage") then utility predict_app ((p ++ n) :: args) predict
     else if bool_decide (n = str "stratis-clevis-setup-generator") then utility generator_app ((p ++ n) :: args) (generate (clevis_generator_with_err proc_cmdline))
     else utility generator_app ((p ++ n) :: args) (generate (setup_generator_with_err proc_cmdline))).
Proof.
  intros Hn. assert (He : ∀ m, m ∈ util_names → ends_with (p ++ n) m = bool_decide (n = m)).
  { intros m Hm. case_bool_decide; [subst; apply ends_with_app|by apply names_apart]. }
  unfold utils_main. rewrite !He by (unfold util_names; set_solver). repeat case_bool_decide; try done.
  exfalso. unfold util_names in Hn. set_solver.
Qed.

(** Arguments the parser lets through are there: a utility does not panic on them when they are UTF-8. *)
Lemma arg_there app matches name (k : Str → st Fs (list Str)) : accepted app matches → demands app name = true →
  ∃ v, arg matches name k = k v.
Proof.
  intros Ha Hd. destruct (demanded_value app matches name Ha Hd) as (v & E). exists v. unfold arg. by rewrite E.
Qed.
End utils.
