(* ===== verification/RpcSocket.v ===== *)
(** * The socket of the JSON RPC server

    Models the rest of [jsonrpc/server/server.rs]: the listener, the acceptance of connections, the waiting for a request and the sending of its
    reply, over the table of descriptors of the process.  What is done with a request is in Rpc.v. *)
From stdpp Require Import base list gmap sets strings.
From Stdlib Require Import ZArith Lia.
From S2P Require Import Prelude External Shared.

(** ** The kernel: descriptors and the backlog of the socket *)

Record Net : Type := mkNet {
  open : gset Z;
  limit : Z;               (* RLIMIT_NOFILE *)
  backlog : nat;           (* clients that have connected and were not accepted *)
  files : gset string;     (* paths at which there is a file or a socket *)
  calls : nat;
  refused : nat → bool     (* which calls the kernel refuses *)
}.

Definition set_open o s := mkNet o (limit s) (backlog s) (files s) (calls s) (refused s).
Definition set_backlog b s := mkNet (open s) (limit s) b (files s) (calls s) (refused s).
Definition set_files fs s := mkNet (open s) (limit s) (backlog s) fs (calls s) (refused s).
Definition tick s := mkNet (open s) (limit s) (backlog s) (files s) (S (calls s)) (refused s).

Definition syscall {A} (name : string) (f : Net → res A * Net) : st Net A := λ s,
  if refused s (calls s) then (Err (Nix name), tick s) else f (tick s).

(** the lowest number not in use *)
Definition free (s : Net) : option Z := List.find (λ fd, bool_decide (fd ∉ open s)) (seqZ 0 (limit s)).
Definition new_fd (name : string) (s : Net) : res Z * Net :=
  match free s with
  | Some fd => (Ok fd, set_open ({[fd]} ∪ open s) s)
  | None => (Err (Nix name), s)
  end.

Definition socket : st Net Z := syscall "socket" (new_fd "socket").
Definition accept : st Net Z := syscall "accept" (λ s,
  match backlog s with
  | O => (Err (Nix "accept"), s)
  | S b => match new_fd "accept" s with (Ok fd, s) => (Ok fd, set_backlog b s) | r => r end
  end).
Definition fcntl_getfl (flags : Z) : st Net Z := syscall "fcntl" (λ s, (Ok flags, s)).
Definition fcntl_setfl : st Net unit := syscall "fcntl" (λ s, (Ok tt, s)).
Definition bind_path (path : string) : st Net unit := syscall "bind" (λ s,
  if bool_decide (path ∈ files s) then (Err (Nix "bind"), s) else (Ok tt, set_files ({[path]} ∪ files s) s)).
Definition listen : st Net unit := syscall "listen" (λ s, (Ok tt, s)).
(** [AsyncFd::new]: registration with the poller *)
Definition async_fd : st Net unit := syscall "epoll_ctl" (λ s, (Ok tt, s)).
(** its drop: deregistration, and the drop of the [RawFd], a number *)
Definition AsyncFd_drop (fd : Z) : Net → Net := id.

Definition ignore {A} (m : st Net A) : st Net unit := λ s, (Ok tt, (m s).2).
Definition create_dir_all : st Net unit := syscall "mkdir" (λ s, (Ok tt, s)).
Definition remove_file (path : string) : st Net unit := syscall "unlink" (λ s, (Ok tt, set_files (files s ∖ {[path]}) s)).

(** ** The listener *)

Section server.
(** the flags the kernel reports for a descriptor, and whether [OFlag::from_bits] knows them *)
Context (flags : Z) (from_bits : Z → option Z).

Definition set_nonblocking : st Net unit :=
  let! bits := fcntl_getfl flags in
  match from_bits bits with
  | None => ierr (Msg "Unrecognized flag types returned from fcntl")
  | Some _ => fcntl_setfl
  end.

(** [StratisUnixListener::bind] *)
Definition bind (path : string) : st Net Z :=
  ignore create_dir_all ;;!
  ignore (remove_file path) ;;!
  let! fd := socket in
  set_nonblocking ;;!
  bind_path path ;;!
  listen ;;!
  async_fd ;;!
  iret fd.

(** [try_accept] *)
Definition try_accept : st Net Z :=
  let! fd := accept in
  set_nonblocking ;;!
  async_fd ;;!
  iret fd.

(** [poll_next]; [ready] is the outcome of [poll_read_ready] *)
Definition poll_next (ready : res unit) : st Net (option (res Z)) := λ s,
  match ready with
  | Ok _ => let '(r, s) := try_accept s in (Ok (Some r), s)
  | Err e => (Ok (Some (Err e)), s)
  | Panic w => (Panic w, s)
  end.

(** [handle_request]: the connection for which a task is spawned *)
Definition handle_request (ready : res unit) : st Net (option Z) :=
  let! next := poll_next ready in
  match next with
  | Some req_res => let! fd := ilift req_res in iret (Some fd)
  | None => iret None
  end.

(** The end of a connection's task, after its request was answered, or could not be received or answered, which is only logged: both clones of the
    [Arc] of the [AsyncFd] are gone, so it is dropped. *)
Definition connection_ends (fd : Z) (s : Net) : Net := AsyncFd_drop fd s.

(** A turn of the loop of [run], and the connection's task after it, whatever other turns do meanwhile; [None] when [run] returns *)
Record Turn : Type := mkTurn { t_ready : res unit; t_clients : nat }.
Definition turn (t : Turn) (s : Net) : option (option Z * Net) :=
  let s := set_backlog (backlog s + t_clients t) s in
  match handle_request (t_ready t) s with
  | (Ok (Some fd), s) => Some (Some fd, connection_ends fd s)
  | (Ok None, _) => None
  | (_, s) => Some (None, s)
  end.
Fixpoint run (turns : list Turn) (s : Net) : option (list Z * Net) :=
  match turns with
  | [] => Some ([], s)
  | t :: turns =>
      match turn t s with
      | None => None
      | Some (fd, s) => match run turns s with Some (fds, s) => Some (option_list fd ++ fds, s) | None => None end
      end
  end.

(** ** What becomes of the descriptors *)

Definition fds_ok (s : Net) : Prop := ∀ fd, fd ∈ open s → 0 ≤ fd < limit s.

Lemma new_fd_spec name s r s' : new_fd name s = (r, s') → fds_ok s →
  fds_ok s' ∧ limit s' = limit s ∧ match r with Ok fd => fd ∉ open s ∧ open s' = {[fd]} ∪ open s | Err _ => open s' = open s | Panic _ => False end.
Proof.
  intros E Hs. unfold new_fd, free in E. destruct (List.find _ _) as [fd|] eqn:Ef; injection E as <- <-; [|done].
  apply List.find_some in Ef as [Hin Hno%bool_decide_eq_true]. apply list_elem_of_In, elem_of_seqZ in Hin. split; [|done].
  intros x. simpl. rewrite elem_of_union, elem_of_singleton. intros [->|Hx]; [lia|by apply Hs].
Qed.

(** a call that leaves the table of descriptors alone *)
Definition keeps_fds {A} (m : st Net A) : Prop := ∀ s, open (m s).2 = open s ∧ limit (m s).2 = limit s ∧ ∀ w, (m s).1 ≠ Panic w.
Lemma fds_syscall {A} name (f : Net → res A * Net) :
  (∀ s, open (f s).2 = open s ∧ limit (f s).2 = limit s ∧ ∀ w, (f s).1 ≠ Panic w) → keeps_fds (syscall name f).
Proof. intros Hf s. unfold syscall. destruct (refused s (calls s)); [done|]. apply (Hf (tick s)). Qed.
Lemma fds_bind {A B} (m : st Net A) (k : A → st Net B) : keeps_fds m → (∀ a, keeps_fds (k a)) → keeps_fds (ibind m k).
Proof.
  intros Hm Hk s. specialize (Hm s). unfold ibind. destruct (m s) as [[a|e|w] s']; simpl in *; [|naive_solver..].
  specialize (Hk a s'). naive_solver congruence.
Qed.
Lemma set_nonblocking_keeps : keeps_fds set_nonblocking.
Proof.
  apply fds_bind; [by apply fds_syscall|]. intros bits. destruct (from_bits bits); [by apply fds_syscall|]. by intros s.
Qed.
Lemma async_fd_keeps : keeps_fds async_fd.
Proof. by apply fds_syscall. Qed.

(** descriptors are only added, the new one among them *)
Definition adds (s s' : Net) (fd : option Z) : Prop :=
  fds_ok s' ∧ limit s' = limit s ∧ open s ⊆ open s' ∧ match fd with Some x => x ∉ open s ∧ x ∈ open s' | None => True end.

Lemma adds_kept {A} (m : st Net A) s s' fd : keeps_fds m → adds s s' fd → adds s (m s').2 fd ∧ ∀ w, (m s').1 ≠ Panic w.
Proof.
  intros Hm (H1 & H2 & H3 & H4). destruct (Hm s') as (Ho & Hl & Hp). split; [|done]. unfold adds, fds_ok in *. rewrite Ho, Hl. auto.
Qed.

Lemma accept_adds s : fds_ok s →
  match accept s with (Ok fd, s') => adds s s' (Some fd) | (Err _, s') => adds s s' None | (Panic _, _) => False end.
Proof.
  intros Hs. unfold accept, syscall. destruct (refused s (calls s)); [done|]. simpl. destruct (backlog s) as [|b]; [done|].
  destruct (new_fd "accept" (tick s)) as [r s'] eqn:E. destruct (new_fd_spec _ _ _ _ E Hs) as (H1 & H2 & H3).
  destruct r as [fd|e|w]; [|split_and!; [done|done|by rewrite H3|done]|done]. destruct H3 as [H3 H4]. simpl in *.
  split_and!; [done|done| |done|]; simpl; rewrite H4; set_solver.
Qed.

Lemma try_accept_adds s : fds_ok s →
  match try_accept s with (Ok fd, s') => adds s s' (Some fd) | (Err _, s') => adds s s' None | (Panic _, _) => False end.
Proof.
  intros Hs. pose proof (accept_adds s Hs) as Ha. unfold try_accept, ibind at 1. destruct (accept s) as [[fd|e|w] s1]; [|done..].
  set (m := (set_nonblocking ;;! async_fd ;;! iret fd : st Net Z)).
  assert (keeps_fds m) as Hm.
  { apply fds_bind; [apply set_nonblocking_keeps|]. intros _. apply fds_bind; [apply async_fd_keeps|]. by intros _ s'. }
  destruct (adds_kept m s s1 (Some fd) Hm Ha) as [Hk Hp].
  assert (∀ x, (m s1).1 = Ok x → x = fd) as Hx.
  { intros x. unfold m, ibind. destruct (set_nonblocking s1) as [[?|?|?] s2]; simpl; [|done..]. destruct (async_fd s2) as [[?|?|?] s3]; simpl; [|done..]. by intros [= <-]. }
  revert Hk Hp Hx. change (ibind set_nonblocking _ s1) with (m s1). destruct (m s1) as [[x|e|w] s2]; simpl; intros Hk Hp Hx.
  - by rewrite (Hx x eq_refl).
  - destruct Hk as (? & ? & ? & ?). by split_and!.
  - by eapply Hp.
Qed.

Lemma turn_adds t s : (∀ w, t_ready t ≠ Panic w) → fds_ok s → ∃ fd s', turn t s = Some (fd, s') ∧ adds s s' fd.
Proof.
  intros Ht Hs. unfold turn. set (s0 := set_backlog _ s). assert (fds_ok s0) as Hs0 by done.
  unfold handle_request, poll_next, ibind, ilift. destruct (t_ready t) as [u|e|w]; [|by exists None, s0|by destruct (Ht w)].
  pose proof (try_accept_adds s0 Hs0) as Ha. destruct (try_accept s0) as [[fd|e|w] s1]; simpl; [|by exists None, s1|done].
  by exists (Some fd), s1.
Qed.

(** The server keeps on running, and every descriptor it has accepted stays open. *)
Lemma run_adds turns s : Forall (λ t, ∀ w, t_ready t ≠ Panic w) turns → fds_ok s →
  ∃ fds s', run turns s = Some (fds, s') ∧ fds_ok s' ∧ limit s' = limit s ∧ open s ⊆ open s' ∧
    NoDup fds ∧ (∀ x, x ∈ fds → x ∉ open s ∧ x ∈ open s').
Proof.
  intros Ht. revert s. induction Ht as [|t turns Ht _ IH]; intros s Hs; simpl.
  - exists [], s. split_and!; [done|done|done|done|apply NoDup_nil_2|]. by intros x ?%elem_of_nil.
  - destruct (turn_adds t s Ht Hs) as (fd & s1 & -> & H1 & H2 & H3 & H4). destruct (IH s1 H1) as (fds & s' & -> & G1 & G2 & G3 & G4 & G5).
    eexists _, s'. split; [reflexivity|]. split_and!; [done|congruence|set_solver| |].
    + destruct fd as [x|]; [|done]. simpl. apply NoDup_cons. split; [|done]. intros Hx%G5. naive_solver.
    + intros x. rewrite elem_of_app. intros [Hx|Hx%G5]; [|set_solver]. destruct fd as [y|]; [|by apply elem_of_nil in Hx].
      simpl in Hx. apply list_elem_of_singleton in Hx as ->. set_solver.
Qed.

(** No connection is ever closed: a server accepts at most as many as there are descriptors left when it starts, in all its life, whatever becomes of
    the requests. *)
Lemma server_exhausted turns s fds s' : Forall (λ t, ∀ w, t_ready t ≠ Panic w) turns → fds_ok s → 0 ≤ limit s → run turns s = Some (fds, s') →
  Z.of_nat (length fds) + Z.of_nat (size (open s)) ≤ limit s.
Proof.
  intros Ht Hs Hl Hr. destruct (run_adds turns s Ht Hs) as (fds' & s'' & E & G1 & G2 & G3 & G4 & G5). rewrite E in Hr. injection Hr as -> ->.
  assert (size (list_to_set fds ∪ open s : gset Z) = length fds + size (open s))%nat as Hz.
  { rewrite size_union; [|intros x Hx%elem_of_list_to_set Ho; by apply G5 in Hx as []]. by rewrite size_list_to_set. }
  assert ((list_to_set fds ∪ open s : gset Z) ⊆ list_to_set (seqZ 0 (limit s))) as Hsub.
  { intros x. rewrite elem_of_union, !elem_of_list_to_set, elem_of_seqZ. intros [Hx|Hx].
    - apply G5 in Hx as [_ Hx]. apply G1 in Hx. rewrite G2 in Hx. lia.
    - apply Hs in Hx. lia. }
  apply subseteq_size in Hsub. rewrite Hz, size_list_to_set in Hsub by apply NoDup_seqZ. rewrite length_seqZ in Hsub. lia.
Qed.
End server.

(** With four descriptors, two of them in use, the third client is not served. *)
Definition small : Net := mkNet {[0; 1]} 4 0 ∅ 0 (λ _, false).
Definition a_client : Turn := mkTurn (Ok tt) 1.
Example third_client_refused : fst <$> run 0 Some [a_client; a_client; a_client] small = Some [2; 3].
Proof. vm_compute. reflexivity. Qed.
